(* ===== verification/_CoqProject ===== *)
-Q . S2P
Prelude.v
Bits.v
GoStrings.v
Prog.v
ConfigContext.v
Params.v
Planner.v
PlannerProps.v
PlannerLoad.v
ConfigPolicy.v
PolicyProps.v
Files.v
CorpusMeta.v
Signal.v
Corpus.v
CorpusProps.v
Queues.v
Requests.v
RequestProps.v
Varint.v
ForeachArg.v
EncodingExec.v
DecodeExec.v
ExecInstr.v
FuzzerPrepare.v
Deflake.v
ConfigMinimize.v
Alloc.v
CorpusDB.v
CorpusDBProps.v
ChoiceTable.v
ChoiceProps.v
Hints.v
SliceMin.v
Heatmap.v
DistLiveness.v
ChoiceBoosts.v
ArgGraph.v
RemoveCall.v
Collide.v
ExecVisits.v
ExecRoundtrip.v
MinimizeCalls.v
Sizes.v
Conditions.v
Defaults.v
Validation.v
QueueSources.v
RandGen.v
DataMutation.v
Analysis.v
Generate.v
Fallback.v
CondDefaults.v
ValidRename.v
TextLex.v
TextSerialize.v
TextParse.v
TextRoundtrip.v
TextDeserialize.v
