(* ===== verification/Prelude.v ===== *)
(** * KConfuzz: a verified model of the fuzzer's core

    KConfuzz is a coverage-guided kernel fuzzer (a syzkaller derivative) that
    runs system call programs together with runtime configuration actions:
    writes of kernel parameters injected before selected calls.  This library
    models the parts that decide what is run and what is kept, as functions on
    explicit state, and proves what makes them correct.

    ** The parts and how they interact

    The planner (pkg/kconfuzz) chooses, for a program, a configuration context:
    a list of actions "write value v of parameter p before call i".  Contexts
    travel with programs, are mutated, filtered, quarantined and stored beside
    the corpus.  The encoder (prog) turns a program and its actions into the
    byte format of the executor.  Requests go through queues (pkg/fuzzer/queue)
    to virtual machines and come back with signal; new signal is merged
    (pkg/signal, pkg/fuzzer/cover.go) and interesting programs are saved in the
    corpus (pkg/corpus), from which later programs are chosen; the manager keeps
    them in a database file (pkg/db).  Triage decides whether a new signal needs
    the configuration and shrinks the context to what it needs (pkg/fuzzer/job.go).
    New programs are built call by call: a choice table (prog/prio.go) weighs
    the next call, the relation table of the planner boosts related calls, and
    allocators (prog/alloc.go) place their data.  Existing programs are changed
    with the operands of comparisons the kernel made (prog/hints.go) and at the
    interesting positions of disk images (prog/heatmap.go), calls are made to
    race with each other (prog/collide.go), and programs are reduced to the
    calls that matter (prog/minimization.go); what reproduces a crash is
    bisected (pkg/bisect/minimize).  In the corpus, in crash logs and between
    the processes programs are text: prog/encoding.go prints and parses it,
    validates what it read and gives conditional fields their defaults
    (prog/expr.go).

    ** Files

    - [Prelude]: machine integers ([u64], [i64], with their wrap-around),
      outcomes ([Ret] or [Panic]), random draws, sorting, finite map lemmas.
    - [Bits]: masks, bit fields and byte orders of uint64.
    - [GoStrings]: the string operations of the Go library the sources use.
    - [Prog]: prog/types.go, prog/prog.go, prog/target.go.  Go pointers are
      identities: a type is reached by its [Ref], arguments carry an [arg_id].
    - [ConfigContext]: prog/kconfuzz.go, the contexts and their normal form.
    - [Params], [Planner], [PlannerProps], [PlannerLoad]:
      pkg/kconfuzz/actionplanner.go, the parameter policy, value choice, the
      relation table and planning (LoadRelationTable, Plan, planRandomLevel,
      planSequenceLevel, planCallLevel, planBothLevels, PlanContext).
    - [ConfigPolicy], [PolicyProps]: the same file, what happens to a context
      afterwards (FilterSupportedActions, MutateContext, limitActions,
      TightenContextForSave, the quarantine, seed penalties, audit records,
      the environment knobs).
    - [Files]: the file system as a state with a schedule of failing calls,
      and pkg/osutil/fileutil.go (CopyFile, Rename).
    - [CorpusMeta]: pkg/kconfuzz/corpusmeta.go, the metadata store over [Files].
    - [Signal]: pkg/signal/signal.go, pkg/cover/cover.go, pkg/fuzzer/cover.go;
      the array that MergeDiff overwrites is an explicit list.
    - [Corpus], [CorpusProps]: pkg/corpus/{corpus,prio,minimize}.go; items and
      coverage arrays live in a store, so that sharing is visible; priorities
      are IEEE doubles ([spec_float] of the Standard Library).
    - [Queues], [Requests], [RequestProps]: pkg/fuzzer/queue/{queue,prio_queue,
      retry,distributor}.go.  Requests are entries of a table with their
      callbacks; the layers are step relations over submit, next and done.
    - [Varint], [ForeachArg], [EncodingExec]: encoding/binary's varints,
      prog/analysis.go (ForeachArg), prog/checksum.go, prog/encodingexec.go.
    - [DecodeExec], [ExecInstr], [ExecRoundtrip]: prog/decodeexec.go, the
      abstract instructions both sides agree on, and the round trip.
    - [FuzzerPrepare]: pkg/fuzzer/fuzzer.go (prepareKConfuzz, the quarantine
      and retry steps of processResult) and job.go (executeWithKConfuzz).
    - [Deflake]: pkg/fuzzer/job.go (deflake, stopDeflake) and fuzzer.go
      (triageProgCall, signalPrio); what executions return is arbitrary.
    - [ConfigMinimize]: pkg/fuzzer/job.go (checkKConfuzzDependency,
      minimizeKConfuzzConfig, reduceKConfuzzActions and their helpers).
    - [Alloc]: prog/alloc.go, the two-level bitmap and the page allocator.
    - [CorpusDB], [CorpusDBProps]: pkg/db/db.go, the record log over [Files].
    - [ChoiceTable], [ChoiceProps]: prog/prio.go, foreachTypeRec of
      prog/types.go and RelationChoiceBoostsFromEnv of actionplanner.go, whose
      result [ChoiceBoosts] describes.
    - [Hints]: prog/hints.go (comparison maps, shrinkExpand, the check
      functions, the limiter), swapInt of prog/mutation.go.
    - [SliceMin]: pkg/bisect/minimize/slice.go.
    - [Heatmap]: prog/heatmap.go.
    - [DistLiveness]: histories of the distributor of [Requests].
    - [ArgGraph]: prog/clone.go.  Result arguments are objects of a heap, with
      [Res] and its inverse [uses] as identities; [graph_ok] is the
      well-formedness of the graph.
    - [RemoveCall]: prog/prog.go (replaceResultArg, removeArg, RemoveCall,
      FilterInplace, OnlyContains).
    - [Collide]: prog/collide.go and randomCollide of pkg/fuzzer/job.go.
    - [MinimizeCalls]: prog/minimization.go (removeCalls, removeUnrelatedCalls,
      relatedCalls, resetCallProps, minimizeCallProps).
    - [Sizes]: prog/size.go and the traversal with parents of prog/analysis.go;
      assignments are writes to constants, applied in the end.
    - [Conditions]: prog/expr.go (Evaluate, forEachStaleUnion, checkConditions).
    - [Defaults]: the DefaultArg and isDefaultArg methods of prog/types.go and
      the Make functions of prog/prog.go.
    - [Validation]: prog/validation.go and escapingFilename of prog/rand.go.
    - [QueueSources]: Tee, DynamicSource and GlobFiles of queue.go.
    - [RandGen]: the numeric part of prog/rand.go (randInt, randRangeInt,
      biasedRand, flags and the lengths) and the mutations of integers, flags
      and array lengths of prog/mutation.go.
    - [DataMutation]: mutateData and its table, mutateBufferSize and
      mutateImage of prog/mutation.go.
    - [Analysis]: the state of prog/analysis.go and filename, randString of
      prog/rand.go.
    - [Generate]: the generate methods of prog/rand.go for arguments without
      subarguments, allocVMA, allocAddr, and mutateSize of prog/size.go.
    - [Fallback]: FallbackSignal and RequiredFeatures of prog/analysis.go.
    - [CondDefaults]: setDefaultConditions of prog/expr.go, the rounds that
      replace unions whose conditions do not hold.
    - [ValidRename]: a renaming of the result arguments does not change what
      validation says, by the generic [Section]s on maps of [Sizes] and
      [Conditions].
    - [TextLex]: the scanner of prog/encoding.go (Char, Ident, Parse, SkipWs)
      with numbers, quoted and hexadecimal data, as a state monad with errors
      and panics.
    - [TextSerialize]: the printer of prog/encoding.go (Serialize and its
      options, serialize for every kind of argument).
    - [TextParse]: its parser, strict and lenient (parseProg, parseCall,
      parseProps, parseArg and the methods it calls, eatExcessive).
    - [TextRoundtrip]: what the parser does with the output of the printer.
    - [TextDeserialize]: Deserialize as a whole (fixupAutos,
      fixupConditionals, sanitize, the unsafe modes) and CallSet.

    ** What the theorems show

    Planning: a plan writes each parameter at most once, respects the limits
    and places every action inside the program ([plan_spec]); what is planned
    from a loaded table survives the executor-side filter
    ([plan_survives_filter]); loading accepts exactly the documented rows
    ([LoadRelationTable_spec]); the random level visits every candidate
    ([random_level_complete]); values are legal ([planned_value_spec]);
    shuffles do not depend on map iteration ([shuffle_deterministic]).

    Contexts: normalization, cloning, equality ([normalize_spec],
    [CloneForProg_spec], [context_equal_spec]); mutation never adds actions
    ([MutateContext_spec]); limits, quarantine and penalties ([limitActions_spec],
    [quarantine_spec], [seed_penalty_spec], [normalizeOptions_spec]); the store
    survives a restart and failing writes ([meta_reopen], [meta_atomic],
    [MetaSave_spec]), but not a failing rename ([meta_rename_loses]).

    Database: it refines a map across restarts ([db_restart_spec]) and a cut
    file gives back what was completely written ([cut_log_spec]); what goes
    wrong when calls fail ([flush_retry_corrupts], [open_repair_destroys],
    [cut_after_key_silent]).

    Building programs: a choice never fails and yields an enabled call
    ([choice_table_spec]) with the weight of its priority ([choose_weighted]);
    the boosts are exactly the related pairs ([boosts_spec]);
    allocations are aligned, inside the memory and disjoint while there is room
    ([ma_alloc_spec], [memAlloc_type], [va_alloc_spec]).  A new call is offered
    exactly the resources made before it ([analyze_spec]); a file name for it is
    always found and stays below the working directory ([filename_safe], but see
    [filename_cut_escapes]); generated integers, areas and pointers pass
    validation ([generate_const_valid], [generate_vma_valid], [allocAddr_valid]).

    Changing programs: hints are exactly the operands some cast of the argument
    was compared with ([shrinkExpand_spec]), trying them restores the argument
    ([checkDataArg_spec], but see [data_abort_ignored]) and each PC gives ten of
    them ([limit_history_spec]); positions of an image are chosen among those
    in varied chunks ([heatmap_spec]) and an image keeps its size
    ([mutateImage_spec]); byte mutations stay within the bounds of the type
    ([mutateData_bounds]) and aligned integers within their range
    ([mutate_int_aligned], but see [mutate_int_negative]), while ranged arrays
    lose all elements ([array_count_clears]); bisection always ends with a subsequence
    that was accepted and, without limits, is one-minimal ([Slice_spec],
    [SliceWithFixed_spec]).

    Programs as graphs: a clone is an isomorphic copy ([Clone_spec]); removing
    calls keeps the graph well-formed ([RemoveCall_spec], [FilterInplace_spec]);
    an asynchronous call is kept apart from the users of its results
    ([AssignRandomAsync_spec]) and collided programs stay within the executor's
    limits ([randomCollide_spec], but see [async_limit_passed] and
    [dup_moves_calls]); the related calls are a transitive closure
    ([relatedCalls_spec]), and the minimisation of calls keeps the target call
    and only what the predicate accepted ([removeCalls_spec],
    [resetCallProps_spec], [minimizeCallProps_spec]).  What these operations
    rely on is what validation checks ([validate_sound], but see
    [self_reference_validates]); validated file names stay below the working
    directory ([escapingFilename_sound]) and validated unions satisfy their
    conditions ([checkConditions_sound]).  Length fields hold the sizes they
    describe ([assignSizesCall_spec]); default arguments exist and are
    recognised ([DefaultArg_spec]); conditional fields get their defaults in
    finitely many rounds, after which no union is left open
    ([setDefaultConditions_ends], but see [nested_stale_panics]).

    Text format: a validated program that is printed and read back is an
    isomorphic copy of itself, the verbose form in every mode and the short one
    in the non-strict modes ([Deserialize_Serialize]); the parser ends on every
    text, with a program or an error and never in a panic ([parse_total]); AUTO arguments are filled in ([autos_filled]), and
    what lenient parsing does with elements that are too many
    ([excess_elements]).

    Corpus and signal: the invariant of the corpus is kept by saving and
    minimising, with the total signal preserved ([Save_spec],
    [CorpusMinimize_spec], [SignalMinimize_spec]); choice is safe and
    proportional to the priorities ([ChooseItem_reach], [chooseItem_spec]); the
    maximal signal is the least upper bound of what was reported, under every
    interleaving ([cover_run_spec]); in-place merging ([MergeDiff_spec]) and the
    aliasing it causes in Save ([Save_cover_alias]).  Without coverage, signal
    is made from call numbers and errnos and decodes to them
    ([FallbackSignal_spec]).

    Queues: the slice queue refines a FIFO and the heap a multiset with minimum
    ([plain_refines], [dynamic_order_spec]); bounded queue, validation
    ([random_queue_spec], [Validate_spec]); the retry, deduplication and
    distribution layers lose and duplicate no request in any history
    ([retry_spec], [dedup_spec], [distributor_spec]), and a delayed request is
    released in the end ([delayed_released]); copies of requests share nothing
    with the originals ([Tee_spec]); names in the output of a glob
    ([GlobFiles_roundtrip]).

    Exec format: what the encoder writes, the decoder reads back
    ([exec_roundtrip], [exec_call_count]); decoding terminates on every input
    ([parse_terminates]); what it does after an error ([read_args_after_error]).

    Fuzzer: a prepared request only carries actions the executor accepts
    ([prepare_spec]), but a requeued one escapes the quarantine
    ([requeue_ignores_quarantine]); the stable signal of a triaged call is what
    enough runs agree on ([deflake_stable]), except for calls found on the way
    ([deflake_counts_twice]); triage terminates ([deflake_terminates]).  A
    context is kept only if runs without it miss the signal
    ([checkKConfuzzDependency_spec]), and what is saved reproduces it and is
    small ([reduceKConfuzzActions_spec], [minimizeKConfuzzConfig_spec]).

    ** Bounds and fuel

    Loops that are not structural carry fuel, and each such loop has a theorem
    that the fuel is enough: the coprime search and the Euclidean loop of the
    planner, the heap's sift operations, the Next loops of the deduplicator and
    the distributor, the decoder's loop (one round per byte), deflaking (20
    runs), the deletion passes of the context reduction (2n(log2 n + 1) runs),
    the search for free memory and the one recursion of the allocator, the
    traversal of recursive types ([enough_fuel]), the reading of a database
    (one round per byte), the bisection of a slice (one round per element), the
    scan of an image (one round per byte), the closure of related calls (one
    round per call), default arguments (the rank of the type), the search for a
    new file name (one round more than there are files), the parsing of a text
    (its length: every round consumes a character), the rounds of
    setDefaultConditions (the weight [open_weight] of the unions that can still
    be replaced, which every round lowers).  Loops that go on as
    long as the generator says so (mutateData, mutateBufferSize, flags, strings,
    array lengths) end with any fuel or not at all, depending on the draws; for
    the first two some draws end them in the next round ([mutateData_ends],
    [mutateBufferSize_ends]).  [find_parent] stops after as many parents as there
    are, where the source would go round a cycle.  Varints use ten groups, the
    width of a uint64.  [int] is 64 bits wide.
    Random numbers are an arbitrary list of draws, so theorems hold for every
    generator.

    ** Parameters

    Code outside the modelled sources is a parameter with its documented
    behaviour as a hypothesis: JSON, hashing, program serialization, the gob
    hash of requests, the file system's failures, compression ([Flate]), the
    iteration order of maps, what executions return, the generated parameter
    registry ([RegistryOK] states what its generator guarantees), the kfuzztest
    blob, base64 and the image codec of the text format, the Neutralize hook of
    a target.  Each hypothesis has an instance in a witness.

    ** Not modelled, and why

    Locks (the modelled operations are atomic, as the mutexes make them),
    statistics and logging; the goroutines and the remaining jobs of the fuzzer;
    the generation of composite arguments, resources, machine code and whole
    calls, and the mutations of calls and programs (patchConditionalFields,
    which generates new fields, with them); the manager, RPC, VM and dashboard layers, which are process control and
    I/O; generated tables and the C++ executor.  MutateWithHints executes
    programs that target-specific code has changed in place.  The
    minimisation of single arguments and the generation and mutation of whole
    calls would be the next parts to add. *)

From stdpp Require Export base gmap strings list sorting numbers pretty.
#[global] Open Scope Z_scope.

(** ** Machine integers

    Go's [uint64], [uint32], ... are modelled by [Z] values kept in range by
    an explicit wrap-around; [int] is 64 bits wide on the targets the program
    supports and its signed wrap is [i64]. *)

Definition u64 (x : Z) : Z := x mod 2 ^ 64.
Definition u32 (x : Z) : Z := x mod 2 ^ 32.
Definition u8 (x : Z) : Z := x mod 2 ^ 8.
Definition i64 (x : Z) : Z := (x + 2 ^ 63) mod 2 ^ 64 - 2 ^ 63.
Definition i32 (x : Z) : Z := (x + 2 ^ 31) mod 2 ^ 32 - 2 ^ 31.
Definition i8 (x : Z) : Z := (x + 2 ^ 7) mod 2 ^ 8 - 2 ^ 7.

Declare Scope go_scope.
Delimit Scope go_scope with go.
Notation "x +u y" := (u64 (x + y)) (at level 50, left associativity) : go_scope.
Notation "x -u y" := (u64 (x - y)) (at level 50, left associativity) : go_scope.
Notation "x *u y" := (u64 (x * y)) (at level 40, left associativity) : go_scope.
#[global] Open Scope go_scope.

Definition in_u64 (x : Z) : Prop := 0 ≤ x < 2 ^ 64.
Definition in_i64 (x : Z) : Prop := - 2 ^ 63 ≤ x < 2 ^ 63.
#[export] Instance in_u64_dec x : Decision (in_u64 x).
Proof. unfold in_u64; apply _. Defined.
#[export] Instance in_i64_dec x : Decision (in_i64 x).
Proof. unfold in_i64; apply _. Defined.

(** The rewriting and resolution databases of the development. *)
Create HintDb go.

Lemma u64_range x : in_u64 (u64 x).
Proof. unfold in_u64, u64. apply Z.mod_pos_bound. lia. Qed.
Lemma u64_id x : in_u64 x → u64 x = x.
Proof. intros. unfold u64. by apply Z.mod_small. Qed.
Lemma u64_idem x : u64 (u64 x) = u64 x.
Proof. apply u64_id, u64_range. Qed.
Lemma i64_range x : in_i64 (i64 x).
Proof.
  unfold in_i64, i64. pose proof (Z.mod_pos_bound (x + 2 ^ 63) (2 ^ 64)). lia.
Qed.
Lemma i64_id x : in_i64 x → i64 x = x.
Proof. unfold in_i64, i64. intros. rewrite Z.mod_small; lia. Qed.
#[export] Hint Resolve u64_range i64_range : go.

(** [uint64(int64(x))] and back are mutually inverse reinterpretations. *)
Lemma u64_i64 x : in_u64 x → u64 (i64 x) = x.
Proof.
  unfold in_u64, u64, i64. intros Hx.
  destruct (decide (x < 2 ^ 63)).
  - rewrite (Z.mod_small (x + _)); [|lia].
    replace (x + 2 ^ 63 - 2 ^ 63) with x by lia. apply Z.mod_small; lia.
  - replace (x + 2 ^ 63) with ((x - 2 ^ 63) + 1 * 2 ^ 64) by lia.
    rewrite Z.mod_add by lia. rewrite (Z.mod_small (x - _)); [|lia].
    replace (x - 2 ^ 63 - 2 ^ 63) with (x + (-1) * 2 ^ 64) by lia.
    rewrite Z.mod_add by lia. apply Z.mod_small; lia.
Qed.

Lemma i64_u64 x : in_i64 x → i64 (u64 x) = x.
Proof.
  unfold in_i64, u64, i64. intros Hx.
  destruct (decide (0 ≤ x)).
  - rewrite (Z.mod_small x); [|lia]. rewrite Z.mod_small; lia.
  - replace (x mod 2 ^ 64) with (x + 2 ^ 64).
    + replace (x + 2 ^ 64 + 2 ^ 63) with ((x + 2 ^ 63) + 1 * 2 ^ 64) by lia.
      rewrite Z.mod_add by lia. rewrite Z.mod_small; lia.
    + replace x with ((x + 2 ^ 64) + (-1) * 2 ^ 64) at 2 by lia.
      rewrite Z.mod_add by lia. by rewrite Z.mod_small by lia.
Qed.

(** ** Outcomes: a Go computation either returns or panics *)

Inductive outcome (A : Type) : Type :=
| Ret (a : A)
| Panic.
Arguments Ret {A} _.
Arguments Panic {A}.

#[export] Instance outcome_ret : MRet outcome := λ A a, Ret a.
#[export] Instance outcome_bind : MBind outcome := λ A B f m,
  match m with Ret a => f a | Panic => Panic end.
#[export] Instance outcome_fmap : FMap outcome := λ A B f m,
  match m with Ret a => Ret (f a) | Panic => Panic end.

Lemma Ret_inj {A} (x y : A) : Ret x = Ret y → x = y.
Proof. by intros [= ->]. Qed.
Lemma bind_Ret {A B} (m : outcome A) (f : A → outcome B) b :
  (m ≫= f) = Ret b ↔ ∃ a, m = Ret a ∧ f a = Ret b.
Proof. destruct m; [|naive_solver]. split; [eauto|]. by intros (? & [= ->] & ?). Qed.
Lemma fmap_Ret {A B} (m : outcome A) (f : A → B) b :
  (f <$> m) = Ret b ↔ ∃ a, m = Ret a ∧ b = f a.
Proof. destruct m; simpl; split; intros; simplify_eq/=; destruct_and?; naive_solver. Qed.

(** [inv_ret H] decomposes [H : (x ← m; k x) = Ret b] completely. *)
Ltac inv_ret H :=
  repeat match type of H with
  | (_ ≫= _) = Ret _ =>
      let a := fresh "v" in let Ha := fresh "Hv" in
      apply bind_Ret in H as (a & Ha & H)
  | (_ <$> _) = Ret _ =>
      let a := fresh "v" in let Ha := fresh "Hv" in
      apply fmap_Ret in H as (a & Ha & H)
  end.

(** Slice indexing: out of range is a panic. *)
Definition index {A} (l : list A) (i : Z) : outcome A :=
  if decide (0 ≤ i) then
    match l !! Z.to_nat i with Some x => Ret x | None => Panic end
  else Panic.

(** [len(l)] as a Go [int]. *)
Definition len {A} (l : list A) : Z := Z.of_nat (length l).

Lemma index_Ret {A} (l : list A) i :
  0 ≤ i < len l → ∃ x, index l i = Ret x ∧ l !! Z.to_nat i = Some x.
Proof.
  unfold index, len. intros [H1 H2]. rewrite decide_True by done.
  destruct (l !! Z.to_nat i) eqn:E; [eauto|].
  apply lookup_ge_None in E. lia.
Qed.

Lemma index_Some {A} (l : list A) (i : Z) x :
  0 ≤ i → l !! Z.to_nat i = Some x → index l i = Ret x.
Proof. unfold index. intros ? ->. by rewrite decide_True. Qed.

(** ** Randomness

    [*rand.Rand] is the list of the raw draws still to come.  [Intn n] is a
    draw reduced to [0, n) and panics for [n <= 0], as in math/rand.  Every
    legal sequence of results is produced by some list, so a theorem that
    holds for all lists holds for all generators. *)
Definition rng : Type := list Z.
Definition draw (r : rng) : Z * rng := (hd 0 r, tl r).
Definition Intn (n : Z) (r : rng) : outcome (Z * rng) :=
  if decide (0 < n) then Ret (hd 0 r mod n, tl r) else Panic.

Arguments Intn : simpl never.
Arguments index : simpl never.
Arguments u64 : simpl never.
Arguments i64 : simpl never.

Lemma Intn_Ret n r : 0 < n → ∃ i, Intn n r = Ret (i, tl r) ∧ 0 ≤ i < n.
Proof.
  intros. unfold Intn. rewrite decide_True by done.
  eexists; split; [done|]. by apply Z.mod_pos_bound.
Qed.
Lemma Intn_inv n r i r' : Intn n r = Ret (i, r') → 0 ≤ i < n.
Proof.
  unfold Intn. case_decide; [|done]. intros [= <- _]. by apply Z.mod_pos_bound.
Qed.

(** ** Sorting

    [sort.SliceStable] with comparator [less] has exactly one result, the
    stable one, which [sort_by] computes by insertion.  [sort.Slice] is only
    used by the program with comparators that separate distinct elements; its
    result is then unique as well ([sort_by_unique]). *)
Section sort_by.
Context {A : Type} (less : A → A → bool).

Fixpoint insert_by (x : A) (l : list A) : list A :=
  match l with
  | [] => [x]
  | y :: l' => if less y x then y :: insert_by x l' else x :: y :: l'
  end.
Definition sort_by (l : list A) : list A := foldr insert_by [] l.

(** [x] may stay before [y]. *)
Definition le_by (x y : A) : Prop := less y x = false.

Class GoLess : Prop := {
  less_asym : ∀ x y, less x y = true → less y x = false;
  le_by_trans : ∀ x y z, le_by x y → le_by y z → le_by x z
}.

Lemma insert_by_perm x l : insert_by x l ≡ₚ x :: l.
Proof.
  induction l as [|y l IH]; simpl; [done|].
  destruct (less y x); [|done]. rewrite IH. apply Permutation_swap.
Qed.
Lemma sort_by_perm l : sort_by l ≡ₚ l.
Proof.
  unfold sort_by. induction l as [|x l IH]; simpl; [done|].
  by rewrite insert_by_perm, IH.
Qed.

Lemma length_sort_by l : length (sort_by l) = length l.
Proof. by rewrite sort_by_perm. Qed.
Lemma elem_of_sort_by x l : x ∈ sort_by l ↔ x ∈ l.
Proof. by rewrite sort_by_perm. Qed.

Section ordered.
Context `{!GoLess}.

Lemma insert_by_sorted x l :
  StronglySorted le_by l → StronglySorted le_by (insert_by x l).
Proof.
  induction 1 as [|y l Hl IH Hy]; simpl; [by repeat constructor|].
  destruct (less y x) eqn:E.
  - constructor; [done|]. rewrite insert_by_perm. constructor; [|done].
    by apply less_asym.
  - constructor; [by constructor|]. constructor; [done|].
    eapply Forall_impl; [done|]. intros z Hz. by eapply le_by_trans.
Qed.
Lemma sort_by_sorted l : StronglySorted le_by (sort_by l).
Proof.
  unfold sort_by. induction l; simpl; [constructor|]. by apply insert_by_sorted.
Qed.

(** Any sorted rearrangement is the one [sort_by] computes, when the
    comparator separates distinct elements of the list. *)
Lemma sort_by_unique l l' :
  (∀ x y, x ∈ l → y ∈ l → le_by x y → le_by y x → x = y) →
  StronglySorted le_by l' → l' ≡ₚ l → l' = sort_by l.
Proof.
  intros Hanti Hs Hp.
  apply (StronglySorted_unique_strong le_by); [|done|apply sort_by_sorted|].
  - intros x1 x2 H1 H2. apply Hanti; [by rewrite <-Hp|by rewrite <-(sort_by_perm l)].
  - by rewrite sort_by_perm.
Qed.
Lemma sort_by_Permutation l l' :
  (∀ x y, x ∈ l → y ∈ l → le_by x y → le_by y x → x = y) →
  l ≡ₚ l' → sort_by l' = sort_by l.
Proof.
  intros Ha Hp. apply sort_by_unique; [done|apply sort_by_sorted|].
  by rewrite sort_by_perm.
Qed.
End ordered.

(** Sorting a sorted list changes nothing. *)
Lemma sort_by_id l : StronglySorted le_by l → sort_by l = l.
Proof.
  unfold sort_by. induction 1 as [|x l Hl IH Hx]; simpl; [done|]. rewrite IH.
  destruct l as [|y l]; simpl; [done|].
  inversion Hx as [|?? Hxy _]; subst. unfold le_by in Hxy. by rewrite Hxy.
Qed.

(** Stability: elements the comparator does not separate keep their order. *)
Lemma insert_by_stable (P : A → Prop) `{!∀ x, Decision (P x)} x l :
  (∀ x y, P x → P y → less x y = false) →
  filter P (insert_by x l) = filter P (x :: l).
Proof.
  intros HP. induction l as [|y l IH]; simpl; [done|].
  destruct (less y x) eqn:E; [|done].
  rewrite filter_cons, IH, !filter_cons.
  repeat case_decide; try done. by rewrite (HP y x) in E.
Qed.
Lemma sort_by_stable (P : A → Prop) `{!∀ x, Decision (P x)} l :
  (∀ x y, P x → P y → less x y = false) →
  filter P (sort_by l) = filter P l.
Proof.
  intros HP. unfold sort_by. induction l as [|x l IH]; simpl; [done|].
  rewrite insert_by_stable by done. rewrite !filter_cons.
  by rewrite IH.
Qed.
End sort_by.
Arguments GoLess {A} less.
#[export] Hint Resolve sort_by_perm sort_by_sorted : go.

(** Comparison by one integer key. *)
Definition less_on {A} (key : A → Z) (x y : A) : bool := key x <? key y.
#[export] Instance less_on_GoLess {A} (key : A → Z) : GoLess (less_on key).
Proof. split; unfold le_by, less_on; intros; lia. Qed.
(** Distinct integers in increasing order. *)
Lemma sort_by_increasing (l : list Z) : NoDup l → StronglySorted Z.lt (sort_by (less_on id) l).
Proof.
  intros Hl. assert (Hs : StronglySorted (le_by (less_on id)) (sort_by (less_on id) l)) by (apply sort_by_sorted; apply _).
  rewrite <-(sort_by_perm (less_on id)) in Hl. induction Hs as [|x k Hk IH Hx]; constructor.
  - apply IH. by apply NoDup_cons in Hl as [_ ?].
  - apply NoDup_cons in Hl as [Hnin _]. apply Forall_forall. intros y Hy. rewrite Forall_forall in Hx. specialize (Hx y Hy).
    unfold le_by, less_on, id in Hx. destruct (decide (x = y)) as [->|]; [done|lia].
Qed.

(** Go compares strings byte-wise; [sort.Strings] sorts by this [<]. *)
Definition string_less (s t : string) : bool := negb (String.leb t s).
#[export] Instance string_less_GoLess : GoLess string_less.
Proof.
  split; unfold le_by, string_less.
  - intros s t H. destruct (total String.le s t) as [E|E]; unfold String.le in E.
    + destruct (String.leb s t); done.
    + destruct (String.leb t s); done.
  - intros s t u Hst Htu. apply negb_false_iff in Hst, Htu. apply negb_false_iff.
    apply Is_true_true, (transitivity (R:=String.le) (y:=t)); by apply Is_true_true.
Qed.

(** ** Binary search

    [sort.Search n f]: the loop halves [i, j); [n] rounds are enough because
    the interval shrinks in every one. *)
Fixpoint search_loop (fuel : nat) (f : nat → bool) (i j : nat) : nat :=
  match fuel with
  | O => i
  | S fuel =>
      if decide (i < j)%nat then
        let h := ((i + j) / 2)%nat in
        if f h then search_loop fuel f i h else search_loop fuel f (S h) j
      else i
  end.
Definition Search (n : nat) (f : nat → bool) : nat := search_loop n f 0 n.

Lemma search_loop_spec fuel f i j :
  (j - i ≤ fuel)%nat → (i ≤ j)%nat →
  (∀ a b, (a ≤ b)%nat → f a = true → f b = true) →
  let r := search_loop fuel f i j in
  (i ≤ r ≤ j)%nat ∧ (∀ k, (i ≤ k < r)%nat → f k = false) ∧ ((r < j)%nat → f r = true).
Proof.
  revert i j. induction fuel as [|fuel IH]; intros i j Hf Hij Hmono; cbn [search_loop].
  { split_and!; lia. }
  destruct (decide (i < j)%nat); [|split_and!; lia].
  assert (Hh : (i ≤ (i + j) / 2 < j)%nat).
  { split; [apply Nat.div_le_lower_bound|apply Nat.Div0.div_lt_upper_bound]; lia. }
  set (h := ((i + j) / 2)%nat) in *. destruct (f h) eqn:Eh.
  - destruct (IH i h) as (H1 & H2 & H3); [lia|lia|done|]. split_and!; [lia..|done|].
    intros _. destruct (decide (search_loop fuel f i h < h)%nat); [auto|].
    by replace (search_loop fuel f i h) with h by lia.
  - destruct (IH (S h) j) as (H1 & H2 & H3); [lia|lia|done|]. split_and!; [lia..| |done].
    intros k Hk. destruct (decide (S h ≤ k)%nat); [apply H2; lia|].
    destruct (f k) eqn:Ek; [|done]. rewrite (Hmono k h) in Eh; [done|lia|done].
Qed.

Lemma Search_spec n f :
  (∀ a b, (a ≤ b)%nat → f a = true → f b = true) →
  (Search n f ≤ n)%nat ∧ (∀ k, (k < Search n f)%nat → f k = false) ∧
  ((Search n f < n)%nat → f (Search n f) = true).
Proof.
  intros Hmono. destruct (search_loop_spec n f 0 n) as (H1 & H2 & H3); [lia..|done|].
  split_and!; [apply H1| |done]. intros k Hk. apply H2. unfold Search in Hk. lia.
Qed.

(** ** Maps

    [range m] over a Go map visits the entries in an unspecified order.  The
    model visits [map_to_list m]; where the program's result depends on that
    order the operation takes the order as an argument instead. *)
Definition values {K} `{Countable K} {V} (m : gmap K V) : list V := (map_to_list m).*2.

Lemma elem_of_values {K} `{Countable K} {V} (m : gmap K V) v :
  v ∈ values m ↔ ∃ k, m !! k = Some v.
Proof.
  unfold values. rewrite list_elem_of_fmap. split.
  - intros ([k v'] & -> & Hin). exists k. by apply elem_of_map_to_list.
  - intros [k Hk]. exists (k, v). split; [done|]. by apply elem_of_map_to_list.
Qed.
Lemma length_values {K} `{Countable K} {V} (m : gmap K V) : length (values m) = size m.
Proof. unfold values. by rewrite length_fmap, length_map_to_list. Qed.

(** ** Lists *)

Lemma NoDup_fmap_take {A B} (f : A → B) n (l : list A) :
  NoDup (f <$> l) → NoDup (f <$> take n l).
Proof.
  intros Hl. rewrite <-(take_drop n l), fmap_app in Hl. by apply NoDup_app in Hl as [? _].
Qed.

Lemma Forall_snoc {A} (P : A → Prop) l x : Forall P (l ++ [x]) ↔ Forall P l ∧ P x.
Proof. by rewrite Forall_app, Forall_singleton. Qed.

(** Every element of a sublist is an element of the list. *)
Lemma sublist_elem_of {A} (l k : list A) x : l `sublist_of` k → x ∈ l → x ∈ k.
Proof. induction 1; set_solver. Qed.

(** [filter] only looks at the elements of the list. *)
Lemma list_filter_ext_in {A} (P Q : A → Prop) `{!∀ x, Decision (P x), !∀ x, Decision (Q x)} (l : list A) :
  (∀ x, x ∈ l → P x ↔ Q x) → filter P l = filter Q l.
Proof.
  induction l as [|x l IH]; intros HPQ; [done|]. rewrite !filter_cons.
  rewrite IH by (intros y Hy; apply HPQ; by right).
  specialize (HPQ x ltac:(left)). repeat case_decide; naive_solver.
Qed.

Lemma StronglySorted_filter {A} (R : relation A) (P : A → Prop) `{!∀ x, Decision (P x)} (l : list A) :
  StronglySorted R l → StronglySorted R (filter P l).
Proof.
  induction 1 as [|x l Hl IH Hx]; [constructor|]. rewrite filter_cons. case_decide; [|done].
  constructor; [done|]. apply Forall_forall. intros y [_ Hy]%list_elem_of_filter.
  rewrite Forall_forall in Hx. auto.
Qed.

Lemma mapM_Ret {A B} (f : A → outcome B) (l : list A) (k : list B) :
  Forall2 (λ x y, f x = Ret y) l k → mapM f l = Ret k.
Proof.
  induction 1 as [|x y l k Hxy _ IH]; [done|]. cbn [mapM].
  rewrite Hxy. cbn [mbind outcome_bind]. rewrite IH. done.
Qed.

(** Reading a list at strictly increasing positions gives a sublist. *)
Lemma sublist_increasing {A} (l : list A) (js : list nat) :
  StronglySorted lt js → omap (λ j, l !! j) js `sublist_of` l.
Proof.
  revert js. induction l as [|x l IH]; intros js Hs.
  { replace (omap _ js) with (@nil A); [constructor|]. clear Hs.
    induction js as [|j js IH]; [done|]. by destruct j. }
  assert (Hshift : ∀ ks, Forall (λ j, 0 < j)%nat ks → StronglySorted lt ks →
            omap (λ j, (x :: l) !! j) ks `sublist_of` l).
  { intros ks Hpos Hks.
    replace (omap (λ j, (x :: l) !! j) ks) with (omap (λ j, l !! j) (pred <$> ks)).
    - apply IH. clear -Hpos Hks. induction Hks as [|k ks Hk IHk Hx]; [constructor|].
      apply Forall_cons in Hpos as [Hk0 Hpos]. constructor; [auto|].
      apply Forall_forall. intros j (j0 & -> & Hj0)%list_elem_of_fmap.
      rewrite Forall_forall in Hx, Hpos. specialize (Hx j0 Hj0). specialize (Hpos j0 Hj0). lia.
    - clear -Hpos. induction Hpos as [|k ks Hk Hpos IHk]; [done|]. simpl.
      destruct k; [lia|]. simpl. destruct (l !! k); [f_equal|]; apply IHk. }
  destruct js as [|j js]; [apply sublist_nil_l|].
  inversion Hs as [|?? Hs' Hj]; subst. destruct j as [|j].
  - simpl. apply sublist_skip, Hshift; [|done].
    eapply Forall_impl; [done|]. simpl. lia.
  - apply sublist_cons, Hshift; [|done]. constructor; [lia|].
    eapply Forall_impl; [done|]. simpl. lia.
Qed.

Lemma StronglySorted_seqZ_fmap {B} (R : relation B) (f : Z → B) m k :
  (∀ i j, m ≤ i < j → R (f i) (f j)) → StronglySorted R (f <$> seqZ m k).
Proof.
  intros Hf. remember (Z.to_nat k) as n eqn:En. revert m k Hf En.
  induction n as [|n IH]; intros m k Hf En.
  { rewrite seqZ_nil by lia. constructor. }
  rewrite seqZ_cons, fmap_cons by lia. constructor.
  - apply IH; [intros; apply Hf; lia|lia].
  - apply Forall_forall. intros y (j & -> & Hj)%list_elem_of_fmap.
    apply elem_of_seqZ in Hj. apply Hf. lia.
Qed.
