(* ===== verification/Bits.v ===== *)
(** * Bits and bytes of machine integers

    Masks, complements and byte orders as the sources write them (with Go's
    [&], [|], [^] and shifts on uint64), and their meaning in terms of division
    and remainder. *)

From Stdlib Require Import ZArith.
From S2P Require Import Prelude.

(** ** Masks *)

(** [1 << n], [^x] and [1<<n - 1] on uint64. *)
Definition shl1 (n : Z) : Z := u64 (Z.shiftl 1 n).
Definition not64 (x : Z) : Z := u64 (Z.lnot x).
Definition mask64 (n : Z) : Z := shl1 n -u 1.

Lemma shl1_small n : 0 ≤ n < 64 → shl1 n = 2 ^ n.
Proof.
  intros Hn. unfold shl1. rewrite Z.shiftl_1_l. apply u64_id. unfold in_u64.
  pose proof (Z.pow_pos_nonneg 2 n). pose proof (Z.pow_lt_mono_r 2 n 64). lia.
Qed.
Lemma mask64_eq n : 0 ≤ n ≤ 64 → mask64 n = 2 ^ n - 1.
Proof.
  intros Hn. destruct (decide (n = 64)) as [->|Hne]; [done|]. unfold mask64. rewrite shl1_small by lia. apply u64_id.
  unfold in_u64. pose proof (Z.pow_pos_nonneg 2 n). pose proof (Z.pow_lt_mono_r 2 n 64). lia.
Qed.
Lemma not64_eq x : in_u64 x → not64 x = 2 ^ 64 - 1 - x.
Proof.
  unfold in_u64, not64, u64. intros Hx. pose proof (Z.add_lnot_diag x).
  symmetry. apply Z.mod_unique with (-1); lia.
Qed.
Lemma pow2_le n : 0 ≤ n ≤ 64 → 1 ≤ 2 ^ n ≤ 2 ^ 64.
Proof. intros. pose proof (Z.pow_pos_nonneg 2 n). pose proof (Z.pow_le_mono_r 2 n 64). lia. Qed.
Lemma not_mask64 n : 0 ≤ n ≤ 64 → not64 (mask64 n) = 2 ^ 64 - 2 ^ n.
Proof. intros Hn. pose proof (pow2_le n Hn). rewrite mask64_eq, not64_eq by (unfold in_u64; lia). lia. Qed.

Lemma land_mask x n : 0 ≤ n ≤ 64 → Z.land x (mask64 n) = x mod 2 ^ n.
Proof. intros Hn. rewrite mask64_eq, Z.sub_1_r, <-Z.ones_equiv by done. apply Z.land_ones. lia. Qed.
Lemma ldiff_mask x n : 0 ≤ n ≤ 64 → Z.ldiff x (mask64 n) = x - x mod 2 ^ n.
Proof.
  intros Hn. rewrite mask64_eq, Z.sub_1_r, <-Z.ones_equiv, Z.ldiff_ones_r, Z.shiftl_mul_pow2, Z.shiftr_div_pow2 by lia.
  pose proof (Z.div_mod x (2 ^ n)). pose proof (Z.pow_pos_nonneg 2 n). lia.
Qed.

(** Two parts that share no bit. *)
Lemma land_parts a b n : 0 ≤ n → 0 ≤ a < 2 ^ n → Z.land a (Z.shiftl b n) = 0.
Proof.
  intros Hn Ha. apply Z.bits_inj'. intros i Hi. rewrite Z.land_spec, Z.shiftl_spec, Z.bits_0 by done.
  destruct (decide (i < n)); [rewrite (Z.testbit_neg_r b) by lia; by rewrite andb_false_r|].
  rewrite <-(Z.mod_small a (2 ^ n)), Z.mod_pow2_bits_high by lia. done.
Qed.
Lemma lor_parts a b n : 0 ≤ n → 0 ≤ a < 2 ^ n → Z.lor a (Z.shiftl b n) = a + b * 2 ^ n.
Proof.
  intros Hn Ha. pose proof (land_parts a b n Hn Ha) as H.
  rewrite <-Z.shiftl_mul_pow2 by done. rewrite <-(Z.lxor_lor _ _ H). symmetry. by apply Z.add_nocarry_lxor.
Qed.
Lemma lor_parts' a b n : 0 ≤ n → 0 ≤ b < 2 ^ n → Z.lor (a * 2 ^ n) b = a * 2 ^ n + b.
Proof. intros Hn Hb. rewrite Z.lor_comm, <-Z.shiftl_mul_pow2, lor_parts, Z.shiftl_mul_pow2 by done. lia. Qed.

(** Sign extension: the bits from [n] on are set. *)
Lemma lor_not_mask x n : in_u64 x → 0 ≤ n ≤ 64 → Z.lor x (not64 (mask64 n)) = x mod 2 ^ n + (2 ^ 64 - 2 ^ n).
Proof.
  intros Hx Hn. pose proof (pow2_le n Hn) as Hp. rewrite not_mask64 by done.
  assert (E : 2 ^ 64 - 2 ^ n = Z.shiftl (Z.ones (64 - n)) n).
  { rewrite Z.shiftl_mul_pow2, Z.ones_equiv, <-Z.sub_1_r, Z.mul_sub_distr_r, <-Z.pow_add_r by lia.
    replace (64 - n + n) with 64 by lia. lia. }
  rewrite E. pose proof (Z.mod_pos_bound x (2 ^ n) ltac:(lia)) as Hm.
  rewrite Z.shiftl_mul_pow2 at 2 by lia. rewrite <-lor_parts by lia. apply Z.bits_inj'. intros i Hi.
  rewrite !Z.lor_spec, Z.shiftl_spec by done. destruct (decide (i < n)) as [Hlt|Hge].
  - by rewrite Z.mod_pow2_bits_low by lia.
  - rewrite Z.mod_pow2_bits_high by lia. destruct (decide (i < 64)) as [Hi64|Hi64].
    + rewrite Z.ones_spec_low by lia. by rewrite orb_true_r.
    + rewrite <-(u64_id x Hx). unfold u64. rewrite Z.mod_pow2_bits_high by lia. done.
Qed.
(** The top bits of an integer. *)
Lemma land_not_mask x n : in_u64 x → 0 ≤ n ≤ 64 → Z.land (not64 (mask64 n)) x = x - x mod 2 ^ n.
Proof.
  intros Hx Hn. rewrite <-ldiff_mask by done. apply Z.bits_inj'. intros i Hi. rewrite Z.land_spec, Z.ldiff_spec.
  destruct (decide (i < 64)) as [Hi64|Hi64].
  - unfold not64, u64. rewrite Z.mod_pow2_bits_low, Z.lnot_spec by lia. apply andb_comm.
  - rewrite <-(u64_id x Hx). unfold u64. rewrite Z.mod_pow2_bits_high by lia. by rewrite andb_false_r.
Qed.
Lemma top_bits_set x n : in_u64 x → 0 ≤ n ≤ 64 → x - x mod 2 ^ n = 2 ^ 64 - 2 ^ n ↔ 2 ^ 64 - 2 ^ n ≤ x.
Proof.
  intros Hx Hn. pose proof (pow2_le n Hn) as Hp. pose proof (Z.mod_pos_bound x (2 ^ n) ltac:(lia)) as Hm.
  unfold in_u64 in Hx. split; [lia|]. intros Hge.
  assert (E : 2 ^ 64 = 2 ^ (64 - n) * 2 ^ n) by (rewrite <-Z.pow_add_r by lia; f_equal; lia).
  assert (Hdiv : x / 2 ^ n = 2 ^ (64 - n) - 1).
  { symmetry. apply Z.div_unique with (x - (2 ^ 64 - 2 ^ n)); [lia|]. lia. }
  pose proof (Z.div_mod x (2 ^ n) ltac:(lia)). nia.
Qed.
Lemma top_bits_clear x n : in_u64 x → 0 ≤ n ≤ 64 → x - x mod 2 ^ n = 0 ↔ x < 2 ^ n.
Proof.
  intros Hx Hn. pose proof (pow2_le n Hn) as Hp. pose proof (Z.mod_pos_bound x (2 ^ n) ltac:(lia)) as Hm.
  unfold in_u64 in Hx. split; [lia|]. intros Hlt. rewrite Z.mod_small; lia.
Qed.
(** A single bit. *)
Lemma land_bit x n : 0 ≤ n < 64 → Z.land x (shl1 n) = 0 ↔ x mod 2 ^ (n + 1) < 2 ^ n.
Proof.
  intros Hn. rewrite shl1_small by done. pose proof (Z.pow_pos_nonneg 2 n ltac:(lia) ltac:(lia)) as Hp.
  assert (Hs : x mod 2 ^ (n + 1) = x mod 2 ^ n + 2 ^ n * (x / 2 ^ n mod 2)).
  { rewrite Z.pow_add_r, Z.pow_1_r by lia. apply Z.rem_mul_r; lia. }
  assert (Hb : Z.land x (2 ^ n) = if Z.testbit x n then 2 ^ n else 0).
  { apply Z.bits_inj'. intros i Hi. rewrite Z.land_spec, Z.pow2_bits_eqb by lia.
    destruct (Z.eqb_spec n i) as [<-|Hne].
    - destruct (Z.testbit x n); rewrite ?Z.pow2_bits_true, ?Z.bits_0 by lia; done.
    - rewrite andb_false_r. destruct (Z.testbit x n); rewrite ?Z.pow2_bits_false, ?Z.bits_0 by lia; done. }
  rewrite Hb, Hs. pose proof (Z.testbit_spec' x n ltac:(lia)) as Ht. rewrite <-Ht.
  pose proof (Z.mod_pos_bound x (2 ^ n) Hp). destruct (Z.testbit x n); cbn [Z.b2z]; lia.
Qed.

(** ** Integers in little-endian order *)

Fixpoint le_bytes (n : nat) (x : Z) : list Z :=
  match n with O => [] | S n => x mod 256 :: le_bytes n (x / 256) end.
Definition le_value (l : list Z) : Z := foldr (λ b acc, b + 256 * acc) 0 l.

Lemma length_le_bytes n x : length (le_bytes n x) = n.
Proof. revert x. induction n as [|n IH]; intros x; cbn; [done|]. by rewrite IH. Qed.
Lemma le_value_bytes n x : le_value (le_bytes n x) = x mod 256 ^ Z.of_nat n.
Proof.
  revert x. induction n as [|n IH]; intros x; [cbn; by rewrite Z.mod_1_r|].
  cbn [le_bytes le_value foldr]. fold (le_value (le_bytes n (x / 256))). rewrite IH.
  rewrite Nat2Z.inj_succ, Z.pow_succ_r by lia. rewrite Z.rem_mul_r by lia. lia.
Qed.
Definition is_byte (b : Z) : Prop := 0 ≤ b < 256.
Lemma le_bytes_bytes n x : Forall is_byte (le_bytes n x).
Proof. revert x. induction n as [|n IH]; intros x; cbn; constructor; [apply Z.mod_pos_bound; lia|apply IH]. Qed.
Lemma le_bytes_value l : Forall is_byte l → le_bytes (length l) (le_value l) = l.
Proof.
  induction 1 as [|b l Hb Hl IH]; [done|]. cbn [length le_bytes le_value foldr]. fold (le_value l). unfold is_byte in Hb.
  rewrite (Z.mul_comm 256), Z.mod_add, Z.div_add, Z.mod_small, Z.div_small by lia. by rewrite Z.add_0_l, IH.
Qed.
Lemma le_value_range l : Forall is_byte l → 0 ≤ le_value l < 256 ^ Z.of_nat (length l).
Proof.
  induction 1 as [|b l Hb Hl IH]; [done|]. cbn [length le_value foldr]. fold (le_value l). unfold is_byte in Hb.
  rewrite Nat2Z.inj_succ, Z.pow_succ_r by lia. lia.
Qed.

(** ** Byte order *)

(** The integer with its lowest [width] bytes reversed. *)
Definition byteswap (width : nat) (x : Z) : Z := le_value (reverse (le_bytes width x)).

Lemma byteswap_range width x : 0 ≤ byteswap width x < 256 ^ Z.of_nat width.
Proof.
  unfold byteswap. pose proof (le_value_range (reverse (le_bytes width x))) as H.
  rewrite length_reverse, length_le_bytes in H. apply H. apply Forall_reverse, le_bytes_bytes.
Qed.
Lemma byteswap_involutive width x : byteswap width (byteswap width x) = x mod 256 ^ Z.of_nat width.
Proof.
  unfold byteswap. rewrite <-(length_le_bytes width x) at 1. rewrite <-length_reverse at 1.
  rewrite le_bytes_value by (apply Forall_reverse, le_bytes_bytes). by rewrite reverse_involutive, le_value_bytes.
Qed.
