(* ===== verification/GoStrings.v ===== *)
(** * Go string helpers

    The parts of packages [strings] and [strconv] the modelled code calls, on
    strings of ASCII bytes (parameter names, call names and environment
    variables are ASCII throughout the program): [strings.ToLower],
    [strings.Contains], [strings.TrimSpace], [strings.IndexByte] and
    [strconv.Atoi]. *)

From S2P Require Import Prelude.
From Stdlib Require Import Ascii.

Definition code (c : ascii) : Z := Z.of_N (N_of_ascii c).

Definition lower_char (c : ascii) : ascii :=
  if decide (65 ≤ code c ≤ 90) then ascii_of_N (Z.to_N (code c + 32)) else c.
(** [strings.ToLower]. *)
Fixpoint ToLower (s : string) : string :=
  match s with
  | EmptyString => EmptyString
  | String c s' => String (lower_char c) (ToLower s')
  end.

(** [strings.Contains(s, sub)]. *)
Fixpoint Contains (s sub : string) : bool :=
  String.prefix sub s ||
  match s with
  | EmptyString => false
  | String _ s' => Contains s' sub
  end.

(** The ASCII white space of [unicode.IsSpace]. *)
Definition is_space_char (c : ascii) : bool :=
  bool_decide (9 ≤ code c ≤ 13) || bool_decide (code c = 32).
Fixpoint trim_left (s : string) : string :=
  match s with
  | String c s' => if is_space_char c then trim_left s' else s
  | EmptyString => EmptyString
  end.
Definition trim_right (s : string) : string := String.rev (trim_left (String.rev s)).
(** [strings.TrimSpace]. *)
Definition TrimSpace (s : string) : string := trim_right (trim_left s).

(** The longest prefix of [s] without the byte [c]; this is
    [name[:strings.IndexByte(name, c)]] when [c] occurs and [name] otherwise. *)
Fixpoint cut_at (c : ascii) (s : string) : string :=
  match s with
  | EmptyString => EmptyString
  | String d s' => if decide (c = d) then EmptyString else String d (cut_at c s')
  end.

Fixpoint digits (acc : Z) (s : string) : option Z :=
  match s with
  | EmptyString => Some acc
  | String c s' =>
      if decide (48 ≤ code c ≤ 57) then digits (10 * acc + (code c - 48)) s' else None
  end.
Definition unsigned_digits (s : string) : option Z :=
  match s with EmptyString => None | _ => digits 0 s end.
Definition in_int (x : Z) : option Z := if decide (in_i64 x) then Some x else None.
(** [strconv.Atoi]; [None] is a non-nil error (syntax or range). *)
Definition Atoi (s : string) : option Z :=
  match s with
  | String c s' =>
      if decide (c = "-"%char) then x ← unsigned_digits s'; in_int (- x)
      else if decide (c = "+"%char) then unsigned_digits s' ≫= in_int
      else unsigned_digits s ≫= in_int
  | EmptyString => None
  end.

Fixpoint bytes_of (s : string) : list Z :=
  match s with
  | EmptyString => []
  | String c s' => code c :: bytes_of s'
  end.

Lemma Atoi_range s x : Atoi s = Some x → in_i64 x.
Proof.
  assert (Hin : ∀ o y, o ≫= in_int = Some y → in_i64 y).
  { intros [z|] y; simpl; [|done]. unfold in_int. case_decide; naive_solver. }
  destruct s as [|c s]; [done|]. unfold Atoi. repeat case_decide.
  - destruct (unsigned_digits s) as [z|]; simpl; [|done].
    unfold in_int. case_decide; naive_solver.
  - apply Hin.
  - apply Hin.
Qed.

(** Lower-casing is idempotent: comparing lower-cased text against
    lower-case tokens is case insensitive. *)
Lemma ToLower_idem s : ToLower (ToLower s) = ToLower s.
Proof.
  induction s as [|c s IH]; simpl; [done|]. f_equal; [|done].
  revert c. intros [[] [] [] [] [] [] [] []]; reflexivity.
Qed.

(** ** Byte strings *)

(** Without leading zero bytes. *)
Fixpoint skip_zeros (l : list Z) : list Z :=
  match l with
  | b :: l' => if decide (b = 0) then skip_zeros l' else l
  | [] => []
  end.
(** [bytes.TrimRight(data, "\x00")] *)
Definition trim_zeros (l : list Z) : list Z := reverse (skip_zeros (reverse l)).
(** [strings.Split(s, sep)] for a separator of one byte. *)
Fixpoint split_on (sep : Z) (l : list Z) : list (list Z) :=
  match l with
  | [] => [[]]
  | b :: l =>
      if decide (b = sep) then [] :: split_on sep l
      else match split_on sep l with x :: r => (b :: x) :: r | [] => [[b]] end
  end.
(** [strings.Join(l, sep)] *)
Fixpoint join_on (sep : Z) (l : list (list Z)) : list Z :=
  match l with
  | [] => []
  | [e] => e
  | e :: l => e ++ sep :: join_on sep l
  end.

Lemma split_on_plain sep e : sep ∉ e → split_on sep e = [e].
Proof.
  induction e as [|b e IH]; [done|]. intros [Hb He]%not_elem_of_cons. cbn [split_on]. rewrite decide_False by congruence. by rewrite IH.
Qed.
Lemma split_on_app sep e l : sep ∉ e → split_on sep (e ++ sep :: l) = e :: split_on sep l.
Proof.
  induction e as [|b e IH]; cbn [app split_on]; [by rewrite decide_True|]. intros [Hb He]%not_elem_of_cons. rewrite decide_False by congruence. by rewrite IH.
Qed.
Lemma split_join_on sep l : l ≠ [] → Forall (λ e, sep ∉ e) l → split_on sep (join_on sep l) = l.
Proof.
  intros Hl Hs. induction Hs as [|e l He Hs IH]; [done|]. destruct l as [|e' l]; [by apply split_on_plain|].
  change (join_on sep (e :: e' :: l)) with (e ++ sep :: join_on sep (e' :: l)). rewrite split_on_app by done. by rewrite IH.
Qed.
Lemma skip_zeros_app n l : head l ≠ Some 0 → skip_zeros (replicate n 0 ++ l) = l.
Proof. intros Hl. induction n as [|n IH]; [|done]. destruct l as [|b l]; [done|]. cbn. rewrite decide_False; [done|]. intros ->. by apply Hl. Qed.
Lemma trim_zeros_app n l : last l ≠ Some 0 → trim_zeros (l ++ replicate n 0) = l.
Proof.
  intros Hl. unfold trim_zeros. rewrite reverse_app, reverse_replicate, skip_zeros_app; [apply reverse_involutive|]. by rewrite head_reverse.
Qed.
