(* ===== verification/Prog.v ===== *)
(** * Package prog: the data model of programs

    The types of src/prog/types.go and src/prog/prog.go with the methods the
    other files use.  Go pointers are modelled by identities: a type is
    reached through its [Ref] in the global table [typeRefs] (as [ArgCommon]
    does), an argument carries an [arg_id], a [ResultArg] refers to other
    arguments by id, and a system call is identified by its [ID], its index
    in [Target.Syscalls].  Methods that can panic return an [outcome]. *)

From S2P Require Import Prelude GoStrings.
From Stdlib Require Import Ascii.

Definition Ref : Type := Z.
Definition argid : Type := Z.

Inductive Dir := DirIn | DirOut | DirInOut.
#[export] Instance Dir_eq_dec : EqDecision Dir.
Proof. solve_decision. Defined.

Inductive BinaryFormat :=
| FormatNative | FormatBigEndian | FormatStrDec | FormatStrHex | FormatStrOct.
#[export] Instance BinaryFormat_eq_dec : EqDecision BinaryFormat.
Proof. solve_decision. Defined.

(** The integer value of a [BinaryFormat] constant ([iota]). *)
Definition format_code (f : BinaryFormat) : Z :=
  match f with
  | FormatNative => 0 | FormatBigEndian => 1 | FormatStrDec => 2
  | FormatStrHex => 3 | FormatStrOct => 4
  end.

(** ** Types *)

Record TypeCommon := mkTypeCommon {
  TypeName : string;
  TypeSize : Z;        (* static size, 0 for variable size types *)
  TypeAlign : Z;
  IsOptional : bool;
  IsVarlen : bool;
  self : Ref
}.

Record IntTypeCommon := mkIntTypeCommon {
  int_common : TypeCommon;
  IArgFormat : BinaryFormat;
  BitfieldOff : Z;
  BitfieldLen : Z;
  BitfieldUnit : Z;
  BitfieldUnitOff : Z;
  uselessHints : gset Z
}.

Record ResourceDesc := mkResourceDesc {
  ResName : string;
  ResKind : list string;
  ResValues : list Z
}.

Inductive IntKind := IntPlain | IntRange.
Inductive CsumKind := CsumInet | CsumPseudo.
Inductive BufferKind :=
| BufferBlobRand | BufferBlobRange | BufferString | BufferFilename
| BufferText | BufferGlob | BufferCompressed.
Inductive ArrayKind := ArrayRandLen | ArrayRangeLen.

(** Buffers printed as text (prog/encoding.go). *)
Definition isReadableDataType (k : BufferKind) : bool :=
  match k with BufferString | BufferFilename | BufferGlob => true | _ => false end.

(** Conditions of fields; a path of a value may be empty. *)
Inductive BinaryOperator := OperatorCompareEq | OperatorCompareNeq | OperatorBinaryAnd | OperatorOr.
Inductive Expression :=
| BinaryExpression (Operator : BinaryOperator) (Left Right : Expression)
| Value (v : Z) (Path : list string).

Record Field := mkField {
  FieldName : string;
  FieldType : Ref;
  HasDirection : bool;
  Direction : Dir;
  Condition : option Expression
}.

(** The direction of a field: its own one, or the one it inherits. *)
Definition FieldDir (f : Field) (def : Dir) : Dir :=
  if HasDirection f then Direction f else def.

Inductive Typ :=
| ResourceType (c : TypeCommon) (ArgFormat : BinaryFormat) (Desc : ResourceDesc)
| ConstType (c : IntTypeCommon) (Val : Z) (IsPad : bool)
| IntType (c : IntTypeCommon) (Kind : IntKind) (RangeBegin RangeEnd Align : Z)
| FlagsType (c : IntTypeCommon) (Vals : list Z) (BitMask : bool)
| LenType (c : IntTypeCommon) (BitSize : Z) (Offset : bool) (Path : list string)
| ProcType (c : IntTypeCommon) (ValuesStart ValuesPerProc : Z)
| CsumType (c : IntTypeCommon) (Kind : CsumKind) (Buf : string) (Protocol : Z)
| VmaType (c : TypeCommon) (RangeBegin RangeEnd : Z)
| BufferType (c : TypeCommon) (Kind : BufferKind) (RangeBegin RangeEnd : Z)
             (SubKind : string) (Values : list string) (NoZ : bool)
| ArrayType (c : TypeCommon) (Elem : Ref) (Kind : ArrayKind) (RangeBegin RangeEnd : Z)
| PtrType (c : TypeCommon) (Elem : Ref) (ElemDir : Dir) (SquashableElem : bool)
| StructType (c : TypeCommon) (Fields : list Field) (AlignAttr OverlayField : Z)
| UnionType (c : TypeCommon) (Fields : list Field).

(** The integer part shared by the integer-like types. *)
Definition int_part (t : Typ) : option IntTypeCommon :=
  match t with
  | ConstType c _ _ | IntType c _ _ _ _ | FlagsType c _ _ | LenType c _ _ _
  | ProcType c _ _ | CsumType c _ _ _ => Some c
  | _ => None
  end.
Definition type_common (t : Typ) : TypeCommon :=
  match t with
  | ResourceType c _ _ | VmaType c _ _ | BufferType c _ _ _ _ _ _ | ArrayType c _ _ _ _
  | PtrType c _ _ _ | StructType c _ _ _ | UnionType c _ => c
  | ConstType c _ _ | IntType c _ _ _ _ | FlagsType c _ _ | LenType c _ _ _
  | ProcType c _ _ | CsumType c _ _ _ => int_common c
  end.

Definition TName (t : Typ) : string := TypeName (type_common t).
(** The name up to the template arguments. *)
Definition TemplateName (t : Typ) : string := cut_at "["%char (TName t).
Definition TOptional (t : Typ) : bool := IsOptional (type_common t).
Definition Varlen (t : Typ) : bool := IsVarlen (type_common t).
(** [TypeCommon.Size]: panics for a variable-length type. *)
Definition TSize (t : Typ) : outcome Z :=
  if Varlen t then Panic else Ret (TypeSize (type_common t)).
Definition Format (t : Typ) : BinaryFormat :=
  match t with
  | ResourceType _ f _ => f
  | _ => match int_part t with Some c => IArgFormat c | None => FormatNative end
  end.
(** [TypeBitSize]: only integer types have one; string formats count as 64. *)
Definition TypeBitSize (t : Typ) : outcome Z :=
  match int_part t with
  | Some c =>
      if decide (IArgFormat c ≠ FormatNative ∧ IArgFormat c ≠ FormatBigEndian) then Ret 64
      else if decide (BitfieldLen c ≠ 0) then Ret (BitfieldLen c)
      else Ret (u64 (TypeSize (int_common c) * 8))
  | None => Panic
  end.
Definition BitfieldOffset (t : Typ) : Z :=
  match int_part t with Some c => BitfieldOff c | None => 0 end.
Definition BitfieldLength (t : Typ) : Z :=
  match int_part t with Some c => BitfieldLen c | None => 0 end.
Definition UnitSize (t : Typ) : outcome Z :=
  match int_part t with
  | Some c => if decide (BitfieldLen c ≠ 0) then Ret (BitfieldUnit c) else TSize t
  | None => TSize t
  end.
Definition UnitOffset (t : Typ) : Z :=
  match int_part t with Some c => BitfieldUnitOff c | None => 0 end.
Definition IsBitfield (t : Typ) : bool :=
  match int_part t with Some c => bool_decide (BitfieldLen c ≠ 0) | None => false end.
Definition TIsPad (t : Typ) : bool :=
  match t with ConstType _ _ pad => pad | _ => false end.
(** [ResourceType.Default]: [t.Desc.Values[0]]. *)
Definition ResourceDefault (d : ResourceDesc) : outcome Z := index (ResValues d) 0.

(** ** System calls and targets *)

Record SyscallAttrs := mkSyscallAttrs {
  Disabled : bool;
  Timeout : Z;
  ProgTimeout : Z;
  IgnoreReturn : bool;
  BreaksReturns : bool;
  NoGenerate : bool;
  NoMinimize : bool;
  NoSquash : bool;
  RemoteCover : bool;
  Automatic : bool;
  AutomaticHelper : bool;
  KFuzzTest : bool;
  Snapshot : bool;
  Fsck : string;
  Filesystem : string
}.

Record Syscall := mkSyscall {
  ID : Z;
  NR : Z;
  Name : string;
  CallName : string;
  MissingArgs : Z;
  SysArgs : list Field;
  SysRet : option Ref;
  Attrs : SyscallAttrs
}.

Record Target := mkTarget {
  PageSize : Z;
  NumPages : Z;
  DataOffset : Z;
  Syscalls : list Syscall;
  SyscallMap : gmap string Syscall;
  AuxResources : gset string;
  SpecialPointers : list Z
}.

(** ** Arguments *)

Record ArgCommon := mkArgCommon { arg_id : argid; ref : Ref; arg_dir : Dir }.

Record ResultArg := mkResultArg {
  res_common : ArgCommon;
  res_Res : option argid;   (* reference to the argument we use *)
  OpDiv : Z;
  OpAdd : Z;
  res_Val : Z;
  uses : gset argid         (* arguments that use this one *)
}.

Inductive Arg :=
| ConstArg (c : ArgCommon) (Val : Z)
| PointerArg (c : ArgCommon) (Address VmaSize : Z) (Res : option Arg)
| DataArg (c : ArgCommon) (data : list Z) (size : Z)
| GroupArg (c : ArgCommon) (Inner : list Arg)
| UnionArg (c : ArgCommon) (Option : Arg) (Index : Z) (transient : bool)
| AResult (r : ResultArg).

Definition common (a : Arg) : ArgCommon :=
  match a with
  | ConstArg c _ | PointerArg c _ _ _ | DataArg c _ _ | GroupArg c _ | UnionArg c _ _ _ => c
  | AResult r => res_common r
  end.
Definition aid (a : Arg) : argid := arg_id (common a).
Definition ADir (a : Arg) : Dir := arg_dir (common a).

Record CallProps := mkCallProps { FailNth : Z; Async : bool; Rerun : Z }.
#[export] Instance CallProps_eq_dec : EqDecision CallProps.
Proof. solve_decision. Defined.
Definition noProps : CallProps := mkCallProps 0 false 0.

Record Call := mkCall {
  Meta : option Syscall;
  Args : list Arg;
  CRet : option ResultArg;
  Props : CallProps;
  Comment : string
}.

(** [Calls] is a slice of pointers: a nil entry is [None]. *)
Record Prog := mkProg {
  Calls : list (option Call);
  Comments : list string;
  isUnsafe : bool
}.

Definition ExtraCallName : string := ".extra".
(** [Prog.CallName]. *)
Definition ProgCallName (p : Prog) (call : Z) : outcome string :=
  if decide (len (Calls p) ≤ call ∨ call < -1) then Panic
  else if decide (call = -1) then Ret ExtraCallName
  else
    c ← index (Calls p) call;
    match c ≫= Meta with Some m => Ret (Name m) | None => Panic end.

(** The calls whose pointer and [Meta] are not nil, with their index: what
    the loops guarded by [call == nil || call.Meta == nil] see. *)
Definition named_calls (calls : list (option Call)) : list (Z * string) :=
  omap (λ '(i, c), m ← c ≫= Meta; Some (Z.of_nat i, Name m)) (imap pair calls).

Section induction.
(** Induction over arguments with hypotheses for nested arguments. *)
Variable P : Arg → Prop.
Hypothesis Hconst : ∀ c v, P (ConstArg c v).
Hypothesis Hptr : ∀ c a v r, from_option P True r → P (PointerArg c a v r).
Hypothesis Hdata : ∀ c d s, P (DataArg c d s).
Hypothesis Hgroup : ∀ c l, Forall P l → P (GroupArg c l).
Hypothesis Hunion : ∀ c o i t, P o → P (UnionArg c o i t).
Hypothesis Hres : ∀ r, P (AResult r).
Fixpoint Arg_nested_ind (a : Arg) : P a :=
  match a with
  | ConstArg c v => Hconst c v
  | PointerArg c ad v r =>
      Hptr c ad v r
        match r as r0 return from_option P True r0 with
        | Some x => Arg_nested_ind x
        | None => I
        end
  | DataArg c d s => Hdata c d s
  | GroupArg c l =>
      Hgroup c l
        ((fix go (l : list Arg) : Forall P l :=
            match l with
            | [] => Forall_nil_2 P
            | x :: l' => Forall_cons_2 P x l' (Arg_nested_ind x) (go l')
            end) l)
  | UnionArg c o i t => Hunion c o i t (Arg_nested_ind o)
  | AResult r => Hres r
  end.
End induction.

(** ** Sizes and the type of an argument *)
Section typed.
(** The global table [typeRefs]; entry 0 is never a type. *)
Context (typeRefs : list Typ).

(** [ArgCommon.Type]. *)
Definition TypeOf (a : Arg) : outcome Typ :=
  if decide (ref (common a) = 0) then Panic else index typeRefs (ref (common a)).

Fixpoint ArgSize (a : Arg) : outcome Z :=
  match a with
  | DataArg _ data size => Ret (if decide (data = []) then size else len data)
  | GroupArg _ inner =>
      t ← TypeOf a;
      if negb (Varlen t) then TSize t
      else
        match t with
        | StructType _ _ align overlay =>
            (fix fields (i : nat) (l : list Arg) (size offset : Z) : outcome Z :=
               match l with
               | [] => Ret size
               | fld :: l' =>
                   let offset := if decide (Z.of_nat i = overlay) then 0 else offset in
                   s ← ArgSize fld;
                   let offset := offset +u s in
                   let last := bool_decide (i + 1 = length inner)%nat
                               || bool_decide (Z.of_nat i + 1 = overlay) in
                   let offset :=
                     if last && bool_decide (align ≠ 0) && bool_decide (offset mod align ≠ 0)
                     then offset +u (align -u offset mod align) else offset in
                   fields (S i) l' (Z.max size offset) offset
               end) 0%nat inner 0 0
        | ArrayType _ _ _ _ _ =>
            (fix elems (l : list Arg) (size : Z) : outcome Z :=
               match l with
               | [] => Ret size
               | e :: l' => s ← ArgSize e; elems l' (size +u s)
               end) inner 0
        | _ => Panic
        end
  | UnionArg _ opt _ _ =>
      t ← TypeOf a;
      if negb (Varlen t) then TSize t else ArgSize opt
  | ConstArg _ _ | PointerArg _ _ _ _ | AResult _ => t ← TypeOf a; TSize t
  end.

Definition procDefaultValue : Z := 0xffffffffffffffff.
(** [ConstArg.Value]: the value and the pid stride. *)
Definition ConstValue (a : Arg) (val : Z) : outcome (Z * Z) :=
  t ← TypeOf a;
  match t with
  | IntType _ _ _ _ _ | ConstType _ _ _ | FlagsType _ _ _ | LenType _ _ _ _
  | ResourceType _ _ _ => Ret (val, 0)
  | CsumType _ _ _ _ => Ret (0, 0)
  | ProcType _ start per =>
      if decide (val = procDefaultValue) then Ret (0, 0) else Ret (start +u val, per)
  | _ => Panic
  end.
End typed.

Definition maxSpecialPointers : Z := 16.
(** [PointerArg.IsSpecial]. *)
Definition IsSpecial (address vmaSize : Z) (res : option Arg) : bool :=
  bool_decide (vmaSize = 0) && match res with None => true | Some _ => false end
  && bool_decide (u64 (- address) < maxSpecialPointers).
