(* ===== verification/ConfigContext.v ===== *)
(** * Runtime configuration contexts (src/prog/kconfuzz.go)

    A [KConfuzzConfigContext] is the executor-only companion of a program: a
    list of sysctl writes, each scheduled before one of its calls.  This file
    models cloning, normalization, emptiness and the signature that
    identifies a context in the corpus, in the queue deduplicator and in the
    quarantine list. *)

From S2P Require Import Prelude Prog.

(** [KConfuzzConfigAction] (src/prog/encodingexec.go). *)
Record KConfuzzConfigAction := mkAction {
  BeforeCall : Z;
  ParamID : Z;
  ValueID : Z;
  Flags : Z
}.
#[export] Instance action_eq_dec : EqDecision KConfuzzConfigAction.
Proof. solve_decision. Defined.

Definition KConfuzzConfigFlagNoRestore : Z := Z.shiftl 1 0.
Definition KConfuzzConfigFlagFlip : Z := Z.shiftl 1 1.

Definition KConfuzzConfigStrategySequence : string := "sequence".
Definition KConfuzzConfigStrategyCall : string := "call".
Definition KConfuzzConfigStrategyBoth : string := "both".

Record KConfuzzConfigContext := mkContext {
  Strategy : string;
  Source : string;
  ConfigDependent : bool;
  Actions : list KConfuzzConfigAction
}.
#[export] Instance context_eq_dec : EqDecision KConfuzzConfigContext.
Proof. solve_decision. Defined.

Definition set_Actions (ctx : KConfuzzConfigContext) (l : list KConfuzzConfigAction) :=
  mkContext (Strategy ctx) (Source ctx) (ConfigDependent ctx) l.
Definition set_Source (ctx : KConfuzzConfigContext) (s : string) :=
  mkContext (Strategy ctx) s (ConfigDependent ctx) (Actions ctx).

(** A copied slice has the same elements. *)
Definition CloneKConfuzzConfigActions (l : list KConfuzzConfigAction) : list KConfuzzConfigAction :=
  [] ++ l.

(** [Clone]: a nil context stays nil. *)
Definition Clone (ctx : option KConfuzzConfigContext) : option KConfuzzConfigContext :=
  match ctx with
  | None => None
  | Some c => Some (set_Actions c (CloneKConfuzzConfigActions (Actions c)))
  end.

(** [Empty]. *)
Definition Empty (ctx : option KConfuzzConfigContext) : bool :=
  match ctx with
  | None => true
  | Some c => bool_decide (len (Actions c) = 0) && negb (ConfigDependent c)
  end.

(** The comparator of [NormalizeKConfuzzConfigActions]. *)
Definition action_less (a b : KConfuzzConfigAction) : bool :=
  if decide (BeforeCall a ≠ BeforeCall b) then BeforeCall a <? BeforeCall b
  else if decide (ParamID a ≠ ParamID b) then ParamID a <? ParamID b
  else if decide (ValueID a ≠ ValueID b) then ValueID a <? ValueID b
  else Flags a <? Flags b.

(** The loop's guards: the action stays when its call index is valid. *)
Definition keep_action (maxCall : Z) (a : KConfuzzConfigAction) : bool :=
  if decide (BeforeCall a < 0) then false
  else if decide (0 ≤ maxCall ∧ maxCall < BeforeCall a) then false
  else true.
Definition max_call (p : option Prog) : Z :=
  match p with None => -1 | Some p => len (Calls p) end.

(** [NormalizeKConfuzzConfigActions]. *)
Definition NormalizeKConfuzzConfigActions (p : option Prog)
    (actions : list KConfuzzConfigAction) : list KConfuzzConfigAction :=
  if decide (len actions = 0) then []
  else
    let maxCall := max_call p in
    let ret := filter (λ a, keep_action maxCall a = true) actions in
    sort_by action_less ret.

(** [CloneForProg]. *)
Definition CloneForProg (ctx : option KConfuzzConfigContext) (p : option Prog)
    : option KConfuzzConfigContext :=
  match Clone ctx with
  | None => None
  | Some ret =>
      let ret := set_Actions ret (NormalizeKConfuzzConfigActions p (Actions ret)) in
      if decide (len (Actions ret) = 0 ∧ ConfigDependent ret = false) then None else Some ret
  end.

Section signature.
(** [json.Marshal] of a context; the flag says whether [Actions] is a nil
    slice, which JSON renders as [null] rather than []. *)
Context (marshal : KConfuzzConfigContext → bool → list Z).

Definition signature_prefix : list Z := GoStrings.bytes_of "kconfuzz:".

(** [SignatureData]: a nil slice is []. *)
Definition SignatureData (ctx : option KConfuzzConfigContext) : list Z :=
  let ctx := Clone ctx in
  match ctx with
  | None => []
  | Some c =>
      if Empty ctx then []
      else
        let nil := bool_decide (len (Actions c) = 0) in
        let c := set_Actions c (NormalizeKConfuzzConfigActions None (Actions c)) in
        signature_prefix ++ marshal c nil
  end.

(** [KConfuzzConfigContextEqual]. *)
Definition KConfuzzConfigContextEqual (a b : option KConfuzzConfigContext) : bool :=
  bool_decide (SignatureData a = SignatureData b).
End signature.

(** ** Lemmas *)

#[export] Instance action_less_GoLess : GoLess action_less.
Proof.
  split.
  - intros [] []; unfold action_less; simpl. repeat case_decide; lia.
  - intros [] [] []; unfold le_by, action_less; simpl. repeat case_decide; lia.
Qed.

(** The comparator separates distinct actions. *)
Lemma action_less_antisym a b : le_by action_less a b → le_by action_less b a → a = b.
Proof.
  destruct a, b; unfold le_by, action_less; simpl.
  repeat case_decide; intros; f_equal; lia.
Qed.

Lemma Normalize_unfold p l :
  NormalizeKConfuzzConfigActions p l
  = sort_by action_less (filter (λ a, keep_action (max_call p) a = true) l).
Proof.
  unfold NormalizeKConfuzzConfigActions, len. case_decide; [|done]. by destruct l.
Qed.

Lemma Normalize_perm p l :
  NormalizeKConfuzzConfigActions p l ≡ₚ filter (λ a, keep_action (max_call p) a = true) l.
Proof. rewrite Normalize_unfold. apply sort_by_perm. Qed.

Lemma Normalize_sorted p l :
  StronglySorted (le_by action_less) (NormalizeKConfuzzConfigActions p l).
Proof. rewrite Normalize_unfold. apply sort_by_sorted, _. Qed.

Lemma elem_of_Normalize p l a :
  a ∈ NormalizeKConfuzzConfigActions p l ↔ keep_action (max_call p) a = true ∧ a ∈ l.
Proof. by rewrite Normalize_perm, list_elem_of_filter. Qed.

Lemma keep_action_spec m a :
  keep_action m a = true ↔ 0 ≤ BeforeCall a ∧ (0 ≤ m → BeforeCall a ≤ m).
Proof. unfold keep_action. repeat case_decide; naive_solver lia. Qed.

Lemma filter_all {A} (P : A → Prop) `{!∀ x, Decision (P x)} l :
  Forall P l → filter P l = l.
Proof. induction 1; [done|]. rewrite filter_cons_True by done. by f_equal. Qed.

Lemma Normalize_idemp p l :
  NormalizeKConfuzzConfigActions p (NormalizeKConfuzzConfigActions p l)
  = NormalizeKConfuzzConfigActions p l.
Proof.
  rewrite (Normalize_unfold p (NormalizeKConfuzzConfigActions p l)).
  rewrite filter_all.
  - apply sort_by_id, Normalize_sorted.
  - apply Forall_forall. intros a Ha. by apply elem_of_Normalize in Ha as [? _].
Qed.

(** Normalization forgets the order of the input. *)
Lemma Normalize_Permutation p l l' :
  l ≡ₚ l' → NormalizeKConfuzzConfigActions p l = NormalizeKConfuzzConfigActions p l'.
Proof.
  intros Hp. rewrite !Normalize_unfold. apply sort_by_Permutation; [apply _| |].
  - intros. by apply action_less_antisym.
  - by rewrite Hp.
Qed.

Lemma Normalize_all p l :
  Forall (λ a, 0 ≤ BeforeCall a ≤ len (Calls p)) l →
  NormalizeKConfuzzConfigActions (Some p) l ≡ₚ l.
Proof.
  intros Hl. rewrite Normalize_perm, filter_all; [done|].
  eapply Forall_impl; [done|]. intros a Ha. simpl in *. apply keep_action_spec. simpl. lia.
Qed.

Lemma Clone_id ctx : Clone ctx = ctx.
Proof. by destruct ctx as [[]|]. Qed.

Lemma CloneForProg_unfold c p :
  CloneForProg (Some c) p =
  let r := set_Actions c (NormalizeKConfuzzConfigActions p (Actions c)) in
  if decide (Actions r = [] ∧ ConfigDependent c = false) then None else Some r.
Proof.
  unfold CloneForProg. rewrite Clone_id. cbv zeta. simpl. unfold len.
  destruct (NormalizeKConfuzzConfigActions p (Actions c));
    repeat case_decide; naive_solver.
Qed.

Lemma CloneForProg_None c p :
  CloneForProg (Some c) p = None
  ↔ NormalizeKConfuzzConfigActions p (Actions c) = [] ∧ ConfigDependent c = false.
Proof. rewrite CloneForProg_unfold. cbv zeta. simpl. case_decide; naive_solver. Qed.

Lemma CloneForProg_Some ctx p c :
  CloneForProg ctx p = Some c ↔
  ∃ c0, ctx = Some c0 ∧ c = set_Actions c0 (NormalizeKConfuzzConfigActions p (Actions c0))
        ∧ (Actions c ≠ [] ∨ ConfigDependent c = true).
Proof.
  destruct ctx as [c0|]; [|naive_solver]. rewrite CloneForProg_unfold. cbv zeta. simpl.
  case_decide as H.
  - split; [done|]. intros (c1 & [= <-] & -> & [HA|HA]); simpl in *; [naive_solver|].
    rewrite HA in H. naive_solver.
  - split; [|naive_solver]. intros [= <-]. exists c0. split_and!; try done. simpl.
    destruct (NormalizeKConfuzzConfigActions _ _), (ConfigDependent c0); naive_solver.
Qed.

Lemma SignatureData_nonempty marshal c :
  Actions c ≠ [] →
  SignatureData marshal (Some c)
  = signature_prefix
    ++ marshal (set_Actions c (NormalizeKConfuzzConfigActions None (Actions c))) false.
Proof.
  intros Hc. unfold SignatureData, Empty. rewrite Clone_id. unfold len.
  by destruct (Actions c).
Qed.

(** ** Properties *)

(** Normalizing actions for a program returns, in the order of (call,
    param, value, flags), exactly the actions whose call index lies between 0
    and the number of calls; doing it again, or permuting the input, changes
    nothing. *)
Theorem normalize_spec (p : Prog) (l l' : list KConfuzzConfigAction) :
  let r := NormalizeKConfuzzConfigActions (Some p) l in
  r ≡ₚ filter (λ a, 0 ≤ BeforeCall a ∧ BeforeCall a ≤ len (Calls p)) l
  ∧ StronglySorted (le_by action_less) r
  ∧ NormalizeKConfuzzConfigActions (Some p) r = r
  ∧ (l ≡ₚ l' → NormalizeKConfuzzConfigActions (Some p) l' = r).
Proof.
  cbv zeta. split_and!.
  - rewrite Normalize_perm. rewrite (list_filter_iff _ (λ a, 0 ≤ BeforeCall a ∧ BeforeCall a ≤ len (Calls p))); [done|]. intros a.
    rewrite keep_action_spec. simpl. unfold len. naive_solver lia.
  - apply Normalize_sorted.
  - apply Normalize_idemp.
  - intros Hp. by apply Normalize_Permutation.
Qed.

(** Cloning a context for a program is idempotent, keeps the strategy,
    source and dependency mark, and yields nil exactly when no action is left
    and the context is not marked config-dependent. *)
Theorem CloneForProg_spec (ctx : KConfuzzConfigContext) (p : Prog) :
  let r := CloneForProg (Some ctx) (Some p) in
  CloneForProg r (Some p) = r
  ∧ (r = None ↔ NormalizeKConfuzzConfigActions (Some p) (Actions ctx) = []
                ∧ ConfigDependent ctx = false)
  ∧ (∀ c, r = Some c →
       Strategy c = Strategy ctx ∧ Source c = Source ctx
       ∧ ConfigDependent c = ConfigDependent ctx
       ∧ Forall (λ a, 0 ≤ BeforeCall a ≤ len (Calls p)) (Actions c)).
Proof.
  cbv zeta. split_and!.
  - destruct (CloneForProg (Some ctx) (Some p)) as [c|] eqn:E; [|done].
    apply CloneForProg_Some in E as (c0 & [= <-] & -> & HA).
    apply CloneForProg_Some. eexists; split_and!; [done| |done].
    unfold set_Actions; simpl. by rewrite Normalize_idemp.
  - apply CloneForProg_None.
  - intros c (c0 & [= <-] & -> & _)%CloneForProg_Some; simpl.
    split_and!; try done. apply Forall_forall.
    intros a [Hk _]%elem_of_Normalize. apply keep_action_spec in Hk.
    simpl in Hk. unfold len in *. lia.
Qed.

(** The signature of a context does not depend on the order of its
    actions, and, JSON rendering being injective, two contexts that carry
    actions are equal ([KConfuzzConfigContextEqual]) exactly when they agree on
    strategy, source and dependency mark and normalize to the same actions. *)
Theorem context_equal_spec
    (marshal : KConfuzzConfigContext → bool → list Z)
    (marshal_inj : ∀ c c' b b', marshal c b = marshal c' b' → c = c' ∧ b = b')
    (a b : KConfuzzConfigContext) (Ha : Actions a ≠ []) (Hb : Actions b ≠ []) :
  KConfuzzConfigContextEqual marshal (Some a) (Some b) = true
  ↔ Strategy a = Strategy b ∧ Source a = Source b
    ∧ ConfigDependent a = ConfigDependent b
    ∧ filter (λ x, 0 ≤ BeforeCall x) (Actions a)
      ≡ₚ filter (λ x, 0 ≤ BeforeCall x) (Actions b).
Proof.
  assert (Hkeep : ∀ l, NormalizeKConfuzzConfigActions None l
                       = sort_by action_less (filter (λ x, 0 ≤ BeforeCall x) l)).
  { intros l. rewrite Normalize_unfold. f_equal. apply list_filter_iff. intros x.
    rewrite keep_action_spec. simpl. naive_solver lia. }
  unfold KConfuzzConfigContextEqual. rewrite bool_decide_eq_true.
  rewrite !SignatureData_nonempty by done. split.
  - intros E%app_inv_head. apply marshal_inj in E as [E _].
    unfold set_Actions in E. simplify_eq. split_and!; try done.
    match goal with H : _ = NormalizeKConfuzzConfigActions _ _ |- _ =>
      rewrite !Hkeep in H;
      rewrite <-(sort_by_perm action_less (filter _ (Actions a))), H;
      by rewrite sort_by_perm end.
  - intros (E1 & E2 & E3 & E4). do 2 f_equal. unfold set_Actions. rewrite E1, E2, E3. f_equal.
    rewrite !Hkeep. apply sort_by_Permutation; [apply _| |done].
    intros. by apply action_less_antisym.
Qed.

Definition sample_action (call param : Z) : KConfuzzConfigAction := mkAction call param 1 0.
Definition sample_context (l : list KConfuzzConfigAction) : KConfuzzConfigContext :=
  mkContext KConfuzzConfigStrategySequence "env" false l.

(** An injective rendering exists: contexts are countable. *)
#[export] Instance action_countable : Countable KConfuzzConfigAction.
Proof.
  refine (inj_countable' (λ a, (BeforeCall a, ParamID a, ValueID a, Flags a))
            (λ '(b, p, v, f), mkAction b p v f) _). by intros [].
Defined.
#[export] Instance context_countable : Countable KConfuzzConfigContext.
Proof.
  refine (inj_countable' (λ c, (Strategy c, Source c, ConfigDependent c, Actions c))
            (λ '(s, o, d, l), mkContext s o d l) _). by intros [].
Defined.
Definition sample_marshal (c : KConfuzzConfigContext) (b : bool) : list Z :=
  [Z.pos (encode c); Z.b2z b].

Lemma sample_marshal_inj c c' b b' :
  sample_marshal c b = sample_marshal c' b' → c = c' ∧ b = b'.
Proof.
  intros [= H1 H2]. split; [by apply (inj encode)|]. by destruct b, b'.
Qed.

Lemma context_equal_witness :
  KConfuzzConfigContextEqual sample_marshal
    (Some (sample_context [sample_action 1 7; sample_action 0 3]))
    (Some (sample_context [sample_action 0 3; sample_action 1 7])) = true.
Proof.
  apply (context_equal_spec sample_marshal sample_marshal_inj).
  - done.
  - done.
  - split_and!; try done. apply Permutation_swap.
Defined.
