(* ===== verification/Params.v ===== *)
(** * Runtime parameters and value choice (src/pkg/kconfuzz/actionplanner.go)

    The registry entry of a sysctl parameter ([ConfigParam]), the safety
    filters that decide which parameters the planner may write, the 64-bit
    mixing functions that make the plan a deterministic function of the
    program, and the choice of a value for a parameter. *)

From S2P Require Import Prelude GoStrings Prog ConfigContext.

Record ConfigParam := mkParam {
  PName : string;
  PID : Z;
  ValueCount : Z;
  Domain : string;
  ValueDomain : string;
  AutoSafe : bool;
  Mutator : bool;
  MutatorConfidence : string;
  MutatorKind : string;
  MutatorFamily : string;
  MutatorProbTfuzz : Z;
  MutatorProbSeed : Z;
  MutatorProbRandomLegal : Z;
  MutatorProbOutOfDomain : Z;
  MutatorTfuzzValueIDs : list Z;
  MutatorSeedValueIDs : list Z;
  MutatorRandomValueIDs : list Z;
  MutatorOutOfDomainValueIDs : list Z
}.
#[export] Instance ConfigParam_eq_dec : EqDecision ConfigParam.
Proof. solve_decision. Defined.

(** ** Safety filters *)

Definition mem_string (s : string) (l : list string) : bool := bool_decide (s ∈ l).
Definition contains_any (name : string) (tokens : list string) : bool :=
  existsb (Contains name) tokens.

Definition hardBlockedConfigParam (param : ConfigParam) : bool :=
  contains_any (ToLower (PName param))
    ["panic"; "watchdog"; "lockup"; "hung_task"; "sysrq"; "modules_disabled"; "kexec"].

Definition allowedRelatedParam (param : ConfigParam) : bool :=
  if negb (Mutator param) || (ValueCount param <=? 1) then false
  else negb (hardBlockedConfigParam param).

Definition conservativeRandomParam (param : ConfigParam) : bool :=
  if negb (allowedRelatedParam param) || negb (AutoSafe param) then false
  else if bool_decide (Domain param = "generic") then false
  else if negb (mem_string (MutatorConfidence param) ["high"; "medium"]) then false
  else if mem_string (MutatorKind param)
            ["unbounded_numeric"; "unbounded_numeric_taint"; "bounded_numeric_taint"] then false
  else if Contains (ToLower (PName param)) "disable" then false
  else true.

Definition safeRandomParam (param : ConfigParam) : bool :=
  if negb (conservativeRandomParam param) then false
  else mem_string (MutatorFamily param) ["bool"; "enum"; "bitmask"].

(** [envRiskCall]: (strong risk, weak risk family or the empty string). *)
Definition envRiskCall (name0 : string) : bool * string :=
  let name := ToLower name0 in
  if contains_any name
       ["fuse"; "mount"; "umount"; "fsopen"; "fsmount"; "fsconfig"; "fspick"; "open_tree";
        "move_mount"; "pivot_root"; "loop"; "io_uring"]
  then (true, "")
  else match list_find (λ token, Contains name token = true) ["mmap"; "bpf"; "xattr"] with
       | Some (_, token) => (false, token)
       | None => (false, "")
       end.

Fixpoint env_risk_loop (names : list string) (weakFamilies : gset string) : bool :=
  match names with
  | [] => bool_decide (2 ≤ Z.of_nat (size weakFamilies))
  | name :: names' =>
      let '(strong, weak) := envRiskCall name in
      if strong then true
      else env_risk_loop names'
             (if decide (weak ≠ "") then {[weak]} ∪ weakFamilies else weakFamilies)
  end.
Definition ProgramHasEnvRisk (prg : option Prog) : bool :=
  match prg with
  | None => false
  | Some p => env_risk_loop (named_calls (Calls p)).*2 ∅
  end.

(** ** Deterministic mixing *)

Definition mix64 (x : Z) : Z :=
  let x := x +u 0x9e3779b97f4a7c15 in
  let x := Z.lxor x (Z.shiftr x 30) *u 0xbf58476d1ce4e5b9 in
  let x := Z.lxor x (Z.shiftr x 27) *u 0x94d049bb133111eb in
  Z.lxor x (Z.shiftr x 31).

Definition valueSeed (programSeed actionIndex callIndex : Z) (param : ConfigParam) : Z :=
  let seed := Z.lxor programSeed (PID param *u 0x9e3779b97f4a7c15) in
  let seed := Z.lxor seed (u64 (i64 (actionIndex + 1)) *u 0xbf58476d1ce4e5b9) in
  let seed := Z.lxor seed (u64 (i64 (callIndex + 1)) *u 0x94d049bb133111eb) in
  mix64 seed.

(** The Euclid loop of [gcd]; [|b|] decreases, so [|b| + 1] rounds suffice. *)
Fixpoint gcd_loop (fuel : nat) (a b : Z) : Z :=
  match fuel with
  | O => a
  | S fuel' => if decide (b ≠ 0) then gcd_loop fuel' b (Z.rem a b) else a
  end.
Definition gcd (a b : Z) : Z :=
  let a := gcd_loop (S (Z.abs_nat b)) a b in
  if decide (a < 0) then - a else a.

(** ** Orders on parameters *)

Definition sortedParams (params : gmap Z ConfigParam) : list ConfigParam :=
  sort_by (less_on PID) (values params).

(** The comparator of [shuffledParamSlice]. *)
Definition shuffle_less (seed : Z) (a b : ConfigParam) : bool :=
  let hi := mix64 (Z.lxor seed (PID a)) in
  let hj := mix64 (Z.lxor seed (PID b)) in
  if decide (hi = hj) then PID a <? PID b else hi <? hj.
Definition shuffledParamSlice (params : list ConfigParam) (seed : Z) : list ConfigParam :=
  sort_by (shuffle_less seed) params.
Definition shuffledParams (params : gmap Z ConfigParam) (seed : Z) : list ConfigParam :=
  shuffledParamSlice (sortedParams params) seed.

(** ** The value written for a parameter *)

(** The loop of [deterministicValueID] and [randomValueID]: the first id
    below [valueCount], scanning [ids] cyclically from [start]. *)
Fixpoint scan_ids (ids : list Z) (valueCount start : Z) (i : Z) (k : nat) : option Z :=
  match k with
  | O => None
  | S k' =>
      match ids !! Z.to_nat ((start + i) mod len ids) with
      | Some valueID =>
          if decide (valueID < valueCount) then Some valueID
          else scan_ids ids valueCount start (i + 1) k'
      | None => None
      end
  end.

Definition deterministicValueID (ids : list Z) (valueCount seed : Z) : option Z :=
  if decide (valueCount = 0 ∨ len ids = 0) then None
  else
    let start := seed mod len ids in
    scan_ids ids valueCount start 0 (length ids).

Fixpoint first_valueID (pools : list (list Z)) (valueCount seed : Z) : option Z :=
  match pools with
  | [] => None
  | ids :: pools' =>
      match deterministicValueID ids valueCount seed with
      | Some valueID => Some valueID
      | None => first_valueID pools' valueCount seed
      end
  end.
Definition plannedMutatorValue (seed : Z) (param : ConfigParam) : option Z :=
  if negb (Mutator param) then None
  else first_valueID [MutatorTfuzzValueIDs param; MutatorSeedValueIDs param;
                      MutatorRandomValueIDs param] (ValueCount param) seed.

(** [plannedValueFromSeed]: (value id, flags). *)
Definition plannedValueFromSeed (seed : Z) (param : ConfigParam) : Z * Z :=
  match plannedMutatorValue seed param with
  | Some valueID => (valueID, 0)
  | None =>
      if decide (ValueCount param ≤ 1) then (0, KConfuzzConfigFlagFlip)
      else (seed mod ValueCount param, KConfuzzConfigFlagFlip)
  end.
Definition plannedValue (callIndex : Z) (param : ConfigParam) : Z * Z :=
  plannedValueFromSeed (u64 callIndex +u PID param +u 1) param.

Definition nextValue (callIndex : Z) (param : ConfigParam) : Z :=
  if decide (ValueCount param ≤ 1) then 0
  else u64 (i64 (i64 (callIndex + i64 (PID param)) + 1)) mod ValueCount param.

Definition configAction (beforeCall callIndex : Z) (param : ConfigParam) : KConfuzzConfigAction :=
  let '(valueID, flags) := plannedValue callIndex param in
  mkAction beforeCall (PID param) valueID flags.
Definition configActionWithSeed (beforeCall seed : Z) (param : ConfigParam) : KConfuzzConfigAction :=
  let '(valueID, flags) := plannedValueFromSeed seed param in
  mkAction beforeCall (PID param) valueID flags.

(** ** Lemmas: mixing is a bijection *)

Lemma xorshift_inj k x y :
  0 < k → 0 ≤ x → 0 ≤ y →
  Z.lxor x (Z.shiftr x k) = Z.lxor y (Z.shiftr y k) → x = y.
Proof.
  intros Hk Hx Hy E. apply Z.lxor_eq. set (d := Z.lxor x y).
  assert (Hd : d = Z.shiftr d k).
  { apply Z.bits_inj'. intros i Hi. unfold d.
    apply (f_equal (λ z, Z.testbit z i)) in E. revert E.
    rewrite Z.shiftr_lxor, !Z.lxor_spec.
    by destruct (Z.testbit x i), (Z.testbit y i), (Z.testbit (Z.shiftr x k) i),
      (Z.testbit (Z.shiftr y k) i). }
  assert (0 ≤ d) by (apply Z.lxor_nonneg; lia).
  destruct (decide (d = 0)) as [->|]; [done|]. exfalso.
  rewrite Z.shiftr_div_pow2 in Hd by lia.
  assert (d / 2 ^ k < d); [|lia].
  apply Z.div_lt; [lia|]. apply Z.pow_gt_1; lia.
Qed.

Lemma mul_odd_inj c c' x y :
  (c * c') mod 2 ^ 64 = 1 → in_u64 x → in_u64 y → x *u c = y *u c → x = y.
Proof.
  unfold u64. intros Hc Hx Hy E.
  assert (Hinv : ∀ z, in_u64 z → ((z * c) mod 2 ^ 64 * c') mod 2 ^ 64 = z).
  { intros z Hz. rewrite Z.mul_mod_idemp_l by lia.
    rewrite <-Z.mul_assoc, <-Z.mul_mod_idemp_r by lia. rewrite Hc, Z.mul_1_r.
    by apply Z.mod_small. }
  by rewrite <-(Hinv x Hx), E, Hinv.
Qed.

Lemma add_const_inj c x y : in_u64 x → in_u64 y → x +u c = y +u c → x = y.
Proof.
  unfold u64, in_u64. intros Hx Hy E.
  assert (Hs : ∀ z, 0 ≤ z < 2 ^ 64 → ((z + c) mod 2 ^ 64 - c) mod 2 ^ 64 = z).
  { intros z Hz. rewrite Zminus_mod_idemp_l. replace (z + c - c) with z by lia.
    by apply Z.mod_small. }
  by rewrite <-(Hs x Hx), E, Hs.
Qed.

Lemma lxor_u64 x y : in_u64 x → in_u64 y → in_u64 (Z.lxor x y).
Proof.
  unfold in_u64. intros [Hx1 Hx2] [Hy1 Hy2].
  assert (0 ≤ Z.lxor x y) by (apply Z.lxor_nonneg; lia).
  split; [done|]. destruct (decide (Z.lxor x y = 0)) as [->|]; [lia|].
  apply Z.log2_lt_pow2; [lia|].
  eapply Z.le_lt_trans; [by apply Z.log2_lxor|].
  apply Z.max_lub_lt.
  - destruct (decide (x = 0)) as [->|]; [done|]. apply Z.log2_lt_pow2; lia.
  - destruct (decide (y = 0)) as [->|]; [done|]. apply Z.log2_lt_pow2; lia.
Qed.
Lemma shiftr_u64 x k : 0 ≤ k → in_u64 x → in_u64 (Z.shiftr x k).
Proof.
  unfold in_u64. intros Hk [H1 H2]. rewrite Z.shiftr_div_pow2 by done.
  assert (0 < 2 ^ k) by (apply Z.pow_pos_nonneg; lia).
  split; [by apply Z.div_pos|]. apply Z.div_lt_upper_bound; [done|]. nia.
Qed.
#[export] Hint Resolve lxor_u64 shiftr_u64 : go.

Lemma mix64_range x : in_u64 (mix64 x).
Proof.
  unfold mix64. cbv zeta. apply lxor_u64; [auto with go|].
  apply shiftr_u64; [lia|auto with go].
Qed.
#[export] Hint Resolve mix64_range : go.

Lemma mix64_inj x y : in_u64 x → in_u64 y → mix64 x = mix64 y → x = y.
Proof.
  intros Hx Hy. unfold mix64. cbv zeta. intros E.
  assert (H0 : ∀ z k, 0 ≤ k → in_u64 z → in_u64 (Z.lxor z (Z.shiftr z k))).
  { intros z k Hk Hz. by apply lxor_u64, shiftr_u64. }
  assert (Hn : ∀ z, 0 ≤ u64 z) by (intros z; destruct (u64_range z); lia).
  apply xorshift_inj in E; [|lia|done|done].
  apply (mul_odd_inj _ 0x319642b2d24d8ec3) in E;
    [|reflexivity|apply H0; auto with go lia..].
  apply xorshift_inj in E; [|lia|done|done].
  apply (mul_odd_inj _ 0x96de1b173f119089) in E;
    [|reflexivity|apply H0; auto with go lia..].
  apply xorshift_inj in E; [|lia|done|done].
  by apply add_const_inj in E.
Qed.

Lemma lxor_cancel s x y : Z.lxor s x = Z.lxor s y → x = y.
Proof.
  intros E. apply (f_equal (Z.lxor s)) in E.
  by rewrite <-!Z.lxor_assoc, Z.lxor_nilpotent, !Z.lxor_0_l in E.
Qed.

#[export] Instance shuffle_less_GoLess seed : GoLess (shuffle_less seed).
Proof.
  split.
  - intros a b. unfold shuffle_less. cbv zeta. repeat case_decide; lia.
  - intros a b c. unfold le_by, shuffle_less. cbv zeta. repeat case_decide; lia.
Qed.

Lemma shuffle_less_antisym seed a b :
  le_by (shuffle_less seed) a b → le_by (shuffle_less seed) b a → PID a = PID b.
Proof. unfold le_by, shuffle_less. cbv zeta. repeat case_decide; lia. Qed.

(** ** Lemmas: gcd, value choice *)

Lemma gcd_loop_spec fuel a b :
  Z.abs b < Z.of_nat fuel → Z.abs (gcd_loop fuel a b) = Z.gcd a b.
Proof.
  revert a b. induction fuel as [|fuel IH]; intros a b Hf; [lia|]. simpl.
  case_decide as Hb.
  - pose proof (Z.rem_bound_abs a b Hb).
    rewrite IH by lia. rewrite (Z.gcd_comm a b).
    replace (Z.rem a b) with (a - b * Z.quot a b) by (pose proof (Z.quot_rem' a b); lia).
    rewrite <-(Z.gcd_add_mult_diag_r b (a - b * Z.quot a b) (Z.quot a b)). f_equal. lia.
  - assert (b = 0) as -> by lia. by rewrite Z.gcd_0_r.
Qed.
Lemma gcd_spec a b : gcd a b = Z.gcd a b.
Proof.
  unfold gcd. pose proof (gcd_loop_spec (S (Z.abs_nat b)) a b). case_decide; lia.
Qed.

Lemma scan_ids_sound ids vc start i k v :
  scan_ids ids vc start i k = Some v → v ∈ ids ∧ v < vc.
Proof.
  revert i. induction k as [|k IH]; intros i; simpl; [done|].
  destruct (ids !! _) as [w|] eqn:E; [|done]. case_decide; [|apply IH].
  intros [= <-]. split; [|done]. by eapply list_elem_of_lookup_2.
Qed.

Lemma scan_ids_None ids vc start i k :
  ids ≠ [] → scan_ids ids vc start i k = None →
  ∀ j, i ≤ j < i + Z.of_nat k →
  ∃ w, ids !! Z.to_nat ((start + j) mod len ids) = Some w ∧ vc ≤ w.
Proof.
  intros Hne. revert i. induction k as [|k IH]; intros i; simpl; [lia|].
  assert (0 < len ids) by (unfold len; destruct ids; simpl; [done|lia]).
  destruct (lookup_lt_is_Some_2 ids (Z.to_nat ((start + i) mod len ids))) as [w Hw].
  { pose proof (Z.mod_pos_bound (start + i) (len ids)). unfold len in *. lia. }
  rewrite Hw. case_decide; [done|]. intros Hs j Hj.
  destruct (decide (j = i)) as [->|]; [exists w; split; [done|lia]|].
  apply (IH (i + 1)); [done|lia].
Qed.

Lemma scan_ids_complete ids vc start :
  scan_ids ids vc start 0 (length ids) = None → Forall (λ v, vc ≤ v) ids.
Proof.
  intros Hs. destruct (decide (ids = [])) as [->|Hne]; [done|].
  apply Forall_forall. intros v [p Hp]%list_elem_of_lookup.
  pose proof (lookup_lt_Some _ _ _ Hp) as Hlt.
  assert (0 < len ids) by (unfold len; lia).
  set (j := (Z.of_nat p - start) mod len ids).
  assert (Hj : 0 ≤ j < len ids) by (apply Z.mod_pos_bound; lia).
  destruct (scan_ids_None ids vc start 0 (length ids) Hne Hs j) as (w & Hw & ?).
  { unfold len in *; lia. }
  replace ((start + j) mod len ids) with (Z.of_nat p) in Hw.
  { rewrite Nat2Z.id in Hw. by simplify_eq. }
  unfold j. rewrite Z.add_mod_idemp_r by lia.
  replace (start + (Z.of_nat p - start)) with (Z.of_nat p) by lia.
  rewrite Z.mod_small; [done|]. unfold len. lia.
Qed.

Lemma deterministicValueID_sound ids vc seed v :
  deterministicValueID ids vc seed = Some v → v ∈ ids ∧ v < vc.
Proof. unfold deterministicValueID. case_decide; [done|]. apply scan_ids_sound. Qed.
Lemma deterministicValueID_None ids vc seed :
  0 ≤ vc → Forall (λ v, 0 ≤ v) ids →
  deterministicValueID ids vc seed = None → Forall (λ v, vc ≤ v) ids.
Proof.
  intros Hvc Hids. unfold deterministicValueID.
  case_decide as H; [|apply scan_ids_complete].
  intros _. destruct H as [->|H]; [done|]. unfold len in H. by destruct ids.
Qed.

Lemma first_valueID_sound pools vc seed v :
  first_valueID pools vc seed = Some v → v ∈ concat pools ∧ v < vc.
Proof.
  induction pools as [|ids pools IH]; simpl; [done|].
  destruct (deterministicValueID _ _ _) eqn:E.
  - intros [= <-]. apply deterministicValueID_sound in E. set_solver.
  - intros H%IH. set_solver.
Qed.
Lemma first_valueID_None pools vc seed :
  0 ≤ vc → Forall (λ v, 0 ≤ v) (concat pools) →
  first_valueID pools vc seed = None → Forall (λ v, vc ≤ v) (concat pools).
Proof.
  intros Hvc. induction pools as [|ids pools IH]; simpl; [done|].
  rewrite Forall_app. intros [H1 H2].
  destruct (deterministicValueID _ _ _) eqn:E; [done|]. intros.
  apply Forall_app. split; [by eapply deterministicValueID_None|auto].
Qed.

(** The value ids the planner may pick for a parameter. *)
Definition planned_pool (param : ConfigParam) : list Z :=
  concat [MutatorTfuzzValueIDs param; MutatorSeedValueIDs param; MutatorRandomValueIDs param].

(** The integer fields of a parameter are [uint64] values. *)
Definition param_ok (param : ConfigParam) : Prop :=
  in_u64 (PID param) ∧ in_u64 (ValueCount param)
  ∧ Forall in_u64 (planned_pool param).
#[export] Instance param_ok_dec p : Decision (param_ok p).
Proof. unfold param_ok. apply _. Defined.

Lemma plannedValueFromSeed_range seed param v f :
  param_ok param → 0 < ValueCount param →
  plannedValueFromSeed seed param = (v, f) → 0 ≤ v < ValueCount param.
Proof.
  intros (Hid & Hvc & Hpool) Hpos. unfold plannedValueFromSeed, plannedMutatorValue.
  destruct (Mutator param); simpl negb; cbv iota.
  - destruct (first_valueID _ _ _) as [w|] eqn:E.
    + intros [= <- _]. apply first_valueID_sound in E as [Hin ?].
      rewrite Forall_forall in Hpool. specialize (Hpool w Hin). unfold in_u64 in *. lia.
    + case_decide; intros [= <- _]; [lia|]. apply Z.mod_pos_bound. lia.
  - case_decide; intros [= <- _]; [lia|]. apply Z.mod_pos_bound. lia.
Qed.

Lemma allowedRelatedParam_spec param :
  allowedRelatedParam param = true ↔
  Mutator param = true ∧ 1 < ValueCount param ∧ hardBlockedConfigParam param = false.
Proof.
  unfold allowedRelatedParam.
  destruct (Mutator param), (ValueCount param <=? 1) eqn:E, (hardBlockedConfigParam param);
    simpl; naive_solver lia.
Qed.

Lemma safeRandomParam_allowed param :
  safeRandomParam param = true → allowedRelatedParam param = true ∧ AutoSafe param = true.
Proof.
  unfold safeRandomParam, conservativeRandomParam.
  destruct (allowedRelatedParam param), (AutoSafe param); naive_solver.
Qed.

(** ** Properties *)

(** The value planned for an allowed parameter is always a value of that
    parameter; it comes from the mutator pools (tried in the order tfuzz,
    seed, random) whenever one of them holds a legal id, and is otherwise a
    fallback value marked with the flip flag. *)
Theorem planned_value_spec (seed : Z) (param : ConfigParam)
    (Hok : param_ok param) (Hallowed : allowedRelatedParam param = true) :
  let '(v, f) := plannedValueFromSeed seed param in
  0 ≤ v < ValueCount param
  ∧ ((f = 0 ∧ v ∈ planned_pool param)
     ∨ (f = KConfuzzConfigFlagFlip ∧ Forall (λ id, ValueCount param ≤ id) (planned_pool param))).
Proof.
  apply allowedRelatedParam_spec in Hallowed as (Hmut & Hvc & _).
  destruct (plannedValueFromSeed seed param) as [v f] eqn:E. split.
  - eapply plannedValueFromSeed_range; [done| |done]. lia.
  - destruct Hok as (_ & Hvc' & Hpool). unfold plannedValueFromSeed, plannedMutatorValue in E.
    rewrite Hmut in E. simpl negb in E. cbv iota in E.
    destruct (first_valueID _ _ _) as [w|] eqn:Ew.
    + injection E as <- <-. left. split; [done|]. by apply first_valueID_sound in Ew as [? _].
    + right. rewrite decide_False in E by lia. injection E as <- <-. split; [done|].
      apply (first_valueID_None _ _ seed); [unfold in_u64 in *; lia| |done].
      eapply Forall_impl; [exact Hpool|]. unfold in_u64. naive_solver lia.
Qed.

(** The shuffle that orders candidate parameters is a deterministic
    permutation: it returns the same list for every order of the input (Go
    builds it by ranging over a map), and the 64-bit mix it sorts by is
    injective, so its tie-break can only compare a parameter with itself. *)
Theorem shuffle_deterministic (seed : Z) (l l' : list ConfigParam)
    (Hseed : in_u64 seed) (Hids : Forall (λ p, in_u64 (PID p)) l)
    (Hnodup : NoDup (PID <$> l)) (Hperm : l' ≡ₚ l) :
  shuffledParamSlice l' seed = shuffledParamSlice l seed
  ∧ shuffledParamSlice l seed ≡ₚ l
  ∧ (∀ p q, p ∈ l → q ∈ l →
       mix64 (Z.lxor seed (PID p)) = mix64 (Z.lxor seed (PID q)) → p = q).
Proof.
  assert (Hinj : ∀ p q, p ∈ l → q ∈ l → PID p = PID q → p = q).
  { intros p q [i Hi]%list_elem_of_lookup [j Hj]%list_elem_of_lookup E.
    rewrite NoDup_alt in Hnodup.
    assert (i = j) as ->; [|by simplify_eq].
    apply (Hnodup i j (PID p)); rewrite list_lookup_fmap; [by rewrite Hi|].
    rewrite Hj. simpl. by rewrite E. }
  split_and!.
  - apply sort_by_Permutation; [apply _| |done].
    intros p q Hp Hq H1 H2. apply Hinj; [done|done|]. by eapply shuffle_less_antisym.
  - apply sort_by_perm.
  - intros p q Hp Hq E. apply Hinj; [done|done|].
    rewrite Forall_forall in Hids.
    apply mix64_inj in E; [by eapply lxor_cancel| |]; apply lxor_u64; auto.
Qed.

(** A sample parameter for the witnesses. *)
Definition sample_param (name : string) (id : Z) : ConfigParam :=
  mkParam name id 5 "ipv6" "bool_range01" true true "high" "strict_bool" "bool"
    40 20 35 5 [0; 1] [0; 1] [1; 0] [2; 3; 4].

Lemma planned_value_witness :
  let '(v, f) := plannedValueFromSeed 12 (sample_param "net/ipv6/ip_nonlocal_bind" 3) in
  0 ≤ v < 5 ∧ ((f = 0 ∧ v ∈ [0; 1; 0; 1; 1; 0])
               ∨ (f = KConfuzzConfigFlagFlip ∧ Forall (λ id, 5 ≤ id) [0; 1; 0; 1; 1; 0])).
Proof.
  apply (planned_value_spec 12 (sample_param "net/ipv6/ip_nonlocal_bind" 3)).
  - apply (bool_decide_unpack _). vm_compute. exact I.
  - vm_compute. reflexivity.
Defined.

Lemma shuffle_witness :
  shuffledParamSlice [sample_param "a" 7; sample_param "b" 3] 99
  = shuffledParamSlice [sample_param "b" 3; sample_param "a" 7] 99.
Proof.
  apply (shuffle_deterministic 99 [sample_param "b" 3; sample_param "a" 7]
           [sample_param "a" 7; sample_param "b" 3]).
  - apply (bool_decide_unpack _). vm_compute. exact I.
  - apply (bool_decide_unpack _). vm_compute. exact I.
  - apply (bool_decide_unpack _). vm_compute. exact I.
  - apply Permutation_swap.
Defined.
