(* ===== verification/Planner.v ===== *)
(** * The action planner (src/pkg/kconfuzz/actionplanner.go)

    Loading of the relation table, option normalization and the planning
    strategies: random level, sequence level, call level and both, and the
    tightening of contexts of risky programs.  [used]/[skip] maps are sets of
    parameter ids threaded through the strategies as the code mutates them. *)

From S2P Require Import Prelude GoStrings Prog ConfigContext Params.

Inductive PlanStrategy := StrategySequence | StrategyCall | StrategyBoth.

Definition strategyName (s : PlanStrategy) : string :=
  match s with
  | StrategyCall => KConfuzzConfigStrategyCall
  | StrategyBoth => KConfuzzConfigStrategyBoth
  | StrategySequence => KConfuzzConfigStrategySequence
  end.

Record Options := mkOptions {
  OStrategy : PlanStrategy;
  MaxActionsPerProgram : Z;
  MaxActionsPerCall : Z;
  RandomActionsPerProgram : Z;
  RelatedActionsPerProgram : Z
}.
#[export] Instance PlanStrategy_eq_dec : EqDecision PlanStrategy.
Proof. solve_decision. Defined.
#[export] Instance Options_eq_dec : EqDecision Options.
Proof. solve_decision. Defined.

Definition unlimitedActions : Z := -1.
Definition isUnlimited (limit : Z) : bool := limit <? 0.
Definition remainingActions (limit used : Z) : Z :=
  if isUnlimited limit then unlimitedActions
  else if limit <=? used then 0
  else limit - used.

(** [normalizeOptions]; [int] additions wrap at 64 bits. *)
Definition normalizeOptions (opts : Options) (defaultMaxActions : Z) : Options :=
  let maxp := MaxActionsPerProgram opts in
  let maxp := if decide (maxp = 0) then defaultMaxActions
              else if decide (maxp < 0) then unlimitedActions else maxp in
  let maxc := MaxActionsPerCall opts in
  let maxc := if decide (maxc ≤ 0) then 1 else maxc in
  let rnd := RandomActionsPerProgram opts in
  let rnd := if decide (rnd < 0) then 0 else rnd in
  let rnd := if negb (isUnlimited maxp) && (maxp <? rnd) then maxp else rnd in
  let rel := RelatedActionsPerProgram opts in
  let rel := if decide (rel = 0) then remainingActions maxp rnd else rel in
  let rel := if decide (rel < 0) then unlimitedActions else rel in
  let rel := if negb (isUnlimited maxp) && negb (isUnlimited rel)
                && (maxp <? i64 (rnd + rel)) then maxp - rnd else rel in
  mkOptions (OStrategy opts) maxp maxc rnd rel.

(** ** Loading the relation table *)

Record relationRow := mkRow {
  RowParam : string;
  RowParamDomain : string;
  SyzkallerCall : string;
  DescriptorDomain : string
}.

(** The row counters and the load summary of [Audit]. *)
Record RowAudit := mkRowAudit {
  RawRows : Z;
  DroppedMissingParam : Z;
  DroppedMissingCall : Z;
  DroppedUnsafeParam : Z;
  DroppedDomainMismatch : Z;
  DroppedGenericDomain : Z
}.
Record LoadAudit := mkLoadAudit {
  LoadedEdges : Z;
  LoadedCalls : Z;
  LoadedParams : Z;
  LoadedParamDomains : gmap string Z;
  LoadedParamValueDomains : gmap string Z
}.

Record Planner := mkPlanner {
  callToParams : gmap string (list ConfigParam);
  edgeCount : Z;
  rowAudit : RowAudit;
  loadAudit : LoadAudit
}.

(** What the loop body decides for one row. *)
Inductive row_verdict :=
| MissingParam | MissingCall | UnsafeParam | GenericDomain | DomainMismatch
| KeepRow (param : ConfigParam).

Section load.
Context (SupportedParams : gmap string ConfigParam).

Definition row_check (row : relationRow) : row_verdict :=
  match SupportedParams !! RowParam row with
  | None => MissingParam
  | Some param =>
      if decide (SyzkallerCall row = "") then MissingCall
      else if negb (allowedRelatedParam param) then UnsafeParam
      else if decide (DescriptorDomain row = "generic") then GenericDomain
      else if decide (RowParamDomain row ≠ DescriptorDomain row) then DomainMismatch
      else KeepRow param
  end.

(** The counters after one row; every row counts in [RawRows]. *)
Definition count_row (a : RowAudit) (v : row_verdict) : RowAudit :=
  let '(mkRowAudit raw mp mc us dm gd) := a in
  match v with
  | MissingParam => mkRowAudit (raw + 1) (mp + 1) mc us dm gd
  | MissingCall => mkRowAudit (raw + 1) mp (mc + 1) us dm gd
  | UnsafeParam => mkRowAudit (raw + 1) mp mc (us + 1) dm gd
  | GenericDomain => mkRowAudit (raw + 1) mp mc us dm (gd + 1)
  | DomainMismatch => mkRowAudit (raw + 1) mp mc us (dm + 1) gd
  | KeepRow _ => mkRowAudit (raw + 1) mp mc us dm gd
  end.

(** [byCall[row.SyzkallerCall][param.ID] = param]. *)
Definition add_row (byCall : gmap string (gmap Z ConfigParam)) (row : relationRow)
    : gmap string (gmap Z ConfigParam) :=
  match row_check row with
  | KeepRow param =>
      <[SyzkallerCall row := <[PID param := param]> (default ∅ (byCall !! SyzkallerCall row))]>
        byCall
  | _ => byCall
  end.

(** The scan loop: a line that does not parse aborts the load. *)
Fixpoint load_rows (lines : list (option relationRow)) (audit : RowAudit)
    (byCall : gmap string (gmap Z ConfigParam))
    : option (RowAudit * gmap string (gmap Z ConfigParam)) :=
  match lines with
  | [] => Some (audit, byCall)
  | None :: _ => None
  | Some row :: lines' =>
      load_rows lines' (count_row audit (row_check row)) (add_row byCall row)
  end.

Definition bump (m : gmap string Z) (k : string) : gmap string Z :=
  <[k := default 0 (m !! k) + 1]> m.

(** The second phase: flatten, sort by id, and summarize.  Its result does
    not depend on the iteration order of the maps. *)
Definition finish_load (audit : RowAudit) (byCall : gmap string (gmap Z ConfigParam)) : Planner :=
  let ctp := sortedParams <$> byCall in
  let loaded := concat (values ctp) in
  let edges := len loaded in
  mkPlanner ctp edges audit
    (mkLoadAudit edges (Z.of_nat (size ctp))
       (Z.of_nat (size (list_to_set (C := gset Z) (PID <$> loaded))))
       (foldl bump ∅ (Domain <$> loaded))
       (foldl bump ∅ (ValueDomain <$> loaded))).

(** [LoadRelationTable]: the argument is what reading the file gives, [None]
    if it cannot be opened, else its lines, each with the result of
    [json.Unmarshal], and whether the scanner ended with an error. *)
Definition LoadRelationTable (file : option (list (option relationRow) * bool))
    : option Planner :=
  match file with
  | None => None
  | Some (lines, scan_err) =>
      match load_rows lines (mkRowAudit 0 0 0 0 0 0) ∅ with
      | None => None
      | Some (audit, byCall) => if scan_err then None else Some (finish_load audit byCall)
      end
  end.
End load.

(** ** Planning *)

Section plan.
(** The generated parameter registry and [Prog.Serialize]. *)
Context (SupportedParams : gmap string ConfigParam).
Context (Serialize : Prog → outcome (list Z)).

(** FNV-1a, 64 bits (hash/fnv). *)
Definition fnv64a (h : Z) (data : list Z) : Z :=
  foldl (λ h b, Z.lxor h b *u 1099511628211) h data.
Definition fnv_offset : Z := 14695981039346656037.

(** [fmt.Fprintf(h, "%d:%s\n", index, name)]; the name of a nil call is empty. *)
Definition seed_line (i : nat) (call : option Call) : list Z :=
  bytes_of (pretty i) ++ bytes_of ":" ++
  bytes_of (default "" (Name <$> (call ≫= Meta))) ++ [10].

Definition planSeed (prg : option Prog) : outcome Z :=
  h ← match prg with
      | None => Ret fnv_offset
      | Some p =>
          data ← Serialize p;
          Ret (fnv64a (fnv64a fnv_offset data) (concat (imap seed_line (Calls p))))
      end;
  Ret (if decide (h = 0) then 1 else h).

Definition related (p : Planner) (name : string) : list ConfigParam :=
  default [] (callToParams p !! name).

Definition randomCandidateParams : list ConfigParam :=
  sort_by (less_on PID) (filter (λ p, safeRandomParam p = true) (values SupportedParams)).

(** The search for a step coprime to the number of parameters; at most
    [len(params)] rounds are needed. *)
Fixpoint coprime_step (fuel : nat) (step n : Z) : Z :=
  match fuel with
  | O => step
  | S fuel' =>
      if decide (gcd step n ≠ 1) then
        let step := step + 1 in
        coprime_step fuel' (if decide (n ≤ step) then 1 else step) n
      else step
  end.

Fixpoint random_loop (params : list ConfigParam) (step limit baseSeed : Z)
    (k : nat) (idx : Z) (actions : list KConfuzzConfigAction) (skip : gset Z)
    : outcome (list KConfuzzConfigAction * gset Z) :=
  match k with
  | O => Ret (actions, skip)
  | S k' =>
      if decide (limit ≤ len actions) then Ret (actions, skip)
      else
        param ← index params idx;
        let idx' := (idx + step) mod len params in
        if decide (PID param ∈ skip) then
          random_loop params step limit baseSeed k' idx' actions skip
        else
          random_loop params step limit baseSeed k' idx'
            (actions ++ [configActionWithSeed 0
                           (valueSeed baseSeed (len actions) 0 param) param])
            ({[PID param]} ∪ skip)
  end.

Definition planRandomLevel (prg : Prog) (limit : Z) (skip : gset Z)
    : outcome (list KConfuzzConfigAction * gset Z) :=
  if decide (limit ≤ 0) then Ret ([], skip)
  else
    let params := randomCandidateParams in
    if decide (len params = 0) then Ret ([], skip)
    else
      seed ← planSeed (Some prg);
      let start := seed mod len params in
      let step :=
        if decide (1 < len params) then
          coprime_step (length params) (seed mod (len params - 1) + 1) (len params)
        else 1 in
      random_loop params step limit (seed mod 1000000) (length params) start [] skip.

(** [seen[param.ID] = param] for the parameters of every named call. *)
Definition collect_seen (p : Planner) (skip : gset Z) (names : list string)
    : gmap Z ConfigParam :=
  foldl (λ seen name,
           foldl (λ seen param,
                    if decide (PID param ∈ skip) then seen else <[PID param := param]> seen)
             seen (related p name))
    ∅ names.

Definition planSequenceLevel (p : Planner) (prg : Prog) (opts : Options) (skip : gset Z)
    : outcome (list KConfuzzConfigAction * gset Z) :=
  let seen := collect_seen p skip (named_calls (Calls prg)).*2 in
  seed ← planSeed (Some prg);
  let params := shuffledParams seen seed in
  let params :=
    if negb (isUnlimited (MaxActionsPerProgram opts))
       && (MaxActionsPerProgram opts <? len params)
    then take (Z.to_nat (MaxActionsPerProgram opts)) params else params in
  Ret (imap (λ i param, configActionWithSeed 0
                          (valueSeed seed (Z.of_nat i) 0 param) param) params,
       list_to_set (PID <$> params) ∪ skip).

(** The state of [planCallLevel]'s loops. *)
Record call_state := mkCallState {
  cs_actions : list KConfuzzConfigAction;
  cs_seen : gset Z;
  cs_skip : gset Z
}.

(** The inner loop; the boolean is the [return] inside it. *)
Fixpoint call_params (seed idx : Z) (opts : Options) (params : list ConfigParam)
    (addedForCall : Z) (st : call_state) : call_state * bool :=
  match params with
  | [] => (st, false)
  | param :: params' =>
      if decide (PID param ∈ cs_seen st) then
        call_params seed idx opts params' addedForCall st
      else
        let actions := cs_actions st ++
          [configActionWithSeed idx
             (valueSeed seed (len (cs_actions st)) idx param) param] in
        let st := mkCallState actions ({[PID param]} ∪ cs_seen st)
                    ({[PID param]} ∪ cs_skip st) in
        let addedForCall := addedForCall + 1 in
        if negb (isUnlimited (MaxActionsPerProgram opts))
           && (MaxActionsPerProgram opts <=? len actions) then (st, true)
        else if decide (MaxActionsPerCall opts ≤ addedForCall) then (st, false)
        else call_params seed idx opts params' addedForCall st
  end.

Fixpoint call_loop (p : Planner) (seed : Z) (opts : Options) (calls : list (Z * string))
    (st : call_state) : call_state :=
  match calls with
  | [] => st
  | (idx, name) :: calls' =>
      let params := shuffledParamSlice (related p name)
                      (mix64 (Z.lxor seed (u64 (i64 (idx + 1))))) in
      let '(st, stop) := call_params seed idx opts params 0 st in
      if stop then st else call_loop p seed opts calls' st
  end.

Definition planCallLevel (p : Planner) (prg : Prog) (opts : Options) (skip : gset Z)
    : outcome (list KConfuzzConfigAction * gset Z) :=
  seed ← planSeed (Some prg);
  let st := call_loop p seed opts (named_calls (Calls prg)) (mkCallState [] skip skip) in
  Ret (cs_actions st, cs_skip st).

(** The final loop of [planBothLevels]. *)
Fixpoint append_limited (maxp : Z) (actions more : list KConfuzzConfigAction)
    : list KConfuzzConfigAction :=
  match more with
  | [] => actions
  | action :: more' =>
      let actions := actions ++ [action] in
      if negb (isUnlimited maxp) && (maxp <=? len actions) then actions
      else append_limited maxp actions more'
  end.

Definition set_max (opts : Options) (maxp : Z) : Options :=
  mkOptions (OStrategy opts) maxp (MaxActionsPerCall opts)
    (RandomActionsPerProgram opts) (RelatedActionsPerProgram opts).

Definition planBothLevels (p : Planner) (prg : Prog) (opts : Options) (skip : gset Z)
    : outcome (list KConfuzzConfigAction * gset Z) :=
  '(actions, skip) ← planSequenceLevel p prg opts skip;
  if negb (isUnlimited (MaxActionsPerProgram opts))
     && (MaxActionsPerProgram opts <=? len actions) then Ret (actions, skip)
  else
    let remaining :=
      set_max opts (remainingActions (MaxActionsPerProgram opts) (len actions)) in
    '(callActions, skip) ← planCallLevel p prg remaining skip;
    Ret (append_limited (MaxActionsPerProgram opts) actions callActions, skip).

Definition planRelated (p : Planner) (prg : Prog) (opts : Options) (skip : gset Z)
    : outcome (list KConfuzzConfigAction * gset Z) :=
  match OStrategy opts with
  | StrategyCall => planCallLevel p prg opts skip
  | StrategyBoth => planBothLevels p prg opts skip
  | StrategySequence => planSequenceLevel p prg opts skip
  end.

Definition Plan (p : option Planner) (prg : option Prog) (opts : Options)
    : outcome (list KConfuzzConfigAction) :=
  match p, prg with
  | Some p, Some prg =>
      let opts := normalizeOptions opts 4 in
      '(actions, used) ← planRandomLevel prg (RandomActionsPerProgram opts) ∅;
      let remaining := remainingActions (MaxActionsPerProgram opts) (len actions) in
      let relatedLimit := RelatedActionsPerProgram opts in
      let relatedLimit :=
        if isUnlimited relatedLimit then remaining
        else if negb (isUnlimited remaining) && (remaining <? relatedLimit) then remaining
        else relatedLimit in
      if decide (relatedLimit = 0) then Ret actions
      else
        let relatedOpts := mkOptions (OStrategy opts) relatedLimit (MaxActionsPerCall opts)
                             0 (RelatedActionsPerProgram opts) in
        '(more, _) ← planRelated p prg relatedOpts used;
        Ret (actions ++ more)
  | _, _ => Ret []
  end.

Definition PlanContext (p : option Planner) (prg : option Prog) (opts : Options)
    (source : string) : outcome (option KConfuzzConfigContext) :=
  actions ← Plan p prg opts;
  if decide (len actions = 0) then Ret None
  else Ret (Some (mkContext (strategyName (OStrategy opts)) source false
                    (NormalizeKConfuzzConfigActions prg actions))).
End plan.
