(* ===== verification/PlannerLoad.v ===== *)
(** * Properties of the relation table loader

    [LoadRelationTable] keeps exactly the edges its filters accept. *)

From S2P Require Import Prelude GoStrings Prog ConfigContext Params Planner PlannerProps.

(** The conditions under which a row of the table becomes an edge. *)
Definition row_accepted (SupportedParams : gmap string ConfigParam) (row : relationRow)
    (q : ConfigParam) : Prop :=
  SupportedParams !! RowParam row = Some q ∧ SyzkallerCall row ≠ ""
  ∧ allowedRelatedParam q = true
  ∧ DescriptorDomain row ≠ "generic" ∧ RowParamDomain row = DescriptorDomain row.

Lemma row_check_Keep SupportedParams row q :
  row_check SupportedParams row = KeepRow q ↔ row_accepted SupportedParams row q.
Proof.
  unfold row_check, row_accepted.
  destruct (SupportedParams !! RowParam row) as [r|]; [|by split; [|intros [? _]]].
  destruct (decide (SyzkallerCall row = "")); [by split; [|intros (_ & ? & _)]|].
  destruct (allowedRelatedParam r) eqn:E; cbn [negb].
  2: { split; [done|]. intros (? & _ & ? & _). congruence. }
  destruct (decide (DescriptorDomain row = "generic")).
  { by split; [|intros (_ & _ & _ & ? & _)]. }
  destruct (decide (RowParamDomain row ≠ DescriptorDomain row)).
  { by split; [|intros (_ & _ & _ & _ & ?)]. }
  split; [|by intros ([= ->] & _)]. intros [= <-]. split_and!; try done.
  by apply dec_stable.
Qed.

Section load_props.
Context (SupportedParams : gmap string ConfigParam) `{!RegistryOK SupportedParams}.

Lemma PID_registry_inj q r :
  q ∈ values SupportedParams → r ∈ values SupportedParams → PID q = PID r → q = r.
Proof.
  intros [i Hi]%list_elem_of_lookup [j Hj]%list_elem_of_lookup E.
  assert (i = j) as ->; [|by simplify_eq].
  eapply (proj1 (NoDup_alt _) (registry_nodup (RegistryOK := _)) i j (PID q)).
  - by rewrite list_lookup_fmap, Hi.
  - by rewrite list_lookup_fmap, Hj, E.
Qed.

Lemma accepted_registry row q :
  row_accepted SupportedParams row q → q ∈ values SupportedParams.
Proof. intros (Hq & _). apply elem_of_values. eauto. Qed.

(** The two-level map holds exactly the edges of the rows read so far. *)
Definition edges_of (byCall : gmap string (gmap Z ConfigParam)) (rows : list relationRow) : Prop :=
  (∀ call m, byCall !! call = Some m → m ≠ ∅) ∧
  ∀ call id q, default ∅ (byCall !! call) !! id = Some q ↔
    PID q = id ∧ ∃ row, row ∈ rows ∧ SyzkallerCall row = call
                        ∧ row_accepted SupportedParams row q.

Lemma add_row_edges byCall rows row :
  edges_of byCall rows → edges_of (add_row SupportedParams byCall row) (rows ++ [row]).
Proof.
  intros [Hne He]. unfold add_row.
  destruct (row_check SupportedParams row) as [| | | | |r] eqn:E.
  1-5: split; [done|]; intros call id q; rewrite He; split;
    [intros (<- & row' & Hin & <- & Hacc); split; [done|]; exists row';
       rewrite elem_of_app; by auto
    |intros (<- & row' & [Hin| ->%list_elem_of_singleton]%elem_of_app & <- & Hacc);
       [by eauto|apply row_check_Keep in Hacc; congruence]].
  apply row_check_Keep in E. split.
  { intros call m. rewrite lookup_insert_Some.
    intros [[_ <-]|[_ ?]]; [apply insert_non_empty|by eapply Hne]. }
  intros call id q. destruct (decide (SyzkallerCall row = call)) as [<-|Hcall].
  - rewrite lookup_insert_eq. simpl. rewrite lookup_insert_Some, He. split.
    + intros [[<- <-]|[Hid (<- & row' & Hin & Hc & Hacc)]].
      * split; [done|]. exists row. rewrite elem_of_app, list_elem_of_singleton. auto.
      * split; [done|]. exists row'. rewrite elem_of_app. auto.
    + intros (<- & row' & [Hin| ->%list_elem_of_singleton]%elem_of_app & Hc & Hacc).
      * destruct (decide (PID r = PID q)) as [Eid|]; [left|right; eauto 8].
        split; [done|]. apply PID_registry_inj; [by eapply accepted_registry..|done].
      * left. destruct E as [E _], Hacc as [Hacc _]. by simplify_eq.
  - rewrite lookup_insert_ne by done. rewrite He. split.
    + intros (<- & row' & Hin & <- & Hacc). split; [done|]. exists row'.
      rewrite elem_of_app. auto.
    + intros (<- & row' & [Hin| ->%list_elem_of_singleton]%elem_of_app & <- & Hacc); [|done].
      eauto.
Qed.

Definition total_dropped (a : RowAudit) : Z :=
  DroppedMissingParam a + DroppedMissingCall a + DroppedUnsafeParam a
  + DroppedDomainMismatch a + DroppedGenericDomain a.
Definition is_kept (row : relationRow) : bool :=
  match row_check SupportedParams row with KeepRow _ => true | _ => false end.

Lemma load_rows_spec rows rows0 audit byCall :
  edges_of byCall rows0 →
  ∃ audit' byCall',
    load_rows SupportedParams (Some <$> rows) audit byCall = Some (audit', byCall')
    ∧ edges_of byCall' (rows0 ++ rows)
    ∧ RawRows audit' = RawRows audit + len rows
    ∧ total_dropped audit' + len (filter (λ r, is_kept r = true) rows)
      = total_dropped audit + len rows.
Proof.
  revert rows0 audit byCall. induction rows as [|row rows IH]; intros rows0 audit byCall He.
  { exists audit, byCall. simpl. rewrite app_nil_r. unfold len; simpl. split_and!; [done..|lia|lia]. }
  rewrite fmap_cons. cbn [load_rows]. apply (add_row_edges _ _ row) in He as He'.
  destruct (IH (rows0 ++ [row]) (count_row audit (row_check SupportedParams row))
              _ He') as (a' & b' & E & Hed & Hraw & Hdrop).
  exists a', b'. rewrite E. split; [done|]. rewrite <-app_assoc in Hed. split; [done|].
  rewrite filter_cons. clear E Hed He'.
  destruct audit as [raw mp mc us dm gd]; unfold total_dropped, len in *.
  case_decide as Hk; unfold is_kept in Hk;
    destruct (row_check SupportedParams row); simpl in *; try done; split; lia.
Qed.

Lemma load_spec_ind call (q : ConfigParam) byCall rows audit :
  edges_of byCall rows →
  q ∈ related (finish_load audit byCall) call ↔
  ∃ row, row ∈ rows ∧ SyzkallerCall row = call ∧ row_accepted SupportedParams row q.
Proof.
  intros [Hne He]. unfold related, finish_load. cbn [callToParams]. rewrite lookup_fmap.
  assert (Hin : q ∈ default [] (sortedParams <$> byCall !! call)
                ↔ ∃ id, default ∅ (byCall !! call) !! id = Some q).
  { destruct (byCall !! call) as [m|]; simpl.
    - unfold sortedParams. by rewrite elem_of_sort_by, elem_of_values.
    - split; [set_solver|]. intros [id Hid]. by rewrite lookup_empty in Hid. }
  rewrite Hin. split.
  - intros [id Hid]. apply He in Hid. naive_solver.
  - intros Hrow. exists (PID q). apply He. naive_solver.
Qed.

Lemma related_sorted call byCall rows audit :
  edges_of byCall rows →
  StronglySorted (λ a b : ConfigParam, PID a < PID b) (related (finish_load audit byCall) call).
Proof.
  intros [_ He]. unfold related, finish_load. cbn [callToParams]. rewrite lookup_fmap.
  specialize (He call). destruct (byCall !! call) as [m|]; simpl in *; [|constructor].
  unfold sortedParams.
  assert (Hnd : NoDup (PID <$> sort_by (less_on PID) (values m))).
  { rewrite sort_by_perm. apply NoDup_PID_values. intros k r Hr. by apply He in Hr as [-> _]. }
  pose proof (sort_by_sorted (less_on PID) (values m)) as Hs.
  induction Hs as [|x l Hl IH Hx]; [constructor|].
  rewrite fmap_cons, NoDup_cons in Hnd. destruct Hnd as [Hnin Hnd].
  constructor; [by apply IH|]. apply Forall_forall. intros y Hy.
  rewrite Forall_forall in Hx. specialize (Hx y Hy). unfold le_by, less_on in Hx.
  assert (PID x ≠ PID y); [|lia].
  intros E. apply Hnin. rewrite E. apply list_elem_of_fmap. eauto.
Qed.
End load_props.


(** ** Witnesses *)

Definition sample_registry : gmap string ConfigParam :=
  {[ "net/ipv6/ip_nonlocal_bind" := sample_param "net/ipv6/ip_nonlocal_bind" 3;
     "net/ipv6/flowlabel_consistency" := sample_param "net/ipv6/flowlabel_consistency" 7;
     "kernel/panic_on_oops" := sample_param "kernel/panic_on_oops" 9 ]}.
#[export] Instance sample_registry_ok : RegistryOK sample_registry.
Proof.
  split; apply (bool_decide_unpack _); vm_compute; exact I.
Qed.

Definition sample_rows : list relationRow :=
  [mkRow "net/ipv6/ip_nonlocal_bind" "ipv6" "bind$inet6" "ipv6";
   mkRow "kernel/panic_on_oops" "ipv6" "bind$inet6" "ipv6";
   mkRow "net/ipv6/flowlabel_consistency" "ipv6" "bind$inet6" "generic";
   mkRow "unknown" "ipv6" "bind$inet6" "ipv6"].


(** A parameter of the generated registry that is not marked AutoSafe. *)
Definition oops_backtrace : ConfigParam :=
  mkParam "kernel/oops_all_cpu_backtrace" 58 5 "generic" "bool_range01" false true "high" "strict_bool" "bool"
    40 20 35 5 [0; 1] [0; 1] [0; 1] [2; 3; 4].
(** The documentation says that only AutoSafe parameters are kept; the loader
    does not look at the mark. *)
Example load_ignores_AutoSafe :
  (λ pl : Planner, AutoSafe <$> related pl "bpf$PROG_LOAD")
    <$> LoadRelationTable {[ "kernel/oops_all_cpu_backtrace" := oops_backtrace ]}
          (Some ([Some (mkRow "kernel/oops_all_cpu_backtrace" "bpf" "bpf$PROG_LOAD" "bpf")], false))
  = Some [false].
Proof. vm_compute. reflexivity. Qed.

Definition sample_attrs : SyscallAttrs :=
  mkSyscallAttrs false 0 0 false false false false false false false false false false "" "".
Definition sample_syscall (id : Z) (name : string) : Syscall :=
  mkSyscall id 0 name name 0 [] None sample_attrs.
Definition sample_call (id : Z) (name : string) : option Call :=
  Some (mkCall (Some (sample_syscall id name)) [] None noProps "").
Definition sample_prog : Prog :=
  mkProg [sample_call 0 "socket$inet6"; sample_call 1 "bind$inet6"] [] false.
Definition sample_serialize (p : Prog) : outcome (list Z) :=
  Ret (concat ((λ '(_, n), bytes_of n) <$> named_calls (Calls p))).
Definition sample_planner : Planner :=
  finish_load (mkRowAudit 0 0 0 0 0 0)
    {[ "bind$inet6" := {[ 3 := sample_param "net/ipv6/ip_nonlocal_bind" 3 ]} ]}.

Lemma plan_witness :
  ∃ actions, Plan sample_registry sample_serialize (Some sample_planner) (Some sample_prog)
               (mkOptions StrategyBoth 3 1 2 0) = Ret actions
             ∧ NoDup (ParamID <$> actions) ∧ len actions ≤ 3.
Proof.
  destruct (plan_spec sample_registry sample_serialize sample_planner sample_prog
              (mkOptions StrategyBoth 3 1 2 0) _ sample_registry_ok eq_refl)
    as (actions & E & Hnd & Hb & _).
  exists actions. split_and!; [exact E|exact Hnd|].
  exact (Hb ltac:(vm_compute; discriminate)).
Defined.

Lemma random_level_witness :
  ∃ actions skip', planRandomLevel sample_registry sample_serialize sample_prog 5 ∅
                   = Ret (actions, skip')
                   ∧ len actions = 2.
Proof.
  destruct (random_level_complete sample_registry sample_serialize sample_prog 5 ∅ _
              sample_registry_ok eq_refl ltac:(lia)) as (actions & skip' & E & Hl & _).
  exists actions, skip'. split; [exact E|]. rewrite Hl. vm_compute. reflexivity.
Defined.

Lemma normalizeOptions_witness :
  let o := normalizeOptions (mkOptions StrategyCall 6 0 2 9) 8 in
  RandomActionsPerProgram o + Z.max 0 (RelatedActionsPerProgram o) ≤ 6
  ∧ normalizeOptions o 8 = o.
Proof.
  pose proof (normalizeOptions_spec (mkOptions StrategyCall 6 0 2 9) 8
                ltac:(lia) ltac:(cbn; lia) ltac:(cbn; lia) ltac:(cbn; lia)) as H.
  cbv zeta in H |- *. destruct H as (_ & _ & _ & _ & Hs & Hf). split; [|exact Hf].
  apply Hs. vm_compute. reflexivity.
Defined.
