(* ===== verification/ConfigPolicy.v ===== *)
(** * Environment knobs, filtering, mutation, quarantine and penalties
    (src/pkg/kconfuzz/actionplanner.go)

    The process environment is a function [env] from variable names to
    values ("" when unset); the quarantine list and the seed penalties are
    explicit state. *)

From S2P Require Import Prelude GoStrings Prog ConfigContext Params Planner.

(** ** Knobs *)
Section env.
Context (env : string → string).

Definition envEnabled (name : string) : bool :=
  negb (mem_string (ToLower (TrimSpace (env name))) [""; "0"; "false"; "no"; "off"]).

Definition intFromEnv (name : string) (fallback : Z) : Z :=
  let value := TrimSpace (env name) in
  if decide (value = "") then fallback
  else match Atoi value with None => fallback | Some parsed => parsed end.

Definition limitFromEnv (name : string) (fallback : Z) : Z :=
  let value := TrimSpace (env name) in
  if decide (value = "") then fallback
  else match Atoi value with
       | None => fallback
       | Some parsed => if decide (parsed = 0) then unlimitedActions else parsed
       end.

Definition strategyFromEnv : PlanStrategy :=
  let v := ToLower (TrimSpace (env "SYZ_KCONFUZZ_ACTION_STRATEGY")) in
  if mem_string v [""; KConfuzzConfigStrategySequence] then StrategySequence
  else if decide (v = KConfuzzConfigStrategyCall) then StrategyCall
  else if decide (v = KConfuzzConfigStrategyBoth) then StrategyBoth
  else StrategySequence.

Definition optionsFromEnv : Options :=
  normalizeOptions
    (mkOptions strategyFromEnv
       (limitFromEnv "SYZ_KCONFUZZ_MAX_ACTIONS" 8)
       (intFromEnv "SYZ_KCONFUZZ_MAX_ACTIONS_PER_CALL" 1)
       (intFromEnv "SYZ_KCONFUZZ_RANDOM_ACTIONS" 0)
       (limitFromEnv "SYZ_KCONFUZZ_RELATED_ACTIONS" 8)) 8.

Definition ActionsEnabled : bool := negb (envEnabled "SYZ_KCONFUZZ_DISABLE_ACTIONS").
Definition ChoiceEnabled : bool := negb (envEnabled "SYZ_KCONFUZZ_DISABLE_CHOICE").
Definition MetadataEnabled : bool := negb (envEnabled "SYZ_KCONFUZZ_DISABLE_METADATA").
Definition SeedPenaltyEnabled : bool := negb (envEnabled "SYZ_KCONFUZZ_DISABLE_SEED_PENALTY").

Definition SaveMaxActions : Z :=
  let limit := intFromEnv "SYZ_KCONFUZZ_SAVE_MAX_ACTIONS" 0 in
  if decide (limit < 0) then 0 else limit.
Definition RiskyMaxActions : Z := limitFromEnv "SYZ_KCONFUZZ_RISKY_MAX_ACTIONS" 2.
Definition RiskySaveMaxActions : Z := limitFromEnv "SYZ_KCONFUZZ_RISKY_SAVE_MAX_ACTIONS" 2.

Definition dangerousActionThreshold (multiplier fallback : Z) : Z :=
  let limit := RiskyMaxActions in
  if isUnlimited limit || (limit <=? 0) then fallback
  else i64 (limit * multiplier).
End env.

(** ** Failure classification *)

Definition EnvFailureTitle (output : string) (err : option string) : string :=
  let text := ToLower output in
  let text := match err with
              | None => text
              | Some e => (text ++ String (Ascii.ascii_of_nat 10) (ToLower e))%string
              end in
  if Contains text "failed to mkdtemp" then "SYZFAIL: failed to mkdtemp"
  else if Contains text "mkdir(syz-tmp) failed" then "SYZFAIL: mkdir(syz-tmp) failed"
  else if Contains text "mmap of data segment failed" then "SYZFAIL: mmap of data segment failed"
  else if Contains text "sigbus" then "SYZFAIL: SIGBUS"
  else if Contains text "no space left on device" then "SYZFAIL: no space left on device"
  else "".
Definition OutputLooksLikeEnvFailure (output : string) (err : option string) : bool :=
  bool_decide (EnvFailureTitle output err ≠ "").

Definition DangerousConfigResult (env : string → string) (ctx : option KConfuzzConfigContext)
    (output : string) (err : option string) (crashed hanged : bool) : bool :=
  match ctx with
  | None => false
  | Some c =>
      if decide (len (Actions c) = 0) then false
      else if OutputLooksLikeEnvFailure output err then true
      else if crashed then true
      else hanged && (dangerousActionThreshold env 2 4 <=? len (Actions c))
  end.

(** ** Bounding a list of actions *)

(** [limitActions]: an evenly spread selection of [limit] actions. *)
Definition limitActions (actions : list KConfuzzConfigAction) (limit : Z)
    : outcome (list KConfuzzConfigAction) :=
  if decide (limit ≤ 0 ∨ len actions ≤ limit) then Ret (CloneKConfuzzConfigActions actions)
  else mapM (λ i, index actions (Z.quot (i64 (i * len actions)) limit)) (seqZ 0 limit).

(** ** Filtering against the registry *)
Section policy.
Context (SupportedParams : gmap string ConfigParam).

(** [paramByID] and [ConfigParamByID] both cache this map. *)
Definition params_by_id : gmap Z ConfigParam :=
  foldr (λ q m, <[PID q := q]> m) ∅ (values SupportedParams).
Definition paramByID (id : Z) : option ConfigParam := params_by_id !! id.

Definition supported_action (action : KConfuzzConfigAction) : bool :=
  match paramByID (ParamID action) with
  | None => false
  | Some param =>
      if negb (allowedRelatedParam param) || bool_decide (ValueCount param = 0) then false
      else if (ValueCount param <=? ValueID action)
              && bool_decide (Z.land (Flags action) KConfuzzConfigFlagFlip = 0) then false
      else true
  end.
Definition FilterSupportedActions (actions : list KConfuzzConfigAction)
    : list KConfuzzConfigAction :=
  if decide (len actions = 0) then []
  else filter (λ a, supported_action a = true) actions.

(** *** Mutation *)

(** [randomValueID]. *)
Definition randomValueID (ids : list Z) (valueCount : Z) (r : rng) : outcome (option Z * rng) :=
  if decide (valueCount = 0 ∨ len ids = 0) then Ret (None, r)
  else
    '(start, r) ← Intn (len ids) r;
    Ret (scan_ids ids valueCount start 0 (length ids), r).

Definition hasValidValueID (ids : list Z) (valueCount : Z) : bool :=
  existsb (λ id, id <? valueCount) ids.

Record mutatorPool := mkPool { weight : Z; ids : list Z }.
(** The pool is not skipped by the filtering loop. *)
Definition usable_pool (valueCount : Z) (pool : mutatorPool) : bool :=
  negb (bool_decide (weight pool = 0) || negb (hasValidValueID (ids pool) valueCount)).

Fixpoint random_from_pools (pools : list (list Z)) (valueCount : Z) (r : rng)
    : outcome (option Z * rng) :=
  match pools with
  | [] => Ret (None, r)
  | ids :: pools' =>
      '(v, r) ← randomValueID ids valueCount r;
      match v with
      | Some valueID => Ret (Some valueID, r)
      | None => random_from_pools pools' valueCount r
      end
  end.
(** The weighted pick among the pools that have a legal id. *)
Fixpoint pick_pool (pools : list mutatorPool) (valueCount pick : Z) (r : rng)
    : outcome (option Z * rng) :=
  match pools with
  | [] => Ret (None, r)
  | pool :: pools' =>
      if decide (pick < weight pool) then randomValueID (ids pool) valueCount r
      else pick_pool pools' valueCount (pick -u weight pool) r
  end.

Definition chooseMutatorValueID (param : ConfigParam) (r : rng) : outcome (option Z * rng) :=
  if negb (Mutator param) || bool_decide (ValueCount param = 0) then Ret (None, r)
  else
    let pools :=
      [mkPool (MutatorProbTfuzz param) (MutatorTfuzzValueIDs param);
       mkPool (MutatorProbSeed param) (MutatorSeedValueIDs param);
       mkPool (MutatorProbRandomLegal param) (MutatorRandomValueIDs param)] in
    let filtered := filter (λ pool, usable_pool (ValueCount param) pool = true) pools in
    let total := foldl (λ t pool, t +u weight pool) 0 filtered in
    if decide (total = 0) then
      random_from_pools (ids <$> pools) (ValueCount param) r
    else
      '(pick, r) ← Intn (i64 total) r;
      pick_pool filtered (ValueCount param) (u64 pick) r.

Definition mutateActionValue (action : KConfuzzConfigAction) (param : ConfigParam) (r : rng)
    : outcome (KConfuzzConfigAction * rng) :=
  let with_value valueID :=
    mkAction (BeforeCall action) (ParamID action) valueID
      (Z.ldiff (Flags action) KConfuzzConfigFlagFlip) in
  if decide (ValueCount param = 0) then Ret (action, r)
  else
    '(v, r) ← chooseMutatorValueID param r;
    match v with
    | Some valueID => Ret (with_value valueID, r)
    | None =>
        if decide (ValueCount param ≤ 1) then Ret (action, r)
        else
          '(d, r) ← Intn (i64 (ValueCount param -u 1)) r;
          let delta := u64 (d + 1) in
          Ret (with_value ((ValueID action +u delta) mod ValueCount param), r)
    end.

(** The three mutations, on the actions of the cloned context. *)
Definition mutate_value (l : list KConfuzzConfigAction) (r : rng)
    : outcome (list KConfuzzConfigAction * rng) :=
  '(i, r) ← Intn (len l) r;
  action ← index l i;
  match paramByID (ParamID action) with
  | Some param =>
      '(action', r) ← mutateActionValue action param r;
      Ret (<[Z.to_nat i := action']> l, r)
  | None => Ret (l, r)
  end.
Definition mutate_position (prg : option Prog) (l : list KConfuzzConfigAction) (r : rng)
    : outcome (list KConfuzzConfigAction * rng) :=
  '(i, r) ← Intn (len l) r;
  action ← index l i;
  match prg with
  | None => Panic
  | Some prg =>
      '(b, r) ← Intn (len (Calls prg) + 1) r;
      Ret (<[Z.to_nat i := mkAction b (ParamID action) (ValueID action) (Flags action)]> l, r)
  end.
Definition mutate_drop (l : list KConfuzzConfigAction) (r : rng)
    : outcome (list KConfuzzConfigAction * rng) :=
  if decide (1 < len l) then
    '(i, r) ← Intn (len l) r;
    Ret (take (Z.to_nat i) l ++ drop (S (Z.to_nat i)) l, r)
  else Ret (l, r).

Definition MutateContext (ctx : option KConfuzzConfigContext) (prg : option Prog) (r : rng)
    : outcome (option KConfuzzConfigContext * rng) :=
  match CloneForProg ctx prg with
  | None => Ret (None, r)
  | Some c =>
      if decide (len (Actions c) = 0) then Ret (Some c, r)
      else
        let c := set_Source c "inherited-mutated" in
        '(which, r) ← Intn 3 r;
        '(l, r) ← (if decide (which = 0) then mutate_value (Actions c) r
                   else if decide (which = 1) then mutate_position prg (Actions c) r
                   else mutate_drop (Actions c) r);
        let l := NormalizeKConfuzzConfigActions prg l in
        let l := FilterSupportedActions l in
        let c := set_Actions c l in
        if decide (len l = 0 ∧ ConfigDependent c = false) then Ret (None, r)
        else Ret (Some c, r)
  end.

(** ** Risky programs *)

Definition hasRelatedCall (p : option Planner) (prg : option Prog) : bool :=
  match p, prg with
  | Some p, Some prg =>
      existsb (λ name, bool_decide (len (related p name) ≠ 0)) (named_calls (Calls prg)).*2
  | _, _ => false
  end.
Definition isMixedRiskProgram (p : option Planner) (prg : option Prog) : bool :=
  ProgramHasEnvRisk prg && hasRelatedCall p prg.

(** The first call each parameter is related to. *)
Definition note_first (i : Z) (m : gmap Z Z) (q : ConfigParam) : gmap Z Z :=
  match m !! PID q with None => <[PID q := i]> m | Some _ => m end.
Definition relatedCallIndexByParam (p : option Planner) (prg : option Prog) : gmap Z Z :=
  match p, prg with
  | Some p, Some prg =>
      foldl (λ m '(i, name), foldl (note_first i) m (related p name)) ∅
        (named_calls (Calls prg))
  | _, _ => ∅
  end.

Fixpoint tighten_loop (byParam : gmap Z Z) (l : list KConfuzzConfigAction) (seen : gset Z)
    : list KConfuzzConfigAction :=
  match l with
  | [] => []
  | action :: l' =>
      match byParam !! ParamID action with
      | Some beforeCall =>
          if decide (ParamID action ∈ seen) then tighten_loop byParam l' seen
          else mkAction beforeCall (ParamID action) (ValueID action) (Flags action)
               :: tighten_loop byParam l' ({[ParamID action]} ∪ seen)
      | None => tighten_loop byParam l' seen
      end
  end.

Definition add_suffix (source suffix : string) : string :=
  if bool_decide (suffix ≠ "") && negb (Contains source suffix) then
    if decide (source = "") then suffix else (source ++ "/" ++ suffix)%string
  else source.

Definition tightenRiskyContext (p : option Planner) (ctx : option KConfuzzConfigContext)
    (prg : option Prog) (limit : Z) (suffix : string) : outcome (option KConfuzzConfigContext) :=
  match CloneForProg ctx prg with
  | None => Ret None
  | Some c =>
      if bool_decide (len (Actions c) = 0) || negb (isMixedRiskProgram p prg) then Ret (Some c)
      else
        let ret := tighten_loop (relatedCallIndexByParam p prg) (Actions c) ∅ in
        ret ← (if negb (isUnlimited limit) && (limit <? len ret) then limitActions ret limit
               else Ret ret);
        let l := NormalizeKConfuzzConfigActions prg ret in
        if decide (len l = 0) then Ret None
        else Ret (Some (mkContext (Strategy c) (add_suffix (Source c) suffix)
                          (ConfigDependent c) l))
  end.

(** ** Quarantine *)
Section quarantine.
Context (Serialize : Prog → outcome (list Z)).
Context (marshal : KConfuzzConfigContext → bool → list Z).
Context (sha1hex : list Z → string).

(** [hash.String] of byte-slice pieces: the hex digest of their
    concatenation (src/pkg/hash/hash.go). *)
Definition hash_String (pieces : list (list Z)) : string := sha1hex (concat pieces).

(** [contextQuarantineKey]: a panic while serializing is recovered. *)
Definition contextQuarantineKey (prg : option Prog) (ctx : option KConfuzzConfigContext)
    : string :=
  let ctx := CloneForProg ctx prg in
  match prg, ctx with
  | Some prg, Some c =>
      if decide (len (Actions c) = 0) then ""
      else match Serialize prg with
           | Panic => ""
           | Ret data => hash_String [data; SignatureData marshal ctx]
           end
  | _, _ => ""
  end.

Definition QuarantineContext (quarantined : gmap string string) (prg : option Prog)
    (ctx : option KConfuzzConfigContext) (reason : string) : gmap string string :=
  let key := contextQuarantineKey prg ctx in
  if decide (key = "") then quarantined else <[key := reason]> quarantined.

Definition ContextQuarantined (quarantined : gmap string string) (prg : option Prog)
    (ctx : option KConfuzzConfigContext) : bool :=
  let key := contextQuarantineKey prg ctx in
  if decide (key = "") then false else bool_decide (is_Some (quarantined !! key)).

Definition FilterSupportedContext (quarantined : gmap string string)
    (ctx : option KConfuzzConfigContext) (prg : option Prog)
    : option KConfuzzConfigContext :=
  let ctx := CloneForProg ctx prg in
  match ctx with
  | None => None
  | Some c =>
      if ContextQuarantined quarantined prg ctx then None
      else
        let c := set_Actions c (FilterSupportedActions (Actions c)) in
        if decide (len (Actions c) = 0 ∧ ConfigDependent c = false) then None
        else if ContextQuarantined quarantined prg (Some c) then None
        else Some c
  end.

Definition TightenContextForSave (ctx : option KConfuzzConfigContext) (prg : option Prog)
    : option KConfuzzConfigContext := CloneForProg ctx prg.

(** *** The audit record of an environment failure *)
Record EnvFailureAuditAction := mkAuditAction {
  au_BeforeCall : Z;
  au_ParamID : Z;
  au_Param : string;
  au_ValueID : Z;
  au_Value : string;
  au_Flags : Z
}.
Record EnvFailureAudit := mkEnvFailureAudit {
  ProgramSig : string;
  ConfigSig : string;
  au_Status : string;
  CrashTitle : string;
  au_Strategy : string;
  au_Source : string;
  au_Calls : list string;
  ActionCount : Z;
  au_Actions : list EnvFailureAuditAction
}.

(** [ConfigValueString] over the generated value table. *)
Definition ConfigValueString (valuesByID : gmap Z (list string)) (paramID valueID : Z) : string :=
  default "" (default [] (valuesByID !! paramID) !! Z.to_nat valueID).

(** The record [RecordEnvFailureAudit] writes, if any. *)
Definition RecordEnvFailureAudit (valuesByID : gmap Z (list string)) (prg : option Prog)
    (ctx : option KConfuzzConfigContext) (output : string) (err : option string)
    (status : string) : outcome (option EnvFailureAudit) :=
  match prg, ctx with
  | Some p, Some c0 =>
      if decide (len (Actions c0) = 0) then Ret None
      else
        let title := EnvFailureTitle output err in
        if decide (title = "") then Ret None
        else
          match CloneForProg ctx prg with
          | None => Ret None
          | Some c =>
              if decide (len (Actions c) = 0) then Ret None
              else
                data ← Serialize p;
                Ret (Some (mkEnvFailureAudit
                  (hash_String [data]) (hash_String [SignatureData marshal (Some c)])
                  status title (Strategy c) (Source c) (named_calls (Calls p)).*2
                  (len (Actions c))
                  ((λ a, mkAuditAction (BeforeCall a) (ParamID a)
                           (default "" (PName <$> paramByID (ParamID a)))
                           (ValueID a) (ConfigValueString valuesByID (ParamID a) (ValueID a))
                           (Flags a)) <$> Actions c)))
          end
  | _, _ => Ret None
  end.
End quarantine.
End policy.

(** ** Seed penalties *)

Definition PenalizeSeed (env : string → string) (scores : gmap string Z) (sig : string)
    : Z * gmap string Z :=
  if bool_decide (sig = "") || negb (SeedPenaltyEnabled env) then (0, scores)
  else
    let scores := if decide (default 0 (scores !! sig) < 8)
                  then <[sig := default 0 (scores !! sig) + 1]> scores else scores in
    (default 0 (scores !! sig), scores).

Definition SeedPenalty (env : string → string) (scores : gmap string Z) (sig : string) : Z :=
  if bool_decide (sig = "") || negb (SeedPenaltyEnabled env) then 0
  else default 0 (scores !! sig).

(** [ShouldSkipPenalizedSeed]; [None] is a nil generator. *)
Definition ShouldSkipPenalizedSeed (env : string → string) (scores : gmap string Z)
    (sig : string) (rnd : option rng) : outcome (bool * option rng) :=
  let score := SeedPenalty env scores sig in
  match rnd with
  | None => Ret (false, None)
  | Some r =>
      if decide (score ≤ 0) then Ret (false, Some r)
      else
        let score := if decide (4 < score) then 4 else score in
        let keepEvery := Z.shiftl 1 score in
        '(i, r) ← Intn keepEvery r;
        Ret (bool_decide (i ≠ 0), Some r)
  end.

(** ** Planning from the environment *)
Definition PlanContextFromEnv (SupportedParams : gmap string ConfigParam)
    (Serialize : Prog → outcome (list Z)) (env : string → string) (planner : option Planner)
    (prg : option Prog) : outcome (option KConfuzzConfigContext) :=
  if negb (ActionsEnabled env) then Ret None
  else match planner with
       | None => Ret None
       | Some _ => PlanContext SupportedParams Serialize planner prg (optionsFromEnv env)
                     "SYZ_KCONFUZZ_RELATION_TABLE"
       end.
Definition PlanFromEnv (SupportedParams : gmap string ConfigParam)
    (Serialize : Prog → outcome (list Z)) (env : string → string) (planner : option Planner)
    (prg : option Prog) : outcome (list KConfuzzConfigAction) :=
  ctx ← PlanContextFromEnv SupportedParams Serialize env planner prg;
  Ret (match ctx with None => [] | Some c => CloneKConfuzzConfigActions (Actions c) end).
