(* ===== verification/PolicyProps.v ===== *)
(** * Properties of filtering, mutation, quarantine and penalties *)

From S2P Require Import Prelude GoStrings Prog ConfigContext Params Planner PlannerProps PlannerLoad ConfigPolicy.

(** ** The registry indexed by id *)

Section by_id.
Context (SupportedParams : gmap string ConfigParam).

Lemma params_by_id_sound id q :
  paramByID SupportedParams id = Some q → PID q = id ∧ q ∈ values SupportedParams.
Proof.
  unfold paramByID, params_by_id.
  induction (values SupportedParams) as [|r l IH]; simpl; [by rewrite lookup_empty|].
  rewrite lookup_insert_Some. intros [[<- <-]|[_ H]]; [split; [done|left]|].
  apply IH in H. set_solver.
Qed.

Lemma params_by_id_complete `{!RegistryOK SupportedParams} q :
  q ∈ values SupportedParams → paramByID SupportedParams (PID q) = Some q.
Proof.
  unfold paramByID, params_by_id. pose proof (registry_nodup (RegistryOK := _)) as Hnd.
  revert Hnd. generalize (values SupportedParams) as l.
  induction l as [|r l IH]; simpl; [set_solver|].
  rewrite NoDup_cons. intros [Hnin Hnd] [->|Hq]%elem_of_cons; [by rewrite lookup_insert_eq|].
  rewrite lookup_insert_ne; [by apply IH|].
  intros E. apply Hnin. rewrite E. apply list_elem_of_fmap. eauto.
Qed.
End by_id.

Lemma elem_of_FilterSupported SupportedParams l a :
  a ∈ FilterSupportedActions SupportedParams l ↔ a ∈ l ∧ supported_action SupportedParams a = true.
Proof.
  unfold FilterSupportedActions, len. case_decide; [destruct l; [set_solver|done]|].
  rewrite list_elem_of_filter. naive_solver.
Qed.

Lemma FilterSupported_unfold SupportedParams l :
  FilterSupportedActions SupportedParams l
  = filter (λ a, supported_action SupportedParams a = true) l.
Proof. unfold FilterSupportedActions, len. case_decide; [by destruct l|done]. Qed.

(** What the executor may be asked to do: the parameter is known, mutable and
    not hard-blocked, and the value exists unless the executor picks it. *)
Definition executable_action (SupportedParams : gmap string ConfigParam)
    (a : KConfuzzConfigAction) : Prop :=
  ∃ q, q ∈ values SupportedParams ∧ PID q = ParamID a ∧ Mutator q = true
       ∧ hardBlockedConfigParam q = false ∧ 1 < ValueCount q
       ∧ (ValueID a < ValueCount q ∨ Z.testbit (Flags a) 1 = true).

Lemma land_flip f : Z.land f KConfuzzConfigFlagFlip = 0 ↔ Z.testbit f 1 = false.
Proof.
  change KConfuzzConfigFlagFlip with (2 ^ 1). split; intros H.
  - apply (f_equal (λ z, Z.testbit z 1)) in H. rewrite Z.land_spec in H.
    rewrite Z.pow2_bits_true in H by lia. simpl in H. by rewrite andb_true_r in H.
  - apply Z.bits_inj'. intros i Hi. rewrite Z.land_spec, Z.bits_0.
    destruct (decide (i = 1)) as [->|]; [by rewrite H|].
    rewrite (Z.pow2_bits_false 1 i) by lia. apply andb_false_r.
Qed.

Lemma supported_action_executable SupportedParams a :
  supported_action SupportedParams a = true → executable_action SupportedParams a.
Proof.
  unfold supported_action. destruct (paramByID _ _) as [q|] eqn:E; [|done].
  apply params_by_id_sound in E as [Hid Hin].
  destruct (allowedRelatedParam q) eqn:Ea; [|done]. cbn [negb orb].
  apply allowedRelatedParam_spec in Ea as (Hm & Hvc & Hb).
  case_bool_decide as Hz; [lia|]. intros Hs. exists q. split_and!; try done.
  destruct (decide (ValueID a < ValueCount q)); [by left|right].
  destruct (Z.testbit (Flags a) 1) eqn:Et; [done|].
  apply land_flip in Et. rewrite bool_decide_true in Hs by done. case_match; lia.
Qed.

Lemma planned_supported SupportedParams `{!RegistryOK SupportedParams} b seed q :
  q ∈ values SupportedParams → allowedRelatedParam q = true →
  supported_action SupportedParams (configActionWithSeed b seed q) = true.
Proof.
  intros Hin Ha. unfold supported_action.
  destruct (configActionWithSeed_fields b seed q) as [-> _].
  rewrite params_by_id_complete, Ha by done. cbn [negb orb].
  apply allowedRelatedParam_spec in Ha as (Hm & Hvc & _).
  rewrite bool_decide_false by lia.
  assert (Hok : param_ok q).
  { pose proof (registry_params (RegistryOK := _)) as HF. rewrite Forall_forall in HF. auto. }
  unfold configActionWithSeed. destruct (plannedValueFromSeed seed q) as [v f] eqn:E.
  apply plannedValueFromSeed_range in E; [|done|lia]. simpl. case_match; [lia|done].
Qed.

(** The planner's edges only mention allowed registry parameters. *)
Definition planner_ok (SupportedParams : gmap string ConfigParam) (p : Planner) : Prop :=
  ∀ call q, q ∈ related p call → q ∈ values SupportedParams ∧ allowedRelatedParam q = true.

Lemma loaded_planner_ok SupportedParams `{!RegistryOK SupportedParams} rows pl :
  LoadRelationTable SupportedParams (Some (Some <$> rows, false)) = Some pl →
  planner_ok SupportedParams pl.
Proof.
  intros E. unfold LoadRelationTable in E.
  destruct (load_rows_spec SupportedParams rows [] (mkRowAudit 0 0 0 0 0 0) ∅)
    as (audit & byCall & E' & Hed & _).
  { split; [intros ??; by rewrite lookup_empty|]. intros call id q.
    rewrite lookup_empty. simpl. rewrite lookup_empty. set_solver. }
  rewrite E' in E. injection E as <-. intros call q Hq.
  apply (load_spec_ind SupportedParams call q byCall rows audit Hed) in Hq
    as (row & _ & _ & Hacc).
  split; [by eapply accepted_registry|]. by destruct Hacc as (_ & _ & ? & _).
Qed.

(** A plan from such a planner passes the executor-side filter. *)
Lemma Plan_supported SupportedParams `{!RegistryOK SupportedParams} Serialize pl prg opts data :
  Serialize prg = Ret data → planner_ok SupportedParams pl →
  ∃ actions, Plan SupportedParams Serialize (Some pl) (Some prg) opts = Ret actions
  ∧ Forall (λ a, supported_action SupportedParams a = true) actions
  ∧ Forall (λ a, 0 ≤ BeforeCall a ≤ len (Calls prg)) actions.
Proof.
  intros Hser Hpl. destruct (Plan_ok SupportedParams Serialize pl prg opts data Hser)
    as (actions & skip' & E & [_ _ _ _ Hor]).
  exists actions. split_and!; [done| |]; apply Forall_forall; intros a Ha;
    destruct (Hor a Ha) as (seed & q & Hsrc & Ea); [rewrite Ea|by eapply plan_source_range].
  destruct Hsrc as [[_ Hq]|(i & name & _ & Hq & _)].
  - unfold randomCandidateParams in Hq. rewrite elem_of_sort_by, list_elem_of_filter in Hq.
    destruct Hq as [Hsafe Hin]. apply safeRandomParam_allowed in Hsafe as [? _].
    by apply planned_supported.
  - apply Hpl in Hq as [??]. by apply planned_supported.
Qed.

(** C2: end to end, every action the planner produces from a loaded relation
    table passes the executor-side filter: normalizing and filtering a plan
    loses nothing, and each of its actions writes an existing value of a
    known, mutable, not hard-blocked parameter. *)
Theorem plan_survives_filter (SupportedParams : gmap string ConfigParam)
    (Serialize : Prog → outcome (list Z)) (rows : list relationRow) (pl : Planner)
    (prg : Prog) (opts : Options) (data : list Z)
    (Hreg : RegistryOK SupportedParams) (Hser : Serialize prg = Ret data)
    (Hload : LoadRelationTable SupportedParams (Some (Some <$> rows, false)) = Some pl) :
  ∃ actions, Plan SupportedParams Serialize (Some pl) (Some prg) opts = Ret actions
  ∧ FilterSupportedActions SupportedParams (NormalizeKConfuzzConfigActions (Some prg) actions)
    ≡ₚ actions
  ∧ Forall (executable_action SupportedParams) actions.
Proof.
  destruct (Plan_supported SupportedParams Serialize pl prg opts data Hser
              (loaded_planner_ok SupportedParams rows pl Hload)) as (actions & E & Hsup & Hrange).
  exists actions. split; [done|]. split.
  - rewrite FilterSupported_unfold, Normalize_all by done. by rewrite filter_all.
  - eapply Forall_impl; [exact Hsup|]. intros a. apply supported_action_executable.
Qed.

(** ** Mutation *)

(** The pool weights of a parameter fit the generator's [int64]. *)
Definition weights_ok (q : ConfigParam) : Prop :=
  0 ≤ MutatorProbTfuzz q ∧ 0 ≤ MutatorProbSeed q ∧ 0 ≤ MutatorProbRandomLegal q
  ∧ MutatorProbTfuzz q + MutatorProbSeed q + MutatorProbRandomLegal q < 2 ^ 63
  ∧ 0 ≤ ValueCount q < 2 ^ 63.
#[export] Instance weights_ok_dec q : Decision (weights_ok q).
Proof. unfold weights_ok. apply _. Defined.

Lemma randomValueID_Ret ids vc r :
  ∃ v r', randomValueID ids vc r = Ret (v, r').
Proof.
  unfold randomValueID. case_decide as H; [eauto|].
  destruct (Intn_Ret (len ids) r) as (i & -> & _); [unfold len in *; lia|]. simpl. eauto.
Qed.
Lemma random_from_pools_Ret pools vc r :
  ∃ v r', random_from_pools pools vc r = Ret (v, r').
Proof.
  revert r. induction pools as [|ids pools IH]; intros r; simpl; [eauto|].
  destruct (randomValueID_Ret ids vc r) as ([v|] & r' & ->); simpl; eauto.
Qed.
Lemma pick_pool_Ret pools vc pick r :
  ∃ v r', pick_pool pools vc pick r = Ret (v, r').
Proof.
  revert pick r. induction pools as [|pool pools IH]; intros pick r; simpl; [eauto|].
  case_decide; [apply randomValueID_Ret|apply IH].
Qed.

Lemma total_weight (pools : list mutatorPool) t :
  Forall (λ pool, 0 ≤ weight pool) pools → 0 ≤ t →
  t + foldr (λ pool s, weight pool + s) 0 pools < 2 ^ 63 →
  foldl (λ t pool, t +u weight pool) t pools = t + foldr (λ pool s, weight pool + s) 0 pools.
Proof.
  intros Hp. revert t. induction Hp as [|pool pools Hw Hp IH]; simpl in *; intros t Ht Hs; [lia|].
  assert (0 ≤ foldr (λ pool s, weight pool + s) 0 pools).
  { clear -Hp. induction Hp; simpl; lia. }
  rewrite u64_id by (unfold in_u64; lia). rewrite IH by lia. lia.
Qed.

Lemma chooseMutatorValueID_Ret q r :
  weights_ok q → ∃ v r', chooseMutatorValueID q r = Ret (v, r').
Proof.
  intros (H1 & H2 & H3 & H4 & _). unfold chooseMutatorValueID.
  destruct (negb (Mutator q) || _); [eauto|]. cbv zeta.
  set (pools := [_; _; _]). set (flt := filter (λ pool, usable_pool (ValueCount q) pool = true) pools).
  case_decide as Ht; [apply random_from_pools_Ret|].
  assert (Hnn : Forall (λ pool : mutatorPool, 0 ≤ weight pool) flt).
  { apply Forall_forall. intros pool [_ Hin]%list_elem_of_filter.
    unfold pools in Hin. rewrite !elem_of_cons, elem_of_nil in Hin.
    by destruct Hin as [->|[->|[->|[]]]]. }
  assert (Hsum : 0 ≤ foldr (λ (pool : mutatorPool) s, weight pool + s) 0 flt < 2 ^ 63).
  { unfold flt, pools. rewrite !filter_cons, filter_nil. repeat case_decide; simpl; lia. }
  rewrite total_weight in Ht |- * by (done || lia). rewrite Z.add_0_l in *.
  rewrite i64_id by (unfold in_i64; lia).
  destruct (Intn_Ret (foldr (λ (pool : mutatorPool) s, weight pool + s) 0 flt) r)
    as (i & -> & _); [lia|]. simpl. apply pick_pool_Ret.
Qed.

Lemma mutateActionValue_Ret a q r :
  weights_ok q →
  ∃ a' r', mutateActionValue a q r = Ret (a', r') ∧ ParamID a' = ParamID a
           ∧ BeforeCall a' = BeforeCall a.
Proof.
  intros Hw. unfold mutateActionValue. case_decide as Hz; [eauto|].
  destruct (chooseMutatorValueID_Ret q r Hw) as (v & r' & ->). simpl.
  destruct v as [v|]; [eauto|]. case_decide as H1; [eauto|].
  destruct Hw as (_ & _ & _ & _ & Hvc).
  rewrite (u64_id (ValueCount q - 1)) by (unfold in_u64; lia).
  rewrite (i64_id (ValueCount q - 1)) by (unfold in_i64; lia).
  destruct (Intn_Ret (ValueCount q - 1) r') as (i & -> & _); [lia|]. simpl. eauto.
Qed.

Section mutate.
Context (SupportedParams : gmap string ConfigParam).
Context (Hweights : Forall weights_ok (values SupportedParams)).

(** A mutation step returns a list no longer than its input. *)
Definition mutation_result (l : list KConfuzzConfigAction)
    (res : outcome (list KConfuzzConfigAction * rng)) : Prop :=
  ∃ l' r', res = Ret (l', r') ∧ len l' ≤ len l.

Lemma mutate_value_ok l r : 0 < len l → mutation_result l (mutate_value SupportedParams l r).
Proof.
  intros Hl. unfold mutate_value. destruct (Intn_Ret (len l) r Hl) as (i & -> & Hi). simpl.
  destruct (index_Ret l i Hi) as (a & -> & _). simpl.
  destruct (paramByID SupportedParams (ParamID a)) as [q|] eqn:Eq; [|by repeat eexists].
  apply params_by_id_sound in Eq as [_ Hin]. rewrite Forall_forall in Hweights.
  destruct (mutateActionValue_Ret a q (tl r) (Hweights q Hin)) as (a' & r' & -> & _).
  simpl. eexists _, _. split; [done|]. unfold len. by rewrite length_insert.
Qed.
Lemma mutate_position_ok prg l r :
  0 < len l → mutation_result l (mutate_position (Some prg) l r).
Proof.
  intros Hl. unfold mutate_position. destruct (Intn_Ret (len l) r Hl) as (i & -> & Hi). simpl.
  destruct (index_Ret l i Hi) as (a & -> & _). simpl.
  destruct (Intn_Ret (len (Calls prg) + 1) (tl r)) as (b & -> & _); [unfold len; lia|].
  simpl. eexists _, _. split; [done|]. unfold len. by rewrite length_insert.
Qed.
Lemma mutate_drop_ok l r : 0 < len l → mutation_result l (mutate_drop l r).
Proof.
  intros Hl. unfold mutate_drop. case_decide; [|by repeat eexists].
  destruct (Intn_Ret (len l) r Hl) as (i & -> & Hi). simpl.
  eexists _, _. split; [done|]. unfold len in *.
  rewrite length_app, length_take, length_drop. lia.
Qed.
End mutate.

Lemma len_filter_le {A} (P : A → Prop) `{!∀ x, Decision (P x)} (l : list A) :
  len (filter P l) ≤ len l.
Proof. unfold len. pose proof (length_filter P l). lia. Qed.

(** Mutating a context always returns (it never panics for a program
    whose parameters have sane weights), never adds actions, keeps the
    strategy and dependency mark, and leaves only executable actions that are
    scheduled inside the program, in normal order. *)
Theorem MutateContext_spec (SupportedParams : gmap string ConfigParam)
    (ctx : KConfuzzConfigContext) (prg : Prog) (r : rng)
    (Hweights : Forall weights_ok (values SupportedParams)) :
  ∃ res r', MutateContext SupportedParams (Some ctx) (Some prg) r = Ret (res, r')
  ∧ ∀ c, res = Some c →
      len (Actions c) ≤ len (Actions ctx)
      ∧ Strategy c = Strategy ctx ∧ ConfigDependent c = ConfigDependent ctx
      ∧ (∀ a, a ∈ Actions c → 0 ≤ BeforeCall a ≤ len (Calls prg)
                              ∧ executable_action SupportedParams a)
      ∧ StronglySorted (le_by action_less) (Actions c).
Proof.
  unfold MutateContext. destruct (CloneForProg (Some ctx) (Some prg)) as [c|] eqn:Ec;
    [|by eexists None, r].
  apply CloneForProg_Some in Ec as (c0 & [= <-] & -> & HA).
  cbn [Actions Strategy ConfigDependent set_Actions set_Source] in *.
  set (l0 := NormalizeKConfuzzConfigActions (Some prg) (Actions ctx)) in *.
  assert (Hl0 : len l0 ≤ len (Actions ctx)).
  { unfold l0. unfold len. rewrite Normalize_perm. apply len_filter_le. }
  case_decide as Hz.
  { eexists _, _. split; [done|]. intros c [= <-]. simpl. unfold len in Hz.
    destruct l0; [|done]. split_and!; [done..|set_solver|constructor]. }
  destruct (Intn_Ret 3 r ltac:(lia)) as (w & Ew & Hw). rewrite Ew. cbn [mbind outcome_bind].
  set (step := if decide (w = 0) then _ else _).
  assert (Hstep : mutation_result l0 step).
  { assert (0 < len l0) by (unfold len in *; lia).
    unfold step. repeat case_decide;
      auto using mutate_value_ok, mutate_position_ok, mutate_drop_ok. }
  destruct Hstep as (l' & r' & -> & Hl').
  cbn [mbind outcome_bind Actions Strategy ConfigDependent set_Actions].
  set (l2 := FilterSupportedActions _ _).
  assert (Hl2 : len l2 ≤ len l').
  { unfold l2. rewrite FilterSupported_unfold.
    etrans; [apply len_filter_le|]. unfold len. rewrite Normalize_perm. apply len_filter_le. }
  case_decide; [by eexists None, r'|]. eexists _, _. split; [done|].
  intros c [= <-]. simpl. split_and!; [lia|done|done| |].
  - intros a [Ha Hs]%elem_of_FilterSupported. split; [|by apply supported_action_executable].
    apply elem_of_Normalize in Ha as [Hk _]. apply keep_action_spec in Hk.
    simpl in Hk. unfold len in *. lia.
  - unfold l2. rewrite FilterSupported_unfold.
    apply StronglySorted_filter, Normalize_sorted.
Qed.

(** ** Bounding *)

Lemma spread_increasing (n limit i j : Z) :
  0 < limit ≤ n → 0 ≤ i < j → i * n / limit < j * n / limit.
Proof.
  intros Hl Hij. apply Z.lt_le_trans with (i * n / limit + 1); [lia|].
  replace (i * n / limit + 1) with ((i * n + 1 * limit) / limit) by (rewrite Z.div_add; lia).
  apply Z.div_le_mono; [lia|]. nia.
Qed.

(** An over-long action list is cut to exactly [limit] actions, taken in
    order and evenly spread from the first one; the arithmetic of the index
    never leaves the slice. *)
Theorem limitActions_spec (actions : list KConfuzzConfigAction) (limit : Z)
    (Hlimit : 0 < limit < len actions) (Hfit : len actions * len actions < 2 ^ 63) :
  ∃ l, limitActions actions limit = Ret l
  ∧ len l = limit ∧ l `sublist_of` actions ∧ head l = head actions.
Proof.
  set (n := len actions) in *.
  set (js := (λ i, Z.to_nat (i * n / limit)) <$> seqZ 0 limit).
  assert (Hb : ∀ i, 0 ≤ i < limit → 0 ≤ i * n / limit < n).
  { intros i Hi. split; [apply Z.div_pos; nia|]. apply Z.div_lt_upper_bound; nia. }
  assert (HF : Forall2 (λ i x, index actions (Z.quot (i64 (i * n)) limit) = Ret x)
                 (seqZ 0 limit) (omap (λ j, actions !! j) js)).
  { unfold js. assert (Hall : Forall (λ i, 0 ≤ i < limit) (seqZ 0 limit)).
    { apply Forall_seqZ. lia. }
    induction Hall as [|i ks Hi Hall IH]; [constructor|].
    destruct (index_Ret actions (i * n / limit)) as (x & Ex & Hx); [by apply Hb|].
    rewrite fmap_cons. cbn [omap list_omap]. rewrite Hx. constructor; [|apply IH].
    rewrite i64_id by (unfold in_i64; nia). rewrite Z.quot_div_nonneg by nia. done. }
  exists (omap (λ j, actions !! j) js). split_and!.
  - unfold limitActions. rewrite decide_False by (unfold n in *; lia). by apply mapM_Ret.
  - apply Forall2_length in HF. rewrite length_seqZ in HF. unfold len. lia.
  - apply sublist_increasing, StronglySorted_seqZ_fmap. intros i j Hij.
    pose proof (spread_increasing n limit i j ltac:(lia) Hij).
    assert (0 ≤ i * n / limit) by (apply Z.div_pos; unfold n, len; nia). lia.
  - unfold js. rewrite seqZ_cons by lia. rewrite fmap_cons, Z.mul_0_l, Z.div_0_l by lia.
    destruct actions; [unfold n, len in *; simpl in *; lia|done].
Qed.

(** ** Quarantine *)

Section quarantine_props.
Context (Serialize : Prog → outcome (list Z)).
Context (marshal : KConfuzzConfigContext → bool → list Z).
Context (sha1hex : list Z → string).

Abbreviation key := (contextQuarantineKey Serialize marshal sha1hex).

Lemma contextQuarantineKey_Some prg c data :
  Serialize prg = Ret data →
  NormalizeKConfuzzConfigActions (Some prg) (Actions c) ≠ [] →
  key (Some prg) (Some c)
  = hash_String sha1hex [data; SignatureData marshal
      (Some (set_Actions c (NormalizeKConfuzzConfigActions (Some prg) (Actions c))))].
Proof.
  intros Eser Hne. unfold contextQuarantineKey. rewrite CloneForProg_unfold. cbv zeta.
  rewrite decide_False by (simpl; naive_solver). simpl. rewrite decide_False; [by rewrite Eser|].
  unfold len. by destruct (NormalizeKConfuzzConfigActions _ _).
Qed.

(** The key only depends on the cloned context. *)
Lemma contextQuarantineKey_Clone prg ctx :
  key (Some prg) (CloneForProg ctx (Some prg)) = key (Some prg) ctx.
Proof.
  unfold contextQuarantineKey.
  assert (E : CloneForProg (CloneForProg ctx (Some prg)) (Some prg) = CloneForProg ctx (Some prg)).
  { destruct (CloneForProg ctx (Some prg)) as [c|] eqn:Ec; [|done].
    apply CloneForProg_Some in Ec as (c0 & -> & -> & HA). apply CloneForProg_Some.
    eexists; split_and!; [done| |done]. unfold set_Actions; simpl. by rewrite Normalize_idemp. }
  by rewrite E.
Qed.

(** A context whose key is in the table is dropped. *)
Lemma quarantined_dropped SupportedParams q prg ctx :
  key (Some prg) ctx ≠ "" → is_Some (q !! key (Some prg) ctx) →
  FilterSupportedContext SupportedParams Serialize marshal sha1hex q ctx (Some prg) = None.
Proof.
  intros Hk Hq. unfold FilterSupportedContext.
  destruct (CloneForProg ctx (Some prg)) as [d|] eqn:Ed; [|done].
  unfold ContextQuarantined at 1. rewrite <-Ed, contextQuarantineKey_Clone.
  rewrite decide_False by done. by rewrite bool_decide_true.
Qed.
End quarantine_props.

(** Once a context with actions is quarantined for a program, filtering
    drops every context of that program with the same strategy, source, mark
    and actions, in whatever order they are listed, while the verdict for any
    context with a different key is unchanged. *)
Theorem quarantine_spec (SupportedParams : gmap string ConfigParam)
    (Serialize : Prog → outcome (list Z)) (marshal : KConfuzzConfigContext → bool → list Z)
    (sha1hex : list Z → string) (Hsha : ∀ d, sha1hex d ≠ "")
    (q : gmap string string) (prg : Prog) (data : list Z) (reason : string)
    (c c' : KConfuzzConfigContext) (Hser : Serialize prg = Ret data)
    (Hne : NormalizeKConfuzzConfigActions (Some prg) (Actions c) ≠ [])
    (Hsame : set_Actions c' [] = set_Actions c []) (Hperm : Actions c' ≡ₚ Actions c) :
  let q' := QuarantineContext Serialize marshal sha1hex q (Some prg) (Some c) reason in
  FilterSupportedContext SupportedParams Serialize marshal sha1hex q' (Some c') (Some prg) = None
  ∧ ∀ prg2 ctx2,
      contextQuarantineKey Serialize marshal sha1hex prg2 ctx2
        ≠ contextQuarantineKey Serialize marshal sha1hex (Some prg) (Some c) →
      ContextQuarantined Serialize marshal sha1hex q' prg2 ctx2
      = ContextQuarantined Serialize marshal sha1hex q prg2 ctx2.
Proof.
  cbv zeta.
  assert (Hn : NormalizeKConfuzzConfigActions (Some prg) (Actions c')
               = NormalizeKConfuzzConfigActions (Some prg) (Actions c))
    by by apply Normalize_Permutation.
  set (k := contextQuarantineKey Serialize marshal sha1hex (Some prg) (Some c)).
  assert (Hk : k ≠ "").
  { unfold k. erewrite contextQuarantineKey_Some by done. apply Hsha. }
  assert (Hk' : contextQuarantineKey Serialize marshal sha1hex (Some prg) (Some c') = k).
  { unfold k. erewrite !contextQuarantineKey_Some by (rewrite ?Hn; done). rewrite Hn.
    do 5 f_equal. unfold set_Actions in *. simplify_eq. congruence. }
  unfold QuarantineContext. rewrite decide_False by done. fold k. split.
  - apply quarantined_dropped; rewrite Hk'; [done|]. rewrite lookup_insert_eq. eauto.
  - intros prg2 ctx2 Hkey. unfold ContextQuarantined. case_decide; [done|].
    by rewrite lookup_insert_ne.
Qed.

(** ** Penalties *)

Fixpoint penalize_n (env : string → string) (n : nat) (scores : gmap string Z) (sig : string)
    : gmap string Z :=
  match n with
  | O => scores
  | S n' => snd (PenalizeSeed env (penalize_n env n' scores sig) sig)
  end.

Lemma PenalizeSeed_lookup env scores sig :
  sig ≠ "" → SeedPenaltyEnabled env = true → 0 ≤ default 0 (scores !! sig) ≤ 8 →
  default 0 (snd (PenalizeSeed env scores sig) !! sig)
  = Z.min 8 (default 0 (scores !! sig) + 1).
Proof.
  intros Hs He Hr. unfold PenalizeSeed. rewrite bool_decide_false, He by done. simpl.
  case_decide; [rewrite lookup_insert_eq; simpl|]; lia.
Qed.

Lemma PenalizeSeed_other env scores sig sig' :
  sig' ≠ sig → snd (PenalizeSeed env scores sig) !! sig' = scores !! sig'.
Proof.
  intros Hne. unfold PenalizeSeed.
  destruct (bool_decide (sig = "") || _); [done|]. cbv zeta. cbn [snd].
  destruct (decide (default 0 (scores !! sig) < 8)); [|done]. by apply lookup_insert_ne.
Qed.

(** Penalties saturate at 8: after [n] penalizations of a seed its score
    is min(8, n), other seeds are untouched, and the skip decision always
    returns, skipping unless the draw modulo 2^min(score,4) is zero. *)
Theorem seed_penalty_spec (env : string → string) (sig : string) (n : nat) (r : rng)
    (Hsig : sig ≠ "") (Hon : SeedPenaltyEnabled env = true) :
  let scores := penalize_n env n ∅ sig in
  SeedPenalty env scores sig = Z.min 8 (Z.of_nat n)
  ∧ (∀ sig', sig' ≠ sig → SeedPenalty env scores sig' = 0)
  ∧ ShouldSkipPenalizedSeed env scores sig (Some r)
    = Ret (if decide (n = 0%nat) then (false, Some r)
           else (bool_decide (hd 0 r mod 2 ^ Z.min (Z.of_nat n) 4 ≠ 0), Some (tl r))).
Proof.
  cbv zeta.
  assert (Hscore : default 0 (penalize_n env n ∅ sig !! sig) = Z.min 8 (Z.of_nat n)).
  { induction n as [|n IH]; simpl; [by rewrite lookup_empty|].
    rewrite PenalizeSeed_lookup by (done || lia). lia. }
  assert (Hpen : SeedPenalty env (penalize_n env n ∅ sig) sig = Z.min 8 (Z.of_nat n)).
  { unfold SeedPenalty. by rewrite bool_decide_false, Hon. }
  split_and!; [done| |].
  - intros sig' Hne. unfold SeedPenalty. case_match; [done|]. clear Hscore Hpen.
    induction n as [|n IH]; [done|]. cbn [penalize_n]. by rewrite PenalizeSeed_other.
  - unfold ShouldSkipPenalizedSeed. rewrite Hpen.
    destruct (decide (n = 0%nat)) as [->|Hn]; [done|]. rewrite decide_False by lia.
    replace (if decide (4 < Z.min 8 (Z.of_nat n)) then 4 else Z.min 8 (Z.of_nat n))
      with (Z.min (Z.of_nat n) 4) by (case_decide; lia).
    rewrite Z.shiftl_mul_pow2, Z.mul_1_l by lia. unfold Intn.
    rewrite decide_True by (apply Z.pow_pos_nonneg; lia). done.
Qed.

(** ** Witnesses *)

Lemma plan_survives_filter_witness :
  ∃ pl actions, LoadRelationTable sample_registry (Some (Some <$> sample_rows, false)) = Some pl
  ∧ Plan sample_registry sample_serialize (Some pl) (Some sample_prog)
      (mkOptions StrategyCall 8 1 1 0) = Ret actions
  ∧ Forall (executable_action sample_registry) actions.
Proof.
  destruct (LoadRelationTable sample_registry (Some (Some <$> sample_rows, false)))
    as [pl|] eqn:E; [|vm_compute in E; discriminate].
  destruct (plan_survives_filter sample_registry sample_serialize sample_rows pl sample_prog
              (mkOptions StrategyCall 8 1 1 0) _ sample_registry_ok eq_refl E)
    as (actions & Ep & _ & HF).
  exists pl, actions. split; [reflexivity|]. split; [exact Ep|exact HF].
Defined.

Lemma MutateContext_witness :
  ∃ res r', MutateContext sample_registry
              (Some (sample_context [mkAction 1 3 0 0; mkAction 0 7 1 0]))
              (Some sample_prog) [0; 1; 77; 5] = Ret (res, r').
Proof.
  destruct (MutateContext_spec sample_registry
              (sample_context [mkAction 1 3 0 0; mkAction 0 7 1 0]) sample_prog [0; 1; 77; 5])
    as (res & r' & E & _).
  - apply (bool_decide_unpack _). vm_compute. exact I.
  - exists res, r'. exact E.
Defined.

Lemma limitActions_witness :
  ∃ l, limitActions (sample_action 0 <$> [1; 2; 3; 4; 5]) 2 = Ret l ∧ len l = 2.
Proof.
  destruct (limitActions_spec (sample_action 0 <$> [1; 2; 3; 4; 5]) 2) as (l & E & Hl & _).
  - vm_compute. split; reflexivity.
  - vm_compute. reflexivity.
  - exists l. split; [exact E|exact Hl].
Defined.

(** A stand-in digest: never empty. *)
Definition sample_digest (d : list Z) : string :=
  String (Ascii.ascii_of_nat 65) (pretty (foldl (λ h b, Z.lxor h b *u 1099511628211) 1 d)).

Lemma quarantine_witness :
  FilterSupportedContext sample_registry sample_serialize sample_marshal sample_digest
    (QuarantineContext sample_serialize sample_marshal sample_digest ∅ (Some sample_prog)
       (Some (sample_context [sample_action 1 7; sample_action 0 3])) "hang")
    (Some (sample_context [sample_action 0 3; sample_action 1 7])) (Some sample_prog) = None.
Proof.
  refine (proj1 (quarantine_spec sample_registry sample_serialize sample_marshal sample_digest
           _ ∅ sample_prog _ "hang" (sample_context [sample_action 1 7; sample_action 0 3])
           (sample_context [sample_action 0 3; sample_action 1 7]) eq_refl _ eq_refl _)).
  - intros d. discriminate.
  - vm_compute. discriminate.
  - apply Permutation_swap.
Defined.

Lemma seed_penalty_witness :
  SeedPenalty (λ _, "") (penalize_n (λ _, "") 11 ∅ "sig") "sig" = 8.
Proof.
  refine (proj1 (seed_penalty_spec (λ _, "") "sig" 11 [] _ _)).
  - discriminate.
  - vm_compute. reflexivity.
Defined.
