(* ===== verification/Files.v ===== *)
(** * Files and their failures (src/pkg/osutil/fileutil.go: CopyFile, Rename)

    A file system is a map from names to contents; a content is a list of
    units (bytes, or the lines of a text file).  Every system call that may
    fail takes the next entry of a schedule: [None] it succeeds, [Some k] it
    fails, a write after [k] units.  When the schedule is used up calls
    succeed.  Calls on a missing file fail as well. *)

From S2P Require Import Prelude.

Section files.
Context {A : Type}.

Record world := mkWorld { files : gmap string (list A); faults : list (option nat) }.

Definition next_fault (w : world) : option nat * world :=
  (default None (head (faults w)), mkWorld (files w) (tail (faults w))).

(** A call without effect of its own: Stat, Close, Chtimes. *)
Definition os_check (w : world) : world * bool :=
  let '(f, w) := next_fault w in (w, bool_decide (is_Some f)).
Definition os_Open (name : string) (w : world) : world * bool :=
  let '(f, w) := next_fault w in (w, bool_decide (is_Some f) || bool_decide (files w !! name = None)).
(** [O_CREATE|O_TRUNC]. *)
Definition os_Create (name : string) (w : world) : world * bool :=
  let '(f, w) := next_fault w in
  match f with
  | Some _ => (w, true)
  | None => (mkWorld (<[name := []]> (files w)) (faults w), false)
  end.
(** [O_CREATE] without truncation. *)
Definition os_OpenCreate (name : string) (w : world) : world * bool :=
  let '(f, w) := next_fault w in
  match f with
  | Some _ => (w, true)
  | None => (mkWorld (<[name := default [] (files w !! name)]> (files w)) (faults w), false)
  end.
(** A write at the end of an open file. *)
Definition os_Write (name : string) (data : list A) (w : world) : world * bool :=
  let '(f, w) := next_fault w in
  let old := default [] (files w !! name) in
  match f with
  | Some k => (mkWorld (<[name := old ++ take k data]> (files w)) (faults w), true)
  | None => (mkWorld (<[name := old ++ data]> (files w)) (faults w), false)
  end.
(** Not existing is not an error for the callers. *)
Definition os_Remove (name : string) (w : world) : world * bool :=
  let '(f, w) := next_fault w in
  match f with
  | Some _ => (w, true)
  | None => (mkWorld (delete name (files w)) (faults w), false)
  end.
Definition os_Rename (old new : string) (w : world) : world * bool :=
  let '(f, w) := next_fault w in
  match f, files w !! old with
  | None, Some content => (mkWorld (<[new := content]> (delete old (files w))) (faults w), false)
  | _, _ => (w, true)
  end.

(** Run the next call unless the last one failed. *)
Definition and_then (r : world * bool) (k : world → world * bool) : world * bool :=
  if r.2 then r else k r.1.

(** io.Copy reads the old file as it is after the new one was opened. *)
Definition CopyFile (oldFile newFile : string) (w : world) : world * bool :=
  let tmpFile := (newFile ++ ".tmp")%string in
  and_then (os_Open oldFile w) (λ w,
  and_then (os_check w) (λ w,
  and_then (os_Create tmpFile w) (λ w,
  and_then (os_Write tmpFile (default [] (files w !! oldFile)) w) (λ w,
  and_then (os_check w) (λ w,
  and_then (os_check w) (λ w,
  os_Rename tmpFile newFile w)))))).

Definition Rename (oldFile newFile : string) (w : world) : world * bool :=
  let '(w, err) := os_Rename oldFile newFile w in
  if (err : bool) then
    let '(w, err) := CopyFile oldFile newFile w in
    ((os_Remove oldFile w).1, err)
  else (w, err).
End files.
Arguments world : clear implicits.

(** ** What the calls leave alone *)
Section files_props.
Context {A : Type}.
Implicit Types w : world A.

(** No scheduled failure is left. *)
Definition healthy w : Prop := Forall (λ f, f = None) (faults w).

Lemma next_fault_files w f w' : next_fault w = (f, w') → files w' = files w.
Proof. by intros [= _ <-]. Qed.
Lemma next_fault_healthy w : healthy w → ∃ w', next_fault w = (None, w') ∧ files w' = files w ∧ healthy w'.
Proof.
  intros Hh. exists (mkWorld (files w) (tail (faults w))). unfold next_fault, healthy in *.
  destruct (faults w) as [|f l]; [done|]. apply Forall_cons in Hh as [-> Hh]. done.
Qed.

(** A file that no call names keeps its content. *)
Definition untouched (name : string) w w' : Prop := files w' !! name = files w !! name.
Lemma untouched_refl name w : untouched name w w.
Proof. done. Qed.
Lemma untouched_trans name w1 w2 w3 : untouched name w1 w2 → untouched name w2 w3 → untouched name w1 w3.
Proof. unfold untouched. congruence. Qed.

Ltac untouched_tac :=
  let E := fresh in let f := fresh "f" in let w1 := fresh "w" in
  match goal with |- context [next_fault ?w] => destruct (next_fault w) as [f w1] eqn:E end;
  apply next_fault_files in E; destruct f; intros [= <- <-]; unfold untouched; cbn;
  rewrite ?lookup_insert_ne, ?lookup_delete_ne, ?E by done; done.
Lemma os_check_untouched name w w' b : os_check w = (w', b) → untouched name w w'.
Proof. unfold os_check. untouched_tac. Qed.
Lemma os_Open_untouched name n w w' b : os_Open n w = (w', b) → untouched name w w'.
Proof. unfold os_Open. untouched_tac. Qed.
Lemma os_Create_untouched name n w w' b : os_Create n w = (w', b) → name ≠ n → untouched name w w'.
Proof. intros H Hn. revert H. unfold os_Create. untouched_tac. Qed.
Lemma os_OpenCreate_untouched name n w w' b : os_OpenCreate n w = (w', b) → name ≠ n → untouched name w w'.
Proof. intros H Hn. revert H. unfold os_OpenCreate. untouched_tac. Qed.
Lemma os_Write_untouched name n data w w' b : os_Write n data w = (w', b) → name ≠ n → untouched name w w'.
Proof. intros H Hn. revert H. unfold os_Write. untouched_tac. Qed.
Lemma os_Remove_untouched name n w w' b : os_Remove n w = (w', b) → name ≠ n → untouched name w w'.
Proof. intros H Hn. revert H. unfold os_Remove. untouched_tac. Qed.

Lemma os_Create_ok n w w' : os_Create n w = (w', false) → files w' = <[n := []]> (files w).
Proof. unfold os_Create. destruct (next_fault w) as [[]] eqn:E; apply next_fault_files in E; intros [= <-]. by rewrite E. Qed.
Lemma os_Write_ok n data w w' :
  os_Write n data w = (w', false) → files w' = <[n := default [] (files w !! n) ++ data]> (files w).
Proof. unfold os_Write. destruct (next_fault w) as [[]] eqn:E; apply next_fault_files in E; intros [= <-]. by rewrite E. Qed.
Lemma os_check_ok w w' : os_check w = (w', false) → files w' = files w.
Proof. unfold os_check. destruct (next_fault w) as [f w1] eqn:E. apply next_fault_files in E. by intros [= <- _]. Qed.
Lemma os_Rename_error old new w w' : os_Rename old new w = (w', true) → files w' = files w.
Proof.
  unfold os_Rename. destruct (next_fault w) as [f w1] eqn:E. apply next_fault_files in E.
  destruct f as [k|]; [by intros [= <-]|]. destruct (files w1 !! old); [done|]. by intros [= <-].
Qed.
Lemma os_Rename_ok old new w w' :
  os_Rename old new w = (w', false) → ∃ c, files w !! old = Some c ∧ files w' = <[new := c]> (delete old (files w)).
Proof.
  unfold os_Rename. destruct (next_fault w) as [f w1] eqn:E. apply next_fault_files in E.
  destruct f as [k|]; [done|]. rewrite E. destruct (files w !! old) as [c|]; [|done]. intros [= <-]. eauto.
Qed.

Lemma and_then_inv r (k : world A → world A * bool) w' err :
  and_then r k = (w', err) → (err = true ∧ r = (w', true)) ∨ ∃ w1, r = (w1, false) ∧ k w1 = (w', err).
Proof. unfold and_then. destruct r as [w1 []]; cbn; [intros [= -> <-]; by left|]. intros. right. eauto. Qed.

Lemma and_then_ok w (k : world A → world A * bool) : and_then (w, false) k = k w.
Proof. done. Qed.

Lemma tmp_ne (name : string) : name ≠ (name ++ ".tmp")%string.
Proof.
  intros H. assert (Hl : ∀ s : string, String.length (s ++ ".tmp") = (String.length s + 4)%nat).
  { intros s. induction s as [|c s IH]; [done|]. cbn. by rewrite <-IH. }
  apply (f_equal String.length) in H. rewrite Hl in H. lia.
Qed.

(** Copying the temporary file of a name over that name: the file that is to
    be copied is the one CopyFile truncates. *)
Lemma CopyFile_tmp name w w' err :
  CopyFile (name ++ ".tmp") name w = (w', err) →
  if err then untouched name w w' else files w' !! name = Some [].
Proof.
  pose proof (tmp_ne name) as Hne. unfold CopyFile. set (tmp := (name ++ ".tmp")%string) in *.
  intros [[-> E]|(w1 & E1 & H)]%and_then_inv; [by eapply os_Open_untouched|].
  pose proof (os_Open_untouched name _ _ _ _ E1) as U1.
  apply and_then_inv in H as [[-> E]|(w2 & E2 & H)];
    [eapply untouched_trans; [done|by eapply os_check_untouched]|].
  pose proof (untouched_trans _ _ _ _ U1 (os_check_untouched name _ _ _ E2)) as U2.
  apply and_then_inv in H as [[-> E]|(w3 & E3 & H)];
    [eapply untouched_trans; [done|by eapply os_Create_untouched]|].
  pose proof (untouched_trans _ _ _ _ U2 (os_Create_untouched name _ _ _ _ E3 Hne)) as U3.
  apply and_then_inv in H as [[-> E]|(w4 & E4 & H)];
    [eapply untouched_trans; [done|by eapply os_Write_untouched]|].
  pose proof (untouched_trans _ _ _ _ U3 (os_Write_untouched name _ _ _ _ _ E4 Hne)) as U4.
  apply and_then_inv in H as [[-> E]|(w5 & E5 & H)];
    [eapply untouched_trans; [done|by eapply os_check_untouched]|].
  pose proof (untouched_trans _ _ _ _ U4 (os_check_untouched name _ _ _ E5)) as U5.
  apply and_then_inv in H as [[-> E]|(w6 & E6 & H)];
    [eapply untouched_trans; [done|by eapply os_check_untouched]|].
  pose proof (untouched_trans _ _ _ _ U5 (os_check_untouched name _ _ _ E6)) as U6. destruct err.
  - apply os_Rename_error in H. unfold untouched in *. congruence.
  - apply os_Rename_ok in H as (c & Hc & ->). rewrite lookup_insert_eq. f_equal.
    apply os_check_ok in E6, E5. apply os_Write_ok in E4. apply os_Create_ok in E3.
    rewrite E6, E5, E4, E3, !lookup_insert_eq in Hc. cbn in Hc. congruence.
Qed.

(** Replacing a file by its temporary file: an error leaves the file alone;
    success gives it the new content, or no content at all when the rename
    failed and the copy that should replace it succeeded. *)
Lemma Rename_tmp name w w' err :
  Rename (name ++ ".tmp") name w = (w', err) →
  if err then untouched name w w'
  else (∃ c, files w !! (name ++ ".tmp")%string = Some c ∧ files w' !! name = Some c) ∨ files w' !! name = Some [].
Proof.
  unfold Rename. destruct (os_Rename _ _ w) as [w1 [|]] eqn:E1.
  - destruct (CopyFile _ _ w1) as [w2 err2] eqn:E2. intros [= <- <-]. apply CopyFile_tmp in E2.
    apply os_Rename_error in E1. destruct (os_Remove (name ++ ".tmp") w2) as [w3 b] eqn:E3.
    apply (os_Remove_untouched name) in E3; [|apply tmp_ne]. cbn [fst]. unfold untouched in *.
    destruct err2; [congruence|]. right. congruence.
  - intros [= <- <-]. apply os_Rename_ok in E1 as (c & Hc & ->). left. exists c. split; [done|]. by rewrite lookup_insert_eq.
Qed.

Lemma Rename_healthy old new w c :
  healthy w → files w !! old = Some c →
  ∃ w', Rename old new w = (w', false) ∧ healthy w' ∧ files w' = <[new := c]> (delete old (files w)).
Proof.
  intros Hh Hc. unfold Rename, os_Rename. destruct (next_fault_healthy w Hh) as (w1 & -> & Hf & Hh1).
  rewrite Hf, Hc. by eexists.
Qed.
End files_props.

Ltac healthy_step Hh :=
  let w1 := fresh "w" in let Hf := fresh "Hf" in let Hh1 := fresh "Hh" in
  match goal with |- context [next_fault ?w] =>
    destruct (next_fault_healthy w Hh) as (w1 & -> & Hf & Hh1) end; rewrite ?Hf.

Lemma os_Create_healthy {A} n (w : world A) :
  healthy w → ∃ w', os_Create n w = (w', false) ∧ healthy w' ∧ files w' = <[n := []]> (files w).
Proof. intros Hh. unfold os_Create. healthy_step Hh. by eexists. Qed.
Lemma os_OpenCreate_healthy {A} n (w : world A) :
  healthy w → ∃ w', os_OpenCreate n w = (w', false) ∧ healthy w' ∧ files w' = <[n := default [] (files w !! n)]> (files w).
Proof. intros Hh. unfold os_OpenCreate. healthy_step Hh. by eexists. Qed.
Lemma os_Write_healthy {A} n data (w : world A) :
  healthy w → ∃ w', os_Write n data w = (w', false) ∧ healthy w'
    ∧ files w' = <[n := default [] (files w !! n) ++ data]> (files w).
Proof. intros Hh. unfold os_Write. healthy_step Hh. by eexists. Qed.
Lemma os_Remove_healthy {A} n (w : world A) :
  healthy w → ∃ w', os_Remove n w = (w', false) ∧ healthy w' ∧ files w' = delete n (files w).
Proof. intros Hh. unfold os_Remove. healthy_step Hh. by eexists. Qed.
Lemma os_check_healthy {A} (w : world A) :
  healthy w → ∃ w', os_check w = (w', false) ∧ healthy w' ∧ files w' = files w.
Proof. intros Hh. unfold os_check. healthy_step Hh. by eexists. Qed.

(** One failing rename is enough to lose the file: the schedule [Some 0] fails
    the first call and no other. *)
Lemma Rename_loses {A} name (w : world A) c :
  files w !! (name ++ ".tmp")%string = Some c →
  ∃ w', Rename (name ++ ".tmp") name (mkWorld (files w) [Some 0%nat]) = (w', false) ∧ files w' !! name = Some [].
Proof.
  intros Hc. destruct (Rename (name ++ ".tmp") name (mkWorld (files w) [Some 0%nat])) as [w' err] eqn:E.
  exists w'. assert (He : err = false ∧ files w' !! name = Some []); [|naive_solver].
  pose proof (tmp_ne name) as Hne. unfold Rename, os_Rename, next_fault in E. cbn in E.
  unfold CopyFile, and_then, os_Open, os_check, os_Create, os_Write, os_Rename, os_Remove, next_fault in E. cbn in E.
  rewrite Hc in E. cbn in E. rewrite !lookup_insert_eq in E. cbn in E. injection E as <- <-. split; [done|]. cbn.
  rewrite lookup_delete_ne by done. apply lookup_insert_eq.
Qed.
