(* ===== verification/CorpusMeta.v ===== *)
(** * The corpus metadata store (src/pkg/kconfuzz/corpusmeta.go)

    The configuration context of every saved program is kept in a map, keyed
    by the program's signature, that every change rewrites to a JSON-lines
    file: a temporary file is written and renamed over the old one.  Every
    operation takes the schedule of its failing system calls.  JSON is a
    parameter with its documented round trip. *)

From S2P Require Import Prelude Prog ConfigContext Files.

Record corpusMetadataAction := mkMetaAction {
  MBeforeCall : Z;
  MParamID : Z;
  MValueID : Z;
  MFlags : Z
}.
Record corpusMetadataRecord := mkMetaRecord {
  RCorpusSig : string;
  RProgSig : string;
  RConfigSig : string;
  RStrategy : string;
  RSource : string;
  RConfigDependent : bool;
  RActions : list corpusMetadataAction
}.

(** [json.Marshal] and [json.Unmarshal] (into a zero record) of a record and
    the length of a line.  Text that is not ASCII may be rewritten. *)
Definition ascii_string (s : string) : bool :=
  forallb (λ c, bool_decide (Ascii.nat_of_ascii c < 128)%nat) (String.list_ascii_of_string s).
Definition ascii_record (r : corpusMetadataRecord) : bool :=
  forallb ascii_string [RCorpusSig r; RProgSig r; RConfigSig r; RStrategy r; RSource r].

Class MetaCodec (Line : Type) := {
  Marshal : corpusMetadataRecord → Line;
  Unmarshal : Line → option corpusMetadataRecord;
  line_len : Line → Z;
  Unmarshal_Marshal r : ascii_record r = true → Unmarshal (Marshal r) = Some r
}.

(** The buffer limit of the scanner. *)
Definition maxLine : Z := 16 * 1024 * 1024.

Section store.
Context {Line : Type} `{!MetaCodec Line}.
(** [hash.String] and the marshalling of SignatureData. *)
Context (hash_String : list Z → string) (marshal : KConfuzzConfigContext → bool → list Z).
Context (path : string).

(** The files, by name, as lists of lines; [store.path] is [path]. *)
Record CorpusMetadataStore := mkStore { records : gmap string corpusMetadataRecord; fs : gmap string (list Line) }.

Definition metaAction (a : KConfuzzConfigAction) : corpusMetadataAction :=
  mkMetaAction (BeforeCall a) (ParamID a) (ValueID a) (Flags a).
Definition contextMetadataRecord (corpusSig : string) (progData : list Z) (ctx : KConfuzzConfigContext)
    : corpusMetadataRecord :=
  mkMetaRecord corpusSig (hash_String progData) (hash_String (SignatureData marshal (Some ctx)))
    (Strategy ctx) (Source ctx) (ConfigDependent ctx)
    (metaAction <$> NormalizeKConfuzzConfigActions None (Actions ctx)).

Definition metadataRecordContext (rec : corpusMetadataRecord) : KConfuzzConfigContext :=
  mkContext (RStrategy rec) (RSource rec) (RConfigDependent rec)
    ((λ a, mkAction (MBeforeCall a) (MParamID a) (MValueID a) (MFlags a)) <$> RActions rec).

Definition sorted_lines (recs : gmap string corpusMetadataRecord) : list Line :=
  omap (λ key, Marshal <$> recs !! key) (sort_by string_less (map_to_list recs).*1).

(** One [enc.Encode] per record. *)
Fixpoint encode_lines (tmp : string) (lines : list Line) (w : world Line) : world Line * bool :=
  match lines with
  | [] => (w, false)
  | l :: lines => and_then (os_Write tmp [l] w) (encode_lines tmp lines)
  end.

(** The file system after a flush, and whether it reported an error. *)
Definition flushLocked (f : list (option nat)) (st : CorpusMetadataStore) : gmap string (list Line) * bool :=
  let w := mkWorld (fs st) f in
  let '(w, err) :=
    if decide (records st = ∅) then os_Remove path w
    else
      let tmp := (path ++ ".tmp")%string in
      and_then (os_Create tmp w) (λ w,
      and_then (encode_lines tmp (sorted_lines (records st)) w) (λ w,
      and_then (os_check w) (λ w,
      Rename tmp path w))) in
  (files w, err).

Definition flush (f : list (option nat)) (st : CorpusMetadataStore) : CorpusMetadataStore * bool :=
  let '(fs', err) := flushLocked f st in (mkStore (records st) fs', err).

(** The map after Save: no context, or one without actions, is not stored. *)
Definition save_record (recs : gmap string corpusMetadataRecord) (corpusSig : string) (progData : list Z)
    (ctx : option KConfuzzConfigContext) : gmap string corpusMetadataRecord :=
  match Clone ctx with
  | Some c =>
      if decide (len (Actions c) = 0) then delete corpusSig recs
      else <[corpusSig := contextMetadataRecord corpusSig progData c]> recs
  | None => delete corpusSig recs
  end.

(** [err] is the returned error, and the receiver may be nil. *)
Definition MetaSave (f : list (option nat)) (store : option CorpusMetadataStore) (corpusSig : string) (progData : list Z)
    (ctx : option KConfuzzConfigContext) : option CorpusMetadataStore * bool :=
  match store with
  | None => (None, false)
  | Some st =>
      let recs := save_record (records st) corpusSig progData ctx in
      let '(st', err) := flush f (mkStore recs (fs st)) in (Some st', err)
  end.

Definition MetaDelete (f : list (option nat)) (store : option CorpusMetadataStore) (corpusSig : string)
    : option CorpusMetadataStore * bool :=
  match store with
  | None => (None, false)
  | Some st =>
      let '(st', err) := flush f (mkStore (delete corpusSig (records st)) (fs st)) in (Some st', err)
  end.

Definition Prune (f : list (option nat)) (store : option CorpusMetadataStore) (keep : gset string)
    : option CorpusMetadataStore * bool :=
  match store with
  | None => (None, false)
  | Some st =>
      let gone := filter (λ kv, kv.1 ∉ keep) (map_to_list (records st)) in
      let recs := foldl (λ m kv, delete kv.1 m) (records st) gone in
      if decide (gone = []) then (Some st, false)
      else let '(st', err) := flush f (mkStore recs (fs st)) in (Some st', err)
  end.

Definition MetaLen (store : option CorpusMetadataStore) : Z :=
  match store with None => 0 | Some st => Z.of_nat (size (records st)) end.

Definition MetaContext (store : option CorpusMetadataStore) (corpusSig : string) (p : option Prog)
    : option KConfuzzConfigContext :=
  st ← store; rec ← records st !! corpusSig; CloneForProg (Some (metadataRecordContext rec)) p.

(** The scan of the file; [None] is an error. *)
Fixpoint load_lines (lines : list Line) (recs : gmap string corpusMetadataRecord)
    : option (gmap string corpusMetadataRecord) :=
  match lines with
  | [] => Some recs
  | l :: rest =>
      if decide (maxLine ≤ line_len l) then None
      else
        rec ← Unmarshal l;
        if decide (RCorpusSig rec = ""%string ∨ RActions rec = []) then load_lines rest recs
        else load_lines rest (<[RCorpusSig rec := rec]> recs)
  end.
Definition OpenCorpusMetadataStore (f : gmap string (list Line)) : option CorpusMetadataStore :=
  match f !! path with
  | None => Some (mkStore ∅ f)
  | Some lines => recs ← load_lines lines ∅; Some (mkStore recs f)
  end.

(** ** Contexts survive the conversion to records *)

Lemma metaAction_inv (l : list KConfuzzConfigAction) :
  (λ a, mkAction (MBeforeCall a) (MParamID a) (MValueID a) (MFlags a)) <$> (metaAction <$> l) = l.
Proof. rewrite <-list_fmap_compose. induction l as [|[] l IH]; [done|]. simpl. by f_equal. Qed.

Lemma Normalize_Normalize_None p l :
  NormalizeKConfuzzConfigActions p (NormalizeKConfuzzConfigActions None l) = NormalizeKConfuzzConfigActions p l.
Proof.
  rewrite (Normalize_Permutation p _ _ (Normalize_perm None l)), !Normalize_unfold. f_equal.
  rewrite list_filter_filter. apply list_filter_iff. intros a. rewrite !keep_action_spec. simpl. naive_solver lia.
Qed.

Lemma record_context sig data c p :
  CloneForProg (Some (metadataRecordContext (contextMetadataRecord sig data c))) p = CloneForProg (Some c) p.
Proof.
  rewrite !CloneForProg_unfold. unfold metadataRecordContext, contextMetadataRecord.
  cbn [RStrategy RSource RConfigDependent RActions Actions ConfigDependent set_Actions].
  rewrite metaAction_inv, Normalize_Normalize_None. done.
Qed.

Lemma flush_records f st : records (flush f st).1 = records st.
Proof. unfold flush. by destruct (flushLocked f st). Qed.

Lemma MetaSave_records f st sig data ctx :
  ∃ st', (MetaSave f (Some st) sig data ctx).1 = Some st' ∧
    records st' = match ctx with
      | Some c => if decide (Actions c = []) then delete sig (records st)
                  else <[sig := contextMetadataRecord sig data c]> (records st)
      | None => delete sig (records st)
      end.
Proof.
  unfold MetaSave. set (recs := save_record _ _ _ _).
  exists (flush f (mkStore recs (fs st))).1. rewrite flush_records. cbn [records].
  destruct (flush _ _) as [st1 err1]. split; [done|]. subst recs. unfold save_record. rewrite Clone_id.
  destruct ctx as [c|]; [|done]. unfold len. by destruct (Actions c).
Qed.

Lemma MetaSave_context f st sig data ctx p :
  MetaContext (MetaSave f (Some st) sig data ctx).1 sig p =
    match ctx with
    | Some c => if decide (Actions c = []) then None else CloneForProg ctx p
    | None => None
    end.
Proof.
  destruct (MetaSave_records f st sig data ctx) as (st' & -> & Hr). unfold MetaContext. cbn [mbind option_bind].
  rewrite Hr. destruct ctx as [c|]; [|by rewrite lookup_delete_eq].
  case_decide; [by rewrite lookup_delete_eq|]. rewrite lookup_insert_eq. apply record_context.
Qed.

Lemma MetaSave_other f st sig data ctx sig' p :
  sig' ≠ sig → MetaContext (MetaSave f (Some st) sig data ctx).1 sig' p = MetaContext (Some st) sig' p.
Proof.
  intros Hne. destruct (MetaSave_records f st sig data ctx) as (st' & -> & Hr). unfold MetaContext.
  cbn [mbind option_bind]. rewrite Hr.
  destruct ctx as [c|]; [case_decide|]; by rewrite ?lookup_delete_ne, ?lookup_insert_ne by done.
Qed.

(** ** The file *)

(** Every record is stored under its own signature. *)
Definition keyed (recs : gmap string corpusMetadataRecord) : Prop :=
  map_Forall (λ k r, RCorpusSig r = k) recs.
(** What a reload keeps: a non-empty key and at least one action. *)
Definition persistent (kv : string * corpusMetadataRecord) : Prop := kv.1 ≠ ""%string ∧ RActions kv.2 ≠ [].
#[local] Instance persistent_dec kv : Decision (persistent kv).
Proof. unfold persistent. apply and_dec; apply not_dec; [apply _|]. destruct (RActions kv.2); [by left|by right]. Defined.
Definition loadable (r : corpusMetadataRecord) : Prop :=
  ascii_record r = true ∧ line_len (Marshal r) < maxLine.

(** The file is exactly what a flush of the records would write. *)
Definition synced (st : CorpusMetadataStore) : Prop :=
  fs st !! path = if decide (records st = ∅) then None else Some (sorted_lines (records st)).

Lemma decide_elem_of_cons {A} (k' k : string) keys (a b : A) :
  k' ≠ k → (if decide (k' ∈ k :: keys) then a else b) = if decide (k' ∈ keys) then a else b.
Proof.
  intros Hne. destruct (decide (k' ∈ keys)) as [Hin|Hout].
  - rewrite decide_True; [done|by right].
  - rewrite decide_False; [done|]. by rewrite not_elem_of_cons.
Qed.

Lemma load_sorted keys recs acc :
  keyed recs → map_Forall (λ _, loadable) recs → NoDup keys →
  ∃ m, load_lines (omap (λ key, Marshal <$> recs !! key) keys) acc = Some m ∧
    ∀ k, m !! k = match filter persistent recs !! k with
      | Some r => if decide (k ∈ keys) then Some r else acc !! k
      | None => acc !! k
      end.
Proof.
  intros Hkey Hload. revert acc. induction keys as [|k keys IH]; intros acc Hnd.
  { exists acc. split; [done|]. intros k. destruct (filter persistent recs !! k); [|done].
    by rewrite decide_False by apply not_elem_of_nil. }
  apply NoDup_cons in Hnd as [Hk Hnd]. cbn [omap list_omap].
  destruct (recs !! k) as [r|] eqn:Er; cbn [fmap option_fmap option_map].
  2: { destruct (IH acc Hnd) as (m & -> & Hm). exists m. split; [done|]. intros k'. rewrite Hm.
       destruct (filter persistent recs !! k') as [r|] eqn:E; [|done].
       apply map_lookup_filter_Some in E as [E _].
       rewrite decide_elem_of_cons; [done|congruence]. }
  destruct (Hload _ _ Er) as [Ha Hlen]. pose proof (Hkey _ _ Er) as Hs. cbn beta in Hs.
  change (load_lines _ acc) with (load_lines (Marshal r :: omap (λ key, Marshal <$> recs !! key) keys) acc).
  cbn [load_lines]. rewrite decide_False by lia. rewrite Unmarshal_Marshal by done. cbn [mbind option_bind].
  rewrite Hs. destruct (decide (k = ""%string ∨ RActions r = [])) as [Hd|Hd].
  - destruct (IH acc Hnd) as (m & -> & Hm). exists m. split; [done|]. intros k'. rewrite Hm.
    destruct (filter persistent recs !! k') as [r'|] eqn:E; [|done].
    apply map_lookup_filter_Some in E as [E Hp].
    assert (k' ≠ k) by (intros ->; simplify_eq; destruct Hp as [??], Hd; done).
    by rewrite decide_elem_of_cons.
  - destruct (IH (<[k:=r]> acc) Hnd) as (m & -> & Hm). exists m. split; [done|]. intros k'. rewrite Hm.
    destruct (decide (k' = k)) as [->|Hne].
    + assert (filter persistent recs !! k = Some r) as ->.
      { apply map_lookup_filter_Some. split; [done|]. split; simpl; naive_solver. }
      rewrite decide_False by done. rewrite lookup_insert_eq. by rewrite decide_True by (by left).
    + rewrite lookup_insert_ne by done. destruct (filter persistent recs !! k'); [|done].
      by rewrite decide_elem_of_cons.
Qed.

Lemma open_synced st :
  synced st → keyed (records st) → map_Forall (λ _, loadable) (records st) →
  OpenCorpusMetadataStore (fs st) = Some (mkStore (filter persistent (records st)) (fs st)).
Proof.
  intros Hsy Hkey Hload. unfold OpenCorpusMetadataStore, synced in *. rewrite Hsy. case_decide as He.
  { rewrite He, map_filter_empty. done. }
  unfold sorted_lines. set (keys := sort_by _ _).
  assert (Hkeys : ∀ k, k ∈ keys ↔ is_Some (records st !! k)).
  { intros k. subst keys. rewrite elem_of_sort_by, list_elem_of_fmap. split.
    - intros ([k' r] & -> & Hin%elem_of_map_to_list). eauto.
    - intros [r Hr]. exists (k, r). split; [done|]. by apply elem_of_map_to_list. }
  destruct (load_sorted keys (records st) ∅) as (m & -> & Hm); [done..| |].
  { subst keys. rewrite sort_by_perm. apply NoDup_fst_map_to_list. }
  cbn [mbind option_bind]. do 2 f_equal. apply map_eq. intros k. rewrite Hm, lookup_empty.
  destruct (filter persistent (records st) !! k) as [r|] eqn:E; [|done].
  apply map_lookup_filter_Some in E as [E _]. rewrite decide_True; [done|]. apply Hkeys. eauto.
Qed.

(** ** Operations and the file *)

Lemma encode_lines_untouched tmp lines w w' err :
  encode_lines tmp lines w = (w', err) → path ≠ tmp → untouched path w w'.
Proof.
  intros H Hne. revert w H. induction lines as [|l lines IH]; intros w H; cbn [encode_lines] in H; [by simplify_eq|].
  apply and_then_inv in H as [[-> E]|(w1 & E & H)]; [by eapply os_Write_untouched|].
  eapply untouched_trans; [by eapply os_Write_untouched|by apply IH].
Qed.
Lemma encode_lines_ok tmp lines w w' :
  encode_lines tmp lines w = (w', false) →
  is_Some (files w !! tmp) → files w' !! tmp = Some (default [] (files w !! tmp) ++ lines).
Proof.
  revert w. induction lines as [|l lines IH]; intros w H Hs; cbn [encode_lines] in H.
  { simplify_eq. destruct Hs as [c ->]. cbn. by rewrite app_nil_r. }
  apply and_then_inv in H as [[? ?]|(w1 & E & H)]; [done|]. apply os_Write_ok in E.
  rewrite (IH w1 H); rewrite E, lookup_insert_eq; [|done]. cbn. by rewrite <-app_assoc.
Qed.
Lemma encode_lines_healthy tmp lines w :
  healthy w → ∃ w', encode_lines tmp lines w = (w', false) ∧ healthy w'.
Proof.
  revert w. induction lines as [|l lines IH]; intros w Hh; cbn [encode_lines]; [by exists w|].
  destruct (os_Write_healthy tmp [l] w Hh) as (w1 & E & Hh1 & _). rewrite E, and_then_ok. by apply IH.
Qed.

(** The content a successful flush is meant to write. *)
Definition flushed (st : CorpusMetadataStore) : option (list Line) :=
  if decide (records st = ∅) then None else Some (sorted_lines (records st)).

Lemma flush_spec f st st' err :
  flush f st = (st', err) →
  records st' = records st ∧
  (if err then fs st' !! path = fs st !! path
   else fs st' !! path = flushed st ∨ fs st' !! path = Some [] ∧ records st ≠ ∅) ∧
  (Forall (λ x, x = None) f → err = false ∧ fs st' !! path = flushed st).
Proof.
  unfold flush, flushLocked, flushed. set (w0 := mkWorld (fs st) f). assert (Hw0 : files w0 = fs st) by done.
  pose proof (tmp_ne path) as Hne. case_decide as He.
  - destruct (os_Remove path w0) as [w err1] eqn:E. intros [= <- <-]. cbn [records fs]. split; [done|].
    unfold os_Remove in E. destruct (next_fault w0) as [fl w1] eqn:En. pose proof (next_fault_files _ _ _ En) as Hf.
    split.
    + destruct fl; simplify_eq/=; [by rewrite Hf|]. left. apply lookup_delete_eq.
    + intros Hh. destruct (next_fault_healthy w0 Hh) as (w2 & E2 & _). rewrite E2 in En. simplify_eq. simplify_eq/=.
      split; [done|]. apply lookup_delete_eq.
  - set (tmp := (path ++ ".tmp")%string) in *. destruct (and_then _ _) as [w err1] eqn:E. intros [= <- <-]. cbn [records fs].
    split; [done|]. split.
    + apply and_then_inv in E as [[-> E]|(w1 & E1 & H)].
      { apply (os_Create_untouched path) in E; [|done]. unfold untouched in E. by rewrite E, Hw0. }
      pose proof (os_Create_untouched path _ _ _ _ E1 Hne) as U1. apply os_Create_ok in E1.
      apply and_then_inv in H as [[-> E]|(w2 & E2 & H)].
      { eapply encode_lines_untouched in E; [|done]. unfold untouched in *. congruence. }
      pose proof (encode_lines_untouched _ _ _ _ _ E2 Hne) as U2.
      apply encode_lines_ok in E2; [|rewrite E1, lookup_insert_eq; eauto]. rewrite E1, lookup_insert_eq in E2. cbn in E2.
      apply and_then_inv in H as [[-> E]|(w3 & E3 & H)].
      { eapply (os_check_untouched path) in E. unfold untouched in *. congruence. }
      pose proof (os_check_untouched path _ _ _ E3) as U3. apply os_check_ok in E3.
      apply Rename_tmp in H. unfold untouched in *. destruct err1; [congruence|].
      destruct H as [(c & Hc & Hx)|Hx]; [|by right]. left. rewrite E3 in Hc. fold tmp in Hc. rewrite E2 in Hc. congruence.
    + intros Hh. destruct (os_Create_healthy tmp w0 Hh) as (w1 & E1 & Hh1 & Hf1). rewrite E1, and_then_ok in E.
      destruct (encode_lines_healthy tmp (sorted_lines (records st)) w1 Hh1) as (w2 & E2 & Hh2). rewrite E2, and_then_ok in E.
      apply encode_lines_ok in E2; [|rewrite Hf1, lookup_insert_eq; eauto]. rewrite Hf1, lookup_insert_eq in E2. cbn in E2.
      destruct (os_check_healthy w2 Hh2) as (w3 & E3 & Hh3 & Hf3). rewrite E3, and_then_ok in E.
      destruct (Rename_healthy tmp path w3 (sorted_lines (records st))) as (w4 & E4 & _ & Hf4); [done|by rewrite Hf3|].
      rewrite E4 in E. simplify_eq. split; [done|]. by rewrite Hf4, lookup_insert_eq.
Qed.

(** An operation of the store. *)
Inductive meta_op := OpSave (sig : string) (data : list Z) (ctx : option KConfuzzConfigContext)
  | OpDelete (sig : string) | OpPrune (keep : gset string).
Definition run_op (f : list (option nat)) (o : meta_op) (st : option CorpusMetadataStore) : option CorpusMetadataStore * bool :=
  match o with
  | OpSave sig data ctx => MetaSave f st sig data ctx
  | OpDelete sig => MetaDelete f st sig
  | OpPrune keep => Prune f st keep
  end.

Definition op_records (o : meta_op) (recs : gmap string corpusMetadataRecord) : gmap string corpusMetadataRecord :=
  match o with
  | OpSave sig data ctx => save_record recs sig data ctx
  | OpDelete sig => delete sig recs
  | OpPrune keep => filter (λ kv, kv.1 ∈ keep) recs
  end.

Lemma prune_records (recs : gmap string corpusMetadataRecord) (keep : gset string) :
  foldl (λ m kv, delete kv.1 m) recs (filter (λ kv, kv.1 ∉ keep) (map_to_list recs)) =
  filter (λ kv, kv.1 ∈ keep) recs.
Proof.
  assert (Hfold : ∀ (l : list (string * corpusMetadataRecord)) (m : gmap string corpusMetadataRecord) k,
    foldl (λ m kv, delete kv.1 m) m l !! k = if decide (k ∈ l.*1) then None else m !! k).
  { induction l as [|[k' r] l IH]; intros m k; [done|]. cbn [foldl]. rewrite IH, fmap_cons. cbn [fst].
    destruct (decide (k = k')) as [->|Hne].
    - rewrite lookup_delete_eq, (decide_True (P := k' ∈ k' :: _)) by (by left). by case_decide.
    - by rewrite decide_elem_of_cons, lookup_delete_ne. }
  apply map_eq. intros k. rewrite Hfold, map_lookup_filter.
  destruct (recs !! k) as [r|] eqn:E; cbn.
  - destruct (decide (k ∈ keep)) as [Hin|Hin].
    + rewrite decide_False, option_guard_True; [done|done|].
      intros ([k' r'] & -> & [Hn _]%list_elem_of_filter)%list_elem_of_fmap. done.
    + rewrite decide_True, option_guard_False; [done|done|].
      apply list_elem_of_fmap. exists (k, r). split; [done|]. apply list_elem_of_filter.
      split; [done|]. by apply elem_of_map_to_list.
  - by case_decide.
Qed.

Lemma run_op_spec f o st :
  ∃ st' err, run_op f o (Some st) = (Some st', err) ∧ records st' = op_records o (records st) ∧
    (if err then fs st' !! path = fs st !! path else synced st → synced st' ∨ fs st' !! path = Some []) ∧
    (Forall (λ x, x = None) f → err = false ∧ (synced st → synced st')).
Proof.
  assert (Hfl : ∀ recs, ∃ st' err, flush f (mkStore recs (fs st)) = (st', err) ∧ records st' = recs ∧
    (if err then fs st' !! path = fs st !! path else synced st → synced st' ∨ fs st' !! path = Some []) ∧
    (Forall (λ x, x = None) f → err = false ∧ (synced st → synced st'))).
  { intros recs. destruct (flush f (mkStore recs (fs st))) as [st' err] eqn:E. exists st', err.
    apply flush_spec in E as (Hr & He & Hh). cbn [records fs] in *. unfold synced. rewrite Hr.
    unfold flushed in *. cbn [records] in *. split_and!; [done|done| |naive_solver]. destruct err; naive_solver. }
  destruct o as [sig data ctx|sig|keep]; cbn [run_op op_records].
  - unfold MetaSave. destruct (Hfl (save_record (records st) sig data ctx)) as (st' & err & E & ?). rewrite E. eauto.
  - unfold MetaDelete. destruct (Hfl (delete sig (records st))) as (st' & err & E & ?). rewrite E. eauto.
  - unfold Prune. rewrite prune_records. case_decide as Hg.
    + exists st, false. split; [done|]. rewrite <-prune_records, Hg. cbn [foldl]. naive_solver.
    + destruct (Hfl (filter (λ kv, kv.1 ∈ keep) (records st))) as (st' & err & E & ?). rewrite E. eauto.
Qed.

Lemma op_records_keyed o recs : keyed recs → keyed (op_records o recs).
Proof.
  intros Hk. destruct o as [sig data ctx|sig|keep]; cbn [op_records].
  - unfold save_record. rewrite Clone_id.
    destruct ctx as [c|]; [case_decide|]; [by apply map_Forall_delete| |by apply map_Forall_delete].
    by apply map_Forall_insert_2.
  - by apply map_Forall_delete.
  - intros k r [Hr _]%map_lookup_filter_Some. by apply Hk.
Qed.

(** A store opened without a file, and operations whose system calls succeed. *)
Inductive meta_run : CorpusMetadataStore → Prop :=
| meta_start files : files !! path = None → meta_run (mkStore ∅ files)
| meta_step st st' f o err :
    meta_run st → Forall (λ x, x = None) f → run_op f o (Some st) = (Some st', err) → meta_run st'.

Lemma meta_run_inv st : meta_run st → synced st ∧ keyed (records st).
Proof.
  induction 1 as [files Hf|st st' f o err _ [Hsy Hk] Hf Hop]; [split; [done|apply map_Forall_empty]|].
  destruct (run_op_spec f o st) as (st1 & err1 & Heq & Hr & _ & Hsy'). rewrite Hop in Heq. simplify_eq.
  split; [by apply Hsy'|]. rewrite Hr. by apply op_records_keyed.
Qed.
End store.

(** Saving a context and asking for it again gives the context adapted to
    the program, as if it had never been stored; a context without actions is
    forgotten; no other program's context changes.  This holds in memory even
    when writing the file fails. *)
Theorem MetaSave_spec {Line} `{!MetaCodec Line} hash_String marshal path f (st : @CorpusMetadataStore Line) sig data ctx p :
  let store' := (MetaSave hash_String marshal path f (Some st) sig data ctx).1 in
  MetaContext store' sig p =
    match ctx with
    | Some c => if decide (Actions c = []) then None else CloneForProg ctx p
    | None => None
    end ∧
  ∀ sig', sig' ≠ sig → MetaContext store' sig' p = MetaContext (Some st) sig' p.
Proof. cbn zeta. split; [apply MetaSave_context|intros; by apply MetaSave_other]. Qed.



(** A failing rename can lose every record.  When the rename of the
    temporary file fails once and no other call does, Save reports success and
    leaves an empty file: the copy that replaces the rename truncates the very
    file it is about to copy.  A store opened afterwards has no records. *)
Theorem meta_rename_loses {Line} `{!MetaCodec Line} hash_String marshal path (st : @CorpusMetadataStore Line) sig data c
    (Hact : Actions c ≠ []) :
  ∃ f st', length (filter is_Some f) = 1%nat
  ∧ MetaSave hash_String marshal path f (Some st) sig data (Some c) = (Some st', false)
  ∧ is_Some (records st' !! sig)
  ∧ OpenCorpusMetadataStore path (fs st') = Some (mkStore ∅ (fs st')).
Proof.
  set (recs := save_record hash_String marshal (records st) sig data (Some c)).
  assert (Hrec : recs = <[sig := contextMetadataRecord hash_String marshal sig data c]> (records st)).
  { unfold recs, save_record. rewrite Clone_id. unfold len. by destruct (Actions c). }
  set (lines := sorted_lines recs). set (tmp := (path ++ ".tmp")%string).
  exists (replicate (2 + length lines) None ++ [Some 0%nat]).
  unfold MetaSave. fold recs. unfold flush, flushLocked. cbn [records fs].
  rewrite decide_False by (rewrite Hrec; apply insert_non_empty). fold lines tmp.
  assert (Henc : ∀ l fl c0, encode_lines tmp l (mkWorld (<[tmp := c0]> (fs st)) (replicate (length l) None ++ fl))
    = (mkWorld (<[tmp := c0 ++ l]> (fs st)) fl, false)).
  { induction l as [|x l IH]; intros fl c0; [cbn; by rewrite app_nil_r|]. cbn [encode_lines].
    unfold os_Write, next_fault. cbn [length replicate app faults files head tail default]. rewrite lookup_insert_eq.
    cbn [default from_option id]. rewrite insert_insert_eq, and_then_ok, IH, <-app_assoc. done. }
  assert (Hsplit : replicate (2 + length lines) None ++ [Some 0%nat]
    = None :: replicate (length lines) None ++ [None; Some 0%nat]).
  { change (2 + length lines)%nat with (S (S (length lines))). cbn [replicate app]. f_equal.
    by rewrite app_comm_cons, replicate_cons_app, <-app_assoc. }
  rewrite Hsplit. unfold os_Create, next_fault. cbn [head tail faults files default from_option id].
  rewrite and_then_ok, Henc, and_then_ok. cbn [app].
  change (os_check (mkWorld (<[tmp := lines]> (fs st)) [None; Some 0%nat]))
    with (mkWorld (<[tmp := lines]> (fs st)) [Some 0%nat], false). rewrite and_then_ok.
  destruct (Rename_loses path (mkWorld (<[tmp := lines]> (fs st)) []) lines) as (w' & E & Hw); [apply lookup_insert_eq|].
  cbn [files] in E. fold tmp in E. rewrite E. eexists. split; [|split; [done|]].
  - assert (Hnone : ∀ n (l : list (option nat)), filter is_Some (replicate n None ++ l) = filter is_Some l).
    { induction n as [|n IH]; intros l; [done|]. cbn [replicate app]. rewrite filter_cons_False; [apply IH|]. apply is_Some_None. }
    rewrite filter_cons_False by apply is_Some_None. by rewrite Hnone.
  - cbn [records fs]. split; [rewrite Hrec, lookup_insert_eq; eauto|]. unfold OpenCorpusMetadataStore. by rewrite Hw.
Qed.

(** ** A concrete store: a line is the record itself *)

#[export] Instance sample_codec : MetaCodec corpusMetadataRecord := {|
  Marshal r := r; Unmarshal r := Some r; line_len _ := 100; Unmarshal_Marshal _ _ := eq_refl
|}.
Definition sample_store0 : @CorpusMetadataStore corpusMetadataRecord := mkStore ∅ ∅.
Definition sample_op : meta_op := OpSave "aa" [1] (Some (sample_context [sample_action 1 7; sample_action 0 3])).
Definition sample_run (o : meta_op) (st : @CorpusMetadataStore corpusMetadataRecord) : @CorpusMetadataStore corpusMetadataRecord :=
  default st (run_op (λ _, "h"%string) sample_marshal "meta" [] o (Some st)).1.
Definition sample_store1 : @CorpusMetadataStore corpusMetadataRecord := sample_run sample_op sample_store0.

Lemma MetaSave_witness :
  MetaContext (MetaSave (λ _, "h"%string) sample_marshal "meta" [Some 0%nat] (Some sample_store0) "aa" [1]
    (Some (sample_context [sample_action 0 3]))).1 "aa" None = Some (sample_context [sample_action 0 3]).
Proof.
  rewrite (proj1 (MetaSave_spec (λ _, "h"%string) sample_marshal "meta" [Some 0%nat] sample_store0 "aa" [1]
    (Some (sample_context [sample_action 0 3])) None)). vm_compute. reflexivity.
Defined.



Lemma meta_rename_loses_witness :
  ∃ f st', MetaSave (λ _, "h"%string) sample_marshal "meta" f (Some sample_store1) "bb" [2]
      (Some (sample_context [sample_action 0 3])) = (Some st', false)
    ∧ OpenCorpusMetadataStore "meta" (fs st') = Some (mkStore ∅ (fs st')).
Proof.
  destruct (meta_rename_loses (λ _, "h"%string) sample_marshal "meta" sample_store1 "bb" [2]
    (sample_context [sample_action 0 3])) as (f & st' & _ & E & _ & Ho); [discriminate|].
  exists f, st'. exact (conj E Ho).
Defined.
