(* ===== verification/Signal.v ===== *)
(** * Feedback signal and coverage (src/pkg/signal, src/pkg/cover, src/pkg/fuzzer/cover.go)

    A signal maps coverage elements (64-bit hashes) to 8-bit priorities; a
    cover is a set of PCs.  Both are Go maps, modelled by [gmap]/[gset]; a nil
    map behaves as the empty one in every operation below.  The fuzzer keeps
    the maximal signal ever seen and the part of it not yet handed out.  The
    order is "every element is present with at least this priority"; merging
    is its least upper bound, minimisation keeps the bound of the corpus. *)

From S2P Require Import Prelude.

(** ** Signal *)

Abbreviation Signal := (gmap Z Z).

Definition SignalLen (s : Signal) : Z := Z.of_nat (size s).
Definition SignalEmpty (s : Signal) : bool := SignalLen s =? 0.

(** [prioType(prio)]: a uint8 reinterpreted as an int8. *)
Definition prioType (prio : Z) : Z := i8 prio.

Definition SignalCopy (s : Signal) : Signal :=
  foldl (λ c ep, <[ep.1:=ep.2]> c) ∅ (map_to_list s).

Definition FromRaw (raw : list Z) (prio : Z) : Signal :=
  foldl (λ s e, <[e:=prioType prio]> s) ∅ raw.

(** One round of DiffRaw's loop. *)
Definition diff_elem (s : Signal) (prio : Z) (res : Signal) (e : Z) : Signal :=
  match s !! e with
  | Some p => if decide (prioType prio ≤ p) then res else <[e:=prioType prio]> res
  | None => <[e:=prioType prio]> res
  end.
Definition DiffRaw (s : Signal) (raw : list Z) (prio : Z) : Signal :=
  foldl (diff_elem s prio) ∅ raw.

Definition holds_elem (other : Signal) (ep : Z * Z) : bool :=
  match other !! ep.1 with Some p1 => bool_decide (ep.2 ≤ p1) | None => false end.
Definition IntersectsWith (s other : Signal) : bool := existsb (holds_elem other) (map_to_list s).

Definition Intersection (s s1 : Signal) : Signal :=
  if SignalEmpty s1 then ∅
  else foldl (λ res ep, if holds_elem s1 ep then <[ep.1:=ep.2]> res else res) ∅ (map_to_list s).

Definition merge_elem (s0 : Signal) (ep : Z * Z) : Signal :=
  match s0 !! ep.1 with
  | Some p => if decide (p < ep.2) then <[ep.1:=ep.2]> s0 else s0
  | None => <[ep.1:=ep.2]> s0
  end.
Definition SignalMerge (s s1 : Signal) : Signal :=
  if SignalEmpty s1 then s else foldl merge_elem s (map_to_list s1).

Definition ToRaw (s : Signal) : list Z := (map_to_list s).*1.

(** ** Corpus minimisation *)

Record SignalContext (A : Type) := mkSignalContext { CtxSignal : Signal; CtxContext : A }.
Arguments mkSignalContext {A} _ _.
Arguments CtxSignal {A} _.
Arguments CtxContext {A} _.

Record ContextPrio := mkContextPrio { cp_prio : Z; cp_idx : nat }.

Definition cover_elem (i : nat) (covered : gmap Z ContextPrio) (ep : Z * Z) : gmap Z ContextPrio :=
  match covered !! ep.1 with
  | Some prev =>
      if decide (cp_prio prev < ep.2) then <[ep.1:=mkContextPrio ep.2 i]> covered else covered
  | None => <[ep.1:=mkContextPrio ep.2 i]> covered
  end.

Section minimize.
Context {A : Type}.

Fixpoint cover_corpus (i : nat) (corpus : list (SignalContext A))
    (covered : gmap Z ContextPrio) : gmap Z ContextPrio :=
  match corpus with
  | [] => covered
  | inp :: rest =>
      cover_corpus (S i) rest (foldl (cover_elem i) covered (map_to_list (CtxSignal inp)))
  end.

Definition min_indices (corpus : list (SignalContext A)) : gset nat :=
  foldl (λ s cp, {[cp_idx cp]} ∪ s) ∅ (values (cover_corpus 0 corpus ∅)).

(** [order] is the order in which [range indices] visits the set. *)
Definition SignalMinimize (order : list nat → list nat)
    (corpus : list (SignalContext A)) : outcome (list A) :=
  mapM (λ i, CtxContext <$> index corpus (Z.of_nat i)) (order (elements (min_indices corpus))).
End minimize.

(** ** Coverage *)

Abbreviation Cover := (gset Z).

Definition CoverMerge (cov : Cover) (raw : list Z) : Cover :=
  foldl (λ c pc, {[pc]} ∪ c) cov raw.
Definition CoverFromRaw (raw : list Z) : Cover := CoverMerge ∅ raw.
Definition CoverSerialize (cov : Cover) : list Z := elements cov.

(** The loop of MergeDiff: [raw] is scanned while its prefix is overwritten;
    [i] is the read position and [n] the write position. *)
Fixpoint merge_diff_loop (fuel : nat) (c : Cover) (raw : list Z) (i n : nat)
    : Cover * list Z * nat :=
  match fuel with
  | O => (c, raw, n)
  | S fuel =>
      match raw !! i with
      | None => (c, raw, n)
      | Some pc =>
          if decide (pc ∈ c) then merge_diff_loop fuel c raw (S i) n
          else merge_diff_loop fuel ({[pc]} ∪ c) (<[n:=pc]> raw) (S i) (S n)
      end
  end.

(** The new cover, the overwritten array and the length of the result slice. *)
Definition MergeDiff (c : Cover) (raw : list Z) : Cover * list Z * nat :=
  merge_diff_loop (length raw) c raw 0 0.

(** ** The fuzzer's signal state *)

Record FuzzerCover := mkFuzzerCover { maxSignal : Signal; newSignal : Signal }.

Definition newCover : FuzzerCover := mkFuzzerCover ∅ ∅.

Definition addRawMaxSignal (c : FuzzerCover) (signal : list Z) (prio : Z) : FuzzerCover * Signal :=
  let diff := DiffRaw (maxSignal c) signal prio in
  if SignalEmpty diff then (c, diff)
  else (mkFuzzerCover (SignalMerge (maxSignal c) diff) (SignalMerge (newSignal c) diff), diff).

Definition CopyMaxSignal (c : FuzzerCover) : Signal := SignalCopy (maxSignal c).

Definition GrabSignalDelta (c : FuzzerCover) : FuzzerCover * Signal :=
  (mkFuzzerCover (maxSignal c) ∅, newSignal c).

(** ** Lemmas: signals *)

(** [s] is contained in [t]: every element with at least its priority. *)
Definition sig_le (s t : Signal) : Prop :=
  ∀ e p, s !! e = Some p → ∃ q, t !! e = Some q ∧ p ≤ q.

#[export] Instance sig_le_preorder : PreOrder sig_le.
Proof.
  split; [intros s e p ?; exists p; split; [done|lia]|].
  intros s t u Hst Htu e p Hp. destruct (Hst e p Hp) as (q & Hq & ?).
  destruct (Htu e q Hq) as (r & Hr & ?). exists r. split; [done|lia].
Qed.
#[export] Instance sig_le_antisymm : AntiSymm (=) sig_le.
Proof.
  intros s t Hst Hts. apply map_eq. intros e. destruct (s !! e) as [p|] eqn:Hs.
  - destruct (Hst e p Hs) as (q & Hq & ?). destruct (Hts e q Hq) as (p' & Hp' & ?).
    rewrite Hq. f_equal. rewrite Hs in Hp'. simplify_eq. lia.
  - destruct (t !! e) as [q|] eqn:Ht; [|done].
    destruct (Hts e q Ht) as (p & Hp & _). congruence.
Qed.

Definition opt_max (a b : option Z) : option Z := union_with (λ p q, Some (Z.max p q)) a b.

Lemma SignalEmpty_true s : SignalEmpty s = true ↔ s = ∅.
Proof. unfold SignalEmpty, SignalLen. rewrite Z.eqb_eq, <-map_size_empty_iff. lia. Qed.

Lemma lookup_merge_elems l s e :
  NoDup l.*1 → foldl merge_elem s l !! e = opt_max (s !! e) ((list_to_map l : Signal) !! e).
Proof.
  unfold opt_max. revert s. induction l as [|[k p] l IH]; intros s Hnd.
  { simpl. rewrite lookup_empty. by destruct (s !! e). }
  rewrite fmap_cons in Hnd. apply NoDup_cons in Hnd as [Hk Hnd].
  rewrite list_to_map_cons. cbn [foldl].
  rewrite IH by done. unfold merge_elem. cbn [fst snd].
  destruct (decide (e = k)) as [->|Hne].
  - rewrite (not_elem_of_list_to_map_1 l k) by done. rewrite lookup_insert_eq.
    destruct (s !! k) as [q|] eqn:Hs; [case_decide|]; rewrite ?lookup_insert_eq, ?Hs; simpl; f_equal; lia.
  - rewrite lookup_insert_ne by done. f_equal.
    destruct (s !! k); [case_decide|]; by rewrite ?lookup_insert_ne by done.
Qed.

Lemma lookup_SignalMerge s t e : SignalMerge s t !! e = opt_max (s !! e) (t !! e).
Proof.
  unfold SignalMerge. destruct (SignalEmpty t) eqn:Ht.
  - apply SignalEmpty_true in Ht as ->. rewrite lookup_empty. unfold opt_max. by destruct (s !! e).
  - rewrite lookup_merge_elems by apply NoDup_fst_map_to_list. by rewrite list_to_map_to_list.
Qed.

Lemma lookup_insert_all (l : list (Z * Z)) (s : Signal) e :
  NoDup l.*1 → foldl (λ c ep, <[ep.1:=ep.2]> c) s l !! e =
    match (list_to_map l : Signal) !! e with Some p => Some p | None => s !! e end.
Proof.
  revert s. induction l as [|[k p] l IH]; intros s Hnd; [simpl; by rewrite lookup_empty|].
  rewrite fmap_cons in Hnd. apply NoDup_cons in Hnd as [Hk Hnd].
  rewrite list_to_map_cons. cbn [foldl fst snd]. rewrite IH by done.
  destruct (decide (e = k)) as [->|].
  - rewrite (not_elem_of_list_to_map_1 l k) by done. by rewrite !lookup_insert_eq.
  - by rewrite !lookup_insert_ne by done.
Qed.

Lemma SignalCopy_id s : SignalCopy s = s.
Proof.
  apply map_eq. intros e. unfold SignalCopy.
  rewrite lookup_insert_all, list_to_map_to_list by apply NoDup_fst_map_to_list.
  rewrite lookup_empty. by destruct (s !! e).
Qed.

Lemma lookup_FromRaw raw prio e :
  FromRaw raw prio !! e = if decide (e ∈ raw) then Some (prioType prio) else None.
Proof.
  unfold FromRaw. induction raw as [|x raw IH] using rev_ind; [done|].
  rewrite foldl_snoc. destruct (decide (e = x)) as [->|Hne].
  - rewrite lookup_insert_eq, decide_True by set_solver. done.
  - rewrite lookup_insert_ne, IH by done. repeat case_decide; set_solver.
Qed.

Lemma lookup_DiffRaw s raw prio e :
  DiffRaw s raw prio !! e =
    if decide (e ∈ raw) then
      match s !! e with
      | Some p => if decide (prioType prio ≤ p) then None else Some (prioType prio)
      | None => Some (prioType prio)
      end
    else None.
Proof.
  unfold DiffRaw. induction raw as [|x raw IH] using rev_ind; [done|].
  rewrite foldl_snoc. unfold diff_elem at 1. destruct (decide (e = x)) as [->|Hne].
  - rewrite (decide_True (P:=x ∈ raw ++ [x])) by set_solver.
    destruct (s !! x) as [p|] eqn:Hp; [|by rewrite lookup_insert_eq].
    destruct (decide (prioType prio ≤ p)) as [Hle|]; [|by rewrite lookup_insert_eq].
    rewrite IH. destruct (decide (x ∈ raw)); [|done]. by rewrite ?decide_True by done.
  - assert (Hd : ∀ (a b : option Z), (if decide (e ∈ raw ++ [x]) then a else b) = if decide (e ∈ raw) then a else b).
    { clear IH. intros a b. repeat case_decide; set_solver. }
    rewrite Hd, <-IH. clear IH Hd. destruct (s !! x); [case_decide|]; by rewrite ?lookup_insert_ne by done.
Qed.

(** Merging the difference is merging the raw signal. *)
Lemma merge_DiffRaw s raw prio :
  SignalMerge s (DiffRaw s raw prio) = SignalMerge s (FromRaw raw prio).
Proof.
  apply map_eq. intros e. rewrite !lookup_SignalMerge, lookup_DiffRaw, lookup_FromRaw.
  unfold opt_max. repeat case_decide; try done.
  destruct (s !! e) as [p|]; [|done]. case_decide; [|done]. simpl. f_equal. lia.
Qed.

Lemma SignalMerge_assoc s t u : SignalMerge s (SignalMerge t u) = SignalMerge (SignalMerge s t) u.
Proof.
  apply map_eq. intros e. rewrite !lookup_SignalMerge. unfold opt_max.
  destruct (s !! e), (t !! e), (u !! e); simpl; try done; f_equal; lia.
Qed.
Lemma SignalMerge_comm s t : SignalMerge s t = SignalMerge t s.
Proof.
  apply map_eq. intros e. rewrite !lookup_SignalMerge. unfold opt_max.
  destruct (s !! e), (t !! e); simpl; try done; f_equal; lia.
Qed.
Lemma SignalMerge_empty_r s : SignalMerge s ∅ = s.
Proof. done. Qed.
Lemma SignalMerge_empty_l s : SignalMerge ∅ s = s.
Proof. by rewrite SignalMerge_comm. Qed.

Lemma SignalMerge_ub_l s t : sig_le s (SignalMerge s t).
Proof.
  intros e p Hp. rewrite lookup_SignalMerge, Hp. unfold opt_max.
  destruct (t !! e); simpl; eexists; (split; [done|lia]).
Qed.
Lemma SignalMerge_ub_r s t : sig_le t (SignalMerge s t).
Proof. rewrite SignalMerge_comm. apply SignalMerge_ub_l. Qed.
Lemma SignalMerge_inv s t e p :
  SignalMerge s t !! e = Some p → s !! e = Some p ∨ t !! e = Some p.
Proof.
  rewrite lookup_SignalMerge. unfold opt_max.
  destruct (s !! e) as [a|], (t !! e) as [b|]; simpl; try naive_solver.
  destruct (Z.max_spec a b) as [[? ->]|[? ->]]; naive_solver.
Qed.
Lemma SignalMerge_lub s t u : sig_le s u → sig_le t u → sig_le (SignalMerge s t) u.
Proof. intros Hs Ht e p [Hp|Hp]%SignalMerge_inv; eauto. Qed.

(** ** The fuzzer's signal bookkeeping *)

(** A history of the signal state: [seen] merges everything ever reported,
    [given] everything ever grabbed. *)
Inductive cover_run : FuzzerCover → Signal → Signal → Prop :=
| run_new : cover_run newCover ∅ ∅
| run_add c seen given raw prio c' d :
    cover_run c seen given →
    addRawMaxSignal c raw prio = (c', d) →
    cover_run c' (SignalMerge seen (FromRaw raw prio)) given
| run_grab c seen given c' d :
    cover_run c seen given →
    GrabSignalDelta c = (c', d) →
    cover_run c' seen (SignalMerge given d).

Lemma addRaw_max c raw prio c' d :
  addRawMaxSignal c raw prio = (c', d) →
  maxSignal c' = SignalMerge (maxSignal c) (FromRaw raw prio) ∧
  newSignal c' = SignalMerge (newSignal c) d ∧ d = DiffRaw (maxSignal c) raw prio.
Proof.
  unfold addRawMaxSignal. rewrite <-(merge_DiffRaw (maxSignal c)).
  destruct (SignalEmpty _) eqn:E; intros [= <- <-]; [|done].
  apply SignalEmpty_true in E as ->. by rewrite !SignalMerge_empty_r.
Qed.

(** Along every interleaving of reported and grabbed signal the fuzzer's
    max signal is the least upper bound of everything reported, and the grabbed
    deltas together with the pending one reconstruct it: no signal is lost and
    none is invented. *)
Theorem cover_run_spec c seen given :
  cover_run c seen given →
  maxSignal c = seen ∧ SignalMerge given (newSignal c) = seen ∧
  ∀ raw prio c' d, addRawMaxSignal c raw prio = (c', d) →
    ∀ e p, d !! e = Some p ↔
      e ∈ raw ∧ p = prioType prio ∧ ¬ ∃ q, seen !! e = Some q ∧ p ≤ q.
Proof.
  intros Hrun.
  assert (Hinv : maxSignal c = seen ∧ SignalMerge given (newSignal c) = seen).
  { induction Hrun as [|c seen given raw prio c' d _ [IH1 IH2] Ha
                       |c seen given c' d _ [IH1 IH2] Hg]; [done| |].
    - apply addRaw_max in Ha as (-> & -> & ->). split; [by rewrite IH1|].
      by rewrite SignalMerge_assoc, IH2, <-IH1, merge_DiffRaw.
    - injection Hg as <- <-. cbn [maxSignal newSignal]. by rewrite SignalMerge_empty_r. }
  destruct Hinv as [Hmax Hnew]. split_and!; [done..|]. intros raw prio c' d Ha e p.
  apply addRaw_max in Ha as (_ & _ & ->). rewrite lookup_DiffRaw, Hmax.
  destruct (decide (e ∈ raw)); [|naive_solver].
  destruct (seen !! e) as [q|]; [|naive_solver].
  case_decide; split; [done|intros (_ & -> & []); eauto| |].
  - intros [= <-]. split_and!; [done..|]. intros (? & [= <-] & ?). lia.
  - by intros (_ & -> & _).
Qed.

Lemma cover_run_witness :
  ∃ c, cover_run c (SignalMerge ∅ (FromRaw [5; 7] 2)) (SignalMerge ∅ (FromRaw [5; 7] 2)) ∧
    maxSignal c !! 5 = Some 2 ∧ newSignal c = ∅.
Proof.
  set (c1 := (addRawMaxSignal newCover [5; 7] 2).1).
  set (c2 := (GrabSignalDelta c1).1).
  assert (Hrun : cover_run c2 (SignalMerge ∅ (FromRaw [5; 7] 2)) (SignalMerge ∅ (FromRaw [5; 7] 2))).
  { eapply run_grab; [eapply run_add; [apply run_new|]|]; vm_compute; reflexivity. }
  exists c2. split; [exact Hrun|].
  destruct (cover_run_spec _ _ _ Hrun) as (Hm & _ & _).
  split; [rewrite Hm; vm_compute; reflexivity|vm_compute; reflexivity].
Defined.

(** ** In-place difference of covers *)

(** The PCs of [raw] that are not covered yet, at their first occurrence. *)
Fixpoint fresh_pcs (c : Cover) (raw : list Z) : list Z :=
  match raw with
  | [] => []
  | pc :: raw => if decide (pc ∈ c) then fresh_pcs c raw else pc :: fresh_pcs ({[pc]} ∪ c) raw
  end.

Lemma length_fresh_pcs c raw : (length (fresh_pcs c raw) ≤ length raw)%nat.
Proof.
  revert c. induction raw as [|pc raw IH]; intros c; cbn [fresh_pcs length]; [lia|].
  case_decide; cbn [length]; [specialize (IH c)|specialize (IH ({[pc]} ∪ c))]; lia.
Qed.

Lemma elem_of_fresh_pcs c raw pc : pc ∈ fresh_pcs c raw ↔ (pc ∈ raw) ∧ (pc ∉ c).
Proof.
  revert c. induction raw as [|x raw IH]; intros c; cbn [fresh_pcs].
  { rewrite elem_of_nil. naive_solver. }
  case_decide; rewrite ?elem_of_cons, IH, ?not_elem_of_union, ?not_elem_of_singleton; [naive_solver|].
  destruct (decide (pc = x)); naive_solver.
Qed.
Lemma fresh_pcs_sublist c raw : fresh_pcs c raw `sublist_of` raw.
Proof.
  revert c. induction raw as [|x raw IH]; intros c; cbn [fresh_pcs]; [constructor|].
  case_decide; by constructor.
Qed.
Lemma NoDup_fresh_pcs c raw : NoDup (fresh_pcs c raw).
Proof.
  revert c. induction raw as [|x raw IH]; intros c; cbn [fresh_pcs]; [constructor|].
  case_decide; [done|]. constructor; [|done]. rewrite elem_of_fresh_pcs. set_solver.
Qed.

Lemma merge_diff_loop_spec fuel c raw i n :
  (n ≤ i)%nat → (length raw ≤ i + fuel)%nat → (i ≤ length raw)%nat →
  let new := fresh_pcs c (drop i raw) in
  merge_diff_loop fuel c raw i n =
    (list_to_set (drop i raw) ∪ c, take n raw ++ new ++ drop (n + length new) raw, n + length new)%nat.
Proof.
  revert c raw i n. induction fuel as [|fuel IH]; intros c raw i n Hni Hf Hi; cbn zeta.
  { rewrite (drop_ge raw i) by lia. simpl. rewrite Nat.add_0_r, take_drop. do 2 f_equal. set_solver. }
  cbn [merge_diff_loop]. destruct (raw !! i) as [pc|] eqn:Hpc.
  2: { apply lookup_ge_None in Hpc. rewrite (drop_ge raw i) by lia. simpl.
       rewrite Nat.add_0_r, take_drop. do 2 f_equal. set_solver. }
  assert (Hlt : (i < length raw)%nat) by (by eapply lookup_lt_Some).
  rewrite (drop_S _ _ _ Hpc). cbn [fresh_pcs]. destruct (decide (pc ∈ c)) as [Hc|Hc].
  - rewrite IH by lia. cbn zeta. do 2 f_equal. set_solver.
  - rewrite IH; rewrite ?length_insert; [|lia..]. cbn zeta.
    rewrite drop_insert_lt by lia. cbn [length]. f_equal; [|lia]. f_equal; [set_solver|].
    rewrite (take_S_r _ _ pc) by (apply list_lookup_insert_eq; lia).
    rewrite take_insert_ge by lia. rewrite <-app_assoc. cbn [app]. f_equal. f_equal. f_equal.
    rewrite drop_insert_lt by lia. f_equal. lia.
Qed.

Lemma MergeDiff_eq c raw :
  let new := fresh_pcs c raw in
  MergeDiff c raw = (list_to_set raw ∪ c, new ++ drop (length new) raw, length new).
Proof. cbn zeta. unfold MergeDiff. rewrite merge_diff_loop_spec by lia. by rewrite drop_0. Qed.

(** MergeDiff adds exactly the PCs of [raw]; the slice it returns holds the
    newly covered PCs, each once, in order of first occurrence; and the rest
    of the caller's array keeps its old contents behind them. *)
Theorem MergeDiff_spec c raw :
  ∃ new, MergeDiff c raw = (list_to_set raw ∪ c, new ++ drop (length new) raw, length new) ∧
    NoDup new ∧ (∀ pc, pc ∈ new ↔ (pc ∈ raw) ∧ (pc ∉ c)) ∧ new `sublist_of` raw.
Proof.
  exists (fresh_pcs c raw). split; [apply MergeDiff_eq|]. split; [apply NoDup_fresh_pcs|].
  split; [apply elem_of_fresh_pcs|apply fresh_pcs_sublist].
Qed.

(** ** Minimisation *)

(** What the scan of the corpus remembers for one element. *)
Definition improve (e : Z) (i : nat) {A} (inp : SignalContext A) (acc : option ContextPrio) :=
  match CtxSignal inp !! e with
  | None => acc
  | Some p =>
      match acc with
      | Some prev => if decide (cp_prio prev < p) then Some (mkContextPrio p i) else acc
      | None => Some (mkContextPrio p i)
      end
  end.

Lemma lookup_cover_elems i l cov e :
  NoDup l.*1 → foldl (cover_elem i) cov l !! e =
    improve e i (mkSignalContext (list_to_map l : Signal) ()) (cov !! e).
Proof.
  unfold improve. cbn [CtxSignal]. revert cov. induction l as [|[k p] l IH]; intros cov Hnd.
  { simpl. by rewrite lookup_empty. }
  rewrite fmap_cons in Hnd. apply NoDup_cons in Hnd as [Hk Hnd].
  rewrite list_to_map_cons. cbn [foldl]. rewrite IH by done. clear IH. unfold cover_elem. cbn [fst snd].
  destruct (decide (e = k)) as [->|Hne].
  - rewrite (not_elem_of_list_to_map_1 l k) by done. rewrite lookup_insert_eq.
    destruct (cov !! k) as [q|] eqn:Hs; [case_decide|]; by rewrite ?lookup_insert_eq, ?Hs.
  - rewrite lookup_insert_ne by done.
    destruct (cov !! k); [case_decide|]; by rewrite ?lookup_insert_ne by done.
Qed.

Section minimize_props.
Context {A : Type}.
Implicit Types (l : list (SignalContext A)).

Fixpoint best (e : Z) (i : nat) l (acc : option ContextPrio) : option ContextPrio :=
  match l with [] => acc | inp :: l => best e (S i) l (improve e i inp acc) end.

Lemma lookup_cover_corpus i l cov e : cover_corpus i l cov !! e = best e i l (cov !! e).
Proof.
  revert i cov. induction l as [|inp l IH]; intros i cov; [done|]. cbn [cover_corpus best].
  rewrite IH, lookup_cover_elems by apply NoDup_fst_map_to_list.
  unfold improve. cbn [CtxSignal]. by rewrite list_to_map_to_list.
Qed.

(** [j] is the first input of [l] with the greatest priority for [e]. *)
Definition first_best l (e : Z) (j : nat) (p : Z) : Prop :=
  (∃ inp, l !! j = Some inp ∧ CtxSignal inp !! e = Some p) ∧
  ∀ j' inp' q, l !! j' = Some inp' → CtxSignal inp' !! e = Some q →
    q ≤ p ∧ ((j' < j)%nat → q < p).

Lemma best_spec e i l acc :
  (best e i l acc = acc ∧ ∀ j inp q, l !! j = Some inp → CtxSignal inp !! e = Some q →
     ∃ prev, acc = Some prev ∧ q ≤ cp_prio prev) ∨
  (∃ j p, best e i l acc = Some (mkContextPrio p (i + j)) ∧ first_best l e j p ∧
     ∀ prev, acc = Some prev → cp_prio prev < p).
Proof.
  revert i acc. induction l as [|inp l IH]; intros i acc; cbn [best]; [left; done|].
  destruct (IH (S i) (improve e i inp acc)) as [[-> Hle]|(j & p & -> & [Hj Hbest] & Hlt)].
  - unfold improve in *. destruct (CtxSignal inp !! e) as [p|] eqn:Hp.
    2: { left. split; [done|]. intros [|j] inp' q; simpl; [|eauto]. intros [= <-]. congruence. }
    destruct acc as [prev|].
    + destruct (decide (cp_prio prev < p)) as [Hlt|Hge].
      * right. exists 0%nat, p. rewrite Nat.add_0_r. split; [done|]. split; [|naive_solver].
        split; [by exists inp|]. intros [|j] inp' q Hl Hq; simpl in Hl; simplify_eq; [split; lia|].
        destruct (Hle j inp' q Hl Hq) as (? & [= <-] & ?). simpl in *. split; lia.
      * left. split; [done|]. intros [|j] inp' q Hl Hq; simpl in Hl; simplify_eq; [|eauto].
        exists prev. split; [done|lia].
    + right. exists 0%nat, p. rewrite Nat.add_0_r. split; [done|]. split; [|done].
      split; [by exists inp|]. intros [|j] inp' q Hl Hq; simpl in Hl; simplify_eq; [split; lia|].
      destruct (Hle j inp' q Hl Hq) as (? & [= <-] & ?). simpl in *. split; lia.
  - right. exists (S j), p. replace (i + S j)%nat with (S i + j)%nat by lia. split; [done|].
    assert (Hhere : (∀ q, CtxSignal inp !! e = Some q → q < p) ∧ (∀ prev, acc = Some prev → cp_prio prev < p)).
    { unfold improve in Hlt. destruct (CtxSignal inp !! e) as [q|]; [|naive_solver].
      destruct acc as [prev|]; [|specialize (Hlt _ eq_refl); naive_solver].
      destruct (decide (cp_prio prev < q)); specialize (Hlt _ eq_refl); simpl in Hlt;
        split; intros; simplify_eq; lia. }
    destruct Hhere as [Hinp Hacc]. split; [|done]. split; [done|].
    intros [|j'] inp' q Hl Hq; simpl in Hl; simplify_eq.
    + specialize (Hinp q Hq). split; lia.
    + destruct (Hbest j' inp' q Hl Hq). split; [done|]. lia.
Qed.

Lemma elem_of_min_indices l i : i ∈ min_indices l ↔ ∃ e p, first_best l e i p.
Proof.
  unfold min_indices.
  assert (Hfold : ∀ (cps : list ContextPrio) (s : gset nat),
    i ∈ foldl (λ s cp, {[cp_idx cp]} ∪ s) s cps ↔ i ∈ s ∨ ∃ cp, cp ∈ cps ∧ cp_idx cp = i).
  { induction cps as [|cp cps IH]; intros s; simpl; [set_solver|]. rewrite IH. set_solver. }
  rewrite Hfold. split.
  - intros [?|(cp & (e & He)%elem_of_values & <-)]; [set_solver|].
    rewrite lookup_cover_corpus, lookup_empty in He.
    destruct (best_spec e 0 l None) as [[H' _]|(j & p & H' & Hb & _)]; [congruence|].
    rewrite He in H'. injection H' as ->. by exists e, p.
  - intros (e & p & Hb). right. destruct Hb as [(inp & Hl & Hp) Hb].
    destruct (best_spec e 0 l None) as [[_ H']|(j & p' & H' & [(inp' & Hl' & Hp') Hb'] & _)].
    { destruct (H' i inp p Hl Hp) as (? & ? & ?); done. }
    exists (mkContextPrio p' j). split.
    { apply elem_of_values. exists e. by rewrite lookup_cover_corpus, lookup_empty. }
    simpl. destruct (Hb j inp' p' Hl' Hp') as [Hle Hlt], (Hb' i inp p Hl Hp) as [Hle' Hlt'].
    destruct (lt_eq_lt_dec i j) as [[?|?]|?]; [|done|]; [specialize (Hlt' ltac:(lia))|specialize (Hlt ltac:(lia))]; lia.
Qed.

(** Every element of the corpus has a first best input. *)
Lemma first_best_exists l j inp e q :
  l !! j = Some inp → CtxSignal inp !! e = Some q → ∃ i p, first_best l e i p ∧ q ≤ p.
Proof.
  intros Hl Hq. destruct (best_spec e 0 l None) as [[_ H']|(i & p & _ & Hb & _)].
  { destruct (H' j inp q Hl Hq) as (? & ? & ?); done. }
  exists i, p. split; [done|]. by eapply Hb.
Qed.

Lemma SignalMinimize_indices order l :
  (∀ js, order js ≡ₚ js) →
  ∃ js kept, js ≡ₚ elements (min_indices l) ∧
    Forall2 (λ i inp, l !! i = Some inp) js kept ∧
    SignalMinimize order l = Ret (CtxContext <$> kept).
Proof.
  intros Hord. unfold SignalMinimize. set (js' := order _).
  assert (His : js' ≡ₚ elements (min_indices l)) by apply Hord.
  assert (Hk : ∃ kept, Forall2 (λ i inp, l !! i = Some inp) js' kept).
  { assert (Hall : Forall (λ i, is_Some (l !! i)) js').
    { apply Forall_forall. intros i Hi. rewrite His, elem_of_elements, elem_of_min_indices in Hi.
      destruct Hi as (e & p & (inp & -> & _) & _). eauto. }
    clear -Hall. induction Hall as [|i js [inp Hi] _ [kept IH]]; [by exists []|].
    exists (inp :: kept). by constructor. }
  destruct Hk as [kept Hk]. exists js', kept. split_and!; [done..|].
  apply mapM_Ret. clear -Hk. induction Hk as [|i inp js kept Hi _ IH]; [done|].
  rewrite fmap_cons. constructor; [|done].
  rewrite (index_Some _ _ inp); [done|lia|by rewrite Nat2Z.id].
Qed.
End minimize_props.

Lemma SignalMinimize_covers {A} (order : list nat → list nat) (corpus : list (SignalContext A)) :
  (∀ js, order js ≡ₚ js) →
  ∃ js kept, SignalMinimize order corpus = Ret (CtxContext <$> kept) ∧
    js ≡ₚ elements (min_indices corpus) ∧
    Forall2 (λ i inp, corpus !! i = Some inp) js kept ∧ NoDup js ∧
    (∀ inp e p, inp ∈ corpus → CtxSignal inp !! e = Some p →
       ∃ inp' p', inp' ∈ kept ∧ CtxSignal inp' !! e = Some p' ∧ p ≤ p').
Proof.
  intros Hord. destruct (SignalMinimize_indices order corpus Hord) as (js & kept & Hjs & Hk & ->).
  exists js, kept. split_and!; [done..| |].
  - rewrite Hjs. apply NoDup_elements.
  - intros inp e p [j Hj]%list_elem_of_lookup Hp.
    destruct (first_best_exists corpus j inp e p Hj Hp) as (i & p' & Hb & Hle).
    assert (Hi : i ∈ js) by (rewrite Hjs, elem_of_elements, elem_of_min_indices; eauto).
    apply list_elem_of_lookup in Hi as [n Hn].
    destruct (Forall2_lookup_l _ _ _ _ _ Hk Hn) as (inp' & Hn' & Hi').
    destruct Hb as [(inp'' & Hi'' & Hp'') _]. simplify_eq.
    exists inp'', p'. split_and!; [by eapply list_elem_of_lookup_2|done..].
Qed.

(** Minimize never fails, keeps inputs of the corpus at distinct positions,
    keeps for every signal element of every input an input that has it with at
    least that priority, and keeps only inputs that are needed: each is the
    first of the corpus to reach the best priority of some element. *)
Theorem SignalMinimize_spec {A} (order : list nat → list nat) (corpus : list (SignalContext A)) :
  (∀ js, order js ≡ₚ js) →
  ∃ js kept, SignalMinimize order corpus = Ret (CtxContext <$> kept) ∧
    Forall2 (λ i inp, corpus !! i = Some inp) js kept ∧ NoDup js ∧
    (∀ inp e p, inp ∈ corpus → CtxSignal inp !! e = Some p →
       ∃ inp' p', inp' ∈ kept ∧ CtxSignal inp' !! e = Some p' ∧ p ≤ p') ∧
    (∀ i, i ∈ js → ∃ e p, (∃ inp, corpus !! i = Some inp ∧ CtxSignal inp !! e = Some p) ∧
       ∀ j inp q, corpus !! j = Some inp → CtxSignal inp !! e = Some q →
         q ≤ p ∧ ((j < i)%nat → q < p)).
Proof.
  intros Hord. destruct (SignalMinimize_covers order corpus Hord) as (js & kept & Hm & Hjs & Hk & Hnd & Hc).
  exists js, kept. split_and!; [done..|].
  intros i Hi. rewrite Hjs, elem_of_elements, elem_of_min_indices in Hi. exact Hi.
Qed.

Definition sample_corpus : list (SignalContext string) :=
  [mkSignalContext (FromRaw [1; 2] 0) "a"; mkSignalContext (FromRaw [2; 3] 1) "b";
   mkSignalContext (FromRaw [3] 1) "c"].

Lemma SignalMinimize_witness :
  (∀ l : list nat, reverse l ≡ₚ l) ∧ SignalMinimize reverse sample_corpus = Ret ["a"; "b"] ∧
  ∃ js kept, SignalMinimize reverse sample_corpus = Ret (CtxContext <$> kept) ∧
    Forall2 (λ i inp, sample_corpus !! i = Some inp) js kept.
Proof.
  split; [apply reverse_Permutation|]. split; [vm_compute; reflexivity|].
  destruct (SignalMinimize_spec reverse sample_corpus reverse_Permutation) as (js & kept & H1 & H2 & _).
  exists js, kept. split; [exact H1|exact H2].
Defined.
