(* ===== verification/Corpus.v ===== *)
(** * The corpus (src/pkg/corpus: corpus.go, prio.go, minimize.go)

    The corpus owns items, shared by pointer between the map of programs, the
    list programs are chosen from and the lists of the focus areas, and an
    item's coverage is a slice shared with the caller of [Save].  Both are
    modelled with an explicit store: items and coverage arrays have addresses,
    and [Save] overwrites the caller's array as [MergeDiff] does.  [Serialize],
    [hash.String] and [ContainsAny] are parameters. *)

From Stdlib Require Import SpecFloat.
From S2P Require Import Prelude Prog ConfigContext Signal.

(** ** Go's float64 *)

Definition fadd : spec_float → spec_float → spec_float := SFadd 53 1024.
Definition fmul : spec_float → spec_float → spec_float := SFmul 53 1024.
Definition f64 (z : Z) : spec_float := binary_normalize 53 1024 z 0 false.
(** [r.Float64()]: a 53-bit integer divided by 2^53. *)
Definition Float64 (r : rng) : spec_float * rng :=
  (SFdiv 53 1024 (f64 (hd 0 r mod 2 ^ 53)) (f64 (2 ^ 53)), tl r).

(** ** Data *)

Record ItemUpdate := mkItemUpdate { UCall : Z; URawCover : list Z }.

(** [ICover] is the address of the coverage array; [Iareas] is the nil-able
    set of focus areas, named by their position. *)
Record Item := mkItem {
  ISig : string;
  ICall : Z;
  IProg : Prog;
  IKConfuzzConfig : option KConfuzzConfigContext;
  IHasAny : bool;
  ISignal : Signal;
  ICover : nat;
  IUpdates : list ItemUpdate;
  Iareas : option (gset nat)
}.

Record NewInput := mkNewInput {
  NProg : Prog;
  NCall : Z;
  NKConfuzzConfig : option KConfuzzConfigContext;
  NSignal : Signal;
  NCover : nat;
  NRawCover : list Z
}.

Record NewItemEvent := mkNewItemEvent {
  ESig : string;
  EExists : bool;
  EProgData : list Z;
  EKConfuzzConfig : option KConfuzzConfigContext;
  ENewCover : list Z
}.

Record ProgramsList := mkProgramsList {
  progs : list Prog;
  items : list nat;
  sumPrios : Z;
  accPrios : list Z
}.

Record FocusArea := mkFocusArea {
  AName : string;
  ACoverPCs : gset Z;
  AWeight : spec_float
}.
Record focusAreaState := mkAreaState { area_of : FocusArea; area_list : ProgramsList }.

Record Corpus := mkCorpus {
  heap : list Item;
  arrays : list (list Z);
  progsMap : gmap string nat;
  csignal : Signal;
  ccover : Cover;
  updates : bool;
  sent : list NewItemEvent;
  plist : ProgramsList;
  focusAreas : list focusAreaState
}.

Definition set_heap (c : Corpus) h :=
  mkCorpus h (arrays c) (progsMap c) (csignal c) (ccover c) (updates c) (sent c) (plist c) (focusAreas c).
Definition set_arrays (c : Corpus) l :=
  mkCorpus (heap c) l (progsMap c) (csignal c) (ccover c) (updates c) (sent c) (plist c) (focusAreas c).
Definition set_progsMap (c : Corpus) m :=
  mkCorpus (heap c) (arrays c) m (csignal c) (ccover c) (updates c) (sent c) (plist c) (focusAreas c).
Definition set_totals (c : Corpus) s v :=
  mkCorpus (heap c) (arrays c) (progsMap c) s v (updates c) (sent c) (plist c) (focusAreas c).
Definition send (c : Corpus) ev :=
  mkCorpus (heap c) (arrays c) (progsMap c) (csignal c) (ccover c) (updates c) (sent c ++ [ev]) (plist c) (focusAreas c).
Definition set_lists (c : Corpus) pl areas :=
  mkCorpus (heap c) (arrays c) (progsMap c) (csignal c) (ccover c) (updates c) (sent c) pl areas.

Definition alloc_item (c : Corpus) (it : Item) : Corpus * nat :=
  (set_heap c (heap c ++ [it]), length (heap c)).
Definition alloc_array (c : Corpus) (l : list Z) : Corpus * nat :=
  (set_arrays c (arrays c ++ [l]), length (arrays c)).
(** Reading through a slice; Go's slices always point to an array. *)
Definition array (c : Corpus) (a : nat) : list Z := default [] (arrays c !! a).

Definition empty_list : ProgramsList := mkProgramsList [] [] 0 [].

Definition NewFocusedCorpus (upd : bool) (areas : list FocusArea) : Corpus :=
  mkCorpus [] [] ∅ ∅ ∅ upd [] empty_list ((λ a, mkAreaState a empty_list) <$> areas).
Definition NewMonitoredCorpus (upd : bool) : Corpus := NewFocusedCorpus upd [].
Definition NewCorpus : Corpus := NewMonitoredCorpus false.

(** ** Program lists: choice by priority *)

Definition saveProgram (pl : ProgramsList) (a : nat) (p : Prog) (signal : Signal) : ProgramsList :=
  let prio := if SignalLen signal =? 0 then 1 else SignalLen signal in
  let sum := i64 (sumPrios pl + prio) in
  mkProgramsList (progs pl ++ [p]) (items pl ++ [a]) sum (accPrios pl ++ [sum]).

Definition reaches (acc : list Z) (v : Z) (i : nat) : bool :=
  match acc !! i with Some x => v <=? x | None => true end.

Definition chooseItem (pl : ProgramsList) (r : rng) : outcome (option nat * rng) :=
  if len (items pl) =? 0 then Ret (None, r)
  else
    '(randVal, r) ← Intn (i64 (sumPrios pl + 1)) r;
    let idx := Search (length (accPrios pl)) (reaches (accPrios pl) randVal) in
    a ← index (items pl) (Z.of_nat idx);
    Ret (Some a, r).

(** ** Focus areas *)

Definition set_area_list (c : Corpus) (k : nat) (area : focusAreaState) (pl : ProgramsList) : Corpus :=
  set_lists c (plist c) (<[k := mkAreaState (area_of area) pl]> (focusAreas c)).

Definition set_item_areas (it : Item) (s : option (gset nat)) : Item :=
  mkItem (ISig it) (ICall it) (IProg it) (IKConfuzzConfig it) (IHasAny it) (ISignal it) (ICover it)
    (IUpdates it) s.

Definition area_matches (area : FocusArea) (delta : list Z) : bool :=
  existsb (λ pc, bool_decide (pc ∈ ACoverPCs area)) delta.

(** One round of the loop over the areas, for the item at [a]. *)
Definition apply_area (a : nat) (delta : list Z) (c : Corpus) (k : nat) : Corpus :=
  match focusAreas c !! k, heap c !! a with
  | Some area, Some it =>
      if area_matches (area_of area) delta then
        let c := set_area_list c k area (saveProgram (area_list area) a (IProg it) (ISignal it)) in
        match Iareas it with
        | None => set_heap c (<[a := set_item_areas it (Some {[k]})]> (heap c))
        | Some _ => c
        end
      else c
  | _, _ => c
  end.
Definition applyFocusAreas (c : Corpus) (a : nat) (delta : list Z) : Corpus :=
  foldl (apply_area a delta) c (seq 0 (length (focusAreas c))).

Section corpus.
Context (Serialize : Prog → list Z) (hash_String : list Z → string) (ContainsAny : Prog → bool).

Definition maxUpdates : Z := 32.

(** The new copy of an item that is saved again. *)
Definition updated_item (sig : string) (old : Item) (inp : NewInput) (cov : nat) : Item :=
  let upd := mkItemUpdate (NCall inp) (NRawCover inp) in
  mkItem sig (ICall old) (IProg old) None (IHasAny old)
    (SignalMerge (SignalCopy (ISignal old)) (NSignal inp)) cov
    (if len (IUpdates old) <? maxUpdates then IUpdates old ++ [upd] else IUpdates old)
    (Iareas old).
Definition fresh_item (sig : string) (inp : NewInput) : Item :=
  mkItem sig (NCall inp) (NProg inp) None (ContainsAny (NProg inp)) (NSignal inp) (NCover inp)
    [mkItemUpdate (NCall inp) (NRawCover inp)] None.

Definition save_existing (c : Corpus) (sig : string) (old : Item) (inp : NewInput) : Corpus :=
  let cov := CoverMerge (CoverMerge ∅ (array c (ICover old))) (array c (NCover inp)) in
  let '(c1, cov_addr) := alloc_array c (CoverSerialize cov) in
  let '(c2, a) := alloc_item c1 (updated_item sig old inp cov_addr) in
  applyFocusAreas (set_progsMap c2 (<[sig:=a]> (progsMap c2))) a (array c2 (NCover inp)).

Definition save_new (c : Corpus) (sig : string) (inp : NewInput) : Corpus :=
  let '(c1, a) := alloc_item c (fresh_item sig inp) in
  let c2 := applyFocusAreas (set_progsMap c1 (<[sig:=a]> (progsMap c1))) a (array c1 (NCover inp)) in
  set_lists c2 (saveProgram (plist c2) a (NProg inp) (NSignal inp)) (focusAreas c2).

(** After the branches: the totals, the caller's array (overwritten by
    MergeDiff) and the event.  [cancelled] is the branch the final [select]
    takes when the context is done; otherwise the event is delivered. *)
Definition finish_save (c : Corpus) (sig : string) (existed : bool) (progData : list Z)
    (inp : NewInput) (cancelled : bool) : Corpus :=
  let '(cov, raw, n) := MergeDiff (ccover c) (array c (NCover inp)) in
  let c1 := set_totals c (SignalMerge (csignal c) (NSignal inp)) cov in
  let c2 := set_arrays c1 (<[NCover inp := raw]> (arrays c1)) in
  if updates c2 && negb cancelled
  then send c2 (mkNewItemEvent sig existed progData None (take n raw))
  else c2.

Definition Save (c : Corpus) (inp : NewInput) (cancelled : bool) : Corpus :=
  let progData := Serialize (NProg inp) in
  let sig := hash_String progData in
  match progsMap c !! sig ≫= (λ a, heap c !! a) with
  | Some old => finish_save (save_existing c sig old inp) sig true progData inp cancelled
  | None => finish_save (save_new c sig inp) sig false progData inp cancelled
  end.
End corpus.

(** ** Reading the corpus *)

Definition item_at (c : Corpus) (sig : string) : option Item := progsMap c !! sig ≫= λ a, heap c !! a.
Definition Items (c : Corpus) : list Item := omap (λ a, heap c !! a) (values (progsMap c)).
Definition TotalSignal (c : Corpus) : Signal := SignalCopy (csignal c).
Definition TotalCover (c : Corpus) : list Z := CoverSerialize (ccover c).
Definition Programs (c : Corpus) : list Prog := progs (plist c).

Record CallCov := mkCallCov { CCCount : Z; CCCover : Cover }.
Definition call_cover_add (c : Corpus) (calls : gmap string CallCov) (it : Item) : outcome (gmap string CallCov) :=
  call ← ProgCallName (IProg it) (ICall it);
  let cc := default (mkCallCov 0 ∅) (calls !! call) in
  Ret (<[call := mkCallCov (CCCount cc + 1) (CoverMerge (CCCover cc) (array c (ICover it)))]> calls).
Fixpoint call_cover_loop (c : Corpus) (l : list Item) (calls : gmap string CallCov)
    : outcome (gmap string CallCov) :=
  match l with
  | [] => Ret calls
  | it :: l => calls ← call_cover_add c calls it; call_cover_loop c l calls
  end.
Definition CallCover (c : Corpus) : outcome (gmap string CallCov) := call_cover_loop c (Items c) ∅.

Definition ProgsPerArea (c : Corpus) : gmap string Z :=
  foldl (λ ret area, <[AName (area_of area) := len (progs (area_list area))]> ret) ∅ (focusAreas c).

(** The area loop of ChooseItem: the last area whose running sum is not above [val]. *)
Fixpoint pick_area (val currSum : spec_float) (areas : list focusAreaState)
    (acc : option focusAreaState) : option focusAreaState :=
  match areas with
  | [] => acc
  | area :: rest =>
      pick_area val (fadd currSum (AWeight (area_of area))) rest
        (if SFleb currSum val then Some area else acc)
  end.

Definition ChooseItem (c : Corpus) (r : rng) : outcome (option nat * rng) :=
  if decide (progsMap c = ∅) then Ret (None, r)
  else
    let '(randArea, r) :=
      match focusAreas c with
      | [] => (None, r)
      | _ =>
          let nonEmpty := filter (λ area, len (progs (area_list area)) ≠ 0) (focusAreas c) in
          let sum := foldl (λ s area, fadd s (AWeight (area_of area))) (f64 0) nonEmpty in
          let '(f, r) := Float64 r in
          (pick_area (fmul f sum) (f64 0) nonEmpty None, r)
      end in
    match randArea with
    | Some area => chooseItem (area_list area) r
    | None => chooseItem (plist c) r
    end.

Definition ChooseProgram (c : Corpus) (r : rng) : outcome (option Prog * rng) :=
  '(a, r) ← ChooseItem c r;
  Ret (IProg <$> (a ≫= λ a, heap c !! a), r).

(** ** Minimisation of the corpus *)

Definition input_less (x y : SignalContext (nat * Item)) : bool :=
  let first := snd (CtxContext x) in
  let second := snd (CtxContext y) in
  if eqb (IHasAny first) (IHasAny second)
  then len (Calls (IProg first)) <? len (Calls (IProg second))
  else negb (IHasAny first).

(** Re-adding one kept item to the map and the lists. *)
Definition readd_area (a : nat) (it : Item) (areas : list focusAreaState) (k : nat) : list focusAreaState :=
  match areas !! k with
  | Some area =>
      <[k := mkAreaState (area_of area) (saveProgram (area_list area) a (IProg it) (ISignal it))]> areas
  | None => areas
  end.
Definition readd (c : Corpus) (ai : nat * Item) : Corpus :=
  let '(a, it) := ai in
  let c := set_progsMap c (<[ISig it := a]> (progsMap c)) in
  let areas := foldl (readd_area a it) (focusAreas c) (elements (default ∅ (Iareas it))) in
  set_lists c (saveProgram (plist c) a (IProg it) (ISignal it)) areas.

(** [visit] is the order in which the map of programs is ranged over, [order]
    that of signal.Minimize's set of indices. *)
Definition corpus_inputs (c : Corpus) (visit : list nat) : list (SignalContext (nat * Item)) :=
  sort_by input_less
    (omap (λ a, (λ it, mkSignalContext (ISignal it) (a, it)) <$> heap c !! a) visit).
Definition reset_lists (c : Corpus) : Corpus :=
  set_lists (set_progsMap c ∅) empty_list ((λ area, mkAreaState (area_of area) empty_list) <$> focusAreas c).
Definition CorpusMinimize (visit : list nat) (order : list nat → list nat) (c : Corpus) : outcome Corpus :=
  kept ← SignalMinimize order (corpus_inputs c visit);
  Ret (foldl readd (reset_lists c) kept).
