(* ===== verification/CorpusProps.v ===== *)
(** * The corpus: invariant and correctness

    The invariant ties the shared structures of the corpus together: the map
    of programs, the list programs are drawn from, the lists of the focus
    areas and the total signal.  Saving and minimising preserve it, choosing
    relies on it. *)

From Stdlib Require Import SpecFloat.
From S2P Require Import Prelude Prog ConfigContext Signal Corpus.

(** ** Program lists *)

Definition item_prio (s : Signal) : Z := if SignalLen s =? 0 then 1 else SignalLen s.

(** Sums of priorities, strictly increasing, ending in [sumPrios]; one draw
    from [0, sumPrios] fits an int64. *)
Record pl_ok (pl : ProgramsList) : Prop := {
  pl_items : length (items pl) = length (accPrios pl);
  pl_progs : length (progs pl) = length (accPrios pl);
  pl_sorted : StronglySorted Z.lt (0 :: accPrios pl);
  pl_last : last (0 :: accPrios pl) = Some (sumPrios pl);
  pl_bound : sumPrios pl < 2 ^ 63 - 1
}.

Lemma item_prio_pos s : 0 < item_prio s.
Proof. unfold item_prio, SignalLen. case_match; lia. Qed.

Lemma pl_ok_empty : pl_ok empty_list.
Proof. by split; [..|repeat constructor| |]. Qed.

Lemma StronglySorted_last (l : list Z) x y :
  StronglySorted Z.lt (x :: l) → last (x :: l) = Some y → Forall (λ z, z ≤ y) (x :: l).
Proof.
  revert x. induction l as [|z l IH]; intros x Hs Hl.
  { simpl in Hl. simplify_eq. constructor; [lia|constructor]. }
  inversion Hs as [|?? Hs' Hx]; subst. rewrite last_cons_cons in Hl.
  specialize (IH z Hs' Hl). constructor; [|done].
  apply Forall_cons in Hx as [? _]. apply Forall_cons in IH as [? _]. lia.
Qed.

Lemma StronglySorted_snoc (l : list Z) x :
  StronglySorted Z.lt l → Forall (λ z, z < x) l → StronglySorted Z.lt (l ++ [x]).
Proof.
  induction 1 as [|y l Hl IH Hy]; intros Hx; [by repeat constructor|].
  apply Forall_cons in Hx as [Hyx Hx]. simpl. constructor; [by apply IH|].
  rewrite Forall_app. split; [done|by repeat constructor].
Qed.

Lemma sumPrios_nonneg pl : pl_ok pl → 0 ≤ sumPrios pl.
Proof.
  intros [_ _ Hs Hl _]. pose proof (StronglySorted_last _ _ _ Hs Hl) as H.
  by apply Forall_cons in H as [? _].
Qed.

Lemma saveProgram_sum pl a p s :
  pl_ok pl → sumPrios pl + item_prio s < 2 ^ 63 - 1 →
  saveProgram pl a p s =
    mkProgramsList (progs pl ++ [p]) (items pl ++ [a]) (sumPrios pl + item_prio s)
      (accPrios pl ++ [sumPrios pl + item_prio s]).
Proof.
  intros Hok Hb. unfold saveProgram. fold (item_prio s).
  pose proof (sumPrios_nonneg _ Hok). pose proof (item_prio_pos s).
  rewrite i64_id by (unfold in_i64; lia). done.
Qed.

Lemma saveProgram_ok pl a p s :
  pl_ok pl → sumPrios pl + item_prio s < 2 ^ 63 - 1 → pl_ok (saveProgram pl a p s).
Proof.
  intros Hok Hb. rewrite saveProgram_sum by done. pose proof (item_prio_pos s).
  destruct Hok as [Hi Hp Hs Hl Hbd]. split; cbn [items progs accPrios sumPrios]; [..|done].
  - rewrite !length_app. simpl. lia.
  - rewrite !length_app. simpl. lia.
  - rewrite app_comm_cons. apply StronglySorted_snoc; [done|].
    eapply Forall_impl; [by apply StronglySorted_last|]. simpl. lia.
  - rewrite app_comm_cons. apply last_snoc.
Qed.

Lemma StronglySorted_lookup_lt (l : list Z) i j x y :
  StronglySorted Z.lt l → l !! i = Some x → l !! j = Some y → (i < j)%nat → x < y.
Proof.
  intros Hs. revert i j. induction Hs as [|z l Hl IH Hz]; intros i j Hi Hj Hij; [done|].
  destruct j as [|j]; [lia|]. destruct i as [|i]; simpl in *.
  - simplify_eq. rewrite Forall_forall in Hz. apply Hz. by eapply list_elem_of_lookup_2.
  - apply (IH i j); [done|done|lia].
Qed.

Lemma Search_reaches pl v :
  pl_ok pl → items pl ≠ [] → v ≤ sumPrios pl →
  let i := Search (length (accPrios pl)) (reaches (accPrios pl) v) in
  ∃ a lo hi, items pl !! i = Some a ∧ (0 :: accPrios pl) !! i = Some lo ∧
    accPrios pl !! i = Some hi ∧ v ≤ hi ∧ (lo < v ∨ i = 0%nat).
Proof.
  intros [Hi Hp Hs Hl Hb] Hne Hv. set (acc := accPrios pl) in *.
  assert (Hmono : ∀ a b, (a ≤ b)%nat → reaches acc v a = true → reaches acc v b = true).
  { intros a b Hab. unfold reaches. destruct (acc !! b) as [y|] eqn:Hb'; [|done].
    assert (a < length acc)%nat as [x Hx]%lookup_lt_is_Some by (apply lookup_lt_Some in Hb'; lia).
    rewrite Hx. destruct (decide (a = b)) as [->|]; [naive_solver lia|].
    assert (x < y); [|lia]. apply (StronglySorted_lookup_lt (0 :: acc) (S a) (S b)); [done..|lia]. }
  destruct (Search_spec (length acc) (reaches acc v) Hmono) as (Hle & Hbelow & Hat). cbn zeta.
  set (i := Search _ _) in *.
  assert (Hlen : (0 < length acc)%nat) by (rewrite <-Hi; destruct (items pl); [done|simpl; lia]).
  assert (Hlt : (i < length acc)%nat).
  { destruct (decide (i < length acc)%nat) as [|Hge]; [done|exfalso].
    specialize (Hbelow (pred (length acc)) ltac:(lia)). unfold reaches in Hbelow.
    destruct (last acc) as [y|] eqn:Hy; [|apply last_None in Hy; rewrite Hy in Hlen; simpl in Hlen; lia].
    rewrite last_lookup in Hy. rewrite Hy in Hbelow.
    rewrite last_cons, last_lookup, Hy in Hl. simplify_eq. lia. }
  destruct (lookup_lt_is_Some_2 acc i Hlt) as [hi Hhi].
  destruct (lookup_lt_is_Some_2 (items pl) i ltac:(lia)) as [a Ha].
  destruct (lookup_lt_is_Some_2 (0 :: acc) i ltac:(simpl; lia)) as [lo Hlo].
  exists a, lo, hi. specialize (Hat Hlt). unfold reaches in Hat. rewrite Hhi in Hat.
  split_and!; [done..|lia|]. destruct i as [|i]; [by right|left]. simpl in Hlo.
  specialize (Hbelow i ltac:(lia)). unfold reaches in Hbelow. rewrite Hlo in Hbelow. lia.
Qed.

Lemma chooseItem_search pl r v :
  pl_ok pl → items pl ≠ [] → v = hd 0 r mod (sumPrios pl + 1) →
  let i := Search (length (accPrios pl)) (reaches (accPrios pl) v) in
  ∃ a lo hi, chooseItem pl r = Ret (Some a, tl r) ∧ items pl !! i = Some a ∧
    (0 :: accPrios pl) !! i = Some lo ∧ accPrios pl !! i = Some hi ∧ v ≤ hi ∧ (lo < v ∨ i = 0%nat).
Proof.
  intros Hok Hne Hdraw. pose proof (sumPrios_nonneg _ Hok). pose proof (pl_bound _ Hok).
  assert (Hv : v ≤ sumPrios pl).
  { subst v. pose proof (Z.mod_pos_bound (hd 0 r) (sumPrios pl + 1)). lia. }
  destruct (Search_reaches pl v Hok Hne Hv) as (a & lo & hi & Ha & Hrest). cbn zeta.
  exists a, lo, hi. split; [|done].
  unfold chooseItem. rewrite i64_id by (unfold in_i64; lia).
  assert ((len (items pl) =? 0) = false) as ->.
  { unfold len. destruct (items pl); [done|simpl; lia]. }
  unfold Intn. rewrite decide_True by lia. cbn [mbind outcome_bind]. rewrite <-Hdraw.
  by rewrite (index_Some _ _ a) by (rewrite ?Nat2Z.id; lia || done).
Qed.

(** Choosing from a non-empty program list succeeds, and the item chosen is
    the one whose priority interval contains the draw: item [i] is returned for
    exactly the values above the previous running sum up to its own, so its
    probability is proportional to the size of its signal. *)
Theorem chooseItem_spec pl r :
  pl_ok pl → items pl ≠ [] →
  let v := hd 0 r mod (sumPrios pl + 1) in
  ∃ i a lo hi, chooseItem pl r = Ret (Some a, tl r) ∧ items pl !! i = Some a ∧
    (0 :: accPrios pl) !! i = Some lo ∧ accPrios pl !! i = Some hi ∧
    v ≤ hi ∧ (lo < v ∨ i = 0%nat) ∧
    ∀ i' lo' hi', (0 :: accPrios pl) !! i' = Some lo' → accPrios pl !! i' = Some hi' →
      lo' < v ≤ hi' → i' = i.
Proof.
  intros Hok Hne v.
  destruct (chooseItem_search pl r v Hok Hne eq_refl) as (a & lo & hi & Hc & Ha & Hlo & Hhi & Hvhi & Hlv).
  set (i := Search _ _) in *. exists i, a, lo, hi. split_and!; [done..|].
  intros i' lo' hi' Hlo' Hhi' [Hl Hh].
  destruct (lt_eq_lt_dec i' i) as [[Hlt| ->]|Hgt]; [exfalso|done|exfalso].
  - assert (Hle : hi' ≤ lo).
      { destruct i as [|i]; [lia|]. simpl in Hlo. destruct (decide (i' = i)) as [->|]; [naive_solver lia|].
        pose proof (StronglySorted_lookup_lt _ (S i') (S i) hi' lo (pl_sorted _ Hok) Hhi' Hlo). lia. }
      destruct Hlv; lia.
  - assert (Hle : hi ≤ lo').
      { destruct i' as [|i']; [lia|]. simpl in Hlo'. destruct (decide (i' = i)) as [->|]; [naive_solver lia|].
        pose proof (StronglySorted_lookup_lt _ (S i) (S i') hi lo' (pl_sorted _ Hok) Hhi Hlo'). lia. }
      lia.
Qed.

(** ** Items on the heap *)

(** Everything of an item but its focus areas, which are written later. *)
Definition core (it : Item) : Item := set_item_areas it None.

Lemma heap_core_lookup (h h' : list Item) a it :
  core <$> h' = core <$> h → h !! a = Some it → ∃ it', h' !! a = Some it' ∧ core it' = core it.
Proof.
  intros Heq Ha. assert (Hc : (core <$> h') !! a = Some (core it)) by (by rewrite Heq, list_lookup_fmap, Ha).
  rewrite list_lookup_fmap in Hc. destruct (h' !! a) as [it'|]; [|done]. exists it'. split; [done|]. by apply (inj Some) in Hc.
Qed.
Lemma core_Sig it it' : core it' = core it → ISig it' = ISig it.
Proof. by intros [=]. Qed.
Lemma core_Signal it it' : core it' = core it → ISignal it' = ISignal it.
Proof. by intros [=]. Qed.

(** [sig_of c a]: the signature of the item at [a]. *)
Definition sig_of (c : Corpus) (a : nat) : option string := ISig <$> heap c !! a.

Lemma sig_of_core c c' a : core <$> heap c' = core <$> heap c → sig_of c' a = sig_of c a.
Proof.
  intros Heq. unfold sig_of. destruct (heap c !! a) as [it|] eqn:E.
  - destruct (heap_core_lookup _ _ _ _ Heq E) as (it' & -> & Hc). simpl. f_equal. by apply core_Sig.
  - assert (Hlen : length (heap c') = length (heap c)).
    { apply (f_equal length) in Heq. by rewrite !length_fmap in Heq. }
    apply lookup_ge_None in E. by rewrite (proj2 (lookup_ge_None _ _)) by lia.
Qed.

(** ** The invariant *)

Definition has_room (c : Corpus) (n : Z) : Prop :=
  sumPrios (plist c) + n < 2 ^ 63 - 1 ∧
  Forall (λ ar, sumPrios (area_list ar) + n < 2 ^ 63 - 1) (focusAreas c).

Record corpus_ok (c : Corpus) : Prop := {
  ok_map sig a : progsMap c !! sig = Some a → sig_of c a = Some sig;
  ok_ub sig it : item_at c sig = Some it → sig_le (ISignal it) (csignal c);
  ok_tight e p : csignal c !! e = Some p → ∃ sig it, item_at c sig = Some it ∧ ISignal it !! e = Some p;
  ok_list : pl_ok (plist c);
  ok_areas : Forall (λ ar, pl_ok (area_list ar)) (focusAreas c);
  ok_sigs : ∃ sigs, Forall2 (λ a sig, sig_of c a = Some sig) (items (plist c)) sigs ∧ NoDup sigs ∧
    ∀ sig, sig ∈ sigs ↔ is_Some (progsMap c !! sig);
  ok_area_items : Forall (λ ar, Forall (λ a, is_Some (sig_of c a)) (items (area_list ar))) (focusAreas c)
}.

Lemma corpus_ok_new upd areas : corpus_ok (NewFocusedCorpus upd areas).
Proof.
  split; cbn.
  - intros sig a H. by rewrite lookup_empty in H.
  - intros sig it H. unfold item_at in H. cbn in H. by rewrite lookup_empty in H.
  - intros e p H. by rewrite lookup_empty in H.
  - apply pl_ok_empty.
  - apply Forall_fmap, Forall_true. intros a. apply pl_ok_empty.
  - exists []. split; [constructor|]. split; [constructor|]. intros sig. rewrite lookup_empty, elem_of_nil.
    split; [done|by intros [? ?]].
  - apply Forall_fmap, Forall_true. intros a. constructor.
Qed.

(** What applying the focus areas leaves alone, and what it adds. *)
Record area_frame (c c' : Corpus) (a : nat) (s : Signal) : Prop := {
  fr_map : progsMap c' = progsMap c;
  fr_signal : csignal c' = csignal c;
  fr_cover : ccover c' = ccover c;
  fr_arrays : arrays c' = arrays c;
  fr_list : plist c' = plist c;
  fr_updates : updates c' = updates c;
  fr_sent : sent c' = sent c;
  fr_heap : core <$> heap c' = core <$> heap c;
  fr_areas : Forall2 (λ ar ar', area_list ar' = area_list ar ∨
    ∃ p, area_list ar' = saveProgram (area_list ar) a p s) (focusAreas c) (focusAreas c')
}.

Lemma apply_areas_frame a it delta ks c c0 :
  heap c !! a = Some it → NoDup ks →
  area_frame c0 c a (ISignal it) →
  (∀ k, k ∈ ks → focusAreas c !! k = focusAreas c0 !! k) →
  area_frame c0 (foldl (apply_area a delta) c ks) a (ISignal it).
Proof.
  intros Ha Hnd Hfr Hks. revert c it Ha Hfr Hks. induction Hnd as [|k ks Hk Hnd IH]; intros c it Ha Hfr Hks; [done|].
  cbn [foldl]. unfold apply_area at 2. rewrite Ha.
  assert (Hks' : ∀ j, j ∈ ks → focusAreas c !! j = focusAreas c0 !! j) by (intros; apply Hks; by right).
  destruct (focusAreas c !! k) as [area|] eqn:Harea; [|by apply IH].
  destruct (area_matches _ _); [|by apply IH].
  set (c1 := set_area_list c k area _).
  assert (Hfr1 : area_frame c0 c1 a (ISignal it)).
  { destruct Hfr as [? ? ? ? ? ? ? ? Hareas]. split; [done..|]. cbn.
    assert (H0 : focusAreas c0 !! k = Some area) by (rewrite <-Harea, <-Hks; [done|by left]).
    rewrite <-(list_insert_id _ _ _ H0). apply Forall2_insert; [done|]. right. by eexists. }
  assert (Hks1 : ∀ j, j ∈ ks → focusAreas c1 !! j = focusAreas c0 !! j).
  { intros j Hj. cbn. rewrite list_lookup_insert_ne by (intros <-; done). by apply Hks'. }
  destruct (Iareas it) as [?|]; [by apply IH|].
  set (c2 := set_heap c1 _).
  assert (Ha2 : heap c2 !! a = Some (set_item_areas it (Some {[k]}))).
  { cbn. apply list_lookup_insert_eq. by eapply lookup_lt_Some. }
  apply (IH _ _ Ha2).
  - destruct Hfr1 as [? ? ? ? ? ? ? Hh ?]. split; [done..| |done]. cbn. rewrite list_fmap_insert.
    rewrite <-Hh. apply list_insert_id. rewrite list_lookup_fmap. change (heap c1) with (heap c). by rewrite Ha.
  - done.
Qed.

Lemma area_frame_refl c a s : area_frame c c a s.
Proof. split; try done. apply Forall2_same_length_lookup_2; [done|]. intros i x y ? ?. simplify_eq. by left. Qed.

Lemma applyFocusAreas_frame c a it delta :
  heap c !! a = Some it → area_frame c (applyFocusAreas c a delta) a (ISignal it).
Proof.
  intros Ha. apply apply_areas_frame; [done|apply NoDup_seq|apply area_frame_refl|done].
Qed.

(** ** Saving preserves the invariant *)

Lemma sig_le_size s t : sig_le s t → (size s ≤ size t)%nat.
Proof.
  intros Hle. rewrite <-!(size_dom (D:=gset Z)). apply subseteq_size. intros e.
  rewrite !elem_of_dom. intros [p Hp]. destruct (Hle e p Hp) as (q & Hq & _). eauto.
Qed.
Lemma item_prio_le s t : sig_le s t → item_prio s ≤ 1 + SignalLen t.
Proof. intros Hle%sig_le_size. unfold item_prio, SignalLen. case_match; lia. Qed.

(** The effect of saving item [it] under [sig], up to the focus areas' marks. *)
Record saved (c c' : Corpus) (sig : string) (it : Item) (S : Signal) : Prop := {
  sv_sig : ISig it = sig;
  sv_ub : sig_le (ISignal it) (SignalMerge (csignal c) S);
  sv_new : sig_le S (ISignal it);
  sv_old it0 : item_at c sig = Some it0 → sig_le (ISignal it0) (ISignal it);
  sv_map : progsMap c' = <[sig:=length (heap c)]> (progsMap c);
  sv_heap : core <$> heap c' = core <$> (heap c ++ [it]);
  sv_signal : csignal c' = SignalMerge (csignal c) S;
  sv_areas : Forall2 (λ ar ar', area_list ar' = area_list ar ∨
    ∃ p, area_list ar' = saveProgram (area_list ar) (length (heap c)) p (ISignal it))
    (focusAreas c) (focusAreas c');
  sv_list : (is_Some (progsMap c !! sig) ∧ plist c' = plist c) ∨
    (progsMap c !! sig = None ∧ ∃ p, plist c' = saveProgram (plist c) (length (heap c)) p S)
}.

Section saved.
Context c c' sig it S (Hok : corpus_ok c) (Hs : saved c c' sig it S).

Lemma saved_heap_old a it0 : heap c !! a = Some it0 → ∃ it', heap c' !! a = Some it' ∧ core it' = core it0.
Proof.
  intros Ha. eapply heap_core_lookup; [apply (sv_heap _ _ _ _ _ Hs)|].
  apply lookup_app_l_Some, Ha.
Qed.
Lemma saved_heap_new : ∃ it', heap c' !! length (heap c) = Some it' ∧ core it' = core it.
Proof.
  eapply heap_core_lookup; [apply (sv_heap _ _ _ _ _ Hs)|]. by apply list_lookup_middle.
Qed.
Lemma saved_sig_old a s : sig_of c a = Some s → sig_of c' a = Some s.
Proof.
  unfold sig_of. destruct (heap c !! a) as [it0|] eqn:Ha; [|done]. intros [= <-].
  destruct (saved_heap_old a it0 Ha) as (it' & -> & Hc). simpl. f_equal. by apply core_Sig.
Qed.
Lemma saved_sig_new : sig_of c' (length (heap c)) = Some sig.
Proof.
  destruct saved_heap_new as (it' & Hit & Hc). unfold sig_of. rewrite Hit. simpl. f_equal.
  rewrite (core_Sig _ _ Hc). apply (sv_sig _ _ _ _ _ Hs).
Qed.

Lemma saved_item_same : ∃ it', item_at c' sig = Some it' ∧ ISignal it' = ISignal it.
Proof.
  destruct saved_heap_new as (it' & Hit & Hc). exists it'. split; [|by apply core_Signal].
  unfold item_at. by rewrite (sv_map _ _ _ _ _ Hs), lookup_insert_eq.
Qed.
Lemma saved_item_other s it0 :
  s ≠ sig → item_at c s = Some it0 → ∃ it', item_at c' s = Some it' ∧ ISignal it' = ISignal it0.
Proof.
  intros Hne (a & Ha & Hit)%bind_Some. destruct (saved_heap_old a it0 Hit) as (it' & Hit' & Hc).
  exists it'. split; [|by apply core_Signal].
  unfold item_at. by rewrite (sv_map _ _ _ _ _ Hs), lookup_insert_ne, Ha.
Qed.
Lemma saved_item_inv s it' :
  item_at c' s = Some it' →
  ISignal it' = ISignal it ∨ ∃ it0, item_at c s = Some it0 ∧ ISignal it' = ISignal it0.
Proof.
  intros Hit'. destruct (decide (s = sig)) as [->|Hne].
  - destruct saved_item_same as (it1 & Hit1 & Hs1). rewrite Hit' in Hit1. simplify_eq. by left.
  - right. assert (Hm : progsMap c' !! s = progsMap c !! s) by (by rewrite (sv_map _ _ _ _ _ Hs), lookup_insert_ne).
    pose proof Hit' as Hit2. unfold item_at in Hit2. rewrite Hm in Hit2.
    apply bind_Some in Hit2 as (a & Ha & _). apply (ok_map _ Hok) in Ha as Ha'.
    unfold sig_of in Ha'. destruct (heap c !! a) as [it0|] eqn:E; [|done].
    assert (Hit0 : item_at c s = Some it0) by (unfold item_at; by rewrite Ha).
    destruct (saved_item_other s it0 Hne Hit0) as (it1 & Hit1 & Hs1).
    rewrite Hit' in Hit1. simplify_eq. eauto.
Qed.

Lemma saved_tight e p :
  csignal c' !! e = Some p → ∃ s it', item_at c' s = Some it' ∧ ISignal it' !! e = Some p.
Proof.
  intros Hp. destruct saved_item_same as (it' & Hit' & Hs').
  assert (Hub : ∀ q, ISignal it !! e = Some q → q ≤ p).
  { intros q Hq. rewrite (sv_signal _ _ _ _ _ Hs) in Hp.
    destruct (sv_ub _ _ _ _ _ Hs e q Hq) as (p' & Hp' & ?). rewrite Hp in Hp'. by simplify_eq. }
  assert (Hfrom : ∀ s0 : Signal, sig_le s0 (ISignal it) → s0 !! e = Some p → ISignal it !! e = Some p).
  { intros s0 Hle H0. destruct (Hle e p H0) as (q & Hq & ?). specialize (Hub q Hq).
    by replace p with q by lia. }
  rewrite (sv_signal _ _ _ _ _ Hs) in Hp. apply SignalMerge_inv in Hp as [Hp|Hp].
  - destruct (ok_tight _ Hok e p Hp) as (s & it0 & Hit0 & Hp0). destruct (decide (s = sig)) as [->|Hne].
    + exists sig, it'. split; [done|]. rewrite Hs'. apply (Hfrom (ISignal it0)); [|done].
      by apply (sv_old _ _ _ _ _ Hs).
    + destruct (saved_item_other s it0 Hne Hit0) as (it1 & Hit1 & Hs1). exists s, it1.
      split; [done|]. by rewrite Hs1.
  - exists sig, it'. split; [done|]. rewrite Hs'. apply (Hfrom S); [apply (sv_new _ _ _ _ _ Hs)|done].
Qed.

Context (Hroom : has_room c (1 + SignalLen (csignal c'))).

Lemma saved_prio_it : item_prio (ISignal it) ≤ 1 + SignalLen (csignal c').
Proof. apply item_prio_le. rewrite (sv_signal _ _ _ _ _ Hs). apply (sv_ub _ _ _ _ _ Hs). Qed.
Lemma saved_prio_S : item_prio S ≤ 1 + SignalLen (csignal c').
Proof. apply item_prio_le. rewrite (sv_signal _ _ _ _ _ Hs). apply SignalMerge_ub_r. Qed.

Lemma saved_list_ok : pl_ok (plist c').
Proof.
  destruct (sv_list _ _ _ _ _ Hs) as [[_ ->]|[_ [p ->]]]; [apply Hok|].
  apply saveProgram_ok; [apply Hok|]. pose proof saved_prio_S. destruct Hroom. lia.
Qed.
Lemma saved_areas_ok : Forall (λ ar, pl_ok (area_list ar)) (focusAreas c').
Proof.
  pose proof saved_prio_it as Hp. destruct Hroom as [_ Hr]. pose proof (ok_areas _ Hok) as Ha.
  apply Forall_lookup. intros k ar' Hk.
  destruct (Forall2_lookup_r _ _ _ _ _ (sv_areas _ _ _ _ _ Hs) Hk) as (ar & Har & Hor).
  rewrite Forall_lookup in Hr, Ha. specialize (Hr k ar Har). specialize (Ha k ar Har).
  destruct Hor as [->|[p ->]]; [done|]. apply saveProgram_ok; [done|lia].
Qed.
Lemma saved_area_items :
  Forall (λ ar, Forall (λ a, is_Some (sig_of c' a)) (items (area_list ar))) (focusAreas c').
Proof.
  apply Forall_lookup. intros k ar' Hk.
  destruct (Forall2_lookup_r _ _ _ _ _ (sv_areas _ _ _ _ _ Hs) Hk) as (ar & Har & Hor).
  pose proof (ok_area_items _ Hok) as Ha. rewrite Forall_lookup in Ha. specialize (Ha k ar Har).
  assert (Hl : Forall (λ a, is_Some (sig_of c' a)) (items (area_list ar))).
  { eapply Forall_impl; [exact Ha|]. intros a [s Hs']. exists s. by apply saved_sig_old. }
  destruct Hor as [->|[p ->]]; [done|]. cbn [saveProgram items]. rewrite Forall_snoc. split; [done|].
  rewrite saved_sig_new. eauto.
Qed.
Lemma saved_sigs :
  ∃ sigs, Forall2 (λ a s, sig_of c' a = Some s) (items (plist c')) sigs ∧ NoDup sigs ∧
    ∀ s, s ∈ sigs ↔ is_Some (progsMap c' !! s).
Proof.
  destruct (ok_sigs _ Hok) as (sigs & Hf & Hnd & Hin).
  assert (Hf' : Forall2 (λ a s, sig_of c' a = Some s) (items (plist c)) sigs).
  { eapply Forall2_impl; [exact Hf|]. intros a s. apply saved_sig_old. }
  rewrite (sv_map _ _ _ _ _ Hs).
  destruct (sv_list _ _ _ _ _ Hs) as [[Hex ->]|[Hnone [p ->]]].
  - exists sigs. split_and!; [done..|]. intros s. rewrite lookup_insert_is_Some', Hin. naive_solver.
  - exists (sigs ++ [sig]). cbn [saveProgram items]. split_and!.
    + apply Forall2_app; [done|]. constructor; [apply saved_sig_new|constructor].
    + apply NoDup_app. split_and!; [done| |by apply NoDup_singleton].
      intros s Hs1 ->%list_elem_of_singleton. apply Hin in Hs1 as [? ?]. congruence.
    + intros s. rewrite elem_of_app, list_elem_of_singleton, lookup_insert_is_Some', Hin. naive_solver.
Qed.

Lemma saved_ok : corpus_ok c'.
Proof.
  split.
  - intros s a. rewrite (sv_map _ _ _ _ _ Hs), lookup_insert_Some.
    intros [[<- <-]|[Hne Ha]]; [apply saved_sig_new|]. by apply saved_sig_old, (ok_map _ Hok).
  - intros s it'. rewrite (sv_signal _ _ _ _ _ Hs).
    intros [->|(it0 & Hit0 & ->)]%saved_item_inv; [apply (sv_ub _ _ _ _ _ Hs)|].
    etrans; [by apply (ok_ub _ Hok s)|apply SignalMerge_ub_l].
  - apply saved_tight.
  - apply saved_list_ok.
  - apply saved_areas_ok.
  - apply saved_sigs.
  - apply saved_area_items.
Qed.
End saved.

(** The corpus with item [it] allocated and entered under [sig]. *)
Definition with_item (c : Corpus) (arrs : list (list Z)) (it : Item) (sig : string) : Corpus :=
  set_progsMap (set_heap (set_arrays c arrs) (heap c ++ [it])) (<[sig:=length (heap c)]> (progsMap c)).

Lemma with_item_frame c arrs it sig delta :
  area_frame (with_item c arrs it sig)
    (applyFocusAreas (with_item c arrs it sig) (length (heap c)) delta) (length (heap c)) (ISignal it).
Proof. apply applyFocusAreas_frame. by apply list_lookup_middle. Qed.

(** ** What the focus areas record *)

(** The area with the item at [a] added, when the coverage touches it. *)
Definition area_with (a : nat) (p : Prog) (S : Signal) (delta : list Z) (area : focusAreaState) : focusAreaState :=
  if area_matches (area_of area) delta then mkAreaState (area_of area) (saveProgram (area_list area) a p S) else area.
(** An item remembers the first area it was added to. *)
Definition first_area (areas : list focusAreaState) (delta : list Z) (old : option (gset nat)) : option (gset nat) :=
  match old with
  | Some s => Some s
  | None => (λ x : nat * focusAreaState, {[x.1]}) <$> list_find (λ ar, area_matches (area_of ar) delta = true) areas
  end.
Lemma first_area_snoc areas delta old ar : first_area (areas ++ [ar]) delta old =
  match first_area areas delta old with Some s => Some s | None => if area_matches (area_of ar) delta then Some {[length areas]} else None end.
Proof.
  unfold first_area. destruct old; [done|]. destruct (list_find _ areas) as [[i x]|] eqn:E.
  - pose proof (list_find_app_l _ _ [ar] _ _ E) as E2. rewrite E2. done.
  - rewrite (list_find_app_r _ _ [ar] E). cbn [list_find]. destruct (area_matches (area_of ar) delta); done.
Qed.
Lemma set_item_areas_same it : set_item_areas it (Iareas it) = it.
Proof. by destruct it. Qed.
Lemma set_lists_same c : set_lists c (plist c) (focusAreas c) = c.
Proof. by destruct c. Qed.
Lemma applyFocusAreas_exact c a it delta : heap c !! a = Some it →
  applyFocusAreas c a delta = set_heap (set_lists c (plist c) (area_with a (IProg it) (ISignal it) delta <$> focusAreas c))
    (<[a := set_item_areas it (first_area (focusAreas c) delta (Iareas it))]> (heap c)).
Proof.
  intros Ha. set (f := area_with a (IProg it) (ISignal it) delta). unfold applyFocusAreas.
  assert (H : ∀ k, (k ≤ length (focusAreas c))%nat → foldl (apply_area a delta) c (seq 0 k) =
    set_heap (set_lists c (plist c) ((f <$> take k (focusAreas c)) ++ drop k (focusAreas c)))
      (<[a := set_item_areas it (first_area (take k (focusAreas c)) delta (Iareas it))]> (heap c))).
  { induction k as [|k IH]; intros Hk.
    - cbn [seq foldl]. rewrite take_0, drop_0. cbn [fmap list_fmap app]. replace (first_area [] delta (Iareas it)) with (Iareas it) by (by destruct (Iareas it)).
      rewrite set_item_areas_same, list_insert_id by done. by destruct c.
    - rewrite seq_S, foldl_app, IH by lia. cbn [foldl Nat.add]. destruct (lookup_lt_is_Some_2 (focusAreas c) k) as [ar Har]; [lia|].
      assert (Ed : drop k (focusAreas c) = ar :: drop (S k) (focusAreas c)) by (by apply drop_S).
      assert (Et : take (S k) (focusAreas c) = take k (focusAreas c) ++ [ar]) by (by apply take_S_r).
      assert (Hl : length (f <$> take k (focusAreas c)) = k) by (rewrite length_fmap, length_take; lia).
      rewrite Et, first_area_snoc, fmap_app. cbn [fmap list_fmap]. rewrite <-app_assoc. cbn [app]. rewrite (length_take_le _ k) by lia.
      unfold apply_area. cbn [focusAreas heap set_heap set_lists]. rewrite Ed, list_lookup_middle by done.
      rewrite list_lookup_insert_eq by (by eapply lookup_lt_Some). cbn [set_item_areas IProg ISignal Iareas].
      assert (Efar : f ar = if area_matches (area_of ar) delta then mkAreaState (area_of ar) (saveProgram (area_list ar) a (IProg it) (ISignal it)) else ar) by done. rewrite Efar. clear Efar.
      destruct (area_matches (area_of ar) delta); [|by destruct (first_area (take k _) delta _)]. unfold set_area_list. cbn [set_heap set_lists plist focusAreas heap].
      assert (Ei : ∀ x, <[k := x]> ((f <$> take k (focusAreas c)) ++ ar :: drop (S k) (focusAreas c)) = (f <$> take k (focusAreas c)) ++ x :: drop (S k) (focusAreas c)).
      { intros x. rewrite <-Hl at 1. rewrite <-(Nat.add_0_r (length _)). by rewrite insert_app_r. }
      rewrite Ei. destruct (first_area (take k (focusAreas c)) delta (Iareas it)) eqn:Ef; [done|]. cbn [set_heap heap]. by rewrite list_insert_insert_eq. }
  rewrite (H (length (focusAreas c)) ltac:(lia)). by rewrite firstn_all, drop_all, app_nil_r.
Qed.

Section save.
Context (Serialize : Prog → list Z) (hash_String : list Z → string) (ContainsAny : Prog → bool).
Context (c : Corpus) (inp : NewInput) (cancelled : bool).
Context (Hok : corpus_ok c) (Hcov : (NCover inp < length (arrays c))%nat).
Let sig := hash_String (Serialize (NProg inp)).
Let c' := Save Serialize hash_String ContainsAny c inp cancelled.
Let new := fresh_pcs (ccover c) (array c (NCover inp)).

(** The item stored: a fresh one, or the merged copy of the old one. *)
Let cov_list (old : Item) :=
  CoverSerialize (CoverMerge (CoverMerge ∅ (array c (ICover old))) (array c (NCover inp))).
Let stored : Item :=
  match item_at c sig with
  | Some old => updated_item sig old inp (length (arrays c))
  | None => fresh_item ContainsAny sig inp
  end.
Let arrs : list (list Z) :=
  match item_at c sig with Some old => arrays c ++ [cov_list old] | None => arrays c end.

Lemma lookup_arrs : arrs !! NCover inp = arrays c !! NCover inp.
Proof. unfold arrs. destruct (item_at c sig); [|done]. by apply lookup_app_l. Qed.

Lemma save_branches : ∃ b,
  let c1 := applyFocusAreas (with_item c arrs stored sig) (length (heap c)) (array c (NCover inp)) in
  let pl := match item_at c sig with
    | Some _ => plist c1
    | None => saveProgram (plist c1) (length (heap c)) (NProg inp) (NSignal inp)
    end in
  c' = finish_save (set_lists c1 pl (focusAreas c1)) sig b (Serialize (NProg inp)) inp cancelled ∧
  b = bool_decide (is_Some (item_at c sig)).
Proof.
  unfold c', Save. fold sig. change (progsMap c !! sig ≫= _) with (item_at c sig).
  unfold stored, arrs. destruct (item_at c sig) as [old|] eqn:E; [exists true|by exists false].
  split; [|done]. cbn zeta. f_equal. unfold save_existing. cbn [alloc_array alloc_item]. fold (cov_list old).
  change (set_progsMap _ _) with
    (with_item c (arrays c ++ [cov_list old]) (updated_item sig old inp (length (arrays c))) sig).
  assert (Ha : ∀ h, array (set_heap (set_arrays c (arrays c ++ [cov_list old])) h) (NCover inp) = array c (NCover inp)).
  { intros h. unfold array. cbn [arrays set_heap set_arrays]. by rewrite lookup_app_l. }
  rewrite Ha. by destruct (applyFocusAreas _ _ _).
Qed.

(** Both branches of Save, then the totals, the caller's array and the event. *)
Lemma save_shape : ∃ c1 b,
  area_frame (with_item c arrs stored sig) c1 (length (heap c)) (ISignal stored) ∧
  progsMap c' = progsMap c1 ∧ heap c' = heap c1 ∧ focusAreas c' = focusAreas c1 ∧
  csignal c' = SignalMerge (csignal c) (NSignal inp) ∧
  ccover c' = list_to_set (array c (NCover inp)) ∪ ccover c ∧
  arrays c' = <[NCover inp := new ++ drop (length new) (array c (NCover inp))]> arrs ∧
  plist c' = match item_at c sig with
    | Some _ => plist c
    | None => saveProgram (plist c) (length (heap c)) (NProg inp) (NSignal inp)
    end ∧
  updates c' = updates c ∧
  sent c' = (if updates c && negb cancelled
    then sent c ++ [mkNewItemEvent sig b (Serialize (NProg inp)) None new] else sent c) ∧
  b = bool_decide (is_Some (item_at c sig)).
Proof.
  destruct save_branches as (b & Hc' & Hb). cbn zeta in Hc'.
  pose proof (with_item_frame c arrs stored sig (array c (NCover inp))) as Hfr.
  set (c1 := applyFocusAreas _ _ _) in *. clearbody c1. exists c1, b. split; [done|].
  destruct Hfr as [_ Hsig Hccov Harr Hpl Hup Hsent _ _]. cbn in Hsig, Hccov, Harr, Hpl, Hup, Hsent.
  assert (Ha : ∀ pl ars, array (set_lists c1 pl ars) (NCover inp) = array c (NCover inp)).
  { intros pl ars. unfold array. cbn [arrays set_lists]. by rewrite Harr, lookup_arrs. }
  pose proof (MergeDiff_eq (ccover c) (array c (NCover inp))) as HM. cbn zeta in HM. fold new in HM.
  pose proof (take_app_length new (drop (length new) (array c (NCover inp)))) as Htake.
  rewrite Hc'. unfold finish_save. rewrite Ha. cbn [ccover set_lists]. rewrite Hccov, HM, Htake.
  cbn [updates set_arrays set_totals set_lists]. rewrite Hup.
  destruct (updates c && negb cancelled); cbn [progsMap heap focusAreas csignal ccover arrays plist sent updates
    send set_arrays set_totals set_lists]; rewrite ?Hsig, ?Hpl, ?Harr, ?Hsent; split_and!; done.
Qed.

Lemma save_items :
  heap c' = heap c ++ [set_item_areas stored (first_area (focusAreas c) (array c (NCover inp)) (Iareas stored))]
  ∧ progsMap c' = <[sig := length (heap c)]> (progsMap c)
  ∧ focusAreas c' = area_with (length (heap c)) (IProg stored) (ISignal stored) (array c (NCover inp)) <$> focusAreas c.
Proof.
  destruct save_branches as (b & Hc' & _). cbn zeta in Hc'. rewrite (applyFocusAreas_exact _ _ stored) in Hc' by (by apply list_lookup_middle).
  cbn [with_item set_progsMap set_heap set_arrays heap focusAreas progsMap plist] in Hc'. rewrite Hc'. unfold finish_save. destruct (MergeDiff _ _) as [[cov raw] n].
  assert (Ei : ∀ x, <[length (heap c) := x]> (heap c ++ [stored]) = heap c ++ [x]) by (intros x; rewrite <-(Nat.add_0_r (length _)); by rewrite insert_app_r).
  cbn [updates set_arrays set_totals set_lists set_heap]. destruct (_ && _);
    cbn [heap progsMap focusAreas send set_arrays set_totals set_lists set_heap]; rewrite Ei; done.
Qed.
Lemma save_other s : s ≠ sig → item_at c' s = item_at c s.
Proof.
  intros Hne. destruct save_items as (Hh & Hm & _). unfold item_at. rewrite Hm, lookup_insert_ne by done. destruct (progsMap c !! s) as [a|] eqn:Ea; [|done]. cbn [mbind option_bind].
  rewrite Hh. pose proof (ok_map _ Hok s a Ea) as Hs. unfold sig_of in Hs. destruct (heap c !! a) as [it|] eqn:E; [|done]. by rewrite (lookup_app_l_Some _ _ _ _ E).
Qed.

Lemma save_saved : saved c c' sig stored (NSignal inp).
Proof.
  destruct save_shape as (c1 & b & Hfr & Hm & Hh & Har & Hs & _ & _ & Hpl & _).
  destruct Hfr as [Fm _ _ _ _ _ _ Fh Fa]. split; [..|by rewrite Har| ].
  - unfold stored. by destruct (item_at c sig).
  - unfold stored. destruct (item_at c sig) as [old|] eqn:E; [|apply SignalMerge_ub_r].
    cbn [updated_item ISignal]. rewrite SignalCopy_id. apply SignalMerge_lub; [|apply SignalMerge_ub_r].
    etrans; [by apply (ok_ub _ Hok sig)|apply SignalMerge_ub_l].
  - unfold stored. destruct (item_at c sig); [apply SignalMerge_ub_r|reflexivity].
  - intros it0 H0. unfold stored. rewrite H0. cbn [updated_item ISignal]. rewrite SignalCopy_id.
    apply SignalMerge_ub_l.
  - by rewrite Hm, Fm.
  - by rewrite Hh, Fh.
  - done.
  - rewrite Hpl. destruct (item_at c sig) as [old|] eqn:E.
    + left. split; [|done]. apply bind_Some in E as (a & -> & _). eauto.
    + right. split; [|eauto]. destruct (progsMap c !! sig) as [a|] eqn:Ha; [|done].
      apply (ok_map _ Hok) in Ha as Hs'. unfold item_at, sig_of in *. rewrite Ha in E. simpl in E.
      by rewrite E in Hs'.
Qed.
End save.

(** What is stored under the signature: the item itself, and its coverage. *)
Definition stored_item (ContainsAny : Prog → bool) (sig : string) (inp : NewInput) (old : option Item) (cov : nat) (areas : option (gset nat)) : Item :=
  let upd := mkItemUpdate (NCall inp) (NRawCover inp) in
  match old with
  | Some old =>
      mkItem sig (ICall old) (IProg old) None (IHasAny old) (SignalMerge (ISignal old) (NSignal inp)) cov
        (if decide (len (IUpdates old) < 32) then IUpdates old ++ [upd] else IUpdates old) areas
  | None => mkItem sig (NCall inp) (NProg inp) None (ContainsAny (NProg inp)) (NSignal inp) cov [upd] areas
  end.
Definition stored_cover (c : Corpus) (inp : NewInput) (old : option Item) (cov : list Z) : Prop :=
  match old with
  | Some old => NoDup cov ∧ ∀ pc, pc ∈ cov ↔ pc ∈ array c (ICover old) ∨ pc ∈ array c (NCover inp)
  | None => ∃ new, cov = new ++ drop (length new) (array c (NCover inp)) ∧ ∀ pc, pc ∈ new ↔ (pc ∈ array c (NCover inp)) ∧ (pc ∉ ccover c)
  end.

Lemma elem_of_CoverMerge cov raw pc : pc ∈ CoverMerge cov raw ↔ pc ∈ cov ∨ pc ∈ raw.
Proof. revert cov. induction raw as [|x raw IH]; intros cov; cbn [CoverMerge foldl]; [set_solver|]. unfold CoverMerge in IH. rewrite IH. set_solver. Qed.

(** C28: Saving an input preserves the corpus invariant and adds its signal and
    coverage to the totals.  Under its signature there is a new item with the
    input's data, or the old item with the signal and coverage merged and the
    update noted while there are fewer than 32; the coverage of a new item is
    the input's array, which ends up with the newly covered PCs in front.
    Every other item is the same as before, and so are all coverage arrays
    except the input's.  A new program, not an old one, is entered into the list
    to choose from, and the item into every focus area the coverage touches.
    The newly covered PCs are reported unless the corpus is not monitored. *)
Theorem Save_spec Serialize hash_String ContainsAny c inp cancelled :
  corpus_ok c → (NCover inp < length (arrays c))%nat →
  has_room c (1 + SignalLen (SignalMerge (csignal c) (NSignal inp))) →
  let sig := hash_String (Serialize (NProg inp)) in
  let c' := Save Serialize hash_String ContainsAny c inp cancelled in
  corpus_ok c' ∧
  csignal c' = SignalMerge (csignal c) (NSignal inp) ∧
  ccover c' = list_to_set (array c (NCover inp)) ∪ ccover c ∧
  (∃ cov it, it = stored_item ContainsAny sig inp (item_at c sig) cov (first_area (focusAreas c) (array c (NCover inp)) (item_at c sig ≫= Iareas)) ∧
     item_at c' sig = Some it ∧ stored_cover c inp (item_at c sig) (array c' cov) ∧
     plist c' = (if decide (is_Some (item_at c sig)) then plist c else saveProgram (plist c) (length (heap c)) (NProg inp) (NSignal inp)) ∧
     focusAreas c' = area_with (length (heap c)) (IProg it) (ISignal it) (array c (NCover inp)) <$> focusAreas c) ∧
  (∀ s, s ≠ sig → item_at c' s = item_at c s) ∧
  (∀ a, (a < length (arrays c))%nat → a ≠ NCover inp → array c' a = array c a) ∧
  ∃ new, NoDup new ∧ (∀ pc, pc ∈ new ↔ (pc ∈ array c (NCover inp)) ∧ (pc ∉ ccover c)) ∧
    sent c' = if updates c && negb cancelled
      then sent c ++ [mkNewItemEvent sig (bool_decide (is_Some (item_at c sig)))
                        (Serialize (NProg inp)) None new]
      else sent c.
Proof.
  intros Hok Hcov Hroom sig c'.
  pose proof (save_saved Serialize hash_String ContainsAny c inp cancelled Hok Hcov) as Hsv.
  destruct (save_shape Serialize hash_String ContainsAny c inp cancelled Hcov)
    as (c1 & b & _ & _ & _ & _ & Hsg & Hcv & Harr & Hpl & _ & Hsent & Hb).
  destruct (save_items Serialize hash_String ContainsAny c inp cancelled Hcov) as (Hh & Hm & Har).
  fold sig in Harr, Hpl, Hh, Hm, Har. fold c' in Harr, Hpl, Hh, Hm, Har.
  split_and!; [|done|done| | | |].
  - eapply saved_ok; [done|exact Hsv|]. unfold c'. by rewrite Hsg.
  - exists (if decide (is_Some (item_at c sig)) then length (arrays c) else NCover inp). eexists. split; [reflexivity|].
    assert (Hin : item_at c' sig = heap c' !! length (heap c)) by (unfold item_at; by rewrite Hm, lookup_insert_eq). rewrite Hin, Hh, Har, Hpl, list_lookup_middle by done.
    destruct (item_at c sig) as [old|] eqn:E.
    + rewrite !decide_True by eauto. split_and!; [| |done|].
      * unfold set_item_areas, updated_item, stored_item. rewrite SignalCopy_id. unfold maxUpdates. cbn [mbind option_bind ISig ICall IProg IKConfuzzConfig IHasAny ISignal ICover IUpdates Iareas].
        destruct (Z.ltb_spec (len (IUpdates old)) 32); [rewrite decide_True by done|rewrite decide_False by lia]; done.
      * unfold stored_cover, array at 1 2. rewrite Harr, list_lookup_insert_ne by lia. rewrite list_lookup_middle by done. cbn [default]. split; [apply NoDup_elements|].
        intros pc. unfold CoverSerialize, id. rewrite elem_of_elements, !elem_of_CoverMerge. set_solver.
      * unfold updated_item, stored_item. cbn [IProg ISignal]. by rewrite SignalCopy_id.
    + rewrite !decide_False by (by intros [? ?]). split_and!; [done| |done|done]. unfold stored_cover. exists (fresh_pcs (ccover c) (array c (NCover inp))).
      split; [unfold array at 1; rewrite Harr, list_lookup_insert_eq by done; done|intros; apply elem_of_fresh_pcs].
  - by apply save_other.
  - intros a Ha Hne. unfold array. rewrite Harr, list_lookup_insert_ne by done. destruct (item_at c sig); [|done]. by rewrite lookup_app_l.
  - exists (fresh_pcs (ccover c) (array c (NCover inp))). split; [apply NoDup_fresh_pcs|].
    split; [intros; apply elem_of_fresh_pcs|]. subst b. exact Hsent.
Qed.

(** The coverage slice of a newly stored item is the caller's array, which
    Save overwrites afterwards: what the item ends up with is the newly covered
    PCs followed by the tail of the original slice, not the input's coverage. *)
Theorem Save_cover_alias Serialize hash_String ContainsAny c inp cancelled :
  corpus_ok c → (NCover inp < length (arrays c))%nat →
  let sig := hash_String (Serialize (NProg inp)) in
  let c' := Save Serialize hash_String ContainsAny c inp cancelled in
  item_at c sig = None →
  ∃ it new, item_at c' sig = Some it ∧
    array c' (ICover it) = new ++ drop (length new) (array c (NCover inp)) ∧
    (∀ pc, pc ∈ new ↔ (pc ∈ array c (NCover inp)) ∧ (pc ∉ ccover c)).
Proof.
  intros Hok Hcov sig c' Hnone.
  pose proof (save_saved Serialize hash_String ContainsAny c inp cancelled Hok Hcov) as Hsv.
  destruct (save_shape Serialize hash_String ContainsAny c inp cancelled Hcov)
    as (c1 & b & _ & _ & _ & _ & _ & _ & Harr & _). fold sig c' in Hsv, Harr.
  rewrite Hnone in Hsv, Harr.
  destruct (saved_heap_new _ _ _ _ _ Hsv) as (it & Hit & Hc).
  exists it, (fresh_pcs (ccover c) (array c (NCover inp))). split_and!; [| |intros; apply elem_of_fresh_pcs].
  - unfold item_at. by rewrite (sv_map _ _ _ _ _ Hsv), lookup_insert_eq.
  - assert (ICover it = NCover inp) as -> by (by injection Hc).
    unfold array at 1. rewrite Harr. by rewrite list_lookup_insert_eq.
Qed.

(** ** Minimisation preserves the invariant *)

Definition sum_prios (l : list Item) : Z := foldr (λ it n, item_prio (ISignal it) + n) 0 l.

Lemma sum_prios_cons it l : sum_prios (it :: l) = item_prio (ISignal it) + sum_prios l.
Proof. done. Qed.
Lemma sum_prios_app l k : sum_prios (l ++ k) = sum_prios l + sum_prios k.
Proof. induction l as [|it l IH]; simpl; lia. Qed.
Lemma sum_prios_nonneg l : 0 ≤ sum_prios l.
Proof. induction l as [|it l IH]; simpl; [lia|]. pose proof (item_prio_pos (ISignal it)). lia. Qed.
#[local] Instance sum_prios_perm : Proper ((≡ₚ) ==> (=)) sum_prios.
Proof. intros l k. induction 1; simpl; lia. Qed.
Lemma sum_prios_submseteq l k : l ⊆+ k → sum_prios l ≤ sum_prios k.
Proof.
  intros [l' Hk]%submseteq_Permutation. rewrite Hk, sum_prios_app.
  pose proof (sum_prios_nonneg l'). lia.
Qed.

(** Distinct positions of a list select a sub-multiset of it. *)
Lemma lookup_submseteq {A} (l : list A) js ks :
  Forall2 (λ i x, l !! i = Some x) js ks → NoDup js → ks ⊆+ l.
Proof.
  intros Hf Hnd. assert (Hlen : length js = length ks) by (by eapply Forall2_length).
  rewrite <-(snd_zip js ks), <-(snd_zip (seq 0 (length l)) l) by (rewrite ?length_seq; lia).
  apply fmap_submseteq, NoDup_submseteq.
  { apply (NoDup_fmap_1 fst). by rewrite fst_zip by lia. }
  intros [i x] (n & Hn)%list_elem_of_lookup. apply lookup_zip_with_Some in Hn as (i' & x' & [= <- <-] & Hi & Hx).
  assert (Hix : l !! i = Some x) by (by eapply (Forall2_lookup_lr _ _ _ _ _ _ Hf)).
  apply list_elem_of_lookup. exists i. apply lookup_zip_with_Some. exists i, x. split_and!; [done| |done].
  apply lookup_seq. split; [done|]. by eapply lookup_lt_Some.
Qed.
Lemma submseteq_NoDup {A} (l k : list A) : l ⊆+ k → NoDup k → NoDup l.
Proof. intros [l' ->]%submseteq_Permutation. by intros [? _]%NoDup_app. Qed.

Lemma readd_areas_frame a it ks areas areas0 :
  NoDup ks → (∀ k, k ∈ ks → areas !! k = areas0 !! k) →
  let R := λ ar ar', area_list ar' = area_list ar ∨
     area_list ar' = saveProgram (area_list ar) a (IProg it) (ISignal it) in
  Forall2 R areas0 areas → Forall2 R areas0 (foldl (readd_area a it) areas ks).
Proof.
  intros Hnd Hks R. revert areas Hks. induction Hnd as [|k ks Hk Hnd IH]; intros areas Hks Hf; [done|].
  cbn [foldl]. assert (Hk0 : areas !! k = areas0 !! k) by (apply Hks; by left). unfold readd_area at 2.
  destruct (areas !! k) as [ar|] eqn:E; apply IH.
  - intros j Hj. rewrite list_lookup_insert_ne by (intros <-; done). apply Hks. by right.
  - rewrite <-(list_insert_id areas0 k ar) by done. apply Forall2_insert; [done|]. by right.
  - intros j Hj. apply Hks. by right.
  - done.
Qed.

(** The state of the rebuild after the items [done] have been added back. *)
Record rebuilt (c0 c : Corpus) (l : list (nat * Item)) : Prop := {
  rb_heap : heap c = heap c0;
  rb_arrays : arrays c = arrays c0;
  rb_signal : csignal c = csignal c0;
  rb_cover : ccover c = ccover c0;
  rb_map sig a : progsMap c !! sig = Some a ↔ ∃ it, (a, it) ∈ l ∧ ISig it = sig;
  rb_items : items (plist c) = l.*1;
  rb_list : pl_ok (plist c);
  rb_sum : sumPrios (plist c) ≤ sum_prios l.*2;
  rb_areas : Forall (λ ar, pl_ok (area_list ar) ∧ sumPrios (area_list ar) ≤ sum_prios l.*2 ∧
    Forall (λ a, a ∈ l.*1) (items (area_list ar))) (focusAreas c)
}.

Lemma rebuilt_reset c : rebuilt c (reset_lists c) [].
Proof.
  split; try done.
  - intros sig a. cbn. rewrite lookup_empty. split; [done|]. intros (it & []%elem_of_nil & _).
  - apply pl_ok_empty.
  - cbn. apply Forall_fmap, Forall_true. intros ar. cbn. split; [apply pl_ok_empty|]. split; [lia|constructor].
Qed.

Lemma rebuilt_readd c0 c l a it :
  rebuilt c0 c l → ISig it ∉ (ISig <$> l.*2) → sum_prios l.*2 + item_prio (ISignal it) < 2 ^ 63 - 1 →
  rebuilt c0 (readd c (a, it)) (l ++ [(a, it)]).
Proof.
  intros [Hh Ha Hs Hc Hm Hi Hl Hsum Har] Hfresh Hb. pose proof (item_prio_pos (ISignal it)).
  unfold readd. cbn [set_progsMap set_lists]. split; cbn [heap arrays csignal ccover progsMap plist focusAreas set_lists set_progsMap]; try done.
  - intros sig b. rewrite lookup_insert_Some, Hm. split.
    + intros [[<- <-]|[Hne (it' & Hin & <-)]]; [exists it|exists it']; set_solver.
    + intros (it' & [Hin|[= -> ->]%list_elem_of_singleton]%elem_of_app & <-); [right|by left].
      split; [|by exists it']. intros Heq. apply Hfresh. rewrite Heq.
      apply list_elem_of_fmap. exists it'. split; [done|]. apply list_elem_of_fmap. by exists (b, it').
  - by rewrite fmap_app, <-Hi.
  - apply saveProgram_ok; [done|lia].
  - rewrite saveProgram_sum by (done || lia). cbn [sumPrios]. rewrite fmap_app, sum_prios_app. simpl. lia.
  - apply Forall_lookup. intros k ar' Hk.
    destruct (Forall2_lookup_r _ _ _ _ _ (readd_areas_frame a it (elements (default ∅ (Iareas it)))
      (focusAreas c) (focusAreas c) (NoDup_elements _) (λ _ _, eq_refl)
      ltac:(apply Forall_Forall2_diag, Forall_true; by left)) Hk) as (ar & Hark & Hor).
    rewrite Forall_lookup in Har. destruct (Har k ar Hark) as (Hpl & Hle & Hin).
    rewrite !fmap_app, sum_prios_app. simpl.
    assert (Hin' : Forall (λ a0, a0 ∈ l.*1 ++ [a]) (items (area_list ar))).
    { eapply Forall_impl; [exact Hin|]. set_solver. }
    destruct Hor as [->| ->]; [split_and!; [done|lia|done]|].
    split_and!; [apply saveProgram_ok; [done|lia]| |].
    + rewrite saveProgram_sum by (done || lia). cbn [sumPrios]. lia.
    + cbn [saveProgram items]. rewrite Forall_snoc. split; [done|set_solver].
Qed.

Lemma rebuilt_fold c0 c l kept :
  rebuilt c0 c l → NoDup (ISig <$> (l ++ kept).*2) → sum_prios (l ++ kept).*2 < 2 ^ 63 - 1 →
  rebuilt c0 (foldl readd c kept) (l ++ kept).
Proof.
  revert c l. induction kept as [|[a it] kept IH]; intros c l Hr Hnd Hb; [by rewrite app_nil_r|].
  cbn [foldl]. rewrite cons_middle, app_assoc. apply IH; [|by rewrite <-app_assoc..].
  rewrite !fmap_app, !fmap_cons in Hnd. rewrite fmap_app, sum_prios_app, fmap_cons, sum_prios_cons in Hb. cbn [snd] in Hb.
  pose proof (sum_prios_nonneg kept.*2). apply rebuilt_readd; [done| |lia].
  apply NoDup_app in Hnd as (_ & Hnd & _). intros Hin. apply (Hnd _ Hin). by left.
Qed.

Section minimize.
Context (c : Corpus) (visit : list nat) (order : list nat → list nat).
Context (Hok : corpus_ok c) (Hvisit : visit ≡ₚ values (progsMap c)) (Horder : ∀ js, order js ≡ₚ js).

Let ctx_of (a : nat) : option (SignalContext (nat * Item)) :=
  (λ it, mkSignalContext (ISignal it) (a, it)) <$> heap c !! a.
Let ctx_sig (x : SignalContext (nat * Item)) : string := ISig (CtxContext x).2.

Lemma inputs_perm : corpus_inputs c visit ≡ₚ omap ctx_of (values (progsMap c)).
Proof. unfold corpus_inputs. rewrite sort_by_perm. fold ctx_of. by rewrite Hvisit. Qed.

Lemma elem_of_inputs x :
  x ∈ corpus_inputs c visit ↔ ∃ a it, x = mkSignalContext (ISignal it) (a, it) ∧
    heap c !! a = Some it ∧ progsMap c !! ISig it = Some a.
Proof.
  rewrite inputs_perm, list_elem_of_omap. split.
  - intros (a & (sig & Hsig)%elem_of_values & Hx). unfold ctx_of in Hx.
    destruct (heap c !! a) as [it|] eqn:E; [|done]. injection Hx as <-.
    exists a, it. split_and!; [done..|]. apply (ok_map _ Hok) in Hsig as Hs. unfold sig_of in Hs.
    rewrite E in Hs. by injection Hs as ->.
  - intros (a & it & -> & Ha & Hm). exists a. split; [apply elem_of_values; eauto|].
    unfold ctx_of. by rewrite Ha.
Qed.

Lemma inputs_sigs : NoDup (ctx_sig <$> corpus_inputs c visit).
Proof.
  rewrite inputs_perm. unfold values.
  assert (Hl : Forall (λ ka, sig_of c ka.2 = Some ka.1) (map_to_list (progsMap c))).
  { apply Forall_forall. intros [k a] Hka%elem_of_map_to_list. by apply (ok_map _ Hok). }
  assert (Heq : ctx_sig <$> omap ctx_of (map_to_list (progsMap c)).*2 = (map_to_list (progsMap c)).*1).
  { induction Hl as [|[k a] l Hka _ IH]; [done|]. rewrite !fmap_cons. cbn [omap list_omap].
    unfold sig_of in Hka. cbn [snd fst] in *. unfold ctx_of at 1.
    destruct (heap c !! a) as [it|]; [|done]. cbn. injection Hka as <-. by f_equal. }
  rewrite Heq. apply NoDup_fst_map_to_list.
Qed.

Lemma inputs_items : (snd ∘ CtxContext) <$> corpus_inputs c visit ≡ₚ Items c.
Proof.
  rewrite inputs_perm. unfold Items. generalize (values (progsMap c)) as l.
  induction l as [|a l IH]; [done|]. cbn [omap list_omap]. unfold ctx_of at 1.
  destruct (heap c !! a) as [it|]; cbn; [|done]. by constructor.
Qed.

Context (Hsum : sum_prios (Items c) < 2 ^ 63 - 1).

(** What survives: items of the corpus that still realise the total signal. *)
Lemma minimize_kept : ∃ kept, SignalMinimize order (corpus_inputs c visit) = Ret kept ∧
  NoDup (ISig <$> kept.*2) ∧ sum_prios kept.*2 < 2 ^ 63 - 1 ∧
  (∀ a it, (a, it) ∈ kept → heap c !! a = Some it ∧ progsMap c !! ISig it = Some a) ∧
  (∀ e p, csignal c !! e = Some p → ∃ a it, (a, it) ∈ kept ∧ ISignal it !! e = Some p).
Proof.
  destruct (SignalMinimize_covers order (corpus_inputs c visit) Horder)
    as (js & ks & Hm & _ & Hf & Hnd & Hcov).
  exists (CtxContext <$> ks). pose proof (lookup_submseteq _ _ _ Hf Hnd) as Hsub.
  assert (Hin : ∀ x, x ∈ ks → x ∈ corpus_inputs c visit).
  { intros x Hx. by eapply elem_of_submseteq. }
  split_and!; [done| | | |].
  - rewrite <-!list_fmap_compose. eapply submseteq_NoDup; [|apply inputs_sigs]. by apply fmap_submseteq.
  - rewrite <-list_fmap_compose. eapply Z.le_lt_trans; [|exact Hsum]. rewrite <-inputs_items.
    by apply sum_prios_submseteq, fmap_submseteq.
  - intros a it (x & Hx & Hxk)%list_elem_of_fmap.
    apply Hin, elem_of_inputs in Hxk as (a' & it' & -> & Ha & Hp). by injection Hx as -> ->.
  - intros e p Hp. destruct (ok_tight _ Hok e p Hp) as (sig & it & Hit & Hep).
    apply bind_Some in Hit as (a & Ha & Hit). apply (ok_map _ Hok) in Ha as Hs.
    unfold sig_of in Hs. rewrite Hit in Hs. injection Hs as <-.
    destruct (Hcov (mkSignalContext (ISignal it) (a, it)) e p) as (x & p' & Hx & Hp' & Hle); [|done|].
    { apply elem_of_inputs. by exists a, it. }
    pose proof (Hin x Hx) as (a' & it' & -> & Ha' & Hm')%elem_of_inputs.
    exists a', it'. split.
    { apply list_elem_of_fmap. exists (mkSignalContext (ISignal it') (a', it')). by split. }
    cbn [CtxSignal] in Hp'.
    assert (Hit' : item_at c (ISig it') = Some it') by (unfold item_at; by rewrite Hm').
    destruct (ok_ub _ Hok _ _ Hit' e p' Hp') as (q & Hq & ?). simplify_eq.
    rewrite Hp'. f_equal. lia.
Qed.

Lemma minimize_rebuilt : ∃ kept c',
  CorpusMinimize visit order c = Ret c' ∧ rebuilt c c' kept ∧ NoDup (ISig <$> kept.*2) ∧
  (∀ a it, (a, it) ∈ kept → heap c !! a = Some it ∧ progsMap c !! ISig it = Some a) ∧
  (∀ e p, csignal c !! e = Some p → ∃ a it, (a, it) ∈ kept ∧ ISignal it !! e = Some p).
Proof.
  destruct minimize_kept as (kept & Hm & Hnd & Hb & Hin & Ht).
  exists kept, (foldl readd (reset_lists c) kept). unfold CorpusMinimize. rewrite Hm.
  split; [done|]. split; [|done].
  apply (rebuilt_fold c (reset_lists c) [] kept); [apply rebuilt_reset|done..].
Qed.
End minimize.

Lemma rebuilt_ok c c' kept :
  corpus_ok c → rebuilt c c' kept → NoDup (ISig <$> kept.*2) →
  (∀ a it, (a, it) ∈ kept → heap c !! a = Some it ∧ progsMap c !! ISig it = Some a) →
  (∀ e p, csignal c !! e = Some p → ∃ a it, (a, it) ∈ kept ∧ ISignal it !! e = Some p) →
  corpus_ok c'.
Proof.
  intros Hok [Hh _ Hs _ Hm Hi Hl _ Har] Hnd Hin Ht.
  assert (Hsig : ∀ a it, (a, it) ∈ kept → sig_of c' a = Some (ISig it)).
  { intros a it [Ha _]%Hin. unfold sig_of. by rewrite Hh, Ha. }
  assert (Hat : ∀ a it, (a, it) ∈ kept → item_at c' (ISig it) = Some it).
  { intros a it Hk. unfold item_at. rewrite (proj2 (Hm (ISig it) a)) by eauto. simpl. rewrite Hh. by apply Hin. }
  split.
  - intros sig a (it & Hk & <-)%Hm. by apply Hsig.
  - intros sig it (a & (it' & Hk & <-)%Hm & Hit)%bind_Some. rewrite Hs. apply (ok_ub _ Hok (ISig it')).
    destruct (Hin _ _ Hk) as [Ha Hp]. unfold item_at. rewrite Hp. simpl. by rewrite <-Hh.
  - intros e p. rewrite Hs. intros (a & it & Hk & He)%Ht. exists (ISig it), it. split; [by eapply Hat|done].
  - done.
  - eapply Forall_impl; [exact Har|]. by intros ar [? _].
  - exists (ISig <$> kept.*2). split_and!; [|done|].
    + rewrite Hi. apply Forall2_fmap_r, Forall2_fmap. apply Forall_Forall2_diag, Forall_forall.
      intros [a it] Hk. by apply Hsig.
    + intros sig. split.
      * intros (it & -> & ([a it'] & -> & Hk)%list_elem_of_fmap)%list_elem_of_fmap. exists a. apply Hm. eauto.
      * intros [a (it & Hk & <-)%Hm]. apply list_elem_of_fmap. exists it. split; [done|].
        apply list_elem_of_fmap. by exists (a, it).
  - eapply Forall_impl; [exact Har|]. intros ar (_ & _ & Hall). eapply Forall_impl; [exact Hall|].
    intros a ([a' it] & -> & Hk)%list_elem_of_fmap. exists (ISig it). by apply Hsig.
Qed.

(** C27: Minimising the corpus succeeds, keeps only programs of the corpus, keeps
    the total signal and coverage, and preserves the invariant: in particular
    the programs that remain still reach every element of the total signal
    with its best priority. *)
Theorem CorpusMinimize_spec c visit order :
  corpus_ok c → visit ≡ₚ values (progsMap c) → (∀ js, order js ≡ₚ js) →
  sum_prios (Items c) < 2 ^ 63 - 1 →
  ∃ c', CorpusMinimize visit order c = Ret c' ∧ corpus_ok c' ∧
    progsMap c' ⊆ progsMap c ∧ heap c' = heap c ∧ csignal c' = csignal c ∧ ccover c' = ccover c ∧
    (∀ e p, csignal c !! e = Some p →
       ∃ sig it, item_at c' sig = Some it ∧ item_at c sig = Some it ∧ ISignal it !! e = Some p).
Proof.
  intros Hok Hv Ho Hsum. destruct (minimize_rebuilt c visit order Hok Hv Ho Hsum)
    as (kept & c' & Hm & Hr & Hnd & Hin & Ht).
  exists c'. pose proof (rebuilt_ok c c' kept Hok Hr Hnd Hin Ht) as Hok'.
  destruct Hr as [Hh _ Hs Hc Hmap _ _ _ _].
  assert (Hsub : progsMap c' ⊆ progsMap c).
  { apply map_subseteq_spec. intros sig a (it & Hk & <-)%Hmap. by apply Hin. }
  split_and!; [done..|]. intros e p Hp. rewrite <-Hs in Hp.
  destruct (ok_tight _ Hok' e p Hp) as (sig & it & Hit & He). exists sig, it. split_and!; [done| |done].
  unfold item_at in *. apply bind_Some in Hit as (a & Ha & Hit).
  rewrite (lookup_weaken _ _ _ _ Ha Hsub). simpl. by rewrite <-Hh.
Qed.

(** ** Every corpus the program can build *)

Section reach.
Context (Serialize : Prog → list Z) (hash_String : list Z → string) (ContainsAny : Prog → bool).

(** A new corpus, then slices allocated by callers, saves and minimisations,
    as long as the sums of priorities fit an int64. *)
Inductive corpus_reach : Corpus → Prop :=
| reach_new upd areas : corpus_reach (NewFocusedCorpus upd areas)
| reach_alloc c l : corpus_reach c → corpus_reach (alloc_array c l).1
| reach_save c inp cancelled :
    corpus_reach c → (NCover inp < length (arrays c))%nat →
    has_room c (1 + SignalLen (SignalMerge (csignal c) (NSignal inp))) →
    corpus_reach (Save Serialize hash_String ContainsAny c inp cancelled)
| reach_minimize c visit order c' :
    corpus_reach c → visit ≡ₚ values (progsMap c) → (∀ js, order js ≡ₚ js) →
    sum_prios (Items c) < 2 ^ 63 - 1 →
    CorpusMinimize visit order c = Ret c' → corpus_reach c'.

Lemma reach_ok c : corpus_reach c → corpus_ok c.
Proof.
  induction 1 as [upd areas|c l _ Hok|c inp cancelled _ Hok Hc Hr|c visit order c' _ Hok Hv Ho Hs Hm].
  - apply corpus_ok_new.
  - destruct Hok. by split.
  - eapply saved_ok; [done|by apply save_saved|].
    destruct (save_shape Serialize hash_String ContainsAny c inp cancelled Hc)
      as (? & ? & _ & _ & _ & _ & -> & _). done.
  - destruct (minimize_rebuilt c visit order Hok Hv Ho Hs) as (kept & c1 & Hm' & Hr & Hnd & Hin & Ht).
    rewrite Hm in Hm'. injection Hm' as <-. by eapply rebuilt_ok.
Qed.
End reach.

Lemma pick_area_elem val cur areas acc ar :
  pick_area val cur areas acc = Some ar → acc = Some ar ∨ ar ∈ areas.
Proof.
  revert cur acc. induction areas as [|x areas IH]; intros cur acc; cbn [pick_area]; [by left|].
  intros [H|H]%IH; [|right; by right]. destruct (SFleb _ _); [right; injection H as ->; by left|by left].
Qed.

Lemma ok_items_exist c a : corpus_ok c → a ∈ items (plist c) → is_Some (heap c !! a).
Proof.
  intros Hok (i & Hi)%list_elem_of_lookup. destruct (ok_sigs _ Hok) as (sigs & Hf & _).
  destruct (Forall2_lookup_l _ _ _ _ _ Hf Hi) as (s & _ & Hs). unfold sig_of in Hs.
  destruct (heap c !! a); [eauto|done].
Qed.
Lemma ok_items_nonempty c : corpus_ok c → progsMap c ≠ ∅ → items (plist c) ≠ [].
Proof.
  intros Hok Hne Hnil. destruct (ok_sigs _ Hok) as (sigs & Hf & _ & Hin). rewrite Hnil in Hf.
  apply Forall2_nil_inv_l in Hf as ->. apply Hne, map_empty. intros sig.
  destruct (progsMap c !! sig) as [a|] eqn:E; [|done].
  assert (Hs : sig ∈ @nil string) by (apply Hin; eauto). by apply elem_of_nil in Hs.
Qed.

(** [ChooseItem] draws from the main list or from the list of a non-empty area. *)
Lemma ChooseItem_list c r :
  progsMap c ≠ ∅ → ∃ pl r', ChooseItem c r = chooseItem pl r' ∧
    (pl = plist c ∨ ∃ ar, ar ∈ focusAreas c ∧ pl = area_list ar ∧ progs pl ≠ []).
Proof.
  intros Hne. unfold ChooseItem. rewrite decide_False by done.
  destruct (focusAreas c) as [|ar0 ars] eqn:Ear; [exists (plist c), r; eauto|]. rewrite <-Ear.
  unfold Float64. set (ne := filter _ (focusAreas c)). set (v := fmul _ _).
  destruct (pick_area v (f64 0) ne None) as [ar|] eqn:E; [|eexists _, _; eauto].
  apply pick_area_elem in E as [?|Har]; [done|]. apply list_elem_of_filter in Har as [Hl Har].
  eexists _, _. split; [done|]. right. exists ar. split_and!; [done..|].
  intros Hnil. apply Hl. by rewrite Hnil.
Qed.

(** In every corpus the program can build, choosing a program never
    panics: an empty corpus gives nothing, and otherwise the choice is an item
    on the heap, taken from the list of all programs or of a focus area. *)
Theorem ChooseItem_reach Serialize hash_String ContainsAny c r :
  corpus_reach Serialize hash_String ContainsAny c →
  ∃ oa r', ChooseItem c r = Ret (oa, r') ∧
    (oa = None ↔ progsMap c = ∅) ∧
    ∀ a, oa = Some a → is_Some (heap c !! a) ∧
      (a ∈ items (plist c) ∨ ∃ ar, ar ∈ focusAreas c ∧ a ∈ items (area_list ar)).
Proof.
  intros Hok%reach_ok. destruct (decide (progsMap c = ∅)) as [He|Hne].
  { exists None, r. unfold ChooseItem. rewrite decide_True by done. by split_and!. }
  destruct (ChooseItem_list c r Hne) as (pl & r1 & -> & Hpl).
  assert (Hplok : pl_ok pl ∧ items pl ≠ []).
  { destruct Hpl as [->|(ar & Har & -> & Hprogs)]; [split; [apply Hok|by apply ok_items_nonempty]|].
    pose proof (ok_areas _ Hok) as Ha. rewrite Forall_forall in Ha. specialize (Ha ar Har). split; [done|].
    intros Hnil. apply Hprogs. apply nil_length_inv. rewrite (pl_progs _ Ha), <-(pl_items _ Ha). by rewrite Hnil. }
  destruct Hplok as [Hplok Hnil].
  destruct (chooseItem_search pl r1 _ Hplok Hnil eq_refl) as (a & _ & _ & -> & Hi & _).
  exists (Some a), (tl r1). split; [done|]. split; [by split|]. intros ? [= <-].
  apply list_elem_of_lookup_2 in Hi. destruct Hpl as [->|(ar & Har & -> & _)].
  - split; [by apply ok_items_exist|by left].
  - split; [|right; by exists ar]. pose proof (ok_area_items _ Hok) as Ha. rewrite Forall_forall in Ha.
    specialize (Ha ar Har). rewrite Forall_forall in Ha. destruct (Ha a Hi) as [s Hs].
    unfold sig_of in Hs. destruct (heap c !! a); [eauto|done].
Qed.

(** ** A concrete corpus *)

Definition sample_save : Corpus → NewInput → bool → Corpus :=
  Save (λ p, [len (Calls p)]) (λ l, if hd 0 l =? 0 then "p0" else "p1") (λ _, false).
Definition sample_progs (n : nat) : Prog := mkProg (replicate n None) [] false.
Definition sample_input (n cov : nat) (signal : list Z) : NewInput :=
  mkNewInput (sample_progs n) 0 None (FromRaw signal 1) cov [].
Definition sample_areas : list FocusArea :=
  [mkFocusArea "a" {[1]} (f64 1); mkFocusArea "b" {[1; 2]} (f64 1)].

(** Two areas, both matched by program "p0"; "p1" then arrives with the
    already covered PC 1 and the new PC 3. *)
Definition sample_c0 : Corpus := (alloc_array (NewFocusedCorpus true sample_areas) [1; 2]).1.
Definition sample_c1 : Corpus := sample_save sample_c0 (sample_input 0 0 [10; 11]) false.
Definition sample_c2 : Corpus := (alloc_array sample_c1 [1; 3]).1.
Definition sample_p1 : NewInput := sample_input 1 1 [11; 12].
Definition sample_c3 : Corpus := sample_save sample_c2 sample_p1 false.

Lemma sample_room c n : bool_decide (sumPrios (plist c) + n < 2 ^ 63 - 1) &&
  forallb (λ ar, bool_decide (sumPrios (area_list ar) + n < 2 ^ 63 - 1)) (focusAreas c) = true → has_room c n.
Proof.
  intros [H1%bool_decide_eq_true H2]%andb_prop. split; [done|]. apply Forall_forall. intros ar Har.
  rewrite forallb_forall in H2. specialize (H2 ar (proj1 (list_elem_of_In _ _) Har)). by apply bool_decide_eq_true in H2.
Qed.
Lemma sample_c1_reach : corpus_reach (λ p, [len (Calls p)]) (λ l, if hd 0 l =? 0 then "p0" else "p1") (λ _, false) sample_c1.
Proof.
  apply reach_save; [apply reach_alloc, reach_new|vm_compute; lia|apply sample_room; vm_compute; reflexivity].
Qed.
Lemma sample_c3_reach : corpus_reach (λ p, [len (Calls p)]) (λ l, if hd 0 l =? 0 then "p0" else "p1") (λ _, false) sample_c3.
Proof.
  apply reach_save; [apply reach_alloc, sample_c1_reach|vm_compute; lia|apply sample_room; vm_compute; reflexivity].
Qed.

Lemma chooseItem_witness :
  pl_ok (plist sample_c3) ∧ items (plist sample_c3) ≠ [] ∧
  ∃ a, chooseItem (plist sample_c3) [3] = Ret (Some a, []) ∧ a = 1%nat.
Proof.
  assert (Hpl : pl_ok (plist sample_c3)) by apply (ok_list _ (reach_ok _ _ _ _ sample_c3_reach)).
  assert (Hne : items (plist sample_c3) ≠ []) by done.
  split; [exact Hpl|split; [exact Hne|]].
  destruct (chooseItem_spec (plist sample_c3) [3] Hpl Hne) as (i & a & lo & hi & Hc & _).
  exists a. split; [exact Hc|]. vm_compute in Hc. congruence.
Defined.

Lemma Save_witness :
  corpus_ok sample_c2 ∧ csignal sample_c3 = SignalMerge (csignal sample_c2) (FromRaw [11; 12] 1) ∧
  ENewCover <$> sent sample_c3 = [[1; 2]; [3]].
Proof.
  assert (Hok : corpus_ok sample_c2) by (destruct (reach_ok _ _ _ _ sample_c1_reach); by split).
  assert (Hl : (NCover sample_p1 < length (arrays sample_c2))%nat) by (vm_compute; lia).
  assert (Hr : has_room sample_c2 (1 + SignalLen (SignalMerge (csignal sample_c2) (NSignal sample_p1))))
    by (apply sample_room; vm_compute; reflexivity).
  split; [exact Hok|]. split; [|vm_compute; reflexivity].
  exact (proj1 (proj2 (Save_spec (λ p, [len (Calls p)]) (λ l, if hd 0 l =? 0 then "p0" else "p1") (λ _, false)
    sample_c2 sample_p1 false Hok Hl Hr))).
Defined.

(** The input covered PCs 1 and 3; the stored item has lost PC 1. *)
Lemma Save_cover_alias_witness :
  ∃ it, item_at sample_c3 "p1" = Some it ∧ array sample_c2 1 = [1; 3] ∧ array sample_c3 (ICover it) = [3; 3].
Proof.
  assert (Hok : corpus_ok sample_c2) by (destruct (reach_ok _ _ _ _ sample_c1_reach); by split).
  assert (Hl : (NCover sample_p1 < length (arrays sample_c2))%nat) by (vm_compute; lia).
  assert (Hn : item_at sample_c2 "p1" = None) by (vm_compute; reflexivity).
  destruct (Save_cover_alias (λ p, [len (Calls p)]) (λ l, if hd 0 l =? 0 then "p0" else "p1") (λ _, false)
    sample_c2 sample_p1 false Hok Hl Hn) as (it & new & Hit & _ & _).
  exists it. split; [exact Hit|]. split; [vm_compute; reflexivity|].
  vm_compute in Hit. injection Hit as <-. vm_compute. reflexivity.
Defined.

Lemma CorpusMinimize_witness :
  ∃ c', CorpusMinimize (values (progsMap sample_c3)) id sample_c3 = Ret c' ∧ csignal c' = csignal sample_c3.
Proof.
  assert (Hok : corpus_ok sample_c3) by apply (reach_ok _ _ _ _ sample_c3_reach).
  assert (Hs : sum_prios (Items sample_c3) < 2 ^ 63 - 1) by (vm_compute; reflexivity).
  destruct (CorpusMinimize_spec sample_c3 (values (progsMap sample_c3)) id Hok (Permutation_refl _)
    (λ js, Permutation_refl js) Hs) as (c' & Hm & _ & _ & _ & Hc & _).
  exists c'. split; [exact Hm|exact Hc].
Defined.

Lemma ChooseItem_witness :
  ∃ oa r, ChooseItem sample_c3 [0; 2] = Ret (oa, r) ∧ oa ≠ None.
Proof.
  destruct (ChooseItem_reach _ _ _ sample_c3 [0; 2] sample_c3_reach) as (oa & r & Hc & Hn & _).
  exists oa, r. split; [exact Hc|]. intros H. apply Hn in H. vm_compute in H. discriminate H.
Defined.

(** Saving puts "p0" into both areas, but records only the first on the item,
    so minimisation empties the second area although "p0" survives. *)
Lemma minimize_forgets_area :
  (λ ar, len (progs (area_list ar))) <$> focusAreas sample_c1 = [1; 1] ∧
  (λ c, ((λ ar, len (progs (area_list ar))) <$> focusAreas c, bool_decide (is_Some (item_at c "p0")))) <$>
    CorpusMinimize (values (progsMap sample_c1)) id sample_c1 = Ret ([1; 0], true).
Proof. split; vm_compute; reflexivity. Qed.
