(* ===== verification/Queues.v ===== *)
(** * Request containers (src/pkg/fuzzer/queue/queue.go, prio_queue.go)

    The queues hold pointers; they are generic in the element type here.  A
    slice slot that was set to nil is [None].  PlainQueue is refined to a
    functional queue, the binary heap behind DynamicOrder to a multiset with
    minimum extraction, RandomQueue to a bounded multiset. *)

From S2P Require Import Prelude.

(** ** PlainQueue *)

Section plain.
Context {T : Type}.

Record PlainQueue := mkPlain { queue : list (option T); pos : nat }.

Definition Plain : PlainQueue := mkPlain [] 0.
Definition PlainLen (pq : PlainQueue) : Z := len (queue pq) - Z.of_nat (pos pq).

Definition minSizeToCompact : Z := 128.

(** [copy(dst, src)] within one array: the prefix is overwritten. *)
Definition copy_prefix (src dst : list (option T)) : list (option T) := src ++ drop (length src) dst.

(** The loop that drops the last [pos] slots. *)
Fixpoint shrink (k : nat) (q : list (option T)) : list (option T) :=
  match k with
  | O => q
  | S k => shrink k (take (length q - 1) (<[(length q - 1)%nat := None]> q))
  end.

Definition compact (pq : PlainQueue) : PlainQueue :=
  mkPlain (shrink (pos pq) (copy_prefix (drop (pos pq) (queue pq)) (queue pq))) 0.

Definition PlainSubmit (pq : PlainQueue) (req : T) : PlainQueue :=
  let pq :=
    if decide (len (queue pq) / 2 < Z.of_nat (pos pq) ∧ minSizeToCompact ≤ len (queue pq))
    then compact pq else pq in
  mkPlain (queue pq ++ [Some req]) (pos pq).

(** Next under the lock; the slot read is cleared. *)
Definition nextLocked (pq : PlainQueue) : outcome (PlainQueue * option T) :=
  if decide (pos pq = length (queue pq)) then Ret (pq, None)
  else
    ret ← index (queue pq) (Z.of_nat (pos pq));
    Ret (mkPlain (<[pos pq := None]> (queue pq)) (S (pos pq)), ret).
(** [tryNext] gives up when the lock is taken. *)
Definition tryNext (locked : bool) (pq : PlainQueue) : outcome (PlainQueue * option T) :=
  if locked then Ret (pq, None) else nextLocked pq.

(** *** Refinement to a functional queue *)

(** The queue holds [l]: consumed slots are nil, the others are the elements. *)
Definition plain_is (pq : PlainQueue) (l : list T) : Prop :=
  queue pq = replicate (pos pq) None ++ (Some <$> l).

Lemma plain_is_new : plain_is Plain [].
Proof. done. Qed.

Lemma plain_is_inj pq l l' : plain_is pq l → plain_is pq l' → l = l'.
Proof. unfold plain_is. intros -> H%(app_inv_head (replicate _ _)). by apply (inj (fmap Some)) in H. Qed.

Lemma shrink_take k q : (k ≤ length q)%nat → shrink k q = take (length q - k) q.
Proof.
  revert q. induction k as [|k IH]; intros q Hk; cbn [shrink].
  { by rewrite Nat.sub_0_r, firstn_all. }
  rewrite take_insert_ge by lia. rewrite IH by (rewrite length_take; lia).
  rewrite take_take, length_take. f_equal. lia.
Qed.

Lemma compact_is pq l : plain_is pq l → (pos pq ≤ length (queue pq))%nat → plain_is (compact pq) l.
Proof.
  intros Hl Hp. unfold plain_is, compact. cbn [queue pos].
  assert (Hd : drop (pos pq) (queue pq) = Some <$> l).
  { rewrite Hl, drop_app_length'; [done|]. by rewrite length_replicate. }
  rewrite Hd. unfold copy_prefix.
  assert (Hlen : length (queue pq) = (pos pq + length l)%nat).
  { rewrite Hl, length_app, length_replicate, length_fmap. done. }
  rewrite shrink_take; rewrite length_app, length_drop, !length_fmap; [|lia].
  replace (length l + (length (queue pq) - length l) - pos pq)%nat with (length (Some <$> l))
    by (rewrite length_fmap; lia).
  by rewrite take_app_length.
Qed.

Lemma plain_is_len pq l : plain_is pq l → len (queue pq) = Z.of_nat (pos pq) + len l.
Proof. unfold plain_is, len. intros ->. rewrite length_app, length_replicate, length_fmap. lia. Qed.

Lemma PlainSubmit_is pq l x : plain_is pq l → plain_is (PlainSubmit pq x) (l ++ [x]).
Proof.
  intros Hl. pose proof (plain_is_len _ _ Hl) as Hlen. unfold PlainSubmit, len in *.
  set (pq' := if decide _ then _ else _).
  assert (Hl' : plain_is pq' l).
  { subst pq'. case_decide; [|done]. apply compact_is; [done|lia]. }
  unfold plain_is. cbn [queue pos]. rewrite Hl', fmap_app, app_assoc. done.
Qed.

Lemma nextLocked_is pq l :
  plain_is pq l → ∃ pq', nextLocked pq = Ret (pq', head l) ∧ plain_is pq' (tail l).
Proof.
  intros Hl. pose proof (plain_is_len _ _ Hl) as Hlen. unfold nextLocked, len in *. case_decide as He.
  - destruct l as [|x l]; [by exists pq|]. simpl in Hlen. lia.
  - destruct l as [|x l]; [simpl in Hlen; lia|].
    assert (Hat : queue pq !! pos pq = Some (Some x)).
    { rewrite Hl. apply list_lookup_middle. by rewrite length_replicate. }
    rewrite (index_Some _ _ (Some x)); [|lia|by rewrite Nat2Z.id]. cbn [mbind outcome_bind].
    eexists. split; [done|]. unfold plain_is. cbn [queue pos]. rewrite Hl.
    rewrite insert_app_r_alt by (by rewrite length_replicate). rewrite length_replicate, Nat.sub_diag.
    cbn [tail]. rewrite replicate_S_end, <-app_assoc. done.
Qed.

(** Operations on the queue and their results. *)
Inductive plain_op := PSubmit (x : T) | PNext | PLen.
Inductive plain_res := RUnit | RReq (r : option T) | RLen (n : Z).
Fixpoint run_plain (pq : PlainQueue) (ops : list plain_op) : outcome (list plain_res) :=
  match ops with
  | [] => Ret []
  | PSubmit x :: ops => cons RUnit <$> run_plain (PlainSubmit pq x) ops
  | PNext :: ops => '(pq, r) ← nextLocked pq; cons (RReq r) <$> run_plain pq ops
  | PLen :: ops => cons (RLen (PlainLen pq)) <$> run_plain pq ops
  end.
(** The specification: a list. *)
Fixpoint run_fifo (l : list T) (ops : list plain_op) : list plain_res :=
  match ops with
  | [] => []
  | PSubmit x :: ops => RUnit :: run_fifo (l ++ [x]) ops
  | PNext :: ops => RReq (head l) :: run_fifo (tail l) ops
  | PLen :: ops => RLen (len l) :: run_fifo l ops
  end.

Lemma run_plain_fifo pq l ops : plain_is pq l → run_plain pq ops = Ret (run_fifo l ops).
Proof.
  revert pq l. induction ops as [|[x| |] ops IH]; intros pq l Hl; cbn [run_plain run_fifo]; [done|..].
  - by rewrite (IH _ (l ++ [x])) by (by apply PlainSubmit_is).
  - destruct (nextLocked_is pq l Hl) as (pq' & -> & Hl'). cbn [mbind outcome_bind]. by rewrite (IH _ _ Hl').
  - rewrite (IH _ _ Hl). cbn. do 3 f_equal. unfold PlainLen. rewrite (plain_is_len _ _ Hl). lia.
Qed.
End plain.
Arguments PlainQueue : clear implicits.
Arguments plain_op : clear implicits.
Arguments plain_res : clear implicits.

(** C35: Every sequence of operations on a PlainQueue, across any number of
    compactions, never panics and returns what a functional FIFO queue would. *)
Theorem plain_refines {T} (ops : list (plain_op T)) : run_plain Plain ops = Ret (run_fifo [] ops).
Proof. apply run_plain_fifo, plain_is_new. Qed.

(** ** The priority queue (container/heap over a slice of items) *)

Section heap.
Context {T : Type}.

Record priorityQueueItem := mkPItem { pvalue : T; pprio : Z }.
Implicit Types l : list priorityQueueItem.

Definition Less l (i j : nat) : bool :=
  match l !! i, l !! j with Some a, Some b => pprio a <? pprio b | _, _ => false end.
Definition Swap l (i j : nat) : list priorityQueueItem :=
  match l !! i, l !! j with Some a, Some b => <[i:=b]> (<[j:=a]> l) | _, _ => l end.
Definition parent (j : nat) : nat := ((j - 1) / 2)%nat.

(** Heap.up and heap.down; each round moves to a smaller, a larger index. *)
Fixpoint heap_up (fuel : nat) l (j : nat) : list priorityQueueItem :=
  match fuel with
  | O => l
  | S fuel =>
      let i := parent j in
      if decide (i = j) then l
      else if negb (Less l j i) then l
      else heap_up fuel (Swap l i j) i
  end.
Fixpoint heap_down (fuel : nat) l (i n : nat) : list priorityQueueItem :=
  match fuel with
  | O => l
  | S fuel =>
      let j1 := (2 * i + 1)%nat in
      if decide (n ≤ j1)%nat then l
      else
        let j2 := S j1 in
        let j := if bool_decide (j2 < n)%nat && Less l j2 j1 then j2 else j1 in
        if negb (Less l j i) then l else heap_down fuel (Swap l i j) j n
  end.

Definition heap_Push l (x : priorityQueueItem) : list priorityQueueItem :=
  let l := l ++ [x] in heap_up (length l) l (length l - 1).
Definition heap_Pop l : list priorityQueueItem * option priorityQueueItem :=
  let n := (length l - 1)%nat in
  let l := heap_down n (Swap l 0 n) 0 n in
  (take n l, l !! n).

(** PriorityQueueOps. *)
Definition PQPush l (item : T) (prio : Z) : list priorityQueueItem := heap_Push l (mkPItem item prio).
Definition PQPop l : list priorityQueueItem * option T :=
  if decide (length l = 0%nat) then (l, None)
  else let '(l, x) := heap_Pop l in (l, pvalue <$> x).

(** *** Permutation and positions *)

Lemma Swap_lookup l i j k :
  (i < length l)%nat → (j < length l)%nat →
  Swap l i j !! k = l !! (if decide (k = i) then j else if decide (k = j) then i else k).
Proof.
  intros [a Ha]%lookup_lt_is_Some_2 [b Hb]%lookup_lt_is_Some_2. unfold Swap. rewrite Ha, Hb.
  pose proof (lookup_lt_Some _ _ _ Ha). pose proof (lookup_lt_Some _ _ _ Hb).
  destruct (decide (k = i)) as [->|].
  { rewrite list_lookup_insert_eq by (by rewrite length_insert). done. }
  rewrite list_lookup_insert_ne by done.
  destruct (decide (k = j)) as [->|]; [by rewrite list_lookup_insert_eq|by rewrite list_lookup_insert_ne].
Qed.
Lemma insert_Permutation_swap {A} (l : list A) i a b : l !! i = Some a → a :: <[i:=b]> l ≡ₚ b :: l.
Proof.
  intros Ha. rewrite insert_take_drop by (by eapply lookup_lt_Some).
  rewrite <-(take_drop_middle l i a Ha) at 3. rewrite <-!Permutation_middle. apply Permutation_swap.
Qed.
Lemma Swap_perm l i j : Swap l i j ≡ₚ l.
Proof.
  unfold Swap. destruct (l !! i) as [a|] eqn:Ha; [|done]. destruct (l !! j) as [b|] eqn:Hb; [|done].
  apply (Permutation_cons_inv (a:=a)).
  rewrite (insert_Permutation_swap (<[j:=a]> l) i a b).
  - by apply insert_Permutation_swap.
  - destruct (decide (i = j)) as [->|]; [|by rewrite list_lookup_insert_ne].
    rewrite list_lookup_insert_eq; [done|]. by eapply lookup_lt_Some.
Qed.
Lemma length_Swap l i j : length (Swap l i j) = length l.
Proof. by rewrite Swap_perm. Qed.
Lemma heap_up_perm fuel l j : heap_up fuel l j ≡ₚ l.
Proof.
  revert l j. induction fuel as [|fuel IH]; intros l j; cbn [heap_up]; [done|].
  case_decide; [done|]. destruct (negb _); [done|]. by rewrite IH, Swap_perm.
Qed.
Lemma heap_down_perm fuel l i n : heap_down fuel l i n ≡ₚ l.
Proof.
  revert l i. induction fuel as [|fuel IH]; intros l i; cbn [heap_down]; [done|].
  case_decide; [done|]. destruct (negb _); [done|]. by rewrite IH, Swap_perm.
Qed.

(** *** The heap order *)

(** The priority at a position. *)
Definition pr l (i : nat) : Z := default 0 (pprio <$> l !! i).
Definition heap_below (n : nat) l : Prop := ∀ i, (0 < i < n)%nat → pr l (parent i) ≤ pr l i.
Definition heap_ok l : Prop := heap_below (length l) l.

Lemma parent_lt i : (0 < i)%nat → (parent i < i)%nat.
Proof. intros. unfold parent. apply Nat.Div0.div_lt_upper_bound. lia. Qed.
Lemma parent_child i k : (0 < k)%nat → parent k = i ↔ k = (2 * i + 1)%nat ∨ k = (2 * i + 2)%nat.
Proof.
  intros Hk. unfold parent. pose proof (Nat.div_mod_eq (k - 1) 2).
  pose proof (Nat.mod_upper_bound (k - 1) 2 ltac:(lia)). lia.
Qed.
Lemma Less_pr l i j : (i < length l)%nat → (j < length l)%nat → Less l i j = (pr l i <? pr l j).
Proof. intros [a Ha]%lookup_lt_is_Some_2 [b Hb]%lookup_lt_is_Some_2. unfold Less, pr. by rewrite Ha, Hb. Qed.
Lemma pr_Swap l i j k :
  (i < length l)%nat → (j < length l)%nat →
  pr (Swap l i j) k = pr l (if decide (k = i) then j else if decide (k = j) then i else k).
Proof. intros. unfold pr. by rewrite Swap_lookup. Qed.

Lemma heap_up_ok fuel l j :
  (j < fuel)%nat → (j < length l)%nat →
  (∀ i, (0 < i < length l)%nat → i ≠ j → pr l (parent i) ≤ pr l i) →
  (∀ i, (0 < i < length l)%nat → parent i = j → (0 < j)%nat → pr l (parent j) ≤ pr l i) →
  heap_ok (heap_up fuel l j).
Proof.
  revert l j. induction fuel as [|fuel IH]; intros l j Hf Hj H1 H2; [lia|]. cbn [heap_up].
  destruct (decide (parent j = j)) as [Hroot|Hnr].
  { assert (j = 0%nat) as -> by (destruct j; [done|pose proof (parent_lt (S j)); lia]).
    intros i Hi. apply H1; lia. }
  assert (Hj0 : (0 < j)%nat) by (destruct j; [done|lia]). pose proof (parent_lt j Hj0) as Hp.
  rewrite Less_pr by lia. destruct (Z.ltb_spec (pr l j) (pr l (parent j))) as [Hlt|Hge]; cbn [negb].
  2: { intros i Hi. destruct (decide (i = j)) as [->|]; [done|by apply H1]. }
  apply IH; rewrite ?length_Swap; [lia|lia|..].
  - intros i Hi Hne. rewrite !pr_Swap by lia. pose proof (parent_lt i ltac:(lia)).
    destruct (decide (i = j)) as [->|Hij].
    + rewrite decide_True by done. rewrite decide_False by lia. lia.
    + rewrite (decide_False (P := i = parent j)) by done.
      specialize (H1 i Hi Hij). destruct (decide (parent i = parent j)) as [Heq|].
      { rewrite Heq in H1. lia. }
      destruct (decide (parent i = j)) as [Heq|]; [by apply H2|done].
  - intros i Hi Hpi Hp0. rewrite !pr_Swap by lia. pose proof (parent_lt (parent j) Hp0).
    pose proof (parent_lt i ltac:(lia)).
    rewrite (decide_False (P := parent (parent j) = parent j)) by lia.
    rewrite (decide_False (P := parent (parent j) = j)) by lia.
    rewrite (decide_False (P := i = parent j)) by lia.
    pose proof (H1 (parent j) ltac:(lia) ltac:(lia)) as Hq.
    destruct (decide (i = j)); [done|]. specialize (H1 i Hi ltac:(done)). rewrite Hpi in H1. lia.
Qed.

Lemma heap_down_ok fuel l i n :
  (n ≤ i + fuel)%nat → (n ≤ length l)%nat →
  (∀ k, (0 < k < n)%nat → parent k ≠ i → pr l (parent k) ≤ pr l k) →
  (∀ k, (0 < k < n)%nat → parent k = i → (0 < i)%nat → pr l (parent i) ≤ pr l k) →
  heap_below n (heap_down fuel l i n).
Proof.
  revert l i. induction fuel as [|fuel IH]; intros l i Hf Hn H1 H2.
  { cbn [heap_down]. intros k Hk. apply H1; [done|]. pose proof (parent_lt k ltac:(lia)). lia. }
  cbn [heap_down]. destruct (decide (n ≤ 2 * i + 1)%nat) as [Hleaf|Hin].
  { intros k Hk. apply H1; [done|]. intros Hpk%parent_child; lia. }
  set (j1 := (2 * i + 1)%nat) in *. set (j := if bool_decide _ && _ then S j1 else j1).
  assert (Hj : (j = j1 ∨ j = S j1) ∧ (j < n)%nat ∧ (∀ k, (0 < k < n)%nat → parent k = i → pr l j ≤ pr l k)).
  { subst j. destruct (bool_decide (S j1 < n)%nat) eqn:E; [apply bool_decide_eq_true in E|apply bool_decide_eq_false in E]; cbn [andb].
    - rewrite Less_pr by lia. destruct (Z.ltb_spec (pr l (S j1)) (pr l j1)); (split_and!; [auto|lia|]);
        intros k Hk [->| ->]%parent_child; try lia; try (fold j1; lia);
        replace (2 * i + 2)%nat with (S j1) by lia; lia.
    - split_and!; [auto|lia|]. intros k Hk [->| ->]%parent_child; [fold j1; lia|lia|lia]. }
  destruct Hj as (Hjj & Hjn & Hmin).
  assert (Hpj : parent j = i) by (apply parent_child; lia).
  rewrite Less_pr by lia. destruct (Z.ltb_spec (pr l j) (pr l i)) as [Hlt|Hge]; cbn [negb].
  2: { intros k Hk. destruct (decide (parent k = i)) as [Hpk|]; [|by apply H1].
       rewrite Hpk. specialize (Hmin k Hk Hpk). lia. }
  apply IH; rewrite ?length_Swap; [lia|lia|..].
  - intros k Hk Hpk. rewrite !pr_Swap by lia. pose proof (parent_lt k ltac:(lia)).
    destruct (decide (parent k = i)) as [Hpi|Hpi].
    + rewrite (decide_False (P := k = i)) by lia. destruct (decide (k = j)); [lia|].
      by apply Hmin.
    + rewrite (decide_False (P := parent k = j)) by done.
      destruct (decide (k = i)) as [->|Hki].
      * apply H2; [lia|done|lia].
      * destruct (decide (k = j)) as [->|]; [done|]. by apply H1.
  - intros k Hk Hpk Hj0. pose proof (parent_lt k ltac:(lia)). rewrite !pr_Swap by lia. rewrite Hpj.
    rewrite decide_True by done. rewrite (decide_False (P := k = i)) by lia. rewrite decide_False by lia.
    rewrite <-Hpk. apply H1; [done|lia].
Qed.

Lemma heap_down_above fuel l i n k :
  (n ≤ length l)%nat → (i < n)%nat → (n ≤ k)%nat → heap_down fuel l i n !! k = l !! k.
Proof.
  revert l i. induction fuel as [|fuel IH]; intros l i Hn Hi Hk; cbn [heap_down]; [done|].
  destruct (decide (n ≤ 2 * i + 1)%nat); [done|]. set (j := if _ && _ then _ else _).
  assert (Hj : (j < n)%nat).
  { subst j. destruct (bool_decide (S (2 * i + 1) < n)%nat) eqn:E; [apply bool_decide_eq_true in E|]; cbn [andb]; [|lia].
    destruct (Less _ _ _); lia. }
  destruct (negb _); [done|]. rewrite IH; rewrite ?length_Swap; [|lia..].
  rewrite Swap_lookup by lia. by rewrite !decide_False by lia.
Qed.

Lemma heap_root_min n l i : heap_below n l → (i < n)%nat → pr l 0 ≤ pr l i.
Proof.
  intros Hh. induction i as [i IH] using lt_wf_ind. intros Hi. destruct i as [|i]; [lia|].
  pose proof (parent_lt (S i) ltac:(lia)). specialize (IH (parent (S i)) ltac:(lia) ltac:(lia)).
  specialize (Hh (S i) ltac:(lia)). lia.
Qed.

Lemma pr_take n l i : (i < n)%nat → pr (take n l) i = pr l i.
Proof. intros. unfold pr. by rewrite lookup_take_lt. Qed.
Lemma pr_app_l l k i : (i < length l)%nat → pr (l ++ k) i = pr l i.
Proof. intros. unfold pr. by rewrite lookup_app_l. Qed.

Lemma heap_Push_spec l x : heap_ok l → heap_ok (heap_Push l x) ∧ heap_Push l x ≡ₚ x :: l.
Proof.
  intros Hl. unfold heap_Push. split.
  - assert (Hlen : (length (l ++ [x]) - 1 = length l)%nat) by (rewrite length_app; simpl; lia).
    rewrite Hlen. apply heap_up_ok; rewrite ?length_app; simpl; [lia|lia|..].
    + intros i Hi Hne. pose proof (parent_lt i ltac:(lia)). rewrite !pr_app_l by lia. apply Hl. lia.
    + intros i Hi Hpi. pose proof (parent_lt i ltac:(lia)). lia.
  - rewrite heap_up_perm. by rewrite Permutation_app_comm.
Qed.

Lemma heap_Pop_spec l :
  heap_ok l → l ≠ [] →
  ∃ x rest, heap_Pop l = (rest, Some x) ∧ heap_ok rest ∧ x :: rest ≡ₚ l ∧ ∀ y, y ∈ l → pprio x ≤ pprio y.
Proof.
  intros Hl Hne. assert (Hpos : (0 < length l)%nat) by (destruct l; [done|simpl; lia]).
  unfold heap_Pop. set (n := (length l - 1)%nat). set (l1 := Swap l 0 n). set (l2 := heap_down n l1 0 n).
  assert (Hlen1 : length l1 = length l) by apply length_Swap.
  assert (Hperm : l2 ≡ₚ l) by (unfold l2, l1; by rewrite heap_down_perm, Swap_perm).
  assert (Hlen2 : length l2 = length l) by (by rewrite Hperm).
  assert (Hlast : l2 !! n = l !! 0%nat).
  { assert (Hl1 : l1 !! n = l !! 0%nat).
    { unfold l1. rewrite Swap_lookup by lia. destruct (decide (n = 0%nat)) as [E|E]; [by rewrite E|]. by rewrite decide_True. }
    destruct (decide (n = 0%nat)) as [E|E]; [|unfold l2; rewrite heap_down_above; [done|lia..]].
    unfold l2. rewrite E in *. done. }
  destruct (lookup_lt_is_Some_2 l 0 Hpos) as [x Hx]. rewrite Hx in Hlast. exists x, (take n l2).
  rewrite Hlast. split_and!; [done|..].
  - intros i. rewrite length_take. intros Hi. pose proof (parent_lt i ltac:(lia)). rewrite !pr_take by lia.
    apply (heap_down_ok n l1 0 n); [lia|lia|..|lia].
    + intros k Hk Hpk. unfold l1. pose proof (parent_lt k ltac:(lia)). rewrite !pr_Swap by lia.
      rewrite !decide_False by lia. apply Hl. lia.
    + lia.
  - rewrite <-Hperm. rewrite <-(take_drop_middle l2 n x Hlast) at 2. rewrite (drop_ge l2 (S n)) by lia.
    by rewrite Permutation_app_comm.
  - intros y (i & Hi)%list_elem_of_lookup. pose proof (lookup_lt_Some _ _ _ Hi).
    pose proof (heap_root_min (length l) l i Hl ltac:(lia)) as Hmin. unfold pr in Hmin. by rewrite Hx, Hi in Hmin.
Qed.
End heap.
Arguments priorityQueueItem : clear implicits.

(** ** DynamicOrder: nested queues by priority *)

Section dynamic.
Context {T : Type}.

Record DynamicOrderer := mkDyn { currPrio : Z; ops : list (priorityQueueItem T) }.
Definition DynamicOrder : DynamicOrderer := mkDyn 0 [].
(** [Append] hands out an executor that submits with the new priority. *)
Definition DynAppend (d : DynamicOrderer) : DynamicOrderer * Z :=
  (mkDyn (currPrio d + 1) (ops d), currPrio d + 1).
Definition DynSubmit (d : DynamicOrderer) (req : T) (prio : Z) : DynamicOrderer :=
  mkDyn (currPrio d) (PQPush (ops d) req prio).
Definition DynNext (d : DynamicOrderer) : DynamicOrderer * option T :=
  let '(l, r) := PQPop (ops d) in (mkDyn (currPrio d) l, r).

(** The requests waiting, with the priority of the executor they came from,
    and the executors handed out so far, in order. *)
Inductive dyn_run : DynamicOrderer → list (priorityQueueItem T) → list Z → Prop :=
| dyn_new : dyn_run DynamicOrder [] []
| dyn_append d w es d' e : dyn_run d w es → DynAppend d = (d', e) → dyn_run d' w (es ++ [e])
| dyn_submit d w es req e : dyn_run d w es → e ∈ es →
    dyn_run (DynSubmit d req e) (mkPItem req e :: w) es
| dyn_next d w es d' r : dyn_run d w es → DynNext d = (d', r) → dyn_run d' (ops d') es.

Lemma PQPop_spec (l : list (priorityQueueItem T)) :
  heap_ok l →
  (l = [] ∧ PQPop l = (l, None)) ∨
  ∃ x rest, PQPop l = (rest, Some (pvalue x)) ∧ heap_ok rest ∧ x :: rest ≡ₚ l ∧
    ∀ y, y ∈ l → pprio x ≤ pprio y.
Proof.
  intros Hl. unfold PQPop. destruct (decide (length l = 0%nat)) as [H0|Hne].
  { left. by apply nil_length_inv in H0. }
  right. destruct (heap_Pop_spec l Hl) as (x & rest & -> & H); [by intros ->|].
  by exists x, rest.
Qed.

Lemma dyn_run_inv d w es :
  dyn_run d w es → heap_ok (ops d) ∧ ops d ≡ₚ w ∧ StronglySorted Z.lt es ∧ Forall (λ e, e ≤ currPrio d) es.
Proof.
  induction 1 as [|d w es d' e _ (Hh & Hp & Hs & Hb) Ha|d w es req e _ (Hh & Hp & Hs & Hb) He
                  |d w es d' r _ (Hh & Hp & Hs & Hb) Hn].
  - split_and!; [intros i Hi; simpl in Hi; lia|done|constructor|constructor].
  - injection Ha as <- <-. cbn [ops currPrio]. split_and!; [done..| |].
    + clear -Hs Hb. induction Hs as [|y l Hl IH Hy]; [by repeat constructor|].
      apply Forall_cons in Hb as [Hyb Hb]. simpl. constructor; [by apply IH|].
      rewrite Forall_snoc. split; [done|lia].
    + rewrite Forall_snoc. split; [|lia]. eapply Forall_impl; [exact Hb|]. simpl. lia.
  - cbn [DynSubmit ops currPrio]. destruct (heap_Push_spec (ops d) (mkPItem req e) Hh) as [Hh' Hp'].
    split_and!; [done| |done..]. unfold PQPush. by rewrite Hp', Hp.
  - unfold DynNext in Hn. destruct (PQPop_spec (ops d) Hh) as [[He Hq]|(x' & rest & Hq & Hh' & _)];
      rewrite Hq in Hn; injection Hn as <- <-; by split_and!.
Qed.
End dynamic.
Arguments DynamicOrderer : clear implicits.

(** C36: In every state a DynamicOrder reaches, a later executor has a larger
    priority than all earlier ones, and Next returns nil exactly when nothing
    waits and otherwise a waiting request from the earliest executor that has
    one, leaving the others. *)
Theorem dynamic_order_spec {T} (d : DynamicOrderer T) w es :
  dyn_run d w es →
  StronglySorted Z.lt (es ++ [(DynAppend d).2]) ∧
  match DynNext d with
  | (_, None) => w = []
  | (d', Some v) => ∃ x, v = pvalue x ∧ w ≡ₚ x :: ops d' ∧ dyn_run d' (ops d') es ∧
      ∀ y, y ∈ ops d' → pprio x ≤ pprio y
  end.
Proof.
  intros Hrun. destruct (dyn_run_inv _ _ _ Hrun) as (Hh & Hp & Hs & Hb). split.
  { pose proof (dyn_append d w es _ _ Hrun eq_refl) as Ha. by apply dyn_run_inv in Ha as (_ & _ & ? & _). }
  destruct (DynNext d) as [d' r] eqn:En. pose proof En as En'. unfold DynNext in En'.
  destruct (PQPop_spec (ops d) Hh) as [[He Hq]|(x & rest & Hq & Hh' & Hperm & Hmin)];
    rewrite Hq in En'; injection En' as <- <-.
  { rewrite He in Hp. by apply Permutation_nil_l in Hp. }
  assert (Hw : w ≡ₚ x :: rest) by (by rewrite <-Hp, Hperm).
  assert (Hle : ∀ y, y ∈ rest → pprio x ≤ pprio y) by (intros y Hy; apply Hmin; rewrite <-Hperm; by right).
  exists x. split_and!; [done..| |done]. by eapply dyn_next.
Qed.

Lemma dynamic_order_witness :
  ∃ d : DynamicOrderer string, dyn_run d [mkPItem "b" 2; mkPItem "a" 1] [1; 2] ∧ (DynNext d).2 = Some "a".
Proof.
  set (d1 := (DynAppend (T:=string) DynamicOrder).1). set (d2 := (DynAppend d1).1).
  set (d := DynSubmit (DynSubmit d2 "a" 1) "b" 2).
  assert (Hrun : dyn_run d [mkPItem "b" 2; mkPItem "a" 1] [1; 2]).
  { apply dyn_submit; [apply dyn_submit|]; [|set_solver..].
    apply (dyn_append d1 [] [1] d2 2); [|reflexivity].
    apply (dyn_append DynamicOrder [] [] d1 1); [apply dyn_new|reflexivity]. }
  exists d. split; [exact Hrun|].
  destruct (dynamic_order_spec d _ _ Hrun) as [_ Hn]. vm_compute. reflexivity.
Defined.

(** ** RandomQueue *)

Section random.
Context {T : Type}.

Definition RandomNext (q : list T) (r : rng) : outcome (list T * rng * option T) :=
  if decide (len q = 0) then Ret (q, r, None)
  else
    '(p, r) ← Intn (len q) r;
    item ← index q p;
    last ← index q (len q - 1);
    Ret (take (length q - 1) (<[Z.to_nat p := last]> q), r, Some item).

(** The new queue, the request evicted (its Done is called) and whether the
    submitted request was accepted. *)
Definition RandomSubmit (maxSize : Z) (q : list T) (req : T) (r : rng)
    : outcome (list T * rng * option T * bool) :=
  if decide (len q < maxSize) then Ret (q ++ [req], r, None, true)
  else
    '(p, r) ← Intn (maxSize + 1) r;
    if decide (p < len q) then
      old ← index q p;
      Ret (<[Z.to_nat p := req]> q, r, Some old, true)
    else Ret (q, r, None, false).

Lemma take_swap_last (q : list T) i x y :
  q !! i = Some x → last q = Some y → x :: take (length q - 1) (<[i:=y]> q) ≡ₚ q.
Proof.
  intros Hx (q' & ->)%last_Some. rewrite length_app. simpl. replace (length q' + 1 - 1)%nat with (length q') by lia.
  destruct (decide (i < length q')%nat) as [Hi|Hi].
  - rewrite lookup_app_l in Hx by done. rewrite insert_app_l by done.
    rewrite take_app_length' by (by rewrite length_insert).
    rewrite (insert_Permutation_swap q' i x y Hx). by rewrite Permutation_app_comm.
  - pose proof (lookup_lt_Some _ _ _ Hx) as Hlt. rewrite length_app in Hlt. simpl in Hlt.
    assert (i = length q') as -> by lia.
    rewrite list_lookup_middle in Hx by done. simplify_eq. rewrite insert_app_r_alt by lia.
    rewrite take_app_length. by rewrite Permutation_app_comm.
Qed.
End random.

(** Next on a RandomQueue removes exactly the request it returns.  Submit
    keeps the queue within its size; it accepts the request, evicting exactly
    one waiting request when the queue is full, or it drops the new request and
    leaves the queue as it was (which only happens on a full queue). *)
Theorem random_queue_spec {T} (maxSize : Z) (q : list T) (req : T) (r : rng) :
  0 ≤ maxSize → len q ≤ maxSize →
  (∃ q' r' x, RandomNext q r = Ret (q', r', x) ∧
     match x with None => q = [] ∧ q' = [] | Some x => x :: q' ≡ₚ q end) ∧
  (∃ q' r' old ok, RandomSubmit maxSize q req r = Ret (q', r', old, ok) ∧ len q' ≤ maxSize ∧
     match old, ok with
     | None, true => q' = q ++ [req] ∧ len q < maxSize
     | Some x, true => x :: q' ≡ₚ req :: q ∧ len q = maxSize
     | None, false => q' = q ∧ len q = maxSize
     | Some _, false => False
     end).
Proof.
  intros H0 Hlen. split.
  - unfold RandomNext. destruct (decide (len q = 0)) as [He|He].
    { exists q, r, None. split; [done|]. unfold len in He. assert (q = []) as -> by (by apply nil_length_inv; lia). done. }
    assert (Hpos : 0 < len q) by (unfold len in *; lia).
    destruct (Intn_Ret (len q) r Hpos) as (p & -> & Hp). cbn [mbind outcome_bind].
    destruct (index_Ret q p Hp) as (x & -> & Hx). destruct (index_Ret q (len q - 1)) as (y & -> & Hy); [lia|].
    cbn [mbind outcome_bind]. eexists _, _, (Some x). split; [done|].
    apply take_swap_last; [done|]. rewrite last_lookup. rewrite <-Hy. f_equal. unfold len. lia.
  - unfold RandomSubmit. destruct (decide (len q < maxSize)) as [Hlt|Hge].
    { eexists _, _, None, true. split; [done|]. unfold len in *. rewrite length_app. simpl. split; [lia|done]. }
    assert (Heq : len q = maxSize) by lia.
    destruct (Intn_Ret (maxSize + 1) r) as (p & -> & Hp); [lia|]. cbn [mbind outcome_bind].
    destruct (decide (p < len q)) as [Hin|Hout].
    + destruct (index_Ret q p) as (x & -> & Hx); [lia|]. cbn [mbind outcome_bind].
      eexists _, _, (Some x), true. split; [done|]. unfold len in *. rewrite length_insert. split; [lia|].
      split; [|lia]. by apply insert_Permutation_swap.
    + eexists _, _, None, false. split; [done|]. done.
Qed.

Lemma random_queue_witness :
  0 ≤ 2 ∧ len [10; 11] ≤ 2 ∧
  (∃ q' r' x, RandomNext [10; 11] [0] = Ret (q', r', x) ∧ match x with None => False | Some x => x :: q' ≡ₚ [10; 11] end).
Proof.
  assert (H0 : 0 ≤ 2) by lia. assert (Hl : len [10; 11] ≤ 2) by (vm_compute; discriminate).
  split; [exact H0|split; [exact Hl|]].
  destruct (random_queue_spec 2 [10; 11] 12 [0] H0 Hl) as [(q' & r' & x & Hn & Hx) _].
  exists q', r', x. split; [exact Hn|]. destruct x as [x|]; [exact Hx|]. destruct Hx as [Hx _]. discriminate Hx.
Defined.

(** A full queue may drop the submitted request without completing it. *)
Lemma random_queue_drops : RandomSubmit 2 ["a"; "b"] "c" [2] = Ret (["a"; "b"], [], None, false).
Proof. reflexivity. Qed.
