(* ===== verification/Requests.v ===== *)
(** * Requests and the layers around the queues
    (src/pkg/fuzzer/queue: queue.go, retry.go, distributor.go)

    Requests live in a table indexed by identity, because the layers share and
    update them.  A request's callback is the stack of closures OnDone built,
    and completing it runs the stack; the result channel may be closed only
    once.  The layers (Retry, Deduplicate, Distribute, DefaultOpts, Order,
    Alternate) sit on a [Source], the interface of the package. *)

From S2P Require Import Prelude Prog ConfigContext Queues.

(** ** Data *)

Inductive Status := Success | ExecFailure | Crashed | Restarted | Hanged.
#[export] Instance Status_eq_dec : EqDecision Status.
Proof. solve_decision. Defined.

Record ExecutorID := mkExecutor { VM : Z; Proc : Z }.

(** The parts of a result the layers look at; [clone] is the identity on them. *)
Record Result := mkResult { RStatus : Status; RExecutor : ExecutorID; ROutput : list Z; RErr : option string }.
Definition clone (r : Result) : Result := r.

Definition Stop (r : Result) : bool :=
  match RStatus r with
  | Success | Restarted => false
  | ExecFailure | Crashed | Hanged => true
  end.

Inductive RequestType := RequestTypeProgram | RequestTypeBinary | RequestTypeGlob | RequestTypeOther (n : Z).

Record ExecOpts := mkExecOpts { EnvFlags : Z; ExecFlags : Z; SandboxArg : Z }.

Definition ExecFlagCollectSignal : Z := 1.
Definition ExecFlagCollectCover : Z := 2.
Definition ExecFlagCollectComps : Z := 8.
Definition ExecEnvSandboxNone : Z := 16.
Definition ExecEnvSandboxSetuid : Z := 32.
Definition ExecEnvSandboxNamespace : Z := 64.
Definition ExecEnvSandboxAndroid : Z := 128.

(** The closures OnDone can hold: the retry layer's and a caller's, which
    decides whether the processing goes on. *)
Inductive callback := CbRetry | CbUser (f : Result → bool).

Record Request := mkRequest {
  QType : RequestType;
  QExecOpts : ExecOpts;
  QProg : option Prog;
  QActions : list KConfuzzConfigAction;
  QContext : option KConfuzzConfigContext;
  QDisabled : bool;
  QOriginSig : string;
  QBinaryFile : string;
  QGlobPattern : string;
  QReturnAllSignal : list Z;
  QImportant : bool;
  QAvoid : list ExecutorID;
  Qcallback : list callback;
  QonceCrashed : bool;
  QdelayedSince : Z;
  Qresult : option Result
}.

Definition set_callback (r : Request) (cbs : list callback) : Request :=
  mkRequest (QType r) (QExecOpts r) (QProg r) (QActions r) (QContext r) (QDisabled r) (QOriginSig r)
    (QBinaryFile r) (QGlobPattern r) (QReturnAllSignal r) (QImportant r) (QAvoid r) cbs (QonceCrashed r)
    (QdelayedSince r) (Qresult r).
Definition set_crashed (r : Request) : Request :=
  mkRequest (QType r) (QExecOpts r) (QProg r) (QActions r) (QContext r) (QDisabled r) (QOriginSig r)
    (QBinaryFile r) (QGlobPattern r) (QReturnAllSignal r) (QImportant r) (QAvoid r) (Qcallback r) true
    (QdelayedSince r) (Qresult r).
Definition set_delayed (r : Request) (seq : Z) : Request :=
  mkRequest (QType r) (QExecOpts r) (QProg r) (QActions r) (QContext r) (QDisabled r) (QOriginSig r)
    (QBinaryFile r) (QGlobPattern r) (QReturnAllSignal r) (QImportant r) (QAvoid r) (Qcallback r)
    (QonceCrashed r) seq (Qresult r).
Definition set_result (r : Request) (res : Result) : Request :=
  mkRequest (QType r) (QExecOpts r) (QProg r) (QActions r) (QContext r) (QDisabled r) (QOriginSig r)
    (QBinaryFile r) (QGlobPattern r) (QReturnAllSignal r) (QImportant r) (QAvoid r) (Qcallback r)
    (QonceCrashed r) (QdelayedSince r) (Some res).
Definition set_opts (r : Request) (o : ExecOpts) : Request :=
  mkRequest (QType r) o (QProg r) (QActions r) (QContext r) (QDisabled r) (QOriginSig r)
    (QBinaryFile r) (QGlobPattern r) (QReturnAllSignal r) (QImportant r) (QAvoid r) (Qcallback r)
    (QonceCrashed r) (QdelayedSince r) (Qresult r).

Abbreviation table := (gmap nat Request).

(** ** Validation *)

Inductive ValidateError :=
| ErrSignalNotCollected | ErrHintsExclusive | ErrNoProgram | ErrNoSandbox | ErrNoBinary | ErrNoGlob | ErrUnknownType.

Definition Validate (r : Request) : option ValidateError :=
  let exec := ExecFlags (QExecOpts r) in
  let collectSignal := 0 <? Z.land exec ExecFlagCollectSignal in
  let collectComps := 0 <? Z.land exec ExecFlagCollectComps in
  let collectCover := 0 <? Z.land exec ExecFlagCollectCover in
  if decide (len (QReturnAllSignal r) ≠ 0 ∧ collectSignal = false) then Some ErrSignalNotCollected
  else if collectComps && (collectSignal || collectCover) then Some ErrHintsExclusive
  else
    match QType r with
    | RequestTypeProgram =>
        match QProg r with
        | None => Some ErrNoProgram
        | Some _ =>
            let sandboxes := Z.lor (Z.lor (Z.lor ExecEnvSandboxNone ExecEnvSandboxSetuid)
              ExecEnvSandboxNamespace) ExecEnvSandboxAndroid in
            if Z.land (EnvFlags (QExecOpts r)) sandboxes =? 0 then Some ErrNoSandbox else None
        end
    | RequestTypeBinary => if decide (QBinaryFile r = ""%string) then Some ErrNoBinary else None
    | RequestTypeGlob => if decide (QGlobPattern r = ""%string) then Some ErrNoGlob else None
    | RequestTypeOther _ => Some ErrUnknownType
    end.

(** ** Sources *)

(** The interface wanted by the consumers: the next request, or nil.  A source
    may update requests on the way. *)
Class Source (S : Type) := SourceNext : table → S → outcome (table * S * option nat).

#[export] Instance PlainQueue_source : Source (PlainQueue nat) := λ tbl pq,
  '(pq, r) ← nextLocked pq; Ret (tbl, pq, r).

(** Order: the first source that has a request. *)
Section order.
Context {S : Type} `{!Source S}.
Fixpoint order_next (tbl : table) (sources : list S) : outcome (table * list S * option nat) :=
  match sources with
  | [] => Ret (tbl, [], None)
  | s :: rest =>
      '(tbl, s, r) ← SourceNext tbl s;
      match r with
      | Some id => Ret (tbl, s :: rest, Some id)
      | None => '(tbl, rest, r) ← order_next tbl rest; Ret (tbl, s :: rest, r)
      end
  end.
#[export] Instance Order : Source (list S) := order_next.
End order.

(** Alternate: nil on every nth call; [nth = 0] is a division by zero. *)
Record alternate (S : Type) := mkAlternate { abase : S; nth : Z; aseq : Z }.
Arguments mkAlternate {S} _ _ _.
Arguments abase {S} _.
Arguments nth {S} _.
Arguments aseq {S} _.
#[export] Instance Alternate {S} `{!Source S} : Source (alternate S) := λ tbl a,
  let seq := i64 (aseq a + 1) in
  if decide (nth a = 0) then Panic
  else if decide (Z.rem seq (nth a) = 0) then Ret (tbl, mkAlternate (abase a) (nth a) seq, None)
  else '(tbl, b, r) ← SourceNext tbl (abase a); Ret (tbl, mkAlternate b (nth a) seq, r).

(** DefaultOpts: the options are or-ed into every request. *)
Record defaultOpts (S : Type) := mkDefaultOpts { dsource : S; dopts : ExecOpts }.
Arguments mkDefaultOpts {S} _ _.
Arguments dsource {S} _.
Arguments dopts {S} _.
Definition merge_opts (o d : ExecOpts) : ExecOpts :=
  mkExecOpts (Z.lor (EnvFlags o) (EnvFlags d)) (Z.lor (ExecFlags o) (ExecFlags d)) (SandboxArg d).
#[export] Instance DefaultOpts {S} `{!Source S} : Source (defaultOpts S) := λ tbl d,
  '(tbl, s, r) ← SourceNext tbl (dsource d);
  let d' := mkDefaultOpts s (dopts d) in
  match r with
  | None => Ret (tbl, d', None)
  | Some id => Ret (alter (λ q, set_opts q (merge_opts (QExecOpts q) (dopts d))) id tbl, d', Some id)
  end.

(** ** Retry *)

Record retryer (S : Type) := mkRetryer { rpq : PlainQueue nat; rbase : S }.
Arguments mkRetryer {S} _ _.
Arguments rpq {S} _.
Arguments rbase {S} _.

(** [OnDone] pushes onto the callback stack. *)
Definition OnDone (tbl : table) (id : nat) (cb : callback) : table :=
  alter (λ r, set_callback r (cb :: Qcallback r)) id tbl.

Section retry.
Context {S : Type} `{!Source S}.

Definition Retry (base : S) : retryer S := mkRetryer Plain base.

(** [locked]: tryNext found the lock of the retry queue taken. *)
Definition RetryNext (locked : bool) (tbl : table) (rt : retryer S)
    : outcome (table * retryer S * option nat) :=
  '(pq, r) ← tryNext locked (rpq rt);
  '(tbl, b, r) ←
    match r with
    | Some id => Ret (tbl, rbase rt, Some id)
    | None => SourceNext tbl (rbase rt)
    end;
  match r with
  | Some id => Ret (OnDone tbl id CbRetry, mkRetryer pq b, Some id)
  | None => Ret (tbl, mkRetryer pq b, None)
  end.

(** The retry layer's callback: [true] lets the processing go on. *)
Definition retry_done (tbl : table) (rt : retryer S) (id : nat) (r : Request) (res : Result)
    : table * retryer S * bool :=
  match RStatus res with
  | Success | ExecFailure | Hanged => (tbl, rt, true)
  | Restarted => (tbl, mkRetryer (PlainSubmit (rpq rt) id) (rbase rt), false)
  | Crashed =>
      if QImportant r && negb (QonceCrashed r)
      then (alter set_crashed id tbl, mkRetryer (PlainSubmit (rpq rt) id) (rbase rt), false)
      else (tbl, rt, true)
  end.

(** The chain of closures: each restores the callback below it, then runs. *)
Fixpoint run_callbacks (cbs : list callback) (tbl : table) (rt : retryer S) (id : nat) (res : Result)
    : table * retryer S * bool :=
  match cbs with
  | [] => (tbl, rt, true)
  | cb :: old =>
      match tbl !! id with
      | None => (tbl, rt, false)
      | Some r =>
          let tbl := <[id := set_callback r old]> tbl in
          let '(tbl, rt, go) :=
            match cb with
            | CbRetry => retry_done tbl rt id r res
            | CbUser f => (tbl, rt, f res)
            end in
          if go then run_callbacks old tbl rt id res else (tbl, rt, false)
      end
  end.

(** [Done]: the callbacks, then the result; closing the channel twice panics.
    The flag says whether the request was completed. *)
Definition Done (tbl : table) (rt : retryer S) (id : nat) (res : Result)
    : outcome (table * retryer S * bool) :=
  match tbl !! id with
  | None => Panic
  | Some r =>
      let '(tbl, rt, go) := run_callbacks (Qcallback r) tbl rt id res in
      if go then
        match tbl !! id with
        | Some r =>
            match Qresult r with
            | Some _ => Panic
            | None => Ret (<[id := set_result r res]> tbl, rt, true)
            end
        | None => Panic
        end
      else Ret (tbl, rt, false)
  end.
End retry.

(** ** Deduplicate *)

Record duplicateState := mkDup { dup_res : option Result; dup_queued : list nat }.
Record Deduplicator (S : Type) := mkDedup { dd_source : S; mm : gmap string duplicateState }.
Arguments mkDedup {S} _ _.
Arguments dd_source {S} _.
Arguments mm {S} _.

Section dedup.
Context {S : Type} `{!Source S}.
(** [Request.hash]: a digest of the parts of the request that are executed,
    none of which a layer changes. *)
Context (hash : nat → string).

Definition Deduplicate (source : S) : Deduplicator S := mkDedup source ∅.

(** The loop of Next; [None] is out of fuel.  The list collects the calls of
    Done for duplicates whose result is known already; a request that is
    returned carries the layer's callback. *)
Fixpoint DedupNext (fuel : nat) (tbl : table) (d : Deduplicator S) (calls : list (nat * Result))
    : outcome (option (table * Deduplicator S * list (nat * Result) * option nat)) :=
  match fuel with
  | O => Ret None
  | Datatypes.S fuel =>
      '(tbl, s, r) ← SourceNext tbl (dd_source d);
      match r with
      | None => Ret (Some (tbl, mkDedup s (mm d), calls, None))
      | Some id =>
          let h := hash id in
          match mm d !! h with
          | None => Ret (Some (tbl, mkDedup s (<[h := mkDup None []]> (mm d)), calls, Some id))
          | Some entry =>
              match dup_res entry with
              | None =>
                  let entry := mkDup None (dup_queued entry ++ [id]) in
                  DedupNext fuel tbl (mkDedup s (<[h := entry]> (mm d))) calls
              | Some res => DedupNext fuel tbl (mkDedup s (mm d)) (calls ++ [(id, clone res)])
              end
          end
      end
  end.

(** The layer's callback: the result is recorded and broadcast. *)
Definition dedup_onDone (d : Deduplicator S) (id : nat) (res : Result)
    : outcome (Deduplicator S * list (nat * Result)) :=
  match mm d !! hash id with
  | None => Panic
  | Some entry =>
      Ret (mkDedup (dd_source d) (<[hash id := mkDup (Some (clone res)) []]> (mm d)),
           (λ w, (w, clone res)) <$> dup_queued entry)
  end.
End dedup.

(** ** Distribute *)

Record Distributor (S : Type) := mkDistributor {
  di_source : S;
  di_seq : Z;
  di_empty : bool;
  di_active : option (list Z);
  di_queue : list nat
}.
Arguments mkDistributor {S} _ _ _ _ _.
Arguments di_source {S} _.
Arguments di_seq {S} _.
Arguments di_empty {S} _.
Arguments di_active {S} _.
Arguments di_queue {S} _.

Definition contains (set : list ExecutorID) (vm : Z) : bool := existsb (λ id, VM id =? vm) set.

Section distribute.
Context {S : Type} `{!Source S}.
Implicit Type d : Distributor S.

Definition Distribute (source : S) : Distributor S := mkDistributor source 0 false None [].

(** Activity of a VM; a larger VM number replaces the table by a new one. *)
Definition active_table (d : Distributor S) (vm : Z) : list Z :=
  match di_active d with
  | Some a => if decide (len a ≤ vm) then replicate (Z.to_nat (vm + 10)) 0 else a
  | None => replicate (Z.to_nat (vm + 10)) 0
  end.
Definition noteActive (d : Distributor S) (vm : Z) : outcome (Distributor S) :=
  let active := active_table d vm in
  let seq := di_seq d +u 1 in
  if decide (0 ≤ vm < len active) then
    Ret (mkDistributor (di_source d) seq (di_empty d) (Some (<[Z.to_nat vm := seq]> active)) (di_queue d))
  else Panic.

(** The loop over the activity table. *)
Fixpoint other_active (seq : Z) (set : list ExecutorID) (vm : Z) (active : list Z) : bool :=
  match active with
  | [] => false
  | a :: rest =>
      if contains set vm then other_active seq set (vm + 1) rest
      else if (a +u 1000) <? seq then other_active seq set (vm + 1) rest
      else true
  end.
Definition hasOtherActive (d : Distributor S) (set : list ExecutorID) : bool :=
  other_active (di_seq d) set 0 (default [] (di_active d)).

(** May a delayed request be given to [vm] now? *)
Definition undelay (tbl : table) (vm seq : Z) (id : nat) : bool :=
  match tbl !! id with
  | None => false
  | Some r => negb (contains (QAvoid r) vm && (seq <? (QdelayedSince r +u 1000)))
  end.
Fixpoint find_delayed (tbl : table) (vm seq : Z) (i : nat) (q : list nat) : option (nat * nat) :=
  match q with
  | [] => None
  | id :: q => if undelay tbl vm seq id then Some (i, id) else find_delayed tbl vm seq (Datatypes.S i) q
  end.
Definition delayed (tbl : table) (d : Distributor S) (vm : Z) : outcome (Distributor S * option nat) :=
  if di_empty d then Ret (d, None)
  else
    match find_delayed tbl vm (di_seq d) 0 (di_queue d) with
    | None => Ret (d, None)
    | Some (i, id) =>
        let q := di_queue d in
        last ← index q (len q - 1);
        let q := take (length q - 1) (<[i := last]> q) in
        Ret (mkDistributor (di_source d) (di_seq d) (bool_decide (len q = 0)) (di_active d) q, Some id)
    end.

Definition delay (tbl : table) (d : Distributor S) (id : nat) : table * Distributor S :=
  (alter (λ r, set_delayed r (di_seq d)) id tbl,
   mkDistributor (di_source d) (di_seq d) false (di_active d) (di_queue d ++ [id])).

(** The loop of Next; [None] is out of fuel. *)
Fixpoint dist_loop (fuel : nat) (tbl : table) (d : Distributor S) (vm : Z)
    : outcome (option (table * Distributor S * option nat)) :=
  match fuel with
  | O => Ret None
  | Datatypes.S fuel =>
      '(tbl, s, r) ← SourceNext tbl (di_source d);
      let d := mkDistributor s (di_seq d) (di_empty d) (di_active d) (di_queue d) in
      match r with
      | None => Ret (Some (tbl, d, None))
      | Some id =>
          match tbl !! id with
          | None => Panic
          | Some q =>
              if negb (contains (QAvoid q) vm) || negb (hasOtherActive d (QAvoid q))
              then Ret (Some (tbl, d, Some id))
              else let '(tbl, d) := delay tbl d id in dist_loop fuel tbl d vm
          end
      end
  end.
Definition DistNext (fuel : nat) (tbl : table) (d : Distributor S) (vm : Z)
    : outcome (option (table * Distributor S * option nat)) :=
  d ← noteActive d vm;
  '(d, r) ← delayed tbl d vm;
  match r with
  | Some id => Ret (Some (tbl, d, Some id))
  | None => dist_loop fuel tbl d vm
  end.
End distribute.
