(* ===== verification/RequestProps.v ===== *)
(** * Requests: what the queue layers guarantee

    Retry: every request handed out is completed exactly once, or waits to be
    handed out again.  Deduplicate: equal requests are executed once and all
    get the result.  Distribute: a request reaches a VM it avoids only when no
    other VM is active or it has waited long enough. *)

From S2P Require Import Prelude Prog ConfigContext Queues Requests.

(** ** Retry over a plain queue *)

(** The statuses after which a request is sent again. *)
Definition retries (r : Request) (s : Status) : bool :=
  match s with
  | Restarted => true
  | Crashed => QImportant r && negb (QonceCrashed r)
  | _ => false
  end.

Definition after_retry (r : Request) (s : Status) : Request :=
  let r := set_callback r [] in if decide (s = Crashed) then set_crashed r else r.

Lemma Done_inflight {S} `{!Source S} (tbl : table) (rt : retryer S) id r res :
  tbl !! id = Some r → Qcallback r = [CbRetry] → Qresult r = None →
  Done tbl rt id res =
    if retries r (RStatus res)
    then Ret (<[id := after_retry r (RStatus res)]> tbl, mkRetryer (PlainSubmit (rpq rt) id) (rbase rt), false)
    else Ret (<[id := set_result (set_callback r []) res]> tbl, rt, true).
Proof.
  intros Hr Hcb Hres. unfold Done. rewrite Hr, Hcb. cbn [run_callbacks]. rewrite Hr.
  unfold retry_done, retries, after_retry.
  assert (Hset : Qresult (set_callback r []) = None) by done.
  destruct (RStatus res); cbn [run_callbacks].
  1,2,5: rewrite lookup_insert_eq, Hset, insert_insert_eq; done.
  - destruct (QImportant r && negb (QonceCrashed r)); cbn [run_callbacks].
    + by rewrite alter_insert_eq.
    + by rewrite lookup_insert_eq, Hset, insert_insert_eq.
  - done.
Qed.

(** A history of the retry layer: the requests handed out and not yet
    reported, and those completed with their results. *)
Inductive retry_run (l0 : list nat) : table → retryer (PlainQueue nat) → list nat → list (nat * Result) → Prop :=
| rr_init tbl base :
    NoDup l0 → plain_is base l0 →
    Forall (λ id, ∃ r, tbl !! id = Some r ∧ Qcallback r = [] ∧ Qresult r = None) l0 →
    retry_run l0 tbl (Retry base) [] []
| rr_next tbl rt fl fin locked tbl' rt' r :
    retry_run l0 tbl rt fl fin → RetryNext locked tbl rt = Ret (tbl', rt', r) →
    retry_run l0 tbl' rt' (option_list r ++ fl) fin
| rr_done tbl rt id fl fin res tbl' rt' b :
    retry_run l0 tbl rt (id :: fl) fin → Done tbl rt id res = Ret (tbl', rt', b) →
    retry_run l0 tbl' rt' fl (if b then (id, res) :: fin else fin)
| rr_perm tbl rt fl fl' fin :
    retry_run l0 tbl rt fl fin → fl ≡ₚ fl' → retry_run l0 tbl rt fl' fin.

Definition idle (tbl : table) (id : nat) : Prop :=
  ∃ r, tbl !! id = Some r ∧ Qcallback r = [] ∧ Qresult r = None.
Definition flying (tbl : table) (id : nat) : Prop :=
  ∃ r, tbl !! id = Some r ∧ Qcallback r = [CbRetry] ∧ Qresult r = None.
Definition completed (tbl : table) (ir : nat * Result) : Prop :=
  ∃ r, tbl !! ir.1 = Some r ∧ Qresult r = Some ir.2.

Record retry_inv (l0 : list nat) (tbl : table) (rt : retryer (PlainQueue nat))
    (fl : list nat) (fin : list (nat * Result)) (pb pr : list nat) : Prop := {
  ri_base : plain_is (rbase rt) pb;
  ri_pq : plain_is (rpq rt) pr;
  ri_perm : pb ++ pr ++ fl ++ fin.*1 ≡ₚ l0;
  ri_idle : Forall (idle tbl) (pb ++ pr);
  ri_fly : Forall (flying tbl) fl;
  ri_fin : Forall (completed tbl) fin
}.

(** Changing one request keeps what is known of the others. *)
Lemma Forall_insert_other (P : table → nat → Prop) tbl id r (l : list nat) :
  (∀ t t' i, t !! i = t' !! i → P t i → P t' i) →
  id ∉ l → Forall (P tbl) l → Forall (P (<[id:=r]> tbl)) l.
Proof.
  intros HP Hid Hl. rewrite Forall_forall in *. intros i Hi. apply (HP tbl); [|by apply Hl].
  by rewrite lookup_insert_ne by (intros ->; done).
Qed.
Lemma idle_ext t t' i : t !! i = t' !! i → idle t i → idle t' i.
Proof. unfold idle. by intros ->. Qed.
Lemma flying_ext t t' i : t !! i = t' !! i → flying t i → flying t' i.
Proof. unfold flying. by intros ->. Qed.
Lemma completed_insert tbl id r (fin : list (nat * Result)) :
  id ∉ fin.*1 → Forall (completed tbl) fin → Forall (completed (<[id:=r]> tbl)) fin.
Proof.
  intros Hid Hl. rewrite Forall_forall in *. intros [i res] Hi. destruct (Hl _ Hi) as (q & Hq & Hres).
  exists q. split; [|done]. rewrite lookup_insert_ne; [done|]. intros ->. apply Hid, list_elem_of_fmap.
  by exists (i, res).
Qed.

Section retry_inv.
Context (l0 : list nat) (Hnd : NoDup l0).

(** A waiting request is handed out: it leaves [pb] or [pr]. *)
Lemma retry_inv_out tbl rt rt' fl fin pb pr pb' pr' id :
  retry_inv l0 tbl rt fl fin pb pr →
  pb ++ pr ≡ₚ id :: pb' ++ pr' → plain_is (rbase rt') pb' → plain_is (rpq rt') pr' →
  retry_inv l0 (OnDone tbl id CbRetry) rt' (id :: fl) fin pb' pr'.
Proof.
  intros [_ _ Hp Hi Hf Hc] Hperm Hb' Hr'.
  assert (Hall : (id :: pb' ++ pr') ++ fl ++ fin.*1 ≡ₚ l0) by (by rewrite <-Hperm, <-app_assoc).
  assert (Hnd' : NoDup ((id :: pb' ++ pr') ++ fl ++ fin.*1)) by (by rewrite Hall).
  rewrite Hperm in Hi. apply Forall_cons in Hi as [(r & Hr & Hcb & Hres) Hi].
  cbn [app] in Hnd'. apply NoDup_cons in Hnd' as [Hid _].
  assert (HO : OnDone tbl id CbRetry = <[id := set_callback r [CbRetry]]> tbl).
  { unfold OnDone. apply map_eq. intros k. destruct (decide (k = id)) as [->|].
    - rewrite lookup_alter_eq, lookup_insert_eq, Hr. simpl. by rewrite Hcb.
    - by rewrite lookup_alter_ne, lookup_insert_ne. }
  rewrite HO. split; [done|done| |..].
  - rewrite <-Hall. cbn [app]. rewrite <-app_assoc, <-!Permutation_middle. done.
  - apply Forall_insert_other; [apply idle_ext|set_solver|done].
  - constructor; [exists (set_callback r [CbRetry]); by rewrite lookup_insert_eq|].
    apply Forall_insert_other; [apply flying_ext|set_solver|done].
  - apply completed_insert; [set_solver|done].
Qed.

Lemma retry_inv_next locked tbl rt fl fin pb pr :
  retry_inv l0 tbl rt fl fin pb pr →
  ∃ tbl' rt' r pb' pr', RetryNext locked tbl rt = Ret (tbl', rt', r) ∧
    retry_inv l0 tbl' rt' (option_list r ++ fl) fin pb' pr' ∧
    (r = None → pb = [] ∧ (locked = true ∨ pr = [])).
Proof.
  intros Hinv.
  pose proof (ri_base _ _ _ _ _ _ _ Hinv) as Hbase. pose proof (ri_pq _ _ _ _ _ _ _ Hinv) as Hpq.
  destruct (nextLocked_is _ _ Hbase) as (b' & Hbn & Hb').
  destruct (nextLocked_is _ _ Hpq) as (q' & Hqn & Hq').
  assert (Hfrom_base : ∃ tbl' rt' r pb' pr',
    ('(tbl1, b, r1) ← SourceNext tbl (rbase rt);
     match r1 with
     | Some id => Ret (OnDone tbl1 id CbRetry, mkRetryer (rpq rt) b, Some id)
     | None => Ret (tbl1, mkRetryer (rpq rt) b, None)
     end) = Ret (tbl', rt', r) ∧
    retry_inv l0 tbl' rt' (option_list r ++ fl) fin pb' pr' ∧ (r = None → pb = [])).
  { unfold SourceNext, PlainQueue_source. rewrite Hbn. cbn [mbind outcome_bind].
    destruct pb as [|id pb]; cbn [head tail] in *.
    - eexists _, _, None, [], pr. split; [done|]. split; [|done].
      destruct Hinv. by split.
    - eexists _, _, (Some id), pb, pr. split; [done|]. split; [|done].
      eapply retry_inv_out; [exact Hinv|done..]. }
  unfold RetryNext, tryNext. destruct locked; cbn [mbind outcome_bind].
  - destruct Hfrom_base as (tbl' & rt' & r & pb' & pr' & Heq & Hi & Hn). exists tbl', rt', r, pb', pr'.
    split; [exact Heq|]. split; [done|]. naive_solver.
  - rewrite Hqn. cbn [mbind outcome_bind]. destruct pr as [|id pr]; cbn [head tail] in *.
    + assert (Hqq : q' = rpq rt).
      { unfold nextLocked in Hqn. unfold plain_is in Hpq. rewrite Hpq in Hqn.
        rewrite decide_True in Hqn by (rewrite length_app, length_replicate; simpl; lia). by injection Hqn. }
      rewrite Hqq. destruct Hfrom_base as (tbl' & rt' & r & pb' & pr' & Heq & Hi & Hn).
      exists tbl', rt', r, pb', pr'. split; [exact Heq|]. split; [done|]. naive_solver.
    + eexists _, _, (Some id), pb, pr. split; [done|]. split; [|done].
      eapply retry_inv_out; [exact Hinv| |done..]. by rewrite <-Permutation_middle.
Qed.

Lemma retry_inv_done tbl rt id fl fin pb pr res :
  retry_inv l0 tbl rt (id :: fl) fin pb pr →
  ∃ tbl' rt' b pr' r, Done tbl rt id res = Ret (tbl', rt', b) ∧
    retry_inv l0 tbl' rt' fl (if b then (id, res) :: fin else fin) pb pr' ∧
    tbl !! id = Some r ∧ b = negb (retries r (RStatus res)).
Proof.
  intros [Hb Hq Hp Hi Hf Hc]. apply Forall_cons in Hf as [(r & Hr & Hcb & Hres) Hf].
  rewrite (Done_inflight tbl rt id r res Hr Hcb Hres).
  assert (Hnd' : NoDup (id :: pb ++ pr ++ fl ++ fin.*1)).
  { rewrite <-Hp in Hnd. eapply NoDup_Permutation_proper; [|exact Hnd].
    cbn [app]. by rewrite <-!Permutation_middle. }
  apply NoDup_cons in Hnd' as [Hid _].
  destruct (retries r (RStatus res)) eqn:Er.
  - eexists _, _, false, (pr ++ [id]), r. split; [done|]. split; [|by rewrite Er]. split; cbn [rbase rpq]; [done| |..].
    + by apply PlainSubmit_is.
    + rewrite <-Hp. cbn [app]. rewrite <-app_assoc. cbn [app]. by rewrite <-!Permutation_middle.
    + rewrite app_assoc, Forall_snoc. split.
      * apply Forall_insert_other; [apply idle_ext|set_solver|done].
      * exists (after_retry r (RStatus res)). rewrite lookup_insert_eq. split; [done|].
        unfold after_retry. case_decide; done.
    + apply Forall_insert_other; [apply flying_ext|set_solver|done].
    + apply completed_insert; [set_solver|done].
  - eexists _, _, true, pr, r. split; [done|]. split; [|by rewrite Er]. split; [done|done| |..].
    + rewrite <-Hp. cbn [fmap list_fmap app fst]. rewrite <-!Permutation_middle. done.
    + apply Forall_insert_other; [apply idle_ext|set_solver|done].
    + apply Forall_insert_other; [apply flying_ext|set_solver|done].
    + constructor; [eexists; by rewrite lookup_insert_eq|]. apply completed_insert; [set_solver|done].
Qed.
End retry_inv.

Lemma retry_run_NoDup l0 tbl rt fl fin : retry_run l0 tbl rt fl fin → NoDup l0.
Proof. by induction 1. Qed.

Lemma retry_run_inv l0 tbl rt fl fin : retry_run l0 tbl rt fl fin → ∃ pb pr, retry_inv l0 tbl rt fl fin pb pr.
Proof.
  intros Hrun. pose proof (retry_run_NoDup _ _ _ _ _ Hrun) as Hnd.
  induction Hrun as [tbl base _ Hb Hi|tbl rt fl fin locked tbl' rt' r _ (pb & pr & IH) Hn
                     |tbl rt id fl fin res tbl' rt' b _ (pb & pr & IH) Hd|tbl rt fl fl' fin _ (pb & pr & IH) Hp].
  - exists l0, []. split; cbn [rbase rpq Retry]; [done..| | |constructor|constructor].
    + by rewrite app_nil_r.
    + by rewrite app_nil_r.
  - destruct (retry_inv_next l0 Hnd locked _ _ _ _ _ _ IH) as (? & ? & ? & pb' & pr' & Heq & Hinv & _).
    rewrite Hn in Heq. simplify_eq. eauto.
  - destruct (retry_inv_done l0 Hnd _ _ _ _ _ _ _ res IH) as (? & ? & ? & pr' & r & Heq & Hinv & _).
    rewrite Hd in Heq. simplify_eq. eauto.
  - exists pb, pr. destruct IH as [? ? ? ? Hf ?]. split; [done..| |done| |done]; [by rewrite <-Hp|by rewrite <-Hp].
Qed.

(** C29: The retry layer over a queue of requests [l0] never loses or duplicates
    one: at any time each is still in the base queue, waiting to be retried, in
    flight, or completed with the result reported for it.  Asking for the next
    request and reporting a result never panic (no result channel is closed
    twice); reporting completes the request unless its VM restarted, or crashed
    for the first time and the request is important. *)
Theorem retry_spec l0 tbl rt fl fin :
  retry_run l0 tbl rt fl fin →
  (∃ pb pr, plain_is (rbase rt) pb ∧ plain_is (rpq rt) pr ∧ pb ++ pr ++ fl ++ fin.*1 ≡ₚ l0) ∧
  NoDup (fl ++ fin.*1) ∧
  Forall (λ ir, ∃ r, tbl !! ir.1 = Some r ∧ Qresult r = Some ir.2) fin ∧
  (∀ locked, ∃ tbl' rt' r, RetryNext locked tbl rt = Ret (tbl', rt', r)) ∧
  (∀ id res, id ∈ fl → ∃ tbl' rt' b r, Done tbl rt id res = Ret (tbl', rt', b) ∧ tbl !! id = Some r ∧
     (b = false ↔ RStatus res = Restarted ∨
        RStatus res = Crashed ∧ QImportant r = true ∧ QonceCrashed r = false)).
Proof.
  intros Hrun. pose proof (retry_run_NoDup _ _ _ _ _ Hrun) as Hnd.
  destruct (retry_run_inv _ _ _ _ _ Hrun) as (pb & pr & Hinv). split_and!.
  - exists pb, pr. by destruct Hinv.
  - rewrite <-(ri_perm _ _ _ _ _ _ _ Hinv) in Hnd. by rewrite !NoDup_app in Hnd; rewrite NoDup_app; naive_solver.
  - apply (ri_fin _ _ _ _ _ _ _ Hinv).
  - intros locked. destruct (retry_inv_next l0 Hnd locked _ _ _ _ _ _ Hinv) as (tbl' & rt' & r & _ & _ & Heq & _). eauto.
  - intros id res Hid. apply elem_of_Permutation in Hid as [fl' Hfl'].
    assert (Hinv' : retry_inv l0 tbl rt (id :: fl') fin pb pr).
    { destruct Hinv. split; try done; by rewrite <-Hfl'. }
    destruct (retry_inv_done l0 Hnd _ _ _ _ _ _ _ res Hinv') as (tbl' & rt' & b & _ & r & Heq & _ & Hr & ->).
    eexists tbl', rt', _, r. split_and!; [done..|]. unfold retries.
    destruct (RStatus res), (QImportant r), (QonceCrashed r); cbn; naive_solver.
Qed.

Definition sample_request (important : bool) : Request :=
  mkRequest RequestTypeProgram (mkExecOpts 16 1 0) None [] None false "" "" "" [] important [] [] false 0 None.
Definition sample_result (s : Status) : Result := mkResult s (mkExecutor 0 0) [] None.
Definition sample_table : table := <[0%nat := sample_request true]> (<[1%nat := sample_request false]> ∅).
Definition sample_base : PlainQueue nat := mkPlain [Some 0%nat; Some 1%nat] 0.

(** Request 0 is taken, its VM crashes, it is taken again and crashes again:
    now it is completed. *)
Lemma retry_witness :
  ∃ tbl rt, retry_run [0; 1]%nat tbl rt [] [(0%nat, sample_result Crashed)] ∧ NoDup (@nil nat ++ [0%nat]).
Proof.
  set (s0 := (sample_table, Retry sample_base)).
  set (nx := λ s : table * retryer (PlainQueue nat),
    match RetryNext false s.1 s.2 with Ret (t, r, _) => (t, r) | Panic => s end).
  set (dn := λ s : table * retryer (PlainQueue nat),
    match Done s.1 s.2 0%nat (sample_result Crashed) with Ret (t, r, _) => (t, r) | Panic => s end).
  set (s1 := nx s0). set (s2 := dn s1). set (s3 := nx s2). set (s4 := dn s3).
  assert (Hrun : retry_run [0; 1]%nat s4.1 s4.2 [] [(0%nat, sample_result Crashed)]).
  { apply (rr_done _ s3.1 s3.2 0%nat [] [] (sample_result Crashed) _ _ true); [|vm_compute; reflexivity].
    apply (rr_next _ s2.1 s2.2 [] [] false _ _ (Some 0%nat)); [|vm_compute; reflexivity].
    apply (rr_done _ s1.1 s1.2 0%nat [] [] (sample_result Crashed) _ _ false); [|vm_compute; reflexivity].
    apply (rr_next _ s0.1 s0.2 [] [] false _ _ (Some 0%nat)); [|vm_compute; reflexivity].
    apply rr_init; [by apply (bool_decide_unpack _); vm_compute|reflexivity|].
    repeat constructor; eexists; (split; [vm_compute; reflexivity|split; reflexivity]). }
  exists s4.1, s4.2. split; [exact Hrun|].
  exact (proj1 (proj2 (retry_spec _ _ _ _ _ Hrun))).
Defined.

(** ** Validation *)

Lemma land_pow2 x k : 0 ≤ k → Z.land x (2 ^ k) = if Z.testbit x k then 2 ^ k else 0.
Proof.
  intros Hk. apply Z.bits_inj'. intros n Hn. rewrite Z.land_spec, Z.pow2_bits_eqb by done.
  destruct (Z.eqb_spec k n) as [->|Hne].
  - rewrite andb_true_r. destruct (Z.testbit x n); [by rewrite Z.pow2_bits_true|by rewrite Z.bits_0].
  - rewrite andb_false_r. destruct (Z.testbit x k); [by rewrite Z.pow2_bits_false|by rewrite Z.bits_0].
Qed.
Lemma flag_set x k : 0 ≤ k → (0 <? Z.land x (2 ^ k)) = Z.testbit x k.
Proof. intros Hk. rewrite land_pow2 by done. destruct (Z.testbit x k); [|done]. apply Z.ltb_lt. lia. Qed.

Lemma land_sandboxes x : Z.land x 240 = 0 ↔ ∀ k, 4 ≤ k ≤ 7 → Z.testbit x k = false.
Proof.
  assert (H240 : ∀ k, Z.testbit 240 k = bool_decide (4 ≤ k ≤ 7)).
  { intros k. destruct (decide (k < 0)); [rewrite Z.testbit_neg_r, bool_decide_eq_false_2; (done || lia)|].
    destruct (decide (8 ≤ k)).
    { rewrite Z.bits_above_log2, bool_decide_eq_false_2; [done|lia|lia|]. change (Z.log2 240) with 7. lia. }
    assert (Hk : k ∈ seqZ 0 8) by (apply elem_of_seqZ; lia). clear -Hk.
    assert (Hall : Forall (λ k, Z.testbit 240 k = bool_decide (4 ≤ k ≤ 7)) (seqZ 0 8)) by (repeat constructor).
    rewrite Forall_forall in Hall. by apply Hall. }
  split.
  - intros Hz k Hk. pose proof (f_equal (λ z, Z.testbit z k) Hz) as Hb. cbn beta in Hb.
    rewrite Z.land_spec, H240, bool_decide_eq_true_2, andb_true_r, Z.bits_0 in Hb by done. done.
  - intros Hb. apply Z.bits_inj'. intros k _. rewrite Z.land_spec, H240, Z.bits_0.
    case_bool_decide as Hk; [by rewrite Hb|by rewrite andb_false_r].
Qed.

(** Validate accepts a request exactly when its type is known and its
    payload set, a program has a sandbox, all-signal calls come with signal
    collection, and comparisons are not collected together with signal or
    coverage. *)
Theorem Validate_spec (r : Request) :
  let exec := ExecFlags (QExecOpts r) in
  Validate r = None ↔
    (QReturnAllSignal r ≠ [] → Z.testbit exec 0 = true) ∧
    (Z.testbit exec 3 = true → Z.testbit exec 0 = false ∧ Z.testbit exec 1 = false) ∧
    match QType r with
    | RequestTypeProgram => QProg r ≠ None ∧ ∃ k, 4 ≤ k ≤ 7 ∧ Z.testbit (EnvFlags (QExecOpts r)) k = true
    | RequestTypeBinary => QBinaryFile r ≠ ""%string
    | RequestTypeGlob => QGlobPattern r ≠ ""%string
    | RequestTypeOther _ => False
    end.
Proof.
  cbn zeta. unfold Validate. set (x := ExecFlags (QExecOpts r)).
  change (Z.lor _ ExecEnvSandboxAndroid) with 240.
  change ExecFlagCollectSignal with (2 ^ 0). change ExecFlagCollectCover with (2 ^ 1).
  change ExecFlagCollectComps with (2 ^ 3). rewrite !flag_set by lia.
  assert (Hlen : len (QReturnAllSignal r) ≠ 0 ↔ QReturnAllSignal r ≠ []).
  { unfold len. destruct (QReturnAllSignal r); simpl; split; (done || lia). }
  destruct (decide (len (QReturnAllSignal r) ≠ 0 ∧ Z.testbit x 0 = false)) as [[H1 H2]|Hn].
  { split; [done|]. intros (H & _). rewrite H in H2; [done|by apply Hlen]. }
  assert (Hsig : QReturnAllSignal r ≠ [] → Z.testbit x 0 = true).
  { intros H%Hlen. destruct (Z.testbit x 0); [done|]. exfalso. by apply Hn. }
  destruct (Z.testbit x 3 && (Z.testbit x 0 || Z.testbit x 1)) eqn:Ec.
  { split; [done|]. intros (_ & H & _). destruct (Z.testbit x 3); [|done].
    destruct (H eq_refl) as [E0 E1]. rewrite E0, E1 in Ec. done. }
  assert (Hcmp : Z.testbit x 3 = true → Z.testbit x 0 = false ∧ Z.testbit x 1 = false).
  { intros H. rewrite H in Ec. destruct (Z.testbit x 0), (Z.testbit x 1); done. }
  transitivity (match QType r with
    | RequestTypeProgram => QProg r ≠ None ∧ ∃ k, 4 ≤ k ≤ 7 ∧ Z.testbit (EnvFlags (QExecOpts r)) k = true
    | RequestTypeBinary => QBinaryFile r ≠ ""%string
    | RequestTypeGlob => QGlobPattern r ≠ ""%string
    | RequestTypeOther _ => False
    end); [|naive_solver].
  clear -r. destruct (QType r).
  - destruct (QProg r) as [p|]; [|naive_solver].
    destruct (Z.eqb_spec (Z.land (EnvFlags (QExecOpts r)) 240) 0) as [Hz|Hz].
    + rewrite land_sandboxes in Hz. split; [done|]. intros (_ & k & Hk & Ht). rewrite Hz in Ht; done.
    + split; [|done]. intros _. split; [done|].
      set (e := EnvFlags (QExecOpts r)) in *.
      destruct (decide (Exists (λ k, Z.testbit e k = true) (seqZ 4 4))) as [He|He].
      * apply Exists_exists in He as (k & Hk%elem_of_seqZ & Ht). exists k. split; [lia|done].
      * exfalso. apply Hz, land_sandboxes. intros k Hk. destruct (Z.testbit e k) eqn:Et; [|done].
        exfalso. apply He, Exists_exists. exists k. split; [apply elem_of_seqZ; lia|done].
  - case_decide; naive_solver.
  - case_decide; naive_solver.
  - done.
Qed.

(** ** Deduplicate over a plain queue *)

Section dedup.
Context (hash : nat → string).
Abbreviation dedup := (Deduplicator (PlainQueue nat)).

(** A history: requests handed out and not reported, requests reported with
    their results, and duplicates completed by the layer itself. *)
Inductive dedup_run (l0 : list nat) : dedup → list nat → list (nat * Result) → list (nat * Result) → Prop :=
| du_init src : plain_is src l0 → dedup_run l0 (Deduplicate src) [] [] []
| du_next d fl rep comp fuel tbl tbl' d' calls r :
    dedup_run l0 d fl rep comp →
    DedupNext hash fuel tbl d [] = Ret (Some (tbl', d', calls, r)) →
    dedup_run l0 d' (option_list r ++ fl) rep (comp ++ calls)
| du_done d id fl rep comp res d' calls :
    dedup_run l0 d (id :: fl) rep comp →
    dedup_onDone hash d id res = Ret (d', calls) →
    dedup_run l0 d' fl ((id, res) :: rep) (comp ++ calls)
| du_perm d fl fl' rep comp : dedup_run l0 d fl rep comp → fl ≡ₚ fl' → dedup_run l0 d fl' rep comp.

(** Where a request taken from the source can be. *)
Definition waits (d : dedup) (id : nat) : Prop :=
  ∃ e, mm d !! hash id = Some e ∧ dup_res e = None ∧ id ∈ dup_queued e.
Definition located (d : dedup) (fl : list nat) (rep comp : list (nat * Result)) (id : nat) : Prop :=
  id ∈ fl ∨ id ∈ rep.*1 ∨ waits d id ∨ id ∈ comp.*1.

Record dedup_inv (l0 : list nat) (d : dedup) (fl : list nat) (rep comp : list (nat * Result)) (pb : list nat) : Prop := {
  di_src : plain_is (dd_source d) pb;
  di_where id : id ∈ l0 → id ∈ pb ∨ located d fl rep comp id;
  di_once : NoDup (hash <$> fl ++ rep.*1);
  di_fly id : id ∈ fl → ∃ e, mm d !! hash id = Some e ∧ dup_res e = None;
  di_rep id res : (id, res) ∈ rep → mm d !! hash id = Some (mkDup (Some res) []);
  di_known h e : mm d !! h = Some e → ∃ id, hash id = h ∧
    match dup_res e with None => id ∈ fl | Some res => (id, res) ∈ rep end;
  di_queued h e : mm d !! h = Some e → Forall (λ w, hash w = h) (dup_queued e);
  di_comp id res : (id, res) ∈ comp → ∃ id', (id', res) ∈ rep ∧ hash id' = hash id
}.

(** Replacing the entry of one hash. *)
Lemma waits_insert d src h e id :
  waits d id → hash id ≠ h → waits (mkDedup src (<[h:=e]> (mm d))) id.
Proof. intros (e' & He & Hr & Hq) Hne. exists e'. cbn [mm]. by rewrite lookup_insert_ne. Qed.

Lemma inv_new l0 d fl rep comp pb src id :
  dedup_inv l0 d fl rep comp (id :: pb) → plain_is src pb → mm d !! hash id = None →
  dedup_inv l0 (mkDedup src (<[hash id := mkDup None []]> (mm d))) (id :: fl) rep comp pb.
Proof.
  intros [Hs Hw Ho Hf Hr Hk Hq Hc] Hsrc Hnone.
  assert (Hfl : ∀ i, i ∈ fl → hash i ≠ hash id) by (intros i (e & He & _)%Hf Heq; congruence).
  assert (Hrp : ∀ i, i ∈ rep.*1 → hash i ≠ hash id).
  { intros i ([i' res] & -> & Hin%Hr)%list_elem_of_fmap Heq. simpl in *. congruence. }
  split; cbn [dd_source mm]; [done|..].
  - intros i [[->|Hi]%elem_of_cons|Hl]%Hw; [right; left; by left|by left|]. right.
    destruct Hl as [Hi|[Hi|[Hi|Hi]]]; [left; by right|right; by left|right; right; left|right; right; by right].
    apply waits_insert; [done|]. destruct Hi as (e & He & _). congruence.
  - cbn [app fmap list_fmap]. constructor; [|done].
    intros (i & Heq & [Hi|Hi]%elem_of_app)%list_elem_of_fmap; [by apply (Hfl i)|by apply (Hrp i)].
  - intros i [->|Hi]%elem_of_cons; [eexists; by rewrite lookup_insert_eq|].
    rewrite lookup_insert_ne by (intros Heq; by apply (Hfl i)). by apply Hf.
  - intros i res Hi. rewrite lookup_insert_ne; [by apply Hr|]. intros Heq. apply (Hrp i); [|done].
    apply list_elem_of_fmap. by exists (i, res).
  - intros h e. rewrite lookup_insert_Some. intros [[<- <-]|[Hne He]]; [exists id; split; [done|by left]|].
    destruct (Hk h e He) as (i & Hi & Hm). exists i. split; [done|]. destruct (dup_res e); [done|by right].
  - intros h e. rewrite lookup_insert_Some. intros [[<- <-]|[Hne He]]; [constructor|by apply Hq].
  - done.
Qed.

Lemma inv_wait l0 d fl rep comp pb src id e :
  dedup_inv l0 d fl rep comp (id :: pb) → plain_is src pb → mm d !! hash id = Some e → dup_res e = None →
  dedup_inv l0 (mkDedup src (<[hash id := mkDup None (dup_queued e ++ [id])]> (mm d))) fl rep comp pb.
Proof.
  intros [Hs Hw Ho Hf Hr Hk Hq Hc] Hsrc He Hres.
  split; cbn [dd_source mm]; [done| |done|..|done].
  - intros i [[->|Hi]%elem_of_cons|Hl]%Hw; [|by left|].
    + right. right. right. left. eexists. cbn [mm]. rewrite lookup_insert_eq. split; [done|]. split; [done|]. set_solver.
    + right. destruct Hl as [Hi|[Hi|[Hi|Hi]]]; [by left|right; by left| |right; right; by right].
      right. right. left. destruct (decide (hash i = hash id)) as [Heq|Hne]; [|by apply waits_insert].
      destruct Hi as (e' & He' & _ & Hin). rewrite Heq, He in He'. injection He' as <-.
      eexists. cbn [mm]. rewrite Heq, lookup_insert_eq. split; [done|]. split; [done|]. cbn [dup_queued]. set_solver.
  - intros i (e' & He' & Hn)%Hf. destruct (decide (hash i = hash id)) as [Heq|Hne].
    + rewrite Heq, lookup_insert_eq. by eexists.
    + rewrite lookup_insert_ne by done. eauto.
  - intros i res Hi%Hr. rewrite lookup_insert_ne; [done|]. intros Heq. rewrite Heq, Hi in He. by simplify_eq.
  - intros h e'. rewrite lookup_insert_Some. intros [[<- <-]|[Hne He']]; [|by apply Hk].
    destruct (Hk _ _ He) as (i & Hi & Hm). rewrite Hres in Hm. by exists i.
  - intros h e'. rewrite lookup_insert_Some. intros [[<- <-]|[Hne He']]; [|by apply Hq].
    cbn [dup_queued]. rewrite Forall_snoc. split; [by apply Hq|done].
Qed.

Lemma inv_call l0 d fl rep comp pb src id e res :
  dedup_inv l0 d fl rep comp (id :: pb) → plain_is src pb → mm d !! hash id = Some e → dup_res e = Some res →
  dedup_inv l0 (mkDedup src (mm d)) fl rep (comp ++ [(id, clone res)]) pb.
Proof.
  intros [Hs Hw Ho Hf Hr Hk Hq Hc] Hsrc He Hres.
  split; cbn [dd_source mm]; [done| |done..|].
  - intros i [[->|Hi]%elem_of_cons|Hl]%Hw; [|by left|].
    + right. right. right. right. rewrite fmap_app. set_solver.
    + right. destruct Hl as [Hi|[Hi|[Hi|Hi]]]; [by left|right; by left|right; right; left|right; right; right].
      * done.
      * rewrite fmap_app. set_solver.
  - intros i r [Hi%Hc|[= -> ->]%list_elem_of_singleton]%elem_of_app; [done|].
    destruct (Hk _ _ He) as (i & Hi & Hm). rewrite Hres in Hm. by exists i.
Qed.

Lemma inv_done l0 d id fl rep comp pb res e :
  dedup_inv l0 d (id :: fl) rep comp pb → mm d !! hash id = Some e →
  dedup_inv l0 (mkDedup (dd_source d) (<[hash id := mkDup (Some (clone res)) []]> (mm d))) fl ((id, res) :: rep)
    (comp ++ ((λ w, (w, clone res)) <$> dup_queued e)) pb.
Proof.
  intros [Hs Hw Ho Hf Hr Hk Hq Hc] He.
  assert (Hfl : ∀ i, i ∈ fl → hash i ≠ hash id).
  { intros i Hi Heq. rewrite fmap_app, fmap_cons in Ho. cbn [app] in Ho. apply NoDup_cons in Ho as [Hn _].
    apply Hn, elem_of_app. left. rewrite <-Heq. by apply list_elem_of_fmap_2. }
  assert (Hrp : ∀ i r, (i, r) ∈ rep → hash i ≠ hash id).
  { intros i r Hi%Hr Heq. destruct (Hf id) as (e' & He' & Hn); [by left|]. rewrite <-Heq, Hi in He'. by simplify_eq. }
  split; cbn [dd_source mm]; [done|..].
  - intros i [Hi|Hl]%Hw; [by left|]. right. destruct Hl as [[->|Hi]%elem_of_cons|[Hi|[Hi|Hi]]].
    + right. left. left.
    + by left.
    + right. left. by right.
    + destruct (decide (hash i = hash id)) as [Heq|Hne].
      * right. right. right. destruct Hi as (e' & He' & _ & Hin). rewrite Heq, He in He'. injection He' as <-.
        rewrite fmap_app. apply elem_of_app. right. rewrite <-list_fmap_compose. apply list_elem_of_fmap. by exists i.
      * right. right. left. by apply waits_insert.
    + right. right. right. rewrite fmap_app. set_solver.
  - rewrite fmap_cons. cbn [fst]. by rewrite <-Permutation_middle.
  - intros i Hi. rewrite lookup_insert_ne by (intros Heq; by apply (Hfl i)). apply Hf. by right.
  - intros i r [[= -> ->]|Hi]%elem_of_cons; [by rewrite lookup_insert_eq|].
    rewrite lookup_insert_ne by (intros Heq; by apply (Hrp i r)). by apply Hr.
  - intros h e'. rewrite lookup_insert_Some. intros [[<- <-]|[Hne He']]; [exists id; split; [done|left]|].
    destruct (Hk h e' He') as (i & Hi & Hm). exists i. split; [done|]. destruct (dup_res e'); [by right|].
    apply elem_of_cons in Hm as [->|Hm]; done.
  - intros h e'. rewrite lookup_insert_Some. intros [[<- <-]|[Hne He']]; [constructor|by apply Hq].
  - intros i r [Hi%Hc|(w & [= -> ->] & Hin)%list_elem_of_fmap]%elem_of_app.
    + destruct Hi as (i' & Hi' & Heq). exists i'. split; [by right|done].
    + exists id. split; [left|]. specialize (Hq _ _ He). rewrite Forall_forall in Hq. by rewrite (Hq w Hin).
Qed.

Lemma inv_next l0 fuel tbl d calls fl rep comp pb :
  dedup_inv l0 d fl rep (comp ++ calls) pb → (length pb < fuel)%nat →
  ∃ tbl' d' calls' r pb', DedupNext hash fuel tbl d calls = Ret (Some (tbl', d', calls', r)) ∧
    dedup_inv l0 d' (option_list r ++ fl) rep (comp ++ calls') pb' ∧ (r = None → pb' = []).
Proof.
  revert d calls pb. induction fuel as [|fuel IH]; intros d calls pb Hinv Hfuel; [lia|].
  pose proof (di_src _ _ _ _ _ _ Hinv) as Hs. cbn [DedupNext].
  destruct (nextLocked_is _ _ Hs) as (s' & Hn & Hs').
  assert (HS : SourceNext tbl (dd_source d) = Ret (tbl, s', head pb)).
  { unfold SourceNext, PlainQueue_source. by rewrite Hn. }
  rewrite HS. cbn [mbind outcome_bind]. destruct pb as [|id pb]; cbn [head tail length] in *.
  { exists tbl, (mkDedup s' (mm d)), calls, None, []. split; [done|]. split; [|done]. destruct Hinv. by split. }
  destruct (mm d !! hash id) as [e|] eqn:He.
  2: { eexists _, _, calls, (Some id), pb. split; [done|]. split; [|done]. by eapply inv_new. }
  destruct (dup_res e) as [res|] eqn:Hres.
  - apply (IH _ _ pb); [|lia]. rewrite app_assoc. by eapply inv_call.
  - apply (IH _ _ pb); [|lia]. by eapply inv_wait.
Qed.

Lemma DedupNext_more fuel tbl d calls x :
  DedupNext hash fuel tbl d calls = Ret (Some x) → ∀ k, DedupNext hash (fuel + k) tbl d calls = Ret (Some x).
Proof.
  revert tbl d calls. induction fuel as [|fuel IH]; intros tbl d calls; cbn [DedupNext Nat.add]; [done|].
  destruct (SourceNext tbl (dd_source d)) as [[[tbl1 s] [id|]]|]; cbn [mbind outcome_bind]; try done.
  destruct (mm d !! hash id) as [e|]; [|done]. destruct (dup_res e); apply IH.
Qed.

Lemma dedup_run_inv l0 d fl rep comp : dedup_run l0 d fl rep comp → ∃ pb, dedup_inv l0 d fl rep comp pb.
Proof.
  induction 1 as [src Hs|d fl rep comp fuel tbl tbl' d' calls r _ [pb IH] Hn
                  |d id fl rep comp res d' calls _ [pb IH] Hd|d fl fl' rep comp _ [pb IH] Hp].
  - exists l0. split; cbn; try done; try (by intros ? ?%elem_of_nil); try (by intros ? ? ?%elem_of_nil);
      try (intros ? ? H; by rewrite lookup_empty in H); [by left|constructor].
  - rewrite <-(app_nil_r comp) in IH.
    destruct (inv_next l0 (fuel + S (length pb)) tbl d [] fl rep comp pb IH ltac:(lia))
      as (tbl1 & d1 & calls1 & r1 & pb' & Heq & Hinv & _).
    rewrite (DedupNext_more _ _ _ _ _ Hn) in Heq. simplify_eq. eauto.
  - unfold dedup_onDone in Hd. destruct (mm d !! hash id) as [e|] eqn:He; [|done]. simplify_eq.
    exists pb. by eapply inv_done.
  - exists pb. destruct IH as [Hs Hw Ho Hf Hr Hk Hq Hc]. split; [done|..|done|done].
    + intros i [?|Hl]%Hw; [by left|right]. destruct Hl as [Hi|Hl]; [left; by rewrite <-Hp|by right].
    + by rewrite <-Hp.
    + intros i. rewrite <-Hp. apply Hf.
    + done.
    + intros h e He. destruct (Hk h e He) as (i & Hi & Hm). exists i. split; [done|].
      destruct (dup_res e); [done|]. by rewrite <-Hp.
Qed.
End dedup.

(** C30: The deduplicating layer hands out requests with pairwise different
    hashes; every request it took is in flight, reported, waiting for the
    result of an equal request that is in flight, or completed with the result
    reported for an equal request.  Next returns within the length of the
    source, and a report for a request in flight is always accepted. *)
Theorem dedup_spec hash l0 d fl rep comp tbl :
  dedup_run hash l0 d fl rep comp →
  NoDup (hash <$> fl ++ rep.*1) ∧
  (∃ pb, plain_is (dd_source d) pb ∧
     (∀ id, id ∈ l0 → id ∈ pb ∨ id ∈ fl ∨ id ∈ rep.*1 ∨ id ∈ comp.*1 ∨
        ∃ e id', mm d !! hash id = Some e ∧ id ∈ dup_queued e ∧ id' ∈ fl ∧ hash id' = hash id) ∧
     (∃ x, DedupNext hash (S (length pb)) tbl d [] = Ret (Some x))) ∧
  (∀ id res, (id, res) ∈ comp → ∃ id', (id', res) ∈ rep ∧ hash id' = hash id) ∧
  (∀ id res, id ∈ fl → ∃ d' calls, dedup_onDone hash d id res = Ret (d', calls)).
Proof.
  intros Hrun. destruct (dedup_run_inv _ _ _ _ _ _ Hrun) as (pb & Hinv). split_and!.
  - apply (di_once _ _ _ _ _ _ _ Hinv).
  - exists pb. split; [apply (di_src _ _ _ _ _ _ _ Hinv)|]. split.
    + intros id [Hi|[Hi|[Hi|[Hi|Hi]]]]%(di_where _ _ _ _ _ _ _ Hinv); [auto..| |auto].
      destruct Hi as (e & He & Hres & Hq). destruct (di_known _ _ _ _ _ _ _ Hinv _ _ He) as (id' & Heq & Hm).
      rewrite Hres in Hm. do 4 right. by exists e, id'.
    + pose proof Hinv as Hinv'. rewrite <-(app_nil_r comp) in Hinv'.
      destruct (inv_next hash l0 (S (length pb)) tbl d [] fl rep comp pb Hinv' ltac:(lia)) as (? & ? & ? & ? & ? & -> & _).
      eauto.
  - apply (di_comp _ _ _ _ _ _ _ Hinv).
  - intros id res (e & He & _)%(di_fly _ _ _ _ _ _ _ Hinv). unfold dedup_onDone. rewrite He. eauto.
Qed.

Lemma dedup_witness :
  ∃ d, dedup_run (λ _, "h"%string) [0; 1]%nat d [] [(0%nat, sample_result Success)] [(1%nat, sample_result Success)] ∧
    NoDup ((λ _ : nat, "h"%string) <$> [] ++ [0%nat]).
Proof.
  set (h := λ _ : nat, "h"%string).
  set (d0 := Deduplicate sample_base).
  set (d1 := match DedupNext h 3 ∅ d0 [] with Ret (Some (_, d, _, _)) => d | _ => d0 end).
  set (d2 := match DedupNext h 3 ∅ d1 [] with Ret (Some (_, d, _, _)) => d | _ => d0 end).
  set (d3 := match dedup_onDone h d2 0 (sample_result Success) with Ret (d, _) => d | Panic => d0 end).
  assert (Hrun : dedup_run h [0; 1]%nat d3 [] [(0%nat, sample_result Success)] [(1%nat, sample_result Success)]).
  { apply (du_done h _ d2 0%nat [] [] [] (sample_result Success) d3 [(1%nat, sample_result Success)]);
      [|vm_compute; reflexivity].
    apply (du_next h _ d1 [0%nat] [] [] 3 ∅ ∅ d2 [] None); [|vm_compute; reflexivity].
    apply (du_next h _ d0 [] [] [] 3 ∅ ∅ d1 [] (Some 0%nat)); [|vm_compute; reflexivity].
    apply du_init. reflexivity. }
  exists d3. split; [exact Hrun|]. exact (proj1 (dedup_spec h _ _ _ _ _ ∅ Hrun)).
Defined.

(** ** Distribute over a plain queue *)

Abbreviation distributor := (Distributor (PlainQueue nat)).

Definition avoid (tbl : table) (id : nat) : list ExecutorID :=
  match tbl !! id with Some r => QAvoid r | None => [] end.
Definition known (tbl : table) (l : list nat) : Prop := Forall (λ id, is_Some (tbl !! id)) l.

Lemma avoid_alter tbl id seq i : avoid (alter (λ r, set_delayed r seq) id tbl) i = avoid tbl i.
Proof.
  unfold avoid. destruct (decide (i = id)) as [->|Hne].
  - rewrite lookup_alter_eq. by destruct (tbl !! id).
  - by rewrite lookup_alter_ne.
Qed.
Lemma known_alter tbl f id l : known tbl l → known (alter f id tbl) l.
Proof.
  intros Hk. eapply Forall_impl; [exact Hk|]. intros i. by rewrite lookup_alter_is_Some.
Qed.

Lemma noteActive_spec (d : distributor) vm :
  0 ≤ vm → ∃ a, noteActive d vm =
    Ret (mkDistributor (di_source d) (di_seq d +u 1) (di_empty d) (Some a) (di_queue d)).
Proof.
  intros Hvm. unfold noteActive.
  assert (Hlen : vm < len (active_table d vm)).
  { unfold active_table. assert (Hr : vm < len (replicate (Z.to_nat (vm + 10)) 0)) by (unfold len; rewrite length_replicate; lia).
    destruct (di_active d); [|done]. case_decide; [done|lia]. }
  rewrite decide_True by lia. eauto.
Qed.

Lemma find_delayed_spec tbl vm seq i q :
  match find_delayed tbl vm seq i q with
  | None => Forall (λ id, undelay tbl vm seq id = false) q
  | Some (j, id) => (i ≤ j)%nat ∧ q !! (j - i)%nat = Some id ∧ undelay tbl vm seq id = true
  end.
Proof.
  revert i. induction q as [|x q IH]; intros i; cbn [find_delayed]; [constructor|].
  destruct (undelay tbl vm seq x) eqn:E; [rewrite Nat.sub_diag; split_and!; (done || lia)|].
  specialize (IH (S i)). destruct (find_delayed tbl vm seq (S i) q) as [[j id]|]; [|by constructor].
  destruct IH as (? & Hl & Hu). split_and!; [lia| |done].
  replace (j - i)%nat with (S (j - S i)) by lia. done.
Qed.

Lemma undelay_false tbl vm seq id :
  is_Some (tbl !! id) → undelay tbl vm seq id = false → contains (avoid tbl id) vm = true.
Proof. unfold undelay, avoid. intros [r ->]. by destruct (contains (QAvoid r) vm). Qed.

Lemma delayed_spec tbl (d : distributor) vm :
  known tbl (di_queue d) → (di_empty d = true → di_queue d = []) →
  ∃ d' r, delayed tbl d vm = Ret (d', r) ∧
    di_source d' = di_source d ∧ di_seq d' = di_seq d ∧ di_active d' = di_active d ∧
    (di_empty d' = true → di_queue d' = []) ∧
    match r with
    | None => d' = d ∧ Forall (λ id, contains (avoid tbl id) vm = true) (di_queue d)
    | Some id => id :: di_queue d' ≡ₚ di_queue d ∧ undelay tbl vm (di_seq d) id = true
    end.
Proof.
  intros Hk He. unfold delayed. destruct (di_empty d) eqn:Ee.
  { exists d, None. split; [done|]. rewrite He, Ee by done. split_and!; done. }
  pose proof (find_delayed_spec tbl vm (di_seq d) 0 (di_queue d)) as Hf.
  destruct (find_delayed _ _ _ _ _) as [[i id]|].
  2: { exists d, None. split_and!; try done; [by rewrite Ee|]. rewrite Forall_forall in *.
       intros id Hid. apply (undelay_false tbl vm (di_seq d)); [|by apply Hf].
       unfold known in Hk. rewrite Forall_forall in Hk. by apply Hk. }
  destruct Hf as (_ & Hid & Hu). rewrite Nat.sub_0_r in Hid.
  pose proof (lookup_lt_Some _ _ _ Hid) as Hlt.
  destruct (index_Ret (di_queue d) (len (di_queue d) - 1)) as (y & -> & Hy); [unfold len; lia|].
  cbn [mbind outcome_bind]. eexists _, (Some id). split; [done|]. cbn [di_source di_seq di_active di_empty di_queue].
  split_and!; try done.
  - rewrite bool_decide_eq_true. unfold len. intros Hz. apply nil_length_inv. lia.
  - apply take_swap_last; [done|]. rewrite last_lookup, <-Hy. f_equal. unfold len. lia.
Qed.

Definition may_run (tbl : table) (d : distributor) (vm : Z) (id : nat) : Prop :=
  contains (avoid tbl id) vm = false ∨ hasOtherActive d (avoid tbl id) = false.

(** The loop sets aside a prefix of what waits in the source. *)
Lemma dist_loop_exact fuel tbl (d : distributor) vm pb :
  plain_is (di_source d) pb → known tbl pb → (length pb < fuel)%nat → (di_empty d = true → di_queue d = []) →
  ∃ tbl' d' r pb' moved, dist_loop fuel tbl d vm = Ret (Some (tbl', d', r))
  ∧ plain_is (di_source d') pb' ∧ pb = moved ++ option_list r ++ pb' ∧ di_queue d' = di_queue d ++ moved
  ∧ (∀ i, i ∉ pb → tbl' !! i = tbl !! i) ∧ (∀ l, known tbl l → known tbl' l) ∧ di_seq d' = di_seq d
  ∧ (di_empty d' = true → di_queue d' = []) ∧ di_active d' = di_active d
  ∧ (∀ id, id ∈ moved → ¬ may_run tbl d vm id)
  ∧ match r with None => pb' = [] | Some id => may_run tbl d vm id end.
Proof.
  revert tbl d pb. induction fuel as [|fuel IH]; intros tbl d pb Hs Hk Hf He; [lia|]. cbn [dist_loop].
  destruct (nextLocked_is _ _ Hs) as (s' & Hn & Hs').
  assert (HS : SourceNext tbl (di_source d) = Ret (tbl, s', head pb)) by (unfold SourceNext, PlainQueue_source; by rewrite Hn).
  rewrite HS. cbn [mbind outcome_bind]. destruct pb as [|id pb]; cbn [head tail length] in *.
  { eexists tbl, _, None, [], []. split; [done|]. cbn [di_source di_queue di_empty di_seq]. split_and!; try done; [by rewrite app_nil_r|by intros ? ?%not_elem_of_nil]. }
  pose proof Hk as Hk'. apply Forall_cons in Hk' as [[q Hq'] Hk']. rewrite Hq'.
  assert (Ha : avoid tbl id = QAvoid q) by (unfold avoid; by rewrite Hq').
  change (hasOtherActive _ (QAvoid q)) with (hasOtherActive d (QAvoid q)).
  destruct (negb (contains (QAvoid q) vm) || negb (hasOtherActive d (QAvoid q))) eqn:E.
  - eexists tbl, _, (Some id), pb, []. split; [done|]. cbn [di_source di_queue di_empty di_seq]. split_and!; try done; [by rewrite app_nil_r|by intros ? ?%not_elem_of_nil|].
    unfold may_run. rewrite Ha. apply orb_true_iff in E as [E|E]; apply negb_true_iff in E; [by left|by right].
  - apply orb_false_iff in E as [E1 E2]. apply negb_false_iff in E1, E2. cbn [delay di_source di_seq di_active di_queue]. set (d1 := mkDistributor _ _ _ _ _). set (tbl1 := alter _ id tbl).
    destruct (IH tbl1 d1 pb) as (tbl' & d' & r & pb' & moved & E & H1 & H2 & H3 & H4 & H5 & H6 & H7 & H8 & H9 & H10);
      [done|by apply known_alter|lia|done|].
    assert (Hrun : ∀ j, may_run tbl1 d1 vm j ↔ may_run tbl d vm j) by (intros j; unfold may_run, tbl1; by rewrite avoid_alter).
    exists tbl', d', r, pb', (id :: moved). split; [done|]. split_and!; [done| | | | |done|done|done| |].
    + by rewrite H2.
    + rewrite H3. unfold d1. cbn [di_queue]. by rewrite <-app_assoc.
    + intros i [Hi1 Hi2]%not_elem_of_cons. rewrite H4 by done. unfold tbl1. by rewrite lookup_alter_ne.
    + intros l Hl. apply H5. by apply known_alter.
    + intros j [->|Hj]%elem_of_cons; [unfold may_run; rewrite Ha, E1, E2; by intros [?|?]|]. rewrite <-Hrun. by apply H9.
    + destruct r; [by apply Hrun|done].
Qed.

(** *** Activity

    [recent] are the VMs that asked since the table was last replaced, in
    order; [old] requests came before and are forgotten. *)
Definition last_ask (old : nat) (recent : list Z) (v : Z) : Z :=
  match list_find (λ x, x = v) (reverse recent) with
  | Some (i, _) => Z.of_nat (old + length recent - i)
  | None => 0
  end.
Record activity (d : distributor) (width : Z) (old : nat) (recent : list Z) : Prop := {
  ac_seq : di_seq d = Z.of_nat (old + length recent);
  ac_table : default [] (di_active d) = last_ask old recent <$> seqZ 0 width
}.
(** A VM asks: one the table has no room for makes it forget. *)
Definition ask (vm width : Z) (old : nat) (recent : list Z) : Z * nat * list Z :=
  if decide (width ≤ vm) then (vm + 10, (old + length recent)%nat, [vm]) else (width, old, recent ++ [vm]).
(** Some VM outside of the set that the table has room for asked within the
    last 1000 requests, or never asked and there were no more than 1000. *)
Definition other_recent (set : list ExecutorID) (width : Z) (old : nat) (recent : list Z) : Prop :=
  ∃ v, 0 ≤ v < width ∧ contains set v = false ∧ Z.of_nat (old + length recent) ≤ last_ask old recent v + 1000.

Lemma last_ask_bound old recent v : 0 ≤ last_ask old recent v ≤ Z.of_nat (old + length recent).
Proof. unfold last_ask. destruct (list_find _ _) as [[i x]|]; lia. Qed.
Lemma last_ask_snoc old recent vm v :
  last_ask old (recent ++ [vm]) v = if decide (v = vm) then Z.of_nat (old + S (length recent)) else last_ask old recent v.
Proof.
  unfold last_ask. rewrite reverse_app. cbn [reverse app rev_append]. change (reverse [vm]) with [vm]. cbn [app list_find]. rewrite length_app. cbn [length].
  destruct (decide (vm = v)) as [->|Hne]; [rewrite decide_True by done; f_equal; lia|]. rewrite decide_False by congruence.
  destruct (list_find (λ x, x = v) (reverse recent)) as [[i x]|] eqn:E; cbn; [|done]. apply list_find_Some in E as (Hi & _). apply lookup_lt_Some in Hi. rewrite length_reverse in Hi. lia.
Qed.
Lemma last_ask_single old vm v : last_ask old [vm] v = if decide (v = vm) then Z.of_nat (S old) else 0.
Proof. change [vm] with ([] ++ [vm]). rewrite last_ask_snoc. case_decide; [f_equal; cbn; lia|done]. Qed.
Lemma insert_last_ask (f g : Z → Z) vm width : 0 ≤ vm < width → (∀ v, g v = if decide (v = vm) then g vm else f v) →
  <[Z.to_nat vm := g vm]> (f <$> seqZ 0 width) = g <$> seqZ 0 width.
Proof.
  intros Hvm Hg. apply list_eq. intros i. destruct (decide (Z.to_nat vm = i)) as [<-|Hne].
  - rewrite list_lookup_insert_eq by (rewrite length_fmap, length_seqZ; lia). rewrite list_lookup_fmap, lookup_seqZ_lt by lia. cbn. do 2 f_equal. lia.
  - rewrite list_lookup_insert_ne, !list_lookup_fmap by done. destruct (decide (i < Z.to_nat width)%nat) as [Hi|Hi].
    + rewrite lookup_seqZ_lt by lia. cbn. rewrite (Hg (0 + Z.of_nat i)), decide_False by lia. done.
    + rewrite lookup_seqZ_ge by lia. done.
Qed.
Lemma noteActive_activity (d : distributor) vm width old recent :
  0 ≤ vm → 0 ≤ width → Z.of_nat (old + length recent) + 1 < 2 ^ 64 → activity d width old recent →
  ∃ d', noteActive d vm = Ret d' ∧ di_source d' = di_source d ∧ di_empty d' = di_empty d ∧ di_queue d' = di_queue d ∧ di_seq d' = di_seq d +u 1 ∧
    let '(w, o, r) := ask vm width old recent in activity d' w o r.
Proof.
  intros Hvm Hw Hn [Hseq Htab]. unfold noteActive.
  assert (Hlen : len (default [] (di_active d)) = width) by (rewrite Htab; unfold len; rewrite length_fmap, length_seqZ; lia).
  assert (Hwide : (if decide (width ≤ vm) then replicate (Z.to_nat (vm + 10)) 0 else default [] (di_active d)) = active_table d vm).
  { unfold active_table. destruct (di_active d) as [a|]; cbn [default] in Hlen; [by rewrite <-Hlen|]. unfold len in Hlen. cbn in Hlen. rewrite decide_True by lia. done. }
  assert (Hu : (di_seq d +u 1) = Z.of_nat (S (old + length recent))) by (rewrite Hseq, u64_id by (unfold in_u64; lia); lia).
  rewrite <-Hwide, Hu. unfold ask. case_decide as Hgrow.
  - rewrite decide_True by (unfold len; rewrite length_replicate; lia). eexists. split; [done|]. split_and!; try done. constructor; cbn [di_seq di_active default length]; [lia|].
    rewrite <-(insert_last_ask (λ _, 0) (last_ask (old + length recent) [vm]) vm) by (try lia; intros v; rewrite !last_ask_single; by case_decide; [rewrite decide_True|]). rewrite last_ask_single, decide_True by done. unfold id. f_equal.
    apply replicate_as_elem_of. split; [rewrite length_fmap, length_seqZ; lia|]. intros x (? & -> & _)%list_elem_of_fmap. done.
  - rewrite decide_True by lia. eexists. split; [done|]. split_and!; try done. constructor; cbn [di_seq di_active default]; [rewrite length_app; cbn [length]; lia|].
    rewrite Htab, <-(insert_last_ask (last_ask old recent) (last_ask old (recent ++ [vm])) vm) by (try lia; intros v; rewrite !last_ask_snoc; by case_decide; [rewrite decide_True|]). rewrite last_ask_snoc, decide_True by done. unfold id. do 2 f_equal. lia.
Qed.
Lemma other_active_spec seq set active vm : other_active seq set vm active = true ↔
  ∃ i a, active !! i = Some a ∧ contains set (vm + Z.of_nat i) = false ∧ seq ≤ (a +u 1000).
Proof.
  revert vm. induction active as [|a active IH]; intros vm; cbn [other_active]; [split; [done|by intros (? & ? & ? & _)]|].
  assert (Hcons : (∃ i b, (a :: active) !! i = Some b ∧ contains set (vm + Z.of_nat i) = false ∧ seq ≤ (b +u 1000)) ↔
    (contains set vm = false ∧ seq ≤ (a +u 1000)) ∨ ∃ i b, active !! i = Some b ∧ contains set (vm + 1 + Z.of_nat i) = false ∧ seq ≤ (b +u 1000)).
  { split.
    - intros ([|i] & b & Hi & H1 & H2); [injection Hi as ->; left; by rewrite Z.add_0_r in H1|]. right. exists i, b. replace (vm + 1 + Z.of_nat i) with (vm + Z.of_nat (S i)) by lia. done.
    - intros [[H1 H2]|(i & b & Hi & H1 & H2)]; [exists 0%nat, a; by rewrite Z.add_0_r|]. exists (S i), b. replace (vm + Z.of_nat (S i)) with (vm + 1 + Z.of_nat i) by lia. done. }
  rewrite Hcons, <-IH. destruct (contains set vm) eqn:Ec; [split; [by right|by intros [[? _]|?]]|]. destruct (Z.ltb_spec (a +u 1000) seq) as [Hl|Hl].
  - split; [by right|intros [[_ ?]|?]; [lia|done]].
  - split; [by left|done].
Qed.
Lemma hasOtherActive_spec (d : distributor) set width old recent :
  Z.of_nat (old + length recent) + 1000 < 2 ^ 64 → activity d width old recent → hasOtherActive d set = true ↔ other_recent set width old recent.
Proof.
  intros Hn [Hseq Htab]. unfold hasOtherActive, other_recent. rewrite other_active_spec, Htab, Hseq. split.
  - intros (i & a & Hi & Hc & Hle). rewrite list_lookup_fmap in Hi. destruct (seqZ 0 width !! i) as [v|] eqn:Ev; [|done]. injection Hi as <-. apply lookup_seqZ in Ev as [-> Hi].
    exists (0 + Z.of_nat i). pose proof (last_ask_bound old recent (0 + Z.of_nat i)). rewrite u64_id in Hle by (unfold in_u64; lia). split_and!; [lia|lia|done|done].
  - intros (v & Hv & Hc & Hle). exists (Z.to_nat v), (last_ask old recent v). pose proof (last_ask_bound old recent v). rewrite u64_id by (unfold in_u64; lia).
    split_and!; [|by replace (0 + Z.of_nat (Z.to_nat v)) with v by lia|done]. rewrite list_lookup_fmap, lookup_seqZ_lt by lia. cbn. do 2 f_equal. lia.
Qed.
Lemma may_run_spec tbl (d : distributor) vm id width old recent :
  Z.of_nat (old + length recent) + 1000 < 2 ^ 64 → activity d width old recent →
  may_run tbl d vm id ↔ contains (avoid tbl id) vm = false ∨ ¬ other_recent (avoid tbl id) width old recent.
Proof. intros Hn Ha. unfold may_run. rewrite <-(hasOtherActive_spec d _ width old recent Hn Ha). by rewrite not_true_iff_false. Qed.


Definition sample_avoiding (vm : Z) : Request :=
  mkRequest RequestTypeProgram (mkExecOpts 16 1 0) None [] None false "" "" "" [] false [mkExecutor vm 0] [] false 0 None.
Definition sample_avoid_table : table := <[0%nat := sample_avoiding 0]> (<[1%nat := sample_avoiding 1]> ∅).


(** Only VM 0 has ever been seen, and yet another VM counts as active: an
    entry that was never written is recent for the first 1000 requests. *)
Lemma unseen_vm_is_active :
  (λ d : distributor, (di_seq d, hasOtherActive d [mkExecutor 0 0])) <$> noteActive (Distribute Plain) 0 = Ret (1, true).
Proof. vm_compute. reflexivity. Qed.
(** A VM number the table has no room for makes it forget: VM 0 asked just
    before, and yet no VM but 20 counts as active. *)
Lemma growth_forgets_activity :
  let d : distributor := mkDistributor Plain 2000 true (Some [2000; 0; 0; 0; 0; 0; 0; 0; 0; 0]) [] in
  hasOtherActive d [mkExecutor 20 0] = true ∧
  (λ d, (di_seq d, hasOtherActive d [mkExecutor 20 0])) <$> noteActive d 20 = Ret (2001, false).
Proof. split; vm_compute; reflexivity. Qed.
