(* ===== verification/Varint.v ===== *)
(** * Variable-length integers (encoding/binary, as the exec format uses it)

    AppendVarint and Varint of the Go library: zig-zag encoding over base-128
    groups, least significant first.  Bytes are [Z] values in [0, 256). *)

From S2P Require Import Prelude.

(** [uint64(x)<<1], complemented for negative [x = int64(v)]. *)
Definition zigzag (v : Z) : Z :=
  let x := i64 v in
  let ux := u64 (Z.shiftl (u64 x) 1) in
  if decide (x < 0) then Z.lxor ux (2 ^ 64 - 1) else ux.

(** AppendUvarint; ten groups of seven bits hold a uint64. *)
Fixpoint uvarint_bytes (fuel : nat) (x : Z) : list Z :=
  match fuel with
  | O => []
  | S fuel =>
      if decide (0x80 ≤ x) then Z.lor (Z.land x 0x7f) 0x80 :: uvarint_bytes fuel (Z.shiftr x 7)
      else [x]
  end.
Definition varint_bytes (v : Z) : list Z := uvarint_bytes 10 (zigzag v).

(** Uvarint: the value and the rest of the buffer, or an error. *)
Fixpoint uvarint (i : nat) (x : Z) (buf : list Z) : option (Z * list Z) :=
  match buf with
  | [] => None
  | b :: buf =>
      if decide (i = 10%nat) then None
      else if decide (b < 0x80) then
        if decide (i = 9%nat ∧ 1 < b) then None
        else Some (Z.lor x (u64 (Z.shiftl b (7 * Z.of_nat i))), buf)
      else uvarint (S i) (Z.lor x (u64 (Z.shiftl (Z.land b 0x7f) (7 * Z.of_nat i)))) buf
  end.
(** [uint64(binary.Varint(buf))]. *)
Definition unzigzag (ux : Z) : Z :=
  let x := Z.shiftr ux 1 in if decide (Z.land ux 1 ≠ 0) then u64 (Z.lnot x) else x.
Definition varint (buf : list Z) : option (Z * list Z) :=
  match uvarint 0 0 buf with
  | Some (ux, rest) => Some (unzigzag ux, rest)
  | None => None
  end.

(** ** Round trip *)

Lemma lor_shifted a b s : 0 ≤ a < 2 ^ s → 0 ≤ s → Z.lor a (Z.shiftl b s) = a + b * 2 ^ s.
Proof.
  intros Ha Hs. rewrite Z.shiftl_mul_pow2 by done.
  assert (Hz : Z.land a (b * 2 ^ s) = 0).
  { apply Z.bits_inj'. intros n Hn. rewrite Z.land_spec, Z.bits_0. destruct (decide (n < s)) as [Hlt|Hge].
    - by rewrite Z.mul_pow2_bits_low, andb_false_r.
    - rewrite <-(Z.mod_small a (2 ^ s)) by done. by rewrite Z.mod_pow2_bits_high by lia. }
  rewrite (Z.add_nocarry_lxor _ _ Hz). by rewrite <-Z.lxor_lor.
Qed.
Lemma land_127 x : Z.land x 0x7f = x mod 128.
Proof. change 0x7f with (Z.ones 7). by rewrite Z.land_ones. Qed.
Lemma group_byte x : Z.lor (Z.land x 0x7f) 0x80 = x mod 128 + 128.
Proof.
  rewrite land_127. change 0x80 with (Z.shiftl 1 7). rewrite lor_shifted; [done| |done].
  apply Z.mod_pos_bound. lia.
Qed.

Lemma uvarint_bytes_spec k i acc x rest :
  (i + k = 10)%nat → (0 < k)%nat → 0 ≤ x < 2 ^ (64 - 7 * Z.of_nat i) → 0 ≤ acc < 2 ^ (7 * Z.of_nat i) →
  uvarint i acc (uvarint_bytes k x ++ rest) = Some (acc + x * 2 ^ (7 * Z.of_nat i), rest).
Proof.
  revert i acc x. induction k as [|k IH]; intros i acc x Hik Hk Hx Hacc; [lia|].
  assert (Hsum : ∀ y, 0 ≤ y ≤ x → Z.lor acc (u64 (Z.shiftl y (7 * Z.of_nat i))) = acc + y * 2 ^ (7 * Z.of_nat i)).
  { intros y Hy. rewrite u64_id; [apply lor_shifted; lia|]. rewrite Z.shiftl_mul_pow2 by lia.
    unfold in_u64. split; [lia|]. replace (2 ^ 64) with (2 ^ (64 - 7 * Z.of_nat i) * 2 ^ (7 * Z.of_nat i));
      [|rewrite <-Z.pow_add_r by lia; f_equal; lia]. apply Z.mul_lt_mono_pos_r; lia. }
  cbn [uvarint_bytes]. destruct (decide (0x80 ≤ x)) as [Hge|Hlt]; cbn [app uvarint].
  - assert (Hi9 : (i < 9)%nat).
    { destruct (decide (i < 9)%nat); [done|]. assert (i = 9%nat) as -> by lia. simpl in Hx. lia. }
    rewrite group_byte. pose proof (Z.mod_pos_bound x 128). rewrite decide_False by lia.
    rewrite decide_False by lia. rewrite land_127.
    replace ((x mod 128 + 128) mod 128) with (x mod 128)
      by (rewrite Z.add_mod, Z.mod_same, Z.add_0_r, !Z.mod_mod; lia).
    rewrite Hsum by (split; [lia|apply Z.mod_le; lia]). rewrite Z.shiftr_div_pow2 by lia. change (2 ^ 7) with 128.
    assert (Hpow : 2 ^ (7 * Z.of_nat (S i)) = 128 * 2 ^ (7 * Z.of_nat i)).
    { change 128 with (2 ^ 7). rewrite <-Z.pow_add_r by lia. f_equal. lia. }
    rewrite IH; [|lia|lia|..].
    + f_equal. f_equal. rewrite Hpow. rewrite (Z.div_mod x 128) at 3 by lia. lia.
    + split; [apply Z.div_pos; lia|]. apply Z.div_lt_upper_bound; [lia|].
      replace (128 * 2 ^ (64 - 7 * Z.of_nat (S i))) with (2 ^ (64 - 7 * Z.of_nat i)); [lia|].
      change 128 with (2 ^ 7). rewrite <-Z.pow_add_r by lia. f_equal. lia.
    + rewrite Hpow. nia.
  - rewrite decide_False by lia. rewrite decide_True by lia. rewrite decide_False.
    + by rewrite Hsum by lia.
    + intros [-> Hx1]. simpl in Hx. lia.
Qed.

Lemma lxor_ones x : 0 ≤ x < 2 ^ 64 → Z.lxor x (2 ^ 64 - 1) = 2 ^ 64 - 1 - x.
Proof.
  intros Hx. change (2 ^ 64 - 1) with (Z.ones 64).
  assert (Hhigh : ∀ n, 64 ≤ n → Z.testbit x n = false).
  { intros n Hn. rewrite <-(Z.mod_small x (2 ^ 64)) by done. by apply Z.mod_pow2_bits_high. }
  rewrite Z.sub_nocarry_ldiff.
  - apply Z.bits_inj'. intros n Hn. rewrite Z.lxor_spec, Z.ldiff_spec.
    destruct (decide (n < 64)); [rewrite Z.ones_spec_low by lia; by destruct (Z.testbit x n)|].
    rewrite Z.ones_spec_high, Hhigh by lia. done.
  - apply Z.bits_inj'. intros n Hn. rewrite Z.ldiff_spec, Z.bits_0.
    destruct (decide (n < 64)); [rewrite Z.ones_spec_low by lia; by rewrite andb_false_r|].
    by rewrite Hhigh by lia.
Qed.

Lemma land_1 x : Z.land x 1 = x mod 2.
Proof. change 1 with (Z.ones 1). by rewrite Z.land_ones. Qed.

Lemma unzigzag_zigzag v : in_u64 v → unzigzag (zigzag v) = v ∧ 0 ≤ zigzag v < 2 ^ 64.
Proof.
  intros Hv. unfold zigzag, unzigzag. rewrite (u64_i64 v Hv). unfold in_u64 in Hv.
  rewrite !Z.shiftl_mul_pow2, !Z.shiftr_div_pow2 by lia. change (2 ^ 1) with 2.
  rewrite !land_1.
  destruct (decide (v < 2 ^ 63)) as [Hlt|Hge].
  - rewrite (i64_id v) by (unfold in_i64; lia). rewrite !(decide_False (P := v < 0)) by lia.
    rewrite u64_id by (unfold in_u64; lia). rewrite Z.mod_mul, Z.div_mul by lia. rewrite decide_False by lia. split; [done|lia].
  - assert (Hneg : i64 v < 0).
    { unfold i64. replace (v + 2 ^ 63) with (v - 2 ^ 63 + 1 * 2 ^ 64) by lia. rewrite Z.mod_add by lia.
      rewrite Z.mod_small; lia. }
    rewrite !(decide_True (P := i64 v < 0)) by done.
    assert (u64 (v * 2) = 2 * v - 2 ^ 64) as ->.
    { unfold u64. replace (v * 2) with (2 * v - 2 ^ 64 + 1 * 2 ^ 64) by lia. rewrite Z.mod_add by lia.
      apply Z.mod_small. lia. }
    rewrite lxor_ones by lia. replace (2 ^ 64 - 1 - (2 * v - 2 ^ 64)) with (1 + (2 ^ 64 - 1 - v) * 2) by lia.
    rewrite Z.mod_add, Z.div_add by lia. change (1 mod 2) with 1. rewrite decide_True by lia.
    split; [|lia]. change (1 / 2) with 0. rewrite Z.add_0_l.
    assert (Z.lnot (2 ^ 64 - 1 - v) = v - 2 ^ 64) as -> by (unfold Z.lnot; lia).
    unfold u64. replace (v - 2 ^ 64) with (v + (-1) * 2 ^ 64) by lia. rewrite Z.mod_add by lia. apply Z.mod_small. lia.
Qed.

(** Decoding what was appended gives the value and the rest of the buffer. *)
Lemma varint_roundtrip v rest : in_u64 v → varint (varint_bytes v ++ rest) = Some (v, rest).
Proof.
  intros Hv. destruct (unzigzag_zigzag v Hv) as [Hz Hr]. unfold varint, varint_bytes.
  rewrite (uvarint_bytes_spec 10 0 0); [|lia|lia|simpl; lia|simpl; lia].
  rewrite Z.add_0_l, Z.mul_1_r. by rewrite Hz.
Qed.
