(* ===== verification/ForeachArg.v ===== *)
(** * Argument traversal and checksum planning
    (src/prog/analysis.go: ForeachArg; src/prog/checksum.go)

    ForeachArg calls back for every argument with the pointer it lies behind
    and its offset there.  The callbacks modelled here never stop the
    traversal, so it is the list of visits in order. *)

From S2P Require Import Prelude GoStrings Prog.
From Stdlib Require Import Ascii.

Record ArgVisit := mkVisit { v_arg : Arg; v_base : option Arg; v_offset : Z }.

Section visits.
Context (typeRefs : list Typ).

(** foreachArgImpl; an overlay field starts again at the group's offset. *)
Fixpoint foreachArgImpl (a : Arg) (base : option Arg) (offset : Z) : outcome (list ArgVisit) :=
  rest ←
    match a with
    | GroupArg _ inner =>
        t ← TypeOf typeRefs a;
        let overlay := match t with StructType _ _ _ o => o | _ => 0 end in
        (fix go (i : nat) (l : list Arg) (cur : Z) : outcome (list ArgVisit) :=
           match l with
           | [] => Ret []
           | x :: l' =>
               let cur := if decide (Z.of_nat i = overlay) then offset else cur in
               vs ← foreachArgImpl x base cur;
               size ← ArgSize typeRefs x;
               vs' ← go (S i) l' (cur +u size);
               Ret (vs ++ vs')
           end) 0%nat inner offset
    | PointerArg _ _ _ (Some r) => foreachArgImpl r (Some a) 0
    | UnionArg _ o _ _ => foreachArgImpl o base offset
    | _ => Ret []
    end;
  Ret (mkVisit a base offset :: rest).

Fixpoint foreach_args (l : list Arg) : outcome (list ArgVisit) :=
  match l with
  | [] => Ret []
  | a :: l => vs ← foreachArgImpl a None 0; vs' ← foreach_args l; Ret (vs ++ vs')
  end.
(** ForeachArg: the return value, then the arguments, each with its field. *)
Definition ForeachArg (c : Call) : outcome (list ArgVisit) :=
  ret ← match CRet c with Some r => foreachArgImpl (AResult r) None 0 | None => Ret [] end;
  match Meta c with
  | None => Panic
  | Some m =>
      if decide (length (SysArgs m) < length (Args c))%nat then Panic
      else vs ← foreach_args (Args c); Ret (ret ++ vs)
  end.

(** ** Checksums *)

Inductive CsumChunk :=
| CsumChunkArg (a : Arg)
| CsumChunkConst (value size : Z).
Record CsumInfo := mkCsumInfo { CIKind : CsumKind; CIChunks : list CsumChunk }.

Definition ParentRef : string := "parent".

Definition swap16 (v : Z) : Z := Z.lor (u8 (Z.shiftr v 8)) (Z.shiftl (u8 v) 8).
Definition swap32 (v : Z) : Z :=
  Z.lor (Z.lor (u8 (Z.shiftr v 24)) (Z.shiftl (u8 (Z.shiftr v 16)) 8))
    (Z.lor (Z.shiftl (u8 (Z.shiftr v 8)) 16) (Z.shiftl (u8 v) 24)).
Definition u16 (x : Z) : Z := x mod 2 ^ 16.

(** InnerArg: through pointers; a nil pointer ends it. *)
Fixpoint InnerArg (a : Arg) : outcome (option Arg) :=
  t ← TypeOf typeRefs a;
  match t with
  | PtrType _ _ _ _ =>
      match a with
      | PointerArg _ _ _ (Some r) => InnerArg r
      | PointerArg _ _ _ None => Ret None
      | _ => Panic
      end
  | _ => Ret (Some a)
  end.

(** Checksum fields of the visited arguments, by kind, in order. *)
Fixpoint csum_fields (vs : list ArgVisit) : outcome (list Arg * list Arg) :=
  match vs with
  | [] => Ret ([], [])
  | v :: vs =>
      t ← TypeOf typeRefs (v_arg v);
      '(inet, pseudo) ← csum_fields vs;
      match t with
      | CsumType _ CsumInet _ _ => Ret (v_arg v :: inet, pseudo)
      | CsumType _ CsumPseudo _ _ => Ret (inet, v_arg v :: pseudo)
      | _ => Ret (inet, pseudo)
      end
  end.

(** The parent struct of every field, keyed by identity. *)
Fixpoint add_parents (parent : Arg) (inner : list Arg) (m : gmap Z Arg) : outcome (gmap Z Arg) :=
  match inner with
  | [] => Ret m
  | f :: inner =>
      i ← InnerArg f;
      add_parents parent inner (match i with Some x => <[aid x := parent]> m | None => m end)
  end.
Fixpoint parents_map (vs : list ArgVisit) (m : gmap Z Arg) : outcome (gmap Z Arg) :=
  match vs with
  | [] => Ret m
  | v :: vs =>
      t ← TypeOf typeRefs (v_arg v);
      m ← match t, v_arg v with
          | StructType _ _ _ _, GroupArg _ inner => add_parents (v_arg v) inner m
          | StructType _ _ _ _, _ => Panic
          | _, _ => Ret m
          end;
      parents_map vs m
  end.

(** The walk up the parents; [fuel] bounds their number. *)
Fixpoint find_parent (fuel : nat) (buf : string) (parents : gmap Z Arg) (a : Arg) : outcome Arg :=
  match fuel with
  | O => Panic
  | S fuel =>
      match parents !! aid a with
      | None => Panic
      | Some p =>
          t ← TypeOf typeRefs p;
          if decide (buf = TName t) then Ret p else find_parent fuel buf parents p
      end
  end.
Definition findCsummedArg (a : Arg) (buf : string) (parents : gmap Z Arg) : outcome Arg :=
  if decide (buf = ParentRef) then match parents !! aid a with Some p => Ret p | None => Panic end
  else find_parent (S (size parents)) buf parents a.

Definition composePseudoCsumIPv4 (tcp src dst : Arg) (protocol : Z) : outcome CsumInfo :=
  s ← ArgSize typeRefs tcp;
  Ret (mkCsumInfo CsumInet
    [CsumChunkArg src; CsumChunkArg dst; CsumChunkConst (swap16 (u16 protocol)) 2;
     CsumChunkConst (swap16 (u16 s)) 2; CsumChunkArg tcp]).
Definition composePseudoCsumIPv6 (tcp src dst : Arg) (protocol : Z) : outcome CsumInfo :=
  s ← ArgSize typeRefs tcp;
  Ret (mkCsumInfo CsumInet
    [CsumChunkArg src; CsumChunkArg dst; CsumChunkConst (swap32 (u32 s)) 4;
     CsumChunkConst (swap32 (u32 protocol)) 4; CsumChunkArg tcp]).

(** getFieldByName; the fields are those of the struct type. *)
Fixpoint getFieldByName (name : string) (fields : list Field) (inner : list Arg) : outcome Arg :=
  match inner, fields with
  | a :: inner, f :: fields => if decide (FieldName f = name) then Ret a else getFieldByName name fields inner
  | _, _ => Panic
  end.
Definition extractHeaderParams (a : Arg) (size : Z) : outcome (Arg * Arg) :=
  t ← TypeOf typeRefs a;
  match t, a with
  | StructType _ fields _ _, GroupArg _ inner =>
      src ← getFieldByName "src_ip" fields inner;
      dst ← getFieldByName "dst_ip" fields inner;
      s1 ← ArgSize typeRefs src;
      s2 ← ArgSize typeRefs dst;
      if decide (s1 ≠ size ∨ s2 ≠ size) then Panic else Ret (src, dst)
  | _, _ => Panic
  end.
(** The last ip header seen gives the addresses. *)
Fixpoint ip_addrs (vs : list ArgVisit) (acc : option (Arg * Arg)) : outcome (option (Arg * Arg)) :=
  match vs with
  | [] => Ret acc
  | v :: vs =>
      match v_arg v with
      | GroupArg _ _ =>
          t ← TypeOf typeRefs (v_arg v);
          let name := TemplateName t in
          if decide (name = "ipv4_header"%string ∨ name = "syz_csum_ipv4_header"%string)
          then r ← extractHeaderParams (v_arg v) 4; ip_addrs vs (Some r)
          else if decide (name = "ipv6_packet_t"%string ∨ name = "syz_csum_ipv6_header"%string)
          then r ← extractHeaderParams (v_arg v) 16; ip_addrs vs (Some r)
          else ip_addrs vs acc
      | _ => ip_addrs vs acc
      end
  end.

Fixpoint inet_csums (l : list Arg) (parents : gmap Z Arg) (m : gmap Z (Arg * CsumInfo)) (uses : gset Z)
    : outcome (gmap Z (Arg * CsumInfo) * gset Z) :=
  match l with
  | [] => Ret (m, uses)
  | a :: l =>
      t ← TypeOf typeRefs a;
      match t with
      | CsumType _ _ buf _ =>
          x ← findCsummedArg a buf parents;
          inet_csums l parents (<[aid a := (a, mkCsumInfo CsumInet [CsumChunkArg x])]> m) ({[aid x]} ∪ uses)
      | _ => Panic
      end
  end.
Fixpoint pseudo_csums (src dst : Arg) (l : list Arg) (parents : gmap Z Arg) (m : gmap Z (Arg * CsumInfo))
    (uses : gset Z) : outcome (gmap Z (Arg * CsumInfo) * gset Z) :=
  match l with
  | [] => Ret (m, uses)
  | a :: l =>
      t ← TypeOf typeRefs a;
      match t with
      | CsumType _ _ buf protocol =>
          x ← findCsummedArg a buf parents;
          s ← ArgSize typeRefs src;
          info ← (if decide (s = 4) then composePseudoCsumIPv4 x src dst (u8 protocol)
                  else composePseudoCsumIPv6 x src dst (u8 protocol));
          pseudo_csums src dst l parents (<[aid a := (a, info)]> m) ({[aid x; aid src; aid dst]} ∪ uses)
      | _ => Panic
      end
  end.

(** calcChecksumsCall: the checksum of every checksum field, and the arguments
    whose addresses the checksums need. *)
Definition calcChecksumsCall (c : Call) : outcome (gmap Z (Arg * CsumInfo) * gset Z) :=
  vs ← ForeachArg c;
  '(inet, pseudo) ← csum_fields vs;
  if decide (length inet = 0%nat ∧ length pseudo = 0%nat) then Ret (∅, ∅)
  else
    parents ← parents_map vs ∅;
    '(m, uses) ← inet_csums inet parents ∅ ∅;
    if decide (length pseudo = 0%nat) then Ret (m, uses)
    else
      ips ← ip_addrs vs None;
      match ips with
      | None => Panic
      | Some (src, dst) => pseudo_csums src dst pseudo parents m uses
      end.
End visits.
