(* ===== verification/EncodingExec.v ===== *)
(** * The exec format: encoder (src/prog/encodingexec.go)

    A program is a sequence of 64-bit words (varints) and data blobs: copyin
    instructions, checksums, properties and the call, then copyouts, with the
    configuration actions injected before their calls.  The encoder's context
    is threaded as a state; argument identities index its tables. *)

From S2P Require Import Prelude Prog ConfigContext Varint ForeachArg.

Definition execInstrEOF : Z := 2 ^ 64 - 1.
Definition execInstrCopyin : Z := 2 ^ 64 - 2.
Definition execInstrCopyout : Z := 2 ^ 64 - 3.
Definition execInstrSetProps : Z := 2 ^ 64 - 4.
Definition execInstrKConfuzzConfig : Z := 2 ^ 64 - 5.

Definition execArgConst : Z := 0.
Definition execArgAddr32 : Z := 1.
Definition execArgAddr64 : Z := 2.
Definition execArgResult : Z := 3.
Definition execArgData : Z := 4.
Definition execArgCsum : Z := 5.
Definition execArgDataReadable : Z := 2 ^ 63.

Definition ExecArgCsumInet : Z := 0.
Definition ExecArgCsumChunkData : Z := 0.
Definition ExecArgCsumChunkConst : Z := 1.

Definition ExecBufferSize : Z := Z.shiftl 4 20.
Definition ExecNoCopyout : Z := 2 ^ 64 - 1.
Definition execMaxCommands : Z := 1000.
Definition KFuzzTestMaxInputSize : Z := Z.shiftl 64 10.

Record argInfo := mkArgInfo { AAddr : Z; AIdx : Z; ARet : bool }.

Record execContext := mkExec {
  buf : list Z;
  eargs : gmap Z argInfo;
  copyoutSeq : Z;
  csumMap : gmap Z (Arg * CsumInfo);
  csumUses : gset Z
}.

Definition set_buf (w : execContext) b := mkExec b (eargs w) (copyoutSeq w) (csumMap w) (csumUses w).
Definition set_args (w : execContext) m := mkExec (buf w) m (copyoutSeq w) (csumMap w) (csumUses w).
Definition set_seq (w : execContext) s := mkExec (buf w) (eargs w) s (csumMap w) (csumUses w).
Definition set_csums (w : execContext) m u := mkExec (buf w) (eargs w) (copyoutSeq w) m u.

Definition write (v : Z) (w : execContext) : execContext := set_buf w (buf w ++ varint_bytes v).
Fixpoint writes (vs : list Z) (w : execContext) : execContext :=
  match vs with [] => w | v :: vs => writes vs (write v w) end.
Definition write_blob (data : list Z) (w : execContext) : execContext := set_buf w (buf w ++ data).

(** writeConstArg: the meta word packs size, format, bitfield and pid stride. *)
Definition const_meta (size fmt bfOffset bfLength pidStride : Z) : Z :=
  Z.lor (Z.lor (Z.lor (Z.lor size (Z.shiftl fmt 8)) (u64 (Z.shiftl bfOffset 16)))
    (u64 (Z.shiftl bfLength 24))) (u64 (Z.shiftl pidStride 32)).
Definition writeConstArg (size val bfOffset bfLength pidStride : Z) (bf : BinaryFormat)
    (w : execContext) : execContext :=
  writes [execArgConst; const_meta size (format_code bf) bfOffset bfLength pidStride; val] w.

(** [uint64] of a bool property. *)
Definition bool_word (b : bool) : Z := if b then 1 else 0.
Definition writeCallProps (p : CallProps) (w : execContext) : execContext :=
  writes [execInstrSetProps; u64 (FailNth p); bool_word (Async p); u64 (Rerun p)] w.

Fixpoint writeKConfuzzConfigActions (actions : list KConfuzzConfigAction) (w : execContext) : execContext :=
  match actions with
  | [] => w
  | a :: actions =>
      writeKConfuzzConfigActions actions (writes [execInstrKConfuzzConfig; ParamID a; ValueID a; Flags a] w)
  end.

Section encode.
Context (typeRefs : list Typ) (target : Target).

Definition PhysicalAddr (address vmaSize : Z) (res : option Arg) : outcome Z :=
  if IsSpecial address vmaSize res then index (SpecialPointers target) (u64 (- address))
  else Ret (DataOffset target +u address).
Definition pointer_addr (a : Arg) : outcome Z :=
  match a with PointerArg _ address vma res => PhysicalAddr address vma res | _ => Panic end.

(** writeArg. *)
Fixpoint writeArg (a : Arg) (w : execContext) : outcome execContext :=
  match a with
  | ConstArg _ v =>
      '(val, stride) ← ConstValue typeRefs a v;
      t ← TypeOf typeRefs a;
      size ← UnitSize t;
      Ret (writeConstArg size val (BitfieldOffset t) (BitfieldLength t) stride (Format t) w)
  | AResult r =>
      size ← ArgSize typeRefs a;
      t ← TypeOf typeRefs a;
      match res_Res r with
      | None => Ret (writeConstArg size (res_Val r) 0 0 0 (Format t) w)
      | Some target_arg =>
          match eargs w !! target_arg, t with
          | Some info, ResourceType _ _ desc =>
              def ← ResourceDefault desc;
              Ret (writes [execArgResult; Z.lor size (Z.shiftl (format_code (Format t)) 8); AIdx info;
                           OpDiv r; OpAdd r; def] w)
          | _, _ => Panic
          end
      end
  | PointerArg _ _ _ _ =>
      size ← ArgSize typeRefs a;
      addr ← pointer_addr a;
      if decide (size = 4) then Ret (writes [execArgAddr32; addr -u DataOffset target] w)
      else if decide (size = 8) then Ret (writes [execArgAddr64; addr -u DataOffset target] w)
      else Panic
  | DataArg c data _ =>
      t ← TypeOf typeRefs a;
      if decide (arg_dir c = DirOut) then Panic
      else if decide (len data = 0) then Panic
      else
        match t with
        | BufferType _ k _ _ _ _ _ =>
            let flags := if isReadableDataType k then Z.lor (len data) execArgDataReadable else len data in
            Ret (write_blob data (writes [execArgData; flags] w))
        | _ => Panic
        end
  | UnionArg _ o _ _ => writeArg o w
  | GroupArg _ _ => Panic
  end.
Fixpoint write_args (l : list Arg) (w : execContext) : outcome execContext :=
  match l with
  | [] => Ret w
  | a :: l => w ← writeArg a w; write_args l w
  end.

Definition willBeUsed (w : execContext) (a : Arg) : bool :=
  match a with AResult r => bool_decide (size (uses r) ≠ 0%nat) | _ => false end
  || bool_decide (is_Some (csumMap w !! aid a)) || bool_decide (aid a ∈ csumUses w).

(** writeCopyin, one visited argument at a time. *)
Definition copyin_arg (v : ArgVisit) (w : execContext) : outcome execContext :=
  match v_base v with
  | None => Ret w
  | Some base =>
      pa ← pointer_addr base;
      let a := v_arg v in
      t ← TypeOf typeRefs a;
      let addr := ((pa -u DataOffset target) +u v_offset v) -u UnitOffset t in
      let w := if willBeUsed w a then set_args w (<[aid a := mkArgInfo addr 0 false]> (eargs w)) else w in
      match a with
      | GroupArg _ _ | UnionArg _ _ _ _ => Ret w
      | _ =>
          if decide (ADir a = DirOut) then Ret w
          else if TIsPad t then Ret w
          else
            s ← ArgSize typeRefs a;
            if decide (s = 0 ∧ IsBitfield t = false) then Ret w
            else writeArg a (writes [execInstrCopyin; addr] w)
      end
  end.
Fixpoint copyin_visits (vs : list ArgVisit) (w : execContext) : outcome execContext :=
  match vs with
  | [] => Ret w
  | v :: vs => w ← copyin_arg v w; copyin_visits vs w
  end.
Definition writeCopyin (c : Call) (w : execContext) : outcome execContext :=
  vs ← ForeachArg typeRefs c; copyin_visits vs w.

(** writeChecksums, from the highest address down; checksums at one address,
    whose order sort.Slice leaves open, are taken in the order of the map. *)
Definition info_of (w : execContext) (a : Arg) : argInfo := default (mkArgInfo 0 0 false) (eargs w !! aid a).
Fixpoint write_chunks (chunks : list CsumChunk) (w : execContext) : outcome execContext :=
  match chunks with
  | [] => Ret w
  | CsumChunkArg a :: chunks =>
      s ← ArgSize typeRefs a;
      write_chunks chunks (writes [ExecArgCsumChunkData; AAddr (info_of w a); s] w)
  | CsumChunkConst value size :: chunks =>
      write_chunks chunks (writes [ExecArgCsumChunkConst; value; size] w)
  end.
Definition write_csum (ai : Arg * CsumInfo) (w : execContext) : outcome execContext :=
  let '(a, info) := ai in
  t ← TypeOf typeRefs a;
  match t, CIKind info with
  | CsumType _ _ _ _, CsumInet =>
      s ← ArgSize typeRefs a;
      write_chunks (CIChunks info)
        (writes [execInstrCopyin; AAddr (info_of w a); execArgCsum; s; ExecArgCsumInet; len (CIChunks info)] w)
  | _, _ => Panic
  end.
Fixpoint write_csums (l : list (Arg * CsumInfo)) (w : execContext) : outcome execContext :=
  match l with
  | [] => Ret w
  | ai :: l => w ← write_csum ai w; write_csums l w
  end.
Definition csum_less (w : execContext) (x y : Arg * CsumInfo) : bool :=
  AAddr (info_of w (fst x)) <? AAddr (info_of w (fst y)).
Definition writeChecksums (w : execContext) : outcome execContext :=
  write_csums (reverse (sort_by (csum_less w) (values (csumMap w)))) w.

(** writeCopyout, one visited argument at a time. *)
Definition copyout_arg (v : ArgVisit) (w : execContext) : outcome execContext :=
  match v_arg v with
  | AResult r =>
      if decide (size (uses r) = 0%nat) then Ret w
      else
        let a := v_arg v in
        let info := info_of w a in
        if ARet info then Ret w
        else
          s ← ArgSize typeRefs a;
          let idx := copyoutSeq w in
          let w := set_args (set_seq w (idx +u 1)) (<[aid a := mkArgInfo (AAddr info) idx false]> (eargs w)) in
          Ret (writes [execInstrCopyout; idx; AAddr info; s] w)
  | _ => Ret w
  end.
Fixpoint copyout_visits (vs : list ArgVisit) (w : execContext) : outcome execContext :=
  match vs with
  | [] => Ret w
  | v :: vs => w ← copyout_arg v w; copyout_visits vs w
  end.
Definition writeCopyout (c : Call) (w : execContext) : outcome execContext :=
  vs ← ForeachArg typeRefs c; copyout_visits vs w.

(** The call instruction: id, copyout index of the return value, arguments. *)
Definition write_call (m : Syscall) (c : Call) (w : execContext) : outcome execContext :=
  let w := write (u64 (ID m)) w in
  w ← match CRet c with
      | Some r =>
          if decide (size (uses r) = 0%nat) then Ret (write ExecNoCopyout w)
          else if decide (is_Some (eargs w !! arg_id (res_common r))) then Panic
          else
            let idx := copyoutSeq w in
            Ret (set_seq (write idx (set_args w (<[arg_id (res_common r) := mkArgInfo 0 idx true]> (eargs w))))
                   (idx +u 1))
      | None => Ret (write ExecNoCopyout w)
      end;
  write_args (Args c) (write (len (Args c)) w).

(** The kfuzztest branch: the blob of [MarshallKFuzztestArg] and the id of
    syz_kfuzztest_run are parameters.  The length argument is updated in the
    program itself; the update is seen by the final call instruction. *)
Context (MarshallKFuzztestArg : option Arg → list Z) (kFuzzTestRunID : option Z).

Definition kfuzz_final (id : Z) (args : list Arg) (w : execContext) : outcome execContext :=
  write_args args (writes [u64 id; ExecNoCopyout; len args] w).
Definition set_const (v : Z) (a : Arg) : outcome Arg :=
  match a with ConstArg c _ => Ret (ConstArg c v) | _ => Panic end.
Definition serializeKFuzzTestCall (m : Syscall) (c : Call) (w : execContext) : outcome execContext :=
  match kFuzzTestRunID with
  | None => Panic
  | Some id =>
      a0 ← index (Args c) 0;
      w ← writeCopyin (mkCall (Some m) [a0] None noProps "") w;
      a1 ← index (Args c) 1;
      blob ← match a1 with PointerArg _ _ _ res => Ret (MarshallKFuzztestArg res) | _ => Panic end;
      if decide (KFuzzTestMaxInputSize < len blob) then kfuzz_final id (Args c) w
      else
        a3 ← index (Args c) 3;
        match a3 with
        | PointerArg _ _ _ None => kfuzz_final id (Args c) w
        | PointerArg _ address vma res =>
            addr ← PhysicalAddr address vma res;
            let w := write_blob blob
              (writes [execInstrCopyin; addr -u DataOffset target; execArgData; len blob] w) in
            a2 ← index (Args c) 2;
            a2' ← set_const (len blob) a2;
            kfuzz_final id (<[2%nat := a2']> (Args c)) w
        | _ => Panic
        end
  end.

Definition serializeCall (c : Call) (w : execContext) : outcome execContext :=
  match Meta c with
  | None => Panic
  | Some m =>
      if KFuzzTest (Attrs m) then serializeKFuzzTestCall m c w
      else
        w ← writeCopyin c w;
        w ← writeChecksums w;
        let w := if decide (Props c = noProps) then w else writeCallProps (Props c) w in
        w ← write_call m c w;
        writeCopyout c w
  end.

Inductive ExecError :=
| ErrActionIndex (i n : Z) | ErrTooLarge (n : Z) | ErrTooManyResources (n : Z).

Definition exec_action_less (a b : KConfuzzConfigAction) : bool :=
  if decide (ParamID a ≠ ParamID b) then ParamID a <? ParamID b else ValueID a <? ValueID b.
(** actionsByCall[i], sorted. *)
Definition actions_before (actions : list KConfuzzConfigAction) (i : Z) : list KConfuzzConfigAction :=
  sort_by exec_action_less (filter (λ a, BeforeCall a = i) actions).
Definition bad_action (n : Z) (actions : list KConfuzzConfigAction) : option KConfuzzConfigAction :=
  head (filter (λ a, BeforeCall a < 0 ∨ n < BeforeCall a) actions).

Fixpoint serialize_calls (actions : list KConfuzzConfigAction) (i : Z) (calls : list (option Call))
    (w : execContext) : outcome execContext :=
  match calls with
  | [] => Ret w
  | None :: _ => Panic
  | Some c :: calls =>
      let w := writeKConfuzzConfigActions (actions_before actions i) w in
      '(m, u) ← calcChecksumsCall typeRefs c;
      w ← serializeCall c (set_csums w m u);
      serialize_calls actions (i + 1) calls w
  end.

Definition SerializeForExecWithKConfuzz (p : Prog) (actions : list KConfuzzConfigAction)
    : outcome (ExecError + list Z) :=
  let n := len (Calls p) in
  match bad_action n actions with
  | Some a => Ret (inl (ErrActionIndex (BeforeCall a) n))
  | None =>
      w ← serialize_calls actions 0 (Calls p) (write n (mkExec [] ∅ 0 ∅ ∅));
      let w := write execInstrEOF (writeKConfuzzConfigActions (actions_before actions n) w) in
      if decide (ExecBufferSize < len (buf w)) then Ret (inl (ErrTooLarge (len (buf w))))
      else if decide (execMaxCommands < copyoutSeq w) then Ret (inl (ErrTooManyResources (copyoutSeq w)))
      else Ret (inr (buf w))
  end.
Definition SerializeForExec (p : Prog) : outcome (ExecError + list Z) := SerializeForExecWithKConfuzz p [].
End encode.
