(* ===== verification/DecodeExec.v ===== *)
(** * The exec format: decoder (src/prog/decodeexec.go)

    The decoder is a record of what it has read so far with a sticky error:
    once an error is set every read gives 0 and later errors are ignored.
    The size statistics (addStat) are diagnostics and are left out. *)

From S2P Require Import Prelude Prog ConfigContext Varint EncodingExec.

Record ExecCsumChunk := mkXChunk { XCKind : Z; XCValue : Z; XCSize : Z }.
(** The format byte is kept as the number that was read. *)
Inductive ExecArg :=
| ExecArgConst (Size Format Value BitfieldOffset BitfieldLength PidStride : Z)
| ExecArgResult (Size Format Index DivOp AddOp Default : Z)
| ExecArgData (Data : list Z) (Readable : bool)
| ExecArgCsum (Size Kind : Z) (Chunks : list ExecCsumChunk).

(** [Arg] is an interface: nil is [None]. *)
Record ExecCopyin := mkXCopyin { XInAddr : Z; XInArg : option ExecArg }.
Record ExecCopyout := mkXCopyout { XOutIndex : Z; XOutAddr : Z; XOutSize : Z }.
Record ExecCall := mkXCall {
  XMeta : option Syscall;
  XProps : CallProps;
  XIndex : Z;
  XArgs : list ExecArg;
  XCopyin : list ExecCopyin;
  XCopyout : list ExecCopyout
}.
Record ExecKConfuzzConfigAction := mkXAction {
  XBeforeCall : Z; XParamID : Z; XValueID : Z; XFlags : Z
}.
Record ExecProg := mkXProg {
  XCalls : list ExecCall;
  XVars : list Z;
  XKConfuzzActions : list ExecKConfuzzConfigAction
}.
Definition emptyExecCall : ExecCall := mkXCall None noProps 0 [] [] [].

Inductive DecodeError :=
| ErrOverflow | ErrBadNumberOfCalls (n got : Z) | ErrBadSyscall (id : Z)
| ErrBadCallArg (a : option ExecArg) | ErrCsumKind (k : Z) | ErrArgType (t : Z)
| ErrNumVars (got want : Z).

Record execDecoder := mkDec {
  d_data : list Z;
  d_err : option DecodeError;
  numVars : Z;
  d_vars : list Z;
  d_call : ExecCall;
  d_calls : list ExecCall;
  kconfuzzActions : list ExecKConfuzzConfigAction
}.
Definition set_data (d : execDecoder) l :=
  mkDec l (d_err d) (numVars d) (d_vars d) (d_call d) (d_calls d) (kconfuzzActions d).
Definition set_error (d : execDecoder) e :=
  mkDec (d_data d) e (numVars d) (d_vars d) (d_call d) (d_calls d) (kconfuzzActions d).
Definition set_vars (d : execDecoder) v :=
  mkDec (d_data d) (d_err d) (numVars d) v (d_call d) (d_calls d) (kconfuzzActions d).
Definition set_call (d : execDecoder) c :=
  mkDec (d_data d) (d_err d) (numVars d) (d_vars d) c (d_calls d) (kconfuzzActions d).
Definition add_kaction (d : execDecoder) a :=
  mkDec (d_data d) (d_err d) (numVars d) (d_vars d) (d_call d) (d_calls d) (kconfuzzActions d ++ [a]).

Definition setErr (e : DecodeError) (d : execDecoder) : execDecoder :=
  match d_err d with None => set_error d (Some e) | Some _ => d end.

Definition read (d : execDecoder) : Z * execDecoder :=
  match d_err d with
  | Some _ => (0, d)
  | None =>
      match varint (d_data d) with
      | None => (0, setErr ErrOverflow d)
      | Some (v, rest) => (v, set_data d rest)
      end
  end.
(** A nil slice and an empty one are not told apart. *)
Definition readBlob (size : Z) (d : execDecoder) : list Z * execDecoder :=
  let d := if decide (len (d_data d) < size) then setErr ErrOverflow d else d in
  match d_err d with
  | Some _ => ([], d)
  | None => (take (Z.to_nat size) (d_data d), set_data d (drop (Z.to_nat size) (d_data d)))
  end.

Definition meta_byte (meta shift : Z) : Z := Z.land (Z.shiftr meta shift) 0xff.

(** [make] of 24-byte chunks panics above the address space. *)
Definition max_chunks : Z := 2 ^ 48 / 24.

(** [for uint64(len(dec.vars)) <= arg.Index], then the store. *)
Definition store_var (idx def : Z) (vars : list Z) : list Z :=
  <[Z.to_nat idx := def]> (vars ++ replicate (Z.to_nat (idx + 1) - length vars) 0).

Section decode.
Context (target : Target).

Fixpoint read_chunks (n : nat) (d : execDecoder) : list ExecCsumChunk * execDecoder :=
  match n with
  | O => ([], d)
  | S n =>
      let '(kind, d) := read d in
      let '(addr, d) := read d in
      let '(size, d) := read d in
      let addr := if decide (kind = ExecArgCsumChunkData) then addr +u DataOffset target else addr in
      let '(l, d) := read_chunks n d in
      (mkXChunk kind addr size :: l, d)
  end.

Definition readArg (d : execDecoder) : outcome (option ExecArg * execDecoder) :=
  let '(typ, d) := read d in
  if decide (typ = execArgConst) then
    let '(meta, d) := read d in
    let '(v, d) := read d in
    Ret (Some (ExecArgConst (Z.land meta 0xff) (meta_byte meta 8) v (meta_byte meta 16) (meta_byte meta 24)
           (Z.shiftr meta 32)), d)
  else if decide (typ = execArgAddr32 ∨ typ = execArgAddr64) then
    let size := if decide (typ = execArgAddr64) then 8 else 4 in
    let '(v, d) := read d in
    Ret (Some (ExecArgConst size 0 (v +u DataOffset target) 0 0 0), d)
  else if decide (typ = execArgResult) then
    let '(meta, d) := read d in
    let '(idx, d) := read d in
    let '(div, d) := read d in
    let '(add, d) := read d in
    let '(def, d) := read d in
    Ret (Some (ExecArgResult (Z.land meta 0xff) (meta_byte meta 8) idx div add def),
         set_vars d (store_var idx def (d_vars d)))
  else if decide (typ = execArgData) then
    let '(flags, d) := read d in
    let size := Z.ldiff flags execArgDataReadable in
    let readable := bool_decide (Z.land flags execArgDataReadable ≠ 0) in
    let '(data, d) := readBlob size d in
    Ret (Some (ExecArgData data readable), d)
  else if decide (typ = execArgCsum) then
    let '(size, d) := read d in
    let '(kind, d) := read d in
    if decide (kind = ExecArgCsumInet) then
      let '(n, d) := read d in
      if decide (max_chunks < n) then Panic
      else
        let '(chunks, d) := read_chunks (Z.to_nat n) d in
        Ret (Some (ExecArgCsum size kind chunks), d)
    else Ret (None, setErr (ErrCsumKind kind) d)
  else Ret (None, setErr (ErrArgType typ) d).

Definition readCallProps (p : CallProps) (d : execDecoder) : CallProps * execDecoder :=
  let '(fail, d) := read d in
  let '(async, d) := read d in
  let '(rerun, d) := read d in
  (mkCallProps (i64 fail) (if decide (async = 1) then true else Async p) (i64 rerun), d).

Definition commit_vars (c : ExecCall) (n : Z) : Z :=
  let n := if decide (XIndex c ≠ ExecNoCopyout ∧ n < XIndex c +u 1) then XIndex c +u 1 else n in
  foldl (λ n o, Z.max n (XOutIndex o +u 1)) n (XCopyout c).
Definition commitCall (d : execDecoder) : execDecoder :=
  match XMeta (d_call d) with
  | None => d
  | Some _ =>
      mkDec (d_data d) (d_err d) (commit_vars (d_call d) (numVars d)) (d_vars d) emptyExecCall
        (d_calls d ++ [d_call d]) (kconfuzzActions d)
  end.

Definition with_props (c : ExecCall) p := mkXCall (XMeta c) p (XIndex c) (XArgs c) (XCopyin c) (XCopyout c).
Definition with_meta (c : ExecCall) m i := mkXCall m (XProps c) i (XArgs c) (XCopyin c) (XCopyout c).
Definition add_arg (c : ExecCall) a := mkXCall (XMeta c) (XProps c) (XIndex c) (XArgs c ++ [a]) (XCopyin c) (XCopyout c).
Definition add_copyin (c : ExecCall) i := mkXCall (XMeta c) (XProps c) (XIndex c) (XArgs c) (XCopyin c ++ [i]) (XCopyout c).
Definition add_copyout (c : ExecCall) o := mkXCall (XMeta c) (XProps c) (XIndex c) (XArgs c) (XCopyin c) (XCopyout c ++ [o]).

(** The loop over the call arguments: [false] when the parse stops there. *)
Fixpoint read_args (n : nat) (d : execDecoder) : outcome (bool * execDecoder) :=
  match n with
  | O => Ret (true, d)
  | S n =>
      '(a, d) ← readArg d;
      match a with
      | Some (ExecArgConst _ _ _ _ _ _ as x) | Some (ExecArgResult _ _ _ _ _ _ as x) =>
          read_args n (set_call d (add_arg (d_call d) x))
      | _ => Ret (false, setErr (ErrBadCallArg a) d)
      end
  end.

(** One round of the parse loop: [false] when it returns. *)
Definition parse_instr (ncalls : Z) (d : execDecoder) : outcome (bool * execDecoder) :=
  let '(instr, d) := read d in
  if decide (instr = execInstrCopyin) then
    let d := commitCall d in
    let '(addr, d) := read d in
    '(a, d) ← readArg d;
    Ret (true, set_call d (add_copyin (d_call d) (mkXCopyin (addr +u DataOffset target) a)))
  else if decide (instr = execInstrCopyout) then
    let '(idx, d) := read d in
    let '(addr, d) := read d in
    let '(size, d) := read d in
    Ret (true, set_call d (add_copyout (d_call d) (mkXCopyout idx (addr +u DataOffset target) size)))
  else if decide (instr = execInstrEOF) then
    let d := commitCall d in
    Ret (false, if decide (ncalls ≠ len (d_calls d))
                then set_error d (Some (ErrBadNumberOfCalls ncalls (len (d_calls d)))) else d)
  else if decide (instr = execInstrSetProps) then
    let d := commitCall d in
    let '(p, d) := readCallProps (XProps (d_call d)) d in
    Ret (true, set_call d (with_props (d_call d) p))
  else if decide (instr = execInstrKConfuzzConfig) then
    let d := commitCall d in
    let before := len (d_calls d) in
    let '(p, d) := read d in
    let '(v, d) := read d in
    let '(f, d) := read d in
    Ret (true, add_kaction d (mkXAction before p v f))
  else
    let d := commitCall d in
    match Syscalls target !! Z.to_nat instr with
    | None => Ret (false, setErr (ErrBadSyscall instr) d)
    | Some m =>
        let '(idx, d) := read d in
        let d := set_call d (with_meta (d_call d) (Some m) idx) in
        let '(nargs, d) := read d in
        read_args (Z.to_nat nargs) d
    end.

(** [for dec.err == nil]; every round that does not fail consumes a byte. *)
Fixpoint parse_loop (fuel : nat) (ncalls : Z) (d : execDecoder) : outcome execDecoder :=
  match fuel with
  | O => Ret d
  | S fuel =>
      match d_err d with
      | Some _ => Ret d
      | None =>
          '(more, d') ← parse_instr ncalls d;
          if (more : bool) then parse_loop fuel ncalls d' else Ret d'
      end
  end.
Definition newDecoder (data : list Z) : execDecoder := mkDec data None 0 [] emptyExecCall [] [].
Definition parse (d : execDecoder) : outcome execDecoder :=
  let '(ncalls, d) := read d in parse_loop (S (length (d_data d))) ncalls d.

Definition DeserializeExec (exec : list Z) : outcome (DecodeError + ExecProg) :=
  d ← parse (newDecoder exec);
  match d_err d with
  | Some e => Ret (inl e)
  | None =>
      if decide (len (d_vars d) ≠ numVars d) then Ret (inl (ErrNumVars (len (d_vars d)) (numVars d)))
      else Ret (inr (mkXProg (d_calls d) (d_vars d) (kconfuzzActions d)))
  end.
End decode.

Definition MaxCalls : Z := 40.
Inductive CountError := ErrNotEnoughData | ErrTooManyCalls (n : Z).
(** ExecCallCount: the header word as a signed number. *)
Definition ExecCallCount (exec : list Z) : CountError + Z :=
  match varint exec with
  | None => inl ErrNotEnoughData
  | Some (v, _) => if decide (MaxCalls < i64 v) then inl (ErrTooManyCalls (i64 v)) else inr (i64 v)
  end.

(** ** The decoder terminates

    [adv d d']: errors are sticky and input is only consumed. *)
Definition adv (d d' : execDecoder) : Prop :=
  (is_Some (d_err d) → d_err d' = d_err d) ∧ (length (d_data d') ≤ length (d_data d))%nat.
#[export] Instance adv_preorder : PreOrder adv.
Proof.
  split; [by intros d|]. intros x y z [H1 H2] [H3 H4]. split; [|lia].
  intros Hx. rewrite H3; [by apply H1|]. by rewrite (H1 Hx).
Qed.
Lemma adv_setErr e d : adv d (setErr e d).
Proof. unfold setErr. destruct (d_err d) eqn:E; [done|]. split; [|done]. rewrite E. by intros [? ?]. Qed.
Lemma uvarint_rest i x l v rest : uvarint i x l = Some (v, rest) → (length rest < length l)%nat.
Proof.
  revert i x. induction l as [|b l IH]; intros i x H; [done|]. cbn [uvarint] in H.
  repeat case_decide; simplify_eq; cbn; [lia|]. apply IH in H. lia.
Qed.
Lemma read_adv d v d' :
  read d = (v, d') → adv d d' ∧ (d_err d' = None → (length (d_data d') < length (d_data d))%nat).
Proof.
  unfold read. destruct (d_err d) as [e|] eqn:E; [intros [= <- <-]; by rewrite E|].
  unfold varint. destruct (uvarint 0 0 (d_data d)) as [[ux rest]|] eqn:Eu; intros [= <- <-].
  - apply uvarint_rest in Eu. split; [|done]. split; [|cbn; lia]. rewrite E. by intros [? ?].
  - unfold setErr. rewrite E. split; [|done]. split; [|done]. rewrite E. by intros [? ?].
Qed.
Lemma read_adv1 d v d' : read d = (v, d') → adv d d'.
Proof. intros H. by destruct (read_adv d v d' H). Qed.
Lemma readBlob_adv n d l d' : readBlob n d = (l, d') → adv d d'.
Proof.
  unfold readBlob. intros H.
  assert (Hd : adv d (if decide (len (d_data d) < n) then setErr ErrOverflow d else d))
    by (case_decide; [apply adv_setErr|done]).
  etrans; [exact Hd|]. set (d1 := if decide _ then _ else _) in *. clearbody d1.
  destruct (d_err d1) eqn:E; simplify_eq; [done|]. split; [rewrite E; by intros [? ?]|]. cbn. rewrite length_drop. lia.
Qed.

(** Follow the reads of a decoder function. *)
Ltac adv_read H :=
  match type of H with
  | context [let '(_, _) := read ?d in _] =>
      let v := fresh "x" in let d' := fresh "d" in let E := fresh "Er" in
      destruct (read d) as [v d'] eqn:E; apply read_adv1 in E
  end.
Ltac adv_reads H := repeat adv_read H.

Section termination.
Context (target : Target).

Lemma read_chunks_adv n d l d' : read_chunks target n d = (l, d') → adv d d'.
Proof.
  revert d l. induction n as [|n IH]; intros d l H; cbn [read_chunks] in H; [by simplify_eq|].
  adv_reads H. destruct (read_chunks target n d2) as [l' d''] eqn:E. simplify_eq. apply IH in E.
  by do 3 (etrans; [eassumption|]).
Qed.
Lemma adv_state d d' : d_err d' = d_err d → d_data d' = d_data d → adv d d'.
Proof. intros H1 H2. split; [done|by rewrite H2]. Qed.
Ltac adv_chain := repeat (etrans; [eassumption|]); try done; try (by apply adv_state); try apply adv_setErr.
Lemma readArg_adv d a d' : readArg target d = Ret (a, d') → adv d d'.
Proof.
  unfold readArg. intros H. destruct (read d) as [typ d1] eqn:E1. apply read_adv1 in E1. etrans; [exact E1|]. clear E1.
  destruct (decide (typ = execArgConst)); [adv_reads H; simplify_eq; adv_chain|].
  destruct (decide (typ = execArgAddr32 ∨ typ = execArgAddr64)); [adv_reads H; simplify_eq; adv_chain|].
  destruct (decide (typ = execArgResult)); [adv_reads H; simplify_eq; adv_chain|].
  destruct (decide (typ = execArgData)).
  { adv_reads H. destruct (readBlob _ _) as [l d2] eqn:E2. apply readBlob_adv in E2. simplify_eq. adv_chain. }
  destruct (decide (typ = execArgCsum)); [|simplify_eq; adv_chain].
  do 2 adv_read H. destruct (decide (x0 = ExecArgCsumInet)); [|simplify_eq; adv_chain].
  adv_reads H. destruct (decide (max_chunks < x1)); [done|].
  destruct (read_chunks _ _ _) as [l d4] eqn:E. apply read_chunks_adv in E. simplify_eq. adv_chain.
Qed.
Lemma read_args_adv n d b d' : read_args target n d = Ret (b, d') → adv d d'.
Proof.
  revert d. induction n as [|n IH]; intros d H; cbn [read_args] in H; [by simplify_eq|].
  inv_ret H. destruct v as [a d1]. apply readArg_adv in Hv. etrans; [exact Hv|].
  destruct a as [[]|]; simplify_eq; try apply adv_setErr; apply IH in H; (etrans; [|exact H]); by apply adv_state.
Qed.
Lemma commitCall_adv d : adv d (commitCall d).
Proof. unfold commitCall. destruct (XMeta _); [by apply adv_state|done]. Qed.

(** A round that goes on has failed or consumed input. *)
Lemma parse_instr_progress n d d' :
  parse_instr target n d = Ret (true, d') → is_Some (d_err d') ∨ (length (d_data d') < length (d_data d))%nat.
Proof.
  unfold parse_instr. intros H. destruct (read d) as [instr d1] eqn:E1. apply read_adv in E1 as [Ha Hs].
  assert (Hadv : adv d1 d' → is_Some (d_err d') ∨ (length (d_data d') < length (d_data d))%nat).
  { intros [He Hl]. destruct (d_err d1) as [e|] eqn:E; [left; by rewrite He|]. right. specialize (Hs eq_refl). lia. }
  apply Hadv. clear Hadv Hs Ha. pose proof (commitCall_adv d1) as Hc.
  destruct (decide (instr = execInstrCopyin)).
  { adv_reads H. inv_ret H. destruct v as [a d3]. apply readArg_adv in Hv. simplify_eq. adv_chain. }
  destruct (decide (instr = execInstrCopyout)); [clear Hc; adv_reads H; simplify_eq; adv_chain|].
  destruct (decide (instr = execInstrEOF)); [done|].
  destruct (decide (instr = execInstrSetProps)); [unfold readCallProps in H; adv_reads H; simplify_eq; adv_chain|].
  destruct (decide (instr = execInstrKConfuzzConfig)); [adv_reads H; simplify_eq; adv_chain|].
  destruct (Syscalls target !! Z.to_nat instr); [|done]. adv_reads H. apply read_args_adv in H. adv_chain.
Qed.

Lemma parse_loop_enough f1 f2 n d :
  (length (d_data d) < f1)%nat → (length (d_data d) < f2)%nat → parse_loop target f1 n d = parse_loop target f2 n d.
Proof.
  revert f2 d. induction f1 as [|f1 IH]; intros [|f2] d H1 H2; try lia. cbn [parse_loop].
  destruct (d_err d) eqn:E; [done|]. destruct (parse_instr target n d) as [[more d']|] eqn:Ep; [|done].
  cbn [mbind outcome_bind]. destruct more; [|done]. apply parse_instr_progress in Ep as [[e He]|Hl].
  - destruct f1, f2; cbn [parse_loop]; rewrite ?He; done.
  - apply IH; lia.
Qed.

(** The decoder's loop terminates on every buffer: one round per byte (and
    one more) is enough, since a round that goes on has either set the sticky
    error or consumed input; allowing more rounds never changes the result. *)
Theorem parse_terminates n d k :
  parse_loop target (S (length (d_data d)) + k) n d = parse_loop target (S (length (d_data d))) n d.
Proof. apply parse_loop_enough; lia. Qed.
End termination.

(** ** Reading past an error *)

Definition zeroArg : ExecArg := ExecArgConst 0 0 0 0 0 0.
Lemma read_after_error d e : d_err d = Some e → read d = (0, d).
Proof. unfold read. by intros ->. Qed.
Lemma readArg_after_error target d e : d_err d = Some e → readArg target d = Ret (Some zeroArg, d).
Proof. intros H. unfold readArg. by rewrite !(read_after_error d e H). Qed.

(** Once the input has run out, the loop over a call's arguments is not
    stopped by the error: it appends a zero constant for each of the [n]
    arguments the corrupt count promised, however large, and only then does
    the parse end. *)
Theorem read_args_after_error target n d e :
  d_err d = Some e →
  read_args target n d
  = Ret (true, set_call d (mkXCall (XMeta (d_call d)) (XProps (d_call d)) (XIndex (d_call d))
      (XArgs (d_call d) ++ replicate n zeroArg) (XCopyin (d_call d)) (XCopyout (d_call d)))).
Proof.
  revert d. induction n as [|n IH]; intros d H; cbn [read_args replicate].
  - rewrite app_nil_r. by destruct d as [? ? ? ? [] ? ?].
  - rewrite (readArg_after_error target d e H). cbn [mbind outcome_bind zeroArg].
    rewrite IH by done. cbn. by rewrite <-app_assoc.
Qed.

(** The buffer ends where the first argument should start; the count says 5. *)
Definition truncated_target : Target :=
  mkTarget 4096 4096 0
    [mkSyscall 0 1 "exit" "exit" 0 [] None
       (mkSyscallAttrs false 0 0 false false false false false false false false false false "" "")]
    ∅ ∅ [].
Lemma read_args_after_error_witness :
  ∃ d, read_args truncated_target 5 (set_error (newDecoder []) (Some ErrOverflow)) = Ret (true, d) ∧
    XArgs (d_call d) = replicate 5 zeroArg.
Proof. eexists. split; [by apply (read_args_after_error _ 5 _ ErrOverflow)|]. done. Defined.
