(* ===== verification/ExecInstr.v ===== *)
(** * Exec instructions

    The abstract syntax of the exec format: what a buffer means, independent
    of the encoder's and the decoder's state.  [instr_bytes] is the canonical
    encoding; the decoder run on it does [apply_instr] and nothing else. *)

From S2P Require Import Prelude Prog ConfigContext Varint EncodingExec DecodeExec.

Inductive earg :=
| EConst (meta val : Z)
| EAddr (wide : bool) (off : Z)
| EResult (meta idx div add def : Z)
| EData (readable : bool) (data : list Z)
| ECsum (size : Z) (chunks : list ExecCsumChunk).
Inductive einstr :=
| ICopyin (addr : Z) (a : earg)
| ICopyout (idx addr size : Z)
| IProps (p : CallProps)
| IAction (a : KConfuzzConfigAction)
| ICall (id idx : Z) (args : list earg).

Fixpoint words (vs : list Z) : list Z :=
  match vs with [] => [] | v :: vs => varint_bytes v ++ words vs end.
Definition chunk_words (c : ExecCsumChunk) : list Z := [XCKind c; XCValue c; XCSize c].
Definition data_flags (readable : bool) (data : list Z) : Z :=
  if readable then Z.lor (len data) execArgDataReadable else len data.
Definition arg_bytes (a : earg) : list Z :=
  match a with
  | EConst meta val => words [execArgConst; meta; val]
  | EAddr wide off => words [if wide then execArgAddr64 else execArgAddr32; off]
  | EResult meta idx div add def => words [execArgResult; meta; idx; div; add; def]
  | EData readable data => words [execArgData; data_flags readable data] ++ data
  | ECsum size chunks =>
      words [execArgCsum; size; ExecArgCsumInet; len chunks] ++ words (chunks ≫= chunk_words)
  end.
Definition instr_bytes (i : einstr) : list Z :=
  match i with
  | ICopyin addr a => words [execInstrCopyin; addr] ++ arg_bytes a
  | ICopyout idx addr size => words [execInstrCopyout; idx; addr; size]
  | IProps p => words [execInstrSetProps; FailNth p; bool_word (Async p); Rerun p]
  | IAction a => words [execInstrKConfuzzConfig; ParamID a; ValueID a; Flags a]
  | ICall id idx args => words [id; idx; len args] ++ (args ≫= arg_bytes)
  end.

(** ** Reading words *)

Lemma i64_of_u64 v : i64 (u64 v) = i64 v.
Proof. unfold i64, u64. rewrite Zplus_mod_idemp_l. done. Qed.
Lemma varint_bytes_u64 v : varint_bytes (u64 v) = varint_bytes v.
Proof. unfold varint_bytes, zigzag. by rewrite i64_of_u64. Qed.
Lemma varint_word v rest : varint (varint_bytes v ++ rest) = Some (u64 v, rest).
Proof. rewrite <-varint_bytes_u64. apply varint_roundtrip, u64_range. Qed.
Lemma varint_bytes_length v : (1 ≤ length (varint_bytes v))%nat.
Proof. unfold varint_bytes. cbn [uvarint_bytes]. case_decide; cbn [length]; lia. Qed.

Lemma words_length vs : (length vs ≤ length (words vs))%nat.
Proof.
  induction vs as [|v vs IH]; cbn [words length]; [lia|].
  rewrite length_app. pose proof (varint_bytes_length v). lia.
Qed.
Lemma words_app vs1 vs2 : words (vs1 ++ vs2) = words vs1 ++ words vs2.
Proof. induction vs1 as [|v vs1 IH]; cbn [words app]; [done|]. by rewrite IH, app_assoc. Qed.
Lemma words_cons_app v vs rest : words (v :: vs) ++ rest = varint_bytes v ++ (words vs ++ rest).
Proof. cbn [words]. by rewrite app_assoc. Qed.

Arguments read : simpl never.
Lemma read_word v rest d :
  d_err d = None → read (set_data d (varint_bytes v ++ rest)) = (u64 v, set_data d rest).
Proof.
  intros H. unfold read. cbn [d_err set_data d_data]. rewrite H. by rewrite varint_word.
Qed.
Lemma read_eta d : set_data d (d_data d) = d.
Proof. by destruct d. Qed.

(** Read every word of a [words] list that the goal decodes. *)
Ltac read_words :=
  repeat (rewrite words_cons_app || (rewrite read_word by done)); cbn [words app]; rewrite ?app_nil_l.

(** Resolve the decoder's dispatch on a literal code. *)
Ltac dispatch_on P :=
  first [ rewrite (decide_True (P := P)) by (by vm_compute)
        | rewrite (decide_False (P := P)) by (vm_compute; intuition discriminate) ].
Ltac dispatch :=
  repeat match goal with
  | |- context [decide (?a = ?b)] => dispatch_on (a = b)
  | |- context [decide (?a = ?b ∨ ?c = ?d)] => dispatch_on (a = b ∨ c = d)
  end.

Lemma max_chunks_large : ExecBufferSize < max_chunks.
Proof. by vm_compute. Qed.

Section decode_instr.
Context (target : Target).

Definition dec_chunk (c : ExecCsumChunk) : ExecCsumChunk :=
  let k := u64 (XCKind c) in
  mkXChunk k (if decide (k = ExecArgCsumChunkData) then u64 (XCValue c) +u DataOffset target else u64 (XCValue c))
    (u64 (XCSize c)).
Definition dec_arg (a : earg) : ExecArg :=
  match a with
  | EConst meta val =>
      let m := u64 meta in
      ExecArgConst (Z.land m 0xff) (meta_byte m 8) (u64 val) (meta_byte m 16) (meta_byte m 24) (Z.shiftr m 32)
  | EAddr wide off => ExecArgConst (if wide then 8 else 4) 0 (u64 off +u DataOffset target) 0 0 0
  | EResult meta idx div add def =>
      ExecArgResult (Z.land (u64 meta) 0xff) (meta_byte (u64 meta) 8) (u64 idx) (u64 div) (u64 add) (u64 def)
  | EData readable data => ExecArgData data readable
  | ECsum size chunks => ExecArgCsum (u64 size) ExecArgCsumInet (dec_chunk <$> chunks)
  end.
Definition dec_vars (a : earg) (vars : list Z) : list Z :=
  match a with EResult _ idx _ _ def => store_var (u64 idx) (u64 def) vars | _ => vars end.

(** A call argument is a constant, an address or a result. *)
Definition call_arg (a : earg) : bool :=
  match a with EConst _ _ | EAddr _ _ | EResult _ _ _ _ _ => true | _ => false end.
Definition wf_instr (i : einstr) : Prop :=
  len (instr_bytes i) ≤ ExecBufferSize ∧
  match i with
  | ICall id _ args => 0 ≤ u64 id < len (Syscalls target) ∧ Forall call_arg args
  | _ => True
  end.

Definition apply_arg (d : execDecoder) (a : earg) : execDecoder :=
  let d := set_vars d (dec_vars a (d_vars d)) in set_call d (add_arg (d_call d) (dec_arg a)).
Definition apply_instr (d : execDecoder) (i : einstr) : execDecoder :=
  match i with
  | ICopyin addr a =>
      let d := commitCall d in
      let d := set_vars d (dec_vars a (d_vars d)) in
      set_call d (add_copyin (d_call d) (mkXCopyin (u64 addr +u DataOffset target) (Some (dec_arg a))))
  | ICopyout idx addr size =>
      set_call d (add_copyout (d_call d) (mkXCopyout (u64 idx) (u64 addr +u DataOffset target) (u64 size)))
  | IProps p =>
      let d := commitCall d in
      set_call d (with_props (d_call d)
        (mkCallProps (i64 (FailNth p)) (if Async p then true else Async (XProps (d_call d))) (i64 (Rerun p))))
  | IAction a =>
      let d := commitCall d in
      add_kaction d (mkXAction (len (d_calls d)) (u64 (ParamID a)) (u64 (ValueID a)) (u64 (Flags a)))
  | ICall id idx args =>
      let d := commitCall d in
      foldl apply_arg
        (set_call d (with_meta (d_call d) (Syscalls target !! Z.to_nat (u64 id)) (u64 idx))) args
  end.

Lemma read_chunks_words chunks rest d :
  d_err d = None →
  read_chunks target (length chunks) (set_data d (words (chunks ≫= chunk_words) ++ rest))
  = (dec_chunk <$> chunks, set_data d rest).
Proof.
  intros Hd. induction chunks as [|c chunks IH]; [done|].
  cbn [mbind list_bind length read_chunks fmap list_fmap]. unfold chunk_words at 1. cbn [app].
  do 3 (rewrite words_cons_app; rewrite read_word by done). by rewrite IH.
Qed.

Lemma data_flags_spec readable data :
  len data < 2 ^ 63 →
  Z.ldiff (u64 (data_flags readable data)) execArgDataReadable = len data ∧
  bool_decide (Z.land (u64 (data_flags readable data)) execArgDataReadable ≠ 0) = readable.
Proof.
  intros Hl. assert (Hn : 0 ≤ len data) by (unfold len; lia).
  unfold data_flags, execArgDataReadable in *.
  assert (Hhi : Z.testbit (len data) 63 = false).
  { rewrite <-(Z.mod_small (len data) (2 ^ 63)) by lia. by apply Z.mod_pow2_bits_high. }
  assert (Hlor : Z.lor (len data) (2 ^ 63) = len data + 2 ^ 63).
  { change (2 ^ 63) with (Z.shiftl 1 63) at 1. rewrite lor_shifted by lia. lia. }
  rewrite u64_id by (unfold in_u64; destruct readable; lia).
  assert (Hbit : ∀ x, Z.land x (2 ^ 63) = if Z.testbit x 63 then 2 ^ 63 else 0).
  { intros x. apply Z.bits_inj'. intros n Hn'. rewrite Z.land_spec, Z.pow2_bits_eqb by lia.
    destruct (Z.eqb_spec 63 n) as [<-|Hne]; [destruct (Z.testbit x 63)|].
    - by rewrite Z.pow2_bits_true.
    - by rewrite Z.bits_0.
    - rewrite andb_false_r. destruct (Z.testbit x 63); [|by rewrite Z.bits_0].
      rewrite Z.pow2_bits_eqb by lia. by destruct (Z.eqb_spec 63 n). }
  assert (Hclr : ∀ y, (y = 0 ∨ y = 2 ^ 63) → Z.ldiff (Z.lor (len data) y) (2 ^ 63) = len data).
  { intros y Hy. apply Z.bits_inj'. intros n Hn'. rewrite Z.ldiff_spec, Z.lor_spec, Z.pow2_bits_eqb by lia.
    destruct (Z.eqb_spec 63 n) as [<-|Hne]; [by rewrite Hhi, andb_false_r|].
    rewrite andb_true_r. destruct Hy as [-> | ->]; [by rewrite Z.bits_0, orb_false_r|].
    rewrite Z.pow2_bits_eqb by lia. destruct (Z.eqb_spec 63 n); [done|]. by rewrite orb_false_r. }
  destruct readable; split.
  - apply Hclr. by right.
  - rewrite Hbit, Z.lor_spec, Hhi, Z.pow2_bits_true by lia. done.
  - rewrite <-(Hclr 0) at 2 by (by left). by rewrite Z.lor_0_r.
  - by rewrite Hbit, Hhi.
Qed.

Lemma readArg_bytes a rest d :
  d_err d = None → len (arg_bytes a) ≤ ExecBufferSize →
  readArg target (set_data d (arg_bytes a ++ rest))
  = Ret (Some (dec_arg a), set_data (set_vars d (dec_vars a (d_vars d))) rest).
Proof.
  intros Hd Hlen. assert (HB : ExecBufferSize < 2 ^ 63) by done.
  destruct a as [meta val|wide off|meta idx div add def|readable data|size chunks]; cbn [arg_bytes] in *;
    rewrite <-?app_assoc; unfold readArg.
  - read_words. by destruct d.
  - read_words. destruct wide; by destruct d.
  - read_words. done.
  - read_words. dispatch. 
    assert (Hl : len data ≤ ExecBufferSize) by (unfold len in *; rewrite length_app in Hlen; lia).
    destruct (data_flags_spec readable data) as [-> ->]; [lia|].
    unfold readBlob. cbn [set_data d_data d_err]. rewrite decide_False by (unfold len; rewrite length_app; lia).
    cbn [set_data d_data d_err]. rewrite Hd.
    unfold len. rewrite Nat2Z.id, take_app_length, drop_app_length. by destruct d.
  - read_words. dispatch.
    assert (Hl : len chunks ≤ ExecBufferSize).
    { unfold len in *. rewrite length_app in Hlen. pose proof (words_length (chunks ≫= chunk_words)) as Hw.
      assert (Hc : (length chunks ≤ length (chunks ≫= chunk_words))%nat).
      { clear. induction chunks as [|c chunks IH]; cbn; [done|]. cbn in IH. lia. }
      lia. }
    rewrite u64_id by (unfold in_u64, len in *; lia). pose proof max_chunks_large.
    rewrite decide_False by lia. unfold len. rewrite Nat2Z.id.
    rewrite read_chunks_words by done. by destruct d.
Qed.

Lemma commitCall_data d l : commitCall (set_data d l) = set_data (commitCall d) l.
Proof. unfold commitCall. cbn. by destruct (XMeta (d_call d)). Qed.
Lemma set_call_data d l c : set_call (set_data d l) c = set_data (set_call d c) l.
Proof. done. Qed.
Lemma commitCall_err d : d_err (commitCall d) = d_err d.
Proof. unfold commitCall. by destruct (XMeta (d_call d)). Qed.
Lemma apply_arg_err d a : d_err (apply_arg d a) = d_err d.
Proof. done. Qed.
Lemma apply_args_err args d : d_err (foldl apply_arg d args) = d_err d.
Proof. revert d. induction args as [|a args IH]; intros d; cbn [foldl]; [done|]. by rewrite IH. Qed.
Lemma apply_instr_err d i : d_err (apply_instr d i) = d_err d.
Proof. destruct i; cbn; rewrite ?apply_args_err; cbn; by rewrite ?commitCall_err. Qed.

Lemma args_bytes_bound a args :
  a ∈ args → len (arg_bytes a) ≤ len (args ≫= arg_bytes).
Proof.
  unfold len. induction 1 as [|x l Ha IH]; cbn [mbind list_bind]; rewrite length_app; [lia|].
  cbn [mbind list_bind] in IH. lia.
Qed.

Lemma read_args_bytes args rest d :
  d_err d = None → Forall call_arg args → len (args ≫= arg_bytes) ≤ ExecBufferSize →
  read_args target (length args) (set_data d ((args ≫= arg_bytes) ++ rest))
  = Ret (true, set_data (foldl apply_arg d args) rest).
Proof.
  revert d. induction args as [|a args IH]; intros d Hd Hc Hlen; [done|].
  inv Hc. cbn [mbind list_bind length read_args foldl] in *. rewrite <-app_assoc.
  unfold len in Hlen. rewrite length_app in Hlen.
  rewrite readArg_bytes by (done || (unfold len; lia)). cbn [mbind outcome_bind].
  destruct a; try done; apply (IH (apply_arg d _)); (done || (unfold len; lia)).
Qed.

Hypothesis Hsys : len (Syscalls target) < 2 ^ 63.

Lemma parse_instr_bytes n i rest d :
  d_err d = None → wf_instr i →
  parse_instr target n (set_data d (instr_bytes i ++ rest)) = Ret (true, set_data (apply_instr d i) rest).
Proof.
  intros Hd [Hlen Hwf]. pose proof (commitCall_err d) as He. rewrite Hd in He.
  destruct i as [addr a|idx addr size|p|a|id idx args]; cbn [instr_bytes] in *; rewrite <-?app_assoc;
    unfold parse_instr; read_words.
  - dispatch. rewrite commitCall_data. read_words. rewrite readArg_bytes; [done|done|].
    unfold len in *. rewrite length_app in Hlen. lia.
  - dispatch. read_words. done.
  - dispatch. rewrite commitCall_data. unfold readCallProps. read_words. cbn [apply_instr].
    rewrite !i64_of_u64. by destruct (Async p).
  - dispatch. rewrite commitCall_data. read_words. done.
  - unfold execInstrCopyin, execInstrCopyout, execInstrEOF, execInstrSetProps, execInstrKConfuzzConfig.
    destruct Hwf as [Hid Hargs]. rewrite !decide_False by lia. rewrite commitCall_data.
    destruct (lookup_lt_is_Some_2 (Syscalls target) (Z.to_nat (u64 id))) as [m Hm]; [unfold len in *; lia|].
    rewrite Hm. read_words. rewrite set_call_data. read_words. cbn [apply_instr]. rewrite Hm.
    assert (Hall : len (args ≫= arg_bytes) ≤ ExecBufferSize)
      by (unfold len in *; rewrite length_app in Hlen; lia).
    assert (Hn : len args ≤ ExecBufferSize).
    { clear -Hall. unfold len in *. assert (length args ≤ length (args ≫= arg_bytes))%nat; [|lia].
      clear. induction args as [|a args IH]; [done|]. cbn [mbind list_bind length]. rewrite length_app.
      cbn [mbind list_bind] in IH. assert (1 ≤ length (arg_bytes a))%nat; [|lia].
      destruct a; cbn [arg_bytes]; rewrite ?length_app;
        match goal with |- context [length (words ?l)] => pose proof (words_length l) as Hw; cbn [length] in Hw; lia end. }
    assert (HB : ExecBufferSize < 2 ^ 63) by done.
    rewrite (u64_id (len args)) by (unfold in_u64, len in *; lia). unfold len. rewrite Nat2Z.id.
    rewrite <-(read_args_bytes args rest (set_call (commitCall d) _)); done.
Qed.

Lemma parse_loop_instrs l n f rest d :
  d_err d = None → Forall wf_instr l →
  parse_loop target (length l + f) n (set_data d ((l ≫= instr_bytes) ++ rest))
  = parse_loop target f n (set_data (foldl apply_instr d l) rest).
Proof.
  revert d. induction l as [|i l IH]; intros d Hd Hwf; [done|]. inv Hwf.
  cbn [mbind list_bind length foldl Nat.add parse_loop] in *. rewrite <-app_assoc.
  cbn [set_data d_err]. rewrite Hd. rewrite parse_instr_bytes by done. cbn [mbind outcome_bind].
  apply IH; [by rewrite apply_instr_err|done].
Qed.
Lemma instrs_length l : (length l ≤ length (l ≫= instr_bytes))%nat.
Proof.
  induction l as [|i l IH]; [done|]. cbn [mbind list_bind length]. rewrite length_app.
  cbn [mbind list_bind] in IH. assert (1 ≤ length (instr_bytes i))%nat; [|lia].
  destruct i; cbn [instr_bytes]; rewrite ?length_app;
    match goal with |- context [length (words ?l)] => pose proof (words_length l) as Hw; cbn [length] in Hw; lia end.
Qed.

(** A whole buffer: header, instructions, end marker. *)
Definition prog_bytes (ncalls : Z) (l : list einstr) : list Z :=
  varint_bytes ncalls ++ (l ≫= instr_bytes) ++ varint_bytes execInstrEOF.
Definition run_instrs (l : list einstr) : execDecoder :=
  commitCall (foldl apply_instr (newDecoder []) l).

Lemma run_instrs_err l : d_err (run_instrs l) = None.
Proof.
  unfold run_instrs. rewrite commitCall_err. revert l. assert (H : ∀ l d, d_err d = None → d_err (foldl apply_instr d l) = None).
  { induction l as [|i l IH]; intros d Hd; [done|]. cbn [foldl]. apply IH. by rewrite apply_instr_err. }
  intros l. by apply H.
Qed.

(** The decoder's result on a canonical buffer is that of its instructions. *)
Lemma parse_prog_bytes ncalls l :
  Forall wf_instr l → u64 ncalls = len (d_calls (run_instrs l)) →
  ∃ rest, parse target (newDecoder (prog_bytes ncalls l)) = Ret (set_data (run_instrs l) rest).
Proof.
  intros Hwf Hn. unfold parse, prog_bytes.
  change (newDecoder (varint_bytes ncalls ++ ?r)) with (set_data (newDecoder []) (varint_bytes ncalls ++ r)).
  rewrite read_word by done. cbn [set_data d_data].
  set (b := (l ≫= instr_bytes) ++ varint_bytes execInstrEOF).
  assert (Hf : (length l ≤ length b)%nat) by (unfold b; rewrite length_app; pose proof (instrs_length l); lia).
  replace (S (length b)) with (length l + S (length b - length l))%nat by lia. unfold b at 2.
  change (mkDec ?x None 0 [] emptyExecCall [] []) with (set_data (newDecoder []) x).
  rewrite parse_loop_instrs by done. cbn [parse_loop set_data d_err].
  assert (He : d_err (foldl apply_instr (newDecoder []) l) = None).
  { pose proof (run_instrs_err l) as He. unfold run_instrs in He. by rewrite commitCall_err in He. }
  rewrite He. rewrite <-(app_nil_r (varint_bytes execInstrEOF)). unfold parse_instr.
  rewrite read_word by done. dispatch. cbn [mbind outcome_bind]. rewrite commitCall_data. cbn [set_data d_calls].
  exists []. by rewrite decide_False by (by intros Hne).
Qed.
End decode_instr.
