(* ===== verification/FuzzerPrepare.v ===== *)
(** * Requests and configuration contexts in the fuzzer
    (src/pkg/fuzzer/fuzzer.go: prepareKConfuzz and the quarantine and retry
    steps of processResult; src/pkg/fuzzer/job.go: executeWithKConfuzz)

    Before a request is queued its actions are filled in and filtered; after a
    failure its context may be quarantined and the request tried again. *)

From S2P Require Import Prelude GoStrings Prog ConfigContext Params Planner PlannerProps PlannerLoad ConfigPolicy PolicyProps Queues Requests ForeachArg EncodingExec.

Definition set_kconfuzz (r : Request) (actions : list KConfuzzConfigAction) (ctx : option KConfuzzConfigContext)
    : Request :=
  mkRequest (QType r) (QExecOpts r) (QProg r) actions ctx (QDisabled r) (QOriginSig r) (QBinaryFile r)
    (QGlobPattern r) (QReturnAllSignal r) (QImportant r) (QAvoid r) (Qcallback r) (QonceCrashed r)
    (QdelayedSince r) (Qresult r).

(** The stringer of [Status]. *)
Definition status_string (s : Status) : string :=
  match s with
  | Success => "Success" | ExecFailure => "ExecFailure" | Crashed => "Crashed"
  | Restarted => "Restarted" | Hanged => "Hanged"
  end.
Definition Risky (r : Request) : bool := QonceCrashed r.

Section fuzzer.
Context (SupportedParams : gmap string ConfigParam) (Serialize : Prog → outcome (list Z)).
Context (marshal : KConfuzzConfigContext → bool → list Z) (sha1hex : list Z → string).
(** The environment and the planner loaded from it. *)
Context (env : string → string) (planner : option Planner).

Definition is_ctx (c : option KConfuzzConfigContext) : bool := match c with Some _ => true | None => false end.

Definition prepareKConfuzz (quarantined : gmap string string) (req : option Request) : outcome (option Request) :=
  match req with
  | None => Ret None
  | Some r =>
      match QType r, QProg r, QDisabled r with
      | RequestTypeProgram, Some p, false =>
          if negb (ActionsEnabled env) then Ret (Some (set_kconfuzz r [] None))
          else
            let hadContext := is_ctx (QContext r) in
            let ctx := if hadContext
              then FilterSupportedContext SupportedParams Serialize marshal sha1hex quarantined (QContext r) (Some p)
              else None in
            let actions := match ctx with
              | Some c => if decide (len (QActions r) = 0) then CloneKConfuzzConfigActions (Actions c) else QActions r
              | None => QActions r
              end in
            if decide (len actions ≠ 0) then
              let c := default (mkContext KConfuzzConfigStrategySequence "request-actions" false
                (CloneKConfuzzConfigActions actions)) ctx in
              let actions := NormalizeKConfuzzConfigActions (Some p) (FilterSupportedActions SupportedParams actions) in
              if decide (len actions = 0) then Ret (Some (set_kconfuzz r actions None))
              else Ret (Some (set_kconfuzz r actions (Some (set_Actions c (CloneKConfuzzConfigActions actions)))))
            else if hadContext then Ret (Some (set_kconfuzz r actions ctx))
            else
              ctx ← PlanContextFromEnv SupportedParams Serialize env planner (Some p);
              Ret (Some (set_kconfuzz r
                (match ctx with Some c => CloneKConfuzzConfigActions (Actions c) | None => actions end) ctx))
      | _, _, _ => Ret (Some r)
      end
  end.

(** The quarantine step of processResult. *)
Definition quarantine_result (quarantined : gmap string string) (r : Request) (status : Status)
    (output : string) (err : option string) : gmap string string :=
  if is_ctx (QContext r) && bool_decide (status = Crashed ∨ status = Hanged ∨ status = ExecFailure)
     && DangerousConfigResult env (QContext r) output err (bool_decide (status = Crashed)) (bool_decide (status = Hanged))
  then QuarantineContext Serialize marshal sha1hex quarantined (QProg r) (QContext r) (status_string status)
  else quarantined.

(** The last step of processResult: whether a candidate gets another chance. *)
Definition maxCandidateAttempts (snapshot : bool) (r : Request) (status : Status) : Z :=
  if Risky r then if snapshot || bool_decide (status = Hanged) then 0 else 2 else 3.
Definition retry_candidate (snapshot : bool) (r : Request) (status : Status) (triage fromCorpus attempt : Z) : bool :=
  bool_decide (triage = 0) && bool_decide (fromCorpus ≠ 0) && (attempt <? maxCandidateAttempts snapshot r status).
(** The request is enqueued again: it is prepared with the new quarantine. *)
Definition requeue (snapshot : bool) (quarantined : gmap string string) (r : Request) (status : Status)
    (output : string) (err : option string) (triage fromCorpus attempt : Z)
    : outcome (gmap string string * option Request) :=
  let quarantined := quarantine_result quarantined r status output err in
  if retry_candidate snapshot r status triage fromCorpus attempt then
    r ← prepareKConfuzz quarantined (Some r); Ret (quarantined, r)
  else Ret (quarantined, None).

(** executeWithKConfuzz: what a triage execution sets before it enqueues. *)
Definition triage_request (r : Request) (config : option KConfuzzConfigContext) (disable : bool) (origin : string)
    : Request :=
  let r := mkRequest (QType r) (QExecOpts r) (QProg r) (QActions r) (QContext r) (QDisabled r) (QOriginSig r)
    (QBinaryFile r) (QGlobPattern r) (QReturnAllSignal r) true (QAvoid r) (Qcallback r) (QonceCrashed r)
    (QdelayedSince r) (Qresult r) in
  let r :=
    if disable then
      mkRequest (QType r) (QExecOpts r) (QProg r) [] None true (QOriginSig r)
        (QBinaryFile r) (QGlobPattern r) (QReturnAllSignal r) (QImportant r) (QAvoid r) (Qcallback r) (QonceCrashed r)
        (QdelayedSince r) (Qresult r)
    else
      match config with
      | Some _ =>
          let ctx := CloneForProg config (QProg r) in
          set_kconfuzz r (match ctx with Some c => CloneKConfuzzConfigActions (Actions c) | None => QActions r end) ctx
      | None => r
      end in
  mkRequest (QType r) (QExecOpts r) (QProg r) (QActions r) (QContext r) (QDisabled r)
    (if decide (QOriginSig r = "") then origin else QOriginSig r)
    (QBinaryFile r) (QGlobPattern r) (QReturnAllSignal r) (QImportant r) (QAvoid r) (Qcallback r) (QonceCrashed r)
    (QdelayedSince r) (Qresult r).

(** ** Properties *)

(** Actions the executor can run on the program. *)
Definition runnable (p : Prog) (a : KConfuzzConfigAction) : Prop :=
  executable_action SupportedParams a ∧ 0 ≤ BeforeCall a ≤ len (Calls p).

Lemma CloneActions_id l : CloneKConfuzzConfigActions l = l.
Proof. done. Qed.
Lemma normalized_runnable p l :
  Forall (runnable p) (NormalizeKConfuzzConfigActions (Some p) (FilterSupportedActions SupportedParams l)).
Proof.
  apply Forall_forall. intros a Ha. apply elem_of_Normalize in Ha as [Hk Ha].
  apply elem_of_FilterSupported in Ha as [_ Ha]. split; [by apply supported_action_executable|].
  apply keep_action_spec in Hk. simpl in Hk. unfold len in *. lia.
Qed.
Lemma len_0 {A} (l : list A) : len l = 0 → l = [].
Proof. unfold len. by destruct l. Qed.
Lemma Filter_Normalize p l :
  NormalizeKConfuzzConfigActions (Some p) (FilterSupportedActions SupportedParams
    (NormalizeKConfuzzConfigActions (Some p) (FilterSupportedActions SupportedParams l)))
  = NormalizeKConfuzzConfigActions (Some p) (FilterSupportedActions SupportedParams l).
Proof.
  rewrite (FilterSupported_unfold _ (NormalizeKConfuzzConfigActions _ _)), filter_all; [apply Normalize_idemp|].
  apply Forall_forall. intros a Ha. apply elem_of_Normalize in Ha as [_ Ha].
  by apply elem_of_FilterSupported in Ha as [_ Ha].
Qed.

(** A program request that may carry actions. *)
Definition plannable (r : Request) (p : Prog) : Prop :=
  QType r = RequestTypeProgram ∧ QProg r = Some p ∧ QDisabled r = false.

Lemma runnable_no_bad p l : Forall (runnable p) l → bad_action (len (Calls p)) l = None.
Proof.
  intros H. unfold bad_action. destruct (filter _ l) as [|a l'] eqn:E; [done|].
  assert (Ha : a ∈ filter (λ a, BeforeCall a < 0 ∨ len (Calls p) < BeforeCall a) l) by (rewrite E; left).
  apply list_elem_of_filter in Ha as [Hb Ha]. rewrite Forall_forall in H. destruct (H a Ha) as [_ ?]. lia.
Qed.

(** Preparing again a request that has runnable actions keeps them, whatever
    is in quarantine by then. *)
Lemma prepare_again q r p :
  plannable r p → ActionsEnabled env = true → QActions r ≠ [] →
  QActions r = NormalizeKConfuzzConfigActions (Some p) (FilterSupportedActions SupportedParams (QActions r)) →
  ∃ r', prepareKConfuzz q (Some r) = Ret (Some r') ∧ QActions r' = QActions r ∧ is_ctx (QContext r') = true.
Proof.
  intros (Ht & Hp & Hd) Hen Hne Hfix. unfold prepareKConfuzz. rewrite Ht, Hp, Hd, Hen. cbn [negb].
  assert (Hl : len (QActions r) ≠ 0) by (intros H; by apply Hne, len_0).
  assert (Hacts : ∀ ctx : option KConfuzzConfigContext, match ctx with
    | Some c => if decide (len (QActions r) = 0) then CloneKConfuzzConfigActions (Actions c) else QActions r
    | None => QActions r end = QActions r) by (intros [c|]; [by rewrite decide_False|done]).
  rewrite Hacts, decide_True by done. rewrite <-Hfix. rewrite decide_False by done. eexists. split; [done|done].
Qed.

(** What a prepared request looks like. *)
Definition prepared (r r' : Request) (p : Prog) : Prop :=
  r' = set_kconfuzz r (QActions r') (QContext r') ∧
  QActions r' = default [] (Actions <$> QContext r') ∧
  QActions r' = NormalizeKConfuzzConfigActions (Some p) (FilterSupportedActions SupportedParams (QActions r')) ∧
  Forall (runnable p) (QActions r').

Lemma normal_actions p l :
  Forall (λ a, supported_action SupportedParams a = true) l →
  Forall (λ a, 0 ≤ BeforeCall a ≤ len (Calls p)) l →
  let n := NormalizeKConfuzzConfigActions (Some p) l in
  n = NormalizeKConfuzzConfigActions (Some p) (FilterSupportedActions SupportedParams n).
Proof.
  intros Hs Hr. cbv zeta. rewrite FilterSupported_unfold, filter_all; [by rewrite Normalize_idemp|].
  apply Forall_forall. intros a Ha. apply elem_of_Normalize in Ha as [_ Ha]. rewrite Forall_forall in Hs. by apply Hs.
Qed.
Lemma prepared_fix r p l c :
  l = NormalizeKConfuzzConfigActions (Some p) (FilterSupportedActions SupportedParams l) →
  l = default [] (Actions <$> c) → prepared r (set_kconfuzz r l c) p.
Proof. intros Hl Hc. split_and!; [done|done|done|]. cbn. rewrite Hl. apply normalized_runnable. Qed.

Lemma prepare_planned p data :
  RegistryOK SupportedParams → (∀ pl, planner = Some pl → planner_ok SupportedParams pl) → Serialize p = Ret data →
  ∃ ctx, PlanContextFromEnv SupportedParams Serialize env planner (Some p) = Ret ctx ∧
    let l := default [] (Actions <$> ctx) in
    l = NormalizeKConfuzzConfigActions (Some p) (FilterSupportedActions SupportedParams l).
Proof.
  intros Hreg Hpl Hser. unfold PlanContextFromEnv.
  destruct (negb (ActionsEnabled env)); [by exists None|]. destruct planner as [pl|]; [|by exists None].
  unfold PlanContext.
  destruct (Plan_supported SupportedParams Serialize pl p (optionsFromEnv env) data Hser) as (l & -> & Hs & Hr); [by apply Hpl|].
  cbn [mbind outcome_bind]. case_decide; [by exists None|]. eexists. split; [done|]. cbn. by apply normal_actions.
Qed.

Lemma prepare_ok q r p data :
  RegistryOK SupportedParams → (∀ pl, planner = Some pl → planner_ok SupportedParams pl) →
  plannable r p → Serialize p = Ret data →
  ∃ r', prepareKConfuzz q (Some r) = Ret (Some r') ∧ prepared r r' p ∧
    (ActionsEnabled env = false → QActions r' = []).
Proof.
  intros Hreg Hpl (Ht & Hp & Hd) Hser. unfold prepareKConfuzz. rewrite Ht, Hp, Hd.
  destruct (ActionsEnabled env) eqn:Hen; cbn [negb].
  2:{ eexists. split; [done|]. split; [|done]. by apply prepared_fix. }
  set (ctx := if is_ctx (QContext r) then _ else None). set (actions := match ctx with Some _ => _ | None => _ end).
  destruct (decide (len actions ≠ 0)) as [Hne|Hz].
  { set (l := NormalizeKConfuzzConfigActions _ _).
    assert (Hl : l = NormalizeKConfuzzConfigActions (Some p) (FilterSupportedActions SupportedParams l)) by (unfold l; by rewrite Filter_Normalize).
    case_decide as H0; (eexists; split; [done|]; split; [|done]); apply prepared_fix; try done. by apply len_0 in H0. }
  assert (Hz' : actions = []) by (apply len_0; lia). rewrite Hz'.
  destruct (is_ctx (QContext r)) eqn:Ec.
  { eexists. split; [done|]. split; [|done]. apply prepared_fix; [done|]. destruct ctx as [c|]; [|done]. cbn.
    unfold actions in Hz'. destruct (decide (len (QActions r) = 0)) as [H0|H0]; [done|].
    exfalso. by rewrite Hz' in H0. }
  destruct (prepare_planned p data Hreg Hpl Hser) as (ctx' & -> & Hfix). cbn [mbind outcome_bind].
  eexists. split; [done|]. split; [|done]. apply prepared_fix; by destruct ctx'.
Qed.
End fuzzer.

(** C34: Preparing a program request always returns; only its actions and its
    context change, and they agree; every action writes an existing value of a
    known, allowed parameter before a call of the program, so the encoder
    never rejects the request for a bad call index; and with actions switched
    off none is left. *)
Theorem prepare_spec (SupportedParams : gmap string ConfigParam) (Serialize : Prog → outcome (list Z))
    (marshal : KConfuzzConfigContext → bool → list Z) (sha1hex : list Z → string) (env : string → string)
    (planner : option Planner) (q : gmap string string) (r : Request) (p : Prog) (data : list Z)
    (Hreg : RegistryOK SupportedParams) (Hpl : ∀ pl, planner = Some pl → planner_ok SupportedParams pl)
    (Hr : plannable r p) (Hser : Serialize p = Ret data) :
  ∃ r', prepareKConfuzz SupportedParams Serialize marshal sha1hex env planner q (Some r) = Ret (Some r') ∧
    r' = set_kconfuzz r (QActions r') (QContext r') ∧
    QActions r' = default [] (Actions <$> QContext r') ∧
    Forall (runnable SupportedParams p) (QActions r') ∧
    (∀ typeRefs target blob run n m,
       SerializeForExecWithKConfuzz typeRefs target blob run p (QActions r') ≠ Ret (inl (ErrActionIndex n m))) ∧
    (ActionsEnabled env = false → QActions r' = []).
Proof.
  destruct (prepare_ok SupportedParams Serialize marshal sha1hex env planner q r p data Hreg Hpl Hr Hser)
    as (r' & E & (H1 & H2 & _ & H4) & H5).
  exists r'. split_and!; try done. intros typeRefs target blob run n m. unfold SerializeForExecWithKConfuzz.
  rewrite (runnable_no_bad SupportedParams p _ H4).
  destruct (serialize_calls _ _ _ _ _ _ _ _) as [w|]; [|done]. cbn [mbind outcome_bind]. by repeat case_decide.
Qed.

(** A corpus candidate that crashed once is enqueued again with the same
    actions although its context has just been quarantined: the filter drops
    the context, but the actions stay in the request and a context is rebuilt
    from them. *)
Theorem requeue_ignores_quarantine (SupportedParams : gmap string ConfigParam) (Serialize : Prog → outcome (list Z))
    (marshal : KConfuzzConfigContext → bool → list Z) (sha1hex : list Z → string) (env : string → string)
    (planner : option Planner) (q : gmap string string) (r : Request) (p : Prog) (data : list Z)
    (output : string) (err : option string) (fromCorpus attempt : Z) (r1 : Request)
    (Hreg : RegistryOK SupportedParams) (Hpl : ∀ pl, planner = Some pl → planner_ok SupportedParams pl)
    (Hsha : ∀ d, sha1hex d ≠ "") (Hr : plannable r p) (Hser : Serialize p = Ret data)
    (Hen : ActionsEnabled env = true) (Hfrom : fromCorpus ≠ 0) (Hatt : attempt < 2)
    (Hprep : prepareKConfuzz SupportedParams Serialize marshal sha1hex env planner q (Some r) = Ret (Some r1))
    (Hne : QActions r1 ≠ []) :
  ∃ q' r2,
    requeue SupportedParams Serialize marshal sha1hex env planner false q r1 Crashed output err 0 fromCorpus attempt
    = Ret (q', Some r2) ∧
    FilterSupportedContext SupportedParams Serialize marshal sha1hex q' (QContext r1) (Some p) = None ∧
    QActions r2 = QActions r1.
Proof.
  destruct (prepare_ok SupportedParams Serialize marshal sha1hex env planner q r p data Hreg Hpl Hr Hser)
    as (r' & E & (H1 & H2 & H3 & H4) & _). rewrite E in Hprep. apply (f_equal (λ o, match o with Ret (Some x) => x | _ => r1 end)) in Hprep.
  cbn in Hprep. subst r'. destruct (QContext r1) as [c|] eqn:Ec; [|done]. cbn in H2.
  assert (Hr1 : plannable r1 p) by (rewrite H1; by destruct Hr as (? & ? & ?)).
  assert (Hnorm : NormalizeKConfuzzConfigActions (Some p) (Actions c) = Actions c).
  { rewrite <-H2, H3. apply Normalize_idemp. }
  set (q' := quarantine_result Serialize marshal sha1hex env q r1 Crashed output err).
  destruct (prepare_again SupportedParams Serialize marshal sha1hex env planner q' r1 p) as (r2 & E2 & Ha & _); [done..|].
  exists q', r2. split_and!; [|  |done].
  - unfold requeue. fold q'. unfold retry_candidate, maxCandidateAttempts. rewrite bool_decide_true by done.
    rewrite bool_decide_true by done. cbn [andb orb].
    assert ((attempt <? (if Risky r1 then if bool_decide (Crashed = Hanged) then 0 else 2 else 3)) = true) as ->.
    { apply Z.ltb_lt. rewrite bool_decide_false by done. destruct (Risky r1); lia. }
    by rewrite E2.
  - assert (Hkey : contextQuarantineKey Serialize marshal sha1hex (Some p) (Some c) ≠ "").
    { erewrite contextQuarantineKey_Some by (rewrite ?Hnorm, <-?H2; done). apply Hsha. }
    apply quarantined_dropped; [done|]. unfold q', quarantine_result. rewrite Ec. cbn [is_ctx andb].
    rewrite (bool_decide_true (Crashed = Crashed ∨ _)) by (by left). rewrite (bool_decide_true (Crashed = Crashed)) by done.
    cbn [andb]. destruct Hr1 as (_ & Hp & _). unfold DangerousConfigResult.
    rewrite decide_False by (rewrite <-H2; intros H; by apply Hne, len_0).
    destruct (OutputLooksLikeEnvFailure output err); rewrite Hp; unfold QuarantineContext;
      rewrite decide_False by done; rewrite lookup_insert_eq; eauto.
Qed.

(** *** Witnesses: a request with one explicit action *)
Definition sample_request : Request :=
  mkRequest RequestTypeProgram (mkExecOpts 0 0 0) (Some sample_prog) [mkAction 1 3 1 0; mkAction 5 3 1 0] None false ""
    "" "" [] false [] [] false 0 None.
Definition sample_prepared : Request :=
  set_kconfuzz sample_request [mkAction 1 3 1 0]
    (Some (mkContext KConfuzzConfigStrategySequence "request-actions" false [mkAction 1 3 1 0])).

Lemma prepare_witness :
  ∃ r', prepareKConfuzz sample_registry sample_serialize sample_marshal sample_digest (λ _, "") None ∅
          (Some sample_request) = Ret (Some r') ∧ Forall (runnable sample_registry sample_prog) (QActions r').
Proof.
  destruct (prepare_spec sample_registry sample_serialize sample_marshal sample_digest (λ _, "") None ∅
    sample_request sample_prog _ sample_registry_ok ltac:(done) ltac:(done) eq_refl) as (r' & E & _ & _ & H & _).
  exists r'. exact (conj E H).
Defined.

Lemma requeue_witness :
  ∃ q' r2,
    requeue sample_registry sample_serialize sample_marshal sample_digest (λ _, "") None false ∅ sample_prepared
      Crashed "" None 0 1 0 = Ret (q', Some r2) ∧
    FilterSupportedContext sample_registry sample_serialize sample_marshal sample_digest q'
      (QContext sample_prepared) (Some sample_prog) = None ∧
    QActions r2 = [mkAction 1 3 1 0].
Proof.
  refine (requeue_ignores_quarantine sample_registry sample_serialize sample_marshal sample_digest (λ _, "") None ∅
    sample_request sample_prog _ "" None 1 0 sample_prepared sample_registry_ok _ _ _ eq_refl eq_refl _ _ _ _);
    [done|discriminate|done|done|lia|by vm_compute|discriminate].
Defined.
