(* ===== verification/Deflake.v ===== *)
(** * Triage: separating stable from flaky signal
    (src/pkg/fuzzer/job.go: deflake, stopDeflake, reproducesSignal;
    src/pkg/fuzzer/fuzzer.go: triageProgCall, signalPrio)

    A triage job re-runs a program and keeps, for every call, [signals]: level
    [j] is meant to hold the signal seen in [j+1] runs.  What an execution
    returns is arbitrary: [exec run] is the result of run number [run].  The
    fuzzer's maximal signal is threaded through; other jobs do not interleave
    here. *)

From S2P Require Import Prelude Prog Queues Requests Signal.

Record CallInfo := mkCallInfo { ci_Error : Z; ci_Signal : list Z; ci_Cover : list Z }.
Record ProgInfo := mkProgInfo { pi_Calls : list (option CallInfo); pi_Extra : option CallInfo }.
Record ExecResult := mkExecResult { er_Status : Status; er_Executor : ExecutorID; er_Info : option ProgInfo }.

Definition deflakeNeedRuns : Z := 3.
Definition deflakeMaxRuns : Z := 5.
Definition deflakeNeedCorpusRuns : Z := 2.
Definition deflakeMinCorpusRuns : Z := 4.
Definition deflakeMaxCorpusRuns : Z := 6.
Definition deflakeTotalCorpusRuns : Z := 20.
Definition deflakeNeedSnapshotRuns : Z := 2.

Record triageCall := mkTriageCall {
  tc_errno : Z;
  tc_newSignal : Signal;
  tc_signals : list Signal;   (* an array of deflakeNeedRuns signals *)
  tc_stableSignal : Signal;
  tc_newStableSignal : Signal;
  tc_cover : Cover;
  tc_rawCover : list Z
}.

(** A result stops the job when [Result.Stop] says so. *)
Definition er_Stop (r : ExecResult) : bool := Stop (mkResult (er_Status r) (er_Executor r) [] None).

Section triage.
Context (CallContainsAny : Call → bool) (NewInputFilter : string → bool).
Context (Snapshot FromCorpus FetchRawCover : bool) (p : Prog).

Definition signalPrio (info : CallInfo) (call : Z) : outcome Z :=
  if decide (call = -1) then Ret 0
  else
    let prio := if decide (ci_Error info = 0) then Z.lor 0 2 else 0 in
    c ← index (Calls p) call;
    match c with
    | None => Panic
    | Some c => Ret (if CallContainsAny c then prio else Z.lor prio 1)
    end.

Definition triage_state : Type := FuzzerCover * gmap Z triageCall.

Definition triageProgCall (info : option CallInfo) (call : Z) (st : triage_state) : outcome triage_state :=
  match info with
  | None => Ret st
  | Some info =>
      prio ← signalPrio info call;
      let '(cov, newMaxSignal) := addRawMaxSignal (fst st) (ci_Signal info) prio in
      if SignalEmpty newMaxSignal then Ret (cov, snd st)
      else
        name ← ProgCallName p call;
        if negb (NewInputFilter name) then Ret (cov, snd st)
        else Ret (cov, <[call := mkTriageCall (ci_Error info) newMaxSignal [FromRaw (ci_Signal info) prio; ∅; ∅]
                           ∅ ∅ ∅ []]> (snd st))
  end.

(** [for j := needRuns - 1; j > 0; j--], then level 0. *)
Definition level (l : list Signal) (j : nat) : Signal := default ∅ (l !! j).
Fixpoint shift_levels (j : nat) (this : Signal) (l : list Signal) : list Signal :=
  match j with
  | O => <[0%nat := SignalMerge (level l 0) this]> l
  | S i => shift_levels i this (<[j := SignalMerge (level l j) (Intersection (level l i) this)]> l)
  end.

Definition needRuns : Z :=
  if Snapshot then deflakeNeedSnapshotRuns else if FromCorpus then deflakeNeedCorpusRuns else deflakeNeedRuns.
Definition top : nat := Z.to_nat (needRuns - 1).

Definition deflakeCall (call : Z) (res : option CallInfo) (st : triage_state) : outcome triage_state :=
  st ← match snd st !! call with
       | None => triageProgCall res call st
       | Some _ => Ret st
       end;
  match snd st !! call, res with
  | Some info, Some res =>
      let raw := if bool_decide (len (tc_rawCover info) = 0) && FetchRawCover then ci_Cover res else tc_rawCover info in
      prio ← signalPrio res call;
      let '(cov, newMaxSignal) := addRawMaxSignal (fst st) (ci_Signal res) prio in
      Ret (cov, <[call := mkTriageCall (tc_errno info) (SignalMerge (tc_newSignal info) newMaxSignal)
                     (shift_levels top (FromRaw (ci_Signal res) prio) (tc_signals info))
                     (tc_stableSignal info) (tc_newStableSignal info)
                     (CoverMerge (tc_cover info) (ci_Cover res)) raw]> (snd st))
  | _, _ => Ret st
  end.
Fixpoint deflake_calls (i : Z) (l : list (option CallInfo)) (st : triage_state) : outcome triage_state :=
  match l with
  | [] => Ret st
  | res :: l => st ← deflakeCall i res st; deflake_calls (i + 1) l st
  end.
Definition deflake_info (info : ProgInfo) (st : triage_state) : outcome triage_state :=
  st ← deflake_calls 0 (pi_Calls info) st; deflakeCall (-1) (pi_Extra info) st.

(** stopDeflake *)
Definition stopDeflake (run : Z) (noNewSignal : bool) (calls : gmap Z triageCall) : outcome bool :=
  if Snapshot then Ret (needRuns + 1 <=? run)
  else
    let haveSignal := forallb (λ c, IntersectsWith (tc_newSignal c) (level (tc_signals c) top)) (values calls) in
    if negb FromCorpus then
      if decide (deflakeMaxRuns ≤ run) then Ret true
      else
        let left := deflakeMaxRuns - run in
        chances ← mapM (λ c,
          if decide (needRuns ≤ left) then Ret true
          else IntersectsWith (tc_newSignal c) <$> index (tc_signals c) (needRuns - left - 1)) (values calls);
        Ret (haveSignal || forallb negb chances)
    else
      Ret ((deflakeTotalCorpusRuns <=? run) ||
           (noNewSignal && ((deflakeMaxCorpusRuns <=? run) || ((deflakeMinCorpusRuns <=? run) && haveSignal)))).

Definition totalNewSignal (calls : gmap Z triageCall) : Z :=
  foldr Z.add 0 ((λ c, SignalLen (tc_newSignal c)) <$> values calls).

Context (exec : Z → ExecResult).

(** The loop of deflake: the state, the executors to avoid and the number of
    the first run that was not made; [inl] when a result stopped the job and
    [None] out of fuel. *)
Record deflake_end := mkEnd { de_state : triage_state; de_avoid : list ExecutorID; de_run : Z }.
Fixpoint deflake_loop (fuel : nat) (run prev : Z) (avoid : list ExecutorID) (st : triage_state)
    : outcome (option (deflake_end + deflake_end)) :=
  match fuel with
  | O => Ret None
  | S fuel =>
      let total := totalNewSignal (snd st) in
      stop ← stopDeflake run (bool_decide (prev = total)) (snd st);
      if (stop : bool) then Ret (Some (inr (mkEnd st avoid run)))
      else
        let result := exec run in
        if er_Stop result then Ret (Some (inl (mkEnd st avoid run)))
        else
          let avoid := avoid ++ [er_Executor result] in
          st ← match er_Info result with None => Ret st | Some info => deflake_info info st end;
          deflake_loop fuel (run + 1) total avoid st
  end.

Definition finish_call (c : triageCall) : triageCall :=
  let stable := level (tc_signals c) top in
  mkTriageCall (tc_errno c) (tc_newSignal c) (tc_signals c) stable (Intersection (tc_newSignal c) stable)
    (tc_cover c) (tc_rawCover c).
(** deflake: whether to stop, and the final state. *)
Definition deflake (fuel : nat) (executor : ExecutorID) (st : triage_state) : outcome (option (bool * deflake_end)) :=
  r ← deflake_loop fuel 1 0 [executor] st;
  Ret (match r with
       | None => None
       | Some (inl e) => Some (true, e)
       | Some (inr e) => Some (false, mkEnd (fst (de_state e), finish_call <$> snd (de_state e)) (de_avoid e) (de_run e))
       end).
End triage.

(** ** Levels count runs *)

Lemma lookup_Intersection s t e :
  Intersection s t !! e
  = match s !! e, t !! e with Some p, Some q => if decide (p ≤ q) then Some p else None | _, _ => None end.
Proof.
  unfold Intersection. destruct (SignalEmpty t) eqn:Et.
  { apply SignalEmpty_true in Et as ->. rewrite !lookup_empty. by destruct (s !! e). }
  assert (Hl : ∀ (l : list (Z * Z)) (acc : Signal), NoDup l.*1 →
    foldl (λ res ep, if holds_elem t ep then <[ep.1:=ep.2]> res else res) acc l !! e
    = match (list_to_map l : Signal) !! e with
      | Some p => if holds_elem t (e, p) then Some p else acc !! e
      | None => acc !! e
      end).
  { induction l as [|[k q] l IH]; intros acc Hnd; [simpl; by rewrite lookup_empty|].
    rewrite fmap_cons in Hnd. apply NoDup_cons in Hnd as [Hk Hnd]. cbn [foldl fst snd].
    rewrite IH by done. rewrite list_to_map_cons. destruct (decide (e = k)) as [->|Hne].
    - rewrite (not_elem_of_list_to_map_1 l k) by done. rewrite lookup_insert_eq.
      destruct (holds_elem t (k, q)); [by rewrite lookup_insert_eq|done].
    - rewrite lookup_insert_ne by done. destruct (holds_elem t (k, q)); [by rewrite lookup_insert_ne by done|done]. }
  rewrite Hl by apply NoDup_fst_map_to_list. rewrite list_to_map_to_list, lookup_empty.
  unfold holds_elem. cbn [fst snd]. destruct (s !! e) as [x|]; [|done]. destruct (t !! e) as [y|]; [|done].
  case_bool_decide; by case_decide.
Qed.

Lemma level_insert_eq l j s : (j < length l)%nat → level (<[j := s]> l) j = s.
Proof. intros H. unfold level. by rewrite list_lookup_insert_eq. Qed.
Lemma level_insert_ne l i j s : i ≠ j → level (<[i := s]> l) j = level l j.
Proof. intros H. unfold level. by rewrite list_lookup_insert_ne. Qed.
Lemma length_shift_levels k this l : length (shift_levels k this l) = length l.
Proof. revert l. induction k as [|i IH]; intros l; cbn [shift_levels]; [|rewrite IH]; apply length_insert. Qed.
Lemma level_shift k this l j :
  (k < length l)%nat →
  level (shift_levels k this l) j =
    match j with
    | O => SignalMerge (level l 0) this
    | S i => if decide (j ≤ k)%nat then SignalMerge (level l j) (Intersection (level l i) this) else level l j
    end.
Proof.
  revert l. induction k as [|k IH]; intros l Hk; cbn [shift_levels].
  { destruct j as [|i]; [by rewrite level_insert_eq|]. rewrite decide_False by lia. by rewrite level_insert_ne by lia. }
  rewrite IH by (rewrite length_insert; lia). destruct j as [|i]; [by rewrite level_insert_ne by lia|].
  destruct (decide (S i ≤ k)%nat) as [Hle|Hgt].
  - rewrite decide_True by lia. by rewrite !level_insert_ne by lia.
  - destruct (decide (i = k)) as [->|Hne].
    + rewrite decide_True by lia. by rewrite level_insert_eq by lia.
    + rewrite decide_False by lia. by rewrite level_insert_ne by lia.
Qed.

(** The number of runs in which an element was seen. *)
Definition count (e : Z) (obs : list (list Z)) : nat := length (filter (λ raw, e ∈ raw) obs).
Lemma count_snoc e obs raw : count e (obs ++ [raw]) = (count e obs + if decide (e ∈ raw) then 1 else 0)%nat.
Proof. unfold count. rewrite filter_app, length_app. f_equal. rewrite filter_cons. by case_decide. Qed.

(** Levels never claim more runs than there were ... *)
Definition levels_sound (l : list Signal) (obs : list (list Z)) : Prop :=
  ∀ j e, is_Some (level l j !! e) → (j < count e obs)%nat.
(** ... and with one priority [pr] they are exact up to level [k]. *)
Definition levels_exact (k : nat) (pr : Z) (l : list Signal) (obs : list (list Z)) : Prop :=
  ∀ j e, (j ≤ k)%nat → level l j !! e = if decide (j < count e obs)%nat then Some pr else None.

Lemma opt_max_is_Some a b : is_Some (opt_max a b) → is_Some a ∨ is_Some b.
Proof. destruct a, b; cbn; eauto. Qed.

Lemma levels_sound_step k raw prio l obs :
  (k < length l)%nat → levels_sound l obs → levels_sound (shift_levels k (FromRaw raw prio) l) (obs ++ [raw]).
Proof.
  intros Hk Hs j e. rewrite level_shift, count_snoc by done.
  assert (Hraw : is_Some (FromRaw raw prio !! e) → e ∈ raw) by (rewrite lookup_FromRaw; case_decide; [done|by intros [? ?]]).
  assert (Hkeep : is_Some (level l j !! e) → (j < count e obs + if decide (e ∈ raw) then 1 else 0)%nat)
    by (intros H; apply Hs in H; lia).
  destruct j as [|i].
  - rewrite lookup_SignalMerge. intros [H|H]%opt_max_is_Some; [by apply Hkeep|].
    rewrite decide_True by (by apply Hraw). lia.
  - destruct (decide (S i ≤ k)%nat); [|done]. rewrite lookup_SignalMerge.
    intros [H|H]%opt_max_is_Some; [by apply Hkeep|]. rewrite lookup_Intersection in H.
    destruct (level l i !! e) as [q|] eqn:El; [|by destruct H].
    destruct (FromRaw raw prio !! e) as [q'|] eqn:Er; [|by destruct H].
    rewrite decide_True by (apply Hraw; eauto). specialize (Hs i e). rewrite El in Hs.
    assert (i < count e obs)%nat by eauto. lia.
Qed.

Lemma levels_exact_step k raw prio l obs :
  (k < length l)%nat → levels_exact k (prioType prio) l obs →
  levels_exact k (prioType prio) (shift_levels k (FromRaw raw prio) l) (obs ++ [raw]).
Proof.
  intros Hk He j e Hj. rewrite level_shift, count_snoc by done. destruct j as [|i].
  - rewrite lookup_SignalMerge, He, lookup_FromRaw by lia.
    destruct (decide (0 < count e obs)%nat), (decide (e ∈ raw)); cbn; rewrite ?decide_True by lia; rewrite ?decide_False by lia;
      [by rewrite Z.max_id|done..].
  - rewrite decide_True by done. rewrite lookup_SignalMerge, lookup_Intersection, !He, lookup_FromRaw by lia.
    destruct (decide (e ∈ raw)).
    + destruct (decide (S i < count e obs)%nat), (decide (i < count e obs)%nat); try lia; cbn;
        rewrite ?(decide_True (P := prioType prio ≤ prioType prio)) by lia; cbn; rewrite ?Z.max_id;
        first [rewrite decide_True by lia | rewrite decide_False by lia]; done.
    + destruct (decide (S i < count e obs)%nat), (decide (i < count e obs)%nat); cbn;
        first [rewrite decide_True by lia | rewrite decide_False by lia]; done.
Qed.

(** ** One execution *)
Section observe.
Context (CallContainsAny : Call → bool) (NewInputFilter : string → bool).
Context (Snapshot FromCorpus FetchRawCover : bool) (p : Prog).
Abbreviation prio_of := (signalPrio CallContainsAny p).
Abbreviation call_step := (deflakeCall CallContainsAny NewInputFilter Snapshot FromCorpus FetchRawCover p).
Abbreviation calls_step := (deflake_calls CallContainsAny NewInputFilter Snapshot FromCorpus FetchRawCover p).
Abbreviation info_step := (deflake_info CallContainsAny NewInputFilter Snapshot FromCorpus FetchRawCover p).
Abbreviation tp := (top Snapshot FromCorpus).

Lemma top_lt : (tp < 3)%nat.
Proof. unfold top, needRuns. destruct Snapshot, FromCorpus; vm_compute; lia. Qed.

(** What an execution says about a call; -1 is the extra pseudo-call. *)
Definition info_for (info : ProgInfo) (call : Z) : option CallInfo :=
  if decide (call = -1) then pi_Extra info
  else if decide (0 ≤ call) then mjoin (pi_Calls info !! Z.to_nat call) else None.

(** The effect on the levels of a call. *)
Definition observes (res : option CallInfo) (call : Z) (l l' : list Signal) : Prop :=
  match res with
  | None => l' = l
  | Some ci => ∃ prio, prio_of ci call = Ret prio ∧ l' = shift_levels tp (FromRaw (ci_Signal ci) prio) l
  end.

Lemma triageProgCall_other info call st st' c :
  triageProgCall CallContainsAny NewInputFilter p info call st = Ret st' → c ≠ call → snd st' !! c = snd st !! c.
Proof.
  intros H Hc. unfold triageProgCall in H. destruct info as [info|]; [|by simplify_eq]. inv_ret H.
  destruct (addRawMaxSignal _ _ _) as [cov new]. destruct (SignalEmpty new); [by simplify_eq|]. inv_ret H.
  destruct (negb _); simplify_eq; cbn; [done|]. by rewrite lookup_insert_ne.
Qed.
Lemma deflakeCall_other call res st st' c :
  call_step call res st = Ret st' → c ≠ call → snd st' !! c = snd st !! c.
Proof.
  intros H Hc. unfold deflakeCall in H. apply bind_Ret in H as (st1 & H1 & H).
  assert (E1 : snd st1 !! c = snd st !! c).
  { destruct (snd st !! call); [by simplify_eq|]. by eapply triageProgCall_other. }
  rewrite <-E1. clear E1 H1. destruct (snd st1 !! call) as [t|]; [|by simplify_eq]. destruct res as [ci|]; [|by simplify_eq].
  inv_ret H. destruct (addRawMaxSignal _ _ _) as [cov new]. simplify_eq. cbn. by rewrite lookup_insert_ne.
Qed.
Lemma deflakeCall_own call res st st' t :
  call_step call res st = Ret st' → snd st !! call = Some t →
  ∃ t', snd st' !! call = Some t' ∧ observes res call (tc_signals t) (tc_signals t').
Proof.
  intros H Ht. unfold deflakeCall in H. rewrite Ht in H. cbn [mbind outcome_bind] in H. rewrite Ht in H.
  destruct res as [ci|]; [|simplify_eq; by exists t]. inv_ret H.
  destruct (addRawMaxSignal _ _ _) as [cov new]. simplify_eq. cbn. rewrite lookup_insert_eq.
  eexists. split; [done|]. cbn. eauto.
Qed.
Lemma deflake_calls_spec i l st st' c t :
  calls_step i l st = Ret st' → snd st !! c = Some t →
  ∃ t', snd st' !! c = Some t' ∧
    observes (if decide (i ≤ c) then mjoin (l !! Z.to_nat (c - i)) else None) c (tc_signals t) (tc_signals t').
Proof.
  revert i st t. induction l as [|res l IH]; intros i st t H Ht; cbn [deflake_calls] in H.
  { simplify_eq. exists t. split; [done|]. by case_decide. }
  apply bind_Ret in H as (st1 & H1 & H). destruct (decide (c = i)) as [->|Hne].
  - destruct (deflakeCall_own _ _ _ _ _ H1 Ht) as (t1 & Ht1 & Ho). destruct (IH _ _ _ H Ht1) as (t2 & Ht2 & Ho2).
    rewrite decide_False in Ho2 by lia. cbn in Ho2. exists t2. split; [done|]. rewrite Ho2.
    rewrite decide_True by lia. by rewrite Z.sub_diag.
  - rewrite <-(deflakeCall_other _ _ _ _ _ H1 Hne) in Ht. destruct (IH _ _ _ H Ht) as (t2 & Ht2 & Ho2).
    exists t2. split; [done|]. destruct (decide (i ≤ c)).
    + rewrite decide_True in Ho2 by lia. replace (Z.to_nat (c - i)) with (S (Z.to_nat (c - (i + 1)))) by lia. done.
    + by rewrite decide_False in Ho2 by lia.
Qed.
Lemma deflake_info_spec info st st' c t :
  info_step info st = Ret st' → snd st !! c = Some t →
  ∃ t', snd st' !! c = Some t' ∧ observes (info_for info c) c (tc_signals t) (tc_signals t').
Proof.
  intros H Ht. unfold deflake_info in H. apply bind_Ret in H as (st1 & H1 & H).
  destruct (deflake_calls_spec _ _ _ _ _ _ H1 Ht) as (t1 & Ht1 & Ho1). unfold info_for.
  destruct (decide (c = -1)) as [->|Hne].
  - rewrite decide_False in Ho1 by lia. cbn in Ho1. rewrite <-Ho1. by eapply deflakeCall_own.
  - rewrite (deflakeCall_other _ _ _ _ _ H Hne). exists t1. split; [done|].
    rewrite Z.sub_0_r in Ho1. done.
Qed.

Context (exec : Z → ExecResult).
(** The signals a call showed in the runs 1 .. [n]. *)
Definition obs_at (c run : Z) : option CallInfo := er_Info (exec run) ≫= λ info, info_for info c.
Definition observations (c n : Z) : list (list Z) := omap (λ run, ci_Signal <$> obs_at c run) (seqZ 1 n).

Lemma observations_succ c n :
  0 ≤ n → observations c (n + 1) = observations c n ++ omap (λ run, ci_Signal <$> obs_at c run) [n + 1].
Proof.
  intros Hn. unfold observations. rewrite (seqZ_app 1 n 1) by lia. rewrite omap_app. f_equal.
  change (seqZ (1 + n) 1) with [0 + (1 + n)]. by replace (0 + (1 + n)) with (n + 1) by lia.
Qed.

(** The state after [n] runs, for the calls under triage from the start. *)
Definition deflake_inv (raw0 : Z → list Z) (calls0 : gmap Z triageCall) (n : Z) (st : triage_state) : Prop :=
  ∀ c t0, calls0 !! c = Some t0 → ∃ t, snd st !! c = Some t ∧ length (tc_signals t) = 3%nat ∧
    levels_sound (tc_signals t) (raw0 c :: observations c n) ∧
    ∀ prio, tc_signals t0 = [FromRaw (raw0 c) prio; ∅; ∅] →
      (∀ run ci, obs_at c run = Some ci → prio_of ci c = Ret prio) →
      levels_exact tp (prioType prio) (tc_signals t) (raw0 c :: observations c n).

Lemma deflake_inv_init raw0 st :
  (∀ c t, snd st !! c = Some t → ∃ prio, tc_signals t = [FromRaw (raw0 c) prio; ∅; ∅]) →
  deflake_inv raw0 (snd st) 0 st.
Proof.
  intros Hinit c t Ht. exists t. split; [done|]. destruct (Hinit c t Ht) as [prio Hs].
  assert (Hlv : ∀ prio, tc_signals t = [FromRaw (raw0 c) prio; ∅; ∅] → ∀ j e,
    level (tc_signals t) j !! e = if decide (j < count e [raw0 c])%nat then Some (prioType prio) else None).
  { intros pr Hpr j e. rewrite Hpr. change [raw0 c] with ([] ++ [raw0 c]). rewrite count_snoc. cbn [count filter list_filter length].
    destruct j as [|j].
    - cbn. rewrite lookup_FromRaw. case_decide; [by rewrite decide_True by lia|by rewrite decide_False by lia].
    - assert (level [FromRaw (raw0 c) pr; ∅; ∅] (S j) = ∅) as -> by (by destruct j as [|[|j]]).
      rewrite lookup_empty. rewrite decide_False; [done|]. destruct (decide (e ∈ raw0 c)); lia. }
  rewrite Hs at 1. split_and!; [done| |].
  - intros j e. change (observations c 0) with (@nil (list Z)). rewrite (Hlv prio Hs).
    case_decide; [done|by intros [? ?]].
  - intros pr Hpr _ j e _. by rewrite (Hlv pr Hpr).
Qed.
Lemma deflake_inv_step raw0 calls0 n st st' :
  0 ≤ n → deflake_inv raw0 calls0 n st →
  match er_Info (exec (n + 1)) with None => Ret st | Some info => info_step info st end = Ret st' →
  deflake_inv raw0 calls0 (n + 1) st'.
Proof.
  intros Hn Hinv H c t0 Ht0. destruct (Hinv c t0 Ht0) as (t & Ht & Hlen & Hs & He).
  assert (Hobs : ∃ t', snd st' !! c = Some t' ∧ observes (obs_at c (n + 1)) c (tc_signals t) (tc_signals t')).
  { unfold obs_at. destruct (er_Info (exec (n + 1))) as [info|]; [by eapply deflake_info_spec|].
    simplify_eq. by exists t. }
  destruct Hobs as (t' & Ht' & Ho). exists t'. split; [done|]. rewrite observations_succ by done. cbn [omap list_omap].
  pose proof top_lt as Htop.
  destruct (obs_at c (n + 1)) as [ci|] eqn:Eo; cbn [fmap option_fmap option_map];
    [|cbn in Ho; rewrite Ho, app_nil_r; split_and!; done].
  destruct Ho as (prio & Hp & Hl). rewrite Hl, length_shift_levels. split_and!; [done| |].
  - rewrite app_comm_cons. apply levels_sound_step; [lia|done].
  - intros pr Hpr Hall. assert (prio = pr) as -> by (rewrite (Hall _ _ Eo) in Hp; by injection Hp).
    rewrite app_comm_cons. apply levels_exact_step; [lia|by apply He].
Qed.

Abbreviation loop := (deflake_loop CallContainsAny NewInputFilter Snapshot FromCorpus FetchRawCover p exec).
Lemma deflake_loop_inv raw0 calls0 fuel run prev avoid st e :
  loop fuel run prev avoid st = Ret (Some (inr e)) → 1 ≤ run → deflake_inv raw0 calls0 (run - 1) st →
  deflake_inv raw0 calls0 (de_run e - 1) (de_state e).
Proof.
  revert run prev avoid st. induction fuel as [|fuel IH]; intros run prev avoid st H Hrun Hinv; cbn [deflake_loop] in H; [done|].
  apply bind_Ret in H as (stop & _ & H). destruct stop; [by simplify_eq|].
  destruct (er_Stop (exec run)); [done|]. apply bind_Ret in H as (st1 & H1 & H).
  apply IH in H; [done|lia|]. replace (run + 1 - 1) with (run - 1 + 1) by lia.
  eapply deflake_inv_step; [lia|done|]. by replace (run - 1 + 1) with run by lia.
Qed.

(** *** Termination *)
Definition named_prog : Prop := ∀ i c, Calls p !! i = Some c → ∃ call m, c = Some call ∧ Meta call = Some m.
Definition result_ok (r : ExecResult) : Prop :=
  ∀ info, er_Info r = Some info → (length (pi_Calls info) ≤ length (Calls p))%nat.
Definition levels_shape (st : triage_state) : Prop := map_Forall (λ _ t, length (tc_signals t) = 3%nat) (snd st).
(** The run at which the job stops at the latest. *)
Definition max_run : Z := if Snapshot then 3 else if FromCorpus then deflakeTotalCorpusRuns else deflakeMaxRuns.

Hypothesis Hnamed : named_prog.

Lemma signalPrio_Ret ci call : -1 ≤ call < len (Calls p) → ∃ prio, prio_of ci call = Ret prio.
Proof.
  intros Hc. unfold signalPrio. case_decide; [eauto|]. destruct (index_Ret (Calls p) call) as (c & -> & Hl); [lia|].
  destruct (Hnamed _ _ Hl) as (cl & m & -> & _). cbn. eauto.
Qed.
Lemma ProgCallName_Ret call : -1 ≤ call < len (Calls p) → ∃ name, ProgCallName p call = Ret name.
Proof.
  intros Hc. unfold ProgCallName. rewrite decide_False by lia. case_decide; [eauto|].
  destruct (index_Ret (Calls p) call) as (c & -> & Hl); [lia|]. cbn.
  destruct (Hnamed _ _ Hl) as (cl & m & -> & Hm). cbn. rewrite Hm. eauto.
Qed.
Lemma triageProgCall_Ret info call st :
  -1 ≤ call < len (Calls p) → levels_shape st →
  ∃ st', triageProgCall CallContainsAny NewInputFilter p info call st = Ret st' ∧ levels_shape st'.
Proof.
  intros Hc Hs. unfold triageProgCall. destruct info as [info|]; [|eauto].
  destruct (signalPrio_Ret info call Hc) as [prio ->]. cbn [mbind outcome_bind].
  destruct (addRawMaxSignal _ _ _) as [cov new]. destruct (SignalEmpty new); [eauto|].
  destruct (ProgCallName_Ret call Hc) as [name ->]. cbn [mbind outcome_bind]. destruct (negb _); [eauto|].
  eexists. split; [done|]. by apply map_Forall_insert_2.
Qed.
Lemma deflakeCall_Ret call res st :
  -1 ≤ call < len (Calls p) → levels_shape st → ∃ st', call_step call res st = Ret st' ∧ levels_shape st'.
Proof.
  intros Hc Hs.
  assert (Hstart : ∃ st1, (snd st !! call = None ∧ triageProgCall CallContainsAny NewInputFilter p res call st = Ret st1 ∨
    is_Some (snd st !! call) ∧ st1 = st) ∧ levels_shape st1).
  { destruct (snd st !! call); [eauto 10|]. destruct (triageProgCall_Ret res call st Hc Hs) as (st1 & ? & ?). eauto 10. }
  destruct Hstart as (st1 & H1 & Hs1). unfold deflakeCall.
  assert (E : ∀ k : triage_state → outcome triage_state,
    (match snd st !! call with None => triageProgCall CallContainsAny NewInputFilter p res call st | Some _ => Ret st end ≫= k)
    = k st1) by (intros k; destruct H1 as [[-> ->]|[[? ->] ->]]; done).
  rewrite E. clear H1 E. destruct (snd st1 !! call) as [t|] eqn:Et; [|eauto]. destruct res as [ci|]; [|eauto].
  destruct (signalPrio_Ret ci call Hc) as [prio ->]. cbn [mbind outcome_bind].
  destruct (addRawMaxSignal _ _ _) as [cov new]. eexists. split; [done|]. apply map_Forall_insert_2; [|done].
  cbn. rewrite length_shift_levels. by apply (Hs1 call).
Qed.
Lemma deflake_calls_Ret i l st :
  0 ≤ i → i + len l ≤ len (Calls p) → levels_shape st → ∃ st', calls_step i l st = Ret st' ∧ levels_shape st'.
Proof.
  revert i st. induction l as [|res l IH]; intros i st Hi Hl Hs; cbn [deflake_calls]; [eauto|].
  assert (Hlen : len (res :: l) = len l + 1) by (unfold len; cbn [length]; lia).
  destruct (deflakeCall_Ret i res st) as (st1 & -> & Hs1); [unfold len in *; lia|done|]. cbn [mbind outcome_bind].
  apply IH; [lia|lia|done].
Qed.
Lemma deflake_info_Ret info st :
  (length (pi_Calls info) ≤ length (Calls p))%nat → levels_shape st →
  ∃ st', info_step info st = Ret st' ∧ levels_shape st'.
Proof.
  intros Hl Hs. unfold deflake_info.
  destruct (deflake_calls_Ret 0 (pi_Calls info) st) as (st1 & -> & Hs1); [lia|unfold len; lia|done|].
  cbn [mbind outcome_bind]. apply deflakeCall_Ret; [unfold len; lia|done].
Qed.

Lemma mapM_total {A B} (f : A → outcome B) l : Forall (λ x, ∃ y, f x = Ret y) l → ∃ r, mapM f l = Ret r.
Proof.
  intros H. assert (∃ k, Forall2 (λ x y, f x = Ret y) l k) as [k Hk]; [|exists k; by apply mapM_Ret].
  induction H as [|x l [y Hy] _ [k Hk]]; [by exists []|]. exists (y :: k). by constructor.
Qed.
Lemma stopDeflake_Ret run same st :
  1 ≤ run → levels_shape st →
  ∃ b, stopDeflake Snapshot FromCorpus run same (snd st) = Ret b ∧ (max_run ≤ run → b = true).
Proof.
  intros Hrun Hs. unfold stopDeflake, max_run, needRuns.
  destruct Snapshot; [eexists; split; [done|]; intros; by apply Z.leb_le|]. destruct FromCorpus; cbn [negb].
  { eexists. split; [done|]. intros Hm. apply orb_true_iff. left. by apply Z.leb_le. }
  destruct (decide (deflakeMaxRuns ≤ run)); [eauto|].
  match goal with |- context [mapM ?f ?l] => destruct (mapM_total f l) as [r ->] end.
  - apply Forall_forall. intros t Ht. case_decide; [eauto|]. unfold deflakeMaxRuns, deflakeNeedRuns in *.
    assert (Hlen : length (tc_signals t) = 3%nat).
    { apply list_elem_of_fmap in Ht as ([k t'] & -> & Ht). apply elem_of_map_to_list in Ht. by apply (Hs k). }
    destruct (index_Ret (tc_signals t) (3 - (5 - run) - 1)) as (x & -> & _); [unfold len; lia|]. cbn. eauto.
  - cbn. eexists. split; [done|]. intros; lia.
Qed.
Lemma deflake_loop_Ret fuel run prev avoid st :
  (∀ run, result_ok (exec run)) → 1 ≤ run ≤ max_run → max_run - run < Z.of_nat fuel → levels_shape st →
  ∃ r, loop fuel run prev avoid st = Ret (Some r) ∧
    run ≤ de_run (match r with inl e | inr e => e end) ≤ max_run ∧
    len (de_avoid (match r with inl e | inr e => e end)) = len avoid + (de_run (match r with inl e | inr e => e end) - run).
Proof.
  intros Hres. revert run prev avoid st. induction fuel as [|fuel IH]; intros run prev avoid st Hrun Hf Hs; [lia|].
  cbn [deflake_loop]. destruct (stopDeflake_Ret run (bool_decide (prev = totalNewSignal (snd st))) st) as (b & -> & Hb);
    [lia|done|]. cbn [mbind outcome_bind]. destruct b.
  { eexists. split; [done|]. cbn. lia. }
  assert (run < max_run) by (destruct (decide (max_run ≤ run)) as [Hm|]; [by apply Hb in Hm|lia]).
  destruct (er_Stop (exec run)); [eexists; split; [done|]; cbn; lia|].
  assert (∃ st1, match er_Info (exec run) with None => Ret st | Some info => info_step info st end = Ret st1 ∧ levels_shape st1)
    as (st1 & -> & Hs1).
  { destruct (er_Info (exec run)) as [info|] eqn:Ei; [|eauto]. apply deflake_info_Ret; [by apply (Hres run)|done]. }
  cbn [mbind outcome_bind]. destruct (IH (run + 1) (totalNewSignal (snd st)) (avoid ++ [er_Executor (exec run)]) st1)
    as (r & Er & Hr & Ha); [lia|lia|done|]. exists r. split; [done|]. rewrite Ha. unfold len. rewrite length_app.
  cbn [length]. lia.
Qed.
End observe.


(** Triage terminates: whatever the executions return for a program whose
    calls are known, deflaking returns after at most 4 executions of a fuzzed
    program, 19 of a corpus program and 2 in snapshot mode, and it avoids the
    executors of all earlier runs. *)
Theorem deflake_terminates (CallContainsAny : Call → bool) (NewInputFilter : string → bool)
    (Snapshot FromCorpus FetchRawCover : bool) (p : Prog) (exec : Z → ExecResult)
    (executor : ExecutorID) (st : triage_state)
    (Hnamed : named_prog p) (Hres : ∀ run, result_ok p (exec run)) (Hshape : levels_shape st) :
  ∃ stop e,
    deflake CallContainsAny NewInputFilter Snapshot FromCorpus FetchRawCover p exec 20 executor st
    = Ret (Some (stop, e)) ∧
    1 ≤ de_run e ≤ (if Snapshot then 3 else if FromCorpus then 20 else 5) ∧
    len (de_avoid e) = de_run e.
Proof.
  destruct (deflake_loop_Ret CallContainsAny NewInputFilter Snapshot FromCorpus FetchRawCover p exec Hnamed 20 1 0 [executor] st)
    as (r & Hr & Hrun & Hav); [done|unfold max_run; by destruct Snapshot, FromCorpus|
      unfold max_run; by destruct Snapshot, FromCorpus|done|].
  unfold deflake. rewrite Hr. cbn [mbind outcome_bind]. change (len [executor]) with 1 in Hav.
  destruct r as [e|e]; eexists _, _; (split; [done|]); cbn [de_run de_avoid]; unfold max_run in Hrun;
    (split; [by destruct Snapshot, FromCorpus|lia]).
Qed.

(** A call that shows new signal only while the job is deflaking counts
    its first run twice: after that single run the second level already holds
    the whole signal of the run, so for a corpus program (two runs needed) one
    flaky execution passes for stable. *)
Theorem deflake_counts_twice (CallContainsAny : Call → bool) (NewInputFilter : string → bool)
    (Snapshot FromCorpus FetchRawCover : bool) (p : Prog) (call : Z) (ci : CallInfo)
    (st st' : triage_state) (t : triageCall)
    (Hnew : snd st !! call = None)
    (Hstep : deflakeCall CallContainsAny NewInputFilter Snapshot FromCorpus FetchRawCover p call (Some ci) st = Ret st')
    (Ht : snd st' !! call = Some t) :
  ∃ prio, signalPrio CallContainsAny p ci call = Ret prio ∧
    ∀ x, level (tc_signals t) 1 !! x = FromRaw (ci_Signal ci) prio !! x.
Proof.
  unfold deflakeCall in Hstep. rewrite Hnew in Hstep. apply bind_Ret in Hstep as (st1 & H1 & H).
  unfold triageProgCall in H1. destruct (signalPrio CallContainsAny p ci call) as [prio|] eqn:Ep; [|done].
  cbn [mbind outcome_bind] in H1, H. exists prio. split; [done|]. intros x.
  destruct (addRawMaxSignal (fst st) (ci_Signal ci) prio) as [cov new].
  assert (Hst1 : snd st1 !! call = None ∨ ∃ t1, snd st1 !! call = Some t1 ∧ tc_signals t1 = [FromRaw (ci_Signal ci) prio; ∅; ∅]).
  { destruct (SignalEmpty new); [simplify_eq; by left|]. apply bind_Ret in H1 as (name & _ & H1).
    destruct (negb _); simplify_eq; [by left|]. right. cbn. rewrite lookup_insert_eq. eauto. }
  destruct Hst1 as [Hst1|(t1 & Hst1 & Hsig)]; rewrite Hst1 in H; [simplify_eq; congruence|].
  destruct (addRawMaxSignal (fst st1) _ _) as [cov' new']. simplify_eq. cbn in Ht. rewrite lookup_insert_eq in Ht.
  injection Ht as <-. cbn [tc_signals]. rewrite Hsig, level_shift by (pose proof (top_lt Snapshot FromCorpus); cbn; lia).
  rewrite decide_True by (unfold top, needRuns; destruct Snapshot, FromCorpus; vm_compute; lia).
  rewrite lookup_SignalMerge, lookup_Intersection. cbn. rewrite lookup_empty.
  destruct (FromRaw (ci_Signal ci) prio !! x); [by rewrite decide_True by lia|done].
Qed.

(** *** Witnesses: a program with one call, signal 7 in every run *)
Definition flaky_prog : Prog :=
  mkProg [Some (mkCall (Some (mkSyscall 0 0 "close" "close" 0 [] None
    (mkSyscallAttrs false 0 0 false false false false false false false false false false "" ""))) [] None noProps "")] [] false.
Definition flaky_exec (run : Z) : ExecResult :=
  mkExecResult Success (mkExecutor run 0)
    (Some (mkProgInfo [Some (mkCallInfo 0 (if decide (run = 1) then [7; 9] else [7]) [])] None)).
Definition flaky_start : triage_state :=
  (newCover, {[ 0 := mkTriageCall 0 (FromRaw [7; 8] 3) [FromRaw [7; 8] 3; ∅; ∅] ∅ ∅ ∅ [] ]}).
Definition flaky_end : deflake_end :=
  match deflake (λ _, false) (λ _, true) false false false flaky_prog flaky_exec 20 (mkExecutor 0 0) flaky_start with
  | Ret (Some (_, e)) => e
  | _ => mkEnd flaky_start [] 0
  end.


Lemma deflake_terminates_witness :
  ∃ stop e, deflake (λ _, false) (λ _, true) false false false flaky_prog flaky_exec 20 (mkExecutor 0 0) flaky_start
    = Ret (Some (stop, e)) ∧ de_run e ≤ 5.
Proof.
  destruct (deflake_terminates (λ _, false) (λ _, true) false false false flaky_prog flaky_exec (mkExecutor 0 0) flaky_start)
    as (stop & e & E & H & _).
  - intros [|i] c Hc; [|done]. cbn in Hc. injection Hc as <-. eauto.
  - intros run info [= <-]. cbn. lia.
  - by apply map_Forall_singleton.
  - exists stop, e. exact (conj E (proj2 H)).
Defined.

(** A corpus program: signal 9 of run 1 alone reaches the second level. *)
Lemma deflake_counts_twice_witness :
  ∃ st' t, deflakeCall (λ _, false) (λ _, true) false true false flaky_prog 0 (Some (mkCallInfo 0 [7; 9] [])) (newCover, ∅) = Ret st'
    ∧ snd st' !! 0 = Some t ∧ level (tc_signals t) 1 !! 9 = Some 3.
Proof.
  assert (H : match deflakeCall (λ _, false) (λ _, true) false true false flaky_prog 0 (Some (mkCallInfo 0 [7; 9] [])) (newCover, ∅)
    with Ret st' => bool_decide (is_Some (snd st' !! 0)) | Panic => false end = true) by (vm_compute; reflexivity).
  destruct (deflakeCall _ _ _ _ _ _ _ _ _) as [st'|] eqn:E; [|discriminate].
  apply bool_decide_eq_true in H as [t Ht]. exists st', t. split; [reflexivity|]. split; [exact Ht|].
  destruct (deflake_counts_twice (λ _, false) (λ _, true) false true false flaky_prog 0 (mkCallInfo 0 [7; 9] []) (newCover, ∅) st' t
    (lookup_empty 0) E Ht) as (prio & Hp & Hx).
  rewrite Hx. vm_compute in Hp. injection Hp as <-. vm_compute. reflexivity.
Defined.
