(* ===== verification/ConfigMinimize.v ===== *)
(** * Minimising a configuration context during triage
    (src/pkg/fuzzer/job.go: checkKConfuzzDependency, reproducesSignal,
    minimizeKConfuzzConfig, reduceKConfuzzActions, probeKConfuzzSignal,
    limitKConfuzzActionsForSave and their helpers)

    Triage asks whether new signal needs the configuration at all and then
    deletes actions, first in chunks and then one by one, as long as the
    signal is reproduced.  What an execution returns is arbitrary:
    [execute n r] is the result of the [n]-th execution of the job, of request
    [r]; the counter of executions is threaded through as in [JobInfo.Execs]. *)

From Stdlib Require Import ZArith.
From S2P Require Import Prelude Prog ConfigContext Params Planner ConfigPolicy PolicyProps Queues Requests Signal FuzzerPrepare Deflake.

(** ** Results of an execution *)

Definition callInfo (info : option ProgInfo) (call : Z) : outcome (option CallInfo) :=
  match info with
  | None => Ret None
  | Some info =>
      if decide (call = -1) then Ret (pi_Extra info)
      else if decide (call < 0 ∨ len (pi_Calls info) ≤ call) then Ret None
      else index (pi_Calls info) call
  end.

(** A nil entry of [Calls] is dereferenced. *)
Definition reexecutionSuccess (info : option ProgInfo) (oldErrno call : Z) : outcome bool :=
  match info with
  | None => Ret false
  | Some info =>
      if decide (len (pi_Calls info) = 0) then Ret false
      else if decide (call ≠ -1) then
        if decide (call < 0 ∨ len (pi_Calls info) ≤ call) then Ret false
        else
          ci ← index (pi_Calls info) call;
          match ci with
          | None => Panic
          | Some ci =>
              if decide (oldErrno = 0 ∧ ci_Error ci ≠ 0) then Ret false
              else Ret (bool_decide (len (ci_Signal ci) ≠ 0))
          end
      else Ret (match pi_Extra info with None => false | Some ci => bool_decide (len (ci_Signal ci) ≠ 0) end)
  end.

Definition signalContainsAll (want got : Signal) : bool :=
  bool_decide (SignalLen (Intersection want got) = SignalLen want).

(** [raw] is sorted before its first element is taken. *)
Definition kconfuzzAnchorSignal (s : Signal) : Signal :=
  let raw := ToRaw s in
  if decide (len raw = 0) then ∅
  else FromRaw (take 1 (sort_by (less_on id) raw)) 0.

Definition limitKConfuzzActionsForSave (actions : list KConfuzzConfigAction) (limit : Z)
    : outcome (list KConfuzzConfigAction) :=
  if decide (limit ≤ 0 ∨ len actions ≤ limit) then Ret (CloneKConfuzzConfigActions actions)
  else mapM (λ i, index actions (Z.quot (i64 (i * len actions)) limit)) (seqZ 0 limit).

Record kconfuzzSignalProbe := mkProbe { pb_Signal : Signal; pb_Cover : Cover; pb_RawCover : list Z }.

Section minimize_config.
Context (CallContainsAny : Call → bool) (FetchRawCover : bool) (env : string → string).
(** [job.kconfuzzOriginSig]. *)
Context (origin : string).
Context (execute : Z → Request → ExecResult).

(** A request literal with these fields and [setFlags(flags)]. *)
Definition job_request (p : Prog) (flags call : Z) : Request :=
  mkRequest RequestTypeProgram (mkExecOpts 0 flags 0) (Some p) [] None false "" "" "" [call] false [] []
    false 0 None.

Definition executeWithKConfuzz (n : Z) (r : Request) (config : option KConfuzzConfigContext) (disable : bool)
    : ExecResult := execute n (triage_request r config disable origin).

(** [info] is not nil here. *)
Definition getSignalAndCover (p : Prog) (info : ProgInfo) (call : Z) : outcome Signal :=
  if decide (call ≠ -1 ∧ (call < 0 ∨ len (pi_Calls info) ≤ call)) then Ret ∅
  else
    inf ← (if decide (call ≠ -1) then index (pi_Calls info) call else Ret (pi_Extra info));
    match inf with
    | None => Ret ∅
    | Some ci => prio ← signalPrio CallContainsAny p ci call; Ret (FromRaw (ci_Signal ci) prio)
    end.

Fixpoint reproduces_loop (attempts : nat) (n : Z) (r : Request) (p : Prog) (call : Z) (want : Signal)
    (config : option KConfuzzConfigContext) (disable : bool) (merged : Signal) : outcome (bool * Z) :=
  match attempts with
  | O => Ret (false, n)
  | S attempts =>
      let result := executeWithKConfuzz n r config disable in
      match er_Info result with
      | Some info =>
          if er_Stop result then Ret (false, n + 1)
          else
            this ← getSignalAndCover p info call;
            let merged := if decide (SignalLen merged = 0) then this else SignalMerge merged this in
            if signalContainsAll want merged then Ret (true, n + 1)
            else reproduces_loop attempts (n + 1) r p call want config disable merged
      | None => Ret (false, n + 1)
      end
  end.
Definition reproducesSignal (n : Z) (r : Request) (p : Prog) (call : Z) (want : Signal)
    (config : option KConfuzzConfigContext) (disable : bool) (attempts : nat) : outcome (bool * Z) :=
  reproduces_loop attempts n r p call want config disable ∅.

Definition checkKConfuzzDependency (n : Z) (p : Prog) (call : Z) (info : triageCall) : outcome (bool * Z) :=
  '(reproduced, n) ← reproducesSignal n (job_request p ExecFlagCollectSignal call) p call
                       (tc_newStableSignal info) None true 2;
  Ret (negb reproduced, n).

(** ** Probing and deleting *)

Fixpoint probe_loop (attempts : nat) (n : Z) (p : Prog) (call : Z) (target : Signal)
    (config : option KConfuzzConfigContext) (probe : kconfuzzSignalProbe)
    : outcome (kconfuzzSignalProbe * bool * Z) :=
  match attempts with
  | O => Ret (probe, false, n)
  | S attempts =>
      let disable := match config with None => true | Some c => bool_decide (len (Actions c) = 0) end in
      let result := executeWithKConfuzz n
        (job_request p (Z.lor ExecFlagCollectCover ExecFlagCollectSignal) call) config disable in
      match er_Info result with
      | Some info =>
          if er_Stop result then Ret (probe, false, n + 1)
          else
            inf ← callInfo (Some info) call;
            match inf with
            | None => probe_loop attempts (n + 1) p call target config probe
            | Some ci =>
                prio ← signalPrio CallContainsAny p ci call;
                let probe := mkProbe (SignalMerge (pb_Signal probe) (FromRaw (ci_Signal ci) prio))
                  (CoverMerge (pb_Cover probe) (ci_Cover ci))
                  (if bool_decide (len (pb_RawCover probe) = 0) && FetchRawCover then ci_Cover ci
                   else pb_RawCover probe) in
                if signalContainsAll target (pb_Signal probe) then Ret (probe, true, n + 1)
                else probe_loop attempts (n + 1) p call target config probe
            end
      | None => Ret (probe, false, n + 1)
      end
  end.
Definition probeKConfuzzSignal (n : Z) (p : Prog) (call : Z) (target : Signal)
    (config : option KConfuzzConfigContext) (attempts : nat) : outcome (kconfuzzSignalProbe * bool * Z) :=
  probe_loop attempts n p call target config (mkProbe ∅ ∅ []).
Definition reproducesKConfuzzSignal (n : Z) (p : Prog) (call : Z) (target : Signal)
    (config : option KConfuzzConfigContext) (attempts : nat) : outcome (bool * Z) :=
  '(_, ok, n) ← probeKConfuzzSignal n p call target config attempts; Ret (ok, n).

(** One pass over the actions with deletions of [chunk] of them; the last loop
    of the function is the pass with [chunk = 1].  [None]: out of fuel. *)
Fixpoint delete_pass (fuel : nat) (n : Z) (p : Prog) (call : Z) (target : Signal) (minActions chunk index : Z)
    (c : KConfuzzConfigContext) : outcome (option (KConfuzzConfigContext * Z)) :=
  match fuel with
  | O => Ret None
  | S fuel =>
      if decide (index < len (Actions c)) then
        let end_ := if decide (len (Actions c) < index + chunk) then len (Actions c) else index + chunk in
        let test := set_Actions c (take (Z.to_nat index) (Actions c) ++ drop (Z.to_nat end_) (Actions c)) in
        if decide (len (Actions test) < minActions) then
          delete_pass fuel n p call target minActions chunk (index + chunk) c
        else
          '(ok, n) ← reproducesKConfuzzSignal n p call target (Some test) 2;
          if (ok : bool) then
            delete_pass fuel n p call target minActions chunk index
              (set_Actions c (CloneKConfuzzConfigActions (Actions test)))
          else delete_pass fuel n p call target minActions chunk (index + chunk) c
      else Ret (Some (c, n))
  end.

(** [for chunk := ...; chunk >= 2; chunk /= 2]. *)
Fixpoint chunk_loop (fuel : nat) (n : Z) (p : Prog) (call : Z) (target : Signal) (minActions chunk : Z)
    (c : KConfuzzConfigContext) : outcome (option (KConfuzzConfigContext * Z)) :=
  match fuel with
  | O => Ret None
  | S fuel =>
      if decide (2 ≤ chunk) then
        r ← delete_pass (S (length (Actions c))) n p call target minActions chunk 0 c;
        match r with
        | None => Ret None
        | Some (c, n) => chunk_loop fuel n p call target minActions (chunk / 2) c
        end
      else Ret (Some (c, n))
  end.

Definition reduceKConfuzzActions (n : Z) (p : Prog) (call : Z) (target : Signal)
    (config : option KConfuzzConfigContext) (perAction : bool) (minActions : Z)
    : outcome (option (option KConfuzzConfigContext * Z)) :=
  if SignalEmpty target then Ret (Some (config, n))
  else
    match CloneForProg config (Some p) with
    | None => Ret (Some (None, n))
    | Some c =>
        if decide (len (Actions c) = 0) then Ret (Some (None, n))
        else
          let minActions := if decide (minActions < 0) then 0 else minActions in
          r ← chunk_loop (S (length (Actions c))) n p call target minActions (len (Actions c) / 2) c;
          match r with
          | None => Ret None
          | Some (c, n) =>
              if negb perAction then Ret (Some (Some c, n))
              else
                r ← delete_pass (S (length (Actions c))) n p call target minActions 1 0 c;
                Ret (match r with None => None | Some (c, n) => Some (Some c, n) end)
          end
    end.

(** ** The whole minimisation *)

Definition set_signals (info : triageCall) (stable newStable : Signal) (cov : Cover) (raw : list Z) : triageCall :=
  mkTriageCall (tc_errno info) (tc_newSignal info) (tc_signals info) stable newStable cov raw.

(** The compaction around one stable signal. *)
Definition compact_context (n : Z) (p : Prog) (call : Z) (info : triageCall) (c : KConfuzzConfigContext)
    : outcome (option (KConfuzzConfigContext * triageCall * Z)) :=
  let target := kconfuzzAnchorSignal (tc_newStableSignal info) in
  if SignalEmpty target then Ret (Some (c, info, n))
  else
    r ← reduceKConfuzzActions n p call target (Some c) true 1;
    match r with
    | None => Ret None
    | Some (None, n) => Ret (Some (c, info, n))
    | Some (Some compact, n) =>
        if decide (len (Actions compact) < len (Actions c)) then
          '(probe, ok, n) ← probeKConfuzzSignal n p call target (Some compact) 2;
          if (ok : bool) then
            Ret (Some (compact, set_signals info (pb_Signal probe) target
              (if decide (size (pb_Cover probe) ≠ 0%nat) then pb_Cover probe else tc_cover info)
              (if decide (len (pb_RawCover probe) ≠ 0) then pb_RawCover probe else tc_rawCover info), n))
          else Ret (Some (c, info, n))
        else Ret (Some (c, info, n))
    end.

Definition minimizeKConfuzzConfig (n : Z) (p : Prog) (call : Z) (info : triageCall)
    (config : option KConfuzzConfigContext)
    : outcome (option (option KConfuzzConfigContext * triageCall * Z)) :=
  match CloneForProg config (Some p) with
  | None => Ret (Some (None, info, n))
  | Some c =>
      if decide (len (Actions c) = 0) then Ret (Some (None, info, n))
      else
        let maxSavedActions := SaveMaxActions env in
        let strictPerAction :=
          bool_decide (maxSavedActions = 0 ∨ len (Actions c) ≤ i64 (maxSavedActions * 2)) in
        r ← reduceKConfuzzActions n p call (tc_newStableSignal info) (Some c) strictPerAction 0;
        match r with
        | None => Ret None
        | Some (None, n) => Ret (Some (None, info, n))
        | Some (Some c, n) =>
            r ← (if decide (0 < maxSavedActions ∧ maxSavedActions < len (Actions c)) then
                   r ← compact_context n p call info c;
                   match r with
                   | None => Ret None
                   | Some (c, info, n) =>
                       if decide (maxSavedActions < len (Actions c)) then
                         l ← limitKConfuzzActionsForSave (Actions c) maxSavedActions;
                         Ret (Some (set_Actions c l, info, n))
                       else Ret (Some (c, info, n))
                   end
                 else Ret (Some (c, info, n)));
            match r with
            | None => Ret None
            | Some (c, info, n) =>
                match TightenContextForSave (Some c) (Some p) with
                | None => Ret (Some (None, info, n))
                | Some c =>
                    if decide (len (Actions c) = 0) then Ret (Some (None, info, n))
                    else
                      let l := NormalizeKConfuzzConfigActions (Some p) (Actions c) in
                      if decide (len l = 0) then Ret (Some (None, info, n))
                      else Ret (Some (Some (mkContext (Strategy c) (ConfigContext.Source c) true l), info, n))
                end
            end
        end
  end.
End minimize_config.

(** ** Containment of signals *)

Lemma Intersection_subseteq s t : Intersection s t ⊆ s.
Proof.
  apply map_subseteq_spec. intros e p. rewrite lookup_Intersection.
  destruct (s !! e) as [x|]; [|done]. destruct (t !! e) as [y|]; [|done]. case_decide; naive_solver.
Qed.
Lemma signalContainsAll_spec want got : signalContainsAll want got = true ↔ sig_le want got.
Proof.
  unfold signalContainsAll, SignalLen. rewrite bool_decide_eq_true.
  pose proof (Intersection_subseteq want got) as Hsub. split.
  - intros Hsz. assert (E : Intersection want got = want).
    { apply map_subseteq_size_eq; [done|]. lia. }
    intros e p Hp. rewrite <-E, lookup_Intersection in Hp.
    destruct (want !! e) as [x|]; [|done]. destruct (got !! e) as [y|]; [|done].
    case_decide; [|done]. simplify_eq. eauto.
  - intros Hle. replace (Intersection want got) with want; [done|]. apply map_eq. intros e.
    rewrite lookup_Intersection. destruct (want !! e) as [x|] eqn:E; [|done].
    destruct (Hle e x E) as (y & -> & ?). by rewrite decide_True.
Qed.
Lemma signalContainsAll_false want got : signalContainsAll want got = false ↔ ¬ sig_le want got.
Proof. rewrite <-signalContainsAll_spec. by destruct (signalContainsAll want got). Qed.

Lemma callInfo_info_for info call : callInfo (Some info) call = Ret (info_for info call).
Proof.
  unfold callInfo, info_for. case_decide; [done|]. case_decide as Hr.
  - destruct (decide (0 ≤ call)); [|done]. rewrite lookup_ge_None_2; [done|]. unfold len in *. lia.
  - rewrite decide_True by lia. destruct (index_Ret (pi_Calls info) call) as (x & -> & ->); [lia|done].
Qed.

(** ** What several attempts observe *)

(** [obs i] is what run [i] shows of the call, [None] when it stops the
    attempts.  The first [j] runs from [n] on, merged: *)
Definition merged_runs (obs : Z → option Signal) (acc : Signal) (n : Z) (j : nat) : Signal :=
  foldl (λ s i, SignalMerge s (default ∅ (obs i))) acc (seqZ n (Z.of_nat j)).
Definition reproduced (obs : Z → option Signal) (n : Z) (attempts : nat) (target : Signal) : Prop :=
  ∃ j : nat, (1 ≤ j ≤ attempts)%nat ∧ (∀ i, n ≤ i < n + Z.of_nat j → is_Some (obs i)) ∧
    sig_le target (merged_runs obs ∅ n j).

(** The same with a signal already collected. *)
Definition reproduced_from (obs : Z → option Signal) (acc : Signal) (n : Z) (attempts : nat) (target : Signal)
    : Prop :=
  ∃ j : nat, (1 ≤ j ≤ attempts)%nat ∧ (∀ i, n ≤ i < n + Z.of_nat j → is_Some (obs i)) ∧
    sig_le target (merged_runs obs acc n j).

Lemma merged_runs_S obs acc n j :
  merged_runs obs acc n (S j) = merged_runs obs (SignalMerge acc (default ∅ (obs n))) (n + 1) j.
Proof. unfold merged_runs. rewrite seqZ_cons by lia. cbn [foldl]. do 2 f_equal; lia. Qed.

Lemma reproduced_from_S obs acc n k target :
  reproduced_from obs acc n (S k) target ↔
  ∃ s, obs n = Some s ∧
    (sig_le target (SignalMerge acc s) ∨ reproduced_from obs (SignalMerge acc s) (n + 1) k target).
Proof.
  split.
  - intros (j & Hj & Hs & Hle). destruct j as [|j]; [lia|]. destruct (Hs n) as [s Es]; [lia|].
    exists s. split; [done|]. rewrite merged_runs_S, Es in Hle. cbn [default] in Hle.
    destruct j as [|j]; [by left|]. right. exists (S j). split_and!; [lia|lia| |done].
    intros i Hi. apply Hs. lia.
  - intros (s & Es & [Hle|(j & Hj & Hs & Hle)]).
    + exists 1%nat. split_and!; [lia|lia| |].
      * intros i Hi. replace i with n by lia. by rewrite Es.
      * rewrite merged_runs_S, Es. cbn. done.
    + exists (S j). split_and!; [lia|lia| |].
      * intros i Hi. destruct (decide (i = n)) as [->|]; [by rewrite Es|]. apply Hs. lia.
      * by rewrite merged_runs_S, Es.
Qed.
Lemma reproduced_from_0 obs acc n target : ¬ reproduced_from obs acc n 0 target.
Proof. intros (j & Hj & _). lia. Qed.

Section minimize_props.
Context (CallContainsAny : Call → bool) (FetchRawCover : bool) (origin : string).
Context (execute : Z → Request → ExecResult).
Context (p : Prog) (call : Z).
Hypothesis Hnamed : named_prog p.
Hypothesis Hcall : -1 ≤ call < len (Calls p).

Abbreviation probe_run := (probe_loop CallContainsAny FetchRawCover origin execute).
Abbreviation pass := (delete_pass CallContainsAny FetchRawCover origin execute).
Abbreviation chunks := (chunk_loop CallContainsAny FetchRawCover origin execute).
Abbreviation reduce := (reduceKConfuzzActions CallContainsAny FetchRawCover origin execute).

(** The signal of the call in a result. *)
Definition call_signal (ci : CallInfo) : Signal :=
  match signalPrio CallContainsAny p ci call with Ret prio => FromRaw (ci_Signal ci) prio | Panic => ∅ end.
Definition observe (res : ExecResult) : option Signal :=
  if er_Stop res then None
  else info ← er_Info res; Some (default ∅ (call_signal <$> info_for info call)).

(** The requests of the two kinds of re-execution. *)
Definition request_without : Request :=
  triage_request (job_request p ExecFlagCollectSignal call) None true origin.
Definition request_with (c : KConfuzzConfigContext) : Request :=
  triage_request (job_request p (Z.lor ExecFlagCollectCover ExecFlagCollectSignal) call) (Some c)
    (bool_decide (len (Actions c) = 0)) origin.
Definition obs_without (i : Z) : option Signal := observe (execute i request_without).
Definition obs_with (c : KConfuzzConfigContext) (i : Z) : option Signal := observe (execute i (request_with c)).

Lemma call_signal_eq ci prio :
  signalPrio CallContainsAny p ci call = Ret prio → FromRaw (ci_Signal ci) prio = call_signal ci.
Proof. intros E. unfold call_signal. by rewrite E. Qed.

Lemma getSignal_Ret info :
  getSignalAndCover CallContainsAny p info call = Ret (default ∅ (call_signal <$> info_for info call)).
Proof.
  unfold getSignalAndCover, info_for. case_decide as Hr.
  { destruct Hr as [Hne Hr]. rewrite decide_False by done. destruct (decide (0 ≤ call)); [|done].
    rewrite lookup_ge_None_2; [done|]. unfold len in *. lia. }
  assert (E : (if decide (call ≠ -1) then index (pi_Calls info) call else Ret (pi_Extra info))
    = Ret (if decide (call = -1) then pi_Extra info
           else if decide (0 ≤ call) then mjoin (pi_Calls info !! Z.to_nat call) else None)).
  { destruct (decide (call = -1)) as [Hc|Hc]; [by rewrite decide_False by tauto|].
    rewrite (decide_True (P := call ≠ -1)) by done. rewrite decide_True by lia.
    destruct (index_Ret (pi_Calls info) call) as (x & -> & ->); [lia|done]. }
  rewrite E. cbn [mbind outcome_bind].
  destruct (if decide (call = -1) then _ else _) as [ci|]; [|done]. cbn [fmap option_fmap option_map default].
  destruct (signalPrio_Ret CallContainsAny p Hnamed ci call Hcall) as [prio E2]. rewrite E2. cbn [mbind outcome_bind].
  by rewrite (call_signal_eq ci prio E2).
Qed.

(** ** A/B check *)

Lemma reproduces_loop_spec attempts n want merged :
  ∃ ok n', reproduces_loop CallContainsAny origin execute attempts n (job_request p ExecFlagCollectSignal call)
             p call want None true merged = Ret (ok, n')
    ∧ n ≤ n' ≤ n + Z.of_nat attempts
    ∧ (ok = true ↔ reproduced_from obs_without merged n attempts want).
Proof.
  revert n merged. induction attempts as [|k IH]; intros n merged; cbn [reproduces_loop].
  { exists false, n. split_and!; [done|lia|lia|]. split; [done|]. intros []%reproduced_from_0. }
  assert (Eo : obs_without n = observe (executeWithKConfuzz origin execute n
    (job_request p ExecFlagCollectSignal call) None true)) by done.
  pose proof (reproduced_from_S obs_without merged n k want) as HS. rewrite Eo in HS. unfold observe in HS.
  destruct (er_Info _) as [info|]; cycle 1.
  { exists false, (n + 1). split_and!; [done|lia|lia|]. rewrite HS. destruct (er_Stop _); naive_solver. }
  destruct (er_Stop _).
  { exists false, (n + 1). split_and!; [done|lia|lia|]. rewrite HS. naive_solver. }
  rewrite getSignal_Ret. cbn [mbind outcome_bind option_bind] in *.
  set (this := default ∅ (call_signal <$> info_for info call)) in *.
  assert (Em : (if decide (SignalLen merged = 0) then this else SignalMerge merged this) = SignalMerge merged this).
  { case_decide as Hl; [|done]. replace merged with (∅ : Signal); [by rewrite SignalMerge_empty_l|].
    symmetry. apply SignalEmpty_true. unfold SignalEmpty. lia. }
  rewrite Em. destruct (signalContainsAll want _) eqn:Ec.
  { exists true, (n + 1). split_and!; [done|lia|lia|]. rewrite HS. split; [|done]. intros _. exists this.
    split; [done|]. left. by apply signalContainsAll_spec. }
  apply signalContainsAll_false in Ec. destruct (IH (n + 1) (SignalMerge merged this)) as (ok & n' & E & Hn & Hok).
  rewrite E. exists ok, n'. split_and!; [done|lia|lia|]. rewrite Hok, HS. naive_solver.
Qed.

(** ** Probing *)

Lemma sig_le_merge_empty target acc : sig_le target (SignalMerge acc ∅) ↔ sig_le target acc.
Proof. by rewrite SignalMerge_empty_r. Qed.

Lemma probe_loop_spec c attempts n target probe :
  ¬ sig_le target (pb_Signal probe) →
  ∃ probe' ok n', probe_run attempts n p call target (Some c) probe = Ret (probe', ok, n')
    ∧ n ≤ n' ≤ n + Z.of_nat attempts
    ∧ (ok = true → n < n' ∧ sig_le target (pb_Signal probe'))
    ∧ (ok = true ↔ reproduced_from (obs_with c) (pb_Signal probe) n attempts target).
Proof.
  revert n probe. induction attempts as [|k IH]; intros n probe Hno; cbn [probe_loop].
  { exists probe, false, n. split_and!; [done|lia|lia|done|]. split; [done|]. intros []%reproduced_from_0. }
  pose proof (reproduced_from_S (obs_with c) (pb_Signal probe) n k target) as HS.
  assert (Eo : obs_with c n = observe (executeWithKConfuzz origin execute n
    (job_request p (Z.lor ExecFlagCollectCover ExecFlagCollectSignal) call) (Some c)
    (bool_decide (len (Actions c) = 0)))) by done.
  rewrite Eo in HS. unfold observe in HS. destruct (er_Info _) as [info|]; cycle 1.
  { exists probe, false, (n + 1). split_and!; [done|lia|lia|done|]. rewrite HS. destruct (er_Stop _); naive_solver. }
  destruct (er_Stop _).
  { exists probe, false, (n + 1). split_and!; [done|lia|lia|done|]. rewrite HS. naive_solver. }
  rewrite callInfo_info_for. cbn [mbind outcome_bind option_bind] in *.
  destruct (info_for info call) as [ci|]; cbn [fmap option_fmap option_map default] in HS; cycle 1.
  { destruct (IH (n + 1) probe Hno) as (pr & ok & n' & E & Hn & Ht & Hok). exists pr, ok, n'.
    split_and!; [done|lia|lia| |].
    - intros Htrue. split; [lia|]. by apply Ht.
    - rewrite Hok, HS. clear HS. split.
      + intros H. exists ∅. split; [done|]. right. by rewrite SignalMerge_empty_r.
      + intros (s & [= <-] & [H|H]); rewrite SignalMerge_empty_r in H; [by destruct Hno|done]. }
  destruct (signalPrio_Ret CallContainsAny p Hnamed ci call Hcall) as [prio Ep]. rewrite Ep. cbn [mbind outcome_bind].
  rewrite (call_signal_eq ci prio Ep). cbn [pb_Signal]. destruct (signalContainsAll target _) eqn:Ec.
  { apply signalContainsAll_spec in Ec. eexists _, true, (n + 1). split_and!; [done|lia|lia| |].
    - intros _. split; [lia|done].
    - rewrite HS. naive_solver. }
  apply signalContainsAll_false in Ec.
  match goal with |- context [probe_loop _ _ _ _ _ _ _ _ _ _ ?q] =>
    destruct (IH (n + 1) q) as (pr & ok & n' & E & Hn & Ht & Hok); [done|] end.
  exists pr, ok, n'. split_and!; [done|lia|lia| |].
  - intros Htrue. split; [lia|]. by apply Ht.
  - rewrite Hok, HS. cbn [pb_Signal]. naive_solver.
Qed.

Lemma sig_le_empty_r target : target ≠ ∅ → ¬ sig_le target ∅.
Proof.
  intros Hne Hle. apply Hne, map_empty. intros e. destruct (target !! e) as [q|] eqn:E; [|done].
  destruct (Hle e q E) as (q' & Hq & _). by rewrite lookup_empty in Hq.
Qed.

Lemma probe_spec c n target :
  target ≠ ∅ →
  ∃ probe ok n', probeKConfuzzSignal CallContainsAny FetchRawCover origin execute n p call target (Some c) 2
      = Ret (probe, ok, n')
    ∧ n ≤ n' ≤ n + 2 ∧ (ok = true → n < n' ∧ sig_le target (pb_Signal probe))
    ∧ (ok = true ↔ reproduced (obs_with c) n 2 target).
Proof. intros Hne. apply (probe_loop_spec c 2 n target (mkProbe ∅ ∅ [])). by apply sig_le_empty_r. Qed.

Lemma reproducesK_spec c n target :
  target ≠ ∅ →
  ∃ ok n', reproducesKConfuzzSignal CallContainsAny FetchRawCover origin execute n p call target (Some c) 2
      = Ret (ok, n')
    ∧ n ≤ n' ≤ n + 2 ∧ (ok = true → n < n') ∧ (ok = true ↔ reproduced (obs_with c) n 2 target).
Proof.
  intros Hne. destruct (probe_spec c n target Hne) as (pr & ok & n' & E & Hn & Ht & Hok).
  exists ok, n'. unfold reproducesKConfuzzSignal. rewrite E. cbn. split_and!; [done|lia|lia| |done].
  intros. by apply Ht.
Qed.

(** ** Deleting actions *)

Lemma set_Actions_twice c l l' : set_Actions (set_Actions c l) l' = set_Actions c l'.
Proof. done. Qed.
Lemma set_Actions_same c : set_Actions c (Actions c) = c.
Proof. by destruct c. Qed.

(** The list with a chunk cut out. *)
Definition cut (l : list KConfuzzConfigAction) (i e : Z) : list KConfuzzConfigAction :=
  take (Z.to_nat i) l ++ drop (Z.to_nat e) l.
Lemma cut_sublist l i e : 0 ≤ i ≤ e → cut l i e `sublist_of` l.
Proof.
  intros Hie. unfold cut. rewrite <-(take_drop (Z.to_nat i) l) at 3. apply sublist_app; [done|].
  replace (Z.to_nat e) with (Z.to_nat i + Z.to_nat (e - i))%nat by lia. rewrite <-drop_drop. apply sublist_drop.
Qed.
Lemma len_cut l i e : 0 ≤ i ≤ e → e ≤ len l → len (cut l i e) = len l - (e - i).
Proof. intros. unfold cut, len in *. rewrite length_app, length_take, length_drop. lia. Qed.
Lemma cut_one l i : 0 ≤ i → cut l i (i + 1) = delete (Z.to_nat i) l.
Proof. intros. unfold cut. rewrite delete_take_drop. by replace (Z.to_nat (i + 1)) with (S (Z.to_nat i)) by lia. Qed.

(** What a pass or a sequence of passes leaves. *)
Record reduction (target : Signal) (minActions : Z) (c c' : KConfuzzConfigContext) (n n' : Z) : Prop := {
  red_ctx : c' = set_Actions c (Actions c');
  red_sub : Actions c' `sublist_of` Actions c;
  red_min : Z.min minActions (len (Actions c)) ≤ len (Actions c');
  red_repro : c' = c ∨ ∃ m, n ≤ m < n' ∧ reproduced (obs_with c') m 2 target
}.
Lemma reduction_refl target k c n n' : n ≤ n' → reduction target k c c n n'.
Proof. intros. split; [by rewrite set_Actions_same|done|lia|by left]. Qed.
Lemma reduction_trans target k c1 c2 c3 n1 n2 n3 :
  n1 ≤ n2 → n2 ≤ n3 → reduction target k c1 c2 n1 n2 → reduction target k c2 c3 n2 n3 → reduction target k c1 c3 n1 n3.
Proof.
  intros Hn Hn' [H1 H2 H3 H4] [K1 K2 K3 K4]. split.
  - rewrite K1, H1. done.
  - by etrans.
  - lia.
  - destruct K4 as [->|(m & Hm & K4)].
    + destruct H4 as [->|(m & Hm & H4)]; [by left|]. right. exists m. split; [lia|done].
    + right. exists m. split; [lia|done].
Qed.

Lemma reduction_cut target k c n n' i e :
  0 ≤ i ≤ e → k ≤ len (cut (Actions c) i e) → n < n' →
  reproduced (obs_with (set_Actions c (cut (Actions c) i e))) n 2 target →
  reduction target k c (set_Actions c (cut (Actions c) i e)) n n'.
Proof. intros. split; [done|by apply cut_sublist|simpl; lia|]. right. exists n. split; [lia|done]. Qed.

Lemma delete_pass_spec target k chunk fuel n index c :
  target ≠ ∅ → 1 ≤ chunk → 0 ≤ index → Z.max 0 (len (Actions c) - index) < Z.of_nat fuel →
  ∃ c' n', pass fuel n p call target k chunk index c = Ret (Some (c', n'))
    ∧ n ≤ n' ≤ n + 2 * Z.max 0 (len (Actions c) - index) ∧ reduction target k c c' n n'.
Proof.
  intros Hne Hchunk. revert n index c. induction fuel as [|fuel IH]; intros n index c Hi Hf; cbn [delete_pass].
  { exists c, n. unfold len in *. exfalso. lia. }
  case_decide as Hlt; cycle 1.
  { exists c, n. split_and!; [done|lia|lia|]. by apply reduction_refl. }
  set (e := if decide (len (Actions c) < index + chunk) then len (Actions c) else index + chunk).
  assert (He : index < e ≤ len (Actions c)) by (unfold e; case_decide; lia).
  fold (cut (Actions c) index e). cbn [Actions set_Actions].
  case_decide as Hmin.
  { destruct (IH n (index + chunk) c) as (c' & n' & E & Hn & Hr); [lia|lia|]. exists c', n'. split_and!; [done|lia|lia|done]. }
  destruct (reproducesK_spec (set_Actions c (cut (Actions c) index e)) n target Hne) as (ok & n1 & E & Hn1 & Hok1 & Hok).
  rewrite E. cbn [mbind outcome_bind]. destruct ok.
  - rewrite CloneActions_id.
    destruct (IH n1 index (set_Actions c (cut (Actions c) index e))) as (c' & n' & E' & Hn & Hr);
      [lia|cbn; rewrite len_cut; lia|].
    cbn [Actions set_Actions] in Hn. rewrite len_cut in Hn by lia.
    exists c', n'. split_and!; [done|lia|lia|].
    apply (reduction_trans _ _ _ (set_Actions c (cut (Actions c) index e)) _ _ n1); [lia|lia| |done].
    apply reduction_cut; [lia|lia|by apply Hok1|by apply Hok].
  - destruct (IH n1 (index + chunk) c) as (c' & n' & E' & Hn & Hr); [lia|lia|].
    exists c', n'. split_and!; [done|lia|lia|].
    apply (reduction_trans _ _ _ c _ _ n1); [lia|lia|apply reduction_refl; lia|done].
Qed.

Lemma len_sublist {A} (l k : list A) : l `sublist_of` k → len l ≤ len k.
Proof. intros H. apply sublist_length in H. unfold len. lia. Qed.
Lemma log2_half x : 2 ≤ x → Z.log2 x = Z.log2 (x / 2) + 1.
Proof.
  intros. change (x / 2) with (x / 2 ^ 1). rewrite <-Z.shiftr_div_pow2 by lia. rewrite Z.log2_shiftr by lia.
  assert (1 ≤ Z.log2 x) by (change 1 with (Z.log2 2); apply Z.log2_le_mono; lia). lia.
Qed.

Lemma chunk_loop_spec target k chunk fuel n c :
  target ≠ ∅ → 0 ≤ chunk < Z.of_nat fuel →
  ∃ c' n', chunks fuel n p call target k chunk c = Ret (Some (c', n'))
    ∧ n ≤ n' ≤ n + 2 * len (Actions c) * Z.log2 chunk ∧ reduction target k c c' n n'.
Proof.
  intros Hne. revert n chunk c. induction fuel as [|fuel IH]; intros n chunk c Hf; [lia|]. cbn [chunk_loop].
  assert (0 ≤ len (Actions c)) by (unfold len; lia).
  pose proof (Z.log2_nonneg chunk) as Hlog. case_decide as H2; cycle 1.
  { exists c, n. split_and!; [done|nia|nia|]. by apply reduction_refl. }
  destruct (delete_pass_spec target k chunk (S (length (Actions c))) n 0 c) as (c1 & n1 & E & Hn & Hr);
    [done|lia|lia|unfold len; lia|].
  rewrite E. cbn [mbind outcome_bind].
  destruct (IH n1 (chunk / 2) c1) as (c2 & n2 & E2 & Hn2 & Hr2).
  { pose proof (Z.div_pos chunk 2). pose proof (Z.div_lt chunk 2). lia. }
  exists c2, n2. split; [done|]. pose proof (len_sublist _ _ (red_sub _ _ _ _ _ _ Hr)) as Hl.
  assert (Hn3 : n1 ≤ n2 ≤ n1 + 2 * len (Actions c) * Z.log2 (chunk / 2)).
  { pose proof (Z.log2_nonneg (chunk / 2)). nia. }
  rewrite (log2_half chunk H2). split; [nia|]. apply (reduction_trans _ _ _ c1 _ _ n1); [lia|lia|done|done].
Qed.

(** The context, the executions used and, when every action was tried, that no
    action can go.  [R l] says that the actions [l] reproduce the target; it
    is the same in every run and kept by further actions. *)
Definition stable_oracle (target : Signal) (c : KConfuzzConfigContext) (R : list KConfuzzConfigAction → Prop) : Prop :=
  (∀ l m, l `sublist_of` Actions c → reproduced (obs_with (set_Actions c l)) m 2 target ↔ R l) ∧
  (∀ l l', l `sublist_of` l' → l' `sublist_of` Actions c → R l → R l').
Definition one_minimal (R : list KConfuzzConfigAction → Prop) (minActions : Z) (l : list KConfuzzConfigAction) : Prop :=
  ∀ i, (i < length l)%nat → len l - 1 < minActions ∨ ¬ R (delete i l).

Lemma delete_delete_sublist {A} (l : list A) (i j : nat) :
  (i < j)%nat → delete i (delete j l) `sublist_of` delete i l.
Proof.
  revert i j. induction l as [|x l IH]; intros i j Hij; [by destruct i, j|].
  destruct j as [|j]; [lia|]. destruct i as [|i]; cbn.
  - apply sublist_delete.
  - apply sublist_skip, IH. lia.
Qed.

Lemma one_pass_minimal target k R c0 fuel n index c :
  target ≠ ∅ → 0 ≤ index → Z.max 0 (len (Actions c) - index) < Z.of_nat fuel →
  stable_oracle target c0 R → c = set_Actions c0 (Actions c) → Actions c `sublist_of` Actions c0 →
  (∀ i, (Z.of_nat i < index)%Z → (i < length (Actions c))%nat → len (Actions c) - 1 < k ∨ ¬ R (delete i (Actions c))) →
  ∃ c' n', pass fuel n p call target k 1 index c = Ret (Some (c', n')) ∧ one_minimal R k (Actions c').
Proof.
  intros Hne. revert n index c. induction fuel as [|fuel IH]; intros n index c Hi Hf Hor Hc Hsub Hinv; [lia|].
  cbn [delete_pass]. case_decide as Hlt; cycle 1.
  { exists c, n. split; [done|]. intros i Hl. apply Hinv; [unfold len in *; lia|done]. }
  rewrite (decide_False (P := len (Actions c) < index + 1)) by lia.
  fold (cut (Actions c) index (index + 1)). rewrite cut_one by done. cbn [Actions set_Actions].
  assert (Hlen : len (delete (Z.to_nat index) (Actions c)) = len (Actions c) - 1).
  { rewrite <-cut_one, len_cut; lia. }
  assert (Hnext : (len (Actions c) - 1 < k ∨ ¬ R (delete (Z.to_nat index) (Actions c))) →
    ∀ i, (Z.of_nat i < index + 1)%Z → (i < length (Actions c))%nat →
      len (Actions c) - 1 < k ∨ ¬ R (delete i (Actions c))).
  { intros Hd i Hii Hil. destruct (decide (Z.of_nat i = index)) as [<-|]; [by rewrite Nat2Z.id in Hd|].
    apply Hinv; [lia|done]. }
  case_decide as Hmin.
  { apply IH; [lia|lia|done..|]. apply Hnext. left. lia. }
  destruct (reproducesK_spec (set_Actions c (delete (Z.to_nat index) (Actions c))) n target Hne)
    as (ok & n1 & E & Hn1 & Hok1 & Hok).
  rewrite E. cbn [mbind outcome_bind].
  assert (Hds : delete (Z.to_nat index) (Actions c) `sublist_of` Actions c0)
    by (etrans; [apply sublist_delete|done]).
  destruct Hor as [HR Hmono]. destruct ok.
  - rewrite CloneActions_id. apply IH; [lia|cbn; lia|by split|by rewrite Hc|done|]. cbn.
    intros i Hii Hil. right. destruct (Hinv i Hii) as [Hbad|HnR].
    { rewrite <-cut_one in Hil by done. unfold len in *. lia. }
    { lia. }
    intros HRi. apply HnR. eapply Hmono; [|etrans; [apply sublist_delete|done]|exact HRi].
    apply delete_delete_sublist. lia.
  - apply IH; [lia|lia|by split|done|done|]. apply Hnext. right. intros HRd.
    assert (false = true) by (apply Hok; rewrite Hc; cbn; by apply HR). done.
Qed.

Lemma reduce_spec n target config perAction k c :
  target ≠ ∅ → CloneForProg config (Some p) = Some c → Actions c ≠ [] →
  ∃ c' n', reduce n p call target config perAction k = Ret (Some (Some c', n'))
    ∧ n ≤ n' ≤ n + 2 * len (Actions c) * (Z.log2 (len (Actions c)) + 1)
    ∧ reduction target (Z.max 0 k) c c' n n'
    ∧ (perAction = true → ∀ R, stable_oracle target c R → one_minimal R (Z.max 0 k) (Actions c')).
Proof.
  intros Hne Hc Ha. assert (Hpos : 0 < len (Actions c)).
  { destruct (Actions c); [done|]. unfold len. simpl. lia. }
  unfold reduceKConfuzzActions. destruct (SignalEmpty target) eqn:Et; [by apply SignalEmpty_true in Et|].
  rewrite Hc, decide_False by lia.
  replace (if decide (k < 0) then 0 else k) with (Z.max 0 k) by (case_decide; lia).
  destruct (chunk_loop_spec target (Z.max 0 k) (len (Actions c) / 2) (S (length (Actions c))) n c)
    as (c1 & n1 & E & Hn & Hr); [done| |].
  { pose proof (Z.div_pos (len (Actions c)) 2). pose proof (Z.div_lt (len (Actions c)) 2). unfold len in *. lia. }
  rewrite E. cbn [mbind outcome_bind].
  assert (Hlog : Z.log2 (len (Actions c) / 2) ≤ Z.log2 (len (Actions c))).
  { apply Z.log2_le_mono, Z.div_le_upper_bound; lia. }
  pose proof (Z.log2_nonneg (len (Actions c) / 2)).
  destruct perAction; cbn [negb]; [|exists c1, n1; split_and!; [done|nia|nia|done|done]].
  pose proof (len_sublist _ _ (red_sub _ _ _ _ _ _ Hr)) as Hl.
  destruct (delete_pass_spec target (Z.max 0 k) 1 (S (length (Actions c1))) n1 0 c1) as (c2 & n2 & E2 & Hn2 & Hr2);
    [done|lia|lia|unfold len; lia|].
  rewrite E2. cbn [mbind outcome_bind]. exists c2, n2. split_and!; [done|nia| |eapply reduction_trans; [..|exact Hr|exact Hr2]; lia|].
  { unfold len in *. nia. }
  intros _ R HR. destruct (one_pass_minimal target (Z.max 0 k) R c (S (length (Actions c1))) n1 0 c1)
    as (c3 & n3 & E3 & Hmin); [done|lia|unfold len; lia|done|apply Hr|apply Hr|lia|].
  rewrite E2 in E3. by simplify_eq.
Qed.
End minimize_props.

(** C24: reducing a context to what a signal needs.  The reduction returns
    within 2·n·(log2 n + 1) executions for n actions; it keeps the context's
    attributes, deletes actions in place and respects the lower limit; the
    context it returns is the normalised original or one that two consecutive
    runs at most showed to reproduce the whole target.  When every action is
    tried and the runs are deterministic and monotone, no further action can be
    deleted. *)
Theorem reduceKConfuzzActions_spec (CallContainsAny : Call → bool) (FetchRawCover : bool) (origin : string)
    (execute : Z → Request → ExecResult) (p : Prog) (call n k : Z) (target : Signal)
    (config : option KConfuzzConfigContext) (perAction : bool) (c : KConfuzzConfigContext)
    (Hnamed : named_prog p) (Hcall : -1 ≤ call < len (Calls p)) (Htarget : target ≠ ∅)
    (Hclone : CloneForProg config (Some p) = Some c) (Hact : Actions c ≠ []) :
  ∃ c' n', reduceKConfuzzActions CallContainsAny FetchRawCover origin execute n p call target config perAction k
      = Ret (Some (Some c', n'))
  ∧ n ≤ n' ≤ n + 2 * len (Actions c) * (Z.log2 (len (Actions c)) + 1)
  ∧ c' = set_Actions c (Actions c')
  ∧ Actions c' `sublist_of` Actions c
  ∧ Z.min (Z.max 0 k) (len (Actions c)) ≤ len (Actions c')
  ∧ (c' = c ∨ ∃ m, n ≤ m < n' ∧ reproduced (obs_with CallContainsAny origin execute p call c') m 2 target)
  ∧ (perAction = true → ∀ R, stable_oracle CallContainsAny origin execute p call target c R →
       one_minimal R (Z.max 0 k) (Actions c')).
Proof.
  destruct (reduce_spec CallContainsAny FetchRawCover origin execute p call Hnamed Hcall n target config perAction k c)
    as (c' & n' & E & Hn & [H1 H2 H3 H4] & Hm); [done..|].
  exists c', n'. by split_and!; try lia.
Qed.

(** The A/B check of a configuration.  The context is declared needed
    exactly when at most two runs without any configuration do not reproduce
    the new stable signal; the requests of these runs carry no actions and the
    fuzzer's preparation leaves them alone. *)
Theorem checkKConfuzzDependency_spec (CallContainsAny : Call → bool) (origin : string)
    (execute : Z → Request → ExecResult) (p : Prog) (call n : Z) (info : triageCall)
    (Hnamed : named_prog p) (Hcall : -1 ≤ call < len (Calls p)) :
  let req := request_without origin p call in
  ∃ dependent n', checkKConfuzzDependency CallContainsAny origin execute n p call info = Ret (dependent, n')
  ∧ n ≤ n' ≤ n + 2
  ∧ (dependent = false ↔
       reproduced (λ i, observe CallContainsAny p call (execute i req)) n 2 (tc_newStableSignal info))
  ∧ QActions req = [] ∧ QContext req = None
  ∧ (∀ params Serialize marshal hash env planner quarantined,
       prepareKConfuzz params Serialize marshal hash env planner quarantined (Some req) = Ret (Some req)).
Proof.
  destruct (reproduces_loop_spec CallContainsAny origin execute p call Hnamed Hcall 2 n (tc_newStableSignal info) ∅)
    as (ok & n' & E & Hn & Hok).
  exists (negb ok), n'. unfold checkKConfuzzDependency, reproducesSignal. rewrite E. cbn [mbind outcome_bind].
  split_and!; [done|lia|lia| |done..]. rewrite negb_false_iff. exact Hok.
Qed.

(** ** The whole minimisation *)

Lemma StronglySorted_sublist {A} (R : relation A) (l k : list A) :
  l `sublist_of` k → StronglySorted R k → StronglySorted R l.
Proof.
  induction 1 as [|x l k Hs IH|x l k Hs IH]; intros Hk; [constructor|..]; inversion Hk; subst; [|by apply IH].
  constructor; [by apply IH|]. apply Forall_forall. intros y Hy.
  by eapply (Forall_forall _ k); [|eapply sublist_elem_of].
Qed.
Lemma Normalize_sublist p l l0 :
  l `sublist_of` NormalizeKConfuzzConfigActions p l0 → NormalizeKConfuzzConfigActions p l = l.
Proof.
  intros Hs. rewrite Normalize_unfold, filter_all.
  - eapply sort_by_id, StronglySorted_sublist; [done|apply Normalize_sorted].
  - apply Forall_forall. intros a Ha. eapply sublist_elem_of, elem_of_Normalize in Ha; [|done]. tauto.
Qed.
Lemma CloneForProg_normal p c l0 :
  Actions c `sublist_of` NormalizeKConfuzzConfigActions (Some p) l0 → Actions c ≠ [] →
  CloneForProg (Some c) (Some p) = Some c.
Proof.
  intros Hs Hne. rewrite CloneForProg_unfold. cbv zeta. rewrite (Normalize_sublist _ _ _ Hs). simpl.
  rewrite decide_False by tauto. by destruct c.
Qed.

Lemma anchor_spec s :
  s ≠ ∅ → ∃ e, is_Some (s !! e) ∧ (∀ e', is_Some (s !! e') → e ≤ e') ∧ kconfuzzAnchorSignal s = {[e := 0]}.
Proof.
  intros Hne. unfold kconfuzzAnchorSignal.
  assert (Hdom : ∀ e, e ∈ ToRaw s ↔ is_Some (s !! e)).
  { intros e. unfold ToRaw. rewrite list_elem_of_fmap. split.
    - intros ([e' q] & -> & Hin%elem_of_map_to_list). by exists q.
    - intros [q Hq]. exists (e, q). split; [done|]. by apply elem_of_map_to_list. }
  pose proof (sort_by_sorted (less_on id) (ToRaw s)) as Hsorted.
  destruct (sort_by (less_on id) (ToRaw s)) as [|e l] eqn:E.
  { destruct Hne. apply map_empty. intros e. apply eq_None_not_Some. intros He%Hdom.
    apply (elem_of_sort_by (less_on id)) in He. rewrite E in He. set_solver. }
  assert (He : ∀ x, x ∈ ToRaw s ↔ x ∈ e :: l) by (intros x; by rewrite <-E, elem_of_sort_by).
  exists e. split_and!.
  - apply Hdom, He. left.
  - intros e' [->|Hin]%Hdom%He%elem_of_cons; [done|]. inversion Hsorted as [|?? _ Hall]; subst.
    rewrite Forall_forall in Hall. specialize (Hall e' Hin). unfold le_by, less_on in Hall. simpl in Hall. lia.
  - rewrite decide_False; [done|]. intros Hz%len_0. specialize (He e). rewrite Hz in He. set_solver.
Qed.

Section minimize_whole.
Context (CallContainsAny : Call → bool) (FetchRawCover : bool) (env : string → string) (origin : string).
Context (execute : Z → Request → ExecResult).
Context (p : Prog) (call : Z).
Hypothesis Hnamed : named_prog p.
Hypothesis Hcall : -1 ≤ call < len (Calls p).

(** The signals a call ends up with. *)
Definition compacted (info info' : triageCall) : Prop :=
  info' = info ∨
  tc_newStableSignal info' = kconfuzzAnchorSignal (tc_newStableSignal info) ∧
  sig_le (tc_newStableSignal info') (tc_stableSignal info').

Lemma compact_context_spec n info c l0 :
  tc_newStableSignal info ≠ ∅ → Actions c ≠ [] →
  Actions c `sublist_of` NormalizeKConfuzzConfigActions (Some p) l0 →
  ∃ c' info' n', compact_context CallContainsAny FetchRawCover origin execute n p call info c
      = Ret (Some (c', info', n'))
    ∧ n ≤ n' ∧ c' = set_Actions c (Actions c') ∧ Actions c' `sublist_of` Actions c ∧ Actions c' ≠ []
    ∧ compacted info info'.
Proof.
  intros Hs Hne Hsub. destruct (anchor_spec _ Hs) as (e & He & _ & Ea). unfold compact_context.
  assert (Hnea : kconfuzzAnchorSignal (tc_newStableSignal info) ≠ ∅).
  { rewrite Ea. apply map_non_empty_singleton. }
  destruct (SignalEmpty _) eqn:Et; [by apply SignalEmpty_true in Et|].
  destruct (reduce_spec CallContainsAny FetchRawCover origin execute p call Hnamed Hcall n _ (Some c) true 1 c Hnea)
    as (c1 & n1 & E & Hn & [H1 H2 H3 _] & _); [by eapply CloneForProg_normal|done|].
  rewrite E. cbn [mbind outcome_bind].
  assert (Hsame : set_Actions c (Actions c) = c) by apply set_Actions_same.
  case_decide as Hlt; [|exists c, info, n1; split_and!; [done|lia|done..|by left]].
  destruct (probe_spec CallContainsAny FetchRawCover origin execute p call Hnamed Hcall c1 n1 _ Hnea)
    as (pr & ok & n2 & E2 & Hn2 & Hok & _).
  rewrite E2. cbn [mbind outcome_bind]. destruct ok; [|exists c, info, n2; split_and!; [done|lia|done..|by left]].
  eexists c1, _, n2. split_and!; [done|lia|done|done| |].
  - intros Hz. rewrite Hz in H3. unfold len in *. destruct (Actions c); [done|]. simpl in *. lia.
  - right. split; [done|]. by apply Hok.
Qed.

(** The save cap cuts a list to the limit. *)
Lemma save_cap_spec l limit :
  0 < limit < len l → len l * len l < 2 ^ 63 →
  ∃ l', limitKConfuzzActionsForSave l limit = Ret l' ∧ len l' = limit ∧ l' `sublist_of` l.
Proof.
  intros Hl Hfit. destruct (limitActions_spec l limit Hl Hfit) as (l' & E & Hlen & Hsub & _).
  exists l'. by split_and!.
Qed.

(** Everything that happens to a reduced context before it is finished. *)
Definition capped (M n n' : Z) (info info' : triageCall) (c c' : KConfuzzConfigContext) : Prop :=
  n ≤ n' ∧ c' = set_Actions c (Actions c') ∧ Actions c' `sublist_of` Actions c ∧ Actions c' ≠ [] ∧
  compacted info info' ∧ (0 < M → len (Actions c') ≤ M) ∧ (M = 0 → c' = c ∧ info' = info).

Definition cap_phase (M n : Z) (info : triageCall) (c : KConfuzzConfigContext) :=
  if decide (0 < M ∧ M < len (Actions c)) then
    r ← compact_context CallContainsAny FetchRawCover origin execute n p call info c;
    match r with
    | None => Ret None
    | Some (c, info, n) =>
        if decide (M < len (Actions c)) then
          l ← limitKConfuzzActionsForSave (Actions c) M; Ret (Some (set_Actions c l, info, n))
        else Ret (Some (c, info, n))
    end
  else Ret (Some (c, info, n)).

Lemma cap_phase_spec M n info c l0 :
  0 ≤ M → tc_newStableSignal info ≠ ∅ → Actions c ≠ [] →
  Actions c `sublist_of` NormalizeKConfuzzConfigActions (Some p) l0 → len l0 * len l0 < 2 ^ 63 →
  ∃ c' info' n', cap_phase M n info c = Ret (Some (c', info', n')) ∧ capped M n n' info info' c c'.
Proof.
  intros HM Hs Hne Hsub Hfit. unfold cap_phase. case_decide as HMl; cycle 1.
  { exists c, info, n. split; [done|]. split_and!; [lia|by rewrite set_Actions_same|done|done|by left|lia|done]. }
  destruct (compact_context_spec n info c l0 Hs Hne Hsub) as (c1 & info1 & n1 & E & Hn & Hc & Hs1 & Hne1 & Hcomp).
  rewrite E. cbn [mbind outcome_bind]. case_decide as HM1; cycle 1.
  { exists c1, info1, n1. split; [done|]. split_and!; [lia|done|done|done|done|lia|lia]. }
  assert (Hl0 : len (Actions c1) ≤ len l0).
  { etrans; [eapply len_sublist, Hs1|]. etrans; [eapply len_sublist, Hsub|]. unfold len.
    rewrite Normalize_perm. apply inj_le, length_filter. }
  destruct (save_cap_spec (Actions c1) M) as (l & El & Hlen & Hl);
    [lia|apply (Z.le_lt_trans _ (len l0 * len l0)); [apply Z.mul_le_mono_nonneg; lia|done]|].
  rewrite El. cbn [mbind outcome_bind]. exists (set_Actions c1 l), info1, n1. split; [done|]. unfold capped. cbn [Actions set_Actions].
  split_and!; [lia|by rewrite Hc|by etrans| |done|lia|lia]. intros ->. unfold len in Hlen. simpl in Hlen. lia.
Qed.
End minimize_whole.

(** C23: minimising the context a corpus item is saved with.  For a call with
    new stable signal the job returns, without a failing access, after finitely
    many executions.  A context it returns is marked as needed, keeps strategy
    and source, has at least one action, a part of the normalised original in
    its order, and at most SYZ_KCONFUZZ_SAVE_MAX_ACTIONS of them when that
    limit is set.  The call's signal is unchanged, or replaced by the single
    smallest element of it together with a signal that contains it.  Without
    the limit the signal is unchanged and the context is the whole normalised
    original or was shown to reproduce all new stable signal. *)
Theorem minimizeKConfuzzConfig_spec (CallContainsAny : Call → bool) (FetchRawCover : bool)
    (env : string → string) (origin : string) (execute : Z → Request → ExecResult) (p : Prog) (call n : Z)
    (info : triageCall) (c0 : KConfuzzConfigContext)
    (Hnamed : named_prog p) (Hcall : -1 ≤ call < len (Calls p)) (Hsig : tc_newStableSignal info ≠ ∅)
    (Hfit : len (Actions c0) * len (Actions c0) < 2 ^ 63) :
  let all := NormalizeKConfuzzConfigActions (Some p) (Actions c0) in
  let M := SaveMaxActions env in
  ∃ r info' n', minimizeKConfuzzConfig CallContainsAny FetchRawCover env origin execute n p call info (Some c0)
      = Ret (Some (r, info', n'))
  ∧ n ≤ n'
  ∧ compacted info info'
  ∧ (M = 0 → info' = info)
  ∧ (∀ c', r = Some c' →
       ConfigDependent c' = true ∧ Strategy c' = Strategy c0 ∧ ConfigContext.Source c' = ConfigContext.Source c0
       ∧ Actions c' ≠ [] ∧ Actions c' `sublist_of` all ∧ (0 < M → len (Actions c') ≤ M)
       ∧ (M = 0 → Actions c' = all ∨
            ∃ m, n ≤ m < n' ∧ reproduced (obs_with CallContainsAny origin execute p call (set_Actions c0 (Actions c')))
                                m 2 (tc_newStableSignal info))).
Proof.
  intros all M. unfold minimizeKConfuzzConfig.
  destruct (CloneForProg (Some c0) (Some p)) as [c|] eqn:Ec; cycle 1.
  { exists None, info, n. split_and!; [done|lia|by left|done|done]. }
  pose proof Ec as (cx & [= <-] & Hc & _)%CloneForProg_Some.
  assert (Hall : Actions c = all) by (by rewrite Hc).
  case_decide as Hz; [exists None, info, n; split_and!; [done|lia|by left|done|done]|].
  assert (Hne : Actions c ≠ []) by (intros E; by rewrite E in Hz).
  set (strict := bool_decide _).
  destruct (reduce_spec CallContainsAny FetchRawCover origin execute p call Hnamed Hcall n _ (Some c) strict 0 c Hsig)
    as (c1 & n1 & E & Hn & [H1 H2 H3 H4] & _); [|done|].
  { apply (CloneForProg_normal _ _ (Actions c0)); [by rewrite Hall|done]. }
  rewrite E. cbn [mbind outcome_bind].
  fold M. fold (cap_phase CallContainsAny FetchRawCover origin execute p call M n1 info c1).
  destruct (decide (Actions c1 = [])) as [Hempty|Hne1].
  { assert (Hcap : cap_phase CallContainsAny FetchRawCover origin execute p call M n1 info c1 = Ret (Some (c1, info, n1))).
    { unfold cap_phase. rewrite decide_False; [done|]. rewrite Hempty. unfold len. simpl. lia. }
    exists None, info, n1. rewrite Hcap. cbn [mbind outcome_bind]. split_and!; [|lia|by left|done|done].
    unfold TightenContextForSave. rewrite CloneForProg_unfold. cbv zeta. rewrite Hempty.
    case_decide; [done|]. done. }
  destruct (cap_phase_spec CallContainsAny FetchRawCover origin execute p call Hnamed Hcall M n1 info c1 (Actions c0))
    as (c2 & info2 & n2 & E2 & Hn2 & K1 & K2 & K3 & K4 & K5 & K6);
    [|done|done|by rewrite Hall in H2|done|].
  { unfold M, SaveMaxActions. cbv zeta. case_decide; lia. }
  rewrite E2. cbn [mbind outcome_bind]. unfold TightenContextForSave.
  assert (Hs2 : Actions c2 `sublist_of` all) by (rewrite <-Hall; by etrans).
  rewrite (CloneForProg_normal p c2 (Actions c0) Hs2 K3).
  rewrite decide_False by (intros Hl%len_0; done). rewrite (Normalize_sublist _ _ _ Hs2).
  rewrite decide_False by (intros Hl%len_0; done).
  eexists _, info2, n2. split_and!; [done|lia|done|naive_solver|]. intros c' [= <-]. cbn [ConfigDependent Strategy ConfigContext.Source Actions].
  split_and!; [done| | |done|done|done|].
  - by rewrite K1, H1, Hc.
  - by rewrite K1, H1, Hc.
  - intros HM0. destruct (K6 HM0) as [-> ->]. destruct H4 as [->|(m & Hm & Hr)]; [by left|]. right.
    exists m. split; [lia|]. by rewrite H1, Hc in Hr.
Qed.

(** ** Witnesses: one call whose signal 9 needs the write of parameter 7 *)
Definition needs_seven (n : Z) (r : Request) : ExecResult :=
  mkExecResult Success (mkExecutor n 0)
    (Some (mkProgInfo [Some (mkCallInfo 0 (if existsb (λ a, ParamID a =? 7) (QActions r) then [5; 9] else [5]) [1])] None)).
Definition five_actions : KConfuzzConfigContext :=
  mkContext "sequence" "planner" false ((λ i, mkAction 0 i 0 0) <$> [3; 1; 7; 4; 5]).
Definition nine_call : triageCall := mkTriageCall 0 ∅ [] ∅ {[9 := 3]} ∅ [].

Lemma flaky_prog_named : named_prog flaky_prog.
Proof. intros [|i] c Hc; [|done]. cbn in Hc. injection Hc as <-. eauto. Defined.

Example reduce_five :
  reduceKConfuzzActions (λ _, false) false "" needs_seven 0 flaky_prog 0 {[9 := 3]} (Some five_actions) true 0
  = Ret (Some (Some (set_Actions five_actions [mkAction 0 7 0 0]), 6)).
Proof. vm_compute. reflexivity. Qed.

Lemma reduceKConfuzzActions_witness :
  ∃ c' n', reduceKConfuzzActions (λ _, false) false "" needs_seven 0 flaky_prog 0 {[9 := 3]} (Some five_actions) true 1
      = Ret (Some (Some c', n')) ∧ n' ≤ 30 ∧ 1 ≤ len (Actions c').
Proof.
  destruct (reduceKConfuzzActions_spec (λ _, false) false "" needs_seven flaky_prog 0 0 1 {[9 := 3]} (Some five_actions) true
    (set_Actions five_actions ((λ i, mkAction 0 i 0 0) <$> [1; 3; 4; 5; 7])))
    as (c' & n' & E & Hn & _ & _ & Hl & _).
  - exact flaky_prog_named.
  - split; [lia|reflexivity].
  - apply map_non_empty_singleton.
  - vm_compute. reflexivity.
  - discriminate.
  - exists c', n'. split; [exact E|]. split; [exact (proj2 Hn)|exact Hl].
Defined.

Lemma checkKConfuzzDependency_witness :
  ∃ n', checkKConfuzzDependency (λ _, false) "" needs_seven 0 flaky_prog 0 nine_call = Ret (true, n') ∧ n' ≤ 2.
Proof.
  destruct (checkKConfuzzDependency_spec (λ _, false) "" needs_seven flaky_prog 0 0 nine_call) as (d & n' & E & Hn & _).
  - exact flaky_prog_named.
  - split; [lia|reflexivity].
  - exists n'. assert (Ed : d = true) by (vm_compute in E; congruence). subst d. split; [exact E|]. apply Hn.
Defined.

Lemma minimizeKConfuzzConfig_witness :
  ∃ r info' n', minimizeKConfuzzConfig (λ _, false) false (λ _, "") "" needs_seven 0 flaky_prog 0 nine_call (Some five_actions)
      = Ret (Some (r, info', n')) ∧ info' = nine_call.
Proof.
  destruct (minimizeKConfuzzConfig_spec (λ _, false) false (λ _, ""%string) "" needs_seven flaky_prog 0 0 nine_call five_actions)
    as (r & info' & n' & E & _ & _ & Hi & _).
  - exact flaky_prog_named.
  - split; [lia|reflexivity].
  - apply map_non_empty_singleton.
  - reflexivity.
  - exists r, info', n'. split; [exact E|]. apply Hi. vm_compute. reflexivity.
Defined.
