(* ===== verification/Alloc.v ===== *)
(** * Memory for program data (src/prog/alloc.go)

    [memAlloc] places pointees: a two-level bitmap with a bit per 64 bytes of
    program memory, whose lower arrays are allocated on demand.  [vmaAlloc]
    places memory areas in pages and prefers pages already used.  The lower
    array [buf] is only reached through [mem[0]], so it is that entry here. *)

From Stdlib Require Import ZArith.
From S2P Require Import Prelude.

(** ** Bitmap allocator *)

Definition memAllocGranule : Z := 64.
Definition memAllocMaxMem : Z := Z.shiftl 16 20.
Definition memAllocL0Size : Z := 64.
Definition bitsPerUint64 : Z := 8 * 8.
Definition memAllocL0Mem : Z := memAllocL0Size * memAllocGranule * bitsPerUint64.
Definition memAllocL1Size : Z := memAllocMaxMem / memAllocL0Mem.

Record memAlloc := mkMemAlloc {
  ma_size : Z;
  ma_mem : list (option (list Z));
  ma_last : gmap Z Z
}.

Definition zero_words : list Z := replicate (Z.to_nat memAllocL0Size) 0.

Definition newMemAlloc (totalMemSize : Z) : outcome memAlloc :=
  if decide (memAllocMaxMem < totalMemSize) then Panic
  else if decide (totalMemSize mod memAllocL0Mem ≠ 0) then Panic
  else Ret (mkMemAlloc (totalMemSize / memAllocGranule)
              (<[0%nat := Some zero_words]> (replicate (Z.to_nat memAllocL1Size) None)) ∅).

(** Index in the first level, in the second, and the mask. *)
Definition ma_pos (idx : Z) : Z * Z * Z :=
  let i1 := idx / (memAllocL0Size * bitsPerUint64) in
  let r1 := idx mod (memAllocL0Size * bitsPerUint64) in
  let i0 := r1 / bitsPerUint64 in
  (i1, i0, Z.shiftl 1 (r1 mod bitsPerUint64)).

Definition ma_set (ma : memAlloc) (idx : Z) : outcome memAlloc :=
  let '(i1, i0, bit) := ma_pos idx in
  arr ← index (ma_mem ma) i1;
  let words := default zero_words arr in
  w ← index words i0;
  Ret (mkMemAlloc (ma_size ma)
         (<[Z.to_nat i1 := Some (<[Z.to_nat i0 := Z.lor w bit]> words)]> (ma_mem ma)) (ma_last ma)).

Definition ma_get (ma : memAlloc) (idx : Z) : outcome bool :=
  let '(i1, i0, bit) := ma_pos idx in
  arr ← index (ma_mem ma) i1;
  match arr with
  | None => Ret false
  | Some words => w ← index words i0; Ret (bool_decide (Z.land w bit ≠ 0))
  end.

(** [for i := 0; i < size; i++ { ma.set(addr + i) }]. *)
Fixpoint set_granules (n : nat) (addr : Z) (ma : memAlloc) : outcome memAlloc :=
  match n with
  | O => Ret ma
  | S n => ma ← ma_set ma addr; set_granules n (addr +u 1) ma
  end.
Definition ma_noteAlloc (ma : memAlloc) (addr0 size0 : Z) : outcome memAlloc :=
  let addr := addr0 / memAllocGranule in
  let size := (addr0 +u size0 +u memAllocGranule -u 1) / memAllocGranule -u addr in
  set_granules (Z.to_nat size) addr ma.

(** Whether the granules are free; the search stops at the first used one. *)
Fixpoint granules_empty (n : nat) (addr : Z) (ma : memAlloc) : outcome bool :=
  match n with
  | O => Ret true
  | S n => used ← ma_get ma addr; if (used : bool) then Ret false else granules_empty n (addr +u 1) ma
  end.

(** [for start := start0; start <= end; start += alignment]: the first free
    place; [Some None] when there is none, [None] out of fuel. *)
Fixpoint find_place (fuel : nat) (ma : memAlloc) (size alignment end_ start : Z) : outcome (option (option Z)) :=
  match fuel with
  | O => Ret None
  | S fuel =>
      if decide (start ≤ end_) then
        empty ← granules_empty (Z.to_nat size) start ma;
        if (empty : bool) then Ret (Some (Some start))
        else find_place fuel ma size alignment end_ (start +u alignment)
      else Ret (Some None)
  end.

Definition clear_words (words : list Z) : list Z := (λ _, 0) <$> words.
(** The first [n] lower arrays are zeroed; beyond the array is a panic. *)
Fixpoint clear_arrays (n : nat) (mem : list (option (list Z))) : outcome (list (option (list Z))) :=
  match n, mem with
  | O, _ => Ret mem
  | S n, [] => Panic
  | S n, a :: mem => mem ← clear_arrays n mem; Ret ((clear_words <$> a) :: mem)
  end.
Definition bankruptcy (ma : memAlloc) : outcome memAlloc :=
  mem ← clear_arrays (Z.to_nat (ma_size ma / (memAllocL0Size * bitsPerUint64))) (ma_mem ma);
  Ret (mkMemAlloc (ma_size ma) mem ∅).

(** The recursion after a bankruptcy takes one unit of [depth]. *)
Fixpoint ma_alloc (depth : nat) (ma : memAlloc) (size0 alignment0 : Z) : outcome (option (Z * memAlloc)) :=
  let size0 := if decide (size0 = 0) then 1 else size0 in
  let alignment0 := if decide (alignment0 = 0) then 1 else alignment0 in
  let size := (size0 +u memAllocGranule -u 1) / memAllocGranule in
  let alignment := (alignment0 +u memAllocGranule -u 1) / memAllocGranule in
  let end_ := ma_size ma -u size in
  let start0 := default 0 (ma_last ma !! alignment) in
  place ← find_place (S (S (Z.to_nat (ma_size ma)))) ma size alignment end_ start0;
  match place with
  | None => Ret None
  | Some (Some start) =>
      let addr := start *u memAllocGranule in
      ma ← ma_noteAlloc ma addr size0;
      let next := start +u ((size +u alignment -u 1) / alignment *u alignment) in
      Ret (Some (addr, mkMemAlloc (ma_size ma) (ma_mem ma) (<[alignment := next]> (ma_last ma))))
  | Some None =>
      match depth with
      | O => Ret None
      | S depth => ma ← bankruptcy ma; ma_alloc depth ma size0 alignment0
      end
  end.

(** ** Page allocator *)

Record vmaAlloc := mkVmaAlloc { va_numPages : Z; va_used : list Z; va_m : gset Z }.

Definition newVmaAlloc (totalPages : Z) : vmaAlloc := mkVmaAlloc totalPages [] ∅.

Definition note_page (va : vmaAlloc) (i : Z) : vmaAlloc :=
  if decide (i ∈ va_m va) then va else mkVmaAlloc (va_numPages va) (va_used va ++ [i]) ({[i]} ∪ va_m va).
(** [for i := page; i < page+size; i++]; an overflowing bound ends at once. *)
Definition va_noteAlloc (va : vmaAlloc) (page size : Z) : vmaAlloc :=
  foldl note_page va (seqZ page ((page +u size) - page)).

Definition oneOf (n : Z) (r : rng) : outcome (bool * rng) :=
  '(i, r) ← Intn n r; Ret (bool_decide (i = 0), r).
Definition bin (r : rng) : outcome (bool * rng) := '(i, r) ← Intn 2 r; Ret (bool_decide (i = 0), r).
Definition rand (n : Z) (r : rng) : outcome (Z * rng) := '(i, r) ← Intn n r; Ret (u64 i, r).

(** Near the start or the end of the memory. *)
Definition edge_page (va : vmaAlloc) (size : Z) (r : rng) : outcome (Z * rng) :=
  '(page, r) ← rand 4 r;
  '(first, r) ← oneOf 100 r;
  Ret (if (first : bool) then page else va_numPages va -u page -u size, r).
(** Around a page in use. *)
Definition used_page (va : vmaAlloc) (size : Z) (r : rng) : outcome (Z * rng) :=
  '(i, r) ← rand (len (va_used va)) r;
  page ← index (va_used va) i;
  '(page, r) ← (if decide (1 < size) then
                  '(before, r) ← bin r;
                  if (before : bool) then '(x, r) ← rand (i64 size) r; Ret (page -u Z.min x page, r)
                  else Ret (page, r)
                else Ret (page, r));
  Ret (Z.min page (va_numPages va -u size), r).

Definition va_alloc (va : vmaAlloc) (size : Z) (r : rng) : outcome (Z * vmaAlloc * rng) :=
  if decide (va_numPages va < size) then Panic
  else
    '(edge, r) ← (if decide (len (va_used va) = 0) then Ret (true, r) else oneOf 5 r);
    '(page, r) ← (if (edge : bool) then edge_page va size r else used_page va size r);
    if decide (va_numPages va ≤ page ∨ va_numPages va < size ∨ va_numPages va < page +u size) then Panic
    else Ret (page, va_noteAlloc va page size, r).

(** ** The bitmap is a set of granules *)

(** Bits of a two-level bitmap of 64 times 64 words. *)
Definition bitmap_bits : Z := memAllocL1Size * memAllocL0Size * bitsPerUint64.

Definition granule (ma : memAlloc) (idx : Z) : bool :=
  match ma_mem ma !! Z.to_nat (idx / 4096) with
  | Some (Some words) => Z.testbit (default 0 (words !! Z.to_nat (idx mod 4096 / 64))) (idx mod 4096 mod 64)
  | _ => false
  end.

Definition words_ok (a : option (list Z)) : Prop :=
  match a with Some ws => length ws = 64%nat ∧ Forall in_u64 ws | None => True end.
Record ma_wf (ma : memAlloc) : Prop := {
  wf_size : ∃ k, 0 ≤ k ≤ 64 ∧ ma_size ma = k * 4096;
  wf_mem : length (ma_mem ma) = 64%nat;
  wf_words : Forall words_ok (ma_mem ma);
  wf_last : map_Forall (λ a s, (a | s) ∧ 0 ≤ s ≤ 2 * ma_size ma + a) (ma_last ma)
}.

Lemma ma_pos_eq idx : ma_pos idx = (idx / 4096, idx mod 4096 / 64, Z.shiftl 1 (idx mod 4096 mod 64)).
Proof. done. Qed.
Lemma pos_range idx :
  0 ≤ idx < bitmap_bits → 0 ≤ idx / 4096 < 64 ∧ 0 ≤ idx mod 4096 / 64 < 64 ∧ 0 ≤ idx mod 4096 mod 64 < 64.
Proof.
  change bitmap_bits with 262144. intros. pose proof (Z.mod_pos_bound idx 4096).
  split_and!; try (apply Z.mod_pos_bound; lia); try (apply Z.div_pos; lia); apply Z.div_lt_upper_bound; lia.
Qed.
Lemma pos_inj i j :
  i / 4096 = j / 4096 → i mod 4096 / 64 = j mod 4096 / 64 → i mod 4096 mod 64 = j mod 4096 mod 64 → i = j.
Proof.
  intros H1 H2 H3. pose proof (Z.div_mod (i mod 4096) 64). pose proof (Z.div_mod (j mod 4096) 64).
  pose proof (Z.div_mod i 4096). pose proof (Z.div_mod j 4096). lia.
Qed.

Lemma land_shifted_bit w k : 0 ≤ k → bool_decide (Z.land w (Z.shiftl 1 k) ≠ 0) = Z.testbit w k.
Proof.
  intros Hk. destruct (Z.testbit w k) eqn:E.
  - apply bool_decide_eq_true. intros H0. assert (Hb : Z.testbit (Z.land w (Z.shiftl 1 k)) k = false)
      by (by rewrite H0, Z.bits_0).
    rewrite Z.land_spec, E, Z.shiftl_spec, Z.sub_diag in Hb by lia. done.
  - apply bool_decide_eq_false. intros Hne. apply Hne. apply Z.bits_inj'. intros j Hj.
    rewrite Z.land_spec, Z.bits_0, Z.shiftl_spec by lia. destruct (decide (j = k)) as [->|]; [by rewrite E|].
    destruct (decide (j < k)); [rewrite (Z.testbit_neg_r 1) by lia; apply andb_false_r|].
    rewrite (Z.bits_above_log2 1); [apply andb_false_r|lia|]. simpl. lia.
Qed.
Lemma testbit_lor_shiftl w k j : 0 ≤ k → 0 ≤ j → Z.testbit (Z.lor w (Z.shiftl 1 k)) j = Z.testbit w j || (j =? k).
Proof.
  intros Hk Hj. rewrite Z.lor_spec, Z.shiftl_spec by lia. f_equal. destruct (Z.eqb_spec j k) as [->|].
  - by rewrite Z.sub_diag.
  - destruct (decide (j < k)); [apply Z.testbit_neg_r; lia|]. rewrite Z.bits_above_log2; [done|lia|simpl; lia].
Qed.
Lemma in_u64_bits w : 0 ≤ w → (∀ j, 64 ≤ j → Z.testbit w j = false) → in_u64 w.
Proof.
  intros Hw Hb. split; [done|]. destruct (decide (w = 0)) as [->|]; [lia|].
  apply Z.log2_lt_pow2; [lia|]. destruct (decide (Z.log2 w < 64)); [done|].
  specialize (Hb (Z.log2 w)). rewrite Z.bit_log2 in Hb; [|lia]. discriminate Hb. lia.
Qed.
Lemma in_u64_testbit w j : in_u64 w → 64 ≤ j → Z.testbit w j = false.
Proof.
  intros [Hw Hw'] Hj. destruct (decide (w = 0)) as [->|]; [apply Z.bits_0|].
  apply Z.bits_above_log2; [lia|]. assert (Z.log2 w < 64) by (apply Z.log2_lt_pow2; lia). lia.
Qed.
Lemma in_u64_set w k : in_u64 w → 0 ≤ k < 64 → in_u64 (Z.lor w (Z.shiftl 1 k)).
Proof.
  intros Hw Hk. apply in_u64_bits.
  - apply Z.lor_nonneg. split; [apply Hw|]. apply Z.shiftl_nonneg. lia.
  - intros j Hj. rewrite testbit_lor_shiftl, in_u64_testbit by (done || lia). simpl. lia.
Qed.

Lemma ma_get_spec ma idx : ma_wf ma → 0 ≤ idx < bitmap_bits → ma_get ma idx = Ret (granule ma idx).
Proof.
  intros [_ Hm Hw _] Hi. destruct (pos_range idx Hi) as (H1 & H0 & Hb). unfold ma_get. rewrite ma_pos_eq.
  destruct (index_Ret (ma_mem ma) (idx / 4096)) as (a & Ea & El); [unfold len; lia|].
  rewrite Ea. cbn [mbind outcome_bind]. unfold granule. rewrite El. destruct a as [ws|]; [|done].
  assert (Hws : length ws = 64%nat) by apply (Forall_lookup_1 _ _ _ _ Hw El).
  destruct (index_Ret ws (idx mod 4096 / 64)) as (w & -> & Ew); [unfold len; lia|].
  cbn [mbind outcome_bind]. rewrite Ew. cbn [default]. by rewrite land_shifted_bit by lia.
Qed.

Lemma zero_words_lookup i : default 0 (zero_words !! i) = 0.
Proof. destruct (zero_words !! i) as [x|] eqn:E; [|done]. by apply lookup_replicate in E as [-> _]. Qed.

Lemma ma_set_spec ma idx :
  ma_wf ma → 0 ≤ idx < bitmap_bits →
  ∃ ma', ma_set ma idx = Ret ma' ∧ ma_wf ma' ∧ ma_size ma' = ma_size ma ∧ ma_last ma' = ma_last ma
    ∧ ∀ g, 0 ≤ g → granule ma' g = granule ma g || (g =? idx).
Proof.
  intros [Hs Hm Hw Hl] Hi. destruct (pos_range idx Hi) as (H1 & H0 & Hb). unfold ma_set. rewrite ma_pos_eq.
  destruct (index_Ret (ma_mem ma) (idx / 4096)) as (a & Ea & El); [unfold len; lia|].
  rewrite Ea. cbn [mbind outcome_bind].
  assert (Hws : words_ok (Some (default zero_words a))).
  { pose proof (Forall_lookup_1 _ _ _ _ Hw El) as Ha. destruct a; [done|]. split; [done|]. by apply Forall_replicate. }
  destruct Hws as [Hlen Hws]. set (ws := default zero_words a) in *.
  destruct (index_Ret ws (idx mod 4096 / 64)) as (w & -> & Ew); [unfold len; lia|]. cbn [mbind outcome_bind].
  eexists. split; [done|]. split_and!; [split| | |]; cbn [ma_size ma_mem ma_last]; [done| | |done|done|done|].
  - by rewrite length_insert.
  - apply Forall_insert; [done|]. split; [by rewrite length_insert|]. apply Forall_insert; [done|].
    apply in_u64_set; [by eapply Forall_lookup_1|lia].
  - intros g Hg. unfold granule at 1. cbn [ma_mem].
    pose proof (Z.mod_pos_bound g 4096 ltac:(lia)) as Hg1. pose proof (Z.mod_pos_bound (g mod 4096) 64 ltac:(lia)) as Hg2.
    assert (Hg3 : 0 ≤ g / 4096) by (apply Z.div_pos; lia). assert (Hg4 : 0 ≤ g mod 4096 / 64) by (apply Z.div_pos; lia).
    assert (Eg : g / 4096 = idx / 4096 → granule ma g = Z.testbit (default 0 (ws !! Z.to_nat (g mod 4096 / 64))) (g mod 4096 mod 64)).
    { intros E. unfold granule. rewrite E, El. destruct a; [done|]. unfold ws. cbn [default]. by rewrite zero_words_lookup, Z.bits_0. }
    destruct (decide (g / 4096 = idx / 4096)) as [E1|E1]; cycle 1.
    { rewrite list_lookup_insert_ne by lia. fold (granule ma g). destruct (Z.eqb_spec g idx) as [->|]; [done|].
      by rewrite orb_false_r. }
    rewrite Eg by done. rewrite E1, list_lookup_insert_eq by lia.
    destruct (decide (g mod 4096 / 64 = idx mod 4096 / 64)) as [E0|E0]; cycle 1.
    { rewrite list_lookup_insert_ne by lia. destruct (Z.eqb_spec g idx) as [->|]; [done|]. by rewrite orb_false_r. }
    rewrite E0, list_lookup_insert_eq by lia. cbn [from_option id]. rewrite Ew. cbn [from_option id]. rewrite testbit_lor_shiftl by lia. f_equal.
    destruct (Z.eqb_spec g idx) as [->|Hne]; [lia|]. apply Z.eqb_neq. intros E2. by apply Hne, pos_inj.
Qed.

(** Membership in a run of granules. *)
Definition in_run (start size g : Z) : bool := bool_decide (start ≤ g < start + size).

Lemma u64_small x : 0 ≤ x < 2 ^ 64 → u64 x = x.
Proof. apply u64_id. Qed.

Lemma set_granules_spec n addr ma :
  ma_wf ma → 0 ≤ addr → addr + Z.of_nat n ≤ bitmap_bits →
  ∃ ma', set_granules n addr ma = Ret ma' ∧ ma_wf ma' ∧ ma_size ma' = ma_size ma ∧ ma_last ma' = ma_last ma
    ∧ ∀ g, 0 ≤ g → granule ma' g = granule ma g || in_run addr (Z.of_nat n) g.
Proof.
  revert addr ma. induction n as [|n IH]; intros addr ma Hwf Ha Hn; cbn [set_granules].
  { exists ma. split_and!; [done..|]. intros g Hg. unfold in_run. rewrite bool_decide_false by lia. by rewrite orb_false_r. }
  destruct (ma_set_spec ma addr Hwf) as (m1 & E & Hwf1 & Hs1 & Hl1 & Hg1); [lia|]. rewrite E. cbn [mbind outcome_bind].
  assert (bitmap_bits = 262144) as Hbits by done. rewrite u64_small by lia.
  destruct (IH (addr + 1) m1 Hwf1) as (m2 & E2 & Hwf2 & Hs2 & Hl2 & Hg2); [lia|lia|].
  exists m2. split_and!; [done|done|congruence|congruence|]. intros g Hg. rewrite Hg2, Hg1, <-orb_assoc by done. f_equal.
  unfold in_run. destruct (Z.eqb_spec g addr); repeat case_bool_decide; (done || lia).
Qed.

Lemma div64_ceil a s : 0 ≤ a → 0 ≤ s → (a * 64 + s + 64 - 1) / 64 - a = (s + 63) / 64.
Proof. intros. replace (a * 64 + s + 64 - 1) with (s + 63 + a * 64) by lia. rewrite Z.div_add by lia. lia. Qed.

Lemma ma_noteAlloc_spec ma addr0 size0 :
  ma_wf ma → 0 ≤ addr0 → 0 ≤ size0 → addr0 + size0 ≤ memAllocMaxMem →
  let last := (addr0 + size0 + 63) / 64 in
  ∃ ma', ma_noteAlloc ma addr0 size0 = Ret ma' ∧ ma_wf ma' ∧ ma_size ma' = ma_size ma ∧ ma_last ma' = ma_last ma
    ∧ ∀ g, 0 ≤ g → granule ma' g = granule ma g || in_run (addr0 / 64) (last - addr0 / 64) g.
Proof.
  intros Hwf Ha Hs Hmax last. unfold ma_noteAlloc. change memAllocGranule with 64.
  change memAllocMaxMem with 16777216 in Hmax.
  rewrite (u64_small (addr0 + size0)), (u64_small (addr0 + size0 + 64)), (u64_small (addr0 + size0 + 64 - 1)) by lia.
  assert (El : (addr0 + size0 + 64 - 1) / 64 = last) by (unfold last; f_equal; lia). rewrite El.
  assert (Hge : addr0 / 64 ≤ last) by (unfold last; apply Z.div_le_mono; lia).
  assert (Ha64 : 0 ≤ addr0 / 64) by (apply Z.div_pos; lia).
  assert (Hlast : last ≤ 262144) by (unfold last; apply Z.lt_succ_r, Z.div_lt_upper_bound; lia).
  rewrite u64_small by lia.
  destruct (set_granules_spec (Z.to_nat (last - addr0 / 64)) (addr0 / 64) ma) as (m & E & H1 & H2 & H3 & H4);
    [done|lia|change bitmap_bits with 262144; lia|].
  rewrite Z2Nat.id in H4 by lia. by exists m.
Qed.

Lemma granules_empty_spec n addr ma :
  ma_wf ma → 0 ≤ addr → addr + Z.of_nat n ≤ bitmap_bits →
  ∃ b, granules_empty n addr ma = Ret b ∧ (b = true ↔ ∀ g, addr ≤ g < addr + Z.of_nat n → granule ma g = false).
Proof.
  revert addr. induction n as [|n IH]; intros addr Hwf Ha Hn; cbn [granules_empty].
  { exists true. split; [done|]. split; [lia|done]. }
  rewrite ma_get_spec by (done || lia). cbn [mbind outcome_bind]. destruct (granule ma addr) eqn:E.
  { exists false. split; [done|]. split; [done|]. intros H. rewrite H in E by lia. done. }
  assert (bitmap_bits = 262144) as Hbits by done. rewrite u64_small by lia.
  destruct (IH (addr + 1) Hwf) as (b & Eb & Hb); [lia|lia|]. exists b. split; [done|]. rewrite Hb. split.
  - intros H g Hg. destruct (decide (g = addr)) as [->|]; [done|]. apply H. lia.
  - intros H g Hg. apply H. lia.
Qed.

(** A place for [size] granules at [start]. *)
Definition free_at (ma : memAlloc) (size start : Z) : Prop :=
  ∀ g, start ≤ g < start + size → granule ma g = false.

Lemma find_place_spec fuel ma size a end_ start :
  ma_wf ma → 0 ≤ size → 1 ≤ a < 2 ^ 63 → 0 ≤ start → 0 ≤ end_ → end_ + size ≤ bitmap_bits →
  Z.max 0 (end_ + 1 - start) < Z.of_nat fuel →
  ∃ r, find_place fuel ma size a end_ start = Ret (Some r) ∧
    match r with
    | Some s => start ≤ s ≤ end_ ∧ (a | s - start) ∧ free_at ma size s
        ∧ ∀ t, start ≤ t < s → (a | t - start) → ¬ free_at ma size t
    | None => ∀ t, start ≤ t ≤ end_ → (a | t - start) → ¬ free_at ma size t
    end.
Proof.
  intros Hwf Hsz Ha. revert start. induction fuel as [|fuel IH]; intros start Hs He Hfit Hf; [lia|]. cbn [find_place].
  case_decide as Hle; [|exists None; split; [done|lia]].
  assert (bitmap_bits = 262144) as Hbits by done.
  destruct (granules_empty_spec (Z.to_nat size) start ma Hwf) as (b & -> & Hb); [lia|lia|].
  cbn [mbind outcome_bind]. rewrite Z2Nat.id in Hb by lia. destruct b.
  { exists (Some start). split; [done|]. split_and!; [lia|lia|exists 0; lia|exact (proj1 Hb eq_refl)|lia]. }
  assert (Hno : ¬ free_at ma size start) by (intros H; by apply (proj2 Hb) in H).
  rewrite u64_small by lia. destruct (IH (start + a)) as (r & E & Hr); [lia..|]. exists r. split; [done|].
  assert (Hstep : ∀ t, start ≤ t → (a | t - start) → t = start ∨ start + a ≤ t ∧ (a | t - (start + a))).
  { intros t Ht [q Hq]. destruct (decide (q = 0)) as [->|]; [left; lia|]. right. assert (1 ≤ q) by nia. split; [nia|].
    exists (q - 1). lia. }
  destruct r as [s|].
  - destruct Hr as (H1 & [q Hq] & H3 & H4). split_and!; [lia|lia|exists (q + 1); lia|done|].
    intros t Ht Hd. destruct (Hstep t) as [->|[? ?]]; [lia|done|done|]. apply H4; [lia|done].
  - intros t Ht Hd. destruct (Hstep t) as [->|[? ?]]; [lia|done|done|]. apply Hr; [lia|done].
Qed.

Lemma clear_arrays_spec n mem :
  (n ≤ length mem)%nat →
  ∃ mem', clear_arrays n mem = Ret mem' ∧ length mem' = length mem
    ∧ ∀ i, mem' !! i = (if decide (i < n)%nat then fmap clear_words <$> mem !! i else mem !! i).
Proof.
  revert mem. induction n as [|n IH]; intros mem Hn; cbn [clear_arrays].
  { exists mem. split_and!; [done|done|]. intros i. by rewrite decide_False by lia. }
  destruct mem as [|a mem]; cbn in Hn; [lia|]. destruct (IH mem) as (mem' & -> & Hl & H); [lia|].
  cbn [mbind outcome_bind]. eexists. split_and!; [done|by cbn; rewrite Hl|]. intros [|i]; [done|]. cbn. rewrite H.
  repeat case_decide; (done || lia).
Qed.

Lemma bankruptcy_spec ma :
  ma_wf ma → ∃ ma', bankruptcy ma = Ret ma' ∧ ma_wf ma' ∧ ma_size ma' = ma_size ma ∧ ma_last ma' = ∅
    ∧ ∀ g, 0 ≤ g → granule ma' g = if decide (g < ma_size ma) then false else granule ma g.
Proof.
  intros [(k & Hk & Es) Hm Hw Hl]. unfold bankruptcy. change (memAllocL0Size * bitsPerUint64) with 4096.
  rewrite Es, Z.div_mul by lia. destruct (clear_arrays_spec (Z.to_nat k) (ma_mem ma)) as (mem & -> & Hlen & Hmem); [lia|].
  cbn [mbind outcome_bind]. eexists. split; [done|]. split_and!; [split| | |]; cbn [ma_size ma_mem ma_last].
  - by exists k.
  - congruence.
  - apply Forall_lookup_2. intros i a. rewrite Hmem. case_decide; [|intros; by eapply Forall_lookup_1].
    destruct (ma_mem ma !! i) as [[ws|]|] eqn:E; [|by intros [= <-]|done]. intros [= <-].
    pose proof (Forall_lookup_1 _ _ _ _ Hw E) as [Hlw _]. cbn. unfold clear_words. split; [by rewrite length_fmap|].
    apply Forall_fmap, Forall_forall. intros x _. cbn. done.
  - apply map_Forall_empty.
  - done.
  - done.
  - intros g Hg. unfold granule at 1. cbn [ma_mem]. rewrite Hmem.
    assert (0 ≤ g / 4096) by (apply Z.div_pos; lia). pose proof (Z.div_mod g 4096). pose proof (Z.mod_pos_bound g 4096).
    destruct (decide (g < k * 4096)).
    + rewrite decide_True by lia. destruct (ma_mem ma !! _) as [[ws|]|]; [|done..]. cbn.
      unfold clear_words. rewrite list_lookup_fmap. destruct (ws !! _); cbn; apply Z.bits_0.
    + by rewrite decide_False by lia.
Qed.

(** ** Allocation *)

(** Sizes in granules; a size of zero counts as one byte. *)
Definition granules (bytes : Z) : Z := (Z.max 1 bytes + 63) / 64.
Definition next_start (ma : memAlloc) (a : Z) : Z := default 0 (ma_last ma !! a).

(** The allocator after the block of [size0] bytes at granule [s] was taken. *)
Definition took (ma ma' : memAlloc) (size0 s : Z) : Prop :=
  ma_wf ma' ∧ ma_size ma' = ma_size ma ∧
  ∀ g, 0 ≤ g → granule ma' g = granule ma g || in_run s (granules size0) g.

Lemma granules_pos b : 1 ≤ granules b.
Proof. unfold granules. apply Z.div_le_lower_bound; lia. Qed.
Lemma granules_bytes b : Z.max 1 b ≤ 64 * granules b.
Proof.
  unfold granules. pose proof (Z.div_mod (Z.max 1 b + 63) 64). pose proof (Z.mod_pos_bound (Z.max 1 b + 63) 64). lia.
Qed.
Lemma granules_le b k : b ≤ 64 * k → 1 ≤ k → granules b ≤ k.
Proof. intros. unfold granules. apply Z.lt_succ_r, Z.div_lt_upper_bound; lia. Qed.
Lemma granules_u64 b :
  0 ≤ b < 2 ^ 64 - 64 →
  ((if decide (b = 0) then 1 else b) +u memAllocGranule -u 1) / memAllocGranule = granules b.
Proof.
  intros Hb. change memAllocGranule with 64. unfold granules.
  replace (if decide (b = 0) then 1 else b) with (Z.max 1 b) by (case_decide; lia).
  rewrite (u64_small (Z.max 1 b + 64)), u64_small by lia. f_equal. lia.
Qed.
Lemma ma_size_range ma : ma_wf ma → 0 ≤ ma_size ma ≤ 262144.
Proof. intros [(k & Hk & ->) _ _ _]. lia. Qed.

Lemma take_place ma size0 a s :
  ma_wf ma → 0 ≤ size0 → 1 ≤ a < 2 ^ 60 → 0 ≤ s → s + granules size0 ≤ ma_size ma → (a | s) →
  let size1 := if decide (size0 = 0) then 1 else size0 in
  ∃ m, ma_noteAlloc ma (s *u memAllocGranule) size1 = Ret m ∧ s *u memAllocGranule = s * 64 ∧
    took ma (mkMemAlloc (ma_size m) (ma_mem m)
      (<[a := s +u ((granules size0 +u a -u 1) / a *u a)]> (ma_last m))) size0 s.
Proof.
  intros Hwf H0 Ha Hs Hfit Hd size1. pose proof (ma_size_range ma Hwf) as Hsz. pose proof (granules_pos size0) as Hg.
  pose proof (granules_bytes size0) as Hb. change memAllocGranule with 64.
  assert (E1 : size1 = Z.max 1 size0) by (unfold size1; case_decide; lia). rewrite E1.
  rewrite (u64_small (s * 64)) by lia.
  destruct (ma_noteAlloc_spec ma (s * 64) (Z.max 1 size0)) as (m & E & Hwm & Hms & Hml & Hmg);
    [done|lia|lia|change memAllocMaxMem with 16777216; lia|].
  exists m. split; [done|]. split; [done|]. rewrite Z.div_mul in Hmg by lia.
  replace ((s * 64 + Z.max 1 size0 + 63) / 64 - s) with (granules size0) in Hmg; cycle 1.
  { unfold granules. rewrite <-(div64_ceil s) by lia. f_equal. f_equal. lia. }
  rewrite (u64_small (granules size0 + a)), (u64_small (granules size0 + a - 1)) by lia.
  pose proof (Z.div_mod (granules size0 + a - 1) a) as Hdm. pose proof (Z.mod_pos_bound (granules size0 + a - 1) a) as Hmb.
  set (q := (granules size0 + a - 1) / a) in *. rewrite (u64_small (q * a)) by nia. rewrite u64_small by nia.
  split_and!; [split|done|done]; cbn [ma_size ma_mem ma_last]; [apply Hwm|apply Hwm|apply Hwm|].
  apply map_Forall_insert_2; [|apply Hwm]. split; [|nia]. apply Z.divide_add_r; [done|]. exists q. lia.
Qed.

(** The result of a search from the remembered position on. *)
Lemma search_from_last ma size0 a :
  ma_wf ma → 1 ≤ a < 2 ^ 63 → granules size0 ≤ ma_size ma →
  ∃ r, find_place (S (S (Z.to_nat (ma_size ma)))) ma (granules size0) a (ma_size ma -u granules size0)
         (next_start ma a) = Ret (Some r) ∧
    match r with
    | Some s => next_start ma a ≤ s ∧ 0 ≤ s ∧ s + granules size0 ≤ ma_size ma ∧ (a | s) ∧ free_at ma (granules size0) s
        ∧ ∀ t, next_start ma a ≤ t < s → (a | t) → ¬ free_at ma (granules size0) t
    | None => ∀ t, next_start ma a ≤ t → t + granules size0 ≤ ma_size ma → (a | t) → ¬ free_at ma (granules size0) t
    end.
Proof.
  intros Hwf Ha Hfit. pose proof (ma_size_range ma Hwf) as Hsz. pose proof (granules_pos size0) as Hg.
  rewrite u64_small by lia.
  assert (Hn : 0 ≤ next_start ma a ∧ (a | next_start ma a)).
  { unfold next_start. destruct (ma_last ma !! a) as [s|] eqn:E; cbn; [|split; [done|apply Z.divide_0_r]].
    apply (wf_last _ Hwf) in E as [? ?]. split; [lia|done]. }
  destruct Hn as [Hn Hd].
  destruct (find_place_spec (S (S (Z.to_nat (ma_size ma)))) ma (granules size0) a (ma_size ma - granules size0)
    (next_start ma a)) as (r & E & Hr); [done|lia|lia|done|lia|change bitmap_bits with 262144; lia|lia|].
  assert (Hsub : ∀ t, (a | t) → (a | t - next_start ma a)) by (intros; by apply Z.divide_sub_r).
  exists r. split; [done|]. destruct r as [s|].
  - destruct Hr as (H1 & H2 & H3 & H4). split_and!; [lia|lia|lia| |done|].
    + replace s with (s - next_start ma a + next_start ma a) by lia. by apply Z.divide_add_r.
    + intros t Ht Hdt. apply H4; [lia|]. by apply Hsub.
  - intros t Ht1 Ht2 Hdt. apply Hr; [lia|]. by apply Hsub.
Qed.

(** One call without the recursion. *)
Lemma ma_alloc_unfold depth ma size0 alignment0 :
  0 ≤ size0 < 2 ^ 64 - 64 → 0 ≤ alignment0 < 2 ^ 64 - 64 →
  ma_alloc depth ma size0 alignment0 =
    place ← find_place (S (S (Z.to_nat (ma_size ma)))) ma (granules size0) (granules alignment0)
              (ma_size ma -u granules size0) (next_start ma (granules alignment0));
    match place with
    | None => Ret None
    | Some (Some start) =>
        m ← ma_noteAlloc ma (start *u memAllocGranule) (if decide (size0 = 0) then 1 else size0);
        Ret (Some (start *u memAllocGranule, mkMemAlloc (ma_size m) (ma_mem m)
          (<[granules alignment0 := start +u ((granules size0 +u granules alignment0 -u 1) / granules alignment0
               *u granules alignment0)]> (ma_last m))))
    | Some None =>
        match depth with
        | O => Ret None
        | S depth => m ← bankruptcy ma;
            ma_alloc depth m (if decide (size0 = 0) then 1 else size0) (if decide (alignment0 = 0) then 1 else alignment0)
        end
    end.
Proof. intros H1 H2. destruct depth; cbn [ma_alloc]; by rewrite !granules_u64. Qed.

Lemma alloc_found depth ma size0 alignment0 s :
  ma_wf ma → 0 ≤ size0 < 2 ^ 64 - 64 → 0 ≤ alignment0 < 2 ^ 64 - 64 →
  find_place (S (S (Z.to_nat (ma_size ma)))) ma (granules size0) (granules alignment0)
    (ma_size ma -u granules size0) (next_start ma (granules alignment0)) = Ret (Some (Some s)) →
  0 ≤ s → s + granules size0 ≤ ma_size ma → (granules alignment0 | s) →
  ∃ ma', ma_alloc depth ma size0 alignment0 = Ret (Some (s * 64, ma')) ∧ took ma ma' size0 s.
Proof.
  intros Hwf Hs0 Ha0 E Hs Hfit Hd. rewrite ma_alloc_unfold, E by done. cbn [mbind outcome_bind].
  destruct (take_place ma size0 (granules alignment0) s) as (m & Em & Ea & Ht); [done|lia| |done|done|done|].
  { split; [apply granules_pos|]. apply (Z.le_lt_trans _ (2 ^ 58)); [|lia]. apply granules_le; lia. }
  rewrite Em. cbn [mbind outcome_bind]. rewrite Ea in *. eexists. split; [done|exact Ht].
Qed.

Lemma granules_norm b : 0 ≤ b → granules (if decide (b = 0) then 1 else b) = granules b.
Proof. intros. unfold granules. case_decide; f_equal; lia. Qed.
Lemma granules_align b : 0 < b → (b | 64) ∨ (64 | b) → (b | 64 * granules b).
Proof.
  intros Hb [H|[q ->]].
  - by apply Z.divide_mul_l.
  - unfold granules. rewrite Z.max_r by lia. replace (q * 64 + 63) with (63 + q * 64) by lia.
    rewrite Z.div_add by lia. exists 1. change (63 / 64) with 0. lia.
Qed.
Lemma bankrupt_free ma m k : (∀ g, 0 ≤ g → granule m g = if decide (g < ma_size ma) then false else granule ma g) →
  k ≤ ma_size ma → free_at m k 0.
Proof. intros Hg Hk g Hr. rewrite Hg, decide_True by lia. done. Qed.

(** The allocator after it placed a block at granule [s]: its invariant holds,
    and the block is aligned and inside the memory; it was free, the first such
    place from the remembered position on, and its granules are added; or no
    place was free and the block is now the only one, at address 0. *)
Definition block_placed (ma ma' : memAlloc) (size0 alignment0 s : Z) : Prop :=
  let a := granules alignment0 in
  let k := granules size0 in
  ma_wf ma' ∧ ma_size ma' = ma_size ma
  ∧ 0 ≤ s ∧ s * 64 + Z.max 1 size0 ≤ 64 * ma_size ma ∧ (a | s)
  ∧ (0 < alignment0 → (alignment0 | 64) ∨ (64 | alignment0) → (alignment0 | s * 64))
  ∧ ((free_at ma k s ∧ (∀ t, next_start ma a ≤ t < s → (a | t) → ¬ free_at ma k t)
      ∧ ∀ g, 0 ≤ g → granule ma' g = granule ma g || in_run s k g)
     ∨ ((∀ t, next_start ma a ≤ t → t + k ≤ ma_size ma → (a | t) → ¬ free_at ma k t)
        ∧ s = 0 ∧ ∀ g, 0 ≤ g < ma_size ma → granule ma' g = in_run s k g)).
Lemma ma_alloc_run (ma : memAlloc) (size0 alignment0 : Z)
    (Hwf : ma_wf ma) (Hsize : 0 ≤ size0 ≤ 64 * ma_size ma) (Hmem : 0 < ma_size ma)
    (Halign : 0 ≤ alignment0 < 2 ^ 64 - 64) :
  ∃ s ma', ma_alloc 1 ma size0 alignment0 = Ret (Some (s * 64, ma')) ∧ block_placed ma ma' size0 alignment0 s.
Proof.
  set (a := granules alignment0). set (k := granules size0). unfold block_placed. fold a k. pose proof (ma_size_range ma Hwf) as Hsz. pose proof (granules_pos alignment0) as Ha.
  pose proof (granules_bytes size0) as Hb.
  assert (Hk : k ≤ ma_size ma) by (apply granules_le; lia).
  assert (Ha2 : a ≤ 2 ^ 58) by (apply granules_le; lia).
  assert (Hal : ∀ s, (a | s) → 0 < alignment0 → (alignment0 | 64) ∨ (64 | alignment0) → (alignment0 | s * 64)).
  { intros s [q ->] Hp Hd. replace (q * a * 64) with (q * (64 * a)) by lia.
    apply Z.divide_mul_r. by apply granules_align. }
  destruct (search_from_last ma size0 a Hwf) as ([s|] & E & Hr); [lia|done| |].
  - destruct Hr as (H1 & H2 & H3 & H4 & H5 & H6).
    destruct (alloc_found 1 ma size0 alignment0 s Hwf) as (ma' & E' & Hwf' & Hs' & Hg'); [lia|lia|done|done|done|done|].
    exists s, ma'. split_and!; [done|done|done|done|fold k in Hb; lia|done|by apply Hal|]. by left.
  - destruct (bankruptcy_spec ma Hwf) as (m & Em & Hwm & Hms & Hml & Hmg).
    assert (Hn0 : next_start m a = 0) by (unfold next_start; by rewrite Hml, lookup_empty).
    destruct (search_from_last m size0 a Hwm) as (r & E2 & Hr2); [lia|by rewrite Hms|].
    assert (Hfree : free_at m k 0) by (by eapply bankrupt_free).
    destruct r as [s|]; cycle 1.
    { exfalso. apply (Hr2 0); [lia|lia|apply Z.divide_0_r|done]. }
    destruct Hr2 as (H1 & H2 & H3 & H4 & H5 & H6).
    assert (s = 0) as ->.
    { destruct (decide (s = 0)); [done|]. exfalso. apply (H6 0); [lia|apply Z.divide_0_r|done]. }
    set (size1 := if decide (size0 = 0) then 1 else size0).
    set (al1 := if decide (alignment0 = 0) then 1 else alignment0).
    assert (Hg1 : granules size1 = k) by (apply granules_norm; lia).
    assert (Hg2 : granules al1 = a) by (apply granules_norm; lia).
    destruct (alloc_found 0 m size1 al1 0 Hwm) as (ma' & E' & Hwf' & Hs' & Hg');
      [unfold size1; case_decide; lia|unfold al1; case_decide; lia|by rewrite Hg1, Hg2|done|by rewrite Hg1|by rewrite Hg2|].
    exists 0, ma'. split_and!; [|done|lia|lia|fold k in Hb; lia|done|by apply Hal|right; split_and!; [done|done|]].
    + rewrite ma_alloc_unfold by lia. fold a. rewrite E. cbn [mbind outcome_bind]. rewrite Em. cbn [mbind outcome_bind].
      exact E'.
    + intros g Hg. rewrite Hg', Hmg, decide_True by lia. by rewrite Hg1.
Qed.

(** C25: allocation of program memory always succeeds.  For a block that fits
    into the memory the allocator returns after at most one recursion, without
    leaving the bitmap, and keeps its invariant; the block lies inside the
    memory, at a multiple of the alignment rounded to 64 bytes (so at a
    multiple of the alignment when it divides 64 or is divided by it).  Either
    the block was free and exactly its granules were added, at the first such
    place from the remembered position on; or there was none, everything was
    forgotten and the block is the only one, at address 0. *)
Theorem ma_alloc_spec (ma : memAlloc) (size0 alignment0 : Z)
    (Hwf : ma_wf ma) (Hsize : 0 ≤ size0 ≤ 64 * ma_size ma) (Hmem : 0 < ma_size ma)
    (Halign : 0 ≤ alignment0 < 2 ^ 64 - 64) :
  ∃ s ma', ma_alloc 1 ma size0 alignment0 = Ret (Some (s * 64, ma')) ∧ block_placed ma ma' size0 alignment0 s.
Proof. by apply ma_alloc_run. Qed.

(** A new allocator, and one note. *)
Lemma memAlloc_shape (total : Z) (Htotal : 0 ≤ total) :
  (newMemAlloc total = Panic ↔ memAllocMaxMem < total ∨ total mod memAllocL0Mem ≠ 0)
  ∧ (∀ ma, newMemAlloc total = Ret ma → ma_wf ma ∧ ma_size ma * 64 = total ∧ ∀ g, 0 ≤ g → granule ma g = false)
  ∧ (∀ ma addr size, ma_wf ma → 0 ≤ addr → 0 ≤ size → addr + size ≤ memAllocMaxMem →
       ∃ ma', ma_noteAlloc ma addr size = Ret ma' ∧ ma_wf ma' ∧ ma_size ma' = ma_size ma
       ∧ ∀ g, 0 ≤ g → granule ma' g = granule ma g || in_run (addr / 64) ((addr + size + 63) / 64 - addr / 64) g).
Proof.
  unfold newMemAlloc. split_and!.
  - repeat case_decide; naive_solver.
  - intros ma H. case_decide as Hmax; [done|]. case_decide as Hmod; [done|]. apply Ret_inj in H as <-.
    change memAllocMaxMem with 16777216 in Hmax. change memAllocL0Mem with 262144 in Hmod. change memAllocGranule with 64.
    assert (Hm : total mod 262144 = 0) by (destruct (decide (total mod 262144 = 0)); [done|tauto]).
    pose proof (Z.div_mod total 262144 ltac:(lia)) as Hdm.
    assert (E : total / 64 = total / 262144 * 4096).
    { rewrite Hdm at 1. rewrite Hm. replace (262144 * (total / 262144) + 0) with (total / 262144 * 4096 * 64) by lia.
      by rewrite Z.div_mul by lia. }
    split_and!; [split| |]; cbn [ma_size ma_mem ma_last].
    + exists (total / 262144). rewrite E. split; [|done]. split; [by apply Z.div_pos|]. apply Z.lt_succ_r, Z.div_lt_upper_bound; lia.
    + done.
    + apply Forall_insert; [by apply Forall_replicate|]. split; [done|]. by apply Forall_replicate.
    + apply map_Forall_empty.
    + rewrite E. lia.
    + intros g Hg. unfold granule. cbn [ma_mem]. destruct (Z.to_nat (g / 4096)) as [|i]; cbn [lookup list_lookup].
      * rewrite list_lookup_insert_eq by (vm_compute; lia). by rewrite zero_words_lookup, Z.bits_0.
      * rewrite list_lookup_insert_ne by lia. destruct (replicate _ _ !! S i) eqn:El; [|done].
        by apply lookup_replicate in El as [-> _].
  - intros ma addr size Hwf Ha Hs Hmax. destruct (ma_noteAlloc_spec ma addr size) as (m & E & H1 & H2 & _ & H4); [done..|].
    by exists m.
Qed.

(** Several notes, one after the other. *)
Fixpoint note_all (l : list (Z * Z)) (ma : memAlloc) : outcome memAlloc :=
  match l with
  | [] => Ret ma
  | (addr, size) :: l => ma ← ma_noteAlloc ma addr size; note_all l ma
  end.
(** The bytes lie in the granule; a note without bytes counts for the granule
    its address is within. *)
Definition touches (x : Z * Z) (g : Z) : Prop :=
  (∃ b, x.1 ≤ b < x.1 + x.2 ∧ b / 64 = g) ∨ (x.2 = 0 ∧ x.1 mod 64 ≠ 0 ∧ x.1 / 64 = g).
Lemma in_run_touches addr size g : 0 ≤ addr → 0 ≤ size → in_run (addr / 64) ((addr + size + 63) / 64 - addr / 64) g = true ↔ touches (addr, size) g.
Proof.
  intros Ha Hs. unfold in_run, touches. rewrite bool_decide_eq_true. cbn [fst snd].
  pose proof (Z.div_mod addr 64 ltac:(lia)). pose proof (Z.mod_pos_bound addr 64 ltac:(lia)).
  pose proof (Z.div_mod (addr + size + 63) 64 ltac:(lia)). pose proof (Z.mod_pos_bound (addr + size + 63) 64 ltac:(lia)). split.
  - intros Hg. destruct (decide (size = 0)) as [->|Hne]; [right; split_and!; [done|lia|lia]|]. left. exists (Z.max addr (64 * g)). split; [lia|].
    destruct (decide (addr ≤ 64 * g)); [rewrite Z.max_r by lia; rewrite Z.mul_comm; by apply Z.div_mul|]. rewrite Z.max_l by lia. lia.
  - intros [(b & Hb & <-)|(-> & Hm & <-)]; [|lia]. pose proof (Z.div_mod b 64 ltac:(lia)). pose proof (Z.mod_pos_bound b 64 ltac:(lia)). lia.
Qed.


(** ** Pages *)

Record va_inv (va : vmaAlloc) : Prop := {
  va_nodup : NoDup (va_used va);
  va_same : ∀ i, i ∈ va_used va ↔ i ∈ va_m va;
  va_range : ∀ i, i ∈ va_m va → 0 ≤ i < va_numPages va
}.

Lemma note_page_inv va i :
  va_inv va → 0 ≤ i < va_numPages va →
  va_inv (note_page va i) ∧ va_numPages (note_page va i) = va_numPages va
  ∧ va_m (note_page va i) = {[i]} ∪ va_m va ∧ va_used va `prefix_of` va_used (note_page va i).
Proof.
  intros [H1 H2 H3] Hi. unfold note_page. case_decide as Hin; [split_and!; [done|done|set_solver|done]|].
  split_and!; cbn [va_used va_m va_numPages]; [split; cbn| | |]; [|set_solver|set_solver|done|done|by apply prefix_app_r].
  apply NoDup_app. split_and!; [done| |apply NoDup_singleton]. intros x Hx ->%list_elem_of_singleton. by apply Hin, H2.
Qed.
Lemma va_noteAlloc_spec va page size :
  va_inv va → 0 ≤ page → 0 ≤ size → page + size ≤ va_numPages va → va_numPages va < 2 ^ 63 →
  let va' := va_noteAlloc va page size in
  va_inv va' ∧ va_numPages va' = va_numPages va ∧ va_used va `prefix_of` va_used va'
  ∧ ∀ i, i ∈ va_m va' ↔ i ∈ va_m va ∨ page ≤ i < page + size.
Proof.
  intros Hinv Hp Hs Hfit Hn. unfold va_noteAlloc. rewrite u64_small by lia.
  replace (page + size - page) with size by lia.
  assert (Hl : ∀ l va, va_inv va → Forall (λ i, 0 ≤ i < va_numPages va) l →
    let va' := foldl note_page va l in
    va_inv va' ∧ va_numPages va' = va_numPages va ∧ va_used va `prefix_of` va_used va'
    ∧ ∀ i, i ∈ va_m va' ↔ i ∈ va_m va ∨ i ∈ l).
  { induction l as [|i l IH]; intros v Hv Hall; cbn [foldl]; [split_and!; [done..|set_solver]|].
    apply Forall_cons in Hall as [Hi Hall]. destruct (note_page_inv v i Hv Hi) as (I1 & I2 & I3 & I4).
    destruct (IH (note_page v i) I1) as (J1 & J2 & J3 & J4); [by rewrite I2|].
    split_and!; [done|congruence|by etrans|]. intros x. rewrite J4, I3. set_solver. }
  destruct (Hl (seqZ page size) va Hinv) as (K1 & K2 & K3 & K4).
  { apply Forall_forall. intros i Hi%elem_of_seqZ. lia. }
  split_and!; [done..|]. intros i. by rewrite K4, elem_of_seqZ.
Qed.

Lemma rand_Ret n r : 0 < n < 2 ^ 63 → ∃ i r', rand n r = Ret (i, r') ∧ 0 ≤ i < n.
Proof.
  intros Hn. unfold rand. destruct (Intn_Ret n r) as (i & -> & Hi); [lia|]. cbn [mbind outcome_bind].
  rewrite u64_small by lia. eauto.
Qed.
Lemma oneOf_Ret n r : 0 < n → ∃ b r', oneOf n r = Ret (b, r').
Proof. intros Hn. unfold oneOf. destruct (Intn_Ret n r) as (i & -> & _); [done|]. cbn. eauto. Qed.

Lemma edge_page_ok va size r :
  0 ≤ size → size + 3 ≤ va_numPages va → va_numPages va < 2 ^ 63 →
  ∃ page r', edge_page va size r = Ret (page, r') ∧ 0 ≤ page ∧ page + size ≤ va_numPages va.
Proof.
  intros Hs Hf Hn. unfold edge_page. destruct (rand_Ret 4 r) as (i & r1 & -> & Hi); [lia|]. cbn [mbind outcome_bind].
  destruct (oneOf_Ret 100 r1) as (b & r2 & ->); [lia|]. cbn [mbind outcome_bind]. eexists _, r2. split; [done|].
  destruct b; [lia|]. rewrite (u64_small (va_numPages va - i)), u64_small by lia. lia.
Qed.
Lemma used_page_ok va size r :
  va_inv va → 1 ≤ size ≤ va_numPages va → va_numPages va < 2 ^ 63 → va_used va ≠ [] → len (va_used va) < 2 ^ 63 →
  ∃ page r', used_page va size r = Ret (page, r') ∧ 0 ≤ page ∧ page + size ≤ va_numPages va.
Proof.
  intros Hinv Hs Hn Hne Hlen. unfold used_page.
  assert (0 < len (va_used va)) by (unfold len; destruct (va_used va); [done|simpl; lia]).
  destruct (rand_Ret (len (va_used va)) r) as (i & r1 & -> & Hi); [lia|]. cbn [mbind outcome_bind].
  destruct (index_Ret (va_used va) i) as (page & -> & El); [done|]. cbn [mbind outcome_bind].
  assert (Hpage : 0 ≤ page < va_numPages va) by (apply (va_range _ Hinv), (va_same _ Hinv); by eapply list_elem_of_lookup_2).
  assert (Hmin : ∀ q r', 0 ≤ q → ∃ page0 r0, Ret (Z.min q (va_numPages va -u size), r') = Ret (page0, r0 : rng)
    ∧ 0 ≤ page0 ∧ page0 + size ≤ va_numPages va).
  { intros q r' Hq. eexists _, _. split; [done|]. rewrite u64_small by lia. lia. }
  case_decide; [|cbn [mbind outcome_bind]; apply Hmin; lia].
  unfold bin. destruct (Intn_Ret 2 r1) as (b & -> & _); [lia|]. cbn [mbind outcome_bind].
  case_bool_decide; [|cbn [mbind outcome_bind]; apply Hmin; lia]. rewrite i64_id by (unfold in_i64; lia).
  destruct (rand_Ret size (tl r1)) as (x & r2 & -> & Hx); [lia|]. cbn [mbind outcome_bind]. apply Hmin.
  rewrite u64_small; lia.
Qed.

Lemma va_alloc_pages va size r :
  va_inv va → 1 ≤ size → size + 3 ≤ va_numPages va → va_numPages va < 2 ^ 63 → len (va_used va) < 2 ^ 63 →
  ∃ page va' r', va_alloc va size r = Ret (page, va', r') ∧ 0 ≤ page ∧ page + size ≤ va_numPages va
    ∧ va' = va_noteAlloc va page size.
Proof.
  intros Hinv Hs Hf Hn Hlen. unfold va_alloc. rewrite decide_False by lia.
  assert (Hedge : ∃ edge r1, (if decide (len (va_used va) = 0) then Ret (true, r) else oneOf 5 r) = Ret (edge, r1)
    ∧ (edge = false → va_used va ≠ [])).
  { case_decide as Hz; [by eexists _, _|]. destruct (oneOf_Ret 5 r) as (b & r1 & ->); [lia|]. exists b, r1. split; [done|].
    intros _ H0. by rewrite H0 in Hz. }
  destruct Hedge as (edge & r1 & -> & Hedge). cbn [mbind outcome_bind].
  assert (Hpage : ∃ page r2, (if edge then edge_page va size r1 else used_page va size r1) = Ret (page, r2)
    ∧ 0 ≤ page ∧ page + size ≤ va_numPages va).
  { destruct edge; [apply edge_page_ok; lia|]. apply used_page_ok; [done|lia|lia|by apply Hedge|done]. }
  destruct Hpage as (page & r2 & -> & Hp & Hfit). cbn [mbind outcome_bind].
  rewrite (u64_small (page + size)) by lia. rewrite decide_False by lia. eauto 10.
Qed.

(** Page allocation.  As long as three pages are left beside the area,
    every draw of the generator gives an area inside the memory; its pages are
    added to the used ones, each listed once and in order of first use.
    Without that margin some draw panics: the position is drawn from the four
    pages at either end. *)
Theorem va_alloc_spec (va : vmaAlloc) (size : Z)
    (Hinv : va_inv va) (Hsize : 1 ≤ size) (Hn : va_numPages va < 2 ^ 63) (Hlen : len (va_used va) < 2 ^ 63) :
  (size + 3 ≤ va_numPages va → ∀ r, ∃ page va' r', va_alloc va size r = Ret (page, va', r')
     ∧ 0 ≤ page ∧ page + size ≤ va_numPages va ∧ va_inv va' ∧ va_used va `prefix_of` va_used va'
     ∧ ∀ i, i ∈ va_m va' ↔ i ∈ va_m va ∨ page ≤ i < page + size)
  ∧ (va_numPages va < size + 3 → ∃ r, va_alloc va size r = Panic).
Proof.
  split.
  - intros Hf r. destruct (va_alloc_pages va size r) as (page & va' & r' & E & Hp & Hfit & ->); [done..|].
    exists page, (va_noteAlloc va page size), r'.
    destruct (va_noteAlloc_spec va page size) as (H1 & H2 & H3 & H4); [done|lia..|]. by split_and!.
  - intros Hf. destruct (decide (va_numPages va < size)) as [Hlt|Hge].
    { exists []. unfold va_alloc. by rewrite decide_True. }
    assert (Hu : va_numPages va -u 3 -u size = va_numPages va - 3 - size + 2 ^ 64).
    { unfold u64. rewrite Zminus_mod_idemp_l. symmetry. apply (Z.mod_unique _ _ (-1)); lia. }
    destruct (decide (len (va_used va) = 0)) as [Hz|Hz]; [exists [3; 1]|exists [0; 3; 1]]; unfold va_alloc;
      rewrite decide_False by done; [rewrite (decide_True (P := len _ = 0)) by done|rewrite (decide_False (P := len _ = 0)) by done;
      change (oneOf 5 [0; 3; 1]) with (Ret (true, [3; 1]))];
      cbn [mbind outcome_bind]; change (edge_page va size [3; 1]) with (Ret (va_numPages va -u 3 -u size, @nil Z));
      cbn [mbind outcome_bind]; rewrite Hu, decide_True by lia; done.
Qed.

(** *** Witnesses *)
Definition small_alloc : memAlloc :=
  match newMemAlloc memAllocL0Mem with Ret ma => ma | Panic => mkMemAlloc 0 [] ∅ end.

Lemma ma_alloc_witness :
  ∃ s ma', ma_alloc 1 small_alloc 100 128 = Ret (Some (s * 64, ma')) ∧ ma_wf ma'.
Proof.
  destruct (ma_alloc_spec small_alloc 100 128) as (s & ma' & E & Hwf & _).
  - split.
    + exists 1. split; [lia|reflexivity].
    + reflexivity.
    + apply Forall_cons. split; [split; [reflexivity|by apply Forall_replicate]|]. by apply (Forall_replicate words_ok 63%nat None).
    + apply map_Forall_empty.
  - vm_compute. split; discriminate.
  - reflexivity.
  - split; [discriminate|reflexivity].
  - exists s, ma'. exact (conj E Hwf).
Defined.


Lemma va_alloc_witness :
  ∃ page va' r', va_alloc (newVmaAlloc 16) 4 [2; 7] = Ret (page, va', r') ∧ page + 4 ≤ 16.
Proof.
  destruct (va_alloc_spec (newVmaAlloc 16) 4) as [H _].
  - split; [apply NoDup_nil_2|set_solver|set_solver].
  - discriminate.
  - reflexivity.
  - reflexivity.
  - destruct (H ltac:(discriminate) [2; 7]) as (page & va' & r' & E & _ & Hp & _). exists page, va', r'. exact (conj E Hp).
Defined.
