(* ===== verification/CorpusDB.v ===== *)
(** * The corpus database (src/pkg/db/db.go)

    A key-value store cached in memory and mirrored in a file: a header and a
    log of records, each a saved value or a deletion.  Values are compressed by
    compress/flate, a parameter with its documented round trip; the order in
    which a Go map is iterated is a parameter as well.  Bytes are integers from
    0 to 255, keys are byte strings. *)

From S2P Require Import Prelude Bits Files.

(** compress/flate.  [inflate] gets the bytes the limited reader can deliver
    and returns the data and how many bytes were taken; a stream cut short is
    an error ([io.ErrUnexpectedEOF]). *)
Class Flate := {
  deflate : list Z → list Z;
  inflate : list Z → option (list Z * nat);
  inflate_deflate v : inflate (deflate v) = Some (v, length (deflate v));
  inflate_truncated v k : (k < length (deflate v))%nat → inflate (take k (deflate v)) = None
}.

(** [Record]. *)
Record DBRecord := mkDBRecord { Val : list Z; Seq : Z }.
#[export] Instance DBRecord_eq_dec : EqDecision DBRecord.
Proof. solve_decision. Defined.
Abbreviation Key := (list Z).

Definition dbMagic : Z := 0xbaddb.
Definition recMagic : Z := 0xfee1bad.
Definition curVersion : Z := 2.
Definition seqDeleted : Z := 2 ^ 64 - 1.

(** ** Reading *)

(** [io.EOF] only when nothing was left to read. *)
Inductive read_error := EOF | UnexpectedEOF | BadData.
#[export] Instance read_error_eq_dec : EqDecision read_error.
Proof. solve_decision. Defined.
Definition reader (A : Type) : Type := list Z → read_error + (A * list Z).
#[export] Instance reader_ret : MRet reader := λ A a r, inr (a, r).
#[export] Instance reader_bind : MBind reader := λ A B f m r,
  match m r with inl e => inl e | inr (a, r) => f a r end.
Definition read_fail {A} (e : read_error) : reader A := λ _, inl e.

(** [io.ReadFull] into a buffer of [n] bytes. *)
Definition ReadFull (n : nat) : reader (list Z) := λ r,
  if decide (n = 0%nat) then inr ([], r)
  else if decide (r = []) then inl EOF
  else if decide (length r < n)%nat then inl UnexpectedEOF
  else inr (take n r, drop n r).
Definition read_uint (n : nat) : reader Z := l ← ReadFull n; mret (le_value l).

(** Errors of the operations: a system call, or what was read. *)
Inductive db_error := SysError | ReadError (e : read_error).
#[export] Instance db_error_eq_dec : EqDecision db_error.
Proof. solve_decision. Defined.

Section db.
Context `{!Flate}.

(** [flate.NewReader] over [io.LimitedReader], read to the end. *)
Definition read_value (valLen : Z) : reader (list Z) := λ r,
  match inflate (take (Z.to_nat valLen) r) with
  | None => inl BadData
  | Some (val, used) => inr (val, drop used r)
  end.

Definition deserializeRecord : reader (Key * list Z * Z) :=
  magic ← read_uint 4;
  if decide (magic ≠ recMagic) then read_fail BadData
  else
    keyLen ← read_uint 4;
    key ← ReadFull (Z.to_nat keyLen);
    seq ← read_uint 8;
    if decide (seq = seqDeleted) then mret (key, [], seq)
    else
      valLen ← read_uint 4;
      if decide (valLen ≠ 0) then val ← read_value valLen; mret (key, val, seq)
      else mret (key, [], seq).

Definition header_magic : reader (option Z) := λ r,
  match read_uint 4 r with
  | inl EOF => inr (None, r)
  | inl e => inl e
  | inr (m, r) => inr (Some m, r)
  end.
Definition deserializeHeader : reader Z :=
  magic ← header_magic;
  match magic with
  | None => mret 0
  | Some magic =>
      if decide (magic ≠ dbMagic) then read_fail BadData
      else
        ver ← read_uint 4;
        if decide (ver = 0 ∨ curVersion < ver) then read_fail BadData
        else if decide (2 ≤ ver) then read_uint 8
        else mret 0
  end.

Definition apply_record (records : gmap Key DBRecord) (rec : Key * list Z * Z) : gmap Key DBRecord :=
  let '(key, val, seq) := rec in
  if decide (seq = seqDeleted) then delete key records else <[key := mkDBRecord val seq]> records.

(** The loop of deserializeDB; it gives up when the fuel is used up. *)
Fixpoint read_records (fuel : nat) (r : list Z) (records : gmap Key DBRecord) (uncompacted : Z)
    : option (gmap Key DBRecord * Z * option read_error) :=
  match fuel with
  | O => None
  | S fuel =>
      match deserializeRecord r with
      | inl EOF => Some (records, uncompacted, None)
      | inl e => Some (records, uncompacted, Some e)
      | inr (rec, r) => read_records fuel r (apply_record records rec) (uncompacted + 1)
      end
  end.

(** Version, records, number of records in the file, error. *)
Definition deserializeDB (r : list Z) : option (Z * gmap Key DBRecord * Z * option read_error) :=
  match deserializeHeader r with
  | inl e => Some (0, ∅, 0, Some e)
  | inr (version, r) =>
      match read_records (S (length r)) r ∅ 0 with
      | None => None
      | Some (records, n, err) => Some (version, records, n, err)
      end
  end.

(** ** Writing *)

Definition serializeHeader (version : Z) : list Z := le_bytes 4 dbMagic ++ le_bytes 4 curVersion ++ le_bytes 8 version.
Definition serializeRecord (key : Key) (val : list Z) (seq : Z) : outcome (list Z) :=
  let head := le_bytes 4 recMagic ++ le_bytes 4 (u32 (len key)) ++ key ++ le_bytes 8 seq in
  if decide (seq = seqDeleted) then
    if decide (len val ≠ 0) then Panic else Ret head
  else if decide (len val = 0) then Ret (head ++ le_bytes 4 (u32 (len val)))
  else let z := deflate val in Ret (head ++ le_bytes 4 (u32 (len z)) ++ z).

(** The iteration order of a map. *)
Context (iter : gmap Key DBRecord → list (Key * DBRecord)).

Record DB := mkDB {
  Version : Z;
  Records : gmap Key DBRecord;
  filename : string;
  uncompacted : Z;
  pending : option (list Z);
  dataDiscarded : bool;
  recordsNil : bool   (* Records is the nil map: a write to it panics *)
}.
Definition set_pending (db : DB) (p : option (list Z)) : DB :=
  mkDB (Version db) (Records db) (filename db) (uncompacted db) p (dataDiscarded db) (recordsNil db).
Definition set_Records (db : DB) (recs : gmap Key DBRecord) : DB :=
  mkDB (Version db) recs (filename db) (uncompacted db) (pending db) (dataDiscarded db) (recordsNil db).
Definition set_uncompacted (db : DB) (n : Z) : DB :=
  mkDB (Version db) (Records db) (filename db) n (pending db) (dataDiscarded db) (recordsNil db).
Definition set_Version (db : DB) (v : Z) : DB :=
  mkDB v (Records db) (filename db) (uncompacted db) (pending db) (dataDiscarded db) (recordsNil db).

Definition DBserialize (db : DB) (key : Key) (val : list Z) (seq : Z) : outcome DB :=
  rec ← serializeRecord key val seq;
  Ret (set_pending db (Some (default [] (pending db) ++ rec))).

Definition DBSave (db : DB) (key : Key) (val : list Z) (seq : Z) : outcome DB :=
  if decide (seq = seqDeleted) then Panic
  else
    let same := match Records db !! key with
      | Some rec => bool_decide (seq = Seq rec) && (dataDiscarded db || bool_decide (val = Val rec))
      | None => false
      end in
    if same then Ret db
    else
      db ← DBserialize db key val seq;
      let val := if dataDiscarded db then [] else val in
      if recordsNil db then Panic
      else Ret (set_uncompacted (set_Records db (<[key := mkDBRecord val seq]> (Records db))) (uncompacted db + 1)).

Definition DBDelete (db : DB) (key : Key) : outcome DB :=
  match Records db !! key with
  | None => Ret db
  | Some _ =>
      db ← DBserialize (set_Records db (delete key (Records db))) key [] seqDeleted;
      Ret (set_uncompacted db (uncompacted db + 1))
  end.

Definition DiscardData (db : DB) : DB :=
  mkDB (Version db) ((λ rec, mkDBRecord [] (Seq rec)) <$> Records db) (filename db) (uncompacted db) (pending db) true (recordsNil db).

Definition deserializeFile (name : string) (w : world Z)
    : world Z * option (Z * gmap Key DBRecord * Z * option db_error) :=
  let '(w, err) := os_OpenCreate name w in
  if (err : bool) then (w, Some (0, ∅, 0, Some SysError))
  else (w, match deserializeDB (default [] (files w !! name)) with
           | None => None
           | Some (v, recs, n, err) => Some (v, recs, n, ReadError <$> err)
           end).

Fixpoint serialize_all (l : list (Key * DBRecord)) (buf : list Z) : outcome (list Z) :=
  match l with
  | [] => Ret buf
  | (key, rec) :: l => b ← serializeRecord key (Val rec) (Seq rec); serialize_all l (buf ++ b)
  end.

(** A result is the file system, the database and the error; [None]: the
    reading ran out of fuel. *)
Definition db_result : Type := outcome (option (world Z * DB * option db_error)).
Definition DBcompact (w : world Z) (db : DB) : db_result :=
  match pending db with
  | Some _ => Panic
  | None =>
      let '(w, r) := if dataDiscarded db then deserializeFile (filename db) w
                     else (w, Some (Version db, Records db, 0, None)) in
      match r with
      | None => Ret None
      | Some (_, _, _, Some err) => Ret (Some (w, db, Some err))
      | Some (_, records, _, None) =>
          buf ← serialize_all (iter records) (serializeHeader (Version db));
          let tmp := (filename db ++ ".tmp")%string in
          let '(w, err) := and_then (os_Create tmp w) (λ w,
                           and_then (os_Write tmp buf w) (λ w,
                           Rename tmp (filename db) w)) in
          if (err : bool) then Ret (Some (w, db, Some SysError))
          else Ret (Some (w, set_uncompacted db (Z.of_nat (size records)), None))
      end
  end.

Definition Flush (w : world Z) (db : DB) : db_result :=
  match pending db with
  | None => Ret (Some (w, db, None))
  | Some buf =>
      let '(w, err) := and_then (os_OpenCreate (filename db) w) (os_Write (filename db) buf) in
      if (err : bool) then Ret (Some (w, db, Some SysError))
      else
        let db := set_pending db None in
        if decide (uncompacted db / 10 * 9 < Z.of_nat (size (Records db))) then Ret (Some (w, db, None))
        else DBcompact w db
  end.

Definition BumpVersion (w : world Z) (db : DB) (version : Z) : db_result :=
  r ← Flush w db;
  match r with
  | Some (w, db, None) => if decide (Version db = version) then Ret (Some (w, db, None)) else DBcompact w (set_Version db version)
  | r => Ret r
  end.

(** Open returns a database or nil, and an error. *)
Definition DBOpen (w : world Z) (name : string) (repair : bool)
    : outcome (option (world Z * option DB * option db_error)) :=
  let '(w, r) := deserializeFile name w in
  match r with
  | None => Ret None
  | Some (version, records, n, derr) =>
      if bool_decide (is_Some derr) && negb repair then Ret (Some (w, None, derr))
      else
        r ← DBcompact w (mkDB version records name n None false (bool_decide (derr = Some SysError)));
        match r with
        | None => Ret None
        | Some (w, db, Some err) => Ret (Some (w, None, Some err))
        | Some (w, db, None) => Ret (Some (w, Some db, derr))
        end
  end.

(** ** Whole databases *)

(** [hash.String] and [target.Deserialize]. *)
Context {P : Type} (hash_String : list Z → Key) (Deserialize : list Z → option P).

Fixpoint save_all (db : DB) (l : list (Key * DBRecord)) : outcome DB :=
  match l with
  | [] => Ret db
  | (key, rec) :: l => db ← DBSave db key (Val rec) (Seq rec); save_all db l
  end.

Definition DBCreate (w : world Z) (name : string) (version : Z) (records : list DBRecord)
    : outcome (option (world Z * option db_error)) :=
  let w := (os_Remove name w).1 in
  r ← DBOpen w name true;
  match r with
  | None => Ret None
  | Some (w, Some db, None) =>
      r ← BumpVersion w db version;
      match r with
      | None => Ret None
      | Some (w, _, Some err) => Ret (Some (w, Some err))
      | Some (w, db, None) =>
          db ← save_all db ((λ rec, (hash_String (Val rec), rec)) <$> records);
          r ← Flush w db;
          Ret (match r with None => None | Some (w, _, err) => Some (w, err) end)
      end
  | Some (w, _, err) => Ret (Some (w, err))
  end.

(** The programs in the order of their keys; an error stops the reading. *)
Definition ReadCorpus (key_less : Key → Key → bool) (w : world Z) (name : string)
    : outcome (option (world Z * option (list P))) :=
  if decide (name = ""%string) then Ret (Some (w, Some []))
  else
    r ← DBOpen w name false;
    match r with
    | None => Ret None
    | Some (w, Some db, None) =>
        let keys := sort_by key_less (iter (Records db)).*1 in
        Ret (Some (w, mapM (λ key, Deserialize (default [] (Val <$> Records db !! key))) keys))
    | Some (w, _, _) => Ret (Some (w, None))
    end.

(** The files that are not programs, or an error; without a target a file that
    is no database is an error. *)
Fixpoint merge_files (hasTarget : bool) (w : world Z) (dst : DB) (other failed : list string)
    : outcome (option (world Z * option (DB * list string))) :=
  match other with
  | [] => Ret (Some (w, Some (dst, failed)))
  | add :: other =>
      r ← DBOpen w add false;
      match r with
      | None => Ret None
      | Some (w, Some addDB, None) =>
          dst ← save_all dst (iter (Records addDB)); merge_files hasTarget w dst other failed
      | Some (w, _, _) =>
          if negb hasTarget then Ret (Some (w, None))
          else
            let '(w, err) := os_Open add w in
            if (err : bool) then Ret (Some (w, None))
            else
              let data := default [] (files w !! add) in
              let failed := match Deserialize data with Some _ => failed | None => failed ++ [add] end in
              dst ← DBSave dst (hash_String data) data 0;
              merge_files hasTarget w dst other failed
      end
  end.
Definition DBMerge (hasTarget : bool) (w : world Z) (into : string) (other : list string)
    : outcome (option (world Z * option (list string))) :=
  r ← DBOpen w into false;
  match r with
  | None => Ret None
  | Some (w, Some dst, None) =>
      r ← merge_files hasTarget w dst other [];
      match r with
      | None => Ret None
      | Some (w, None) => Ret (Some (w, None))
      | Some (w, Some (dst, failed)) =>
          r ← Flush w dst;
          Ret (match r with
               | None => None
               | Some (w, _, None) => Some (w, Some failed)
               | Some (w, _, Some _) => Some (w, None)
               end)
      end
  | Some (w, _, _) => Ret (Some (w, None))
  end.
End db.
