(* ===== verification/CorpusDBProps.v ===== *)
(** * Properties of the corpus database

    The file is a header followed by a log; its meaning is the map obtained by
    replaying the log.  What is written is read back, also when the file is
    cut anywhere; the operations keep the file, the pending writes and the
    cached records in agreement with an abstract map. *)

From S2P Require Import Prelude Bits Files CorpusDB.

(** ** Reading back integers and bytes *)

(** A reader takes exactly the bytes [l]: it returns [a] and leaves the rest,
    and it fails on every proper prefix. *)
Record exact {A} (m : reader A) (l : list Z) (a : A) : Prop := {
  exact_app r : m (l ++ r) = inr (a, r);
  exact_cut k : (k < length l)%nat → ∃ e, m (take k l) = inl e
}.

Lemma exact_ret {A} (a : A) : exact (mret a) [] a.
Proof. split; [done|]. cbn. lia. Qed.
Lemma exact_bind {A B} (m : reader A) (f : A → reader B) l1 l2 a b :
  exact m l1 a → exact (f a) l2 b → exact (m ≫= f) (l1 ++ l2) b.
Proof.
  intros [Hm Hmc] [Hf Hfc]. unfold mbind, reader_bind. split.
  - intros r. by rewrite <-app_assoc, Hm, Hf.
  - intros k Hk. rewrite length_app in Hk. destruct (decide (k < length l1)%nat) as [Hlt|Hge].
    + rewrite take_app_le by lia. destruct (Hmc k Hlt) as [e ->]. eauto.
    + rewrite take_app_ge, Hm by lia. apply Hfc. lia.
Qed.
Lemma exact_ReadFull n l : length l = n → exact (ReadFull n) l l.
Proof.
  intros <-. split.
  - intros r. unfold ReadFull. case_decide as H0; [by apply nil_length_inv in H0 as ->|].
    rewrite decide_False by (destruct l; done). rewrite decide_False by (rewrite length_app; lia).
    by rewrite take_app_length, drop_app_length.
  - intros k Hk. unfold ReadFull. rewrite decide_False by lia. case_decide; [eauto|].
    rewrite decide_True by (rewrite length_take; lia). eauto.
Qed.
Lemma exact_read_uint n x : 0 ≤ x < 256 ^ Z.of_nat n → exact (read_uint n) (le_bytes n x) x.
Proof.
  intros Hx. rewrite <-(app_nil_r (le_bytes n x)). eapply exact_bind; [apply exact_ReadFull, length_le_bytes|].
  rewrite le_value_bytes, Z.mod_small by done. apply exact_ret.
Qed.

Section log.
Context `{!Flate}.

(** ** Records *)

(** An entry of the log; a deletion has no value. *)
Definition entry : Type := Key * list Z * Z.
Definition entry_ok (o : entry) : Prop :=
  let '(key, val, seq) := o in
  len key < 2 ^ 32 ∧ (val ≠ [] → len (deflate val) < 2 ^ 32) ∧ in_u64 seq ∧ (seq = seqDeleted → val = []).
Definition entry_bytes (o : entry) : list Z :=
  let '(key, val, seq) := o in
  match serializeRecord key val seq with Ret b => b | Panic => [] end.
Definition entry_head (key : Key) (seq : Z) : list Z :=
  le_bytes 4 recMagic ++ le_bytes 4 (len key) ++ key ++ le_bytes 8 seq.
(** The part after the sequence number. *)
Definition entry_tail (o : entry) : list Z :=
  let '(key, val, seq) := o in
  if decide (seq = seqDeleted) then []
  else if decide (val = []) then le_bytes 4 0 else le_bytes 4 (len (deflate val)) ++ deflate val.

Lemma u32_len {A} (l : list A) : len l < 2 ^ 32 → u32 (len l) = len l.
Proof. intros. unfold u32. apply Z.mod_small. unfold len in *. lia. Qed.
Lemma len_nil_iff {A} (l : list A) : len l = 0 ↔ l = [].
Proof. unfold len. destruct l; simpl; naive_solver lia. Qed.

Lemma serializeRecord_ok key val seq :
  entry_ok (key, val, seq) →
  serializeRecord key val seq = Ret (entry_bytes (key, val, seq)) ∧
  entry_bytes (key, val, seq) = entry_head key seq ++ entry_tail (key, val, seq).
Proof.
  intros (Hk & Hz & _ & Hd). unfold entry_bytes, serializeRecord, entry_tail, entry_head. rewrite (u32_len key) by done.
  destruct (decide (seq = seqDeleted)) as [E|E].
  - rewrite (Hd E). rewrite decide_False by (intros Hx; by apply Hx). by rewrite app_nil_r.
  - destruct (decide (val = [])) as [->|Hv].
    + rewrite decide_True by done. done.
    + rewrite decide_False by (by rewrite len_nil_iff). rewrite (u32_len (deflate val)) by auto. done.
Qed.

Lemma deflate_nonempty v : deflate v ≠ [].
Proof.
  intros E. pose proof (inflate_deflate v) as H1. rewrite E in H1. pose proof (inflate_deflate (0 :: v)) as H2.
  destruct (deflate (0 :: v)) as [|z l] eqn:E2.
  - rewrite H1 in H2. apply (f_equal (λ o, fst <$> o)) in H2. cbn in H2. injection H2 as H2.
    apply (f_equal length) in H2. cbn in H2. lia.
  - pose proof (inflate_truncated (0 :: v) 0) as H3. rewrite E2 in H3. cbn in H3. rewrite H1 in H3. discriminate H3. lia.
Qed.

Lemma exact_read_value v : exact (read_value (len (deflate v))) (deflate v) v.
Proof.
  unfold read_value, len. rewrite Nat2Z.id. split.
  - intros r. by rewrite take_app_length, inflate_deflate, drop_app_length.
  - intros k Hk. rewrite take_take, Nat.min_r, inflate_truncated by lia. eauto.
Qed.

(** A record is read back, whatever follows it, and not from less. *)
Lemma exact_record o : entry_ok o → exact deserializeRecord (entry_bytes o) o.
Proof.
  destruct o as [[key val] seq]. intros Hok. destruct (serializeRecord_ok key val seq Hok) as [_ ->].
  destruct Hok as (Hk & Hz & Hs & Hd). unfold entry_head, entry_tail, deserializeRecord. rewrite <-!app_assoc.
  eapply exact_bind; [by apply exact_read_uint|]. rewrite decide_False by tauto.
  eapply exact_bind; [apply exact_read_uint; change (256 ^ Z.of_nat 4) with (2 ^ 32); unfold len in *; lia|].
  eapply exact_bind; [apply exact_ReadFull; unfold len; lia|].
  eapply exact_bind; [apply exact_read_uint; exact Hs|].
  destruct (decide (seq = seqDeleted)) as [E|E]; [rewrite (Hd E); apply exact_ret|].
  destruct (decide (val = [])) as [->|Hv].
  - rewrite <-(app_nil_r (le_bytes 4 0)). eapply exact_bind; [by apply exact_read_uint|]. rewrite decide_False by tauto.
    apply exact_ret.
  - specialize (Hz Hv).
    eapply exact_bind; [apply exact_read_uint; change (256 ^ Z.of_nat 4) with (2 ^ 32); unfold len in *; lia|].
    rewrite decide_True by (rewrite len_nil_iff; apply deflate_nonempty). rewrite <-(app_nil_r (deflate val)) at 2.
    eapply exact_bind; [apply exact_read_value|]. apply exact_ret.
Qed.

Lemma header_magic_eq r : header_magic r =
  match read_uint 4 r with inl EOF => inr (None, r) | inl e => inl e | inr (m, r) => inr (Some m, r) end.
Proof. done. Qed.
Lemma read_header version r : in_u64 version → deserializeHeader (serializeHeader version ++ r) = inr (version, r).
Proof.
  intros Hv. unfold serializeHeader, deserializeHeader. rewrite <-!app_assoc. unfold mbind at 1, reader_bind at 1.
  rewrite header_magic_eq, (exact_app _ _ _ (exact_read_uint 4 dbMagic ltac:(done))). rewrite decide_False by tauto.
  unfold mbind, reader_bind. rewrite (exact_app _ _ _ (exact_read_uint 4 curVersion ltac:(done))).
  rewrite decide_False by (vm_compute; naive_solver). rewrite decide_True by done.
  apply (exact_app _ _ _ (exact_read_uint 8 version Hv)).
Qed.

(** ** Logs *)

Definition log_bytes (ops : list entry) : list Z := concat (entry_bytes <$> ops).
Definition replay (m : gmap Key DBRecord) (ops : list entry) : gmap Key DBRecord := foldl apply_record m ops.

Lemma log_bytes_app l1 l2 : log_bytes (l1 ++ l2) = log_bytes l1 ++ log_bytes l2.
Proof. unfold log_bytes. by rewrite fmap_app, concat_app. Qed.
Lemma entry_bytes_pos o : entry_ok o → (0 < length (entry_bytes o))%nat.
Proof.
  destruct o as [[key val] seq]. intros Hok. destruct (serializeRecord_ok key val seq Hok) as [_ ->].
  unfold entry_head. rewrite !length_app, length_le_bytes. lia.
Qed.
Lemma length_log ops : Forall entry_ok ops → (length ops ≤ length (log_bytes ops))%nat.
Proof.
  induction 1 as [|o ops Ho _ IH]; [done|]. unfold log_bytes. cbn. rewrite length_app.
  pose proof (entry_bytes_pos o Ho). unfold log_bytes in IH. lia.
Qed.

(** Reading a log and then [rest], which holds no further whole record. *)
Lemma read_records_log ops rest fuel m n e :
  Forall entry_ok ops → (length ops < fuel)%nat → deserializeRecord rest = inl e →
  read_records fuel (log_bytes ops ++ rest) m n
  = Some (replay m ops, n + len ops, if decide (e = EOF) then None else Some e).
Proof.
  intros Hok. revert fuel m n. induction Hok as [|o ops Ho Hok IH]; intros fuel m n Hf He.
  - destruct fuel as [|fuel]; [cbn in Hf; lia|]. cbn [log_bytes concat fmap list_fmap app read_records]. rewrite He.
    rewrite Z.add_0_r. by destruct e.
  - destruct fuel as [|fuel]; [lia|]. unfold log_bytes. cbn [fmap list_fmap concat]. rewrite <-app_assoc.
    cbn [read_records]. rewrite (exact_app _ _ _ (exact_record o Ho)). fold (log_bytes ops).
    rewrite IH by (cbn in Hf; lia || done). do 2 f_equal. f_equal. unfold len. cbn [length]. lia.
Qed.

Lemma deserialize_nil : deserializeRecord [] = inl EOF.
Proof. done. Qed.

(** Where a cut falls in a log. *)
Lemma log_cut ops k :
  Forall entry_ok ops → (k ≤ length (log_bytes ops))%nat →
  ∃ j rest e, (j ≤ length ops)%nat ∧ take k (log_bytes ops) = log_bytes (take j ops) ++ rest ∧ deserializeRecord rest = inl e
    ∧ (length (log_bytes (take j ops)) ≤ k)%nat
    ∧ ((j < length ops)%nat → (k < length (log_bytes (take (S j) ops)))%nat).
Proof.
  intros Hok. revert k. induction Hok as [|o ops Ho Hok IH]; intros k Hk.
  { exists 0%nat, [], EOF. cbn in *. assert (k = 0%nat) as -> by lia. done. }
  unfold log_bytes in *. cbn [fmap list_fmap concat] in *. rewrite length_app in Hk.
  destruct (decide (k < length (entry_bytes o))%nat) as [Hlt|Hge].
  - destruct (exact_cut _ _ _ (exact_record o Ho) k Hlt) as [e He]. exists 0%nat, (take k (entry_bytes o)), e.
    split_and!; [lia|by rewrite take_app_le by lia|done|cbn; lia|]. intros _. cbn [take fmap list_fmap concat].
    rewrite length_app. lia.
  - destruct (IH (k - length (entry_bytes o))%nat) as (j & rest & e & Hj & E & He & H1 & H2); [lia|].
    exists (S j), rest, e. cbn [take fmap list_fmap concat length]. rewrite take_app_ge by lia.
    rewrite E, app_assoc, !length_app. split_and!; [lia|done|done|lia|]. intros Hjl. specialize (H2 ltac:(lia)).
    destruct ops as [|o2 ops]; [cbn in *; lia|]. cbn [take fmap list_fmap concat] in H2 |- *. rewrite !length_app in *. lia.
Qed.
End log.

(** Cuts behind the header. *)
Lemma cut_behind_header `{!Flate} (version : Z) (ops : list entry) (k : nat)
    (Hv : in_u64 version) (Hok : Forall entry_ok ops) (Hk : (k ≤ length (log_bytes ops))%nat) :
  ∃ j err, (j ≤ length ops)%nat
  ∧ deserializeDB (serializeHeader version ++ take k (log_bytes ops))
    = Some (version, replay ∅ (take j ops), Z.of_nat j, err)
  ∧ (length (log_bytes (take j ops)) ≤ k)%nat
  ∧ ((j < length ops)%nat → (k < length (log_bytes (take (S j) ops)))%nat)
  ∧ (k = length (log_bytes ops) → j = length ops ∧ err = None).
Proof.
  destruct (log_cut ops k Hok Hk) as (j & rest & e & Hj & E & He & H1 & H2).
  exists j, (if decide (e = EOF) then None else Some e). unfold deserializeDB. rewrite read_header by done. rewrite E.
  rewrite (read_records_log (take j ops) rest _ ∅ 0 e); [|by apply Forall_take| |done].
  2: { pose proof (length_log (take j ops) (Forall_take _ j _ Hok)). rewrite length_app. lia. }
  split_and!; [done| |done|done|].
  - do 2 f_equal. f_equal. unfold len. rewrite length_take. lia.
  - intros ->. assert (Hjl : j = length ops).
    { destruct (decide (j = length ops)); [done|]. specialize (H2 ltac:(lia)).
      rewrite <-(take_drop (S j) ops), log_bytes_app, length_app in H2 at 1. lia. }
    split; [done|]. rewrite Hjl, firstn_all, firstn_all in E.
    assert (rest = []) as ->.
    { apply (f_equal length) in E. rewrite length_app in E. apply nil_length_inv. lia. }
    rewrite deserialize_nil in He. by simplify_eq.
Qed.

(** A cut within the header, also behind its first field. *)
Lemma cut_header_error `{!Flate} version k : in_u64 version → (0 < k < length (serializeHeader version))%nat → ∃ e, deserializeHeader (take k (serializeHeader version)) = inl e.
Proof.
  intros Hv [H0 Hk]. unfold serializeHeader in *. rewrite !length_app, !length_le_bytes in Hk. unfold deserializeHeader, mbind at 1, reader_bind at 1. rewrite header_magic_eq.
  destruct (decide (k < 4)%nat) as [H4|H4].
  - rewrite take_app_le by (rewrite length_le_bytes; lia). destruct k as [|[|[|[|k]]]]; try lia; by eexists.
  - rewrite take_app_ge by (rewrite length_le_bytes; lia). rewrite (exact_app _ _ _ (exact_read_uint 4 dbMagic ltac:(done))). rewrite decide_False by tauto. rewrite length_le_bytes.
    assert (He : exact (ver ← read_uint 4; if decide (ver = 0 ∨ curVersion < ver) then read_fail BadData else if decide (2 ≤ ver) then read_uint 8 else mret 0)
      (le_bytes 4 curVersion ++ le_bytes 8 version) version).
    { eapply exact_bind; [by apply exact_read_uint|]. rewrite decide_False by (vm_compute; naive_solver). rewrite decide_True by done. by apply exact_read_uint. }
    apply (exact_cut _ _ _ He). rewrite length_app, !length_le_bytes. lia.
Qed.


(** ** Operations and the abstract map *)

Section refine.
Context `{!Flate} (iter : gmap Key DBRecord → list (Key * DBRecord)).
Hypothesis Hiter : ∀ m, iter m ≡ₚ map_to_list m.

Definition record_ok (key : Key) (rec : DBRecord) : Prop :=
  entry_ok (key, Val rec, Seq rec) ∧ Seq rec ≠ seqDeleted.
Definition entries (l : list (Key * DBRecord)) : list entry := (λ kr, (kr.1, Val kr.2, Seq kr.2)) <$> l.
Definition strip (rec : DBRecord) : DBRecord := mkDBRecord [] (Seq rec).

Lemma replay_app m l1 l2 : replay m (l1 ++ l2) = replay (replay m l1) l2.
Proof. apply foldl_app. Qed.
Lemma replay_record_ok m ops :
  map_Forall record_ok m → Forall entry_ok ops → map_Forall record_ok (replay m ops).
Proof.
  intros Hm Hops. revert m Hm. induction Hops as [|[[k v] s] ops Ho _ IH]; intros m Hm; [done|]. cbn [replay foldl].
  apply IH. unfold apply_record. case_decide; [by apply map_Forall_delete|]. by apply map_Forall_insert_2.
Qed.
Lemma replay_entries (l : list (Key * DBRecord)) m :
  NoDup l.*1 → Forall (λ kr, Seq kr.2 ≠ seqDeleted) l → replay m (entries l) = list_to_map l ∪ m.
Proof.
  revert m. induction l as [|[k r] l IH]; intros m Hnd Hok; [by rewrite list_to_map_nil, (left_id_L ∅ (∪))|].
  rewrite fmap_cons in Hnd. apply NoDup_cons in Hnd as [Hk Hnd]. apply Forall_cons in Hok as [Hr Hok].
  cbn [entries fmap list_fmap replay foldl fst snd]. fold (entries l) (replay (apply_record m (k, Val r, Seq r)) (entries l)).
  rewrite IH by done. unfold apply_record. cbn [snd] in Hr. rewrite decide_False by done. rewrite list_to_map_cons.
  replace (mkDBRecord (Val r) (Seq r)) with r by (by destruct r).
  rewrite <-insert_union_r by (by apply not_elem_of_list_to_map_1). by rewrite insert_union_l.
Qed.
Lemma replay_iter m : map_Forall record_ok m → replay ∅ (entries (iter m)) = m ∧ Forall entry_ok (entries (iter m)).
Proof.
  intros Hm. assert (Hin : ∀ k r, (k, r) ∈ iter m → record_ok k r).
  { intros k r. rewrite Hiter, elem_of_map_to_list. apply Hm. }
  assert (Hnd : NoDup (iter m).*1) by (rewrite Hiter; apply NoDup_fst_map_to_list). split.
  - rewrite replay_entries, (right_id_L ∅ (∪)); [|done|apply Forall_forall; intros [k r] Hkr; by apply (Hin k r)].
    rewrite <-(list_to_map_to_list m) at 2. by apply list_to_map_proper.
  - apply Forall_fmap, Forall_forall. intros [k r] Hkr. by apply (Hin k r).
Qed.

Lemma serialize_all_ok (l : list (Key * DBRecord)) buf :
  Forall entry_ok (entries l) → serialize_all l buf = Ret (buf ++ log_bytes (entries l)).
Proof.
  revert buf. induction l as [|[k r] l IH]; intros buf Hok; [by rewrite app_nil_r|].
  apply Forall_cons in Hok as [Ho Hok]. cbn [serialize_all]. destruct (serializeRecord_ok k (Val r) (Seq r) Ho) as [-> _].
  cbn [mbind outcome_bind]. rewrite IH by done. unfold log_bytes. cbn. by rewrite <-app_assoc.
Qed.

(** The file as a log. *)
Definition file_log (w : world Z) (name : string) (version : Z) (ops : list entry) : Prop :=
  files w !! name = Some (serializeHeader version ++ log_bytes ops) ∧ in_u64 version ∧ Forall entry_ok ops.

Lemma deserialize_log version ops :
  in_u64 version → Forall entry_ok ops →
  deserializeDB (serializeHeader version ++ log_bytes ops) = Some (version, replay ∅ ops, len ops, None).
Proof.
  intros Hv Hok. unfold deserializeDB. rewrite read_header by done.
  rewrite <-(app_nil_r (log_bytes ops)), (read_records_log ops [] _ ∅ 0 EOF); [done|done| |done].
  pose proof (length_log ops Hok). rewrite length_app. lia.
Qed.
Lemma deserializeFile_log w name version ops :
  healthy w → file_log w name version ops →
  ∃ w', deserializeFile name w = (w', Some (version, replay ∅ ops, len ops, None)) ∧ healthy w' ∧ files w' = files w.
Proof.
  intros Hh (Hf & Hv & Hok). unfold deserializeFile. destruct (os_OpenCreate_healthy name w Hh) as (w' & -> & Hh' & Hf').
  exists w'. rewrite Hf', lookup_insert_eq, Hf. cbn [from_option id]. rewrite deserialize_log by done.
  split_and!; [done|done|]. by apply insert_id.
Qed.

(** What compaction may start from: the records in memory, or on disk. *)
Definition compactable (w : world Z) (db : DB) (M : gmap Key DBRecord) : Prop :=
  pending db = None ∧ in_u64 (Version db) ∧ map_Forall record_ok M ∧
  if dataDiscarded db then ∃ v0 ops, file_log w (filename db) v0 ops ∧ replay ∅ ops = M else Records db = M.

Lemma compact_ok w db M :
  healthy w → compactable w db M →
  ∃ w', DBcompact iter w db = Ret (Some (w', set_uncompacted db (Z.of_nat (size M)), None)) ∧ healthy w'
    ∧ file_log w' (filename db) (Version db) (entries (iter M)) ∧ replay ∅ (entries (iter M)) = M.
Proof.
  intros Hh (Hp & Hv & HM & Hrec). destruct (replay_iter M HM) as [Hre Hok]. unfold DBcompact. rewrite Hp.
  assert (Hread : ∃ w1 v n, (if dataDiscarded db then deserializeFile (filename db) w
    else (w, Some (Version db, Records db, 0, None))) = (w1, Some (v, M, n, None)) ∧ healthy w1).
  { destruct (dataDiscarded db); [|rewrite Hrec; eauto 10].
    destruct Hrec as (v0 & ops & Hlog & <-). destruct (deserializeFile_log w _ v0 ops Hh Hlog) as (w1 & -> & Hh1 & _). eauto 10. }
  destruct Hread as (w1 & v & n & -> & Hh1). rewrite serialize_all_ok by done. cbn [mbind outcome_bind].
  set (tmp := (filename db ++ ".tmp")%string). set (buf := _ ++ log_bytes _).
  destruct (os_Create_healthy tmp w1 Hh1) as (w2 & -> & Hh2 & Hf2). rewrite and_then_ok.
  destruct (os_Write_healthy tmp buf w2 Hh2) as (w3 & -> & Hh3 & Hf3). rewrite and_then_ok.
  destruct (Rename_healthy tmp (filename db) w3 buf Hh3) as (w4 & -> & Hh4 & Hf4).
  { by rewrite Hf3, Hf2, !lookup_insert_eq. }
  exists w4. split_and!; [done|done| |done]. split; [by rewrite Hf4, lookup_insert_eq|done].
Qed.

(** The database [db] over the files [w] stands for the map [M]. *)
Definition represents (w : world Z) (db : DB) (M : gmap Key DBRecord) : Prop :=
  ∃ fops pops, file_log w (filename db) (Version db) fops ∧ Forall entry_ok pops
    ∧ pending db = (if decide (pops = []) then None else Some (log_bytes pops))
    ∧ replay ∅ (fops ++ pops) = M
    ∧ Records db = (if dataDiscarded db then strip <$> M else M)
    ∧ uncompacted db = len fops + len pops ∧ recordsNil db = false.

Lemma represents_ok w db M : represents w db M → map_Forall record_ok M.
Proof.
  intros (fops & pops & (_ & _ & H1) & H2 & _ & <- & _). apply replay_record_ok; [apply map_Forall_empty|].
  by apply Forall_app.
Qed.
Lemma represents_compactable w db M : represents w db M → pending db = None → compactable w db M.
Proof.
  intros Hr Hp. pose proof (represents_ok _ _ _ Hr) as HM. destruct Hr as (fops & pops & Hlog & H2 & H3 & H4 & H5 & _).
  split_and!; [done|apply Hlog|done|]. destruct (dataDiscarded db); [|done].
  rewrite Hp in H3. case_decide as E; [|done]. subst pops. rewrite app_nil_r in H4. by exists (Version db), fops.
Qed.
(** A freshly compacted database. *)
Lemma compacted_represents w db M :
  file_log w (filename db) (Version db) (entries (iter M)) → replay ∅ (entries (iter M)) = M → pending db = None →
  Records db = (if dataDiscarded db then strip <$> M else M) → recordsNil db = false →
  represents w (set_uncompacted db (Z.of_nat (size M))) M.
Proof.
  intros Hlog Hre Hp Hrec Hn. exists (entries (iter M)), []. split_and!; [done|done|done|by rewrite app_nil_r|done| |done].
  cbn. unfold len. unfold entries. rewrite length_fmap. cbn. rewrite (Permutation_length (Hiter M)), length_map_to_list. lia.
Qed.

(** *** The abstract operations *)

Inductive db_op := OpPut (key : Key) (val : list Z) (seq : Z) | OpRemove (key : Key) | OpDiscard | OpFlush
  | OpBump (version : Z).
Definition op_valid (o : db_op) : Prop :=
  match o with
  | OpPut key val seq => entry_ok (key, val, seq) ∧ seq ≠ seqDeleted
  | OpBump version => in_u64 version
  | _ => True
  end.
Definition db_step (w : world Z) (db : DB) (o : db_op) : db_result :=
  match o with
  | OpPut key val seq => db ← DBSave db key val seq; Ret (Some (w, db, None))
  | OpRemove key => db ← DBDelete db key; Ret (Some (w, db, None))
  | OpDiscard => Ret (Some (w, DiscardData db, None))
  | OpFlush => Flush iter w db
  | OpBump version => BumpVersion iter w db version
  end.
Fixpoint db_run (w : world Z) (db : DB) (ops : list db_op) : db_result :=
  match ops with
  | [] => Ret (Some (w, db, None))
  | o :: ops =>
      r ← db_step w db o;
      match r with Some (w, db, None) => db_run w db ops | r => Ret r end
  end.

(** Version, whether values were discarded, and the map. *)
Definition abs_state : Type := Z * bool * gmap Key DBRecord.
Definition abs_step (s : abs_state) (o : db_op) : abs_state :=
  let '(v, d, M) := s in
  match o with
  | OpPut key val seq =>
      if d && bool_decide (Seq <$> M !! key = Some seq) then s else (v, d, <[key := mkDBRecord val seq]> M)
  | OpRemove key => (v, d, delete key M)
  | OpDiscard => (v, true, M)
  | OpFlush => s
  | OpBump version => (version, d, M)
  end.
Definition abs_of (db : DB) (M : gmap Key DBRecord) : abs_state := (Version db, dataDiscarded db, M).

(** The database after an operation and the map it stands for. *)
Definition simulates (w : world Z) (db : DB) (name : string) (s : abs_state) : Prop :=
  filename db = name ∧ ∃ M, s = abs_of db M ∧ represents w db M.

Lemma lookup_records (db : DB) (M : gmap Key DBRecord) key :
  Records db = (if dataDiscarded db then strip <$> M else M) →
  Records db !! key = (if dataDiscarded db then strip <$> M !! key else M !! key).
Proof. intros ->. destruct (dataDiscarded db); [apply lookup_fmap|done]. Qed.

(** Appending an entry to the pending writes. *)
Lemma log_bytes_snoc ops o : log_bytes (ops ++ [o]) = log_bytes ops ++ entry_bytes o.
Proof. rewrite log_bytes_app. unfold log_bytes at 2. cbn. by rewrite app_nil_r. Qed.
Lemma pending_snoc (pops : list entry) o :
  Some (default [] (if decide (pops = []) then None else Some (log_bytes pops)) ++ entry_bytes o)
  = (if decide (pops ++ [o] = []) then None else Some (log_bytes (pops ++ [o]))).
Proof.
  rewrite log_bytes_snoc, (decide_False (P := pops ++ [o] = [])) by (by destruct pops).
  case_decide as E; [by rewrite E|done].
Qed.

Lemma save_sim w db M key val seq :
  represents w db M → entry_ok (key, val, seq) → seq ≠ seqDeleted →
  ∃ db', DBSave db key val seq = Ret db' ∧ simulates w db' (filename db) (abs_step (abs_of db M) (OpPut key val seq)).
Proof.
  intros (fops & pops & Hlog & Hpok & Hpend & Hre & Hrec & Hun & Hnil) Hok Hs. unfold DBSave. rewrite decide_False by done.
  rewrite (lookup_records _ _ key Hrec). set (same := match _ with Some _ => _ | None => _ end).
  assert (Hsame : same = true → dataDiscarded db && bool_decide (Seq <$> M !! key = Some seq) = true ∨
    dataDiscarded db = false ∧ M !! key = Some (mkDBRecord val seq)).
  { unfold same. destruct (dataDiscarded db), (M !! key) as [[v0 s0]|]; cbn; try done; intros Hb.
    - left. apply andb_true_iff in Hb as [Hb _]. apply bool_decide_eq_true in Hb as ->. by apply bool_decide_eq_true.
    - right. apply andb_true_iff in Hb as [Hb1 Hb2]. apply bool_decide_eq_true in Hb1 as ->.
      apply bool_decide_eq_true in Hb2 as ->. done. }
  assert (Hdiff : same = false → dataDiscarded db && bool_decide (Seq <$> M !! key = Some seq) = false).
  { unfold same. destruct (dataDiscarded db), (M !! key) as [[v0 s0]|]; cbn; try done. rewrite andb_true_r.
    intros Hb. apply bool_decide_eq_false in Hb. apply bool_decide_eq_false. congruence. }
  assert (Hrep : represents w db M) by (by exists fops, pops).
  destruct same.
  - exists db. split; [done|]. split; [done|]. exists M. split; [|done]. unfold abs_step, abs_of.
    destruct (Hsame eq_refl) as [->|[Hd HM]]; [done|]. rewrite Hd. cbn. by rewrite insert_id.
  - unfold DBserialize. destruct (serializeRecord_ok key val seq Hok) as [-> _]. cbn [mbind outcome_bind].
    cbn [recordsNil set_pending]. rewrite Hnil. eexists. split; [done|]. split; [done|].
    exists (<[key := mkDBRecord val seq]> M). unfold abs_step, abs_of. rewrite Hdiff by done. split; [done|].
    exists fops, (pops ++ [(key, val, seq)]). cbn. split_and!; [done| | | | | |done].
    + apply Forall_snoc. done.
    + rewrite Hpend. exact (pending_snoc pops (key, val, seq)).
    + rewrite app_assoc, replay_app, Hre. cbn. by rewrite decide_False.
    + rewrite Hrec. destruct (dataDiscarded db); [by rewrite fmap_insert|done].
    + rewrite Hun. unfold len. rewrite length_app. cbn. lia.
Qed.

Lemma delete_sim w db M key :
  represents w db M →
  ∃ db', DBDelete db key = Ret db' ∧ simulates w db' (filename db) (abs_step (abs_of db M) (OpRemove key)).
Proof.
  intros Hrep. pose proof (represents_ok _ _ _ Hrep) as HM.
  destruct Hrep as (fops & pops & Hlog & Hpok & Hpend & Hre & Hrec & Hun & Hnil). unfold DBDelete.
  rewrite (lookup_records _ _ key Hrec). destruct (M !! key) as [r|] eqn:E; cycle 1.
  { assert (Hn : (if dataDiscarded db then strip <$> None else None) = @None DBRecord) by (by destruct (dataDiscarded db)).
    rewrite Hn. exists db. split; [done|]. split; [done|]. exists M. split; [|by exists fops, pops].
    cbn. by rewrite delete_id. }
  assert (Hs : ∃ r', (if dataDiscarded db then strip <$> Some r else Some r) = Some r') by (destruct (dataDiscarded db); cbn; eauto).
  destruct Hs as [r' ->]. destruct (HM _ _ E) as [(Hk & _) _].
  assert (Hok : entry_ok (key, [], seqDeleted)) by (split_and!; done).
  unfold DBserialize. destruct (serializeRecord_ok key [] seqDeleted Hok) as [-> _]. cbn [mbind outcome_bind].
  eexists. split; [done|]. split; [done|]. exists (delete key M). split; [done|].
  exists fops, (pops ++ [(key, [], seqDeleted)]). cbn. split_and!; [done| | | | | |done].
  + apply Forall_snoc. done.
  + rewrite Hpend. exact (pending_snoc pops (key, [], seqDeleted)).
  + rewrite app_assoc, replay_app, Hre. done.
  + rewrite Hrec. destruct (dataDiscarded db); [by rewrite fmap_delete|done].
  + rewrite Hun. unfold len. rewrite length_app. cbn. lia.
Qed.

Lemma discard_sim w db M :
  represents w db M → simulates w (DiscardData db) (filename db) (abs_step (abs_of db M) OpDiscard).
Proof.
  intros (fops & pops & Hlog & Hpok & Hpend & Hre & Hrec & Hun & Hnil). split; [done|]. exists M. split; [done|].
  exists fops, pops. split_and!; [done..| |done|done]. cbn. rewrite Hrec. destruct (dataDiscarded db); [|done].
  rewrite <-map_fmap_compose. by apply map_fmap_ext.
Qed.

Lemma compact_sim w db M :
  healthy w → represents w db M → pending db = None →
  ∃ w', DBcompact iter w db = Ret (Some (w', set_uncompacted db (Z.of_nat (size M)), None)) ∧ healthy w'
    ∧ represents w' (set_uncompacted db (Z.of_nat (size M))) M.
Proof.
  intros Hh Hr Hp. destruct (compact_ok w db M Hh (represents_compactable _ _ _ Hr Hp)) as (w' & E & Hh' & Hlog & Hre).
  exists w'. split_and!; [done|done|]. destruct Hr as (fops & pops & _ & _ & _ & _ & Hrec & _ & Hnil).
  by apply compacted_represents.
Qed.

Lemma flush_sim w db M :
  healthy w → represents w db M →
  ∃ w' db', Flush iter w db = Ret (Some (w', db', None)) ∧ healthy w' ∧ represents w' db' M ∧ pending db' = None
    ∧ abs_of db' M = abs_of db M ∧ filename db' = filename db.
Proof.
  intros Hh Hrep. pose proof Hrep as (fops & pops & Hlog & Hpok & Hpend & Hre & Hrec & Hun & Hnil). unfold Flush.
  destruct (decide (pops = [])) as [->|Hne]; rewrite Hpend; [by exists w, db|].
  destruct (os_OpenCreate_healthy (filename db) w Hh) as (w1 & -> & Hh1 & Hf1). rewrite and_then_ok.
  destruct (os_Write_healthy (filename db) (log_bytes pops) w1 Hh1) as (w2 & -> & Hh2 & Hf2).
  assert (Hrep2 : represents w2 (set_pending db None) M).
  { exists (fops ++ pops), []. destruct Hlog as (Hf & Hv & Hfok). split_and!; [split_and!|done|done|by rewrite app_nil_r|done| |done].
    - cbn [filename Version set_pending]. rewrite Hf2, lookup_insert_eq, Hf1, lookup_insert_eq, Hf. cbn [from_option id].
      by rewrite log_bytes_app, app_assoc.
    - done.
    - by apply Forall_app.
    - cbn. rewrite Hun. unfold len. rewrite length_app. cbn. lia. }
  case_decide; [by eexists w2, _|].
  destruct (compact_sim w2 (set_pending db None) M Hh2 Hrep2 eq_refl) as (w3 & E & Hh3 & Hrep3). rewrite E.
  by eexists w3, _.
Qed.

Lemma bump_sim w db M version :
  healthy w → represents w db M → in_u64 version →
  ∃ w' db', BumpVersion iter w db version = Ret (Some (w', db', None)) ∧ healthy w'
    ∧ simulates w' db' (filename db) (abs_step (abs_of db M) (OpBump version)).
Proof.
  intros Hh Hrep Hv. destruct (flush_sim w db M Hh Hrep) as (w1 & db1 & E & Hh1 & Hrep1 & Hp1 & Habs & Hname).
  unfold BumpVersion. rewrite E. cbn [mbind outcome_bind]. unfold abs_of in *. injection Habs as Hver Hdis.
  case_decide as Ev.
  { exists w1, db1. split_and!; [done|done|]. split; [done|]. exists M. split; [|done]. cbn. unfold abs_of. by rewrite Ev, Hdis. }
  pose proof (represents_compactable _ _ _ Hrep1 Hp1) as (C1 & C2 & C3 & C4).
  destruct (compact_ok w1 (set_Version db1 version) M Hh1) as (w2 & E2 & Hh2 & Hlog & Hre); [by split_and!|].
  rewrite E2. exists w2. eexists. split_and!; [done|done|]. split; [done|]. exists M. split; [cbn; unfold abs_of; cbn; by rewrite Hdis|].
  destruct Hrep1 as (fops & pops & _ & _ & _ & _ & Hrec & _ & Hnil).
  apply (compacted_represents w2 (set_Version db1 version)); done.
Qed.

Lemma step_sim w db M o :
  healthy w → represents w db M → op_valid o →
  ∃ w' db', db_step w db o = Ret (Some (w', db', None)) ∧ healthy w' ∧ simulates w' db' (filename db) (abs_step (abs_of db M) o).
Proof.
  intros Hh Hrep Hv. destruct o as [key val seq|key| | |version]; cbn [db_step].
  - destruct Hv as [Hok Hs]. destruct (save_sim w db M key val seq Hrep Hok Hs) as (db' & -> & H1). cbn [mbind outcome_bind].
    by exists w, db'.
  - destruct (delete_sim w db M key Hrep) as (db' & -> & H1). cbn [mbind outcome_bind]. by exists w, db'.
  - exists w, (DiscardData db). split_and!; [done|done|]. by apply discard_sim.
  - destruct (flush_sim w db M Hh Hrep) as (w' & db' & E & Hh' & Hrep' & _ & Habs & Hname). exists w', db'.
    split_and!; [done|done|]. split; [done|]. exists M. by rewrite Habs.
  - by apply bump_sim.
Qed.

Lemma run_sim ops w db M :
  healthy w → represents w db M → Forall op_valid ops →
  ∃ w' db', db_run w db ops = Ret (Some (w', db', None)) ∧ healthy w'
    ∧ simulates w' db' (filename db) (foldl abs_step (abs_of db M) ops).
Proof.
  intros Hh Hrep Hv. revert w db M Hh Hrep. induction Hv as [|o ops Ho _ IH]; intros w db M Hh Hrep; cbn [db_run foldl].
  { exists w, db. split_and!; [done|done|]. split; [done|]. by exists M. }
  destruct (step_sim w db M o Hh Hrep Ho) as (w1 & db1 & E & Hh1 & Hname & M1 & HM1 & Hrep1). rewrite E. cbn [mbind outcome_bind].
  rewrite HM1. destruct (IH w1 db1 M1 Hh1 Hrep1) as (w2 & db2 & E2 & Hh2 & Hs2). exists w2, db2. by rewrite <-Hname.
Qed.

(** Opening a file that is a log, or is missing. *)
Lemma open_log w name version ops repair :
  healthy w → file_log w name version ops →
  ∃ w' db, DBOpen iter w name repair = Ret (Some (w', Some db, None)) ∧ healthy w' ∧ filename db = name
    ∧ abs_of db (replay ∅ ops) = (version, false, replay ∅ ops) ∧ represents w' db (replay ∅ ops)
    ∧ Records db = replay ∅ ops.
Proof.
  intros Hh Hlog. unfold DBOpen. destruct (deserializeFile_log w name version ops Hh Hlog) as (w1 & -> & Hh1 & Hf1).
  cbn [bool_decide is_Some]. rewrite (bool_decide_false (is_Some None)) by (by intros []%is_Some_None). cbn [andb].
  set (db := mkDB version (replay ∅ ops) name (len ops) None false _).
  assert (HM : map_Forall record_ok (replay ∅ ops)) by (apply replay_record_ok; [apply map_Forall_empty|apply Hlog]).
  destruct (compact_ok w1 db (replay ∅ ops) Hh1) as (w2 & E & Hh2 & Hlog2 & Hre2).
  { split_and!; [done|apply Hlog|done|done]. }
  rewrite E. cbn [mbind outcome_bind]. exists w2. eexists. split_and!; [done|done|done|done| |done].
  by apply (compacted_represents w2 db).
Qed.
Lemma open_missing w name repair :
  healthy w → files w !! name = None →
  ∃ w' db, DBOpen iter w name repair = Ret (Some (w', Some db, None)) ∧ healthy w' ∧ filename db = name
    ∧ abs_of db ∅ = (0, false, ∅) ∧ represents w' db ∅.
Proof.
  intros Hh Hf. unfold DBOpen, deserializeFile. destruct (os_OpenCreate_healthy name w Hh) as (w1 & -> & Hh1 & Hf1).
  rewrite Hf1, lookup_insert_eq, Hf. cbn [from_option id].
  change (deserializeDB []) with (Some (0, ∅ : gmap Key DBRecord, 0, @None read_error)). cbn [fmap option_fmap option_map].
  rewrite (bool_decide_false (is_Some None)) by (by intros []%is_Some_None). cbn [andb].
  set (db := mkDB 0 ∅ name 0 None false _).
  destruct (compact_ok w1 db ∅ Hh1) as (w2 & E & Hh2 & Hlog2 & Hre2).
  { split_and!; [done|done|apply map_Forall_empty|done]. }
  rewrite E. cbn [mbind outcome_bind]. exists w2. eexists. split_and!; [done|done|done|done|].
  by apply (compacted_represents w2 db).
Qed.
End refine.

(** C7: The database refines a map.  Starting from a missing file, any sequence
    of saves, deletions, data discards, flushes and version changes, with keys
    and compressed values below 4 GB and no failing system call, runs without
    panic or error; after a last flush, opening the file again gives exactly
    the version and the records the abstract operations say, however the map
    is iterated. *)
Theorem db_restart_spec `{!Flate} (iter : gmap Key DBRecord → list (Key * DBRecord)) (w : world Z) (name : string)
    (repair repair' : bool) (ops : list db_op)
    (Hiter : ∀ m, iter m ≡ₚ map_to_list m) (Hh : healthy w) (Hmissing : files w !! name = None)
    (Hops : Forall op_valid ops) :
  ∃ w1 db1 w2 db2 w3 db3,
    DBOpen iter w name repair = Ret (Some (w1, Some db1, None))
    ∧ db_run iter w1 db1 (ops ++ [OpFlush]) = Ret (Some (w2, db2, None))
    ∧ DBOpen iter w2 name repair' = Ret (Some (w3, Some db3, None))
    ∧ (Version db3, Records db3) = (λ '(v, _, M), (v, M)) (foldl abs_step (0, false, ∅) ops).
Proof.
  destruct (open_missing iter Hiter w name repair Hh Hmissing) as (w1 & db1 & E1 & Hh1 & Hn1 & Ha1 & Hr1).
  destruct (run_sim iter Hiter ops w1 db1 ∅ Hh1 Hr1 Hops) as (w2 & db2 & E2 & Hh2 & Hn2 & M & HM & Hr2).
  destruct (flush_sim iter Hiter w2 db2 M Hh2 Hr2) as (w3 & db3 & E3 & Hh3 & Hr3 & Hp3 & Ha3 & Hn3).
  pose proof Hr3 as (fops & pops & Hlog & _ & Hpend & Hre & _). rewrite Hp3 in Hpend. case_decide as Epops; [|done].
  subst pops. rewrite app_nil_r in Hre.
  destruct (open_log iter Hiter w3 (filename db3) (Version db3) fops repair' Hh3 Hlog) as (w4 & db4 & E4 & Hh4 & Hn4 & Ha4 & _ & Hrec4).
  exists w1, db1, w3, db3, w4, db4. split_and!; [done| | |].
  - assert (Happ : ∀ l w db r, db_run iter w db l = Ret (Some (r, db2, None)) → db_run iter w db (l ++ [OpFlush]) =
      db_step iter r db2 OpFlush ≫= λ x, match x with Some (w, db, None) => Ret (Some (w, db, None)) | x => Ret x end).
    { induction l as [|o l IH]; intros w0 db0 r Hr; cbn [db_run app] in *; [by simplify_eq|].
      apply bind_Ret in Hr as (x & Hx & Hr). rewrite Hx. cbn [mbind outcome_bind]. destruct x as [[[w' db'] [e|]]|]; [done| |done].
      by apply IH. }
    rewrite (Happ ops w1 db1 w2 E2). cbn [db_step]. rewrite E3. done.
  - rewrite <-Hn1, <-Hn2, <-Hn3. exact E4.
  - rewrite <-Ha1, HM. unfold abs_of in *. rewrite Hre in *. injection Ha3 as Hv Hd. injection Ha4 as Hv4 Hd4.
    cbn. by rewrite Hrec4, Hv4, Hv.
Qed.

(** ** Failures *)

(** Retrying a flush after a short write corrupts the file.  When the
    append of the pending records stops after one byte, Flush reports the error
    and keeps them; the next Flush appends all of them behind that byte and
    reports success.  Reading the file then stops at the byte with an error,
    and every record of the retried flush is lost (no compaction being due). *)
Theorem flush_retry_corrupts `{!Flate} (iter : gmap Key DBRecord → list (Key * DBRecord)) (w : world Z) (db : DB)
    (fops pops : list entry)
    (Hlog : file_log w (filename db) (Version db) fops) (Hpok : Forall entry_ok pops) (Hne : pops ≠ [])
    (Hpend : pending db = Some (log_bytes pops))
    (Hsmall : uncompacted db / 10 * 9 < Z.of_nat (size (Records db))) :
  ∃ w1 w2, Flush iter (mkWorld (files w) [None; Some 1%nat]) db = Ret (Some (w1, db, Some SysError))
  ∧ Flush iter w1 db = Ret (Some (w2, set_pending db None, None))
  ∧ ∃ content, files w2 !! filename db = Some content
    ∧ deserializeDB content = Some (Version db, replay ∅ fops, len fops, Some BadData).
Proof.
  destruct Hlog as (Hf & Hv & Hok). set (name := filename db) in *. set (old := serializeHeader (Version db) ++ log_bytes fops) in *.
  set (w1 := mkWorld (<[name := old ++ take 1 (log_bytes pops)]> (<[name := old]> (files w))) (@nil (option nat))).
  assert (Hh1 : healthy w1) by constructor.
  destruct (os_OpenCreate_healthy name w1 Hh1) as (wa & Ea & Hha & Hfa).
  destruct (os_Write_healthy name (log_bytes pops) wa Hha) as (wb & Eb & _ & Hfb).
  assert (Hw1 : files w1 !! name = Some (old ++ take 1 (log_bytes pops))) by apply lookup_insert_eq.
  exists w1, wb. split_and!.
  - unfold Flush. rewrite Hpend. unfold os_OpenCreate, os_Write, next_fault. cbn [head tail faults files from_option id].
    fold name. rewrite Hf. cbn [from_option id]. rewrite and_then_ok. cbn [head tail faults files from_option id].
    rewrite lookup_insert_eq. done.
  - unfold Flush. rewrite Hpend. fold name. rewrite Ea, and_then_ok, Eb. cbn [uncompacted Records set_pending].
    by rewrite decide_True by done.
  - exists ((old ++ take 1 (log_bytes pops)) ++ log_bytes pops).
    split; [by rewrite Hfb, lookup_insert_eq, Hfa, lookup_insert_eq, Hw1|].
    assert (E : ∃ rest, log_bytes pops = le_bytes 4 recMagic ++ rest).
    { destruct pops as [|[[key val] seq] pops]; [done|]. apply Forall_cons in Hpok as [Ho _].
      unfold log_bytes. cbn [fmap list_fmap concat]. destruct (serializeRecord_ok key val seq Ho) as [_ ->].
      unfold entry_head. rewrite <-!app_assoc. eauto. }
    destruct E as [rest ->]. rewrite <-app_assoc. unfold old. rewrite <-app_assoc. unfold deserializeDB.
    rewrite read_header by done.
    rewrite (read_records_log fops _ _ ∅ 0 BadData); [done|done| |].
    + pose proof (length_log fops Hok). rewrite length_app. lia.
    + change (take 1 (le_bytes 4 recMagic ++ rest) ++ le_bytes 4 recMagic ++ rest)
        with (le_bytes 4 0xee1badad ++ (0x0f :: rest)).
      unfold deserializeRecord, mbind, reader_bind at 1. rewrite (exact_app _ _ _ (exact_read_uint 4 0xee1badad ltac:(done))).
      by rewrite decide_True by done.
Qed.

(** Not every cut is noticed.  A file that ends right after the key of a
    record is read without an error, although the record is incomplete. *)
Theorem cut_after_key_silent `{!Flate} (version : Z) (ops : list entry) (key : Key) (val : list Z) (seq : Z)
    (Hv : in_u64 version) (Hok : Forall entry_ok ops) (Ho : entry_ok (key, val, seq)) :
  let part := take (8 + length key) (entry_bytes (key, val, seq)) in
  (length part < length (entry_bytes (key, val, seq)))%nat
  ∧ deserializeDB (serializeHeader version ++ log_bytes ops ++ part) = Some (version, replay ∅ ops, len ops, None).
Proof.
  intros part. destruct (serializeRecord_ok key val seq Ho) as [_ E].
  assert (Epart : part = le_bytes 4 recMagic ++ le_bytes 4 (len key) ++ key).
  { unfold part. rewrite E. unfold entry_head. rewrite (app_assoc _ key), (app_assoc _ (le_bytes 4 _ ++ key)), <-app_assoc.
    rewrite take_app_le by (rewrite !length_app, !length_le_bytes; lia).
    apply take_ge. rewrite !length_app, !length_le_bytes. lia. }
  split.
  - rewrite E, Epart. unfold entry_head. rewrite !length_app, !length_le_bytes. lia.
  - unfold deserializeDB. rewrite read_header by done. rewrite (read_records_log ops part _ ∅ 0 EOF); [done|done| |].
    + pose proof (length_log ops Hok). rewrite length_app. lia.
    + rewrite Epart. destruct Ho as (Hk & _). unfold deserializeRecord, mbind, reader_bind at 1.
      rewrite (exact_app _ _ _ (exact_read_uint 4 recMagic ltac:(done))). rewrite decide_False by tauto.
      unfold mbind, reader_bind at 1. rewrite <-(app_nil_r key) at 2.
      rewrite (exact_app _ _ _ (exact_read_uint 4 (len key) ltac:(change (256 ^ Z.of_nat 4) with (2 ^ 32); unfold len in *; lia))).
      unfold mbind, reader_bind at 1. rewrite (exact_app _ _ _ (exact_ReadFull (Z.to_nat (len key)) key ltac:(unfold len; lia))).
      done.
Qed.

(** Opening for repair destroys a database that cannot be opened.  When the
    only failing call is the opening of the file, Open with repair reports the
    error but replaces the file by an empty database, and saving into the
    database it returns panics. *)
Theorem open_repair_destroys `{!Flate} (iter : gmap Key DBRecord → list (Key * DBRecord)) (w : world Z) (name : string)
    (Hiter : ∀ m, iter m ≡ₚ map_to_list m) :
  ∃ w' db, DBOpen iter (mkWorld (files w) [Some 0%nat]) name true = Ret (Some (w', Some db, Some SysError))
  ∧ files w' !! name = Some (serializeHeader 0)
  ∧ (∀ key val, entry_ok (key, val, 0) → DBSave db key val 0 = Panic).
Proof.
  unfold DBOpen, deserializeFile. unfold os_OpenCreate at 1, next_fault. cbn [head tail faults from_option id].
  rewrite (bool_decide_true (is_Some _)) by done. cbn [negb andb]. rewrite bool_decide_true by done.
  set (db := mkDB 0 ∅ name 0 None false true). set (w1 := mkWorld (files w) []).
  destruct (compact_ok iter Hiter w1 db ∅) as (w2 & E & Hh2 & (Hf2 & _ & _) & Hre2).
  - constructor.
  - split_and!; [done|done|apply map_Forall_empty|done].
  - cbn [files]. fold w1. rewrite E. cbn [mbind outcome_bind]. eexists _, _. split; [done|]. split.
    + cbn [filename db] in Hf2. rewrite Hf2. replace (iter ∅) with (@nil (Key * DBRecord)).
      * change (log_bytes (entries [])) with (@nil Z). by rewrite app_nil_r.
      * symmetry. apply Permutation_nil_r. by rewrite Hiter, map_to_list_empty.
    + intros key val Ho. unfold DBSave. rewrite decide_False by done. cbn [Records set_uncompacted db].
      rewrite lookup_empty. unfold DBserialize. destruct (serializeRecord_ok key val 0 Ho) as [-> _]. done.
Qed.

(** ** Witnesses: a format that marks every byte and ends with a zero *)

Fixpoint mark_bytes (v : list Z) : list Z :=
  match v with [] => [0] | b :: v => 1 :: b :: mark_bytes v end.
Fixpoint unmark_bytes (l : list Z) : option (list Z * nat) :=
  match l with
  | 1 :: b :: l => '(v, n) ← unmark_bytes l; Some (b :: v, S (S n))
  | 0 :: _ => Some ([], 1%nat)
  | _ => None
  end.
Lemma unmark_mark v : unmark_bytes (mark_bytes v) = Some (v, length (mark_bytes v)).
Proof. induction v as [|b v IH]; [done|]. cbn. by rewrite IH. Qed.
Lemma unmark_short v k : (k < length (mark_bytes v))%nat → unmark_bytes (take k (mark_bytes v)) = None.
Proof.
  revert k. induction v as [|b v IH]; intros k Hk; cbn in Hk; [by destruct k; [|lia]|].
  destruct k as [|[|k]]; [done|done|]. cbn. rewrite IH by lia. done.
Qed.
#[export] Instance marked_flate : Flate := {|
  deflate := mark_bytes; inflate := unmark_bytes; inflate_deflate := unmark_mark; inflate_truncated := unmark_short
|}.

Definition two_entries : list entry := [([7; 7], [1; 2; 3], 5); ([9], [], 0)].
Lemma two_entries_ok : Forall entry_ok two_entries.
Proof. repeat constructor; discriminate. Defined.


Lemma cut_after_key_witness :
  deserializeDB (serializeHeader 3 ++ log_bytes two_entries ++ take 10 (entry_bytes ([7; 7], [4], 6)))
  = Some (3, replay ∅ two_entries, 2, None).
Proof.
  apply (cut_after_key_silent 3 two_entries [7; 7] [4] 6).
  - split; [discriminate|reflexivity].
  - exact two_entries_ok.
  - split_and!; [reflexivity|intros _; reflexivity|split; [discriminate|reflexivity]|discriminate].
Defined.

Lemma db_restart_witness :
  ∃ w1 db1 w2 db2 w3 db3,
    DBOpen map_to_list (mkWorld ∅ []) "corpus.db" true = Ret (Some (w1, Some db1, None))
    ∧ db_run map_to_list w1 db1 ([OpPut [7] [1; 2] 5; OpRemove [7]; OpPut [8] [] 0; OpBump 4] ++ [OpFlush]) = Ret (Some (w2, db2, None))
    ∧ DBOpen map_to_list w2 "corpus.db" false = Ret (Some (w3, Some db3, None))
    ∧ Version db3 = 4.
Proof.
  destruct (db_restart_spec map_to_list (mkWorld ∅ []) "corpus.db" true false
    [OpPut [7] [1; 2] 5; OpRemove [7]; OpPut [8] [] 0; OpBump 4]) as (w1 & db1 & w2 & db2 & w3 & db3 & E1 & E2 & E3 & E).
  - intros m. reflexivity.
  - constructor.
  - apply lookup_empty.
  - repeat constructor; try discriminate; reflexivity.
  - exists w1, db1, w2, db2, w3, db3. refine (conj E1 (conj E2 (conj E3 _))). exact (f_equal fst E).
Defined.

(** A database with one pending record. *)
Definition pending_db : DB := mkDB 0 {[ [9] := mkDBRecord [] 0 ]} "corpus.db" 1 (Some (log_bytes [([9], [], 0)])) false false.
Lemma flush_retry_witness :
  ∃ w1 w2, Flush map_to_list (mkWorld {[ "corpus.db"%string := serializeHeader 0 ]} [None; Some 1%nat]) pending_db
      = Ret (Some (w1, pending_db, Some SysError))
    ∧ Flush map_to_list w1 pending_db = Ret (Some (w2, set_pending pending_db None, None)).
Proof.
  destruct (flush_retry_corrupts map_to_list (mkWorld {[ "corpus.db"%string := serializeHeader 0 ]} []) pending_db [] [([9], [], 0)])
    as (w1 & w2 & E1 & E2 & _).
  - split_and!; [reflexivity|split; [discriminate|reflexivity]|constructor].
  - repeat constructor; discriminate.
  - discriminate.
  - reflexivity.
  - reflexivity.
  - exists w1, w2. exact (conj E1 E2).
Defined.

Lemma open_repair_witness :
  ∃ w' db, DBOpen map_to_list (mkWorld {[ "corpus.db"%string := serializeHeader 7 ++ log_bytes two_entries ]} [Some 0%nat])
      "corpus.db" true = Ret (Some (w', Some db, Some SysError))
    ∧ files w' !! "corpus.db"%string = Some (serializeHeader 0).
Proof.
  destruct (open_repair_destroys map_to_list (mkWorld {[ "corpus.db"%string := serializeHeader 7 ++ log_bytes two_entries ]} [])
    "corpus.db") as (w' & db & E & Hf & _).
  - intros m. reflexivity.
  - exists w', db. exact (conj E Hf).
Defined.
