(* ===== verification/ChoiceTable.v ===== *)
(** * Choosing the next call (src/prog/prio.go, the traversal of types of
    src/prog/types.go, RelationChoiceBoostsFromEnv of
    src/pkg/kconfuzz/actionplanner.go)

    A matrix of call-to-call priorities is computed from the argument types,
    from the corpus and from boosts that the relation table suggests; rows of
    prefix sums then allow a weighted choice by binary search.  Priorities are
    int32 and wrap around.  A system call is its [ID], its index in the
    target's list; a map of calls used as a set is the set of its keys. *)

From Stdlib Require Import ZArith.
From S2P Require Import Prelude Prog Params Planner ConfigPolicy.

(** ** Traversing the types of a call *)

Record seenKey := mkSeenKey { sk_t : Ref; sk_d : Dir; sk_o : bool }.
#[export] Instance seenKey_eq_dec : EqDecision seenKey.
Proof. solve_decision. Defined.

Section foreach_type.
Context {A : Type} (typeRefs : list Typ).
(** The callback: the type, direction and optionality; it may stop. *)
Context (cb : A → Typ → Dir → bool → outcome (A * bool)).

Definition visit_state : Type := list seenKey * A.

(** The pre-order traversal; [None]: out of fuel. *)
Fixpoint foreachTypeRec (fuel : nat) (t : Ref) (dir : Dir) (optional : bool) (st : visit_state)
    : outcome (option visit_state) :=
  match fuel with
  | O => Ret None
  | S fuel =>
      typ ← index typeRefs t;
      let optional := optional || TOptional typ in
      '(acc, stop) ← cb (snd st) typ dir optional;
      let st := (fst st, acc) in
      if (stop : bool) then Ret (Some st)
      else
        let visit_fields (fields : list Field) : outcome (option visit_state) :=
          let key := mkSeenKey t dir optional in
          if decide (key ∈ fst st) then Ret (Some st)
          else
            (fix go (l : list Field) (st : visit_state) : outcome (option visit_state) :=
               match l with
               | [] => Ret (Some st)
               | f :: l =>
                   r ← foreachTypeRec fuel (FieldType f) (FieldDir f dir) optional st;
                   match r with None => Ret None | Some st => go l st end
               end) fields (key :: fst st, snd st) in
        match typ with
        | PtrType _ elem elemDir _ => foreachTypeRec fuel elem elemDir optional st
        | ArrayType _ elem _ _ _ => foreachTypeRec fuel elem dir optional st
        | StructType _ fields _ _ => visit_fields fields
        | UnionType _ fields => visit_fields fields
        | _ => Ret (Some st)
        end
  end.

Fixpoint visit_list (fuel : nat) (l : list (Ref * Dir)) (st : visit_state) : outcome (option visit_state) :=
  match l with
  | [] => Ret (Some st)
  | (t, dir) :: l =>
      r ← foreachTypeRec fuel t dir false st;
      match r with None => Ret None | Some st => visit_list fuel l st end
  end.
Definition ForeachCallType (fuel : nat) (meta : Syscall) (acc : A) : outcome (option A) :=
  r ← visit_list fuel (((λ f, (FieldType f, DirIn)) <$> SysArgs meta) ++
        match SysRet meta with Some t => [(t, DirOut)] | None => [] end) ([], acc);
  Ret (match r with None => None | Some st => Some (snd st) end).
End foreach_type.

(** ** Static priorities *)

Record weights := mkWeights { w_call : Z; w_in : Z; w_inout : Z }.
Abbreviation Uses := (gmap string (gmap Z weights)).

Definition noteUsage (uses : Uses) (c weight : Z) (dir : Dir) (id : string) : Uses :=
  let m := default ∅ (uses !! id) in
  let old := default (mkWeights 0 0 0) (m !! c) in
  let in_ := if decide (dir ≠ DirOut ∧ w_in old < weight) then weight else w_in old in
  let inout := if decide (w_inout old < weight) then weight else w_inout old in
  <[id := <[c := mkWeights c in_ inout]> m]> uses.

(** The prefixes of a resource kind: "res-a", "res-a-b", ... *)
Fixpoint note_kinds (uses : Uses) (c : Z) (dir : Dir) (str : string) (kinds : list string) : Uses :=
  match kinds with
  | [] => uses
  | k :: kinds =>
      let str := (str ++ "-" ++ k)%string in
      let w := if decide (kinds = []) then 10 else 2 in
      note_kinds (noteUsage uses c w dir str) c dir str kinds
  end.

(** A matrix of priorities: row, column. *)
Abbreviation matrix := (list (list Z)).

Section usage.
Context (typeRefs : list Typ) (target : Target).

Definition note_type (enabled : gset Z) (c : Z) (uses : Uses) (t : Typ) (dir : Dir) (optional : bool)
    : outcome (Uses * bool) :=
  if decide (c ∉ enabled) then Ret (uses, true)
  else
    match t with
    | ResourceType _ _ desc =>
        if decide (ResName desc ∈ AuxResources target) then
          Ret (noteUsage uses c 1 dir ("res" ++ ResName desc)%string, false)
        else Ret (note_kinds uses c dir "res" (ResKind desc), false)
    | PtrType _ elem _ _ =>
        e ← index typeRefs elem;
        match e with
        | StructType _ _ _ _ | UnionType _ _ => Ret (noteUsage uses c 10 dir ("ptrto-" ++ TName e)%string, false)
        | ArrayType _ e2 _ _ _ =>
            e2 ← index typeRefs e2; Ret (noteUsage uses c 10 dir ("ptrto-" ++ TName e2)%string, false)
        | _ => Ret (uses, false)
        end
    | BufferType _ kind _ _ subkind _ _ =>
        match kind with
        | BufferBlobRand | BufferBlobRange | BufferText | BufferCompressed => Ret (uses, false)
        | BufferString | BufferGlob =>
            Ret (if decide (subkind ≠ ""%string) then noteUsage uses c 2 dir ("str-" ++ subkind)%string else uses, false)
        | BufferFilename => Ret (noteUsage uses c 10 DirIn "filename", false)
        end
    | VmaType _ _ _ => Ret (noteUsage uses c 5 dir "vma", false)
    | _ => Ret (uses, false)
    end.

Fixpoint usage_calls (fuel : nat) (enabled : gset Z) (l : list Syscall) (uses : Uses) : outcome (option Uses) :=
  match l with
  | [] => Ret (Some uses)
  | meta :: l =>
      r ← ForeachCallType typeRefs (note_type enabled (ID meta)) fuel meta uses;
      match r with None => Ret None | Some uses => usage_calls fuel enabled l uses end
  end.
Definition calcResourceUsage (fuel : nat) (enabled : gset Z) : outcome (option Uses) :=
  usage_calls fuel enabled (Syscalls target) ∅.

(** ** Matrices *)

Definition zero_matrix : matrix :=
  let n := length (Syscalls target) in replicate n (replicate n 0).
(** [m[i][j] = f(m[i][j])]. *)
Definition mat_update (m : matrix) (i j : Z) (f : Z → Z) : outcome matrix :=
  row ← index m i;
  x ← index row j;
  Ret (<[Z.to_nat i := <[Z.to_nat j := f x]> row]> m).
Definition mat_add (m : matrix) (i j v : Z) : outcome matrix := mat_update m i j (λ x, i32 (x + v)).
Fixpoint mat_adds (m : matrix) (l : list (Z * Z * Z)) : outcome matrix :=
  match l with
  | [] => Ret m
  | (i, j, v) :: l => m ← mat_add m i j v; mat_adds m l
  end.

(** [w0.inout*w1.in*3/2 + w0.inout*w1.inout] in int32. *)
Definition pair_weight (w0 w1 : weights) : Z :=
  i32 (Z.quot (i32 (i32 (w_inout w0 * w_in w1) * 3)) 2 + i32 (w_inout w0 * w_inout w1)).
(** The increments of one group of calls that use the same thing. *)
Definition group_pairs (ws : list weights) : list (Z * Z * Z) :=
  concat ((λ w0, concat ((λ w1,
    if decide (w_call w0 = w_call w1) then [] else [(w_call w0, w_call w1, pair_weight w0 w1)]) <$> ws)) <$> ws).

(** [slices.Max]. *)
Definition slices_Max (l : list Z) : outcome Z :=
  match l with [] => Panic | x :: l => Ret (foldl Z.max x l) end.

Fixpoint self_prios (ids : list Z) (m : matrix) : outcome matrix :=
  match ids with
  | [] => Ret m
  | id :: ids =>
      pp ← index m id;
      mx ← slices_Max pp;
      m ← mat_update m id id (λ _, if decide (mx = 0) then 1 else Z.quot (i32 (mx * 3)) 4);
      self_prios ids m
  end.

Definition row_sum (row : list Z) : Z := foldl (λ s p, i32 (s + p)) 0 row.
Definition normalize_row (total : Z) (row : list Z) : list Z :=
  let sum := row_sum row in
  if decide (sum = 0) then row else (λ p, Z.quot (i32 (p * total)) sum) <$> row.
Definition normalizePrios (prios : matrix) (n : Z) : matrix := normalize_row (i32 (10 * i32 n)) <$> prios.

Definition calcStaticPriorities (enabled : gset Z) (uses : Uses) : outcome matrix :=
  m ← mat_adds zero_matrix (concat ((λ wm, group_pairs (values wm)) <$> values uses));
  m ← self_prios (elements enabled) m;
  Ret (normalizePrios m (Z.of_nat (size enabled))).

(** ** Dynamic priorities *)

(** The ids of the calls of a program; a nil pointer is dereferenced. *)
Definition call_id (c : option Call) : outcome Z :=
  match c ≫= Meta with Some m => Ret (ID m) | None => Panic end.
Definition corpus_ids (corpus : list Prog) : outcome (list (list Z)) := mapM (λ p, mapM call_id (Calls p)) corpus.
Fixpoint follow_pairs (enabled : gset Z) (ids : list Z) : list (Z * Z * Z) :=
  match ids with
  | [] => []
  | c0 :: ids =>
      (if decide (c0 ∈ enabled) then (λ c1, (c0, c1, 1)) <$> filter (λ c1, c1 ∈ enabled) ids else [])
      ++ follow_pairs enabled ids
  end.
(** [int32(2.0 * math.Sqrt(float64(val)))]: below 2^31 the IEEE result is
    exact enough that its integral part is the integral root of [4 * val]. *)
Definition sqrt_prio (val : Z) : Z := Z.sqrt (4 * val).
Definition calcDynamicPrio (corpus : list Prog) (enabled : gset Z) : outcome matrix :=
  idss ← corpus_ids corpus;
  m ← mat_adds zero_matrix (concat (follow_pairs enabled <$> idss));
  Ret (normalizePrios ((λ row : list Z, sqrt_prio <$> row) <$> m : matrix) (Z.of_nat (size enabled))).

(** ** Boosts *)

Record ChoiceTableBoost := mkBoost { From : option Syscall; To : option Syscall; Weight : Z }.

Definition boost_entry (enabled : gset Z) (b : ChoiceTableBoost) : option (Z * Z * Z) :=
  match From b, To b with
  | Some from, Some to =>
      if decide (ID from ∈ enabled ∧ ID to ∈ enabled) then
        Some (ID from, ID to, if decide (Weight b ≤ 0) then 1 else Weight b)
      else None
  | _, _ => None
  end.
Definition calcBoostPrio (boosts : list ChoiceTableBoost) (enabled : gset Z) : outcome matrix :=
  m ← mat_adds zero_matrix (omap (boost_entry enabled) boosts);
  Ret (normalizePrios m (Z.of_nat (size enabled))).

(** ** The table *)

(** A nil set of enabled calls stands for all of them. *)
Definition prepareEnabledSyscalls (corpus : list Prog) (enabled : option (gset Z)) : outcome (gset Z) :=
  let enabled := default (list_to_set (ID <$> Syscalls target)) enabled in
  let on := filter (λ c, ID c ∈ enabled) (Syscalls target) in
  let noGenerate : gset Z := list_to_set (ID <$> filter (λ c, NoGenerate (Attrs c) = true) on) in
  let enabledCalls : gset Z :=
    list_to_set (ID <$> filter (λ c, NoGenerate (Attrs c) = false ∧ Disabled (Attrs c) = false) on) in
  if decide (enabledCalls = ∅) then Panic
  else
    idss ← corpus_ids corpus;
    if forallb (λ id, bool_decide (id ∈ enabledCalls ∨ id ∈ noGenerate)) (concat idss) then Ret enabledCalls
    else Panic.

Definition mat_sum (m1 m2 : matrix) : matrix := zip_with (zip_with (λ x y, i32 (x + y))) m1 m2.

Definition CalculatePrioritiesWithBoosts (fuel : nat) (corpus : list Prog) (enabled : option (gset Z))
    (boosts : list ChoiceTableBoost) : outcome (option (matrix * gset Z)) :=
  enabled ← prepareEnabledSyscalls corpus enabled;
  uses ← calcResourceUsage fuel enabled;
  match uses with
  | None => Ret None
  | Some uses =>
      static ← calcStaticPriorities enabled uses;
      static ← (if decide (len corpus ≠ 0) then mat_sum static <$> calcDynamicPrio corpus enabled else Ret static);
      static ← (if decide (len boosts ≠ 0) then mat_sum static <$> calcBoostPrio boosts enabled else Ret static);
      Ret (Some (static, enabled))
  end.

Record ChoiceTable := mkChoiceTable { ct_runs : list (option (list Z)); ct_calls : list Z }.

(** The prefix sums of a row over the enabled columns, [j] being the column. *)
Fixpoint prefix_sums (enabled : gset Z) (j sum : Z) (row : list Z) : list Z :=
  match row with
  | [] => []
  | p :: row =>
      let sum := if decide (j ∈ enabled) then i32 (sum + p) else sum in
      sum :: prefix_sums enabled (j + 1) sum row
  end.
Definition table_of (prios : matrix) (enabled : gset Z) : ChoiceTable :=
  mkChoiceTable (imap (λ i row, if decide (Z.of_nat i ∈ enabled) then Some (prefix_sums enabled 0 0 row) else None) prios)
    (sort_by (less_on id) (elements enabled)).

Definition BuildChoiceTableWithBoosts (fuel : nat) (corpus : list Prog) (enabled : option (gset Z))
    (boosts : list ChoiceTableBoost) : outcome (option ChoiceTable) :=
  r ← CalculatePrioritiesWithBoosts fuel corpus enabled boosts;
  Ret (match r with None => None | Some (prios, enabled) => Some (table_of prios enabled) end).
End usage.

Definition Generatable (ct : ChoiceTable) (call : Z) : outcome bool :=
  r ← index (ct_runs ct) call; Ret (match r with Some _ => true | None => false end).

(** [ct.calls[r.Intn(len(ct.calls))].ID]. *)
Definition any_call (ct : ChoiceTable) (r : rng) : outcome (Z * rng) :=
  '(i, r) ← Intn (len (ct_calls ct)) r;
  id ← index (ct_calls ct) i;
  Ret (id, r).
(** The weighted choice in the row of [bias]. *)
Definition choose_in_row (ct : ChoiceTable) (bias : Z) (r : rng) : outcome (Z * rng) :=
  run ← index (ct_runs ct) bias;
  match run with
  | None => Panic
  | Some run =>
      runSum ← index run (len run - 1);
      '(x, r) ← Intn runSum r;
      let x := i32 (x + 1) in
      let res := Z.of_nat (Search (length run)
        (λ i, match run !! i with Some v => bool_decide (x ≤ v) | None => true end)) in
      ok ← Generatable ct res;
      if (ok : bool) then Ret (res, r) else Panic
  end.
Definition choose (ct : ChoiceTable) (bias : Z) (r : rng) : outcome (Z * rng) :=
  '(x, r) ← Intn 100 r;
  if decide (x < 5) then any_call ct r
  else
    '(bias, r) ← (if decide (bias < 0) then any_call ct r else Ret (bias, r));
    choose_in_row ct bias r.

(** ** Boosts from the relation table *)

Section boosts.
Context (env : string → string) (planner : option Planner) (target : option Target) (enabled : option (gset Z)).

Definition choice_weight : Z :=
  let w := intFromEnv env "SYZ_KCONFUZZ_CHOICE_WEIGHT" 3 in if decide (w ≤ 0) then 3 else w.
Definition max_calls_per_param : Z :=
  let n := intFromEnv env "SYZ_KCONFUZZ_CHOICE_MAX_CALLS_PER_PARAM" 12 in if decide (n ≤ 1) then 12 else n.

(** Whether the loop keeps a call. *)
Definition boost_call (t : Target) (callName : string) : option Syscall :=
  meta ← SyscallMap t !! callName;
  if decide (NoGenerate (Attrs meta) = true ∨ Disabled (Attrs meta) = true) then None
  else match enabled with
       | Some en => if decide (ID meta ∈ en) then Some meta else None
       | None => Some meta
       end.
Definition note_param (meta : Syscall) (m : gmap Z (gmap Z Syscall)) (q : ConfigParam) : gmap Z (gmap Z Syscall) :=
  <[PID q := <[ID meta := meta]> (default ∅ (m !! PID q))]> m.
Definition calls_by_param (t : Target) (p : Planner) : gmap Z (gmap Z Syscall) :=
  foldl (λ m cp, match boost_call t cp.1 with
                 | None => m
                 | Some meta => foldl (note_param meta) m cp.2
                 end) ∅ (map_to_list (callToParams p)).

(** The calls of one parameter that are paired. *)
Definition param_group (callMap : gmap Z Syscall) : list Z :=
  let calls := sort_by (less_on id) (ID <$> values callMap) in
  if decide (len calls < 2) then []
  else if decide (max_calls_per_param < len calls) then take (Z.to_nat max_calls_per_param) calls else calls.
Definition ordered_pairs (calls : list Z) : list (Z * Z) :=
  concat ((λ from, concat ((λ to, if decide (from = to) then [] else [(from, to)]) <$> calls)) <$> calls).
Definition add_weight (w : gmap (Z * Z) Z) (pr : Z * Z) : gmap (Z * Z) Z :=
  <[pr := i32 (default 0 (w !! pr) + i32 choice_weight)]> w.
Definition boost_weights (byParam : gmap Z (gmap Z Syscall)) : gmap (Z * Z) Z :=
  let paramIDs := sort_by (less_on id) (map_to_list byParam).*1 in
  foldl (λ w pid, foldl add_weight w (ordered_pairs (param_group (default ∅ (byParam !! pid))))) ∅ paramIDs.

Definition pair_less (p q : Z * Z) : bool :=
  if decide (p.1 = q.1) then p.2 <? q.2 else p.1 <? q.1.

Definition RelationChoiceBoostsFromEnv : outcome (list ChoiceTableBoost) :=
  if negb (ChoiceEnabled env) then Ret []
  else match planner, target with
       | Some p, Some t =>
           let w := boost_weights (calls_by_param t p) in
           mapM (λ pr, from ← index (Syscalls t) pr.1; to ← index (Syscalls t) pr.2;
                       Ret (mkBoost (Some from) (Some to) (default 0 (w !! pr))))
             (sort_by pair_less (map_to_list w).*1)
       | _, _ => Ret []
       end.
End boosts.
