(* ===== verification/ChoiceProps.v ===== *)
(** * Properties of the choice table

    As long as the priorities fit into 32 bits, every enabled call gets a row
    with a positive sum that is zero outside the enabled calls; a choice then
    never fails, returns a call that may be generated, and each call with the
    weight its priority gives it. *)

From Stdlib Require Import ZArith.
From S2P Require Import Prelude Prog Params Planner ConfigPolicy ChoiceTable.

(** ** Rows *)

Definition zsum (l : list Z) : Z := foldr Z.add 0 l.
Lemma zsum_app l k : zsum (l ++ k) = zsum l + zsum k.
Proof. induction l as [|x l IH]; cbn; [done|]. unfold zsum in *. lia. Qed.
Lemma zsum_nonneg l : Forall (λ x, 0 ≤ x) l → 0 ≤ zsum l.
Proof. induction 1 as [|x l Hx _ IH]; cbn; [done|]. unfold zsum in IH. lia. Qed.
Lemma zsum_elem l x : Forall (λ x, 0 ≤ x) l → x ∈ l → x ≤ zsum l.
Proof.
  induction 1 as [|y l Hy Hl IH]; [by intros ?%not_elem_of_nil|]. cbn. pose proof (zsum_nonneg l Hl). unfold zsum in *.
  intros [->|Hx]%elem_of_cons; [lia|]. specialize (IH Hx). lia.
Qed.
Lemma i32_id x : - 2 ^ 31 ≤ x < 2 ^ 31 → i32 x = x.
Proof. intros. unfold i32. rewrite Z.mod_small; lia. Qed.

Lemma row_sum_exact row : Forall (λ x, 0 ≤ x) row → zsum row < 2 ^ 31 → row_sum row = zsum row.
Proof.
  assert (H : ∀ row acc, Forall (λ x, 0 ≤ x) row → 0 ≤ acc → acc + zsum row < 2 ^ 31 →
    foldl (λ s p, i32 (s + p)) acc row = acc + zsum row).
  { induction row0 as [|x l IH]; intros acc Hl Ha Hs; cbn; [lia|]. apply Forall_cons in Hl as [Hx Hl].
    pose proof (zsum_nonneg l Hl). cbn in Hs. unfold zsum in *. rewrite i32_id by lia. rewrite IH; [lia|done|lia|lia]. }
  intros. unfold row_sum. rewrite H; [lia|done|lia|lia].
Qed.

(** A row over the calls in [en]. *)
Record row_good (en : gset Z) (row : list Z) : Prop := {
  row_nonneg : Forall (λ x, 0 ≤ x) row;
  row_support : ∀ j x, row !! j = Some x → x ≠ 0 → Z.of_nat j ∈ en
}.

(** At most as many entries count as there are calls. *)
Lemma zsum_support (en : gset Z) (row : list Z) (off : nat) M :
  0 ≤ M → Forall (λ x, 0 ≤ x ≤ M) row → (∀ j x, row !! j = Some x → x ≠ 0 → Z.of_nat (off + j) ∈ en) →
  zsum row ≤ M * Z.of_nat (size (filter (λ c, Z.of_nat off ≤ c) en)).
Proof.
  intros HM Hrow. revert off. induction Hrow as [|x row Hx Hrow IH]; intros off Hs; [cbn; lia|].
  assert (Hs' : ∀ j y, row !! j = Some y → y ≠ 0 → Z.of_nat (S off + j) ∈ en).
  { intros j y Hj Hy. replace (S off + j)%nat with (off + S j)%nat by lia. by apply (Hs (S j) y). }
  specialize (IH (S off) Hs'). change (zsum (x :: row)) with (x + zsum row).
  assert (Hsub : filter (λ c, Z.of_nat (S off) ≤ c) en ⊆ filter (λ c, Z.of_nat off ≤ c) en).
  { intros c. rewrite !elem_of_filter. intros [? ?]. split; [lia|done]. }
  destruct (decide (x = 0)) as [->|Hne].
  - apply subseteq_size in Hsub. nia.
  - specialize (Hs 0%nat x eq_refl Hne). rewrite Nat.add_0_r in Hs.
    assert (E : filter (λ c, Z.of_nat off ≤ c) en = {[Z.of_nat off]} ∪ filter (λ c, Z.of_nat (S off) ≤ c) en).
    { apply set_eq. intros c. rewrite elem_of_union, elem_of_singleton, !elem_of_filter. split.
      - intros [H1 H2]. destruct (decide (c = Z.of_nat off)); [by left|right; split; [lia|done]].
      - intros [->|[H1 H2]]; [split; [lia|done]|split; [lia|done]]. }
    rewrite E, size_union, size_singleton; [nia|]. apply disjoint_singleton_l. rewrite elem_of_filter. lia.
Qed.

Lemma zsum_scaled f row t S :
  0 < S → Forall (λ p, f p * S ≤ p * t) row → zsum (f <$> row) * S ≤ zsum row * t.
Proof. intros HS. induction 1 as [|p row Hp _ IH]; cbn; [done|]. unfold zsum in *. nia. Qed.

Lemma normalize_row_good (en : gset Z) row :
  en ≠ ∅ → row_good en row →
  let t := 10 * Z.of_nat (size en) in
  zsum row < 2 ^ 31 → Forall (λ p, p * t < 2 ^ 31) row → t < 2 ^ 31 →
  let row' := normalize_row (i32 (10 * i32 (Z.of_nat (size en)))) row in
  length row' = length row ∧ row_good en row' ∧ zsum row' ≤ t ∧ (0 < zsum row → 0 < zsum row').
Proof.
  intros Hen [Hn Hs] t Hlt Hfit Ht row'. assert (Hsz : 1 ≤ Z.of_nat (size en)).
  { destruct (decide (size en = 0%nat)) as [E|]; [|lia]. by apply size_empty_iff, leibniz_equiv in E. }
  pose proof (zsum_nonneg row Hn) as H0. unfold t in Ht.
  assert (E0 : row' = if decide (zsum row = 0) then row else (λ p, Z.quot (i32 (p * t)) (zsum row)) <$> row).
  { unfold row', normalize_row. rewrite (i32_id (Z.of_nat (size en))), (i32_id (10 * _)) by lia.
    by rewrite (row_sum_exact row Hn Hlt). }
  rewrite E0. clear E0 row'. case_decide as Hz.
  { split_and!; [done|done|unfold t; lia|lia]. }
  assert (HS : 0 < zsum row) by lia.
  assert (Hf : ∀ p, p ∈ row → Z.quot (i32 (p * t)) (zsum row) = p * t / zsum row ∧ 0 ≤ p * t / zsum row).
  { intros p Hp. rewrite Forall_forall in Hn, Hfit. specialize (Hn p Hp). specialize (Hfit p Hp).
    rewrite i32_id by (unfold t in *; nia). split; [apply Z.quot_div_nonneg; unfold t; nia|apply Z.div_pos; unfold t; nia]. }
  set (row' := (λ p, Z.quot (i32 (p * t)) (zsum row)) <$> row).
  assert (Erow : row' = (λ p, p * t / zsum row) <$> row).
  { apply list_fmap_ext. intros i p Hp%list_elem_of_lookup_2. by apply Hf. }
  rewrite Erow. split_and!.
  - by rewrite length_fmap.
  - split.
    + apply Forall_fmap, Forall_forall. intros p Hp. by apply Hf.
    + intros j x. rewrite list_lookup_fmap_Some. intros (p & -> & Hp) Hx. apply (Hs j p Hp). intros ->.
      apply Hx. by rewrite Z.mul_0_l, Z.div_0_l by lia.
  - assert (Hle : zsum ((λ p, p * t / zsum row) <$> row) * zsum row ≤ zsum row * t); [|nia].
    apply zsum_scaled; [done|]. apply Forall_forall. intros p Hp.
    rewrite (Z.mul_comm _ (zsum row)). apply Z.mul_div_le. done.
  - intros _. destruct (decide (0 < zsum ((λ p, p * t / zsum row) <$> row))) as [|Hno]; [done|exfalso].
    assert (Hall : Forall (λ p, 0 ≤ p ≤ (zsum row - 1) / t) row).
    { apply Forall_forall. intros p Hp. split; [by eapply Forall_forall in Hn|].
      apply Z.div_le_lower_bound; [unfold t; lia|]. destruct (decide (p * t < zsum row)); [lia|exfalso].
      assert (Hone : 1 ≤ p * t / zsum row) by (apply Z.div_le_lower_bound; lia).
      assert (Hin : p * t / zsum row ∈ (λ p, p * t / zsum row) <$> row) by (apply list_elem_of_fmap; by exists p).
      apply zsum_elem in Hin; [lia|]. apply Forall_fmap, Forall_forall. intros q Hq. by apply Hf. }
    pose proof (zsum_support en row 0 ((zsum row - 1) / t) ltac:(apply Z.div_pos; unfold t; lia) Hall Hs) as Hb.
    assert (Hfil : Z.of_nat (size (filter (λ c, Z.of_nat 0 ≤ c) en)) ≤ Z.of_nat (size en)).
    { apply inj_le, subseteq_size. intros c. rewrite elem_of_filter. tauto. }
    pose proof (Z.mul_div_le (zsum row - 1) t ltac:(unfold t; lia)) as Hd. unfold t in *.
    assert (0 ≤ (zsum row - 1) / (10 * Z.of_nat (size en))) by (apply Z.div_pos; lia). nia.
Qed.

(** ** Matrices *)

Section matrices.
Context (target : Target) (en : gset Z).
Abbreviation N := (length (Syscalls target)).
Hypothesis Hen : ∀ c, c ∈ en → 0 ≤ c < Z.of_nat N.

Record mat_good (m : matrix) : Prop := {
  mat_rows : length m = N;
  mat_cols : ∀ i row, m !! i = Some row → length row = N ∧ row_good en row;
  mat_off : ∀ i row, m !! i = Some row → Z.of_nat i ∉ en → zsum row = 0
}.

Lemma zero_matrix_lookup i row : zero_matrix target !! i = Some row → row = replicate N 0.
Proof. intros H. by apply lookup_replicate in H as [-> _]. Qed.
Lemma zsum_replicate n : zsum (replicate n 0) = 0.
Proof. induction n as [|n IH]; [done|]. cbn. exact IH. Qed.
Lemma zero_matrix_good : mat_good (zero_matrix target).
Proof.
  split.
  - apply length_replicate.
  - intros i row ->%zero_matrix_lookup. split; [apply length_replicate|]. split; [by apply Forall_replicate|].
    intros j x [-> _]%lookup_replicate. done.
  - intros i row ->%zero_matrix_lookup _. apply zsum_replicate.
Qed.

(** The entry at a position, and sums of increments. *)
Definition entry_at (m : matrix) (i j : nat) : Z := default 0 (m !! i ≫= λ row, row !! j).
Definition inc_ok (x : Z * Z * Z) : Prop := x.1.1 ∈ en ∧ x.1.2 ∈ en ∧ 0 ≤ x.2.
Definition row_total (l : list (Z * Z * Z)) (i : Z) : Z := zsum (snd <$> filter (λ x, x.1.1 = i) l).
Definition entry_total (l : list (Z * Z * Z)) (i j : Z) : Z := zsum (snd <$> filter (λ x, x.1 = (i, j)) l).

Lemma zsum_insert row j x y : row !! j = Some x → zsum (<[j := y]> row) = zsum row - x + y.
Proof.
  revert j. induction row as [|z row IH]; intros [|j] H; [done|done| |].
  - injection H as ->. change (<[0%nat := y]> (x :: row)) with (y :: row). unfold zsum. cbn. lia.
  - change (<[S j := y]> (z :: row)) with (z :: <[j := y]> row).
    change (z + zsum (<[j := y]> row) = z + zsum row - x + y). rewrite (IH j) by done. lia.
Qed.

Lemma mat_update_spec m i j f :
  mat_good m → 0 ≤ i < Z.of_nat N → 0 ≤ j < Z.of_nat N →
  ∃ row x, m !! Z.to_nat i = Some row ∧ row !! Z.to_nat j = Some x
    ∧ mat_update m i j f = Ret (<[Z.to_nat i := <[Z.to_nat j := f x]> row]> m).
Proof.
  intros Hm Hi Hj. unfold mat_update.
  destruct (index_Ret m i) as (row & -> & Hrow); [unfold len; rewrite (mat_rows _ Hm); lia|]. cbn [mbind outcome_bind].
  destruct (mat_cols _ Hm _ _ Hrow) as [Hl _].
  destruct (index_Ret row j) as (x & -> & Hx); [unfold len; lia|]. cbn [mbind outcome_bind]. eauto.
Qed.

(** Replacing an entry of a good matrix. *)
Lemma mat_good_insert m i j row x y :
  mat_good m → Z.of_nat i ∈ en → Z.of_nat j ∈ en → 0 ≤ y → m !! i = Some row → row !! j = Some x →
  mat_good (<[i := <[j := y]> row]> m).
Proof.
  intros Hm Hi Hj Hy Hrow Hx. destruct (mat_cols _ Hm _ _ Hrow) as [Hl [Hn Hs]]. split.
  - rewrite length_insert. apply Hm.
  - intros i' row' [(<- & <- & _)|[Hne H']]%list_lookup_insert_Some; [|by apply (mat_cols _ Hm i')].
    split; [by rewrite length_insert|]. split; [by apply Forall_insert|].
    intros j' x' [(<- & <- & _)|[Hne H']]%list_lookup_insert_Some Hx'; [done|by eapply Hs].
  - intros i' row' [(<- & <- & _)|[Hne H']]%list_lookup_insert_Some Hoff; [done|by apply (mat_off _ Hm i')].
Qed.
Lemma entry_at_insert m i j row y i' j' :
  m !! i = Some row → (j < length row)%nat →
  entry_at (<[i := <[j := y]> row]> m) i' j' = if decide (i' = i ∧ j' = j) then y else entry_at m i' j'.
Proof.
  intros Hrow Hj. unfold entry_at. assert (i < length m)%nat by (by eapply lookup_lt_Some).
  destruct (decide (i' = i)) as [->|Hi].
  - rewrite list_lookup_insert_eq by done. rewrite Hrow. cbn. destruct (decide (j' = j)) as [->|Hj'].
    + rewrite list_lookup_insert_eq by done. by rewrite decide_True.
    + rewrite list_lookup_insert_ne by done. by rewrite decide_False by naive_solver.
  - rewrite list_lookup_insert_ne by done. by rewrite decide_False by naive_solver.
Qed.

Lemma mat_adds_spec l m :
  mat_good m → Forall inc_ok l →
  (∀ i row, m !! i = Some row → zsum row + row_total l (Z.of_nat i) < 2 ^ 31) →
  ∃ m', mat_adds m l = Ret m' ∧ mat_good m'
    ∧ (∀ i row', m' !! i = Some row' → ∃ row, m !! i = Some row ∧ zsum row' = zsum row + row_total l (Z.of_nat i))
    ∧ (∀ i j, entry_at m' i j = entry_at m i j + entry_total l (Z.of_nat i) (Z.of_nat j)).
Proof.
  intros Hm Hl. revert m Hm. induction Hl as [|[[i j] v] l (Hi & Hj & Hv) Hl IH]; intros m Hm Hfit; cbn [mat_adds].
  { exists m. split_and!; [done|done| |].
    - intros i row Hr. exists row. split; [done|]. unfold row_total. cbn. lia.
    - intros i j. unfold entry_total. cbn. lia. }
  cbn [fst snd] in *. pose proof (Hen i Hi) as Hir. pose proof (Hen j Hj) as Hjr.
  destruct (mat_update_spec m i j (λ x, i32 (x + v)) Hm Hir Hjr) as (row & x & Hrow & Hx & E). unfold mat_add. rewrite E.
  cbn [mbind outcome_bind]. destruct (mat_cols _ Hm _ _ Hrow) as [Hlen [Hn Hs]].
  assert (Htot : ∀ k, row_total ((i, j, v) :: l) k = (if decide (k = i) then v else 0) + row_total l k).
  { intros k. unfold row_total. rewrite filter_cons. cbn [fst snd]. repeat case_decide; try naive_solver; cbn; unfold zsum; lia. }
  assert (Hetot : ∀ a b, entry_total ((i, j, v) :: l) a b = (if decide (a = i ∧ b = j) then v else 0) + entry_total l a b).
  { intros a b. unfold entry_total. rewrite filter_cons. cbn [fst snd]. repeat case_decide; try naive_solver; cbn; unfold zsum; lia. }
  assert (Hpos : ∀ k, 0 ≤ row_total l k).
  { intros k. unfold row_total. apply zsum_nonneg, Forall_fmap, Forall_forall. intros y [_ Hy]%list_elem_of_filter.
    rewrite Forall_forall in Hl. by apply Hl. }
  pose proof (Hfit _ _ Hrow) as Hf. rewrite Z2Nat.id, Htot, decide_True in Hf by (done || lia).
  assert (Hx0 : 0 ≤ x) by (by eapply Forall_lookup_1 in Hn). assert (Hxs : x ≤ zsum row) by (apply zsum_elem; [done|by eapply list_elem_of_lookup_2]).
  pose proof (Hpos i). rewrite i32_id by lia. set (m1 := <[_ := _]> m).
  assert (Hm1 : mat_good m1) by (apply (mat_good_insert _ _ _ row x); rewrite ?Z2Nat.id; done || lia).
  assert (Hrows1 : ∀ k row1, m1 !! k = Some row1 → ∃ row0, m !! k = Some row0 ∧
    zsum row1 = zsum row0 + (if decide (Z.of_nat k = i) then v else 0)).
  { intros k row1 [(<- & <- & _)|[Hne Hk]]%list_lookup_insert_Some.
    - exists row. split; [done|]. rewrite decide_True by lia. rewrite (zsum_insert row _ x) by done. lia.
    - exists row1. split; [done|]. rewrite decide_False by lia. lia. }
  destruct (IH m1 Hm1) as (m2 & E2 & Hm2 & Hrows2 & Hent2).
  { intros k row1 Hk. destruct (Hrows1 _ _ Hk) as (row0 & Hk0 & ->). specialize (Hfit _ _ Hk0). rewrite Htot in Hfit. lia. }
  exists m2. split_and!; [done|done| |].
  - intros k row2 Hk. destruct (Hrows2 _ _ Hk) as (row1 & Hk1 & ->). destruct (Hrows1 _ _ Hk1) as (row0 & Hk0 & ->).
    exists row0. split; [done|]. rewrite Htot. lia.
  - intros a b. rewrite Hent2, Hetot. unfold m1. rewrite (entry_at_insert m _ _ row) by (done || lia).
    destruct (decide (a = Z.to_nat i ∧ b = Z.to_nat j)) as [[-> ->]|Hne].
    + rewrite !Z2Nat.id, (decide_True (P := _ ∧ _)) by (done || lia). unfold entry_at. rewrite Hrow. cbn. rewrite Hx. cbn. lia.
    + rewrite (decide_False (P := Z.of_nat a = i ∧ Z.of_nat b = j)) by lia. lia.
Qed.

(** ** Self-priorities *)

Lemma foldl_max_spec l x : x ≤ foldl Z.max x l ∧ Forall (λ y, y ≤ foldl Z.max x l) l ∧ foldl Z.max x l ∈ x :: l.
Proof.
  revert x. induction l as [|y l IH]; intros x; cbn; [split_and!; [done|done|by left]|].
  destruct (IH (Z.max x y)) as (H1 & H2 & H3). split_and!; [lia|constructor; [lia|done]|].
  apply elem_of_cons in H3 as [H3|H3]; [|by right; right]. rewrite H3. destruct (Z.max_spec x y) as [[_ ->]|[_ ->]];
    [right; left|left].
Qed.
Lemma slices_Max_spec row :
  row ≠ [] → ∃ mx, slices_Max row = Ret mx ∧ mx ∈ row ∧ Forall (λ y, y ≤ mx) row.
Proof.
  destruct row as [|x row]; [done|]. intros _. destruct (foldl_max_spec row x) as (H1 & H2 & H3).
  exists (foldl Z.max x row). split_and!; [done|done|by constructor].
Qed.

(** One row with its self-priority. *)
Definition self_row (i : nat) (row row' : list Z) : Prop :=
  0 < zsum row' ≤ 2 * zsum row + 1 ∧ ∀ B, 1 ≤ B → Forall (λ p, p ≤ B) row → Forall (λ p, p ≤ B) row'.

Lemma self_row_ok i row mx :
  row_good en row → row !! i = Some 0 → mx ∈ row → Forall (λ y, y ≤ mx) row → mx * 3 < 2 ^ 31 →
  self_row i row (<[i := if decide (mx = 0) then 1 else Z.quot (i32 (mx * 3)) 4]> row).
Proof.
  intros [Hn _] Hi Hin Hmax Hfit. assert (H0 : 0 ≤ mx) by (by eapply Forall_forall in Hn).
  pose proof (zsum_elem row mx Hn Hin) as Hs. rewrite i32_id by lia.
  assert (Hq : Z.quot (mx * 3) 4 = mx * 3 / 4) by (apply Z.quot_div_nonneg; lia). rewrite Hq.
  assert (Hle : mx * 3 / 4 ≤ mx) by (apply Z.div_le_upper_bound; lia). assert (0 ≤ mx * 3 / 4) by (apply Z.div_pos; lia).
  split.
  - rewrite (zsum_insert row i 0) by done. case_decide; lia.
  - intros B HB Hall. apply Forall_insert; [done|]. case_decide; [lia|].
    assert (mx ≤ B) by (by eapply (Forall_forall _ row) in Hall). lia.
Qed.

Lemma self_prios_spec ids m :
  NoDup ids → Forall (λ c, c ∈ en) ids → mat_good m →
  (∀ i, Z.of_nat i ∈ ids → entry_at m i i = 0) → (∀ i row, m !! i = Some row → Forall (λ p, p * 3 < 2 ^ 31) row) →
  ∃ m', self_prios ids m = Ret m' ∧ mat_good m' ∧
    ∀ i row', m' !! i = Some row' → ∃ row, m !! i = Some row ∧
      if decide (Z.of_nat i ∈ ids) then self_row i row row' else row' = row.
Proof.
  intros Hnd Hids. revert m. induction Hids as [|c ids Hc Hids IH]; intros m Hm Hdiag Hfit; cbn [self_prios].
  { exists m. split_and!; [done|done|]. intros i row Hr. exists row. split; [done|].
    rewrite decide_False by apply not_elem_of_nil. done. }
  apply NoDup_cons in Hnd as [Hcn Hnd]. pose proof (Hen c Hc) as Hcr.
  destruct (index_Ret m c) as (row & -> & Hrow); [unfold len; rewrite (mat_rows _ Hm); lia|]. cbn [mbind outcome_bind].
  destruct (mat_cols _ Hm _ _ Hrow) as [Hlen Hgood].
  destruct (slices_Max_spec row) as (mx & -> & Hin & Hmax); [intros ->; cbn in Hlen; lia|]. cbn [mbind outcome_bind].
  destruct (mat_update_spec m c c (λ _, if decide (mx = 0) then 1 else Z.quot (i32 (mx * 3)) 4) Hm Hcr Hcr)
    as (row0 & x & Hrow0 & Hx & E). rewrite Hrow in Hrow0. injection Hrow0 as <-. rewrite E. cbn [mbind outcome_bind].
  assert (Hx0 : x = 0).
  { specialize (Hdiag (Z.to_nat c)). rewrite Z2Nat.id in Hdiag by lia. specialize (Hdiag ltac:(left)).
    unfold entry_at in Hdiag. rewrite Hrow in Hdiag. cbn in Hdiag. by rewrite Hx in Hdiag. }
  subst x. assert (Hmx3 : mx * 3 < 2 ^ 31) by (apply (Forall_forall (λ p, p * 3 < 2 ^ 31) row); [by eapply Hfit|done]).
  pose proof (self_row_ok (Z.to_nat c) row mx Hgood Hx Hin Hmax Hmx3) as Hself.
  set (y := if decide (mx = 0) then 1 else _) in *. set (m1 := <[_ := _]> m).
  assert (Hmx0 : 0 ≤ mx) by (destruct Hgood as [Hn _]; by eapply Forall_forall in Hn).
  assert (Hy : 0 ≤ y ∧ y * 3 < 2 ^ 31).
  { unfold y. case_decide; [lia|]. rewrite i32_id by lia. rewrite Z.quot_div_nonneg by lia.
    assert (mx * 3 / 4 ≤ mx) by (apply Z.div_le_upper_bound; lia). assert (0 ≤ mx * 3 / 4) by (apply Z.div_pos; lia). lia. }
  assert (Hm1 : mat_good m1) by (apply (mat_good_insert _ _ _ row 0); rewrite ?Z2Nat.id; tauto || lia).
  destruct (IH Hnd m1 Hm1) as (m2 & E2 & Hm2 & Hrows2).
  { intros i Hi. unfold m1. rewrite (entry_at_insert m _ _ row) by (done || lia). rewrite decide_False; [apply Hdiag; by right|].
    intros [-> _]. rewrite Z2Nat.id in Hi by lia. done. }
  { intros i row1 [(_ & <- & _)|[_ Hk]]%list_lookup_insert_Some; [|by eapply Hfit].
    apply Forall_insert; [by eapply Hfit|tauto]. }
  exists m2. split_and!; [done|done|]. intros i row2 Hr2. destruct (Hrows2 _ _ Hr2) as (row1 & Hr1 & Hcase).
  apply list_lookup_insert_Some in Hr1 as [(<- & <- & _)|[Hne Hk]].
  - exists row. split; [done|]. rewrite Z2Nat.id in * by lia. rewrite decide_False in Hcase by done. subst row2.
    by rewrite decide_True by (by left).
  - exists row1. split; [done|]. destruct (decide (Z.of_nat i ∈ ids)); [rewrite decide_True by (by right); done|].
    rewrite decide_False; [done|]. intros [Hi|?]%elem_of_cons; [lia|done].
Qed.

(** ** Normalisation and sums of matrices *)

Abbreviation t := (10 * Z.of_nat (size en)).
Definition rows_fit (m : matrix) : Prop :=
  ∀ i row, m !! i = Some row → zsum row < 2 ^ 31 ∧ Forall (λ p, p * t < 2 ^ 31) row.

Lemma normalizePrios_good m :
  en ≠ ∅ → t < 2 ^ 31 → mat_good m → rows_fit m →
  mat_good (normalizePrios m (Z.of_nat (size en))) ∧
  ∀ i row', normalizePrios m (Z.of_nat (size en)) !! i = Some row' →
    ∃ row, m !! i = Some row ∧ zsum row' ≤ t ∧ (0 < zsum row → 0 < zsum row').
Proof.
  intros Hne Ht Hm Hfit. unfold normalizePrios.
  assert (Hrow : ∀ i row', (normalize_row (i32 (10 * i32 (Z.of_nat (size en)))) <$> m) !! i = Some row' →
    ∃ row, m !! i = Some row ∧ length row' = length row ∧ row_good en row' ∧ zsum row' ≤ t
      ∧ (0 < zsum row → 0 < zsum row') ∧ (zsum row = 0 → zsum row' = 0)).
  { intros i row'. rewrite list_lookup_fmap_Some. intros (row & -> & Hr). exists row. split; [done|].
    destruct (Hfit _ _ Hr) as [H1 H2]. destruct (mat_cols _ Hm _ _ Hr) as [_ Hg].
    destruct (normalize_row_good en row Hne Hg H1 H2 Ht) as (K1 & K2 & K3 & K4). split_and!; [done..|].
    intros Hz. unfold normalize_row. rewrite row_sum_exact, decide_True by (apply Hg || done). done. }
  split; [split|].
  - rewrite length_fmap. apply Hm.
  - intros i row' Hr'. destruct (Hrow _ _ Hr') as (row & Hr & -> & Hg & _). destruct (mat_cols _ Hm _ _ Hr) as [-> _]. done.
  - intros i row' Hr' Hoff. destruct (Hrow _ _ Hr') as (row & Hr & _ & _ & _ & _ & Hz). by apply Hz, (mat_off _ Hm i).
  - intros i row' Hr'. destruct (Hrow _ _ Hr') as (row & Hr & _ & _ & H1 & H2 & _). eauto.
Qed.

Lemma zsum_zip r1 r2 :
  length r1 = length r2 → Forall (λ x, 0 ≤ x) r1 → Forall (λ x, 0 ≤ x) r2 → zsum r1 + zsum r2 < 2 ^ 31 →
  zip_with (λ x y, i32 (x + y)) r1 r2 = zip_with Z.add r1 r2 ∧ zsum (zip_with Z.add r1 r2) = zsum r1 + zsum r2.
Proof.
  revert r2. induction r1 as [|x r1 IH]; intros [|y r2] Hl H1 H2 Hs; try done. apply Forall_cons in H1 as [Hx H1].
  apply Forall_cons in H2 as [Hy H2]. pose proof (zsum_nonneg r1 H1). pose proof (zsum_nonneg r2 H2).
  change (zsum (x :: r1)) with (x + zsum r1) in *. change (zsum (y :: r2)) with (y + zsum r2) in *.
  destruct (IH r2) as [E1 E2]; [by injection Hl|done|done|lia|]. cbn [zip_with]. rewrite E1, i32_id by lia. split; [done|].
  change (zsum ((x + y) :: zip_with Z.add r1 r2)) with (x + y + zsum (zip_with Z.add r1 r2)). lia.
Qed.
Lemma mat_sum_good m1 m2 :
  mat_good m1 → mat_good m2 →
  (∀ i r1 r2, m1 !! i = Some r1 → m2 !! i = Some r2 → zsum r1 + zsum r2 < 2 ^ 31) →
  mat_good (mat_sum m1 m2) ∧
  ∀ i row, mat_sum m1 m2 !! i = Some row →
    ∃ r1 r2, m1 !! i = Some r1 ∧ m2 !! i = Some r2 ∧ zsum row = zsum r1 + zsum r2.
Proof.
  intros Hm1 Hm2 Hfit. unfold mat_sum.
  assert (Hrow : ∀ i row, zip_with (zip_with (λ x y, i32 (x + y))) m1 m2 !! i = Some row → ∃ r1 r2, m1 !! i = Some r1
    ∧ m2 !! i = Some r2 ∧ row = zip_with Z.add r1 r2 ∧ zsum row = zsum r1 + zsum r2).
  { intros i row. rewrite lookup_zip_with_Some. intros (r1 & r2 & -> & H1 & H2). exists r1, r2.
    destruct (mat_cols _ Hm1 _ _ H1) as [L1 [N1 _]]. destruct (mat_cols _ Hm2 _ _ H2) as [L2 [N2 _]].
    destruct (zsum_zip r1 r2) as [E1 E2]; [congruence|done|done|by eapply Hfit|]. rewrite E1. done. }
  split; [split|].
  - rewrite length_zip_with, (mat_rows _ Hm1), (mat_rows _ Hm2). lia.
  - intros i row Hr. destruct (Hrow _ _ Hr) as (r1 & r2 & H1 & H2 & -> & _).
    destruct (mat_cols _ Hm1 _ _ H1) as [L1 [N1 S1]]. destruct (mat_cols _ Hm2 _ _ H2) as [L2 [N2 S2]]. split.
    + rewrite length_zip_with. lia.
    + split.
      * apply Forall_lookup_2. intros j x. rewrite lookup_zip_with_Some. intros (a & b & -> & Ha & Hb).
        pose proof (Forall_lookup_1 _ _ _ _ N1 Ha). pose proof (Forall_lookup_1 _ _ _ _ N2 Hb). simpl in *. lia.
      * intros j x. rewrite lookup_zip_with_Some. intros (a & b & -> & Ha & Hb) Hx.
        destruct (decide (a = 0)) as [->|]; [|by eapply S1]. destruct (decide (b = 0)) as [->|]; [done|by eapply S2].
  - intros i row Hr Hoff. destruct (Hrow _ _ Hr) as (r1 & r2 & H1 & H2 & _ & ->).
    rewrite (mat_off _ Hm1 i r1), (mat_off _ Hm2 i r2) by done. done.
  - intros i row Hr. destruct (Hrow _ _ Hr) as (r1 & r2 & H1 & H2 & _ & E). eauto.
Qed.
End matrices.

(** ** Resource usage *)

Definition weights_of (en : gset Z) (c : Z) (w : weights) : Prop :=
  w_call w = c ∧ c ∈ en ∧ 0 ≤ w_in w ≤ 10 ∧ 0 ≤ w_inout w ≤ 10.
Definition uses_ok (en : gset Z) (uses : Uses) : Prop := map_Forall (λ _ wm, map_Forall (weights_of en) wm) uses.

Lemma noteUsage_ok en uses c weight dir id :
  uses_ok en uses → c ∈ en → 0 ≤ weight ≤ 10 → uses_ok en (noteUsage uses c weight dir id).
Proof.
  intros Hu Hc Hw. unfold noteUsage. apply map_Forall_insert_2; [|done].
  assert (Hm : map_Forall (weights_of en) (default ∅ (uses !! id))).
  { destruct (uses !! id) as [wm|] eqn:E; [by apply (Hu id)|apply map_Forall_empty]. }
  apply map_Forall_insert_2; [|done].
  assert (Hold : 0 ≤ w_in (default (mkWeights 0 0 0) (default ∅ (uses !! id) !! c)) ≤ 10 ∧
    0 ≤ w_inout (default (mkWeights 0 0 0) (default ∅ (uses !! id) !! c)) ≤ 10).
  { destruct (default ∅ (uses !! id) !! c) as [w|] eqn:E; [|cbn; lia]. apply Hm in E as (_ & _ & ? & ?). done. }
  split_and!; cbn; try done; repeat case_decide; lia.
Qed.
Lemma note_kinds_ok en uses c dir str kinds :
  uses_ok en uses → c ∈ en → uses_ok en (note_kinds uses c dir str kinds).
Proof.
  intros Hu Hc. revert uses str Hu. induction kinds as [|k kinds IH]; intros uses str Hu; cbn; [done|].
  apply IH, noteUsage_ok; [done|done|]. case_decide; lia.
Qed.
Lemma note_type_ok typeRefs target en c uses t dir opt uses' stop :
  uses_ok en uses → note_type typeRefs target en c uses t dir opt = Ret (uses', stop) → uses_ok en uses'.
Proof.
  intros Hu. unfold note_type. case_decide as Hc; [by intros [= <- _]|].
  destruct t; try (by intros [= <- _]).
  - case_decide; intros [= <- _]; [apply noteUsage_ok; [done|done|lia]|by apply note_kinds_ok].
  - intros [= <- _]. apply noteUsage_ok; [done|done|lia].
  - destruct Kind; try (by intros [= <- _]); [case_decide| |case_decide]; intros [= <- _]; try done;
      apply noteUsage_ok; (done || lia).
  - intros H. apply bind_Ret in H as (e & _ & H). destruct e; try (by injection H as <- _);
      try (injection H as <- _; apply noteUsage_ok; (done || lia)).
    apply bind_Ret in H as (e2 & _ & H). injection H as <- _. apply noteUsage_ok; (done || lia).
Qed.

(** What the callback keeps, the traversal keeps. *)
Lemma foreachTypeRec_inv {A} typeRefs (cb : A → Typ → Dir → bool → outcome (A * bool)) (P : A → Prop) fuel t dir opt st st' :
  (∀ acc t d o acc' stop, P acc → cb acc t d o = Ret (acc', stop) → P acc') →
  P (snd st) → foreachTypeRec typeRefs cb fuel t dir opt st = Ret (Some st') → P (snd st').
Proof.
  intros Hcb. revert t dir opt st st'. induction fuel as [|fuel IH]; intros t dir opt st st' HP H; cbn [foreachTypeRec] in H; [done|].
  apply bind_Ret in H as (typ & _ & H). apply bind_Ret in H as ([acc stop] & Ecb & H).
  pose proof (Hcb _ _ _ _ _ _ HP Ecb) as HP1. destruct stop; [by injection H as <-|].
  set (opt1 := opt || TOptional typ) in *.
  assert (Hf : ∀ fields st0 st1, P (snd st0) → (fix go (l : list Field) (st : visit_state) : outcome (option visit_state) :=
       match l with
       | [] => Ret (Some st)
       | f :: l =>
           r ← foreachTypeRec typeRefs cb fuel (FieldType f) (FieldDir f dir) opt1 st;
           match r with None => Ret None | Some st => go l st end
       end) fields st0 = Ret (Some st1) → P (snd st1)).
  { induction fields as [|f fields IHf]; intros st0 st1 HP0 H0; [by injection H0 as <-|].
    apply bind_Ret in H0 as (r & Er & H0). destruct r as [st2|]; [|done]. eapply IHf; [|exact H0]. by eapply IH. }
  destruct typ; try (by injection H as <-); try (by eapply IH; [|exact H]);
    (case_decide; [by injection H as <-|by eapply Hf; [|exact H]]).
Qed.
Lemma ForeachCallType_inv {A} typeRefs (cb : A → Typ → Dir → bool → outcome (A * bool)) (P : A → Prop) fuel meta acc acc' :
  (∀ acc t d o acc' stop, P acc → cb acc t d o = Ret (acc', stop) → P acc') →
  P acc → ForeachCallType typeRefs cb fuel meta acc = Ret (Some acc') → P acc'.
Proof.
  intros Hcb HP H. unfold ForeachCallType in H. apply bind_Ret in H as (r & Er & H). destruct r as [st|]; [|done].
  injection H as <-. revert Er. generalize (((λ f, (FieldType f, DirIn)) <$> SysArgs meta) ++ match SysRet meta with Some t => [(t, DirOut)] | None => [] end).
  intros l. assert (HP0 : P (snd ([] : list seenKey, acc))) by done. revert HP0. generalize ([] : list seenKey, acc).
  induction l as [|[t d] l IH]; intros st0 HP0 Er; cbn [visit_list] in Er; [by injection Er as <-|].
  apply bind_Ret in Er as (r & Er & E2). destruct r as [st1|]; [|done]. eapply IH; [|exact E2].
  by eapply foreachTypeRec_inv.
Qed.
Lemma calcResourceUsage_ok typeRefs target fuel en uses :
  calcResourceUsage typeRefs target fuel en = Ret (Some uses) → uses_ok en uses.
Proof.
  unfold calcResourceUsage. assert (H0 : uses_ok en ∅) by apply map_Forall_empty. revert H0. generalize (∅ : Uses).
  induction (Syscalls target) as [|meta l IH]; intros u0 H0 H; cbn [usage_calls] in H; [by injection H as <-|].
  apply bind_Ret in H as (r & Er & H). destruct r as [u1|]; [|done]. eapply IH; [|exact H].
  eapply (ForeachCallType_inv _ _ (uses_ok en)); [|exact H0|exact Er].
  intros acc t d o acc' stop Ha Hn. by eapply note_type_ok.
Qed.

(** ** The increments of the three components *)

Definition static_incs (uses : Uses) : list (Z * Z * Z) := concat ((λ wm, group_pairs (values wm)) <$> values uses).
Definition dynamic_incs (en : gset Z) (idss : list (list Z)) : list (Z * Z * Z) := concat (follow_pairs en <$> idss).

Lemma elem_of_concat_fmap {A B} (f : A → list B) (l : list A) y : y ∈ concat (f <$> l) ↔ ∃ x, x ∈ l ∧ y ∈ f x.
Proof.
  induction l as [|x l IH]; cbn; [split; [by intros ?%not_elem_of_nil|by intros (x & ?%not_elem_of_nil & _)]|].
  rewrite elem_of_app, IH. split.
  - intros [H|(z & Hz & H)]; [exists x; split; [by left|done]|exists z; split; [by right|done]].
  - intros (z & [->|Hz]%elem_of_cons & H); [by left|right; eauto].
Qed.
Lemma pair_weight_nonneg w0 w1 :
  0 ≤ w_in w1 ≤ 10 → 0 ≤ w_inout w0 ≤ 10 → 0 ≤ w_inout w1 ≤ 10 → 0 ≤ pair_weight w0 w1.
Proof.
  intros H1 H2 H3. unfold pair_weight. rewrite (i32_id (w_inout w0 * w_in w1)), (i32_id (w_inout w0 * w_inout w1)) by nia.
  rewrite (i32_id (w_inout w0 * w_in w1 * 3)) by nia. rewrite Z.quot_div_nonneg by nia.
  assert (0 ≤ w_inout w0 * w_in w1 * 3 / 2) by (apply Z.div_pos; nia).
  assert (w_inout w0 * w_in w1 * 3 / 2 ≤ w_inout w0 * w_in w1 * 3) by (apply Z.div_le_upper_bound; nia). rewrite i32_id; nia.
Qed.
Lemma static_incs_ok en uses :
  uses_ok en uses → Forall (inc_ok en) (static_incs uses) ∧ ∀ x, x ∈ static_incs uses → x.1.1 ≠ x.1.2.
Proof.
  intros Hu. assert (H : ∀ x, x ∈ static_incs uses → inc_ok en x ∧ x.1.1 ≠ x.1.2).
  { intros x. unfold static_incs, group_pairs. rewrite elem_of_concat_fmap. intros (wm & (id & Hwm)%elem_of_values & Hx).
    apply elem_of_concat_fmap in Hx as (w0 & (c0 & Hw0)%elem_of_values & Hx).
    apply elem_of_concat_fmap in Hx as (w1 & (c1 & Hw1)%elem_of_values & Hx).
    apply (Hu id) in Hwm. apply Hwm in Hw0 as (E0 & H0 & I0 & J0). apply Hwm in Hw1 as (E1 & H1 & I1 & J1).
    case_decide as Hne; [by apply not_elem_of_nil in Hx|]. apply list_elem_of_singleton in Hx as ->. unfold inc_ok. cbn.
    rewrite E0, E1 in *. split_and!; [done|done|by apply pair_weight_nonneg|done]. }
  split; [apply Forall_forall|]; intros x Hx; by apply H.
Qed.
Lemma follow_pairs_ok en ids : Forall (inc_ok en) (follow_pairs en ids).
Proof.
  induction ids as [|c0 ids IH]; cbn; [done|]. apply Forall_app. split; [|done]. case_decide; [|done].
  apply Forall_fmap, Forall_forall. intros c1 [H1 _]%list_elem_of_filter. by split_and!.
Qed.
Lemma dynamic_incs_ok en idss : Forall (inc_ok en) (dynamic_incs en idss).
Proof.
  apply Forall_forall. intros x (ids & _ & Hx)%elem_of_concat_fmap. pose proof (follow_pairs_ok en ids) as H.
  rewrite Forall_forall in H. auto.
Qed.
Lemma boost_incs_ok en boosts : Forall (inc_ok en) (omap (boost_entry en) boosts).
Proof.
  apply Forall_forall. intros x (b & _ & Hb)%list_elem_of_omap. unfold boost_entry in Hb.
  destruct (From b) as [f|]; [|done]. destruct (To b) as [to|]; [|done]. destruct (decide (ID f ∈ en ∧ ID to ∈ en)) as [[? ?]|]; [|done].
  injection Hb as <-. split_and!; [done|done|]. cbn. case_decide; lia.
Qed.

(** ** The three matrices *)

Section components.
Context (target : Target) (en : gset Z).
Abbreviation N := (length (Syscalls target)).
Hypothesis Hen : ∀ c, c ∈ en → 0 ≤ c < Z.of_nat N.
Hypothesis Hne : en ≠ ∅.
Abbreviation t := (10 * Z.of_nat (size en)).
Hypothesis Ht : 3 * t < 2 ^ 31.

Lemma t_pos : 10 ≤ t.
Proof.
  destruct (decide (size en = 0%nat)) as [E|]; [|lia]. by apply size_empty_iff, leibniz_equiv in E.
Qed.

(** The increments do not overflow: their sum in every row and, scaled, in
    every entry. *)
Definition incs_fit (scale : Z) (l : list (Z * Z * Z)) : Prop :=
  (∀ i, scale * row_total l i + 1 < 2 ^ 31) ∧ ∀ i j, entry_total l i j * t < 2 ^ 31.

Lemma row_entries m i row p : m !! i = Some row → p ∈ row → ∃ j, p = entry_at m i j.
Proof.
  intros Hr [j Hj]%list_elem_of_lookup_1. exists j. unfold entry_at. rewrite Hr. cbn. by rewrite Hj.
Qed.

(** The matrix of increments. *)
Lemma incs_matrix l :
  Forall (inc_ok en) l → (∀ i, row_total l i < 2 ^ 31) →
  ∃ m, mat_adds (zero_matrix target) l = Ret m ∧ mat_good target en m
    ∧ (∀ i row, m !! i = Some row → zsum row = row_total l (Z.of_nat i))
    ∧ (∀ i j, entry_at m i j = entry_total l (Z.of_nat i) (Z.of_nat j)).
Proof.
  intros Hl Hfit. destruct (mat_adds_spec target en Hen l (zero_matrix target)) as (m & E & Hm & Hrows & Hent); [apply zero_matrix_good|done| |].
  { intros i row ->%zero_matrix_lookup. rewrite zsum_replicate. apply Hfit. }
  exists m. split_and!; [done|done| |].
  - intros i row Hr. destruct (Hrows _ _ Hr) as (row0 & Hr0 & ->). apply zero_matrix_lookup in Hr0 as ->.
    rewrite zsum_replicate. lia.
  - intros i j. rewrite Hent. unfold entry_at. destruct (zero_matrix target !! i) as [row|] eqn:E0; [|cbn; lia].
    apply zero_matrix_lookup in E0 as ->. cbn. destruct (replicate N 0 !! j) eqn:E1; [|cbn; lia].
    apply lookup_replicate in E1 as [-> _]. cbn. lia.
Qed.

(** A normalised component. *)
Definition component (m : matrix) (positive : Prop) : Prop :=
  mat_good target en m ∧ ∀ i row, m !! i = Some row → zsum row ≤ t ∧ (positive → Z.of_nat i ∈ en → 0 < zsum row).

Lemma static_component uses :
  uses_ok en uses → incs_fit 2 (static_incs uses) →
  ∃ m, calcStaticPriorities target en uses = Ret m ∧ component m True.
Proof.
  intros Hu [Hfit Hent]. destruct (static_incs_ok en uses Hu) as [Hok Hdiag]. pose proof t_pos as Htp.
  unfold calcStaticPriorities. fold (static_incs uses).
  assert (Hpos : ∀ i, 0 ≤ row_total (static_incs uses) i).
  { intros i. unfold row_total. apply zsum_nonneg, Forall_fmap, Forall_forall. intros y [_ Hy]%list_elem_of_filter.
    rewrite Forall_forall in Hok. by apply Hok. }
  destruct (incs_matrix (static_incs uses) Hok) as (m & E & Hm & Hrows & Hents).
  { intros i. specialize (Hfit i). specialize (Hpos i). lia. }
  rewrite E. cbn [mbind outcome_bind].
  assert (Hbound : ∀ i row, m !! i = Some row → Forall (λ p, p * t < 2 ^ 31) row).
  { intros i row Hr. apply Forall_forall. intros p Hp. destruct (row_entries m i row p Hr Hp) as [j ->]. rewrite Hents. apply Hent. }
  destruct (self_prios_spec target en Hen (elements en) m) as (m1 & E1 & Hm1 & Hrows1).
  - apply NoDup_elements.
  - apply Forall_forall. intros c. by rewrite elem_of_elements.
  - done.
  - intros i _. rewrite Hents. unfold entry_total.
    replace (filter (λ x, x.1 = (Z.of_nat i, Z.of_nat i)) (static_incs uses)) with (@nil (Z * Z * Z)); [done|].
    symmetry. apply elem_of_nil_inv. intros x [Hx Hin]%list_elem_of_filter. apply Hdiag in Hin. apply Hin. by rewrite Hx.
  - intros i row Hr. pose proof (mat_cols _ _ _ Hm _ _ Hr) as [_ [Hn _]]. apply Forall_forall. intros p Hp.
    specialize (Hbound _ _ Hr). rewrite Forall_forall in Hbound, Hn. specialize (Hbound p Hp). specialize (Hn p Hp).
    simpl in *. nia.
  - rewrite E1. cbn [mbind outcome_bind]. eexists. split; [done|].
    assert (Hrow1 : ∀ i row1, m1 !! i = Some row1 → zsum row1 < 2 ^ 31 ∧ Forall (λ p, p * t < 2 ^ 31) row1
      ∧ (Z.of_nat i ∈ en → 0 < zsum row1)).
    { intros i row1 Hr1. destruct (Hrows1 _ _ Hr1) as (row & Hr & Hcase). rewrite (decide_ext (Z.of_nat i ∈ elements en) (Z.of_nat i ∈ en)) in Hcase by (apply elem_of_elements).
      pose proof (Hrows _ _ Hr) as Hs. specialize (Hfit (Z.of_nat i)). specialize (Hpos (Z.of_nat i)).
      destruct (decide (Z.of_nat i ∈ en)) as [Hin|Hout].
      - destruct Hcase as [Hsum HB]. split_and!; [lia| |lia].
        assert (Hall : Forall (λ p, p ≤ (2 ^ 31 - 1) / t) row1).
        { apply HB; [apply Z.div_le_lower_bound; lia|]. eapply Forall_impl; [by eapply Hbound|]. simpl. intros p Hp.
          apply Z.div_le_lower_bound; lia. }
        eapply Forall_impl; [exact Hall|]. simpl. intros p Hp. assert (0 < t) by lia.
          pose proof (Z.mul_div_le (2 ^ 31 - 1) t) as Hdiv.
          assert (p * t ≤ (2 ^ 31 - 1) / t * t) by (apply Z.mul_le_mono_nonneg_r; lia). specialize (Hdiv ltac:(assumption)). lia.
      - subst row1. split_and!; [lia|by eapply Hbound|done]. }
    destruct (normalizePrios_good target en m1 Hne ltac:(lia) Hm1) as [Hm2 Hrows2].
    { intros i row Hr. destruct (Hrow1 _ _ Hr) as (? & ? & _). done. }
    split; [done|]. intros i row Hr. destruct (Hrows2 _ _ Hr) as (row1 & Hr1 & Hle & Hp). split; [done|].
    intros _ Hin. by apply Hp, (Hrow1 i).
Qed.

Lemma sqrt_prio_bound v : 0 ≤ v → 0 ≤ sqrt_prio v ≤ 2 * v.
Proof.
  intros Hv. unfold sqrt_prio. split; [apply Z.sqrt_nonneg|]. destruct (decide (v = 0)) as [->|]; [done|].
  assert (Z.sqrt (4 * v) ≤ Z.sqrt ((2 * v) * (2 * v))) by (apply Z.sqrt_le_mono; nia).
  rewrite Z.sqrt_square in H by lia. done.
Qed.
Lemma zsum_sqrt row : Forall (λ x, 0 ≤ x) row → zsum (sqrt_prio <$> row) ≤ 2 * zsum row.
Proof.
  induction 1 as [|x row Hx _ IH]; [done|]. pose proof (sqrt_prio_bound x Hx). cbn. unfold zsum in *. lia.
Qed.

Lemma dynamic_component corpus idss :
  corpus_ids corpus = Ret idss →
  (∀ i, 2 * row_total (dynamic_incs en idss) i < 2 ^ 31) →
  (∀ i j, sqrt_prio (entry_total (dynamic_incs en idss) i j) * t < 2 ^ 31) →
  ∃ m, calcDynamicPrio target corpus en = Ret m ∧ component m False.
Proof.
  intros Hids Hfit Hent. unfold calcDynamicPrio. rewrite Hids. cbn [mbind outcome_bind]. fold (dynamic_incs en idss).
  pose proof (dynamic_incs_ok en idss) as Hok.
  assert (Hpos : ∀ i, 0 ≤ row_total (dynamic_incs en idss) i).
  { intros i. unfold row_total. apply zsum_nonneg, Forall_fmap, Forall_forall. intros y [_ Hy]%list_elem_of_filter.
    rewrite Forall_forall in Hok. by apply Hok. }
  destruct (incs_matrix (dynamic_incs en idss) Hok) as (m & E & Hm & Hrows & Hents).
  { intros i. specialize (Hfit i). specialize (Hpos i). lia. }
  rewrite E. cbn [mbind outcome_bind]. eexists. split; [done|].
  set (m1 := (λ row : list Z, sqrt_prio <$> row) <$> m).
  assert (Hm1 : mat_good target en m1 ∧ rows_fit en m1).
  { assert (Hl : ∀ i row1, m1 !! i = Some row1 → ∃ row, m !! i = Some row ∧ row1 = sqrt_prio <$> row).
    { intros i row1. unfold m1. rewrite list_lookup_fmap_Some. naive_solver. }
    assert (Hsum : ∀ i row, m !! i = Some row → 0 ≤ zsum row ∧ zsum (sqrt_prio <$> row) ≤ 2 * zsum row
      ∧ 0 ≤ zsum (sqrt_prio <$> row)).
    { intros i row Hr. destruct (mat_cols _ _ _ Hm _ _ Hr) as [_ [Hn _]]. split_and!; [by apply zsum_nonneg|by apply zsum_sqrt|].
      apply zsum_nonneg, Forall_fmap. eapply Forall_impl; [exact Hn|]. simpl. intros x Hx. by apply sqrt_prio_bound. }
    split; [split|].
    - unfold m1. rewrite length_fmap. apply Hm.
    - intros i row1 Hr1. destruct (Hl _ _ Hr1) as (row & Hr & ->). destruct (mat_cols _ _ _ Hm _ _ Hr) as [Hlen [Hn Hs]].
      split; [by rewrite length_fmap|]. split.
      + apply Forall_fmap. eapply Forall_impl; [exact Hn|]. simpl. intros x Hx. by apply sqrt_prio_bound.
      + intros j x. rewrite list_lookup_fmap_Some. intros (y & -> & Hy) Hx. apply (Hs j y Hy). intros ->. done.
    - intros i row1 Hr1 Hoff. destruct (Hl _ _ Hr1) as (row & Hr & ->). pose proof (mat_off _ _ _ Hm _ _ Hr Hoff).
      destruct (Hsum _ _ Hr). lia.
    - intros i row1 Hr1. destruct (Hl _ _ Hr1) as (row & Hr & ->). split.
      + pose proof (Hrows _ _ Hr) as Hs. destruct (Hsum _ _ Hr) as (? & ? & ?). specialize (Hfit (Z.of_nat i)). lia.
      + apply Forall_fmap, Forall_forall. intros p Hp. destruct (row_entries m i row p Hr Hp) as [j ->]. rewrite Hents.
        simpl. apply Hent. }
  destruct Hm1 as [Hm1 Hf1]. destruct (normalizePrios_good target en m1 Hne ltac:(lia) Hm1 Hf1) as [Hm2 Hrows2].
  split; [done|]. intros i row Hr. destruct (Hrows2 _ _ Hr) as (row1 & Hr1 & Hle & _). done.
Qed.

Lemma boost_component boosts :
  incs_fit 1 (omap (boost_entry en) boosts) → ∃ m, calcBoostPrio target boosts en = Ret m ∧ component m False.
Proof.
  intros [Hfit Hent]. unfold calcBoostPrio. pose proof (boost_incs_ok en boosts) as Hok.
  destruct (incs_matrix (omap (boost_entry en) boosts) Hok) as (m & E & Hm & Hrows & Hents).
  { intros i. specialize (Hfit i). lia. }
  rewrite E. cbn [mbind outcome_bind]. eexists. split; [done|].
  destruct (normalizePrios_good target en m Hne ltac:(lia) Hm) as [Hm2 Hrows2].
  { intros i row Hr. rewrite (Hrows _ _ Hr). split; [specialize (Hfit (Z.of_nat i)); lia|].
    apply Forall_forall. intros p Hp. destruct (row_entries m i row p Hr Hp) as [j ->]. rewrite Hents. apply Hent. }
  split; [done|]. intros i row Hr. destruct (Hrows2 _ _ Hr) as (row1 & Hr1 & Hle & _). done.
Qed.

(** Adding a component. *)
Definition table_matrix (m : matrix) (B : Z) : Prop :=
  mat_good target en m ∧ ∀ i row, m !! i = Some row → zsum row ≤ B ∧ (Z.of_nat i ∈ en → 0 < zsum row).
Lemma add_component m B m2 :
  table_matrix m B → component m2 False → B + t < 2 ^ 31 → table_matrix (mat_sum m m2) (B + t).
Proof.
  intros [Hm Hr] [Hm2 Hr2] HB.
  assert (Hfit : ∀ i r1 r2, m !! i = Some r1 → m2 !! i = Some r2 → zsum r1 + zsum r2 < 2 ^ 31).
  { intros i r1 r2 H1 H2. pose proof (Hr _ _ H1) as [? _]. pose proof (Hr2 _ _ H2) as [? _]. lia. }
  destruct (mat_sum_good target en m m2 Hm Hm2 Hfit) as [Hg Hs]. split; [done|]. intros i row Hrow.
  destruct (Hs _ _ Hrow) as (r1 & r2 & H1 & H2 & ->). pose proof (Hr _ _ H1) as [? Hp]. pose proof (Hr2 _ _ H2) as [? _].
  destruct (mat_cols _ _ _ Hm2 _ _ H2) as [_ [Hn _]]. pose proof (zsum_nonneg r2 Hn). split; [lia|]. intros Hi. specialize (Hp Hi). lia.
Qed.
End components.

(** ** Choosing *)

Lemma length_prefix_sums en j s row : length (prefix_sums en j s row) = length row.
Proof. revert j s. induction row as [|p row IH]; intros j s; cbn; [done|]. by rewrite IH. Qed.
Lemma prefix_sums_lookup (en : gset Z) (off : nat) s row k :
  Forall (λ x, 0 ≤ x) row → (∀ j x, row !! j = Some x → x ≠ 0 → Z.of_nat (off + j) ∈ en) →
  0 ≤ s → s + zsum row < 2 ^ 31 → (k < length row)%nat →
  prefix_sums en (Z.of_nat off) s row !! k = Some (s + zsum (take (S k) row)).
Proof.
  intros Hn. revert off s k. induction Hn as [|p row Hp Hn IH]; intros off s k Hs H0 Hfit Hk; [cbn in Hk; lia|].
  change (zsum (p :: row)) with (p + zsum row) in Hfit. pose proof (zsum_nonneg row Hn). cbn [prefix_sums].
  assert (Es : (if decide (Z.of_nat off ∈ en) then i32 (s + p) else s) = s + p).
  { case_decide as Hin; [apply i32_id; lia|]. destruct (decide (p = 0)) as [->|Hne]; [lia|].
    destruct Hin. specialize (Hs 0%nat p eq_refl Hne). by rewrite Nat.add_0_r in Hs. }
  rewrite Es. change (zsum (take (S k) (p :: row))) with (p + zsum (take k row)). destruct k as [|k]; [change (Some (s + p) = Some (s + (p + 0))); f_equal; lia|].
  replace (Z.of_nat off + 1) with (Z.of_nat (S off)) by lia. cbn [lookup list_lookup].
  change (prefix_sums en (Z.of_nat (S off)) (s + p) row !! k = Some (s + (p + zsum (take (S k) row)))).
  rewrite IH; [f_equal; lia| |lia|lia|cbn in Hk; lia].
  intros j x Hj Hx. replace (S off + j)%nat with (off + S j)%nat by lia. by apply (Hs (S j) x).
Qed.
Lemma zsum_take_le row j k : Forall (λ x, 0 ≤ x) row → (j ≤ k)%nat → zsum (take j row) ≤ zsum (take k row).
Proof.
  intros Hn Hjk. rewrite <-(take_drop j (take k row)), take_take, Nat.min_l, zsum_app by lia.
  pose proof (zsum_nonneg (drop j (take k row)) (Forall_drop _ _ _ (Forall_take _ _ _ Hn))). lia.
Qed.

Section choosing.
Context (target : Target) (en : gset Z) (m : matrix) (B : Z).
Hypothesis Hen : ∀ c, c ∈ en → 0 ≤ c < Z.of_nat (length (Syscalls target)).
Hypothesis Hne : en ≠ ∅.
Hypothesis Hm : table_matrix target en m B.
Hypothesis HB : B < 2 ^ 31.
Abbreviation ct := (table_of m en).

Lemma runs_lookup (c : Z) :
  0 ≤ c < Z.of_nat (length (Syscalls target)) → ∃ row, m !! Z.to_nat c = Some row ∧
    index (ct_runs ct) c = Ret (if decide (c ∈ en) then Some (prefix_sums en 0 0 row) else None).
Proof.
  intros Hc. destruct Hm as [Hg _]. destruct (m !! Z.to_nat c) as [row|] eqn:E.
  - exists row. split; [done|]. apply index_Some; [lia|]. cbn [ct_runs table_of]. rewrite list_lookup_imap, E. cbn.
    by rewrite Z2Nat.id by lia.
  - apply lookup_ge_None in E. rewrite (mat_rows _ _ _ Hg) in E. lia.
Qed.
Lemma generatable_iff c :
  0 ≤ c < Z.of_nat (length (Syscalls target)) → Generatable ct c = Ret (bool_decide (c ∈ en)).
Proof.
  intros Hc. unfold Generatable. destruct (runs_lookup c Hc) as (row & _ & ->). cbn [mbind outcome_bind].
  case_decide; [by rewrite bool_decide_true|by rewrite bool_decide_false].
Qed.

Lemma pick_any r : ∃ c r', any_call ct r = Ret (c, r') ∧ c ∈ en.
Proof.
  assert (Hl : 0 < len (ct_calls ct)).
  { cbn [ct_calls table_of]. unfold len. rewrite length_sort_by.
    destruct (elements en) as [|c l] eqn:E; [|cbn; lia]. apply elements_empty_inv, leibniz_equiv in E. done. }
  unfold any_call. destruct (Intn_Ret _ r Hl) as (i & -> & Hi). cbn [mbind outcome_bind].
  destruct (index_Ret (ct_calls ct) i Hi) as (c & -> & Hc). cbn [mbind outcome_bind].
  exists c, (tl r). split; [done|]. apply list_elem_of_lookup_2 in Hc. cbn [ct_calls table_of] in Hc.
  by rewrite elem_of_sort_by, elem_of_elements in Hc.
Qed.

(** The binary search over a row. *)
Lemma choose_search row q :
  length row = length (Syscalls target) → row_good en row → 0 < zsum row ≤ B → 0 ≤ q < zsum row →
  let run := prefix_sums en 0 0 row in
  let k := Search (length run) (λ i, match run !! i with Some v => bool_decide (q + 1 ≤ v) | None => true end) in
  (k < length row)%nat ∧ Z.of_nat k ∈ en ∧ zsum (take k row) ≤ q < zsum (take (S k) row).
Proof.
  intros Hlen [Hn Hs] Hsum Hq run k.
  assert (Hrun : ∀ i, (i < length row)%nat → run !! i = Some (zsum (take (S i) row))).
  { intros i Hi. unfold run. change 0 with (Z.of_nat 0) at 1. rewrite prefix_sums_lookup; [f_equal; lia|done|done|lia|lia|done]. }
  assert (Hlrun : length run = length row) by apply length_prefix_sums.
  assert (Hnone : ∀ i, (length row ≤ i)%nat → run !! i = None) by (intros; apply lookup_ge_None; lia).
  destruct (Search_spec (length run) (λ i, match run !! i with Some v => bool_decide (q + 1 ≤ v) | None => true end))
    as (H1 & H2 & H3).
  { intros a b Hab Ha. destruct (decide (b < length row)%nat); [|by rewrite (Hnone b) by lia].
    rewrite Hrun in Ha by lia. rewrite Hrun by lia. apply bool_decide_eq_true in Ha. apply bool_decide_eq_true.
    pose proof (zsum_take_le row (S a) (S b) Hn ltac:(lia)). lia. }
  fold k in H1, H2, H3. clearbody k. rewrite Hlrun in *.
  assert (Hk : (k < length row)%nat).
  { destruct (decide (k < length row)%nat); [done|]. destruct row as [|p row']; [cbn in Hsum; lia|].
    specialize (H2 (length row') ltac:(cbn in *; lia)). rewrite Hrun in H2 by (cbn; lia). apply bool_decide_eq_false in H2.
    rewrite take_ge in H2 by (cbn; lia). lia. }
  specialize (H3 Hk). rewrite Hrun in H3 by done. apply bool_decide_eq_true in H3.
  assert (Hlow : zsum (take k row) ≤ q).
  { destruct k as [|k']; [change (0 ≤ q); lia|]. specialize (H2 k' ltac:(lia)). rewrite Hrun in H2 by lia.
    apply bool_decide_eq_false in H2. lia. }
  split_and!; [done| |done|lia]. destruct (lookup_lt_is_Some_2 row k Hk) as [p Hp]. apply (Hs k p Hp). intros ->.
  rewrite (take_S_r row k 0), zsum_app in H3 by done. cbn in H3. lia.
Qed.

Lemma choose_biased bias r row :
  bias ∈ en → m !! Z.to_nat bias = Some row →
  ∃ k, choose_in_row ct bias r = Ret (Z.of_nat k, tl r) ∧ Z.of_nat k ∈ en
    ∧ zsum (take k row) ≤ hd 0 r mod zsum row < zsum (take (S k) row).
Proof.
  intros Hb Hrow. unfold choose_in_row. pose proof (Hen bias Hb) as Hbr. destruct (runs_lookup bias Hbr) as (row0 & Hrow0 & ->).
  rewrite Hrow in Hrow0. injection Hrow0 as <-. rewrite decide_True by done. cbn [mbind outcome_bind].
  destruct Hm as [Hg Hr]. destruct (mat_cols _ _ _ Hg _ _ Hrow) as [Hlen Hgood]. destruct (Hr _ _ Hrow) as [Hle Hpos].
  rewrite Z2Nat.id in Hpos by lia. specialize (Hpos Hb). pose proof (row_nonneg _ _ Hgood) as Hn.
  assert (Hlast : index (prefix_sums en 0 0 row) (len (prefix_sums en 0 0 row) - 1) = Ret (zsum row)).
  { unfold len. rewrite length_prefix_sums. apply index_Some; [lia|]. change 0 with (Z.of_nat 0) at 1.
    rewrite prefix_sums_lookup; [|done|apply Hgood|lia|lia|lia]. rewrite take_ge by lia. done. }
  rewrite Hlast. cbn [mbind outcome_bind]. unfold Intn. rewrite decide_True by done. cbn [mbind outcome_bind].
  set (q := hd 0 r mod zsum row). assert (Hq : 0 ≤ q < zsum row) by (by apply Z.mod_pos_bound).
  rewrite i32_id by lia. destruct (choose_search row q Hlen Hgood ltac:(lia) Hq) as (Hk & Hin & Hrange).
  cbv zeta in Hk, Hin, Hrange. set (k := Search _ _) in *. exists k. split; [|by split].
  rewrite generatable_iff by (by apply Hen). cbn [mbind outcome_bind]. by rewrite bool_decide_true.
Qed.

Lemma choose_ok bias r : bias < 0 ∨ bias ∈ en → ∃ c r', choose ct bias r = Ret (c, r') ∧ c ∈ en.
Proof.
  intros Hb. unfold choose. destruct (Intn_Ret 100 r) as (x & -> & _); [lia|]. cbn [mbind outcome_bind].
  destruct (decide (x < 5)); [apply pick_any|].
  assert (Hrow : ∀ b r1, b ∈ en → ∃ c r', choose_in_row ct b r1 = Ret (c, r') ∧ c ∈ en).
  { intros b r1 Hin. destruct (runs_lookup b (Hen b Hin)) as (row & Hrow & _).
    destruct (choose_biased b r1 row Hin Hrow) as (k & -> & Hk & _). eauto. }
  destruct (decide (bias < 0)) as [Hlt|Hge].
  - destruct (pick_any (tl r)) as (b & r1 & E & Hin). rewrite E. cbn [mbind outcome_bind]. by apply Hrow.
  - destruct Hb; [lia|]. cbn [mbind outcome_bind]. by apply Hrow.
Qed.
End choosing.

(** ** The traversal of types terminates *)

Section traversal.
Context {A : Type} (typeRefs : list Typ) (cb : A → Typ → Dir → bool → outcome (A * bool)).

Definition is_record (t : Typ) : bool :=
  match t with StructType _ _ _ _ | UnionType _ _ => true | _ => false end.
Definition in_table (t : Ref) : Prop := 0 ≤ t < len typeRefs.
(** The types a type refers to. *)
Definition type_children (t : Typ) : list Ref :=
  match t with
  | PtrType _ e _ _ | ArrayType _ e _ _ _ => [e]
  | StructType _ fields _ _ | UnionType _ fields => FieldType <$> fields
  | _ => []
  end.

(** A closed table in which pointers and arrays cannot go on for ever without
    passing through a struct or union: [rank] is 0 for these and decreases
    from a pointer or an array to its element. *)
Record types_ok (rank : Ref → nat) (D : nat) : Prop := {
  types_closed : ∀ i t, typeRefs !! i = Some t → Forall in_table (type_children t);
  types_rank : ∀ i t, typeRefs !! i = Some t →
    if is_record t then rank (Z.of_nat i) = 0%nat
    else (rank (Z.of_nat i) ≤ D)%nat ∧ ∀ e, e ∈ type_children t → (rank e < rank (Z.of_nat i))%nat
}.

Definition all_keys : list seenKey :=
  t ← seqZ 0 (len typeRefs); d ← [DirIn; DirOut; DirInOut]; o ← [true; false]; [mkSeenKey t d o].
Lemma elem_of_all_keys t d o : in_table t → mkSeenKey t d o ∈ all_keys.
Proof.
  intros Ht. unfold all_keys. apply list_elem_of_bind. exists t. split; [|apply elem_of_seqZ; unfold in_table in Ht; lia].
  apply list_elem_of_bind. exists d. split; [|destruct d; set_solver]. apply list_elem_of_bind. exists o. split; [set_solver|destruct o; set_solver].
Qed.
Definition seen_ok (seen : list seenKey) : Prop := NoDup seen ∧ seen ⊆+ all_keys.
Lemma seen_ok_cons t d o seen :
  seen_ok seen → in_table t → mkSeenKey t d o ∉ seen → seen_ok (mkSeenKey t d o :: seen).
Proof.
  intros [Hnd Hsub] Ht Hn. assert (Hnd' : NoDup (mkSeenKey t d o :: seen)) by (by apply NoDup_cons). split; [done|].
  apply NoDup_submseteq; [done|]. intros k [->|Hk]%elem_of_cons; [by apply elem_of_all_keys|by eapply elem_of_submseteq].
Qed.

(** Enough fuel: every unseen struct may be entered once. *)
Definition traversal_need (D : nat) (rank : Ref → nat) (seen : list seenKey) (t : Ref) : nat :=
  (length all_keys - length seen) * (D + 2) + rank t + 1.

Context (rank : Ref → nat) (D : nat).
Hypothesis Htypes : types_ok rank D.
Hypothesis Hcb : ∀ acc t d o i, typeRefs !! i = Some t → ∃ r, cb acc t d o = Ret r.

Lemma rank_le t : in_table t → (rank t ≤ D)%nat.
Proof.
  intros Ht. destruct (index_Ret typeRefs t Ht) as (typ & _ & Hl). pose proof (types_rank _ _ Htypes _ _ Hl) as Hr.
  rewrite Z2Nat.id in Hr by (unfold in_table in Ht; lia). destruct (is_record typ); lia.
Qed.

Lemma traversal_ok fuel t dir opt st :
  in_table t → seen_ok (fst st) → (traversal_need D rank (fst st) t ≤ fuel)%nat →
  ∃ st', foreachTypeRec typeRefs cb fuel t dir opt st = Ret (Some st') ∧ seen_ok (fst st')
    ∧ (length (fst st) ≤ length (fst st'))%nat.
Proof.
  revert t dir opt st. induction fuel as [|fuel IH]; intros t dir opt st Ht Hseen Hf;
    [unfold traversal_need in Hf; rewrite Nat.add_1_r in Hf; by inversion Hf|].
  cbn [foreachTypeRec]. destruct (index_Ret typeRefs t Ht) as (typ & -> & Hl). cbn [mbind outcome_bind].
  destruct (Hcb (snd st) typ dir (opt || TOptional typ) _ Hl) as [[acc stop] ->]. cbn [mbind outcome_bind].
  destruct stop; [by exists (fst st, acc)|]. set (opt1 := opt || TOptional typ).
  pose proof (types_closed _ _ Htypes _ _ Hl) as Hclosed. pose proof (types_rank _ _ Htypes _ _ Hl) as Hrank.
  rewrite Z2Nat.id in Hrank by (unfold in_table in Ht; lia).
  assert (Helem : ∀ e d, type_children typ = [e] → is_record typ = false →
    ∃ st', foreachTypeRec typeRefs cb fuel e d opt1 (fst st, acc) = Ret (Some st') ∧ seen_ok (fst st')
      ∧ (length (fst st) ≤ length (fst st'))%nat).
  { intros e d Hc Hr. rewrite Hr in Hrank. rewrite Hc in *. destruct Hrank as [_ Hd]. specialize (Hd e ltac:(left)).
    apply (IH e d opt1 (fst st, acc)); [by inversion Hclosed|done|]. unfold traversal_need in *. cbn [fst]. lia. }
  assert (Hfields : ∀ fields, type_children typ = FieldType <$> fields → is_record typ = true →
    ∃ st', (if decide (mkSeenKey t dir opt1 ∈ fst st) then Ret (Some (fst st, acc))
       else (fix go (l : list Field) (st : visit_state) : outcome (option visit_state) :=
         match l with
         | [] => Ret (Some st)
         | f :: l =>
             r ← foreachTypeRec typeRefs cb fuel (FieldType f) (FieldDir f dir) opt1 st;
             match r with None => Ret None | Some st => go l st end
         end) fields (mkSeenKey t dir opt1 :: fst st, acc)) = Ret (Some st') ∧ seen_ok (fst st')
      ∧ (length (fst st) ≤ length (fst st'))%nat).
  { intros fields Hc Hr. rewrite Hc, Forall_fmap in Hclosed. rewrite Hr in Hrank.
    destruct (decide (mkSeenKey t dir opt1 ∈ fst st)) as [|Hnew]; [by exists (fst st, acc)|].
    pose proof (seen_ok_cons t dir opt1 (fst st) Hseen Ht Hnew) as Hs1.
    assert (Hlen : (S (length (fst st)) ≤ length all_keys)%nat) by (destruct Hs1 as [_ Hsub]; by apply submseteq_length in Hsub).
    assert (Hneed : ∀ st1 : list seenKey * A, (S (length (fst st)) ≤ length (fst st1))%nat → ∀ e, in_table e →
      (traversal_need D rank (fst st1) e ≤ fuel)%nat).
    { intros st1 Hst1 e He. pose proof (rank_le e He). unfold traversal_need in *. rewrite Hrank in Hf.
      assert ((length all_keys - length (fst st1)) * (D + 2) ≤ (length all_keys - S (length (fst st))) * (D + 2))%nat
        by (apply Nat.mul_le_mono_r; lia).
      assert ((length all_keys - length (fst st)) * (D + 2) = (length all_keys - S (length (fst st))) * (D + 2) + (D + 2))%nat
        by (replace (length all_keys - length (fst st))%nat with (S (length all_keys - S (length (fst st)))) by lia; lia). lia. }
    assert (Hgo : ∀ l (st1 : list seenKey * A), Forall (in_table ∘ FieldType) l → seen_ok (fst st1) → (S (length (fst st)) ≤ length (fst st1))%nat →
      ∃ st', (fix go (l : list Field) (st : visit_state) : outcome (option visit_state) :=
         match l with
         | [] => Ret (Some st)
         | f :: l =>
             r ← foreachTypeRec typeRefs cb fuel (FieldType f) (FieldDir f dir) opt1 st;
             match r with None => Ret None | Some st => go l st end
         end) l st1 = Ret (Some st') ∧ seen_ok (fst st') ∧ (length (fst st) ≤ length (fst st'))%nat).
    { induction l as [|f l IHl]; intros st1 Hl1 Hs Hle; [exists st1; split_and!; [done|done|lia]|].
      apply Forall_cons in Hl1 as [Hfl Hl1].
      destruct (IH (FieldType f) (FieldDir f dir) opt1 st1 Hfl Hs (Hneed st1 Hle _ Hfl)) as (st2 & E2 & Hs2 & Hle2).
      rewrite E2. cbn [mbind outcome_bind]. apply IHl; [done|done|lia]. }
    apply Hgo; [done|done|cbn; lia]. }
  destruct typ; try (eexists; split_and!; [done|done|done]).
  - apply Helem; done.
  - apply Helem; done.
  - apply Hfields; done.
  - apply Hfields; done.
Qed.

Definition enough_fuel : nat := length all_keys * (D + 2) + D + 1.
Lemma ForeachCallType_ok meta acc :
  Forall (in_table ∘ FieldType) (SysArgs meta) → (∀ t, SysRet meta = Some t → in_table t) →
  ∃ acc', ForeachCallType typeRefs cb enough_fuel meta acc = Ret (Some acc').
Proof.
  intros Hargs Hret. unfold ForeachCallType.
  assert (Hl : ∀ l st, Forall (in_table ∘ fst) l → seen_ok (fst st) →
    ∃ st', visit_list typeRefs cb enough_fuel l st = Ret (Some st')).
  { induction l as [|[t d] l IHl]; intros st Hin Hs; cbn [visit_list]; [eauto|]. apply Forall_cons in Hin as [Ht Hin].
    destruct (traversal_ok enough_fuel t d false st Ht Hs) as (st1 & -> & Hs1 & _).
    - unfold traversal_need, enough_fuel. pose proof (rank_le t Ht).
      assert ((length all_keys - length (fst st)) * (D + 2) ≤ length all_keys * (D + 2))%nat by (apply Nat.mul_le_mono_r; lia). lia.
    - cbn [mbind outcome_bind]. by apply IHl. }
  match goal with |- context [visit_list _ _ _ ?l ?st] => destruct (Hl l st) as [st' ->] end.
  - apply Forall_app. split; [by apply Forall_fmap|]. destruct (SysRet meta); [|done]. constructor; [by apply Hret|done].
  - split; [apply NoDup_nil_2|apply submseteq_nil_l].
  - cbn. eauto.
Qed.
End traversal.

Lemma note_type_Ret typeRefs target en c rank D acc t d o i :
  types_ok typeRefs rank D → typeRefs !! i = Some t → ∃ r, note_type typeRefs target en c acc t d o = Ret r.
Proof.
  intros Ht Hi. unfold note_type. case_decide; [eauto|]. pose proof (types_closed _ _ _ Ht _ _ Hi) as Hc.
  destruct t; try (by eauto); [case_decide; eauto|destruct Kind; eauto|].
  cbn in Hc. apply Forall_cons in Hc as [He _]. destruct (index_Ret typeRefs Elem He) as (e & -> & Hl). cbn [mbind outcome_bind].
  pose proof (types_closed _ _ _ Ht _ _ Hl) as Hc2. destruct e; try (by eauto). cbn in Hc2. apply Forall_cons in Hc2 as [He2 _].
  destruct (index_Ret typeRefs Elem0 He2) as (e2 & -> & _). cbn. eauto.
Qed.

(** The calls of a target refer to the table. *)
Definition calls_ok (typeRefs : list Typ) (target : Target) : Prop :=
  (∀ i c, Syscalls target !! i = Some c → ID c = Z.of_nat i) ∧
  Forall (λ c, Forall (in_table typeRefs ∘ FieldType) (SysArgs c) ∧ ∀ t, SysRet c = Some t → in_table typeRefs t) (Syscalls target).

Lemma calcResourceUsage_Ret typeRefs target rank D en :
  types_ok typeRefs rank D → calls_ok typeRefs target →
  ∃ uses, calcResourceUsage typeRefs target (enough_fuel typeRefs D) en = Ret (Some uses) ∧ uses_ok en uses.
Proof.
  intros Ht [_ Hc]. assert (H : ∀ l u, Forall (λ c, Forall (in_table typeRefs ∘ FieldType) (SysArgs c) ∧ ∀ t, SysRet c = Some t → in_table typeRefs t) l →
    ∃ uses, usage_calls typeRefs target (enough_fuel typeRefs D) en l u = Ret (Some uses)).
  { induction l as [|meta l IH]; intros u Hl; cbn [usage_calls]; [eauto|]. apply Forall_cons in Hl as [[H1 H2] Hl].
    destruct (ForeachCallType_ok typeRefs (note_type typeRefs target en (ID meta)) rank D Ht) with (meta := meta) (acc := u) as [u1 ->]; [|done|done|].
    - intros. by eapply note_type_Ret.
    - cbn [mbind outcome_bind]. by apply IH. }
  destruct (H (Syscalls target) ∅ Hc) as [uses E]. exists uses. split; [exact E|]. by eapply calcResourceUsage_ok.
Qed.

(** ** The whole table *)

Lemma prepared_calls target typeRefs corpus enabled en c :
  calls_ok typeRefs target → prepareEnabledSyscalls target corpus enabled = Ret en → c ∈ en →
  ∃ meta, Syscalls target !! Z.to_nat c = Some meta ∧ ID meta = c ∧ 0 ≤ c < len (Syscalls target)
    ∧ NoGenerate (Attrs meta) = false ∧ Disabled (Attrs meta) = false ∧ (∀ e, enabled = Some e → c ∈ e).
Proof.
  intros [Hid _] H Hc. unfold prepareEnabledSyscalls in H. cbv zeta in H. case_decide; [done|].
  apply bind_Ret in H as (idss & _ & H). destruct (forallb _ _); [|done]. apply Ret_inj in H as <-.
  apply elem_of_list_to_set, list_elem_of_fmap in Hc as (meta & -> & Hm).
  apply list_elem_of_filter in Hm as [[H1 H2] Hm]. apply list_elem_of_filter in Hm as [Hen Hm].
  apply list_elem_of_lookup in Hm as [i Hi]. exists meta. pose proof (Hid _ _ Hi) as Hidm. pose proof (lookup_lt_Some _ _ _ Hi).
  rewrite Hidm, Nat2Z.id. unfold len. split_and!; [done|done|lia|lia|done|done|]. intros e ->. cbn in Hen. by rewrite <-Hidm.
Qed.
Lemma prepared_nonempty target corpus enabled en : prepareEnabledSyscalls target corpus enabled = Ret en → en ≠ ∅.
Proof.
  intros H. unfold prepareEnabledSyscalls in H. cbv zeta in H. case_decide; [done|].
  apply bind_Ret in H as (idss & _ & H). destruct (forallb _ _); [|done]. by apply Ret_inj in H as <-.
Qed.
Lemma prepared_corpus target corpus enabled en :
  prepareEnabledSyscalls target corpus enabled = Ret en → ∃ idss, corpus_ids corpus = Ret idss.
Proof.
  intros H. unfold prepareEnabledSyscalls in H. cbv zeta in H. case_decide; [done|].
  apply bind_Ret in H as (idss & E & _). eauto.
Qed.

(** The priorities fit into int32. *)
Record priorities_fit (en : gset Z) (uses : Uses) (idss : list (list Z)) (boosts : list ChoiceTableBoost) : Prop := {
  fit_total : 3 * (10 * Z.of_nat (size en)) < 2 ^ 31;
  fit_static : incs_fit en 2 (static_incs uses);
  fit_dynamic : ∀ i, 2 * row_total (dynamic_incs en idss) i < 2 ^ 31;
  fit_sqrt : ∀ i j, sqrt_prio (entry_total (dynamic_incs en idss) i j) * (10 * Z.of_nat (size en)) < 2 ^ 31;
  fit_boosts : incs_fit en 1 (omap (boost_entry en) boosts)
}.

Lemma priorities_ok typeRefs target rank D corpus enabled boosts en :
  types_ok typeRefs rank D → calls_ok typeRefs target → prepareEnabledSyscalls target corpus enabled = Ret en →
  (∀ uses idss, calcResourceUsage typeRefs target (enough_fuel typeRefs D) en = Ret (Some uses) →
     corpus_ids corpus = Ret idss → priorities_fit en uses idss boosts) →
  ∃ m, CalculatePrioritiesWithBoosts typeRefs target (enough_fuel typeRefs D) corpus enabled boosts = Ret (Some (m, en))
    ∧ table_matrix target en m (3 * (10 * Z.of_nat (size en))) ∧ 3 * (10 * Z.of_nat (size en)) < 2 ^ 31.
Proof.
  intros Ht Hc Hp Hfit. pose proof (prepared_nonempty _ _ _ _ Hp) as Hne. destruct (prepared_corpus _ _ _ _ Hp) as [idss Hids].
  destruct (calcResourceUsage_Ret typeRefs target rank D en Ht Hc) as (uses & Eu & Huses).
  destruct (Hfit uses idss Eu Hids) as [F1 F2 F3 F4 F5].
  assert (Hen : ∀ c, c ∈ en → 0 ≤ c < Z.of_nat (length (Syscalls target))).
  { intros c Hin. destruct (prepared_calls _ _ _ _ _ c Hc Hp Hin) as (meta & _ & _ & Hr & _). exact Hr. }
  set (t := 10 * Z.of_nat (size en)) in *.
  unfold CalculatePrioritiesWithBoosts. rewrite Hp. cbn [mbind outcome_bind]. rewrite Eu. cbn [mbind outcome_bind].
  destruct (static_component target en Hen Hne F1 uses Huses F2) as (m0 & -> & Hm0 & Hr0). cbn [mbind outcome_bind].
  assert (T0 : table_matrix target en m0 t).
  { split; [done|]. intros i row Hr. destruct (Hr0 _ _ Hr) as [? Hpos]. split; [done|]. by apply Hpos. }
  assert (Hmono : ∀ m B B', table_matrix target en m B → B ≤ B' → table_matrix target en m B').
  { intros m B B' [Hg Hr] HB. split; [done|]. intros i row Hrow. destruct (Hr _ _ Hrow). split; [lia|done]. }
  assert (Htp : 0 ≤ t) by (unfold t; lia).
  assert (S1 : ∃ m1, (if decide (len corpus ≠ 0) then mat_sum m0 <$> calcDynamicPrio target corpus en else Ret m0) = Ret m1
    ∧ table_matrix target en m1 (2 * t)).
  { case_decide; [|exists m0; split; [done|eapply Hmono; [done|lia]]].
    destruct (dynamic_component target en Hen Hne F1 corpus idss Hids F3 F4) as (md & -> & Hd). cbn. eexists. split; [done|].
    eapply Hmono; [apply (add_component target en m0 t md T0 Hd); lia|unfold t; lia]. }
  destruct S1 as (m1 & -> & T1). cbn [mbind outcome_bind].
  assert (S2 : ∃ m2, (if decide (len boosts ≠ 0) then mat_sum m1 <$> calcBoostPrio target boosts en else Ret m1) = Ret m2
    ∧ table_matrix target en m2 (3 * t)).
  { case_decide; [|exists m1; split; [done|eapply Hmono; [done|lia]]].
    destruct (boost_component target en Hen Hne F1 boosts F5) as (mb & -> & Hb). cbn. eexists. split; [done|].
    eapply Hmono; [apply (add_component target en m1 (2 * t) mb T1 Hb); lia|unfold t; lia]. }
  destruct S2 as (m2 & -> & T2). cbn [mbind outcome_bind]. by exists m2.
Qed.

(** C8: Choosing the next call is safe.  For a well-formed target, a corpus of
    enabled calls and priorities that fit into 32 bits, the table is built
    (the traversal of the recursive types terminates), and every choice, with
    any random numbers and any bias that is negative or generatable, succeeds
    and yields a call of the target that is enabled, not disabled and may be
    generated. *)
Theorem choice_table_spec (typeRefs : list Typ) (target : Target) (rank : Ref → nat) (D : nat) (corpus : list Prog)
    (enabled : option (gset Z)) (boosts : list ChoiceTableBoost) (en : gset Z)
    (Htypes : types_ok typeRefs rank D) (Hcalls : calls_ok typeRefs target)
    (Hprep : prepareEnabledSyscalls target corpus enabled = Ret en)
    (Hfit : ∀ uses idss, calcResourceUsage typeRefs target (enough_fuel typeRefs D) en = Ret (Some uses) →
       corpus_ids corpus = Ret idss → priorities_fit en uses idss boosts) :
  ∃ ct, BuildChoiceTableWithBoosts typeRefs target (enough_fuel typeRefs D) corpus enabled boosts = Ret (Some ct)
  ∧ ∀ bias r, bias < 0 ∨ Generatable ct bias = Ret true →
      ∃ c r' meta, choose ct bias r = Ret (c, r') ∧ Syscalls target !! Z.to_nat c = Some meta ∧ ID meta = c
      ∧ NoGenerate (Attrs meta) = false ∧ Disabled (Attrs meta) = false ∧ (∀ e, enabled = Some e → c ∈ e).
Proof.
  destruct (priorities_ok typeRefs target rank D corpus enabled boosts en Htypes Hcalls Hprep Hfit) as (m & E & Hm & HB).
  assert (Hen : ∀ c, c ∈ en → 0 ≤ c < Z.of_nat (length (Syscalls target))).
  { intros c Hin. destruct (prepared_calls _ _ _ _ _ c Hcalls Hprep Hin) as (meta & _ & _ & Hr & _). exact Hr. }
  pose proof (prepared_nonempty _ _ _ _ Hprep) as Hne.
  exists (table_of m en). unfold BuildChoiceTableWithBoosts. rewrite E. split; [done|]. intros bias r Hb.
  assert (Hb' : bias < 0 ∨ bias ∈ en).
  { destruct Hb as [|Hg]; [by left|]. right. unfold Generatable in Hg. apply bind_Ret in Hg as (run & Hrun & Hg).
    unfold index in Hrun. case_decide as H0; [|done]. destruct (ct_runs (table_of m en) !! Z.to_nat bias) as [x|] eqn:Ex; [|done].
    apply Ret_inj in Hrun as ->. cbn [ct_runs table_of] in Ex. rewrite list_lookup_imap in Ex.
    destruct (m !! Z.to_nat bias); [|done]. cbn in Ex. rewrite Z2Nat.id in Ex by done. injection Ex as <-.
    destruct (decide (bias ∈ en)); [done|by apply Ret_inj in Hg]. }
  destruct (choose_ok target en m _ Hen Hne Hm HB bias r Hb') as (c & r' & Ec & Hc).
  destruct (prepared_calls _ _ _ _ _ c Hcalls Hprep Hc) as (meta & H1 & H2 & _ & H3 & H4 & H5). by exists c, r', meta.
Qed.

(** The choice is weighted by the priorities.  For a bias towards a
    generatable call and a first draw outside the 5% of random choices, the
    call chosen is the one in whose interval of prefix sums the second draw
    falls: of the [sum] equally likely draws, each call gets as many as its
    priority says. *)
Theorem choose_weighted (target : Target) (en : gset Z) (m : matrix) (B bias a x : Z) (r : rng) (row : list Z)
    (Hen : ∀ c, c ∈ en → 0 ≤ c < Z.of_nat (length (Syscalls target))) (Hm : table_matrix target en m B) (HB : B < 2 ^ 31)
    (Hbias : bias ∈ en) (Hrow : m !! Z.to_nat bias = Some row) (Ha : 5 ≤ a mod 100) :
  ∃ k, choose (table_of m en) bias (a :: x :: r) = Ret (Z.of_nat k, r)
  ∧ zsum (take k row) ≤ x mod zsum row < zsum (take (S k) row)
  ∧ ∀ k', (k' < length row)%nat → zsum (take k' row) ≤ x mod zsum row < zsum (take (S k') row) → k' = k.
Proof.
  destruct (choose_biased target en m B Hen Hm HB bias (x :: r) row Hbias Hrow) as (k & E & _ & Hk).
  exists k. split_and!; [|apply Hk|apply Hk|].
  - unfold choose, Intn. cbn [hd tl]. rewrite decide_True by lia. cbn [mbind outcome_bind]. rewrite decide_False by lia.
    pose proof (Hen bias Hbias). rewrite decide_False by lia. exact E.
  - intros k' _ Hk'. destruct Hm as [Hg _]. destruct (mat_cols _ _ _ Hg _ _ Hrow) as [_ [Hn _]]. cbn [hd] in Hk.
    destruct (decide (k' < k)%nat); [pose proof (zsum_take_le row (S k') k Hn ltac:(lia)); lia|].
    destruct (decide (k < k')%nat); [pose proof (zsum_take_le row (S k) k' Hn ltac:(lia)); lia|lia].
Qed.

(** ** Examples *)

(** A total below the bounds is enough for every row and every entry. *)
Lemma totals_le l i j :
  Forall (λ x, 0 ≤ x) (snd <$> l) → row_total l i ≤ zsum (snd <$> l) ∧ 0 ≤ entry_total l i j ≤ zsum (snd <$> l).
Proof.
  unfold row_total, entry_total. induction l as [|[[a b] v] l IH]; [done|]. rewrite fmap_cons. intros [Hv Hl]%Forall_cons.
  destruct (IH Hl) as (H1 & H2 & H3). clear IH. cbn in Hv. rewrite !filter_cons. cbn [fst snd]. change (zsum (v :: ?k)) with (v + zsum k).
  repeat case_decide; rewrite ?fmap_cons; cbn [snd]; change (zsum (v :: ?k)) with (v + zsum k); lia.
Qed.
Definition nonneg_total (l : list (Z * Z * Z)) : option Z :=
  if forallb (Z.leb 0) (snd <$> l) then Some (zsum (snd <$> l)) else None.
Lemma nonneg_total_spec l s i j :
  nonneg_total l = Some s → row_total l i ≤ s ∧ 0 ≤ entry_total l i j ≤ s.
Proof.
  unfold nonneg_total. destruct (forallb _ _) eqn:E; [|done]. intros [= <-]. apply totals_le.
  apply Forall_forall. intros x Hx. rewrite forallb_forall in E. apply Z.leb_le, E. by apply list_elem_of_In.
Qed.
Lemma priorities_fit_small en uses idss boosts s1 s2 s3 :
  nonneg_total (static_incs uses) = Some s1 → nonneg_total (dynamic_incs en idss) = Some s2 →
  nonneg_total (omap (boost_entry en) boosts) = Some s3 →
  Z.of_nat (size en) ≤ 1000 → s1 ≤ 10000 → s2 ≤ 10000 → s3 ≤ 10000 →
  priorities_fit en uses idss boosts.
Proof.
  intros E1 E2 E3 H0 H1 H2 H3. split.
  - lia.
  - split; intros i; [|intros j]; [destruct (nonneg_total_spec _ _ i i E1)|destruct (nonneg_total_spec _ _ i j E1)]; nia.
  - intros i. destruct (nonneg_total_spec _ _ i i E2). lia.
  - intros i j. destruct (nonneg_total_spec _ _ i j E2) as [_ Hj]. unfold sqrt_prio.
    pose proof (Z.sqrt_le_mono (4 * entry_total (dynamic_incs en idss) i j) 40000 ltac:(lia)) as Hs.
    change (Z.sqrt 40000) with 200 in Hs. nia.
  - split; intros i; [|intros j]; [destruct (nonneg_total_spec _ _ i i E3)|destruct (nonneg_total_spec _ _ i j E3)]; nia.
Qed.

(** open(ptr file) fd, close(fd), and a read that takes a linked list. *)
Definition cx_common (r : Ref) : TypeCommon := mkTypeCommon "node" 8 8 false false r.
Definition cx_types : list Typ :=
  [ ResourceType (cx_common 0) FormatNative (mkResourceDesc "fd" ["fd"%string] [2 ^ 64 - 1]);
    PtrType (cx_common 1) 2 DirIn false;
    StructType (cx_common 2) [mkField "next" 1 false DirIn None; mkField "fd" 0 false DirIn None] 0 0;
    BufferType (cx_common 3) BufferFilename 0 0 "" [] false ].
Definition cx_call (id : Z) (name : string) (args : list Ref) (ret : option Ref) : Syscall :=
  mkSyscall id id name name 0 ((λ r, mkField "a" r false DirIn None) <$> args) ret
    (mkSyscallAttrs false 0 0 false false false false false false false false false false "" "").
Definition cx_open : Syscall := cx_call 0 "open" [3] (Some 0).
Definition cx_close : Syscall := cx_call 1 "close" [0] None.
Definition cx_readv : Syscall := cx_call 2 "readv" [0; 1] None.
Definition cx_target : Target := mkTarget 4096 4096 0 [cx_open; cx_close; cx_readv] ∅ ∅ [].
Definition cx_prog : Prog := mkProg ((λ c, Some (mkCall (Some c) [] None noProps "")) <$> [cx_open; cx_readv]) [] false.
Definition cx_rank (r : Ref) : nat := if decide (r = 1) then 1%nat else 0%nat.
Definition cx_boosts : list ChoiceTableBoost := [mkBoost (Some cx_open) (Some cx_readv) 3].
Definition cx_en : gset Z := {[0; 1; 2]}.

Lemma cx_in_table r : (0 <=? r) && (r <? 4) = true → in_table cx_types r.
Proof. intros [H1%Z.leb_le H2%Z.ltb_lt]%andb_prop. unfold in_table. change (len cx_types) with 4. lia. Qed.
Lemma cx_types_ok : types_ok cx_types cx_rank 1.
Proof.
  split; intros i t H; destruct i as [|[|[|[|i]]]]; try done; injection H as <-; cbn.
  1-4: rewrite ?Forall_cons; split_and?; try apply Forall_nil_2; by apply cx_in_table.
  all: try (split; [vm_compute; lia|]; intros e He; apply elem_of_cons in He as [->|He] || idtac;
            by (apply not_elem_of_nil in He || vm_compute; lia)).
  done.
Qed.
Lemma cx_calls_ok : calls_ok cx_types cx_target.
Proof.
  split; [intros i c H; destruct i as [|[|[|i]]]; try done; by injection H as <-|].
  cbn [Syscalls cx_target]; rewrite !Forall_cons. split_and!; try done; try (intros t [= <-]; by apply cx_in_table).
  all: cbn; rewrite ?Forall_cons; split_and?; try apply Forall_nil_2; by apply cx_in_table.
Qed.
Lemma cx_fit uses idss :
  calcResourceUsage cx_types cx_target (enough_fuel cx_types 1) cx_en = Ret (Some uses) →
  corpus_ids [cx_prog] = Ret idss → priorities_fit cx_en uses idss cx_boosts.
Proof.
  intros Hu Hi. apply Ret_inj in Hi as <-.
  assert (E : (u ← calcResourceUsage cx_types cx_target (enough_fuel cx_types 1) cx_en;
               Ret (default None ((λ u, nonneg_total (static_incs u)) <$> u))) = Ret (Some 1200)) by (vm_compute; reflexivity).
  rewrite Hu in E. apply Ret_inj in E. cbn in E.
  eapply (priorities_fit_small _ _ _ _ _ 1 3 E); try (vm_compute; reflexivity); vm_compute; congruence.
Qed.

Lemma choice_table_witness :
  ∃ ct, BuildChoiceTableWithBoosts cx_types cx_target (enough_fuel cx_types 1) [cx_prog] None cx_boosts = Ret (Some ct)
  ∧ ∀ bias r, bias < 0 ∨ Generatable ct bias = Ret true →
      ∃ c r' meta, choose ct bias r = Ret (c, r') ∧ Syscalls cx_target !! Z.to_nat c = Some meta ∧ ID meta = c
      ∧ NoGenerate (Attrs meta) = false ∧ Disabled (Attrs meta) = false ∧ (∀ e : gset Z, None = Some e → c ∈ e).
Proof.
  apply (choice_table_spec cx_types cx_target cx_rank 1 [cx_prog] None cx_boosts cx_en cx_types_ok cx_calls_ok).
  - vm_compute. reflexivity.
  - apply cx_fit.
Defined.

(** The table of the example. *)
Definition cx_matrix : matrix := [[0; 4; 26]; [15; 0; 15]; [20; 10; 0]].
Lemma cx_matrix_ok : table_matrix cx_target cx_en cx_matrix 30.
Proof.
  assert (Hin : ∀ i : nat, (i < 3)%nat → Z.of_nat i ∈ cx_en).
  { intros i Hi. destruct i as [|[|[|i]]]; [by apply (bool_decide_unpack _); vm_compute.. |lia]. }
  split; [split; [done| |]|]; intros i row H; pose proof (lookup_lt_Some _ _ _ H) as Hl; cbn in Hl.
  - destruct i as [|[|[|i]]]; try done; injection H as <-; (split; [done|]); (split; [by repeat constructor|]).
    all: intros j x Hj%lookup_lt_Some _; by apply Hin.
  - intros Hno. by destruct (Hno (Hin i Hl)).
  - destruct i as [|[|[|i]]]; try done; injection H as <-; vm_compute; (split; [congruence|done]).
Qed.
Lemma choose_weighted_witness :
  ∃ k, choose (table_of cx_matrix cx_en) 0 [17; 93; 8] = Ret (Z.of_nat k, [8])
  ∧ zsum (take k [0; 4; 26]) ≤ 93 mod zsum [0; 4; 26] < zsum (take (S k) [0; 4; 26])
  ∧ ∀ k', (k' < 3)%nat → zsum (take k' [0; 4; 26]) ≤ 93 mod zsum [0; 4; 26] < zsum (take (S k') [0; 4; 26]) → k' = k.
Proof.
  apply (choose_weighted cx_target cx_en cx_matrix 30 0 17 93 [8] [0; 4; 26]).
  - intros c Hc. destruct (prepared_calls cx_target cx_types [] None cx_en c cx_calls_ok ltac:(vm_compute; reflexivity) Hc)
      as (_ & _ & _ & Hr & _). exact Hr.
  - apply cx_matrix_ok.
  - lia.
  - apply (bool_decide_unpack _). vm_compute. exact I.
  - reflexivity.
  - vm_compute. congruence.
Defined.
