(* ===== verification/Hints.v ===== *)
(** * Hints from comparison operands (src/prog/hints.go)

    The kernel reports the operands of the comparisons it makes.  When one of
    them is an argument of the program, seen through a cast to a narrower or
    wider integer and in either byte order, the other one is tried in its
    place.  Integers are uint64, a set of PCs is the set of its elements, and
    the callback that executes a candidate is an arbitrary function on a state. *)

From Stdlib Require Import ZArith.
From S2P Require Import Prelude Bits Prog ForeachArg.

(** ** Comparisons *)

(** Operand, other operand, PCs. *)
Abbreviation CompMap := (gmap Z (gmap Z (gset Z))).

Definition maxDataLength : Z := 100.

Definition comp_pcs (m : CompMap) (op1 op2 : Z) : gset Z := default ∅ (m !! op1 ≫= λ nested, nested !! op2).
Definition add_comp (m : CompMap) (pc arg1 arg2 : Z) : CompMap :=
  <[arg1 := <[arg2 := {[pc]} ∪ comp_pcs m arg1 arg2]> (default ∅ (m !! arg1))]> m.
Definition CompAdd (m : CompMap) (pc arg1 arg2 : Z) (isConst : bool) : CompMap :=
  let m := add_comp m pc arg1 arg2 in
  if isConst then m else add_comp m pc arg2 arg1.
Definition CompLen (m : CompMap) : Z :=
  foldl (λ n nested, foldl (λ n pcs, n + Z.of_nat (size pcs)) n (values nested)) 0 (values m).

(** What is left of the PCs of the pairs; empty entries are deleted. *)
Definition keep_pcs (keep : Z → Z → gset Z → gset Z) (m : CompMap) : CompMap :=
  map_imap (λ op1 nested,
    let nested := map_imap (λ op2 pcs, let pcs := keep op1 op2 pcs in if decide (pcs = ∅) then None else Some pcs) nested in
    if decide (nested = ∅) then None else Some nested) m.
Definition InplaceIntersect (m other : CompMap) : CompMap :=
  keep_pcs (λ op1 op2 pcs, filter (λ pc, pc ∈ comp_pcs other op1 op2) pcs) m.

(** ** Replacements *)

(** The table is sorted at start-up; only membership matters here. *)
Definition specialInts : list Z :=
  [0; 1; 2; 3; 4; 5; 6; 7; 8; 9; 10; 11; 12; 13; 14; 15; 16;
   64; 127; 128; 129; 255; 256; 257; 511; 512;
   1023; 1024; 1025; 2047; 2048; 4095; 4096;
   2 ^ 15 - 1; 2 ^ 15; 2 ^ 15 + 1; 2 ^ 16 - 1; 2 ^ 16; 2 ^ 16 + 1;
   2 ^ 31 - 1; 2 ^ 31; 2 ^ 31 + 1; 2 ^ 32 - 1; 2 ^ 32; 2 ^ 32 + 1;
   2 ^ 63 - 1; 2 ^ 63; 2 ^ 63 + 1; 2 ^ 64 - 1].

Definition truncateToBitSize (v bitSize : Z) : outcome Z :=
  if decide (bitSize = 0 ∨ 64 < bitSize) then Panic else Ret (Z.land v (mask64 bitSize)).

Definition swap64 (v : Z) : Z :=
  let b k := u8 (Z.shiftr v k) in
  Z.lor (Z.lor (Z.lor (Z.lor (Z.lor (Z.lor (Z.lor (b 56) (Z.shiftl (b 48) 8)) (Z.shiftl (b 40) 16)) (Z.shiftl (b 32) 24))
    (Z.shiftl (b 24) 32)) (Z.shiftl (b 16) 40)) (Z.shiftl (b 8) 48)) (Z.shiftl (b 0) 56).
Definition swapInt (v size : Z) : outcome Z :=
  if decide (size = 1) then Ret v
  else if decide (size = 2) then Ret (swap16 (u16 v))
  else if decide (size = 4) then Ret (swap32 (u32 v))
  else if decide (size = 8) then Ret (swap64 v)
  else Panic.

Definition iwidths : list Z := [8; 4; 2; 1; -4; -2; -1].
(** Width, size in bits and the value the kernel would see; [None]: skipped. *)
Definition shrink_mutant (v bitsize iwidth : Z) : option (Z * Z * Z) :=
  if decide (0 < iwidth) then
    let size := iwidth * 8 in Some (iwidth, size, Z.land v (mask64 size))
  else
    let width := - iwidth in
    let size := Z.min (width * 8) bitsize in
    if decide (Z.land v (shl1 (size - 1)) = 0) then None
    else Some (width, size, Z.lor v (not64 (mask64 size))).
Definition skip_image (width size mutant : Z) : bool :=
  bool_decide (width < 4 ∨ mutant = 0 ∨ Z.lor mutant (not64 (mask64 size)) = 2 ^ 64 - 1).

Section shrink_expand.
Context (compMap : CompMap) (bitsize : Z) (image : bool) (v : Z).

Definition replacer (width size : Z) (bigendian : bool) (newV : Z) : outcome (option Z) :=
  let limit := mask64 bitsize in
  let sign := not64 (Z.shiftr limit 1) in
  if decide (limit < newV ∧ Z.land sign newV ≠ sign) then Ret None
  else
    let mask := mask64 size in
    let newHi := Z.land newV (not64 mask) in
    let newV := Z.land newV mask in
    if decide (newHi ≠ 0 ∧ Z.lxor newHi (not64 mask) ≠ 0) then Ret None
    else
      newV ← (if bigendian then swapInt newV width else Ret newV);
      if negb image && bool_decide (newV ∈ specialInts) then Ret None
      else
        let replacer := Z.lor (Z.ldiff v mask) newV in
        if decide (replacer = v) then Ret None else Some <$> truncateToBitSize replacer bitsize.

Definition order_replacers (width size mutant : Z) (bigendian : bool) : outcome (list Z) :=
  if bigendian && bool_decide (width = 1) then Ret []
  else
    mutant ← (if bigendian then swapInt mutant width else Ret mutant);
    l ← mapM (replacer width size bigendian) (map_to_list (default ∅ (compMap !! mutant))).*1;
    Ret (omap id l).
Definition width_replacers (iwidth : Z) : outcome (list Z) :=
  match shrink_mutant v bitsize iwidth with
  | None => Ret []
  | Some (width, size, mutant) =>
      if image && skip_image width size mutant then Ret []
      else
        l1 ← order_replacers width size mutant false;
        l2 ← order_replacers width size mutant true;
        Ret (l1 ++ l2)
  end.
End shrink_expand.

Definition shrinkExpand (v : Z) (compMap : CompMap) (bitsize : Z) (image : bool) : outcome (list Z) :=
  v ← truncateToBitSize v bitsize;
  ls ← mapM (width_replacers compMap bitsize image v) iwidths;
  Ret (sort_by (less_on id) (elements (list_to_set (concat ls) : gset Z))).

(** ** What the replacements mean *)

(** The number of low bits a cast looks at, and the value it gives: a
    narrowing cast, or the sign extension of a negative number. *)
Definition cast_bits (bitsize iwidth : Z) : Z := if decide (0 < iwidth) then iwidth * 8 else Z.min (- iwidth * 8) bitsize.
Definition cast (bitsize v iwidth : Z) : option Z :=
  let s := cast_bits bitsize iwidth in
  if decide (0 < iwidth) then Some (v mod 2 ^ s)
  else if decide (v mod 2 ^ s < 2 ^ (s - 1)) then None
  else Some (v mod 2 ^ s + (2 ^ 64 - 2 ^ s)).
Definition in_order (big : bool) (iwidth x : Z) : Z := if big then byteswap (Z.to_nat (Z.abs iwidth)) x else x.

(** [r] is the value [v] with the bits that the cast looks at replaced by the
    operand [op] it was compared with. *)
Record hint_for (cm : CompMap) (bitsize : Z) (image : bool) (v iwidth : Z) (big : bool) (op r : Z) : Prop := {
  hf_width : iwidth ∈ iwidths ∧ (big = true → Z.abs iwidth ≠ 1);
  hf_seen : ∃ m, cast bitsize v iwidth = Some m ∧ is_Some (cm !! in_order big iwidth m ≫= λ nested, nested !! op)
    ∧ (image = true → 4 ≤ Z.abs iwidth ∧ m ≠ 0 ∧ m mod 2 ^ cast_bits bitsize iwidth ≠ 2 ^ cast_bits bitsize iwidth - 1);
  hf_fits : (op < 2 ^ bitsize ∨ 2 ^ 64 - 2 ^ (bitsize - 1) ≤ op)
    ∧ (op < 2 ^ cast_bits bitsize iwidth ∨ 2 ^ 64 - 2 ^ cast_bits bitsize iwidth ≤ op);
  hf_new : ∃ low r0, low = in_order big iwidth (op mod 2 ^ cast_bits bitsize iwidth)
    ∧ (image = false → low ∉ specialInts)
    ∧ r0 = Z.lor (v - v mod 2 ^ cast_bits bitsize iwidth) low ∧ r0 ≠ v ∧ r = r0 mod 2 ^ bitsize
}.

Lemma swap_byte x k : 0 ≤ k → u8 (Z.shiftr x k) = x / 2 ^ k mod 256.
Proof. intros. unfold u8. by rewrite Z.shiftr_div_pow2. Qed.
Lemma byte_of_mod x n k : 0 ≤ k → k + 8 ≤ n → x mod 2 ^ n / 2 ^ k mod 256 = x / 2 ^ k mod 256.
Proof.
  intros Hk Hn. change 256 with (2 ^ 8). apply Z.bits_inj'. intros i Hi. destruct (decide (i < 8)).
  - rewrite !Z.mod_pow2_bits_low, !Z.div_pow2_bits, Z.mod_pow2_bits_low by lia. done.
  - by rewrite !Z.mod_pow2_bits_high by lia.
Qed.
Lemma le_bytes_S n x : le_bytes (S n) x = x / 2 ^ 0 mod 256 :: le_bytes n (x / 2 ^ 8).
Proof. cbn [le_bytes]. by rewrite Z.pow_0_r, Z.div_1_r. Qed.
Lemma byte_range x k : is_byte (x / 2 ^ k mod 256).
Proof. apply Z.mod_pos_bound. lia. Qed.
(** Putting a byte in front. *)
Lemma lor_byte l b n : Forall is_byte l → n = 8 * len l → Z.lor (le_value l) (Z.shiftl b n) = le_value (l ++ [b]).
Proof.
  intros Hl ->. pose proof (le_value_range l Hl) as Hr. change 256 with (2 ^ 8) in Hr. rewrite <-Z.pow_mul_r in Hr by lia.
  rewrite lor_parts by (unfold len; lia). clear Hr. unfold len. induction Hl as [|c l _ _ IH].
  - cbn. lia.
  - cbn [app length le_value foldr]. fold (le_value (l ++ [b])) (le_value l). rewrite <-IH.
    rewrite Nat2Z.inj_succ. replace (8 * Z.succ (Z.of_nat (length l))) with (8 + 8 * Z.of_nat (length l)) by lia.
    rewrite Z.pow_add_r by lia. change (2 ^ 8) with 256. lia.
Qed.
Lemma le_value_1 b : b = le_value [b].
Proof. cbn. lia. Qed.
Lemma byteswap_16 x : swap16 (u16 x) = byteswap 2 x.
Proof.
  unfold swap16, u16. assert (E0 : u8 (x mod 2 ^ 16) = x / 2 ^ 0 mod 256).
  { unfold u8. pose proof (byte_of_mod x 16 0 ltac:(lia) ltac:(lia)) as E0. by rewrite Z.pow_0_r, Z.div_1_r in E0. }
  rewrite E0, !swap_byte, !byte_of_mod by lia. rewrite (le_value_1 (x / 2 ^ 8 mod 256)).
  rewrite lor_byte by (done || (repeat constructor; apply byte_range)).
  unfold byteswap. rewrite !le_bytes_S, !Z.div_div, <-!Z.pow_add_r by lia. done.
Qed.
Lemma byteswap_32 x : swap32 (u32 x) = byteswap 4 x.
Proof.
  unfold swap32, u32. assert (E0 : u8 (x mod 2 ^ 32) = x / 2 ^ 0 mod 256).
  { unfold u8. pose proof (byte_of_mod x 32 0 ltac:(lia) ltac:(lia)) as E0. by rewrite Z.pow_0_r, Z.div_1_r in E0. }
  rewrite E0, !swap_byte, !byte_of_mod by lia. rewrite Z.lor_assoc, (le_value_1 (x / 2 ^ 24 mod 256)).
  do 3 (rewrite lor_byte by (done || (repeat constructor; apply byte_range)); cbn [app]).
  unfold byteswap. rewrite !le_bytes_S, !Z.div_div, <-!Z.pow_add_r by lia. done.
Qed.
Lemma byteswap_64 x : swap64 x = byteswap 8 x.
Proof.
  unfold swap64. rewrite !swap_byte by lia. rewrite (le_value_1 (x / 2 ^ 56 mod 256)).
  do 7 (rewrite lor_byte by (done || (repeat constructor; apply byte_range)); cbn [app]).
  unfold byteswap. rewrite !le_bytes_S, !Z.div_div, <-!Z.pow_add_r by lia. done.
Qed.

Lemma iwidths_cases i : i ∈ iwidths → i = 8 ∨ i = 4 ∨ i = 2 ∨ i = 1 ∨ i = -4 ∨ i = -2 ∨ i = -1.
Proof. unfold iwidths. set_solver. Qed.
(** swapInt reverses the bytes. *)
Lemma swapInt_eq i x : i ∈ iwidths → Z.abs i ≠ 1 → swapInt x (Z.abs i) = Ret (byteswap (Z.to_nat (Z.abs i)) x).
Proof.
  intros Hi Hne. assert (Hc : Z.abs i = 2 ∨ Z.abs i = 4 ∨ Z.abs i = 8) by (apply iwidths_cases in Hi; lia).
  destruct Hc as [->|[->| ->]]; unfold swapInt; cbn [decide];
    repeat (rewrite decide_False by lia); rewrite decide_True by done;
    f_equal; [apply byteswap_16|apply byteswap_32|apply byteswap_64].
Qed.

(** ** The casts *)

Lemma cast_bits_range b i : 1 ≤ b ≤ 64 → i ∈ iwidths → 1 ≤ cast_bits b i ≤ 64.
Proof. intros Hb Hi. unfold cast_bits. apply iwidths_cases in Hi. case_decide; lia. Qed.
Lemma shrink_mutant_eq v b i :
  in_u64 v → 1 ≤ b ≤ 64 → i ∈ iwidths →
  shrink_mutant v b i = (λ m, (Z.abs i, cast_bits b i, m)) <$> cast b v i.
Proof.
  intros Hv Hb Hi. pose proof (cast_bits_range b i Hb Hi) as Hs. unfold shrink_mutant, cast.
  unfold cast_bits in *. case_decide as Hpos.
  - cbn. rewrite land_mask by lia. by rewrite Z.abs_eq by lia.
  - set (s := Z.min (- i * 8) b) in *. pose proof (land_bit v (s - 1) ltac:(lia)) as Hbit.
    replace (s - 1 + 1) with s in Hbit by lia. rewrite Z.abs_neq by lia.
    destruct (decide (v mod 2 ^ s < 2 ^ (s - 1))) as [Hlt|Hge].
    + rewrite decide_True by tauto. done.
    + rewrite decide_False by tauto. cbn. by rewrite lor_not_mask by (done || lia).
Qed.
Lemma cast_mod b v i m :
  1 ≤ b ≤ 64 → i ∈ iwidths → cast b v i = Some m → in_u64 m ∧ m mod 2 ^ cast_bits b i = v mod 2 ^ cast_bits b i.
Proof.
  intros Hb Hi. pose proof (cast_bits_range b i Hb Hi) as Hs. unfold cast. set (s := cast_bits b i) in *.
  pose proof (pow2_le s ltac:(lia)) as Hp. pose proof (Z.mod_pos_bound v (2 ^ s) ltac:(lia)) as Hm.
  case_decide; [intros [= <-]; split; [unfold in_u64; lia|by apply Z.mod_mod; lia]|].
  case_decide; [done|]. intros [= <-]. split; [unfold in_u64; lia|].
  assert (E : 2 ^ 64 = 2 ^ (64 - s) * 2 ^ s) by (rewrite <-Z.pow_add_r by lia; f_equal; lia).
  replace (v mod 2 ^ s + (2 ^ 64 - 2 ^ s)) with (v mod 2 ^ s + (2 ^ (64 - s) - 1) * 2 ^ s) by lia.
  rewrite Z.mod_add by lia. by apply Z.mod_mod; lia.
Qed.

(** ** The replacements are the hints *)

Definition op_fits (b i op : Z) : Prop :=
  (op < 2 ^ b ∨ 2 ^ 64 - 2 ^ (b - 1) ≤ op) ∧ (op < 2 ^ cast_bits b i ∨ 2 ^ 64 - 2 ^ cast_bits b i ≤ op).
Definition op_new (b : Z) (image : bool) (v i : Z) (big : bool) (op r : Z) : Prop :=
  ∃ low r0, low = in_order big i (op mod 2 ^ cast_bits b i) ∧ (image = false → low ∉ specialInts)
    ∧ r0 = Z.lor (v - v mod 2 ^ cast_bits b i) low ∧ r0 ≠ v ∧ r = r0 mod 2 ^ b.

Lemma replacer_eq b image v i big op :
  1 ≤ b ≤ 64 → in_u64 v → in_u64 op → i ∈ iwidths → (big = true → Z.abs i ≠ 1) →
  ∃ o, replacer b image v (Z.abs i) (cast_bits b i) big op = Ret o ∧ ∀ r, o = Some r ↔ op_fits b i op ∧ op_new b image v i big op r.
Proof.
  intros Hb Hv Hop Hi Hbig. pose proof (cast_bits_range b i Hb Hi) as Hs. unfold replacer, op_fits, op_new.
  set (s := cast_bits b i) in *. pose proof (pow2_le s ltac:(lia)) as Hps. pose proof (pow2_le b ltac:(lia)) as Hpb.
  assert (Hsign : Z.shiftr (mask64 b) 1 = mask64 (b - 1)).
  { rewrite !mask64_eq by lia. rewrite !Z.sub_1_r, <-!Z.ones_equiv, Z.shiftr_div_pow2 by lia. apply Z.ones_div_pow2. lia. }
  cbv zeta. rewrite Hsign, (land_not_mask op (b - 1)), (Z.land_comm op (not64 _)), (land_not_mask op s), land_mask by (done || lia).
  rewrite ldiff_mask, !not_mask64, (mask64_eq b) by lia.
  pose proof (top_bits_set op (b - 1) Hop ltac:(lia)) as T1. pose proof (top_bits_set op s Hop ltac:(lia)) as T2.
  pose proof (top_bits_clear op s Hop ltac:(lia)) as T3.
  case_decide as C1; [exists None; split; [done|]; intros r; split; [done|]; intros [[F1 _] _]; tauto || lia|].
  case_decide as C2.
  { exists None. split; [done|]. intros r. split; [done|]. intros [[_ F2] _]. exfalso. destruct C2 as [C2 C3].
    apply C3. apply Z.lxor_eq_0_iff. tauto. }
  assert (F : (op < 2 ^ b ∨ 2 ^ 64 - 2 ^ (b - 1) ≤ op) ∧ (op < 2 ^ s ∨ 2 ^ 64 - 2 ^ s ≤ op)).
  { split.
    - destruct (decide (op < 2 ^ b)); [by left|]. right. apply T1. destruct (decide (op - op mod 2 ^ (b - 1) = 2 ^ 64 - 2 ^ (b - 1))); [done|].
      destruct C1. split; [lia|done].
    - destruct (decide (op - op mod 2 ^ s = 0)); [left; tauto|]. right. apply T2.
      destruct (decide (Z.lxor (op - op mod 2 ^ s) (2 ^ 64 - 2 ^ s) = 0)) as [E|]; [by apply Z.lxor_eq in E|]. by destruct C2. }
  assert (E : (if big then swapInt (op mod 2 ^ s) (Z.abs i) else Ret (op mod 2 ^ s)) = Ret (in_order big i (op mod 2 ^ s))).
  { destruct big; [|done]. apply swapInt_eq; auto. }
  rewrite E. cbn [mbind outcome_bind]. set (low := in_order big i (op mod 2 ^ s)).
  destruct (negb image && bool_decide (low ∈ specialInts)) eqn:Esp.
  { exists None. split; [done|]. intros r. split; [done|]. intros [_ (low' & r0 & -> & Hsp & _)].
    apply andb_prop in Esp as [Him%negb_true_iff Hin%bool_decide_eq_true]. by apply Hsp in Him. }
  destruct (decide (Z.lor (v - v mod 2 ^ s) low = v)) as [C3|C3].
  { exists None. split; [done|]. intros r. split; [done|]. intros [_ (low' & r0 & -> & _ & -> & Hne & _)]. done. }
  unfold truncateToBitSize. rewrite decide_False by lia. rewrite land_mask by lia. eexists. split; [done|].
  intros r. split.
  - intros [= <-]. split; [done|]. exists low, (Z.lor (v - v mod 2 ^ s) low). split_and!; [done| |done|done|done].
    intros -> Hin. rewrite bool_decide_eq_true_2 in Esp by done. done.
  - intros [_ (low' & r0 & -> & _ & -> & _ & ->)]. done.
Qed.

Definition comps_ok (cm : CompMap) : Prop :=
  ∀ k nested op, cm !! k = Some nested → is_Some (nested !! op) → in_u64 op.

(** A loop over operands whose body cannot fail. *)
Lemma mapM_omap {A} (f : A → outcome (option Z)) (P : A → Z → Prop) (l : list A) :
  (∀ x, x ∈ l → ∃ o, f x = Ret o ∧ ∀ r, o = Some r ↔ P x r) →
  ∃ k : list (option Z), mapM f l = Ret k ∧ ∀ r, r ∈ omap id k ↔ ∃ x, x ∈ l ∧ P x r.
Proof.
  induction l as [|x l IH]; intros Hf.
  { exists []. split; [done|]. intros r. split; [by intros ?%not_elem_of_nil|]. by intros (x & ?%not_elem_of_nil & _). }
  destruct (Hf x (list_elem_of_here _ _)) as (o & E & Ho). destruct IH as (k & Ek & Hk); [intros y Hy; apply Hf; by right|].
  exists (o :: k). split; [cbn; rewrite E; cbn; by rewrite Ek|]. intros r. rewrite list_elem_of_omap. split.
  - intros (o' & [->|Ho']%elem_of_cons & E').
    + exists x. split; [by left|]. by apply Ho.
    + assert (Hr : r ∈ omap id k) by (apply list_elem_of_omap; eauto). apply Hk in Hr as (y & ? & ?). exists y. split; [by right|done].
  - intros (y & [->|Hy]%elem_of_cons & HP).
    + exists (Some r). split; [|done]. rewrite elem_of_cons. left. symmetry. by apply Ho.
    + assert (Hr : r ∈ omap id k) by (apply Hk; eauto). apply list_elem_of_omap in Hr as (o' & ? & ?). exists o'. split; [by right|done].
Qed.

Section hints.
Context (cm : CompMap) (b : Z) (image : bool) (v : Z).
Hypothesis Hcm : comps_ok cm.
Hypothesis Hb : 1 ≤ b ≤ 64.
Hypothesis Hv : in_u64 v.

Lemma order_replacers_spec i big m :
  i ∈ iwidths → cast b v i = Some m →
  (image = true → 4 ≤ Z.abs i ∧ m ≠ 0 ∧ m mod 2 ^ cast_bits b i ≠ 2 ^ cast_bits b i - 1) →
  ∃ l, order_replacers cm b image v (Z.abs i) (cast_bits b i) m big = Ret l
  ∧ ∀ r, r ∈ l ↔ ∃ op, hint_for cm b image v i big op r.
Proof.
  intros Hi Hm Him. unfold order_replacers. destruct (big && bool_decide (Z.abs i = 1)) eqn:E1.
  { exists []. split; [done|]. intros r. split; [by intros ?%not_elem_of_nil|].
    apply andb_prop in E1 as [-> E1%bool_decide_eq_true]. intros (op & [Hw _ _ _]). destruct Hw as [_ Hw]. by destruct (Hw eq_refl). }
  assert (Hbig : big = true → Z.abs i ≠ 1).
  { intros -> E. by rewrite bool_decide_eq_true_2 in E1. }
  assert (E : (if big then swapInt m (Z.abs i) else Ret m) = Ret (in_order big i m)).
  { destruct big; [|done]. apply swapInt_eq; auto. }
  rewrite E. cbn [mbind outcome_bind].
  destruct (mapM_omap (replacer b image v (Z.abs i) (cast_bits b i) big) (λ op r, op_fits b i op ∧ op_new b image v i big op r)
    (map_to_list (default ∅ (cm !! in_order big i m))).*1) as (k & Ek & Hk).
  { intros op Hop. apply replacer_eq; try done. apply list_elem_of_fmap in Hop as ([op' pcs] & -> & Hop). apply elem_of_map_to_list in Hop.
    destruct (cm !! in_order big i m) as [nested|] eqn:En; [|done]. cbn in Hop. eapply Hcm; eauto. }
  rewrite Ek. cbn [mbind outcome_bind]. exists (omap id k). split; [done|]. intros r. rewrite Hk. split.
  - intros (op & Hop & Hf & Hn). exists op. split; [done| |exact Hf|exact Hn]. exists m. split_and!; [done| |done].
    apply list_elem_of_fmap in Hop as ([op' pcs] & -> & Hop). apply elem_of_map_to_list in Hop. destruct (cm !! in_order big i m); [|done].
    cbn in Hop |- *. eauto.
  - intros (op & [_ (m' & Hm' & [pcs Hop] & _) Hf Hn]). rewrite Hm in Hm'. injection Hm' as <-. exists op. split; [|done].
    apply list_elem_of_fmap. exists (op, pcs). split; [done|]. apply elem_of_map_to_list.
    destruct (cm !! in_order big i m); [|done]. exact Hop.
Qed.

Lemma width_replacers_spec i :
  i ∈ iwidths → ∃ l, width_replacers cm b image v i = Ret l ∧ ∀ r, r ∈ l ↔ ∃ big op, hint_for cm b image v i big op r.
Proof.
  intros Hi. unfold width_replacers. rewrite shrink_mutant_eq by done. pose proof (cast_bits_range b i Hb Hi) as Hs.
  destruct (cast b v i) as [m|] eqn:Em; cbn [fmap option_fmap option_map].
  2:{ exists []. split; [done|]. intros r. split; [by intros ?%not_elem_of_nil|]. intros (big & op & [_ (m & ? & _) _ _]). congruence. }
  destruct (cast_mod b v i m Hb Hi Em) as [Hmu Hmm]. pose proof (pow2_le (cast_bits b i) ltac:(lia)) as Hp.
  assert (Hsk : skip_image (Z.abs i) (cast_bits b i) m = true ↔
    ¬ (4 ≤ Z.abs i ∧ m ≠ 0 ∧ m mod 2 ^ cast_bits b i ≠ 2 ^ cast_bits b i - 1)).
  { unfold skip_image. rewrite bool_decide_eq_true, lor_not_mask by (done || lia).
    destruct (decide (m = 0)), (decide (m mod 2 ^ cast_bits b i = 2 ^ cast_bits b i - 1)); lia. }
  destruct (image && skip_image _ _ _) eqn:Esk.
  { exists []. split; [done|]. intros r. split; [by intros ?%not_elem_of_nil|]. intros (big & op & [_ (m' & Hm' & _ & Him) _ _]).
    apply andb_prop in Esk as [Ei Es]. rewrite Em in Hm'. injection Hm' as <-. apply Hsk in Es. by destruct (Es (Him Ei)). }
  assert (Him : image = true → 4 ≤ Z.abs i ∧ m ≠ 0 ∧ m mod 2 ^ cast_bits b i ≠ 2 ^ cast_bits b i - 1).
  { intros Ei. rewrite Ei in Esk. cbn in Esk. destruct (decide (4 ≤ Z.abs i ∧ m ≠ 0 ∧ m mod 2 ^ cast_bits b i ≠ 2 ^ cast_bits b i - 1)) as [|Hno]; [done|].
    apply Hsk in Hno. congruence. }
  destruct (order_replacers_spec i false m Hi Em Him) as (l1 & -> & H1).
  destruct (order_replacers_spec i true m Hi Em Him) as (l2 & -> & H2). cbn [mbind outcome_bind].
  exists (l1 ++ l2). split; [done|]. intros r. rewrite elem_of_app, H1, H2. split.
  - intros [[op H]|[op H]]; eauto.
  - intros ([] & op & H); eauto.
Qed.
End hints.

(** A replacement makes the comparison come out equal: as seen through the
    cast and byte order that matched, it agrees with the operand, and the rest
    of the value is kept. *)
Lemma hint_effect cm b image v i big op r :
  1 ≤ b ≤ 64 → 0 ≤ v < 2 ^ b → hint_for cm b image v i big op r → 8 * Z.abs i ≤ b →
  let s := 8 * Z.abs i in
  in_order big i (r mod 2 ^ s) = op mod 2 ^ s ∧ r / 2 ^ s = v / 2 ^ s ∧ r ≠ v.
Proof.
  intros Hb Hv [[Hi Hw] _ _ (low & r0 & Hlow & _ & Hr0 & Hne & Hr)] Hfit s.
  assert (Hs : cast_bits b i = s) by (unfold cast_bits, s; apply iwidths_cases in Hi; case_decide; lia).
  rewrite Hs in *. assert (Hs64 : 8 ≤ s ≤ 64) by (unfold s in *; apply iwidths_cases in Hi; lia).
  pose proof (pow2_le s ltac:(lia)) as Hp. pose proof (Z.mod_pos_bound op (2 ^ s) ltac:(lia)) as Hm.
  assert (E256 : 256 ^ Z.of_nat (Z.to_nat (Z.abs i)) = 2 ^ s).
  { rewrite Z2Nat.id by lia. change 256 with (2 ^ 8). rewrite <-Z.pow_mul_r by lia. done. }
  assert (Hl : 0 ≤ low < 2 ^ s ∧ in_order big i low = op mod 2 ^ s).
  { rewrite Hlow. destruct big; cbn; [|done]. rewrite byteswap_involutive, E256. split; [rewrite <-E256; apply byteswap_range|].
    apply Z.mod_mod. lia. }
  assert (Ev : v - v mod 2 ^ s = v / 2 ^ s * 2 ^ s) by (pose proof (Z.div_mod v (2 ^ s) ltac:(lia)); lia).
  rewrite Ev, lor_parts' in Hr0 by lia.
  assert (Hq : r0 / 2 ^ s = v / 2 ^ s ∧ r0 mod 2 ^ s = low).
  { rewrite Hr0, Z.add_comm. rewrite Z.div_add, Z.mod_add, Z.div_small, Z.mod_small by lia. lia. }
  assert (Hr0b : 0 ≤ r0 < 2 ^ b).
  { assert (E : 2 ^ b = 2 ^ (b - s) * 2 ^ s) by (rewrite <-Z.pow_add_r by lia; f_equal; lia).
    assert (0 ≤ v / 2 ^ s) by (apply Z.div_pos; lia). assert (v / 2 ^ s < 2 ^ (b - s)) by (apply Z.div_lt_upper_bound; lia). nia. }
  rewrite Z.mod_small in Hr by done. subst r. destruct Hq as [-> ->]. tauto.
Qed.

Lemma shrinkExpand_hints v cm bitsize image :
  comps_ok cm → 1 ≤ bitsize ≤ 64 → in_u64 v →
  ∃ l, shrinkExpand v cm bitsize image = Ret l ∧ StronglySorted Z.lt l
  ∧ (∀ r, r ∈ l ↔ ∃ i big op, hint_for cm bitsize image (v mod 2 ^ bitsize) i big op r).
Proof.
  intros Hcm Hb Hv. set (w := v mod 2 ^ bitsize).
  pose proof (pow2_le bitsize ltac:(lia)) as Hp. pose proof (Z.mod_pos_bound v (2 ^ bitsize) ltac:(lia)) as Hw.
  fold w in Hw. unfold shrinkExpand, truncateToBitSize. rewrite decide_False by lia. rewrite land_mask by lia. fold w.
  cbn [mbind outcome_bind].
  assert (H : ∀ ks, (∀ i, i ∈ ks → i ∈ iwidths) → ∃ ls, mapM (width_replacers cm bitsize image w) ks = Ret ls
    ∧ ∀ r, r ∈ concat ls ↔ ∃ i, i ∈ ks ∧ ∃ big op, hint_for cm bitsize image w i big op r).
  { induction ks as [|i ks IH]; intros Hks.
    - exists []. split; [done|]. intros r. split; [by intros ?%not_elem_of_nil|]. by intros (i & ?%not_elem_of_nil & _).
    - destruct (width_replacers_spec cm bitsize image w Hcm Hb ltac:(unfold in_u64; lia) i) as (l & E & Hl); [apply Hks; by left|].
      destruct IH as (ls & Els & Hls); [intros j Hj; apply Hks; by right|]. exists (l :: ls).
      split; [cbn; rewrite E; cbn; by rewrite Els|]. intros r. cbn. rewrite elem_of_app, Hl, Hls. split.
      + intros [H|(j & Hj & H)]; [exists i; split; [by left|done]|exists j; split; [by right|done]].
      + intros (j & [->|Hj]%elem_of_cons & H); [by left|right; eauto]. }
  destruct (H iwidths) as (ls & -> & Hls); [done|]. cbn [mbind outcome_bind].
  set (X := list_to_set (concat ls) : gset Z). exists (sort_by (less_on id) (elements X)). split_and!; [done| |].
  - apply sort_by_increasing, NoDup_elements.
  - intros r. rewrite elem_of_sort_by, elem_of_elements. unfold X. rewrite elem_of_list_to_set, Hls. split.
    + intros (i & _ & H'). eauto.
    + intros (i & big & op & H'). exists i. split; [apply H'|eauto].
Qed.

(** C22: Hints are exactly the operands a cast of the argument was compared
    with.  For an argument of [bitsize] bits the replacements come without
    panic, sorted and without duplicates; a value is among them exactly when it
    is the argument with the bits seen through some cast (to 1, 2, 4 or 8 bytes,
    zero or sign extended, in either byte order) replaced by an operand that
    was compared with it and fits, other than the special integers; and seen
    through a cast that fits into the argument it equals that operand, keeps
    the other bits and differs from the argument. *)
Theorem shrinkExpand_spec (v : Z) (cm : CompMap) (bitsize : Z) (image : bool)
    (Hcm : comps_ok cm) (Hb : 1 ≤ bitsize ≤ 64) (Hv : in_u64 v) :
  let w := v mod 2 ^ bitsize in
  ∃ l, shrinkExpand v cm bitsize image = Ret l ∧ StronglySorted Z.lt l
  ∧ (∀ r, r ∈ l ↔ ∃ i big op, hint_for cm bitsize image w i big op r)
  ∧ (∀ r i big op, hint_for cm bitsize image w i big op r → 8 * Z.abs i ≤ bitsize →
       let s := 8 * Z.abs i in
       in_order big i (r mod 2 ^ s) = op mod 2 ^ s ∧ r / 2 ^ s = w / 2 ^ s ∧ r ≠ w).
Proof.
  intros w. destruct (shrinkExpand_hints v cm bitsize image Hcm Hb Hv) as (l & E & Hs & Hl).
  pose proof (pow2_le bitsize ltac:(lia)) as Hp. exists l. split_and!; [done..|].
  intros r i big op Hh Hfit. eapply hint_effect; [done| |done|done]. apply Z.mod_pos_bound. lia.
Qed.

(** The example of the source's comment: f(0x1234) compares 0x34 with 0xab. *)
Definition doc_comps : CompMap := CompAdd ∅ 0xffffffff81000000 0x34 0xab true.
Lemma doc_comps_ok : comps_ok doc_comps.
Proof.
  intros k nested op Hk [pcs Hop]. unfold doc_comps, CompAdd, add_comp in Hk.
  apply lookup_insert_Some in Hk as [[<- <-]|[_ Hk]]; [|by rewrite lookup_empty in Hk].
  apply lookup_insert_Some in Hop as [[<- _]|[_ Hop]]; [unfold in_u64; lia|].
  rewrite lookup_empty in Hop. cbn in Hop. by rewrite lookup_empty in Hop.
Qed.
Example shrink_doc : shrinkExpand 0x1234 doc_comps 16 false = Ret [0x12ab].
Proof. vm_compute. reflexivity. Qed.
Lemma shrinkExpand_witness :
  let w := 0x1234 mod 2 ^ 16 in
  ∃ l, shrinkExpand 0x1234 doc_comps 16 false = Ret l ∧ StronglySorted Z.lt l
  ∧ (∀ r, r ∈ l ↔ ∃ i big op, hint_for doc_comps 16 false w i big op r)
  ∧ (∀ r i big op, hint_for doc_comps 16 false w i big op r → 8 * Z.abs i ≤ 16 →
       let s := 8 * Z.abs i in
       in_order big i (r mod 2 ^ s) = op mod 2 ^ s ∧ r / 2 ^ s = w / 2 ^ s ∧ r ≠ w).
Proof. apply (shrinkExpand_spec 0x1234 doc_comps 16 false doc_comps_ok); [lia|unfold in_u64; lia]. Defined.

(** The check against the argument comes before the truncation: a wider cast
    than the argument can give the argument itself back. *)
Example shrink_same : shrinkExpand 0xfffe (CompAdd ∅ 1 0xfffe (2 ^ 64 - 2) true) 16 false = Ret [0xfffe].
Proof. vm_compute. reflexivity. Qed.

(** ** Trying the replacements *)

(** The bytes of a slice from [i] on, overwritten by [copy]. *)
Definition copy_at (data : list Z) (i : nat) (src : list Z) : list Z :=
  take i data ++ take (length data - i) src ++ drop (i + length src) data.
(** [original := make([]byte, 8); copy(original, data[i:])]. *)
Definition window (data : list Z) (i : nat) : list Z := take 8 (drop i data ++ replicate 8 0).

(** Types that reject values random mutation finds anyway. *)
Definition uselessHint (t : Typ) (v : Z) : outcome bool :=
  match t with
  | LenType _ _ _ _ => Ret (bool_decide (v ≤ 10 ∨ Z.shiftl 1 20 < v))
  | _ => match int_part t with Some c => Ret (bool_decide (v ∈ uselessHints c)) | None => Panic end
  end.
(** The types are asked in some order until one rejects. *)
Fixpoint any_useless (l : list Typ) (v : Z) : outcome bool :=
  match l with
  | [] => Ret false
  | t :: l => u ← uselessHint t v; if (u : bool) then Ret true else any_useless l v
  end.

Section check_args.
Context {St : Type}.

Section const.
(** Executing the program with the given value of the argument. *)
Context (exec : St → Z → St * bool).

Fixpoint const_loop (asked : list Typ) (rs : list Z) (st : St) (val : Z) : outcome (St * Z) :=
  match rs with
  | [] => Ret (st, val)
  | r :: rs =>
      useless ← any_useless asked r;
      if (useless : bool) then const_loop asked rs st val
      else let '(st, more) := exec st r in if more then const_loop asked rs st r else Ret (st, r)
  end.
(** [related]: the types related to the field, none for a nil field. *)
Definition checkConstArg (t : Typ) (related : list Typ) (compMap : CompMap) (st : St) (val : Z) : outcome (St * Z) :=
  bits ← TypeBitSize t;
  rs ← shrinkExpand val compMap bits false;
  '(st, _) ← const_loop (if decide (len related ≠ 0) then related else [t]) rs st val;
  Ret (st, val).
End const.

Section data.
(** Executing the program with the given data. *)
Context (exec : St → list Z → St * bool).

Fixpoint data_loop (i : nat) (rs : list Z) (st : St) (data : list Z) : St * list Z :=
  match rs with
  | [] => (st, data)
  | r :: rs =>
      let data := copy_at data i (le_bytes 8 r) in
      let '(st, more) := exec st data in
      if more then data_loop i rs st data else (st, data)
  end.
Fixpoint data_positions (positions : list nat) (compMap : CompMap) (st : St) (data : list Z) : outcome (St * list Z) :=
  match positions with
  | [] => Ret (st, data)
  | i :: positions =>
      let original := window data i in
      rs ← shrinkExpand (le_value original) compMap 64 false;
      let '(st, data) := data_loop i rs st data in
      data_positions positions compMap st (copy_at data i original)
  end.
Definition checkDataArg (compMap : CompMap) (st : St) (data : list Z) : outcome (St * list Z) :=
  let size := Z.min (len data) maxDataLength in
  data_positions (seq 0 (Z.to_nat size)) compMap st data.
End data.

Section compressed.
(** package image; the argument holds the compressed image. *)
Context (MustDecompress : list Z → outcome (list Z)) (Compress : list Z → list Z).
Context (exec : St → list Z → St * bool).

(** [data]: the uncompressed image; the result says whether to go on. *)
Fixpoint image_loop (data0 : list Z) (i : nat) (rs : list Z) (st : St) (data : list Z) : outcome (St * list Z * bool) :=
  match rs with
  | [] => Ret (st, data, true)
  | r :: rs =>
      let '(st, more) := exec st (Compress (copy_at data i (le_bytes 8 r))) in
      data ← MustDecompress data0;
      if more then image_loop data0 i rs st data else Ret (st, data, false)
  end.
(** [None]: out of fuel; the position grows by four. *)
Fixpoint image_positions (fuel : nat) (data0 : list Z) (compMap : CompMap) (i : nat) (st : St) (data : list Z)
    : outcome (option St) :=
  match fuel with
  | O => Ret None
  | S fuel =>
      if decide (i < length data)%nat then
        let original := window data i in
        rs ← shrinkExpand (le_value original) compMap 64 true;
        '(st, data, more) ← image_loop data0 i rs st data;
        let data := copy_at data i original in
        if (more : bool) then image_positions fuel data0 compMap (i + 4) st data else Ret (Some st)
      else Ret (Some st)
  end.
Definition checkCompressedArg (fuel : nat) (compMap : CompMap) (st : St) (data0 : list Z) : outcome (option (St * list Z)) :=
  data ← MustDecompress data0;
  r ← image_positions fuel data0 compMap 0 st data;
  Ret (match r with Some st => Some (st, data0) | None => None end).
End compressed.
End check_args.

Section generate.
Context {St : Type} (typeRefs : list Typ).
Context (MustDecompress : list Z → outcome (list Z)) (Compress : list Z → list Z).
(** Executing the program with the argument replaced. *)
Context (exec : St → Arg → St * bool).

(** Types whose values are not replaced. *)
Definition no_hints (t : Typ) : bool :=
  match t with
  | ProcType _ _ _ | CsumType _ _ _ _ => true
  | ConstType _ _ pad => pad
  | BufferType _ BufferFilename _ _ _ _ _ => true
  | BufferType _ (BufferString | BufferGlob) _ _ _ vals _ => bool_decide (len vals ≠ 0)
  | _ => false
  end.
Definition generateHints (fuel : nat) (compMap : CompMap) (arg : Arg) (related : list Typ) (st : St)
    : outcome (option (St * Arg)) :=
  t ← TypeOf typeRefs arg;
  if decide (ADir arg = DirOut) then Ret (Some (st, arg))
  else if no_hints t then Ret (Some (st, arg))
  else
    match arg with
    | ConstArg c val =>
        bits ← TypeBitSize t;
        if decide (bits ≤ 8) then Ret (Some (st, arg))
        else
          '(st, val) ← checkConstArg (λ st val, exec st (ConstArg c val)) t related compMap st val;
          Ret (Some (st, ConstArg c val))
    | DataArg c data size =>
        n ← ArgSize typeRefs arg;
        if decide (n ≤ 3) then Ret (Some (st, arg))
        else
          match t with
          | BufferType _ BufferCompressed _ _ _ _ _ =>
              r ← checkCompressedArg MustDecompress Compress (λ st data, exec st (DataArg c data size)) fuel compMap st data;
              Ret (match r with Some (st, data) => Some (st, DataArg c data size) | None => None end)
          | BufferType _ _ _ _ _ _ _ =>
              '(st, data) ← checkDataArg (λ st data, exec st (DataArg c data size)) compMap st data;
              Ret (Some (st, DataArg c data size))
          | _ => Panic
          end
    | _ => Ret (Some (st, arg))
    end.
End generate.

(** ** Limiting the attempts *)

Definition hints_limit : Z := 10.
Abbreviation attempt := (Z * Z * Z)%type.

(** The comparisons one by one: operands and PC. *)
Definition comp_set (m : CompMap) : gset attempt :=
  list_to_set ('(op1, nested) ← map_to_list m; '(op2, pcs) ← map_to_list (nested : gmap Z (gset Z));
               pc ← elements pcs; [(op1, op2, pc)]).
(** The loops over the map in some order; the attempts that are deleted. *)
Fixpoint limit_loop (l : list attempt) (attempts : gmap Z Z) (dropped : gset attempt) : gmap Z Z * gset attempt :=
  match l with
  | [] => (attempts, dropped)
  | t :: l =>
      let n := default 0 (attempts !! t.2) + 1 in
      limit_loop l (<[t.2 := n]> attempts) (if decide (hints_limit < n) then {[t]} ∪ dropped else dropped)
  end.
Definition HintsLimit (order : list attempt) (attempts : gmap Z Z) (comps : CompMap) : gmap Z Z * CompMap :=
  let '(attempts, dropped) := limit_loop order attempts ∅ in
  (attempts, keep_pcs (λ op1 op2 pcs, filter (λ pc, (op1, op2, pc) ∉ dropped) pcs) comps).

(** ** Properties of the comparison maps *)

Lemma keep_pcs_pcs keep m a b :
  keep a b ∅ = ∅ → comp_pcs (keep_pcs keep m) a b = keep a b (comp_pcs m a b).
Proof.
  intros H0. unfold comp_pcs, keep_pcs. rewrite map_lookup_imap. destruct (m !! a) as [nested|]; cbn; [|done].
  set (k := map_imap _ nested).
  assert (E : k !! b = nested !! b ≫= λ pcs, if decide (keep a b pcs = ∅) then None else Some (keep a b pcs))
    by (unfold k; by rewrite map_lookup_imap).
  assert (E' : default ∅ (k !! b) = keep a b (default ∅ (nested !! b))).
  { rewrite E. destruct (nested !! b) as [pcs|]; cbn; [|done]. by case_decide. }
  case_decide as Hk; cbn; [|exact E']. rewrite <-E', Hk. by rewrite lookup_empty.
Qed.
Lemma elem_of_comp_set m a b pc : (a, b, pc) ∈ comp_set m ↔ pc ∈ comp_pcs m a b.
Proof.
  unfold comp_set, comp_pcs. rewrite elem_of_list_to_set, list_elem_of_bind. split.
  - intros ([a' nested] & H & Ha). apply elem_of_map_to_list in Ha. apply list_elem_of_bind in H as ([b' pcs] & H & Hb).
    apply elem_of_map_to_list in Hb. apply list_elem_of_bind in H as (pc' & H & Hpc). apply elem_of_elements in Hpc.
    apply list_elem_of_singleton in H as [= -> -> ->]. by rewrite Ha; cbn; rewrite Hb.
  - intros H. destruct (m !! a) as [nested|] eqn:Ha; cbn in H; [|by apply not_elem_of_empty in H].
    destruct (nested !! b) as [pcs|] eqn:Hb; cbn in H; [|by apply not_elem_of_empty in H].
    exists (a, nested). split; [|by apply elem_of_map_to_list]. apply list_elem_of_bind. exists (b, pcs).
    split; [|by apply elem_of_map_to_list]. apply list_elem_of_bind. exists pc. split; [by left|by apply elem_of_elements].
Qed.
(** Intersecting keeps the comparisons both maps have. *)
Lemma InplaceIntersect_spec m other a b :
  comp_pcs (InplaceIntersect m other) a b = comp_pcs m a b ∩ comp_pcs other a b.
Proof. unfold InplaceIntersect. rewrite keep_pcs_pcs by set_solver. set_solver. Qed.
Lemma CompAdd_spec m pc a b isConst x y :
  comp_pcs (CompAdd m pc a b isConst) x y =
    (if decide ((x, y) = (a, b) ∨ isConst = false ∧ (x, y) = (b, a)) then {[pc]} else ∅) ∪ comp_pcs m x y.
Proof.
  assert (H : ∀ m a b, comp_pcs (add_comp m pc a b) x y = (if decide ((x, y) = (a, b)) then {[pc]} else ∅) ∪ comp_pcs m x y).
  { intros m' a' b'. unfold add_comp. unfold comp_pcs at 1. destruct (decide (x = a')) as [->|Hx].
    - rewrite lookup_insert_eq. cbn. destruct (decide (y = b')) as [->|Hy].
      + rewrite lookup_insert_eq. cbn. by rewrite decide_True.
      + rewrite lookup_insert_ne by done. rewrite decide_False by congruence. unfold comp_pcs. destruct (m' !! a'); cbn.
        * set_solver. * rewrite lookup_empty. set_solver.
    - rewrite lookup_insert_ne by done. rewrite decide_False by congruence. unfold comp_pcs. set_solver. }
  unfold CompAdd. destruct isConst; rewrite !H; repeat case_decide; set_solver.
Qed.

(** ** Properties of the limiter *)

Definition pc_count (X : gset attempt) (pc : Z) : Z := Z.of_nat (size (filter (λ t : attempt, t.2 = pc) X)).
Definition list_count (l : list attempt) (pc : Z) : Z := Z.of_nat (length (filter (λ t : attempt, t.2 = pc) l)).

Lemma list_count_cons t l pc : list_count (t :: l) pc = (if decide (t.2 = pc) then 1 else 0) + list_count l pc.
Proof. unfold list_count. rewrite filter_cons. case_decide; cbn; lia. Qed.
Lemma pc_count_insert t X pc : t ∉ X → pc_count ({[t]} ∪ X) pc = (if decide (t.2 = pc) then 1 else 0) + pc_count X pc.
Proof.
  intros Ht. unfold pc_count. case_decide as H.
  - assert (E : filter (λ t : attempt, t.2 = pc) ({[t]} ∪ X) = {[t]} ∪ filter (λ t : attempt, t.2 = pc) X).
    { apply set_eq. intros u. rewrite elem_of_union, !elem_of_filter, elem_of_union, elem_of_singleton. naive_solver. }
    rewrite E, size_union, size_singleton by set_solver. lia.
  - rewrite Z.add_0_l. do 2 f_equal. apply set_eq. intros u. rewrite !elem_of_filter, elem_of_union, elem_of_singleton. naive_solver.
Qed.

Lemma limit_loop_spec l a d :
  NoDup l → (∀ t, t ∈ l → t ∉ d) →
  let r := limit_loop l a d in
  (∀ pc, default 0 (r.1 !! pc) = default 0 (a !! pc) + list_count l pc)
  ∧ (∀ pc, pc_count r.2 pc = pc_count d pc + (Z.max 0 (default 0 (a !! pc) + list_count l pc - 10) - Z.max 0 (default 0 (a !! pc) - 10)))
  ∧ (∀ t, t ∈ r.2 → t ∈ d ∨ t ∈ l).
Proof.
  revert a d. induction l as [|t l IH]; intros a d Hl Hd.
  { cbn. split_and!; [intros; unfold list_count; cbn; lia|intros; unfold list_count; cbn; lia|tauto]. }
  apply NoDup_cons in Hl as [Ht Hl]. cbn [limit_loop]. set (n := default 0 (a !! t.2) + 1). set (d' := if decide (hints_limit < n) then _ else _).
  assert (Ed' : ∀ pc, pc_count d' pc = pc_count d pc + if decide (t.2 = pc ∧ 10 < n) then 1 else 0).
  { intros pc. assert (t ∉ d) by (apply Hd; by left). unfold d', hints_limit. destruct (decide (10 < n)).
    - rewrite pc_count_insert by done. destruct (decide (t.2 = pc)); [rewrite decide_True by done|rewrite decide_False by tauto]; lia.
    - rewrite decide_False by tauto. lia. }
  destruct (IH (<[t.2 := n]> a) d' Hl) as (H1 & H2 & H3).
  { intros u Hu. assert (u ∉ d) by (apply Hd; by right). unfold d'. destruct (decide (hints_limit < n)); [|done]. rewrite not_elem_of_union, not_elem_of_singleton. split; [intros ->; done|done]. }
  cbv zeta. split_and!.
  - intros pc. rewrite H1, list_count_cons. destruct (decide (t.2 = pc)) as [<-|Hne].
    + rewrite lookup_insert_eq. cbn. unfold n. lia.
    + by rewrite lookup_insert_ne by done.
  - intros pc. rewrite H2, Ed', list_count_cons. assert (0 ≤ list_count l pc) by (unfold list_count; lia).
    destruct (decide (t.2 = pc)) as [<-|Hne].
    + rewrite lookup_insert_eq. change (default 0 (Some n)) with n. unfold n. set (x := default 0 (a !! t.2)).
      destruct (decide (10 < x + 1)); [rewrite decide_True by done|rewrite decide_False by tauto]; lia.
    + rewrite lookup_insert_ne by done. rewrite decide_False by tauto. lia.
  - intros u Hu. apply H3 in Hu as [Hu|Hu]; [|right; by right]. unfold d' in Hu. destruct (decide (hints_limit < n)); [|by left].
    apply elem_of_union in Hu as [->%elem_of_singleton|]; [right; by left|by left].
Qed.

Lemma limit_one order a comps :
  order ≡ₚ elements (comp_set comps) →
  let r := HintsLimit order a comps in
  comp_set r.2 ⊆ comp_set comps
  ∧ (∀ pc, default 0 (r.1 !! pc) = default 0 (a !! pc) + pc_count (comp_set comps) pc)
  ∧ (∀ pc, 0 ≤ default 0 (a !! pc) → pc_count (comp_set r.2) pc = Z.min (pc_count (comp_set comps) pc) (Z.max 0 (10 - default 0 (a !! pc)))).
Proof.
  intros Hp. unfold HintsLimit. destruct (limit_loop order a ∅) as [a' dropped] eqn:El. cbn [fst snd].
  assert (Hnd : NoDup order) by (rewrite Hp; apply NoDup_elements).
  pose proof (limit_loop_spec order a ∅ Hnd ltac:(set_solver)) as (H1 & H2 & H3). rewrite El in H1, H2, H3. cbn [fst snd] in H1, H2, H3.
  set (kept := keep_pcs _ _).
  assert (Ek : comp_set kept = comp_set comps ∖ dropped).
  { apply set_eq. intros [[x y] pc]. rewrite elem_of_difference, !elem_of_comp_set. unfold kept. rewrite keep_pcs_pcs by set_solver.
    rewrite elem_of_filter. tauto. }
  assert (Ec : ∀ pc, list_count order pc = pc_count (comp_set comps) pc).
  { intros pc. unfold list_count, pc_count. f_equal.
    assert (E : filter (λ t : attempt, t.2 = pc) order ≡ₚ elements (filter (λ t : attempt, t.2 = pc) (comp_set comps))).
    { apply NoDup_Permutation; [by apply NoDup_filter|apply NoDup_elements|]. intros t.
      by rewrite list_elem_of_filter, elem_of_elements, elem_of_filter, Hp, elem_of_elements. }
    by rewrite E. }
  assert (Hsub : dropped ⊆ comp_set comps).
  { intros t Ht. apply H3 in Ht as [Ht|Ht]; [by apply not_elem_of_empty in Ht|]. by rewrite Hp, elem_of_elements in Ht. }
  split_and!.
  - rewrite Ek. set_solver.
  - intros pc. by rewrite H1, Ec.
  - intros pc Ha. assert (E : pc_count (comp_set kept) pc = pc_count (comp_set comps) pc - pc_count dropped pc).
    { rewrite Ek. unfold pc_count.
      assert (Ef : filter (λ t : attempt, t.2 = pc) (comp_set comps ∖ dropped) =
        filter (λ t : attempt, t.2 = pc) (comp_set comps) ∖ filter (λ t : attempt, t.2 = pc) dropped).
      { apply set_eq. intros t. rewrite elem_of_difference, !elem_of_filter, elem_of_difference. tauto. }
      rewrite Ef, size_difference by (intros t; rewrite !elem_of_filter; intros [??]; split; [done|by apply Hsub]).
      assert (size (filter (λ t : attempt, t.2 = pc) dropped) ≤ size (filter (λ t : attempt, t.2 = pc) (comp_set comps)))%nat.
      { apply subseteq_size. intros t. rewrite !elem_of_filter. intros [??]. split; [done|by apply Hsub]. } lia. }
    assert (pc_count ∅ pc = 0) as E0 by reflexivity.
    assert (0 ≤ pc_count (comp_set comps) pc) by (unfold pc_count; lia).
    rewrite E, H2, Ec, E0. lia.
Qed.

(** A history of uses of one limiter: what each of them keeps. *)
Fixpoint limit_history (l : list (list attempt * CompMap)) (a : gmap Z Z) : list CompMap :=
  match l with
  | [] => []
  | (order, comps) :: l => let '(a, kept) := HintsLimit order a comps in kept :: limit_history l a
  end.
Definition total_count (l : list CompMap) (pc : Z) : Z := foldr (λ m n, pc_count (comp_set m) pc + n) 0 l.

(** The limiter bounds the attempts per PC.  In every history of one
    limiter, whatever the order in which the maps are iterated, each use keeps
    only comparisons it was given, and of all the comparisons at one PC exactly
    the first ten survive. *)
Theorem limit_history_spec (hist : list (list attempt * CompMap))
    (Hord : Forall (λ oc, oc.1 ≡ₚ elements (comp_set oc.2)) hist) :
  Forall2 (λ kept oc, comp_set kept ⊆ comp_set oc.2) (limit_history hist ∅) hist
  ∧ ∀ pc, total_count (limit_history hist ∅) pc = Z.min 10 (total_count hist.*2 pc).
Proof.
  assert (H : ∀ l a, Forall (λ oc : list attempt * CompMap, oc.1 ≡ₚ elements (comp_set oc.2)) l → (∀ pc, 0 ≤ default 0 (a !! pc)) →
    Forall2 (λ kept oc, comp_set kept ⊆ comp_set oc.2) (limit_history l a) l
    ∧ ∀ pc, total_count (limit_history l a) pc = Z.min (total_count l.*2 pc) (Z.max 0 (10 - default 0 (a !! pc)))).
  { induction l as [|[order comps] l IH]; intros a Hl Ha; [split; [constructor|]; intros; cbn; lia|].
    apply Forall_cons in Hl as [Ho Hl]. cbn [limit_history]. destruct (HintsLimit order a comps) as [a' kept] eqn:E.
    pose proof (limit_one order a comps Ho) as (H1 & H2 & H3). rewrite E in H1, H2, H3. cbn [fst snd] in H1, H2, H3.
    destruct (IH a' Hl) as [H4 H5]; [intros pc; rewrite H2; specialize (Ha pc); unfold pc_count; lia|]. split; [by constructor|].
    intros pc. cbn [total_count foldr fmap list_fmap]. fold (total_count (limit_history l a') pc) (total_count l.*2 pc).
    rewrite H5, H2, H3 by apply Ha. specialize (Ha pc). cbn [snd].
    assert (0 ≤ pc_count (comp_set comps) pc) by (unfold pc_count; lia).
    assert (0 ≤ total_count l.*2 pc); [|lia]. clear. induction l as [|[o c] l IH]; cbn; [lia|].
    fold (total_count l.*2 pc). unfold pc_count. lia. }
  destruct (H hist ∅ Hord) as [H1 H2]; [intros; rewrite lookup_empty; cbn; lia|]. split; [done|].
  intros pc. rewrite H2, lookup_empty. cbn [default from_option]. unfold id. lia.
Qed.

Definition flaky_pc (k : Z) : CompMap := foldl (λ m op, CompAdd m 7 op 0xab true) ∅ (seqZ 100 k).
Definition limit_uses : list (list attempt * CompMap) :=
  (λ m, (reverse (elements (comp_set m)), m)) <$> [flaky_pc 8; flaky_pc 4; flaky_pc 1].
Lemma limit_history_witness :
  (Forall2 (λ kept oc, comp_set kept ⊆ comp_set oc.2) (limit_history limit_uses ∅) limit_uses
   ∧ ∀ pc, total_count (limit_history limit_uses ∅) pc = Z.min 10 (total_count limit_uses.*2 pc))
  ∧ ((λ m, pc_count (comp_set m) 7) <$> limit_history limit_uses ∅) = [8; 2; 0].
Proof.
  split; [|vm_compute; reflexivity]. apply (limit_history_spec limit_uses).
  repeat (apply Forall_cons; split; [apply reverse_Permutation|]). constructor.
Defined.

(** ** Properties of the data replacements *)

Lemma length_copy_at data i src : length (copy_at data i src) = length data.
Proof. unfold copy_at. rewrite !length_app, !length_take, length_drop. lia. Qed.
Lemma copy_at_twice data i a b : length a = length b → copy_at (copy_at data i a) i b = copy_at data i b.
Proof.
  intros E. destruct (decide (length data ≤ i)%nat) as [Hge|Hlt].
  - assert (H : ∀ x, copy_at data i x = data).
    { intros x. unfold copy_at. rewrite take_ge, drop_ge by lia. replace (length data - i)%nat with 0%nat by lia. by rewrite !app_nil_r. }
    by rewrite !H.
  - unfold copy_at at 1. rewrite length_copy_at.
    assert (E1 : take i (copy_at data i a) = take i data).
    { unfold copy_at. rewrite take_app_le by (rewrite length_take; lia). by rewrite take_take, Nat.min_id. }
    assert (E2 : drop (i + length b) (copy_at data i a) = drop (i + length b) data).
    { unfold copy_at. rewrite drop_app_ge by (rewrite length_take; lia). rewrite length_take, Nat.min_l by lia.
      rewrite drop_app, length_take. rewrite drop_ge by (rewrite length_take; lia). cbn. rewrite drop_drop. rewrite E.
      destruct (decide (i + length b ≤ length data)%nat); [f_equal; lia|]. by rewrite !drop_ge by lia. }
    by rewrite E1, E2.
Qed.
Lemma length_window data i : length (window data i) = 8%nat.
Proof. unfold window. rewrite length_take, length_app, length_replicate. lia. Qed.
Lemma copy_window data i : (i < length data)%nat → copy_at data i (window data i) = data.
Proof.
  intros Hi. unfold copy_at. rewrite length_window. unfold window. rewrite take_take.
  destruct (decide (length data - i ≤ 8)%nat).
  - rewrite Nat.min_l by lia. replace (length data - i)%nat with (length (drop i data)) by (rewrite length_drop; lia).
    rewrite take_app_length, (drop_ge data (i + 8)), app_nil_r by lia. apply take_drop.
  - rewrite Nat.min_r by lia. rewrite take_app_le by (rewrite length_drop; lia). rewrite <-drop_drop, take_drop. apply take_drop.
Qed.
Lemma window_range data i : Forall is_byte data → in_u64 (le_value (window data i)).
Proof.
  intros Hd. pose proof (le_value_range (window data i)) as H. rewrite length_window in H. apply H.
  apply Forall_take, Forall_app_2; [by apply Forall_drop|]. apply Forall_replicate. unfold is_byte. lia.
Qed.

(** What the callback is given, with [answer] deciding from the executions so
    far whether to go on. *)
Definition log_exec (answer : list (list Z) → bool) (log : list (list Z)) (data : list Z) : list (list Z) * bool :=
  (log ++ [data], answer log).
(** The candidates for one position, and what is run of them. *)
Definition candidates (cm : CompMap) (data : list Z) (i : nat) : list (list Z) :=
  match shrinkExpand (le_value (window data i)) cm 64 false with
  | Ret rs => (λ r, copy_at data i (le_bytes 8 r)) <$> rs
  | Panic => []
  end.
Fixpoint run_until (answer : list (list Z) → bool) (log l : list (list Z)) : list (list Z) :=
  match l with
  | [] => log
  | d :: l => if answer log then run_until answer (log ++ [d]) l else log ++ [d]
  end.

Lemma data_loop_log answer i rs log data data0 :
  (∃ x, length x = 8%nat ∧ data = copy_at data0 i x) →
  let r := data_loop (log_exec answer) i rs log data in
  r.1 = run_until answer log ((λ r, copy_at data0 i (le_bytes 8 r)) <$> rs) ∧ ∃ x, length x = 8%nat ∧ r.2 = copy_at data0 i x.
Proof.
  revert log data. induction rs as [|r rs IH]; intros log data Hd; cbn [data_loop]; [done|].
  destruct Hd as (x & Hx & ->). rewrite copy_at_twice by (rewrite length_le_bytes; lia).
  change (log_exec answer log ?d) with (log ++ [d], answer log). cbv beta iota zeta. rewrite fmap_cons.
  cbn [run_until]. destruct (answer log).
  - apply IH. exists (le_bytes 8 r). by rewrite length_le_bytes.
  - split; [done|]. exists (le_bytes 8 r). by rewrite length_le_bytes.
Qed.

Lemma data_positions_log answer cm data :
  comps_ok cm → Forall is_byte data → ∀ ks log, Forall (λ i, i < length data)%nat ks →
  data_positions (log_exec answer) ks cm log data
  = Ret (foldl (λ log i, run_until answer log (candidates cm data i)) log ks, data).
Proof.
  intros Hcm Hdata. induction ks as [|i ks IH]; intros log Hks; cbn [data_positions foldl]; [done|].
  apply Forall_cons in Hks as [Hi Hks].
  destruct (shrinkExpand_hints (le_value (window data i)) cm 64 false Hcm ltac:(lia) (window_range data i Hdata)) as (rs & E & _).
  rewrite E. cbn [mbind outcome_bind].
  pose proof (data_loop_log answer i rs log data data) as Hl.
  destruct (data_loop (log_exec answer) i rs log data) as [log' data'] eqn:El. cbn [fst snd] in Hl.
  destruct Hl as [-> (x & Hx & ->)]; [exists (window data i); split; [apply length_window|by rewrite copy_window]|].
  rewrite copy_at_twice by (rewrite length_window; lia). rewrite copy_window by done.
  replace ((λ r, copy_at data i (le_bytes 8 r)) <$> rs) with (candidates cm data i) by (unfold candidates; by rewrite E). by apply IH.
Qed.

(** Trying hints on a buffer leaves it as it was.  Whatever the executions
    answer, the loop returns and the data are restored; the programs executed
    are, position by position, the data with up to eight bytes replaced by a
    hint for the integer at that position, in increasing order up to the first
    one after which the callback asked to stop. *)
Theorem checkDataArg_spec (answer : list (list Z) → bool) (cm : CompMap) (data : list Z)
    (Hcm : comps_ok cm) (Hdata : Forall is_byte data) :
  checkDataArg (log_exec answer) cm [] data
  = Ret (foldl (λ log i, run_until answer log (candidates cm data i)) [] (seq 0 (Z.to_nat (Z.min (len data) maxDataLength))), data).
Proof.
  apply data_positions_log; [done..|]. apply Forall_forall. intros i [_ Hi]%elem_of_seq. unfold len in Hi. lia.
Qed.

(** The callback's request to stop only ends the current position. *)
Lemma data_abort_ignored cm data :
  comps_ok cm → Forall is_byte data →
  checkDataArg (log_exec (λ _, false)) cm [] data
  = Ret (concat ((λ i, take 1 (candidates cm data i)) <$> seq 0 (Z.to_nat (Z.min (len data) maxDataLength))), data).
Proof.
  intros Hcm Hd. unfold checkDataArg. set (n := Z.to_nat _).
  assert (Hn : Forall (λ i, i < length data)%nat (seq 0 n)).
  { apply Forall_forall. intros i [_ Hi]%elem_of_seq. unfold n, len in Hi. lia. }
  revert Hn. generalize (seq 0 n). intros ks Hks. rewrite (data_positions_log _ cm data Hcm Hd ks [] Hks). do 2 f_equal.
  assert (H : ∀ log l, run_until (λ _, false) log l = log ++ take 1 l).
  { intros log [|d l]; cbn; [by rewrite app_nil_r|done]. }
  assert (G : ∀ log, foldl (λ log i, run_until (λ _, false) log (candidates cm data i)) log ks
    = log ++ concat ((λ i, take 1 (candidates cm data i)) <$> ks)); [|apply G].
  clear Hks. induction ks as [|i ks IH]; intros log; cbn [foldl fmap list_fmap concat]; [by rewrite app_nil_r|].
  by rewrite H, IH, <-app_assoc.
Qed.
Definition two_hits : list Z := [0x34; 0; 0; 0; 0x34].
Lemma two_hits_bytes : Forall is_byte two_hits.
Proof. repeat constructor; unfold is_byte; lia. Qed.
Lemma checkDataArg_witness :
  checkDataArg (log_exec (λ _, false)) doc_comps [] two_hits
  = Ret (foldl (λ log i, run_until (λ _, false) log (candidates doc_comps two_hits i)) []
           (seq 0 (Z.to_nat (Z.min (len two_hits) maxDataLength))), two_hits)
  ∧ checkDataArg (log_exec (λ _, false)) doc_comps [] two_hits = Ret ([[0xab; 0; 0; 0; 0x34]; [0x34; 0; 0; 0; 0xab]; [0x34; 0; 0; 0; 0xab]; [0x34; 0; 0; 0; 0xab]], two_hits).
Proof.
  split; [apply (checkDataArg_spec (λ _, false) doc_comps two_hits doc_comps_ok two_hits_bytes)|vm_compute; reflexivity].
Defined.

(** Images: the loop ends; it restores the argument by construction. *)
Lemma image_positions_ends {St} MustDecompress Compress (exec : St → list Z → St * bool) cm data0 data fuel i st :
  comps_ok cm → Forall is_byte data → MustDecompress data0 = Ret data → (length data - i < fuel)%nat →
  ∃ st', image_positions MustDecompress Compress exec fuel data0 cm i st data = Ret (Some st').
Proof.
  intros Hcm Hd Hdec. revert i st. induction fuel as [|fuel IH]; intros i st Hf; cbn [image_positions].
  { lia. }
  destruct (decide (i < length data)%nat) as [Hi|Hi]; [|eauto].
  destruct (shrinkExpand_hints (le_value (window data i)) cm 64 true Hcm ltac:(lia) (window_range data i Hd)) as (rs & E & _).
  rewrite E. cbn [mbind outcome_bind].
  assert (Hl : ∀ rs st, ∃ st' more, image_loop MustDecompress Compress exec data0 i rs st data = Ret (st', data, more)).
  { clear rs E. induction rs as [|r rs IHr]; intros st1; cbn [image_loop]; [eauto|]. destruct (exec st1 _) as [st2 more].
    rewrite Hdec. cbn [mbind outcome_bind]. destruct more; [apply IHr|eauto]. }
  destruct (Hl rs st) as (st' & more & ->). cbn [mbind outcome_bind]. rewrite copy_window by done.
  destruct more; [apply IH; lia|eauto].
Qed.
