(* ===== verification/SliceMin.v ===== *)
(** * Minimising a slice by bisection (src/pkg/bisect/minimize/slice.go)

    Finds a small subsequence of a slice that still satisfies a predicate, by
    dropping larger and then smaller chunks.  The predicate may be flaky: it is
    a function of the number of runs so far, and a run may fail. *)

From S2P Require Import Prelude.

Inductive slice_error := ErrPred | ErrTooManyChunks.

Record arrayChunk {T : Type} := mkChunk { chunk_elements : list T; final : bool }.
Arguments arrayChunk : clear implicits.
Arguments mkChunk {T} _ _.

(** [chunk[i:end]] for [i] in steps of [size]; one round per element is enough. *)
Fixpoint chunks_of {T} (fuel size : nat) (l : list T) : list (list T) :=
  match fuel, l with
  | S fuel, _ :: _ => take size l :: chunks_of fuel size (drop size l)
  | _, _ => []
  end.
Definition splitChunk {T} (chunk : list T) (parts : Z) : list (list T) :=
  let chunkSize := (len chunk + parts - 1) / parts in
  let chunkSize := if decide (chunkSize = 0) then 1 else chunkSize in
  chunks_of (length chunk) (Z.to_nat chunkSize) chunk.

Section slice.
Context {T : Type}.
(** [Config]: the outcome of the n-th run, [None] for an error. *)
Context (Pred : Z → list T → option bool) (MaxSteps MaxChunks : Z).
Abbreviation chunk := (arrayChunk T).

Definition flat (cs : list chunk) : list T := concat (chunk_elements <$> cs).
Definition mergeChunks (before : list chunk) (mid : list T) (after : list chunk) : list T :=
  flat before ++ mid ++ flat after.

(** [math.Log2(float64(size)) > float64(MaxSteps)] compares with a power of two
    (the rounding of the logarithm does not matter below 2^32 elements). *)
Definition initialSplit (size : Z) : Z :=
  if decide (0 < MaxSteps ∧ 2 ^ MaxSteps < size) then MaxSteps else 3.

(** The outcome and the number of runs afterwards. *)
Definition predRun (n : Z) (before : list chunk) (mid : list T) (after : list chunk) : option bool * Z :=
  if decide (0 < MaxSteps ∧ MaxSteps ≤ n) then (Some false, n)
  else (Pred n (mergeChunks before mid after), n + 1).

(** The loop over the parts of one chunk; [None]: the predicate failed. *)
Fixpoint try_parts (someNeeded : bool) (parts : list (list T)) (foundNeeded : bool) (newChunks after : list chunk) (n : Z)
    : option (list chunk * Z) :=
  match parts with
  | [] => Some (newChunks, n)
  | part :: parts =>
      if bool_decide (parts ≠ []) || foundNeeded || negb someNeeded then
        match predRun n newChunks (concat parts) after with
        | (None, _) => None
        | (Some true, n) => try_parts someNeeded parts foundNeeded newChunks after n
        | (Some false, n) => try_parts someNeeded parts true (newChunks ++ [mkChunk part false]) after n
        end
      else try_parts someNeeded parts true (newChunks ++ [mkChunk part false]) after n
  end.
Fixpoint split_loop (someNeeded : bool) (splitInto : Z) (chunks newChunks : list chunk) (n : Z) : option (list chunk * Z) :=
  match chunks with
  | [] => Some (newChunks, n)
  | c :: after =>
      if final c then split_loop someNeeded splitInto after (newChunks ++ [c]) n
      else
        let parts := splitChunk (chunk_elements c) splitInto in
        if bool_decide (length parts = 1%nat) && someNeeded then
          split_loop someNeeded splitInto after (newChunks ++ [mkChunk (chunk_elements c) true]) n
        else
          match try_parts someNeeded parts false newChunks after n with
          | None => None
          | Some (newChunks, n) => split_loop someNeeded splitInto after newChunks n
          end
  end.
Definition splitChunks (someNeeded : bool) (chunks : list chunk) (n : Z) : option (list chunk * Z) :=
  let splitInto :=
    match chunks with
    | [c] => if someNeeded then 2 else initialSplit (len (chunk_elements c))
    | _ => 2
    end in
  split_loop someNeeded splitInto chunks [] n.

Definition slice_done (chunks : list chunk) (n : Z) : bool :=
  if decide (0 < MaxSteps ∧ MaxSteps ≤ n) then true else forallb final chunks.

(** The loop of bisect; [None]: out of fuel. *)
Fixpoint bisect_loop (fuel : nat) (chunks : list chunk) (n : Z) : option (list T * option slice_error) :=
  if slice_done chunks n then Some (flat chunks, None)
  else if decide (0 < MaxChunks ∧ MaxChunks < len chunks) then Some (flat chunks, Some ErrTooManyChunks)
  else
    match fuel with
    | O => None
    | S fuel =>
        match splitChunks true chunks n with
        | None => Some ([], Some ErrPred)
        | Some (chunks, n) => bisect_loop fuel chunks n
        end
    end.
Definition Slice (fuel : nat) (slice : list T) : option (list T * option slice_error) :=
  match splitChunks false [mkChunk slice false] 0 with
  | None => Some ([], Some ErrPred)
  | Some (chunks, n) => bisect_loop fuel chunks n
  end.
End slice.

(** ** Fixed elements *)

(** The positions of the slice that are in one of the two increasing lists. *)
Fixpoint merge_idx (fuel : nat) (idx fixedIdx : list nat) : list nat :=
  match fuel with
  | O => []
  | S fuel =>
      match idx, fixedIdx with
      | [], [] => []
      | i :: idx', [] => i :: merge_idx fuel idx' []
      | [], f :: fixed' => f :: merge_idx fuel [] fixed'
      | i :: idx', f :: fixed' => if decide (i < f)%nat then i :: merge_idx fuel idx' fixedIdx else f :: merge_idx fuel idx fixed'
      end
  end.
Definition convert {T} (slice : list T) (fixedIdx idx : list nat) : list T :=
  omap (λ i, slice !! i) (merge_idx (length idx + length fixedIdx) idx fixedIdx).
Definition SliceWithFixed {T} (Pred : Z → list T → option bool) (MaxSteps MaxChunks : Z) (fuel : nat)
    (slice : list T) (fixed : T → bool) : option (list T * option slice_error) :=
  let idx := seq 0 (length slice) in
  let isFixed i := match slice !! i with Some x => fixed x | None => false end in
  let freeIdx := filter (λ i, isFixed i = false) idx in
  let fixedIdx := filter (λ i, isFixed i = true) idx in
  if decide (len freeIdx = 0) then Some (slice, None)
  else
    match Slice (λ n l, Pred n (convert slice fixedIdx l)) MaxSteps MaxChunks fuel freeIdx with
    | None => None
    | Some (_, Some err) => Some ([], Some err)
    | Some (result, None) => Some (convert slice fixedIdx result, None)
    end.

(** ** Splitting *)

Lemma chunks_of_concat {T} fuel size (l : list T) :
  (0 < size)%nat → (length l ≤ fuel)%nat → concat (chunks_of fuel size l) = l.
Proof.
  intros Hs. revert l. induction fuel as [|fuel IH]; intros [|x l] Hl; cbn [chunks_of concat]; try done; [cbn in Hl; lia|].
  rewrite IH by (rewrite length_drop; cbn in *; lia). apply take_drop.
Qed.
Lemma chunks_of_sizes {T} fuel size (l : list T) :
  (0 < size)%nat → Forall (λ c, 1 ≤ length c ≤ size)%nat (chunks_of fuel size l).
Proof.
  intros Hs. revert l. induction fuel as [|fuel IH]; intros [|x l]; cbn [chunks_of]; try constructor; [|apply IH].
  rewrite length_take. cbn. lia.
Qed.
Lemma splitChunk_spec {T} (l : list T) parts :
  0 < parts → concat (splitChunk l parts) = l
  ∧ Forall (λ c, 1 ≤ length c)%nat (splitChunk l parts)
  ∧ (parts = 2 → Forall (λ c, length c ≤ (length l + 1) / 2)%nat (splitChunk l parts)).
Proof.
  intros Hp. unfold splitChunk. set (k := if decide _ then _ else _).
  assert (Hd : 0 ≤ (len l + parts - 1) / parts) by (apply Z.div_pos; unfold len; lia).
  assert (Hk : (0 < Z.to_nat k)%nat) by (unfold k; case_decide; lia).
  pose proof (chunks_of_sizes (length l) (Z.to_nat k) l Hk) as Hs. split_and!.
  - by apply chunks_of_concat.
  - eapply Forall_impl; [done|]. cbn. lia.
  - intros ->. destruct l as [|x l]; [constructor|]. eapply Forall_impl; [done|]. intros c [_ Hc].
    change (length (x :: l)) with (S (length l)). cut (Z.to_nat k ≤ (S (length l) + 1) / 2)%nat; [lia|].
    unfold k, len. cbn [length].
    replace (Z.of_nat (S (length l)) + 2 - 1) with (Z.of_nat (S (length l) + 1)) by lia.
    change 2 with (Z.of_nat 2). rewrite <-Nat2Z.inj_div. case_decide as H0; [|lia].
    assert (1 ≤ (S (length l) + 1) / 2)%nat by (apply Nat.div_le_lower_bound; lia). lia.
Qed.
Lemma splitChunk_one {T} (l : list T) : length (splitChunk l 2) = 1%nat ↔ length l = 1%nat.
Proof.
  destruct (splitChunk_spec l 2 ltac:(lia)) as (Hc & Hn & Hs). specialize (Hs eq_refl). split.
  - intros H1. destruct (splitChunk l 2) as [|c [|]]; try done. cbn in Hc. rewrite app_nil_r in Hc. subst c.
    apply Forall_cons in Hs as [Hs _]. apply Forall_cons in Hn as [Hn _].
    assert ((length l + 1) / 2 * 2 ≤ length l + 1)%nat by (rewrite Nat.mul_comm; apply Nat.Div0.mul_div_le). lia.
  - destruct l as [|x [|]]; try done.
Qed.

Section slice_props.
Context {T : Type} (Pred : Z → list T → option bool) (MaxSteps MaxChunks : Z).
Abbreviation chunk := (arrayChunk T).

Lemma flat_app (a b : list chunk) : flat (a ++ b) = flat a ++ flat b.
Proof. unfold flat. by rewrite fmap_app, concat_app. Qed.
Lemma flat_snoc (a : list chunk) l f : flat (a ++ [mkChunk l f]) = flat a ++ l.
Proof. rewrite flat_app. unfold flat at 2. cbn. by rewrite app_nil_r. Qed.
Lemma flat_cons (c : chunk) a : flat (c :: a) = chunk_elements c ++ flat a.
Proof. done. Qed.

(** ** What the loops keep *)
Section keeps.
(** A property that holds of a list whenever the predicate accepts it. *)
Variable P : list T → Prop.
Hypothesis HP : ∀ k l, Pred k l = Some true → P l.

Lemma predRun_true n before mid after n' :
  predRun Pred MaxSteps n before mid after = (Some true, n') → P (flat before ++ mid ++ flat after).
Proof. unfold predRun. case_decide; [done|]. intros [= E _]. by apply HP in E. Qed.

Lemma try_parts_keeps sn parts fnd nc after n nc' n' :
  try_parts Pred MaxSteps sn parts fnd nc after n = Some (nc', n') → P (flat nc ++ concat parts ++ flat after) →
  P (flat nc' ++ flat after) ∧ ∃ kept, nc' = nc ++ kept ∧ flat kept `sublist_of` concat parts
  ∧ Forall (λ c, final c = false ∧ chunk_elements c ∈ parts) kept.
Proof.
  revert fnd nc n. induction parts as [|part parts IH]; intros fnd nc n H HI; cbn [try_parts] in H.
  { injection H as <- <-. split; [done|]. exists []. rewrite app_nil_r. split; [done|]. split; [apply sublist_nil_l|constructor]. }
  assert (Hdrop : P (flat nc ++ concat parts ++ flat after) → ∀ fnd n,
    try_parts Pred MaxSteps sn parts fnd nc after n = Some (nc', n') →
    P (flat nc' ++ flat after) ∧ ∃ kept, nc' = nc ++ kept ∧ flat kept `sublist_of` concat (part :: parts)
    ∧ Forall (λ c, final c = false ∧ chunk_elements c ∈ part :: parts) kept).
  { intros HI' f m Hm. destruct (IH f nc m Hm HI') as (H1 & kept & -> & H2 & H3). split; [done|]. exists kept.
    split; [done|]. split; [cbn; by apply sublist_inserts_l|]. eapply Forall_impl; [done|]. cbn. intros c [? ?]. split; [done|by right]. }
  assert (Hkeep : ∀ n, try_parts Pred MaxSteps sn parts true (nc ++ [mkChunk part false]) after n = Some (nc', n') →
    P (flat nc' ++ flat after) ∧ ∃ kept, nc' = nc ++ kept ∧ flat kept `sublist_of` concat (part :: parts)
    ∧ Forall (λ c, final c = false ∧ chunk_elements c ∈ part :: parts) kept).
  { intros m Hm. destruct (IH true (nc ++ [mkChunk part false]) m Hm) as (H1 & kept & -> & H2 & H3).
    { rewrite flat_snoc, <-app_assoc. cbn in HI. by rewrite <-app_assoc in HI. }
    split; [done|]. exists (mkChunk part false :: kept). rewrite <-app_assoc. split; [done|]. split.
    - cbn [concat]. rewrite flat_cons. by apply sublist_app.
    - constructor; [split; [done|by left]|]. eapply Forall_impl; [done|]. cbn. intros c [? ?]. split; [done|by right]. }
  destruct (_ || negb sn); [|by eapply Hkeep].
  destruct (predRun Pred MaxSteps n nc (concat parts) after) as [[[]|] m] eqn:Er; [|by eapply Hkeep|done].
  eapply Hdrop; [|done]. by eapply predRun_true.
Qed.

(** Sizes: a chunk that is not final has between one and [m] elements; a final
    one has one. *)
Definition chunk_ok (m : nat) (c : chunk) : Prop :=
  (1 ≤ length (chunk_elements c))%nat ∧ (if final c then length (chunk_elements c) = 1 else length (chunk_elements c) ≤ m)%nat.

Lemma split_loop_keeps m chunks nc n nc' n' :
  split_loop Pred MaxSteps true 2 chunks nc n = Some (nc', n') → P (flat nc ++ flat chunks) →
  Forall (chunk_ok m) chunks → Forall (chunk_ok ((m + 1) / 2)) nc →
  P (flat nc') ∧ (∃ kept, nc' = nc ++ kept ∧ flat kept `sublist_of` flat chunks)
  ∧ Forall (chunk_ok ((m + 1) / 2)) nc' ∧ ((m ≤ 1)%nat → Forall (λ c, final c = true) nc → Forall (λ c, final c = true) nc').
Proof.
  revert nc n. induction chunks as [|c chunks IH]; intros nc n H HI Hc Hnc; cbn [split_loop] in H.
  { injection H as <- <-. unfold flat at 2 in HI. cbn in HI. rewrite app_nil_r in HI. split_and!; [done| |done|done]. exists []. rewrite app_nil_r. done. }
  apply Forall_cons in Hc as [[Hc1 Hc2] Hc].
  assert (Hstep : ∀ c' n, chunk_elements c' = chunk_elements c → final c' = true → length (chunk_elements c) = 1%nat →
    split_loop Pred MaxSteps true 2 chunks (nc ++ [c']) n = Some (nc', n') →
    P (flat nc') ∧ (∃ kept, nc' = nc ++ kept ∧ flat kept `sublist_of` flat (c :: chunks))
    ∧ Forall (chunk_ok ((m + 1) / 2)) nc' ∧ ((m ≤ 1)%nat → Forall (λ c, final c = true) nc → Forall (λ c, final c = true) nc')).
  { intros c' k He Hf Hl Hk. destruct (IH (nc ++ [c']) k Hk) as (H1 & (kept & -> & H2) & H3 & H4); [|done| |].
    - rewrite flat_app, <-app_assoc. unfold flat at 2. cbn. rewrite He, app_nil_r. done.
    - apply Forall_app. split; [done|]. apply Forall_singleton. split; [rewrite He; lia|]. by rewrite Hf, He.
    - split_and!; [done| |done|].
      + exists (c' :: kept). rewrite <-app_assoc. split; [done|]. rewrite !flat_cons, He. by apply sublist_app.
      + intros Hm Hfn. apply H4; [done|]. apply Forall_app. split; [done|]. by apply Forall_singleton. }
  destruct (final c) eqn:Ef; [by eapply Hstep|].
  destruct (splitChunk_spec (chunk_elements c) 2 ltac:(lia)) as (Hcat & Hne & Hle). specialize (Hle eq_refl).
  rewrite andb_true_r in H. case_bool_decide as H1; [eapply (Hstep (mkChunk (chunk_elements c) true)); [done|done|by apply splitChunk_one|done]|].
  destruct (try_parts _ _ _ _ _ _ _ _) as [[nc1 n1]|] eqn:Et; [|done].
  destruct (try_parts_keeps _ _ _ _ _ _ _ _ Et) as (HI1 & kept1 & -> & Hs1 & Hk1).
  { rewrite Hcat. rewrite flat_cons in HI. exact HI. }
  assert (Hk1ok : Forall (chunk_ok ((m + 1) / 2)) kept1).
  { eapply Forall_impl; [done|]. cbn beta. intros d [Hd1 Hd2]. rewrite Forall_forall in Hne, Hle. specialize (Hne _ Hd2). specialize (Hle _ Hd2).
    split; [done|]. rewrite Hd1. cbn beta in Hle. assert ((length (chunk_elements c) + 1) / 2 ≤ (m + 1) / 2)%nat by (apply Nat.Div0.div_le_mono; lia). lia. }
  destruct (IH (nc ++ kept1) n1 H HI1 Hc) as (G1 & (kept & -> & G2) & G3 & G4); [by apply Forall_app|]. split_and!; [done| |done|].
  - exists (kept1 ++ kept). rewrite app_assoc. split; [done|]. rewrite flat_app, flat_cons. apply sublist_app; [|done]. by rewrite Hcat in Hs1.
  - intros Hm. exfalso. apply H1, splitChunk_one. lia.
Qed.
End keeps.

(** ** The whole bisection *)

Lemma try_first slice n0 : Slice Pred MaxSteps MaxChunks n0 slice =
  match try_parts Pred MaxSteps false (splitChunk slice (initialSplit MaxSteps (len slice))) false [] [] 0 with
  | None => Some ([], Some ErrPred)
  | Some (chunks, n) => bisect_loop Pred MaxSteps MaxChunks n0 chunks n
  end.
Proof.
  unfold Slice, splitChunks. cbn [split_loop chunk_elements final]. rewrite andb_false_r.
  by destruct (try_parts _ _ _ _ _ _ _ _) as [[nc n]|].
Qed.
Lemma initialSplit_pos size : 0 < initialSplit MaxSteps size.
Proof. unfold initialSplit. case_decide; lia. Qed.

Lemma bisect_keeps (P : list T → Prop) fuel m chunks n :
  (∀ k l, Pred k l = Some true → P l) → P (flat chunks) → Forall (chunk_ok m) chunks → (m ≤ fuel)%nat →
  ∃ l err, bisect_loop Pred MaxSteps MaxChunks fuel chunks n = Some (l, err)
  ∧ (err ≠ Some ErrPred → P l ∧ l `sublist_of` flat chunks).
Proof.
  intros HP. revert m chunks n. induction fuel as [|fuel IH]; intros m chunks n HI Hok Hm; cbn [bisect_loop].
  - assert (Hd : slice_done MaxSteps chunks n = true).
    { unfold slice_done. case_decide; [done|]. apply forallb_forall. intros c Hc%list_elem_of_In. rewrite Forall_forall in Hok.
      specialize (Hok c Hc). unfold chunk_ok in Hok. destruct (final c); [done|lia]. }
    rewrite Hd. eauto.
  - destruct (slice_done MaxSteps chunks n) eqn:Ed; [eauto|]. case_decide as Hmc; [eauto|].
    unfold splitChunks. assert (E2 : match chunks with [c] => 2 | _ => 2 end = 2) by (by destruct chunks as [|? []]). rewrite E2.
    destruct (split_loop Pred MaxSteps true 2 chunks [] n) as [[chunks' n']|] eqn:El; [|eexists _, _; split; [done|]; done].
    destruct (split_loop_keeps P HP m chunks [] n chunks' n' El HI Hok ltac:(constructor)) as (H1 & (kept & -> & H2) & H3 & H4).
    rewrite app_nil_l in *. destruct (decide (m ≤ 1)%nat) as [Hm1|Hm1].
    + assert (Hd : slice_done MaxSteps kept n' = true).
      { unfold slice_done. case_decide; [done|]. apply forallb_forall. intros c Hc%list_elem_of_In.
        specialize (H4 Hm1 ltac:(constructor)). rewrite Forall_forall in H4. by apply H4. }
      exists (flat kept), None. split; [destruct fuel; cbn [bisect_loop]; by rewrite Hd|done].
    + assert (Hdec : ((m + 1) / 2 ≤ fuel)%nat).
      { assert ((m + 1) / 2 < m)%nat by (apply Nat.Div0.div_lt_upper_bound; lia). lia. }
      destruct (IH _ kept n' H1 H3 Hdec) as (l & err & E & Hl). exists l, err. split; [done|]. intros He. destruct (Hl He) as [G1 G2].
      split; [done|]. by etrans.
Qed.

Lemma slice_keeps slice :
  ∃ l err, Slice Pred MaxSteps MaxChunks (length slice) slice = Some (l, err)
  ∧ (err ≠ Some ErrPred → l `sublist_of` slice ∧ (l = slice ∨ ∃ k, Pred k l = Some true)).
Proof.
  set (P := λ l, l = slice ∨ ∃ k, Pred k l = Some true).
  assert (HP : ∀ k l, Pred k l = Some true → P l) by (intros k l H; right; eauto).
  rewrite try_first. destruct (splitChunk_spec slice _ (initialSplit_pos (len slice))) as (Hcat & Hne & _).
  destruct (try_parts _ _ _ _ _ _ _ _) as [[nc n]|] eqn:Et; [|eexists _, _; split; [done|]; done].
  destruct (try_parts_keeps P HP _ _ _ _ _ _ _ _ Et) as (HI & kept & -> & Hs & Hk).
  { left. rewrite Hcat. by rewrite app_nil_r. }
  rewrite app_nil_l in *. rewrite Hcat in Hs. unfold flat at 2 in HI. cbn in HI. rewrite app_nil_r in HI.
  destruct (bisect_keeps P (length slice) (length slice) kept n HP HI) as (l & err & E & Hl); [|done|].
  { eapply Forall_impl; [done|]. cbn beta. intros c [Hf Hc]. rewrite Forall_forall in Hne. split; [by apply Hne|]. rewrite Hf.
    rewrite <-Hcat. clear -Hc. induction (splitChunk _ _) as [|x xs IH]; [by apply not_elem_of_nil in Hc|]. cbn. rewrite length_app.
    apply elem_of_cons in Hc as [<-|Hc]; [lia|]. specialize (IH Hc). lia. }
  exists l, err. split; [done|]. intros He. destruct (Hl He) as [H1 H2]. split; [by etrans|done].
Qed.

(** ** Minimality *)
Section minimal.
Variable q : list T → bool.
Hypothesis Hq : ∀ k l, Pred k l = Some (q l).
Hypothesis Hmono : ∀ l l', l `sublist_of` l' → q l = true → q l' = true.
Hypothesis Hsteps : MaxSteps = 0.

Lemma q_false l l' : l `sublist_of` l' → q l' = false → q l = false.
Proof. intros Hs Hf. destruct (q l) eqn:E; [|done]. apply (Hmono _ _ Hs) in E. congruence. Qed.

(** Every chunk of [nc] is needed, given what follows. *)
Definition needed_before (nc : list chunk) (rest : list T) : Prop :=
  ∀ b c a, nc = b ++ c :: a → q (flat b ++ flat a ++ rest) = false.
Definition needed_after (front : list T) (after : list chunk) : Prop :=
  ∀ b c a, after = b ++ c :: a → q (front ++ flat b ++ flat a) = false.

Lemma needed_before_mono nc rest rest' : rest' `sublist_of` rest → needed_before nc rest → needed_before nc rest'.
Proof. intros Hs Hn b c a E. eapply q_false; [|by apply (Hn b c a)]. apply sublist_app; [done|]. by apply sublist_app. Qed.
Lemma needed_after_mono front front' after : front' `sublist_of` front → needed_after front after → needed_after front' after.
Proof. intros Hs Hn b c a E. eapply q_false; [|by apply (Hn b c a)]. by apply sublist_app. Qed.
Lemma needed_before_snoc nc part f rest :
  needed_before nc (part ++ rest) → q (flat nc ++ rest) = false → needed_before (nc ++ [mkChunk part f]) rest.
Proof.
  intros Hn Hq' b c a E. destruct a as [|x a] using rev_ind.
  - apply app_inj_tail in E as [-> _]. by rewrite app_nil_l.
  - clear IHa. rewrite app_comm_cons, app_assoc in E. apply app_inj_tail in E as [-> <-]. rewrite flat_snoc, <-app_assoc.
    by apply (Hn b c a).
Qed.
Lemma needed_after_cons front c after :
  needed_after front (c :: after) → q (front ++ flat after) = false ∧ needed_after (front ++ chunk_elements c) after.
Proof.
  intros Hn. split; [by apply (Hn [] c after)|]. intros b d a ->. rewrite <-app_assoc. specialize (Hn (c :: b) d a eq_refl).
  rewrite flat_cons, <-app_assoc in Hn. exact Hn.
Qed.
Lemma predRun_q n before mid after : predRun Pred MaxSteps n before mid after = (Some (q (flat before ++ mid ++ flat after)), n + 1).
Proof. unfold predRun. rewrite decide_False by lia. by rewrite Hq. Qed.

(** Without failing runs there is no error. *)
Lemma try_parts_total sn parts fnd nc after n : try_parts Pred MaxSteps sn parts fnd nc after n ≠ None.
Proof.
  revert fnd nc n. induction parts as [|part parts IH]; intros fnd nc n; cbn [try_parts]; [done|]. rewrite predRun_q.
  destruct (_ || negb sn); [|apply IH]. destruct (q _); apply IH.
Qed.
Lemma split_loop_total k chunks nc n : split_loop Pred MaxSteps true k chunks nc n ≠ None.
Proof.
  revert nc n. induction chunks as [|c chunks IH]; intros nc n; cbn [split_loop]; [done|]. destruct (final c); [apply IH|].
  destruct (_ && true); [apply IH|]. destruct (try_parts _ _ _ _ _ _ _ _) as [[]|] eqn:E; [apply IH|by apply try_parts_total in E].
Qed.
Lemma bisect_total fuel chunks n l err :
  MaxChunks = 0 → bisect_loop Pred MaxSteps MaxChunks fuel chunks n = Some (l, err) → err = None.
Proof.
  intros Hc. revert chunks n. induction fuel as [|fuel IH]; intros chunks n; cbn [bisect_loop];
    (destruct (slice_done _ _ _); [by intros [= _ <-]|]); rewrite decide_False by lia; [done|].
  unfold splitChunks. destruct (split_loop _ _ _ _ _ _ _) as [[c' n']|] eqn:E; [apply IH|by apply split_loop_total in E].
Qed.

Lemma try_parts_needed sn parts fnd nc after n nc' n' :
  try_parts Pred MaxSteps sn parts fnd nc after n = Some (nc', n') → needed_before nc (concat parts ++ flat after) →
  (sn = true → fnd = false → q (flat nc ++ flat after) = false) → needed_before nc' (flat after).
Proof.
  revert fnd nc n. induction parts as [|part parts IH]; intros fnd nc n H Hn Hc; cbn [try_parts] in H; [by injection H as <- <-|].
  cbn [concat] in Hn. rewrite <-app_assoc in Hn. rewrite predRun_q in H.
  destruct (bool_decide (parts ≠ []) || fnd || negb sn) eqn:Eb.
  - destruct (q (flat nc ++ concat parts ++ flat after)) eqn:Eq.
    + eapply IH; [done| |done]. eapply needed_before_mono; [|done]. by apply sublist_inserts_l.
    + eapply IH; [done| |done]. by apply needed_before_snoc.
  - apply orb_false_iff in Eb as [Eb Hsn%negb_false_iff]. apply orb_false_iff in Eb as [Hp%bool_decide_eq_false Hf].
    assert (parts = []) as -> by (destruct parts; [done|]; by destruct Hp). eapply IH; [done| |done].
    apply needed_before_snoc; [done|]. by apply Hc.
Qed.

Lemma split_loop_needed chunks nc n nc' n' :
  split_loop Pred MaxSteps true 2 chunks nc n = Some (nc', n') → needed_before nc (flat chunks) → needed_after (flat nc) chunks →
  needed_before nc' [].
Proof.
  revert nc n. induction chunks as [|c chunks IH]; intros nc n H Hb Ha; cbn [split_loop] in H; [by injection H as <- <-|].
  apply needed_after_cons in Ha as [Hc Ha]. rewrite flat_cons in Hb.
  assert (Hkeep : ∀ f n, split_loop Pred MaxSteps true 2 chunks (nc ++ [mkChunk (chunk_elements c) f]) n = Some (nc', n') → needed_before nc' []).
  { intros f k Hk. eapply IH; [exact Hk| |]; [by apply needed_before_snoc|]. by rewrite flat_snoc. }
  destruct c as [els f]. cbn [final chunk_elements] in *. destruct f; [by eapply Hkeep|].
  rewrite andb_true_r in H. case_bool_decide; [by eapply Hkeep|].
  destruct (try_parts _ _ _ _ _ _ _ _) as [[nc1 n1]|] eqn:Et; [|done].
  destruct (splitChunk_spec els 2 ltac:(lia)) as (Hcat & _ & _).
  destruct (try_parts_keeps (λ _, True) ltac:(done) _ _ _ _ _ _ _ _ Et I) as (_ & kept & Ek & Hs & _). rewrite Hcat in Hs.
  eapply IH; [done| |].
  - eapply try_parts_needed; [done| |done]. by rewrite Hcat.
  - eapply needed_after_mono; [|done]. rewrite Ek, flat_app. by apply sublist_app.
Qed.

Lemma flat_singles cs i :
  Forall (λ c : chunk, length (chunk_elements c) = 1%nat) cs →
  length (flat cs) = length cs ∧ flat (take i cs) = take i (flat cs) ∧ flat (drop i cs) = drop i (flat cs).
Proof.
  intros H. revert i. induction H as [|c cs Hc _ IH]; intros i; [by destruct i|]. destruct c as [[|x []] f]; try done.
  destruct (IH (pred i)) as (H1 & H2 & H3). rewrite !flat_cons. cbn [chunk_elements app length].
  split; [by rewrite H1|]. destruct i as [|i]; cbn [take drop pred] in *; [done|]. rewrite flat_cons. cbn. by rewrite H2.
Qed.
Lemma bisect_minimal fuel chunks n l :
  MaxChunks = 0 → bisect_loop Pred MaxSteps MaxChunks fuel chunks n = Some (l, None) →
  Forall (chunk_ok (length (flat chunks))) chunks → needed_before chunks [] →
  ∀ i, (i < length l)%nat → q (delete i l) = false.
Proof.
  intros Hmc. assert (Hgen : ∀ m chunks n, Forall (chunk_ok m) chunks → bisect_loop Pred MaxSteps MaxChunks fuel chunks n = Some (l, None) →
    needed_before chunks [] → ∀ i, (i < length l)%nat → q (delete i l) = false); [|eauto].
  clear chunks n. induction fuel as [|fuel IH]; intros m chunks n Hok H Hn i Hi; cbn [bisect_loop] in H.
  all: assert (Hdone : slice_done MaxSteps chunks n = true → flat chunks = l → q (delete i l) = false).
  1,3: intros Hd <-; unfold slice_done in Hd; rewrite decide_False in Hd by lia; rewrite forallb_forall in Hd;
    assert (Hone : Forall (λ c : chunk, length (chunk_elements c) = 1%nat) chunks) by
      (apply Forall_forall; intros c Hc; rewrite Forall_forall in Hok; specialize (Hok c Hc) as [_ Hok]; rewrite Hd in Hok by (by apply list_elem_of_In); done);
    destruct (flat_singles chunks i Hone) as (Hlen & Ht & _); destruct (flat_singles chunks (S i) Hone) as (_ & _ & Hdr);
    destruct (lookup_lt_is_Some_2 chunks i ltac:(lia)) as [c Hc];
    rewrite delete_take_drop, <-Ht, <-Hdr; specialize (Hn (take i chunks) c (drop (S i) chunks));
    rewrite app_nil_r in Hn; apply Hn; symmetry; by apply take_drop_middle.
  - destruct (slice_done MaxSteps chunks n) eqn:Ed; [injection H as <-; by apply Hdone|]. rewrite decide_False in H by lia. done.
  - destruct (slice_done MaxSteps chunks n) eqn:Ed; [injection H as <-; by apply Hdone|]. rewrite decide_False in H by lia.
    unfold splitChunks in H. assert (E2 : match chunks with [c] => 2 | _ => 2 end = 2) by (by destruct chunks as [|? []]). rewrite E2 in H.
    destruct (split_loop Pred MaxSteps true 2 chunks [] n) as [[chunks' n']|] eqn:El; [|done].
    destruct (split_loop_keeps (λ _, True) ltac:(done) m chunks [] n chunks' n' El I Hok ltac:(constructor)) as (_ & _ & H3 & _).
    eapply (IH _ chunks' n'); [exact H3|done| |done]. eapply split_loop_needed; [done| |].
    + intros b c a E. by destruct b.
    + intros b c a ->. specialize (Hn b c a eq_refl). by rewrite app_nil_r in Hn.
Qed.
End minimal.
End slice_props.

(** The result only depends on the first [MaxSteps] runs. *)
Section runs.
Context {T : Type} (Pred Pred' : Z → list T → option bool) (MaxSteps MaxChunks : Z).
Hypothesis Hagree : ∀ k l, 0 ≤ k < MaxSteps → Pred k l = Pred' k l.
Hypothesis Hpos : 0 < MaxSteps.

Lemma predRun_agree n before mid after :
  0 ≤ n → predRun Pred MaxSteps n before mid after = predRun Pred' MaxSteps n before mid after
  ∧ 0 ≤ (predRun Pred MaxSteps n before mid after).2.
Proof. intros Hn. unfold predRun. case_decide; cbn; [done|]. rewrite Hagree by lia. split; [done|lia]. Qed.
Lemma try_parts_agree sn parts fnd nc after n :
  0 ≤ n → try_parts Pred MaxSteps sn parts fnd nc after n = try_parts Pred' MaxSteps sn parts fnd nc after n
  ∧ ∀ nc' n', try_parts Pred MaxSteps sn parts fnd nc after n = Some (nc', n') → 0 ≤ n'.
Proof.
  revert fnd nc n. induction parts as [|part parts IH]; intros fnd nc n Hn; cbn [try_parts]; [split; [done|]; congruence|].
  destruct (predRun_agree n nc (concat parts) after Hn) as [<- Hn']. destruct (_ || negb sn); [|by apply IH].
  destruct (predRun _ _ _ _ _ _) as [[[]|] m]; [by apply IH|by apply IH|done].
Qed.
Lemma split_loop_agree sn k chunks nc n :
  0 ≤ n → split_loop Pred MaxSteps sn k chunks nc n = split_loop Pred' MaxSteps sn k chunks nc n
  ∧ ∀ nc' n', split_loop Pred MaxSteps sn k chunks nc n = Some (nc', n') → 0 ≤ n'.
Proof.
  revert nc n. induction chunks as [|c chunks IH]; intros nc n Hn; cbn [split_loop]; [split; [done|]; congruence|].
  destruct (final c); [by apply IH|]. destruct (_ && sn); [by apply IH|].
  destruct (try_parts_agree sn (splitChunk (chunk_elements c) k) false nc chunks n Hn) as [<- Ht].
  destruct (try_parts _ _ _ _ _ _ _ _) as [[nc1 n1]|]; [apply IH; by eapply Ht|done].
Qed.
Lemma Slice_agree fuel slice : Slice Pred MaxSteps MaxChunks fuel slice = Slice Pred' MaxSteps MaxChunks fuel slice.
Proof.
  assert (Hb : ∀ fuel chunks n, 0 ≤ n → bisect_loop Pred MaxSteps MaxChunks fuel chunks n = bisect_loop Pred' MaxSteps MaxChunks fuel chunks n).
  { clear fuel. induction fuel as [|fuel IH]; intros chunks n Hn; cbn [bisect_loop]; destruct (slice_done _ _ _); try done; case_decide; try done.
    unfold splitChunks. destruct (split_loop_agree true (match chunks with [c] => 2 | _ => 2 end) chunks [] n Hn) as [<- Hs].
    destruct (split_loop _ _ _ _ _ _ _) as [[c' n']|]; [|done]. apply IH. by eapply Hs. }
  unfold Slice, splitChunks. set (c := mkChunk slice false).
  destruct (split_loop_agree false (initialSplit MaxSteps (len (chunk_elements c))) [c] [] 0 ltac:(lia)) as [<- Hs].
  destruct (split_loop _ _ _ _ _ _ _) as [[c' n']|]; [|done]. apply Hb. by eapply Hs.
Qed.
End runs.

(** C17: Bisecting a slice.  With one round per element the search always ends.
    Unless a run of the predicate failed, the result is a subsequence of the
    slice, either all of it or one that some run of the predicate accepted
    (also when there were too many chunks); at most [MaxSteps] runs influence it
    when that limit is set.  For a deterministic monotone predicate and without
    limits no element of the result can be left out. *)
Theorem Slice_spec {T} (Pred : Z → list T → option bool) (MaxSteps MaxChunks : Z) (slice : list T) :
  ∃ l err, Slice Pred MaxSteps MaxChunks (length slice) slice = Some (l, err)
  ∧ (err ≠ Some ErrPred → l `sublist_of` slice ∧ (l = slice ∨ ∃ k, Pred k l = Some true))
  ∧ (∀ Pred', 0 < MaxSteps → (∀ k l, 0 ≤ k < MaxSteps → Pred k l = Pred' k l) →
       Slice Pred' MaxSteps MaxChunks (length slice) slice = Some (l, err))
  ∧ (∀ q : list T → bool, (∀ k l, Pred k l = Some (q l)) → (∀ l l', l `sublist_of` l' → q l = true → q l' = true) →
       MaxSteps = 0 → MaxChunks = 0 → err = None ∧ ∀ i, (i < length l)%nat → q (delete i l) = false).
Proof.
  destruct (slice_keeps Pred MaxSteps MaxChunks slice) as (l & err & E & Hl). exists l, err. split_and!; [done|done| |].
  - intros Pred' Hpos Ha. rewrite <-E. symmetry. by apply Slice_agree.
  - intros q Hq Hmono Hs Hc. rewrite try_first in E.
    destruct (splitChunk_spec slice _ (initialSplit_pos MaxSteps (len slice))) as (Hcat & Hne & _).
    destruct (try_parts _ _ _ _ _ _ _ _) as [[nc n]|] eqn:Et.
    2:{ exfalso. by eapply (try_parts_total Pred MaxSteps q Hq Hs). }
    destruct (try_parts_keeps Pred MaxSteps (λ _, True) ltac:(done) _ _ _ _ _ _ _ _ Et I) as (_ & kept & -> & Hsub & Hk).
    assert (Hn : needed_before q (([] : list (arrayChunk T)) ++ kept) []).
    { eapply (try_parts_needed Pred MaxSteps q Hq Hmono Hs _ _ _ _ _ _ _ _ Et); [|done]. intros b c a Ec. by destruct b. }
    rewrite app_nil_l in *.
    assert (Hok : Forall (chunk_ok (length (flat kept))) kept).
    { apply Forall_forall. intros c Hc'. rewrite Forall_forall in Hk. rewrite Forall_forall in Hne. destruct (Hk c Hc') as [Hf Hp]. split; [by apply Hne|]. rewrite Hf.
      clear -Hc'. induction kept as [|x xs IH]; [by apply not_elem_of_nil in Hc'|]. unfold flat. cbn. rewrite length_app.
      apply elem_of_cons in Hc' as [<-|Hc']; [lia|]. specialize (IH Hc'). unfold flat in IH. lia. }
    assert (err = None) as -> by exact (bisect_total Pred MaxSteps MaxChunks q Hq Hs _ _ _ _ _ Hc E).
    split; [done|]. by eapply (bisect_minimal Pred MaxSteps MaxChunks q Hq Hmono Hs).
Qed.

(** ** Fixed elements *)

Lemma merge_idx_perm fuel idx fixedIdx : (length idx + length fixedIdx ≤ fuel)%nat → merge_idx fuel idx fixedIdx ≡ₚ idx ++ fixedIdx.
Proof.
  revert idx fixedIdx. induction fuel as [|fuel IH]; intros [|i idx] [|f fixedIdx] Hf; cbn in Hf; try lia; cbn [merge_idx]; [done..| | |].
  - by rewrite IH by (cbn; lia).
  - by rewrite IH by (cbn; lia).
  - case_decide; [by rewrite IH by (cbn; lia)|]. rewrite IH by (cbn; lia). by rewrite (Permutation_middle (i :: idx) fixedIdx f).
Qed.
Lemma merge_idx_sorted fuel idx fixedIdx :
  (length idx + length fixedIdx ≤ fuel)%nat → StronglySorted lt idx → StronglySorted lt fixedIdx → (∀ i, i ∈ idx → i ∉ fixedIdx) →
  StronglySorted lt (merge_idx fuel idx fixedIdx).
Proof.
  revert idx fixedIdx. induction fuel as [|fuel IH]; intros idx fixedIdx Hf Hi Hx Hd; [constructor|].
  assert (Hcons : ∀ x a b, merge_idx fuel a b ≡ₚ a ++ b → StronglySorted lt (merge_idx fuel a b) →
    (∀ y, y ∈ a ∨ y ∈ b → (x < y)%nat) → StronglySorted lt (x :: merge_idx fuel a b)).
  { intros x a b Hp Hs Hlt. constructor; [done|]. rewrite Hp. apply Forall_forall. intros y [H|H]%elem_of_app; apply Hlt; tauto. }
  destruct idx as [|i idx], fixedIdx as [|f fixedIdx]; cbn [merge_idx]; cbn in Hf; [constructor| | |].
  - inversion Hx as [|?? Hx1 Hx2]; subst. rewrite Forall_forall in Hx2. apply Hcons; [apply merge_idx_perm; cbn; lia|apply IH; [cbn; lia|constructor|done|by intros ? ?%not_elem_of_nil]|].
    intros y [H|H]; [by apply not_elem_of_nil in H|by apply Hx2].
  - inversion Hi as [|?? Hi1 Hi2]; subst. rewrite Forall_forall in Hi2. apply Hcons; [apply merge_idx_perm; cbn; lia| |].
    + apply IH; [cbn; lia|done|constructor|]. intros y _. apply not_elem_of_nil.
    + intros y [H|H]; [by apply Hi2|by apply not_elem_of_nil in H].
  - inversion Hi as [|?? Hi1 Hi2]; subst. inversion Hx as [|?? Hx1 Hx2]; subst. rewrite Forall_forall in Hi2. rewrite Forall_forall in Hx2. case_decide as Hc.
    + apply Hcons; [apply merge_idx_perm; cbn; lia|apply IH; [cbn; lia|done|done|intros y Hy; apply Hd; by right]|].
      intros y [H|[->|H]%elem_of_cons]; [by apply Hi2|done|]. specialize (Hx2 y H). lia.
    + assert (f ≠ i) by (intros ->; apply (Hd i); [by left|by left]).
      apply Hcons; [apply merge_idx_perm; cbn; lia|apply IH; [cbn; lia|done|done|intros y Hy Hin; apply (Hd y Hy); by right]|].
      intros y [[->|Hy]%elem_of_cons|Hy]; [lia| |by apply Hx2]. specialize (Hi2 y Hy). lia.
Qed.
Lemma omap_seq {T} (l : list T) : omap (λ i, l !! i) (seq 0 (length l)) = l.
Proof.
  induction l as [|x l IH]; [done|]. cbn [length seq omap list_omap lookup list_lookup]. f_equal.
  rewrite <-fmap_S_seq. rewrite <-IH at 2. generalize (seq 0 (length l)). intros ks. induction ks as [|k ks IHk]; [done|]. cbn. by rewrite IHk.
Qed.
(** More fuel changes nothing. *)
Lemma Slice_fuel {T} (Pred : Z → list T → option bool) MaxSteps MaxChunks fuel k slice r :
  Slice Pred MaxSteps MaxChunks fuel slice = Some r → Slice Pred MaxSteps MaxChunks (fuel + k) slice = Some r.
Proof.
  assert (H : ∀ chunks n, bisect_loop Pred MaxSteps MaxChunks fuel chunks n = Some r → bisect_loop Pred MaxSteps MaxChunks (fuel + k) chunks n = Some r).
  { induction fuel as [|fuel IH]; intros chunks n; cbn [bisect_loop Nat.add].
    - destruct k; cbn [bisect_loop]; destruct (slice_done _ _ _); try done; by case_decide.
    - destruct (slice_done _ _ _); [done|]. case_decide; [done|]. destruct (splitChunks _ _ _ _ _) as [[]|]; [apply IH|done]. }
  unfold Slice. destruct (splitChunks _ _ _ _ _) as [[]|]; [apply H|done].
Qed.
Lemma seq_sorted n k : StronglySorted lt (seq n k).
Proof.
  revert n. induction k as [|k IH]; intros n; cbn; constructor; [apply IH|]. apply Forall_forall. intros i [? _]%elem_of_seq. lia.
Qed.

(** Unless an error occurs, the result keeps the order, contains every fixed
    element and is all of the slice or accepted by the predicate; with an error,
    also that of too many chunks, there is no result. *)
Lemma SliceWithFixed_spec {T} (Pred : Z → list T → option bool) MaxSteps MaxChunks (slice : list T) fixed :
  ∃ l err, SliceWithFixed Pred MaxSteps MaxChunks (length slice) slice fixed = Some (l, err)
  ∧ (err = None → l `sublist_of` slice ∧ (∀ x, x ∈ slice → fixed x = true → x ∈ l) ∧ (l = slice ∨ ∃ k, Pred k l = Some true))
  ∧ (err ≠ None → l = []).
Proof.
  unfold SliceWithFixed. set (isFixed := λ i, match slice !! i with Some x => fixed x | None => false end).
  set (free := filter (λ i, isFixed i = false) (seq 0 (length slice))). set (fix_ := filter (λ i, isFixed i = true) (seq 0 (length slice))).
  case_decide; [exists slice, None; split_and!; [done| |done]; intros _; split_and!; [done|done|by left]|].
  assert (Hfree : (length free ≤ length slice)%nat).
  { unfold free. etrans; [apply length_filter|]. by rewrite length_seq. }
  assert (Hconv : ∀ idx, idx `sublist_of` free → convert slice fix_ idx `sublist_of` slice ∧ ∀ x, x ∈ slice → fixed x = true → x ∈ convert slice fix_ idx).
  { intros idx Hs. assert (Hidx : StronglySorted lt idx).
    { clear -Hs. assert (Hf : StronglySorted lt free) by (apply StronglySorted_filter, seq_sorted). revert Hf. induction Hs as [|x a b Hs IH|x a b Hs IH]; intros Hf;
        [constructor| |]; inversion Hf as [|?? H1 H2]; subst; [|by apply IH]. constructor; [by apply IH|]. rewrite Forall_forall in H2 |- *.
      intros y Hy. apply H2. by eapply sublist_elem_of. }
    split.
    - unfold convert. apply sublist_increasing, merge_idx_sorted; [lia|done|apply StronglySorted_filter, seq_sorted|].
      intros i Hi Hf. apply (sublist_elem_of _ _ _ Hs) in Hi. apply list_elem_of_filter in Hi as [Hi _]. apply list_elem_of_filter in Hf as [Hf _]. congruence.
    - intros x [i Hx]%list_elem_of_lookup Hfx. unfold convert. apply list_elem_of_omap. exists i. split; [|done].
      rewrite merge_idx_perm by lia. apply elem_of_app. right. apply list_elem_of_filter. unfold isFixed. rewrite Hx. split; [done|].
      apply elem_of_seq. apply lookup_lt_Some in Hx. lia. }
  assert (Hall : convert slice fix_ free = slice).
  { unfold convert. assert (E : merge_idx (length free + length fix_) free fix_ = seq 0 (length slice)).
    { apply (StronglySorted_unique_strong lt); [intros; lia| |apply seq_sorted|].
      - apply merge_idx_sorted; [lia|apply StronglySorted_filter, seq_sorted|apply StronglySorted_filter, seq_sorted|].
        intros i [Hi _]%list_elem_of_filter [Hf _]%list_elem_of_filter. congruence.
      - rewrite merge_idx_perm by lia. unfold free, fix_. clear. generalize (seq 0 (length slice)). intros l.
        induction l as [|i l IH]; [done|]. rewrite !filter_cons. destruct (isFixed i).
        + rewrite decide_False by done. rewrite decide_True by done. rewrite <-Permutation_middle. by rewrite IH.
        + rewrite decide_True by done. rewrite decide_False by done. cbn. by rewrite IH. }
    rewrite E. apply omap_seq. }
  destruct (slice_keeps (λ n l, Pred n (convert slice fix_ l)) MaxSteps MaxChunks free) as (l & err & E & Hl).
  pose proof (Slice_fuel _ _ _ _ (length slice - length free) _ _ E) as E'.
  replace (length free + (length slice - length free))%nat with (length slice) in E' by lia.
  change (∃ l err, match Slice (λ n l, Pred n (convert slice fix_ l)) MaxSteps MaxChunks (length slice) free with
    | None => None | Some (_, Some err) => Some ([], Some err) | Some (result, None) => Some (convert slice fix_ result, None) end
    = Some (l, err) ∧ (err = None → l `sublist_of` slice ∧ (∀ x, x ∈ slice → fixed x = true → x ∈ l) ∧ (l = slice ∨ ∃ k, Pred k l = Some true))
    ∧ (err ≠ None → l = [])).
  rewrite E'. destruct err as [err|].
  - exists [], (Some err). done.
  - destruct (Hl ltac:(done)) as [Hs Ho]. exists (convert slice fix_ l), None. split_and!; [done| |done]. intros _.
    destruct (Hconv l Hs) as [H1 H2]. split_and!; [done|done|]. destruct Ho as [->|[k Hk]]; [by left|right; eauto].
Qed.
