(* ===== verification/Heatmap.v ===== *)
(** * Where to mutate large data (src/prog/heatmap.go)

    Images are viewed as chunks of 64 bytes; chunks that repeat a single byte
    are skipped and positions are chosen uniformly in the rest. *)

From Stdlib Require Import ZArith.
From S2P Require Import Prelude.

Record segment := mkSegment { seg_offset : Z; seg_length : Z }.
Record GenericHeatmap := mkHeatmap { hm_segments : list segment; hm_length : Z }.
Definition granularity : Z := 64.

(** The variables of the loop. *)
Record scan := mkScan { sc_offset : Z; sc_currentLength : Z; sc_totalLength : Z; sc_segments : list segment }.

Definition saveSegment (s : scan) : scan :=
  if decide (sc_currentLength s ≠ 0) then
    mkScan (sc_offset s + sc_currentLength s) 0 (sc_totalLength s + sc_currentLength s)
      (sc_segments s ++ [mkSegment (sc_offset s) (sc_currentLength s)])
  else s.
Definition is_constant (chunk : list Z) : bool :=
  match chunk with [] => true | byt0 :: _ => forallb (λ byt, byt =? byt0) chunk end.
Definition scan_chunk (s : scan) (chunk : list Z) : scan :=
  if is_constant chunk then
    let s := saveSegment s in mkScan (sc_offset s + len chunk) (sc_currentLength s) (sc_totalLength s) (sc_segments s)
  else mkScan (sc_offset s) (sc_currentLength s + len chunk) (sc_totalLength s) (sc_segments s).
(** One round per byte is enough. *)
Fixpoint scan_loop (fuel : nat) (g : Z) (data : list Z) (s : scan) : scan :=
  match fuel, data with
  | S fuel, _ :: _ =>
      let n := if decide (len data < g) then length data else Z.to_nat g in
      scan_loop fuel g (drop n data) (scan_chunk s (take n data))
  | _, _ => s
  end.
Definition calculateLengthAndSegments (data : list Z) (g : Z) : Z * list segment :=
  let s := saveSegment (scan_loop (length data) g data (mkScan 0 0 0 [])) in
  if decide (len (sc_segments s) = 0) then (len data, sc_segments s ++ [mkSegment 0 (len data)])
  else (sc_totalLength s, sc_segments s).

Fixpoint translate_loop (idx : Z) (segs : list segment) : outcome Z :=
  match segs with
  | [] => Panic
  | seg :: segs => if decide (idx < seg_length seg) then Ret (seg_offset seg + idx) else translate_loop (idx - seg_length seg) segs
  end.
Definition translateIdx (idx : Z) (segs : list segment) : outcome Z :=
  if decide (idx < 0) then Panic else translate_loop idx segs.

Definition MakeGenericHeatmap (data : list Z) : outcome GenericHeatmap :=
  if decide (len data = 0) then Panic
  else let '(length, segments) := calculateLengthAndSegments data granularity in Ret (mkHeatmap segments length).
Definition NumMutations (hm : GenericHeatmap) (r : rng) : outcome (Z * rng) :=
  '(a, r) ← Intn (Z.quot (hm_length hm) (Z.shiftl 4 10) + 1) r;
  '(b, r) ← Intn 5 r;
  Ret (Z.min (1 + a + b) 10, r).
Definition ChooseLocation (hm : GenericHeatmap) (r : rng) : outcome (Z * rng) :=
  '(heatmapIdx, r) ← Intn (hm_length hm) r;
  rawIdx ← translateIdx heatmapIdx (hm_segments hm);
  Ret (rawIdx, r).

(** The example of the comment on translateIdx says 5. *)
Example translate_doc : translateIdx 25 [mkSegment 10 20; mkSegment 50 10] = Ret 55.
Proof. reflexivity. Qed.

(** ** The positions of the segments *)

Definition seg_positions (segs : list segment) : list Z := concat ((λ s, seqZ (seg_offset s) (seg_length s)) <$> segs).

Lemma seg_positions_app a b : seg_positions (a ++ b) = seg_positions a ++ seg_positions b.
Proof. unfold seg_positions. by rewrite fmap_app, concat_app. Qed.
Lemma seg_positions_one o n : seg_positions [mkSegment o n] = seqZ o n.
Proof. unfold seg_positions. cbn. by rewrite app_nil_r. Qed.
Lemma seqZ_lookup o n i : 0 ≤ i < n → seqZ o n !! Z.to_nat i = Some (o + i).
Proof. intros Hi. rewrite lookup_seqZ. lia. Qed.

(** translateIdx indexes the list of positions. *)
Lemma translateIdx_lookup i segs :
  0 ≤ i → Forall (λ s, 0 ≤ seg_length s) segs →
  translateIdx i segs = match seg_positions segs !! Z.to_nat i with Some p => Ret p | None => Panic end.
Proof.
  intros Hi Hs. unfold translateIdx. rewrite decide_False by lia. revert i Hi. induction Hs as [|[o n] segs Hn Hs IH]; intros i Hi; [done|].
  cbn in Hn. cbn [translate_loop seg_length seg_offset]. change (seg_positions (mkSegment o n :: segs)) with (seqZ o n ++ seg_positions segs).
  case_decide as H.
  - rewrite lookup_app_l by (rewrite length_seqZ; lia). by rewrite seqZ_lookup.
  - rewrite lookup_app_r by (rewrite length_seqZ; lia). rewrite length_seqZ, IH by lia. by replace (Z.to_nat i - Z.to_nat n)%nat with (Z.to_nat (i - n)) by lia.
Qed.

(** ** The positions that count *)

Section positions.
Context (g : Z).
Hypothesis Hg : 0 < g.

(** The positions, counted from [base], in chunks that are not constant. *)
Fixpoint varied (fuel : nat) (base : Z) (data : list Z) : list Z :=
  match fuel, data with
  | S fuel, _ :: _ =>
      let n := if decide (len data < g) then length data else Z.to_nat g in
      (if is_constant (take n data) then [] else seqZ base (len (take n data))) ++ varied fuel (base + len (take n data)) (drop n data)
  | _, _ => []
  end.

Definition scan_ok (base : Z) (s : scan) : Prop :=
  sc_offset s + sc_currentLength s = base ∧ 0 ≤ sc_currentLength s ∧ Forall (λ s, 0 < seg_length s) (sc_segments s)
  ∧ sc_totalLength s = len (seg_positions (sc_segments s)).
Definition scanned (s : scan) : list Z := seg_positions (sc_segments s) ++ seqZ (sc_offset s) (sc_currentLength s).

Lemma save_ok base s :
  scan_ok base s → scan_ok base (saveSegment s) ∧ scanned (saveSegment s) = scanned s ∧ sc_currentLength (saveSegment s) = 0.
Proof.
  intros (H1 & H2 & H3 & H4). unfold saveSegment. case_decide as Hc; [|split_and!; [done|done|lia]]. split_and!; [|unfold scanned; cbn [sc_offset sc_currentLength sc_totalLength sc_segments seg_length]|done].
  - split_and!; cbn [sc_offset sc_currentLength sc_totalLength sc_segments seg_length]; [lia|lia|apply Forall_app; split; [done|]; apply Forall_singleton; cbn [sc_offset sc_currentLength sc_totalLength sc_segments seg_length]; lia|].
    rewrite seg_positions_app, seg_positions_one. unfold len in *. rewrite length_app, length_seqZ. lia.
  - by rewrite seg_positions_app, seg_positions_one, (seqZ_nil _ 0), app_nil_r by lia.
Qed.
Lemma scan_chunk_ok base s chunk :
  scan_ok base s → scan_ok (base + len chunk) (scan_chunk s chunk)
  ∧ scanned (scan_chunk s chunk) = scanned s ++ (if is_constant chunk then [] else seqZ base (len chunk)).
Proof.
  intros Hs. unfold scan_chunk. assert (Hl : 0 ≤ len chunk) by (unfold len; lia). destruct (is_constant chunk).
  - destruct (save_ok base s Hs) as ((H1 & H2 & H3 & H4) & E & H0). cbv zeta. split.
    + split_and!; cbn [sc_offset sc_currentLength sc_totalLength sc_segments seg_length]; [lia|lia|done|done].
    + rewrite app_nil_r, <-E. unfold scanned. cbn [sc_offset sc_currentLength sc_totalLength sc_segments seg_length]. by rewrite H0.
  - destruct Hs as (H1 & H2 & H3 & H4). split; [split_and!; cbn [sc_offset sc_currentLength sc_totalLength sc_segments seg_length]; [lia|lia|done|done]|]. unfold scanned. cbn [sc_offset sc_currentLength sc_totalLength sc_segments seg_length]. rewrite <-app_assoc. f_equal.
    rewrite seqZ_app by lia. do 2 f_equal. lia.
Qed.
Lemma scan_loop_ok fuel base data s :
  scan_ok base s → (length data ≤ fuel)%nat →
  scan_ok (base + len data) (scan_loop fuel g data s) ∧ scanned (scan_loop fuel g data s) = scanned s ++ varied fuel base data.
Proof.
  revert base data s. induction fuel as [|fuel IH]; intros base [|x data] s Hs Hf; cbn [scan_loop varied];
    [unfold len; cbn; rewrite Z.add_0_r, app_nil_r; done|cbn in Hf; lia|unfold len; cbn; rewrite Z.add_0_r, app_nil_r; done|].
  set (l := x :: data) in *. set (n := if decide (len l < g) then length l else Z.to_nat g).
  assert (Hn : (1 ≤ n ≤ length l)%nat) by (unfold n, len; case_decide; unfold l in *; cbn in *; lia).
  destruct (scan_chunk_ok base s (take n l) Hs) as [H1 H2].
  destruct (IH (base + len (take n l)) (drop n l) (scan_chunk s (take n l)) H1) as [H3 H4]; [rewrite length_drop; lia|].
  split; [|by rewrite H4, H2, <-app_assoc]. replace (base + len l) with (base + len (take n l) + len (drop n l)); [done|].
  unfold len. rewrite length_take, length_drop. lia.
Qed.

(** The chunk a position is in. *)
Definition chunk_of (data : list Z) (p : Z) : list Z := take (Z.to_nat g) (drop (Z.to_nat (p / g * g)) data).

Lemma varied_spec fuel base data :
  (length data ≤ fuel)%nat →
  (∀ p, p ∈ varied fuel base data ↔ base ≤ p < base + len data ∧ is_constant (chunk_of data (p - base)) = false)
  ∧ StronglySorted Z.lt (varied fuel base data).
Proof.
  revert base data. induction fuel as [|fuel IH]; intros base [|x data] Hf; cbn [varied]; [|cbn in Hf; lia| |].
  1,2: split; [|constructor]; intros p; split; [by intros ?%not_elem_of_nil|]; unfold len; cbn; lia.
  set (l := x :: data) in *. set (n := if decide (len l < g) then length l else Z.to_nat g).
  assert (Hn : (1 ≤ n ≤ length l)%nat) by (unfold n, len; case_decide; unfold l in *; cbn in *; lia).
  assert (Hng : Z.of_nat n ≤ g ∧ (n < length l → Z.of_nat n = g)%nat) by (unfold n, len; case_decide; lia).
  assert (Hlt : len (take n l) = Z.of_nat n) by (unfold len; rewrite length_take; lia). rewrite Hlt.
  destruct (IH (base + Z.of_nat n) (drop n l)) as [H1 H2]; [rewrite length_drop; lia|].
  assert (Hld : len (drop n l) = len l - Z.of_nat n) by (unfold len; rewrite length_drop; lia). rewrite Hld in H1.
  (* positions of the first chunk *)
  assert (Hfirst : ∀ p, base ≤ p < base + Z.of_nat n → chunk_of l (p - base) = take n l).
  { intros p Hp. unfold chunk_of. rewrite Z.div_small by lia. cbn [Z.mul]. rewrite drop_0. unfold n. unfold len. case_decide; [|done].
    by rewrite !take_ge by lia. }
  assert (Hrest : ∀ p, base + Z.of_nat n ≤ p < base + len l → chunk_of l (p - base) = chunk_of (drop n l) (p - (base + Z.of_nat n))).
  { intros p Hp. assert (En : Z.of_nat n = g) by (apply Hng; unfold len in Hp; lia). unfold chunk_of. rewrite drop_drop. f_equal. f_equal.
    replace (p - base) with (p - (base + Z.of_nat n) + 1 * g) by lia. rewrite Z.div_add by lia.
    assert (0 ≤ (p - (base + Z.of_nat n)) / g) by (apply Z.div_pos; lia). lia. }
  split.
  - intros p. rewrite elem_of_app, H1. split.
    + intros [Hp|[Hp Hc]].
      * destruct (is_constant (take n l)) eqn:E; [by apply not_elem_of_nil in Hp|]. apply elem_of_seqZ in Hp. rewrite Hfirst by lia. split; [unfold len in *; lia|done].
      * rewrite Hrest by lia. split; [lia|done].
    + intros [Hp Hc]. destruct (decide (p < base + Z.of_nat n)).
      * left. rewrite Hfirst in Hc by lia. rewrite Hc. apply elem_of_seqZ. lia.
      * right. rewrite Hrest in Hc by lia. split; [lia|done].
  - destruct (is_constant (take n l)); [done|]. apply StronglySorted_app_2; [|rewrite <-(list_fmap_id (seqZ _ _)); apply StronglySorted_seqZ_fmap; cbn; lia|done].
    intros a b Ha%elem_of_seqZ [Hb _]%H1. lia.
Qed.
End positions.

(** The interesting positions of the data. *)
Definition hot (data : list Z) : list Z :=
  if decide (varied granularity (length data) 0 data = []) then seqZ 0 (len data) else varied granularity (length data) 0 data.
Lemma hot_segments data : 0 < len data →
  ∃ segs, calculateLengthAndSegments data granularity = (len (hot data), segs) ∧ Forall (λ s, 0 ≤ seg_length s) segs ∧ seg_positions segs = hot data.
Proof.
  intros Hlen. set (pos := hot data).
  unfold calculateLengthAndSegments. set (s0 := mkScan 0 0 0 []).
    destruct (scan_loop_ok granularity ltac:(unfold granularity; lia) (length data) 0 data s0) as [H1 H2]; [done|done|].
    destruct (save_ok _ _ H1) as ((_ & _ & Hpos & Htot) & Esc & H0). set (s := saveSegment _) in *.
    assert (E : seg_positions (sc_segments s) = varied granularity (length data) 0 data).
    { rewrite H2 in Esc. unfold scanned in Esc. rewrite H0, (seqZ_nil _ 0), app_nil_r in Esc by lia. rewrite Esc. done. }
    unfold pos, hot. destruct (sc_segments s) as [|sg segs] eqn:Esg.
    - rewrite <-E. rewrite decide_True by done. rewrite decide_True by done. exists [mkSegment 0 (len data)]. split_and!.
      + cbn [app]. f_equal. unfold len. rewrite length_seqZ. lia.
      + apply Forall_singleton. cbn. lia.
      + apply seg_positions_one.
    - rewrite decide_False by (unfold len; cbn; lia). exists (sg :: segs). rewrite Htot, E.
      assert (Hne : varied granularity (length data) 0 data ≠ []).
      { rewrite <-E. apply Forall_cons in Hpos as [Hp _]. unfold seg_positions. cbn. rewrite seqZ_cons by lia. done. }
      rewrite decide_False by done. split_and!; [done| |done]. eapply Forall_impl; [exact Hpos|]. cbn. lia.
Qed.
Lemma hot_spec data : 0 < len data →
  0 < len (hot data) ∧ StronglySorted Z.lt (hot data)
  ∧ ∀ p, p ∈ hot data ↔ 0 ≤ p < len data ∧
      (is_constant (chunk_of granularity data p) = false ∨ ∀ p', 0 ≤ p' < len data → is_constant (chunk_of granularity data p') = true).
Proof.
  intros Hlen. destruct (varied_spec granularity ltac:(unfold granularity; lia) (length data) 0 data ltac:(done)) as [Hv Hs]. unfold hot. split_and!.
  - case_decide as Hc; [unfold len at 1; rewrite length_seqZ; lia|]. destruct (varied _ _ _ _); [done|unfold len; cbn; lia].
  - case_decide; [|done]. rewrite <-(list_fmap_id (seqZ _ _)). apply StronglySorted_seqZ_fmap. cbn. lia.
  - intros p. setoid_rewrite Z.sub_0_r in Hv. case_decide as Hc.
    + assert (Hall : ∀ p', 0 ≤ p' < len data → is_constant (chunk_of granularity data p') = true).
        { intros p' Hp'. destruct (is_constant (chunk_of granularity data p')) eqn:E; [done|].
          assert (p' ∈ varied granularity (length data) 0 data) as Hin by (apply Hv; done). rewrite Hc in Hin. by apply not_elem_of_nil in Hin. }
        rewrite elem_of_seqZ. split; [intros; split; [lia|by right]|lia].
    + rewrite Hv. split; [intros [? ?]; split; [lia|by left]|]. intros [Hp [?|Hall]]; [done|]. exfalso.
        destruct (varied granularity (length data) 0 data) as [|p' l] eqn:E; [done|]. destruct (proj1 (Hv p') (list_elem_of_here _ _)) as [Hp' Hc'].
        rewrite Hall in Hc' by lia. done.
Qed.

(** Positions are chosen uniformly among the interesting ones.  For any
    non-empty data the heat map is built, and its positions are, in increasing
    order, exactly those in 64-byte chunks with two different bytes (all of
    them when there is no such chunk); its indices enumerate them without gaps,
    the choice picks the one the draw says and never fails, and between 1 and 10
    mutations are made. *)
Theorem heatmap_spec (data : list Z) (Hdata : data ≠ []) :
  ∃ hm pos, MakeGenericHeatmap data = Ret hm ∧ hm_length hm = len pos ∧ 0 < len pos ∧ StronglySorted Z.lt pos
  ∧ (∀ p, p ∈ pos ↔ 0 ≤ p < len data ∧
       (is_constant (chunk_of granularity data p) = false ∨ ∀ p', 0 ≤ p' < len data → is_constant (chunk_of granularity data p') = true))
  ∧ (∀ i, 0 ≤ i → translateIdx i (hm_segments hm) = match pos !! Z.to_nat i with Some p => Ret p | None => Panic end)
  ∧ (∀ r, ∃ p, ChooseLocation hm r = Ret (p, tl r) ∧ pos !! Z.to_nat (hd 0 r mod len pos) = Some p)
  ∧ (∀ r, ∃ n r', NumMutations hm r = Ret (n, r') ∧ 1 ≤ n ≤ 10).
Proof.
  assert (Hlen : 0 < len data) by (destruct data; [done|unfold len; cbn; lia]).
  destruct (hot_segments data Hlen) as (segs & Ecalc & Hnn & Epos). destruct (hot_spec data Hlen) as (Hpl & Hsort & Hmem).
  set (pos := hot data) in *.
  assert (Htr : ∀ i, 0 ≤ i → translateIdx i segs = match pos !! Z.to_nat i with Some p => Ret p | None => Panic end).
  { intros i Hi. rewrite translateIdx_lookup by done. by rewrite Epos. }
  exists (mkHeatmap segs (len pos)), pos. unfold MakeGenericHeatmap. rewrite decide_False by lia. rewrite Ecalc.
  split_and!; [done|done|done|done|done|exact Htr| |].
  - intros r. unfold ChooseLocation, Intn. cbn [hm_length hm_segments]. rewrite decide_True by done. cbn [mbind outcome_bind].
    pose proof (Z.mod_pos_bound (hd 0 r) (len pos) Hpl) as Hm. rewrite Htr by lia.
    destruct (lookup_lt_is_Some_2 pos (Z.to_nat (hd 0 r mod len pos))) as [p Hp]; [unfold len in *; lia|]. rewrite Hp. cbn. eauto.
  - intros r. unfold NumMutations. cbn [hm_length].
    assert (0 ≤ Z.quot (len pos) (Z.shiftl 4 10)) by (apply Z.quot_pos; [lia|done]).
    destruct (Intn_Ret (Z.quot (len pos) (Z.shiftl 4 10) + 1) r ltac:(lia)) as (a & -> & Ha). cbn [mbind outcome_bind].
    destruct (Intn_Ret 5 (tl r) ltac:(lia)) as (b & -> & Hb). cbn [mbind outcome_bind]. eexists _, _. split; [done|]. lia.
Qed.

Definition sparse_image : list Z := replicate 100 0 ++ [1; 2; 3] ++ replicate 97 0.
Lemma heatmap_witness :
  (∃ hm pos, MakeGenericHeatmap sparse_image = Ret hm ∧ hm_length hm = len pos ∧ 0 < len pos ∧ StronglySorted Z.lt pos
  ∧ (∀ p, p ∈ pos ↔ 0 ≤ p < len sparse_image ∧
       (is_constant (chunk_of granularity sparse_image p) = false
        ∨ ∀ p', 0 ≤ p' < len sparse_image → is_constant (chunk_of granularity sparse_image p') = true))
  ∧ (∀ i, 0 ≤ i → translateIdx i (hm_segments hm) = match pos !! Z.to_nat i with Some p => Ret p | None => Panic end)
  ∧ (∀ r, ∃ p, ChooseLocation hm r = Ret (p, tl r) ∧ pos !! Z.to_nat (hd 0 r mod len pos) = Some p)
  ∧ (∀ r, ∃ n r', NumMutations hm r = Ret (n, r') ∧ 1 ≤ n ≤ 10))
  ∧ MakeGenericHeatmap sparse_image = Ret (mkHeatmap [mkSegment 64 64] 64).
Proof. split; [apply (heatmap_spec sparse_image); done|vm_compute; reflexivity]. Defined.
