(* ===== verification/DistLiveness.v ===== *)
(** * Delayed requests are released (src/pkg/fuzzer/queue/distributor.go)

    A request that avoids the VM asking for one is set aside while other VMs
    are active.  Whatever the VMs do afterwards, and whatever is submitted
    meanwhile, it is handed out: after 1000 requests it may go to any VM, and
    then the requests set aside are served before new ones. *)

From S2P Require Import Prelude Queues Requests RequestProps.

(** Histories: a VM asks for a request, or one is submitted to the source. *)
Inductive dist_op := ONext (vm : Z) | OSubmit (id : nat).

Fixpoint dist_run (fuel : nat) (tbl : table) (d : distributor) (ops : list dist_op)
    : outcome (option (table * distributor * list nat)) :=
  match ops with
  | [] => Ret (Some (tbl, d, []))
  | OSubmit id :: ops =>
      let d := mkDistributor (PlainSubmit (di_source d) id) (di_seq d) (di_empty d) (di_active d) (di_queue d) in
      dist_run fuel tbl d ops
  | ONext vm :: ops =>
      r ← DistNext fuel tbl d vm;
      match r with
      | None => Ret None
      | Some (tbl, d, id) =>
          r ← dist_run fuel tbl d ops;
          Ret (match r with None => None | Some (tbl, d, ids) => Some (tbl, d, option_list id ++ ids) end)
      end
  end.
Definition submitted (ops : list dist_op) : list nat := omap (λ o, match o with OSubmit id => Some id | _ => None end) ops.
Fixpoint nexts (ops : list dist_op) : nat :=
  match ops with [] => 0 | ONext _ :: ops => S (nexts ops) | OSubmit _ :: ops => nexts ops end.
Definition vms_ok (ops : list dist_op) : Prop := Forall (λ o, match o with ONext vm => 0 ≤ vm | _ => True end) ops.

(** One request: the sequence number grows; requests set aside are handed out,
    stay as they are, or (when one of them is served) lose just that one. *)
Lemma DistNext_exact fuel tbl (d : distributor) vm pb :
  plain_is (di_source d) pb → known tbl (pb ++ di_queue d) → (length pb < fuel)%nat → (di_empty d = true → di_queue d = []) → 0 ≤ vm →
  ∃ tbl' d' r pb', DistNext fuel tbl d vm = Ret (Some (tbl', d', r))
  ∧ plain_is (di_source d') pb' ∧ di_seq d' = di_seq d +u 1 ∧ (∀ i, i ∉ pb → tbl' !! i = tbl !! i) ∧ (∀ l, known tbl l → known tbl' l)
  ∧ (di_empty d' = true → di_queue d' = [])
  ∧ ((∃ id, r = Some id ∧ id :: di_queue d' ≡ₚ di_queue d ∧ pb' = pb)
     ∨ Forall (λ id, undelay tbl vm (di_seq d +u 1) id = false) (di_queue d)
       ∧ ∃ moved, pb = moved ++ option_list r ++ pb' ∧ di_queue d' = di_queue d ++ moved).
Proof.
  intros Hs Hk Hf He Hvm. unfold DistNext. destruct (noteActive_spec d vm Hvm) as (a & ->). cbn [mbind outcome_bind].
  set (d1 := mkDistributor _ _ _ _ _). apply Forall_app in Hk as [Hkp Hkq].
  destruct (delayed_spec tbl d1 vm Hkq He) as (d2 & r & Ed & Hsrc & Hseq & _ & He2 & Hr). rewrite Ed. cbn [mbind outcome_bind].
  destruct r as [id|].
  - destruct Hr as [Hp Hu]. exists tbl, d2, (Some id), pb. split; [done|]. rewrite Hsrc, Hseq. split_and!; try done. left. by exists id.
  - destruct Hr as [-> _].
    assert (Hnone : Forall (λ id, undelay tbl vm (di_seq d +u 1) id = false) (di_queue d)).
    { unfold delayed in Ed. destruct (di_empty d1) eqn:Ee; [rewrite He by done; constructor|].
      pose proof (find_delayed_spec tbl vm (di_seq d1) 0 (di_queue d1)) as Hfd. destruct (find_delayed _ _ _ _ _) as [[i id]|]; [|done].
      apply bind_Ret in Ed as (y & _ & Ed). by apply Ret_inj in Ed. }
    destruct (dist_loop_exact fuel tbl d1 vm pb Hs Hkp Hf He) as (tbl' & d' & r & pb' & moved & E & H1 & H2 & H3 & H4 & H5 & H6 & H7 & _).
    exists tbl', d', r, pb'. split; [done|]. rewrite H6. split_and!; try done. right. split; [done|]. by exists moved.
Qed.

(** The state of a run: what waits in the source, and the operations to come. *)
Record running (fuel : nat) (tbl : table) (d : distributor) (pb : list nat) (ops : list dist_op) : Prop := {
  ru_source : plain_is (di_source d) pb;
  ru_known : known tbl (pb ++ di_queue d ++ submitted ops);
  ru_nodup : NoDup (pb ++ di_queue d ++ submitted ops);
  ru_fuel : (length pb + length (submitted ops) < fuel)%nat;
  ru_empty : di_empty d = true → di_queue d = [];
  ru_vms : vms_ok ops;
  ru_seq : 0 ≤ di_seq d ∧ di_seq d + Z.of_nat (nexts ops) < 2 ^ 64
}.

Lemma running_submit fuel tbl d pb id ops :
  running fuel tbl d pb (OSubmit id :: ops) →
  running fuel tbl (mkDistributor (PlainSubmit (di_source d) id) (di_seq d) (di_empty d) (di_active d) (di_queue d)) (pb ++ [id]) ops.
Proof.
  intros [H1 H2 H3 H4 H5 H6 H7]. cbn [submitted omap list_omap] in *. fold (submitted ops) in *.
  assert (Hp : pb ++ di_queue d ++ id :: submitted ops ≡ₚ (pb ++ [id]) ++ di_queue d ++ submitted ops).
  { rewrite <-app_assoc. f_equiv. by rewrite <-Permutation_middle. }
  split; cbn [di_source di_queue di_empty di_seq]; try done.
  - by apply PlainSubmit_is.
  - unfold known in *. by rewrite <-Hp.
  - by rewrite <-Hp.
  - rewrite length_app. cbn in *. lia.
  - by apply Forall_cons in H6 as [_ ?].
Qed.

(** One request served: one set aside before is handed out or still there,
    unchanged, and once it is due those set aside get fewer. *)
Lemma running_next fuel tbl d pb vm ops :
  running fuel tbl d pb (ONext vm :: ops) →
  ∃ tbl' d' r pb', DistNext fuel tbl d vm = Ret (Some (tbl', d', r)) ∧ running fuel tbl' d' pb' ops ∧ di_seq d' = di_seq d + 1
  ∧ ∀ X q, tbl !! X = Some q → X ∈ di_queue d → r = Some X ∨ tbl' !! X = Some q ∧ X ∈ di_queue d'
       ∧ (0 ≤ QdelayedSince q → QdelayedSince q + 1000 ≤ di_seq d' → (length (di_queue d') < length (di_queue d))%nat).
Proof.
  intros [H1 H2 H3 H4 H5 H6 H7]. change (submitted (ONext vm :: ops)) with (submitted ops) in *.
  apply Forall_cons in H6 as [Hvm H6]. cbn [nexts] in H7.
  assert (Hk : known tbl (pb ++ di_queue d)) by (unfold known in *; rewrite app_assoc in H2; by apply Forall_app in H2 as [? _]).
  destruct (DistNext_exact fuel tbl d vm pb H1 Hk ltac:(lia) H5 Hvm) as (tbl' & d' & r & pb' & E & Hs & Hseq & Htbl & Hkn & He & Hcase).
  assert (Hu : di_seq d +u 1 = di_seq d + 1) by (apply u64_id; unfold in_u64; lia). rewrite Hu in *.
  assert (HXpb : ∀ X, X ∈ di_queue d → X ∉ pb).
  { intros X HX Hin. apply NoDup_app in H3 as (_ & Hd & _). apply (Hd X Hin). apply elem_of_app. by left. }
  exists tbl', d', r, pb'. split; [done|]. destruct Hcase as [(id & -> & Hp & ->)|(Hnone & moved & Epb & Eq)].
  - split; [|split; [done|]].
    + split; try done; [| |lia].
      * apply Hkn. unfold known in *. apply Forall_app in H2 as [Ha H2]. apply Forall_app in H2 as [Hb Hc]. rewrite <-Hp in Hb.
        apply Forall_cons in Hb as [_ Hb]. rewrite !Forall_app. done.
      * rewrite <-Hp in H3. rewrite <-app_comm_cons, <-Permutation_middle in H3. by apply NoDup_cons in H3 as [_ ?].
    + intros X q Hq HX. destruct (decide (X = id)) as [->|Hne]; [by left|right]. split_and!.
      * by rewrite Htbl by (by apply HXpb).
      * rewrite <-Hp in HX. by apply elem_of_cons in HX as [|].
      * intros _ _. apply Permutation_length in Hp. cbn in Hp. lia.
  - split; [|split; [done|]].
    + assert (Hp : pb ++ di_queue d ++ submitted ops ≡ₚ option_list r ++ pb' ++ di_queue d' ++ submitted ops).
      { rewrite Epb, Eq. solve_Permutation. }
      split; try done.
      * apply Hkn. unfold known in *. rewrite Hp in H2. by apply Forall_app in H2 as [_ ?].
      * rewrite Hp in H3. by apply NoDup_app in H3 as (_ & _ & ?).
      * rewrite Epb in H4. rewrite !length_app in H4. lia.
      * lia.
    + intros X q Hq HX. right. split_and!.
      * by rewrite Htbl by (by apply HXpb).
      * rewrite Eq. apply elem_of_app. by left.
      * intros Hs0 Hdue. exfalso. rewrite Forall_forall in Hnone. specialize (Hnone X HX). unfold undelay in Hnone. rewrite Hq in Hnone.
        apply negb_false_iff, andb_prop in Hnone as [_ Hlt%Z.ltb_lt]. rewrite Hseq in Hdue.
        assert (Hw : QdelayedSince q +u 1000 = QdelayedSince q + 1000) by (apply u64_id; unfold in_u64; lia). lia.
Qed.

Lemma running_prefix fuel ops rest tbl d pb :
  running fuel tbl d pb (ops ++ rest) →
  ∃ tbl' d' ids pb', dist_run fuel tbl d ops = Ret (Some (tbl', d', ids)) ∧ running fuel tbl' d' pb' rest
  ∧ di_seq d' = di_seq d + Z.of_nat (nexts ops)
  ∧ ∀ X q, tbl !! X = Some q → X ∈ di_queue d → X ∈ ids ∨ tbl' !! X = Some q ∧ X ∈ di_queue d'
       ∧ (0 ≤ QdelayedSince q → QdelayedSince q + 1000 ≤ di_seq d → (length (di_queue d') + nexts ops ≤ length (di_queue d))%nat).
Proof.
  revert tbl d pb. induction ops as [|[vm|id] ops IH]; intros tbl d pb Hr; cbn [dist_run nexts app] in *.
  - exists tbl, d, [], pb. split_and!; [done|done|lia|]. intros X q Hq HX. right. split_and!; [done|done|lia].
  - destruct (running_next _ _ _ _ _ _ Hr) as (tbl1 & d1 & r & pb1 & -> & Hr1 & Hseq1 & HX1). cbn [mbind outcome_bind].
    destruct (IH _ _ _ Hr1) as (tbl2 & d2 & ids & pb2 & -> & Hr2 & Hseq2 & HX2). cbn [mbind outcome_bind].
    exists tbl2, d2, (option_list r ++ ids), pb2. split_and!; [done|done|lia|]. intros X q Hq HX.
    destruct (HX1 X q Hq HX) as [->|(Hq1 & HX1' & Hl1)]; [left; apply elem_of_app; left; by left|].
    destruct (HX2 X q Hq1 HX1') as [Hin|(Hq2 & HX2' & Hl2)]; [left; apply elem_of_app; by right|right].
    split_and!; [done|done|]. intros Hs0 Hdue. specialize (Hl1 Hs0 ltac:(lia)). specialize (Hl2 Hs0 ltac:(lia)). lia.
  - apply running_submit in Hr. destruct (IH _ _ _ Hr) as (tbl2 & d2 & ids & pb2 & E & Hr2 & Hseq2 & HX2).
    exists tbl2, d2, ids, pb2. split_and!; [done|done|done|]. intros X q Hq HX. apply (HX2 X q Hq HX).
Qed.

(** C32: No delayed request starves.  Let a request be set aside in a
    well-formed distributor.  In every history in which the VMs ask at least
    1000 times and then as often as requests are set aside at that point,
    whatever is submitted meanwhile, all calls return and the request has been
    handed out. *)
Theorem delayed_released (fuel : nat) (tbl : table) (d : distributor) (pb : list nat) (ops ops' : list dist_op) (X : nat) (q : Request)
    (Hrun : running fuel tbl d pb (ops ++ ops')) (Hreq : tbl !! X = Some q) (HX : X ∈ di_queue d)
    (Hsince : 0 ≤ QdelayedSince q ≤ di_seq d) (Hmany : (1000 ≤ nexts ops)%nat) :
  ∃ tbl1 d1 ids1 tbl2 d2 ids2,
    dist_run fuel tbl d ops = Ret (Some (tbl1, d1, ids1)) ∧ dist_run fuel tbl1 d1 ops' = Ret (Some (tbl2, d2, ids2))
    ∧ ((length (di_queue d1) ≤ nexts ops')%nat → X ∈ ids1 ++ ids2).
Proof.
  destruct (running_prefix _ _ _ _ _ _ Hrun) as (tbl1 & d1 & ids1 & pb1 & E1 & Hr1 & Hseq1 & HX1).
  pose proof Hr1 as Hr1'. rewrite <-(app_nil_r ops') in Hr1.
  destruct (running_prefix _ _ _ _ _ _ Hr1) as (tbl2 & d2 & ids2 & pb2 & E2 & Hr2 & Hseq2 & HX2).
  exists tbl1, d1, ids1, tbl2, d2, ids2. split_and!; [done|done|]. intros Hlen. apply elem_of_app.
  destruct (HX1 X q Hreq HX) as [|(Hq1 & HXq & _)]; [by left|]. right.
  destruct (HX2 X q Hq1 HXq) as [|(_ & HXq2 & Hl)]; [done|]. exfalso. specialize (Hl ltac:(lia) ltac:(lia)).
  destruct (di_queue d2); [by apply not_elem_of_nil in HXq2|]. cbn in Hl. lia.
Qed.

(** Request 0 avoids VM 0 and is set aside; only VM 0 keeps asking. *)
Definition aside : distributor := mkDistributor Plain 7 false (Some [7; 0]) [0%nat].
Definition aside_table : table := <[0%nat := set_delayed (sample_avoiding 0) 7]> ∅.
Lemma delayed_released_witness :
  ∃ tbl1 d1 ids1 tbl2 d2 ids2,
    dist_run 1 aside_table aside (replicate 1000 (ONext 0)) = Ret (Some (tbl1, d1, ids1))
    ∧ dist_run 1 tbl1 d1 [ONext 0] = Ret (Some (tbl2, d2, ids2))
    ∧ ((length (di_queue d1) ≤ nexts [ONext 0])%nat → 0%nat ∈ ids1 ++ ids2).
Proof.
  apply (delayed_released 1 aside_table aside [] (replicate 1000 (ONext 0)) [ONext 0] 0%nat (set_delayed (sample_avoiding 0) 7)).
  - split; try done.
    + change (known aside_table [0%nat]). constructor; [by exists (set_delayed (sample_avoiding 0) 7)|constructor].
    + change (NoDup [0%nat]). constructor; [apply not_elem_of_nil|constructor].
    + change (0 + 0 < 1)%nat. lia.
    + apply Forall_app. split; [by apply Forall_replicate|by apply Forall_singleton].
  - reflexivity.
  - by left.
  - vm_compute. split; congruence.
  - vm_compute. lia.
Defined.
