(* ===== verification/ChoiceBoosts.v ===== *)
(** * Boosts from the relation table (RelationChoiceBoostsFromEnv of
    src/pkg/kconfuzz/actionplanner.go)

    Calls that are related to the same parameter are boosted towards each
    other, once per parameter they share. *)

From Stdlib Require Import ZArith.
From S2P Require Import Prelude Prog Params Planner ConfigPolicy ChoiceTable ChoiceProps.

Lemma i32_add_l x y : i32 (i32 x + y) = i32 (x + y).
Proof. unfold i32. replace ((x + 2 ^ 31) mod 2 ^ 32 - 2 ^ 31 + y + 2 ^ 31) with ((x + 2 ^ 31) mod 2 ^ 32 + y) by lia.
  rewrite Zplus_mod_idemp_l. do 2 f_equal. lia.
Qed.
Lemma i32_add_r x y : i32 (x + i32 y) = i32 (x + y).
Proof. by rewrite Z.add_comm, i32_add_l, Z.add_comm. Qed.

(** ** Adding weights *)

Definition count_pair (pr : Z * Z) (l : list (Z * Z)) : nat := length (filter (λ x, x = pr) l).
Lemma count_pair_cons pr x l : count_pair pr (x :: l) = ((if decide (x = pr) then 1 else 0) + count_pair pr l)%nat.
Proof. unfold count_pair. rewrite filter_cons. by case_decide. Qed.
Lemma count_pair_app pr l k : count_pair pr (l ++ k) = (count_pair pr l + count_pair pr k)%nat.
Proof. unfold count_pair. by rewrite filter_app, length_app. Qed.
Lemma count_pair_zero pr l : count_pair pr l = 0%nat ↔ pr ∉ l.
Proof.
  induction l as [|x l IH]; [split; [intros _; apply not_elem_of_nil|done]|]. rewrite count_pair_cons, not_elem_of_cons, <-IH.
  case_decide as H; [|naive_solver lia]. subst. naive_solver lia.
Qed.
Lemma count_pair_NoDup pr l : NoDup l → count_pair pr l = if decide (pr ∈ l) then 1%nat else 0%nat.
Proof.
  induction 1 as [|x l Hx Hl IH]; [by rewrite decide_False by apply not_elem_of_nil|]. rewrite count_pair_cons, IH.
  destruct (decide (x = pr)) as [->|Hne].
  - rewrite decide_False by done. rewrite decide_True by (by left). done.
  - destruct (decide (pr ∈ l)); [rewrite decide_True by (by right)|rewrite decide_False by (rewrite elem_of_cons; naive_solver)]; done.
Qed.

Lemma and_iff_compat_l_ext (P Q R : Prop) : (P → (Q ↔ R)) → (P ∧ Q ↔ P ∧ R).
Proof. tauto. Qed.

Section weights.
Context (env : string → string).
Abbreviation W := (choice_weight env).

Lemma add_weights_spec l w pr :
  foldl (add_weight env) w l !! pr =
    if decide (pr ∈ l) then Some (i32 (default 0 (w !! pr) + Z.of_nat (count_pair pr l) * W)) else w !! pr.
Proof.
  revert w. induction l as [|x l IH]; intros w; cbn [foldl]; [by rewrite decide_False by apply not_elem_of_nil|].
  rewrite IH, count_pair_cons. unfold add_weight. destruct (decide (x = pr)) as [->|Hne].
  - rewrite (decide_True (P := pr ∈ pr :: l)) by (by left). rewrite lookup_insert_eq. case_decide as Hin.
    + change (default 0 (Some ?x)) with x. f_equal. rewrite i32_add_r, i32_add_l. f_equal. lia.
    + f_equal. apply count_pair_zero in Hin. rewrite Hin, i32_add_r. f_equal. lia.
  - rewrite lookup_insert_ne by done. destruct (decide (pr ∈ l)).
    + rewrite decide_True by (by right). done.
    + rewrite decide_False by (rewrite elem_of_cons; naive_solver). done.
Qed.
End weights.

(** ** Pairs of a group *)

Lemma count_concat {A} `{EqDecision A} (pr : Z * Z) (f : A → list (Z * Z)) (k : A) (l : list A) :
  NoDup l → (∀ x, x ≠ k → count_pair pr (f x) = 0%nat) →
  count_pair pr (concat (f <$> l)) = if decide (k ∈ l) then count_pair pr (f k) else 0%nat.
Proof.
  intros Hl Hf. induction Hl as [|x l Hx Hl IH]; cbn [fmap list_fmap concat]; [by rewrite decide_False by apply not_elem_of_nil|].
  rewrite count_pair_app, IH. destruct (decide (x = k)) as [->|Hne].
  - rewrite decide_False by done. rewrite decide_True by (by left). lia.
  - rewrite Hf by done. destruct (decide (k ∈ l)); [rewrite decide_True by (by right)|rewrite decide_False by (rewrite elem_of_cons; naive_solver)]; lia.
Qed.
Lemma count_ordered a b g : NoDup g → count_pair (a, b) (ordered_pairs g) = if decide (a ≠ b ∧ a ∈ g ∧ b ∈ g) then 1%nat else 0%nat.
Proof.
  intros Hg. unfold ordered_pairs. set (h := λ from, concat ((λ to, if decide (from = to) then [] else [(from, to)]) <$> g)).
  assert (H0 : ∀ from to, count_pair (a, b) (if decide (from = to) then [] else [(from, to)]) = if decide (from ≠ to ∧ (from, to) = (a, b)) then 1%nat else 0%nat).
  { intros from to. destruct (decide (from = to)); [rewrite decide_False by tauto; done|]. rewrite count_pair_cons.
    destruct (decide ((from, to) = (a, b))); [rewrite decide_True by tauto|rewrite decide_False by tauto]; done. }
  assert (Hh : ∀ from, count_pair (a, b) (h from) = if decide (from = a ∧ a ≠ b ∧ b ∈ g) then 1%nat else 0%nat).
  { intros from. unfold h. rewrite (count_concat _ _ b) by (done || (intros x Hx; rewrite H0; by rewrite decide_False by naive_solver)).
    rewrite H0. destruct (decide (b ∈ g)); [|by rewrite decide_False by tauto].
    destruct (decide (from ≠ b ∧ (from, b) = (a, b))) as [[? [= ->]]|]; [by rewrite decide_True|]. rewrite decide_False by naive_solver. done. }
  rewrite (count_concat _ _ a) by (done || (intros x Hx; rewrite Hh; by rewrite decide_False by tauto)). rewrite Hh.
  destruct (decide (a ∈ g)); [|by rewrite decide_False by tauto].
  destruct (decide (a ≠ b ∧ b ∈ g)); [rewrite !decide_True by tauto|rewrite !decide_False by tauto]; done.
Qed.

(** ** The calls of a parameter *)

Definition get (m : gmap Z (gmap Z Syscall)) (pid id : Z) : option Syscall := m !! pid ≫= λ cm, cm !! id.

Lemma get_note_params meta ps m pid id :
  get (foldl (note_param meta) m ps) pid id =
    if decide (pid ∈ PID <$> ps ∧ id = ID meta) then Some meta else get m pid id.
Proof.
  revert m. induction ps as [|q ps IH]; intros m; cbn [foldl]; [rewrite decide_False by (intros [?%not_elem_of_nil _]; done); done|].
  rewrite IH. assert (E : get (note_param meta m q) pid id = if decide (pid = PID q ∧ id = ID meta) then Some meta else get m pid id).
  { unfold get, note_param. destruct (decide (pid = PID q)) as [->|Hne].
    - rewrite lookup_insert_eq. cbn [mbind option_bind]. destruct (decide (id = ID meta)) as [->|Hne].
      + rewrite lookup_insert_eq. by rewrite decide_True.
      + rewrite lookup_insert_ne by done. rewrite decide_False by tauto. destruct (m !! PID q); [done|]. cbn. by rewrite lookup_empty.
    - rewrite lookup_insert_ne by done. by rewrite decide_False by tauto. }
  rewrite E. rewrite fmap_cons. destruct (decide (pid ∈ PID <$> ps ∧ id = ID meta)) as [[H1 H2]|Hno].
  - rewrite decide_True; [done|]. split; [by right|done].
  - destruct (decide (pid = PID q ∧ id = ID meta)) as [[-> ->]|Hno2].
    + rewrite decide_True; [done|]. split; [by left|done].
    + rewrite decide_False; [done|]. rewrite elem_of_cons. tauto.
Qed.

Section relation.
Context (env : string → string) (p : Planner) (t : Target) (enabled : option (gset Z)).

(** The ids of the supported calls related to a parameter. *)
Definition related_ids (pid : Z) : gset Z :=
  list_to_set (omap (λ cp : string * list ConfigParam,
    meta ← boost_call enabled t cp.1; if decide (pid ∈ PID <$> cp.2) then Some (ID meta) else None) (map_to_list (callToParams p))).
(** Those that are paired: the lowest ones, when there are at least two. *)
Definition call_group (pid : Z) : list Z :=
  let ids := sort_by (less_on id) (elements (related_ids pid)) in
  if decide (len ids < 2) then [] else take (Z.to_nat (max_calls_per_param env)) ids.
Definition all_params : gset Z := list_to_set (concat ((λ cp : string * list ConfigParam, PID <$> cp.2) <$> map_to_list (callToParams p))).
(** How many parameters two calls share. *)
Definition shared (a b : Z) : Z := Z.of_nat (size (filter (λ pid, a ∈ call_group pid ∧ b ∈ call_group pid) all_params)).

Lemma calls_by_param_get pid id :
  (is_Some (get (calls_by_param enabled t p) pid id) ↔ id ∈ related_ids pid)
  ∧ ∀ meta, get (calls_by_param enabled t p) pid id = Some meta → ID meta = id.
Proof.
  unfold calls_by_param, related_ids. rewrite elem_of_list_to_set. generalize (map_to_list (callToParams p)). intros l.
  set (step := λ m cp, match boost_call enabled t cp.1 with None => m | Some meta => foldl (note_param meta) m cp.2 end).
  assert (H : ∀ m, (is_Some (get (foldl step m l) pid id) ↔ is_Some (get m pid id) ∨ id ∈ omap (λ cp : string * list ConfigParam,
      meta ← boost_call enabled t cp.1; if decide (pid ∈ PID <$> cp.2) then Some (ID meta) else None) l)
    ∧ ((∀ meta, get m pid id = Some meta → ID meta = id) → ∀ meta, get (foldl step m l) pid id = Some meta → ID meta = id)).
  { induction l as [|cp l IH]; intros m; cbn [foldl omap list_omap]; [split; [|done]; rewrite elem_of_nil; tauto|].
    destruct (IH (step m cp)) as [H1 H2]. assert (E : get (step m cp) pid id = match boost_call enabled t cp.1 with
      | Some meta => if decide (pid ∈ PID <$> cp.2 ∧ id = ID meta) then Some meta else get m pid id | None => get m pid id end).
    { unfold step. destruct (boost_call enabled t cp.1); [apply get_note_params|done]. }
    rewrite H1, E. clear H1. destruct (boost_call enabled t cp.1) as [meta|]; cbn [mbind option_bind]; [|split; [done|]; intros Hm; by apply H2; rewrite E].
    destruct (decide (pid ∈ PID <$> cp.2)) as [Hin|Hin].
    - rewrite elem_of_cons. destruct (decide (pid ∈ PID <$> cp.2 ∧ id = ID meta)) as [[_ ->]|Hno].
      + split; [split; [intros _; right; by left|intros _; left; eauto]|]. intros _. apply H2. rewrite E. intros ? [= ->]. done.
      + split; [naive_solver|]. intros Hm. apply H2. by rewrite E.
    - rewrite decide_False by tauto. split; [done|]. intros Hm. apply H2. rewrite E. by rewrite decide_False by tauto. }
  destruct (H ∅) as [H1 H2]. split.
  - rewrite H1. unfold get at 1. rewrite lookup_empty. cbn. split; [intros [[? [=]]|]; done|by right].
  - apply H2. intros meta. unfold get. by rewrite lookup_empty.
Qed.

Lemma param_group_eq pid : param_group env (default ∅ (calls_by_param enabled t p !! pid)) = call_group pid.
Proof.
  unfold param_group, call_group. set (cm := default ∅ (calls_by_param enabled t p !! pid)).
  assert (Hcm : ∀ id, cm !! id = get (calls_by_param enabled t p) pid id).
  { intros id. unfold cm, get. destruct (calls_by_param enabled t p !! pid); cbn; [done|by rewrite lookup_empty]. }
  assert (Hids : ID <$> values cm = (map_to_list cm).*1).
  { unfold values. rewrite <-list_fmap_compose. apply list_fmap_ext. intros i [k meta] Hk%list_elem_of_lookup_2. apply elem_of_map_to_list in Hk.
    cbn. rewrite Hcm in Hk. by apply (calls_by_param_get pid k). }
  assert (Hp : ID <$> values cm ≡ₚ elements (related_ids pid)).
  { rewrite Hids. apply NoDup_Permutation; [apply NoDup_fst_map_to_list|apply NoDup_elements|]. intros id.
    rewrite elem_of_elements, <-(proj1 (calls_by_param_get pid id)), <-Hcm, list_elem_of_fmap. split.
    - intros ([k meta] & -> & Hk%elem_of_map_to_list). eauto.
    - intros [meta Hm]. exists (id, meta). split; [done|]. by apply elem_of_map_to_list. }
  assert (Hs : sort_by (less_on id) (ID <$> values cm) = sort_by (less_on id) (elements (related_ids pid))).
  { apply sort_by_Permutation; [apply _|unfold le_by, less_on, id; intros; lia|exact (Permutation_sym Hp)]. }
  rewrite Hs. case_decide; [done|]. case_decide; [done|]. by rewrite take_ge by (unfold len in *; lia).
Qed.
Lemma call_group_NoDup pid : NoDup (call_group pid).
Proof.
  unfold call_group. case_decide; [constructor|]. eapply sublist_NoDup; [|apply sublist_take].
  rewrite sort_by_perm. apply NoDup_elements.
Qed.
Lemma call_group_related pid id : id ∈ call_group pid → id ∈ related_ids pid.
Proof.
  unfold call_group. case_decide; [by intros ?%not_elem_of_nil|]. intros Hin. apply elem_of_take in Hin as (i & Hi & _).
  apply list_elem_of_lookup_2 in Hi. by rewrite elem_of_sort_by, elem_of_elements in Hi.
Qed.
Lemma related_param pid id : id ∈ related_ids pid → pid ∈ all_params ∧ ∃ name meta, boost_call enabled t name = Some meta ∧ ID meta = id.
Proof.
  unfold related_ids, all_params. rewrite !elem_of_list_to_set, list_elem_of_omap. intros ([name ps] & Hin & H). cbn in H.
  destruct (boost_call enabled t name) as [meta|] eqn:Eb; cbn in H; [|done]. case_decide; [|done]. injection H as <-.
  split; [|eauto]. apply elem_of_concat_fmap. by exists (name, ps).
Qed.

(** The weight of every pair. *)
Lemma count_groups a b (pids : list Z) : NoDup pids →
  count_pair (a, b) (concat ((λ pid, ordered_pairs (call_group pid)) <$> pids))
  = if decide (a = b) then 0%nat else length (filter (λ pid, a ∈ call_group pid ∧ b ∈ call_group pid) pids).
Proof.
  intros Hp. induction Hp as [|pid pids Hx Hp IH]; cbn [fmap list_fmap concat]; [by case_decide|].
  rewrite count_pair_app, IH, count_ordered, filter_cons by apply call_group_NoDup. destruct (decide (a = b)) as [->|Hne].
  - by rewrite decide_False by tauto.
  - destruct (decide (a ∈ call_group pid ∧ b ∈ call_group pid)); [rewrite decide_True by tauto|rewrite decide_False by tauto]; done.
Qed.
Lemma boost_weights_lookup a b :
  boost_weights env (calls_by_param enabled t p) !! (a, b) =
    if decide (a ≠ b ∧ 0 < shared a b) then Some (i32 (shared a b * choice_weight env)) else None.
Proof.
  unfold boost_weights. set (bp := calls_by_param enabled t p). set (pids := sort_by (less_on id) (map_to_list bp).*1).
  assert (Hnd : NoDup pids) by (unfold pids; rewrite sort_by_perm; apply NoDup_fst_map_to_list).
  assert (Hf : ∀ w, foldl (λ w pid, foldl (add_weight env) w (ordered_pairs (param_group env (default ∅ (bp !! pid))))) w pids
      = foldl (add_weight env) w (concat ((λ pid, ordered_pairs (call_group pid)) <$> pids))).
  { clear Hnd. induction pids as [|pid pids IH]; intros w; cbn [foldl fmap list_fmap concat]; [done|].
    rewrite IH, foldl_app. unfold bp. by rewrite param_group_eq. }
  rewrite Hf, add_weights_spec, lookup_empty. change (default 0 None) with 0. rewrite Z.add_0_l.
  assert (Hs : Z.of_nat (length (filter (λ pid, a ∈ call_group pid ∧ b ∈ call_group pid) pids)) = shared a b).
  { unfold shared, size, set_size. cbn. f_equal. apply Permutation_length, NoDup_Permutation; [by apply NoDup_filter|apply NoDup_elements|].
    intros pid. rewrite elem_of_elements, list_elem_of_filter, elem_of_filter. apply and_iff_compat_l_ext. intros [Ha Hb].
    apply call_group_related in Ha. split; [intros _; by apply related_param in Ha as [? _]|intros _].
    apply calls_by_param_get in Ha as [meta Hm]. unfold pids. rewrite elem_of_sort_by, list_elem_of_fmap.
    unfold get in Hm. destruct (calls_by_param enabled t p !! pid) as [cm|] eqn:E; [|done].
    exists (pid, cm). split; [done|]. by apply elem_of_map_to_list. }
  pose proof (count_groups a b pids Hnd) as Hc. rewrite <-Hs. set (l := concat _) in *.
  destruct (decide ((a, b) ∈ l)) as [Hin|Hin].
  - assert (count_pair (a, b) l ≠ 0%nat) by (by rewrite count_pair_zero; tauto). rewrite Hc in *. destruct (decide (a = b)); [done|].
    rewrite decide_True by (split; [done|lia]). done.
  - apply count_pair_zero in Hin. rewrite Hc in Hin. rewrite decide_False; [done|]. intros [Hne Hlt]. rewrite decide_False in Hin by done. lia.
Qed.
End relation.

#[export] Instance pair_less_GoLess : GoLess pair_less.
Proof.
  split; unfold le_by, pair_less.
  - intros [a b] [c d]; cbn. repeat case_decide; lia.
  - intros [a b] [c d] [e f]; cbn. repeat case_decide; lia.
Qed.
Lemma pair_less_total x y : pair_less y x = false → x ≠ y → pair_less x y = true.
Proof.
  destruct x as [a b], y as [c d]. unfold pair_less. cbn. intros H Hne. assert (a ≠ c ∨ b ≠ d) as Hd by (destruct (decide (a = c)); [right; congruence|tauto]).
  repeat case_decide; lia.
Qed.
(** Distinct pairs in increasing order. *)
Lemma sort_pairs_increasing (l : list (Z * Z)) : NoDup l → StronglySorted (λ x y, pair_less x y = true) (sort_by pair_less l).
Proof.
  intros Hl. assert (Hs : StronglySorted (le_by pair_less) (sort_by pair_less l)) by (apply sort_by_sorted; apply _).
  rewrite <-(sort_by_perm pair_less) in Hl. induction Hs as [|x k Hk IH Hx]; constructor.
  - apply IH. by apply NoDup_cons in Hl as [_ ?].
  - apply NoDup_cons in Hl as [Hnin _]. apply Forall_forall. intros y Hy. rewrite Forall_forall in Hx. specialize (Hx y Hy).
    apply pair_less_total; [done|]. by intros ->.
Qed.

(** ** The boosts *)

Section boosts.
Context (env : string → string) (p : Planner) (t : Target) (enabled : option (gset Z)).

(** The calls of the name map are the target's calls, stored at their ids. *)
Definition stored (meta : Syscall) : Prop := 0 ≤ ID meta ∧ Syscalls t !! Z.to_nat (ID meta) = Some meta.
Definition boost_ids (b : ChoiceTableBoost) : option Z * option Z := (ID <$> From b, ID <$> To b).

Lemma shared_stored a b : (∀ name meta, SyscallMap t !! name = Some meta → stored meta) →
  0 < shared env p t enabled a b → ∃ from to, stored from ∧ stored to ∧ ID from = a ∧ ID to = b.
Proof.
  intros Ht Hsh. assert (∃ pid, a ∈ call_group env p t enabled pid ∧ b ∈ call_group env p t enabled pid) as (pid & Ha & Hb).
  { unfold shared in Hsh. destruct (set_choose_or_empty (C := gset Z) (filter (λ pid, a ∈ call_group env p t enabled pid ∧ b ∈ call_group env p t enabled pid) (all_params p))) as [[pid Hpid]|Hnone].
    - apply elem_of_filter in Hpid as [? _]. by exists pid.
    - apply size_empty_iff in Hnone. rewrite Hnone in Hsh. lia. }
  assert (H : ∀ x, x ∈ call_group env p t enabled pid → ∃ meta, stored meta ∧ ID meta = x).
  { intros x Hx. apply call_group_related, related_param in Hx as (_ & name & meta & Hm & <-). exists meta. split; [|done].
    unfold boost_call in Hm. destruct (SyscallMap t !! name) as [m|] eqn:E; cbn in Hm; [|done].
    assert (m = meta) as -> by (repeat case_match; by simplify_eq). by apply (Ht name). }
  destruct (H a Ha) as (from & ? & ?), (H b Hb) as (to & ? & ?). by exists from, to.
Qed.

(** The boosts are exactly the related pairs of calls: with the name map
    of the target naming its own calls, there is one boost for every ordered
    pair of different calls that are both among the first calls of some
    parameter, its weight is the configured weight times the number of such
    parameters, as an int32, and the boosts are in increasing order of the
    pair of ids whatever order the maps were walked in. *)
Theorem boosts_spec : ChoiceEnabled env = true →
  (∀ name meta, SyscallMap t !! name = Some meta → stored meta) →
  ∃ l, RelationChoiceBoostsFromEnv env (Some p) (Some t) enabled = Ret l
    ∧ (∃ ids, boost_ids <$> l = (λ pr : Z * Z, (Some pr.1, Some pr.2)) <$> ids
        ∧ StronglySorted (λ x y, pair_less x y = true) ids)
    ∧ ∀ b, b ∈ l ↔ ∃ from to, stored from ∧ stored to ∧ ID from ≠ ID to ∧ 0 < shared env p t enabled (ID from) (ID to)
        ∧ b = mkBoost (Some from) (Some to) (i32 (shared env p t enabled (ID from) (ID to) * choice_weight env)).
Proof.
  intros Hen Ht. unfold RelationChoiceBoostsFromEnv. rewrite Hen. cbn [negb].
  set (w := boost_weights env (calls_by_param enabled t p)). set (ids := sort_by pair_less (map_to_list w).*1).
  set (at_ := λ pr : Z * Z, mkBoost (Syscalls t !! Z.to_nat pr.1) (Syscalls t !! Z.to_nat pr.2) (default 0 (w !! pr))).
  assert (Hids : ∀ a b, (a, b) ∈ ids ↔ a ≠ b ∧ 0 < shared env p t enabled a b).
  { intros a b. unfold ids. rewrite elem_of_sort_by, list_elem_of_fmap. pose proof (boost_weights_lookup env p t enabled a b) as Hw. fold w in Hw. split.
    - intros ([k v] & E & Hk%elem_of_map_to_list). cbn in E. subst k. rewrite Hk in Hw. by case_decide.
    - intros H. rewrite decide_True in Hw by done. eexists (_, _). split; [|by apply elem_of_map_to_list]. done. }
  assert (Hat : ∀ a b, (a, b) ∈ ids → ∃ from to, stored from ∧ stored to ∧ ID from = a ∧ ID to = b
      ∧ at_ (a, b) = mkBoost (Some from) (Some to) (i32 (shared env p t enabled a b * choice_weight env))).
  { intros a b [Hne Hsh]%Hids. destruct (shared_stored a b Ht Hsh) as (from & to & [? Hf] & [? Ho] & <- & <-). exists from, to.
    split_and!; try done. unfold at_. cbn [fst snd]. rewrite Hf, Ho. unfold w. rewrite boost_weights_lookup, decide_True by done. done. }
  exists (at_ <$> ids). split_and!.
  - apply mapM_Ret. apply Forall2_fmap_r, Forall_Forall2_diag, Forall_forall. intros [a b] Hin. cbn [fst snd].
    destruct (Hat a b Hin) as (from & to & [? Hf] & [? Ho] & <- & <- & E). unfold index. rewrite !decide_True, Hf, Ho by done. cbn.
    unfold at_. cbn. by rewrite Hf, Ho.
  - exists ids. split; [|apply sort_pairs_increasing, NoDup_fst_map_to_list]. rewrite <-list_fmap_compose. apply list_fmap_ext.
    intros i [a b] Hin%list_elem_of_lookup_2. destruct (Hat a b Hin) as (from & to & _ & _ & <- & <- & E). unfold compose. by rewrite E.
  - intros bo. rewrite list_elem_of_fmap. split.
    + intros ([a b] & -> & Hin). destruct (Hat a b Hin) as (from & to & ? & ? & <- & <- & ->). apply Hids in Hin as [? ?]. by exists from, to.
    + intros (from & to & [? Hf] & [? Ho] & Hne & Hsh & ->). exists (ID from, ID to). split; [|by apply Hids].
      unfold at_. cbn [fst snd]. rewrite Hf, Ho. unfold w. rewrite boost_weights_lookup, decide_True by done. done.
Qed.
End boosts.

Definition bx_target : Target := mkTarget 4096 4096 0 [cx_open; cx_close; cx_readv]
  {["open"%string := cx_open; "close"%string := cx_close; "readv"%string := cx_readv]} ∅ [].
Definition bx_planner : Planner := finish_load (mkRowAudit 4 0 0 0 0 0)
  {["open"%string := {[7 := sample_param "kernel.a" 7; 8 := sample_param "kernel.b" 8]};
    "readv"%string := {[7 := sample_param "kernel.a" 7; 8 := sample_param "kernel.b" 8]};
    "close"%string := {[9 := sample_param "kernel.c" 9]}]}.
Lemma boosts_witness :
  RelationChoiceBoostsFromEnv (λ _, "") (Some bx_planner) (Some bx_target) None
    = Ret [mkBoost (Some cx_open) (Some cx_readv) 6; mkBoost (Some cx_readv) (Some cx_open) 6]
  ∧ (∃ l, RelationChoiceBoostsFromEnv (λ _, "") (Some bx_planner) (Some bx_target) None = Ret l
      ∧ ∀ b, b ∈ l ↔ ∃ from to, stored bx_target from ∧ stored bx_target to ∧ ID from ≠ ID to
          ∧ 0 < shared (λ _, "") bx_planner bx_target None (ID from) (ID to)
          ∧ b = mkBoost (Some from) (Some to) (i32 (shared (λ _, "") bx_planner bx_target None (ID from) (ID to) * 3))).
Proof.
  split; [vm_compute; reflexivity|].
  destruct (boosts_spec (λ _, "") bx_planner bx_target None) as (l & E & _ & H).
  - vm_compute. reflexivity.
  - intros name meta H. unfold bx_target in H. cbn [SyscallMap] in H.
    rewrite !lookup_insert_Some, lookup_singleton_Some in H.
    destruct H as [[_ <-]|[_ [[_ <-]|[_ [_ <-]]]]]; split; [vm_compute; discriminate|reflexivity|vm_compute; discriminate|reflexivity|vm_compute; discriminate|reflexivity].
  - exists l. split; [exact E|exact H].
Defined.
