(* ===== verification/ArgGraph.v ===== *)
(** * The graph of result arguments, and cloning (src/prog/clone.go)

    Result arguments point to the argument they use and back to the arguments
    that use them, across calls.  While such an object is being changed it
    lives in a [heap] keyed by its identity; [refresh_prog] writes the objects
    back into the trees.  Programs do not share arguments, so identities only
    have to be fresh with respect to the program at hand. *)

From S2P Require Import Prelude GoStrings Prog.

Abbreviation heap := (gmap argid ResultArg).
Definition rid (r : ResultArg) : argid := arg_id (res_common r).

(** ** Trees *)

(** All identities and all result arguments of a tree, outer ones first. *)
Fixpoint arg_ids (a : Arg) : list argid :=
  aid a ::
    match a with
    | PointerArg _ _ _ (Some x) => arg_ids x
    | GroupArg _ l => concat (arg_ids <$> l)
    | UnionArg _ o _ _ => arg_ids o
    | _ => []
    end.
Fixpoint arg_results (a : Arg) : list ResultArg :=
  match a with
  | PointerArg _ _ _ (Some x) => arg_results x
  | GroupArg _ l => concat (arg_results <$> l)
  | UnionArg _ o _ _ => arg_results o
  | AResult r => [r]
  | _ => []
  end.
(** The roots of a call: its return value, then its arguments. *)
Definition call_roots (c : Call) : list Arg := option_list (AResult <$> CRet c) ++ Args c.
Definition calls_roots (l : list (option Call)) : list Arg := concat ((λ c, from_option call_roots [] c) <$> l).
Definition roots_ids (l : list Arg) : list argid := concat (arg_ids <$> l).
Definition roots_results (l : list Arg) : list ResultArg := concat (arg_results <$> l).
Definition prog_ids (p : Prog) : list argid := roots_ids (calls_roots (Calls p)).
Definition prog_results (p : Prog) : list ResultArg := roots_results (calls_roots (Calls p)).

Lemma calls_roots_app l k : calls_roots (l ++ k) = calls_roots l ++ calls_roots k.
Proof. unfold calls_roots. by rewrite fmap_app, concat_app. Qed.
Lemma roots_ids_app l k : roots_ids (l ++ k) = roots_ids l ++ roots_ids k.
Proof. unfold roots_ids. by rewrite fmap_app, concat_app. Qed.
Lemma roots_results_app l k : roots_results (l ++ k) = roots_results l ++ roots_results k.
Proof. unfold roots_results. by rewrite fmap_app, concat_app. Qed.

(** Changing every result argument of a tree. *)
Fixpoint map_results (f : ResultArg → ResultArg) (a : Arg) : Arg :=
  match a with
  | PointerArg c addr vma (Some x) => PointerArg c addr vma (Some (map_results f x))
  | GroupArg c l => GroupArg c (map_results f <$> l)
  | UnionArg c o i t => UnionArg c (map_results f o) i t
  | AResult r => AResult (f r)
  | _ => a
  end.
Definition map_call_results (f : ResultArg → ResultArg) (c : Call) : Call :=
  mkCall (Meta c) (map_results f <$> Args c) (f <$> CRet c) (Props c) (Comment c).
Definition map_calls_results (f : ResultArg → ResultArg) (l : list (option Call)) : list (option Call) :=
  (λ c : option Call, map_call_results f <$> c) <$> l.
Definition set_calls (p : Prog) (l : list (option Call)) : Prog := mkProg l (Comments p) (isUnsafe p).

(** The objects of a program, and the program with its objects up to date. *)
Definition objects (p : Prog) : heap := list_to_map ((λ r, (rid r, r)) <$> prog_results p).
Definition current (h : heap) (r : ResultArg) : ResultArg := default r (h !! rid r).
Definition refresh_calls (h : heap) (l : list (option Call)) : list (option Call) := map_calls_results (current h) l.

(** An identity no argument of the program has. *)
Definition fresh_id (p : Prog) : argid := foldr Z.max 0 (prog_ids p) + 1.

(** ** Cloning *)

(** [cl_new] is [newargs]; [None] is the nil map. *)
Record clone_state := mkClone { cl_next : argid; cl_new : option (gmap argid argid); cl_heap : heap }.

Definition set_id (c : ArgCommon) (i : argid) : ArgCommon := mkArgCommon i (ref c) (arg_dir c).
Definition alloc (s : clone_state) : argid * clone_state :=
  (cl_next s, mkClone (cl_next s + 1) (cl_new s) (cl_heap s)).
Definition set_uses (r : ResultArg) (u : gset argid) : ResultArg :=
  mkResultArg (res_common r) (res_Res r) (OpDiv r) (OpAdd r) (res_Val r) u.

(** [r.uses[a1] = true]; nil when there is no such object. *)
Definition note_use (h : heap) (r i : argid) : outcome heap :=
  match h !! r with
  | Some o => Ret (<[r := set_uses o ({[i]} ∪ uses o)]> h)
  | None => Panic
  end.
Definition clone_result (r : ResultArg) (s : clone_state) : outcome (ResultArg * clone_state) :=
  let '(i, s) := alloc s in
  '(res, h) ←
    match res_Res r with
    | None => Ret (None, cl_heap s)
    | Some x =>
        y ← match cl_new s with
            | None => Ret x
            | Some m => match m !! x with Some y => Ret y | None => Panic end
            end;
        h ← note_use (cl_heap s) y i;
        Ret (Some y, h)
    end;
  let a1 := mkResultArg (set_id (res_common r) i) res (OpDiv r) (OpAdd r) (res_Val r) ∅ in
  Ret (a1, mkClone (cl_next s) (<[rid r := i]> <$> cl_new s) (<[i := a1]> h)).
Fixpoint clone (a : Arg) (s : clone_state) : outcome (Arg * clone_state) :=
  match a with
  | ConstArg c v => let '(i, s) := alloc s in Ret (ConstArg (set_id c i) v, s)
  | PointerArg c addr vma res =>
      let '(i, s) := alloc s in
      match res with
      | None => Ret (PointerArg (set_id c i) addr vma None, s)
      | Some x => '(x, s) ← clone x s; Ret (PointerArg (set_id c i) addr vma (Some x), s)
      end
  | DataArg c d n => let '(i, s) := alloc s in Ret (DataArg (set_id c i) d n, s)
  | GroupArg c l =>
      let '(i, s) := alloc s in
      '(l, s) ← (fix go (l : list Arg) (s : clone_state) : outcome (list Arg * clone_state) :=
                   match l with
                   | [] => Ret ([], s)
                   | x :: l => '(x, s) ← clone x s; '(l, s) ← go l s; Ret (x :: l, s)
                   end) l s;
      Ret (GroupArg (set_id c i) l, s)
  | UnionArg c o ix t =>
      let '(i, s) := alloc s in
      '(o, s) ← clone o s; Ret (UnionArg (set_id c i) o ix t, s)
  | AResult r => '(r, s) ← clone_result r s; Ret (AResult r, s)
  end.
Fixpoint clone_args (l : list Arg) (s : clone_state) : outcome (list Arg * clone_state) :=
  match l with
  | [] => Ret ([], s)
  | x :: l => '(x, s) ← clone x s; '(l, s) ← clone_args l s; Ret (x :: l, s)
  end.

(** The comment of a call is not copied. *)
Definition cloneCall (c : Call) (s : clone_state) : outcome (Call * clone_state) :=
  '(ret, s) ← match CRet c with
              | None => Ret (None, s)
              | Some r => '(r, s) ← clone_result r s; Ret (Some r, s)
              end;
  '(args, s) ← clone_args (Args c) s;
  Ret (mkCall (Meta c) args ret (Props c) "", s).
(** A nil call panics. *)
Fixpoint cloneCalls (l : list (option Call)) (s : clone_state) : outcome (list (option Call) * clone_state) :=
  match l with
  | [] => Ret ([], s)
  | None :: _ => Panic
  | Some c :: l => '(c, s) ← cloneCall c s; '(l, s) ← cloneCalls l s; Ret (Some c :: l, s)
  end.
(** Neither are the comments of the program. *)
Definition Clone (p : Prog) : outcome Prog :=
  if isUnsafe p then Panic
  else
    '(l, s) ← cloneCalls (Calls p) (mkClone (fresh_id p) (Some ∅) (objects p));
    Ret (mkProg (refresh_calls (cl_heap s) l) [] false).

(** ** Well-formed graphs *)

(** The result arguments that use [x], in a list of them. *)
Definition users (l : list ResultArg) (x : argid) : gset argid := list_to_set (rid <$> filter (λ r, res_Res r = Some x) l).

(** Arguments are distinct objects, a result argument uses an earlier one, and
    [uses] is the inverse of [Res]. *)
Record graph_ok (p : Prog) : Prop := {
  go_calls : Forall is_Some (Calls p);
  go_ids : NoDup (prog_ids p);
  go_order : ∀ l1 r l2 x, prog_results p = l1 ++ r :: l2 → res_Res r = Some x → x ∈ rid <$> l1;
  go_uses : ∀ r, r ∈ prog_results p → uses r = users (prog_results p) (rid r)
}.

Lemma elem_of_users l x u : u ∈ users l x ↔ ∃ r, r ∈ l ∧ rid r = u ∧ res_Res r = Some x.
Proof.
  unfold users. rewrite elem_of_list_to_set, list_elem_of_fmap. split.
  - intros (r & -> & [? ?]%list_elem_of_filter). eauto.
  - intros (r & ? & <- & ?). exists r. split; [done|]. by apply list_elem_of_filter.
Qed.
Lemma users_app l k x : users (l ++ k) x = users l x ∪ users k x.
Proof. unfold users. by rewrite filter_app, fmap_app, list_to_set_app_L. Qed.

(** A computable form. *)
Fixpoint ordered_from (seen : gset argid) (l : list ResultArg) : bool :=
  match l with
  | [] => true
  | r :: l => match res_Res r with Some x => bool_decide (x ∈ seen) | None => true end && ordered_from ({[rid r]} ∪ seen) l
  end.
Definition graph_okb (p : Prog) : bool :=
  forallb (λ c : option Call, bool_decide (is_Some c)) (Calls p) && bool_decide (NoDup (prog_ids p)) && ordered_from ∅ (prog_results p)
  && forallb (λ r, bool_decide (uses r = users (prog_results p) (rid r))) (prog_results p).
Lemma ordered_from_spec seen l : ordered_from seen l = true →
  ∀ l1 r l2 x, l = l1 ++ r :: l2 → res_Res r = Some x → x ∈ seen ∪ list_to_set (rid <$> l1).
Proof.
  revert seen. induction l as [|r0 l IH]; intros seen H l1 r l2 x E Hx; [by destruct l1|]. cbn [ordered_from] in H.
  apply andb_true_iff in H as [H0 H]. destruct l1 as [|r1 l1]; injection E as -> E.
  - rewrite Hx in H0. apply bool_decide_eq_true in H0. set_solver.
  - specialize (IH _ H l1 r l2 x E Hx). set_solver.
Qed.
Lemma graph_okb_spec p : graph_okb p = true → graph_ok p.
Proof.
  unfold graph_okb. rewrite !andb_true_iff, !forallb_forall. intros [[[H1 H2] H3] H4]. apply bool_decide_eq_true in H2. constructor.
  - apply Forall_forall. intros c Hc. apply list_elem_of_In in Hc. by apply H1, bool_decide_eq_true in Hc.
  - done.
  - intros l1 r l2 x E Hx. pose proof (ordered_from_spec ∅ _ H3 l1 r l2 x E Hx). set_solver.
  - intros r Hr. apply list_elem_of_In in Hr. by apply H4, bool_decide_eq_true in Hr.
Qed.

(** ** Copies *)

Lemma concat_fmap_fmap {A B C} (g : A → list B) (h : B → C) (k : A → list C) (l : list A) :
  (∀ x, x ∈ l → k x = h <$> g x) → concat (k <$> l) = h <$> concat (g <$> l).
Proof.
  intros H. induction l as [|x l IH]; [done|]. cbn [fmap list_fmap concat]. rewrite fmap_app, H by (by left).
  f_equal. apply IH. intros y Hy. apply H. by right.
Qed.
Lemma elem_of_concat {A} (x : A) (ls : list (list A)) : x ∈ concat ls ↔ ∃ l, x ∈ l ∧ l ∈ ls.
Proof.
  rewrite <-(list_elem_of_join x ls). assert (mjoin ls = concat ls) as ->; [|done].
  induction ls as [|l ls IH]; [done|]. cbn. by rewrite <-IH.
Qed.

Section copies.
(** Identities are renamed by [f], result arguments become [out]. *)
Context (f : argid → argid) (out : ResultArg → ResultArg).
Definition rename_common (c : ArgCommon) : ArgCommon := set_id c (f (arg_id c)).
Fixpoint copy_arg (a : Arg) : Arg :=
  match a with
  | ConstArg c v => ConstArg (rename_common c) v
  | PointerArg c addr vma res =>
      PointerArg (rename_common c) addr vma (match res with Some x => Some (copy_arg x) | None => None end)
  | DataArg c d n => DataArg (rename_common c) d n
  | GroupArg c l => GroupArg (rename_common c) (copy_arg <$> l)
  | UnionArg c o ix t => UnionArg (rename_common c) (copy_arg o) ix t
  | AResult r => AResult (out r)
  end.
(** Without the comment. *)
Definition copy_call (c : Call) : Call := mkCall (Meta c) (copy_arg <$> Args c) (out <$> CRet c) (Props c) "".
Definition copy_calls (l : list (option Call)) : list (option Call) := (λ c : option Call, copy_call <$> c) <$> l.

Lemma arg_results_copy a : arg_results (copy_arg a) = out <$> arg_results a.
Proof.
  induction a as [c v|c ad v r Hr|c d s|c l Hl|c o i t Ho|r] using Arg_nested_ind; cbn [copy_arg arg_results]; try done.
  - by destruct r as [x|].
  - rewrite <-list_fmap_compose. apply concat_fmap_fmap. by apply Forall_forall.
Qed.
Lemma calls_roots_copy l : calls_roots (copy_calls l) = copy_arg <$> calls_roots l.
Proof.
  unfold calls_roots, copy_calls. rewrite <-list_fmap_compose. apply concat_fmap_fmap. intros [c|] _; [|done].
  cbn. unfold call_roots. rewrite fmap_app. cbn. f_equal. by destruct (CRet c).
Qed.
Lemma results_copy l : roots_results (calls_roots (copy_calls l)) = out <$> roots_results (calls_roots l).
Proof.
  unfold roots_results. rewrite calls_roots_copy, <-list_fmap_compose. apply concat_fmap_fmap. intros x _. apply arg_results_copy.
Qed.
Context (Hout : ∀ r, rid (out r) = f (rid r)).
Lemma arg_ids_copy a : arg_ids (copy_arg a) = f <$> arg_ids a.
Proof.
  induction a as [c v|c ad v r Hr|c d s|c l Hl|c o i t Ho|r] using Arg_nested_ind; cbn [copy_arg arg_ids]; try done.
  - destruct r as [x|]; [|done]. cbn in Hr |- *. by rewrite Hr.
  - cbn [fmap list_fmap]. f_equal. rewrite <-list_fmap_compose. apply concat_fmap_fmap. by apply Forall_forall.
  - cbn [fmap list_fmap]. f_equal. done.
  - exact (f_equal (λ x, [x]) (Hout r)).
Qed.
Lemma ids_copy l : roots_ids (calls_roots (copy_calls l)) = f <$> roots_ids (calls_roots l).
Proof.
  unfold roots_ids. rewrite calls_roots_copy, <-list_fmap_compose. apply concat_fmap_fmap. intros x _. apply arg_ids_copy.
Qed.
End copies.

Lemma map_results_copy f g out a : map_results g (copy_arg f out a) = copy_arg f (g ∘ out) a.
Proof.
  induction a as [c v|c ad v r Hr|c d s|c l Hl|c o i t Ho|r] using Arg_nested_ind; cbn [copy_arg map_results]; try done.
  - destruct r as [x|]; [|done]. cbn in Hr |- *. by rewrite Hr.
  - f_equal. rewrite <-list_fmap_compose. apply list_fmap_ext. intros i x Hx%list_elem_of_lookup_2. rewrite Forall_forall in Hl. by apply Hl.
  - by rewrite Ho.
Qed.
Lemma map_call_copy f g out c : map_call_results g (copy_call f out c) = copy_call f (g ∘ out) c.
Proof.
  unfold map_call_results, copy_call. cbn. f_equal; [|by destruct (CRet c)]. rewrite <-list_fmap_compose. apply list_fmap_ext.
  intros j a _. apply map_results_copy.
Qed.
Lemma map_calls_copy f g out l : map_calls_results g (copy_calls f out l) = copy_calls f (g ∘ out) l.
Proof.
  unfold map_calls_results, copy_calls. rewrite <-list_fmap_compose. apply list_fmap_ext. intros i [c|] _; [|done]. cbn. f_equal. apply map_call_copy.
Qed.
Lemma copy_arg_ext f out out' a : (∀ r, r ∈ arg_results a → out r = out' r) → copy_arg f out a = copy_arg f out' a.
Proof.
  induction a as [c v|c ad v r Hr|c d s|c l Hl|c o i t Ho|r] using Arg_nested_ind; cbn [copy_arg arg_results]; intros H; try done.
  - destruct r as [x|]; [|done]. cbn in Hr. by rewrite Hr.
  - f_equal. apply list_fmap_ext. intros i x Hx%list_elem_of_lookup_2. rewrite Forall_forall in Hl. apply (Hl x Hx). intros r Hr. apply H.
    apply elem_of_concat. exists (arg_results x). split; [done|]. apply list_elem_of_fmap. eauto.
  - by rewrite Ho.
  - f_equal. apply H. by left.
Qed.
Lemma elem_of_roots_results l r : r ∈ roots_results l ↔ ∃ a, a ∈ l ∧ r ∈ arg_results a.
Proof.
  unfold roots_results. rewrite elem_of_concat. split.
  - intros (k & Hr & (a & -> & Ha)%list_elem_of_fmap). eauto.
  - intros (a & Ha & Hr). exists (arg_results a). split; [done|]. apply list_elem_of_fmap. eauto.
Qed.
Lemma elem_of_calls_roots l a : a ∈ calls_roots l ↔ ∃ c, Some c ∈ l ∧ a ∈ call_roots c.
Proof.
  unfold calls_roots. rewrite elem_of_concat. split.
  - intros (k & Ha & ([c|] & -> & Hc)%list_elem_of_fmap); [eauto|by apply not_elem_of_nil in Ha].
  - intros (c & Hc & Ha). exists (call_roots c). split; [done|]. apply list_elem_of_fmap. by exists (Some c).
Qed.
Lemma copy_call_ext f out out' c : (∀ r, r ∈ roots_results (call_roots c) → out r = out' r) → copy_call f out c = copy_call f out' c.
Proof.
  intros H. assert (Hc : ∀ a, a ∈ call_roots c → ∀ r, r ∈ arg_results a → out r = out' r).
  { intros a Ha r Hr. apply H, elem_of_roots_results. eauto. }
  unfold copy_call. f_equal.
  - apply list_fmap_ext. intros j a Ha%list_elem_of_lookup_2. apply copy_arg_ext. intros r. apply Hc. unfold call_roots. apply elem_of_app. by right.
  - destruct (CRet c) as [r|] eqn:E; [|done]. cbn. f_equal. apply (Hc (AResult r)); [|by left].
    unfold call_roots. rewrite E. by left.
Qed.
Lemma results_of_calls l r : r ∈ roots_results (calls_roots l) ↔ ∃ c, Some c ∈ l ∧ r ∈ roots_results (call_roots c).
Proof.
  rewrite elem_of_roots_results. setoid_rewrite elem_of_calls_roots. setoid_rewrite elem_of_roots_results. naive_solver.
Qed.
Lemma copy_calls_ext f out out' l : (∀ r, r ∈ roots_results (calls_roots l) → out r = out' r) → copy_calls f out l = copy_calls f out' l.
Proof.
  intros H. unfold copy_calls. apply list_fmap_ext. intros i [c|] Hc%list_elem_of_lookup_2; [|done]. cbn. f_equal. apply copy_call_ext.
  intros r Hr. apply H, results_of_calls. eauto.
Qed.

(** ** Renaming *)

Section rename.
Context (f : argid → argid).
Definition rename_result (r : ResultArg) : ResultArg :=
  mkResultArg (rename_common f (res_common r)) (f <$> res_Res r) (OpDiv r) (OpAdd r) (res_Val r) (set_map f (uses r)).
(** A copy of a program with other identities and without comments. *)
Definition rename_arg (a : Arg) : Arg := copy_arg f rename_result a.
Definition rename_prog (p : Prog) : Prog := mkProg (copy_calls f rename_result (Calls p)) [] false.
Lemma calls_roots_rename p : calls_roots (Calls (rename_prog p)) = rename_arg <$> calls_roots (Calls p).
Proof. apply calls_roots_copy. Qed.
Lemma prog_ids_rename p : prog_ids (rename_prog p) = f <$> prog_ids p.
Proof. by apply ids_copy. Qed.
Lemma prog_results_rename p : prog_results (rename_prog p) = rename_result <$> prog_results p.
Proof. apply results_copy. Qed.
End rename.

Lemma arg_results_ids a : rid <$> arg_results a `sublist_of` arg_ids a.
Proof.
  induction a as [c v|c ad v r Hr|c d s|c l Hl|c o i t Ho|r] using Arg_nested_ind; cbn [arg_ids arg_results].
  - apply sublist_nil_l.
  - destruct r; [by apply sublist_cons|apply sublist_nil_l].
  - apply sublist_nil_l.
  - apply sublist_cons. induction Hl as [|x l Hx _ IH]; [done|]. cbn [fmap list_fmap concat]. rewrite fmap_app. by apply sublist_app.
  - by apply sublist_cons.
  - done.
Qed.
Lemma roots_results_ids l : rid <$> roots_results l `sublist_of` roots_ids l.
Proof.
  unfold roots_results, roots_ids. induction l as [|x l IH]; [done|]. cbn [fmap list_fmap concat]. rewrite fmap_app.
  apply sublist_app; [apply arg_results_ids|done].
Qed.
Lemma graph_ok_NoDup p : graph_ok p → NoDup (rid <$> prog_results p).
Proof. intros H. eapply sublist_NoDup; [apply H|apply roots_results_ids]. Qed.
Lemma result_id p r : r ∈ prog_results p → rid r ∈ prog_ids p.
Proof.
  intros Hr. assert (H : rid r ∈ rid <$> prog_results p) by (apply list_elem_of_fmap; eauto).
  eapply elem_of_submseteq; [done|]. apply sublist_submseteq, roots_results_ids.
Qed.
Lemma rid_inj (l : list ResultArg) r r' : NoDup (rid <$> l) → r ∈ l → r' ∈ l → rid r = rid r' → r = r'.
Proof.
  intros Hl [i Hi]%list_elem_of_lookup [j Hj]%list_elem_of_lookup E.
  assert (i = j) as -> by (eapply (NoDup_lookup (rid <$> l)); [done|by rewrite list_lookup_fmap, Hi|by rewrite list_lookup_fmap, Hj, E]).
  congruence.
Qed.

Lemma fresh_id_gt p x : x ∈ prog_ids p → x < fresh_id p.
Proof.
  unfold fresh_id. induction (prog_ids p) as [|y l IH]; [by intros ?%not_elem_of_nil|].
  rewrite elem_of_cons. cbn [foldr]. intros [->|H]; [lia|]. specialize (IH H). lia.
Qed.

(** A renaming that is injective on the program keeps it well-formed. *)
Lemma rename_graph_ok f p :
  (∀ x y, x ∈ prog_ids p → y ∈ prog_ids p → f x = f y → x = y) → graph_ok p → graph_ok (rename_prog f p).
Proof.
  intros Hf Hp. constructor.
  - cbn. apply Forall_fmap, (Forall_impl _ _ _ (go_calls p Hp)). intros c [x ->]. cbn. eauto.
  - rewrite prog_ids_rename. apply NoDup_fmap_2_strong; [|apply Hp]. intros x y Hx Hy. by apply Hf.
  - intros l1 r l2 x. rewrite prog_results_rename. intros (k1 & k2 & -> & E & Hp')%fmap_app_inv Hx.
    destruct k2 as [|r0 k2]; [done|]. injection E as -> ->. cbn in Hx. destruct (res_Res r0) as [x0|] eqn:E0; [|done]. injection Hx as <-.
    pose proof (go_order p Hp k1 r0 k2 x0) as H. rewrite <-list_fmap_compose. apply list_elem_of_fmap in H as (r' & -> & Hr'); [|done..].
    change (f (rid r')) with ((rid ∘ rename_result f) r'). apply list_elem_of_fmap. eauto.
  - intros r. rewrite prog_results_rename. intros (r0 & -> & Hr0)%list_elem_of_fmap. cbn [rename_result uses].
    rewrite (go_uses p Hp r0 Hr0). apply set_eq. intros u. rewrite elem_of_map, elem_of_users. split.
    + intros (u0 & -> & (r' & Hr' & <- & E)%elem_of_users). exists (rename_result f r'). split_and!; [apply list_elem_of_fmap; eauto|done|].
      cbn. by rewrite E.
    + intros (r' & (r1 & -> & Hr1)%list_elem_of_fmap & <- & E). cbn in E. destruct (res_Res r1) as [x|] eqn:Ex; [|done]. injection E as E.
      exists (rid r1). split; [done|]. apply elem_of_users. exists r1. split_and!; [done|done|]. rewrite Ex. f_equal. apply Hf; [|by apply result_id|done].
      apply list_elem_of_lookup in Hr1 as [i Hi]. apply take_drop_middle in Hi.
      pose proof (go_order p Hp _ _ _ x (eq_sym Hi) Ex) as H. apply list_elem_of_fmap in H as (r2 & -> & Hr2%list_elem_of_lookup).
      destruct Hr2 as [j Hj]. apply lookup_take_Some in Hj as [Hj _]. apply result_id. by apply list_elem_of_lookup_2 in Hj.
Qed.

(** ** Cloning is renaming *)

Section cloning.
Context (f : argid → argid).

(** What is there once the result arguments [l] have been cloned. *)
Record cloned (l : list ResultArg) (s : clone_state) : Prop := {
  cn_new : ∃ m, cl_new s = Some m ∧ ∀ r, r ∈ l → m !! rid r = Some (f (rid r));
  cn_obj : ∀ r, r ∈ l → cl_heap s !! f (rid r) = Some (set_uses (rename_result f r) (set_map f (users l (rid r))));
  cn_next : ∀ r, r ∈ l → f (rid r) < cl_next s
}.
(** When a result argument can be cloned after [l]. *)
Definition clonable (l : list ResultArg) (r : ResultArg) : Prop :=
  (∀ x, res_Res r = Some x → x ∈ rid <$> l) ∧ (∀ r', r' ∈ l → res_Res r' ≠ Some (rid r))
  ∧ (∀ r1 r2, r1 ∈ l → r2 ∈ l → f (rid r1) = f (rid r2) → rid r1 = rid r2).

Lemma clone_result_step l r s : cloned l s → clonable l r → f (rid r) = cl_next s →
  ∃ s', clone_result r s = Ret (set_uses (rename_result f r) ∅, s') ∧ cloned (l ++ [r]) s' ∧ cl_next s' = cl_next s + 1.
Proof.
  intros [(m & Em & Hm) Ho Hn] (Hx & Hr & Hinj) Ei. unfold clone_result, alloc. cbn [cl_next cl_new cl_heap]. rewrite Em.
  set (i := cl_next s) in *. set (a1 := set_uses (rename_result f r) ∅).
  assert (Ha1 : ∀ res, res = f <$> res_Res r → mkResultArg (set_id (res_common r) i) res (OpDiv r) (OpAdd r) (res_Val r) ∅ = a1).
  { intros res ->. unfold a1, set_uses, rename_result, rename_common. cbn. do 2 f_equal. by rewrite <-Ei. }
  assert (Hu : users (l ++ [r]) (rid r) = ∅).
  { apply set_eq. intros u. rewrite elem_of_users. split; [|set_solver]. intros (r' & [Hr'|Hr'%list_elem_of_singleton]%elem_of_app & _ & E).
    - by apply Hr in Hr'.
    - subst r'. apply Hx in E. apply list_elem_of_fmap in E as (r' & E & Hr'). apply Hn in Hr' as Hlt. rewrite <-E in Hlt. lia. }
  assert (Hnew : ∀ h, (∀ r0, r0 ∈ l → h !! f (rid r0) = Some (set_uses (rename_result f r0) (set_map f (users (l ++ [r]) (rid r0))))) →
    cloned (l ++ [r]) (mkClone (i + 1) (Some (<[rid r := i]> m)) (<[i := a1]> h))).
  { intros h Hh. constructor; cbn [cl_next cl_new cl_heap].
    - eexists. split; [done|]. intros r0 [H0| ->%list_elem_of_singleton]%elem_of_app; [|by rewrite lookup_insert_eq, Ei].
      destruct (decide (rid r0 = rid r)) as [->|Hne]; [by rewrite lookup_insert_eq, Ei|]. rewrite lookup_insert_ne by done. by apply Hm.
    - intros r0 [H0| ->%list_elem_of_singleton]%elem_of_app.
      + specialize (Hn r0 H0). rewrite lookup_insert_ne by lia. by apply Hh.
      + rewrite Ei, lookup_insert_eq, Hu, set_map_empty. done.
    - intros r0 [H0| ->%list_elem_of_singleton]%elem_of_app; [specialize (Hn r0 H0)|]; lia. }
  destruct (res_Res r) as [x|] eqn:Ex.
  - specialize (Hx x eq_refl). apply list_elem_of_fmap in Hx as (rx & -> & Hrx).
    rewrite (Hm rx Hrx). cbn [mbind outcome_bind]. unfold note_use. rewrite (Ho rx Hrx). cbn [mbind outcome_bind].
    rewrite Ha1 by done. eexists. split; [done|]. split; [|done]. cbn [fmap option_fmap option_map]. apply Hnew. intros r0 H0.
    destruct (decide (f (rid r0) = f (rid rx))) as [E|Hne].
    + pose proof (Hinj _ _ H0 Hrx E) as E'. rewrite E, lookup_insert_eq. rewrite users_app, set_map_union_L, E'. f_equal.
      assert (users [r] (rid rx) = {[rid r]}) as ->.
      { apply set_eq. intros u. rewrite elem_of_users, elem_of_singleton. split; [|intros ->; exists r; split_and!; [by left|done|done]].
        intros (r' & ->%list_elem_of_singleton & <- & _). done. }
      pose proof (Ho r0 H0) as H1. rewrite E, (Ho rx Hrx), E' in H1. injection H1 as H1.
      rewrite set_map_singleton_L, Ei, (union_comm_L (set_map f _)). unfold set_uses, rename_result, rename_common, set_id in *. cbn in *. congruence.
    + rewrite lookup_insert_ne by done. rewrite (Ho r0 H0). do 2 f_equal. rewrite users_app.
      replace (users [r] (rid r0)) with (∅ : gset argid); [by rewrite union_empty_r_L|]. symmetry. apply set_eq. intros u. rewrite elem_of_users.
      split; [|set_solver]. intros (r' & ->%list_elem_of_singleton & _ & E). rewrite Ex in E. injection E as E. by rewrite E in Hne.
  - cbn [mbind outcome_bind]. rewrite Ha1 by done. eexists. split; [done|]. split; [|done]. apply Hnew. intros r0 H0. rewrite (Ho r0 H0).
    do 2 f_equal. rewrite users_app. replace (users [r] (rid r0)) with (∅ : gset argid); [by rewrite union_empty_r_L|]. symmetry. apply set_eq. intros u.
    rewrite elem_of_users. split; [|set_solver]. intros (r' & ->%list_elem_of_singleton & _ & E). congruence.
Qed.

Lemma cloned_alloc l s : cloned l s → cloned l (alloc s).2.
Proof. intros [H1 H2 H3]. constructor; [done|done|]. intros r Hr. cbn. specialize (H3 r Hr). lia. Qed.
Definition no_uses (r : ResultArg) : ResultArg := set_uses r ∅.
End cloning.

(** *** Copying trees

    [out] is the copy of a result argument, [inv] what holds once some have
    been copied. *)

Section copying.
Context (f : argid → argid) (out : ResultArg → ResultArg).
Context (inv : list ResultArg → clone_state → Prop) (may : list ResultArg → ResultArg → Prop).
Context (Hstep : ∀ l r s, inv l s → may l r → f (rid r) = cl_next s →
  ∃ s', clone_result r s = Ret (out r, s') ∧ inv (l ++ [r]) s' ∧ cl_next s' = cl_next s + 1).
Context (Halloc : ∀ l s, inv l s → inv l (alloc s).2).

(** A list of result arguments that can be cloned after [l]. *)
Fixpoint linked (l k : list ResultArg) : Prop :=
  match k with
  | [] => True
  | r :: k => may l r ∧ linked (l ++ [r]) k
  end.
Lemma linked_app l k1 k2 : linked l (k1 ++ k2) ↔ linked l k1 ∧ linked (l ++ k1) k2.
Proof.
  revert l. induction k1 as [|r k1 IH]; intros l; cbn [linked app]; [by rewrite app_nil_r; tauto|].
  rewrite IH, <-app_assoc. cbn [app]. tauto.
Qed.

(** What cloning [a] in state [s] after [l] achieves. *)
Definition numbered (ids : list argid) (n : argid) : Prop := ∀ k x, ids !! k = Some x → f x = n + Z.of_nat k.
Lemma numbered_app ids1 ids2 n : numbered (ids1 ++ ids2) n ↔ numbered ids1 n ∧ numbered ids2 (n + len ids1).
Proof.
  unfold numbered, len. split.
  - intros H. split; intros k x Hk.
    + apply H. by apply lookup_app_l_Some.
    + rewrite (H (length ids1 + k)%nat x); [lia|]. rewrite lookup_app_r by lia. by replace (length ids1 + k - length ids1)%nat with k by lia.
  - intros [H1 H2] k x [Hk|[Hl Hk]]%lookup_app_Some; [by apply H1|]. rewrite (H2 _ _ Hk). lia.
Qed.

Lemma clone_go l s :
  (fix go (l : list Arg) (s : clone_state) : outcome (list Arg * clone_state) :=
     match l with
     | [] => Ret ([], s)
     | x :: l => '(x, s) ← clone x s; '(l, s) ← go l s; Ret (x :: l, s)
     end) l s = clone_args l s.
Proof. revert s. induction l as [|x l IH]; intros s; [done|]. cbn [clone_args]. destruct (clone x s) as [[y s1]|]; [|done]. cbn. by rewrite IH. Qed.

Definition clones (a : Arg) : Prop := ∀ l s, inv l s → linked l (arg_results a) → numbered (arg_ids a) (cl_next s) →
  ∃ s', clone a s = Ret (copy_arg f out a, s') ∧ inv (l ++ arg_results a) s' ∧ cl_next s' = cl_next s + len (arg_ids a).

Lemma clone_args_spec args : Forall clones args → ∀ l s, inv l s → linked l (roots_results args) → numbered (roots_ids args) (cl_next s) →
  ∃ s', clone_args args s = Ret (copy_arg f out <$> args, s')
    ∧ inv (l ++ roots_results args) s' ∧ cl_next s' = cl_next s + len (roots_ids args).
Proof.
  induction 1 as [|a args Ha _ IH]; intros l s Hc Hl Hn.
  - exists s. split_and!; [done| |unfold len; cbn; lia]. cbn. by rewrite app_nil_r.
  - unfold roots_results, roots_ids in *. cbn [fmap list_fmap concat] in *. apply linked_app in Hl as [Hl1 Hl2]. apply numbered_app in Hn as [Hn1 Hn2].
    destruct (Ha l s Hc Hl1 Hn1) as (s1 & E1 & Hc1 & Hs1). rewrite <-Hs1 in Hn2. destruct (IH _ s1 Hc1 Hl2 Hn2) as (s2 & E2 & Hc2 & Hs2).
    exists s2. cbn [clone_args]. rewrite E1. cbn [mbind outcome_bind]. rewrite E2. split_and!; [done|by rewrite app_assoc|].
    unfold len in *. rewrite length_app. lia.
Qed.
Lemma numbered_cons x ids n : numbered (x :: ids) n ↔ f x = n ∧ numbered ids (n + 1).
Proof.
  rewrite (numbered_app [x] ids n : numbered (x :: ids) n ↔ _). split; intros [H1 H2]; (split; [|done]).
  - rewrite (H1 0%nat x) by done. lia.
  - intros [|k] y E; [injection E as <-; lia|done].
Qed.

Lemma clone_arg_spec a : clones a.
Proof.
  induction a as [c v|c ad v r Hr|c d n|c inner Hl|c o i t Ho|r] using Arg_nested_ind; intros l s Hc Hlk Hn.
  all: cbn [arg_ids] in Hn; apply numbered_cons in Hn as [Ei Hn]; pose proof (Halloc l s Hc) as Hc'; cbn [alloc snd] in Hc'.
  - exists (alloc s).2. change (f (arg_id c) = cl_next s) in Ei. cbn. rewrite app_nil_r. split_and!; [|done|unfold len; cbn; lia]. unfold rename_common. by rewrite Ei.
  - change (f (arg_id c) = cl_next s) in Ei. destruct r as [x|]; cbn [clone alloc].
    + destruct (Hr l _ Hc' Hlk) as (s1 & -> & Hc1 & Hs1); [done|]. cbn [mbind outcome_bind]. eexists. split; [|split; [exact Hc1|]].
      * cbn [copy_arg]. unfold rename_common. by rewrite Ei.
      * rewrite Hs1. cbn [cl_next arg_ids]. unfold len. cbn [length]. lia.
    + exists (alloc s).2. rewrite app_nil_r. split_and!; [|done|unfold len; cbn; lia]. cbn. unfold rename_common. by rewrite Ei.
  - exists (alloc s).2. change (f (arg_id c) = cl_next s) in Ei. cbn. rewrite app_nil_r. split_and!; [|done|unfold len; cbn; lia]. unfold rename_common. by rewrite Ei.
  - change (f (arg_id c) = cl_next s) in Ei. cbn [clone alloc]. rewrite clone_go. destruct (clone_args_spec inner Hl l _ Hc' Hlk) as (s1 & -> & Hc1 & Hs1); [done|].
    cbn [mbind outcome_bind]. eexists. split; [|split; [exact Hc1|]].
    + cbn [copy_arg]. unfold rename_common. by rewrite Ei.
    + rewrite Hs1. cbn [cl_next arg_ids]. unfold len, roots_ids. cbn [length]. lia.
  - change (f (arg_id c) = cl_next s) in Ei. cbn [clone alloc]. destruct (Ho l _ Hc' Hlk) as (s1 & -> & Hc1 & Hs1); [done|]. cbn [mbind outcome_bind]. eexists. split; [|split; [exact Hc1|]].
    + cbn [copy_arg]. unfold rename_common. by rewrite Ei.
    + rewrite Hs1. cbn [cl_next arg_ids]. unfold len. cbn [length]. lia.
  - destruct (Hstep l r s Hc (proj1 Hlk) Ei) as (s1 & E1 & Hc1 & Hs1). cbn [clone]. rewrite E1. cbn [mbind outcome_bind]. exists s1.
    split_and!; [done|done|]. rewrite Hs1. done.
Qed.
Lemma clone_call_spec c l s : inv l s → linked l (roots_results (call_roots c)) → numbered (roots_ids (call_roots c)) (cl_next s) →
  ∃ s', cloneCall c s = Ret (copy_call f out c, s')
    ∧ inv (l ++ roots_results (call_roots c)) s' ∧ cl_next s' = cl_next s + len (roots_ids (call_roots c)).
Proof.
  intros Hc Hl Hn. assert (E : Forall clones (call_roots c)) by (apply Forall_forall; intros; apply clone_arg_spec).
  destruct (clone_args_spec (call_roots c) E l s Hc Hl Hn) as (s' & E1 & Hc1 & Hs1). exists s'. split; [|done].
  unfold cloneCall, call_roots in *. unfold copy_call. cbn [Meta Args CRet Props Comment]. destruct (CRet c) as [r|].
  - change (option_list (AResult <$> Some r) ++ Args c) with (AResult r :: Args c) in *. cbn [clone_args clone fmap list_fmap] in E1. destruct (clone_result r s) as [[r1 s1]|]; cbn [mbind outcome_bind] in E1 |- *; [|done].
    destruct (clone_args (Args c) s1) as [[args s2]|]; cbn [mbind outcome_bind] in E1 |- *; [|done]. injection E1 as -> -> <-. done.
  - change (option_list (AResult <$> None) ++ Args c) with (Args c) in *. cbn [mbind outcome_bind]. rewrite E1. done.
Qed.
Lemma clone_calls_spec calls : Forall is_Some calls → ∀ l s, inv l s → linked l (roots_results (calls_roots calls)) →
  numbered (roots_ids (calls_roots calls)) (cl_next s) →
  ∃ s', cloneCalls calls s = Ret (copy_calls f out calls, s')
    ∧ inv (l ++ roots_results (calls_roots calls)) s'.
Proof.
  induction 1 as [|x calls [c ->] _ IH]; intros l s Hc Hl Hn.
  - exists s. split; [done|]. cbn. by rewrite app_nil_r.
  - unfold calls_roots, roots_results, roots_ids in *. cbn [fmap list_fmap concat from_option] in *. rewrite fmap_app, concat_app in Hl. rewrite fmap_app, concat_app in Hn. rewrite fmap_app, concat_app.
    apply linked_app in Hl as [Hl1 Hl2]. apply numbered_app in Hn as [Hn1 Hn2].
    destruct (clone_call_spec c l s Hc Hl1 Hn1) as (s1 & E1 & Hc1 & Hs1). unfold roots_ids in Hs1. rewrite <-Hs1 in Hn2.
    destruct (IH _ s1 Hc1 Hl2 Hn2) as (s2 & E2 & Hc2). exists s2. cbn [cloneCalls]. rewrite E1. cbn [mbind outcome_bind]. rewrite E2.
    split; [done|]. by rewrite app_assoc.
Qed.
End copying.

(** ** Writing the objects back *)


Lemma map_results_compose g h a : map_results g (map_results h a) = map_results (g ∘ h) a.
Proof.
  induction a as [c v|c ad v r Hr|c d s|c l Hl|c o i t Ho|r] using Arg_nested_ind; cbn [map_results]; try done.
  - destruct r as [x|]; [|done]. cbn in Hr |- *. by rewrite Hr.
  - f_equal. rewrite <-list_fmap_compose. apply list_fmap_ext. intros i x Hx%list_elem_of_lookup_2. rewrite Forall_forall in Hl. by apply Hl.
  - by rewrite Ho.
Qed.
Lemma map_results_ext g h a : (∀ r, r ∈ arg_results a → g r = h r) → map_results g a = map_results h a.
Proof.
  induction a as [c v|c ad v r Hr|c d s|c l Hl|c o i t Ho|r] using Arg_nested_ind; cbn [map_results arg_results]; intros H; try done.
  - destruct r as [x|]; [|done]. cbn in Hr. by rewrite Hr.
  - f_equal. apply list_fmap_ext. intros i x Hx%list_elem_of_lookup_2. rewrite Forall_forall in Hl. apply (Hl x Hx). intros r Hr. apply H.
    apply elem_of_concat. exists (arg_results x). split; [done|]. apply list_elem_of_fmap. eauto.
  - by rewrite Ho.
  - f_equal. apply H. by left.
Qed.
Lemma map_results_id a : map_results (λ r, r) a = a.
Proof.
  induction a as [c v|c ad v r Hr|c d s|c l Hl|c o i t Ho|r] using Arg_nested_ind; cbn [map_results]; try done.
  - destruct r as [x|]; [|done]. cbn in Hr. by rewrite Hr.
  - f_equal. induction Hl as [|x l Hx _ IH]; [done|]. cbn. by rewrite Hx, IH.
  - by rewrite Ho.
Qed.
Lemma map_call_results_ext g h c : (∀ r, r ∈ roots_results (call_roots c) → g r = h r) → map_call_results g c = map_call_results h c.
Proof.
  intros H. assert (Hc : ∀ a, a ∈ call_roots c → ∀ r, r ∈ arg_results a → g r = h r).
  { intros a Ha r Hr. apply H, elem_of_roots_results. eauto. }
  unfold map_call_results. f_equal.
  - apply list_fmap_ext. intros j a Ha%list_elem_of_lookup_2. apply map_results_ext. intros r. apply Hc. unfold call_roots. apply elem_of_app. by right.
  - destruct (CRet c) as [r|] eqn:E; [|done]. cbn. f_equal. apply (Hc (AResult r)); [|by left].
    unfold call_roots. rewrite E. by left.
Qed.
Lemma map_calls_results_ext g h l : (∀ r, r ∈ roots_results (calls_roots l) → g r = h r) → map_calls_results g l = map_calls_results h l.
Proof.
  intros H. unfold map_calls_results. apply list_fmap_ext. intros i [c|] Hc%list_elem_of_lookup_2; [|done]. cbn. f_equal. apply map_call_results_ext.
  intros r Hr. apply H, results_of_calls. eauto.
Qed.
Lemma map_calls_results_compose g h l : map_calls_results g (map_calls_results h l) = map_calls_results (g ∘ h) l.
Proof.
  unfold map_calls_results. rewrite <-list_fmap_compose. apply list_fmap_ext. intros i [c|] _; [|done]. cbn. f_equal.
  unfold map_call_results. cbn. f_equal; [|by destruct (CRet c)]. rewrite <-list_fmap_compose. apply list_fmap_ext. intros j a _. apply map_results_compose.
Qed.
Lemma map_call_results_id c : map_call_results (λ r, r) c = c.
Proof.
  destruct c as [m args ret pr co]. unfold map_call_results. cbn. f_equal; [|by destruct ret]. rewrite <-(list_fmap_id args) at 2.
  apply list_fmap_ext. intros j a _. apply map_results_id.
Qed.
Lemma map_calls_results_id l : map_calls_results (λ r, r) l = l.
Proof.
  unfold map_calls_results. rewrite <-(list_fmap_id l) at 2. apply list_fmap_ext. intros i [c|] _; [|done]. cbn. f_equal. apply map_call_results_id.
Qed.

(** ** The theorem about cloning *)

(** Fresh identities from [base] on, in the order in which arguments are copied. *)
Definition id_from (base : argid) (ids : list argid) (x : argid) : argid :=
  base + Z.of_nat (default 0%nat (fst <$> list_find (λ y, y = x) ids)).
Lemma id_from_lookup base ids k x : NoDup ids → ids !! k = Some x → id_from base ids x = base + Z.of_nat k.
Proof.
  intros Hn Hk. unfold id_from. destruct (list_find (λ y, y = x) ids) as [[j y]|] eqn:E.
  - apply list_find_Some in E as (Hj & -> & _). cbn. by rewrite (NoDup_lookup _ _ _ _ Hn Hj Hk).
  - apply list_find_None in E. rewrite Forall_forall in E. apply list_elem_of_lookup_2 in Hk. by apply E in Hk.
Qed.
Lemma id_from_inj base ids x y : NoDup ids → x ∈ ids → y ∈ ids → id_from base ids x = id_from base ids y → x = y.
Proof.
  intros Hn [i Hi]%list_elem_of_lookup [j Hj]%list_elem_of_lookup. rewrite (id_from_lookup base ids i), (id_from_lookup base ids j) by done.
  intros E. assert (i = j) as -> by lia. congruence.
Qed.
Lemma id_from_ge base ids x : base ≤ id_from base ids x.
Proof. unfold id_from. lia. Qed.
Definition copy_id (p : Prog) : argid → argid := id_from (fresh_id p) (prog_ids p).
Lemma copy_id_lookup p k x : NoDup (prog_ids p) → prog_ids p !! k = Some x → copy_id p x = fresh_id p + Z.of_nat k.
Proof. apply id_from_lookup. Qed.
Lemma copy_id_inj p x y : NoDup (prog_ids p) → x ∈ prog_ids p → y ∈ prog_ids p → copy_id p x = copy_id p y → x = y.
Proof. apply id_from_inj. Qed.
Lemma graph_linked p l k : graph_ok p → prog_results p = l ++ k → linked (clonable (copy_id p)) l k.
Proof.
  intros Hp. revert l. induction k as [|r k IH]; intros l E; [done|]. cbn [linked].
  assert (Hin : ∀ r, r ∈ l → r ∈ prog_results p) by (intros r' ?; rewrite E; apply elem_of_app; by left).
  split; [unfold clonable; split_and!|].
  - intros x Hx. by apply (go_order p Hp l r k x).
  - intros r' Hr' Ex. apply list_elem_of_lookup in Hr' as [i Hi]. apply take_drop_middle in Hi as Hi'.
    pose proof (go_order p Hp (take i l) r' (drop (S i) l ++ r :: k) (rid r)) as H. rewrite E in H. rewrite <-Hi' in H at 1. rewrite <-app_assoc in H.
    specialize (H eq_refl Ex). pose proof (graph_ok_NoDup p Hp) as Hn. rewrite E, fmap_app, fmap_cons in Hn. apply NoDup_app in Hn as (_ & Hd & _).
    apply (Hd (rid r)); [|by left]. apply list_elem_of_fmap in H as (r2 & -> & [j Hj]%list_elem_of_lookup). apply lookup_take_Some in Hj as [Hj _].
    apply list_elem_of_fmap. exists r2. split; [done|]. by apply list_elem_of_lookup_2 in Hj.
  - intros r1 r2 H1 H2. apply copy_id_inj; [apply Hp|apply result_id; auto..].
  - apply IH. by rewrite <-app_assoc.
Qed.
Lemma Clone_rename p : graph_ok p → isUnsafe p = false → Clone p = Ret (rename_prog (copy_id p) p).
Proof.
  intros Hp Hu. unfold Clone. rewrite Hu. set (f := copy_id p).
  destruct (clone_calls_spec f (no_uses ∘ rename_result f) (cloned f) (clonable f) (clone_result_step f) (cloned_alloc f) (Calls p) (go_calls p Hp)
    [] (mkClone (fresh_id p) (Some ∅) (objects p))) as (s & -> & Hs).
  - constructor; [exists ∅; split; [done|]| |]; by intros r ?%not_elem_of_nil.
  - by apply graph_linked.
  - intros k x Hk. cbn [cl_next]. by apply copy_id_lookup; [apply Hp|].
  - cbn [mbind outcome_bind]. unfold refresh_calls, rename_prog. do 2 f_equal. rewrite map_calls_copy. apply copy_calls_ext.
    intros r0 Hr0. unfold compose, current, no_uses. change (rid (set_uses (rename_result f r0) ∅)) with (f (rid r0)).
    rewrite (cn_obj _ _ _ Hs r0 Hr0). cbn [default]. unfold set_uses, rename_result. cbn. f_equal. by rewrite (go_uses p Hp r0 Hr0).
Qed.

(** C11: A clone is an isomorphic copy.  For a well-formed program that is not
    marked unsafe cloning returns; the copy is the program with every argument
    renamed to a new identity, references to results renamed with them, all
    values, properties and back references kept, and without comments; it is
    well-formed and shares no argument with the original. *)
Theorem Clone_spec (p : Prog) (Hp : graph_ok p) (Hsafe : isUnsafe p = false) :
  ∃ f, Clone p = Ret (rename_prog f p) ∧ graph_ok (rename_prog f p)
  ∧ (∀ x y, x ∈ prog_ids p → y ∈ prog_ids p → f x = f y → x = y)
  ∧ (∀ x, x ∈ prog_ids (rename_prog f p) → x ∉ prog_ids p).
Proof.
  exists (copy_id p). pose proof (go_ids p Hp) as Hn. assert (Hinj := λ x y, copy_id_inj p x y Hn). split_and!.
  - by apply Clone_rename.
  - by apply rename_graph_ok.
  - done.
  - intros x. rewrite prog_ids_rename. intros (y & -> & _)%list_elem_of_fmap Hx%fresh_id_gt. pose proof (id_from_ge (fresh_id p) (prog_ids p) y). unfold copy_id in Hx. lia.
Qed.

(** ** Changes of result arguments only *)

Section change.
Context (g : ResultArg → ResultArg).
Lemma arg_results_map a : arg_results (map_results g a) = g <$> arg_results a.
Proof.
  induction a as [c v|c ad v r Hr|c d s|c l Hl|c o i t Ho|r] using Arg_nested_ind; cbn [map_results arg_results]; try done.
  - by destruct r.
  - rewrite <-list_fmap_compose. apply concat_fmap_fmap. by apply Forall_forall.
Qed.
Lemma calls_roots_map l : calls_roots (map_calls_results g l) = map_results g <$> calls_roots l.
Proof.
  unfold calls_roots, map_calls_results. rewrite <-list_fmap_compose. apply concat_fmap_fmap. intros [c|] _; [|done].
  cbn. unfold call_roots. rewrite fmap_app. cbn. f_equal. by destruct (CRet c).
Qed.
Lemma roots_results_map l : roots_results (map_results g <$> l) = g <$> roots_results l.
Proof. unfold roots_results. rewrite <-list_fmap_compose. apply concat_fmap_fmap. intros x _. apply arg_results_map. Qed.

Context (Hg : ∀ r, res_common (g r) = res_common r).
Lemma common_map a : common (map_results g a) = common a.
Proof. destruct a as [| ? ? ? []| | | |]; cbn; try done. Qed.
Lemma arg_ids_map a : arg_ids (map_results g a) = arg_ids a.
Proof.
  induction a as [c v|c ad v r Hr|c d s|c l Hl|c o i t Ho|r] using Arg_nested_ind; cbn [map_results arg_ids]; try done.
  - destruct r as [x|]; [|done]. cbn in Hr. cbn [arg_ids]. f_equal. done.
  - f_equal. rewrite <-list_fmap_compose. f_equal. apply list_fmap_ext. intros i x Hx%list_elem_of_lookup_2. rewrite Forall_forall in Hl. by apply Hl.
  - f_equal. done.
  - unfold aid. cbn. by rewrite Hg.
Qed.
Lemma roots_ids_map l : roots_ids (map_results g <$> l) = roots_ids l.
Proof. unfold roots_ids. rewrite <-list_fmap_compose. f_equal. apply list_fmap_ext. intros i x _. apply arg_ids_map. Qed.
End change.
