(* ===== verification/RemoveCall.v ===== *)
(** * Removing calls (src/prog/prog.go: replaceResultArg, removeArg,
    RemoveCall, FilterInplace, OnlyContains)

    Removing a call takes its result arguments out of the graph of
    [ArgGraph]: arguments that used them get their default value. *)

From S2P Require Import Prelude GoStrings Prog ForeachArg ArgGraph.

(** [o] and what a nil pointer does. *)
Definition object (h : heap) (i : argid) : outcome ResultArg :=
  match h !! i with Some o => Ret o | None => Panic end.
(** [delete(o.uses, i)] *)
Definition drop_use (h : heap) (x i : argid) : outcome heap :=
  o ← object h x; Ret (<[x := set_uses o (uses o ∖ {[i]})]> h).

(** [arg] is an object of the heap, [arg1] a new one. *)
Definition replaceResultArg (h : heap) (arg : argid) (arg1 : ResultArg) : outcome heap :=
  a ← object h arg;
  h ← match res_Res a with Some x => drop_use h x arg | None => Ret h end;
  a ← object h arg;
  let h := <[arg := mkResultArg (set_id (res_common arg1) arg) (res_Res arg1) (OpDiv arg1) (OpAdd arg1) (res_Val arg1) (uses a)]> h in
  match res_Res arg1 with
  | None => Ret h
  | Some x => h ← drop_use h x (rid arg1); note_use h x arg
  end.

Section removal.
Context (typeRefs : list Typ).

(** [arg1.Type().DefaultArg(arg1.Dir()).( *ResultArg)] *)
Definition default_result (r : ResultArg) : outcome ResultArg :=
  t ← TypeOf typeRefs (AResult r);
  match t with
  | ResourceType c _ d =>
      v ← ResourceDefault d;
      Ret (mkResultArg (mkArgCommon 0 (self c) (arg_dir (res_common r))) None 0 0 v ∅)
  | _ => Panic
  end.
Fixpoint reset_users (l : list argid) (h : heap) : outcome heap :=
  match l with
  | [] => Ret h
  | i :: l => o ← object h i; arg2 ← default_result o; h ← replaceResultArg h i arg2; reset_users l h
  end.
(** The callback of removeArg. *)
Definition remove_result (h : heap) (i : argid) : outcome heap :=
  a ← object h i;
  h ← match res_Res a with
      | None => Ret h
      | Some x => o ← object h x; if decide (i ∈ uses o) then drop_use h x i else Panic
      end;
  a ← object h i;
  reset_users (elements (uses a)) h.
Fixpoint remove_results (l : list ResultArg) (h : heap) : outcome heap :=
  match l with
  | [] => Ret h
  | r :: l => h ← remove_result h (rid r); remove_results l h
  end.
Definition visit_result (v : ArgVisit) : option ResultArg :=
  match v_arg v with AResult r => Some r | _ => None end.
Definition removeArg (h : heap) (a : Arg) : outcome heap :=
  vs ← foreachArgImpl typeRefs a None 0; remove_results (omap visit_result vs) h.
Fixpoint remove_args (l : list Arg) (h : heap) : outcome heap :=
  match l with
  | [] => Ret h
  | a :: l => h ← removeArg h a; remove_args l h
  end.
Definition RemoveCall (p : Prog) (idx : Z) : outcome Prog :=
  c ← index (Calls p) idx;
  match c with
  | None => Panic
  | Some c =>
      h ← remove_args (Args c) (objects p);
      h ← match CRet c with Some r => removeArg h (AResult r) | None => Ret h end;
      Ret (set_calls p (refresh_calls h (delete (Z.to_nat idx) (Calls p))))
  end.

(** A call is identified by its description, that by its id. *)
Definition call_allowed (allowed : gset Z) (c : Call) : bool :=
  match Meta c with Some m => bool_decide (ID m ∈ allowed) | None => false end.
Fixpoint only_contains (allowed : gset Z) (l : list (option Call)) : outcome bool :=
  match l with
  | [] => Ret true
  | None :: _ => Panic
  | Some c :: l => if call_allowed allowed c then only_contains allowed l else Ret false
  end.
Definition OnlyContains (p : Prog) (syscalls : gset Z) : outcome bool := only_contains syscalls (Calls p).
(** One round per call. *)
Fixpoint filter_loop (rounds : nat) (allowed : gset Z) (p : Prog) (i : Z) : outcome Prog :=
  match rounds with
  | O => Ret p
  | S rounds =>
      if decide (len (Calls p) ≤ i) then Ret p
      else
        c ← index (Calls p) i;
        match c with
        | None => Panic
        | Some c =>
            if call_allowed allowed c then filter_loop rounds allowed p (i + 1)
            else p ← RemoveCall p i; filter_loop rounds allowed p i
        end
  end.
Definition FilterInplace (p : Prog) (allowed : gset Z) : outcome Prog := filter_loop (length (Calls p)) allowed p 0.
End removal.

(** ** What removal does *)

Lemma object_Some h i o : h !! i = Some o → object h i = Ret o.
Proof. unfold object. by intros ->. Qed.

(** ** Sizes do not depend on identities and results *)

Fixpoint shape (a : Arg) : Arg :=
  match a with
  | ConstArg c v => ConstArg (set_id c 0) v
  | PointerArg c ad v r => PointerArg (set_id c 0) ad v (match r with Some x => Some (shape x) | None => None end)
  | DataArg c d n => DataArg (set_id c 0) d n
  | GroupArg c l => GroupArg (set_id c 0) (shape <$> l)
  | UnionArg c o i t => UnionArg (set_id c 0) (shape o) i t
  | AResult r => AResult (mkResultArg (set_id (res_common r) 0) None 0 0 0 ∅)
  end.
Lemma shape_copy f out a : (∀ r, shape (AResult (out r)) = shape (AResult r)) → shape (copy_arg f out a) = shape a.
Proof.
  intros Hout. induction a as [c v|c ad v r Hr|c d s|c l Hl|c o i t Ho|r] using Arg_nested_ind; cbn [copy_arg shape]; try done.
  - f_equal. destruct r as [x|]; [|done]. cbn in Hr. by rewrite Hr.
  - f_equal. rewrite <-list_fmap_compose. apply list_fmap_ext. intros i x Hx%list_elem_of_lookup_2. rewrite Forall_forall in Hl. by apply Hl.
  - by rewrite Ho.
  - apply Hout.
Qed.
Lemma shape_map g a : (∀ r, res_common (g r) = res_common r) → shape (map_results g a) = shape a.
Proof.
  intros Hg. induction a as [c v|c ad v r Hr|c d s|c l Hl|c o i t Ho|r] using Arg_nested_ind; cbn [map_results shape]; try done.
  - destruct r as [x|]; [|done]. cbn in Hr. cbn [shape]. by rewrite Hr.
  - f_equal. rewrite <-list_fmap_compose. apply list_fmap_ext. intros i x Hx%list_elem_of_lookup_2. rewrite Forall_forall in Hl. by apply Hl.
  - by rewrite Ho.
  - by rewrite Hg.
Qed.

Section shapes.
Context (typeRefs : list Typ).
Lemma TypeOf_shape a : TypeOf typeRefs (shape a) = TypeOf typeRefs a.
Proof. by destruct a. Qed.
Lemma ArgSize_shape a : ArgSize typeRefs (shape a) = ArgSize typeRefs a.
Proof.
  induction a as [c v|c ad v r Hr|c d s|c l Hl|c o i t Ho|r] using Arg_nested_ind; try done.
  - cbn [shape ArgSize]. change (TypeOf typeRefs (GroupArg (set_id c 0) (shape <$> l))) with (TypeOf typeRefs (GroupArg c l)).
    rewrite length_fmap. destruct (TypeOf typeRefs (GroupArg c l)) as [t|]; [|done]. cbn [mbind outcome_bind]. destruct (negb (Varlen t)); [done|].
    destruct t; try done.
    + generalize 0 as size. induction Hl as [|x l Hx Hl IH]; intros size; [done|]. cbn. rewrite Hx.
      destruct (ArgSize typeRefs x); [|done]. cbn. apply IH.
    + generalize (length l) as n. intros n. match goal with |- ?F 0%nat _ 0 0 = _ => set (go := F) end.
      assert (H : ∀ i size off, go i (shape <$> l) size off = go i l size off); [|apply H].
      induction Hl as [|x l Hx Hl IH]; intros i size off; [done|]. cbn. rewrite Hx.
      destruct (ArgSize typeRefs x); [|done]. cbn. apply IH.
  - cbn [shape ArgSize]. change (TypeOf typeRefs (UnionArg (set_id c 0) (shape o) i t)) with (TypeOf typeRefs (UnionArg c o i t)). by rewrite Ho.
Qed.
(** The visited result arguments are those of the tree. *)
Lemma visits_results a : ∀ base off vs, foreachArgImpl typeRefs a base off = Ret vs → omap visit_result vs = arg_results a.
Proof.
  induction a as [c v|c ad v r Hr|c d s|c l Hl|c o i t Ho|r] using Arg_nested_ind; intros base off vs; cbn [foreachArgImpl].
  - intros [= <-]. done.
  - destruct r as [x|]; [|intros [= <-]; done]. destruct (foreachArgImpl typeRefs x _ 0) as [vs'|] eqn:E; [|done]. intros [= <-]. cbn. by eapply Hr.
  - intros [= <-]. done.
  - destruct (TypeOf typeRefs (GroupArg c l)) as [t|]; [|done]. cbn [mbind outcome_bind].
    match goal with |- context [?F 0%nat l off] => set (go := F) end.
    assert (Hgo : ∀ k cur rest, go k l cur = Ret rest → omap visit_result rest = concat (arg_results <$> l)).
    { induction Hl as [|x l Hx Hl IH]; intros k cur rest E; [by injection E as <-|]. cbn in E.
      destruct (foreachArgImpl typeRefs x base _) as [vs1|] eqn:E1; [|done]. cbn in E. destruct (ArgSize typeRefs x) as [n|]; [|done]. cbn in E.
      destruct (go (S k) l _) as [vs2|] eqn:E2; [|done]. cbn in E. injection E as <-. rewrite omap_app. cbn [fmap list_fmap concat].
      rewrite (Hx _ _ _ E1). f_equal. by eapply IH. }
    destruct (go 0%nat l off) as [rest|] eqn:E; [|done]. cbn [mbind outcome_bind]. intros [= <-]. cbn. by eapply Hgo.
  - destruct (foreachArgImpl typeRefs o base off) as [vs'|] eqn:E; [|done]. intros [= <-]. cbn. by eapply Ho.
  - intros [= <-]. done.
Qed.
(** Whether they can be visited does not depend on where the tree lies. *)
Lemma sized_shape a : ∀ base off base' b, shape b = shape a → is_Some (match foreachArgImpl typeRefs a base off with Ret vs => Some vs | Panic => None end) →
  is_Some (match foreachArgImpl typeRefs b base' off with Ret vs => Some vs | Panic => None end).
Proof.
  induction a as [c v|c ad v r Hr|c d s|c l Hl|c o i t Ho|r] using Arg_nested_ind; intros base off base' b Hb H.
  - by destruct b.
  - destruct b as [|c' ad' v' r'| | | |]; try done. cbn in Hb. injection Hb as _ _ _ _ Hb. destruct r' as [y|]; [|cbn; eauto]. destruct r as [x|]; [|done]. injection Hb as Hb.
    cbn [foreachArgImpl] in H |- *. specialize (Hr (Some (PointerArg c ad v (Some x))) 0 (Some (PointerArg c' ad' v' (Some y))) y Hb).
    destruct (foreachArgImpl typeRefs x _ 0); [|by destruct H]. destruct (foreachArgImpl typeRefs y _ 0); [cbn; eauto|]. by destruct Hr as [? [=]].
  - by destruct b.
  - destruct b as [| | |c' l'| |]; try done. injection Hb as E1 E2 Hb. cbn [foreachArgImpl] in H |- *.
    assert (ET : TypeOf typeRefs (GroupArg c' l') = TypeOf typeRefs (GroupArg c l)).
    { rewrite <-(TypeOf_shape (GroupArg c' l')), <-(TypeOf_shape (GroupArg c l)). cbn [shape]. unfold TypeOf. cbn. by rewrite E1. }
    rewrite ET. destruct (TypeOf typeRefs (GroupArg c l)) as [t|]; [|done]. cbn [mbind outcome_bind] in H |- *.
    set (ov := match t with StructType _ _ _ o => o | _ => 0 end) in *. clearbody ov. clear t ET.
    match type of H with context [?go 0%nat l off] => set (go1 := go) in * end. match goal with |- context [?go 0%nat l' off] => set (go2 := go) in * end.
    assert (Hgo : ∀ l', shape <$> l' = shape <$> l → ∀ k cur vs, go1 k l cur = Ret vs → ∃ vs', go2 k l' cur = Ret vs').
    { clear H Hb. induction Hl as [|x l Hx Hl IH]; intros [|y m] Em k' cur' vs E; try done; [cbn; eauto|]. injection Em as Ey Em. cbn in E |- *. set (at_ := if decide (Z.of_nat k' = ov) then off else cur') in *.
      destruct (foreachArgImpl typeRefs x base _) as [vs1|] eqn:Ex; [|done]. cbn in E. destruct (ArgSize typeRefs x) as [n|] eqn:En; [|done]. cbn in E.
      destruct (go1 (S k') l _) as [vs2|] eqn:E3; [|done]. specialize (Hx base at_ base' y Ey). rewrite Ex in Hx. specialize (Hx ltac:(eauto)).
      destruct (foreachArgImpl typeRefs y base' _) as [ws1|]; [|by destruct Hx as [? [=]]]. cbn.
      rewrite <-(ArgSize_shape y), Ey, ArgSize_shape, En. cbn. destruct (IH m Em _ _ _ E3) as [ws2 ->]. cbn. eauto. }
    destruct (go1 0%nat l off) as [vs|] eqn:Eg; [|by destruct H]. destruct (Hgo l' Hb 0%nat off vs Eg) as [ws ->]. cbn. eauto.
  - destruct b as [| | | |c' o' i' t'|]; try done. injection Hb as _ _ Hb _ _. cbn [foreachArgImpl] in H |- *. specialize (Ho base off base' o' Hb).
    destruct (foreachArgImpl typeRefs o base off); [|by destruct H]. destruct (foreachArgImpl typeRefs o' base' off); [cbn; eauto|]. by destruct Ho as [? [=]].
  - by destruct b.
Qed.
End shapes.

Section spec.
Context (typeRefs : list Typ).

(** Every result argument has a resource type with a default value, the sizes
    of all arguments can be computed, and a call has at most as many arguments
    as its description has fields. *)
Definition resource_typed (r : ResultArg) : Prop :=
  ∃ c fmt d v, TypeOf typeRefs (AResult r) = Ret (ResourceType c fmt d) ∧ self c = ref (res_common r) ∧ ResValues d !! 0%nat = Some v.
Definition sized (a : Arg) : Prop := ∃ vs, foreachArgImpl typeRefs a None 0 = Ret vs.
Record well_typed (p : Prog) : Prop := {
  wt_results : ∀ r, r ∈ prog_results p → resource_typed r;
  wt_sized : ∀ a, a ∈ calls_roots (Calls p) → sized a;
  wt_calls : ∀ c, Some c ∈ Calls p → ∃ m, Meta c = Some m ∧ (length (Args c) ≤ length (SysArgs m))%nat
}.
Definition default_value (r : ResultArg) : Z :=
  match TypeOf typeRefs (AResult r) with Ret (ResourceType _ _ d) => default 0 (ResValues d !! 0%nat) | _ => 0 end.

(** A result argument after the arguments [gone] have been removed. *)
Definition uses_gone (gone : gset argid) (r : ResultArg) : bool :=
  match res_Res r with Some x => bool_decide (x ∈ gone) | None => false end.
Definition severed (gone : gset argid) (r : ResultArg) : ResultArg :=
  if uses_gone gone r then mkResultArg (res_common r) None 0 0 (default_value r) (uses r ∖ gone)
  else set_uses r (uses r ∖ gone).

Lemma cut_common gone r : res_common (severed gone r) = res_common r.
Proof. unfold severed. by destruct (uses_gone gone r). Qed.
Lemma cut_uses gone r : uses (severed gone r) = uses r ∖ gone.
Proof. unfold severed. by destruct (uses_gone gone r). Qed.
Lemma cut_Res gone r : res_Res (severed gone r) = if uses_gone gone r then None else res_Res r.
Proof. unfold severed. by destruct (uses_gone gone r). Qed.
Lemma TypeOf_common r r' : res_common r = res_common r' → TypeOf typeRefs (AResult r) = TypeOf typeRefs (AResult r').
Proof. unfold TypeOf. cbn. by intros ->. Qed.
Lemma resource_typed_common r r' : res_common r = res_common r' → resource_typed r → resource_typed r'.
Proof. intros E. unfold resource_typed. by rewrite (TypeOf_common r r' E), E. Qed.
Lemma default_result_eq r : resource_typed r →
  ∃ i, default_result typeRefs r = Ret (mkResultArg (mkArgCommon i (ref (res_common r)) (arg_dir (res_common r))) None 0 0 (default_value r) ∅).
Proof.
  intros (c & fmt & d & v & E & Es & Ev). exists 0. unfold default_result, default_value. rewrite E. cbn [mbind outcome_bind].
  unfold ResourceDefault, index. rewrite decide_True by lia. change (Z.to_nat 0) with 0%nat. rewrite Ev. cbn. by rewrite Es.
Qed.

Section graph.
Context (p : Prog) (Hp : graph_ok p) (Ht : ∀ r, r ∈ prog_results p → resource_typed r).

Lemma find_result x r : r ∈ prog_results p → res_Res r = Some x → ∃ rx, rx ∈ prog_results p ∧ rid rx = x ∧ x ≠ rid r.
Proof.
  intros [i Hi]%list_elem_of_lookup Ex. apply take_drop_middle in Hi. pose proof (go_order p Hp _ _ _ x (eq_sym Hi) Ex) as H.
  pose proof (graph_ok_NoDup p Hp) as Hn. rewrite <-Hi, fmap_app, fmap_cons in Hn. apply NoDup_app in Hn as (_ & Hd & _).
  assert (x ≠ rid r) by (intros ->; apply (Hd (rid r) H); by left).
  apply list_elem_of_fmap in H as (rx & -> & [j Hj]%list_elem_of_lookup). apply lookup_take_Some in Hj as [Hj _]. exists rx.
  split_and!; [by apply list_elem_of_lookup_2 in Hj|done|done].
Qed.
Lemma uses_iff r u : r ∈ prog_results p → u ∈ uses r ↔ ∃ ru, ru ∈ prog_results p ∧ rid ru = u ∧ res_Res ru = Some (rid r).
Proof. intros Hr. by rewrite (go_uses p Hp r Hr), elem_of_users. Qed.

(** The objects once the arguments [gone] have been removed; what the removed
    ones look like no longer matters. *)
Definition removed (gone : gset argid) (h : heap) : Prop :=
  ∀ r, r ∈ prog_results p → rid r ∉ gone → h !! rid r = Some (severed gone r).

(** While the users of [i] are being reset: those of [l] still have to be. *)
Definition resetting (gone : gset argid) (i : argid) (l : list argid) (h : heap) : Prop :=
  is_Some (h !! i) ∧ ∀ r, r ∈ prog_results p → rid r ∉ {[i]} ∪ gone →
    h !! rid r = Some (if decide (rid r ∈ l) then set_uses r (uses r ∖ ({[i]} ∪ gone)) else severed ({[i]} ∪ gone) r).

Lemma reset_users_spec gone i l h :
  NoDup l → resetting gone i l h → (∀ u, u ∈ l → (u ∉ {[i]} ∪ gone) ∧ ∃ r, r ∈ prog_results p ∧ rid r = u ∧ res_Res r = Some i) →
  ∃ h', reset_users typeRefs l h = Ret h' ∧ removed ({[i]} ∪ gone) h'.
Proof.
  intros Hl. revert h. induction Hl as [|u l Hu Hl IH]; intros h [[o Ho] Hh] Hus.
  - exists h. split; [done|]. intros r Hr Hn. rewrite (Hh r Hr Hn). rewrite decide_False by apply not_elem_of_nil. done.
  - destruct (Hus u) as (Hun & r & Hr & <- & Er); [by left|]. cbn [reset_users].
    pose proof (Hh r Hr Hun) as Hhr. rewrite decide_True in Hhr by (by left). rewrite (object_Some _ _ _ Hhr). cbn [mbind outcome_bind].
    destruct (default_result_eq (set_uses r (uses r ∖ ({[i]} ∪ gone)))) as [j Ej]; [by apply (resource_typed_common r), Ht|]. rewrite Ej.
    cbn [mbind outcome_bind]. unfold replaceResultArg. rewrite (object_Some _ _ _ Hhr). cbn [mbind outcome_bind res_Res set_uses]. rewrite Er.
    unfold drop_use. rewrite (object_Some _ _ _ Ho). cbn [mbind outcome_bind]. assert (i ≠ rid r) by set_solver.
    unfold object at 1. rewrite lookup_insert_ne, Hhr by done. cbn [mbind outcome_bind res_Res res_common set_id uses set_uses OpDiv OpAdd res_Val].
    assert (Ec : severed ({[i]} ∪ gone) r = mkResultArg (res_common r) None 0 0 (default_value r) (uses r ∖ ({[i]} ∪ gone))).
    { unfold severed, uses_gone. rewrite Er, bool_decide_eq_true_2 by set_solver. done. }
    apply IH; [|intros u' Hu'; apply Hus; by right]. split.
    + rewrite lookup_insert_ne, lookup_insert_eq by done. eauto.
    + intros r' Hr' Hn'. destruct (decide (rid r' = rid r)) as [E|Hne].
      * assert (r' = r) as -> by (eapply rid_inj; [by apply graph_ok_NoDup|done|done|done]). rewrite lookup_insert_eq. rewrite decide_False by done.
        rewrite Ec. unfold set_id. cbn. do 2 f_equal. destruct r as [[? ? ?] ? ? ? ? ?]. done.
      * rewrite lookup_insert_ne by done. rewrite lookup_insert_ne by set_solver. rewrite (Hh r' Hr' Hn').
        destruct (decide (rid r' ∈ l)); [rewrite decide_True by (by right)|rewrite decide_False by (rewrite elem_of_cons; tauto)]; done.
Qed.

Lemma remove_result_spec gone r h : r ∈ prog_results p → rid r ∉ gone → removed gone h →
  ∃ h', remove_result typeRefs h (rid r) = Ret h' ∧ removed ({[rid r]} ∪ gone) h'.
Proof.
  intros Hr Hn Hh. unfold remove_result. rewrite (object_Some _ _ _ (Hh r Hr Hn)). cbn [mbind outcome_bind]. rewrite cut_Res.
  (* the link from what [r] uses *)
  assert (H1 : ∃ h1, match (if uses_gone gone r then None else res_Res r) with
      | None => Ret h
      | Some x => o ← object h x; if decide (rid r ∈ uses o) then drop_use h x (rid r) else Panic end = Ret h1
    ∧ h1 !! rid r = Some (severed gone r)
    ∧ ∀ r', r' ∈ prog_results p → rid r' ∉ {[rid r]} ∪ gone → h1 !! rid r' = Some (set_uses (severed gone r') (uses r' ∖ ({[rid r]} ∪ gone)))).
  { assert (Hkeep : ∀ r', r' ∈ prog_results p → rid r' ∉ {[rid r]} ∪ gone → res_Res r ≠ Some (rid r') →
      h !! rid r' = Some (set_uses (severed gone r') (uses r' ∖ ({[rid r]} ∪ gone)))).
    { intros r' Hr' Hn' Hne. rewrite (Hh r' Hr') by (intros ?; apply Hn', elem_of_union_r; done). f_equal.
      assert (E : uses r' ∖ ({[rid r]} ∪ gone) = uses r' ∖ gone).
      { assert (rid r ∉ uses r'); [|set_solver]. rewrite (uses_iff r' _ Hr'). intros (ru & Hru & Eu & Eru).
        assert (ru = r) as -> by (eapply rid_inj; [by apply graph_ok_NoDup|done..]). done. }
      rewrite E. unfold severed. by destruct (uses_gone gone r'). }
    unfold uses_gone. destruct (res_Res r) as [x|] eqn:Ex.
    - destruct (find_result x r Hr Ex) as (rx & Hrx & <- & Hxr). case_bool_decide as Hx.
      + exists h. split_and!; [done|by apply Hh|]. intros r' Hr' Hn'. apply Hkeep; [done|done|]. intros [= E]. apply Hn', elem_of_union_r. by rewrite <-E.
      + unfold drop_use. rewrite !(object_Some _ _ _ (Hh rx Hrx Hx)). cbn [mbind outcome_bind]. rewrite cut_uses, decide_True.
        2:{ apply elem_of_difference. split; [|done]. apply uses_iff; [done|]. eauto. }
        eexists. split_and!; [done|by rewrite lookup_insert_ne by done; apply Hh|]. intros r' Hr' Hn'. destruct (decide (rid r' = rid rx)) as [E|Hne].
        * assert (r' = rx) as -> by (eapply rid_inj; [by apply graph_ok_NoDup|done..]). rewrite lookup_insert_eq. do 2 f_equal. by rewrite difference_difference_l_L, (union_comm_L gone).
        * rewrite lookup_insert_ne by done. apply Hkeep; [done|done|]. congruence.
    - exists h. split_and!; [done|by apply Hh|]. intros r' Hr' Hn'. by apply Hkeep. }
  destruct H1 as (h1 & -> & E1 & H1). cbn [mbind outcome_bind]. rewrite (object_Some _ _ _ E1). cbn [mbind outcome_bind].
  assert (Hu : ∀ u, u ∈ elements (uses (severed gone r)) ↔ (u ∉ gone) ∧ ∃ ru, ru ∈ prog_results p ∧ rid ru = u ∧ res_Res ru = Some (rid r)).
  { intros u. rewrite elem_of_elements, cut_uses, elem_of_difference, uses_iff by done. tauto. }
  apply reset_users_spec; [apply NoDup_elements| |].
  - split; [eauto|]. intros r' Hr' Hn'. rewrite (H1 r' Hr' Hn'). f_equal. destruct (decide (rid r' ∈ elements (uses (severed gone r)))) as [Hin|Hin].
    + apply Hu in Hin as (_ & ru & Hru & Eu & Eru). assert (ru = r') as -> by (eapply rid_inj; [by apply graph_ok_NoDup|done..]).
      unfold severed, uses_gone. rewrite Eru, bool_decide_eq_false_2 by done. done.
    + assert (res_Res r' ≠ Some (rid r)) by (intros E; apply Hin, Hu; split; [intros ?; apply Hn', elem_of_union_r; done|eauto]).
      assert (uses_gone ({[rid r]} ∪ gone) r' = uses_gone gone r') as Eg.
      { unfold uses_gone. destruct (res_Res r') as [x|]; [|done]. apply bool_decide_ext. rewrite elem_of_union, elem_of_singleton. naive_solver. }
      unfold severed. rewrite Eg. by destruct (uses_gone gone r').
  - intros u (Hug & ru & Hru & <- & Eru)%Hu. split; [|eauto]. destruct (find_result _ _ Hru Eru) as (? & _ & _ & ?). rewrite elem_of_union, elem_of_singleton. naive_solver.
Qed.
Lemma remove_results_spec l gone h : (∀ r, r ∈ l → r ∈ prog_results p ∧ (rid r ∉ gone)) → NoDup (rid <$> l) → removed gone h →
  ∃ h', remove_results typeRefs l h = Ret h' ∧ removed (list_to_set (rid <$> l) ∪ gone) h'.
Proof.
  revert gone h. induction l as [|r l IH]; intros gone h Hl Hn Hh; cbn [remove_results].
  - exists h. split; [done|]. by replace (list_to_set (rid <$> []) ∪ gone) with gone by set_solver.
  - cbn [fmap list_fmap] in Hn. apply NoDup_cons in Hn as [Hr Hn]. destruct (Hl r) as [Hin Hg]; [by left|].
    destruct (remove_result_spec gone r h Hin Hg Hh) as (h1 & -> & H1). cbn [mbind outcome_bind].
    destruct (IH ({[rid r]} ∪ gone) h1) as (h2 & E2 & H2); [|done|done|].
    + intros r' Hr'. destruct (Hl r') as [? ?]; [by right|]. split; [done|].
      assert (rid r' ≠ rid r) by (intros E; apply Hr; rewrite <-E; apply list_elem_of_fmap; eauto). set_solver.
    + exists h2. split; [done|]. by replace (list_to_set (rid <$> r :: l) ∪ gone) with (list_to_set (rid <$> l) ∪ ({[rid r]} ∪ gone) : gset argid) by set_solver.
Qed.

Lemma removeArg_spec a gone h : sized a → (∀ r, r ∈ arg_results a → r ∈ prog_results p ∧ (rid r ∉ gone)) → NoDup (rid <$> arg_results a) → removed gone h →
  ∃ h', removeArg typeRefs h a = Ret h' ∧ removed (list_to_set (rid <$> arg_results a) ∪ gone) h'.
Proof.
  intros [vs E] Ha Hn Hh. unfold removeArg. rewrite E. cbn [mbind outcome_bind]. rewrite (visits_results _ _ _ _ _ E). by apply remove_results_spec.
Qed.
Lemma remove_args_spec l gone h : (∀ a, a ∈ l → sized a) → (∀ r, r ∈ roots_results l → r ∈ prog_results p ∧ (rid r ∉ gone)) →
  NoDup (rid <$> roots_results l) → removed gone h →
  ∃ h', remove_args typeRefs l h = Ret h' ∧ removed (list_to_set (rid <$> roots_results l) ∪ gone) h'.
Proof.
  revert gone h. induction l as [|a l IH]; intros gone h Hs Hl Hn Hh; cbn [remove_args].
  - exists h. split; [done|]. by replace (list_to_set (rid <$> roots_results []) ∪ gone) with gone by set_solver.
  - unfold roots_results in *. cbn [fmap list_fmap concat] in *. rewrite fmap_app in *. apply NoDup_app in Hn as (Hn1 & Hd & Hn2).
    destruct (removeArg_spec a gone h) as (h1 & -> & H1); [apply Hs; by left|intros r Hr; apply Hl, elem_of_app; by left|done|done|]. cbn [mbind outcome_bind].
    destruct (IH (list_to_set (rid <$> arg_results a) ∪ gone) h1) as (h2 & E2 & H2); [intros x Hx; apply Hs; by right| |done|done|].
    + intros r Hr. destruct (Hl r) as [? ?]; [apply elem_of_app; by right|]. split; [done|].
      rewrite elem_of_union, elem_of_list_to_set. intros [Hx|Hx]; [|done]. apply (Hd _ Hx). apply list_elem_of_fmap. eauto.
    + exists h2. split; [done|]. rewrite list_to_set_app_L.
      by replace (list_to_set (rid <$> arg_results a) ∪ list_to_set (rid <$> concat (arg_results <$> l)) ∪ gone)
        with (list_to_set (rid <$> concat (arg_results <$> l)) ∪ (list_to_set (rid <$> arg_results a) ∪ gone) : gset argid) by set_solver.
Qed.

Lemma objects_lookup r : r ∈ prog_results p → objects p !! rid r = Some r.
Proof.
  intros Hr. unfold objects. apply elem_of_list_to_map; [|apply list_elem_of_fmap; eauto]. rewrite <-list_fmap_compose. by apply graph_ok_NoDup.
Qed.
Lemma removed_none : removed ∅ (objects p).
Proof.
  intros r Hr _. rewrite objects_lookup by done. f_equal. unfold severed, uses_gone. replace (uses r ∖ ∅) with (uses r) by set_solver.
  destruct (res_Res r) eqn:E; [rewrite bool_decide_eq_false_2 by set_solver|]; unfold set_uses; destruct r; cbn in *; by subst.
Qed.
End graph.

(** The identities of a call's result arguments. *)
Definition call_results (c : Call) : gset argid := list_to_set (rid <$> roots_results (call_roots c)).
(** The program without the call at [i]. *)
Definition without_call (p : Prog) (i : nat) (c : Call) : Prog :=
  set_calls p (map_calls_results (severed (call_results c)) (delete i (Calls p))).

Lemma results_split p i c : Calls p !! i = Some (Some c) →
  ∃ l1 l2, prog_results p = l1 ++ roots_results (call_roots c) ++ l2 ∧ roots_results (calls_roots (delete i (Calls p))) = l1 ++ l2.
Proof.
  intros Hi. apply take_drop_middle in Hi as E. exists (roots_results (calls_roots (take i (Calls p)))), (roots_results (calls_roots (drop (S i) (Calls p)))).
  assert (Happ : ∀ l k, roots_results (calls_roots (l ++ k)) = roots_results (calls_roots l) ++ roots_results (calls_roots k)).
  { intros l k. unfold calls_roots, roots_results. by rewrite fmap_app, concat_app, fmap_app, concat_app. }
  split.
  - unfold prog_results. rewrite <-E at 1. rewrite Happ. f_equal. change (Some c :: ?l) with ([Some c] ++ l). rewrite Happ. f_equal.
    unfold calls_roots. cbn. by rewrite app_nil_r.
  - by rewrite delete_take_drop, Happ.
Qed.
Lemma RemoveCall_eq p i c : graph_ok p → well_typed p → Calls p !! i = Some (Some c) →
  RemoveCall typeRefs p (Z.of_nat i) = Ret (without_call p i c).
Proof.
  intros Hp Hw Hi. destruct (results_split p i c Hi) as (l1 & l2 & Er & Ed). pose proof (graph_ok_NoDup p Hp) as Hn. rewrite Er, !fmap_app in Hn.
  apply NoDup_app in Hn as (_ & Hd1 & Hn). apply NoDup_app in Hn as (Hnc & Hd2 & _).
  unfold RemoveCall, index. rewrite decide_True, Nat2Z.id, Hi by lia. cbn [mbind outcome_bind].
  assert (Hin : ∀ a, a ∈ call_roots c → a ∈ calls_roots (Calls p)).
  { intros a Ha. apply elem_of_calls_roots. exists c. split; [by apply list_elem_of_lookup_2 in Hi|done]. }
  assert (Hre : roots_results (call_roots c) = from_option (λ r, [r]) [] (CRet c) ++ roots_results (Args c)).
  { unfold call_roots, roots_results. rewrite fmap_app, concat_app. by destruct (CRet c). }
  rewrite Hre, fmap_app in Hnc. apply NoDup_app in Hnc as (Hn1 & Hd3 & Hn2).
  destruct (remove_args_spec p Hp (wt_results p Hw) (Args c) ∅ (objects p)) as (h1 & -> & H1); [| |done|exact (removed_none p Hp (wt_results p Hw))|].
  { intros a Ha. apply (wt_sized p Hw), Hin. unfold call_roots. apply elem_of_app. by right. }
  { intros r Hr. split; [|set_solver]. rewrite Er, Hre. rewrite !elem_of_app. tauto. }
  rewrite union_empty_r_L in H1. cbn [mbind outcome_bind].
  assert (H2 : ∃ h2, match CRet c with Some r => removeArg typeRefs h1 (AResult r) | None => Ret h1 end = Ret h2 ∧ removed p (call_results c) h2).
  { unfold call_results. rewrite Hre. destruct (CRet c) as [r|] eqn:Ec; cbn [from_option app] in *; [|eauto].
    destruct (removeArg_spec p Hp (wt_results p Hw) (AResult r) (list_to_set (rid <$> roots_results (Args c))) h1) as (h2 & E2 & H2); [| | |done|].
    - apply (wt_sized p Hw), Hin. unfold call_roots. rewrite Ec. by left.
    - intros r' ->%list_elem_of_singleton. split; [rewrite Er, Hre, !elem_of_app; right; left; by left|].
      rewrite elem_of_list_to_set. intros H. apply (Hd3 _ ltac:(by left) H).
    - apply NoDup_singleton.
    - exists h2. split; [done|]. cbn [arg_results] in H2. cbn [fmap list_fmap list_to_set] in H2 |- *. by rewrite union_empty_r_L in H2. }
  destruct H2 as (h2 & -> & H2). cbn [mbind outcome_bind]. unfold without_call, refresh_calls. do 2 f_equal. apply map_calls_results_ext.
  intros r Hr. unfold current. rewrite H2; [done| |].
  - rewrite Er. rewrite Ed in Hr. rewrite !elem_of_app in *. tauto.
  - unfold call_results. rewrite elem_of_list_to_set. intros H. rewrite Ed in Hr. apply elem_of_app in Hr as [Hr|Hr].
    + apply (Hd1 (rid r)); [apply list_elem_of_fmap; eauto|]. apply elem_of_app. by left.
    + apply (Hd2 (rid r) H). apply list_elem_of_fmap. eauto.
Qed.

Lemma sized_same a b : shape b = shape a → sized a → sized b.
Proof.
  intros E [vs H]. pose proof (sized_shape typeRefs a None 0 None b E) as Hs. rewrite H in Hs. specialize (Hs ltac:(eauto)).
  unfold sized. destruct (foreachArgImpl typeRefs b None 0); [eauto|]. by destruct Hs.
Qed.
Lemma resource_typed_same r r' : shape (AResult r') = shape (AResult r) → resource_typed r → resource_typed r'.
Proof.
  intros E (c & fmt & d & v & Et & Ec & Ev). injection E as E1 E2. exists c, fmt, d, v. split_and!; [|congruence|done].
  rewrite <-Et. unfold TypeOf. cbn. by rewrite E1.
Qed.
Lemma well_typed_rename f p : well_typed p → well_typed (rename_prog f p).
Proof.
  intros [Hr Hs Hc]. constructor.
  - intros r. rewrite prog_results_rename. intros (r0 & -> & H0)%list_elem_of_fmap. by apply (resource_typed_same r0), Hr.
  - intros a. rewrite calls_roots_rename. intros (a0 & -> & H0)%list_elem_of_fmap. eapply sized_same; [by apply shape_copy|auto].
  - intros c. cbn. intros (c0 & E & H0)%list_elem_of_fmap. destruct c0 as [c0|]; [|done]. injection E as ->. destruct (Hc c0 H0) as (m & ? & ?).
    exists m. split; [done|]. cbn. by rewrite length_fmap.
Qed.

Lemma calls_roots_delete i l a : a ∈ calls_roots (delete i l) → a ∈ calls_roots l.
Proof.
  rewrite !elem_of_calls_roots. intros (c & Hc & Ha). exists c. split; [|done]. eapply sublist_elem_of; [apply sublist_delete|done].
Qed.
Lemma roots_ids_delete i l : roots_ids (calls_roots (delete i l)) `sublist_of` roots_ids (calls_roots l).
Proof.
  unfold roots_ids, calls_roots. revert i. induction l as [|c l IH]; intros [|i]; cbn; [done|done| |].
  - rewrite fmap_app, concat_app. by apply sublist_inserts_l.
  - rewrite !fmap_app, !concat_app. apply sublist_app; [done|apply IH].
Qed.
Lemma without_call_typed p i c : well_typed p → well_typed (without_call p i c).
Proof.
  intros [Hr Hs Hm]. unfold without_call. constructor.
  - intros r. unfold prog_results. cbn [set_calls Calls]. rewrite calls_roots_map, roots_results_map. intros (r0 & -> & H0)%list_elem_of_fmap.
    eapply resource_typed_common; [symmetry; apply cut_common|]. apply Hr. apply elem_of_roots_results in H0 as (a & Ha & H0).
    apply elem_of_roots_results. exists a. split; [by eapply calls_roots_delete|done].
  - intros a. cbn [set_calls Calls]. rewrite calls_roots_map. intros (a0 & -> & H0)%list_elem_of_fmap.
    eapply sized_same; [apply shape_map; intros; apply cut_common|]. apply Hs. by eapply calls_roots_delete.
  - intros x. cbn. intros (x0 & E & H0)%list_elem_of_fmap. destruct x0 as [x0|]; [|done]. injection E as ->.
    destruct (Hm x0) as (m & ? & ?); [eapply sublist_elem_of; [apply sublist_delete|done]|]. exists m. split; [done|]. cbn. by rewrite length_fmap.
Qed.
Lemma without_call_graph p i c : graph_ok p → Calls p !! i = Some (Some c) → graph_ok (without_call p i c).
Proof.
  intros Hp Hi. destruct (results_split p i c Hi) as (l1 & l2 & Er & Ed). set (gone := call_results c).
  assert (Ek : prog_results (without_call p i c) = severed gone <$> (l1 ++ l2)).
  { unfold prog_results, without_call. cbn [set_calls Calls]. by rewrite calls_roots_map, roots_results_map, Ed. }
  pose proof (graph_ok_NoDup p Hp) as Hn. rewrite Er, !fmap_app in Hn. apply NoDup_app in Hn as (_ & Hd1 & Hn). apply NoDup_app in Hn as (_ & Hd2 & _).
  assert (Hkeep : ∀ r, r ∈ l1 ++ l2 → r ∈ prog_results p ∧ (rid r ∉ gone)).
  { intros r Hr. split; [rewrite Er; rewrite !elem_of_app in *; tauto|]. unfold gone, call_results. rewrite elem_of_list_to_set. intros H.
    apply elem_of_app in Hr as [Hr|Hr]; [apply (Hd1 (rid r)); [apply list_elem_of_fmap; eauto|apply elem_of_app; by left]|].
    apply (Hd2 (rid r) H). apply list_elem_of_fmap. eauto. }
  assert (Hcut : ∀ r, r ∈ prog_results p → rid r ∉ gone → r ∈ l1 ++ l2).
  { intros r. rewrite Er, !elem_of_app. intros [?|[H|?]] Hg; [tauto| |tauto]. exfalso. apply Hg. unfold gone, call_results.
    apply elem_of_list_to_set, list_elem_of_fmap. eauto. }
  assert (Hrid : ∀ l : list ResultArg, rid <$> (severed gone <$> l) = rid <$> l).
  { intros l. rewrite <-list_fmap_compose. apply list_fmap_ext. intros ? r _. unfold compose, rid. by rewrite cut_common. }
  constructor.
  - cbn. apply Forall_fmap, Forall_forall. intros x Hx. assert (Hx' : x ∈ Calls p) by (eapply sublist_elem_of; [apply sublist_delete|done]).
    pose proof (go_calls p Hp) as Hc. rewrite Forall_forall in Hc. destruct (Hc x Hx') as [y ->]. cbn. eauto.
  - unfold prog_ids. cbn [without_call set_calls Calls]. rewrite calls_roots_map, roots_ids_map by apply cut_common.
    eapply sublist_NoDup; [apply (go_ids p Hp)|apply roots_ids_delete].
  - intros k1 r k2 x E Ex. rewrite Ek in E. apply fmap_app_inv in E as (m1 & m2 & -> & E2 & E). destruct m2 as [|r0 m2]; [done|]. injection E2 as -> ->.
    rewrite cut_Res in Ex. destruct (uses_gone gone r0) eqn:Eg; [done|]. rewrite Hrid. unfold uses_gone in Eg. rewrite Ex in Eg. apply bool_decide_eq_false in Eg.
    assert (H : ∃ f1 f2, prog_results p = f1 ++ r0 :: f2 ∧ ∀ y, y ∈ rid <$> f1 → y ∉ gone → y ∈ rid <$> m1).
    { apply app_eq_inv in E as [(k & E1 & E2)|(k & E1 & E2)].
      - destruct k as [|r1 k]; cbn in E2.
        + exists (l1 ++ roots_results (call_roots c)), m2. rewrite app_nil_r in E1. subst. rewrite <-app_assoc. split; [by rewrite Er|]. intros y Hy Hyg.
          rewrite !fmap_app, !elem_of_app in *. destruct Hy as [?|H]; [tauto|]. exfalso. apply Hyg. unfold gone, call_results. by apply elem_of_list_to_set.
        + injection E2 as <- E2. exists m1, (k ++ roots_results (call_roots c) ++ l2). subst. split; [by rewrite Er, <-app_assoc|]. done.
      - exists (l1 ++ roots_results (call_roots c) ++ k), m2. subst. split; [by rewrite Er, <-!app_assoc|]. intros y Hy Hyg.
        rewrite !fmap_app, !elem_of_app in *. destruct Hy as [?|[H|?]]; [tauto| |tauto]. exfalso. apply Hyg. unfold gone, call_results. by apply elem_of_list_to_set. }
    destruct H as (f1 & f2 & Ef & Hf). apply Hf; [|done]. by apply (go_order p Hp f1 r0 f2 x Ef).
  - intros r. rewrite Ek. intros (r0 & -> & H0)%list_elem_of_fmap. destruct (Hkeep r0 H0) as [Hr0 Hg0]. rewrite cut_uses. unfold rid. rewrite cut_common.
    fold (rid r0). apply set_eq. intros u. rewrite elem_of_difference, elem_of_users, (uses_iff p Hp r0 u Hr0). split.
    + intros [(ru & Hru & <- & Eu) Hu]. exists (severed gone ru). split_and!; [apply list_elem_of_fmap; eauto|unfold rid; by rewrite cut_common|].
      rewrite cut_Res. unfold uses_gone. rewrite Eu, bool_decide_eq_false_2 by done. done.
    + intros (ru & (r1 & -> & H1)%list_elem_of_fmap & <- & Eu). destruct (Hkeep r1 H1) as [Hr1 Hg1]. unfold rid. rewrite cut_common. fold (rid r1).
      split; [|done]. exists r1. split_and!; [done|done|]. rewrite cut_Res in Eu. by destruct (uses_gone gone r1).
Qed.
Definition call_metas (p : Prog) : list (option Syscall) := (λ c : option Call, c ≫= Meta) <$> Calls p.
Lemma without_call_metas p i c : call_metas (without_call p i c) = delete i (call_metas p).
Proof.
  unfold call_metas, without_call, map_calls_results. cbn [set_calls Calls]. rewrite <-list_fmap_compose, list_fmap_delete.
  f_equal. apply list_fmap_ext. intros j [x|] _; done.
Qed.
End spec.

(** C10: Removing a call leaves a well-formed program.  In a well-formed,
    well-typed program removing an existing call does not panic; the other
    calls keep their order, properties and arguments, except that arguments
    that used a result of the removed call get the default value of their
    resource and forget the reference, and back references from the removed
    call disappear; the result is well-formed and well-typed again. *)
Theorem RemoveCall_spec (typeRefs : list Typ) (p : Prog) (i : nat) (c : Call)
    (Hp : graph_ok p) (Hw : well_typed typeRefs p) (Hi : Calls p !! i = Some (Some c)) :
  RemoveCall typeRefs p (Z.of_nat i) = Ret (without_call typeRefs p i c)
  ∧ graph_ok (without_call typeRefs p i c) ∧ well_typed typeRefs (without_call typeRefs p i c)
  ∧ call_metas (without_call typeRefs p i c) = delete i (call_metas p)
  ∧ ∀ r, r ∈ prog_results (without_call typeRefs p i c) → (rid r ∉ call_results c) ∧ ∀ x, res_Res r = Some x → x ∉ call_results c.
Proof.
  split_and!; [by apply RemoveCall_eq|by apply without_call_graph|by apply without_call_typed|apply without_call_metas|].
  pose proof (without_call_graph typeRefs p i c Hp Hi) as Hp'. intros r Hr.
  assert (Hall : ∀ r, r ∈ prog_results (without_call typeRefs p i c) → rid r ∉ call_results c).
  { clear r Hr. intros r. unfold prog_results, without_call. cbn [set_calls Calls]. rewrite calls_roots_map, roots_results_map.
    intros (r0 & -> & H0)%list_elem_of_fmap. unfold rid. rewrite cut_common. fold (rid r0). unfold call_results. rewrite elem_of_list_to_set. intros H.
    destruct (results_split p i c Hi) as (l1 & l2 & Er & Ed). rewrite Ed in H0. pose proof (graph_ok_NoDup p Hp) as Hn.
    rewrite Er, !fmap_app in Hn. apply NoDup_app in Hn as (_ & Hd1 & Hn). apply NoDup_app in Hn as (_ & Hd2 & _).
    apply elem_of_app in H0 as [H0|H0]; [apply (Hd1 (rid r0)); [apply list_elem_of_fmap; eauto|apply elem_of_app; by left]|].
    apply (Hd2 (rid r0) H). apply list_elem_of_fmap. eauto. }
  split; [by apply Hall|]. intros x Ex. destruct (find_result _ Hp' x r Hr Ex) as (rx & Hrx & <- & _). by apply Hall.
Qed.

(** ** Filtering calls *)

Section filtering.
Context (typeRefs : list Typ) (allowed : gset Z).
Definition meta_allowed (m : option Syscall) : bool := match m with Some m => bool_decide (ID m ∈ allowed) | None => false end.

Lemma filter_loop_spec rounds p i : graph_ok p → well_typed typeRefs p → (i ≤ length (Calls p))%nat → (length (Calls p) ≤ i + rounds)%nat →
  ∃ p', filter_loop typeRefs rounds allowed p (Z.of_nat i) = Ret p' ∧ graph_ok p' ∧ well_typed typeRefs p'
    ∧ call_metas p' = take i (call_metas p) ++ filter (λ m, meta_allowed m = true) (drop i (call_metas p)).
Proof.
  assert (Hlen : ∀ p, length (call_metas p) = length (Calls p)) by (intros; apply length_fmap).
  revert p i. induction rounds as [|rounds IH]; intros p i Hp Hw Hi Hr; cbn [filter_loop].
  - exists p. split_and!; [done|done|done|]. by rewrite take_ge, drop_ge, app_nil_r by (rewrite Hlen; lia).
  - case_decide as Hc; [exists p; split_and!; [done|done|done|]; by rewrite take_ge, drop_ge, app_nil_r by (rewrite Hlen; unfold len in Hc; lia)|].
    destruct (lookup_lt_is_Some_2 (Calls p) i) as [x Hx]; [unfold len in Hc; lia|].
    pose proof (go_calls p Hp) as Hall. rewrite Forall_forall in Hall. destruct (Hall x) as [c ->]; [by apply list_elem_of_lookup_2 in Hx|].
    unfold index. rewrite decide_True, Nat2Z.id, Hx by lia. cbn [mbind outcome_bind].
    assert (Em : call_metas p !! i = Some (Meta c)) by (unfold call_metas; by rewrite list_lookup_fmap, Hx).
    rewrite (drop_S _ _ _ Em), filter_cons. destruct (call_allowed allowed c) eqn:Ea.
    + rewrite decide_True by done. replace (Z.of_nat i + 1) with (Z.of_nat (S i)) by lia.
      destruct (IH p (S i)) as (p' & E & H1 & H2 & H3); [done|done|apply lookup_lt_Some in Hx; lia|lia|]. exists p'. split_and!; [done|done|done|].
      rewrite H3, (take_S_r _ _ _ Em), <-app_assoc. done.
    + rewrite decide_False by (intros H; change (meta_allowed (Meta c)) with (call_allowed allowed c) in H; congruence).
      rewrite (RemoveCall_eq typeRefs p i c Hp Hw Hx). cbn [mbind outcome_bind].
      assert (Hl : S (length (Calls (without_call typeRefs p i c))) = length (Calls p)).
      { rewrite <-Hlen, without_call_metas, length_delete, Hlen by eauto. apply lookup_lt_Some in Hx. lia. }
      destruct (IH (without_call typeRefs p i c) i) as (p' & E & H1 & H2 & H3); [by apply without_call_graph|by apply without_call_typed|apply lookup_lt_Some in Hx; lia|lia|].
      exists p'. split_and!; [done|done|done|]. rewrite H3, without_call_metas, delete_take_drop, take_app_le, take_take, Nat.min_id, drop_app_ge by (rewrite length_take, Hlen; apply lookup_lt_Some in Hx; lia).
      rewrite length_take, Hlen. replace (i - i `min` length (Calls p))%nat with 0%nat by lia. done.
Qed.
End filtering.
Lemma FilterInplace_spec typeRefs p allowed : graph_ok p → well_typed typeRefs p →
  ∃ p', FilterInplace typeRefs p allowed = Ret p' ∧ graph_ok p' ∧ well_typed typeRefs p'
    ∧ call_metas p' = filter (λ m, meta_allowed allowed m = true) (call_metas p) ∧ OnlyContains p' allowed = Ret true.
Proof.
  intros Hp Hw. destruct (filter_loop_spec typeRefs allowed (length (Calls p)) p 0 Hp Hw) as (p' & E & H1 & H2 & H3); [lia|lia|].
  rewrite take_0, drop_0, app_nil_l in H3. exists p'. split_and!; [done|done|done|done|]. unfold OnlyContains.
  assert (Ha : Forall (λ m, meta_allowed allowed m = true) (call_metas p')) by (rewrite H3; apply Forall_forall; by intros m [? _]%list_elem_of_filter).
  pose proof (go_calls p' H1) as Hc. unfold call_metas in Ha. clear -Ha Hc. induction (Calls p') as [|x l IH]; [done|].
  apply Forall_cons in Hc as [[c ->] Hc]. cbn [fmap list_fmap] in Ha. apply Forall_cons in Ha as [Hm Ha]. cbn [only_contains].
  change (call_allowed allowed c) with (meta_allowed allowed (Meta c)). cbn in Hm. rewrite Hm. by apply IH.
Qed.

(** ** Witnesses *)

Definition resource_typedb (typeRefs : list Typ) (r : ResultArg) : bool :=
  match TypeOf typeRefs (AResult r) with
  | Ret (ResourceType c _ d) => bool_decide (self c = ref (res_common r)) && bool_decide (is_Some (ResValues d !! 0%nat))
  | _ => false
  end.
Definition well_typedb (typeRefs : list Typ) (p : Prog) : bool :=
  forallb (resource_typedb typeRefs) (prog_results p)
  && forallb (λ a, match foreachArgImpl typeRefs a None 0 with Ret _ => true | Panic => false end) (calls_roots (Calls p))
  && forallb (λ c : option Call, match c with
       | Some c => match Meta c with Some m => bool_decide (length (Args c) ≤ length (SysArgs m))%nat | None => false end
       | None => true end) (Calls p).
Lemma well_typedb_spec typeRefs p : well_typedb typeRefs p = true → well_typed typeRefs p.
Proof.
  unfold well_typedb. rewrite !andb_true_iff, !forallb_forall. intros [[H1 H2] H3]. constructor.
  - intros r Hr%list_elem_of_In%H1. unfold resource_typedb in Hr. unfold resource_typed. destruct (TypeOf typeRefs (AResult r)) as [[]|]; try done.
    apply andb_true_iff in Hr as [E1%bool_decide_eq_true [v Hv]%bool_decide_eq_true]. eauto 10.
  - intros a Ha%list_elem_of_In%H2. unfold sized. destruct (foreachArgImpl typeRefs a None 0); [eauto|done].
  - intros c Hc%list_elem_of_In%H3. destruct (Meta c) as [m|]; [|done]. exists m. split; [done|]. by apply bool_decide_eq_true in Hc.
Qed.

Definition gx_types : list Typ :=
  [ VmaType (mkTypeCommon "vma" 8 8 false false 0) 0 0;
    ResourceType (mkTypeCommon "fd" 4 4 false false 1) FormatNative (mkResourceDesc "fd" ["fd"%string] [2 ^ 64 - 1]) ].
Definition gx_call (id : Z) (name : string) (args : list Ref) (ret : option Ref) : Syscall :=
  mkSyscall id id name name 0 ((λ r, mkField "a" r false DirIn None) <$> args) ret
    (mkSyscallAttrs false 0 0 false false false false false false false false false false "" "").
Definition gx_open : Syscall := gx_call 0 "open" [] (Some 1).
Definition gx_dup : Syscall := gx_call 1 "dup" [1] (Some 1).
Definition gx_close : Syscall := gx_call 2 "close" [1] None.
Definition gx_fd (id : argid) (d : Dir) (res : option argid) (u : list argid) : ResultArg :=
  mkResultArg (mkArgCommon id 1 d) res 0 0 0 (list_to_set u).
(** [r10 = open(); r21 = dup(r10); close(r10); close(r21)] *)
Definition gx_prog : Prog :=
  mkProg [ Some (mkCall (Some gx_open) [] (Some (gx_fd 10 DirOut None [20; 30])) noProps "the file");
           Some (mkCall (Some gx_dup) [AResult (gx_fd 20 DirIn (Some 10) [])] (Some (gx_fd 21 DirOut None [40])) noProps "");
           Some (mkCall (Some gx_close) [AResult (gx_fd 30 DirIn (Some 10) [])] None noProps "");
           Some (mkCall (Some gx_close) [AResult (gx_fd 40 DirIn (Some 21) [])] None noProps "") ] [] false.
Lemma gx_graph : graph_ok gx_prog.
Proof. apply graph_okb_spec. vm_compute. reflexivity. Qed.
Lemma gx_typed : well_typed gx_types gx_prog.
Proof. apply well_typedb_spec. vm_compute. reflexivity. Qed.

Lemma Clone_witness : ∃ f, Clone gx_prog = Ret (rename_prog f gx_prog) ∧ graph_ok (rename_prog f gx_prog)
  ∧ (∀ x, x ∈ prog_ids (rename_prog f gx_prog) → x ∉ prog_ids gx_prog).
Proof. destruct (Clone_spec gx_prog gx_graph eq_refl) as (f & H1 & H2 & _ & H3). exists f. split_and!; [exact H1|exact H2|exact H3]. Defined.
Lemma RemoveCall_witness :
  (∃ p, RemoveCall gx_types gx_prog 0 = Ret p ∧ graph_ok p ∧ call_metas p = [Some gx_dup; Some gx_close; Some gx_close])
  ∧ (res_Val <$> prog_results (default gx_prog (match RemoveCall gx_types gx_prog 0 with Ret p => Some p | Panic => None end))) = [0; 2 ^ 64 - 1; 2 ^ 64 - 1; 0].
Proof.
  split; [|vm_compute; reflexivity].
  destruct (RemoveCall_spec gx_types gx_prog 0 _ gx_graph gx_typed eq_refl) as (H1 & H2 & _ & H3 & _). eexists. split_and!; [exact H1|exact H2|exact H3].
Defined.
