(* ===== verification/Collide.v ===== *)
(** * Transformations that provoke races (src/prog/collide.go, randomCollide
    of src/pkg/fuzzer/job.go)

    Calls are made asynchronous, rerun or duplicated.  A call whose [Async]
    property is set is started without waiting for it. *)

From S2P Require Import Prelude GoStrings Prog ForeachArg DecodeExec ArgGraph RemoveCall.

Definition maxAsyncPerProg : Z := 24.
Definition set_Props (c : Call) (pr : CallProps) : Call := mkCall (Meta c) (Args c) (CRet c) pr (Comment c).
Definition set_Async (c : Call) (b : bool) : Call := set_Props c (mkCallProps (FailNth (Props c)) b (Rerun (Props c))).
Definition set_Rerun (c : Call) (n : Z) : Call := set_Props c (mkCallProps (FailNth (Props c)) (Async (Props c)) n).

(** Dereferencing an entry of [Calls]. *)
Definition call_at (l : list (option Call)) (i : Z) : outcome Call :=
  c ← index l i; match c with Some c => Ret c | None => Panic end.

(** ** Asynchronous calls *)

Section async.
Context (typeRefs : list Typ).

(** Sets of result arguments; a nil key is [None]. *)
Abbreviation argset := (gset (option argid)).
(** What the callback notes for a call: whether it produces an argument of
    [unassigned], and what it consumes.  A lookup in the nil map finds nothing. *)
Definition producesUnassigned (unassigned : option argset) (l : list ResultArg) : bool :=
  existsb (λ r, bool_decide (arg_dir (res_common r) ≠ DirIn) && bool_decide (Some (rid r) ∈ default ∅ unassigned)) l.
Definition consumes (l : list ResultArg) : argset :=
  list_to_set (res_Res <$> filter (λ r, arg_dir (res_common r) ≠ DirOut) l).
(** The loop over the calls from the last one; [i] calls are left.  Writing
    into the nil map panics. *)
Fixpoint async_loop (i : nat) (unassigned : option argset) (leftAsync : Z) (calls : list (option Call)) (r : rng)
    : outcome (list (option Call) * rng) :=
  match i with
  | O => Ret (calls, r)
  | S i =>
      if decide (leftAsync ≤ 0) then Ret (calls, r)
      else
        call ← call_at calls (Z.of_nat i);
        vs ← ForeachArg typeRefs call;
        let results := omap visit_result vs in
        '(async, r) ← (if negb (producesUnassigned unassigned results) && bool_decide (Z.of_nat i + 1 ≠ len calls)
                       then '(n, r) ← Intn 3 r; Ret (bool_decide (n ≠ 0), r) else Ret (false, r));
        let calls := <[i := Some (set_Async call async)]> calls in
        if (async : bool) then
          match unassigned with
          | None => if decide (consumes results = ∅) then async_loop i None (leftAsync - 1) calls r else Panic
          | Some u => async_loop i (Some (u ∪ consumes results)) (leftAsync - 1) calls r
          end
        else async_loop i (Some (consumes results)) leftAsync calls r
  end.
Definition AssignRandomAsync (origProg : Prog) (r : rng) : outcome (Prog * rng) :=
  prog ← Clone origProg;
  '(calls, r) ← async_loop (length (Calls prog)) None maxAsyncPerProg (Calls prog) r;
  Ret (set_calls prog calls, r).
End async.

(** ** Rerun *)

Definition rerunSteps : list Z := [32; 64].
Fixpoint rerun_loop (l : list (option Call)) (r : rng) : outcome (list (option Call) * rng) :=
  match l with
  | c :: ((d :: l') as rest) =>
      match c with
      | None => Panic
      | Some c =>
          '(hit, r) ← (if Async (Props c) then '(n, r) ← Intn 4 r; Ret (bool_decide (n = 0), r) else Ret (false, r));
          if negb hit then '(rest, r) ← rerun_loop rest r; Ret (Some c :: rest, r)
          else
            '(k, r) ← Intn (len rerunSteps) r;
            rerun ← index rerunSteps k;
            match d with
            | None => Panic
            | Some d => '(l', r) ← rerun_loop l' r; Ret (Some (set_Rerun c rerun) :: Some (set_Rerun d rerun) :: l', r)
            end
      end
  | _ => Ret (l, r)
  end.
Definition AssignRandomRerun (prog : Prog) (r : rng) : outcome (Prog * rng) :=
  '(calls, r) ← rerun_loop (Calls prog) r; Ret (set_calls prog calls, r).

(** ** Duplicated calls *)

Inductive collide_error := ErrProgTooBig | ErrProgTooSmall | ErrNoDuplicate.

(** The first [leftAsync] copies become asynchronous. *)
Fixpoint make_async (leftAsync : nat) (l : list (option Call)) : list (option Call) :=
  match leftAsync, l with
  | S n, Some c :: l => Some (set_Async c true) :: make_async n l
  | _, _ => l
  end.
Definition DoubleExecCollide (origProg : Prog) (r : rng) : outcome (collide_error + Prog) :=
  if decide (MaxCalls < len (Calls origProg) * 2) then Ret (inl ErrProgTooBig)
  else
    prog ← Clone origProg;
    '(dupCalls, s) ← cloneCalls (Calls prog) (mkClone (fresh_id prog) None (objects prog));
    let dupCalls := make_async (Z.to_nat maxAsyncPerProg) dupCalls in
    Ret (inr (set_calls prog (refresh_calls (cl_heap s) (Calls prog ++ dupCalls)))).

(** [rand.Perm]. *)
Fixpoint perm_loop (n i : nat) (m : list Z) (r : rng) : outcome (list Z * rng) :=
  match n with
  | O => Ret (m, r)
  | S n =>
      '(j, r) ← Intn (Z.of_nat i + 1) r;
      x ← index (m ++ [0]) j;
      perm_loop n (S i) (<[Z.to_nat j := Z.of_nat i]> (m ++ [x])) r
  end.
Definition Perm (n : Z) (r : rng) : outcome (list Z * rng) := perm_loop (Z.to_nat n) 0 [] r.

Fixpoint dup_loop (duplicate : gset Z) (i : Z) (l : list (option Call)) (s : clone_state) : outcome (list (option Call) * clone_state) :=
  match l with
  | [] => Ret ([], s)
  | c :: l =>
      '(front, s) ← (if decide (i ∈ duplicate) then
                       match c with
                       | None => Panic
                       | Some c => '(d, s) ← cloneCall c s; Ret ([Some (set_Async d true)], s)
                       end
                     else Ret ([], s));
      '(l, s) ← dup_loop duplicate (i + 1) l s;
      Ret (front ++ c :: l, s)
  end.
Definition DupCallCollide (origProg : Prog) (r : rng) : outcome ((collide_error + Prog) * rng) :=
  let n := len (Calls origProg) in
  if decide (n < 2) then Ret (inl ErrProgTooSmall, r)
  else
    let insert := Z.min (Z.min (Z.max (n / 3) 1) maxAsyncPerProg) (MaxCalls - n) in
    if decide (insert = 0) then Ret (inl ErrNoDuplicate, r)
    else
      '(perm, r) ← Perm n r;
      if decide (insert < 0) then Panic
      else
        let duplicate := list_to_set (take (Z.to_nat insert) perm) : gset Z in
        prog ← Clone origProg;
        '(retCalls, s) ← dup_loop duplicate 0 (Calls prog) (mkClone (fresh_id prog) None (objects prog));
        Ret (inr (set_calls prog (refresh_calls (cl_heap s) retCalls)), r).

(** ** The choice between them *)

Definition randomCollide (typeRefs : list Typ) (origP : Prog) (rnd : rng) : outcome (Prog * rng) :=
  '(n, rnd) ← Intn 5 rnd;
  first ← (if decide (n = 0) then DoubleExecCollide origP rnd else Ret (inl ErrProgTooBig));
  match first with
  | inr p => Ret (p, rnd)
  | inl _ =>
      '(n, rnd) ← Intn 4 rnd;
      '(second, rnd) ← (if decide (n = 0) then DupCallCollide origP rnd else Ret (inl ErrNoDuplicate, rnd));
      match second with
      | inr p => Ret (p, rnd)
      | inl _ =>
          '(p, rnd) ← AssignRandomAsync typeRefs origP rnd;
          '(n, rnd) ← Intn 2 rnd;
          if decide (n ≠ 0) then AssignRandomRerun p rnd else Ret (p, rnd)
      end
  end.

(** ** Which calls become asynchronous *)

Definition is_async (c : option Call) : bool := match c with Some c => Async (Props c) | None => false end.
Definition async_at (calls : list (option Call)) (i : nat) : bool := from_option is_async false (calls !! i).
Definition results_at (calls : list (option Call)) (i : nat) : list ResultArg :=
  match calls !! i with Some (Some c) => roots_results (call_roots c) | _ => [] end.
Definition count_async (calls : list (option Call)) : nat := length (filter (λ c, is_async c = true) calls).
(** The call at [i] produces the argument [x], or consumes it. *)
Definition produces_at (calls : list (option Call)) (i : nat) (x : argid) : Prop :=
  ∃ r, r ∈ results_at calls i ∧ rid r = x ∧ arg_dir (res_common r) ≠ DirIn.
Definition consumes_at (calls : list (option Call)) (i : nat) (x : argid) : Prop :=
  ∃ r, r ∈ results_at calls i ∧ res_Res r = Some x ∧ arg_dir (res_common r) ≠ DirOut.
(** The same calls up to the [Async] property. *)
Definition retimed (calls calls' : list (option Call)) : Prop :=
  Forall2 (λ a b, ∃ c v, a = Some c ∧ b = Some (set_Async c v)) calls calls'.

Lemma set_Async_same c : set_Async c (Async (Props c)) = c.
Proof. by destruct c as [m a rt [f y n] co]. Qed.
Lemma retimed_refl calls : Forall is_Some calls → retimed calls calls.
Proof. intros H. induction H as [|x l [c ->] _ IH]; constructor; [|done]. exists c, (Async (Props c)). by rewrite set_Async_same. Qed.
Lemma retimed_insert calls calls' i c v : retimed calls calls' → calls' !! i = Some (Some c) → retimed calls (<[i := Some (set_Async c v)]> calls').
Proof.
  intros H Hi. destruct (Forall2_lookup_r _ _ _ _ _ H Hi) as (a & Ha & c0 & v0 & -> & E). injection E as ->.
  rewrite <-(list_insert_id calls i (Some c0) Ha). apply Forall2_insert; [done|]. by exists c0, v.
Qed.
Lemma retimed_results calls calls' i : retimed calls calls' → results_at calls' i = results_at calls i.
Proof.
  intros H. unfold results_at. destruct (calls !! i) as [a|] eqn:E.
  - destruct (Forall2_lookup_l _ _ _ _ _ H E) as (b & -> & c & v & -> & ->). done.
  - rewrite lookup_ge_None in E. rewrite (Forall2_length _ _ _ H) in E. apply lookup_ge_None in E. by rewrite E.
Qed.
Lemma retimed_trans l1 l2 l3 : retimed l1 l2 → retimed l2 l3 → retimed l1 l3.
Proof.
  intros H. revert l3. induction H as [|a b l1 l2 (c & v & -> & ->) _ IH]; intros l3 H3; inversion H3 as [|? b' ? ? (c' & v' & E & ->)]; subst; constructor; [|by apply IH].
  injection E as <-. by exists c, v'.
Qed.

Lemma count_async_app l k : count_async (l ++ k) = (count_async l + count_async k)%nat.
Proof. unfold count_async. by rewrite filter_app, length_app. Qed.
Lemma count_async_none l : Forall (λ c, is_async c = false) l → count_async l = 0%nat.
Proof. unfold count_async. induction 1 as [|c l Hc _ IH]; [done|]. rewrite filter_cons, decide_False by congruence. done. Qed.

Section async_spec.
Context (typeRefs : list Typ).

Lemma ForeachArg_results c m : (∀ a, a ∈ call_roots c → sized typeRefs a) → Meta c = Some m → (length (Args c) ≤ length (SysArgs m))%nat →
  ∃ vs, ForeachArg typeRefs c = Ret vs ∧ omap visit_result vs = roots_results (call_roots c).
Proof.
  intros Hs Em Hl. unfold ForeachArg. rewrite Em.
  assert (Hret : ∃ vs, match CRet c with Some r => foreachArgImpl typeRefs (AResult r) None 0 | None => Ret [] end = Ret vs
    ∧ omap visit_result vs = roots_results (option_list (AResult <$> CRet c))).
  { destruct (CRet c) as [r|] eqn:E; [|by exists []]. destruct (Hs (AResult r)) as [vs Ev]; [unfold call_roots; rewrite E; by left|].
    exists vs. split; [done|]. rewrite (visits_results _ _ _ _ _ Ev). done. }
  assert (Hargs : ∀ l, (∀ a, a ∈ l → sized typeRefs a) → ∃ vs, foreach_args typeRefs l = Ret vs ∧ omap visit_result vs = roots_results l).
  { intros l. induction l as [|a l IH]; intros Hl'; [by exists []|]. destruct (Hl' a) as [vs1 E1]; [by left|].
    destruct IH as (vs2 & E2 & H2); [intros x Hx; apply Hl'; by right|]. exists (vs1 ++ vs2). cbn [foreach_args]. rewrite E1. cbn [mbind outcome_bind]. rewrite E2.
    split; [done|]. rewrite omap_app, H2, (visits_results _ _ _ _ _ E1). done. }
  destruct Hret as (vs1 & -> & H1). cbn [mbind outcome_bind]. rewrite decide_False by lia.
  destruct (Hargs (Args c)) as (vs2 & -> & H2); [intros a Ha; apply Hs; unfold call_roots; apply elem_of_app; by right|]. cbn [mbind outcome_bind].
  exists (vs1 ++ vs2). split; [done|]. rewrite omap_app, H1, H2. unfold call_roots, roots_results. by rewrite fmap_app, concat_app.
Qed.

Lemma elem_of_consumes l x : Some x ∈ consumes l ↔ ∃ r, r ∈ l ∧ res_Res r = Some x ∧ arg_dir (res_common r) ≠ DirOut.
Proof.
  unfold consumes. rewrite elem_of_list_to_set, list_elem_of_fmap. split.
  - intros (r & E & [? ?]%list_elem_of_filter). eauto.
  - intros (r & ? & E & ?). exists r. split; [done|]. by apply list_elem_of_filter.
Qed.

Context (calls0 : list (option Call)) (Hsome : Forall is_Some calls0).
Context (Hvisit : ∀ i c, calls0 !! i = Some (Some c) → ∀ v, ∃ vs, ForeachArg typeRefs (set_Async c v) = Ret vs ∧ omap visit_result vs = roots_results (call_roots c)).

(** The calls from [i] on have been decided. *)
Record decided (i : nat) (unassigned : option (gset (option argid))) (left : Z) (calls : list (option Call)) : Prop := {
  dd_retimed : retimed calls0 calls;
  dd_front : ∀ j, (j < i)%nat → calls !! j = calls0 !! j;
  dd_nil : (i < length calls)%nat → is_Some unassigned;
  dd_unassigned : ∀ x, Some x ∈ default ∅ unassigned ↔ ∃ j, (i ≤ j)%nat ∧ consumes_at calls0 j x ∧ ∀ m, (i ≤ m < j)%nat → async_at calls m = true;
  dd_apart : ∀ k j x, (i ≤ k < j)%nat → async_at calls k = true → produces_at calls0 k x → consumes_at calls0 j x →
    ∃ m, (k < m < j)%nat ∧ async_at calls m = false;
  dd_last : ∀ k, (i ≤ k)%nat → S k = length calls → async_at calls k = false;
  dd_count : 0 ≤ left ∧ Z.of_nat (count_async (drop i calls)) + left = maxAsyncPerProg
}.

Lemma async_at_insert_eq calls i c : (i < length calls)%nat → async_at (<[i := Some c]> calls) i = Async (Props c).
Proof. intros H. unfold async_at. by rewrite list_lookup_insert_eq. Qed.
Lemma async_at_insert_ne calls i j c : i ≠ j → async_at (<[i := c]> calls) j = async_at calls j.
Proof. intros H. unfold async_at. by rewrite list_lookup_insert_ne. Qed.
Lemma producesUnassigned_false u i results : results = results_at calls0 i → producesUnassigned u results = false →
  ∀ x, produces_at calls0 i x → Some x ∉ default ∅ u.
Proof.
  intros -> H x (r & Hr & <- & Hd) Hin. apply not_true_iff_false in H. apply H. unfold producesUnassigned. apply existsb_exists. exists r.
  split; [by apply list_elem_of_In|]. by rewrite !bool_decide_eq_true_2.
Qed.

(** Deciding one more call. *)
Lemma decided_step i u left calls c (v : bool) u' :
  decided (S i) u left calls → calls !! i = Some (Some c) → 0 < left →
  (v = true → producesUnassigned u (results_at calls0 i) = false ∧ S i ≠ length calls ∧ u' = Some (default ∅ u ∪ consumes (results_at calls0 i))) →
  (v = false → u' = Some (consumes (results_at calls0 i))) →
  decided i u' (if v then left - 1 else left) (<[i := Some (set_Async c v)]> calls).
Proof.
  intros [Hr Hf Hn Hu Ha Hl Hc] Hi Hpos Ht Hfalse. pose proof (lookup_lt_Some _ _ _ Hi) as Hlt.
  assert (Hcons : ∀ x, Some x ∈ consumes (results_at calls0 i) ↔ consumes_at calls0 i x) by (intros; apply elem_of_consumes).
  assert (Hat : async_at (<[i := Some (set_Async c v)]> calls) i = v) by (rewrite async_at_insert_eq by done; done).
  assert (Hne : ∀ j, (i < j)%nat → async_at (<[i := Some (set_Async c v)]> calls) j = async_at calls j) by (intros; apply async_at_insert_ne; lia).
  constructor.
  - by apply retimed_insert.
  - intros j Hj. rewrite list_lookup_insert_ne by lia. apply Hf. lia.
  - intros _. destruct v; [destruct (Ht eq_refl) as (_ & _ & ->)|rewrite (Hfalse eq_refl)]; eauto.
  - intros x. destruct v.
    + destruct (Ht eq_refl) as (_ & _ & ->). cbn [default from_option]. unfold id. rewrite elem_of_union, Hcons, Hu. split.
      * intros [(j & Hj & Hcj & Hm)|Hci].
        -- exists j. split_and!; [lia|done|]. intros m Hm'. destruct (decide (m = i)) as [->|]; [done|]. rewrite Hne by lia. apply Hm. lia.
        -- exists i. split_and!; [lia|done|]. lia.
      * intros (j & Hj & Hcj & Hm). destruct (decide (j = i)) as [->|]; [by right|]. left. exists j. split_and!; [lia|done|].
        intros m Hm'. rewrite <-Hne by lia. apply Hm. lia.
    + rewrite (Hfalse eq_refl). cbn [default from_option]. unfold id. rewrite Hcons. split.
      * intros Hci. exists i. split_and!; [lia|done|]. lia.
      * intros (j & Hj & Hcj & Hm). destruct (decide (j = i)) as [->|]; [done|]. specialize (Hm i ltac:(lia)). congruence.
  - intros k j x Hkj Hk Hp Hcj. destruct (decide (k = i)) as [->|].
    + rewrite Hat in Hk. destruct (Ht Hk) as (Hpu & _ & _). pose proof (producesUnassigned_false u i _ eq_refl Hpu x Hp) as Hno. rewrite Hu in Hno.
      destruct (decide (Exists (λ m, async_at calls m = false) (seq (S i) (j - S i)))) as [He|He].
      * apply Exists_exists in He as (m & Hm%elem_of_seq & Em). exists m. split; [lia|]. by rewrite Hne by lia.
      * exfalso. apply Hno. exists j. split_and!; [lia|done|]. intros m Hm. apply not_false_iff_true. intros Em. apply He, Exists_exists. exists m.
        split; [apply elem_of_seq; lia|done].
    + rewrite Hne in Hk by lia. destruct (Ha k j x) as (m & Hm & Em); [lia|done|done|done|]. exists m. split; [done|]. by rewrite Hne by lia.
  - intros k Hk. rewrite length_insert. intros E. destruct (decide (k = i)) as [->|].
    + rewrite Hat. destruct v; [|done]. destruct (Ht eq_refl) as (_ & Hx & _). lia.
    + rewrite Hne by lia. apply Hl; lia.
  - rewrite (drop_S _ (Some (set_Async c v)) i) by (by apply list_lookup_insert_eq). rewrite drop_insert_lt by lia.
    unfold count_async in *. rewrite filter_cons. cbn [is_async set_Async set_Props Props Async]. destruct v; [rewrite decide_True by done|rewrite decide_False by done]; cbn [length]; lia.
Qed.

Lemma async_loop_spec i u left calls r : decided i u left calls → (i ≤ length calls)%nat →
  ∃ calls' r' i' u' left', async_loop typeRefs i u left calls r = Ret (calls', r') ∧ decided i' u' left' calls' ∧ (i' = 0%nat ∨ left' = 0).
Proof.
  revert u left calls r. induction i as [|i IH]; intros u left calls r Hd Hi; cbn [async_loop]; [eauto 10|].
  case_decide as Hleft; [exists calls, r, (S i), u, left; split_and!; [done|done|right; pose proof (dd_count _ _ _ _ Hd); lia]|].
  destruct (lookup_lt_is_Some_2 calls i) as [x Hx]; [lia|]. assert (H0 : calls0 !! i = Some x) by (rewrite <-(dd_front _ _ _ _ Hd i) by lia; done).
  destruct (Forall_lookup_1 _ _ _ _ Hsome H0) as [c ->]. unfold call_at, index. rewrite decide_True, Nat2Z.id, Hx by lia. cbn [mbind outcome_bind].
  destruct (Hvisit i c H0 (Async (Props c))) as (vs & Ev & Er). rewrite set_Async_same in Ev. rewrite Ev. cbn [mbind outcome_bind]. rewrite Er.
  assert (Hres : roots_results (call_roots c) = results_at calls0 i) by (unfold results_at; by rewrite H0). rewrite Hres.
  set (rs := results_at calls0 i) in *.
  assert (Hchoice : ∃ v r', (if negb (producesUnassigned u rs) && bool_decide (Z.of_nat i + 1 ≠ len calls)
      then '(n, r) ← Intn 3 r; Ret (bool_decide (n ≠ 0), r) else Ret (false, r)) = Ret (v, r')
    ∧ (v = true → producesUnassigned u rs = false ∧ S i ≠ length calls)).
  { destruct (producesUnassigned u rs); cbn [negb andb]; [exists false, r; done|]. case_bool_decide as Hne; [|exists false, r; done].
    destruct (Intn_Ret 3 r) as (n & -> & _); [lia|]. cbn [mbind outcome_bind]. eexists _, (tl r). split; [done|]. intros _. split; [done|]. unfold len in Hne. lia. }
  destruct Hchoice as (v & r' & -> & Hv). cbn [mbind outcome_bind].
  assert (Hlen : length (<[i := Some (set_Async c v)]> calls) = length calls) by apply length_insert.
  destruct v.
  - destruct (Hv eq_refl) as [Hpu Hn]. destruct (dd_nil _ _ _ _ Hd) as [s ->]; [lia|].
    apply IH; [|lia]. apply (decided_step i (Some s) left calls c true (Some (s ∪ consumes rs))); [done|done|lia|done|done].
  - apply IH; [|lia]. apply (decided_step i u left calls c false); [done|done|lia|done|done].
Qed.
End async_spec.

Lemma async_run (typeRefs : list Typ) (p : Prog) (r : rng)
    (Hp : graph_ok p) (Hw : well_typed typeRefs p) (Hsafe : isUnsafe p = false) (Hsync : Forall (λ c, is_async c = false) (Calls p)) :
  ∃ f calls r', AssignRandomAsync typeRefs p r = Ret (set_calls (rename_prog f p) calls, r')
  ∧ graph_ok (rename_prog f p) ∧ retimed (Calls (rename_prog f p)) calls
  ∧ Z.of_nat (count_async calls) ≤ maxAsyncPerProg ∧ from_option is_async false (last calls) = false
  ∧ ∀ k j x, (k < j)%nat → async_at calls k = true → produces_at calls k x → consumes_at calls j x →
      ∃ m, (k < m < j)%nat ∧ async_at calls m = false.
Proof.
  unfold AssignRandomAsync. rewrite (Clone_rename p Hp Hsafe). cbn [mbind outcome_bind]. set (f := copy_id p). set (q := rename_prog f p).
  assert (Hq : graph_ok q) by (apply rename_graph_ok; [intros x y; apply copy_id_inj, Hp|done]).
  assert (Hwq : well_typed typeRefs q) by (by apply well_typed_rename).
  assert (Hqs : ∀ i, async_at (Calls q) i = false).
  { intros i. unfold async_at. destruct (Calls q !! i) as [c|] eqn:E; [|done]. cbn. unfold q, rename_prog in E. cbn [Calls] in E. unfold copy_calls in E.
    rewrite list_lookup_fmap in E. destruct (Calls p !! i) as [c0|] eqn:E0; [|done]. injection E as <-. pose proof (Forall_lookup_1 _ _ _ _ Hsync E0) as H.
    destruct c0; done. }
  destruct (async_loop_spec typeRefs (Calls q) (go_calls q Hq)) with (i := length (Calls q)) (u := @None (gset (option argid))) (left := maxAsyncPerProg) (calls := Calls q) (r := r)
    as (calls & r' & i' & u' & left' & E & Hd & Hend); [| |done|].
  - intros i c Hc v. destruct (wt_calls typeRefs q Hwq c) as (m & Em & Hm); [by apply list_elem_of_lookup_2 in Hc|].
    apply (ForeachArg_results typeRefs (set_Async c v) m); [|done|done]. intros a Ha. apply (wt_sized typeRefs q Hwq). apply elem_of_calls_roots.
    exists c. split; [by apply list_elem_of_lookup_2 in Hc|done].
  - constructor; [by apply retimed_refl, go_calls|done|lia| | | |].
    + intros x. split; [set_solver|]. intros (j & Hj & (y & Hy & _) & _). unfold results_at in Hy. rewrite lookup_ge_None_2 in Hy by lia.
      by apply not_elem_of_nil in Hy.
    + intros k j x _ Hk. rewrite Hqs in Hk. done.
    + intros k Hk E. lia.
    + rewrite drop_ge by lia. cbn. unfold maxAsyncPerProg. lia.
  - rewrite E. cbn [mbind outcome_bind]. exists f, calls, r'. destruct Hd as [Hr Hf Hn Hu Ha Hl [Hc0 Hc]].
    assert (Hsame : ∀ j, (j < i')%nat → async_at calls j = false) by (intros j Hj; unfold async_at; rewrite Hf by done; apply Hqs).
    split_and!; [done|done|done| | |].
    + rewrite <-(take_drop i' calls), count_async_app, count_async_none; [lia|]. apply Forall_lookup_2. intros j c Hj.
      apply lookup_take_Some in Hj as [Hj Hlt]. specialize (Hsame j Hlt). unfold async_at in Hsame. by rewrite Hj in Hsame.
    + rewrite last_lookup. fold (async_at calls (pred (length calls))). destruct calls as [|c0 l]; [done|]. cbn [length pred].
      destruct (decide (i' ≤ length l)%nat); [by apply Hl|]. apply Hsame. lia.
    + intros k j x Hkj Hk Hpr Hco. destruct (decide (i' ≤ k)%nat) as [|Hlt].
      * apply (Ha k j x); [lia|done| |]; unfold produces_at, consumes_at in *; by setoid_rewrite <-(retimed_results _ _ _ Hr).
      * rewrite Hsame in Hk by lia. done.
Qed.


(** ** Copies that use the results of the originals *)

Section duplicates.
Context (q : Prog) (Hq : graph_ok q) (f : argid → argid).

(** A copy refers to what the original refers to; nothing uses it. *)
Definition dup_result (r : ResultArg) : ResultArg :=
  mkResultArg (rename_common f (res_common r)) (res_Res r) (OpDiv r) (OpAdd r) (res_Val r) ∅.
(** An original is also used by the copies of [l]. *)
Definition extended (l : list ResultArg) (r : ResultArg) : ResultArg := set_uses r (uses r ∪ set_map f (users l (rid r))).

Record duplicated (l : list ResultArg) (s : clone_state) : Prop := {
  du_new : cl_new s = None;
  du_old : ∀ r, r ∈ prog_results q → cl_heap s !! rid r = Some (extended l r);
  du_obj : ∀ r, r ∈ l → cl_heap s !! f (rid r) = Some (dup_result r);
  du_next : ∀ r, r ∈ l → fresh_id q ≤ f (rid r) < cl_next s;
  du_fresh : fresh_id q ≤ cl_next s
}.
Lemma rid_old r : r ∈ prog_results q → rid r < fresh_id q.
Proof. intros Hr. by apply fresh_id_gt, result_id. Qed.
Lemma users_snoc l r x : users (l ++ [r]) x = if decide (res_Res r = Some x) then users l x ∪ {[rid r]} else users l x.
Proof.
  rewrite users_app. unfold users at 2. rewrite filter_cons, filter_nil. destruct (decide (res_Res r = Some x)); cbn; by rewrite ?union_empty_r_L.
Qed.
Lemma duplicate_step l r s : duplicated l s → r ∈ prog_results q → f (rid r) = cl_next s →
  ∃ s', clone_result r s = Ret (dup_result r, s') ∧ duplicated (l ++ [r]) s' ∧ cl_next s' = cl_next s + 1.
Proof.
  intros [Hnew Hold Hobj Hnext Hfresh] Hr Ei. unfold clone_result, alloc. cbn [cl_next cl_new cl_heap]. rewrite Hnew. set (i := cl_next s) in *.
  assert (Ha : ∀ res, res = res_Res r → mkResultArg (set_id (res_common r) i) res (OpDiv r) (OpAdd r) (res_Val r) ∅ = dup_result r).
  { intros res ->. unfold dup_result, rename_common. fold (rid r). by rewrite Ei. }
  assert (Hdone : ∀ h, (∀ r0, r0 ∈ prog_results q → h !! rid r0 = Some (extended (l ++ [r]) r0)) → (∀ r0, r0 ∈ l → h !! f (rid r0) = Some (dup_result r0)) →
    duplicated (l ++ [r]) (mkClone (i + 1) None (<[i := dup_result r]> h))).
  { intros h H1 H2. constructor; cbn [cl_new cl_heap cl_next]; [done| | | |lia].
    - intros r0 Hr0. pose proof (rid_old r0 Hr0). rewrite lookup_insert_ne by lia. by apply H1.
    - intros r0 [H0| ->%list_elem_of_singleton]%elem_of_app; [|by rewrite Ei, lookup_insert_eq]. specialize (Hnext r0 H0).
      rewrite lookup_insert_ne by lia. by apply H2.
    - intros r0 [H0| ->%list_elem_of_singleton]%elem_of_app; [specialize (Hnext r0 H0)|]; lia. }
  destruct (res_Res r) as [x|] eqn:Ex; cbn [mbind outcome_bind].
  - destruct (find_result q Hq x r Hr Ex) as (rx & Hrx & <- & _). unfold note_use. rewrite (Hold rx Hrx). cbn [mbind outcome_bind].
    rewrite Ha by done. eexists. split; [done|]. split; [|done]. apply Hdone.
    + intros r0 Hr0. destruct (decide (rid r0 = rid rx)) as [E|Hne].
      * assert (r0 = rx) as -> by (eapply rid_inj; [by apply graph_ok_NoDup|done..]). rewrite lookup_insert_eq. f_equal. unfold extended, set_uses. cbn.
        f_equal. rewrite users_snoc, decide_True by done. rewrite set_map_union_L, set_map_singleton_L, Ei. set_solver.
      * rewrite lookup_insert_ne, (Hold r0 Hr0) by done. unfold extended. rewrite users_snoc, decide_False by (rewrite Ex; congruence). done.
    + intros r0 H0. pose proof (rid_old rx Hrx). specialize (Hnext r0 H0). rewrite lookup_insert_ne by lia. by apply Hobj.
  - rewrite Ha by done. eexists. split; [done|]. split; [|done]. apply Hdone; [|done]. intros r0 Hr0. rewrite (Hold r0 Hr0). unfold extended.
    rewrite users_snoc, decide_False by (rewrite Ex; done). done.
Qed.
Lemma duplicated_alloc l s : duplicated l s → duplicated l (alloc s).2.
Proof. intros [H1 H2 H3 H4 H5]. constructor; cbn; [done|done|done| |lia]. intros r Hr. specialize (H4 r Hr). lia. Qed.
Lemma duplicated_none : duplicated [] (mkClone (fresh_id q) None (objects q)).
Proof.
  constructor; cbn; [done| | | |lia]; [|by intros r ?%not_elem_of_nil..]. intros r Hr.
  assert (objects q !! rid r = Some r) as ->.
  { unfold objects. apply elem_of_list_to_map; [rewrite <-list_fmap_compose; by apply graph_ok_NoDup|]. apply list_elem_of_fmap. eauto. }
  f_equal. unfold extended, users. cbn. rewrite set_map_empty, union_empty_r_L. by destruct r.
Qed.
(** Writing the objects back. *)
Lemma refresh_copies l s k : duplicated l s → (∀ r, r ∈ roots_results (calls_roots k) → r ∈ l) → refresh_calls (cl_heap s) (copy_calls f dup_result k) = copy_calls f dup_result k.
Proof.
  intros H Hk. unfold refresh_calls. rewrite map_calls_copy. apply copy_calls_ext. intros r Hr. unfold compose, current.
  change (rid (dup_result r)) with (f (rid r)). by rewrite (du_obj _ _ H r (Hk r Hr)).
Qed.
Lemma refresh_originals l s k : duplicated l s → (∀ r, r ∈ roots_results (calls_roots k) → r ∈ prog_results q) → refresh_calls (cl_heap s) k = map_calls_results (extended l) k.
Proof.
  intros H Hk. unfold refresh_calls. apply map_calls_results_ext. intros r Hr. unfold current. by rewrite (du_old _ _ H r (Hk r Hr)).
Qed.

(** A program made of all originals and of copies of [l]. *)
Lemma extended_graph l calls :
  (∀ r, r ∈ l → r ∈ prog_results q) → (∀ r, r ∈ l → fresh_id q ≤ f (rid r)) →
  Forall is_Some calls → NoDup (roots_ids (calls_roots calls)) →
  roots_results (calls_roots calls) ≡ₚ (extended l <$> prog_results q) ++ (dup_result <$> l) →
  (∀ l1 r l2 x, roots_results (calls_roots calls) = l1 ++ r :: l2 → res_Res r = Some x → x ∈ rid <$> l1) →
  graph_ok (set_calls q calls).
Proof.
  intros Hl Hfr Hs Hn Hperm Hord. constructor; [done|done|done|]. intros r Hr. unfold prog_results in Hr |- *. cbn [set_calls Calls] in *. rewrite Hperm in Hr.
  assert (Hu : ∀ u x, u ∈ users (roots_results (calls_roots calls)) x ↔ u ∈ users (prog_results q) x ∨ u ∈ (set_map f (users l x) : gset argid)).
  { intros u x. rewrite elem_of_map. setoid_rewrite elem_of_users. setoid_rewrite Hperm. split.
    - intros (r0 & [(r1 & -> & H1)%list_elem_of_fmap|(r1 & -> & H1)%list_elem_of_fmap]%elem_of_app & <- & E); [left|right]; cbn in E; [eauto|].
      exists (rid r1). split; [done|]. eauto.
    - intros [(r0 & H0 & <- & E)|(u0 & -> & r0 & H0 & <- & E)].
      + exists (extended l r0). split_and!; [apply elem_of_app; left; apply list_elem_of_fmap; eauto|done|done].
      + exists (dup_result r0). split_and!; [apply elem_of_app; right; apply list_elem_of_fmap; eauto|done|done]. }
  apply set_eq. intros u. rewrite Hu. apply elem_of_app in Hr as [(r0 & -> & H0)%list_elem_of_fmap|(r0 & -> & H0)%list_elem_of_fmap].
  - change (rid (extended l r0)) with (rid r0). cbn [extended set_uses uses]. rewrite elem_of_union, (go_uses q Hq r0 H0). done.
  - change (rid (dup_result r0)) with (f (rid r0)). cbn [dup_result uses]. specialize (Hfr r0 H0).
    assert (Hno : ∀ r', r' ∈ prog_results q → res_Res r' ≠ Some (f (rid r0))).
    { intros r' Hr' E. destruct (find_result q Hq _ r' Hr' E) as (rx & Hrx & Ex & _). pose proof (rid_old rx Hrx). lia. }
    rewrite elem_of_map. setoid_rewrite elem_of_users. split; [set_solver|]. intros [(r' & H' & _ & E)|(u0 & _ & r' & H' & _ & E)]; exfalso; [by apply (Hno r')|by apply (Hno r'); [apply Hl|]].
Qed.
End duplicates.

(** ** The same calls up to their properties *)

Definition reprops (l l' : list (option Call)) : Prop := Forall2 (λ a b, ∃ pr, b = (λ c, set_Props c pr) <$> a) l l'.

Lemma reprops_refl l : reprops l l.
Proof. induction l as [|[c|] l IH]; constructor; [|done| |done]; [exists (Props c); by destruct c|by exists noProps]. Qed.
Lemma reprops_trans l1 l2 l3 : reprops l1 l2 → reprops l2 l3 → reprops l1 l3.
Proof.
  intros H. revert l3. induction H as [|a b l1 l2 [pr ->] _ IH]; intros l3 H3; inversion H3 as [|? b' ? ? [pr' ->]]; subst; constructor; [|by apply IH].
  exists pr'. by destruct a.
Qed.
Lemma reprops_app l1 l1' l2 l2' : reprops l1 l1' → reprops l2 l2' → reprops (l1 ++ l2) (l1' ++ l2').
Proof. apply Forall2_app. Qed.
Lemma retimed_reprops l l' : retimed l l' → reprops l l'.
Proof. intros H. eapply Forall2_impl; [exact H|]. intros a b (c & v & -> & ->). by eexists. Qed.
Lemma reprops_roots l l' : reprops l l' → calls_roots l' = calls_roots l.
Proof. unfold calls_roots. induction 1 as [|a b l l' [pr ->] _ IH]; [done|]. cbn. rewrite IH. by destruct a. Qed.
Lemma reprops_graph q l l' : reprops l l' → graph_ok (set_calls q l) → graph_ok (set_calls q l').
Proof.
  intros H [H1 H2 H3 H4]. unfold prog_ids, prog_results in *. cbn [set_calls Calls] in *.
  constructor; unfold prog_ids, prog_results; cbn [set_calls Calls]; rewrite ?(reprops_roots _ _ H); try done.
  clear -H H1. induction H as [|a b l l' [pr ->] _ IH]; [constructor|]. apply Forall_cons in H1 as [[c ->] H1]. constructor; [cbn; eauto|auto].
Qed.
Lemma reprops_length l l' : reprops l l' → length l' = length l.
Proof. intros H. symmetry. by eapply Forall2_length. Qed.
Lemma reprops_refresh h l l' : reprops l l' → reprops (refresh_calls h l) (refresh_calls h l').
Proof. unfold refresh_calls, map_calls_results. induction 1 as [|a b l l' [pr ->] _ IH]; [constructor|]. cbn [fmap list_fmap]. constructor; [|done]. exists pr. by destruct a. Qed.
Lemma make_async_reprops n l : reprops l (make_async n l).
Proof.
  revert n. induction l as [|[c|] l IH]; intros [|n]; try apply reprops_refl. cbn. constructor; [|apply IH]. by eexists.
Qed.
Lemma make_async_map g n l : map_calls_results g (make_async n l) = make_async n (map_calls_results g l).
Proof. revert n. induction l as [|[c|] l IH]; intros [|n]; try done. cbn. f_equal. apply IH. Qed.
Lemma make_async_count n l : Forall is_Some l → Forall (λ c, is_async c = false) l → count_async (make_async n l) = Nat.min n (length l).
Proof.
  intros Hs. revert n. induction Hs as [|x l [c ->] _ IH]; intros [|n] Ha; try done; [by rewrite count_async_none|].
  apply Forall_cons in Ha as [_ Ha]. cbn [make_async]. unfold count_async in *. rewrite filter_cons, decide_True by done. cbn. by rewrite IH.
Qed.

(** ** Executing the program twice *)

Lemma linked_all (P : ResultArg → Prop) l k : (∀ r, r ∈ k → P r) → linked (λ _ r, P r) l k.
Proof. revert l. induction k as [|r k IH]; intros l H; [done|]. split; [apply H; by left|]. apply IH. intros r' Hr'. apply H. by right. Qed.

Lemma double_spec q : graph_ok q → isUnsafe q = false →
  let f := copy_id q in let R := prog_results q in
  ∃ s, cloneCalls (Calls q) (mkClone (fresh_id q) None (objects q)) = Ret (copy_calls f (dup_result f) (Calls q), s) ∧ duplicated q f R s
  ∧ graph_ok (set_calls q (map_calls_results (extended f R) (Calls q) ++ copy_calls f (dup_result f) (Calls q))).
Proof.
  intros Hq Hs f R.
  destruct (clone_calls_spec f (dup_result f) (duplicated q f) (λ _ r, r ∈ prog_results q) (duplicate_step q Hq f) (duplicated_alloc q f) (Calls q) (go_calls q Hq)
    [] (mkClone (fresh_id q) None (objects q))) as (s & E & Hd); [by apply duplicated_none|by apply linked_all| |].
  { intros k x Hk. cbn [cl_next]. by apply copy_id_lookup; [apply Hq|]. }
  exists s. split_and!; [done|done|]. change (roots_results (calls_roots (Calls q))) with R in Hd.
  assert (Hres : roots_results (calls_roots (map_calls_results (extended f R) (Calls q) ++ copy_calls f (dup_result f) (Calls q)))
    = (extended f R <$> R) ++ (dup_result f <$> R)).
  { by rewrite calls_roots_app, roots_results_app, calls_roots_map, roots_results_map, results_copy. }
  assert (Hrid : ∀ l : list ResultArg, rid <$> (extended f R <$> l) = rid <$> l) by (intros l; by rewrite <-list_fmap_compose).
  apply (extended_graph q Hq f R); [done|intros r _; apply id_from_ge| | |by rewrite Hres|].
  - apply Forall_app. split; apply Forall_fmap, (Forall_impl _ _ _ (go_calls q Hq)); intros x [c ->]; cbn; eauto.
  - rewrite calls_roots_app, roots_ids_app, calls_roots_map, roots_ids_map, ids_copy by done. apply NoDup_app. split_and!.
    + apply Hq.
    + intros x Hx (y & -> & _)%list_elem_of_fmap. apply (fresh_id_gt q) in Hx. pose proof (id_from_ge (fresh_id q) (prog_ids q) y). unfold f, copy_id in Hx. lia.
    + apply NoDup_fmap_2_strong; [|apply Hq]. intros x y Hx Hy. apply copy_id_inj; [apply Hq|done|done].
  - intros l1 r l2 x. rewrite Hres. intros E' Ex.
    assert (Hlate : ∀ k r0, l1 = (extended f R <$> R) ++ k → r0 ∈ R → res_Res r0 = Some x → x ∈ rid <$> l1).
    { intros k r0 -> H0 E0. destruct (find_result q Hq x r0 H0 E0) as (rx & Hrx & <- & _). rewrite fmap_app, Hrid. apply elem_of_app. left.
      apply list_elem_of_fmap. eauto. }
    apply app_eq_inv in E' as [(k & E1 & E2)|(k & E1 & E2)].
    + destruct k as [|r1 k]; cbn in E2.
      * destruct R as [|r0 R'] eqn:ER; [done|]. injection E2 as -> _. rewrite app_nil_r in E1.
        apply (Hlate [] r0); [by rewrite app_nil_r|by left|done].
      * injection E2 as <- _. apply fmap_app_inv in E1 as (m1 & m2 & -> & E2 & Em). destruct m2 as [|r0 m2]; [done|]. injection E2 as -> _.
        rewrite Hrid. by apply (go_order q Hq m1 r0 m2 x).
    + apply fmap_app_inv in E2 as (m1 & m2 & -> & E2 & Em). destruct m2 as [|r0 m2]; [done|]. injection E2 as -> _.
      eapply (Hlate _ r0); [done| |done]. rewrite Em. apply elem_of_app. right. by left.
Qed.

Lemma DoubleExecCollide_spec p r : graph_ok p → isUnsafe p = false →
  (MaxCalls < len (Calls p) * 2 ∧ DoubleExecCollide p r = Ret (inl ErrProgTooBig))
  ∨ (len (Calls p) * 2 ≤ MaxCalls ∧ ∃ f g calls, let q := rename_prog f p in let R := prog_results q in
      calls = map_calls_results (extended g R) (Calls q) ++ make_async (Z.to_nat maxAsyncPerProg) (copy_calls g (dup_result g) (Calls q))
      ∧ DoubleExecCollide p r = Ret (inr (set_calls q calls)) ∧ graph_ok (set_calls q calls)).
Proof.
  intros Hp Hs. unfold DoubleExecCollide. case_decide as Hlen; [by left|]. right. split; [lia|].
  rewrite (Clone_rename p Hp Hs). cbn [mbind outcome_bind]. set (f := copy_id p). set (q := rename_prog f p).
  assert (Hq : graph_ok q) by (apply rename_graph_ok; [intros x y; apply copy_id_inj, Hp|done]).
  destruct (double_spec q Hq eq_refl) as (s & -> & Hd & Hg). cbn [mbind outcome_bind]. exists f, (copy_id q). eexists. split_and!; [reflexivity| |].
  - unfold refresh_calls. do 4 f_equal. unfold map_calls_results at 1. rewrite fmap_app. f_equal.
    + fold (map_calls_results (current (cl_heap s)) (Calls q)). by apply (refresh_originals q (copy_id q) (prog_results q) s).
    + fold (map_calls_results (current (cl_heap s)) (make_async (Z.to_nat maxAsyncPerProg) (copy_calls (copy_id q) (dup_result (copy_id q)) (Calls q)))).
      rewrite make_async_map. f_equal. by apply (refresh_copies q (copy_id q) (prog_results q) s).
  - eapply reprops_graph; [|exact Hg]. apply reprops_app; [apply reprops_refl|apply make_async_reprops].
Qed.

(** ** Duplicating some calls *)

Lemma perm_loop_spec n i m r : m ≡ₚ seqZ 0 (Z.of_nat i) → ∃ l r', perm_loop n i m r = Ret (l, r') ∧ l ≡ₚ seqZ 0 (Z.of_nat (i + n)).
Proof.
  revert i m r. induction n as [|n IH]; intros i m r Hm; cbn [perm_loop]; [exists m, r; by rewrite Nat.add_0_r|].
  destruct (Intn_Ret (Z.of_nat i + 1) r) as (j & -> & Hj); [lia|]. cbn [mbind outcome_bind].
  assert (Hl : length m = i) by (rewrite Hm, length_seqZ; lia).
  destruct (lookup_lt_is_Some_2 (m ++ [0]) (Z.to_nat j)) as [x Hx]; [rewrite length_app; cbn; lia|].
  unfold index. rewrite decide_True, Hx by lia. cbn [mbind outcome_bind].
  destruct (IH (S i) (<[Z.to_nat j := Z.of_nat i]> (m ++ [x])) (tl r)) as (l & r' & -> & H).
  - assert (<[Z.to_nat j := Z.of_nat i]> (m ++ [x]) ≡ₚ m ++ [Z.of_nat i]) as ->.
    { destruct (decide (Z.to_nat j < i)%nat) as [Hlt|Hge].
      - rewrite lookup_app_l in Hx by lia. rewrite insert_app_l by lia. rewrite insert_take_drop by lia. apply take_drop_middle in Hx.
        transitivity ((take (Z.to_nat j) m ++ x :: drop (S (Z.to_nat j)) m) ++ [Z.of_nat i]); [solve_Permutation|by rewrite Hx].
      - replace (Z.to_nat j) with (length m + 0)%nat by lia. rewrite insert_app_r. done. }
    rewrite Hm. by rewrite seqZ_S.
  - exists l, r'. split; [done|]. by replace (i + S n)%nat with (S i + n)%nat by lia.
Qed.
Lemma Perm_spec n r : 0 ≤ n → ∃ l r', Perm n r = Ret (l, r') ∧ l ≡ₚ seqZ 0 n.
Proof. intros Hn. destruct (perm_loop_spec (Z.to_nat n) 0 [] r) as (l & r' & E & H); [done|]. exists l, r'. split; [done|]. by replace (Z.of_nat (0 + Z.to_nat n)) with n in H by lia. Qed.

Section dups.
Context (q : Prog) (Hq : graph_ok q) (f : argid → argid) (duplicate : gset Z).

(** The calls with asynchronous copies before the chosen ones. *)
Fixpoint with_dups (g : ResultArg → ResultArg) (i : Z) (l : list (option Call)) : list (option Call) :=
  match l with
  | [] => []
  | c :: l =>
      (if decide (i ∈ duplicate) then [(λ c, set_Async (copy_call f (dup_result f) c) true) <$> c] else [])
      ++ (map_call_results g <$> c) :: with_dups g (i + 1) l
  end.
(** The roots of the chosen calls. *)
Fixpoint dup_roots (i : Z) (l : list (option Call)) : list Arg :=
  match l with
  | [] => []
  | c :: l => (if decide (i ∈ duplicate) then from_option call_roots [] c else []) ++ dup_roots (i + 1) l
  end.
Lemma dup_roots_sub i l a : a ∈ dup_roots i l → a ∈ calls_roots l.
Proof.
  revert i. induction l as [|c l IH]; intros i; [done|]. cbn [dup_roots]. unfold calls_roots. cbn [fmap list_fmap concat]. rewrite !elem_of_app.
  intros [H|H]; [left; destruct (decide (i ∈ duplicate)); [done|by apply not_elem_of_nil in H]|right; by eapply IH].
Qed.
Lemma dup_loop_spec l : ∀ i D s, Forall is_Some l → (∀ r, r ∈ roots_results (calls_roots l) → r ∈ prog_results q) → duplicated q f D s →
  numbered f (roots_ids (dup_roots i l)) (cl_next s) →
  ∃ s', dup_loop duplicate i l s = Ret (with_dups (λ r, r) i l, s') ∧ duplicated q f (D ++ roots_results (dup_roots i l)) s'.
Proof.
  induction l as [|x l IH]; intros i D s Hs Hin Hd Hn; cbn [dup_loop with_dups dup_roots]; [exists s; by rewrite app_nil_r|].
  apply Forall_cons in Hs as [[c ->] Hs]. cbn [dup_roots] in Hn. rewrite roots_ids_app in Hn. apply numbered_app in Hn as [Hn1 Hn2].
  change (calls_roots (Some c :: l)) with (call_roots c ++ calls_roots l) in Hin. rewrite roots_results_app in Hin.
  assert (Hfront : ∃ s1, (if decide (i ∈ duplicate) then '(d, s) ← cloneCall c s; Ret ([Some (set_Async d true)], s) else Ret ([], s))
      = Ret (if decide (i ∈ duplicate) then [Some (set_Async (copy_call f (dup_result f) c) true)] else [], s1)
    ∧ duplicated q f (D ++ roots_results (if decide (i ∈ duplicate) then call_roots c else [])) s1
    ∧ cl_next s1 = cl_next s + len (roots_ids (if decide (i ∈ duplicate) then call_roots c else []))).
  { destruct (decide (i ∈ duplicate)).
    - destruct (clone_call_spec f (dup_result f) (duplicated q f) (λ _ r, r ∈ prog_results q) (duplicate_step q Hq f) (duplicated_alloc q f) c D s Hd) as (s1 & -> & H1 & H2);
        [|done|by exists s1]. apply linked_all. intros r Hr. apply Hin, elem_of_app. by left.
    - exists s. split_and!; [done|by rewrite app_nil_r|unfold len; cbn; lia]. }
  cbn [from_option] in *. destruct Hfront as (s1 & -> & H1 & H2). cbn [mbind outcome_bind]. rewrite <-H2 in Hn2.
  destruct (IH (i + 1) _ s1 Hs (λ r Hr, Hin r (proj2 (elem_of_app _ _ _) (or_intror Hr))) H1 Hn2) as (s2 & -> & H3). cbn [mbind outcome_bind].
  exists s2. split; [|by rewrite roots_results_app, app_assoc]. cbn [fmap option_fmap option_map]. rewrite map_call_results_id. by case_decide.
Qed.

Lemma with_dups_map g i l : Forall is_Some l → ∀ h, (∀ r, r ∈ roots_results (dup_roots i l) → h (dup_result f r) = dup_result f r) →
  (∀ r, r ∈ roots_results (calls_roots l) → h r = g r) → map_calls_results h (with_dups (λ r, r) i l) = with_dups g i l.
Proof.
  intros Hs h. revert i. induction Hs as [|x l [c ->] _ IH]; intros i Hdup Hold; [done|].
  change (calls_roots (Some c :: l)) with (call_roots c ++ calls_roots l) in Hold. rewrite roots_results_app in Hold. setoid_rewrite elem_of_app in Hold.
  cbn [dup_roots] in Hdup. rewrite roots_results_app in Hdup. setoid_rewrite elem_of_app in Hdup.
  cbn [with_dups]. unfold map_calls_results. rewrite fmap_app. fold (map_calls_results h). f_equal; [|cbn [fmap list_fmap]; f_equal].
  - destruct (decide (i ∈ duplicate)); [|done]. cbn [fmap list_fmap option_fmap option_map]. do 2 f_equal.
    change (map_call_results h (set_Async (copy_call f (dup_result f) c) true)) with (set_Async (map_call_results h (copy_call f (dup_result f) c)) true).
    rewrite map_call_copy. f_equal. apply copy_call_ext. intros r Hr. apply Hdup. by left.
  - cbn. f_equal. rewrite map_call_results_id. apply map_call_results_ext. intros r Hr. apply Hold. by left.
  - apply IH; [intros r Hr; apply Hdup; by right|intros r Hr; apply Hold; by right].
Qed.

Section placed.
Context (g : ResultArg → ResultArg) (Hg : ∀ r, res_common (g r) = res_common r) (HgR : ∀ r, res_Res (g r) = res_Res r).
Lemma with_dups_cons i c l : calls_roots (with_dups g i (Some c :: l)) =
  (if decide (i ∈ duplicate) then copy_arg f (dup_result f) <$> call_roots c else []) ++ (map_results g <$> call_roots c) ++ calls_roots (with_dups g (i + 1) l).
Proof.
  cbn [with_dups]. rewrite calls_roots_app. f_equal.
  - destruct (decide (i ∈ duplicate)); [|done]. unfold calls_roots. cbn. rewrite app_nil_r. unfold call_roots. cbn. rewrite fmap_app. f_equal. by destruct (CRet c).
  - change (calls_roots ((map_call_results g <$> Some c) :: ?k)) with (call_roots (map_call_results g c) ++ calls_roots k). f_equal.
    unfold call_roots. cbn. rewrite fmap_app. f_equal. by destruct (CRet c).
Qed.
Lemma copy_roots_results l : roots_results (copy_arg f (dup_result f) <$> l) = dup_result f <$> roots_results l.
Proof. unfold roots_results. rewrite <-list_fmap_compose. apply concat_fmap_fmap. intros x _. apply arg_results_copy. Qed.
Lemma copy_roots_ids l : roots_ids (copy_arg f (dup_result f) <$> l) = f <$> roots_ids l.
Proof. unfold roots_ids. rewrite <-list_fmap_compose. apply concat_fmap_fmap. intros x _. by apply arg_ids_copy. Qed.

Lemma with_dups_results i l : Forall is_Some l →
  roots_results (calls_roots (with_dups g i l)) ≡ₚ (g <$> roots_results (calls_roots l)) ++ (dup_result f <$> roots_results (dup_roots i l)).
Proof.
  intros Hs. revert i. induction Hs as [|x l [c ->] _ IH]; intros i; [done|]. rewrite with_dups_cons, !roots_results_app, IH.
  change (calls_roots (Some c :: l)) with (call_roots c ++ calls_roots l). cbn [dup_roots from_option]. rewrite !roots_results_app, !fmap_app, roots_results_map.
  destruct (decide (i ∈ duplicate)); [rewrite copy_roots_results; solve_Permutation|]. cbn. solve_Permutation.
Qed.
Lemma with_dups_ids i l : Forall is_Some l → roots_ids (calls_roots (with_dups g i l)) ≡ₚ roots_ids (calls_roots l) ++ (f <$> roots_ids (dup_roots i l)).
Proof.
  intros Hs. revert i. induction Hs as [|x l [c ->] _ IH]; intros i; [done|]. rewrite with_dups_cons, !roots_ids_app, IH.
  change (calls_roots (Some c :: l)) with (call_roots c ++ calls_roots l). cbn [dup_roots from_option]. rewrite !roots_ids_app, !fmap_app, roots_ids_map by done.
  destruct (decide (i ∈ duplicate)); [rewrite copy_roots_ids; solve_Permutation|]. cbn. solve_Permutation.
Qed.
Lemma dup_roots_ids i l : roots_ids (dup_roots i l) `sublist_of` roots_ids (calls_roots l).
Proof.
  revert i. induction l as [|c l IH]; intros i; [done|]. cbn [dup_roots]. unfold calls_roots. cbn [fmap list_fmap concat]. rewrite !roots_ids_app.
  apply sublist_app; [|apply IH]. case_decide; [done|apply sublist_nil_l].
Qed.
Lemma with_dups_some i l : Forall is_Some l → Forall is_Some (with_dups g i l).
Proof.
  intros Hs. revert i. induction Hs as [|x l [c ->] _ IH]; intros i; [constructor|]. cbn [with_dups]. apply Forall_app. split; [case_decide; [|constructor]|constructor; [|apply IH]].
  - apply Forall_singleton. cbn. eauto.
  - cbn. eauto.
Qed.

(** A call does not use its own results. *)
Definition no_self_use (l : list (option Call)) : Prop :=
  ∀ c r x, Some c ∈ l → r ∈ roots_results (call_roots c) → res_Res r = Some x → x ∉ rid <$> roots_results (call_roots c).

Lemma with_dups_order i l P : no_self_use l → Forall is_Some l → prog_results q = P ++ roots_results (calls_roots l) →
  ∀ l1 r l2 x, roots_results (calls_roots (with_dups g i l)) = l1 ++ r :: l2 → res_Res r = Some x → x ∈ rid <$> P ++ l1.
Proof.
  intros Hself Hs. revert i P Hself. induction Hs as [|y l [c ->] Hs IH]; intros i P Hself HP l1 r l2 x E Ex; [by destruct l1|].
  rewrite with_dups_cons, !roots_results_app in E. change (calls_roots (Some c :: l)) with (call_roots c ++ calls_roots l) in HP. rewrite roots_results_app in HP.
  assert (Hown : ∀ r0, r0 ∈ roots_results (call_roots c) → res_Res r0 = Some x → x ∈ rid <$> P).
  { intros r0 H0 E0. pose proof (Hself c r0 x ltac:(by left) H0 E0) as Hno. apply list_elem_of_lookup in H0 as [j Hj]. apply take_drop_middle in Hj.
    pose proof (go_order q Hq (P ++ take j (roots_results (call_roots c))) r0 (drop (S j) (roots_results (call_roots c)) ++ roots_results (calls_roots l)) x) as Ho.
    rewrite fmap_app, elem_of_app in Ho. destruct Ho as [Ho|Ho]; [|done|done|].
    - rewrite HP, <-Hj at 1. by rewrite <-!app_assoc.
    - exfalso. apply Hno. apply list_elem_of_fmap in Ho as (rx & -> & [k Hk]%list_elem_of_lookup). apply lookup_take_Some in Hk as [Hk _].
      apply list_elem_of_fmap. exists rx. split; [done|]. by apply list_elem_of_lookup_2 in Hk. }
  assert (Hfront : ∀ k, (if decide (i ∈ duplicate) then roots_results (copy_arg f (dup_result f) <$> call_roots c) else []) ++ roots_results (map_results g <$> call_roots c) = k →
      ∀ r, r ∈ k → res_Res r = Some x → x ∈ rid <$> P).
  { intros k <- r0 H0 E0. apply elem_of_app in H0 as [H0|H0].
    - destruct (decide (i ∈ duplicate)); [|by apply not_elem_of_nil in H0]. rewrite copy_roots_results in H0. apply list_elem_of_fmap in H0 as (r1 & -> & H1). by apply (Hown r1).
    - rewrite roots_results_map in H0. apply list_elem_of_fmap in H0 as (r1 & -> & H1). rewrite HgR in E0. by apply (Hown r1). }
  set (fr := (if decide (i ∈ duplicate) then roots_results (copy_arg f (dup_result f) <$> call_roots c) else []) ++ roots_results (map_results g <$> call_roots c)) in *.
  assert (E' : fr ++ roots_results (calls_roots (with_dups g (i + 1) l)) = l1 ++ r :: l2) by (rewrite <-E; unfold fr; rewrite <-app_assoc; by case_decide).
  assert (Hrest : ∀ k, l1 = fr ++ k → roots_results (calls_roots (with_dups g (i + 1) l)) = k ++ r :: l2 → x ∈ rid <$> P ++ l1).
  { intros k -> Ek. assert (Hx : x ∈ rid <$> (P ++ roots_results (call_roots c)) ++ k).
    { apply (IH (i + 1) (P ++ roots_results (call_roots c))) with (r := r) (l2 := l2); [|by rewrite <-app_assoc|done|done].
      intros c' r' x' Hc'. apply Hself. by right. }
    unfold fr. rewrite !fmap_app, !elem_of_app in *. destruct Hx as [[Hx|Hx]|Hx]; [by left| |by right; right]. right. left. right.
    rewrite roots_results_map, <-list_fmap_compose. apply list_elem_of_fmap in Hx as (r0 & -> & H0). apply list_elem_of_fmap. exists r0. split; [|done].
    unfold compose, rid. by rewrite Hg. }
  clear E. apply app_eq_inv in E' as [(k & E1 & E2)|(k & E1 & E2)]; [|by eapply Hrest].
  destruct k as [|r1 k]; cbn in E2; [apply (Hrest []); [by rewrite app_nil_r in E1 |- *|done]|].
  injection E2 as <- _. rewrite fmap_app, elem_of_app. left. apply (Hfront fr eq_refl r); [rewrite E1; apply elem_of_app; right; by left|done].
Qed.
End placed.

Lemma with_dups_count g i l : Forall is_Some l → Forall (λ c, is_async c = false) l →
  let k := length (filter (λ j, j ∈ duplicate) (seqZ i (len l))) in
  length (with_dups g i l) = (length l + k)%nat ∧ count_async (with_dups g i l) = k.
Proof.
  intros Hs. revert i. induction Hs as [|x l [c ->] _ IH]; intros i Ha; [done|]. apply Forall_cons in Ha as [Hc Ha]. destruct (IH (i + 1) Ha) as [H1 H2].
  assert (E : seqZ i (len (Some c :: l)) = i :: seqZ (i + 1) (len l)).
  { rewrite seqZ_cons by (unfold len; cbn; lia). f_equal. f_equal; unfold len; cbn [length]; lia. }
  cbn zeta. rewrite E, filter_cons. cbn [with_dups]. rewrite length_app, count_async_app. change (?c :: with_dups g (i + 1) l) with ([c] ++ with_dups g (i + 1) l).
  rewrite length_app, count_async_app, H1, H2. rewrite (count_async_none [_]) by (apply Forall_singleton; done).
  destruct (decide (i ∈ duplicate)); cbn [length]; [|split; [cbn; lia|done]]. unfold count_async. rewrite filter_cons, decide_True by done. cbn. lia.
Qed.
End dups.

Lemma dup_spec q duplicate : graph_ok q → no_self_use (Calls q) →
  let ids := roots_ids (dup_roots duplicate 0 (Calls q)) in let D := roots_results (dup_roots duplicate 0 (Calls q)) in let f := id_from (fresh_id q) ids in
  ∃ s l, dup_loop duplicate 0 (Calls q) (mkClone (fresh_id q) None (objects q)) = Ret (l, s)
  ∧ refresh_calls (cl_heap s) l = with_dups f duplicate (extended f D) 0 (Calls q)
  ∧ graph_ok (set_calls q (with_dups f duplicate (extended f D) 0 (Calls q))).
Proof.
  intros Hq Hself ids D f.
  assert (Hids : NoDup ids) by (eapply sublist_NoDup; [apply (go_ids q Hq)|apply dup_roots_ids]).
  assert (HD : ∀ r, r ∈ D → r ∈ prog_results q).
  { intros r (a & Ha & Hr)%elem_of_roots_results. apply elem_of_roots_results. exists a. split; [by eapply dup_roots_sub|done]. }
  destruct (dup_loop_spec q Hq f duplicate (Calls q) 0 [] (mkClone (fresh_id q) None (objects q))) as (s & E & Hd); [apply Hq|done|by apply duplicated_none| |].
  { intros k x Hk. by apply id_from_lookup. }
  exists s. eexists. split_and!; [exact E| |].
  - apply with_dups_map; [apply Hq| |].
    + intros r Hr. unfold current. change (rid (dup_result f r)) with (f (rid r)). by rewrite (du_obj _ _ _ _ Hd r Hr).
    + intros r Hr. unfold current. by rewrite (du_old _ _ _ _ Hd r Hr).
  - apply (extended_graph q Hq f D); [done|intros; apply id_from_ge|apply with_dups_some, Hq| |by apply with_dups_results, Hq|].
    + rewrite with_dups_ids by (done || apply Hq). apply NoDup_app. split_and!.
      * apply Hq.
      * intros x Hx (y & -> & _)%list_elem_of_fmap. apply (fresh_id_gt q) in Hx. pose proof (id_from_ge (fresh_id q) ids y). unfold f in Hx. lia.
      * apply NoDup_fmap_2_strong; [|done]. intros x y. by apply id_from_inj.
    + intros l1 r l2 x El Ex. by apply (with_dups_order q Hq f duplicate (extended f D) ltac:(done) ltac:(done) 0 (Calls q) [] Hself (go_calls q Hq) eq_refl l1 r l2 x).
Qed.

Lemma no_self_rename f p : (∀ x y, x ∈ prog_ids p → y ∈ prog_ids p → f x = f y → x = y) → graph_ok p → no_self_use (Calls p) → no_self_use (Calls (rename_prog f p)).
Proof.
  intros Hf Hp Hself c r x Hc Hr Ex Hin. cbn in Hc. apply list_elem_of_fmap in Hc as (c0 & E & Hc0). destruct c0 as [c0|]; [|done]. injection E as ->.
  assert (Hroots : roots_results (call_roots (copy_call f (rename_result f) c0)) = rename_result f <$> roots_results (call_roots c0)).
  { pose proof (results_copy f (rename_result f) [Some c0]) as H. unfold calls_roots in H. cbn in H. by rewrite !app_nil_r in H. }
  rewrite Hroots in Hr, Hin. apply list_elem_of_fmap in Hr as (r0 & -> & H0). cbn in Ex. destruct (res_Res r0) as [x0|] eqn:E0; [|done]. injection Ex as <-.
  rewrite <-list_fmap_compose in Hin. apply list_elem_of_fmap in Hin as (r1 & E1 & H1). change (f x0 = f (rid r1)) in E1.
  assert (Hres : ∀ r, r ∈ roots_results (call_roots c0) → r ∈ prog_results p) by (intros; apply results_of_calls; eauto).
  destruct (find_result p Hp x0 r0 (Hres r0 H0) E0) as (rx & Hrx & Erx & _).
  apply Hf in E1; [|rewrite <-Erx; by apply result_id|apply result_id; auto]. apply (Hself c0 r0 x0 Hc0 H0 E0). rewrite E1. apply list_elem_of_fmap. eauto.
Qed.
Lemma sync_rename f p : Forall (λ c, is_async c = false) (Calls p) → Forall (λ c, is_async c = false) (Calls (rename_prog f p)).
Proof. intros H. cbn. apply Forall_fmap, (Forall_impl _ _ _ H). by intros [c|]. Qed.

Lemma DupCallCollide_spec p r : graph_ok p → isUnsafe p = false → no_self_use (Calls p) → Forall (λ c, is_async c = false) (Calls p) → len (Calls p) ≤ MaxCalls →
  ∃ res r', DupCallCollide p r = Ret (res, r') ∧
  match res with
  | inl _ => len (Calls p) < 2 ∨ len (Calls p) = MaxCalls
  | inr p' => graph_ok p' ∧ len (Calls p) < len (Calls p') ≤ MaxCalls ∧ Z.of_nat (count_async (Calls p')) = len (Calls p') - len (Calls p)
      ∧ Z.of_nat (count_async (Calls p')) ≤ maxAsyncPerProg
  end.
Proof.
  intros Hp Hs Hself Hsync Hmax. unfold DupCallCollide. set (n := len (Calls p)) in *. case_decide as H2; [eexists _, r; split; [done|]; by left|].
  set (k := Z.min _ _). assert (Hk : 0 ≤ k ≤ n ∧ k ≤ maxAsyncPerProg ∧ (k = 0 → n = MaxCalls) ∧ k ≤ MaxCalls - n).
  { unfold k, maxAsyncPerProg. pose proof (Z.div_lt n 3 ltac:(lia) ltac:(lia)). lia. }
  case_decide as H0; [eexists _, r; split; [done|]; right; lia|].
  destruct (Perm_spec n r) as (perm & r1 & -> & Hperm); [lia|]. cbn [mbind outcome_bind]. rewrite decide_False by lia.
  rewrite (Clone_rename p Hp Hs). cbn [mbind outcome_bind]. set (f := copy_id p). set (q := rename_prog f p).
  assert (Hinj : ∀ x y, x ∈ prog_ids p → y ∈ prog_ids p → f x = f y → x = y) by (intros x y; apply copy_id_inj, Hp).
  assert (Hq : graph_ok q) by (by apply rename_graph_ok).
  set (dup := list_to_set (take (Z.to_nat k) perm) : gset Z).
  destruct (dup_spec q dup Hq) as (s & l & -> & Er & Hg); [by apply no_self_rename|]. cbn [mbind outcome_bind]. rewrite Er. eexists _, r1. split; [done|]. cbn beta iota.
  match goal with |- graph_ok (set_calls q (with_dups ?h ?d ?g 0 (Calls q))) ∧ _ => destruct (with_dups_count h d g 0 (Calls q) (go_calls q Hq) (sync_rename f p Hsync)) as [E1 E2] end.
  split; [exact Hg|]. cbn [set_calls Calls]. rewrite E2. unfold len at 2 4. rewrite E1.
  assert (Hlen : length (filter (λ j, j ∈ dup) (seqZ 0 (len (Calls q)))) = Z.to_nat k).
  { assert (Eq : len (Calls q) = n) by (unfold len, n; cbn; unfold copy_calls; by rewrite length_fmap). rewrite Eq.
    assert (Hnp : NoDup perm) by (rewrite Hperm; apply NoDup_seqZ).
    transitivity (length (take (Z.to_nat k) perm)); [|rewrite length_take; assert (length perm = Z.to_nat n) by (rewrite Hperm, length_seqZ; done); lia].
    apply Permutation_length, NoDup_Permutation; [apply NoDup_filter, NoDup_seqZ|by eapply sublist_NoDup; [|apply sublist_take]|].
    intros x. rewrite list_elem_of_filter. unfold dup. rewrite elem_of_list_to_set. split; [tauto|]. intros Hx. split; [done|]. rewrite <-Hperm.
    eapply sublist_elem_of; [apply sublist_take|done]. }
  assert (Elen : length (Calls q) = length (Calls p)) by (cbn; unfold copy_calls; by rewrite length_fmap).
  rewrite Hlen, Elen. unfold n, len in *. lia.
Qed.

(** ** Rerun pairs *)

(** Disjoint pairs of an asynchronous call and the next one are rerun. *)
Inductive rerun_pairs : list (option Call) → list (option Call) → Prop :=
| rp_nil : rerun_pairs [] []
| rp_skip c l l' : rerun_pairs l l' → rerun_pairs (c :: l) (c :: l')
| rp_pair c d n l l' : Async (Props c) = true → n ∈ rerunSteps → rerun_pairs l l' →
    rerun_pairs (Some c :: Some d :: l) (Some (set_Rerun c n) :: Some (set_Rerun d n) :: l').

Lemma rerun_loop_spec l r : Forall is_Some l → ∃ l' r', rerun_loop l r = Ret (l', r') ∧ rerun_pairs l l'.
Proof.
  remember (length l) as n eqn:Hn. revert l r Hn. induction (lt_wf n) as [n _ IH]. intros l r -> Hs.
  destruct Hs as [|x l [c ->] Hs]; [exists [], r; by split; [|constructor]|]. destruct Hs as [|y l [d ->] Hs]; [exists [Some c], r; split; [done|]; repeat constructor|].
  cbn [rerun_loop].
  assert (Hhit : ∃ hit r1, (if Async (Props c) then '(n, r) ← Intn 4 r; Ret (bool_decide (n = 0), r) else Ret (false, r)) = Ret (hit, r1) ∧ (hit = true → Async (Props c) = true)).
  { destruct (Async (Props c)); [|by exists false, r]. destruct (Intn_Ret 4 r) as (m & -> & _); [lia|]. cbn. eauto. }
  destruct Hhit as (hit & r1 & -> & Hhit). cbn [mbind outcome_bind]. destruct hit; cbn [negb].
  - destruct (Intn_Ret (len rerunSteps) r1) as (m & -> & Hm); [done|]. cbn [mbind outcome_bind].
    destruct (lookup_lt_is_Some_2 rerunSteps (Z.to_nat m)) as [v Hv]; [unfold len in Hm; lia|]. unfold index. rewrite decide_True, Hv by lia. cbn [mbind outcome_bind].
    destruct (IH (length l) ltac:(cbn; lia) l (tl r1) eq_refl Hs) as (l' & r2 & -> & H). cbn [mbind outcome_bind]. eexists _, r2. split; [done|].
    constructor; [auto|by apply list_elem_of_lookup_2 in Hv|done].
  - destruct (IH (length (Some d :: l)) ltac:(cbn; lia) (Some d :: l) r1 eq_refl) as (l' & r2 & E & H); [constructor; [eauto|done]|].
    cbn [rerun_loop] in E |- *. rewrite E. cbn [mbind outcome_bind]. eexists _, r2. split; [done|]. by constructor.
Qed.
Lemma rerun_pairs_reprops l l' : rerun_pairs l l' → reprops l l' ∧ count_async l' = count_async l.
Proof.
  induction 1 as [|c l l' _ [IH1 IH2]|c d n l l' Hc Hn _ [IH1 IH2]]; [split; [constructor|done]| |].
  - split; [|change (c :: l') with ([c] ++ l'); change (c :: l) with ([c] ++ l); rewrite !count_async_app; lia].
    constructor; [|done]. destruct c as [c|]; [exists (Props c); by destruct c|by exists noProps].
  - split; [constructor; [by eexists|constructor; [by eexists|done]]|].
    change (Some (set_Rerun c n) :: Some (set_Rerun d n) :: l') with ([Some (set_Rerun c n)] ++ [Some (set_Rerun d n)] ++ l').
    change (Some c :: Some d :: l) with ([Some c] ++ [Some d] ++ l). rewrite !count_async_app, IH2.
    assert (E : ∀ c, count_async [Some (set_Rerun c n)] = count_async [Some c]) by (intros x; unfold count_async; rewrite !filter_cons;
      change (is_async (Some (set_Rerun x n))) with (is_async (Some x)); by case_decide). by rewrite !E.
Qed.
Lemma AssignRandomRerun_spec p r : Forall is_Some (Calls p) → ∃ l r', AssignRandomRerun p r = Ret (set_calls p l, r') ∧ rerun_pairs (Calls p) l.
Proof. intros Hs. unfold AssignRandomRerun. destruct (rerun_loop_spec (Calls p) r Hs) as (l & r' & -> & H). cbn. eauto. Qed.


(** ** Witnesses *)


Definition no_self_useb (l : list (option Call)) : bool :=
  forallb (λ c : option Call, match c with
    | Some c => forallb (λ r, match res_Res r with Some x => bool_decide (x ∉ rid <$> roots_results (call_roots c)) | None => true end) (roots_results (call_roots c))
    | None => true end) l.
Lemma gx_no_self : no_self_use (Calls gx_prog).
Proof.
  assert (H : no_self_useb (Calls gx_prog) = true) by (vm_compute; reflexivity). revert H. generalize (Calls gx_prog). intros l H c r x Hc Hr Ex.
  unfold no_self_useb in H. rewrite forallb_forall in H. apply list_elem_of_In, H in Hc. rewrite forallb_forall in Hc. apply list_elem_of_In, Hc in Hr.
  rewrite Ex in Hr. by apply bool_decide_eq_true in Hr.
Qed.

(** The limit on asynchronous calls does not count calls that were
    asynchronous before: the loop stops at 24 new ones and leaves the calls
    before them as they are. *)
Definition gx_nop : Syscall := gx_call 3 "nop" [] None.
Definition gx_asyncs : Prog := mkProg (replicate 30 (Some (mkCall (Some gx_nop) [] None (mkCallProps 0 true 0) ""))) [] false.
Example async_limit_passed :
  match AssignRandomAsync gx_types gx_asyncs (replicate 30 1) with Ret (p, _) => count_async (Calls p) | Panic => 0%nat end = 29%nat.
Proof. vm_compute. reflexivity. Qed.
(** A duplicated call moves the calls behind it, so an index into the original
    program names another call afterwards. *)
Example dup_moves_calls :
  match DupCallCollide gx_prog [0; 1; 2; 3] with
  | Ret (inr p, _) => (call_metas gx_prog !! 1%nat, call_metas p !! 1%nat)
  | _ => (None, None)
  end = (Some (Some gx_dup), Some (Some gx_open)).
Proof. vm_compute. reflexivity. Qed.
