(* ===== verification/ExecVisits.v ===== *)
(** * What the encoder visits

    ForeachArg visits the arguments of a call in the order of the tree, each
    once; the checksums calcChecksumsCall plans are over visited arguments
    whose addresses the encoder keeps. *)

From S2P Require Import Prelude GoStrings Prog ForeachArg ArgGraph RemoveCall.

(** All arguments of a tree, outer ones first. *)
Fixpoint arg_subs (a : Arg) : list Arg :=
  a :: match a with
       | PointerArg _ _ _ (Some x) => arg_subs x
       | GroupArg _ l => concat (arg_subs <$> l)
       | UnionArg _ o _ _ => arg_subs o
       | _ => []
       end.
Definition roots_subs (l : list Arg) : list Arg := concat (arg_subs <$> l).

Lemma arg_subs_self a : a ∈ arg_subs a.
Proof. destruct a; by left. Qed.
Lemma arg_subs_ids a : aid <$> arg_subs a = arg_ids a.
Proof.
  induction a as [c v|c ad v r Hr|c d s|c l Hl|c o i t Ho|r] using Arg_nested_ind; cbn [arg_subs arg_ids fmap list_fmap]; f_equal; try done.
  - destruct r; [|done]. exact Hr.
  - symmetry. apply concat_fmap_fmap. intros x Hx. symmetry. by eapply Forall_forall in Hl.
Qed.
Lemma roots_subs_ids l : aid <$> roots_subs l = roots_ids l.
Proof. symmetry. apply concat_fmap_fmap. intros x _. symmetry. apply arg_subs_ids. Qed.
Lemma arg_subs_result a r : AResult r ∈ arg_subs a ↔ r ∈ arg_results a.
Proof.
  induction a as [c v|c ad v x Hx|c d s|c l Hl|c o i t Ho|r0] using Arg_nested_ind; cbn [arg_subs arg_results]; rewrite elem_of_cons.
  - split; [intros [H|H]; [done|by inv H]|intros H; by inv H].
  - destruct x as [x|]; [|split; [intros [H|H]; [done|by inv H]|intros H; by inv H]]. destruct Hx as [H1 H2]. split; [intros [H|H]; [done|by apply H1]|intros H; right; by apply H2].
  - split; [intros [H|H]; [done|by inv H]|intros H; by inv H].
  - rewrite !elem_of_concat. split.
    + intros [?|(k & Hk & (x & -> & Hx)%list_elem_of_fmap)]; [done|]. eapply Forall_forall in Hl; [|exact Hx]. exists (arg_results x).
      split; [by apply Hl|]. by apply list_elem_of_fmap_2.
    + intros (k & Hk & (x & -> & Hx)%list_elem_of_fmap). right. eapply Forall_forall in Hl; [|exact Hx]. exists (arg_subs x).
      split; [by apply Hl|]. by apply list_elem_of_fmap_2.
  - destruct Ho as [H1 H2]. split; [intros [H|H]; [done|by apply H1]|intros H; right; by apply H2].
  - rewrite list_elem_of_singleton. split; [intros [H|H]; [by injection H|by inv H]|intros ->; by left].
Qed.
Lemma roots_subs_result l r : AResult r ∈ roots_subs l ↔ r ∈ roots_results l.
Proof.
  rewrite elem_of_roots_results. unfold roots_subs. rewrite elem_of_concat. split.
  - intros (k & Hk & (x & -> & Hx)%list_elem_of_fmap). exists x. split; [done|]. by apply arg_subs_result.
  - intros (x & Hx & Hr). exists (arg_subs x). split; [by apply arg_subs_result|by apply list_elem_of_fmap_2].
Qed.
Lemma arg_subs_results a b r : a ∈ arg_subs b → r ∈ arg_results a → r ∈ arg_results b.
Proof.
  induction b as [c v|c ad v x Hx|c d s|c l Hl|c o i t Ho|r0] using Arg_nested_ind; cbn [arg_subs]; rewrite elem_of_cons; intros [->|H] Hr; try done; try (by inv H); cbn [arg_results].
  - destruct x; [by apply Hx|by inv H].
  - apply elem_of_concat in H as (k & Hk & (x & -> & Hin)%list_elem_of_fmap). apply elem_of_concat. exists (arg_results x).
    split; [|by apply list_elem_of_fmap_2]. eapply Forall_forall in Hl; [|exact Hin]. by apply Hl.
  - by apply Ho.
Qed.
Lemma roots_subs_results roots a r : a ∈ roots_subs roots → r ∈ arg_results a → r ∈ roots_results roots.
Proof.
  unfold roots_subs. intros (k & Hk & (x & -> & Hx)%list_elem_of_fmap)%elem_of_concat Hr. apply elem_of_roots_results. exists x. split; [done|]. by eapply arg_subs_results.
Qed.
(** The fields of an argument of a tree belong to the tree. *)
Lemma arg_subs_field a c l x : GroupArg c l ∈ arg_subs a → x ∈ l → x ∈ arg_subs a.
Proof.
  induction a as [c0 v|c0 ad v y Hy|c0 d s|c0 k Hk|c0 o i t Ho|r0] using Arg_nested_ind; cbn [arg_subs]; rewrite !elem_of_cons; intros [H|H] Hx; try done; try (by inv H); right.
  - destruct y as [y|]; [by apply Hy|by inv H].
  - injection H as <- <-. apply elem_of_concat. exists (arg_subs x). split; [apply arg_subs_self|by apply list_elem_of_fmap_2].
  - apply elem_of_concat in H as (m & Hm & (y & -> & Hin)%list_elem_of_fmap). apply elem_of_concat. exists (arg_subs y).
    split; [|by apply list_elem_of_fmap_2]. eapply Forall_forall in Hk; [|exact Hin]. by apply Hk.
  - by apply Ho.
Qed.
Lemma roots_subs_field roots c l x : GroupArg c l ∈ roots_subs roots → x ∈ l → x ∈ roots_subs roots.
Proof.
  unfold roots_subs. rewrite !elem_of_concat. intros (k & Hk & (y & -> & Hy)%list_elem_of_fmap) Hx. exists (arg_subs y).
  split; [by eapply arg_subs_field|by apply list_elem_of_fmap_2].
Qed.

Section visits.
Context (typeRefs : list Typ).

Lemma visits_subs a : ∀ base off vs, foreachArgImpl typeRefs a base off = Ret vs → v_arg <$> vs = arg_subs a.
Proof.
  induction a as [c v|c ad v r Hr|c d s|c l Hl|c o i t Ho|r] using Arg_nested_ind; intros base off vs; cbn [foreachArgImpl]; intros E.
  - by injection E as <-.
  - destruct r as [x|]; [|by injection E as <-]. destruct (foreachArgImpl typeRefs x _ 0) as [vs'|] eqn:E'; [|done].
    injection E as <-. cbn [arg_subs fmap list_fmap v_arg]. f_equal. by eapply Hr.
  - by injection E as <-.
  - destruct (TypeOf typeRefs (GroupArg c l)) as [t|]; [|done]. cbn [mbind outcome_bind] in E.
    match type of E with context [?F 0%nat l off] => set (go := F) in E end.
    assert (Hgo : ∀ j cur rest, go j l cur = Ret rest → v_arg <$> rest = concat (arg_subs <$> l)).
    { clear E. induction Hl as [|x l Hx Hl IH]; intros j cur rest E; [by injection E as <-|]. cbn in E.
      destruct (foreachArgImpl typeRefs x base _) as [vs1|] eqn:E1; [|done]. cbn in E. destruct (ArgSize typeRefs x) as [n|]; [|done]. cbn in E.
      destruct (go (S j) l _) as [vs2|] eqn:E2; [|done]. cbn in E. injection E as <-. rewrite fmap_app, (Hx _ _ _ E1). cbn [fmap list_fmap concat]. f_equal. by eapply IH. }
    destruct (go 0%nat l off) as [rest|] eqn:E'; [|done]. injection E as <-. cbn [arg_subs fmap list_fmap v_arg]. f_equal. by eapply Hgo.
  - destruct (foreachArgImpl typeRefs o base off) as [vs'|] eqn:E'; [|done]. injection E as <-. cbn [arg_subs fmap list_fmap v_arg]. f_equal. by eapply Ho.
  - by injection E as <-.
Qed.
Lemma foreach_args_subs l vs : foreach_args typeRefs l = Ret vs → v_arg <$> vs = roots_subs l.
Proof.
  revert vs. induction l as [|a l IH]; intros vs; cbn [foreach_args]; intros E; [by injection E as <-|]. inv_ret E. injection E as <-.
  rewrite fmap_app, (visits_subs _ _ _ _ Hv), (IH _ Hv0). done.
Qed.
(** The return value comes first, without a base; then the arguments. *)
Lemma ForeachArg_shape c vs : ForeachArg typeRefs c = Ret vs →
  ∃ ws, vs = (match CRet c with Some r => [mkVisit (AResult r) None 0] | None => [] end) ++ ws ∧ v_arg <$> ws = roots_subs (Args c).
Proof.
  unfold ForeachArg. intros E. inv_ret E. destruct (Meta c); [|done]. case_decide; [done|]. inv_ret E. injection E as <-.
  exists v0. split; [|by apply foreach_args_subs]. f_equal. destruct (CRet c); by injection Hv as <-.
Qed.
Lemma ForeachArg_subs c vs : ForeachArg typeRefs c = Ret vs → v_arg <$> vs = roots_subs (call_roots c).
Proof.
  intros (ws & -> & Hws)%ForeachArg_shape. rewrite fmap_app, Hws. unfold call_roots, roots_subs. rewrite fmap_app, concat_app. f_equal. by destruct (CRet c).
Qed.

(** ** Planned checksums *)

(** [seen] holds the visited arguments. *)
Definition chunk_planned (seen : list Arg) (u : gset Z) (ch : CsumChunk) : Prop :=
  match ch with CsumChunkArg x => x ∈ seen ∧ aid x ∈ u | CsumChunkConst _ _ => True end.
Definition csum_planned (seen : list Arg) (u : gset Z) (k : Z) (ai : Arg * CsumInfo) : Prop :=
  k = aid (fst ai) ∧ (fst ai ∈ seen) ∧ Forall (chunk_planned seen u) (CIChunks (snd ai)).

Lemma csum_planned_mono seen u u' k ai : u ⊆ u' → csum_planned seen u k ai → csum_planned seen u' k ai.
Proof. intros Hu (? & ? & H). split_and!; [done|done|]. eapply Forall_impl; [exact H|]. intros [x|]; cbn; [set_solver|done]. Qed.
Lemma csum_planned_insert seen u v a info (m : gmap Z (Arg * CsumInfo)) :
  map_Forall (csum_planned seen u) m → a ∈ seen → Forall (chunk_planned seen (v ∪ u)) (CIChunks info) →
  map_Forall (csum_planned seen (v ∪ u)) (<[aid a := (a, info)]> m).
Proof.
  intros Hm Ha Hi. apply map_Forall_insert_2; [done|]. eapply map_Forall_impl; [exact Hm|]. intros k ai. apply csum_planned_mono. set_solver.
Qed.

Lemma csum_fields_seen vs inet pseudo : csum_fields typeRefs vs = Ret (inet, pseudo) → inet ⊆ v_arg <$> vs ∧ pseudo ⊆ v_arg <$> vs.
Proof.
  revert inet pseudo. induction vs as [|v vs IH]; intros inet pseudo; cbn [csum_fields]; intros E; [injection E as <- <-; set_solver|].
  inv_ret E. destruct v1 as [i p]. destruct (IH _ _ Hv0) as [H1 H2]. cbn [fmap list_fmap].
  destruct v0; try (injection E as <- <-; set_solver). destruct Kind; injection E as <- <-; set_solver.
Qed.
Lemma add_parents_seen (seen : list Arg) parent inner m m' :
  add_parents typeRefs parent inner m = Ret m' → parent ∈ seen → map_Forall (λ _ p, p ∈ seen) m → map_Forall (λ _ p, p ∈ seen) m'.
Proof.
  revert m. induction inner as [|f inner IH]; intros m; cbn [add_parents]; intros E Hp Hm; [by injection E as <-|]. inv_ret E.
  eapply IH; [exact E|done|]. destruct v; [by apply map_Forall_insert_2|done].
Qed.
Lemma parents_map_seen (seen : list Arg) vs m m' :
  parents_map typeRefs vs m = Ret m' → v_arg <$> vs ⊆ seen → map_Forall (λ _ p, p ∈ seen) m → map_Forall (λ _ p, p ∈ seen) m'.
Proof.
  revert m. induction vs as [|v vs IH]; intros m; cbn [parents_map fmap list_fmap]; intros E Hs Hm; [by injection E as <-|]. inv_ret E.
  eapply IH; [exact E|set_solver|]. destruct v0; try (injection Hv0 as <-; done). destruct (v_arg v) eqn:Ev; try done.
  eapply add_parents_seen; [exact Hv0| |done]. apply Hs. by left.
Qed.
Lemma findCsummedArg_seen (seen : list Arg) a b parents x :
  findCsummedArg typeRefs a b parents = Ret x → map_Forall (λ _ p, p ∈ seen) parents → x ∈ seen.
Proof.
  unfold findCsummedArg. intros E Hp. case_decide; [destruct (parents !! aid a) eqn:El; [injection E as <-; by eapply Hp|done]|].
  revert a E. generalize (S (size parents)). intros fuel. induction fuel as [|fuel IH]; intros a E; [done|]. cbn [find_parent] in E.
  destruct (parents !! aid a) eqn:El; [|done]. inv_ret E. case_decide; [injection E as <-; by eapply Hp|]. by eapply IH.
Qed.
Lemma getFieldByName_in name fields inner x : getFieldByName name fields inner = Ret x → x ∈ inner.
Proof.
  revert fields. induction inner as [|a inner IH]; intros [|f fields]; cbn [getFieldByName]; intros E; try done.
  case_decide; [injection E as <-; by left|]. right. by eapply IH.
Qed.
Lemma ip_addrs_seen (seen : list Arg) vs acc src dst :
  (∀ c l x, GroupArg c l ∈ seen → x ∈ l → x ∈ seen) → v_arg <$> vs ⊆ seen →
  (∀ s d, acc = Some (s, d) → s ∈ seen ∧ d ∈ seen) → ip_addrs typeRefs vs acc = Ret (Some (src, dst)) → src ∈ seen ∧ dst ∈ seen.
Proof.
  intros Hcl. revert acc. induction vs as [|v vs IH]; intros acc Hs Hacc; cbn [ip_addrs]; intros E; [injection E as ->; by apply Hacc|].
  cbn [fmap list_fmap] in Hs. assert (Hv : v_arg v ∈ seen) by (apply Hs; by left). assert (Hs' : v_arg <$> vs ⊆ seen) by set_solver.
  destruct (v_arg v) as [| | |c l| |] eqn:Ev; try (by eapply IH). inv_ret E.
  assert (Hx : ∀ n r, extractHeaderParams typeRefs (GroupArg c l) n = Ret r → ∀ s d, Some r = Some (s, d) → s ∈ seen ∧ d ∈ seen).
  { intros n r Er s d [= ->]. unfold extractHeaderParams in Er. inv_ret Er. destruct v1; try done. inv_ret Er. case_decide; [done|]. injection Er as <- <-.
    split; eapply Hcl; try exact Hv; by eapply getFieldByName_in. }
  repeat case_decide; [inv_ret E..|]; (eapply IH; [exact Hs'| |exact E]); eauto.
Qed.
Lemma inet_csums_planned seen parents l m u m' u' :
  inet_csums typeRefs l parents m u = Ret (m', u') → l ⊆ seen → map_Forall (λ _ p, p ∈ seen) parents →
  map_Forall (csum_planned seen u) m → map_Forall (csum_planned seen u') m'.
Proof.
  revert m u. induction l as [|a l IH]; intros m u; cbn [inet_csums]; intros E Hl Hp Hm; [by injection E as <- <-|]. inv_ret E.
  destruct v; try done. inv_ret E. eapply IH; [exact E|set_solver|done|]. apply csum_planned_insert; [done|set_solver|].
  cbn [CIChunks]. constructor; [|constructor]. split; [by eapply findCsummedArg_seen|set_solver].
Qed.
Lemma pseudo_csums_planned seen src dst parents l m u m' u' :
  pseudo_csums typeRefs src dst l parents m u = Ret (m', u') → l ⊆ seen → map_Forall (λ _ p, p ∈ seen) parents →
  src ∈ seen → dst ∈ seen → map_Forall (csum_planned seen u) m → map_Forall (csum_planned seen u') m'.
Proof.
  intros E Hl Hp Hs Hd. revert m u E Hl. induction l as [|a l IH]; intros m u; cbn [pseudo_csums]; intros E Hl Hm; [by injection E as <- <-|]. inv_ret E.
  destruct v; try done. inv_ret E. eapply IH; [exact E|set_solver|]. apply csum_planned_insert; [done|set_solver|].
  assert (Hx : v ∈ seen) by (by eapply findCsummedArg_seen).
  case_decide; [unfold composePseudoCsumIPv4 in Hv2|unfold composePseudoCsumIPv6 in Hv2]; inv_ret Hv2; injection Hv2 as <-; cbn [CIChunks]; repeat constructor; cbn [chunk_planned]; set_solver.
Qed.
Lemma calcChecksumsCall_planned c m u :
  calcChecksumsCall typeRefs c = Ret (m, u) → map_Forall (csum_planned (roots_subs (call_roots c)) u) m.
Proof.
  unfold calcChecksumsCall. intros E. inv_ret E. pose proof (ForeachArg_subs _ _ Hv) as Hs. destruct v0 as [inet pseudo].
  destruct (csum_fields_seen _ _ _ Hv0) as [Hi Hp]. rewrite Hs in Hi, Hp.
  case_decide; [injection E as <- <-; apply map_Forall_empty|]. inv_ret E. destruct v1 as [m1 u1].
  assert (Hpar : map_Forall (λ _ p, p ∈ roots_subs (call_roots c)) v0) by (eapply parents_map_seen; [done|by rewrite Hs|apply map_Forall_empty]).
  assert (H1 : map_Forall (csum_planned (roots_subs (call_roots c)) u1) m1) by (eapply inet_csums_planned; [done..|apply map_Forall_empty]).
  case_decide; [by injection E as <- <-|]. inv_ret E. destruct v1 as [[src dst]|]; [|done].
  destruct (ip_addrs_seen (roots_subs (call_roots c)) v None src dst) as [Hsrc Hdst]; [by apply roots_subs_field|by rewrite Hs|done|done|].
  by eapply pseudo_csums_planned.
Qed.
End visits.
