(* ===== verification/ExecRoundtrip.v ===== *)
(** * The exec format round trip

    What the encoder of src/prog/encodingexec.go writes for a program, the
    decoder of src/prog/decodeexec.go reads back: the calls, their arguments
    and copied-in data, checksums, references to results, copyouts and the
    configuration actions. *)

From S2P Require Import Prelude GoStrings Prog ConfigContext Varint ForeachArg EncodingExec DecodeExec ExecInstr.
From S2P Require Import ArgGraph RemoveCall Collide ExecVisits.


(** ** The meta word *)

Lemma byte_of x q : 0 ≤ x < 256 → Z.land (x + 256 * q) 0xff = x.
Proof.
  intros Hx. change 0xff with (Z.ones 8). rewrite Z.land_ones by lia. change (2 ^ 8) with 256.
  rewrite Z.mul_comm, Z.mod_add by lia. by apply Z.mod_small.
Qed.
Lemma shift_byte x q n : 0 ≤ x < 256 → 8 ≤ n → Z.shiftr (x + 256 * q) n = Z.shiftr q (n - 8).
Proof.
  intros Hx Hn. replace n with (8 + (n - 8)) at 1 by lia. rewrite <-Z.shiftr_shiftr by lia. f_equal.
  rewrite Z.shiftr_div_pow2 by lia. change (2 ^ 8) with 256.
  rewrite Z.mul_comm, Z.div_add by lia. rewrite Z.div_small by lia. lia.
Qed.
Lemma format_code_range f : 0 ≤ format_code f < 5.
Proof. destruct f; simpl; lia. Qed.

Lemma const_meta_sum s f o l p :
  0 ≤ s < 256 → 0 ≤ f < 256 → 0 ≤ o < 256 → 0 ≤ l < 256 → 0 ≤ p < 2 ^ 32 →
  const_meta s f o l p = s + 256 * (f + 256 * (o + 256 * (l + 256 * p))).
Proof.
  intros. unfold const_meta.
  rewrite !(u64_id (Z.shiftl _ _)) by (rewrite Z.shiftl_mul_pow2 by lia; unfold in_u64; lia).
  rewrite (lor_shifted s f) by lia. rewrite (lor_shifted _ o) by lia. rewrite (lor_shifted _ l) by lia.
  rewrite (lor_shifted _ p) by lia. lia.
Qed.
(** Every field of the packed meta word is read back. *)
Lemma const_meta_unpack s f o l p :
  0 ≤ s < 256 → 0 ≤ f < 256 → 0 ≤ o < 256 → 0 ≤ l < 256 → 0 ≤ p < 2 ^ 32 →
  let m := u64 (const_meta s f o l p) in
  Z.land m 0xff = s ∧ meta_byte m 8 = f ∧ meta_byte m 16 = o ∧ meta_byte m 24 = l ∧ Z.shiftr m 32 = p.
Proof.
  intros Hs Hf Ho Hl Hp. cbv zeta. rewrite const_meta_sum by done.
  rewrite u64_id by (unfold in_u64; lia). unfold meta_byte.
  split_and!; rewrite ?shift_byte by lia; cbn [Z.sub Z.add Z.opp Z.pos_sub]; rewrite ?Z.shiftr_0_r;
    (done || by apply byte_of).
Qed.
Lemma result_meta_unpack s f :
  0 ≤ s < 256 → 0 ≤ f < 256 →
  let m := u64 (Z.lor s (Z.shiftl f 8)) in Z.land m 0xff = s ∧ meta_byte m 8 = f.
Proof.
  intros Hs Hf. cbv zeta. assert (Z.lor s (Z.shiftl f 8) = s + 256 * (f + 256 * 0)) as ->
    by (rewrite lor_shifted by lia; lia).
  rewrite u64_id by (unfold in_u64; lia). unfold meta_byte. rewrite shift_byte by lia. rewrite byte_of by done.
  change (8 - 8) with 0. by rewrite Z.shiftr_0_r, byte_of.
Qed.

Lemma writes_spec vs w : writes vs w = set_buf w (buf w ++ words vs).
Proof.
  revert w. induction vs as [|v vs IH]; intros w; cbn [writes words].
  - rewrite app_nil_r. by destruct w.
  - rewrite IH. unfold write. cbn. by rewrite app_assoc.
Qed.
Lemma writes_cons_app vs1 vs2 w : writes vs2 (writes vs1 w) = writes (vs1 ++ vs2) w.
Proof. rewrite !writes_spec. cbn. by rewrite words_app, app_assoc. Qed.


(** ** What the decoded program must be *)

(** A result that other arguments use is copied out. *)
Definition is_used (r : ResultArg) : bool := bool_decide (size (uses r) ≠ 0%nat).
(** The results of a program that are copied out, in the order of their
    copyout indices. *)
Definition used_ids (roots : list Arg) : list argid := rid <$> filter is_used (roots_results roots).
Definition copyout_order (p : Prog) : list argid := used_ids (calls_roots (Calls p)).

Section matching.
(** [index_of t n]: the copyout index of result [t] is [n]. *)
Context (typeRefs : list Typ) (target : Target) (index_of : argid → Z → Prop).

(** The sizes of scalar types fit the meta word. *)
Definition type_fits (t : Typ) : Prop :=
  match t with ProcType _ _ per => 0 ≤ per < 2 ^ 32 | ResourceType c _ _ => 0 ≤ TypeSize c < 256 | _ => True end ∧
  match int_part t with
  | Some c => 0 ≤ TypeSize (int_common c) < 256 ∧ 0 ≤ BitfieldUnit c < 256 ∧
              0 ≤ BitfieldOff c < 256 ∧ 0 ≤ BitfieldLen c < 256
  | None => True
  end.
Definition is_resource (t : Typ) : bool := match t with ResourceType _ _ _ => true | _ => false end.

Definition arg_is_const (x : ExecArg) : bool := match x with ExecArgConst _ _ _ _ _ _ => true | _ => false end.

(** [arg_matches a x]: [x] is what the executor must see for [a]. *)
Fixpoint arg_matches (a : Arg) (x : ExecArg) : Prop :=
  match a with
  | ConstArg _ v => ∃ t size val stride,
      TypeOf typeRefs a = Ret t ∧ UnitSize t = Ret size ∧ ConstValue typeRefs a v = Ret (val, stride) ∧
      x = ExecArgConst size (format_code (Format t)) (u64 val) (BitfieldOffset t) (BitfieldLength t) stride
  | AResult r => ∃ t size, TypeOf typeRefs a = Ret t ∧ TSize t = Ret size ∧
      match res_Res r with
      | None => arg_is_const x ∧ (is_resource t → x = ExecArgConst size (format_code (Format t)) (u64 (res_Val r)) 0 0 0)
      | Some o => ∃ c f desc idx def, t = ResourceType c f desc ∧ ResourceDefault desc = Ret def ∧ index_of o idx ∧
          x = ExecArgResult size (format_code f) idx (u64 (OpDiv r)) (u64 (OpAdd r)) (u64 def)
      end
  | PointerArg _ _ _ _ => ∃ size addr,
      ArgSize typeRefs a = Ret size ∧ pointer_addr target a = Ret addr ∧
      x = ExecArgConst size 0 (u64 addr) 0 0 0
  | DataArg _ data _ => ∃ c k b e sub vs z,
      TypeOf typeRefs a = Ret (BufferType c k b e sub vs z) ∧ x = ExecArgData data (isReadableDataType k)
  | UnionArg _ o _ _ => arg_matches o x
  | GroupArg _ _ => False
  end.

(** The visited arguments that are copied in. *)
Definition copyin_written (v : ArgVisit) : bool :=
  match v_base v, v_arg v with
  | None, _ | _, GroupArg _ _ | _, UnionArg _ _ _ _ => false
  | Some _, a =>
      match TypeOf typeRefs a, ArgSize typeRefs a with
      | Ret t, Ret s =>
          bool_decide (ADir a ≠ DirOut) && negb (TIsPad t) && negb (bool_decide (s = 0 ∧ IsBitfield t = false))
      | _, _ => false
      end
  end.
(** The address of a visited argument: its base pointer plus its offset; what
    does not lie behind a pointer is given the start of the data area. *)
Definition visit_addr (v : ArgVisit) (addr : Z) : Prop :=
  match v_base v with
  | None => addr = u64 (DataOffset target)
  | Some base => ∃ pa t, pointer_addr target base = Ret pa ∧ TypeOf typeRefs (v_arg v) = Ret t ∧
      addr = u64 (pa + v_offset v - UnitOffset t)
  end.
Definition copyin_matches (v : ArgVisit) (i : ExecCopyin) : Prop :=
  visit_addr v (XInAddr i) ∧ ∃ x, XInArg i = Some x ∧ arg_matches (v_arg v) x.

(** A checksum as it was planned: its own address and size, and the address
    and size of every argument it is computed over. *)
Definition chunk_matches (vs : list ArgVisit) (ch : CsumChunk) (x : ExecCsumChunk) : Prop :=
  match ch with
  | CsumChunkArg a => ∃ v s, v ∈ vs ∧ v_arg v = a ∧ ArgSize typeRefs a = Ret s ∧ visit_addr v (XCValue x) ∧
      XCKind x = ExecArgCsumChunkData ∧ XCSize x = u64 s
  | CsumChunkConst value size => x = mkXChunk ExecArgCsumChunkConst (u64 value) (u64 size)
  end.
Definition csum_matches (vs : list ArgVisit) (ai : Arg * CsumInfo) (i : ExecCopyin) : Prop :=
  ∃ v s chunks, v ∈ vs ∧ v_arg v = fst ai ∧ ArgSize typeRefs (fst ai) = Ret s ∧ visit_addr v (XInAddr i) ∧
    XInArg i = Some (ExecArgCsum (u64 s) ExecArgCsumInet chunks) ∧ Forall2 (chunk_matches vs) (CIChunks (snd ai)) chunks.
(** Checksums come from the highest address down. *)
Definition csum_after (i j : ExecCopyin) : Prop := (XInAddr j -u DataOffset target) ≤ (XInAddr i -u DataOffset target).

(** The visited arguments that are copied out: the used results, except the
    return value. *)
Definition copied_out (c : Call) (v : ArgVisit) : bool :=
  match v_arg v with
  | AResult r => is_used r && bool_decide (Some (rid r) ≠ rid <$> CRet c)
  | _ => false
  end.
Definition out_matches (v : ArgVisit) (o : ExecCopyout) : Prop :=
  index_of (aid (v_arg v)) (XOutIndex o) ∧ visit_addr v (XOutAddr o) ∧
  ∃ s, ArgSize typeRefs (v_arg v) = Ret s ∧ XOutSize o = u64 s.
Definition ret_matches (r : option ResultArg) (idx : Z) : Prop :=
  match r with
  | Some r => if is_used r then index_of (rid r) idx else idx = ExecNoCopyout
  | None => idx = ExecNoCopyout
  end.

Definition call_matches (c : option Call) (x : ExecCall) : Prop :=
  ∃ call m vs planned u, c = Some call ∧ Meta call = Some m ∧ XMeta x = Some m ∧ XProps x = Props call ∧
    ret_matches (CRet call) (XIndex x) ∧
    Forall2 arg_matches (Args call) (XArgs x) ∧
    ForeachArg typeRefs call = Ret vs ∧ calcChecksumsCall typeRefs call = Ret (planned, u) ∧
    (∃ ins csums cs, XCopyin x = ins ++ csums ∧ Forall2 copyin_matches (filter copyin_written vs) ins ∧
       cs ≡ₚ values planned ∧ Forall2 (csum_matches vs) cs csums ∧ StronglySorted csum_after csums) ∧
    Forall2 out_matches (filter (copied_out call) vs) (XCopyout x).

(** A reference is written: as an argument of the call, or as copied-in data. *)
Fixpoint leaf_result (a : Arg) : option ResultArg :=
  match a with AResult r => Some r | UnionArg _ o _ _ => leaf_result o | _ => None end.
Definition refs_written (c : option Call) : Prop :=
  ∀ call vs r, c = Some call → ForeachArg typeRefs call = Ret vs → r ∈ roots_results (call_roots call) → is_Some (res_Res r) →
    (∃ a, a ∈ Args call ∧ leaf_result a = Some r) ∨ (∃ v, v ∈ vs ∧ copyin_written v = true ∧ v_arg v = AResult r).
End matching.

(** The references a decoded call makes: copyout index and default value. *)
Definition arg_refs (x : ExecArg) : list (Z * Z) :=
  match x with ExecArgResult _ _ idx _ _ def => [(idx, def)] | _ => [] end.
Definition call_refs (x : ExecCall) : list (Z * Z) :=
  (XCopyin x ≫= λ i, from_option arg_refs [] (XInArg i)) ++ (XArgs x ≫= arg_refs).
(** The variables of the program: each holds the default of its last reference. *)
Definition vars_of (refs : list (Z * Z)) : list Z := foldl (λ vars r, store_var (fst r) (snd r) vars) [] refs.

(** Arguments that may stand in a call instruction. *)
Fixpoint scalar_arg (a : Arg) : bool :=
  match a with DataArg _ _ _ => false | UnionArg _ o _ _ => scalar_arg o | _ => true end.

Lemma u64_sub_add a b c : ((a -u b) +u c) = u64 (a - b + c).
Proof. unfold u64. by rewrite Zplus_mod_idemp_l. Qed.
Lemma u64_rebase x off : (u64 (x -u off) +u off) = u64 x.
Proof. rewrite u64_idem, u64_sub_add. f_equal. lia. Qed.

Lemma inr_inj {A B} (x y : B) : (inr x : A + B) = inr y → x = y.
Proof. by intros [= ->]. Qed.
Lemma TSize_Ret t v : TSize t = Ret v → v = TypeSize (type_common t).
Proof. unfold TSize. destruct (Varlen t); [done|]. by intros [= ->]. Qed.

(** Only the indices of results depend on [index_of]. *)
Section index_impl.
Context (typeRefs : list Typ) (target : Target) (R R' : argid → Z → Prop) (Himp : ∀ t n, R t n → R' t n).
Lemma arg_matches_impl a x : arg_matches typeRefs target R a x → arg_matches typeRefs target R' a x.
Proof.
  induction a as [c v|c ad v r Hr|c d s|c l Hl|c o i t Ho|r] using Arg_nested_ind; cbn [arg_matches]; try done.
  intros (t & s & Ht & Hs & H). exists t, s. split_and!; [done|done|]. destruct (res_Res r); [|done].
  destruct H as (c & f & desc & idx & def & ? & ? & ? & ?). exists c, f, desc, idx, def. split_and!; [done|done|by apply Himp|done].
Qed.
Lemma call_matches_impl c x : call_matches typeRefs target R c x → call_matches typeRefs target R' c x.
Proof.
  intros (call & m & vs & planned & u & ? & ? & ? & ? & Hret & Hargs & ? & ? & (ins & csums & cs & ? & Hins & ? & ? & ?) & Houts).
  exists call, m, vs, planned, u. split_and!; [done..| | |done|done| |].
  - unfold ret_matches in *. destruct (CRet call) as [r|]; [|done]. destruct (is_used r); [by apply Himp|done].
  - eapply Forall2_impl; [exact Hargs|]. apply arg_matches_impl.
  - exists ins, csums, cs. split_and!; [done| |done|done|done]. eapply Forall2_impl; [exact Hins|]. intros v i (? & y & ? & ?). split; [done|]. exists y. split; [done|by apply arg_matches_impl].
  - eapply Forall2_impl; [exact Houts|]. intros v o (? & ?). split; [by apply Himp|done].
Qed.
End index_impl.

(** ** The encoder emits instructions *)
Section encoder.
Context (typeRefs : list Typ) (target : Target) (index_of : argid → Z → Prop).
Hypothesis Hfits : Forall type_fits typeRefs.

Lemma TypeOf_fits a t : TypeOf typeRefs a = Ret t → type_fits t.
Proof.
  unfold TypeOf, index. intros H. do 2 (case_decide; try done). destruct (typeRefs !! _) as [t'|] eqn:E; [|done]. simplify_eq.
  by apply (Forall_lookup_1 _ _ _ _ Hfits E).
Qed.

Abbreviation matches := (arg_matches typeRefs target index_of).

Lemma const_arg_matches c v w w' :
  writeArg typeRefs target (ConstArg c v) w = Ret w' →
  ∃ e, w' = set_buf w (buf w ++ arg_bytes e) ∧ matches (ConstArg c v) (dec_arg target e) ∧ call_arg e.
Proof.
  intros H. cbn [writeArg] in H. inv_ret H. destruct v0 as [val stride]. inv_ret H. apply Ret_inj in H; subst.
  exists (EConst (const_meta v1 (format_code (Format v0)) (BitfieldOffset v0) (BitfieldLength v0) stride) val).
  unfold writeConstArg. rewrite writes_spec. split; [done|]. split; [|done].
  exists v0, v1, val, stride. split_and!; [done..|].
  pose proof (TypeOf_fits _ _ Hv0) as [Hf1 Hf2]. pose proof (format_code_range (Format v0)).
  cbn [dec_arg].
  assert (Hr : 0 ≤ v1 < 256 ∧ 0 ≤ BitfieldOffset v0 < 256 ∧ 0 ≤ BitfieldLength v0 < 256 ∧ 0 ≤ stride < 2 ^ 32).
  { unfold ConstValue in Hv. rewrite Hv0 in Hv. cbn [mbind outcome_bind] in Hv.
    unfold UnitSize, BitfieldOffset, BitfieldLength, TSize, Varlen in *.
    destruct v0; cbn [int_part type_common] in *; try done; repeat case_decide;
      try (case_match; [done|]); simplify_eq; lia. }
  destruct (const_meta_unpack v1 (format_code (Format v0)) (BitfieldOffset v0) (BitfieldLength v0) stride)
    as (-> & -> & -> & -> & ->); [lia..|]. done.
Qed.

(** The index of a reference is known before it is written. *)
Definition ref_known (w : execContext) (a : Arg) : Prop :=
  ∀ r t, leaf_result a = Some r → res_Res r = Some t → ∃ info, eargs w !! t = Some info ∧ index_of t (u64 (AIdx info)).

Lemma result_arg_matches r w w' :
  ref_known w (AResult r) → writeArg typeRefs target (AResult r) w = Ret w' →
  ∃ e, w' = set_buf w (buf w ++ arg_bytes e) ∧ matches (AResult r) (dec_arg target e) ∧ call_arg e.
Proof.
  intros Hk H. cbn [writeArg] in H. inv_ret H. cbn [ArgSize] in Hv. inv_ret Hv.
  replace v0 with v1 in * by congruence. pose proof (TypeOf_fits _ _ Hv0) as [Hf1 Hf2].
  pose proof (format_code_range (Format v1)) as Hfc.
  destruct (res_Res r) as [t|] eqn:Er.
  - destruct (Hk r t eq_refl Er) as (info & Hi & Hidx). rewrite Hi in H. destruct v1; try done. inv_ret H. apply Ret_inj in H; subst.
    eexists (EResult _ _ _ _ _). rewrite writes_spec. split; [done|]. split; [|done].
    eexists _, v. split_and!; [done..|]. rewrite Er. eexists _, _, _, (u64 (AIdx info)), v1. split_and!; [done..|].
    cbn [Format dec_arg] in *. apply TSize_Ret in Hv as ->. cbn [type_common] in *.
    destruct (result_meta_unpack (TypeSize c) (format_code ArgFormat)) as [-> ->]; [lia..|]. done.
  - apply Ret_inj in H; subst. unfold writeConstArg.
    exists (EConst (const_meta v (format_code (Format v1)) 0 0 0) (res_Val r)). rewrite writes_spec.
    split; [done|]. split; [|done]. exists v1, v. split_and!; [done..|]. rewrite Er. split; [done|]. intros Hres.
    destruct v1; try done. apply TSize_Ret in Hv as ->. cbn [type_common] in *.
    cbn [dec_arg Format] in *. destruct (const_meta_unpack (TypeSize c) (format_code ArgFormat) 0 0 0)
      as (-> & -> & -> & -> & ->); [lia..|]. done.
Qed.

Lemma writeArg_spec a w w' :
  ref_known w a → writeArg typeRefs target a w = Ret w' →
  ∃ e, w' = set_buf w (buf w ++ arg_bytes e) ∧ matches a (dec_arg target e) ∧ (scalar_arg a → call_arg e).
Proof.
  induction a as [c v|c ad vma res _|c data size|c l _|c o i tr IH|r] using Arg_nested_ind; intros Hk H.
  - destruct (const_arg_matches c v w w' H) as (e & ? & ? & ?). eauto.
  - cbn [writeArg] in H. inv_ret H.
    assert (Hw : (v = 4 ∧ w' = writes [execArgAddr32; v0 -u DataOffset target] w) ∨
                 (v = 8 ∧ w' = writes [execArgAddr64; v0 -u DataOffset target] w)).
    { repeat case_decide; try done; apply Ret_inj in H; eauto. }
    destruct Hw as [[-> ->] | [-> ->]]; rewrite writes_spec;
      [exists (EAddr false (v0 -u DataOffset target)) | exists (EAddr true (v0 -u DataOffset target))];
      (split; [done|]; split; [|done]); cbn [dec_arg arg_matches]; rewrite u64_rebase; eauto 10.
  - cbn [writeArg] in H. inv_ret H. do 2 (case_decide; [done|]). destruct v; try done. apply Ret_inj in H; subst.
    exists (EData (isReadableDataType Kind) data). rewrite writes_spec. cbn [arg_bytes].
    split; [|split; [cbn; eauto 10|done]]. unfold write_blob, data_flags. cbn. by rewrite <-app_assoc.
  - done.
  - by apply IH.
  - destruct (result_arg_matches r w w' Hk H) as (e & ? & ? & ?). eauto.
Qed.

Lemma set_buf_same w : set_buf w (buf w) = w.
Proof. by destruct w. Qed.
Lemma write_args_spec args w w' :
  Forall (ref_known w) args → write_args typeRefs target args w = Ret w' →
  ∃ es, w' = set_buf w (buf w ++ (es ≫= arg_bytes)) ∧
    Forall2 (λ a e, matches a (dec_arg target e) ∧ (scalar_arg a → call_arg e)) args es.
Proof.
  revert w. induction args as [|a args IH]; intros w Hk H; cbn [write_args] in H.
  - apply Ret_inj in H; subst. exists []. cbn. rewrite app_nil_r, set_buf_same. eauto.
  - inv Hk. inv_ret H. destruct (writeArg_spec a w v) as (e & -> & ?); [done|done|]. destruct (IH (set_buf w (buf w ++ arg_bytes e))) as (es & -> & ?); [done|done|].
    exists (e :: es). split; [|eauto]. cbn. by rewrite <-app_assoc.
Qed.

(** *** Emitting instructions

    [emits w w' l]: the encoder went from [w] to [w'] by writing [l], and the
    copyout indices in [l] continue the encoder's sequence. *)
Definition instr_outs (i : einstr) : list Z :=
  match i with
  | ICopyout idx _ _ => [u64 idx]
  | ICall _ idx _ => if decide (u64 idx = ExecNoCopyout) then [] else [u64 idx]
  | _ => []
  end.
Definition emits (w w' : execContext) (l : list einstr) : Prop :=
  buf w' = buf w ++ (l ≫= instr_bytes) ∧
  (0 ≤ copyoutSeq w ≤ len (buf w) → len (buf w') ≤ ExecBufferSize →
   copyoutSeq w' = copyoutSeq w + len (l ≫= instr_outs) ∧
   (l ≫= instr_outs) = seqZ (copyoutSeq w) (len (l ≫= instr_outs))).

Lemma instr_bytes_pos i : (1 ≤ length (instr_bytes i))%nat.
Proof.
  pose proof (instrs_length [i]) as H. cbn [mbind list_bind length] in H. rewrite app_nil_r in H. done.
Qed.
Lemma outs_length l : (length (l ≫= instr_outs) ≤ length (l ≫= instr_bytes))%nat.
Proof.
  induction l as [|i l IH]; [done|]. cbn [mbind list_bind] in *. rewrite !length_app.
  pose proof (instr_bytes_pos i). assert (length (instr_outs i) ≤ 1)%nat; [|lia].
  destruct i; cbn; try lia. case_decide; cbn; lia.
Qed.
Lemma emits_refl w w' : buf w' = buf w → copyoutSeq w' = copyoutSeq w → emits w w' [].
Proof. intros Hb Hs. split; [by rewrite Hb, app_nil_r|]. intros _ _. unfold len. cbn. rewrite Hs. split; [lia|done]. Qed.
Lemma emits_trans w1 w2 w3 l1 l2 : emits w1 w2 l1 → emits w2 w3 l2 → emits w1 w3 (l1 ++ l2).
Proof.
  intros [Hb1 Hs1] [Hb2 Hs2]. split; [by rewrite bind_app, Hb2, Hb1, app_assoc|].
  intros Hw Hlen. pose proof (outs_length l1) as Ho.
  assert (HB : len (buf w2) ≤ len (buf w3)) by (unfold len; rewrite Hb2, length_app; lia).
  destruct (Hs1 Hw) as [Hq1 Hl1]; [lia|].
  destruct Hs2 as [Hq2 Hl2]; [rewrite Hq1, Hb1; unfold len in *; rewrite length_app; lia|lia|].
  rewrite bind_app. unfold len in *. rewrite length_app, Nat2Z.inj_add. split; [lia|].
  rewrite seqZ_app by lia. by rewrite <-Hl1, <-Hq1, <-Hl2.
Qed.
(** One instruction without a copyout. *)
Lemma emits_one w w' i :
  buf w' = buf w ++ instr_bytes i → copyoutSeq w' = copyoutSeq w → instr_outs i = [] → emits w w' [i].
Proof.
  intros Hb Hs Ho. split; [cbn; by rewrite app_nil_r|]. intros _ _. unfold len. cbn. rewrite Ho, Hs. cbn. split; [lia|done].
Qed.
(** One instruction that takes the next copyout index. *)
Lemma emits_out w w' i :
  buf w' = buf w ++ instr_bytes i → copyoutSeq w' = (copyoutSeq w +u 1) → instr_outs i = [u64 (copyoutSeq w)] →
  emits w w' [i].
Proof.
  intros Hb Hs Ho. split; [cbn; by rewrite app_nil_r|]. intros Hw Hlen. unfold len in *. cbn. rewrite Ho, Hs. cbn.
  assert (HB : ExecBufferSize < 2 ^ 63) by done. rewrite Hb, length_app in Hlen.
  rewrite !u64_id by (unfold in_u64; lia). done.
Qed.

Definition copyin_instr (i : Z * earg) : einstr := ICopyin (fst i) (snd i).
Definition dec_copyin (i : Z * earg) : ExecCopyin :=
  mkXCopyin (u64 (fst i) +u DataOffset target) (Some (dec_arg target (snd i))).
Definition copyout_instr (o : Z * Z * Z) : einstr := let '(idx, addr, size) := o in ICopyout idx addr size.

Definition dec_copyout (o : Z * Z * Z) : ExecCopyout :=
  let '(idx, addr, size) := o in mkXCopyout (u64 idx) (u64 addr +u DataOffset target) (u64 size).

Lemma visit_addr_rebase pa d off uo : (u64 (((pa -u d) +u off) -u uo) +u d) = u64 (pa + off - uo).
Proof.
  rewrite u64_idem. unfold u64. set (x := (pa - d) mod 2 ^ 64). rewrite Zplus_mod_idemp_l.
  replace ((x + off) mod 2 ^ 64 - uo + d) with ((x + off) mod 2 ^ 64 + (d - uo)) by lia.
  rewrite Zplus_mod_idemp_l. replace (x + off + (d - uo)) with (x + (off + d - uo)) by lia.
  unfold x. rewrite Zplus_mod_idemp_l. f_equal. lia.
Qed.

(** *** Copyin *)

(** What is known of a visited argument: where it lies, unless the return
    value has the entry. *)
Definition visit_located (v : ArgVisit) (info : argInfo) : Prop :=
  in_u64 (AAddr info) ∧ ARet info = false ∧ visit_addr typeRefs target v (u64 (AAddr info) +u DataOffset target).
(** Only the entries of the call at hand, [cur], change. *)
Definition same_outside (cur : list argid) (w w' : execContext) : Prop :=
  (∀ id, id ∉ cur → eargs w' !! id = eargs w !! id) ∧ csumMap w' = csumMap w ∧ csumUses w' = csumUses w.
Definition refs_known (cur : list argid) (w : execContext) (a : Arg) : Prop :=
  ∀ r t, leaf_result a = Some r → res_Res r = Some t → (t ∉ cur) ∧ ∃ info, eargs w !! t = Some info ∧ index_of t (u64 (AIdx info)).

Lemma refs_known_ref cur w a : refs_known cur w a → ref_known w a.
Proof. intros H r t Hr Ht. by destruct (H r t Hr Ht). Qed.
Lemma refs_known_same cur w w' a : same_outside cur w w' → refs_known cur w a → refs_known cur w' a.
Proof. intros [Hs _] H r t Hr Ht. destruct (H r t Hr Ht) as [Hn (info & ? & ?)]. split; [done|]. exists info. by rewrite Hs. Qed.
Lemma same_outside_trans cur w1 w2 w3 : same_outside cur w1 w2 → same_outside cur w2 w3 → same_outside cur w1 w3.
Proof. intros (H1 & H2 & H3) (H4 & H5 & H6). split_and!; [|congruence..]. intros id Hid. by rewrite H4, H1. Qed.
Lemma same_outside_refl cur w w' : eargs w' = eargs w → csumMap w' = csumMap w → csumUses w' = csumUses w → same_outside cur w w'.
Proof. intros H1 H2 H3. split_and!; [|done..]. by rewrite H1. Qed.
Lemma same_outside_mono cur cur' w w' : cur ⊆ cur' → same_outside cur w w' → same_outside cur' w w'.
Proof. intros H (H1 & H2). split; [|done]. intros id Hid. apply H1. set_solver. Qed.
Lemma willBeUsed_same w w' a : csumMap w' = csumMap w → csumUses w' = csumUses w → willBeUsed w' a = willBeUsed w a.
Proof. unfold willBeUsed. by intros -> ->. Qed.

Abbreviation ids vs := ((λ v, aid (v_arg v)) <$> vs).

Lemma copyin_arg_spec cur v w w' :
  aid (v_arg v) ∈ cur → refs_known cur w (v_arg v) → copyin_arg typeRefs target v w = Ret w' →
  (∃ ins, emits w w' (copyin_instr <$> ins) ∧
    Forall2 (λ v i, copyin_matches typeRefs target index_of v (dec_copyin i)) (filter (copyin_written typeRefs) [v]) ins) ∧
  copyoutSeq w' = copyoutSeq w ∧ same_outside [aid (v_arg v)] w w' ∧
  (eargs w !! aid (v_arg v) = None → willBeUsed w (v_arg v) = true → visit_located v (info_of w' (v_arg v))).
Proof.
  unfold copyin_arg. intros Hcur Hk H. rewrite filter_cons, filter_nil.
  destruct (v_base v) as [base|] eqn:Eb.
  2:{ apply Ret_inj in H; subst. split_and!; [|done|by apply same_outside_refl|].
      - exists []. split; [by apply emits_refl|]. unfold copyin_written. rewrite Eb. cbn. eauto.
      - intros Hn _. unfold visit_located, info_of, visit_addr. rewrite Hn, Eb. by split_and!. }
  inv_ret H. set (addr := _ -u UnitOffset v1) in H.
  match type of H with context [if willBeUsed w ?a then ?x else w] => set (w1 := if willBeUsed w a then x else w) in H end.
  assert (Hw1 : buf w1 = buf w ∧ copyoutSeq w1 = copyoutSeq w ∧ same_outside [aid (v_arg v)] w w1).
  { unfold w1. destruct (willBeUsed w (v_arg v)); [|split_and!; [done|done|by apply same_outside_refl]].
    split_and!; [done|done|]. split_and!; [|done..]. intros id Hid. cbn. apply lookup_insert_ne. set_solver. }
  assert (Hl : willBeUsed w (v_arg v) = true → visit_located v (info_of w1 (v_arg v))).
  { unfold w1. intros ->. unfold info_of. cbn [eargs set_args]. rewrite lookup_insert_eq. cbn [default id]. split_and!; [apply u64_range|done|].
    unfold visit_addr. rewrite Eb. exists v0, v1. split_and!; [done..|]. unfold addr. apply visit_addr_rebase. }
  destruct Hw1 as (Hb1 & Hs1 & Hsame). assert (Hk1 : refs_known cur w1 (v_arg v)).
  { eapply refs_known_same; [|exact Hk]. eapply same_outside_mono; [|exact Hsame]. set_solver. }
  clearbody w1. 
  assert (Hcase : (copyin_written typeRefs v = false ∧ w' = w1) ∨
    (copyin_written typeRefs v = true ∧ writeArg typeRefs target (v_arg v) (writes [execInstrCopyin; addr] w1) = Ret w')).
  { clear Hl Hk Hk1 Hcur. unfold copyin_written. rewrite Eb.
    destruct (v_arg v) eqn:Ev; try (apply Ret_inj in H; by left); rewrite Hv0;
      (destruct (decide (ADir _ = DirOut)); [apply Ret_inj in H; left; split; [|done];
         destruct (ArgSize typeRefs _); [by rewrite bool_decide_false by tauto|done]|]);
      (destruct (TIsPad v1); [apply Ret_inj in H; left; split; [|done];
         destruct (ArgSize typeRefs _); [by rewrite andb_false_r|done]|]);
      inv_ret H; rewrite Hv1; rewrite (bool_decide_true (ADir _ ≠ DirOut)) by done; cbn [andb negb];
      (destruct (decide (v2 = 0 ∧ IsBitfield v1 = false)); [apply Ret_inj in H; left; by rewrite bool_decide_true|]);
      right; by rewrite bool_decide_false. }
  destruct Hcase as [[Hn ->]|[Hy Hw]].
  - split_and!; [|done|done|done]. exists []. split; [by apply emits_refl|]. rewrite Hn. cbn. eauto.
  - clear H. rewrite writes_spec in Hw. destruct (writeArg_spec _ _ _ (refs_known_ref cur w1 _ Hk1 : ref_known (set_buf w1 _) _) Hw) as (e & -> & Hm & _).
    split_and!; [|done| |done].
    + exists [(addr, e)]. rewrite Hy. cbn [fmap list_fmap]. split.
      * apply emits_one; [|done|done]. cbn. by rewrite Hb1, <-app_assoc.
      * rewrite decide_True by done. constructor; [|constructor]. split; [|by eexists].
        unfold visit_addr. rewrite Eb. exists v0, v1. split_and!; [done..|]. cbn. unfold addr. by rewrite visit_addr_rebase.
    + eapply same_outside_trans; [exact Hsame|]. by apply same_outside_refl.
Qed.

Lemma copyin_visits_spec cur vs w w' :
  ids vs ⊆ cur → NoDup (ids vs) → Forall (λ v, refs_known cur w (v_arg v)) vs → (∀ id, id ∈ ids vs → eargs w !! id = None) →
  copyin_visits typeRefs target vs w = Ret w' →
  (∃ ins, emits w w' (copyin_instr <$> ins) ∧
    Forall2 (λ v i, copyin_matches typeRefs target index_of v (dec_copyin i)) (filter (copyin_written typeRefs) vs) ins) ∧
  copyoutSeq w' = copyoutSeq w ∧ same_outside (ids vs) w w' ∧
  Forall (λ v, willBeUsed w (v_arg v) = true → visit_located v (info_of w' (v_arg v))) vs.
Proof.
  revert w. induction vs as [|v vs IH]; intros w Hcur Hnd Hk Hnew H; cbn [copyin_visits] in H.
  - apply Ret_inj in H as ->. split_and!; [|done|by apply same_outside_refl|constructor]. exists []. split; [by apply emits_refl|]. rewrite filter_nil. constructor.
  - inv_ret H. apply Forall_cons in Hk as [Hkv Hk]. cbn [fmap list_fmap] in Hcur, Hnd, Hnew. apply NoDup_cons in Hnd as [Hnv Hnd].
    destruct (copyin_arg_spec cur v w v0) as ((i1 & He1 & Hm1) & Hq1 & Hs1 & Hl1); [set_solver|done|done|].
    destruct (IH v0) as ((i2 & He2 & Hm2) & Hq2 & Hs2 & Hl2); [set_solver|done| | |done|].
    { eapply Forall_impl; [exact Hk|]. intros y Hy. eapply refs_known_same; [|exact Hy]. eapply same_outside_mono; [|exact Hs1]. set_solver. }
    { intros id Hid. rewrite (proj1 Hs1); [apply Hnew; by right|]. apply not_elem_of_cons. split; [by intros ->|apply not_elem_of_nil]. }
    split_and!; [|congruence| |].
    + exists (i1 ++ i2). rewrite fmap_app. split; [by eapply emits_trans|]. change (v :: vs) with ([v] ++ vs). rewrite filter_app. by apply Forall2_app.
    + eapply same_outside_trans; eapply same_outside_mono; try eassumption; cbn; set_solver.
    + constructor.
      * intros Hu. unfold info_of. rewrite (proj1 Hs2) by done. apply Hl1; [|done]. apply Hnew. by left.
      * destruct Hs1 as (_ & Hs1 & Hs1'). eapply Forall_impl; [exact Hl2|]. cbn. intros y Hy Hu. apply Hy. by rewrite (willBeUsed_same w v0).
Qed.

(** *** Checksums *)

Definition arg_located (vs : list ArgVisit) (w : execContext) (a : Arg) : Prop := ∃ v, v ∈ vs ∧ v_arg v = a ∧ visit_located v (info_of w a).
Definition chunk_located (vs : list ArgVisit) (w : execContext) (ch : CsumChunk) : Prop :=
  match ch with CsumChunkArg a => arg_located vs w a | CsumChunkConst _ _ => True end.
Definition csum_located (vs : list ArgVisit) (w : execContext) (ai : Arg * CsumInfo) : Prop :=
  arg_located vs w (fst ai) ∧ Forall (chunk_located vs w) (CIChunks (snd ai)).

Lemma write_chunks_spec vs chunks w w' :
  Forall (chunk_located vs w) chunks → write_chunks typeRefs chunks w = Ret w' →
  ∃ cs, w' = set_buf w (buf w ++ words (cs ≫= chunk_words)) ∧
    Forall2 (λ ch c, chunk_matches typeRefs target vs ch (dec_chunk target c)) chunks cs.
Proof.
  revert w. induction chunks as [|c chunks IH]; intros w Hl H; cbn [write_chunks] in H.
  - apply Ret_inj in H as ->. exists []. split; [|constructor]. cbn. by rewrite app_nil_r, set_buf_same.
  - apply Forall_cons in Hl as [Hc Hl].
    assert (∃ c', write_chunks typeRefs chunks (writes (chunk_words c') w) = Ret w' ∧ chunk_matches typeRefs target vs c (dec_chunk target c')) as (c' & Hw & Hm).
    { destruct c as [a|value size].
      - inv_ret H. exists (mkXChunk ExecArgCsumChunkData (AAddr (info_of w a)) v). split; [exact H|]. destruct Hc as (y & Hy & Ha & _ & _ & Haddr).
        exists y, v. unfold dec_chunk. cbn [XCKind XCValue XCSize]. change (u64 ExecArgCsumChunkData) with ExecArgCsumChunkData. by rewrite decide_True by done.
      - exists (mkXChunk ExecArgCsumChunkConst value size). split; [exact H|]. unfold chunk_matches, dec_chunk. cbn [XCKind XCValue XCSize].
        by rewrite decide_False by (by vm_compute). }
    clear H. rewrite writes_spec in Hw. destruct (IH (set_buf w (buf w ++ words (chunk_words c')))) as (cs & -> & Hcs); [exact Hl|exact Hw|].
    exists (c' :: cs). split; [|by constructor]. cbn [set_buf buf mbind list_bind]. by rewrite words_app, app_assoc.
Qed.

(** The checksum instruction for a planned checksum. *)
Definition csum_instr_ok (vs : list ArgVisit) (w : execContext) (ai : Arg * CsumInfo) (i : Z * earg) : Prop :=
  csum_matches typeRefs target vs ai (dec_copyin i) ∧ fst i = AAddr (info_of w (fst ai)) ∧ in_u64 (fst i).
Lemma write_csum_spec vs ai w w' :
  csum_located vs w ai → write_csum typeRefs ai w = Ret w' →
  w' = set_buf w (buf w') ∧ ∃ i, emits w w' [copyin_instr i] ∧ csum_instr_ok vs w ai i.
Proof.
  unfold write_csum. destruct ai as [a info]. intros [(y & Hy & Ha & Hin & _ & Haddr) Hch] H. inv_ret H. destruct v; try done.
  destruct (CIKind info); try done. inv_ret H. rewrite writes_spec in H.
  destruct (write_chunks_spec vs _ _ _ (Hch : Forall (chunk_located vs (set_buf w _)) (CIChunks info)) H) as (cs & -> & Hl). split; [done|].
  exists (AAddr (info_of w a), ECsum v cs). split.
  - apply emits_one; [|done|done]. cbn [set_buf buf copyin_instr fst snd instr_bytes arg_bytes].
    unfold len. rewrite (Forall2_length _ _ _ Hl). rewrite <-app_assoc. f_equal. rewrite app_assoc. f_equal. by rewrite <-words_app.
  - split_and!; [|done|done]. exists y, v, (dec_chunk target <$> cs). split_and!; [done..|]. by apply Forall2_fmap_r.
Qed.
Lemma write_csums_spec vs l w w' :
  Forall (csum_located vs w) l → write_csums typeRefs l w = Ret w' →
  w' = set_buf w (buf w') ∧ ∃ cs, emits w w' (copyin_instr <$> cs) ∧ Forall2 (csum_instr_ok vs w) l cs.
Proof.
  revert w. induction l as [|ai l IH]; intros w Hl H; cbn [write_csums] in H.
  - apply Ret_inj in H as ->. split; [by rewrite set_buf_same|]. exists []. split; [by apply emits_refl|constructor].
  - apply Forall_cons in Hl as [Ha Hl]. inv_ret H. destruct (write_csum_spec vs _ _ _ Ha Hv) as (Hw & i & He & Hi).
    destruct (IH v) as (Hw' & cs & He' & Hcs); [by rewrite Hw|done|]. split; [by rewrite Hw', Hw|].
    exists (i :: cs). split; [by apply (emits_trans _ _ _ _ _ He)|]. constructor; [done|]. by rewrite Hw in Hcs.
Qed.
Lemma reverse_sorted {A} (R : A → A → Prop) l : StronglySorted R l → StronglySorted (λ x y, R y x) (reverse l).
Proof.
  induction 1 as [|x l _ IH Hx]; [constructor|]. rewrite reverse_cons. apply StronglySorted_app_2; [|done|repeat constructor].
  intros y z Hy ->%list_elem_of_singleton. eapply Forall_forall; [exact Hx|]. by apply elem_of_reverse.
Qed.
Lemma Forall2_sorted {A B} (P : A → B → Prop) (R : A → A → Prop) (S : B → B → Prop) l k :
  (∀ x y x' y', P x y → P x' y' → R x x' → S y y') → Forall2 P l k → StronglySorted R l → StronglySorted S k.
Proof.
  intros H. induction 1 as [|x y l k Hp Hf IH]; intros Hs; [constructor|]. inversion Hs as [|? ? Hs' Hx]; subst. constructor; [by apply IH|].
  clear -H Hp Hf Hx. induction Hf as [|x' y' l k Hp' Hf IH]; [constructor|]. inv Hx. constructor; [by eapply H|by apply IH].
Qed.
Lemma writeChecksums_spec vs w w' :
  Forall (csum_located vs w) (values (csumMap w)) → writeChecksums typeRefs w = Ret w' →
  w' = set_buf w (buf w') ∧ ∃ cs l, emits w w' (copyin_instr <$> cs) ∧ l ≡ₚ values (csumMap w) ∧
    Forall2 (csum_matches typeRefs target vs) l (dec_copyin <$> cs) ∧ StronglySorted (csum_after target) (dec_copyin <$> cs).
Proof.
  unfold writeChecksums. set (l := reverse _). intros Hloc H.
  assert (Hl : l ≡ₚ values (csumMap w)) by (unfold l; by rewrite reverse_Permutation, sort_by_perm).
  destruct (write_csums_spec vs l w w') as (Hw & cs & He & Hf); [by rewrite Hl|done|]. split; [done|].
  exists cs, l. split_and!; [done|done| |].
  - apply Forall2_fmap_r. eapply Forall2_impl; [exact Hf|]. by intros ? ? (? & _).
  - assert (Hs : StronglySorted (λ x y, AAddr (info_of w (fst y)) ≤ AAddr (info_of w (fst x))) l).
    { apply (reverse_sorted (λ x y, AAddr (info_of w (fst x)) ≤ AAddr (info_of w (fst y)))). eapply (Forall2_sorted eq); [|by apply list_eq_Forall2|apply (sort_by_sorted (less_on (λ x, AAddr (info_of w (fst x)))))].
      intros x ? y ? <- <-. unfold le_by, less_on. by rewrite Z.ltb_ge. }
    eapply (Forall2_sorted (λ ai x, (XInAddr x -u DataOffset target) = AAddr (info_of w (fst ai)))); [| |exact Hs].
    { intros ? ? ? ? H1 H2 Hr. unfold csum_after. by rewrite H1, H2. }
    apply Forall2_fmap_r. eapply Forall2_impl; [exact Hf|]. intros ai i (_ & Hi & Hin). rewrite <-Hi.
    unfold compose, dec_copyin. cbn [XInAddr]. rewrite (u64_id (fst i)) by done. unfold u64. rewrite Zminus_mod_idemp_l. replace (fst i + DataOffset target - DataOffset target) with (fst i) by lia. by apply u64_id.
Qed.

(** *** The call and its copyouts *)

Definition used_ret (c : Call) : option ResultArg :=
  match CRet c with Some r => if is_used r then Some r else None | None => None end.
Lemma is_used_size r : is_used r = true ↔ size (uses r) ≠ 0%nat.
Proof. unfold is_used. apply bool_decide_eq_true. Qed.
Lemma used_ret_Some c r : used_ret c = Some r → CRet c = Some r ∧ is_used r = true.
Proof. unfold used_ret. destruct (CRet c) as [r'|]; [|done]. destruct (is_used r') eqn:E; [|done]. by intros [= ->]. Qed.

Lemma write_call_spec m c cur w w' :
  Forall (refs_known cur w) (Args c) → (∀ r, used_ret c = Some r → rid r ∈ cur ∧ index_of (rid r) (u64 (copyoutSeq w))) →
  write_call typeRefs target m c w = Ret w' →
  (∃ idx args, emits w w' [ICall (ID m) idx args] ∧ ret_matches index_of (CRet c) (u64 idx) ∧
    Forall2 (λ a e, matches a (dec_arg target e) ∧ (scalar_arg a → call_arg e)) (Args c) args) ∧
  csumMap w' = csumMap w ∧ csumUses w' = csumUses w ∧
  copyoutSeq w' = match used_ret c with Some _ => copyoutSeq w +u 1 | None => copyoutSeq w end ∧
  eargs w' = match used_ret c with Some r => <[rid r := mkArgInfo 0 (copyoutSeq w) true]> (eargs w) | None => eargs w end.
Proof.
  unfold write_call. intros Hk Hret H. inv_ret H.
  assert (Hv' : ∃ idx, buf v = buf w ++ words [ID m; idx] ∧ ret_matches index_of (CRet c) (u64 idx) ∧
    csumMap v = csumMap w ∧ csumUses v = csumUses w ∧
    match used_ret c with
    | None => idx = ExecNoCopyout ∧ copyoutSeq v = copyoutSeq w ∧ eargs v = eargs w
    | Some r => idx = copyoutSeq w ∧ copyoutSeq v = (copyoutSeq w +u 1) ∧ eargs v = <[rid r := mkArgInfo 0 (copyoutSeq w) true]> (eargs w)
    end).
  { assert (Hno : Ret (write ExecNoCopyout (write (u64 (ID m)) w)) = Ret v → ∃ idx, idx = ExecNoCopyout ∧ buf v = buf w ++ words [ID m; idx] ∧
      csumMap v = csumMap w ∧ csumUses v = csumUses w ∧ copyoutSeq v = copyoutSeq w ∧ eargs v = eargs w).
    { intros Hr. apply Ret_inj in Hr as <-. exists ExecNoCopyout. split; [done|]. split; [|done].
      cbn [write set_buf buf words]. by rewrite varint_bytes_u64, app_nil_r, app_assoc. }
    unfold used_ret, ret_matches in *. destruct (CRet c) as [r|].
    2:{ destruct (Hno Hv) as (idx & -> & ? & ? & ? & ? & ?). eexists. split_and!; done. }
    unfold is_used in *. destruct (decide (size (uses r) = 0%nat)) as [E|E].
    { rewrite bool_decide_false by (by intros []). destruct (Hno Hv) as (idx & -> & ? & ? & ? & ? & ?). eexists. split_and!; done. }
    rewrite bool_decide_true in * by done. destruct (Hret r eq_refl) as [_ Hidx].
    destruct (decide (is_Some _)); [done|]. apply Ret_inj in Hv as <-. exists (copyoutSeq w). split_and!; try done.
    cbn [write set_buf set_seq set_args buf words copyoutSeq]. by rewrite varint_bytes_u64, app_nil_r, app_assoc. }
  clear Hv. destruct Hv' as (idx & Hb & Hm & Hc1 & Hc2 & Hs).
  assert (Hsame : same_outside cur w v).
  { split_and!; [|done..]. intros id Hid. destruct (used_ret c) as [r|] eqn:Er; destruct Hs as (_ & _ & ->); [|done].
    apply lookup_insert_ne. destruct (Hret r eq_refl) as [Hin _]. intros E. by rewrite E in Hin. }
  destruct (write_args_spec (Args c) (write (len (Args c)) v) w') as (es & -> & Hf); [|done|].
  { eapply Forall_impl; [exact Hk|]. intros a Ha. eapply (refs_known_ref cur v), refs_known_same; done. }
  split_and!; [|done|done|by destruct (used_ret c); destruct Hs as (_ & ? & _)|by destruct (used_ret c); destruct Hs as (_ & _ & ?)].
  exists idx, es. split_and!; [|done|done].
  pose proof (Forall2_length _ _ _ Hf) as Hl.
  assert (Hbuf : buf (set_buf (write (len (Args c)) v) (buf (write (len (Args c)) v) ++ (es ≫= arg_bytes)))
    = buf w ++ instr_bytes (ICall (ID m) idx es)).
  { cbn [write set_buf buf instr_bytes words]. rewrite Hb. unfold len. rewrite Hl. cbn [words].
    by rewrite !app_nil_r, <-!app_assoc. }
  destruct (used_ret c) as [r|]; destruct Hs as (-> & Hs & _); [|by apply emits_one].
  destruct (decide (u64 (copyoutSeq w) = ExecNoCopyout)) as [Hx|Hx]; [|apply emits_out; [done|done|cbn; by rewrite decide_False]].
  split; [cbn [mbind list_bind]; by rewrite app_nil_r|]. intros Hw Hlen.
  assert (HB : ExecBufferSize < ExecNoCopyout) by done.
  assert (len (buf w) ≤ ExecBufferSize); [|rewrite u64_id in Hx by (unfold in_u64, ExecNoCopyout in *; lia); lia].
  rewrite Hbuf in Hlen. unfold len in *. rewrite length_app in Hlen. lia.
Qed.

Abbreviation outs_of c vs := (filter (copied_out c) vs).
(** An entry is where the copyout loop expects it: the return value's own, or
    the place of the argument. *)
Definition out_ready (c : Call) (w : execContext) (v : ArgVisit) : Prop :=
  ∀ r, v_arg v = AResult r → is_used r = true →
    if copied_out c v then visit_located v (info_of w (v_arg v)) else ARet (info_of w (v_arg v)) = true.

Lemma copyout_arg_spec c v k w w' :
  copyoutSeq w = u64 k → (copied_out c v = true → index_of (aid (v_arg v)) (u64 k)) → out_ready c w v →
  copyout_arg typeRefs v w = Ret w' →
  if copied_out c v then
    ∃ o, emits w w' [copyout_instr o] ∧ out_matches typeRefs target index_of v (dec_copyout o) ∧ copyoutSeq w' = u64 (k + 1) ∧
      same_outside [aid (v_arg v)] w w' ∧ ∃ info, eargs w' !! aid (v_arg v) = Some info ∧ AIdx info = u64 k
  else w' = w.
Proof.
  intros Hs Hidx Hr H. unfold copyout_arg in H. unfold out_ready in Hr. destruct (copied_out c v) eqn:Ec; unfold copied_out in Ec.
  - destruct (v_arg v) as [| | | | |r] eqn:Ev; try done. apply andb_true_iff in Ec as [Hu _].
    destruct (Hr r eq_refl Hu) as (Hin & Hret & Haddr). rewrite Hret in H. rewrite decide_False in H by (by apply is_used_size).
    inv_ret H. apply Ret_inj in H as <-. exists (copyoutSeq w, AAddr (info_of w (AResult r)), v0). rewrite writes_spec.
    split_and!.
    + by apply emits_out.
    + split_and!; cbn [dec_copyout XOutIndex XOutAddr XOutSize]; [rewrite Ev, Hs, u64_idem; by apply Hidx|done|exists v0; by rewrite Ev].
    + cbn. rewrite Hs. unfold u64. by rewrite Zplus_mod_idemp_l.
    + split_and!; [|done..]. intros id Hid. cbn [eargs set_args set_buf set_seq]. apply lookup_insert_ne. set_solver.
    + eexists. cbn [eargs set_args set_buf set_seq]. rewrite lookup_insert_eq. split; [done|]. cbn. done.
  - destruct (v_arg v) as [| | | | |r] eqn:Ev; try (by apply Ret_inj in H).
    destruct (decide (size (uses r) = 0%nat)) as [E|E]; [by apply Ret_inj in H|]. rewrite (Hr r eq_refl) in H by (by apply is_used_size). by apply Ret_inj in H.
Qed.

Lemma copyout_visits_spec c vs k w w' :
  copyoutSeq w = u64 k → (∀ n id, ids (outs_of c vs) !! n = Some id → index_of id (u64 (k + Z.of_nat n))) →
  NoDup (ids vs) → Forall (out_ready c w) vs → copyout_visits typeRefs vs w = Ret w' →
  (∃ outs, emits w w' (copyout_instr <$> outs) ∧
    Forall2 (λ v o, out_matches typeRefs target index_of v (dec_copyout o)) (outs_of c vs) outs) ∧
  copyoutSeq w' = u64 (k + Z.of_nat (length (outs_of c vs))) ∧ same_outside (ids (outs_of c vs)) w w' ∧
  (∀ n id, ids (outs_of c vs) !! n = Some id → ∃ info, eargs w' !! id = Some info ∧ AIdx info = u64 (k + Z.of_nat n)).
Proof.
  revert k w. induction vs as [|v vs IH]; intros k w Hs Hidx Hnd Hr H; cbn [copyout_visits] in H.
  - apply Ret_inj in H as ->. rewrite filter_nil. split_and!; [|cbn; by rewrite Z.add_0_r|by apply same_outside_refl|done]. exists []. split; [by apply emits_refl|constructor].
  - inv_ret H. cbn [fmap list_fmap] in Hnd. apply NoDup_cons in Hnd as [Hnv Hnd]. apply Forall_cons in Hr as [Hrv Hr].
    rewrite filter_cons in Hidx |- *.
    assert (Hv1 := copyout_arg_spec c v k w v0 Hs).
    destruct (decide (copied_out c v)) as [Ec|Ec].
    + assert (Ec' : copied_out c v = true) by (by destruct (copied_out c v)). rewrite Ec' in Hv1. cbn [fmap list_fmap] in Hidx |- *.
      destruct Hv1 as (o & He & Ho & Hq & Hsame & info & Hinfo & Hn); [intros _; specialize (Hidx 0%nat _ eq_refl); by rewrite Z.add_0_r in Hidx|done|done|].
      destruct (IH (k + 1) v0) as ((outs & He' & Ho') & Hq' & Hsame' & Hall); [done| |done| |done|].
      { intros n id Hn'. specialize (Hidx (S n) id Hn'). by replace (k + 1 + Z.of_nat n) with (k + Z.of_nat (S n)) by lia. }
      { apply Forall_forall. intros y Hy. eapply Forall_forall in Hr; [|exact Hy]. intros r Ey Hu. specialize (Hr r Ey Hu).
        unfold info_of in *. rewrite (proj1 Hsame); [done|]. apply not_elem_of_cons. split; [|apply not_elem_of_nil]. intros E. apply Hnv. rewrite <-E. by apply (list_elem_of_fmap_2 (λ v, aid (v_arg v))). }
      assert (Hnf : aid (v_arg v) ∉ ids (outs_of c vs)).
      { intros (y & E & [_ Hy]%list_elem_of_filter)%list_elem_of_fmap. apply Hnv. rewrite E. by apply (list_elem_of_fmap_2 (λ v, aid (v_arg v))). }
      split_and!.
      * exists (o :: outs). split; [by apply (emits_trans _ _ _ _ _ He)|by constructor].
      * rewrite Hq'. f_equal. cbn [length]. lia.
      * eapply same_outside_trans; eapply same_outside_mono; try eassumption; set_solver.
      * intros [|n] id Hid.
        -- cbn in Hid. injection Hid as <-. exists info. rewrite (proj1 Hsame') by done. by rewrite Z.add_0_r.
        -- destruct (Hall n id Hid) as (info' & ? & ?). exists info'. split; [done|]. replace (k + Z.of_nat (S n)) with (k + 1 + Z.of_nat n) by lia. done.
    + assert (Ec' : copied_out c v = false) by (by destruct (copied_out c v)). rewrite Ec' in Hv1. rewrite Hv1 in H by done. by apply IH.
Qed.

Definition props_instrs (c : Call) : list einstr := if decide (Props c = noProps) then [] else [IProps (Props c)].
(** The instructions of one call: copyins, checksums, properties, the call
    itself, copyouts. *)
Definition call_shape (c : option Call) (l : list einstr) : Prop :=
  ∃ call m vs planned u ins csums cs idx args outs,
    c = Some call ∧ Meta call = Some m ∧ ForeachArg typeRefs call = Ret vs ∧ calcChecksumsCall typeRefs call = Ret (planned, u) ∧
    l = (copyin_instr <$> ins ++ csums) ++ props_instrs call ++ ICall (ID m) idx args :: (copyout_instr <$> outs) ∧
    Forall2 (λ v i, copyin_matches typeRefs target index_of v (dec_copyin i)) (filter (copyin_written typeRefs) vs) ins ∧
    (cs ≡ₚ values planned ∧ Forall2 (csum_matches typeRefs target vs) cs (dec_copyin <$> csums) ∧ StronglySorted (csum_after target) (dec_copyin <$> csums)) ∧
    ret_matches index_of (CRet call) (u64 idx) ∧
    Forall2 (λ a e, matches a (dec_arg target e) ∧ (scalar_arg a → call_arg e)) (Args call) args ∧
    Forall2 (λ v o, out_matches typeRefs target index_of v (dec_copyout o)) (outs_of call vs) outs.

Lemma props_emits c w :
  emits w (if decide (Props c = noProps) then w else writeCallProps (Props c) w) (props_instrs c).
Proof.
  unfold props_instrs. case_decide; [by apply emits_refl|]. unfold writeCallProps. rewrite writes_spec.
  apply emits_one; [|done|done]. cbn [set_buf buf instr_bytes words]. by rewrite !varint_bytes_u64.
Qed.
Lemma props_same c w : let w' := if decide (Props c = noProps) then w else writeCallProps (Props c) w in w' = set_buf w (buf w').
Proof. cbv zeta. case_decide; [by rewrite set_buf_same|]. unfold writeCallProps. by rewrite writes_spec. Qed.

(** *** The results of a call *)

Definition used_result (a : Arg) : bool := match a with AResult r => is_used r | _ => false end.
Lemma used_ids_app l k : used_ids (l ++ k) = used_ids l ++ used_ids k.
Proof. unfold used_ids. by rewrite roots_results_app, filter_app, fmap_app. Qed.
Lemma subs_used a : aid <$> filter used_result (arg_subs a) = rid <$> filter is_used (arg_results a).
Proof.
  induction a as [c v|c ad v x Hx|c d s|c l Hl|c o i t Ho|r] using Arg_nested_ind; cbn [arg_subs arg_results]; rewrite filter_cons, ?decide_False by (by intros []).
  - done.
  - by destruct x.
  - done.
  - induction Hl as [|x l Hx Hl IH]; [done|]. cbn [fmap list_fmap concat]. by rewrite !filter_app, !fmap_app, Hx, IH.
  - done.
  - rewrite filter_cons. cbn [used_result]. rewrite !filter_nil. by destruct (decide (is_used r)).
Qed.
Lemma roots_used l : aid <$> filter used_result (roots_subs l) = used_ids l.
Proof.
  unfold used_ids, roots_subs, roots_results. induction l as [|a l IH]; [done|]. cbn [fmap list_fmap concat]. by rewrite !filter_app, !fmap_app, subs_used, IH.
Qed.
Lemma used_ids_call c : used_ids (call_roots c) = option_list (rid <$> used_ret c) ++ used_ids (Args c).
Proof.
  unfold call_roots. rewrite used_ids_app. f_equal. unfold used_ret. destruct (CRet c) as [r|]; [|done]. unfold used_ids, roots_results.
  change (concat (arg_results <$> option_list (AResult <$> Some r))) with [r]. rewrite filter_cons, filter_nil. by destruct (is_used r).
Qed.

Lemma leaf_result_in a r : leaf_result a = Some r → r ∈ arg_results a.
Proof. induction a as [c v|c ad v x Hx|c d s|c l Hl|c o i t Ho|r0] using Arg_nested_ind; cbn [leaf_result arg_results]; try done. intros [= ->]. by left. Qed.

Section one_call.
Context (c : Call) (vs : list ArgVisit) (Hvs : ForeachArg typeRefs c = Ret vs) (Hnd : NoDup (roots_ids (call_roots c))).

Lemma visit_ids : ids vs = roots_ids (call_roots c).
Proof. rewrite <-roots_subs_ids, <-(ForeachArg_subs _ _ _ Hvs), <-list_fmap_compose. done. Qed.
Lemma visit_sub v : v ∈ vs → v_arg v ∈ roots_subs (call_roots c).
Proof. intros H. rewrite <-(ForeachArg_subs _ _ _ Hvs). by apply list_elem_of_fmap_2. Qed.
Lemma sub_visit a : a ∈ roots_subs (call_roots c) → ∃ v, v ∈ vs ∧ v_arg v = a.
Proof. rewrite <-(ForeachArg_subs _ _ _ Hvs). intros (v & -> & ?)%list_elem_of_fmap. eauto. Qed.
Lemma sub_unique a b : a ∈ roots_subs (call_roots c) → b ∈ roots_subs (call_roots c) → aid a = aid b → a = b.
Proof.
  intros [i Hi]%list_elem_of_lookup [j Hj]%list_elem_of_lookup E. rewrite <-roots_subs_ids in Hnd.
  assert (i = j) as ->; [|congruence]. eapply NoDup_lookup; [exact Hnd| |]; rewrite list_lookup_fmap; [rewrite Hi|rewrite Hj]; [done|by rewrite E].
Qed.
Lemma ret_sub r : CRet c = Some r → AResult r ∈ roots_subs (call_roots c).
Proof. intros E. apply roots_subs_result, elem_of_roots_results. exists (AResult r). unfold call_roots. rewrite E. split; [by left|by left]. Qed.

(** The visits that are copied out are those of the used results of the arguments. *)
Lemma outs_of_ids : ids (outs_of c vs) = used_ids (Args c).
Proof.
  destruct (ForeachArg_shape _ _ _ Hvs) as (ws & Hws & Hsub). rewrite <-roots_used, <-Hsub, Hws, filter_app.
  assert (filter (copied_out c) (match CRet c with Some r => [mkVisit (AResult r) None 0] | None => [] end) = []) as ->.
  { destruct (CRet c) as [r|] eqn:E; [|done]. rewrite filter_cons, decide_False; [done|]. unfold copied_out. cbn [v_arg]. rewrite E. rewrite bool_decide_false by (intros Hx; by apply Hx). rewrite andb_false_r. by intros []. }
  assert (Hne : ∀ v r, v ∈ ws → v_arg v = AResult r → Some (rid r) ≠ rid <$> CRet c).
  { intros v r Hv Er E. destruct (CRet c) as [r0|] eqn:E0; [|done]. cbn in E. injection E as E. pose proof visit_ids as Hids. rewrite Hws in Hids. rewrite <-Hids in Hnd.
    cbn [app fmap list_fmap v_arg] in Hnd. apply NoDup_cons in Hnd as [Hn _]. apply Hn. apply list_elem_of_fmap. exists v. split; [|done]. rewrite Er. symmetry. exact E. }
  clear Hsub Hws. cbn [app]. induction ws as [|v ws IH]; [done|]. cbn [fmap list_fmap]. rewrite !filter_cons.
  assert (Hc : copied_out c v = used_result (v_arg v)).
  { unfold copied_out, used_result. destruct (v_arg v) eqn:Ev; try done. rewrite bool_decide_true by (eapply Hne; [by left|done]). by rewrite andb_true_r. }
  assert (IH' : ids (outs_of c ws) = aid <$> filter used_result (v_arg <$> ws)) by (apply IH; intros y r Hy; apply Hne; by right).
  rewrite Hc. destruct (decide (used_result (v_arg v))); [|done]. cbn [fmap list_fmap]. by rewrite IH'.
Qed.

Lemma refs_known_call w a :
  (∀ r t, r ∈ roots_results (call_roots c) → res_Res r = Some t → (t ∉ roots_ids (call_roots c)) ∧ ∃ info, eargs w !! t = Some info ∧ index_of t (u64 (AIdx info))) →
  a ∈ roots_subs (call_roots c) → refs_known (roots_ids (call_roots c)) w a.
Proof. intros H Ha r t Hl Ht. apply (H r t); [|done]. eapply roots_subs_results; [exact Ha|]. by apply leaf_result_in. Qed.

(** Planned checksums are over arguments whose place is known. *)
Lemma planned_located w w1 :
  calcChecksumsCall typeRefs c = Ret (csumMap w, csumUses w) →
  Forall (λ v, willBeUsed w (v_arg v) = true → visit_located v (info_of w1 (v_arg v))) vs →
  Forall (csum_located vs w1) (values (csumMap w)).
Proof.
  intros Hp Hl. apply calcChecksumsCall_planned in Hp. apply Forall_forall. intros [a info] ([k ai] & -> & Hk)%list_elem_of_fmap.
  apply elem_of_map_to_list in Hk. cbn [snd] in *. specialize (Hp _ _ Hk) as (-> & Hin & Hch). rewrite Forall_forall in Hl.
  assert (Hloc : ∀ x, x ∈ roots_subs (call_roots c) → willBeUsed w x = true → arg_located vs w1 x).
  { intros x Hx Hu. destruct (sub_visit x Hx) as (v & Hv & <-). exists v. split_and!; [done|done|by apply Hl]. }
  split.
  - apply Hloc; [done|]. unfold willBeUsed. rewrite (bool_decide_true (is_Some (csumMap w !! aid (fst ai)))) by eauto. by rewrite orb_true_r.
  - eapply Forall_impl; [exact Hch|]. intros [x|]; [|done]. intros [Hx Hu]. apply Hloc; [done|]. unfold willBeUsed. rewrite (bool_decide_true (_ ∈ _)) by done. by rewrite orb_true_r.
Qed.
End one_call.

Context (MarshallKFuzztestArg : option Arg → list Z) (kFuzzTestRunID : option Z).

Lemma used_ids_sublist roots : used_ids roots `sublist_of` roots_ids roots.
Proof. unfold used_ids. etrans; [apply fmap_sublist, sublist_filter|]. apply roots_results_ids. Qed.
Lemma used_ids_in roots id : id ∈ used_ids roots → id ∈ roots_ids roots.
Proof. apply sublist_subseteq, used_ids_sublist. Qed.
Lemma used_ids_NoDup roots : NoDup (roots_ids roots) → NoDup (used_ids roots).
Proof. intros H. eapply sublist_NoDup; [exact H|apply used_ids_sublist]. Qed.

(** The state before a call [c] whose first copyout index is [k]. *)
Record call_start (c : Call) (k : Z) (w : execContext) : Prop := {
  cst_nodup : NoDup (roots_ids (call_roots c));
  cst_fresh : ∀ id, id ∈ roots_ids (call_roots c) → eargs w !! id = None;
  cst_refs : ∀ r t, r ∈ roots_results (call_roots c) → res_Res r = Some t →
    (t ∉ roots_ids (call_roots c)) ∧ ∃ info, eargs w !! t = Some info ∧ index_of t (u64 (AIdx info));
  cst_seq : copyoutSeq w = u64 k;
  cst_index : ∀ n id, used_ids (call_roots c) !! n = Some id → index_of id (u64 (k + Z.of_nat n))
}.
(** The state after it. *)
Record call_end (c : Call) (k : Z) (w w' : execContext) : Prop := {
  ce_seq : copyoutSeq w' = u64 (k + Z.of_nat (length (used_ids (call_roots c))));
  ce_same : ∀ id, id ∉ roots_ids (call_roots c) → eargs w' !! id = eargs w !! id;
  ce_index : ∀ n id, used_ids (call_roots c) !! n = Some id → ∃ info, eargs w' !! id = Some info ∧ AIdx info = u64 (k + Z.of_nat n)
}.

Lemma out_ready_call c vs w1 w3 :
  ForeachArg typeRefs c = Ret vs → NoDup (roots_ids (call_roots c)) →
  Forall (λ v, willBeUsed w1 (v_arg v) = true → visit_located v (info_of w1 (v_arg v))) vs →
  (∃ s, eargs w3 = match used_ret c with Some r => <[rid r := mkArgInfo 0 s true]> (eargs w1) | None => eargs w1 end) →
  Forall (out_ready c w3) vs.
Proof.
  intros Hvs Hnd Hl [s Hw]. apply Forall_forall. intros v Hv r Er Hu. eapply Forall_forall in Hl; [|exact Hv]. rewrite Er in *.
  specialize (Hl ltac:(unfold willBeUsed; by rewrite (bool_decide_true (size (uses r) ≠ 0%nat)) by (by apply is_used_size))).
  unfold copied_out, info_of in *. rewrite Er, Hu, Hw. cbn [andb]. change (aid (AResult r)) with (rid r) in *.
  case_bool_decide as Hne.
  - destruct (used_ret c) as [r0|] eqn:E0; [|done]. apply used_ret_Some in E0 as [E0 _]. rewrite E0 in Hne. rewrite lookup_insert_ne; [done|]. cbn in Hne. congruence.
  - destruct (CRet c) as [r0|] eqn:E0; [|done]. assert (E : rid r = rid r0) by (by injection Hne).
    assert (AResult r = AResult r0) as [= ->].
    { eapply (sub_unique c); [done| |by apply ret_sub|exact E]. rewrite <-Er. by eapply visit_sub. }
    unfold used_ret. rewrite E0, Hu, lookup_insert_eq. done.
Qed.

Lemma serializeCall_spec c m k w w' :
  Meta c = Some m → KFuzzTest (Attrs m) = false → calcChecksumsCall typeRefs c = Ret (csumMap w, csumUses w) → call_start c k w →
  serializeCall typeRefs target MarshallKFuzztestArg kFuzzTestRunID c w = Ret w' →
  ∃ l, emits w w' l ∧ call_shape (Some c) l ∧ call_end c k w w'.
Proof.
  intros Hm Hk Hplan [Hnd Hfresh Hrefs Hseq Hidx] H. unfold serializeCall in H. rewrite Hm, Hk in H. inv_ret H.
  unfold writeCopyin in Hv. inv_ret Hv. unfold writeCopyout in H. inv_ret H. assert (v3 = v2) as -> by congruence. clear Hv3.
  rename v into w1, v0 into w2, v1 into w4, v2 into vs. pose proof (visit_ids c vs Hv2) as Hids.
  assert (Hsubs : Forall (λ v, refs_known (roots_ids (call_roots c)) w (v_arg v)) vs).
  { apply Forall_forall. intros v Hin. apply refs_known_call; [done|by eapply visit_sub]. }
  destruct (copyin_visits_spec (roots_ids (call_roots c)) vs w w1) as ((ins & He1 & Hins) & Hq1 & Hs1 & Hl1); [by rewrite Hids|by rewrite Hids|done|by rewrite Hids|done|].
  assert (Hloc : Forall (csum_located vs w1) (values (csumMap w1))) by (rewrite (proj1 (proj2 Hs1)); by eapply planned_located).
  destruct (writeChecksums_spec vs w1 w2 Hloc Hv0) as (Hw2 & csums & cs & He2 & Hcs & Hcsm & Hsrt). rewrite (proj1 (proj2 Hs1)) in Hcs.
  pose proof (props_emits c w2) as He3. pose proof (props_same c w2) as Hw3. cbv zeta in Hw3. set (w3 := if decide _ then _ else _) in *.
  assert (Hsame3 : eargs w3 = eargs w1 ∧ copyoutSeq w3 = u64 k ∧ csumMap w3 = csumMap w1 ∧ csumUses w3 = csumUses w1)
    by (rewrite Hw3, Hw2; cbn; rewrite Hq1; done). destruct Hsame3 as (Hea3 & Hq3 & Hcm3 & Hcu3).
  assert (Hs3 : same_outside (roots_ids (call_roots c)) w w3).
  { rewrite Hids in Hs1. eapply same_outside_trans; [exact Hs1|]. by apply same_outside_refl. }
  rewrite used_ids_call in Hidx.
  destruct (write_call_spec m c (roots_ids (call_roots c)) w3 w4) as ((idx & args & He4 & Hret & Hargs) & Hcm4 & Hcu4 & Hq4 & Hea4); [| |done|].
  { apply Forall_forall. intros a Ha. eapply refs_known_same; [exact Hs3|]. apply refs_known_call; [done|].
    unfold roots_subs, call_roots. rewrite fmap_app, concat_app. apply elem_of_app. right. apply elem_of_concat. exists (arg_subs a). split; [apply arg_subs_self|by apply list_elem_of_fmap_2]. }
  { intros r Er. rewrite Er in Hidx. pose proof (used_ret_Some _ _ Er) as [Er' _]. split.
    - rewrite <-roots_subs_ids. apply (list_elem_of_fmap_2 aid _ (AResult r)). by apply ret_sub.
    - rewrite Hq3, u64_idem. specialize (Hidx 0%nat (rid r) eq_refl). by rewrite Z.add_0_r in Hidx. }
  set (b := length (option_list (rid <$> used_ret c))) in *.
  assert (Hq4' : copyoutSeq w4 = u64 (k + Z.of_nat b)).
  { rewrite Hq4, Hq3. unfold b. destruct (used_ret c); cbn; [|by rewrite Z.add_0_r]. unfold u64. by rewrite Zplus_mod_idemp_l. }
  destruct (copyout_visits_spec c vs (k + Z.of_nat b) w4 w') as ((outs & He5 & Houts) & Hq5 & Hs5 & Hi5); [done| |by rewrite Hids| |done|].
  { rewrite (outs_of_ids c vs Hv2 Hnd). intros n id Hn. specialize (Hidx (b + n)%nat id). rewrite lookup_app_r in Hidx by (unfold b; lia).
    replace (b + n - length (option_list (rid <$> used_ret c)))%nat with n in Hidx by (unfold b; lia). specialize (Hidx Hn). by replace (k + Z.of_nat b + Z.of_nat n) with (k + Z.of_nat (b + n)) by lia. }
  { apply (out_ready_call c vs w1); [done|done| |].
    - eapply Forall_impl; [exact Hl1|]. intros v Hv' Hu. apply Hv'. destruct Hs1 as (_ & E1 & E2). by rewrite <-(willBeUsed_same w w1).
    - exists (copyoutSeq w3). by rewrite Hea4, Hea3. }
  rewrite (outs_of_ids c vs Hv2 Hnd) in Hs5, Hi5.
  eexists. split; [|split; [exists c, m, vs, (csumMap w), (csumUses w), ins, csums, cs, idx, args, outs; split_and!; done|]].
  - rewrite fmap_app, <-app_assoc. eapply emits_trans; [exact He1|]. eapply emits_trans; [exact He2|].
    eapply emits_trans; [exact He3|]. by apply (emits_trans _ w4 _ [_] _).
  - constructor.
    + rewrite Hq5, used_ids_call, length_app, <-(outs_of_ids c vs Hv2 Hnd), length_fmap. f_equal. fold b. lia.
    + intros id Hid. rewrite (proj1 Hs5) by (intros Hin; apply Hid, used_ids_in; rewrite used_ids_call; apply elem_of_app; by right).
      rewrite <-(proj1 Hs3) by done. rewrite Hea4. destruct (used_ret c) as [r|] eqn:Er; [|done]. apply lookup_insert_ne. intros <-. apply Hid, used_ids_in.
      rewrite used_ids_call, Er. by left.
    + pose proof (used_ids_NoDup _ Hnd) as Hnd'. rewrite used_ids_call in Hnd' |- *. intros n id Hn. apply lookup_app_Some in Hn as [Hn|[Hlen Hn]].
      * destruct (used_ret c) as [r|] eqn:Er; [|done]. destruct n; [|done]. cbn in Hn. injection Hn as <-. cbn in Hnd'. apply NoDup_cons in Hnd' as [Hnot _].
        rewrite (proj1 Hs5) by done. rewrite Hea4, lookup_insert_eq. eexists. split; [done|]. cbn [AIdx]. by rewrite Z.add_0_r.
      * destruct (Hi5 _ _ Hn) as (info & ? & Hai). exists info. split; [done|]. rewrite Hai. f_equal. fold b in Hlen |- *. lia.
Qed.

(** ** The calls of a program *)

Section calls_of.
Context (p : Prog) (Hgraph : graph_ok p) (Hself : no_self_use (Calls p)).
Hypothesis Hindex : ∀ n id, copyout_order p !! n = Some id → index_of id (u64 (Z.of_nat n)).

(** The state when the calls [done] are encoded. *)
Record calls_done (done : list (option Call)) (w : execContext) : Prop := {
  cd_dom : ∀ id, is_Some (eargs w !! id) → id ∈ roots_ids (calls_roots done);
  cd_seq : copyoutSeq w = u64 (len (used_ids (calls_roots done)));
  cd_index : ∀ n id, used_ids (calls_roots done) !! n = Some id → ∃ info, eargs w !! id = Some info ∧ AIdx info = u64 (Z.of_nat n)
}.

Lemma calls_split done c rest : Calls p = done ++ Some c :: rest →
  calls_roots (Calls p) = calls_roots done ++ call_roots c ++ calls_roots rest.
Proof. intros ->. by rewrite calls_roots_app. Qed.
Lemma calls_ids_disjoint done c rest id : Calls p = done ++ Some c :: rest → id ∈ roots_ids (calls_roots done) → id ∉ roots_ids (call_roots c).
Proof.
  intros E%calls_split Hd Hc. pose proof (go_ids p Hgraph) as Hnd. unfold prog_ids in Hnd. rewrite E, !roots_ids_app in Hnd.
  apply NoDup_app in Hnd as (_ & Hnd & _). apply (Hnd id Hd). apply elem_of_app. by left.
Qed.
(** A reference is to a result of an earlier call, which is copied out. *)
Lemma refs_earlier done c rest r t : Calls p = done ++ Some c :: rest → r ∈ roots_results (call_roots c) → res_Res r = Some t →
  t ∈ used_ids (calls_roots done).
Proof.
  intros E Hr Ht. assert (Hno : t ∉ rid <$> roots_results (call_roots c)) by (eapply Hself; [rewrite E; apply elem_of_app; right; by left|done|done]).
  pose proof (calls_split _ _ _ E) as Hs. apply (f_equal roots_results) in Hs. rewrite !roots_results_app in Hs.
  pose proof Hr as (k1 & k2 & Hk)%list_elem_of_split. rewrite Hk, <-(app_assoc k1) in Hs. rewrite (app_assoc _ k1) in Hs.
  pose proof (go_order p Hgraph _ _ _ _ Hs Ht) as Hin. rewrite fmap_app, elem_of_app in Hin. destruct Hin as [Hin|Hin].
  2:{ exfalso. apply Hno. rewrite Hk, fmap_app. apply elem_of_app. by left. }
  apply list_elem_of_fmap in Hin as (r0 & -> & Hr0). unfold used_ids. apply list_elem_of_fmap_2, list_elem_of_filter. split; [|done].
  apply Is_true_true, is_used_size. rewrite (go_uses p Hgraph r0); [|unfold prog_results; rewrite Hs, !elem_of_app; by left; left].
  apply size_non_empty_iff. intros He. assert (Hu : rid r ∈ users (prog_results p) (rid r0)); [|set_solver].
  apply elem_of_users. exists r. split_and!; [|done|done]. unfold prog_results. rewrite Hs. apply elem_of_app. right. by left.
Qed.
Lemma calls_done_start done c rest w : Calls p = done ++ Some c :: rest → calls_done done w → call_start c (len (used_ids (calls_roots done))) w.
Proof.
  intros E [Hdom Hseq Hidx]. pose proof (calls_split _ _ _ E) as Hs. constructor.
  - pose proof (go_ids p Hgraph) as Hnd. unfold prog_ids in Hnd. rewrite Hs, !roots_ids_app in Hnd. by apply NoDup_app in Hnd as (_ & _ & (? & _ & _)%NoDup_app).
  - intros id Hid. apply eq_None_not_Some. intros Hi. by eapply calls_ids_disjoint; [|apply Hdom|].
  - intros r t Hr Ht. pose proof (refs_earlier _ _ _ _ _ E Hr Ht) as Hin. split; [eapply calls_ids_disjoint; [done|by apply used_ids_in]|].
    apply list_elem_of_lookup in Hin as [n Hn]. destruct (Hidx n t Hn) as (info & Hi & Hx). exists info. split; [done|]. rewrite Hx, u64_idem.
    apply Hindex. unfold copyout_order. rewrite Hs, !used_ids_app. by apply lookup_app_l_Some.
  - done.
  - intros n id Hn. replace (len (used_ids (calls_roots done)) + Z.of_nat n) with (Z.of_nat (length (used_ids (calls_roots done)) + n)) by (unfold len; lia).
    apply Hindex. unfold copyout_order. rewrite Hs, !used_ids_app. rewrite lookup_app_r by lia. rewrite lookup_app_l; [|].
    + by replace (length (used_ids (calls_roots done)) + n - length (used_ids (calls_roots done)))%nat with n by lia.
    + apply lookup_lt_Some in Hn. lia.
Qed.
Lemma calls_done_end done c rest w w' : Calls p = done ++ Some c :: rest → calls_done done w → call_end c (len (used_ids (calls_roots done))) w w' → calls_done (done ++ [Some c]) w'.
Proof.
  intros E [Hdom Hseq Hidx] [Hq Hsame Hi].
  assert (Hroots : calls_roots (done ++ [Some c]) = calls_roots done ++ call_roots c) by (rewrite calls_roots_app; unfold calls_roots at 2; cbn; by rewrite app_nil_r).
  constructor; rewrite Hroots.
  - intros id Hid. rewrite roots_ids_app. apply elem_of_app. destruct (decide (id ∈ roots_ids (call_roots c))); [by right|]. left. apply Hdom. by rewrite <-Hsame.
  - rewrite Hq, used_ids_app. unfold len. rewrite length_app. f_equal. lia.
  - intros n id. rewrite used_ids_app. intros [Hn|[Hlen Hn]]%lookup_app_Some.
    + destruct (Hidx n id Hn) as (info & ? & ?). exists info. rewrite Hsame; [done|]. eapply calls_ids_disjoint; [exact E|]. by apply used_ids_in, list_elem_of_lookup_2 with n.
    + destruct (Hi _ _ Hn) as (info & ? & Hx). exists info. split; [done|]. rewrite Hx. f_equal. unfold len. lia.
Qed.

Lemma actions_emits acts w : emits w (writeKConfuzzConfigActions acts w) (IAction <$> acts).
Proof.
  revert w. induction acts as [|a acts IH]; intros w; [by apply emits_refl|].
  cbn [writeKConfuzzConfigActions fmap list_fmap]. eapply (emits_trans _ _ _ [_] _); [|apply IH].
  rewrite writes_spec. by apply emits_one.
Qed.
Lemma actions_same acts w : writeKConfuzzConfigActions acts w = set_buf w (buf (writeKConfuzzConfigActions acts w)).
Proof.
  revert w. induction acts as [|a acts IH]; intros w; [by rewrite set_buf_same|]. cbn [writeKConfuzzConfigActions]. rewrite IH at 1. by rewrite writes_spec.
Qed.

Fixpoint with_actions (actions : list KConfuzzConfigAction) (i : Z) (segs : list (list einstr)) : list einstr :=
  match segs with
  | [] => []
  | s :: segs => (IAction <$> actions_before actions i) ++ s ++ with_actions actions (i + 1) segs
  end.

(** The calls this round trip is about: no kfuzztest call, a known system
    call, properties in range and no data among the direct arguments. *)
Definition call_ok (c : option Call) : Prop :=
  ∃ call m, c = Some call ∧ Meta call = Some m ∧ KFuzzTest (Attrs m) = false ∧
    0 ≤ ID m ∧ Syscalls target !! Z.to_nat (ID m) = Some m ∧
    in_i64 (FailNth (Props call)) ∧ in_i64 (Rerun (Props call)) ∧ Forall scalar_arg (Args call).

Lemma serialize_calls_spec actions i done calls w w' :
  Forall call_ok calls → Calls p = done ++ calls → calls_done done w →
  serialize_calls typeRefs target MarshallKFuzztestArg kFuzzTestRunID actions i calls w = Ret w' →
  ∃ segs, emits w w' (with_actions actions i segs) ∧ Forall2 call_shape calls segs ∧ calls_done (Calls p) w'.
Proof.
  revert i done w. induction calls as [|c calls IH]; intros i done w Hok E Hd H; cbn [serialize_calls] in H.
  - apply Ret_inj in H as ->. exists []. rewrite app_nil_r in E. split_and!; [by apply emits_refl|constructor|by rewrite E].
  - inversion Hok as [|? ? (call & m & -> & Hm & Hk & _) Hok']; subst. inv_ret H. destruct v as [cm cu]. inv_ret H.
    set (w1 := set_csums (writeKConfuzzConfigActions (actions_before actions i) w) cm cu) in *.
    assert (Hd1 : calls_done done w1).
    { unfold w1. rewrite actions_same. destruct Hd. by constructor. }
    destruct (serializeCall_spec call m (len (used_ids (calls_roots done))) w1 v) as (l & He & Hl & Hend);
      [done|done|done|by eapply calls_done_start|done|].
    destruct (IH (i + 1) (done ++ [Some call]) v) as (segs & He' & Hsegs & Hall); [done|by rewrite <-app_assoc|by eapply calls_done_end|done|].
    exists (l :: segs). split_and!; [|by constructor|done].
    cbn [with_actions]. eapply emits_trans; [apply actions_emits|]. by eapply emits_trans.
Qed.
End calls_of.

(** ** The decoder on that shape *)

Abbreviation run := (foldl (apply_instr target)).
(** Between calls: no half-read call is pending. *)
Definition ready (d : execDecoder) : Prop := d_call (commitCall d) = emptyExecCall.
Definition dec_action (n : Z) (a : KConfuzzConfigAction) : ExecKConfuzzConfigAction :=
  mkXAction n (u64 (ParamID a)) (u64 (ValueID a)) (u64 (Flags a)).
(** The copyout indices a decoded call defines. *)
Definition call_outs (x : ExecCall) : list Z :=
  (if decide (XIndex x = ExecNoCopyout) then [] else [XIndex x]) ++ (XOutIndex <$> XCopyout x).
Definition bump_vars (n o : Z) : Z := Z.max n (o +u 1).
Definition store_refs (vars : list Z) (refs : list (Z * Z)) : list Z := foldl (λ vars r, store_var (fst r) (snd r) vars) vars refs.

Lemma commitCall_idle d : XMeta (d_call d) = None → commitCall d = d.
Proof. unfold commitCall. by intros ->. Qed.
Lemma commitCall_kactions d : kconfuzzActions (commitCall d) = kconfuzzActions d.
Proof. unfold commitCall. by destruct (XMeta _). Qed.
Lemma commitCall_vars d : d_vars (commitCall d) = d_vars d.
Proof. unfold commitCall. by destruct (XMeta _). Qed.
Lemma dec_vars_refs a vars : dec_vars a vars = store_refs vars (arg_refs (dec_arg target a)).
Proof. by destruct a. Qed.
Lemma store_refs_app vars l k : store_refs vars (l ++ k) = store_refs (store_refs vars l) k.
Proof. unfold store_refs. by rewrite foldl_app. Qed.
Lemma commit_vars_bump c n : commit_vars c n = foldl bump_vars n (call_outs c).
Proof.
  unfold commit_vars, call_outs. rewrite foldl_app.
  assert (Hn : (if decide (XIndex c ≠ ExecNoCopyout ∧ n < XIndex c +u 1) then XIndex c +u 1 else n)
    = foldl bump_vars n (if decide (XIndex c = ExecNoCopyout) then [] else [XIndex c])).
  { destruct (decide (XIndex c = ExecNoCopyout)); [by rewrite decide_False by tauto|]. cbn. unfold bump_vars.
    case_decide; lia. }
  rewrite Hn. clear Hn. generalize (foldl bump_vars n (if decide (XIndex c = ExecNoCopyout) then [] else [XIndex c])).
  induction (XCopyout c) as [|o l IH]; intros k; [done|]. cbn. apply IH.
Qed.

Lemma run_actions acts d :
  ready d →
  let d' := run d (IAction <$> acts) in
  ready d' ∧ d_calls (commitCall d') = d_calls (commitCall d) ∧ numVars (commitCall d') = numVars (commitCall d) ∧
  d_vars d' = d_vars d ∧
  kconfuzzActions d' = kconfuzzActions d ++ (dec_action (len (d_calls (commitCall d))) <$> acts).
Proof.
  cbv zeta. revert d. induction acts as [|a acts IH]; intros d Hd; [by rewrite app_nil_r|].
  cbn [fmap list_fmap foldl apply_instr]. set (d1 := add_kaction (commitCall d) _).
  assert (Hc : commitCall d1 = d1) by (apply commitCall_idle; unfold d1; cbn; by rewrite Hd).
  destruct (IH d1) as (H1 & H2 & H3 & Hvs & H4); [unfold ready; rewrite Hc; done|].
  rewrite Hc in H2, H3, H4. split_and!; [done|by rewrite H2|by rewrite H3|rewrite Hvs; apply commitCall_vars|].
  rewrite H4. cbn. rewrite commitCall_kactions, <-app_assoc. done.
Qed.

(** The references of copied-in data. *)
Definition copyin_refs (l : list ExecCopyin) : list (Z * Z) := l ≫= λ i, from_option arg_refs [] (XInArg i).
(** Copyins extend a pending call. *)
Lemma run_copyins ins d :
  XMeta (d_call d) = None →
  let d' := run d (copyin_instr <$> ins) in
  d_calls d' = d_calls d ∧ numVars d' = numVars d ∧ kconfuzzActions d' = kconfuzzActions d ∧
  d_vars d' = store_refs (d_vars d) (copyin_refs (dec_copyin <$> ins)) ∧
  d_call d' = mkXCall None (XProps (d_call d)) (XIndex (d_call d)) (XArgs (d_call d))
                (XCopyin (d_call d) ++ (dec_copyin <$> ins)) (XCopyout (d_call d)).
Proof.
  cbv zeta. revert d. induction ins as [|i ins IH]; intros d Hd.
  - cbn. rewrite app_nil_r. split_and!; try done. destruct (d_call d); cbn in *; by subst.
  - cbn [fmap list_fmap foldl copyin_instr apply_instr]. rewrite (commitCall_idle d Hd).
    edestruct IH as (H1 & H2 & H3 & Hvs & H4); [|rewrite H1, H2, H3, Hvs, H4; split_and!; try done]; [done| |].
    + cbn [d_vars set_vars set_call]. rewrite dec_vars_refs, <-store_refs_app. done.
    + cbn. by rewrite <-app_assoc.
Qed.
Lemma run_copyouts outs d :
  let d' := run d (copyout_instr <$> outs) in
  let c := d_call d in
  d_calls d' = d_calls d ∧ numVars d' = numVars d ∧ kconfuzzActions d' = kconfuzzActions d ∧ d_vars d' = d_vars d ∧
  d_call d' = mkXCall (XMeta c) (XProps c) (XIndex c) (XArgs c) (XCopyin c) (XCopyout c ++ (dec_copyout <$> outs)).
Proof.
  cbv zeta. revert d. induction outs as [|[[idx addr] sz] outs IH]; intros d.
  - cbn. rewrite app_nil_r. split_and!; try done. by destruct (d_call d).
  - cbn [fmap list_fmap foldl copyout_instr apply_instr].
    edestruct IH as (H1 & H2 & H3 & Hvs & H4). rewrite H1, H2, H3, Hvs, H4. split_and!; try done.
    cbn. by rewrite <-app_assoc.
Qed.
Lemma copyout_outs outs : (copyout_instr <$> outs) ≫= instr_outs = XOutIndex <$> (dec_copyout <$> outs).
Proof. induction outs as [|[[idx addr] sz] outs IH]; [done|]. cbn. f_equal. exact IH. Qed.
Lemma run_call_args args d :
  let d' := foldl (apply_arg target) d args in
  let c := d_call d in
  d_calls d' = d_calls d ∧ numVars d' = numVars d ∧ kconfuzzActions d' = kconfuzzActions d ∧
  d_vars d' = store_refs (d_vars d) ((dec_arg target <$> args) ≫= arg_refs) ∧
  d_call d' = mkXCall (XMeta c) (XProps c) (XIndex c) (XArgs c ++ (dec_arg target <$> args)) (XCopyin c) (XCopyout c).
Proof.
  cbv zeta. revert d. induction args as [|a args IH]; intros d.
  - cbn. rewrite app_nil_r. split_and!; try done. by destruct (d_call d).
  - cbn [fmap list_fmap foldl]. destruct (IH (apply_arg target d a)) as (H1 & H2 & H3 & Hvs & H4).
    rewrite H1, H2, H3, Hvs, H4. split_and!; try done.
    + unfold apply_arg. cbn [d_vars set_vars set_call]. rewrite dec_vars_refs, <-store_refs_app. done.
    + cbn. by rewrite <-app_assoc.
Qed.

Hypothesis Hsyslen : len (Syscalls target) < 2 ^ 63.

Lemma commitCall_idem d : commitCall (commitCall d) = commitCall d.
Proof. apply commitCall_idle. unfold commitCall. destruct (XMeta (d_call d)) eqn:E; [done|by rewrite E]. Qed.
Lemma run_commit d l :
  match head l with Some (ICopyout _ _ _) | None => False | _ => True end → run d l = run (commitCall d) l.
Proof. destruct l as [|[] l]; cbn; try done; by rewrite commitCall_idem. Qed.

(** A call segment adds exactly one call, the one the program has. *)
Lemma run_call c l d :
  call_ok c → call_shape c l → ready d →
  let d' := run d l in
  ready d' ∧ kconfuzzActions d' = kconfuzzActions d ∧
  ∃ x, call_matches typeRefs target index_of c x ∧ call_outs x = l ≫= instr_outs ∧
    d_calls (commitCall d') = d_calls (commitCall d) ++ [x] ∧
    d_vars d' = store_refs (d_vars d) (call_refs x) ∧
    numVars (commitCall d') = foldl bump_vars (numVars (commitCall d)) (call_outs x).
Proof.
  intros (call & m & -> & Hm & _ & Hid & Hsys & Hi1 & Hi2 & _)
    (? & ? & vs & planned & u & ins & csums & cs & idx & args & outs & [= <-] & Hm' & Hvs & Hplan & -> & Hins & (Hcs & Hcsm & Hsrt) & Hret & Hargs & Houts) Hr.
  simplify_eq. cbv zeta. rewrite (run_commit d).
  2:{ destruct (ins ++ csums); cbn; [|done]. unfold props_instrs. by case_decide. }
  unfold ready in Hr. rewrite <-(commitCall_kactions d), <-(commitCall_vars d). set (d0 := commitCall d) in *.
  rewrite !foldl_app. destruct (run_copyins (ins ++ csums) d0) as (Hc1 & Hc2 & Hc3 & Hcv & Hc4); [by rewrite Hr|].
  set (d1 := run d0 (copyin_instr <$> ins ++ csums)) in *. rewrite Hr in Hc4. cbn in Hc4.
  assert (Hp : let d2 := run d1 (props_instrs call) in
    d_calls d2 = d_calls d0 ∧ numVars d2 = numVars d0 ∧ kconfuzzActions d2 = kconfuzzActions d0 ∧ d_vars d2 = d_vars d1 ∧
    d_call d2 = mkXCall None (Props call) 0 [] (dec_copyin <$> ins ++ csums) []).
  { cbv zeta. unfold props_instrs. case_decide as Hno; cbn [foldl apply_instr].
    - by rewrite Hc1, Hc2, Hc3, Hc4, Hno.
    - rewrite (commitCall_idle d1) by (by rewrite Hc4). cbn. rewrite Hc1, Hc2, Hc3, Hc4. cbn.
      rewrite !i64_id by done. split_and!; try done. f_equal. by destruct (Props call) as [? [] ?]. }
  cbv zeta in Hp. set (d2 := run d1 (props_instrs call)) in *. destruct Hp as (Hp1 & Hp2 & Hp3 & Hpv & Hp4).
  cbn [foldl apply_instr]. rewrite (commitCall_idle d2) by (by rewrite Hp4).
  rewrite (u64_id (ID m)), Hsys.
  2:{ apply lookup_lt_Some in Hsys. unfold in_u64. unfold len in *. lia. }
  destruct (run_call_args args (set_call d2 (with_meta (d_call d2) (Some m) (u64 idx)))) as (Ha1 & Ha2 & Ha3 & Hav & Ha4).
  set (d3 := foldl (apply_arg target) _ args) in *. cbn in Ha1, Ha2, Ha3, Hav, Ha4. rewrite Hp4 in Ha4. cbn in Ha4.
  destruct (run_copyouts outs d3) as (Ho1 & Ho2 & Ho3 & Hov & Ho4). set (d4 := run d3 _) in *.
  rewrite Ha4 in Ho4. cbn in Ho4. set (x := d_call d4) in *.
  assert (Hcommit : commitCall d4 = mkDec (d_data d4) (d_err d4) (commit_vars x (numVars d4)) (d_vars d4)
    emptyExecCall (d_calls d4 ++ [x]) (kconfuzzActions d4)).
  { unfold commitCall. fold x. by rewrite Ho4. }
  split_and!; [unfold ready; by rewrite Hcommit|congruence|].
  exists x. split_and!.
  - exists call, m, vs, planned, u. rewrite Ho4. cbn [XMeta XProps XIndex XArgs XCopyin XCopyout]. split_and!; try done.
    + apply Forall2_fmap_r. eapply Forall2_impl; [exact Hargs|]. by intros ? ? [? _].
    + exists (dec_copyin <$> ins), (dec_copyin <$> csums), cs. rewrite fmap_app. split_and!; [done| |done|done|done]. by apply Forall2_fmap_r.
    + by apply Forall2_fmap_r.
  - rewrite Ho4. unfold call_outs. cbn [XIndex XCopyout]. rewrite !bind_app, bind_cons, copyout_outs.
    assert (Hnil : ∀ l : list (Z * earg), (copyin_instr <$> l) ≫= instr_outs = []) by (by induction l).
    rewrite Hnil. assert (props_instrs call ≫= instr_outs = []) as -> by (unfold props_instrs; by case_decide). done.
  - rewrite Hcommit. cbn. by rewrite Ho1, Ha1, Hp1.
  - rewrite Hov, Hav, Hpv, Hcv, <-store_refs_app. by rewrite Ho4.
  - rewrite Hcommit. cbn. by rewrite commit_vars_bump, Ho2, Ha2, Hp2.
Qed.

(** The actions the decoder must report: by call, sorted within a call. *)
Definition decoded_actions (actions : list KConfuzzConfigAction) (i n : Z) : list ExecKConfuzzConfigAction :=
  seqZ i n ≫= λ j, dec_action j <$> actions_before actions j.

Lemma actions_outs acts : (IAction <$> acts) ≫= instr_outs = [].
Proof. by induction acts. Qed.
Lemma run_calls actions calls segs d :
  Forall call_ok calls → Forall2 call_shape calls segs → ready d →
  let i := len (d_calls (commitCall d)) in
  let l := with_actions actions i segs in
  let d' := run d l in
  ready d' ∧ kconfuzzActions d' = kconfuzzActions d ++ decoded_actions actions i (len calls) ∧
  ∃ xs, Forall2 (call_matches typeRefs target index_of) calls xs ∧ xs ≫= call_outs = l ≫= instr_outs ∧
    d_calls (commitCall d') = d_calls (commitCall d) ++ xs ∧
    d_vars d' = store_refs (d_vars d) (xs ≫= call_refs) ∧
    numVars (commitCall d') = foldl bump_vars (numVars (commitCall d)) (xs ≫= call_outs).
Proof.
  intros Hok Hsh. revert d Hok. cbv zeta. induction Hsh as [|c s calls segs Hc Hsh IH]; intros d Hok Hr.
  - cbn. rewrite app_nil_r. split_and!; [done|done|]. exists []. by rewrite app_nil_r.
  - inv Hok. cbn [with_actions]. set (i := len (d_calls (commitCall d))).
    destruct (run_actions (actions_before actions i) d Hr) as (Hr1 & Hc1 & Hn1 & Hv1 & Hk1).
    rewrite !foldl_app. set (d1 := run d (IAction <$> actions_before actions i)) in *.
    destruct (run_call c s d1 H1 Hc Hr1) as (Hr2 & Hk2 & x & Hx & Ho2 & Hc2 & Hv2 & Hn2). set (d2 := run d1 s) in *.
    assert (Hi : len (d_calls (commitCall d2)) = i + 1).
    { rewrite Hc2, Hc1. unfold i, len. rewrite length_app. cbn [length]. lia. }
    destruct (IH d2) as (Hr3 & Hk3 & xs & Hxs & Ho3 & Hc3 & Hv3 & Hn3); [done..|]. rewrite Hi in *.
    set (d3 := run d2 _) in *. split_and!; [done| |].
    + rewrite Hk3, Hk2, Hk1, <-app_assoc. f_equal. unfold decoded_actions.
      replace (len (c :: calls)) with (Z.succ (len calls)) by (unfold len; cbn [length]; lia).
      rewrite (seqZ_cons i) by (unfold len; lia). rewrite Z.pred_succ. done.
    + exists (x :: xs). split_and!; [by constructor| | | |].
      * cbn [mbind list_bind]. rewrite !bind_app, actions_outs. cbn. by rewrite <-Ho2, <-Ho3.
      * rewrite Hc3, Hc2, Hc1, <-app_assoc. done.
      * rewrite Hv3, Hv2, Hv1, <-store_refs_app. done.
      * rewrite Hn3, Hn2, Hn1. cbn [mbind list_bind]. by rewrite foldl_app.
Qed.

Lemma instr_bound i l : i ∈ l → len (instr_bytes i) ≤ len (l ≫= instr_bytes).
Proof.
  unfold len. induction 1 as [|x y l Hi IH]; cbn [mbind list_bind]; rewrite length_app; [lia|].
  cbn [mbind list_bind] in IH. lia.
Qed.
(** Only calls need an argument: everything else is well formed by size. *)
Lemma wf_instrs l :
  len (l ≫= instr_bytes) ≤ ExecBufferSize →
  (∀ id idx args, ICall id idx args ∈ l → 0 ≤ u64 id < len (Syscalls target) ∧ Forall call_arg args) →
  Forall (wf_instr target) l.
Proof.
  intros Hlen Hcalls. apply Forall_forall. intros i Hi. split; [by pose proof (instr_bound i l Hi); lia|].
  destruct i; try done. by eapply Hcalls.
Qed.
Lemma call_shape_calls c l id idx args :
  call_ok c → call_shape c l → ICall id idx args ∈ l →
  0 ≤ u64 id < len (Syscalls target) ∧ Forall call_arg args.
Proof.
  intros (call & m & -> & Hm & _ & Hid & Hsys & _ & _ & Hsc)
    (? & ? & vs & planned & u & ins & csums & cs & idx' & args' & outs & [= <-] & Hm' & _ & _ & -> & _ & _ & _ & Hargs & _) Hin.
  simplify_eq. rewrite elem_of_app, elem_of_app, elem_of_cons, list_elem_of_fmap, list_elem_of_fmap in Hin.
  destruct Hin as [(? & ? & ?)|[Hp|[[= -> -> ->]|([[? ?] ?] & ? & ?)]]]; try done.
  - unfold props_instrs in Hp. case_decide; set_solver.
  - apply lookup_lt_Some in Hsys. rewrite u64_id by (unfold in_u64, len in *; lia). split; [unfold len; lia|].
    clear -Hargs Hsc. revert Hsc. induction Hargs as [|a e l1 l2 [_ H1] _ IH]; intros Hsc; constructor; inv Hsc; eauto.
Qed.
Lemma with_actions_calls actions calls segs i id idx args :
  Forall call_ok calls → Forall2 call_shape calls segs → ICall id idx args ∈ with_actions actions i segs →
  0 ≤ u64 id < len (Syscalls target) ∧ Forall call_arg args.
Proof.
  intros Hok Hsh. revert i Hok. induction Hsh as [|c s calls segs Hc Hsh IH]; intros i Hok Hin; [by inv Hin|].
  inv Hok. cbn [with_actions] in Hin. rewrite !elem_of_app, list_elem_of_fmap in Hin.
  destruct Hin as [(? & ? & ?)|[Hin|Hin]]; [done|by eapply call_shape_calls|by eapply IH].
Qed.

Lemma with_actions_length actions calls segs i :
  Forall2 call_shape calls segs → (length calls ≤ length (with_actions actions i segs))%nat.
Proof.
  intros Hsh. revert i. induction Hsh as [|c s calls segs Hc Hsh IH]; intros i; [done|].
  cbn [with_actions length]. rewrite !length_app. specialize (IH (i + 1)).
  destruct Hc as (? & ? & vs & planned & u & ins & csums & cs & idx & args & outs & _ & _ & _ & _ & -> & _).
  rewrite !length_app. cbn [length]. lia.
Qed.

Lemma foldl_bump_vars_seqZ k n : 0 ≤ k → 0 ≤ n → k + n < 2 ^ 64 → foldl bump_vars k (seqZ k n) = k + n.
Proof.
  intros Hk Hn. revert k Hk. pattern n. apply natlike_ind; [|intros m Hm IH|done]; intros k Hk Hb; [by rewrite Z.add_0_r|].
  rewrite seqZ_cons by lia. cbn [foldl]. rewrite Z.pred_succ.
  assert (bump_vars k k = Z.succ k) as -> by (unfold bump_vars; rewrite u64_id by (unfold in_u64; lia); lia).
  rewrite IH by lia. lia.
Qed.
End encoder.

(** ** No configuration action is lost *)

Lemma bind_insert {A} (js : list Z) (b : Z) (x : A) (g : Z → list A) :
  NoDup js → b ∈ js →
  js ≫= (λ j, (if decide (b = j) then [x] else []) ++ g j) ≡ₚ x :: (js ≫= g).
Proof.
  induction 1 as [|j js Hj Hnd IH]; intros Hb; [by inv Hb|].
  cbn [mbind list_bind]. apply elem_of_cons in Hb as [->|Hb].
  - rewrite decide_True by done. cbn [app]. f_equiv. f_equiv.
    assert (Hskip : ∀ l : list Z, j ∉ l →
      l ≫= (λ k, (if decide (j = k) then [x] else []) ++ g k) = l ≫= g); [|by rewrite (Hskip js Hj)].
    induction l as [|k l IHl]; intros Hl; [done|]. apply not_elem_of_cons in Hl as [? ?].
    cbn [mbind list_bind]. rewrite decide_False by done. cbn [app]. by rewrite IHl.
  - rewrite decide_False by (by intros ->). cbn [app].
    rewrite (IH Hb). symmetry. apply Permutation_middle.
Qed.

Definition exec_action (a : KConfuzzConfigAction) : ExecKConfuzzConfigAction := dec_action (BeforeCall a) a.
Lemma decoded_actions_perm actions n :
  0 ≤ n → bad_action n actions = None → decoded_actions actions 0 (n + 1) ≡ₚ exec_action <$> actions.
Proof.
  intros Hn Hbad.
  assert (Hrange : Forall (λ a, 0 ≤ BeforeCall a ≤ n) actions).
  { unfold bad_action in Hbad. apply Forall_forall. intros a Ha.
    destruct (decide (BeforeCall a < 0 ∨ n < BeforeCall a)) as [H|]; [|lia].
    destruct (filter _ actions) eqn:E; [|done]. exfalso. apply (not_elem_of_nil a). rewrite <-E.
    by apply list_elem_of_filter. }
  clear Hbad. unfold decoded_actions.
  assert (Heq : ∀ js, js ≫= (λ j, dec_action j <$> actions_before actions j)
    ≡ₚ js ≫= (λ j, exec_action <$> filter (λ a, BeforeCall a = j) actions)).
  { induction js as [|j js IH]; [done|]. cbn [mbind list_bind]. f_equiv; [|exact IH].
    unfold actions_before. rewrite sort_by_perm.
    replace (dec_action j <$> filter (λ a, BeforeCall a = j) actions)
      with (exec_action <$> filter (λ a, BeforeCall a = j) actions); [done|].
    apply list_fmap_ext. intros i a Ha. apply list_elem_of_lookup_2 in Ha.
    apply list_elem_of_filter in Ha as [<- _]. done. }
  rewrite Heq. clear Heq. induction Hrange as [|a actions Ha Hr IH].
  - generalize (seqZ 0 (n + 1)). induction l as [|j l IH]; [done|]. cbn. exact IH.
  - cbn [fmap list_fmap]. rewrite <-IH.
    rewrite <-(bind_insert (seqZ 0 (n + 1)) (BeforeCall a) (exec_action a)
      (λ j, exec_action <$> filter (λ b, BeforeCall b = j) actions));
      [|apply NoDup_seqZ|apply elem_of_seqZ; lia].
    assert (Hext : ∀ js, js ≫= (λ j, exec_action <$> filter (λ b, BeforeCall b = j) (a :: actions))
      = js ≫= (λ j, (if decide (BeforeCall a = j) then [exec_action a] else []) ++
                    (exec_action <$> filter (λ b, BeforeCall b = j) actions))); [|by rewrite Hext].
    induction js as [|j js IHj]; [done|]. cbn [mbind list_bind]. f_equal; [|exact IHj].
    rewrite filter_cons. by destruct (decide (BeforeCall a = j)).
Qed.

(** ** The round trip *)

(** [n] is the copyout index of [t]. *)
Definition index_in (order : list argid) (t : argid) (n : Z) : Prop := 0 ≤ n ∧ order !! Z.to_nat n = Some t.
(** The same as a machine word. *)
Definition word_in (order : list argid) (t : argid) (n : Z) : Prop := ∃ j, order !! j = Some t ∧ n = u64 (Z.of_nat j).
Lemma word_in_index order t n : len order < 2 ^ 64 → word_in order t n → index_in order t n.
Proof.
  intros Hlen (j & Hj & ->). pose proof (lookup_lt_Some _ _ _ Hj). rewrite u64_id by (unfold in_u64, len in *; lia). split; [lia|]. by rewrite Nat2Z.id.
Qed.

Lemma length_store_var idx def vars : 0 ≤ idx → len (store_var idx def vars) = Z.max (len vars) (idx + 1).
Proof. intros H. unfold store_var, len. rewrite length_insert, length_app, length_replicate. lia. Qed.
Lemma store_refs_upper k refs vars : (∀ i d, (i, d) ∈ refs → 0 ≤ i < k) → len vars ≤ k → len (store_refs vars refs) ≤ k.
Proof.
  revert vars. induction refs as [|[i d] refs IH]; intros vars H Hv; [done|]. unfold store_refs. cbn [foldl fst snd]. apply IH; [intros; eapply H; by right|].
  pose proof (H i d ltac:(by left)). rewrite length_store_var by lia. lia.
Qed.
Lemma store_refs_lower i d refs vars : (∀ i d, (i, d) ∈ refs → 0 ≤ i) → (i, d) ∈ refs → i < len (store_refs vars refs).
Proof.
  intros Hpos Hin. apply list_elem_of_split in Hin as (l & k & ->). rewrite store_refs_app. unfold store_refs at 1. cbn [foldl fst snd].
  set (v := store_var i d _). assert (Hv : i < len v) by (unfold v; rewrite length_store_var; [lia|eapply Hpos; apply elem_of_app; right; by left]).
  assert (Hk : ∀ i d, (i, d) ∈ k → 0 ≤ i) by (intros j e Hj; eapply (Hpos j e), elem_of_app; right; by right). clear -Hv Hk. revert Hv. generalize v.
  induction k as [|[j e] k IH]; intros w Hw; [done|]. cbn [foldl fst snd]. apply IH; [intros; eapply Hk; by right|].
  rewrite length_store_var by (eapply Hk; by left). lia.
Qed.

Section references.
Context (typeRefs : list Typ) (target : Target) (R : argid → Z → Prop).
Lemma arg_matches_leaf a x r t : arg_matches typeRefs target R a x → leaf_result a = Some r → res_Res r = Some t →
  ∃ i d, R t i ∧ (i, d) ∈ arg_refs x.
Proof.
  induction a as [c v|c ad v y Hy|c d s|c l Hl|c o i u Ho|r0] using Arg_nested_ind; cbn [arg_matches leaf_result]; try done.
  intros (t0 & s & _ & _ & H) [= ->] Ht. rewrite Ht in H. destruct H as (c & f & desc & idx & def & _ & _ & Hi & ->). exists idx, (u64 def). split; [done|]. by left.
Qed.
Lemma arg_matches_refs a x i d : arg_matches typeRefs target R a x → (i, d) ∈ arg_refs x → ∃ t, R t i.
Proof.
  induction a as [c v|c ad v y Hy|c dt s|c l Hl|c o j u Ho|r0] using Arg_nested_ind; cbn [arg_matches].
  - intros (t & s & val & st & _ & _ & _ & ->) H. by apply not_elem_of_nil in H.
  - intros (s & addr & _ & _ & ->) H. by apply not_elem_of_nil in H.
  - intros (c0 & k & b & e & sub & vs & z & _ & ->) H. by apply not_elem_of_nil in H.
  - done.
  - done.
  - intros (t0 & s & _ & _ & H) Hin. destruct (res_Res r0) as [t|].
    + destruct H as (c & f & desc & idx & def & _ & _ & Hi & ->). cbn in Hin. apply list_elem_of_singleton in Hin as [= -> ->]. eauto.
    + destruct x; destruct H as [? _]; try done. by apply not_elem_of_nil in Hin.
Qed.
Lemma call_matches_refs c x i d : call_matches typeRefs target R c x → (i, d) ∈ call_refs x → ∃ t, R t i.
Proof.
  intros (call & m & vs & planned & u & _ & _ & _ & _ & _ & Hargs & _ & _ & (ins & csums & cs & Hx & Hins & _ & Hcs & _) & _).
  unfold call_refs. rewrite Hx, bind_app, !elem_of_app. intros [[H|H]|H]; apply list_elem_of_bind in H as (y & Hy & Hin).
  - apply list_elem_of_lookup in Hin as [n Hn]. destruct (Forall2_lookup_r _ _ _ _ _ Hins Hn) as (v & _ & _ & z & Hz & Hm). rewrite Hz in Hy. by eapply arg_matches_refs.
  - apply list_elem_of_lookup in Hin as [n Hn]. destruct (Forall2_lookup_r _ _ _ _ _ Hcs Hn) as (ai & _ & v & s & chunks & _ & _ & _ & _ & Hz & _). rewrite Hz in Hy. by apply not_elem_of_nil in Hy.
  - apply list_elem_of_lookup in Hin as [n Hn]. destruct (Forall2_lookup_r _ _ _ _ _ Hargs Hn) as (a & _ & Hm). by eapply arg_matches_refs.
Qed.
(** A reference that is written is seen by the decoder. *)
Lemma call_matches_written c call x r t :
  call_matches typeRefs target R c x → refs_written typeRefs c → c = Some call → r ∈ roots_results (call_roots call) → res_Res r = Some t →
  ∃ i d, R t i ∧ (i, d) ∈ call_refs x.
Proof.
  intros (call' & m & vs & planned & u & Ec & _ & _ & _ & _ & Hargs & Hvs & _ & (ins & csums & cs & Hx & Hins & _ & _ & _) & _) Hw -> Hr Ht. injection Ec as <-.
  unfold call_refs. destruct (Hw call vs r eq_refl Hvs Hr ltac:(by rewrite Ht)) as [(a & [n Hn]%list_elem_of_lookup & Hl)|(v & Hv & Hwr & Hl)].
  - destruct (Forall2_lookup_l _ _ _ _ _ Hargs Hn) as (y & Hy & Hm). destruct (arg_matches_leaf _ _ _ _ Hm Hl Ht) as (i & d & Hi & Hin).
    exists i, d. split; [done|]. apply elem_of_app. right. apply list_elem_of_bind. exists y. split; [done|]. by eapply list_elem_of_lookup_2.
  - assert (Hf : v ∈ filter (copyin_written typeRefs) vs) by (apply list_elem_of_filter; split; [by rewrite Hwr|done]). apply list_elem_of_lookup in Hf as [n Hn].
    destruct (Forall2_lookup_l _ _ _ _ _ Hins Hn) as (y & Hy & _ & z & Hz & Hm). rewrite Hl in Hm.
    destruct (arg_matches_leaf _ _ _ _ Hm eq_refl Ht) as (i & d & Hi & Hin). exists i, d. split; [done|]. apply elem_of_app. left. apply list_elem_of_bind.
    exists y. split; [by rewrite Hz|]. rewrite Hx. apply elem_of_app. left. by eapply list_elem_of_lookup_2.
Qed.
Lemma call_matches_outs c x : call_matches typeRefs target R (Some c) x → NoDup (roots_ids (call_roots c)) →
  (length (used_ids (call_roots c)) ≤ S (length (call_outs x)))%nat.
Proof.
  intros (call & m & vs & planned & u & [= <-] & _ & _ & _ & _ & _ & Hvs & _ & _ & Houts) Hnd. apply Forall2_length in Houts.
  rewrite used_ids_call, length_app, <-(outs_of_ids typeRefs c vs Hvs Hnd), length_fmap, Houts. unfold call_outs. rewrite length_app, length_fmap.
  assert (length (option_list (rid <$> used_ret c)) ≤ 1)%nat by (destruct (used_ret c); cbn; lia). lia.
Qed.
End references.

Section roundtrip.
Context (typeRefs : list Typ) (target : Target).
Context (MarshallKFuzztestArg : option Arg → list Z) (kFuzzTestRunID : option Z).
Abbreviation serialize := (SerializeForExecWithKConfuzz typeRefs target MarshallKFuzztestArg kFuzzTestRunID).
Context (Hfits : Forall type_fits typeRefs) (Hsys : len (Syscalls target) < 2 ^ 63).
Context (p : Prog) (Hgraph : graph_ok p) (Hself : no_self_use (Calls p)) (Hok : Forall (call_ok target) (Calls p)).
Let order := copyout_order p.

Lemma serialize_shape actions b :
  serialize p actions = Ret (inr b) →
  bad_action (len (Calls p)) actions = None ∧ len b ≤ ExecBufferSize ∧
  ∃ segs k, Forall2 (call_shape typeRefs target (word_in order)) (Calls p) segs ∧ 0 ≤ k ≤ execMaxCommands ∧ k = u64 (len order) ∧
    let l := with_actions actions 0 segs ++ (IAction <$> actions_before actions (len (Calls p))) in
    b = prog_bytes (len (Calls p)) l ∧ l ≫= instr_outs = seqZ 0 k.
Proof.
  intros H. unfold SerializeForExecWithKConfuzz in H. set (n := len (Calls p)) in *.
  destruct (bad_action n actions) as [a|]; [done|]. split; [done|]. inv_ret H.
  destruct (decide (ExecBufferSize < _)) as [|Hsize]; [done|].
  destruct (decide (execMaxCommands < _)) as [|Hmax]; [done|]. apply Ret_inj, inr_inj in H as <-.
  split; [lia|].
  assert (Hidx : ∀ j id, order !! j = Some id → word_in order id (u64 (Z.of_nat j))) by (by eexists).
  assert (Hstart : calls_done [] (write n (mkExec [] ∅ 0 ∅ ∅))) by (constructor; [intros id [? ?]; set_solver|done|done]).
  destruct (serialize_calls_spec typeRefs target _ Hfits _ _ p Hgraph Hself Hidx actions 0 [] (Calls p) _ _ Hok eq_refl Hstart Hv) as (segs & He & Hsegs & Hdone).
  pose proof (emits_trans _ _ _ _ _ He (actions_emits (actions_before actions n) v)) as [Hb Hs].
  rewrite (actions_same (actions_before actions n) v) in Hmax. cbn [write set_buf copyoutSeq] in Hmax. rewrite (cd_seq _ _ Hdone) in Hmax.
  pose proof (cd_seq _ _ Hdone) as Hq0. assert (Hq1 : copyoutSeq (writeKConfuzzConfigActions (actions_before actions n) v) = u64 (len order)) by (by rewrite actions_same).
  set (w := writeKConfuzzConfigActions (actions_before actions n) v) in *.
  set (l := with_actions actions 0 segs ++ _) in *.
  destruct Hs as [Hq Hl].
  { cbn. unfold len. lia. }
  { cbn [write set_buf buf] in Hsize. unfold len in *. rewrite length_app in Hsize. lia. }
  cbn [write set_buf copyoutSeq] in Hq, Hl. rewrite Z.add_0_l in Hq.
  exists segs, (len (l ≫= instr_outs)). split_and!; [done|unfold len; lia|rewrite <-Hq, Hq1; unfold order, copyout_order; lia|by rewrite <-Hq|].
  cbv zeta. fold l. split; [|done]. unfold prog_bytes. cbn [write set_buf buf]. rewrite Hb. cbn. by rewrite <-app_assoc.
Qed.

(** The words of a serialized program are its copyout indices. *)
Lemma order_length xs k :
  Forall2 (call_matches typeRefs target (word_in order)) (Calls p) xs → len (Calls p) ≤ ExecBufferSize →
  0 ≤ k ≤ execMaxCommands → xs ≫= call_outs = seqZ 0 k → k = u64 (len order) → len order = k.
Proof.
  intros Hxs Hn Hk Ho E. assert (Hcount : (length order ≤ length (Calls p) + length (xs ≫= call_outs))%nat).
  { unfold order, copyout_order. pose proof (go_ids p Hgraph) as Hnd. unfold prog_ids in Hnd. clear -Hxs Hnd.
    induction Hxs as [|c x calls xs Hx Hxs IH]; [done|]. change (c :: calls) with ([c] ++ calls) in *. rewrite calls_roots_app in *.
    rewrite roots_ids_app in Hnd. apply NoDup_app in Hnd as (Hc & _ & Hrest). specialize (IH Hrest). rewrite used_ids_app, bind_cons, !length_app.
    destruct c as [c|]; [|by destruct Hx as (? & ? & ? & ? & ? & ? & _)]. assert (Hr : calls_roots [Some c] = call_roots c) by (unfold calls_roots; cbn; by rewrite app_nil_r).
    rewrite Hr in *. pose proof (call_matches_outs _ _ _ _ _ Hx Hc). cbn [app length]. lia. }
  rewrite Ho, length_seqZ in Hcount. assert (ExecBufferSize + execMaxCommands < 2 ^ 64) by done.
  rewrite E. symmetry. apply u64_id. unfold in_u64, len in *. lia.
Qed.

(** The decoder finds as many variables as there are copyouts: the last
    result that is copied out has a reference, and no reference goes beyond. *)
Lemma vars_length xs :
  Forall2 (call_matches typeRefs target (index_in order)) (Calls p) xs → Forall (refs_written typeRefs) (Calls p) →
  len (vars_of (xs ≫= call_refs)) = len order.
Proof.
  intros Hxs Hw. assert (Hrange : ∀ i d, (i, d) ∈ xs ≫= call_refs → 0 ≤ i < len order).
  { intros i d (x & Hid & [n Hn]%list_elem_of_lookup)%list_elem_of_bind. destruct (Forall2_lookup_r _ _ _ _ _ Hxs Hn) as (c & _ & Hm).
    destruct (call_matches_refs _ _ _ _ _ _ _ Hm Hid) as (t & Hpos & Ht). apply lookup_lt_Some in Ht. unfold len. lia. }
  apply Z.le_antisymm; [apply store_refs_upper; [done|unfold len; cbn [length]; lia]|]. change (vars_of (xs ≫= call_refs)) with (store_refs [] (xs ≫= call_refs)).
  destruct (last order) as [t|] eqn:Elast; [|apply last_None in Elast; rewrite Elast; unfold len; cbn; lia]. rewrite last_lookup in Elast.
  pose proof Elast as Hin%list_elem_of_lookup_2. unfold order, copyout_order, used_ids in Hin. apply list_elem_of_fmap in Hin as (r0 & -> & [Hu Hr0]%list_elem_of_filter).
  apply Is_true_true, is_used_size in Hu. rewrite (go_uses p Hgraph r0 Hr0) in Hu. apply size_non_empty_iff in Hu.
  destruct (set_choose _ Hu) as (y & (r & Hr & _ & Ht)%elem_of_users).
  apply elem_of_roots_results in Hr as (a & Ha & Hra). apply elem_of_calls_roots in Ha as (c & Hc & Ha). apply list_elem_of_lookup in Hc as [n Hn].
  destruct (Forall2_lookup_l _ _ _ _ _ Hxs Hn) as (x & Hx & Hm).
  destruct (call_matches_written _ _ _ _ c x r (rid r0) Hm) as (i & d & [Hpos Hi] & Hid); [by eapply Forall_lookup_1|done|apply elem_of_roots_results; eauto|done|].
  assert (Z.to_nat i = pred (length order)) as Heq.
  { eapply NoDup_lookup; [|exact Hi|exact Elast]. apply used_ids_NoDup, (go_ids p Hgraph). }
  pose proof (store_refs_lower i d (xs ≫= call_refs) [] ltac:(intros j e Hj; destruct (Hrange j e Hj); lia)) as Hl.
  apply lookup_lt_Some in Hi. specialize (Hl ltac:(apply list_elem_of_bind; exists x; split; [done|by eapply list_elem_of_lookup_2])). unfold len in *. lia.
Qed.


(** ExecCallCount reads back the number of calls of a serialized program,
    and rejects it exactly when the program has more than 40 calls. *)
Theorem exec_call_count actions b :
  serialize p actions = Ret (inr b) →
  ExecCallCount b = if decide (MaxCalls < len (Calls p)) then inl (ErrTooManyCalls (len (Calls p)))
                    else inr (len (Calls p)).
Proof.
  intros H.
  destruct (serialize_shape actions b H) as (_ & Hsize & segs & k & Hsegs & _ & _ & Hb & _).
  assert (Hn : in_i64 (len (Calls p))).
  { pose proof (with_actions_length typeRefs target _ actions (Calls p) segs 0 Hsegs) as Hwl.
    pose proof (instrs_length (with_actions actions 0 segs)) as Hil. rewrite Hb in Hsize.
    unfold prog_bytes, len in *. rewrite bind_app, !length_app in Hsize.
    assert (ExecBufferSize < 2 ^ 63) by done. unfold in_i64. lia. }
  unfold ExecCallCount. rewrite Hb. unfold prog_bytes. rewrite varint_word, i64_of_u64, (i64_id _ Hn). done.
Qed.
End roundtrip.


(** *** A program: r0 = open(&"/x"); read(r0, 7), with two actions *)
Definition ex_common (size : Z) (varlen : bool) (r : Ref) : TypeCommon := mkTypeCommon "t" size size false varlen r.
Definition ex_types : list Typ :=
  [ VmaType (ex_common 0 false 0) 0 0;
    IntType (mkIntTypeCommon (ex_common 4 false 1) FormatNative 0 0 0 0 ∅) IntPlain 0 0 0;
    PtrType (ex_common 8 false 2) 4 DirIn false;
    ResourceType (ex_common 4 false 3) FormatNative (mkResourceDesc "fd" ["fd"%string] [2 ^ 64 - 1]);
    BufferType (ex_common 0 true 4) BufferString 0 0 "" [] false ].
Definition ex_syscall (id : Z) (name : string) (fields : list Field) : Syscall :=
  mkSyscall id id name name 0 fields (Some 3)
    (mkSyscallAttrs false 0 0 false false false false false false false false false false "" "").
Definition ex_field (r : Ref) : Field := mkField "f" r false DirIn None.
Definition ex_open : Syscall := ex_syscall 0 "open" [ex_field 2].
Definition ex_read : Syscall := ex_syscall 1 "read" [ex_field 3; ex_field 1].
Definition ex_target : Target := mkTarget 4096 4096 0x20000000 [ex_open; ex_read] ∅ ∅ [0].
Definition ex_ret (id : argid) (u : gset argid) : ResultArg := mkResultArg (mkArgCommon id 3 DirOut) None 0 0 0 u.
Definition ex_prog : Prog :=
  mkProg
    [ Some (mkCall (Some ex_open)
        [PointerArg (mkArgCommon 1 2 DirIn) 64 0 (Some (DataArg (mkArgCommon 2 4 DirIn) [47; 120] 0))]
        (Some (ex_ret 3 {[4]})) noProps "");
      Some (mkCall (Some ex_read)
        [AResult (mkResultArg (mkArgCommon 4 3 DirIn) (Some 3) 0 0 0 ∅); ConstArg (mkArgCommon 5 1 DirIn) 7]
        (Some (ex_ret 6 ∅)) (mkCallProps 0 true 2) "") ] [] false.
Definition ex_actions : list KConfuzzConfigAction := [mkAction 1 9 1 0; mkAction 0 3 2 1].
Definition ex_bytes : list Z :=
  match SerializeForExecWithKConfuzz ex_types ex_target (λ _, []) None ex_prog ex_actions with
  | Ret (inr b) => b
  | _ => []
  end.

Lemma ex_types_fit : Forall type_fits ex_types.
Proof. repeat constructor; by vm_compute. Qed.
Lemma ex_calls_ok : Forall (call_ok ex_target) (Calls ex_prog).
Proof.
  repeat constructor; (eexists _, _; split_and!; [reflexivity|reflexivity|reflexivity|done|reflexivity|by vm_compute..|]);
    repeat constructor.
Qed.
Lemma ex_graph : graph_ok ex_prog.
Proof. apply graph_okb_spec. by vm_compute. Qed.
Lemma ex_no_self : no_self_use (Calls ex_prog).
Proof.
  intros c r x Hc Hr Ex. cbn [Calls ex_prog] in Hc. rewrite !elem_of_cons in Hc. destruct Hc as [[= ->]|[[= ->]|Hc]]; [| |by apply not_elem_of_nil in Hc]; cbn in Hr; rewrite ?elem_of_cons in Hr.
  - destruct Hr as [->|Hr]; [done|by apply not_elem_of_nil in Hr].
  - destruct Hr as [->|[->|Hr]]; [done| |by apply not_elem_of_nil in Hr]. injection Ex as <-. cbn. rewrite !not_elem_of_cons. split_and!; [done|done|apply not_elem_of_nil].
Qed.
Lemma ex_written : Forall (refs_written ex_types) (Calls ex_prog).
Proof.
  apply Forall_cons_2; [|apply Forall_cons_2; [|apply Forall_nil_2]]; intros call vs r [= <-] Hvs Hr Hres; cbn in Hr; rewrite ?elem_of_cons in Hr.
  - destruct Hr as [->|Hr]; [by destruct Hres|by apply not_elem_of_nil in Hr].
  - destruct Hr as [->|[->|Hr]]; [by destruct Hres| |by apply not_elem_of_nil in Hr]. left. eexists. split; [by left|done].
Qed.
Lemma exec_call_count_witness : ExecCallCount ex_bytes = inr 2.
Proof.
  rewrite (exec_call_count ex_types ex_target (λ _, []) None ex_types_fit ex_prog ex_graph ex_no_self ex_calls_ok ex_actions); [done|by vm_compute].
Defined.
