(* ===== verification/MinimizeCalls.v ===== *)
(** * Minimising programs: removing calls and properties
    (src/prog/minimization.go)

    Simpler programs are generated and kept when a predicate accepts them.
    The predicate is an argument of these functions; it may change the program
    it is given and a state of its own. *)

From S2P Require Import Prelude GoStrings Prog ForeachArg ArgGraph RemoveCall Collide.

(** ** Related calls *)

(** What [uses] records: result arguments and file names. *)
Abbreviation usekey := (argid + list Z)%type.

Section related.
Context (typeRefs : list Typ).

(** The callback of [uses]. *)
Definition arg_uses (a : Arg) : outcome (gset usekey) :=
  t ← TypeOf typeRefs a;
  match t with
  | ResourceType _ _ _ =>
      match a with
      | AResult r =>
          Ret ({[inl (rid r)]} ∪ (match res_Res r with Some x => {[inl x]} | None => ∅ end) ∪ set_map inl (uses r))
      | _ => Panic
      end
  | BufferType _ kind _ _ _ _ _ =>
      match a with
      | DataArg c data _ =>
          Ret (if decide (arg_dir c ≠ DirOut) then match kind with BufferFilename => {[inr (trim_zeros data)]} | _ => ∅ end else ∅)
      | _ => Panic
      end
  | _ => Ret ∅
  end.
Fixpoint args_uses (l : list ArgVisit) : outcome (gset usekey) :=
  match l with
  | [] => Ret ∅
  | v :: l => u ← arg_uses (v_arg v); us ← args_uses l; Ret (u ∪ us)
  end.
Definition call_uses (c : Call) : outcome (gset usekey) := vs ← ForeachArg typeRefs c; args_uses vs.
Definition intersects (l l1 : gset usekey) : bool := bool_decide (l ∩ l1 ≠ ∅).

(** One pass over the calls from index [i]. *)
Fixpoint related_pass (calls : list (option Call)) (i : Z) (keep : gset Z) (used : gset usekey) : outcome (gset Z * gset usekey) :=
  match calls with
  | [] => Ret (keep, used)
  | c :: calls =>
      if decide (i ∈ keep) then related_pass calls (i + 1) keep used
      else
        match c with
        | None => Panic
        | Some c =>
            used1 ← call_uses c;
            if intersects used used1 then related_pass calls (i + 1) ({[i]} ∪ keep) (used ∪ used1)
            else related_pass calls (i + 1) keep used
        end
  end.
(** Passes until nothing is added; [None]: out of fuel. *)
Fixpoint related_loop (fuel : nat) (calls : list (option Call)) (keep : gset Z) (used : gset usekey) : outcome (option (gset Z)) :=
  match fuel with
  | O => Ret None
  | S fuel =>
      '(keep', used') ← related_pass calls 0 keep used;
      if decide (size used = size used') then Ret (Some keep') else related_loop fuel calls keep' used'
  end.
Definition relatedCalls (fuel : nat) (p0 : Prog) (callIndex0 : Z) : outcome (option (gset Z)) :=
  c ← call_at (Calls p0) callIndex0;
  used ← call_uses c;
  related_loop fuel (Calls p0) {[callIndex0]} used.
End related.

(** ** Removing calls *)

Section minimize.
Context (typeRefs : list Typ) {St : Type}.
(** [minimizePred]: the state, the program it leaves and its answer. *)
Context (pred : St → Prog → Z → outcome (St * Prog * bool)).

(** [for i := n - 1; i > last; i--] with [p.RemoveCall(i)]. *)
Fixpoint remove_trailing (n : nat) (last : Z) (p : Prog) : outcome Prog :=
  match n with
  | O => Ret p
  | S n => if decide (last < Z.of_nat n) then p ← RemoveCall typeRefs p (Z.of_nat n); remove_trailing n last p else Ret p
  end.
(** The loop of removeUnrelatedCalls from index [n - 1] down. *)
Fixpoint remove_unrelated (n : nat) (keepCalls : gset Z) (p : Prog) (callIndex : Z) : outcome (Prog * Z) :=
  match n with
  | O => Ret (p, callIndex)
  | S n =>
      if decide (Z.of_nat n ∈ keepCalls) then remove_unrelated n keepCalls p callIndex
      else
        p ← RemoveCall typeRefs p (Z.of_nat n);
        remove_unrelated n keepCalls p (if decide (Z.of_nat n < callIndex) then callIndex - 1 else callIndex)
  end.
(** [None]: out of fuel. *)
Definition removeUnrelatedCalls (fuel : nat) (st : St) (p0 : Prog) (callIndex0 : Z) : outcome (option (St * Prog * Z)) :=
  keep ← relatedCalls typeRefs fuel p0 callIndex0;
  match keep with
  | None => Ret None
  | Some keepCalls =>
      if decide (len (Calls p0) - Z.of_nat (size keepCalls) < 3) then Ret (Some (st, p0, callIndex0))
      else
        p ← Clone p0;
        '(p, callIndex) ← remove_unrelated (length (Calls p0)) keepCalls p callIndex0;
        '(st, p, ok) ← pred st p callIndex;
        Ret (Some (if (ok : bool) then (st, p, callIndex) else (st, p0, callIndex0)))
  end.
(** The loop that removes calls one by one, from index [n - 1] down. *)
Fixpoint remove_each (n : nat) (st : St) (p0 : Prog) (callIndex0 : Z) : outcome (St * Prog * Z) :=
  match n with
  | O => Ret (st, p0, callIndex0)
  | S n =>
      if decide (Z.of_nat n = callIndex0) then remove_each n st p0 callIndex0
      else
        let callIndex := if decide (Z.of_nat n < callIndex0) then callIndex0 - 1 else callIndex0 in
        p ← Clone p0;
        p ← RemoveCall typeRefs p (Z.of_nat n);
        '(st, p, ok) ← pred st p callIndex;
        if (ok : bool) then remove_each n st p callIndex else remove_each n st p0 callIndex0
  end.
Definition removeCalls (fuel : nat) (st : St) (p0 : Prog) (callIndex0 : Z) : outcome (option (St * Prog * Z)) :=
  '(st, p0) ← (if decide (0 ≤ callIndex0 ∧ callIndex0 + 2 < len (Calls p0)) then
                 p ← Clone p0;
                 p ← remove_trailing (length (Calls p0)) callIndex0 p;
                 '(st, p, ok) ← pred st p callIndex0;
                 Ret (st, if (ok : bool) then p else p0)
               else Ret (st, p0));
  r ← (if decide (callIndex0 ≠ -1) then removeUnrelatedCalls fuel st p0 callIndex0 else Ret (Some (st, p0, callIndex0)));
  match r with
  | None => Ret None
  | Some (st, p0, callIndex0) => Some <$> remove_each (length (Calls p0)) st p0 callIndex0
  end.

(** ** Resetting properties *)

(** Whether any differs, and the calls with none. *)
Fixpoint reset_props (l : list (option Call)) : outcome (bool * list (option Call)) :=
  match l with
  | [] => Ret (false, [])
  | None :: _ => Panic
  | Some c :: l =>
      '(b, l) ← reset_props l;
      Ret (if decide (Props c = noProps) then (b, Some c :: l) else (true, Some (set_Props c noProps) :: l))
  end.
Definition resetCallProps (st : St) (p0 : Prog) (callIndex0 : Z) : outcome (St * Prog) :=
  p ← Clone p0;
  '(anyDifferent, l) ← reset_props (Calls p);
  if (anyDifferent : bool) then
    '(st, p, ok) ← pred st (set_calls p l) callIndex0;
    Ret (st, if (ok : bool) then p else p0)
  else Ret (st, p0).

(** One property of the call at [callIndex] is changed by [f]. *)
Definition try_props (f : CallProps → CallProps) (wanted : bool) (st : St) (p0 : Prog) (callIndex callIndex0 : Z) : outcome (St * Prog) :=
  if wanted then
    p ← Clone p0;
    c ← call_at (Calls p) callIndex;
    '(st, p, ok) ← pred st (set_calls p (<[Z.to_nat callIndex := Some (set_Props c (f (Props c)))]> (Calls p))) callIndex0;
    Ret (st, if (ok : bool) then p else p0)
  else Ret (st, p0).
Definition minimizeCallProps (st : St) (p0 : Prog) (callIndex callIndex0 : Z) : outcome (St * Prog) :=
  c ← call_at (Calls p0) callIndex;
  let props := Props c in
  '(st, p0) ← try_props (λ pr, mkCallProps 0 (Async pr) (Rerun pr)) (bool_decide (0 < FailNth props)) st p0 callIndex callIndex0;
  '(st, p0) ← try_props (λ pr, mkCallProps (FailNth pr) false (Rerun pr)) (Async props) st p0 callIndex callIndex0;
  try_props (λ pr, mkCallProps (FailNth pr) (Async pr) 0) (bool_decide (0 < Rerun props)) st p0 callIndex callIndex0.
End minimize.

(** ** The transitive closure *)

Section closure.
Context (typeRefs : list Typ).

(** What the calls use. *)
Definition use_sets (calls : list (option Call)) (us : list (gset usekey)) : Prop :=
  Forall2 (λ c u, ∃ c', c = Some c' ∧ call_uses typeRefs c' = Ret u) calls us.
(** Two calls share a resource or a file. *)
Definition share (us : list (gset usekey)) (m n : nat) : Prop :=
  ∃ um un, us !! m = Some um ∧ us !! n = Some un ∧ um ∩ un ≠ ∅.

Context (us : list (gset usekey)) (k : nat).
(** What [relatedCalls] keeps between its steps. *)
Record related_inv (keep : gset Z) (used : gset usekey) : Prop := {
  rl_root : Z.of_nat k ∈ keep;
  rl_keep : ∀ x, x ∈ keep → ∃ n, x = Z.of_nat n ∧ (n < length us)%nat ∧ rtc (share us) k n;
  rl_used : ∀ u, u ∈ used ↔ ∃ n un, Z.of_nat n ∈ keep ∧ us !! n = Some un ∧ u ∈ un
}.

Lemma related_add keep used n un : related_inv keep used → us !! n = Some un → used ∩ un ≠ ∅ → related_inv ({[Z.of_nat n]} ∪ keep) (used ∪ un).
Proof.
  intros [H1 H2 H3] Hn Hi. constructor.
  - apply elem_of_union. by right.
  - intros x [->%elem_of_singleton|Hx]%elem_of_union; [|by apply H2]. exists n. split_and!; [done|by apply lookup_lt_Some in Hn|].
    apply set_choose_L in Hi as [u [Hu Hun]%elem_of_intersection]. apply H3 in Hu as (m & um & Hm & Em & Hum).
    destruct (H2 _ Hm) as (m' & E & _ & Hr). assert (m' = m) as -> by lia. eapply rtc_r; [done|]. exists um, un. split_and!; [done|done|]. set_solver.
  - intros u. rewrite elem_of_union, H3. split.
    + intros [(m & um & Hm & Em & Hum)|Hu]; [exists m, um|exists n, un]; set_solver.
    + intros (m & um & [E%elem_of_singleton|Hm]%elem_of_union & Em & Hum); [|left; eauto]. assert (m = n) as -> by lia. right. congruence.
Qed.
Lemma related_pass_spec calls us1 us2 keep used : us = us1 ++ us2 → use_sets calls us2 → related_inv keep used →
  ∃ keep' used', related_pass typeRefs calls (len us1) keep used = Ret (keep', used') ∧ related_inv keep' used'
  ∧ keep ⊆ keep' ∧ used ⊆ used' ∧ ∀ n un, (length us1 ≤ n)%nat → us !! n = Some un → used ∩ un ≠ ∅ → Z.of_nat n ∈ keep'.
Proof.
  intros Eus Hc. revert us1 keep used Eus. induction Hc as [|oc u calls us2 (c & -> & Ec) Hc IH]; intros us1 keep used Eus Hrel; cbn [related_pass].
  - exists keep, used. split_and!; [done|done|done|done|]. intros n un Hn E%lookup_lt_Some. rewrite Eus, app_nil_r in E. lia.
  - assert (El : len us1 + 1 = len (us1 ++ [u])) by (unfold len; rewrite length_app; cbn; lia). rewrite El.
    assert (Eus' : us = (us1 ++ [u]) ++ us2) by by rewrite <-app_assoc.
    assert (Eu : us !! length us1 = Some u) by (rewrite Eus; by apply list_lookup_middle).
    assert (Hfin : ∀ keep1 used1 keep' (used' : gset usekey), keep ⊆ keep1 → used ⊆ used1 → keep1 ⊆ keep' →
      (used ∩ u ≠ ∅ → len us1 ∈ keep1) →
      (∀ n un, (length (us1 ++ [u]) ≤ n)%nat → us !! n = Some un → used1 ∩ un ≠ ∅ → Z.of_nat n ∈ keep') →
      ∀ n un, (length us1 ≤ n)%nat → us !! n = Some un → used ∩ un ≠ ∅ → Z.of_nat n ∈ keep').
    { intros keep1 used1 keep' used' Hk Hu Hk' Hin Hrest n un Hn En Hint. destruct (decide (n = length us1)) as [->|Hne].
      - apply Hk', Hin. congruence.
      - apply (Hrest n un); [rewrite length_app; cbn; lia|done|set_solver]. }
    case_decide as Hin; [|rewrite Ec; cbn [mbind outcome_bind]; unfold intersects; case_bool_decide as Hint].
    + destruct (IH _ _ _ Eus' Hrel) as (keep' & used' & E & Hr & H1 & H2 & H3). exists keep', used'. split_and!; [done|done|done|done|]. by apply (Hfin keep used keep' used').
    + destruct (IH _ _ _ Eus' (related_add _ _ _ _ Hrel Eu Hint)) as (keep' & used' & E & Hr & H1 & H2 & H3). exists keep', used'.
      split_and!; [done|done|set_solver|set_solver|]. apply (Hfin ({[len us1]} ∪ keep) (used ∪ u) keep' used'); [set_solver|set_solver|done|set_solver|done].
    + destruct (IH _ _ _ Eus' Hrel) as (keep' & used' & E & Hr & H1 & H2 & H3). exists keep', used'. split_and!; [done|done|done|done|]. by apply (Hfin keep used keep' used').
Qed.
(** What is kept is a set of call indices. *)
Lemma related_bound keep used : related_inv keep used → (size keep ≤ length us)%nat.
Proof.
  intros Hr. trans (size (list_to_set (seqZ 0 (len us)) : gset Z)).
  2:{ rewrite size_list_to_set by apply NoDup_seqZ. rewrite length_seqZ. unfold len. lia. }
  apply subseteq_size. intros x Hx. destruct (rl_keep _ _ Hr x Hx) as (n & -> & Hn & _).
  apply elem_of_list_to_set, elem_of_seqZ. unfold len. lia.
Qed.

Lemma related_done keep used : related_inv keep used → (∀ n un, us !! n = Some un → used ∩ un ≠ ∅ → Z.of_nat n ∈ keep) →
  ∀ x, x ∈ keep ↔ ∃ n, x = Z.of_nat n ∧ rtc (share us) k n.
Proof.
  intros Hr Hall x. split; [intros (n & -> & _ & ?)%(rl_keep _ _ Hr); eauto|]. intros (n & -> & Hn).
  revert n Hn. apply rtc_ind_r; [apply Hr|]. intros m n _ (um & un & Em & En & Hi) IH. apply (Hall n un En).
  apply set_choose_L in Hi as [u [Hum Hun]%elem_of_intersection]. intros E. apply (not_elem_of_empty (C := gset usekey) u). rewrite <-E.
  apply elem_of_intersection. split; [|done]. apply (rl_used _ _ Hr). eauto.
Qed.
Lemma related_loop_spec fuel calls keep used : use_sets calls us → related_inv keep used → (length us < fuel + size keep)%nat →
  ∃ keep', related_loop typeRefs fuel calls keep used = Ret (Some keep') ∧ ∀ x, x ∈ keep' ↔ ∃ n, x = Z.of_nat n ∧ rtc (share us) k n.
Proof.
  intros Hc. revert keep used. induction fuel as [|fuel IH]; intros keep used Hr Hf; [pose proof (related_bound _ _ Hr); lia|]. cbn [related_loop].
  destruct (related_pass_spec calls [] us keep used eq_refl Hc Hr) as (keep' & used' & E & Hr' & Hk & Hu & Hall).
  change (len (@nil (gset usekey))) with 0 in E. rewrite E. cbn [mbind outcome_bind]. case_decide as Hs.
  - exists keep'. split; [done|]. eapply related_done; [done|]. intros n un. rewrite <-(set_subseteq_size_eq used used' Hu) by lia. apply Hall. cbn. lia.
  - apply IH; [done|]. assert (size keep < size keep')%nat; [|lia]. apply subset_size. split; [done|]. intros Hk'. apply Hs.
    assert (keep' = keep) as -> by set_solver. f_equal. apply set_eq. intros u. by rewrite (rl_used _ _ Hr), (rl_used _ _ Hr').
Qed.
Lemma related_run fuel p0 : use_sets (Calls p0) us → (k < length us)%nat → (length us ≤ fuel)%nat →
  ∃ keep, relatedCalls typeRefs fuel p0 (Z.of_nat k) = Ret (Some keep) ∧ ∀ x, x ∈ keep ↔ ∃ n, x = Z.of_nat n ∧ rtc (share us) k n.
Proof.
  intros Hc Hk Hf. destruct (lookup_lt_is_Some_2 us k Hk) as [u Hu]. destruct (Forall2_lookup_r _ _ _ _ _ Hc Hu) as (oc & Hoc & c & -> & Ec).
  unfold relatedCalls, call_at, index. rewrite decide_True, Nat2Z.id, Hoc by lia. cbn [mbind outcome_bind]. rewrite Ec. cbn [mbind outcome_bind].
  apply related_loop_spec; [done| |rewrite size_singleton; lia]. constructor.
  - by apply elem_of_singleton.
  - intros x ->%elem_of_singleton. eauto using rtc_refl.
  - intros x. split; [intros Hx; exists k, u; split_and!; [by apply elem_of_singleton|done|done]|].
    intros (n & un & En%elem_of_singleton & Hn & Hx). assert (n = k) as -> by lia. congruence.
Qed.
End closure.


(** ** Programs that can be minimised *)

Section sound.
Context (typeRefs : list Typ).

(** Resource arguments are result arguments and buffers data arguments. *)
Definition kind_ok (a : Arg) : bool :=
  match TypeOf typeRefs a with
  | Ret (ResourceType _ _ _) => match a with AResult _ => true | _ => false end
  | Ret (BufferType _ _ _ _ _ _ _) => match a with DataArg _ _ _ => true | _ => false end
  | Ret _ => true
  | Panic => false
  end.
Fixpoint kinds_ok (a : Arg) : bool :=
  kind_ok a &&
  match a with
  | PointerArg _ _ _ (Some x) => kinds_ok x
  | GroupArg _ l => forallb kinds_ok l
  | UnionArg _ o _ _ => kinds_ok o
  | _ => true
  end.
Lemma kind_ok_shape a : kind_ok (shape a) = kind_ok a.
Proof. unfold kind_ok. rewrite TypeOf_shape. by destruct a. Qed.
Lemma kinds_ok_shape a : kinds_ok (shape a) = kinds_ok a.
Proof.
  induction a as [c v|c ad v r Hr|c d s|c l Hl|c o i t Ho|r] using Arg_nested_ind; cbn [shape kinds_ok]; try done.
  - rewrite <-(kind_ok_shape (PointerArg c ad v r)). f_equal. destruct r; [|done]. exact Hr.
  - rewrite <-(kind_ok_shape (GroupArg c l)). f_equal. clear c. induction Hl as [|x l Hx _ IH]; [done|]. cbn. by rewrite Hx, IH.
  - rewrite <-(kind_ok_shape (UnionArg c o i t)). by f_equal.
Qed.
Lemma arg_uses_kind a : kind_ok a = true → ∃ u, arg_uses typeRefs a = Ret u.
Proof.
  unfold kind_ok, arg_uses. destruct (TypeOf typeRefs a) as [t|]; [|done]. cbn [mbind outcome_bind].
  destruct t; try (intros _; eexists; done); destruct a; try done; intros _; eexists; done.
Qed.
Lemma visits_kinds a : ∀ base off vs, foreachArgImpl typeRefs a base off = Ret vs → kinds_ok a = true → Forall (λ v, kind_ok (v_arg v) = true) vs.
Proof.
  induction a as [c v|c ad v r Hr|c d s|c l Hl|c o i t Ho|r] using Arg_nested_ind; intros base off vs; cbn [foreachArgImpl kinds_ok];
    rewrite andb_true_iff; intros E [Hk Hks].
  - injection E as <-. by repeat constructor.
  - destruct r as [x|]; [|injection E as <-; by repeat constructor]. destruct (foreachArgImpl typeRefs x _ 0) as [vs'|] eqn:E'; [|done].
    injection E as <-. constructor; [done|]. by eapply Hr.
  - injection E as <-. by repeat constructor.
  - destruct (TypeOf typeRefs (GroupArg c l)) as [t|]; [|done]. cbn [mbind outcome_bind] in E.
    match type of E with context [?F 0%nat l off] => set (go := F) in E end.
    assert (Hgo : ∀ j cur rest, go j l cur = Ret rest → Forall (λ v, kind_ok (v_arg v) = true) rest).
    { clear E Hk. induction Hl as [|x l Hx Hl IH]; intros j cur rest E; [by injection E as <-|]. cbn in Hks, E. apply andb_true_iff in Hks as [Hkx Hkl].
      destruct (foreachArgImpl typeRefs x base _) as [vs1|] eqn:E1; [|done]. cbn in E. destruct (ArgSize typeRefs x) as [n|]; [|done]. cbn in E.
      destruct (go (S j) l _) as [vs2|] eqn:E2; [|done]. cbn in E. injection E as <-. apply Forall_app. split; [by eapply Hx|by eapply IH]. }
    destruct (go 0%nat l off) as [rest|] eqn:E'; [|done]. injection E as <-. constructor; [done|]. by eapply Hgo.
  - destruct (foreachArgImpl typeRefs o base off) as [vs'|] eqn:E'; [|done]. injection E as <-. constructor; [done|]. by eapply Ho.
  - injection E as <-. by repeat constructor.
Qed.
Lemma args_uses_kinds vs : Forall (λ v, kind_ok (v_arg v) = true) vs → ∃ u, args_uses typeRefs vs = Ret u.
Proof.
  induction 1 as [|v vs [u Hu]%arg_uses_kind _ [us IH]]; cbn [args_uses]; [eauto|]. rewrite Hu. cbn [mbind outcome_bind]. rewrite IH. cbn. eauto.
Qed.
Lemma ForeachArg_visits c vs v : ForeachArg typeRefs c = Ret vs → v ∈ vs → ∃ a ws, a ∈ call_roots c ∧ foreachArgImpl typeRefs a None 0 = Ret ws ∧ v ∈ ws.
Proof.
  unfold ForeachArg, call_roots. destruct (match CRet c with Some r => _ | None => _ end) as [ret|] eqn:Er; [|done]. cbn [mbind outcome_bind].
  destruct (Meta c); [|done]. case_decide as Hlen; [done|]. destruct (foreach_args typeRefs (Args c)) as [ws|] eqn:Ea; [|done]. intros [= <-] [Hv|Hv]%elem_of_app.
  - destruct (CRet c) as [r|]; [|injection Er as <-; by apply not_elem_of_nil in Hv]. exists (AResult r), ret. split_and!; [|done|done]. by left.
  - assert (H : ∃ a ks, a ∈ Args c ∧ foreachArgImpl typeRefs a None 0 = Ret ks ∧ v ∈ ks).
    { clear Hlen. revert ws Ea Hv. induction (Args c) as [|a l IH]; cbn [foreach_args]; intros ws Ea Hv; [injection Ea as <-; by apply not_elem_of_nil in Hv|].
      destruct (foreachArgImpl typeRefs a None 0) as [k1|] eqn:E1; [|done]. destruct (foreach_args typeRefs l) as [k2|] eqn:E2; [|done].
      injection Ea as <-. apply elem_of_app in Hv as [Hv|Hv]; [exists a, k1; split_and!; [by left|done|done]|].
      destruct (IH _ eq_refl Hv) as (b & ks & Hb & ? & ?). exists b, ks. split_and!; [by right|done|done]. }
    destruct H as (a & ks & Ha & ? & ?). exists a, ks. split_and!; [apply elem_of_app; by right|done|done].
Qed.

(** A program the minimisation can work on. *)
Record sound (p : Prog) : Prop := {
  so_safe : isUnsafe p = false;
  so_graph : graph_ok p;
  so_typed : well_typed typeRefs p;
  so_kinds : ∀ a, a ∈ calls_roots (Calls p) → kinds_ok a = true
}.
Lemma sound_uses p : sound p → ∃ us, use_sets typeRefs (Calls p) us ∧ length us = length (Calls p).
Proof.
  intros [_ Hg Hw Hk]. assert (H : Forall (λ c, ∃ u, ∃ c', c = Some c' ∧ call_uses typeRefs c' = Ret u) (Calls p)).
  { apply Forall_forall. intros oc Hoc. pose proof (go_calls p Hg) as Hs. rewrite Forall_forall in Hs. destruct (Hs oc Hoc) as [c ->].
    destruct (wt_calls _ _ Hw c Hoc) as (m & Em & Hl). destruct (ForeachArg_results typeRefs c m) as (vs & E & _); [|done|done|].
    - intros a Ha. apply (wt_sized _ _ Hw), elem_of_calls_roots. eauto.
    - unfold call_uses. destruct (args_uses_kinds vs) as [u Hu]; [|exists u, c; rewrite E; done]. apply Forall_forall. intros v Hv.
      destruct (ForeachArg_visits c vs v E Hv) as (a & ws & Ha & Ews & Hin). pose proof (visits_kinds a None 0 ws Ews) as Hv'. rewrite Forall_forall in Hv'.
      apply Hv'; [|done]. apply Hk, elem_of_calls_roots. eauto. }
  clear -H. induction H as [|oc l [u Hu] _ (us & H1 & H2)]; [exists []; by split; [constructor|]|]. exists (u :: us). split; [by constructor|]. cbn. by rewrite H2.
Qed.
Lemma sound_shapes p q : (∀ a, a ∈ calls_roots (Calls q) → ∃ b, b ∈ calls_roots (Calls p) ∧ shape a = shape b) →
  (∀ a, a ∈ calls_roots (Calls p) → kinds_ok a = true) → ∀ a, a ∈ calls_roots (Calls q) → kinds_ok a = true.
Proof. intros H Hk a (b & Hb & E)%H. rewrite <-kinds_ok_shape, E, kinds_ok_shape. by apply Hk. Qed.
Lemma rename_metas f p : call_metas (rename_prog f p) = call_metas p.
Proof. unfold call_metas. cbn. unfold copy_calls. rewrite <-list_fmap_compose. apply list_fmap_ext. by intros i [c|] _. Qed.
Lemma Clone_sound p : sound p → ∃ p', Clone p = Ret p' ∧ sound p' ∧ call_metas p' = call_metas p.
Proof.
  intros [Hs Hg Hw Hk]. exists (rename_prog (copy_id p) p). split_and!; [by apply Clone_rename| |apply rename_metas]. constructor.
  - done.
  - apply rename_graph_ok; [|done]. intros x y. apply copy_id_inj, Hg.
  - by apply well_typed_rename.
  - eapply sound_shapes; [|done]. intros a. rewrite calls_roots_rename. intros (b & -> & Hb)%list_elem_of_fmap. exists b. split; [done|]. by apply shape_copy.
Qed.
Lemma RemoveCall_sound p i : sound p → (i < length (call_metas p))%nat →
  ∃ p', RemoveCall typeRefs p (Z.of_nat i) = Ret p' ∧ sound p' ∧ call_metas p' = delete i (call_metas p).
Proof.
  intros [Hs Hg Hw Hk] Hi. unfold call_metas in Hi. rewrite length_fmap in Hi. destruct (lookup_lt_is_Some_2 (Calls p) i Hi) as [oc Hoc].
  pose proof (go_calls p Hg) as Hall. rewrite Forall_forall in Hall. destruct (Hall oc) as [c ->]; [by apply list_elem_of_lookup_2 in Hoc|].
  exists (without_call typeRefs p i c). split_and!; [by apply RemoveCall_eq| |apply without_call_metas]. constructor.
  - done.
  - by apply without_call_graph.
  - by apply without_call_typed.
  - eapply sound_shapes; [|done]. intros a. unfold without_call. cbn [set_calls Calls]. rewrite calls_roots_map. intros (b & -> & Hb)%list_elem_of_fmap.
    exists b. split; [by eapply calls_roots_delete|]. apply shape_map. intros. apply cut_common.
Qed.
End sound.

(** ** Removing calls keeps the target call *)

(** A call index, or -1 for none. *)
Definition valid_index {A} (ms : list A) (k : Z) : Prop := k = -1 ∨ 0 ≤ k < len ms.
(** Calls have been removed from [ms0], and the call at [k0] is now at [k]. *)
Record follows {A} (ms0 : list A) (k0 : Z) (ms : list A) (k : Z) : Prop := {
  fo_sub : ms `sublist_of` ms0;
  fo_none : k0 = -1 → k = -1;
  fo_call : 0 ≤ k0 → 0 ≤ k ≤ k0 ∧ ∃ m, ms0 !! Z.to_nat k0 = Some m ∧ ms !! Z.to_nat k = Some m
}.
Section follows.
Context {A : Type}.
Implicit Types (ms : list A) (k : Z).
Lemma follows_refl ms k : valid_index ms k → follows ms k ms k.
Proof.
  intros [->|Hk]; constructor; try done; try lia. intros _. split; [lia|].
  destruct (lookup_lt_is_Some_2 ms (Z.to_nat k)) as [m Hm]; [unfold len in Hk; lia|]. eauto.
Qed.
Lemma follows_valid ms k ms' k' : valid_index ms k → follows ms k ms' k' → valid_index ms' k'.
Proof.
  intros [Hk|Hk] [_ Hn Hc]; [left; auto|right]. destruct Hc as [Hk' (m & _ & Hm)]; [lia|]. apply lookup_lt_Some in Hm. unfold len. lia.
Qed.
Lemma follows_trans ms k ms' k' ms2 k2 : follows ms k ms' k' → follows ms' k' ms2 k2 → follows ms k ms2 k2.
Proof.
  intros [S1 N1 C1] [S2 N2 C2]. constructor; [by etrans|auto|]. intros Hk. destruct (C1 Hk) as [Hk' (m & E1 & E2)].
  destruct C2 as [Hk2 (m' & E3 & E4)]; [lia|]. split; [lia|]. exists m. split; [done|]. congruence.
Qed.
Lemma follows_delete ms k i : valid_index ms k → (i < length ms)%nat → Z.of_nat i ≠ k →
  follows ms k (delete i ms) (if decide (Z.of_nat i < k) then k - 1 else k).
Proof.
  intros Hv Hi Hne. constructor; [apply sublist_delete|case_decide; lia|]. intros Hk. destruct Hv as [->|Hv]; [lia|].
  split; [case_decide; lia|]. destruct (lookup_lt_is_Some_2 ms (Z.to_nat k)) as [m Hm]; [unfold len in Hv; lia|]. exists m. split; [done|].
  case_decide; [rewrite list_lookup_delete_ge by lia; by replace (S (Z.to_nat (k - 1))) with (Z.to_nat k) by lia|].
  by rewrite list_lookup_delete_lt by lia.
Qed.
End follows.

Section removing.
Context (typeRefs : list Typ) {St : Type} (pred : St → Prog → Z → outcome (St * Prog * bool)).
Local Abbreviation ok := (sound typeRefs).

(** The predicate returns, and may change the program but not its calls. *)
Definition pred_ok : Prop := ∀ st p k, ok p → ∃ st' p' b, pred st p k = Ret (st', p', b) ∧ ok p' ∧ call_metas p' = call_metas p.
(** A run of the predicate accepted the program with the call index. *)
Definition accepted (p : Prog) (k : Z) : Prop := ∃ st q st', ok q ∧ pred st q k = Ret (st', p, true).
(** The program is the original one or was accepted. *)
Definition kept (p0 : Prog) (k0 : Z) (p : Prog) (k : Z) : Prop := (p = p0 ∧ k = k0) ∨ accepted p k.
(** What a step of the minimisation achieves. *)
Record reduced (p0 : Prog) (k0 : Z) (p : Prog) (k : Z) : Prop := {
  rd_ok : ok p;
  rd_follows : follows (call_metas p0) k0 (call_metas p) k;
  rd_kept : kept p0 k0 p k
}.
Lemma length_metas p : length (call_metas p) = length (Calls p).
Proof. apply length_fmap. Qed.
Lemma reduced_refl p k : ok p → valid_index (call_metas p) k → reduced p k p k.
Proof. intros Hp Hk. constructor; [done|by apply follows_refl|by left]. Qed.
Lemma reduced_trans p0 k0 p1 k1 p2 k2 : reduced p0 k0 p1 k1 → reduced p1 k1 p2 k2 → reduced p0 k0 p2 k2.
Proof.
  intros [_ F1 K1] [O2 F2 K2]. constructor; [done|by eapply follows_trans|]. destruct K2 as [[-> ->]|K2]; [done|by right].
Qed.

Lemma remove_trailing_spec n last p : ok p → (n ≤ length (call_metas p))%nat → 0 ≤ last → valid_index (call_metas p) last →
  ∃ p', remove_trailing typeRefs n last p = Ret p' ∧ ok p' ∧ follows (call_metas p) last (call_metas p') last.
Proof.
  intros Hp Hn Hl Hv. revert p Hp Hn Hv. induction n as [|n IH]; intros p Hp Hn Hv; cbn [remove_trailing]; [exists p; eauto using follows_refl|].
  case_decide as Hc; [|exists p; eauto using follows_refl]. destruct (RemoveCall_sound typeRefs p n) as (q & Eq & Hq & Em); [done|lia|].
  rewrite Eq. cbn [mbind outcome_bind]. pose proof (follows_delete (call_metas p) last n Hv) as Hf. rewrite decide_False, <-Em in Hf by lia.
  specialize (Hf ltac:(lia) ltac:(lia)). destruct (IH q) as (p' & E & Hp' & Hf'); [done|rewrite Em, length_delete by (apply lookup_lt_is_Some_2; lia); lia|by eapply follows_valid|].
  exists p'. split_and!; [done|done|by eapply follows_trans].
Qed.
Lemma remove_unrelated_spec n keep p k : ok p → (n ≤ length (call_metas p))%nat → valid_index (call_metas p) k → (k ∈ keep ∨ Z.of_nat n ≤ k) →
  ∃ p' k', remove_unrelated typeRefs n keep p k = Ret (p', k') ∧ ok p' ∧ follows (call_metas p) k (call_metas p') k'.
Proof.
  revert p k. induction n as [|n IH]; intros p k Hp Hn Hv Hk; cbn [remove_unrelated]; [exists p, k; eauto using follows_refl|].
  case_decide as Hc; [apply IH; [done|lia|done|]; destruct Hk; [by left|right; lia]|].
  assert (Hne : Z.of_nat n ≠ k) by (intros <-; destruct Hk; [done|lia]).
  destruct (RemoveCall_sound typeRefs p n) as (q & Eq & Hq & Em); [done|lia|]. rewrite Eq. cbn [mbind outcome_bind].
  pose proof (follows_delete (call_metas p) k n Hv ltac:(lia) Hne) as Hf. rewrite <-Em in Hf.
  destruct (IH q (if decide (Z.of_nat n < k) then k - 1 else k)) as (p' & k' & E & Hp' & Hf');
    [done|rewrite Em, length_delete by (apply lookup_lt_is_Some_2; lia); lia|by eapply follows_valid| |].
  - case_decide; [right; lia|]. destruct Hk; [by left|lia].
  - exists p', k'. split_and!; [done|done|by eapply follows_trans].
Qed.

Context (Hpred : pred_ok).
Lemma try_reduced st p0 k0 q k : ok q → follows (call_metas p0) k0 (call_metas q) k →
  ∃ st' p b, pred st q k = Ret (st', p, b) ∧ (b = true → reduced p0 k0 p k).
Proof.
  intros Hq Hf. destruct (Hpred st q k Hq) as (st' & p & b & E & Hp & Em). exists st', p, b. split; [done|]. intros ->.
  constructor; [done|by rewrite Em|]. right. exists st, q, st'. done.
Qed.
Lemma remove_each_spec n st p k : ok p → (n ≤ length (call_metas p))%nat → valid_index (call_metas p) k →
  ∃ st' p' k', remove_each typeRefs pred n st p k = Ret (st', p', k') ∧ reduced p k p' k'.
Proof.
  revert st p k. induction n as [|n IH]; intros st p k Hp Hn Hv; cbn [remove_each]; [exists st, p, k; eauto using reduced_refl|].
  case_decide as Hc; [apply IH; [done|lia|done]|]. destruct (Clone_sound typeRefs p Hp) as (q & Eq & Hq & Em). rewrite Eq. cbn [mbind outcome_bind].
  rewrite <-Em in Hv, Hn. destruct (RemoveCall_sound typeRefs q n) as (q1 & Eq1 & Hq1 & Em1); [done|lia|]. rewrite Eq1. cbn [mbind outcome_bind].
  pose proof (follows_delete (call_metas q) k n Hv ltac:(lia) Hc) as Hf. rewrite <-Em1, Em in Hf.
  destruct (try_reduced st p k q1 _ Hq1 Hf) as (st' & p1 & b & E & Hred). rewrite E. cbn [mbind outcome_bind]. rewrite Em in Hv, Hn. destruct b.
  - specialize (Hred eq_refl). destruct (IH st' p1 (if decide (Z.of_nat n < k) then k - 1 else k)) as (st2 & p2 & k2 & E2 & Hred2).
    + apply Hred.
    + pose proof (Hpred st q1 (if decide (Z.of_nat n < k) then k - 1 else k) Hq1) as (? & ? & ? & E' & _ & Em2). rewrite E in E'. injection E' as <- <- <-.
      rewrite Em2, Em1, Em, length_delete by (apply lookup_lt_is_Some_2; lia). lia.
    + eapply follows_valid; [exact Hv|apply Hred].
    + exists st2, p2, k2. split; [done|]. by eapply reduced_trans.
  - apply IH; [done|lia|done].
Qed.
Lemma removeUnrelatedCalls_spec fuel st p k : ok p → 0 ≤ k → valid_index (call_metas p) k → (length (Calls p) ≤ fuel)%nat →
  ∃ st' p' k', removeUnrelatedCalls typeRefs pred fuel st p k = Ret (Some (st', p', k')) ∧ reduced p k p' k'.
Proof.
  intros Hp Hk Hv Hf. destruct (sound_uses typeRefs p Hp) as (us & Hus & Hlen). unfold removeUnrelatedCalls.
  destruct (related_run typeRefs us (Z.to_nat k) fuel p Hus) as (keep & E & Hkeep); [destruct Hv; [lia|unfold len in *; rewrite length_metas in *; lia]|lia|].
  rewrite Z2Nat.id in E by done. rewrite E. cbn [mbind outcome_bind]. case_decide; [exists st, p, k; eauto using reduced_refl|].
  destruct (Clone_sound typeRefs p Hp) as (q & Eq & Hq & Em). rewrite Eq. cbn [mbind outcome_bind]. rewrite <-Em in Hv.
  destruct (remove_unrelated_spec (length (Calls p)) keep q k Hq) as (q1 & k1 & E1 & Hq1 & Hf1); [by rewrite Em, length_metas|done| |].
  - left. apply Hkeep. exists (Z.to_nat k). split; [lia|done].
  - rewrite E1. cbn [mbind outcome_bind]. rewrite Em in Hf1, Hv. destruct (try_reduced st p k q1 k1 Hq1 Hf1) as (st' & p1 & b & E2 & Hred). rewrite E2.
    cbn [mbind outcome_bind]. destruct b; [exists st', p1, k1; auto|exists st', p, k; eauto using reduced_refl].
Qed.
Lemma removeCalls_run fuel st p k : ok p → valid_index (call_metas p) k → (length (Calls p) ≤ fuel)%nat →
  ∃ st' p' k', removeCalls typeRefs pred fuel st p k = Ret (Some (st', p', k')) ∧ reduced p k p' k'.
Proof.
  intros Hp Hv Hf. unfold removeCalls.
  assert (H : ∃ st1 p1, (if decide (0 ≤ k ∧ k + 2 < len (Calls p)) then
                 q ← Clone p; q ← remove_trailing typeRefs (length (Calls p)) k q; '(st, q, b) ← pred st q k; Ret (st, if (b : bool) then q else p)
               else Ret (st, p)) = Ret (st1, p1) ∧ reduced p k p1 k).
  { case_decide as Hc; [|exists st, p; eauto using reduced_refl]. destruct (Clone_sound typeRefs p Hp) as (q & Eq & Hq & Em). rewrite Eq. cbn [mbind outcome_bind].
    destruct (remove_trailing_spec (length (Calls p)) k q Hq) as (q1 & E1 & Hq1 & Hf1); [by rewrite Em, length_metas|lia|by rewrite Em|]. rewrite E1. cbn [mbind outcome_bind].
    rewrite Em in Hf1. destruct (try_reduced st p k q1 k Hq1 Hf1) as (st' & p1 & b & E2 & Hred). rewrite E2. cbn [mbind outcome_bind].
    destruct b; [exists st', p1; auto|exists st', p; eauto using reduced_refl]. }
  destruct H as (st1 & p1 & -> & H1). cbn [mbind outcome_bind]. assert (Hv1 : valid_index (call_metas p1) k) by (eapply follows_valid; [done|apply H1]).
  assert (H : ∃ st2 p2 k2, (if decide (k ≠ -1) then removeUnrelatedCalls typeRefs pred fuel st1 p1 k else Ret (Some (st1, p1, k))) = Ret (Some (st2, p2, k2)) ∧ reduced p1 k p2 k2).
  { case_decide as Hc; [|exists st1, p1, k; split; [done|apply reduced_refl; [apply H1|done]]]. apply removeUnrelatedCalls_spec; [apply H1|destruct Hv; lia|done|].
    pose proof (sublist_length _ _ (fo_sub _ _ _ _ (rd_follows _ _ _ _ H1))) as Hl. rewrite !length_metas in Hl. lia. }
  destruct H as (st2 & p2 & k2 & -> & H2). cbn [mbind outcome_bind].
  destruct (remove_each_spec (length (Calls p2)) st2 p2 k2) as (st3 & p3 & k3 & -> & H3); [apply H2|by rewrite length_metas|eapply follows_valid; [exact Hv1|apply H2]|].
  exists st3, p3, k3. split; [done|]. eapply reduced_trans; [exact H1|]. by eapply reduced_trans.
Qed.
End removing.

(** C9: Removing calls keeps the target.  For a well-formed program, a call
    index or -1, and a predicate that returns and does not add or remove
    calls, the removal phase of the minimisation returns: its program is
    well-formed, its calls are some of the original ones in their order, the
    call at the returned index is the call that was at the given one (-1 stays
    -1), and the program is the original one or one the predicate accepted
    with exactly that index. *)
Theorem removeCalls_spec (typeRefs : list Typ) {St : Type} (pred : St → Prog → Z → outcome (St * Prog * bool)) (fuel : nat) (st : St) (p : Prog) (k : Z)
    (Hpred : pred_ok typeRefs pred) (Hp : sound typeRefs p) (Hk : k = -1 ∨ 0 ≤ k < len (Calls p)) (Hfuel : (length (Calls p) ≤ fuel)%nat) :
  ∃ st' p' k', removeCalls typeRefs pred fuel st p k = Ret (Some (st', p', k')) ∧ sound typeRefs p'
  ∧ call_metas p' `sublist_of` call_metas p ∧ (k = -1 → k' = -1)
  ∧ (0 ≤ k → 0 ≤ k' ≤ k ∧ ∃ m, call_metas p !! Z.to_nat k = Some m ∧ call_metas p' !! Z.to_nat k' = Some m)
  ∧ ((p' = p ∧ k' = k) ∨ accepted typeRefs pred p' k').
Proof.
  destruct (removeCalls_run typeRefs pred Hpred fuel st p k Hp) as (st' & p' & k' & E & [H1 [H2 H3 H4] H5]).
  - unfold valid_index, len. by rewrite length_metas.
  - done.
  - exists st', p', k'. split_and!; assumption.
Qed.

(** ** Properties *)

Lemma reprops_metas p l : reprops (Calls p) l → call_metas (set_calls p l) = call_metas p.
Proof. unfold call_metas. cbn. induction 1 as [|a b k l [pr ->] _ IH]; [done|]. cbn. rewrite IH. by destruct a. Qed.
Lemma sound_props typeRefs p l : reprops (Calls p) l → sound typeRefs p → sound typeRefs (set_calls p l).
Proof.
  intros H [Hs Hg [W1 W2 W3] Hk]. pose proof (reprops_roots _ _ H) as E.
  constructor; [done|apply (reprops_graph p (Calls p)); [done|by destruct p]|constructor|]; unfold prog_results in *; cbn [set_calls Calls]; rewrite ?E; try done.
  intros c [i Hi]%list_elem_of_lookup. destruct (Forall2_lookup_r _ _ _ _ _ H Hi) as ([c0|] & Ha & pr & E0); [|done]. injection E0 as ->.
  apply (W3 c0). by apply list_elem_of_lookup_2 in Ha.
Qed.
Lemma set_Props_same c : set_Props c (Props c) = c.
Proof. by destruct c. Qed.
Lemma reset_props_spec l : Forall is_Some l →
  ∃ l', reset_props l = Ret (bool_decide (Exists (λ c : option Call, (Props <$> c) ≠ Some noProps) l), l') ∧ reprops l l' ∧ Forall (λ c : option Call, (Props <$> c) = Some noProps) l'.
Proof.
  induction 1 as [|a l [c ->] _ (l' & IH & H1 & H2)]; [exists []; by repeat constructor|]. cbn [reset_props]. rewrite IH. cbn [mbind outcome_bind].
  case_decide as Hc.
  - exists (Some c :: l'). split_and!; [|constructor; [exists (Props c); cbn; by rewrite set_Props_same|done]|constructor; [cbn; congruence|done]].
    do 2 f_equal. apply bool_decide_ext. rewrite Exists_cons. cbn. rewrite Hc. tauto.
  - exists (Some (set_Props c noProps) :: l'). split_and!; [|constructor; [by exists noProps|done]|by constructor].
    do 2 f_equal. symmetry. apply bool_decide_eq_true_2. left. cbn. congruence.
Qed.

Section props.
Context (typeRefs : list Typ) {St : Type} (pred : St → Prog → Z → outcome (St * Prog * bool)) (Hpred : pred_ok typeRefs pred).
(** The program with the same calls, or one that was accepted. *)
Record refitted (p0 : Prog) (k : Z) (p : Prog) : Prop := {
  rf_ok : sound typeRefs p;
  rf_metas : call_metas p = call_metas p0;
  rf_kept : p = p0 ∨ accepted typeRefs pred p k
}.
Lemma try_refitted st p0 p k calls : sound typeRefs p0 → sound typeRefs p → call_metas p = call_metas p0 → reprops (Calls p) calls →
  ∃ st' q b, pred st (set_calls p calls) k = Ret (st', q, b) ∧ refitted p0 k (if (b : bool) then q else p0).
Proof.
  intros H0 Hp Em Hc. pose proof (sound_props typeRefs p calls Hc Hp) as Hq. destruct (Hpred st (set_calls p calls) k Hq) as (st' & q & b & E & Ho & Em').
  exists st', q, b. split; [done|]. destruct b; [|by constructor; [| |left]]. constructor; [done| |].
  - by rewrite Em', reprops_metas.
  - right. exists st, (set_calls p calls), st'. done.
Qed.
Lemma resetCallProps_spec st p0 k : sound typeRefs p0 → ∃ st' p, resetCallProps pred st p0 k = Ret (st', p) ∧ refitted p0 k p.
Proof.
  intros H0. unfold resetCallProps. destruct (Clone_sound typeRefs p0 H0) as (q & -> & Hq & Em). cbn [mbind outcome_bind].
  destruct (reset_props_spec (Calls q) (go_calls q (so_graph _ _ Hq))) as (l & -> & Hl & _). cbn [mbind outcome_bind].
  case_bool_decide; [|exists st, p0; split; [done|constructor; [done|done|by left]]].
  destruct (try_refitted st p0 q k l H0 Hq Em Hl) as (st' & p & b & -> & Hr). cbn. eauto.
Qed.
Lemma try_props_spec f w st p0 i k : sound typeRefs p0 → (i < length (Calls p0))%nat →
  ∃ st' p, try_props pred f w st p0 (Z.of_nat i) k = Ret (st', p) ∧ refitted p0 k p.
Proof.
  intros H0 Hi. unfold try_props. destruct w; [|exists st, p0; split; [done|constructor; [done|done|by left]]].
  destruct (Clone_sound typeRefs p0 H0) as (q & -> & Hq & Em). cbn [mbind outcome_bind].
  assert (Hl : (i < length (Calls q))%nat) by (rewrite <-!length_metas in *; by rewrite Em). destruct (lookup_lt_is_Some_2 _ _ Hl) as [oc Hoc].
  pose proof (go_calls q (so_graph _ _ Hq)) as Hall. rewrite Forall_forall in Hall. destruct (Hall oc) as [c ->]; [by apply list_elem_of_lookup_2 in Hoc|].
  unfold call_at, index. rewrite decide_True, Nat2Z.id, Hoc by lia. cbn [mbind outcome_bind].
  edestruct (try_refitted st p0 q k (<[i := Some (set_Props c (f (Props c)))]> (Calls q)) H0 Hq Em) as (st' & p & b & -> & Hr).
  - rewrite <-(list_insert_id (Calls q) i (Some c) Hoc) at 1. apply Forall2_insert; [apply reprops_refl|by exists (f (Props c))].
  - cbn. eauto.
Qed.
Lemma refitted_trans p0 k p1 p2 : refitted p0 k p1 → refitted p1 k p2 → refitted p0 k p2.
Proof. intros [_ M1 K1] [O2 M2 K2]. constructor; [done|congruence|]. destruct K2 as [->|]; [done|by right]. Qed.
Lemma minimizeCallProps_spec st p0 i k : sound typeRefs p0 → (i < length (Calls p0))%nat →
  ∃ st' p, minimizeCallProps pred st p0 (Z.of_nat i) k = Ret (st', p) ∧ refitted p0 k p.
Proof.
  intros H0 Hi. unfold minimizeCallProps. destruct (lookup_lt_is_Some_2 _ _ Hi) as [oc Hoc].
  pose proof (go_calls p0 (so_graph _ _ H0)) as Hall. rewrite Forall_forall in Hall. destruct (Hall oc) as [c ->]; [by apply list_elem_of_lookup_2 in Hoc|].
  unfold call_at, index. rewrite decide_True, Nat2Z.id, Hoc by lia. cbn [mbind outcome_bind].
  assert (Hlen : ∀ p, call_metas p = call_metas p0 → (i < length (Calls p))%nat) by (intros p E; rewrite <-!length_metas in *; by rewrite E).
  match goal with |- context [try_props pred ?f ?w st] => destruct (try_props_spec f w st p0 i k H0 Hi) as (st1 & p1 & -> & R1) end. cbn [mbind outcome_bind].
  match goal with |- context [try_props pred ?f ?w st1] => destruct (try_props_spec f w st1 p1 i k (rf_ok _ _ _ R1) (Hlen p1 (rf_metas _ _ _ R1))) as (st2 & p2 & -> & R2) end. cbn [mbind outcome_bind].
  pose proof (refitted_trans _ _ _ _ R1 R2) as R12.
  match goal with |- context [try_props pred ?f ?w st2] => destruct (try_props_spec f w st2 p2 i k (rf_ok _ _ _ R2) (Hlen p2 (rf_metas _ _ _ R12))) as (st3 & p3 & -> & R3) end.
  exists st3, p3. split; [done|]. by eapply refitted_trans.
Qed.
End props.

(** ** Witnesses *)

Definition soundb (typeRefs : list Typ) (p : Prog) : bool :=
  negb (isUnsafe p) && graph_okb p && well_typedb typeRefs p && forallb (kinds_ok typeRefs) (calls_roots (Calls p)).
Lemma soundb_spec typeRefs p : soundb typeRefs p = true → sound typeRefs p.
Proof.
  unfold soundb. rewrite !andb_true_iff, negb_true_iff, forallb_forall. intros [[[H1 H2%graph_okb_spec] H3%well_typedb_spec] H4].
  constructor; [done|done|done|]. intros a Ha. by apply H4, list_elem_of_In.
Qed.
(** [r10 = open(); r11 = open(); close(r11); close(r10)] *)
Definition gx_pairs : Prog :=
  mkProg [ Some (mkCall (Some gx_open) [] (Some (gx_fd 10 DirOut None [40])) noProps "");
           Some (mkCall (Some gx_open) [] (Some (gx_fd 11 DirOut None [30])) noProps "");
           Some (mkCall (Some gx_close) [AResult (gx_fd 30 DirIn (Some 11) [])] None noProps "");
           Some (mkCall (Some gx_close) [AResult (gx_fd 40 DirIn (Some 10) [])] None noProps "") ] [] false.
Definition gx_uses : list (gset usekey) :=
  [{[inl 10; inl 40]}; {[inl 11; inl 30]}; {[inl 30; inl 11]}; {[inl 40; inl 10]}].

(** Accepts programs that still end in [close] of a used descriptor, and counts. *)
Definition gx_pred (n : Z) (p : Prog) (k : Z) : outcome (Z * Prog * bool) :=
  Ret (n + 1, p, bool_decide (Exists (λ r, is_Some (res_Res r)) (prog_results p) ∧ k = len (Calls p) - 1)).
Lemma removeCalls_witness :
  (∃ n p k, removeCalls gx_types gx_pred 4 0 gx_pairs 3 = Ret (Some (n, p, k)) ∧ sound gx_types p ∧ call_metas p !! Z.to_nat k = Some (Some gx_close))
  ∧ (λ r : option (Z * Prog * Z), (λ x : Z * Prog * Z, (x.1.1, call_metas x.1.2, x.2)) <$> r) <$> removeCalls gx_types gx_pred 4 0 gx_pairs 3 = Ret (Some (3, [Some gx_open; Some gx_close], 1)).
Proof.
  split; [|vm_compute; reflexivity]. destruct (removeCalls_spec gx_types gx_pred 4 0 gx_pairs 3) as (n & p & k & E & Hs & _ & _ & Hc & _).
  - intros st p k Hp. eexists _, p, _. split_and!; [reflexivity|exact Hp|reflexivity].
  - apply soundb_spec. vm_compute. reflexivity.
  - right. split; [lia|reflexivity].
  - cbn. lia.
  - exists n, p, k. split_and!; [exact E|exact Hs|]. destruct Hc as [_ (m & E1 & E2)]; [lia|]. rewrite E2, <-E1. reflexivity.
Defined.
