(* ===== verification/Sizes.v ===== *)
(** * Length fields (src/prog/size.go) and traversal with parents
    (src/prog/analysis.go: foreachSubArgWithStack, popStack)

    Sizes are assigned to the length fields of a call in place.  Neither paths
    nor sizes depend on the values of constants, so an assignment is a list of
    writes to constants, given by their identity, that is applied to the
    arguments in the end.  A stack of parents is a list, the innermost first. *)

From S2P Require Import Prelude GoStrings Prog ForeachArg ArgGraph RemoveCall.

(** The types [target.any] that arguments are squashed into. *)
Record AnyTypes := mkAnyTypes { any_ptrPtr : Ref; any_ptr64 : Ref; any_array : Ref }.

Definition SyscallRef : string := "syscall".
Definition noOffset : Z := u64 (-1).
Record foundArg := mkFound { fa_arg : option Arg; fa_offset : Z; fa_isAnyPtr : bool }.

Section sizes.
Context (typeRefs : list Typ) (any : AnyTypes).

Definition isAnyPtr (t : Typ) : bool :=
  match t with PtrType _ elem _ _ => bool_decide (elem = any_array any) | _ => false end.

(** ** Traversal *)

Record StackVisit := mkStackVisit { sv_arg : Arg; sv_parents : list Arg }.
(** pushStack of structs and unions. *)
Definition push_parent (t : Typ) (a : Arg) (parents : list Arg) : list Arg :=
  match t with StructType _ _ _ _ | UnionType _ _ => a :: parents | _ => parents end.
(** foreachArgImpl with a stack; [stop] is what the callback does to Stop. *)
Fixpoint foreachStack (stop : Typ → bool) (a : Arg) (parents : list Arg) : outcome (list StackVisit) :=
  t ← TypeOf typeRefs a;
  let parents := push_parent t a parents in
  rest ←
    (if stop t then Ret []
     else
       match a with
       | GroupArg _ inner =>
           (fix go (l : list Arg) : outcome (list StackVisit) :=
              match l with
              | [] => Ret []
              | x :: l => vs ← foreachStack stop x parents; _ ← ArgSize typeRefs x; vs' ← go l; Ret (vs ++ vs')
              end) inner
       | PointerArg _ _ _ (Some r) => foreachStack stop r parents
       | UnionArg _ o _ _ => foreachStack stop o parents
       | _ => Ret []
       end);
  Ret (mkStackVisit a parents :: rest).
Definition foreachSubArgWithStack (stop : Typ → bool) (a : Arg) : outcome (list StackVisit) := foreachStack stop a [].

(** ** Paths *)

(** The loop over the fields: the argument with the name, and its offset. *)
Fixpoint find_field (elem : string) (i : Z) (args : list Arg) (fields : list Field) (overlayField offset : Z) : outcome (option (Arg * Z)) :=
  match args with
  | [] => Ret None
  | buf :: args =>
      let offset := if decide (i = overlayField) then 0 else offset in
      fld ← index fields i;
      if decide (elem = FieldName fld) then Ret (Some (buf, offset))
      else s ← ArgSize typeRefs buf; find_field elem (i + 1) args fields overlayField (offset +u s)
  end.
(** The loop over the parents: the one with the name and those above it. *)
Fixpoint find_parent_named (elem : string) (parents : list Arg) : outcome (option (Arg * list Arg)) :=
  match parents with
  | [] => Ret None
  | buf :: parents =>
      t ← TypeOf typeRefs buf;
      if decide (elem = TemplateName t) then Ret (Some (buf, parents)) else find_parent_named elem parents
  end.
(** findFieldStruct: where the search goes on below an argument. *)
Definition field_struct (buf : option Arg) : outcome (list Arg * list Field * Z) :=
  match buf with
  | Some (GroupArg c inner) =>
      t ← TypeOf typeRefs (GroupArg c inner);
      match t with StructType _ fields _ overlay => Ret (inner, fields, overlay) | _ => Panic end
  | Some (UnionArg _ _ _ _) => Ret ([], [], 0)
  | _ => Panic
  end.
Fixpoint findArg (path : list string) (args : list Arg) (fields : list Field) (parents : list Arg) (overlayField : Z) : outcome foundArg :=
  match path with
  | [] => Panic
  | elem :: path =>
      (* findFieldStruct, or the argument itself at the end of the path *)
      let below (buf : option Arg) (parents : list Arg) (offset : Z) : outcome foundArg :=
        match path with
        | [] => Ret (mkFound buf offset false)
        | _ => '(inner, fields, overlay) ← field_struct buf; findArg path inner fields parents overlay
        end in
      r ← find_field elem 0 args fields overlayField 0;
      match r with
      | Some (buf, offset) =>
          _ ← TypeOf typeRefs buf;
          if decide (ref (common buf) = any_ptrPtr any ∨ ref (common buf) = any_ptr64 any) then Ret (mkFound (Some buf) offset true)
          else
            inner ← InnerArg typeRefs buf;
            match inner with
            | None => Ret (mkFound None offset false)
            | Some buf => below (Some buf) parents offset
            end
      | None =>
          if decide (elem = ParentRef) then below (head parents) (tail parents) noOffset
          else
            r ← find_parent_named elem parents;
            match r with
            | Some (buf, parents) => below (Some buf) parents noOffset
            | None => Panic
            end
      end
  end.

(** ** Sizes *)

(** Division of uint64; by zero it panics. *)
Definition div64 (x y : Z) : outcome Z := if decide (y = 0) then Panic else Ret (x / y).
Definition computeSize (arg : option Arg) (offset BitSize : Z) (Offset : bool) : outcome Z :=
  if Offset then (if decide (offset = noOffset) then Panic else div64 (offset *u 8) BitSize)
  else
    match arg with
    | None => Ret 0
    | Some arg =>
        let bitSize := if decide (BitSize = 0) then 8 else BitSize in
        t ← TypeOf typeRefs arg;
        match t with
        | VmaType _ _ _ => match arg with PointerArg _ _ vma _ => div64 (vma *u 8) bitSize | _ => Panic end
        | ArrayType _ _ _ _ _ =>
            match arg with
            | GroupArg _ inner =>
                if decide (BitSize ≠ 0) then s ← ArgSize typeRefs arg; div64 (s *u 8) bitSize else Ret (len inner)
            | _ => Panic
            end
        | _ => s ← ArgSize typeRefs arg; div64 (s *u 8) bitSize
        end
    end.

(** The length fields still to be computed ([None]: all) and the writes. *)
Record size_state := mkSizeState { ss_autos : option (gset argid); ss_writes : gmap argid Z }.

(** [dst] has the length type with [BitSize] and [Offset]. *)
Definition assignSize (dst : argid) (BitSize : Z) (Offset : bool) (path : list string) (args : list Arg) (fields : list Field)
    (parents : list Arg) (overlayField : Z) (s : size_state) : outcome size_state :=
  found ← findArg path args fields parents overlayField;
  if fa_isAnyPtr found then Ret s
  else
    v ← computeSize (fa_arg found) (fa_offset found) BitSize Offset;
    Ret (mkSizeState (ss_autos s) (<[dst := v]> (ss_writes s))).
Definition assignArgSize (arg : Arg) (args : list Arg) (fields : list Field) (parents syscallArgs : list Arg) (syscallFields : list Field)
    (overlayField : Z) (s : size_state) : outcome size_state :=
  inner ← InnerArg typeRefs arg;
  match inner with
  | None => Ret s
  | Some arg =>
      t ← TypeOf typeRefs arg;
      match t with
      | LenType _ BitSize Offset Path =>
          let assign (s : size_state) : outcome size_state :=
            match arg with
            | ConstArg c _ =>
                p0 ← index Path 0;
                if decide (p0 = SyscallRef) then assignSize (arg_id c) BitSize Offset (tail Path) syscallArgs syscallFields parents 0 s
                else assignSize (arg_id c) BitSize Offset Path args fields parents overlayField s
            | _ => Panic
            end in
          match ss_autos s with
          | Some autos => if decide (aid arg ∈ autos) then assign (mkSizeState (Some (autos ∖ {[aid arg]})) (ss_writes s)) else Ret s
          | None => assign s
          end
      | _ => Ret s
      end
  end.
Fixpoint assign_each (l args : list Arg) (fields : list Field) (parents syscallArgs : list Arg) (syscallFields : list Field)
    (overlayField : Z) (s : size_state) : outcome size_state :=
  match l with
  | [] => Ret s
  | arg :: l =>
      s ← assignArgSize arg args fields parents syscallArgs syscallFields overlayField s;
      assign_each l args fields parents syscallArgs syscallFields overlayField s
  end.
Definition assignSizes (args : list Arg) (fields : list Field) (parents syscallArgs : list Arg) (syscallFields : list Field)
    (overlayField : Z) (s : size_state) : outcome size_state :=
  assign_each args args fields parents syscallArgs syscallFields overlayField s.
(** The callback of assignSizesArray. *)
Definition assign_visit (args : list Arg) (fields : list Field) (v : StackVisit) (s : size_state) : outcome size_state :=
  t ← TypeOf typeRefs (sv_arg v);
  s ← match t with
      | StructType _ flds _ overlay =>
          match sv_arg v with
          | GroupArg _ inner => assignSizes inner flds (sv_parents v) args fields overlay s
          | _ => Panic
          end
      | _ => Ret s
      end;
  match sv_arg v with
  | UnionArg _ o _ _ => assignArgSize o [] [] (sv_parents v) args fields 0 s
  | _ => Ret s
  end.
Fixpoint assign_visits (args : list Arg) (fields : list Field) (vs : list StackVisit) (s : size_state) : outcome size_state :=
  match vs with
  | [] => Ret s
  | v :: vs => s ← assign_visit args fields v s; assign_visits args fields vs s
  end.
Fixpoint assign_below (l args : list Arg) (fields : list Field) (s : size_state) : outcome size_state :=
  match l with
  | [] => Ret s
  | a :: l =>
      vs ← foreachSubArgWithStack (λ _, false) a;
      s ← assign_visits args fields vs s;
      assign_below l args fields s
  end.
Definition assign_all (args : list Arg) (fields : list Field) (s : size_state) : outcome size_state :=
  s ← assignSizes args fields [] args fields 0 s;
  assign_below args args fields s.

(** The arguments with the writes done. *)
Fixpoint set_vals (w : gmap argid Z) (a : Arg) : Arg :=
  match a with
  | ConstArg c v => ConstArg c (default v (w !! arg_id c))
  | PointerArg c ad vma (Some r) => PointerArg c ad vma (Some (set_vals w r))
  | GroupArg c l => GroupArg c (set_vals w <$> l)
  | UnionArg c o i t => UnionArg c (set_vals w o) i t
  | _ => a
  end.
Definition assignSizesArray (args : list Arg) (fields : list Field) (autos : option (gset argid)) : outcome (list Arg * option (gset argid)) :=
  s ← assign_all args fields (mkSizeState autos ∅);
  Ret (set_vals (ss_writes s) <$> args, ss_autos s).
Definition assignSizesCall (c : Call) : outcome Call :=
  match Meta c with
  | None => Panic
  | Some m =>
      '(args, _) ← assignSizesArray (Args c) (SysArgs m) None;
      Ret (mkCall (Meta c) args (CRet c) (Props c) (Comment c))
  end.
End sizes.

(** ** Maps of arguments that keep their shape *)

Section maps.
Context (typeRefs : list Typ) (any : AnyTypes) (g : Arg → Arg).

(** Identities, values of constants, addresses and what results hold may
    change; types, data and the tree stay. *)
Definition like_node (a : Arg) : Prop :=
  match a with
  | ConstArg _ _ => ∃ c v, g a = ConstArg c v
  | PointerArg _ _ vma r => ∃ c ad, g a = PointerArg c ad vma (g <$> r)
  | DataArg _ d s => ∃ c, g a = DataArg c d s
  | GroupArg _ l => ∃ c, g a = GroupArg c (g <$> l)
  | UnionArg _ o i t => ∃ c, g a = UnionArg c (g o) i t
  | AResult _ => ∃ r, g a = AResult r
  end.
Record keeps_shape : Prop := {
  ks_node : ∀ a, like_node a;
  ks_ref : ∀ a, ref (common (g a)) = ref (common a)
}.
Context (Hg : keeps_shape).

Lemma like_TypeOf a : TypeOf typeRefs (g a) = TypeOf typeRefs a.
Proof. unfold TypeOf. by rewrite (ks_ref Hg). Qed.
Lemma like_ArgSize a : ArgSize typeRefs (g a) = ArgSize typeRefs a.
Proof.
  induction a as [c v|c ad v r Hr|c d s|c l Hl|c o i t Ho|r] using Arg_nested_ind;
    (match goal with |- ArgSize _ (g ?a) = _ => pose proof (ks_node Hg a) as Hn; pose proof (like_TypeOf a) as Ht end); cbn [like_node] in Hn.
  - destruct Hn as (c' & v' & E). rewrite E in Ht |- *. cbn [ArgSize]. by rewrite Ht.
  - destruct Hn as (c' & ad' & E). rewrite E in Ht |- *. cbn [ArgSize]. by rewrite Ht.
  - by destruct Hn as (c' & ->).
  - destruct Hn as (c' & E). rewrite E in Ht |- *. cbn [ArgSize]. rewrite Ht. clear E Ht.
    rewrite length_fmap. destruct (TypeOf typeRefs (GroupArg c l)) as [t|]; [|done]. cbn [mbind outcome_bind]. destruct (negb (Varlen t)); [done|].
    destruct t; try done.
    + generalize 0 as size. induction Hl as [|x l Hx Hl IH]; intros size; [done|]. cbn. rewrite Hx.
      destruct (ArgSize typeRefs x); [|done]. cbn. apply IH.
    + generalize (length l) as n. intros n. match goal with |- ?F 0%nat _ 0 0 = _ => set (go := F) end.
      assert (H : ∀ i size off, go i (g <$> l) size off = go i l size off); [|apply H].
      induction Hl as [|x l Hx Hl IH]; intros i size off; [done|]. cbn. rewrite Hx.
      destruct (ArgSize typeRefs x); [|done]. cbn. apply IH.
  - destruct Hn as (c' & E). rewrite E in Ht |- *. cbn [ArgSize]. by rewrite Ht, Ho.
  - destruct Hn as (r' & E). rewrite E in Ht |- *. cbn [ArgSize]. by rewrite Ht.
Qed.
Lemma like_InnerArg a : InnerArg typeRefs (g a) = (λ x : option Arg, g <$> x) <$> InnerArg typeRefs a.
Proof.
  assert (Hplain : ∀ x, (∀ c ad vma r, x ≠ PointerArg c ad vma r) →
    InnerArg typeRefs x = (t ← TypeOf typeRefs x; match t with PtrType _ _ _ _ => Panic | _ => Ret (Some x) end)).
  { intros [] H; try done. by edestruct H. }
  assert (Hother : ∀ a, (∀ c ad vma r, a ≠ PointerArg c ad vma r) → (∀ c ad vma r, g a ≠ PointerArg c ad vma r) → InnerArg typeRefs (g a) = (λ x : option Arg, g <$> x) <$> InnerArg typeRefs a).
  { intros x H1 H2. rewrite !Hplain by done. rewrite like_TypeOf. by destruct (TypeOf typeRefs x) as [[]|]. }
  induction a as [c v|c ad v r Hr|c d s|c l Hl|c o i t Ho|r] using Arg_nested_ind; (match goal with |- InnerArg _ (g ?a) = _ => pose proof (ks_node Hg a) as Hn; pose proof (like_TypeOf a) as Ht end); cbn [like_node] in Hn.
  - destruct Hn as (c' & v' & E). apply Hother; [done|by rewrite E].
  - destruct Hn as (c' & ad' & E). rewrite E in Ht |- *. destruct r as [x|]; cbn [fmap option_fmap option_map InnerArg] in *; rewrite Ht.
    + destruct (TypeOf typeRefs (PointerArg c ad v (Some x))) as [ty|]; [|done]. cbn [mbind outcome_bind]. destruct ty; cbn; rewrite ?E; done.
    + destruct (TypeOf typeRefs (PointerArg c ad v None)) as [ty|]; [|done]. cbn [mbind outcome_bind]. destruct ty; cbn; rewrite ?E; done.
  - destruct Hn as (c' & E). apply Hother; [done|by rewrite E].
  - destruct Hn as (c' & E). apply Hother; [done|by rewrite E].
  - destruct Hn as (c' & E). apply Hother; [done|by rewrite E].
  - destruct Hn as (r' & E). apply Hother; [done|by rewrite E].
Qed.
Lemma like_find_field elem i args fields ov off :
  find_field typeRefs elem i (g <$> args) fields ov off = (λ r : option (Arg * Z), (λ x : Arg * Z, (g x.1, x.2)) <$> r) <$> find_field typeRefs elem i args fields ov off.
Proof.
  revert i off. induction args as [|a args IH]; intros i off; [done|]. cbn [fmap list_fmap find_field].
  destruct (index fields i) as [fld|]; [|done]. cbn [mbind outcome_bind]. case_decide; [done|]. rewrite like_ArgSize.
  destruct (ArgSize typeRefs a); [|done]. cbn [mbind outcome_bind]. case_decide; apply IH.
Qed.
Lemma like_find_parent elem parents :
  find_parent_named typeRefs elem (g <$> parents) = (λ r : option (Arg * list Arg), (λ x : Arg * list Arg, (g x.1, g <$> x.2)) <$> r) <$> find_parent_named typeRefs elem parents.
Proof.
  induction parents as [|a parents IH]; [done|]. cbn [fmap list_fmap find_parent_named]. rewrite like_TypeOf.
  destruct (TypeOf typeRefs a); [|done]. cbn [mbind outcome_bind]. case_decide; [done|]. apply IH.
Qed.
Lemma like_field_struct buf : field_struct typeRefs (g <$> buf) = (λ x : list Arg * list Field * Z, (g <$> x.1.1, x.1.2, x.2)) <$> field_struct typeRefs buf.
Proof.
  destruct buf as [a|]; [|done]. pose proof (ks_node Hg a) as Hn. pose proof (like_TypeOf a) as Ht. cbn [fmap option_fmap option_map].
  destruct a as [| | |c l| |]; cbn [like_node] in Hn; [destruct Hn as (? & ? & ->)|destruct Hn as (? & ? & ->)|destruct Hn as (? & ->)| |destruct Hn as (? & ->)|destruct Hn as (? & ->)]; try done.
  destruct Hn as (c' & E). rewrite E in Ht |- *. cbn [field_struct]. rewrite Ht. by destruct (TypeOf typeRefs (GroupArg c l)) as [[]|].
Qed.
Definition found_map (x : foundArg) : foundArg := mkFound (g <$> fa_arg x) (fa_offset x) (fa_isAnyPtr x).
Lemma like_findArg path args fields parents ov :
  findArg typeRefs any path (g <$> args) fields (g <$> parents) ov = found_map <$> findArg typeRefs any path args fields parents ov.
Proof.
  revert args fields parents ov. induction path as [|elem path IH]; intros args fields parents ov; [done|]. cbn [findArg].
  assert (Hb : ∀ buf ps off, match path with
      | [] => Ret (mkFound (g <$> buf) off false)
      | _ => '(inner, fields, overlay) ← field_struct typeRefs (g <$> buf); findArg typeRefs any path inner fields (g <$> ps) overlay end
    = found_map <$> match path with
      | [] => Ret (mkFound buf off false)
      | _ => '(inner, fields, overlay) ← field_struct typeRefs buf; findArg typeRefs any path inner fields ps overlay end).
  { intros buf ps off. destruct path as [|e path]; [done|]. rewrite like_field_struct.
    destruct (field_struct typeRefs buf) as [[[inner flds] o]|]; [|done]. cbn [fmap outcome_fmap mbind outcome_bind fst snd]. apply IH. }
  rewrite like_find_field. destruct (find_field typeRefs elem 0 args fields ov 0) as [[[buf off]|]|]; [| |done]; cbn [fmap outcome_fmap mbind outcome_bind option_fmap option_map fst snd].
  - rewrite like_TypeOf, (ks_ref Hg). destruct (TypeOf typeRefs buf); [|done]. cbn [mbind outcome_bind]. case_decide; [done|].
    rewrite like_InnerArg. destruct (InnerArg typeRefs buf) as [[x|]|]; [|done|done]. cbn [fmap outcome_fmap mbind outcome_bind option_fmap option_map]. apply (Hb (Some x)).
  - case_decide; [destruct parents as [|x ps]; [exact (Hb None [] noOffset)|exact (Hb (Some x) ps noOffset)]|]. rewrite like_find_parent. destruct (find_parent_named typeRefs elem parents) as [[[buf ps]|]|]; [|done|done].
    cbn [fmap outcome_fmap mbind outcome_bind option_fmap option_map fst snd]. apply (Hb (Some buf)).
Qed.
Lemma like_computeSize arg off bits o : computeSize typeRefs (g <$> arg) off bits o = computeSize typeRefs arg off bits o.
Proof.
  destruct arg as [a|]; [|done]. pose proof (ks_node Hg a) as Hn. unfold computeSize. cbn [fmap option_fmap option_map]. rewrite like_TypeOf, like_ArgSize.
  destruct o; [done|]. destruct (TypeOf typeRefs a) as [t|]; [|done]. cbn [mbind outcome_bind].
  destruct a as [| | |c l| |]; cbn [like_node] in Hn; [destruct Hn as (? & ? & ->)|destruct Hn as (? & ? & ->)|destruct Hn as (? & ->)|destruct Hn as (? & ->)|destruct Hn as (? & ->)|destruct Hn as (? & ->)];
    destruct t; try done. unfold len. by rewrite length_fmap.
Qed.
Definition visit_map (v : StackVisit) : StackVisit := mkStackVisit (g (sv_arg v)) (g <$> sv_parents v).
Lemma like_foreachStack stop a : ∀ parents,
  foreachStack typeRefs stop (g a) (g <$> parents) = (λ vs : list StackVisit, visit_map <$> vs) <$> foreachStack typeRefs stop a parents.
Proof.
  assert (Hps : ∀ t x ps, push_parent t (g x) (g <$> ps) = g <$> push_parent t x ps) by by intros [].
  assert (Hrun : ∀ x ps (k k' : list Arg → outcome (list StackVisit)), (∀ qs, k' (g <$> qs) = (λ vs : list StackVisit, visit_map <$> vs) <$> k qs) →
    (t ← TypeOf typeRefs (g x); rest ← (if stop t then Ret [] else k' (push_parent t (g x) (g <$> ps))); Ret (mkStackVisit (g x) (push_parent t (g x) (g <$> ps)) :: rest))
    = (λ vs : list StackVisit, visit_map <$> vs) <$> (t ← TypeOf typeRefs x; rest ← (if stop t then Ret [] else k (push_parent t x ps)); Ret (mkStackVisit x (push_parent t x ps) :: rest))).
  { intros x ps k k' Hk. rewrite like_TypeOf. destruct (TypeOf typeRefs x) as [t|]; [|done]. cbn [mbind outcome_bind]. rewrite Hps. destruct (stop t); [done|]. rewrite Hk. by destruct (k (push_parent t x ps)) as [vs|]. }
  induction a as [c v|c ad v r Hr|c d s|c l Hl|c o i t Ho|r] using Arg_nested_ind; intros parents; (match goal with |- foreachStack _ _ (g ?a) _ = _ => pose proof (ks_node Hg a) as Hn; pose proof (Hrun a parents) as H end); cbn [like_node] in Hn.
  - destruct Hn as (c' & v' & E). rewrite E in H |- *. exact (H (λ _, Ret []) (λ _, Ret []) (λ _, eq_refl)).
  - destruct Hn as (c' & ad' & E). rewrite E in H |- *. destruct r as [x|]; [exact (H (foreachStack typeRefs stop x) (foreachStack typeRefs stop (g x)) Hr)|exact (H (λ _, Ret []) (λ _, Ret []) (λ _, eq_refl))].
  - destruct Hn as (c' & E). rewrite E in H |- *. exact (H (λ _, Ret []) (λ _, Ret []) (λ _, eq_refl)).
  - destruct Hn as (c' & E). rewrite E in H |- *. refine (H (λ qs, (fix go (l : list Arg) : outcome (list StackVisit) := match l with [] => Ret [] | x :: l => vs ← foreachStack typeRefs stop x qs; _ ← ArgSize typeRefs x; vs' ← go l; Ret (vs ++ vs') end) l)
      (λ qs, (fix go (l : list Arg) : outcome (list StackVisit) := match l with [] => Ret [] | x :: l => vs ← foreachStack typeRefs stop x qs; _ ← ArgSize typeRefs x; vs' ← go l; Ret (vs ++ vs') end) (g <$> l)) _).
    intros ps. clear H E Hrun Hps.
    induction Hl as [|x l Hx Hl IH]; [done|]. cbn [fmap list_fmap]. cbn match fix beta. rewrite Hx, like_ArgSize.
    destruct (foreachStack typeRefs stop x ps) as [vs|]; [|done]. cbn [fmap outcome_fmap mbind outcome_bind]. destruct (ArgSize typeRefs x); [|done]. cbn [mbind outcome_bind].
    rewrite IH. match goal with |- _ = _ <$> (?k ≫= _) => destruct k as [vs'|]; [|done] end. cbn. by rewrite fmap_app.
  - destruct Hn as (c' & E). rewrite E in H |- *. exact (H (foreachStack typeRefs stop o) (foreachStack typeRefs stop (g o)) Ho).
  - destruct Hn as (r' & E). rewrite E in H |- *. exact (H (λ _, Ret []) (λ _, Ret []) (λ _, eq_refl)).
Qed.
End maps.

(** ** Values of constants do not matter *)

Section values.
Context (typeRefs : list Typ) (any : AnyTypes) (w : gmap argid Z).
Local Abbreviation g := (set_vals w).

Lemma set_vals_common a : common (g a) = common a.
Proof. by destruct a as [| ? ? ? []| | | |]. Qed.
Lemma set_vals_shape : keeps_shape g.
Proof. constructor; [intros [| ? ? ? []| | | |]; cbn; eauto|intros a; by rewrite set_vals_common]. Qed.
Lemma set_vals_assignSize dst bits o path args fields parents ov s :
  assignSize typeRefs any dst bits o path (g <$> args) fields (g <$> parents) ov s = assignSize typeRefs any dst bits o path args fields parents ov s.
Proof.
  unfold assignSize. rewrite (like_findArg typeRefs any g set_vals_shape). destruct (findArg typeRefs any path args fields parents ov) as [x|]; [|done].
  cbn [fmap outcome_fmap mbind outcome_bind found_map fa_isAnyPtr fa_arg fa_offset]. destruct (fa_isAnyPtr x); [done|]. by rewrite (like_computeSize typeRefs g set_vals_shape).
Qed.
Lemma set_vals_assignArgSize arg args fields parents sargs sfields ov s :
  assignArgSize typeRefs any (g arg) (g <$> args) fields (g <$> parents) (g <$> sargs) sfields ov s = assignArgSize typeRefs any arg args fields parents sargs sfields ov s.
Proof.
  unfold assignArgSize. rewrite (like_InnerArg typeRefs g set_vals_shape). destruct (InnerArg typeRefs arg) as [[x|]|]; [|done|done]. cbn [fmap outcome_fmap mbind outcome_bind option_fmap option_map].
  rewrite (like_TypeOf typeRefs g set_vals_shape). destruct (TypeOf typeRefs x) as [t|]; [|done]. cbn [mbind outcome_bind]. destruct t; try done.
  assert (E : aid (g x) = aid x) by (unfold aid; by rewrite set_vals_common). rewrite E.
  assert (Ha : ∀ s, match g x with
      | ConstArg c _ => p0 ← index Path 0; if decide (p0 = SyscallRef) then assignSize typeRefs any (arg_id c) BitSize Offset (tail Path) (g <$> sargs) sfields (g <$> parents) 0 s
                        else assignSize typeRefs any (arg_id c) BitSize Offset Path (g <$> args) fields (g <$> parents) ov s
      | _ => Panic end = match x with
      | ConstArg c _ => p0 ← index Path 0; if decide (p0 = SyscallRef) then assignSize typeRefs any (arg_id c) BitSize Offset (tail Path) sargs sfields parents 0 s
                        else assignSize typeRefs any (arg_id c) BitSize Offset Path args fields parents ov s
      | _ => Panic end).
  { intros s'. destruct x as [| ? ? ? []| | | |]; try done. cbn [set_vals]. destruct (index Path 0); [|done]. cbn [mbind outcome_bind]. case_decide; apply set_vals_assignSize. }
  destruct (ss_autos s); [case_decide; [|done]|]; apply Ha.
Qed.
Lemma set_vals_assign_each l args fields parents sargs sfields ov s :
  assign_each typeRefs any (g <$> l) (g <$> args) fields (g <$> parents) (g <$> sargs) sfields ov s = assign_each typeRefs any l args fields parents sargs sfields ov s.
Proof.
  revert s. induction l as [|a l IH]; intros s; [done|]. cbn [fmap list_fmap assign_each]. rewrite set_vals_assignArgSize.
  destruct (assignArgSize _ _ a _ _ _ _ _ _ s); [|done]. apply IH.
Qed.
Lemma set_vals_assign_visit args fields v s : assign_visit typeRefs any (g <$> args) fields (visit_map g v) s = assign_visit typeRefs any args fields v s.
Proof.
  destruct v as [a ps]. unfold assign_visit, visit_map. cbn [sv_arg sv_parents]. rewrite (like_TypeOf typeRefs g set_vals_shape). destruct (TypeOf typeRefs a) as [t|]; [|done].
  cbn [mbind outcome_bind].
  assert (E : match t with
    | StructType _ flds _ overlay => match g a with GroupArg _ inner => assignSizes typeRefs any inner flds (g <$> ps) (g <$> args) fields overlay s | _ => Panic end
    | _ => Ret s end = match t with
    | StructType _ flds _ overlay => match a with GroupArg _ inner => assignSizes typeRefs any inner flds ps args fields overlay s | _ => Panic end
    | _ => Ret s end).
  { destruct t; try done. destruct a as [| ? ? ? []| | | |]; try done. apply set_vals_assign_each. }
  rewrite E. match goal with |- (?k ≫= _) = _ => destruct k as [s'|]; [|done] end. cbn [mbind outcome_bind].
  destruct a as [| ? ? ? []| | | |]; try done. cbn [set_vals]. apply (set_vals_assignArgSize _ []).
Qed.
Lemma set_vals_assign_all args fields s : assign_all typeRefs any (g <$> args) fields s = assign_all typeRefs any args fields s.
Proof.
  unfold assign_all, assignSizes. rewrite (set_vals_assign_each args args fields []). destruct (assign_each _ _ args args fields [] args fields 0 s) as [s1|]; [|done].
  cbn [mbind outcome_bind].
  assert (H : ∀ l s, assign_below typeRefs any (g <$> l) (g <$> args) fields s = assign_below typeRefs any l args fields s); [|apply H].
  induction l as [|a l IH]; intros s2; [done|]. cbn [fmap list_fmap assign_below]. unfold foreachSubArgWithStack.
  rewrite (like_foreachStack typeRefs g set_vals_shape _ a []). destruct (foreachStack typeRefs _ a []) as [vs|]; [|done]. cbn [fmap outcome_fmap mbind outcome_bind].
  assert (Hv : ∀ s, assign_visits typeRefs any (g <$> args) fields (visit_map g <$> vs) s = assign_visits typeRefs any args fields vs s).
  { clear. induction vs as [|v vs IH]; intros s; [done|]. cbn [fmap list_fmap assign_visits]. rewrite set_vals_assign_visit.
    destruct (assign_visit _ _ args fields v s); [apply IH|done]. }
  setoid_rewrite Hv. destruct (assign_visits _ _ args fields vs s2); [apply IH|done].
Qed.
Lemma set_vals_idem a : g (g a) = g a.
Proof.
  induction a as [c v|c ad v r Hr|c d s|c l Hl|c o i t Ho|r] using Arg_nested_ind; cbn [set_vals]; try done.
  - by destruct (w !! arg_id c).
  - destruct r as [x|]; [|done]. cbn [set_vals]. cbn in Hr. by rewrite Hr.
  - f_equal. rewrite <-list_fmap_compose. apply list_fmap_ext. intros i x Hx%list_elem_of_lookup_2. rewrite Forall_forall in Hl. by apply Hl.
  - by rewrite Ho.
Qed.
End values.

(** ** Where length fields are *)

(** An argument with the arguments its paths start from. *)
Record position := mkPos { ps_arg : Arg; ps_args : list Arg; ps_fields : list Field; ps_parents : list Arg; ps_overlay : Z }.

Section positions.
Context (typeRefs : list Typ) (any : AnyTypes).

Definition visit_positions (v : StackVisit) : list position :=
  match TypeOf typeRefs (sv_arg v), sv_arg v with
  | Ret (StructType _ flds _ ov), GroupArg _ inner => (λ a, mkPos a inner flds (sv_parents v) ov) <$> inner
  | _, UnionArg _ o _ _ => [mkPos o [] [] (sv_parents v) 0]
  | _, _ => []
  end.
Fixpoint below_positions (l : list Arg) : outcome (list position) :=
  match l with
  | [] => Ret []
  | a :: l => vs ← foreachSubArgWithStack typeRefs (λ _, false) a; ps ← below_positions l; Ret (concat (visit_positions <$> vs) ++ ps)
  end.
(** Call arguments, fields of structs and options of unions. *)
Definition len_positions (args : list Arg) (fields : list Field) : outcome (list position) :=
  ps ← below_positions args; Ret (((λ a, mkPos a args fields [] 0) <$> args) ++ ps).

(** The length field an argument is or points to: identity, value, type. *)
Definition len_const (a : Arg) : option (argid * Z * (Z * bool * list string)) :=
  match InnerArg typeRefs a with
  | Ret (Some (ConstArg c v)) =>
      match TypeOf typeRefs (ConstArg c v) with Ret (LenType _ b o p) => Some (arg_id c, v, (b, o, p)) | _ => None end
  | _ => None
  end.
Definition len_id (a : Arg) : option argid := (λ x : argid * Z * (Z * bool * list string), x.1.1) <$> len_const a.
Definition pos_found (sargs : list Arg) (sfields : list Field) (p : position) (path : list string) : outcome foundArg :=
  p0 ← index path 0;
  if decide (p0 = SyscallRef) then findArg typeRefs any (tail path) sargs sfields (ps_parents p) 0
  else findArg typeRefs any path (ps_args p) (ps_fields p) (ps_parents p) (ps_overlay p).
(** What is written there, if anything. *)
Definition pos_write (sargs : list Arg) (sfields : list Field) (p : position) : outcome (option (argid * Z)) :=
  match len_const (ps_arg p) with
  | None => Ret None
  | Some (i, _, (b, o, path)) =>
      f ← pos_found sargs sfields p path;
      if fa_isAnyPtr f then Ret None else v ← computeSize typeRefs (fa_arg f) (fa_offset f) b o; Ret (Some (i, v))
  end.

Section run.
Context (sargs : list Arg) (sfields : list Field).
Definition write_to (s : size_state) (wr : option (argid * Z)) : size_state :=
  match wr with Some (i, v) => mkSizeState (ss_autos s) (<[i := v]> (ss_writes s)) | None => s end.
Definition assign_pos (p : position) (s : size_state) : outcome size_state :=
  assignArgSize typeRefs any (ps_arg p) (ps_args p) (ps_fields p) (ps_parents p) sargs sfields (ps_overlay p) s.
Lemma assign_pos_write p s s' : ss_autos s = None → assign_pos p s = Ret s' →
  ∃ wr, pos_write sargs sfields p = Ret wr ∧ s' = write_to s wr.
Proof.
  intros Hs. unfold assign_pos, assignArgSize, pos_write, len_const, pos_found. destruct (InnerArg typeRefs (ps_arg p)) as [[a|]|]; [|intros [= <-]; by exists None|done].
  cbn [mbind outcome_bind]. destruct (TypeOf typeRefs a) as [t|] eqn:Et; [|done]. cbn [mbind outcome_bind]. rewrite Hs.
  destruct t; try (intros [= <-]; exists None; split; [|done]; destruct a; try done; rewrite Et; done).
  destruct a as [ca v| | | | |]; try done. rewrite Et. destruct (index Path 0) as [p0|]; [|done]. cbn [mbind outcome_bind]. unfold assignSize. case_decide.
  all: match goal with |- context [findArg typeRefs any ?x1 ?x2 ?x3 ?x4 ?x5] => destruct (findArg typeRefs any x1 x2 x3 x4 x5) as [x|]; [|done] end; cbn [mbind outcome_bind].
  all: destruct (fa_isAnyPtr x); [intros [= <-]; by exists None|]; destruct (computeSize _ _ _ _ _) as [y|]; [|done]; intros [= <-]; by eexists.
Qed.
Fixpoint assign_positions (l : list position) (s : size_state) : outcome size_state :=
  match l with
  | [] => Ret s
  | p :: l => s ← assign_pos p s; assign_positions l s
  end.
Lemma assign_positions_app l k s : assign_positions (l ++ k) s = (s ← assign_positions l s; assign_positions k s).
Proof. revert s. induction l as [|p l IH]; intros s; [done|]. cbn. destruct (assign_pos p s); [apply IH|done]. Qed.
Lemma assign_each_positions l args fields parents ov s :
  assign_each typeRefs any l args fields parents sargs sfields ov s = assign_positions ((λ a, mkPos a args fields parents ov) <$> l) s.
Proof.
  revert s. induction l as [|a l IH]; intros s; [done|]. cbn [assign_each fmap list_fmap assign_positions].
  change (assign_pos (mkPos a args fields parents ov) s) with (assignArgSize typeRefs any a args fields parents sargs sfields ov s).
  destruct (assignArgSize _ _ _ _ _ _ _ _ _ s); [apply IH|done].
Qed.
Lemma assign_visits_positions vs s s' : assign_visits typeRefs any sargs sfields vs s = Ret s' → assign_positions (concat (visit_positions <$> vs)) s = Ret s'.
Proof.
  revert s. induction vs as [|v vs IH]; intros s; [done|]. cbn [assign_visits fmap list_fmap concat]. rewrite assign_positions_app.
  assert (H : ∀ s1, assign_visit typeRefs any sargs sfields v s = Ret s1 → assign_positions (visit_positions v) s = Ret s1).
  { clear. unfold assign_visit, visit_positions. intros s1. destruct (TypeOf typeRefs (sv_arg v)) as [t|]; [|done]. cbn [mbind outcome_bind].
    assert (Hone : ∀ p, assign_positions [p] s = assign_pos p s) by (intros p; cbn; by destruct (assign_pos p s)).
    destruct (sv_arg v) as [| | |c l|c o i tr|]; destruct t; cbn [mbind outcome_bind]; try done.
    all: try (unfold assign_pos in Hone; rewrite Hone; done).
    unfold assignSizes. rewrite assign_each_positions. by destruct (assign_positions _ s). }
  destruct (assign_visit typeRefs any sargs sfields v s) as [s1|]; [|done]. cbn [mbind outcome_bind]. rewrite (H s1 eq_refl). apply IH.
Qed.
Lemma assign_below_positions l s s' : assign_below typeRefs any l sargs sfields s = Ret s' → ∃ ps, below_positions l = Ret ps ∧ assign_positions ps s = Ret s'.
Proof.
  revert s. induction l as [|a l IH]; intros s; cbn [assign_below below_positions]; [intros [= ->]; by exists []|].
  destruct (foreachSubArgWithStack _ _ a) as [vs|]; [|done]. cbn [mbind outcome_bind].
  destruct (assign_visits _ _ _ _ vs s) as [s1|] eqn:E1; [|done]. cbn [mbind outcome_bind]. intros (ps & -> & H)%IH. eexists. split; [done|].
  rewrite assign_positions_app, (assign_visits_positions _ _ _ E1). done.
Qed.
Lemma assign_positions_writes l s s' : ss_autos s = None → assign_positions l s = Ret s' → NoDup (omap (λ p, len_id (ps_arg p)) l) →
  ss_autos s' = None
  ∧ (∀ p i v, p ∈ l → pos_write sargs sfields p = Ret (Some (i, v)) → ss_writes s' !! i = Some v)
  ∧ (∀ i v, ss_writes s' !! i = Some v → ss_writes s !! i = Some v ∨ ∃ p, p ∈ l ∧ pos_write sargs sfields p = Ret (Some (i, v)))
  ∧ (∀ i, i ∉ omap (λ p, len_id (ps_arg p)) l → ss_writes s' !! i = ss_writes s !! i)
  ∧ ∀ p, p ∈ l → ∃ wr, pos_write sargs sfields p = Ret wr.
Proof.
  revert s. induction l as [|p l IH]; intros s Hs; cbn [assign_positions].
  - intros [= ->] _. split_and!; [done|by intros ? ? ? ?%not_elem_of_nil|by left|done|by intros ? ?%not_elem_of_nil].
  - destruct (assign_pos p s) as [s1|] eqn:E1; [|done]. cbn [mbind outcome_bind]. intros E Hn. destruct (assign_pos_write p s s1 Hs E1) as (wr & Ew & ->).
    assert (Hid : ∀ i v, wr = Some (i, v) → len_id (ps_arg p) = Some i).
    { intros i v ->. unfold pos_write, len_id in *. destruct (len_const (ps_arg p)) as [[[j u] [[b o] path]]|]; [|done].
      destruct (pos_found sargs sfields p path) as [f|]; [|done]. cbn in Ew. destruct (fa_isAnyPtr f); [done|]. destruct (computeSize _ _ _ _ _); [|done]. by injection Ew as -> ->. }
    assert (Hnl : NoDup (omap (λ p, len_id (ps_arg p)) l) ∧ ∀ i, len_id (ps_arg p) = Some i → i ∉ omap (λ p, len_id (ps_arg p)) l).
    { cbn [omap list_omap] in Hn. destruct (len_id (ps_arg p)) as [i|]; [|split; [done|done]]. apply NoDup_cons in Hn as [H1 H2]. split; [done|]. by intros i' [= <-]. }
    destruct Hnl as [Hnl Hni]. destruct (IH (write_to s wr)) as (Hs' & H1 & H2 & H3 & H4); [by destruct wr as [[]|]|done|done|]. split_and!.
    + done.
    + intros q i v [->|Hq]%elem_of_cons Hw; [|by eapply H1]. rewrite Ew in Hw. injection Hw as ->. rewrite H3 by (apply Hni; by eapply Hid). cbn. by rewrite lookup_insert_eq.
    + intros i v [Hw|(q & Hq & Hw)]%H2; [|right; exists q; split; [by right|done]]. destruct wr as [[j u]|]; [|by left]. cbn in Hw.
      apply lookup_insert_Some in Hw as [[-> ->]|[_ Hw]]; [right; exists p; split; [by left|done]|by left].
    + intros i Hi. assert ((i ∉ omap (λ p, len_id (ps_arg p)) l) ∧ len_id (ps_arg p) ≠ Some i) as [Hi1 Hi2].
      { cbn [omap list_omap] in Hi. destruct (len_id (ps_arg p)); [|done]. apply not_elem_of_cons in Hi as [? ?]. split; [done|congruence]. }
      rewrite H3 by done. destruct wr as [[j u]|]; [|done]. cbn. rewrite lookup_insert_ne; [done|]. intros ->. apply Hi2. by eapply Hid.
    + intros q [->|Hq]%elem_of_cons; [by exists wr|by apply H4].
Qed.
End run.

(** *** Each length field is in one place *)

Definition dests (ps : list position) : list argid := omap (λ p, len_id (ps_arg p)) ps.
Lemma dests_app ps qs : dests (ps ++ qs) = dests ps ++ dests qs.
Proof. apply omap_app. Qed.
Lemma dests_of l args fields parents ov : dests ((λ a, mkPos a args fields parents ov) <$> l) = omap len_id l.
Proof. unfold dests. induction l as [|a l IH]; [done|]. cbn. by rewrite IH. Qed.
Lemma InnerArg_const_ids a c v : InnerArg typeRefs a = Ret (Some (ConstArg c v)) → arg_id c ∈ arg_ids a.
Proof.
  induction a as [c' v'|c' ad' v' r Hr|c' d s|c' l Hl|c' o i t Ho|r] using Arg_nested_ind; cbn [InnerArg].
  2:{ destruct (TypeOf typeRefs _) as [t|]; [|done]. cbn [mbind outcome_bind]. destruct r as [x|]; [|by destruct t]. destruct t; try done. intros H.
      cbn [arg_ids]. right. by apply Hr. }
  all: destruct (TypeOf typeRefs _) as [ty|]; [|done]; cbn [mbind outcome_bind]; destruct ty; try done; intros [= <-]; by left.
Qed.
Lemma len_id_elem a i : len_id a = Some i → i ∈ arg_ids a.
Proof.
  unfold len_id, len_const. destruct (InnerArg typeRefs a) as [[x|]|] eqn:E; try done. destruct x as [c v| | | | |]; try done.
  destruct (TypeOf typeRefs (ConstArg c v)) as [[]|]; try done. intros [= <-]. by eapply InnerArg_const_ids.
Qed.
(** Below an argument that is or points to a constant there is nothing else. *)
Lemma const_no_positions a : ∀ i ps vs, len_id a = Some i → foreachStack typeRefs (λ _, false) a ps = Ret vs → concat (visit_positions <$> vs) = [].
Proof.
  assert (Hv : ∀ x ps, (∀ c l, x ≠ GroupArg c l) → (∀ c o j t, x ≠ UnionArg c o j t) → visit_positions (mkStackVisit x ps) = []).
  { intros x ps H1 H2. unfold visit_positions. cbn [sv_arg]. destruct (TypeOf typeRefs x) as [[]|]; destruct x; try done; solve [exfalso; by eapply H1] || (exfalso; by eapply H2). }
  unfold len_id, len_const. induction a as [c v|c ad v r Hr|c d s|c l Hl|c o i t Ho|r] using Arg_nested_ind; intros j ps vs; cbn [InnerArg foreachStack].
  2:{ destruct (TypeOf typeRefs _) as [t|]; [|done]. cbn [mbind outcome_bind]. destruct r as [x|]; [|by destruct t]. destruct t; try done. intros H.
      destruct (foreachStack typeRefs (λ _, false) x _) as [ws|] eqn:E; [|done]. intros [= <-]. cbn [fmap list_fmap concat]. rewrite Hv by done. cbn. by eapply (Hr j). }
  all: destruct (TypeOf typeRefs _) as [ty|]; [|done]; cbn [mbind outcome_bind]; destruct ty; try done; intros H [= <-]; cbn; by rewrite Hv.
Qed.
(** A family of lists below disjoint trees. *)
Lemma NoDup_family {A} (ids : A → list argid) (f : A → option argid) (D : A → list argid) l : NoDup (concat (ids <$> l)) →
  (∀ x, x ∈ l → NoDup (D x) ∧ D x ⊆ ids x ∧ (∀ i, f x = Some i → i ∈ ids x ∧ i ∉ D x)) →
  NoDup (omap f l ++ concat (D <$> l)) ∧ omap f l ++ concat (D <$> l) ⊆ concat (ids <$> l).
Proof.
  induction l as [|x l IH]; intros Hn Hl; [split; [apply NoDup_nil_2|done]|]. cbn [fmap list_fmap concat] in Hn. apply NoDup_app in Hn as (Hn1 & Hd & Hn2).
  destruct (Hl x) as (HD & HDi & Hf); [by left|]. destruct IH as [IHn IHs]; [done|intros y Hy; apply Hl; by right|].
  assert (Hmid : NoDup (omap f l ++ D x ++ concat (D <$> l)) ∧ omap f l ++ D x ++ concat (D <$> l) ⊆ ids x ++ concat (ids <$> l)).
  { assert (E : omap f l ++ D x ++ concat (D <$> l) ≡ₚ D x ++ (omap f l ++ concat (D <$> l))) by solve_Permutation. split.
    - rewrite E. apply NoDup_app. split_and!; [done| |done]. intros i Hi Hi'. apply (Hd i); [by apply HDi|by apply IHs].
    - intros i. rewrite !elem_of_app. intros [Hi|[Hi|Hi]]; [right; apply IHs, elem_of_app; by left|left; by apply HDi|right; apply IHs, elem_of_app; by right]. }
  destruct Hmid as [Hm1 Hm2]. cbn [omap list_omap fmap list_fmap concat]. destruct (f x) as [i|] eqn:Ef; [|done]. destruct (Hf i eq_refl) as [Hi HiD]. split.
  - cbn. apply NoDup_cons. split; [|done]. rewrite !elem_of_app. intros [Hin|[Hin|Hin]]; [|done|]; apply (Hd i Hi), IHs, elem_of_app; [by left|by right].
  - intros j [->|Hj]%elem_of_cons; [apply elem_of_app; by left|by apply Hm2].
Qed.

Definition visit_dests (vs : list StackVisit) : list argid := dests (concat (visit_positions <$> vs)).
Lemma visit_dests_cons v vs : visit_dests (v :: vs) = dests (visit_positions v) ++ visit_dests vs.
Proof. unfold visit_dests. cbn. apply dests_app. Qed.
Lemma visit_dests_app vs ws : visit_dests (vs ++ ws) = visit_dests vs ++ visit_dests ws.
Proof. unfold visit_dests. by rewrite fmap_app, concat_app, dests_app. Qed.
Definition dests_below (a : Arg) (ps : list Arg) : list argid :=
  match foreachStack typeRefs (λ _, false) a ps with Ret vs => visit_dests vs | Panic => [] end.
Lemma len_id_below a i ps : len_id a = Some i → i ∈ arg_ids a ∧ i ∉ dests_below a ps.
Proof.
  intros Hi. split; [by apply len_id_elem|]. unfold dests_below. destruct (foreachStack typeRefs _ a ps) as [vs|] eqn:E; [|apply not_elem_of_nil].
  unfold visit_dests. rewrite (const_no_positions a i ps vs Hi E). apply not_elem_of_nil.
Qed.
Lemma dests_below_NoDup a : ∀ ps, NoDup (arg_ids a) → NoDup (dests_below a ps) ∧ dests_below a ps ⊆ arg_ids a.
Proof.
  assert (Hplain : ∀ x ps', (∀ c l, x ≠ GroupArg c l) → (∀ c o j t, x ≠ UnionArg c o j t) → dests (visit_positions (mkStackVisit x ps')) = []).
  { intros x ps' H1 H2. unfold visit_positions. cbn [sv_arg]. destruct (TypeOf typeRefs x) as [[]|]; destruct x; try done; solve [exfalso; by eapply H1] || (exfalso; by eapply H2). }
  induction a as [c v|c ad v r Hr|c d s|c l Hl|c o i t Ho|r] using Arg_nested_ind; intros ps Hn; unfold dests_below; cbn [foreachStack];
    (destruct (TypeOf typeRefs _) as [ty|] eqn:Ety; [|split; [apply NoDup_nil_2|intros ? []%not_elem_of_nil]]); cbn [mbind outcome_bind].
  1,3,6: rewrite visit_dests_cons, Hplain by done; split; [apply NoDup_nil_2|intros ? []%not_elem_of_nil].
  - destruct r as [x|]; cbn [mbind outcome_bind]; [|rewrite visit_dests_cons, Hplain by done; split; [apply NoDup_nil_2|intros ? []%not_elem_of_nil]].
    cbn [arg_ids] in Hn |- *. apply NoDup_cons in Hn as [_ Hn]. destruct (Hr (push_parent ty (PointerArg c ad v (Some x)) ps) Hn) as [H1 H2]. unfold dests_below in H1, H2.
    destruct (foreachStack typeRefs _ x _) as [vs|]; [|split; [apply NoDup_nil_2|intros ? []%not_elem_of_nil]]. cbn [mbind outcome_bind].
    rewrite visit_dests_cons, Hplain by done. split; [done|]. intros j Hj. right. by apply H2.
  - set (ps' := push_parent ty (GroupArg c l) ps). cbn [arg_ids] in Hn |- *. apply NoDup_cons in Hn as [_ Hn].
    match goal with |- context [(?F l) ≫= _] => set (go := F) end.
    assert (Hgo : ∀ vs, go l = Ret vs → visit_dests vs = concat ((λ x, dests_below x ps') <$> l)).
    { clearbody ps'. clear Hn Hl Ety. subst go. induction l as [|x l IH]; intros vs; cbn match fix beta; [by intros [= <-]|]. cbn [fmap list_fmap concat]. unfold dests_below at 1.
      destruct (foreachStack typeRefs (λ _, false) x ps') as [vs1|]; [|done]. cbn [mbind outcome_bind]. destruct (ArgSize typeRefs x); [|done]. cbn [mbind outcome_bind].
      match goal with |- (?k ≫= _) = _ → _ => destruct k as [vs2|] eqn:E2; [|done] end. intros [= <-]. rewrite visit_dests_app. f_equal. by apply IH. }
    destruct (go l) as [vs|]; [|split; [apply NoDup_nil_2|intros ? []%not_elem_of_nil]]. cbn [mbind outcome_bind]. rewrite visit_dests_cons, (Hgo vs eq_refl).
    assert (Hfam : ∀ f, (∀ x i, f x = Some i → len_id x = Some i) → NoDup (omap f l ++ concat ((λ x, dests_below x ps') <$> l)) ∧ omap f l ++ concat ((λ x, dests_below x ps') <$> l) ⊆ concat (arg_ids <$> l)).
    { intros f Hf. apply NoDup_family; [done|]. intros x Hx. rewrite Forall_forall in Hl. destruct (Hl x Hx ps') as [H1 H2].
      { apply list_elem_of_lookup in Hx as [j Hj]. apply take_drop_middle in Hj. rewrite <-Hj, fmap_app, concat_app in Hn. cbn in Hn. apply NoDup_app in Hn as (_ & _ & Hn). by apply NoDup_app in Hn as (? & _ & _). }
      split_and!; [done|done|]. intros i Hi%Hf. by apply len_id_below. }
    assert (Hnone : omap (λ _ : Arg, @None argid) l = []) by (clear; by induction l).
    assert (H : NoDup (dests (visit_positions (mkStackVisit (GroupArg c l) ps')) ++ concat ((λ x, dests_below x ps') <$> l))
      ∧ dests (visit_positions (mkStackVisit (GroupArg c l) ps')) ++ concat ((λ x, dests_below x ps') <$> l) ⊆ concat (arg_ids <$> l)).
    { unfold visit_positions. cbn [sv_arg]. rewrite Ety. destruct ty; try (cbn [dests omap list_omap]; rewrite <-Hnone at 1; rewrite <-Hnone at 1; by apply (Hfam (λ _, None))).
      rewrite dests_of. by apply Hfam. }
    destruct H as [H1 H2]. split; [done|]. intros j Hj. right. by apply H2.
  - cbn [arg_ids] in Hn |- *. apply NoDup_cons in Hn as [_ Hn]. set (ps' := push_parent ty (UnionArg c o i t) ps). destruct (Ho ps' Hn) as [H1 H2].
    pose proof (λ j, len_id_below o j ps') as Hlen. unfold dests_below in H1, H2, Hlen. destruct (foreachStack typeRefs _ o ps') as [vs|]; [|split; [apply NoDup_nil_2|intros ? []%not_elem_of_nil]].
    cbn [mbind outcome_bind]. rewrite visit_dests_cons.
    assert (Hd : dests (visit_positions (mkStackVisit (UnionArg c o i t) ps')) = option_list (len_id o)).
    { unfold visit_positions. cbn [sv_arg]. rewrite Ety. destruct ty; cbn; by destruct (len_id o). }
    rewrite Hd. destruct (len_id o) as [j|]; cbn.
    + destruct (Hlen j eq_refl) as [Hj1 Hj2]. split; [by apply NoDup_cons|]. intros k [->|Hk]%elem_of_cons; right; [done|by apply H2].
    + split; [done|]. intros k Hk. right. by apply H2.
Qed.
Lemma positions_NoDup args fields ps : NoDup (roots_ids args) → len_positions args fields = Ret ps → NoDup (dests ps).
Proof.
  intros Hn. unfold len_positions. destruct (below_positions args) as [bs|] eqn:E; [|done]. intros [= <-]. rewrite dests_app, dests_of.
  assert (Hb : ∀ l bs, below_positions l = Ret bs → dests bs = concat ((λ a, dests_below a []) <$> l)).
  { clear. induction l as [|a l IH]; intros bs; cbn [below_positions]; [by intros [= <-]|]. cbn [fmap list_fmap concat]. unfold dests_below at 1, foreachSubArgWithStack.
    destruct (foreachStack typeRefs _ a []) as [vs|]; [|done]. cbn [mbind outcome_bind]. destruct (below_positions l) as [ps|]; [|done]. intros [= <-].
    rewrite dests_app. f_equal. by apply IH. }
  rewrite (Hb _ _ E). apply NoDup_family with (ids := arg_ids); [done|]. intros x Hx. destruct (dests_below_NoDup x []) as [H1 H2].
  - unfold roots_ids in Hn. apply list_elem_of_lookup in Hx as [j Hj]. apply take_drop_middle in Hj. rewrite <-Hj, fmap_app, concat_app in Hn. cbn in Hn.
    apply NoDup_app in Hn as (_ & _ & Hn). by apply NoDup_app in Hn as (? & _ & _).
  - split_and!; [done|done|]. intros i. apply len_id_below.
Qed.
End positions.

Section result.
Context (typeRefs : list Typ) (any : AnyTypes) (w : gmap argid Z).
Local Abbreviation g := (set_vals w).
Definition pos_map (p : position) : position := mkPos (g (ps_arg p)) (g <$> ps_args p) (ps_fields p) (g <$> ps_parents p) (ps_overlay p).

Lemma set_vals_visit_positions v : visit_positions typeRefs (visit_map (set_vals w) v) = pos_map <$> visit_positions typeRefs v.
Proof.
  destruct v as [a ps]. unfold visit_positions, visit_map. cbn [sv_arg sv_parents]. rewrite (like_TypeOf typeRefs _ (set_vals_shape _)).
  destruct (TypeOf typeRefs a) as [[]|]; destruct a as [| ? ? ? []| | | |]; try done; cbn [set_vals]; by rewrite <-!list_fmap_compose.
Qed.
Lemma set_vals_positions args fields : len_positions typeRefs (g <$> args) fields = (λ ps : list position, pos_map <$> ps) <$> len_positions typeRefs args fields.
Proof.
  assert (Hb : ∀ l, below_positions typeRefs (g <$> l) = (λ ps : list position, pos_map <$> ps) <$> below_positions typeRefs l).
  { induction l as [|a l IH]; [done|]. cbn [fmap list_fmap below_positions]. unfold foreachSubArgWithStack. rewrite (like_foreachStack typeRefs (set_vals w) (set_vals_shape w) _ a []).
    destruct (foreachStack typeRefs _ a []) as [vs|]; [|done]. cbn [fmap outcome_fmap mbind outcome_bind]. setoid_rewrite IH.
    destruct (below_positions typeRefs l) as [ps|]; [|done]. cbn [fmap outcome_fmap mbind outcome_bind]. do 2 f_equal. rewrite fmap_app. f_equal.
    clear. induction vs as [|v vs IH]; [done|]. cbn [fmap list_fmap concat]. rewrite fmap_app, set_vals_visit_positions. f_equal. apply IH. }
  unfold len_positions. rewrite Hb. destruct (below_positions typeRefs args) as [ps|]; [|done]. cbn [fmap outcome_fmap mbind outcome_bind]. do 2 f_equal.
  by rewrite fmap_app, <-!list_fmap_compose.
Qed.
Lemma set_vals_len_const a : len_const typeRefs (g a) = (λ x : argid * Z * (Z * bool * list string), (x.1.1, default x.1.2 (w !! x.1.1), x.2)) <$> len_const typeRefs a.
Proof.
  unfold len_const. rewrite (like_InnerArg typeRefs _ (set_vals_shape _)). destruct (InnerArg typeRefs a) as [[x|]|]; try done. destruct x as [c v|? ? ? []| | | |]; try done.
  cbn [fmap outcome_fmap option_fmap option_map set_vals]. change (TypeOf typeRefs (ConstArg c (default v (w !! arg_id c)))) with (TypeOf typeRefs (ConstArg c v)).
  destruct (TypeOf typeRefs (ConstArg c v)) as [[]|]; done.
Qed.
Lemma set_vals_pos_found sargs sfields p path :
  pos_found typeRefs any (g <$> sargs) sfields (pos_map p) path = found_map (set_vals w) <$> pos_found typeRefs any sargs sfields p path.
Proof.
  unfold pos_found. destruct (index path 0) as [p0|]; [|done]. cbn [mbind outcome_bind]. case_decide; apply (like_findArg typeRefs any _ (set_vals_shape _)).
Qed.
End result.

Lemma assign_all_spec typeRefs any args fields s : NoDup (roots_ids args) → assign_all typeRefs any args fields (mkSizeState None ∅) = Ret s →
  ∃ ps, len_positions typeRefs args fields = Ret ps
  ∧ (∀ p i v, p ∈ ps → pos_write typeRefs any args fields p = Ret (Some (i, v)) → ss_writes s !! i = Some v)
  ∧ (∀ i v, ss_writes s !! i = Some v → ∃ p, p ∈ ps ∧ pos_write typeRefs any args fields p = Ret (Some (i, v)))
  ∧ (∀ p, p ∈ ps → ∃ wr, pos_write typeRefs any args fields p = Ret wr).
Proof.
  intros Hn. unfold assign_all, assignSizes. rewrite assign_each_positions. destruct (assign_positions _ _ _ _ _ (mkSizeState None ∅)) as [s1|] eqn:E1; [|done].
  cbn [mbind outcome_bind]. intros (bs & Eb & E2)%assign_below_positions.
  assert (El : len_positions typeRefs args fields = Ret (((λ a, mkPos a args fields [] 0) <$> args) ++ bs)) by (unfold len_positions; by rewrite Eb).
  eexists. split; [exact El|]. pose proof (positions_NoDup typeRefs args fields _ Hn El) as Hd.
  destruct (assign_positions_writes typeRefs any args fields (((λ a, mkPos a args fields [] 0) <$> args) ++ bs) (mkSizeState None ∅) s eq_refl) as (_ & H1 & H2 & _ & H4); [|exact Hd|].
  - rewrite assign_positions_app, E1. exact E2.
  - split_and!; [done| |done]. intros i v [Hw|?]%H2; [|done]. cbn in Hw. by rewrite lookup_empty in Hw.
Qed.


(** ** Witness: [f(buf ptr[buffer], size len[buf], s ptr[{l len[parent]; d buffer}])] *)

Definition sx_common (name : string) (size : Z) (varlen : bool) (r : Ref) : TypeCommon := mkTypeCommon name size 1 false varlen r.
Definition sx_int (name : string) (r : Ref) : IntTypeCommon := mkIntTypeCommon (sx_common name 4 false r) FormatNative 0 0 4 0 ∅.
Definition sx_field (name : string) (r : Ref) : Field := mkField name r false DirIn None.
Definition sx_types : list Typ :=
  [ VmaType (sx_common "vma" 8 false 0) 0 0;
    BufferType (sx_common "buffer" 0 true 1) BufferBlobRand 0 0 "" [] false;
    PtrType (sx_common "ptr" 8 false 2) 1 DirIn false;
    LenType (sx_int "len" 3) 0 false ["buf"%string];
    LenType (sx_int "len" 4) 0 false [ParentRef];
    StructType (sx_common "s" 0 true 5) [sx_field "l" 4; sx_field "d" 1] 0 0;
    PtrType (sx_common "ptr" 8 false 6) 5 DirIn false ].
Definition sx_any : AnyTypes := mkAnyTypes 90 91 92.
Definition sx_meta : Syscall :=
  mkSyscall 0 0 "f" "f" 0 [sx_field "buf" 2; sx_field "size" 3; sx_field "s" 6] None
    (mkSyscallAttrs false 0 0 false false false false false false false false false false "" "").
Definition sx_arg (i : argid) (r : Ref) : ArgCommon := mkArgCommon i r DirIn.
Definition sx_call (size l : Z) : Call :=
  mkCall (Some sx_meta)
    [ PointerArg (sx_arg 1 2) 0 0 (Some (DataArg (sx_arg 2 1) [1; 2; 3; 4; 5] 0));
      ConstArg (sx_arg 3 3) size;
      PointerArg (sx_arg 4 6) 64 0 (Some (GroupArg (sx_arg 5 5) [ConstArg (sx_arg 6 4) l; DataArg (sx_arg 7 1) [6; 7; 8] 0])) ]
    None noProps "".
