(* ===== verification/Conditions.v ===== *)
(** * Conditional fields (src/prog/expr.go)

    A union may choose its option by conditions on other fields of the call.
    The functions here find the unions whose option contradicts them. *)

From S2P Require Import Prelude GoStrings Prog ForeachArg ArgGraph RemoveCall Sizes.

Section conditions.
Context (typeRefs : list Typ) (any : AnyTypes).

(** What an [ArgFinder] answers; [FoundArg None] is nil. *)
Inductive finding := SquashedArgFound | FoundArg (a : option Arg).
Definition ArgFinder : Type := list string → outcome finding.

(** The value of an expression; [None]: it depends on a squashed argument. *)
Fixpoint Evaluate (finder : ArgFinder) (e : Expression) : outcome (option Z) :=
  match e with
  | BinaryExpression op l r =>
      lv ← Evaluate finder l;
      match lv with
      | None => Ret None
      | Some lv =>
          rv ← Evaluate finder r;
          match rv with
          | None => Ret None
          | Some rv =>
              Ret (Some (match op with
                         | OperatorCompareEq => if decide (lv = rv) then 1 else 0
                         | OperatorCompareNeq => if decide (lv ≠ rv) then 1 else 0
                         | OperatorBinaryAnd => Z.land lv rv
                         | OperatorOr => if decide (lv ≠ 0 ∨ rv ≠ 0) then 1 else 0
                         end))
          end
      end
  | Value v path =>
      if decide (path = []) then Ret (Some v)
      else
        found ← finder path;
        match found with
        | SquashedArgFound => Ret None
        | FoundArg (Some (ConstArg _ v)) => Ret (Some v)
        | FoundArg _ => Panic
        end
  end.
Definition makeArgFinder (parents : list Arg) : ArgFinder := λ path,
  f ← findArg typeRefs any path [] [] parents 0;
  Ret (if fa_isAnyPtr f then SquashedArgFound else FoundArg (fa_arg f)).

Definition isConditional (fields : list Field) : outcome bool :=
  f ← index fields 0; Ret (match Condition f with Some _ => true | None => false end).
(** Whether the option may be chosen, and whether that is known. *)
Definition checkUnionArg (idx : Z) (fields : list Field) (finder : ArgFinder) : outcome (bool * bool) :=
  f ← index fields idx;
  match Condition f with
  | None => Ret (true, true)
  | Some e => v ← Evaluate finder e; Ret (match v with None => (true, false) | Some v => (bool_decide (v ≠ 0), true) end)
  end.
Fixpoint matching_from (n : nat) (i : Z) (fields : list Field) (finder : ArgFinder) : outcome (list Z) :=
  match n with
  | O => Ret []
  | S n =>
      '(ok, _) ← checkUnionArg i fields finder;
      rest ← matching_from n (i + 1) fields finder;
      Ret (if (ok : bool) then i :: rest else rest)
  end.
Definition matchingUnionArgs (fields : list Field) (finder : ArgFinder) : outcome (list Z) :=
  matching_from (length fields) 0 fields finder.

(** A union the callback of forEachStaleUnion is called with, its type and the
    options whose conditions hold. *)
Record stale_union := mkStale {
  st_id : argid; st_name : string; st_index : Z; st_transient : bool; st_ok : list Z; st_arg : Arg; st_type : Typ
}.
Definition stale_visit (v : StackVisit) : outcome (option stale_union) :=
  t ← TypeOf typeRefs (sv_arg v);
  if isAnyPtr any t then Ret None
  else
    match sv_arg v, t with
    | UnionArg c _ idx transient, UnionType tc fields =>
        cond ← isConditional fields;
        if negb cond then Ret None
        else
          let finder := makeArgFinder (sv_parents v) in
          '(ok, calculated) ← checkUnionArg idx fields finder;
          if negb calculated then Ret None
          else if negb transient && ok then Ret None
          else
            matching ← matchingUnionArgs fields finder;
            if decide (matching = []) then Panic else Ret (Some (mkStale (arg_id c) (TypeName tc) idx transient matching (sv_arg v) t))
    | _, _ => Ret None
    end.
Fixpoint stale_visits (vs : list StackVisit) : outcome (list stale_union) :=
  match vs with
  | [] => Ret []
  | v :: vs => s ← stale_visit v; l ← stale_visits vs; Ret (option_list s ++ l)
  end.
Fixpoint stale_args (l : list Arg) : outcome (list stale_union) :=
  match l with
  | [] => Ret []
  | a :: l => vs ← foreachSubArgWithStack typeRefs (isAnyPtr any) a; s ← stale_visits vs; rest ← stale_args l; Ret (s ++ rest)
  end.
Definition forEachStaleUnion (c : Call) : outcome (list stale_union) := stale_args (Args c).
(** The last violation is reported. *)
Definition checkConditions (c : Call) (ignoreTransient : bool) : outcome (option stale_union) :=
  l ← forEachStaleUnion c;
  Ret (last (filter (λ s, ignoreTransient && st_transient s = false) l)).

(** ** What the check means *)

Lemma stale_visits_nil vs v : stale_visits vs = Ret [] → v ∈ vs → stale_visit v = Ret None.
Proof.
  induction vs as [|w vs IH]; [by intros _ ?%not_elem_of_nil|]. cbn [stale_visits]. destruct (stale_visit w) as [s|] eqn:Ew; [|done]. cbn [mbind outcome_bind].
  destruct (stale_visits vs) as [l|]; [|done]. intros [= E] [->|Hv]%elem_of_cons; [by destruct s|]. apply IH; [|done]. by destruct s; destruct l.
Qed.
Lemma stale_args_nil l a vs v : stale_args l = Ret [] → a ∈ l → foreachSubArgWithStack typeRefs (isAnyPtr any) a = Ret vs → v ∈ vs → stale_visit v = Ret None.
Proof.
  induction l as [|b l IH]; [by intros _ ?%not_elem_of_nil|]. cbn [stale_args]. destruct (foreachSubArgWithStack typeRefs (isAnyPtr any) b) as [ws|] eqn:Eb; [|done]. cbn [mbind outcome_bind].
  destruct (stale_visits ws) as [s|] eqn:Es; [|done]. cbn [mbind outcome_bind]. destruct (stale_args l) as [r|]; [|done]. intros [= E]. apply app_nil in E as [-> ->].
  intros [->|Ha]%elem_of_cons Ea Hv; [|by apply IH]. rewrite Eb in Ea. injection Ea as ->. by eapply stale_visits_nil.
Qed.
(** When the check passes, every conditional union outside of squashed
    arguments whose condition can be evaluated has an option whose condition
    holds, and is not left to be patched. *)
Lemma checkConditions_sound c a vs v k o idx tr tc fields ok :
  checkConditions c false = Ret None → a ∈ Args c → foreachSubArgWithStack typeRefs (isAnyPtr any) a = Ret vs → v ∈ vs →
  sv_arg v = UnionArg k o idx tr → TypeOf typeRefs (sv_arg v) = Ret (UnionType tc fields) → isConditional fields = Ret true →
  checkUnionArg idx fields (makeArgFinder (sv_parents v)) = Ret (ok, true) → ok = true ∧ tr = false.
Proof.
  unfold checkConditions, forEachStaleUnion. destruct (stale_args (Args c)) as [l|] eqn:El; [|done]. cbn [mbind outcome_bind]. intros [= Hl] Ha Ea Hv Esv Et Ec Ek.
  assert (l = []) as ->.
  { destruct l as [|s l]; [done|]. apply last_None in Hl. rewrite filter_cons, decide_True in Hl by done. done. }
  pose proof (stale_args_nil _ _ _ _ El Ha Ea Hv) as H. unfold stale_visit in H. rewrite Et in H. cbn [mbind outcome_bind isAnyPtr] in H. rewrite Esv, Ec in H. cbn [mbind outcome_bind negb] in H.
  rewrite Ek in H. cbn [mbind outcome_bind negb] in H. destruct tr, ok; cbn in H; try done.
  all: destruct (matchingUnionArgs fields _) as [m|]; [|done]; cbn in H; case_decide; done.
Qed.
End conditions.

(** ** The search depends on the shape and the constants only *)

Section same_conditions.
Context (typeRefs : list Typ) (any : AnyTypes) (g : Arg → Arg) (Hg : keeps_shape g).
Context (Hconst : ∀ c v, ∃ c', g (ConstArg c v) = ConstArg c' v).
Local Abbreviation finder := (makeArgFinder typeRefs any).

Lemma like_Evaluate e parents : Evaluate (finder (g <$> parents)) e = Evaluate (finder parents) e.
Proof.
  induction e as [op l IHl r IHr|v path]; cbn [Evaluate]; [by rewrite IHl, IHr|]. destruct path as [|x path]; [done|]. unfold makeArgFinder.
  rewrite (like_findArg typeRefs any g Hg _ [] [] parents 0 : findArg typeRefs any (x :: path) [] [] (g <$> parents) 0 = _).
  destruct (findArg typeRefs any (x :: path) [] [] parents 0) as [y|]; [|done]. cbn [fmap outcome_fmap mbind outcome_bind found_map fa_isAnyPtr fa_arg]. destruct (fa_isAnyPtr y); [done|].
  destruct (fa_arg y) as [a|]; [|done]. cbn [fmap option_fmap option_map]. pose proof (ks_node g Hg a) as Hn.
  destruct a as [c w| | | | |]; cbn [like_node] in Hn; [destruct (Hconst c w) as [? ->]|destruct Hn as (? & ? & ->)|destruct Hn as (? & ->)..]; done.
Qed.
Lemma like_checkUnionArg idx fields parents : checkUnionArg idx fields (finder (g <$> parents)) = checkUnionArg idx fields (finder parents).
Proof. unfold checkUnionArg. destruct (index fields idx) as [f|]; [|done]. cbn [mbind outcome_bind]. destruct (Condition f); [|done]. by rewrite like_Evaluate. Qed.
Lemma like_matching n i fields parents : matching_from n i fields (finder (g <$> parents)) = matching_from n i fields (finder parents).
Proof. revert i. induction n as [|n IH]; intros i; [done|]. cbn [matching_from]. by rewrite like_checkUnionArg, IH. Qed.
Definition stale_map (s : stale_union) : stale_union := mkStale (aid (g (st_arg s))) (st_name s) (st_index s) (st_transient s) (st_ok s) (g (st_arg s)) (st_type s).
Lemma like_stale_visit v : stale_visit typeRefs any (visit_map g v) = (λ s : option stale_union, stale_map <$> s) <$> stale_visit typeRefs any v.
Proof.
  destruct v as [a ps]. unfold stale_visit, visit_map. cbn [sv_arg sv_parents]. rewrite (like_TypeOf typeRefs g Hg). destruct (TypeOf typeRefs a) as [t|]; [|done]. cbn [mbind outcome_bind]. destruct (isAnyPtr any t); [done|].
  pose proof (ks_node g Hg a) as Hn. destruct a as [| | | |c o i tr|]; cbn [like_node] in Hn; [destruct Hn as (? & ? & ->)|destruct Hn as (? & ? & ->)|destruct Hn as (? & ->)|destruct Hn as (? & ->)| |destruct Hn as (? & ->)]; try done.
  destruct Hn as (c' & E). rewrite E. destruct t as [| | | | | | | | | | | |tc fields]; try done. destruct (isConditional fields) as [cond|]; [|done]. cbn [mbind outcome_bind]. destruct cond; [|done]. cbn [negb].
  rewrite like_checkUnionArg. destruct (checkUnionArg i fields (finder ps)) as [[ok calc]|]; [|done]. cbn [mbind outcome_bind]. destruct calc; [|done]. cbn [negb]. destruct (negb tr && ok); [done|].
  unfold matchingUnionArgs. rewrite like_matching. destruct (matching_from (length fields) 0 fields (finder ps)) as [l|]; [|done]. cbn [mbind outcome_bind]. case_decide; [done|]. cbn. unfold stale_map. cbn [st_arg st_name st_index st_transient st_ok st_type]. by rewrite E.
Qed.
Lemma like_stale_visits vs : stale_visits typeRefs any (visit_map g <$> vs) = (λ l : list stale_union, stale_map <$> l) <$> stale_visits typeRefs any vs.
Proof.
  induction vs as [|v vs IH]; [done|]. cbn [fmap list_fmap stale_visits]. rewrite like_stale_visit. destruct (stale_visit typeRefs any v) as [s|]; [|done]. cbn [fmap outcome_fmap mbind outcome_bind].
  rewrite IH. destruct (stale_visits typeRefs any vs) as [l|]; [|done]. cbn. rewrite fmap_app. by destruct s.
Qed.
Lemma like_stale_args l : stale_args typeRefs any (g <$> l) = (λ l : list stale_union, stale_map <$> l) <$> stale_args typeRefs any l.
Proof.
  induction l as [|a l IH]; [done|]. cbn [fmap list_fmap stale_args]. unfold foreachSubArgWithStack. rewrite (like_foreachStack typeRefs g Hg _ a [] : foreachStack typeRefs _ (g a) [] = _).
  destruct (foreachStack typeRefs (isAnyPtr any) a []) as [vs|]; [|done]. cbn [fmap outcome_fmap mbind outcome_bind]. rewrite like_stale_visits. destruct (stale_visits typeRefs any vs) as [s|]; [|done]. cbn [fmap outcome_fmap mbind outcome_bind].
  rewrite IH. destruct (stale_args typeRefs any l) as [r|]; [|done]. cbn. by rewrite fmap_app.
Qed.
Lemma like_checkConditions c c' ig : Args c' = g <$> Args c → checkConditions typeRefs any c ig = Ret None → checkConditions typeRefs any c' ig = Ret None.
Proof.
  intros Ha. unfold checkConditions, forEachStaleUnion. rewrite Ha, like_stale_args. destruct (stale_args typeRefs any (Args c)) as [l|]; [|done]. cbn [fmap outcome_fmap mbind outcome_bind]. intros [= H%last_None]. do 2 f_equal. apply last_None.
  induction l as [|s l IH]; [done|]. cbn [fmap list_fmap]. rewrite filter_cons in H |- *. change (st_transient (stale_map s)) with (st_transient s). case_decide; [done|]. by apply IH.
Qed.
End same_conditions.
