(* ===== verification/Defaults.v ===== *)
(** * Default arguments (src/prog/types.go: DefaultArg, isDefaultArg;
    src/prog/prog.go: the Make functions)

    The default argument of a type is built by recursion over the type table,
    so it carries fuel; new arguments get consecutive identities. *)

From S2P Require Import Prelude GoStrings Prog ForeachArg ArgGraph RemoveCall Sizes Conditions.

(** The default value of integer-like types. *)
Definition const_default (t : Typ) : option Z :=
  match t with
  | ConstType _ v _ => Some v
  | IntType _ _ _ _ _ | FlagsType _ _ _ | LenType _ _ _ _ | CsumType _ _ _ _ => Some 0
  | ProcType _ _ _ => Some procDefaultValue
  | _ => None
  end.
(** The index and whether it is a correct default. *)
Definition defaultField (fields : list Field) : outcome (Z * bool) :=
  cond ← isConditional fields;
  if (cond : bool) then
    f ← index fields (len fields - 1);
    Ret (match Condition f with Some _ => (0, false) | None => (len fields - 1, true) end)
  else Ret (0, true).
Definition fixedInnerSize (t : Typ) : outcome bool :=
  match t with
  | StructType _ _ _ _ => Ret true
  | ArrayType _ _ kind lo hi => Ret (match kind with ArrayRangeLen => bool_decide (lo = hi) | ArrayRandLen => false end)
  | _ => Panic
  end.

Section defaults.
Context (typeRefs : list Typ).

(** ** Making arguments *)

Definition make_common (t : Typ) (dir : Dir) (n : argid) : ArgCommon := mkArgCommon n (self (type_common t)) dir.
Definition MakeConstArg (t : Typ) (dir : Dir) (v : Z) (n : argid) : Arg := ConstArg (make_common t dir n) v.
Definition MakePointerArg (t : Typ) (addr : Z) (data : Arg) (n : argid) : Arg := PointerArg (make_common t DirIn n) addr 0 (Some data).
Definition MakeSpecialPointerArg (t : Typ) (dir : Dir) (idx : Z) (n : argid) : outcome Arg :=
  if decide (maxSpecialPointers ≤ idx) then Panic
  else Ret (PointerArg (make_common t (match t with PtrType _ _ _ _ => DirIn | _ => dir end) n) (u64 (- idx)) 0 None).
Definition MakeDataArg (t : Typ) (dir : Dir) (data : list Z) (n : argid) : outcome Arg :=
  if decide (dir = DirOut) then Panic else Ret (DataArg (make_common t dir n) data 0).
Definition MakeOutDataArg (t : Typ) (dir : Dir) (size : Z) (n : argid) : outcome Arg :=
  if decide (dir ≠ DirOut) then Panic else Ret (DataArg (make_common t dir n) [] size).
Definition MakeGroupArg (t : Typ) (dir : Dir) (inner : list Arg) (n : argid) : Arg := GroupArg (make_common t dir n) inner.
Definition MakeUnionArg (t : Typ) (dir : Dir) (opt : Arg) (idx : Z) (transient : bool) (n : argid) : Arg :=
  UnionArg (make_common t dir n) opt idx transient.
(** MakeResultArg without a reference. *)
Definition MakeResultArg (t : Typ) (dir : Dir) (v : Z) (n : argid) : Arg := AResult (mkResultArg (make_common t dir n) None 0 0 v ∅).

(** ** The default argument *)

(** An argument and the next identity; [None]: out of fuel. *)
Abbreviation made := (outcome (option (Arg * argid))).
Definition finish (m : outcome Arg) (n : argid) : made := a ← m; Ret (Some (a, n + 1)).
Definition cons_made (x : Arg) (r : option (list Arg * argid)) : option (list Arg * argid) :=
  match r with Some (l, n) => Some (x :: l, n) | None => None end.
Section children.
Context (rec : Ref → Dir → argid → made).
Fixpoint default_elems (k : nat) (elem : Ref) (dir : Dir) (n : argid) : outcome (option (list Arg * argid)) :=
  match k with
  | O => Ret (Some ([], n))
  | S k =>
      x ← rec elem dir n;
      match x with
      | None => Ret None
      | Some (x, n) => r ← default_elems k elem dir n; Ret (cons_made x r)
      end
  end.
Fixpoint default_fields (fields : list Field) (dir : Dir) (n : argid) : outcome (option (list Arg * argid)) :=
  match fields with
  | [] => Ret (Some ([], n))
  | f :: fields =>
      x ← rec (FieldType f) (FieldDir f dir) n;
      match x with
      | None => Ret None
      | Some (x, n) => r ← default_fields fields dir n; Ret (cons_made x r)
      end
  end.
End children.
Definition buffer_default (t : Typ) (Values : list string) (dir : Dir) (n : argid) : outcome Arg :=
  if decide (dir = DirOut) then
    sz ← (if Varlen t then Ret 0 else TSize t);
    MakeOutDataArg t dir sz n
  else
    data ← match Values with
           | [v] => Ret (bytes_of v)
           | _ => if Varlen t then Ret [] else s ← TSize t; Ret (replicate (Z.to_nat s) 0)
           end;
    MakeDataArg t dir data n.
Fixpoint DefaultArg (fuel : nat) (r : Ref) (dir : Dir) (n : argid) : made :=
  match fuel with
  | O => Ret None
  | S fuel =>
      t ← index typeRefs r;
      match t with
      | ResourceType _ _ d => finish (v ← ResourceDefault d; Ret (MakeResultArg t dir v n)) n
      | VmaType _ _ _ => finish (MakeSpecialPointerArg t dir 0 n) n
      | BufferType _ _ _ _ _ Values _ => finish (buffer_default t Values dir n) n
      | ArrayType _ elem _ lo _ =>
          fixed ← fixedInnerSize t;
          r ← (if (fixed : bool) then default_elems (DefaultArg fuel) (Z.to_nat lo) elem dir n else Ret (Some ([], n)));
          match r with None => Ret None | Some (l, n) => finish (Ret (MakeGroupArg t dir l n)) n end
      | PtrType _ elem elemDir _ =>
          if TOptional t then finish (MakeSpecialPointerArg t dir 0 n) n
          else
            r ← DefaultArg fuel elem elemDir n;
            match r with None => Ret None | Some (x, n) => finish (Ret (MakePointerArg t 0 x n)) n end
      | StructType _ fields _ _ =>
          r ← default_fields (DefaultArg fuel) fields dir n;
          match r with None => Ret None | Some (l, n) => finish (Ret (MakeGroupArg t dir l n)) n end
      | UnionType _ fields =>
          '(idx, _) ← defaultField fields;
          f ← index fields idx;
          r ← DefaultArg fuel (FieldType f) (FieldDir f dir) n;
          match r with
          | None => Ret None
          | Some (x, n) => finish (cond ← isConditional fields; Ret (MakeUnionArg t dir x idx cond n)) n
          end
      | _ => match const_default t with Some v => finish (Ret (MakeConstArg t dir v n)) n | None => Panic end
      end
  end.

(** ** Recognising default arguments *)

Definition buffer_is_default (t : Typ) (Values : list string) (a : Arg) : outcome bool :=
  match a with
  | DataArg c data _ =>
      sz ← (if Varlen t then Ret 0 else TSize t);
      size ← ArgSize typeRefs a;
      if decide (size ≠ sz) then Ret false
      else if decide (arg_dir c = DirOut) then Ret true
      else Ret (match Values with [v] => bool_decide (data = bytes_of v) | _ => forallb (λ b, bool_decide (b = 0)) data end)
  | _ => Panic
  end.
Definition special_zero (address vma : Z) (res : option Arg) : bool := IsSpecial address vma res && bool_decide (address = 0).
Fixpoint isDefaultArg (a : Arg) : outcome bool :=
  let all := fix all (l : list Arg) : outcome bool :=
    match l with
    | [] => Ret true
    | x :: l => b ← isDefaultArg x; if (b : bool) then all l else Ret false
    end in
  t ← TypeOf typeRefs a;
  match t with
  | ResourceType _ _ d =>
      match a with
      | AResult r =>
          if decide (res_Res r = None ∧ OpDiv r = 0 ∧ OpAdd r = 0 ∧ uses r = ∅) then v ← ResourceDefault d; Ret (bool_decide (res_Val r = v)) else Ret false
      | _ => Panic
      end
  | VmaType _ _ _ => match a with PointerArg _ address vma res => Ret (special_zero address vma res) | _ => Panic end
  | BufferType _ _ _ _ _ Values _ => buffer_is_default t Values a
  | ArrayType _ _ _ _ _ =>
      match a with
      | GroupArg _ inner => fixed ← fixedInnerSize t; if negb fixed && bool_decide (inner ≠ []) then Ret false else all inner
      | _ => Panic
      end
  | PtrType _ _ _ _ =>
      match a with
      | PointerArg _ address vma res =>
          if TOptional t then Ret (special_zero address vma res)
          else if decide (address = 0) then match res with Some x => isDefaultArg x | None => Ret false end else Ret false
      | _ => Panic
      end
  | StructType _ _ _ _ => match a with GroupArg _ inner => all inner | _ => Panic end
  | UnionType _ fields =>
      match a with
      | UnionArg _ o idx _ =>
          '(defIdx, ok) ← defaultField fields;
          if negb ok || bool_decide (idx = defIdx) then isDefaultArg o else Ret false
      | _ => Panic
      end
  | _ => match a with ConstArg _ v => Ret (bool_decide (const_default t = Some v)) | _ => Panic end
  end.
End defaults.

(** ** Default arguments are recognised *)

Section spec.
Context (typeRefs : list Typ) (rank : Ref → nat).

Definition below (r e : Ref) : Prop := e ≠ 0 ∧ (∃ t, index typeRefs e = Ret t) ∧ (rank e < rank r)%nat.
(** Types know themselves, resources have values, a single value of a buffer
    has the size of the type, and default arguments are not infinite: [rank]
    decreases from a type to those its default argument is made of. *)
Definition default_type (r : Ref) (t : Typ) : Prop :=
  self (type_common t) = r ∧
  match t with
  | ResourceType _ _ d => ∃ v, ResValues d !! 0%nat = Some v
  | BufferType c _ _ _ _ Values _ => 0 ≤ TypeSize c ∧ ∀ v, Values = [v] → len (bytes_of v) = if IsVarlen c then 0 else TypeSize c
  | ArrayType _ elem kind lo hi => fixedInnerSize t = Ret true → below r elem
  | PtrType c elem _ _ => IsOptional c = false → below r elem
  | StructType _ fields _ _ => ∀ f, f ∈ fields → below r (FieldType f)
  | UnionType _ fields => ∃ idx ok f, defaultField fields = Ret (idx, ok) ∧ index fields idx = Ret f ∧ below r (FieldType f)
  | _ => True
  end.
Context (Hty : ∀ r t, r ≠ 0 → index typeRefs r = Ret t → default_type r t).

Record made_ok (r : Ref) (n : argid) (a : Arg) (n' : argid) : Prop := {
  mo_next : n < n';
  mo_ref : ref (common a) = r;
  mo_ids : NoDup (arg_ids a) ∧ ∀ i, i ∈ arg_ids a → n ≤ i < n';
  mo_default : isDefaultArg typeRefs a = Ret true
}.
Record made_all (n : argid) (l : list Arg) (n' : argid) : Prop := {
  ma_next : n ≤ n';
  ma_ids : NoDup (roots_ids l) ∧ ∀ i, i ∈ roots_ids l → n ≤ i < n';
  ma_default : ∀ a, a ∈ l → isDefaultArg typeRefs a = Ret true
}.
Lemma made_nil n : made_all n [] n.
Proof. constructor; [lia|split; [apply NoDup_nil_2|by intros ? ?%not_elem_of_nil]|by intros ? ?%not_elem_of_nil]. Qed.
Lemma made_cons r n a n1 l n2 : made_ok r n a n1 → made_all n1 l n2 → made_all n (a :: l) n2.
Proof.
  intros [A1 _ [A2 A3] A4] [B1 [B2 B3] B4]. change (roots_ids (a :: l)) with (arg_ids a ++ roots_ids l) in *. constructor.
  - lia.
  - unfold roots_ids in *. cbn [fmap list_fmap concat]. split; [apply NoDup_app; split_and!; [done| |done]; intros i Hi%A3 Hi2%B3; lia|].
    intros i [Hi%A3|Hi%B3]%elem_of_app; lia.
  - intros x [->|Hx]%elem_of_cons; [done|by apply B4].
Qed.
Definition all_default : list Arg → outcome bool :=
  fix all (l : list Arg) : outcome bool :=
    match l with
    | [] => Ret true
    | x :: l => b ← isDefaultArg typeRefs x; if (b : bool) then all l else Ret false
    end.
Lemma all_default_true l : (∀ a, a ∈ l → isDefaultArg typeRefs a = Ret true) → all_default l = Ret true.
Proof. induction l as [|a l IH]; intros H; [done|]. cbn. rewrite (H a) by (by left). cbn. apply IH. intros x Hx. apply H. by right. Qed.
Lemma made_leaf r n a : aid a = n → arg_ids a = [aid a] → ref (common a) = r → isDefaultArg typeRefs a = Ret true → made_ok r n a (n + 1).
Proof. intros <- E Hr Hd. constructor; [lia|done| |done]. rewrite E. split; [apply NoDup_singleton|]. intros i ->%list_elem_of_singleton. lia. Qed.
Lemma made_node r n a n1 l : aid a = n1 → arg_ids a = aid a :: roots_ids l → ref (common a) = r → isDefaultArg typeRefs a = Ret true →
  made_all n l n1 → made_ok r n a (n1 + 1).
Proof.
  intros <- E Hr Hd [B1 [B2 B3] _]. constructor; [lia|done| |done]. rewrite E. split; [apply NoDup_cons; split; [intros Hi%B3; lia|done]|].
  intros i [->|Hi%B3]%elem_of_cons; lia.
Qed.

Section children.
Context (rec : Ref → Dir → argid → outcome (option (Arg * argid))) (P : Ref → Prop).
Context (Hrec : ∀ e dir n, P e → ∃ a n', rec e dir n = Ret (Some (a, n')) ∧ made_ok e n a n').
Lemma default_elems_spec k elem dir n : P elem → ∃ l n', default_elems rec k elem dir n = Ret (Some (l, n')) ∧ made_all n l n' ∧ length l = k.
Proof.
  intros He. revert n. induction k as [|k IH]; intros n; cbn [default_elems]; [exists [], n; split_and!; [done|apply made_nil|done]|].
  destruct (Hrec elem dir n He) as (a & n1 & -> & Ha). cbn [mbind outcome_bind]. destruct (IH n1) as (l & n2 & -> & Hl & Hk). cbn.
  exists (a :: l), n2. split_and!; [done|by eapply made_cons|cbn; lia].
Qed.
Lemma default_fields_spec fields dir n : (∀ f, f ∈ fields → P (FieldType f)) → ∃ l n', default_fields rec fields dir n = Ret (Some (l, n')) ∧ made_all n l n'.
Proof.
  revert n. induction fields as [|f fields IH]; intros n Hf; cbn [default_fields]; [exists [], n; split; [done|apply made_nil]|].
  destruct (Hrec (FieldType f) (FieldDir f dir) n) as (a & n1 & -> & Ha); [apply Hf; by left|]. cbn [mbind outcome_bind].
  destruct (IH n1) as (l & n2 & -> & Hl); [intros g Hg; apply Hf; by right|]. cbn. exists (a :: l), n2. split; [done|by eapply made_cons].
Qed.
End children.

Lemma TypeOf_made a r t : r ≠ 0 → ref (common a) = r → index typeRefs r = Ret t → TypeOf typeRefs a = Ret t.
Proof. intros Hr E Et. unfold TypeOf. by rewrite E, decide_False. Qed.
Lemma buffer_default_spec r t c k lo hi sub Values nz dir n : r ≠ 0 → index typeRefs r = Ret t → t = BufferType c k lo hi sub Values nz →
  ∃ a, buffer_default t Values dir n = Ret a ∧ made_ok r n a (n + 1).
Proof.
  intros Hr0 Et Hbt. destruct (Hty r t Hr0 Et) as [Hself Hb]. rewrite Hbt in Hb. destruct Hb as [Hsz Hv].
  assert (Hlen : ∀ l : list Z, len l = 0 → l = []) by (intros [] E; [done|unfold len in E; cbn in E; lia]).
  unfold buffer_default. assert (Evl : Varlen t = IsVarlen c) by by subst. assert (Ets : TSize t = if IsVarlen c then Panic else Ret (TypeSize c)) by by subst.
  rewrite Evl, Ets. case_decide as Hd.
  - assert (E : (if IsVarlen c then Ret 0 else if IsVarlen c then Panic else Ret (TypeSize c)) = Ret (if IsVarlen c then 0 else TypeSize c)) by by destruct (IsVarlen c).
    rewrite E. cbn [mbind outcome_bind]. unfold MakeOutDataArg. rewrite decide_False by auto. eexists. split; [done|]. apply made_leaf; [done|done|done|].
    cbn [isDefaultArg]. rewrite (TypeOf_made _ r t) by done. cbn [mbind outcome_bind]. rewrite Hbt. unfold buffer_is_default. rewrite <-Hbt, Evl, Ets, E. cbn [mbind outcome_bind].
    cbn [ArgSize mbind outcome_bind]. rewrite decide_False; [by rewrite decide_True|]. intros Hne. apply Hne. by rewrite decide_True.
  - match goal with |- context [?m ≫= _] => assert (E : ∃ data, m = Ret data ∧ len data = (if IsVarlen c then 0 else TypeSize c)
      ∧ match Values with [v] => data = bytes_of v | _ => forallb (λ b, bool_decide (b = 0)) data = true end) end.
    { assert (Hz : ∃ data, (if IsVarlen c then Ret [] else s ← (if IsVarlen c then Panic else Ret (TypeSize c)); Ret (replicate (Z.to_nat s) 0)) = Ret data
        ∧ len data = (if IsVarlen c then 0 else TypeSize c) ∧ forallb (λ b, bool_decide (b = 0)) data = true).
      { destruct (IsVarlen c); eexists; split_and!; try done; [unfold len; rewrite length_replicate; lia|]. apply forallb_forall. intros x Hx%list_elem_of_In.
        apply elem_of_replicate in Hx as [-> _]. by apply bool_decide_eq_true. }
      destruct Values as [|v [|v2 vs]]; [exact Hz| |exact Hz]. exists (bytes_of v). split_and!; [done|by apply Hv|done]. }
    destruct E as (data & -> & El & Ed). cbn [mbind outcome_bind]. unfold MakeDataArg. rewrite decide_False by done. eexists. split; [done|]. apply made_leaf; [done|done|done|].
    cbn [isDefaultArg]. rewrite (TypeOf_made _ r t) by done. cbn [mbind outcome_bind]. rewrite Hbt. unfold buffer_is_default. rewrite <-Hbt, Evl, Ets.
    assert (E : (if IsVarlen c then Ret 0 else if IsVarlen c then Panic else Ret (TypeSize c)) = Ret (if IsVarlen c then 0 else TypeSize c)) by by destruct (IsVarlen c).
    rewrite E. cbn [mbind outcome_bind ArgSize]. rewrite decide_False.
    + rewrite decide_False by done. destruct Values as [|v [|v2 vs]]; [by rewrite Ed|by rewrite bool_decide_eq_true_2|by rewrite Ed].
    + intros Hne. apply Hne. rewrite <-El. case_decide as Hdata; [by rewrite Hdata|done].
Qed.

Lemma DefaultArg_run fuel r dir n : r ≠ 0 → (∃ t, index typeRefs r = Ret t) → (rank r < fuel)%nat →
  ∃ a n', DefaultArg typeRefs fuel r dir n = Ret (Some (a, n')) ∧ made_ok r n a n'.
Proof.
  revert r dir n. induction fuel as [|fuel IH]; intros r dir n Hr0 [t Et] Hf; [lia|]. cbn [DefaultArg]. rewrite Et. cbn [mbind outcome_bind].
  destruct (Hty r t Hr0 Et) as [Hself Ht].
  assert (Hrec : ∀ e d m, below r e → ∃ a n', DefaultArg typeRefs fuel e d m = Ret (Some (a, n')) ∧ made_ok e m a n').
  { intros e d m (He & Hex & Hrk). apply IH; [done|done|lia]. }
  assert (Hconst : ∀ v, const_default t = Some v → ∃ a n', finish (Ret (MakeConstArg t dir v n)) n = Ret (Some (a, n')) ∧ made_ok r n a n').
  { intros v Hv. eexists _, _. split; [done|]. apply made_leaf; [done|done|done|]. cbn [isDefaultArg MakeConstArg]. rewrite (TypeOf_made _ r t) by done. cbn [mbind outcome_bind].
    destruct t; try done; cbn in Hv |- *; by rewrite bool_decide_eq_true_2. }
  assert (Hspecial : ∀ d' : Dir, (match t with VmaType _ _ _ => True | PtrType c _ _ _ => IsOptional c = true | _ => False end) →
    ∃ a n', finish (MakeSpecialPointerArg t d' 0 n) n = Ret (Some (a, n')) ∧ made_ok r n a n').
  { intros d' Hk. eexists _, _. split; [reflexivity|]. apply made_leaf; [done|done|done|]. cbn [isDefaultArg]. rewrite (TypeOf_made _ r t) by done. cbn [mbind outcome_bind].
    destruct t; try done. unfold TOptional. cbn in Hk |- *. by rewrite Hk. }
  destruct t as [c f d|c v pad|c k b e al|c vals bm|c bs off path|c vs per|c k buf pr|c b e|c k b e sub vals nz|c elem k lo hi|c elem ed sq|c fields al ov|c fields]; try by apply Hconst.
  - destruct Ht as [v Hv]. unfold ResourceDefault, index. rewrite decide_True by lia. change (Z.to_nat 0) with 0%nat. rewrite Hv. eexists _, _. split; [reflexivity|].
    apply made_leaf; [done|done|done|]. cbn [isDefaultArg MakeResultArg]. rewrite (TypeOf_made _ r (ResourceType c f d)) by done. cbn [mbind outcome_bind res_Res OpDiv OpAdd uses res_Val].
    rewrite decide_True by done. unfold ResourceDefault, index. rewrite decide_True by lia. change (Z.to_nat 0) with 0%nat. rewrite Hv. cbn. by rewrite bool_decide_eq_true_2.
  - by apply Hspecial.
  - destruct (buffer_default_spec r _ c k b e sub vals nz dir n Hr0 Et eq_refl) as (a & -> & Ha). eexists _, _. split; [reflexivity|done].
  - cbn [fixedInnerSize mbind outcome_bind]. set (fixed := match k with ArrayRangeLen => bool_decide (lo = hi) | ArrayRandLen => false end).
    assert (H : ∃ l n', (if fixed then default_elems (DefaultArg typeRefs fuel) (Z.to_nat lo) elem dir n else Ret (Some ([], n))) = Ret (Some (l, n')) ∧ made_all n l n' ∧ (fixed = false → l = [])).
    { destruct fixed eqn:Efx; [|exists [], n; split_and!; [done|apply made_nil|done]].
      destruct (default_elems_spec (DefaultArg typeRefs fuel) (below r) Hrec (Z.to_nat lo) elem dir n) as (l & n' & E & Hm & _); [apply Ht; cbn; by rewrite <-Efx|]. by exists l, n'. }
    destruct H as (l & n' & -> & Hm & Hnil). cbn [mbind outcome_bind]. eexists _, _. split; [reflexivity|]. eapply (made_node _ _ _ _ l); [done|done|done| |done].
    cbn [isDefaultArg MakeGroupArg]. rewrite (TypeOf_made _ r (ArrayType c elem k lo hi)) by done. cbn [mbind outcome_bind fixedInnerSize]. fold fixed.
    replace (negb fixed && bool_decide (l ≠ [])) with false by (destruct fixed; [done|]; rewrite Hnil by done; done). apply (all_default_true l), Hm.
  - unfold TOptional. cbn [type_common]. destruct (IsOptional c) eqn:Eo; [apply Hspecial; done|]. destruct (Hrec elem ed n (Ht eq_refl)) as (x & n' & -> & Hx). cbn [mbind outcome_bind].
    eexists _, _. split; [reflexivity|]. eapply (made_node _ _ _ _ [x]); [done|cbn; by rewrite app_nil_r|done| |eapply made_cons; [done|apply made_nil]].
    cbn [isDefaultArg MakePointerArg]. rewrite (TypeOf_made _ r (PtrType c elem ed sq)) by done. cbn [mbind outcome_bind]. unfold TOptional. cbn [type_common]. rewrite Eo, decide_True by done. apply Hx.
  - destruct (default_fields_spec (DefaultArg typeRefs fuel) (below r) Hrec fields dir n Ht) as (l & n' & -> & Hm). cbn [mbind outcome_bind].
    eexists _, _. split; [reflexivity|]. eapply (made_node _ _ _ _ l); [done|done|done| |done].
    cbn [isDefaultArg MakeGroupArg]. rewrite (TypeOf_made _ r (StructType c fields al ov)) by done. cbn [mbind outcome_bind]. apply (all_default_true l), Hm.
  - destruct Ht as (idx & okd & f & Ed & Ef & Hb). rewrite Ed. cbn [mbind outcome_bind]. rewrite Ef. cbn [mbind outcome_bind].
    destruct (Hrec (FieldType f) (FieldDir f dir) n Hb) as (x & n' & -> & Hx). cbn [mbind outcome_bind].
    assert (Hc : ∃ cond, isConditional fields = Ret cond) by (unfold defaultField in Ed; destruct (isConditional fields); [eauto|done]). destruct Hc as [cond ->].
    eexists _, _. split; [reflexivity|]. eapply (made_node _ _ _ _ [x]); [done|cbn; by rewrite app_nil_r|done| |eapply made_cons; [done|apply made_nil]].
    cbn [isDefaultArg MakeUnionArg]. rewrite (TypeOf_made _ r (UnionType c fields)) by done. cbn [mbind outcome_bind]. rewrite Ed. cbn [mbind outcome_bind].
    rewrite bool_decide_eq_true_2, orb_true_r by done. apply Hx.
Qed.
End spec.

(** Default arguments exist and are default.  For a type table in which
    default values are finite, every type has a default argument: it is built
    with fuel above the rank of the type, has that type, consists of new
    arguments with consecutive identities, and is recognised as default. *)
Theorem DefaultArg_spec (typeRefs : list Typ) (rank : Ref → nat) (fuel : nat) (r : Ref) (dir : Dir) (n : argid)
    (Hty : ∀ r t, r ≠ 0 → index typeRefs r = Ret t → default_type typeRefs rank r t)
    (Hr : r ≠ 0) (Ht : ∃ t, index typeRefs r = Ret t) (Hfuel : (rank r < fuel)%nat) :
  ∃ a n', DefaultArg typeRefs fuel r dir n = Ret (Some (a, n')) ∧ ref (common a) = r
  ∧ NoDup (arg_ids a) ∧ (∀ i, i ∈ arg_ids a → n ≤ i < n') ∧ isDefaultArg typeRefs a = Ret true.
Proof.
  destruct (DefaultArg_run typeRefs rank Hty fuel r dir n Hr Ht Hfuel) as (a & n' & E & [_ H1 [H2 H3] H4]). exists a, n'. done.
Qed.

(** ** Witness: a pointer to a struct of a length, a buffer and an optional pointer back *)

Definition dx_types : list Typ :=
  [ VmaType (sx_common "vma" 8 false 0) 0 0;
    LenType (sx_int "len" 1) 0 false ["d"%string];
    BufferType (sx_common "buffer" 4 false 2) BufferString 0 0 "" ["abc4"%string] false;
    StructType (sx_common "s" 16 false 3) [sx_field "l" 1; sx_field "d" 2; sx_field "next" 4] 0 0;
    PtrType (mkTypeCommon "next" 8 8 true false 4) 3 DirIn false;
    PtrType (sx_common "ptr" 8 false 5) 3 DirIn false ].
Definition dx_rank (r : Ref) : nat := if decide (r = 5) then 2 else if decide (r = 3) then 1 else 0.
Lemma DefaultArg_witness : ∃ a n, DefaultArg dx_types 3 5 DirIn 10 = Ret (Some (a, n)) ∧ arg_ids a = [14; 13; 10; 11; 12] ∧ isDefaultArg dx_types a = Ret true.
Proof.
  destruct (DefaultArg_spec dx_types dx_rank 3 5 DirIn 10) as (a & n & E & _ & _ & _ & H).
  - intros r t Hr. unfold index. case_decide; [|done]. destruct (dx_types !! Z.to_nat r) as [x|] eqn:Ex; [|done]. intros [= <-].
    assert (Hc : r = Z.of_nat (Z.to_nat r)) by lia. revert Hr Hc Ex. generalize (Z.to_nat r). intros k Hr -> Ex.
    assert (Hb : ∀ i j : Ref, (j = 1 ∨ j = 2 ∨ j = 3 ∨ j = 4) → (dx_rank j < dx_rank i)%nat → below dx_types dx_rank i j).
    { intros i j Hj Hlt. split_and!; [lia| |done]. unfold index. rewrite decide_True by lia. destruct Hj as [->|[->|[->| ->]]]; cbn; eauto. }
    destruct k as [|[|[|[|[|[|k]]]]]]; [by exfalso; apply Hr|..|done]; injection Ex as <-; (split; [done|]); try done.
    + split; [done|]. by intros v [= <-].
    + intros f Hf. assert (f = sx_field "l" 1 ∨ f = sx_field "d" 2 ∨ f = sx_field "next" 4) as [->|[->| ->]].
      { apply elem_of_cons in Hf as [->|Hf]; [by left|]. apply elem_of_cons in Hf as [->|Hf]; [by right; left|]. apply list_elem_of_singleton in Hf as ->. by right; right. }
      all: apply Hb; [cbn; lia|vm_compute; lia].
    + intros _. apply Hb; [lia|vm_compute; lia].
  - lia.
  - eexists. reflexivity.
  - vm_compute. lia.
  - exists a, n. split_and!; [exact E| |exact H]. vm_compute in E. injection E as <- _. reflexivity.
Defined.
