(* ===== verification/Validation.v ===== *)
(** * Validation of programs (src/prog/validation.go)

    The checks a program passes in debug builds after every change, and what
    they guarantee: the argument graph is well-formed, so that the operations
    of [ArgGraph], [RemoveCall], [Collide] and [MinimizeCalls] apply.  Result
    arguments outside the program that it refers to live in a heap of their
    own. *)

From S2P Require Import Prelude GoStrings Prog ForeachArg ArgGraph RemoveCall Collide MinimizeCalls Sizes Conditions Defaults.

(** ** File names (src/prog/rand.go: escapingFilename) *)

Definition dot : list Z := [46].
Definition dotdot : list Z := [46; 46].
(** [filepath.Clean] of slash-separated elements: the elements kept so far,
    the last one first. *)
Fixpoint clean_elems (rooted : bool) (kept : list (list Z)) (l : list (list Z)) : list (list Z) :=
  match l with
  | [] => kept
  | e :: l =>
      if decide (e = [] ∨ e = dot) then clean_elems rooted kept l
      else if decide (e = dotdot) then
        match kept with
        | k :: kept' => if decide (k = dotdot) then clean_elems rooted (e :: kept) l else clean_elems rooted kept' l
        | [] => clean_elems rooted (if rooted then [] else [e]) l
        end
      else clean_elems rooted (e :: kept) l
  end.
Definition Clean (file : list Z) : list Z :=
  let rooted := match file with b :: _ => bool_decide (b = 47) | [] => false end in
  let out := (if rooted then [47] else []) ++ join_on 47 (reverse (clean_elems rooted [] (split_on 47 file))) in
  if decide (out = []) then dot else out.
Definition escapingFilename (file : list Z) : bool :=
  match Clean file with
  | b :: rest => bool_decide (b = 47) || (bool_decide (b = 46) && match rest with b' :: _ => bool_decide (b' = 46) | [] => false end)
  | [] => false
  end.

(** ** Errors *)

Inductive valid_error :=
| NoMeta | DisabledCall | RerunAndFail | WrongArgCount | ViolatedConditions (u : stale_union)
| RetWithoutType | RetAbsent | RetNotEmpty
| RepeatedArg | WrongDir | BadArgType | AnyForNoSquash
| OutInt | BadProc | BadCsum | ConstBadType | OutputNotDefault
| ResultBadType | BrokenUse | OutResource | OutOfTreeResult | BrokenLink | InResultUsed | ResultTooBig
| DataBadType | OutputData | WrongDataSize | WrongStringSize | EscapingFilename
| WrongFieldCount | WrongElemCount | GroupBadType
| UnionBadType | BadUnionIndex | TransientUnion
| VmaWithData | PointerWithSize | OutPointer | PointerBadType | BadSpecialPointer | BadAddress
| OutOfTreeUse.

(** A check: what it learns, or the first error. *)
Definition check (A : Type) : Type := outcome (valid_error + A).
Definition check_bind {A B} (m : check A) (k : A → check B) : check B :=
  match m with Ret (inr a) => k a | Ret (inl e) => Ret (inl e) | Panic => Panic end.
Definition fail {A} (e : valid_error) : check A := Ret (inl e).
Definition pass {A} (a : A) : check A := Ret (inr a).
Definition lift {A} (m : outcome A) : check A := match m with Ret x => Ret (inr x) | Panic => Panic end.
Declare Scope check_scope.
Notation "x '⇠' m ; k" := (check_bind m (λ x, k)) (at level 20, m at level 100, k at level 200, format "x  '⇠'  m ; '/' k") : check_scope.
Notation "'guard!' b 'else' e ; k" := (if b : bool then k else fail e) (at level 20, b at level 100, e at level 100, k at level 200) : check_scope.
Open Scope check_scope.

(** The arguments seen, and for each user the argument it uses. *)
Record validCtx := mkValidCtx { vc_args : gset argid; vc_uses : gmap argid argid }.

Section validation.
Context (target : Target) (typeRefs : list Typ) (any : AnyTypes) (unsafe ignoreTransient : bool).
(** All result arguments, those outside the program too. *)
Context (mem : heap).

Definition validate_const (c : ArgCommon) (val : Z) (t : Typ) : check () :=
  let isdef := bool_decide (const_default t = Some val) in
  let out := bool_decide (arg_dir c = DirOut) in
  let rest := guard! negb (out && match t with LenType _ _ _ _ => false | _ => negb isdef end) else OutputNotDefault; pass () in
  match t with
  | IntType _ _ _ _ _ => guard! negb (out && negb isdef) else OutInt; rest
  | ProcType _ _ per => guard! negb (bool_decide (per ≤ val) && negb isdef) else BadProc; rest
  | CsumType _ _ _ _ => guard! bool_decide (val = 0) else BadCsum; rest
  | ConstType _ _ _ | FlagsType _ _ _ | LenType _ _ _ _ => rest
  | _ => fail ConstBadType
  end.
(** The users of a result argument. *)
Fixpoint validate_uses (i : argid) (l : list argid) (uses : gmap argid argid) : check (gmap argid argid) :=
  match l with
  | [] => pass uses
  | u :: l =>
      o ⇠ lift (object mem u);
      guard! bool_decide (res_Res o = Some i) else BrokenUse;
      validate_uses i l (<[u := i]> uses)
  end.
Definition validate_result (r : ResultArg) (t : Typ) (ctx : validCtx) : check validCtx :=
  match t with
  | ResourceType _ _ d =>
      us ⇠ validate_uses (rid r) (elements (uses r)) (vc_uses ctx);
      let out := bool_decide (arg_dir (res_common r) = DirOut) && bool_decide (res_Val r ≠ 0) in
      bad ⇠ (if out then def ⇠ lift (ResourceDefault d); pass (bool_decide (res_Val r ≠ def)) else pass false);
      guard! negb bad else OutResource;
      u ⇠ match res_Res r with
          | None => pass ()
          | Some x =>
              guard! bool_decide (x ∈ vc_args ctx) else OutOfTreeResult;
              o ⇠ lift (object mem x);
              guard! bool_decide (rid r ∈ uses o) else BrokenLink;
              pass ()
          end;
      guard! negb (bool_decide (arg_dir (res_common r) = DirIn) && bool_decide (uses r ≠ ∅)) else InResultUsed;
      size ⇠ (if decide (uses r ≠ ∅) then lift (ArgSize typeRefs (AResult r)) else pass 0);
      guard! bool_decide (size ≤ 8) else ResultTooBig;
      pass (mkValidCtx (vc_args ctx) us)
  | _ => fail ResultBadType
  end.
Definition validate_data (a : Arg) (c : ArgCommon) (data : list Z) (t : Typ) : check () :=
  match t with
  | BufferType tc kind _ _ _ _ _ =>
      guard! negb (bool_decide (arg_dir c = DirOut) && bool_decide (data ≠ [])) else OutputData;
      size ⇠ lift (ArgSize typeRefs a);
      fixed ⇠ (if Varlen t then pass size else lift (TSize t));
      guard! bool_decide (fixed = size) else WrongDataSize;
      match kind with
      | BufferString => guard! negb (bool_decide (TypeSize tc ≠ 0) && bool_decide (size ≠ TypeSize tc)) else WrongStringSize; pass ()
      | BufferFilename => guard! negb (negb unsafe && escapingFilename data) else EscapingFilename; pass ()
      | _ => pass ()
      end
  | _ => fail DataBadType
  end.
Definition validate_address (address vma : Z) (res : option Arg) : check () :=
  if IsSpecial address vma res then
    guard! bool_decide (u64 (- address) < len (SpecialPointers target)) else BadSpecialPointer; pass ()
  else
    let maxMem := NumPages target *u PageSize target in
    size ⇠ match res with Some r => if decide (vma = 0) then lift (ArgSize typeRefs r) else pass vma | None => pass vma end;
    let addr := if unsafe then address +u PageSize target else address in
    let maxMem := if unsafe then maxMem +u (2 *u PageSize target) else maxMem in
    guard! negb (bool_decide (maxMem ≤ addr) || bool_decide (maxMem < addr +u size)) else BadAddress;
    pass ().

Section call.
(** The attribute of the current call. *)
Context (noSquash : bool).

(** What is checked before an argument is entered; the direction for it. *)
Definition enter_arg (a : Arg) (typ : Ref) (dir : Dir) (ctx : validCtx) : check (Typ * Dir * validCtx) :=
  guard! negb (bool_decide (aid a ∈ vc_args ctx)) else RepeatedArg;
  t ⇠ lift (TypeOf typeRefs a);
  want ⇠ lift (index typeRefs typ);
  let dir := match want with PtrType _ _ _ _ => DirIn | _ => dir end in
  guard! negb (bool_decide (ADir a ≠ dir) && bool_decide (dir ≠ DirInOut)) else WrongDir;
  guard! isAnyPtr any t || bool_decide (ref (common a) = typ) else BadArgType;
  guard! negb (noSquash && isAnyPtr any t) else AnyForNoSquash;
  pass (t, dir, mkValidCtx ({[aid a]} ∪ vc_args ctx) (vc_uses ctx)).
Fixpoint validateArg (a : Arg) (typ : Ref) (dir : Dir) (ctx : validCtx) : check validCtx :=
  entered ⇠ enter_arg a typ dir ctx;
  let '(t, dir, ctx) := entered in
  match a with
  | ConstArg c v => u ⇠ validate_const c v t; pass ctx
  | AResult r => validate_result r t ctx
  | DataArg c data _ => u ⇠ validate_data a c data t; pass ctx
  | GroupArg c inner =>
      match t with
      | StructType _ fields _ _ =>
          guard! bool_decide (length inner = length fields) else WrongFieldCount;
          (fix go (l : list Arg) (fields : list Field) (ctx : validCtx) : check validCtx :=
             match l, fields with
             | x :: l, f :: fields => ctx ⇠ validateArg x (FieldType f) (FieldDir f dir) ctx; go l fields ctx
             | _, _ => pass ctx
             end) inner fields ctx
      | ArrayType _ elem kind lo hi =>
          guard! negb (match kind with ArrayRangeLen => bool_decide (lo = hi) && bool_decide (len inner ≠ lo) | ArrayRandLen => false end) else WrongElemCount;
          (fix go (l : list Arg) (ctx : validCtx) : check validCtx :=
             match l with
             | x :: l => ctx ⇠ validateArg x elem dir ctx; go l ctx
             | [] => pass ctx
             end) inner ctx
      | _ => fail GroupBadType
      end
  | UnionArg c o idx transient =>
      match t with
      | UnionType _ fields =>
          guard! bool_decide (0 ≤ idx < len fields) else BadUnionIndex;
          guard! negb (transient && negb ignoreTransient) else TransientUnion;
          f ⇠ lift (index fields idx);
          validateArg o (FieldType f) (FieldDir f dir) ctx
      | _ => fail UnionBadType
      end
  | PointerArg c address vma res =>
      ctx ⇠ match t with
            | VmaType _ _ _ => match res with Some _ => fail VmaWithData | None => pass ctx end
            | PtrType _ elem elemDir _ =>
                ctx ⇠ match res with Some r => validateArg r elem elemDir ctx | None => pass ctx end;
                guard! bool_decide (vma = 0) else PointerWithSize;
                guard! bool_decide (ADir a ≠ DirOut) else OutPointer;
                pass ctx
            | _ => fail PointerBadType
            end;
      u ⇠ validate_address address vma res;
      pass ctx
  end.
Fixpoint validate_args (l : list Arg) (fields : list Field) (ctx : validCtx) : check validCtx :=
  match l, fields with
  | x :: l, f :: fields => ctx ⇠ validateArg x (FieldType f) DirIn ctx; validate_args l fields ctx
  | _, _ => pass ctx
  end.
Definition validateRet (m : Syscall) (c : Call) (ctx : validCtx) : check validCtx :=
  match SysRet m, CRet c with
  | None, Some _ => fail RetWithoutType
  | None, None => pass ctx
  | Some _, None => fail RetAbsent
  | Some typ, Some r =>
      guard! bool_decide (res_Res r = None) && bool_decide (res_Val r = 0) && bool_decide (OpDiv r = 0) && bool_decide (OpAdd r = 0) else RetNotEmpty;
      validateArg (AResult r) typ DirOut ctx
  end.
End call.

Definition validateCall (m : Syscall) (c : Call) (ctx : validCtx) : check validCtx :=
  guard! negb (negb unsafe && Disabled (Attrs m)) else DisabledCall;
  guard! negb (bool_decide (0 < Rerun (Props c)) && bool_decide (0 < FailNth (Props c))) else RerunAndFail;
  guard! bool_decide (length (Args c) = length (SysArgs m)) else WrongArgCount;
  ctx ⇠ validate_args (NoSquash (Attrs m)) (Args c) (SysArgs m) ctx;
  bad ⇠ lift (checkConditions typeRefs any c ignoreTransient);
  match bad with
  | Some u => fail (ViolatedConditions u)
  | None => validateRet (NoSquash (Attrs m)) m c ctx
  end.
Fixpoint validate_calls (l : list (option Call)) (ctx : validCtx) : check validCtx :=
  match l with
  | [] => pass ctx
  | None :: _ => Panic
  | Some c :: l =>
      match Meta c with
      | None => fail NoMeta
      | Some m => ctx ⇠ validateCall m c ctx; validate_calls l ctx
      end
  end.
End validation.

(** [validateWithOpts]; [outside] holds arguments that are not in the program. *)
Definition validateWithOpts (target : Target) (typeRefs : list Typ) (any : AnyTypes) (outside : heap) (ignoreTransient : bool) (p : Prog) : outcome (option valid_error) :=
  r ← (ctx ⇠ validate_calls target typeRefs any (isUnsafe p) ignoreTransient (objects p ∪ outside) (Calls p) (mkValidCtx ∅ ∅);
       guard! forallb (λ u : argid * argid, bool_decide (u.1 ∈ vc_args ctx)) (map_to_list (vc_uses ctx)) else OutOfTreeUse;
       pass ());
  Ret (match r with inl e => Some e | inr _ => None end).
Definition validate (target : Target) (typeRefs : list Typ) (any : AnyTypes) (outside : heap) (p : Prog) : outcome (option valid_error) :=
  validateWithOpts target typeRefs any outside false p.

(** ** What validation guarantees *)

(** The type table: integers, pointers and resources have a fixed size,
    resources know themselves and have a default value. *)
Definition fixed_size (t : Typ) : bool :=
  match t with BufferType _ _ _ _ _ _ _ | ArrayType _ _ _ _ _ | StructType _ _ _ _ | UnionType _ _ => false | _ => true end.
Definition type_ok (r : Ref) (t : Typ) : Prop :=
  (fixed_size t = true → Varlen t = false) ∧ ∀ c f d, t = ResourceType c f d → self c = r ∧ ∃ v, ResValues d !! 0%nat = Some v.
Definition types_ok (typeRefs : list Typ) : Prop := ∀ r t, index typeRefs r = Ret t → type_ok r t.

(** Arguments [ids] with the result arguments [rs] among them, entered after
    [seen]: distinct, and references go to earlier ones. *)
Record entered (seen : gset argid) (ids : list argid) (rs : list ResultArg) : Prop := {
  en_ids : NoDup ids;
  en_new : ∀ i, i ∈ ids → i ∉ seen;
  en_results : ∀ r, r ∈ rs → rid r ∈ ids;
  en_order : ∀ l1 r l2 x, rs = l1 ++ r :: l2 → res_Res r = Some x → (x ∈ seen ∨ x ∈ ids) ∧ x ∉ rid <$> (r :: l2)
}.
Lemma entered_nil seen : entered seen [] [].
Proof. constructor; [apply NoDup_nil_2|by intros ? ?%not_elem_of_nil|by intros ? ?%not_elem_of_nil|intros [|? ?] ? ? ? [=]]. Qed.
Lemma entered_app seen ids1 rs1 ids2 rs2 : entered seen ids1 rs1 → entered (list_to_set ids1 ∪ seen) ids2 rs2 → entered seen (ids1 ++ ids2) (rs1 ++ rs2).
Proof.
  intros [A1 A2 A3 A4] [B1 B2 B3 B4]. assert (Hdis : ∀ i, i ∈ ids2 → (i ∉ ids1) ∧ i ∉ seen).
  { intros i Hi%B2. rewrite elem_of_union, elem_of_list_to_set in Hi. tauto. }
  constructor.
  - apply NoDup_app. split_and!; [done| |done]. intros i Hi Hi2. by destruct (Hdis i Hi2).
  - intros i [Hi|Hi]%elem_of_app; [by apply A2|by destruct (Hdis i Hi)].
  - intros r [Hr|Hr]%elem_of_app; apply elem_of_app; [left; by apply A3|right; by apply B3].
  - intros l1 r l2 x E Hx. apply app_eq_inv in E as [(k & E1 & E2)|(k & -> & E2)].
    + destruct k as [|r0 k]; cbn in E2.
      * destruct (B4 [] r l2 x) as [H1 H2]; [done|done|]. split; [|done]. rewrite elem_of_app, elem_of_union, elem_of_list_to_set in *. tauto.
      * injection E2 as <- ->. destruct (A4 l1 r k x E1 Hx) as [H1 H2]. split; [rewrite elem_of_app; tauto|]. change (r :: k ++ rs2) with ((r :: k) ++ rs2). rewrite fmap_app, elem_of_app.
        intros [H|(r' & -> & H)%list_elem_of_fmap]; [done|]. apply B3, Hdis in H as [H3 H4]. tauto.
    + destruct (B4 k r l2 x E2 Hx) as [H1 H2]. split; [|done]. rewrite elem_of_app, elem_of_union, elem_of_list_to_set in *. tauto.
Qed.
(** A node that is not a result argument. *)
Lemma entered_node seen i ids rs : i ∉ seen → entered ({[i]} ∪ seen) ids rs → entered seen (i :: ids) rs.
Proof.
  intros Hi H. assert (E : {[i]} ∪ seen = list_to_set [i] ∪ seen) by (cbn; by rewrite union_empty_r_L). rewrite E in H.
  apply (entered_app seen [i] [] ids rs); [|done]. constructor; [apply NoDup_singleton|by intros ? ->%list_elem_of_singleton|by intros ? ?%not_elem_of_nil|intros [|? ?] ? ? ? [=]].
Qed.
Lemma entered_result seen r : rid r ∉ seen → (∀ x, res_Res r = Some x → x ∈ seen) → entered seen [rid r] [r].
Proof.
  intros Hi Hx. constructor; [apply NoDup_singleton|by intros ? ->%list_elem_of_singleton|intros ? ->%list_elem_of_singleton; by left|].
  intros [|? []] r' l2 x [= <- <-] E; try done. split; [left; by apply Hx|]. cbn. intros ->%list_elem_of_singleton. apply Hi. by apply Hx.
Qed.
(** Result arguments without references may come in front. *)
Lemma entered_front seen ids1 rs1 ids2 rs2 : entered seen ids1 rs1 → entered (list_to_set ids1 ∪ seen) ids2 rs2 → (∀ r, r ∈ rs2 → res_Res r = None) →
  entered seen (ids2 ++ ids1) (rs2 ++ rs1).
Proof.
  intros HA HB Hnone. destruct (entered_app _ _ _ _ _ HA HB) as [C1 C2 C3 C4]. constructor.
  - by rewrite (Permutation_app_comm ids2).
  - intros i Hi. apply C2. rewrite elem_of_app in *. tauto.
  - intros r Hr. specialize (C3 r). rewrite !elem_of_app in *. tauto.
  - intros l1 r l2 x E Hx. apply app_eq_inv in E as [(k & E1 & E2)|(k & -> & E2)].
    + destruct k as [|r0 k]; cbn in E2.
      * destruct (en_order _ _ _ HA [] r l2 x) as [H1 H2]; [done|done|]. split; [rewrite elem_of_app; tauto|done].
      * injection E2 as <- ->. rewrite (Hnone r) in Hx; [done|]. rewrite E1. apply elem_of_app. right. by left.
    + destruct (en_order _ _ _ HA k r l2 x E2 Hx) as [H1 H2]. split; [rewrite elem_of_app; tauto|done].
Qed.

Lemma roots_results_elem_app l k r : r ∈ roots_results (l ++ k) → r ∈ roots_results l ∨ r ∈ roots_results k.
Proof. by rewrite roots_results_app, elem_of_app. Qed.

Lemma check_bind_inr {A B} (m : check A) (k : A → check B) y : check_bind m k = Ret (inr y) → ∃ a, m = Ret (inr a) ∧ k a = Ret (inr y).
Proof. destruct m as [[e|a]|]; try done. eauto. Qed.
Lemma lift_inr {A} (m : outcome A) x : lift m = Ret (inr x) → m = Ret x.
Proof. destruct m; [|done]. by intros [= ->]. Qed.
Lemma guard_inr {A} (b : bool) e (k : check A) y : (if b then k else fail e) = Ret (inr y) → b = true ∧ k = Ret (inr y).
Proof. destruct b; [done|]. by intros [=]. Qed.
Lemma pass_inr {A} (x y : A) : pass x = Ret (inr y) → x = y.
Proof. by intros [=]. Qed.
(** Takes a successful check apart. *)
Ltac inv_check H :=
  repeat match type of H with
  | check_bind _ _ = Ret (inr _) => let a := fresh "a" in let E := fresh "E" in apply check_bind_inr in H as (a & E & H); cbn beta in H
  | (if _ then _ else fail _) = Ret (inr _) => let E := fresh "Eb" in apply guard_inr in H as [E H]
  | pass _ = Ret (inr _) => apply pass_inr in H
  end.

Definition children (a : Arg) : list Arg :=
  match a with PointerArg _ _ _ (Some x) => [x] | GroupArg _ l => l | UnionArg _ o _ _ => [o] | _ => [] end.
Definition is_result (a : Arg) : bool := match a with AResult _ => true | _ => false end.
Lemma arg_ids_children a : arg_ids a = aid a :: roots_ids (children a).
Proof. unfold roots_ids. destruct a as [| ? ? ? [] | | | |]; cbn; by rewrite ?app_nil_r. Qed.
Lemma arg_results_children a : is_result a = false → arg_results a = roots_results (children a).
Proof. unfold roots_results. destruct a as [| ? ? ? [] | | | |]; cbn; intros; by rewrite ?app_nil_r. Qed.
Lemma kinds_ok_children typeRefs a : kinds_ok typeRefs a = kind_ok typeRefs a && forallb (kinds_ok typeRefs) (children a).
Proof. destruct a as [| ? ? ? [] | | | |]; cbn; by rewrite ?andb_true_r. Qed.

Section guarantees.
Context (target : Target) (typeRefs : list Typ) (any : AnyTypes) (unsafe ignoreTransient : bool) (mem : heap) (Hty : types_ok typeRefs).

Definition visitable (a : Arg) : Prop := (∃ s, ArgSize typeRefs a = Ret s) ∧ ∀ base off, ∃ vs, foreachArgImpl typeRefs a base off = Ret vs.
(** The links of a result argument agree with the heap. *)
Definition links_ok (r : ResultArg) : Prop :=
  (∀ u, u ∈ uses r → ∃ o, mem !! u = Some o ∧ res_Res o = Some (rid r))
  ∧ ∀ x, res_Res r = Some x → ∃ o, mem !! x = Some o ∧ rid r ∈ uses o.
Record valid_roots (ctx : validCtx) (l : list Arg) (ctx' : validCtx) : Prop := {
  vr_args : vc_args ctx' = list_to_set (roots_ids l) ∪ vc_args ctx;
  vr_entered : entered (vc_args ctx) (roots_ids l) (roots_results l);
  vr_mono : dom (vc_uses ctx) ⊆ dom (vc_uses ctx');
  vr_uses : ∀ r u, r ∈ roots_results l → u ∈ uses r → u ∈ dom (vc_uses ctx');
  vr_results : ∀ r, r ∈ roots_results l → resource_typed typeRefs r ∧ links_ok r;
  vr_each : ∀ a, a ∈ l → kinds_ok typeRefs a = true ∧ visitable a
}.
Lemma valid_nil ctx : valid_roots ctx [] ctx.
Proof.
  constructor; [cbn; by rewrite union_empty_l_L|apply entered_nil|done|by intros ? ? ?%not_elem_of_nil|by intros ? ?%not_elem_of_nil|by intros ? ?%not_elem_of_nil].
Qed.
Lemma valid_app ctx l ctx1 k ctx2 : valid_roots ctx l ctx1 → valid_roots ctx1 k ctx2 → valid_roots ctx (l ++ k) ctx2.
Proof.
  intros [A1 A2 A3 A4 A5 A6] [B1 B2 B3 B4 B5 B6]. constructor.
  - by rewrite roots_ids_app, list_to_set_app_L, B1, A1, assoc_L, (comm_L (∪) (list_to_set (roots_ids k))) by apply _.
  - rewrite roots_ids_app, roots_results_app. apply entered_app; [done|]. by rewrite <-A1.
  - by etrans.
  - intros r u [Hr|Hr]%roots_results_elem_app Hu; [apply B3; by eapply A4|by eapply B4].
  - intros r [Hr|Hr]%roots_results_elem_app; [by apply A5|by apply B5].
  - intros a [Ha|Ha]%elem_of_app; [by apply A6|by apply B6].
Qed.

Lemma ArgSize_fields inner align overlay l i size off : (∀ x, x ∈ l → visitable x) →
  ∃ s, (fix fields (i : nat) (l : list Arg) (size offset : Z) : outcome Z :=
               match l with
               | [] => Ret size
               | fld :: l' =>
                   let offset := if decide (Z.of_nat i = overlay) then 0 else offset in
                   s ← ArgSize typeRefs fld;
                   let offset := offset +u s in
                   let last := bool_decide (i + 1 = length (inner : list Arg))%nat
                               || bool_decide (Z.of_nat i + 1 = overlay) in
                   let offset :=
                     if last && bool_decide (align ≠ 0) && bool_decide (offset mod align ≠ 0)
                     then offset +u (align -u offset mod align) else offset in
                   fields (S i) l' (Z.max size offset) offset
               end) i l size off = Ret s.
Proof.
  revert i size off. induction l as [|x l IH]; intros i size off Hl; [eauto|]. destruct (Hl x) as [[s Es] _]; [by left|]. rewrite Es. cbn [mbind outcome_bind].
  apply IH. intros y Hy. apply Hl. by right.
Qed.
Lemma ArgSize_elems l size : (∀ x, x ∈ l → visitable x) →
  ∃ s, (fix elems (l : list Arg) (size : Z) : outcome Z := match l with [] => Ret size | e :: l' => s ← ArgSize typeRefs e; elems l' (size +u s) end) l size = Ret s.
Proof.
  revert size. induction l as [|x l IH]; intros size Hl; [eauto|]. destruct (Hl x) as [[s Es] _]; [by left|]. rewrite Es. cbn [mbind outcome_bind].
  apply IH. intros y Hy. apply Hl. by right.
Qed.
(** The kinds of types an argument may have. *)
Definition suits (a : Arg) (t : Typ) : bool :=
  match a with
  | ConstArg _ _ => match const_default t with Some _ => true | None => false end
  | AResult _ => match t with ResourceType _ _ _ => true | _ => false end
  | DataArg _ _ _ => match t with BufferType _ _ _ _ _ _ _ => true | _ => false end
  | GroupArg _ _ => match t with StructType _ _ _ _ | ArrayType _ _ _ _ _ => true | _ => false end
  | UnionArg _ _ _ _ => match t with UnionType _ _ => true | _ => false end
  | PointerArg _ _ _ _ => match t with VmaType _ _ _ | PtrType _ _ _ _ => true | _ => false end
  end.
Lemma TypeOf_ok a t : TypeOf typeRefs a = Ret t → type_ok (ref (common a)) t.
Proof. unfold TypeOf. case_decide; [done|]. apply Hty. Qed.
Lemma suits_size a t : TypeOf typeRefs a = Ret t → suits a t = true → (∀ x, x ∈ children a → visitable x) → ∃ s, ArgSize typeRefs a = Ret s.
Proof.
  intros Et Hs Hc. destruct (TypeOf_ok a t Et) as [Hv _].
  assert (Hfix : fixed_size t = true → ∃ s, TSize t = Ret s) by (intros Hf; unfold TSize; rewrite (Hv Hf); eauto).
  destruct a as [c v|c ad v r|c d s|c l|c o i tr|r]; cbn [ArgSize]; try (rewrite Et; cbn [mbind outcome_bind]).
  - apply Hfix. by destruct t.
  - apply Hfix. by destruct t.
  - eauto.
  - destruct (Varlen t) eqn:Evl; cbn [negb]; [|unfold TSize; rewrite Evl; eauto]. destruct t; try done; [by apply ArgSize_elems|by apply ArgSize_fields].
  - destruct (Varlen t) eqn:Evl; cbn [negb]; [|unfold TSize; rewrite Evl; eauto]. apply (Hc o). by left.
  - apply Hfix. by destruct t.
Qed.
Lemma suits_visitable a t : TypeOf typeRefs a = Ret t → suits a t = true → (∀ x, x ∈ children a → visitable x) → visitable a.
Proof.
  intros Et Hs Hc. split; [by eapply suits_size|]. intros base off. destruct a as [c v|c ad v r|c d s|c l|c o i tr|r]; cbn [foreachArgImpl]; try (cbn; eauto; done).
  - destruct r as [x|]; [|cbn; eauto]. destruct (Hc x) as [_ Hx]; [by left|]. destruct (Hx (Some (PointerArg c ad v (Some x))) 0) as [vs ->]. cbn. eauto.
  - rewrite Et. cbn [mbind outcome_bind]. match goal with |- context [(?F 0%nat l off) ≫= _] => set (go := F) end.
    assert (Hgo : ∀ l k cur, (∀ x, x ∈ l → visitable x) → ∃ vs, go k l cur = Ret vs).
    { clear. induction l as [|x l IH]; intros k cur Hl; [eexists; reflexivity|]. destruct (Hl x) as [[s Es] Hx]; [by left|]. subst go. cbn match fix beta. set (at_ := if decide _ then off else cur).
      destruct (Hx base at_) as [vs ->]. cbn [mbind outcome_bind]. rewrite Es. cbn [mbind outcome_bind]. edestruct (IH (S k)) as [vs' ->]; [intros y Hy; apply Hl; by right|]. cbn. eauto. }
    destruct (Hgo l 0%nat off Hc) as [vs ->]. cbn. eauto.
  - destruct (Hc o) as [_ Hx]; [by left|]. destruct (Hx base off) as [vs ->]. cbn. eauto.
Qed.
Lemma suits_kind a t : TypeOf typeRefs a = Ret t → suits a t = true → kind_ok typeRefs a = true.
Proof. intros Et Hs. unfold kind_ok. rewrite Et. destruct a; destruct t; done. Qed.
Lemma valid_node ctx a t ctx' : TypeOf typeRefs a = Ret t → suits a t = true → is_result a = false → aid a ∉ vc_args ctx →
  valid_roots (mkValidCtx ({[aid a]} ∪ vc_args ctx) (vc_uses ctx)) (children a) ctx' → valid_roots ctx [a] ctx'.
Proof.
  intros Et Hs Hr Hi [A1 A2 A3 A4 A5 A6]. cbn [vc_args vc_uses] in *.
  assert (Eids : roots_ids [a] = aid a :: roots_ids (children a)) by (unfold roots_ids at 1; cbn; rewrite app_nil_r; apply arg_ids_children).
  assert (Eres : roots_results [a] = roots_results (children a)) by (unfold roots_results at 1; cbn; rewrite app_nil_r; by apply arg_results_children).
  constructor; rewrite ?Eids, ?Eres; try done.
  - rewrite A1. cbn. rewrite !assoc_L by apply _. f_equal. by rewrite (comm_L (∪)) by apply _.
  - by apply entered_node.
  - intros x ->%list_elem_of_singleton. split; [|by eapply suits_visitable; [done|done|intros y Hy; apply A6]]. rewrite kinds_ok_children, (suits_kind _ _ Et Hs). cbn.
    apply forallb_forall. intros y Hy%list_elem_of_In. by apply A6.
Qed.

Lemma object_inr u o : object mem u = Ret o → mem !! u = Some o.
Proof. unfold object. destruct (mem !! u); [|done]. by intros [= ->]. Qed.
Lemma validate_uses_spec i l us us' : validate_uses mem i l us = Ret (inr us') →
  dom us ⊆ dom us' ∧ ∀ u, u ∈ l → u ∈ dom us' ∧ ∃ o, mem !! u = Some o ∧ res_Res o = Some i.
Proof.
  revert us. induction l as [|u l IH]; intros us H; cbn [validate_uses] in H; inv_check H; [subst; split; [done|by intros ? ?%not_elem_of_nil]|].
  apply lift_inr, object_inr in E. apply bool_decide_eq_true in Eb. destruct (IH _ H) as [H1 H2]. rewrite dom_insert_L in H1. split; [set_solver|].
  intros v [->|Hv]%elem_of_cons; [|by apply H2]. split; [set_solver|eauto].
Qed.
Lemma validate_result_spec r t ctx ctx' : TypeOf typeRefs (AResult r) = Ret t → rid r ∉ vc_args ctx → res_Res r ≠ Some (rid r) →
  validate_result typeRefs mem r t (mkValidCtx ({[rid r]} ∪ vc_args ctx) (vc_uses ctx)) = Ret (inr ctx') → valid_roots ctx [AResult r] ctx'.
Proof.
  intros Et Hi Hself H. unfold validate_result in H. destruct t as [c fmt d| | | | | | | | | | | |]; try done. inv_check H.
  destruct (validate_uses_spec _ _ _ _ E) as [H1 H2]. cbn [vc_args vc_uses] in *.
  assert (Hres : ∀ x, res_Res r = Some x → x ∈ vc_args ctx ∧ ∃ o, mem !! x = Some o ∧ rid r ∈ uses o).
  { intros x Ex. rewrite Ex in E1. inv_check E1. apply bool_decide_eq_true in Eb2, Eb3. apply lift_inr, object_inr in E3. split; [|eauto].
    apply elem_of_union in Eb2 as [->%elem_of_singleton|?]; [by rewrite Ex in Hself|done]. }
  subst ctx'. destruct (TypeOf_ok _ _ Et) as [_ Hrt]. destruct (Hrt c fmt d eq_refl) as [Hself' [v Hv]].
  assert (Eids : roots_ids [AResult r] = [rid r]) by done. assert (Eres : roots_results [AResult r] = [r]) by done.
  constructor; cbn [vc_args vc_uses]; rewrite ?Eids, ?Eres.
  - cbn. by rewrite union_empty_r_L.
  - apply entered_result; [done|]. intros x Hx. by apply Hres.
  - done.
  - intros r' u ->%list_elem_of_singleton Hu. apply H2. by apply elem_of_elements.
  - intros r' ->%list_elem_of_singleton. split; [by exists c, fmt, d, v|]. split; [intros u Hu; apply H2; by apply elem_of_elements|intros x Hx; by apply Hres].
  - intros a' ->%list_elem_of_singleton. split; [cbn; by rewrite (suits_kind (AResult r) _ Et eq_refl)|].
    eapply suits_visitable; [exact Et|done|]. by intros y ?%not_elem_of_nil.
Qed.
Lemma enter_arg_spec noSquash a typ dir ctx t dir' ctx1 : enter_arg typeRefs any noSquash a typ dir ctx = Ret (inr (t, dir', ctx1)) →
  TypeOf typeRefs a = Ret t ∧ (aid a ∉ vc_args ctx) ∧ ctx1 = mkValidCtx ({[aid a]} ∪ vc_args ctx) (vc_uses ctx).
Proof.
  intros H. unfold enter_arg in H. inv_check H. injection H as <- _ <-. apply lift_inr in E. split_and!; [done| |done].
  apply negb_true_iff, bool_decide_eq_false in Eb. done.
Qed.
Lemma validateArg_spec noSquash a : ∀ typ dir ctx ctx', (∀ r, r ∈ arg_results a → res_Res r ≠ Some (rid r)) →
  validateArg target typeRefs any unsafe ignoreTransient mem noSquash a typ dir ctx = Ret (inr ctx') → valid_roots ctx [a] ctx'.
Proof.
  induction a as [c v|c ad v r Hr|c d s|c l Hl|c o i tr Ho|r] using Arg_nested_ind; intros typ dir ctx ctx' Hself H; cbn [validateArg] in H;
    apply check_bind_inr in H as ([[t dir'] ctx1] & He & H); destruct (enter_arg_spec _ _ _ _ _ _ _ _ He) as (Et & Hi & ->); clear He; cbn match beta in H.
  - inv_check H. subst ctx'. apply (valid_node _ _ t); [done| |done|done|apply valid_nil]. cbn. unfold validate_const in E. by destruct t.
  - apply check_bind_inr in H as (ctx2 & H1 & H2). inv_check H2. subst ctx'. clear E. apply (valid_node _ _ t); [done|cbn; by destruct t|done|done|].
    destruct t; try done.
    + destruct r; [done|]. injection H1 as <-. apply valid_nil.
    + apply check_bind_inr in H1 as (c2 & Hc & H1). inv_check H1. subst c2. destruct r as [x|]; [cbn [children]; by eapply Hr|]. injection Hc as <-. apply valid_nil.
  - inv_check H. subst ctx'. apply (valid_node _ _ t); [done| |done|done|apply valid_nil]. cbn. unfold validate_data in E. by destruct t.
  - assert (Hself' : ∀ x, x ∈ l → ∀ r, r ∈ arg_results x → res_Res r ≠ Some (rid r)).
    { intros x Hx r Hr. apply Hself. cbn. apply elem_of_concat. exists (arg_results x). split; [done|]. apply list_elem_of_fmap. eauto. }
    rewrite Forall_forall in Hl. destruct t; try done; inv_check H; (eapply valid_node; [done|done|done|done|]); cbn [children].
    + clear Hself Et Hi Eb. revert H. generalize (mkValidCtx ({[aid (GroupArg c l)]} ∪ vc_args ctx) (vc_uses ctx)) as c1.
      induction l as [|x l IH]; intros c1 H; cbn match fix beta in H; [injection H as <-; apply valid_nil|]. apply check_bind_inr in H as (c2 & H1 & H2).
      apply (valid_app _ [x] c2 l); [eapply Hl; [by left|apply Hself'; by left|done]|]. apply IH; [|intros y Hy; apply Hself'; by right|done]. intros y Hy. apply Hl. by right.
    + clear Hself Et Hi. apply bool_decide_eq_true in Eb. revert Fields Eb H. generalize (mkValidCtx ({[aid (GroupArg c l)]} ∪ vc_args ctx) (vc_uses ctx)) as c1.
      induction l as [|x l IH]; intros c1 [|f fields] Eb H; try done; cbn match fix beta in H; [injection H as <-; apply valid_nil|]. apply check_bind_inr in H as (c2 & H1 & H2).
      apply (valid_app _ [x] c2 l); [eapply Hl; [by left|apply Hself'; by left|done]|].
      apply IH with (Fields := fields); [intros y Hy; apply Hl; by right|intros y Hy; apply Hself'; by right|by injection Eb|done].
  - destruct t; try done. inv_check H. eapply valid_node; [done|done|done|done|]. cbn [children]. by eapply Ho.
  - by eapply validate_result_spec; [|apply Hi|apply Hself; by left|].
Qed.

Lemma valid_front ctx l ctx1 k ctx2 : valid_roots ctx l ctx1 → valid_roots ctx1 k ctx2 → (∀ r, r ∈ roots_results k → res_Res r = None) → valid_roots ctx (k ++ l) ctx2.
Proof.
  intros HA HB Hn. destruct (valid_app _ _ _ _ _ HA HB) as [C1 C2 C3 C4 C5 C6]. destruct HA as [A1 A2 _ _ _ _], HB as [B1 B2 _ _ _ _]. constructor.
  - rewrite C1, !roots_ids_app, !list_to_set_app_L. f_equal. apply (comm_L (∪)).
  - rewrite roots_ids_app, roots_results_app. apply entered_front; [done|by rewrite <-A1|done].
  - done.
  - intros r u Hr. apply C4. rewrite roots_results_app, elem_of_app in *. tauto.
  - intros r Hr. apply C5. rewrite roots_results_app, elem_of_app in *. tauto.
  - intros a Ha. apply C6. rewrite elem_of_app in *. tauto.
Qed.
Lemma validate_args_spec noSquash l fields ctx ctx' : length l = length fields → (∀ r, r ∈ roots_results l → res_Res r ≠ Some (rid r)) →
  validate_args target typeRefs any unsafe ignoreTransient mem noSquash l fields ctx = Ret (inr ctx') → valid_roots ctx l ctx'.
Proof.
  revert fields ctx. induction l as [|a l IH]; intros [|f fields] ctx Hl Hself H; try done; cbn [validate_args] in H; [injection H as <-; apply valid_nil|].
  apply check_bind_inr in H as (c1 & H1 & H2). unfold roots_results in Hself. cbn [fmap list_fmap concat] in Hself.
  apply (valid_app _ [a] c1 l); [eapply validateArg_spec; [|exact H1]; intros r Hr; apply Hself, elem_of_app; by left|].
  eapply IH; [by injection Hl|intros r Hr; apply Hself, elem_of_app; by right|done].
Qed.
Lemma validateCall_spec m c ctx ctx' : (∀ r, r ∈ roots_results (call_roots c) → res_Res r ≠ Some (rid r)) →
  validateCall target typeRefs any unsafe ignoreTransient mem m c ctx = Ret (inr ctx') → valid_roots ctx (call_roots c) ctx' ∧ length (Args c) = length (SysArgs m).
Proof.
  intros Hself H. unfold validateCall in H. inv_check H. apply bool_decide_eq_true in Eb1. split; [|done]. destruct a0; [done|].
  unfold call_roots in *. rewrite roots_results_app in Hself. apply (validate_args_spec _ _ _ _ _ Eb1) in E; [|intros r Hr; apply Hself, elem_of_app; by right].
  unfold validateRet in H. destruct (SysRet m) as [typ|], (CRet c) as [r|] eqn:Er; try done; [|injection H as <-; done].
  inv_check H. apply andb_true_iff in Eb2 as [Eb2 _]. apply andb_true_iff in Eb2 as [Eb2 _]. apply andb_true_iff in Eb2 as [Eb2 _]. apply bool_decide_eq_true in Eb2.
  eapply valid_front; [exact E|eapply validateArg_spec; [|exact H]|].
  - intros r' ->%list_elem_of_singleton. congruence.
  - intros r' Hr'. cbn in Hr'. apply list_elem_of_singleton in Hr' as ->. done.
Qed.
Lemma validate_calls_spec l ctx ctx' : (∀ r, r ∈ roots_results (calls_roots l) → res_Res r ≠ Some (rid r)) →
  validate_calls target typeRefs any unsafe ignoreTransient mem l ctx = Ret (inr ctx') →
  valid_roots ctx (calls_roots l) ctx' ∧ Forall is_Some l ∧ ∀ c, Some c ∈ l → ∃ m, Meta c = Some m ∧ length (Args c) = length (SysArgs m).
Proof.
  revert ctx. induction l as [|[c|] l IH]; intros ctx Hself H; cbn [validate_calls] in H; [injection H as <-; split_and!; [apply valid_nil|constructor|by intros ? ?%not_elem_of_nil]| |done].
  change (calls_roots (Some c :: l)) with (call_roots c ++ calls_roots l) in *. rewrite roots_results_app in Hself.
  destruct (Meta c) as [m|] eqn:Em; [|done]. apply check_bind_inr in H as (c1 & H1 & H2).
  destruct (validateCall_spec m c ctx c1) as [Hv Hl]; [intros r Hr; apply Hself, elem_of_app; by left|done|].
  destruct (IH c1) as (Hv2 & Hs & Hm); [intros r Hr; apply Hself, elem_of_app; by right|done|].
  split_and!; [by eapply valid_app|constructor; [eauto|done]|]. intros c' [[= ->]|Hc]%elem_of_cons; [eauto|by apply Hm].
Qed.
End guarantees.

Lemma objects_elem p x o : objects p !! x = Some o → o ∈ prog_results p ∧ rid o = x.
Proof.
  unfold objects. intros H%elem_of_list_to_map_2. apply list_elem_of_fmap in H as (r & E & Hr). injection E as -> ->. done.
Qed.

(** C15: Validated programs have a well-formed argument graph.  When validation
    accepts a program that is not marked unsafe and in which no result argument
    refers to itself, then no argument occurs twice, every reference to a
    result leads to an argument of the program that was created earlier, the
    recorded users of a result are exactly the arguments that refer to it, all
    sizes can be computed and arguments have types of their kind: everything
    that cloning, removing calls, colliding and minimising rely on. *)
Theorem validate_sound (target : Target) (typeRefs : list Typ) (any : AnyTypes) (outside : heap) (p : Prog)
    (Hty : types_ok typeRefs) (Hout : ∀ x, x ∈ prog_ids p → outside !! x = None) (Hsafe : isUnsafe p = false)
    (Hself : ∀ r, r ∈ prog_results p → res_Res r ≠ Some (rid r))
    (Hvalid : validate target typeRefs any outside p = Ret None) :
  sound typeRefs p.
Proof.
  unfold validate, validateWithOpts in Hvalid. set (mem := objects p ∪ outside) in *.
  match type of Hvalid with (?k ≫= _) = _ => destruct k as [[e|[]]|] eqn:Ek; [done| |done] end. clear Hvalid. inv_check Ek. clear Ek.
  destruct (validate_calls_spec _ _ _ _ _ _ Hty _ _ _ Hself E) as ([A1 A2 _ A4 A5 A6] & Hsome & Hmeta). cbn [vc_args] in A1. rewrite union_empty_r_L in A1.
  pose proof (en_ids _ _ _ A2) as Hn. fold (prog_ids p) in Hn, A1, A2. fold (prog_results p) in A2, A4, A5.
  assert (Hids : ∀ r, r ∈ prog_results p → rid r ∈ prog_ids p) by apply (en_results _ _ _ A2).
  assert (Hnr : NoDup (rid <$> prog_results p)) by (eapply sublist_NoDup; [exact Hn|apply roots_results_ids]).
  assert (Hmem : ∀ x o, x ∈ prog_ids p → mem !! x = Some o → o ∈ prog_results p ∧ rid o = x).
  { intros x o Hx Hm. unfold mem in Hm. apply lookup_union_Some_raw in Hm as [Hm|[_ Hm]]; [by apply objects_elem|by rewrite Hout in Hm]. }
  assert (Huse : ∀ r u, r ∈ prog_results p → u ∈ uses r → u ∈ prog_ids p).
  { intros r u Hr Hu. pose proof (A4 r u Hr Hu) as Hd. apply elem_of_dom in Hd as [v Hv]. rewrite forallb_forall in Eb.
    specialize (Eb (u, v)). rewrite <-list_elem_of_In, elem_of_map_to_list in Eb. specialize (Eb Hv). apply bool_decide_eq_true in Eb. cbn in Eb. rewrite A1 in Eb. by apply elem_of_list_to_set in Eb. }
  constructor; [done| | |by intros b Hb; apply A6].
  - constructor; [done|done| |].
    + intros l1 r l2 x El Ex. destruct (en_order _ _ _ A2 l1 r l2 x El Ex) as [[Hx|Hx] Hnot]; [by apply not_elem_of_empty in Hx|].
      assert (Hr : r ∈ prog_results p) by (rewrite El; apply elem_of_app; right; by left). destruct (A5 r Hr) as [_ [_ Hl]]. destruct (Hl x Ex) as (o & Ho & _).
      destruct (Hmem x o Hx Ho) as [Hin <-]. rewrite El in Hin. apply elem_of_app in Hin as [Hin|Hin]; [apply list_elem_of_fmap; eauto|]. exfalso. apply Hnot, list_elem_of_fmap. eauto.
    + intros r Hr. apply set_eq. intros u. rewrite elem_of_users. destruct (A5 r Hr) as [_ [Hu _]]. split.
      * intros Hin. destruct (Hu u Hin) as (o & Ho & Eo). destruct (Hmem u o (Huse r u Hr Hin) Ho) as [Ho' <-]. eauto.
      * intros (ru & Hru & <- & Eu). destruct (A5 ru Hru) as [_ [_ Hl]]. destruct (Hl _ Eu) as (o & Ho & Hin). destruct (Hmem _ _ (Hids r Hr) Ho) as [Ho' Eid].
        by rewrite <-(rid_inj _ _ _ Hnr Ho' Hr Eid).
  - constructor.
    + intros r Hr. by apply A5.
    + intros b Hb. destruct (A6 b Hb) as [_ [_ Hv]]. apply Hv.
    + intros c Hc. destruct (Hmeta c Hc) as (m & Em & El). exists m. split; [done|]. lia.
Qed.

(** ** File names stay below the working directory *)

(** Whether following the elements from depth [n] never goes above depth 0. *)
Fixpoint stays (n : nat) (l : list (list Z)) : bool :=
  match l with
  | [] => true
  | e :: l =>
      if decide (e = [] ∨ e = dot) then stays n l
      else if decide (e = dotdot) then match n with O => false | S n => stays n l end
      else stays (S n) l
  end.
Lemma clean_keeps_dotdot kept l : last kept = Some dotdot → last (clean_elems false kept l) = Some dotdot.
Proof.
  revert kept. induction l as [|e l IH]; intros kept Hk; [done|]. cbn [clean_elems]. repeat case_decide; [by apply IH| |].
  - destruct kept as [|k kept]; [done|]. destruct kept as [|k2 kept]; [injection Hk as ->; rewrite decide_True by done; by apply IH|].
    case_decide; apply IH; done.
  - apply IH. by destruct kept.
Qed.
Lemma clean_escapes kept l : Forall (λ e, e ≠ dotdot) kept → stays (length kept) l = false → last (clean_elems false kept l) = Some dotdot.
Proof.
  revert kept. induction l as [|e l IH]; intros kept Hk Hs; [done|]. cbn [clean_elems stays] in *. repeat case_decide; [by apply IH| |].
  - destruct kept as [|k kept]; [subst e; by apply clean_keeps_dotdot|]. apply Forall_cons in Hk as [Hk1 Hk2]. rewrite decide_False by done. by apply IH.
  - apply IH; [by constructor|done].
Qed.
Lemma escapingFilename_sound file : escapingFilename file = false → head file ≠ Some 47 ∧ stays 0 (split_on 47 file) = true.
Proof.
  unfold escapingFilename, Clean. intros H. destruct file as [|b file]; [done|]. case_bool_decide as Hb; [subst b; done|]. split; [cbn; congruence|].
  apply not_false_iff_true. intros Hs. pose proof (clean_escapes [] (split_on 47 (b :: file)) (Forall_nil_2 _) Hs) as Hl.
  rewrite app_nil_l in H. set (out := clean_elems false [] (split_on 47 (b :: file))) in *. destruct (reverse out) as [|e r] eqn:Er.
  - apply (f_equal reverse) in Er. rewrite reverse_involutive in Er. by rewrite Er in Hl.
  - assert (e = dotdot) as ->.
    { rewrite <-(reverse_involutive out), Er, reverse_cons, last_snoc in Hl. by injection Hl. }
    destruct r; done.
Qed.

(** ** Witnesses *)

Definition vx_any : AnyTypes := mkAnyTypes 90 91 92.
Definition vx_target : Target := mkTarget 4096 16 0 [] ∅ ∅ [0].
Lemma gx_types_ok : types_ok gx_types.
Proof.
  intros r t. unfold index. case_decide; [|done]. destruct (gx_types !! Z.to_nat r) as [x|] eqn:E; [|done]. intros [= <-].
  destruct (Z.to_nat r) as [|[|n]] eqn:En; cbn in E; [injection E as <-; done|injection E as <-|done].
  split; [done|]. intros c f d [= <- <- <-]. split; [cbn; lia|]. by eexists.
Qed.
Lemma validate_sound_witness : sound gx_types gx_prog ∧ validate vx_target gx_types vx_any ∅ gx_prog = Ret None.
Proof.
  split; [|vm_compute; reflexivity]. apply (validate_sound vx_target gx_types vx_any ∅ gx_prog).
  - apply gx_types_ok.
  - intros x _. apply lookup_empty.
  - reflexivity.
  - intros r Hr. assert (H : forallb (λ r, bool_decide (res_Res r ≠ Some (rid r))) (prog_results gx_prog) = true) by (vm_compute; reflexivity).
    rewrite forallb_forall in H. apply list_elem_of_In in Hr. apply H in Hr. by apply bool_decide_eq_true in Hr.
  - vm_compute. reflexivity.
Defined.

(** Validation accepts a result argument that refers to itself, because the
    argument is entered before its reference is checked; cloning it panics. *)
Definition vx_types : list Typ := gx_types ++ [PtrType (mkTypeCommon "ptr" 8 8 false false 2) 1 DirInOut false].
Definition vx_self : Prog :=
  mkProg [Some (mkCall (Some (gx_call 4 "f" [2] None)) [PointerArg (mkArgCommon 1 2 DirIn) 0 0 (Some (AResult (gx_fd 2 DirInOut (Some 2) [2])))] None noProps "")] [] false.
Example self_reference_validates : validate vx_target vx_types vx_any ∅ vx_self = Ret None ∧ Clone vx_self = Panic.
Proof. split; vm_compute; reflexivity. Qed.
