(* ===== verification/QueueSources.v ===== *)
(** * Copying and replaceable sources (src/pkg/fuzzer/queue/queue.go: Tee,
    DynamicSource, GlobFiles)

    Tee submits a copy of every request it passes on to another executor, with
    a clone of the program ([ArgGraph]). *)

From S2P Require Import Prelude GoStrings Prog ConfigContext Queues Requests ArgGraph RemoveCall.

(** The interface wanted by the producers of requests. *)
Class Executor (Q : Type) := Submit : Q → nat → Q.
#[export] Instance PlainQueue_executor : Executor (PlainQueue nat) := λ pq id, PlainSubmit pq id.

(** ** Tee *)

Record tee (S Q : Type) := mkTee { tqueue : Q; tsrc : S }.
Arguments mkTee {S Q} _ _.
Arguments tqueue {S Q} _.
Arguments tsrc {S Q} _.
(** The request that is submitted: only what describes the execution. *)
Definition tee_copy (r : Request) : outcome Request :=
  p ← match QProg r with Some p => Clone p | None => Panic end;
  Ret (mkRequest (QType r) (QExecOpts r) (Some p) ([] ++ QActions r) (ConfigContext.Clone (QContext r)) (QDisabled r) (QOriginSig r)
    (QBinaryFile r) (QGlobPattern r) [] false [] [] false 0 None).
#[export] Instance Tee {S Q} `{!Source S} `{!Executor Q} : Source (tee S Q) := λ tbl t,
  '(tbl, src, r) ← SourceNext tbl (tsrc t);
  match r with
  | None => Ret (tbl, mkTee (tqueue t) src, None)
  | Some id =>
      match tbl !! id with
      | None => Panic
      | Some req =>
          copy ← tee_copy req;
          let id' := fresh (dom tbl) in
          Ret (<[id' := copy]> tbl, mkTee (Submit (tqueue t) id') src, Some id)
      end
  end.

(** ** DynamicSource *)

Record DynamicSourceCtl (S : Type) := mkDynamicSource { ds_value : S }.
Arguments mkDynamicSource {S} _.
Arguments ds_value {S} _.
Definition Store {S} (ds : DynamicSourceCtl S) (source : S) : DynamicSourceCtl S := mkDynamicSource source.
#[export] Instance DynamicSource {S} `{!Source S} : Source (DynamicSourceCtl S) := λ tbl ds,
  '(tbl, s, r) ← SourceNext tbl (ds_value ds); Ret (tbl, mkDynamicSource s, r).

(** ** GlobFiles *)

Definition GlobFiles (r : Result) : list (list Z) :=
  let out := trim_zeros (skip_zeros (ROutput r)) in
  if decide (out = []) then [] else split_on 0 out.

(** ** Properties *)

(** Tee passes requests on unchanged and submits an independent copy.  When
    the source returns a request with a well-formed, safe program, Tee returns
    that request and leaves it and all others as the source left them; the
    request it submits is new, has the same type, options, actions, context and
    files, an isomorphic program that shares no argument with the original, and
    no callback, result or preference. *)
Lemma Tee_spec {S Q : Type} `{!Source S} `{!Executor Q} (tbl tbl' : table) (t : tee S Q) (src : S) (id : nat) (req : Request) (p : Prog)
    (Hnext : SourceNext tbl (tsrc t) = Ret (tbl', src, Some id)) (Hreq : tbl' !! id = Some req) (Hp : QProg req = Some p)
    (Hgraph : graph_ok p) (Hsafe : isUnsafe p = false) :
  ∃ id' copy f, SourceNext tbl t = Ret (<[id' := copy]> tbl', mkTee (Submit (tqueue t) id') src, Some id)
  ∧ tbl' !! id' = None ∧ (<[id' := copy]> tbl') !! id = Some req
  ∧ QType copy = QType req ∧ QExecOpts copy = QExecOpts req ∧ QActions copy = QActions req ∧ QContext copy = QContext req
  ∧ QDisabled copy = QDisabled req ∧ QOriginSig copy = QOriginSig req ∧ QBinaryFile copy = QBinaryFile req ∧ QGlobPattern copy = QGlobPattern req
  ∧ Qcallback copy = [] ∧ Qresult copy = None ∧ QAvoid copy = []
  ∧ QProg copy = Some (rename_prog f p) ∧ graph_ok (rename_prog f p) ∧ (∀ x, x ∈ prog_ids (rename_prog f p) → x ∉ prog_ids p).
Proof.
  set (f := copy_id p). set (id' := fresh (dom tbl')). assert (Hid : tbl' !! id' = None) by (apply not_elem_of_dom, is_fresh).
  eexists id', _, f. split_and!.
  - unfold SourceNext at 1, Tee. rewrite Hnext. cbn [mbind outcome_bind]. rewrite Hreq. unfold tee_copy. rewrite Hp, (Clone_rename p Hgraph Hsafe). reflexivity.
  - done.
  - rewrite lookup_insert_ne; [done|]. intros E. rewrite E in Hid. congruence.
  - done.
  - done.
  - done.
  - cbn. destruct (QContext req) as [[]|]; done.
  - done.
  - done.
  - done.
  - done.
  - done.
  - done.
  - done.
  - done.
  - apply rename_graph_ok; [|done]. intros x y. apply copy_id_inj, Hgraph.
  - intros x. rewrite prog_ids_rename. intros (y & -> & _)%list_elem_of_fmap Hx%fresh_id_gt. pose proof (id_from_ge (fresh_id p) (prog_ids p) y). unfold f, copy_id in Hx. lia.
Qed.

(** The names in the output of a glob, separated or ended by zero bytes. *)
Lemma GlobFiles_roundtrip names n m st ex err : names ≠ [] → Forall (λ e, e ≠ [] ∧ 0 ∉ e) names →
  GlobFiles (mkResult st ex (replicate n 0 ++ join_on 0 names ++ replicate m 0) err) = names.
Proof.
  intros Hn Hf. assert (H0 : Forall (λ e, 0 ∉ e) names) by (eapply Forall_impl; [done|]; by intros e [_ ?]).
  assert (Hh : head (join_on 0 names) ≠ Some 0 ∧ join_on 0 names ≠ []).
  { destruct names as [|e l]; [done|]. apply Forall_cons in Hf as [[He H1] _]. destruct e as [|b e]; [done|]. apply not_elem_of_cons in H1 as [Hb _].
    destruct l; cbn; split; congruence. }
  assert (Hl : last (join_on 0 names) ≠ Some 0).
  { clear Hn Hh H0. induction Hf as [|e l [He H1] Hf IH]; [done|]. destruct l as [|e' l].
    - cbn. destruct (last e) as [z|] eqn:E; [|done]. intros [= ->]. apply H1. by eapply last_Some_elem_of.
    - change (join_on 0 (e :: e' :: l)) with (e ++ 0 :: join_on 0 (e' :: l)). rewrite last_app. rewrite last_cons.
      destruct (last (join_on 0 (e' :: l))) as [z|] eqn:E; [done|]. apply last_None in E. apply Forall_cons in Hf as [[He' _] _]. destruct l; cbn in E; [done|by apply app_nil in E as [? ?]]. }
  destruct Hh as [Hh Hne]. unfold GlobFiles. cbn [ROutput]. rewrite skip_zeros_app.
  - rewrite trim_zeros_app by done. rewrite decide_False by done. by apply split_join_on.
  - destruct (join_on 0 names); done.
Qed.

(** ** Witness and findings *)

Definition tq_request (p : option Prog) (t : RequestType) : Request :=
  mkRequest t (mkExecOpts 16 1 0) p [] None false "" "" "*" [] true [] [CbUser (λ _, true)] false 0 None.
Definition tq_table : table := {[0%nat := tq_request (Some gx_prog) RequestTypeProgram; 1%nat := tq_request None RequestTypeGlob]}.
Definition tq_tee (id : nat) : tee (PlainQueue nat) (PlainQueue nat) := mkTee Plain (PlainSubmit Plain id).
Lemma Tee_witness : ∃ id' copy f src, SourceNext tq_table (tq_tee 0) = Ret (<[id' := copy]> tq_table, mkTee (PlainSubmit Plain id') src, Some 0%nat)
  ∧ tq_table !! id' = None ∧ QProg copy = Some (rename_prog f gx_prog) ∧ Qcallback copy = [].
Proof.
  destruct (Tee_spec tq_table tq_table (tq_tee 0) (mkPlain [None] 1) 0 (tq_request (Some gx_prog) RequestTypeProgram) gx_prog) as (id' & copy & f & E & H1 & _ & H).
  - reflexivity.
  - reflexivity.
  - reflexivity.
  - apply gx_graph.
  - reflexivity.
  - exists id', copy, f, (mkPlain [None] 1). destruct H as (_ & _ & _ & _ & _ & _ & _ & _ & Hc & _ & _ & Hprog & _). split_and!; [exact E|exact H1|exact Hprog|exact Hc].
Defined.
(** A request for a glob or a binary has no program, which Tee clones all the
    same. *)
Example tee_needs_program : SourceNext tq_table (tq_tee 1) = Panic.
Proof. vm_compute. reflexivity. Qed.
