(* ===== verification/RandGen.v ===== *)
(** * Random values (src/prog/rand.go, src/prog/mutation.go)

    The numeric helpers of [randGen] and the mutations of integers, flags and
    array lengths.  A loop that runs as long as the generator says so takes
    fuel and gives [None] without it. *)

From Stdlib Require Import SpecFloat.
From S2P Require Import Prelude Bits Prog Params Corpus ForeachArg Alloc Hints.

(** ** Integers *)

Definition nOutOf (n outOf : Z) (r : rng) : outcome (bool * rng) :=
  if decide (n ≤ 0 ∨ outOf ≤ n) then Panic else '(v, r) ← Intn outOf r; Ret (bool_decide (v < n), r).

(** [r.Int63()], [r.Uint64()] and [r.Int31()]. *)
Definition Int63 (r : rng) : Z * rng := (hd 0 r mod 2 ^ 63, tl r).
Definition Uint64 (r : rng) : Z * rng := (u64 (hd 0 r), tl r).
Definition Int31 (r : rng) : Z * rng := (hd 0 r mod 2 ^ 31, tl r).

Definition randRange (begin_ end_ : Z) (r : rng) : outcome (Z * rng) :=
  '(i, r) ← Intn (i64 (end_ -u begin_ +u 1)) r; Ret (begin_ +u i, r).
Definition rand64 (r : rng) : outcome (Z * rng) :=
  let '(v, r) := Int63 r in
  '(b, r) ← bin r;
  Ret (if (b : bool) then Z.lor v (2 ^ 63) else v, r).

(** The number of special integers of at most [i] bytes. *)
Definition specialIntIndex (i : Z) : Z :=
  Z.of_nat (Search (length specialInts) (λ j, negb (Z.shiftr (default 0 (specialInts !! j)) (8 * i) =? 0))).

(** The first switch of randInt: the magnitude. *)
Definition randInt_size (bits v : Z) (r : rng) : outcome (Z * rng) :=
  '(c, r) ← nOutOf 100 182 r;
  if (c : bool) then Ret (v mod 10, r) else
  '(c, r) ← (if decide (8 ≤ bits) then nOutOf 50 82 r else Ret (false, r));
  if (c : bool) then
    '(i, r) ← Intn (specialIntIndex (bits / 8)) r;
    v ← index specialInts i;
    Ret (v, r)
  else
  '(c, r) ← nOutOf 10 32 r;
  if (c : bool) then Ret (v mod 256, r) else
  '(c, r) ← nOutOf 10 22 r;
  if (c : bool) then Ret (v mod (Z.shiftl 4 10), r) else
  '(c, r) ← nOutOf 10 12 r;
  if (c : bool) then Ret (v mod (Z.shiftl 64 10), r) else
  Ret (v mod (Z.shiftl 1 31), r).
(** The second switch: kept, negated or shifted. *)
Definition randInt_shape (bits v : Z) (r : rng) : outcome (Z * rng) :=
  '(c, r) ← nOutOf 100 107 r;
  if (c : bool) then Ret (v, r) else
  '(c, r) ← nOutOf 5 7 r;
  if (c : bool) then Ret (u64 (- i64 v), r) else
  '(k, r) ← Intn (i64 bits) r;
  Ret (u64 (Z.shiftl v k), r).
Definition randInt (bits : Z) (r : rng) : outcome (Z * rng) :=
  '(v, r) ← rand64 r;
  '(v, r) ← randInt_size bits v r;
  '(v, r) ← randInt_shape bits v r;
  v ← truncateToBitSize v bits;
  Ret (v, r).
Definition randInt64 (r : rng) : outcome (Z * rng) := randInt 64 r.

(** [a % b] and [a / b] on uint64. *)
Definition umod (a b : Z) : outcome Z := if decide (b = 0) then Panic else Ret (a mod b).
Definition udiv (a b : Z) : outcome Z := if decide (b = 0) then Panic else Ret (a / b).

(** randRangeInt without an alignment. *)
Definition randRangeInt_plain (begin_ end_ bitSize : Z) (r : rng) : outcome (Z * rng) :=
  '(any, r) ← oneOf 100 r;
  if (any : bool) then randInt bitSize r
  else
    let '(v, r) := Uint64 r in
    m ← umod v (end_ -u begin_ +u 1);
    Ret (begin_ +u m, r).
Definition whole_range (begin_ end_ bitSize : Z) : Z :=
  if decide (begin_ = 0 ∧ i64 end_ = -1) then mask64 bitSize else end_.
Definition randRangeInt (begin_ end_ bitSize align : Z) (r : rng) : outcome (Z * rng) :=
  if decide (align = 0) then randRangeInt_plain begin_ end_ bitSize r
  else
    '(any, r) ← oneOf 100 r;
    if (any : bool) then randInt bitSize r
    else
      let end_ := whole_range begin_ end_ bitSize in
      endAlign ← udiv (end_ -u begin_) align;
      '(x, r) ← randRangeInt_plain 0 endAlign bitSize r;
      Ret (begin_ +u x *u align, r).

(** ** Biased choice *)

Definition fdiv : spec_float → spec_float → spec_float := SFdiv 53 1024.
Definition fsqrt : spec_float → spec_float := SFsqrt 53 1024.
(** [int(f)] truncates; what does not fit gives the least integer (amd64). *)
Definition float_int (f : spec_float) : Z :=
  match f with
  | S754_zero _ => 0
  | S754_finite s m e =>
      let a := if decide (0 ≤ e) then Z.shiftl (Zpos m) e else Z.shiftr (Zpos m) (- e) in
      let v := if (s : bool) then - a else a in
      if decide (in_i64 v) then v else - 2 ^ 63
  | S754_infinity _ | S754_nan => - 2 ^ 63
  end.
Definition biasedRand (n k : Z) (r : rng) : Z * rng :=
  let nf := f64 n in
  let kf := f64 k in
  let '(f, r) := Float64 r in
  let rf := fmul (fmul nf (fadd (fdiv kf (f64 2)) (f64 1))) f in
  let bf := fdiv (fmul (fadd (f64 (-1)) (fsqrt (fadd (f64 1) (fdiv (fmul (fmul (f64 2) kf) rf) nf)))) nf) kf in
  (float_int bf, r).

(** ** Lengths *)

Definition maxArrayLen : Z := 10.
Definition randArrayLen (r : rng) : Z * rng :=
  let '(b, r) := biasedRand (maxArrayLen + 1) 10 r in
  (u64 (maxArrayLen - b + 1) mod (maxArrayLen + 1), r).
Definition randBufLen (r : rng) : outcome (Z * rng) :=
  '(c, r) ← nOutOf 50 56 r;
  if (c : bool) then rand 256 r else
  '(c, r) ← nOutOf 5 6 r;
  Ret (if (c : bool) then Z.shiftl 4 10 else 0, r).
Definition randPageCount (target : Target) (r : rng) : outcome (Z * rng) :=
  '(c, r) ← nOutOf 100 106 r;
  if (c : bool) then '(n, r) ← rand 4 r; Ret (n +u 1, r) else
  '(c, r) ← nOutOf 5 6 r;
  if (c : bool) then '(n, r) ← rand 20 r; Ret (n +u 1, r) else
  '(n, r) ← rand 3 r;
  Ret ((n +u 1) *u NumPages target / 4, r).

(** The new length of an array of [n] elements (ArrayType.mutate): [count]
    starts at zero. *)
Fixpoint grow_count (fuel : nat) (count : Z) (r : rng) : outcome (option (Z * rng)) :=
  match fuel with
  | O => Ret None
  | S fuel => '(more, r) ← bin r; if (more : bool) then grow_count fuel (count +u 1) r else Ret (Some (count, r))
  end.
Fixpoint repick_count (fuel : nat) (pick : rng → outcome (Z * rng)) (n count : Z) (r : rng) : outcome (option (Z * rng)) :=
  if decide (count = n) then
    match fuel with
    | O => Ret None
    | S fuel => '(count, r) ← pick r; repick_count fuel pick n count r
    end
  else Ret (Some (count, r)).
Definition array_count (fuel : nat) (kind : ArrayKind) (rangeBegin rangeEnd n : Z) (r : rng) : outcome (option (Z * rng)) :=
  match kind with
  | ArrayRandLen =>
      '(grow, r) ← bin r;
      if (grow : bool) then grow_count fuel n r else repick_count fuel (λ r, Ret (randArrayLen r)) n 0 r
  | ArrayRangeLen =>
      if decide (rangeBegin = rangeEnd) then Panic else repick_count fuel (randRange rangeBegin rangeEnd) n 0 r
  end.
(** Swaps of elements before that. *)
Fixpoint swap_elems {A} (fuel : nat) (l : list A) (r : rng) : outcome (option (list A * rng)) :=
  match fuel with
  | O => Ret None
  | S fuel =>
      '(more, r) ← nOutOf 2 3 r;
      if (more : bool) then
        '(i, r) ← Intn (len l) r;
        '(j, r) ← Intn (len l) r;
        x ← index l i;
        y ← index l j;
        swap_elems fuel (<[Z.to_nat j := x]> (<[Z.to_nat i := y]> l)) r
      else Ret (Some (l, r))
  end.

(** ** Flags *)

Fixpoint walk_value (fuel : nat) (v inc : Z) (r : rng) : outcome (option (Z * rng)) :=
  match fuel with
  | O => Ret None
  | S fuel => '(more, r) ← bin r; if (more : bool) then walk_value fuel (v +u inc) inc r else Ret (Some (v, r))
  end.
(** Adjacent bits once in a while. *)
Definition near_flag (flag : Z) (r : rng) : outcome (Z * rng) :=
  '(near, r) ← oneOf 20 r;
  if (near : bool) then
    '(down, r) ← bin r;
    Ret (if (down : bool) then Z.shiftr flag 1 else u64 (Z.shiftl flag 1), r)
  else Ret (flag, r).
Fixpoint flip_flags (tries : nat) (vv : list Z) (v : Z) (r : rng) : outcome (Z * rng) :=
  match tries with
  | O => Ret (v, r)
  | S tries =>
      '(more, r) ← (if decide (v = 0) then Ret (true, r) else nOutOf 2 3 r);
      if (more : bool) then
        '(i, r) ← rand (len vv) r;
        flag ← index vv i;
        '(flag, r) ← near_flag flag r;
        flip_flags tries vv (Z.lxor v flag) r
      else Ret (v, r)
  end.
Definition some_value (x : Z * rng) : option (Z * rng) := Some x.
Definition flags (fuel : nat) (vv : list Z) (bitmask : bool) (oldVal : Z) (r : rng) : outcome (option (Z * rng)) :=
  '(c, r) ← oneOf 100 r;
  if (c : bool) then some_value <$> rand64 r else
  '(c, r) ← oneOf 50 r;
  if (c : bool) then Ret (Some (0, r)) else
  '(c, r) ← (if decide (bitmask = false ∧ oldVal ≠ 0) then oneOf 100 r else Ret (false, r));
  if (c : bool) then
    '(down, r) ← bin r;
    let inc := if (down : bool) then 2 ^ 64 - 1 else 1 in
    walk_value fuel (oldVal +u inc) inc r
  else if decide (len vv = 1) then
    '(zero, r) ← bin r;
    if (zero : bool) then Ret (Some (0, r)) else v ← index vv 0; Ret (Some (v, r))
  else
  '(c, r) ← (if bitmask then Ret (true, r) else oneOf 10 r);
  if negb c then '(i, r) ← rand (len vv) r; v ← index vv i; Ret (Some (v, r)) else
  '(c, r) ← oneOf (len vv + 4) r;
  if (c : bool) then Ret (Some (0, r)) else
  '(c, r) ← (if decide (oldVal ≠ 0) then oneOf 10 r else Ret (false, r));
  some_value <$> flip_flags 10 vv (if (c : bool) then 0 else oldVal) r.

(** FlagsType.mutate: until the value differs. *)
Fixpoint mutate_flags (fuel : nat) (vv : list Z) (bitmask : bool) (oldVal val : Z) (r : rng) : outcome (option (Z * rng)) :=
  if decide (oldVal = val) then
    match fuel with
    | O => Ret None
    | S fuel =>
        x ← flags fuel vv bitmask val r;
        match x with None => Ret None | Some (val, r) => mutate_flags fuel vv bitmask oldVal val r end
    end
  else Ret (Some (val, r)).

(** ** Mutation of integers *)

Definition mutateInt (val : Z) (t : Typ) (r : rng) : outcome (Z * rng) :=
  '(c, r) ← nOutOf 1 3 r;
  if (c : bool) then '(d, r) ← Intn 4 r; Ret (val +u (d + 1), r) else
  '(c, r) ← nOutOf 1 2 r;
  if (c : bool) then '(d, r) ← Intn 4 r; Ret (val -u (d + 1), r) else
  bits ← TypeBitSize t;
  '(k, r) ← Intn (i64 bits) r;
  Ret (Z.lxor val (shl1 k), r).
(** The new index among the aligned values. *)
Definition step_index (bits idx : Z) (r : rng) : outcome (Z * rng) :=
  '(c, r) ← nOutOf 1 3 r;
  if (c : bool) then '(d, r) ← Intn 4 r; Ret (idx +u (d + 1), r) else
  '(c, r) ← nOutOf 1 2 r;
  if (c : bool) then '(d, r) ← Intn 4 r; Ret (idx -u (d + 1), r) else
  '(k, r) ← Intn (i64 bits) r;
  Ret (Z.lxor idx (shl1 k), r).
Definition mutateAlignedInt (val : Z) (t : Typ) (rangeBegin rangeEnd align : Z) (r : rng) : outcome (Z * rng) :=
  bits ← TypeBitSize t;
  let rangeEnd := whole_range rangeBegin rangeEnd bits in
  idx ← udiv (val -u rangeBegin) align;
  misalignment ← umod (val -u rangeBegin) align;
  '(idx, r) ← step_index bits idx r;
  lastIndex ← udiv (rangeEnd -u rangeBegin) align;
  idx ← umod idx (lastIndex +u 1);
  Ret (rangeBegin +u idx *u align +u misalignment, r).
(** IntType.mutate once it does not generate a new argument. *)
Definition mutate_int (val : Z) (t : Typ) (r : rng) : outcome (Z * rng) :=
  match t with
  | IntType _ _ rangeBegin rangeEnd align =>
      '(val, r) ← (if decide (align = 0) then mutateInt val t r else mutateAlignedInt val t rangeBegin rangeEnd align r);
      bits ← TypeBitSize t;
      val ← truncateToBitSize val bits;
      Ret (val, r)
  | _ => Panic
  end.

(** ** Every draw gives a result *)

(** [m] does not panic and its result satisfies [P]. *)
Definition returns {A} (m : outcome A) (P : A → Prop) : Prop := ∃ x, m = Ret x ∧ P x.

Lemma returns_Ret {A} (x : A) (P : A → Prop) : P x → returns (Ret x) P.
Proof. by exists x. Qed.
Lemma returns_bind {A B} (m : outcome A) (f : A → outcome B) (P : A → Prop) (Q : B → Prop) :
  returns m P → (∀ x, P x → returns (f x) Q) → returns (m ≫= f) Q.
Proof. intros (x & -> & Hx) Hf. by apply Hf. Qed.
Lemma returns_fmap {A B} (m : outcome A) (f : A → B) (Q : B → Prop) : returns m (λ x, Q (f x)) → returns (f <$> m) Q.
Proof. intros (x & -> & Hx). by exists (f x). Qed.
Lemma returns_mono {A} (m : outcome A) (P Q : A → Prop) : returns m P → (∀ x, P x → Q x) → returns m Q.
Proof. intros (x & -> & Hx) H. exists x. auto. Qed.

Lemma returns_Intn n r : 0 < n → returns (Intn n r) (λ x, 0 ≤ x.1 < n).
Proof. intros Hn. destruct (Intn_Ret n r Hn) as (i & -> & Hi). by apply returns_Ret. Qed.
Lemma returns_rand n r : 0 < n < 2 ^ 64 → returns (rand n r) (λ x, 0 ≤ x.1 < n).
Proof.
  intros Hn. unfold rand. eapply returns_bind; [apply returns_Intn; lia|]. intros [i r'] Hi. apply returns_Ret. cbn in *.
  rewrite u64_id by (unfold in_u64; lia). lia.
Qed.
Lemma returns_bin r : returns (bin r) (λ _, True).
Proof. unfold bin. eapply returns_bind; [apply returns_Intn; lia|]. intros [i r'] _. by apply returns_Ret. Qed.
Lemma returns_oneOf n r : 0 < n → returns (oneOf n r) (λ _, True).
Proof. intros. unfold oneOf. eapply returns_bind; [by apply returns_Intn|]. intros [i r'] _. by apply returns_Ret. Qed.
Lemma returns_nOutOf n m r : 0 < n < m → returns (nOutOf n m r) (λ _, True).
Proof.
  intros. unfold nOutOf. rewrite decide_False by lia. eapply returns_bind; [apply returns_Intn; lia|]. intros [i r'] _. by apply returns_Ret.
Qed.
Lemma returns_index {A} (l : list A) i (P : A → Prop) : 0 ≤ i < len l → Forall P l → returns (index l i) P.
Proof. intros Hi HP. destruct (index_Ret l i Hi) as (x & -> & Hx). apply returns_Ret. by eapply Forall_lookup_1. Qed.
Lemma index_inv {A} (l : list A) i x : index l i = Ret x → l !! Z.to_nat i = Some x.
Proof. unfold index. case_decide; [|done]. destruct (l !! Z.to_nat i); [|done]. by intros [= ->]. Qed.
Create HintDb draws.
#[export] Hint Resolve returns_bin : draws.
#[export] Hint Extern 1 (returns (Intn _ _) _) => apply returns_Intn; lia : draws.
#[export] Hint Extern 1 (returns (rand _ _) _) => apply returns_rand; lia : draws.
#[export] Hint Extern 1 (returns (oneOf _ _) _) => apply returns_oneOf; lia : draws.
#[export] Hint Extern 1 (returns (nOutOf _ _ _) _) => apply returns_nOutOf; lia : draws.
(** One draw, one branch. *)
Ltac draw_step :=
  cbn beta match;
  lazymatch goal with
  | |- returns (mbind _ _) _ => eapply returns_bind; [solve [eauto with draws nocore]|]; intros [? ?] ?; cbn [fst snd] in *
  | |- returns (if ?b then _ else _) _ => destruct b
  | |- returns (let '(_, _) := ?x in _) _ => destruct x eqn:?
  | |- returns (Ret _) _ => apply returns_Ret
  end.

(** ** Integers fit their size *)

Lemma mod_u64 x m : 0 < m ≤ 2 ^ 64 → in_u64 (x mod m).
Proof. intros. pose proof (Z.mod_pos_bound x m). unfold in_u64. lia. Qed.
Lemma specialInts_u64 : Forall in_u64 specialInts.
Proof. unfold specialInts. repeat constructor; unfold in_u64; lia. Qed.
Lemma specialIntIndex_range i : 1 ≤ i ≤ 8 → 1 ≤ specialIntIndex i ≤ len specialInts.
Proof.
  intros Hi. assert (H : Forall (λ i, 1 ≤ specialIntIndex i ≤ len specialInts) (seqZ 1 8)).
  { vm_compute. repeat constructor; vm_compute; congruence. }
  rewrite Forall_forall in H. apply H, elem_of_seqZ. lia.
Qed.
Lemma rand64_spec r : returns (rand64 r) (λ x, in_u64 x.1).
Proof.
  unfold rand64, Int63. repeat draw_step. pose proof (Z.mod_pos_bound (hd 0 r) (2 ^ 63)) as Hm. cbn [fst]. destruct b.
  - apply (in_u64_set (hd 0 r mod 2 ^ 63) 63); unfold in_u64; lia.
  - unfold in_u64; lia.
Qed.
#[export] Hint Resolve rand64_spec : draws.
Lemma randInt_size_spec bits v r : 0 ≤ bits ≤ 64 → in_u64 v → returns (randInt_size bits v r) (λ x, in_u64 x.1).
Proof.
  intros Hb Hv. unfold randInt_size. draw_step. draw_step; [draw_step; apply mod_u64; lia|].
  eapply (returns_bind _ _ (λ x, x.1 = true → 8 ≤ bits)).
  { case_decide; [|by apply returns_Ret]. eapply returns_mono; [apply returns_nOutOf; lia|done]. }
  intros [c r1] Hc. cbn beta match. cbn [fst] in Hc. destruct c.
  - specialize (Hc eq_refl). destruct (specialIntIndex_range (bits / 8)) as [H1 H2].
    { split; [apply Z.div_le_lower_bound; lia|apply Z.lt_succ_r, Z.div_lt_upper_bound; lia]. }
    draw_step. eapply returns_bind; [apply returns_index; [lia|apply specialInts_u64]|]. intros x Hx. by apply returns_Ret.
  - repeat draw_step; apply mod_u64; done.
Qed.
Lemma randInt_shape_spec bits v r : 1 ≤ bits ≤ 64 → in_u64 v → returns (randInt_shape bits v r) (λ x, in_u64 x.1).
Proof.
  intros Hb Hv. unfold randInt_shape. rewrite (i64_id bits) by (unfold in_i64; lia). repeat draw_step; eauto with go.
Qed.
Lemma truncate_spec v bits : 1 ≤ bits ≤ 64 → truncateToBitSize v bits = Ret (v mod 2 ^ bits).
Proof. intros. unfold truncateToBitSize. rewrite decide_False by lia. by rewrite land_mask by lia. Qed.
Lemma randInt_spec bits r : 1 ≤ bits ≤ 64 → returns (randInt bits r) (λ x, 0 ≤ x.1 < 2 ^ bits).
Proof.
  intros Hb. unfold randInt. draw_step. cbn beta match. eapply returns_bind; [apply randInt_size_spec; [lia|done]|].
  intros [v1 r1] H1. cbn beta match. eapply returns_bind; [by apply randInt_shape_spec|]. intros [v2 r2] H2. cbn beta match.
  rewrite truncate_spec by done. apply returns_Ret. apply Z.mod_pos_bound. lia.
Qed.
#[export] Hint Extern 1 (returns (randInt _ _) _) => apply randInt_spec; lia : draws.

Definition in_range (begin_ end_ v : Z) : Prop := begin_ ≤ v ≤ end_.
Lemma randRangeInt_plain_spec begin_ end_ bits r :
  in_u64 begin_ → in_u64 end_ → begin_ ≤ end_ → end_ - begin_ < 2 ^ 64 - 1 → 1 ≤ bits ≤ 64 →
  returns (randRangeInt_plain begin_ end_ bits r) (λ x, 0 ≤ x.1 < 2 ^ bits ∨ in_range begin_ end_ x.1).
Proof.
  unfold in_u64. intros Hb He Hbe Hw Hbits. unfold randRangeInt_plain, Uint64, umod. draw_step. draw_step.
  - eapply returns_mono; [by apply randInt_spec|]. by left.
  - rewrite (u64_id (end_ - begin_)), u64_id by (unfold in_u64; lia). rewrite decide_False by lia. cbn [mbind outcome_bind].
    apply returns_Ret. right. cbn. pose proof (Z.mod_pos_bound (u64 (hd 0 r0)) (end_ - begin_ + 1)). unfold in_range. rewrite u64_id by (unfold in_u64; lia). lia.
Qed.
(** An aligned value of a range, or one of the two ways out of it. *)
Lemma randRangeInt_spec begin_ end_ bits align r :
  in_u64 begin_ → in_u64 end_ → 0 < align < 2 ^ 64 → 1 ≤ bits ≤ 64 → begin_ ≤ end_ →
  ((whole_range begin_ end_ bits - begin_) / align < 2 ^ 64 - 1) →
  returns (randRangeInt begin_ end_ bits align r)
    (λ x, 0 ≤ x.1 < 2 ^ bits ∨ (∃ k, 0 ≤ k < 2 ^ bits ∧ x.1 = begin_ +u k *u align)
          ∨ (∃ k, x.1 = begin_ + k * align) ∧ in_range begin_ (whole_range begin_ end_ bits) x.1).
Proof.
  intros Hb He Ha Hbits Hbe Hlast. unfold randRangeInt. rewrite decide_False by lia. draw_step. draw_step.
  { eapply returns_mono; [by apply randInt_spec|]. by left. }
  cbn zeta. set (e := whole_range begin_ end_ bits) in *.
  assert (in_u64 e ∧ begin_ ≤ e) as [He1 Hbe1].
  { unfold e, whole_range, in_u64 in *. case_decide as Hd; [|lia]. rewrite mask64_eq by lia. pose proof (pow2_le bits). lia. }
  unfold in_u64 in *. unfold udiv. rewrite decide_False by lia. cbn [mbind outcome_bind]. rewrite (u64_id (e - begin_)) by (unfold in_u64; lia).
  assert (Hq : 0 ≤ (e - begin_) / align) by (apply Z.div_pos; lia).
  pose proof (Z.mul_div_le (e - begin_) align ltac:(lia)) as Hmul.
  eapply returns_bind; [apply randRangeInt_plain_spec; unfold in_u64; lia|]. intros [x r1] Hx. cbn [fst] in Hx. apply returns_Ret. cbn [fst].
  destruct Hx as [Hx|[Hx1 Hx2]]; [right; left; by exists x|]. right; right.
  assert (0 ≤ x * align ≤ e - begin_) by nia. rewrite (u64_id (x * align)), u64_id by (unfold in_u64; lia). split; [by exists x|]. unfold in_range. lia.
Qed.

(** ** Aligned mutation *)

Lemma step_index_spec bits idx r : 1 ≤ bits ≤ 64 → in_u64 idx → returns (step_index bits idx r) (λ x, in_u64 x.1).
Proof.
  intros Hb Hi. unfold step_index. rewrite (i64_id bits) by (unfold in_i64; lia). repeat draw_step; cbn [fst]; [apply u64_range..|].
  apply lxor_u64; [done|]. unfold shl1. apply u64_range.
Qed.
(** The values of an aligned range. *)
Definition aligned_in (begin_ end_ align v : Z) : Prop := in_range begin_ end_ v ∧ (align | v - begin_).

Lemma mutateAlignedInt_spec val t begin_ end_ align bits r :
  TypeBitSize t = Ret bits → 1 ≤ bits ≤ 64 → in_u64 begin_ → in_u64 (whole_range begin_ end_ bits) → 0 < align < 2 ^ 64 →
  aligned_in begin_ (whole_range begin_ end_ bits) align val → (whole_range begin_ end_ bits - begin_) / align < 2 ^ 64 - 1 →
  returns (mutateAlignedInt val t begin_ end_ align r) (λ x, aligned_in begin_ (whole_range begin_ end_ bits) align x.1).
Proof.
  intros Ht Hbits Hb He Ha [Hv [q Hq]] Hlast. unfold mutateAlignedInt. rewrite Ht. cbn [mbind outcome_bind]. cbn zeta.
  set (e := whole_range begin_ end_ bits) in *. unfold in_range, in_u64 in *. unfold udiv, umod. rewrite !(decide_False (P := align = 0)) by lia.
  cbn [mbind outcome_bind]. rewrite (u64_id (val - begin_)), (u64_id (e - begin_)) by (unfold in_u64; lia).
  assert (Hq0 : 0 ≤ (e - begin_) / align) by (apply Z.div_pos; lia).
  rewrite Hq, Z.div_mul, Z.mod_mul by lia. eapply returns_bind; [apply step_index_spec; [done|unfold in_u64; nia]|]. intros [idx r1] Hidx. cbn [fst] in Hidx.
  rewrite (u64_id (_ / _ + 1)) by (unfold in_u64; lia). rewrite decide_False by lia. cbn [mbind outcome_bind]. apply returns_Ret. cbn [fst].
  set (k := idx mod _). assert (Hk : 0 ≤ k < (e - begin_) / align + 1) by (apply Z.mod_pos_bound; lia).
  pose proof (Z.mul_div_le (e - begin_) align ltac:(lia)) as Hmul. assert (0 ≤ k * align ≤ e - begin_) by nia.
  rewrite (u64_id (k * align)), (u64_id (begin_ + _)), u64_id by (unfold in_u64; lia). unfold aligned_in, in_range. split; [lia|]. exists k. lia.
Qed.

(** Mutating the value of an aligned integer type whose range is written
    with non-negative bounds that fit its bit size: for all random numbers the
    new value is again an aligned value of the range. *)
Theorem mutate_int_aligned (c : IntTypeCommon) (kind : IntKind) (begin_ end_ align bits val : Z) (r : rng)
    (Hbits : TypeBitSize (IntType c kind begin_ end_ align) = Ret bits) (Hsize : 1 ≤ bits ≤ 64) (Ha : 0 < align < 2 ^ 64)
    (Hb : 0 ≤ begin_) (He : whole_range begin_ end_ bits < 2 ^ bits)
    (Hlast : (whole_range begin_ end_ bits - begin_) / align < 2 ^ 64 - 1)
    (Hval : aligned_in begin_ (whole_range begin_ end_ bits) align val) :
  ∃ v r', mutate_int val (IntType c kind begin_ end_ align) r = Ret (v, r')
    ∧ aligned_in begin_ (whole_range begin_ end_ bits) align v.
Proof.
  pose proof (pow2_le bits ltac:(lia)) as Hp. destruct Hval as [Hval1 Hval2]. unfold in_range in Hval1.
  destruct (mutateAlignedInt_spec val (IntType c kind begin_ end_ align) begin_ end_ align bits r) as ([v r'] & E & Hv);
    [done|done|unfold in_u64; lia|unfold in_u64; lia|done|done|done|].
  exists v, r'. cbn [fst] in Hv. split; [|done]. unfold mutate_int. rewrite decide_False by lia. rewrite E. cbn [mbind outcome_bind].
  rewrite Hbits. cbn [mbind outcome_bind]. rewrite truncate_spec by done. cbn [mbind outcome_bind].
  destruct Hv as [[Hv1 Hv2] _]. by rewrite Z.mod_small by lia.
Qed.

(** ** Lengths and order of arrays *)

Lemma repick_count_differs fuel pick n count r c r' : repick_count fuel pick n count r = Ret (Some (c, r')) → c ≠ n.
Proof.
  revert count r. induction fuel as [|fuel IH]; intros count r; cbn [repick_count]; (case_decide as Hc; [|by intros [= <- <-]]); [done|].
  intros H. inv_ret H. destruct v as [v r1]. by apply IH in H.
Qed.
(** An array with elements and a range for their number always loses all of
    them: the loop compares with the initial zero. *)
Lemma array_count_clears fuel begin_ end_ n r :
  begin_ ≠ end_ → n ≠ 0 → array_count fuel ArrayRangeLen begin_ end_ n r = Ret (Some (0, r)).
Proof. intros Hne Hn. unfold array_count. rewrite decide_False by done. destruct fuel; cbn [repick_count]; by rewrite decide_False by done. Qed.
Lemma swap_elems_perm {A} fuel (l l' : list A) r r' : swap_elems fuel l r = Ret (Some (l', r')) → l' ≡ₚ l.
Proof.
  revert l r. induction fuel as [|fuel IH]; intros l r; [done|]. cbn [swap_elems]. intros H. inv_ret H. destruct v as [more r1]. destruct more; [|by injection H as -> ->].
  inv_ret H. destruct v as [i r2]. inv_ret H. destruct v as [j r3]. inv_ret H. apply IH in H. rewrite H.
  by apply Permutation_insert_swap; apply index_inv.
Qed.

(** ** Flags *)

Lemma near_flag_spec flag r : in_u64 flag → returns (near_flag flag r) (λ x, in_u64 x.1).
Proof.
  intros Hf. unfold near_flag. repeat draw_step; [|done]. cbn [fst]. destruct b; [by apply shiftr_u64|apply u64_range].
Qed.
Lemma flip_flags_spec tries vv v r : vv ≠ [] → len vv < 2 ^ 63 → Forall in_u64 vv → in_u64 v → returns (flip_flags tries vv v r) (λ x, in_u64 x.1).
Proof.
  intros Hvv Hlen Hall. assert (0 < len vv) by (unfold len; destruct vv; [done|cbn; lia]).
  revert v r. induction tries as [|tries IH]; intros v r Hv; cbn [flip_flags]; [by apply returns_Ret|].
  apply (returns_bind _ _ (λ _, True)); [case_decide; [by apply returns_Ret|apply returns_nOutOf; lia]|]. intros [more r1] _. draw_step; [|by apply returns_Ret].
  draw_step. eapply returns_bind; [apply returns_index; [lia|done]|]. intros flag Hflag. cbn beta.
  eapply returns_bind; [by apply near_flag_spec|]. intros [flag' r2] Hflag'. by apply IH, lxor_u64.
Qed.
(** Without an old value to walk away from, flags always ends. *)
Lemma flags_fresh fuel vv bitmask r : vv ≠ [] → len vv < 2 ^ 62 → Forall in_u64 vv →
  returns (flags fuel vv bitmask 0 r) (λ x, ∃ v r', x = Some (v, r') ∧ in_u64 v).
Proof.
  intros Hvv Hlen Hall. assert (0 < len vv) by (unfold len; destruct vv; [done|cbn; lia]). assert (H0 : in_u64 0) by done.
  unfold flags, some_value. draw_step. draw_step.
  { apply returns_fmap. eapply returns_mono; [apply rand64_spec|]. intros [v r'] Hv. by exists v, r'. }
  draw_step. draw_step; [apply returns_Ret; by exists 0, r1|]. cbn beta match.
  rewrite (decide_False (P := bitmask = false ∧ 0 ≠ 0)) by naive_solver. cbn [mbind outcome_bind].
  case_decide as Hone.
  { draw_step. draw_step; [apply returns_Ret; by exists 0, r2|]. eapply returns_bind; [apply returns_index; [lia|done]|]. intros v Hv. apply returns_Ret. by exists v, r2. }
  apply (returns_bind _ _ (λ _, True)); [destruct bitmask; [by apply returns_Ret|apply returns_oneOf; lia]|]. intros [c r2] _. draw_step.
  { draw_step. eapply returns_bind; [apply returns_index; [lia|done]|]. intros v Hv. apply returns_Ret. by exists v, r3. }
  draw_step. draw_step; [apply returns_Ret; by exists 0, r3|]. rewrite (decide_False (P := 0 ≠ 0)) by naive_solver. cbn [mbind outcome_bind].
  apply returns_fmap. eapply returns_mono; [apply (flip_flags_spec 10); (done || (destruct b; done) || lia)|]. intros [v r'] Hv. by exists v, r'.
Qed.
Lemma mutate_flags_differs fuel vv bitmask old val r v r' : mutate_flags fuel vv bitmask old val r = Ret (Some (v, r')) → v ≠ old.
Proof.
  revert val r. induction fuel as [|fuel IH]; intros val r; cbn [mutate_flags]; (case_decide as Hc; [|intros [= <- <-]; congruence]); [done|].
  intros H. inv_ret H. destruct v0 as [[v1 r1]|]; [|done]. by apply IH in H.
Qed.

(** ** Concrete runs *)

Definition int_common_of (size : Z) : IntTypeCommon :=
  mkIntTypeCommon (mkTypeCommon "int" size size false false 1) FormatNative 0 0 0 0 ∅.

(** int32[0:100, 4]: 96 and four steps further is the fourth aligned value
    from the start. *)
Lemma mutate_int_aligned_witness :
  mutate_int 96 (IntType (int_common_of 4) IntRange 0 100 4) [0; 3] = Ret (8, [])
  ∧ ∃ v r', mutate_int 96 (IntType (int_common_of 4) IntRange 0 100 4) [0; 3] = Ret (v, r') ∧ aligned_in 0 (whole_range 0 100 32) 4 v.
Proof.
  split; [vm_compute; reflexivity|].
  refine (mutate_int_aligned (int_common_of 4) IntRange 0 100 4 32 96 [0; 3] eq_refl _ _ _ _ _ _); try lia; try (vm_compute; done).
  split; [split; vm_compute; congruence|]. exists 24. vm_compute. reflexivity.
Defined.

(** int8[-9:9, 3]: the value -9 is stored as 0xf7 and its distance to the begin
    of the range taken as 256; two steps down leave the range and the
    alignment: the result is 10. *)
Example mutate_int_negative : mutate_int 0xf7 (IntType (int_common_of 1) IntRange (2 ^ 64 - 9) 9 3) [1; 0; 1] = Ret (10, []).
Proof. vm_compute. done. Qed.
(** int64[0:-1, 1]: the number of values overflows and divides by zero. *)
Example randRangeInt_whole : randRangeInt 0 (2 ^ 64 - 1) 64 1 [1; 1; 1] = Panic.
Proof. vm_compute. done. Qed.
(** The largest draw rounds up to [n], which the comment on biasedRand excludes. *)
Example biasedRand_reaches : biasedRand 256 10 [2 ^ 53 - 1] = (256, []).
Proof. vm_compute. done. Qed.
