(* ===== verification/DataMutation.v ===== *)
(** * Mutation of byte buffers (src/prog/mutation.go)

    The table of byte-level mutations, the loop over it, the size mutation of
    output buffers and the mutation of decompressed images.  The argument's
    bytes are copied before they are mutated, so a slice is its list here.  A
    loop whose end the generator decides takes fuel. *)

From S2P Require Import Prelude Bits Prog Corpus ForeachArg Alloc Hints Heatmap RandGen.

(** ** Slice expressions; out of range they panic *)

(** [data[i:]], [data[:i]] and [data[i] = v]. *)
Definition slice_from (data : list Z) (i : Z) : outcome (list Z) :=
  if decide (0 ≤ i ≤ len data) then Ret (drop (Z.to_nat i) data) else Panic.
Definition slice_to (data : list Z) (i : Z) : outcome (list Z) :=
  if decide (0 ≤ i ≤ len data) then Ret (take (Z.to_nat i) data) else Panic.
Definition store_byte (data : list Z) (i v : Z) : outcome (list Z) :=
  if decide (0 ≤ i < len data) then Ret (<[Z.to_nat i := v]> data) else Panic.
(** [copy(data[dst:], data[src:])]. *)
Definition copy_within (data : list Z) (dst src : Z) : outcome (list Z) :=
  _ ← slice_from data dst;
  s ← slice_from data src;
  Ret (copy_at data (Z.to_nat dst) s).

(** ** Integers in a slice *)

Definition int_width (size : Z) : bool := bool_decide (size = 1 ∨ size = 2 ∨ size = 4 ∨ size = 8).
Definition loadInt (data : list Z) (size : Z) : outcome Z :=
  if int_width size && bool_decide (size ≤ len data) then Ret (le_value (take (Z.to_nat size) data)) else Panic.
Definition storeInt (data : list Z) (v size : Z) : outcome (list Z) :=
  if int_width size && bool_decide (size ≤ len data)
  then Ret (le_bytes (Z.to_nat size) v ++ drop (Z.to_nat size) data) else Panic.
(** [storeInt(data[i:], v, size)]. *)
Definition storeInt_at (data : list Z) (i v size : Z) : outcome (list Z) :=
  if decide (0 ≤ i ≤ len data) then
    tail ← storeInt (drop (Z.to_nat i) data) v size;
    Ret (take (Z.to_nat i) data ++ tail)
  else Panic.

(** ** The mutations *)

Definition maxDelta : Z := 35.
(** The slice and whether it was mutated; the bounds are below 2^63. *)
Definition mutation : Type := list Z → Z → Z → rng → outcome (list Z * bool * rng).

Definition flip_bit : mutation := λ data minLen maxLen r,
  if decide (len data = 0) then Ret (data, false, r) else
  '(byt, r) ← Intn (len data) r;
  '(bit, r) ← Intn 8 r;
  x ← index data byt;
  Ret (<[Z.to_nat byt := Z.lxor x (u8 (Z.shiftl 1 bit))]> data, true, r).

(** [data[pos+i] = byte(r.Int31())] for the next [n] indices. *)
Fixpoint fill_random (n : nat) (pos : Z) (data : list Z) (r : rng) : outcome (list Z * rng) :=
  match n with
  | O => Ret (data, r)
  | S n => let '(v, r) := Int31 r in data ← store_byte data pos (u8 v); fill_random n (pos + 1) data r
  end.
Definition insert_bytes : mutation := λ data minLen maxLen r,
  if decide (len data = 0 ∨ maxLen ≤ len data) then Ret (data, false, r) else
  '(k, r) ← Intn 16 r;
  let n := Z.min (k + 1) (i64 maxLen - len data) in
  '(pos, r) ← Intn (len data) r;
  let data := data ++ replicate (Z.to_nat n) 0 in
  data ← copy_within data (pos + n) pos;
  '(data, r) ← fill_random (Z.to_nat n) pos data r;
  '(keep, r) ← (if decide (maxLen < len data) then Ret (true, r) else bin r);
  data ← (if (keep : bool) then slice_to data (len data - n) else Ret data);
  Ret (data, true, r).

Definition remove_bytes : mutation := λ data minLen maxLen r,
  if decide (len data = 0) then Ret (data, false, r) else
  '(k, r) ← Intn 16 r;
  let n := Z.min (k + 1) (len data) in
  '(pos, r) ← (if decide (n < len data) then Intn (len data - n) r else Ret (0, r));
  data ← copy_within data pos (pos + n);
  data ← slice_to data (len data - n);
  '(keep, r) ← (if decide (len data < minLen) then Ret (true, r) else bin r);
  Ret (if (keep : bool) then data ++ replicate (Z.to_nat n) 0 else data, true, r).

Fixpoint append_random (n : nat) (data : list Z) (r : rng) : outcome (list Z * rng) :=
  match n with
  | O => Ret (data, r)
  | S n => '(b, r) ← rand 256 r; append_random n (data ++ [u8 b]) r
  end.
Definition append_bytes : mutation := λ data minLen maxLen r,
  if decide (maxLen ≤ len data) then Ret (data, false, r) else
  let '(b, r) := biasedRand 256 10 r in
  let n := Z.min (i64 (256 - b)) (i64 maxLen - len data) in
  '(data, r) ← append_random (Z.to_nat n) data r;
  Ret (data, true, r).

(** The width of an integer and its place, when the data is long enough. *)
Definition choose_int (data : list Z) (r : rng) : outcome (option (Z * Z) * rng) :=
  '(k, r) ← Intn 4 r;
  let width := Z.shiftl 1 k in
  if decide (len data < width) then Ret (None, r) else
  '(i, r) ← Intn (len data - width + 1) r;
  Ret (Some (i, width), r).

Definition replace_int : mutation := λ data minLen maxLen r,
  '(place, r) ← choose_int data r;
  match place with
  | None => Ret (data, false, r)
  | Some (i, width) =>
      let '(v, r) := Uint64 r in
      data ← storeInt_at data i v width;
      Ret (data, true, r)
  end.

Definition add_int : mutation := λ data minLen maxLen r,
  '(place, r) ← choose_int data r;
  match place with
  | None => Ret (data, false, r)
  | Some (i, width) =>
      s ← slice_from data i;
      v ← loadInt s width;
      '(d, r) ← rand (2 * maxDelta + 1) r;
      let delta := d -u maxDelta in
      let delta := if decide (delta = 0) then 1 else delta in
      '(swap, r) ← oneOf 10 r;
      v ← (if (swap : bool) then v ← swapInt v width; swapInt (v +u delta) width else Ret (v +u delta));
      data ← storeInt_at data i v width;
      Ret (data, true, r)
  end.

Definition set_interesting : mutation := λ data minLen maxLen r,
  '(place, r) ← choose_int data r;
  match place with
  | None => Ret (data, false, r)
  | Some (i, width) =>
      '(value, r) ← randInt64 r;
      '(swap, r) ← oneOf 10 r;
      let value := if (swap : bool) then swap64 value else value in
      data ← storeInt_at data i value width;
      Ret (data, true, r)
  end.

Definition mutateDataFuncs : list mutation :=
  [flip_bit; insert_bytes; remove_bytes; append_bytes; replace_int; add_int; set_interesting].

(** One unit of fuel per chosen mutation. *)
Fixpoint mutateData (fuel : nat) (data : list Z) (minLen maxLen : Z) (r : rng) : outcome (option (list Z * rng)) :=
  match fuel with
  | O => Ret None
  | S fuel =>
      '(k, r) ← Intn (len mutateDataFuncs) r;
      f ← index mutateDataFuncs k;
      '(data, stop, r) ← f data minLen maxLen r;
      '(stop, r) ← (if (stop : bool) then oneOf 3 r else Ret (false, r));
      if (stop : bool) then Ret (Some (data, r)) else mutateData fuel data minLen maxLen r
  end.

(** ** Output buffers and images *)

(** The size of an output buffer changes; one unit of fuel per attempt. *)
Fixpoint mutateBufferSize (fuel : nat) (oldSize size minLen maxLen : Z) (r : rng) : outcome (option (Z * rng)) :=
  if decide (oldSize = size) then
    match fuel with
    | O => Ret None
    | S fuel =>
        '(d, r) ← Intn 33 r;
        let size := size +u (d -u 16) in
        let size := u64 (Z.max (i64 size) (i64 minLen)) in
        let size := Z.min size maxLen in
        mutateBufferSize fuel oldSize size minLen maxLen r
    end
  else Ret (Some (size, r)).

Fixpoint image_mutations (n : nat) (hm : GenericHeatmap) (data : list Z) (r : rng) : outcome (list Z * rng) :=
  match n with
  | O => Ret (data, r)
  | S n =>
      '(idx, r) ← ChooseLocation hm r;
      '(k, r) ← Intn 4 r;
      let width := Z.shiftl 1 k in
      let width := if decide (len data < idx + width) then 1 else width in
      '(v, r) ← randInt (width * 8) r;
      data ← storeInt_at data idx v width;
      image_mutations n hm data r
  end.
(** mutateImage between decompression and compression; [true] is retry. *)
Definition mutateImage (data : list Z) (r : rng) : outcome (list Z * bool * rng) :=
  if decide (len data = 0) then Ret (data, true, r) else
  hm ← MakeGenericHeatmap data;
  '(n, r) ← NumMutations hm r;
  '(data, r) ← image_mutations (Z.to_nat n) hm data r;
  Ret (data, false, r).

(** ** Bytes and lengths *)

Lemma is_byte_u8 x : is_byte (u8 x).
Proof. unfold is_byte, u8. apply Z.mod_pos_bound. lia. Qed.
Lemma is_byte_0 : is_byte 0.
Proof. unfold is_byte. lia. Qed.
Lemma lxor_byte x y : is_byte x → is_byte y → is_byte (Z.lxor x y).
Proof.
  intros Hx Hy. assert (E : ∀ z, is_byte z → Z.shiftr z 8 = 0) by (intros z Hz; rewrite Z.shiftr_div_pow2 by lia; apply Z.div_small; apply Hz).
  assert (H : Z.shiftr (Z.lxor x y) 8 = 0) by (rewrite Z.shiftr_lxor, !E by done; done).
  rewrite Z.shiftr_div_pow2 in H by lia. unfold is_byte in *. assert (0 ≤ Z.lxor x y) by (apply Z.lxor_nonneg; lia).
  split; [done|]. change 256 with (2 ^ 8). apply Z.div_small_iff in H; lia.
Qed.
Lemma zero_bytes n : Forall is_byte (replicate n 0).
Proof. apply Forall_replicate, is_byte_0. Qed.
Lemma copy_at_bytes data i src : Forall is_byte data → Forall is_byte src → Forall is_byte (copy_at data i src).
Proof. intros Hd Hs. unfold copy_at. rewrite !Forall_app. auto using Forall_take, Forall_drop. Qed.
Lemma fill_random_spec n pos data r : Forall is_byte data → 0 ≤ pos → pos + Z.of_nat n ≤ len data →
  returns (fill_random n pos data r) (λ x, Forall is_byte x.1 ∧ length x.1 = length data).
Proof.
  revert pos data r. induction n as [|n IH]; intros pos data r Hd Hp Hn; cbn [fill_random]; [by apply returns_Ret|]. unfold Int31, store_byte.
  rewrite decide_True by lia. cbn [mbind outcome_bind]. eapply returns_mono; [apply IH; [by apply Forall_insert, is_byte_u8|lia|unfold len in *; rewrite length_insert; lia]|].
  intros x [H1 H2]. by rewrite H2, length_insert.
Qed.
(** Copying within the slice keeps its length. *)
Lemma copy_within_spec data dst src : Forall is_byte data → 0 ≤ dst ≤ len data → 0 ≤ src ≤ len data →
  returns (copy_within data dst src) (λ d, Forall is_byte d ∧ len d = len data).
Proof.
  intros Hd H1 H2. unfold copy_within, slice_from. rewrite !decide_True by lia. cbn [mbind outcome_bind]. apply returns_Ret.
  split; [apply copy_at_bytes; [done|by apply Forall_drop]|]. unfold len. by rewrite length_copy_at.
Qed.
Lemma slice_to_spec data i : Forall is_byte data → 0 ≤ i ≤ len data → returns (slice_to data i) (λ d, Forall is_byte d ∧ len d = i).
Proof.
  intros Hd Hi. unfold slice_to. rewrite decide_True by lia. apply returns_Ret. split; [by apply Forall_take|]. unfold len in *. rewrite length_take. lia.
Qed.
Lemma append_random_spec n data r : Forall is_byte data →
  returns (append_random n data r) (λ x, Forall is_byte x.1 ∧ len x.1 = len data + Z.of_nat n).
Proof.
  revert data r. induction n as [|n IH]; intros data r Hd; cbn [append_random]; [apply returns_Ret; split; [done|cbn; lia]|].
  draw_step. eapply returns_mono; [apply IH; apply Forall_app_2; [done|by apply Forall_singleton, is_byte_u8]|].
  intros [d r'] [H1 H2]. split; [done|]. cbn [fst] in *. rewrite H2. unfold len. rewrite length_app. cbn. lia.
Qed.

Lemma int_width_shift k : 0 ≤ k < 4 → int_width (Z.shiftl 1 k) = true ∧ 1 ≤ Z.shiftl 1 k.
Proof. intros Hk. assert (k = 0 ∨ k = 1 ∨ k = 2 ∨ k = 3) as [->|[->|[->| ->]]] by lia; (split; [by apply bool_decide_eq_true; vm_compute; auto|vm_compute; done]). Qed.
Lemma storeInt_at_spec data i v width : Forall is_byte data → int_width width = true → 0 ≤ i → 0 ≤ width → i + width ≤ len data →
  returns (storeInt_at data i v width) (λ d, Forall is_byte d ∧ length d = length data).
Proof.
  intros Hd Hw Hi Hw0 Hfit. unfold len in Hfit. unfold storeInt_at, storeInt, len. rewrite length_drop. rewrite decide_True by lia.
  rewrite Hw, bool_decide_true by lia. cbn [andb mbind outcome_bind]. apply returns_Ret. split.
  - rewrite !Forall_app. auto using Forall_take, Forall_drop, le_bytes_bytes.
  - rewrite !length_app, length_le_bytes, length_take, !length_drop. lia.
Qed.
Lemma choose_int_spec data r :
  returns (choose_int data r) (λ x, match x.1 with Some (i, width) => int_width width = true ∧ 0 ≤ i ∧ 1 ≤ width ∧ i + width ≤ len data | None => True end).
Proof.
  unfold choose_int. draw_step. destruct (int_width_shift z) as [Hw Hw1]; [lia|]. case_decide; [by apply returns_Ret|].
  draw_step. apply returns_Ret. cbn [fst]. split_and!; [done|lia|lia|lia].
Qed.
Lemma swapInt_returns v width : int_width width = true → returns (swapInt v width) (λ _, True).
Proof.
  intros Hw. apply bool_decide_eq_true in Hw. unfold swapInt. repeat (case_decide; [by apply returns_Ret|]). lia.
Qed.

(** ** Each mutation keeps the bounds *)
Section bounds.
Context (minLen maxLen : Z) (Hmax : maxLen < 2 ^ 63).

Definition fits (data : list Z) : Prop := Forall is_byte data ∧ minLen ≤ len data ≤ maxLen.
Definition keeps (f : mutation) : Prop := ∀ data r, fits data → returns (f data minLen maxLen r) (λ x, fits x.1.1).

Lemma fits_same data d : fits data → Forall is_byte d → length d = length data → fits d.
Proof. unfold fits, len. intros [_ H] Hd E. rewrite E. auto. Qed.
Lemma flip_bit_keeps : keeps flip_bit.
Proof.
  intros data r Hf. unfold flip_bit. case_decide; [by apply returns_Ret|]. assert (0 < len data) by (unfold len in *; lia).
  draw_step. draw_step. eapply returns_bind; [apply returns_index; [done|apply Hf]|]. intros x Hx. apply returns_Ret. cbn [fst].
  apply (fits_same data); [done| |by rewrite length_insert]. apply Forall_insert; [apply Hf|]. apply lxor_byte; [done|apply is_byte_u8].
Qed.
Lemma insert_bytes_keeps : keeps insert_bytes.
Proof.
  intros data r Hf. pose proof Hf as [Hb Hl]. unfold insert_bytes. case_decide as Hd; [by apply returns_Ret|].
  assert (0 < len data < maxLen) by (unfold len in *; lia). rewrite i64_id by (unfold in_i64; lia).
  draw_step. draw_step. set (n := Z.min (z + 1) (maxLen - len data)) in *. assert (Hn : 1 ≤ n ≤ maxLen - len data) by lia. clearbody n.
  cbn zeta. set (d0 := data ++ replicate (Z.to_nat n) 0). assert (Hd0 : Forall is_byte d0 ∧ len d0 = len data + n).
  { split; [apply Forall_app_2; [done|apply zero_bytes]|]. unfold d0, len. rewrite length_app, length_replicate. lia. }
  destruct Hd0 as [Hb0 E0]. eapply returns_bind; [apply copy_within_spec; [done|lia|lia]|]. intros d1 [Hb1 E1].
  eapply returns_bind; [apply fill_random_spec; [done|lia|lia]|]. intros [d2 r2] [Hb2 E2]. cbn [fst] in *. cbn beta match.
  assert (E3 : len d2 = len data + n) by (unfold len in *; lia). rewrite decide_False by lia. draw_step.
  apply (returns_bind _ _ (λ d, Forall is_byte d ∧ len data ≤ len d ≤ len data + n)).
  { destruct b; [|apply returns_Ret; split; [done|lia]]. eapply returns_mono; [apply slice_to_spec; [done|lia]|]. intros d [? ?]. split; [done|lia]. }
  intros d [? ?]. apply returns_Ret. cbn [fst]. split; [done|lia].
Qed.
Lemma remove_bytes_keeps : keeps remove_bytes.
Proof.
  intros data r Hf. pose proof Hf as [Hb Hl]. unfold remove_bytes. case_decide as Hd; [by apply returns_Ret|].
  assert (0 < len data) by (unfold len in *; lia).
  draw_step. set (n := Z.min (z + 1) (len data)) in *. assert (Hn : 1 ≤ n ≤ len data) by lia. clearbody n.
  apply (returns_bind _ _ (λ x, 0 ≤ x.1 ≤ len data - n)); [case_decide; [eapply returns_mono; [apply returns_Intn; lia|]; intros x; cbn; lia|apply returns_Ret; cbn; lia]|].
  intros [pos r1] Hpos. cbn [fst] in Hpos. cbn zeta. cbn beta match. eapply returns_bind; [apply copy_within_spec; [done|lia|lia]|]. intros d1 [Hb1 E1].
  eapply returns_bind; [apply slice_to_spec; [done|lia]|]. intros d2 [Hb2 E2]. rewrite E1 in E2.
  apply (returns_bind _ _ (λ x, x.1 = false → minLen ≤ len d2)).
  { case_decide; [by apply returns_Ret|]. eapply returns_mono; [apply returns_bin|]. intros x _ _. lia. }
  intros [keep r2] Hk. cbn beta match. apply returns_Ret. cbn [fst] in *. destruct keep.
  - apply (fits_same data); [done|apply Forall_app_2; [done|apply zero_bytes]|]. rewrite length_app, length_replicate. unfold len in *. lia.
  - split; [done|]. specialize (Hk eq_refl). lia.
Qed.
Lemma append_bytes_keeps : keeps append_bytes.
Proof.
  intros data r Hf. pose proof Hf as [Hb Hl]. unfold append_bytes. case_decide as Hd; [by apply returns_Ret|].
  rewrite (i64_id maxLen) by (unfold in_i64, len in *; lia). destruct (biasedRand 256 10 r) as [b r1]. cbn zeta.
  eapply returns_bind; [by apply append_random_spec|]. intros [d r2] [H1 H2]. apply returns_Ret. cbn [fst] in *. split; [done|]. lia.
Qed.
Lemma replace_int_keeps : keeps replace_int.
Proof.
  intros data r Hf. unfold replace_int, Uint64. eapply returns_bind; [apply choose_int_spec|]. intros [[[i width]|] r1] Hp; cbn beta match; [|by apply returns_Ret].
  cbn [fst] in Hp. destruct Hp as (Hw & Hi & Hw1 & Hfit). eapply returns_bind; [apply storeInt_at_spec; [apply Hf|done|lia..]|].
  intros d [H1 H2]. apply returns_Ret. by apply (fits_same data).
Qed.
Lemma set_interesting_keeps : keeps set_interesting.
Proof.
  intros data r Hf. unfold set_interesting, randInt64. eapply returns_bind; [apply choose_int_spec|]. intros [[[i width]|] r1] Hp; cbn beta match; [|by apply returns_Ret].
  cbn [fst] in Hp. destruct Hp as (Hw & Hi & Hw1 & Hfit). draw_step. draw_step. eapply returns_bind; [apply storeInt_at_spec; [apply Hf|done|lia..]|].
  intros d [H1 H2]. apply returns_Ret. by apply (fits_same data).
Qed.
Lemma add_int_keeps : keeps add_int.
Proof.
  intros data r Hf. unfold add_int. eapply returns_bind; [apply choose_int_spec|]. intros [[[i width]|] r1] Hp; cbn beta match; [|by apply returns_Ret].
  cbn [fst] in Hp. destruct Hp as (Hw & Hi & Hw1 & Hfit). unfold slice_from. rewrite decide_True by lia. cbn [mbind outcome_bind]. unfold loadInt, len.
  rewrite length_drop, Hw, bool_decide_true by (unfold len in *; lia). cbn [andb mbind outcome_bind]. change (2 * maxDelta + 1) with 71. draw_step. draw_step.
  apply (returns_bind _ _ (λ _, True)).
  { destruct b; [|by apply returns_Ret]. eapply returns_bind; [by apply swapInt_returns|]. intros v _. by apply swapInt_returns. }
  intros v _. eapply returns_bind; [apply storeInt_at_spec; [apply Hf|done|lia..]|]. intros d [H1 H2]. apply returns_Ret. by apply (fits_same data).
Qed.

Lemma mutateDataFuncs_keep : Forall keeps mutateDataFuncs.
Proof.
  repeat constructor; auto using flip_bit_keeps, insert_bytes_keeps, remove_bytes_keeps, append_bytes_keeps, replace_int_keeps, add_int_keeps, set_interesting_keeps.
Qed.
Lemma mutateData_keeps fuel data r : fits data →
  returns (mutateData fuel data minLen maxLen r) (λ o, match o with Some (d, _) => fits d | None => True end).
Proof.
  revert data r. induction fuel as [|fuel IH]; intros data r Hf; cbn [mutateData]; [by apply returns_Ret|].
  change (len mutateDataFuncs) with 7. draw_step. eapply returns_bind; [apply returns_index; [done|apply mutateDataFuncs_keep]|].
  intros f Hk. eapply returns_bind; [by apply Hk|]. intros [[d stop] r1] Hd. cbn [fst] in Hd. cbn beta match.
  apply (returns_bind _ _ (λ _, True)); [destruct stop; [apply returns_oneOf; lia|by apply returns_Ret]|]. intros [st r2] _.
  draw_step; [by apply returns_Ret|by apply IH].
Qed.
End bounds.

(** ** The loop *)

Lemma append_random_zeros n data : append_random n data [] = Ret (data ++ replicate n 0, []).
Proof.
  revert data. induction n as [|n IH]; intros data; cbn [append_random replicate]; [by rewrite app_nil_r|].
  change (rand 256 []) with (Ret (0, [] : rng)). cbn [mbind outcome_bind]. rewrite IH. by rewrite <-app_assoc.
Qed.
Lemma biasedRand_rest n k r : (biasedRand n k r).2 = tl r.
Proof. reflexivity. Qed.
(** With all further draws zero, one round is enough. *)
Lemma mutateData_ends data minLen maxLen : data ≠ [] ∨ 0 < maxLen → ∃ r d, mutateData 1 data minLen maxLen r = Ret (Some (d, [])).
Proof.
  intros Hne. destruct data as [|b data].
  - destruct Hne as [|Hpos]; [done|]. exists [3]. cbn [mutateData]. change (Intn (len mutateDataFuncs) [3]) with (Ret (3, [] : rng)). cbn [mbind outcome_bind].
    change (index mutateDataFuncs 3) with (Ret append_bytes). cbn [mbind outcome_bind]. unfold append_bytes. rewrite decide_False by (unfold len; cbn [length]; lia).
    pose proof (biasedRand_rest 256 10 []) as E. destruct (biasedRand 256 10 []) as [x r1]. cbn [snd tl] in E. subst r1. cbn zeta.
    rewrite append_random_zeros. by eexists.
  - exists []. cbn [mutateData]. change (Intn (len mutateDataFuncs) []) with (Ret (0, [] : rng)). cbn [mbind outcome_bind].
    change (index mutateDataFuncs 0) with (Ret flip_bit). cbn [mbind outcome_bind]. unfold flip_bit. rewrite decide_False by (unfold len; cbn [length]; lia).
    destruct (Intn_Ret (len (b :: data)) []) as (i & -> & Hi); [unfold len; cbn [length]; lia|]. cbn [mbind outcome_bind tl].
    change (Intn 8 []) with (Ret (0, [] : rng)). cbn [mbind outcome_bind]. destruct (index_Ret (b :: data) i Hi) as (x & -> & _). by eexists.
Qed.


(** A buffer that can only be empty is never mutated: the loop does not end. *)
Lemma mutateData_empty fuel minLen r : mutateData fuel [] minLen 0 r = Ret None.
Proof.
  revert r. induction fuel as [|fuel IH]; intros r; cbn [mutateData]; [done|]. change (len mutateDataFuncs) with 7.
  destruct (Intn_Ret 7 r) as (k & -> & Hk); [lia|]. cbn [mbind outcome_bind].
  assert (E : ∀ f, f ∈ mutateDataFuncs → ∀ r, ∃ r', f [] minLen 0 r = Ret ([], false, r')).
  { intros f Hf r1. assert (Hc : ∃ r', choose_int [] r1 = Ret (None, r')).
    { unfold choose_int. destruct (Intn_Ret 4 r1) as (w & -> & Hw); [lia|]. destruct (int_width_shift w Hw). cbn [mbind outcome_bind].
      rewrite decide_True by (unfold len; cbn [length]; lia). by eexists. }
    destruct Hc as [rc Hc]. repeat (apply elem_of_cons in Hf as [->|Hf]); [by exists r1..| | | |by apply not_elem_of_nil in Hf];
      unfold replace_int, add_int, set_interesting; rewrite Hc; by exists rc. }
  destruct (index_Ret mutateDataFuncs k) as (f & -> & Hf); [done|]. cbn [mbind outcome_bind]. apply list_elem_of_lookup_2 in Hf.
  destruct (E f Hf (tl r)) as [r1 ->]. cbn [mbind outcome_bind]. apply IH.
Qed.

(** ** Output sizes and images *)

Lemma mutateBufferSize_bounds fuel old size minLen maxLen r : 0 ≤ minLen ≤ maxLen → maxLen < 2 ^ 62 → minLen ≤ size ≤ maxLen →
  returns (mutateBufferSize fuel old size minLen maxLen r) (λ o, match o with Some (s, _) => minLen ≤ s ≤ maxLen ∧ s ≠ old | None => True end).
Proof.
  intros Hm Hmax. revert size r. induction fuel as [|fuel IH]; intros size r Hs; cbn [mutateBufferSize];
    (case_decide; [|apply returns_Ret; cbn; split; [lia|congruence]]); [by apply returns_Ret|].
  draw_step. cbn zeta. rewrite (i64_id minLen) by (unfold in_i64; lia). apply IH.
  pose proof (u64_range (size + u64 (z - 16))) as Hu. set (x := size +u (z -u 16)) in *. pose proof (i64_range x) as Hi. unfold in_i64 in Hi.
  rewrite u64_id by (unfold in_u64; lia). lia.
Qed.
Lemma mutateBufferSize_ends size minLen maxLen : 0 ≤ minLen < maxLen → maxLen < 2 ^ 62 → minLen ≤ size ≤ maxLen →
  ∃ r s, mutateBufferSize 1 size size minLen maxLen r = Ret (Some (s, [])).
Proof.
  intros Hm Hmax Hs. set (d := if decide (size < maxLen) then 17 else 15).
  assert (Hd : 15 ≤ d ≤ 17) by (unfold d; case_decide; lia). exists [d]. cbn [mutateBufferSize]. rewrite decide_True by done.
  unfold Intn. rewrite decide_True by lia. cbn [hd tl mbind outcome_bind]. rewrite Z.mod_small by lia. cbn zeta.
  assert (E : size +u (d -u 16) = size + (d - 16)).
  { unfold u64. rewrite Z.add_mod_idemp_r by lia. apply Z.mod_small. unfold d. case_decide; lia. }
  assert (Hr : 0 ≤ size + (d - 16) < 2 ^ 62 + 1) by (unfold d; case_decide; lia).
  rewrite E, !i64_id by (unfold in_i64; lia). rewrite u64_id by (unfold in_u64; lia).
  rewrite decide_False; [by eexists|]. unfold d. case_decide; lia.
Qed.

Lemma image_mutations_spec n hm (data0 data : list Z) r :
  (∀ r, ∃ p r', ChooseLocation hm r = Ret (p, r') ∧ 0 ≤ p < len data0) → Forall is_byte data → length data = length data0 →
  returns (image_mutations n hm data r) (λ x, Forall is_byte x.1 ∧ length x.1 = length data0).
Proof.
  intros Hc. revert data r. induction n as [|n IH]; intros data r Hd El; cbn [image_mutations]; [by apply returns_Ret|].
  destruct (Hc r) as (p & r1 & -> & Hp). cbn [mbind outcome_bind]. draw_step. destruct (int_width_shift z) as [Hw Hw1]; [lia|]. cbn zeta.
  set (width := if decide (len data < p + Z.shiftl 1 z) then 1 else Z.shiftl 1 z).
  assert (Hwidth : int_width width = true ∧ 1 ≤ width ≤ 8 ∧ p + width ≤ len data).
  { unfold width, len in *. case_decide; [split_and!; [done|lia|lia|lia]|]. split_and!; [done|lia| |lia]. apply bool_decide_eq_true in Hw. lia. }
  destruct Hwidth as (H1 & H2 & H3). eapply returns_bind; [apply randInt_spec; lia|]. intros [v r3] _. cbn beta match.
  eapply returns_bind; [apply storeInt_at_spec; [done|done|lia..]|]. intros d [Hb Hl]. apply IH; [done|congruence].
Qed.
(** An image keeps its length, and only an empty one is not mutated. *)
Lemma mutateImage_spec data r : Forall is_byte data →
  returns (mutateImage data r) (λ x, Forall is_byte x.1.1 ∧ length x.1.1 = length data ∧ x.1.2 = bool_decide (data = [])).
Proof.
  intros Hd. unfold mutateImage. case_decide as H0; [apply returns_Ret; cbn; split_and!; [done|done|]|].
  { destruct data; [done|]. unfold len in H0. cbn in H0. lia. }
  assert (Hne : data ≠ []) by (intros ->; done). destruct (heatmap_spec data Hne) as (hm & pos & -> & _ & _ & _ & Hpos & _ & Hc & Hn).
  cbn [mbind outcome_bind]. destruct (Hn r) as (n & r1 & -> & _). cbn [mbind outcome_bind].
  eapply returns_bind; [apply (image_mutations_spec _ hm data); [|done|done]|].
  { intros r2. destruct (Hc r2) as (p & -> & Hp). exists p, (tl r2). split; [done|]. apply list_elem_of_lookup_2, Hpos in Hp. apply Hp. }
  intros [d r2] [H1 H2]. apply returns_Ret. cbn [fst snd] in *. split_and!; [done|done|]. by rewrite bool_decide_false.
Qed.
