(* ===== verification/Analysis.v ===== *)
(** * Analysis of programs and file names
    (src/prog/analysis.go: state; src/prog/rand.go: filename, randString)

    Before generating or mutating a call the program is scanned for the
    resources, files, strings and memory it uses.  File names for new calls
    are then built from the files seen; they must not leave the working
    directory.  Strings are lists of bytes; the calls of a program are named
    by their index, result arguments by their identity. *)

From S2P Require Import Prelude GoStrings Prog Corpus ForeachArg Alloc Validation RandGen.

(** ** The state *)

Record state := mkState {
  st_files : gset (list Z);
  st_resources : gmap string (list argid);
  st_strings : gset (list Z);
  st_ma : memAlloc;
  st_va : vmaAlloc
}.

Definition newState (target : Target) : outcome state :=
  ma ← newMemAlloc (NumPages target *u PageSize target);
  Ret (mkState ∅ ∅ ∅ ma (newVmaAlloc (NumPages target))).

Section analysis.
Context (target : Target) (typeRefs : list Typ).

(** Memory a pointer occupies. *)
Definition note_memory (s : state) (a : Arg) : outcome state :=
  match a with
  | PointerArg _ address vmaSize res =>
      if IsSpecial address vmaSize res then Ret s
      else if decide (vmaSize ≠ 0) then
        page ← udiv address (PageSize target);
        size ← udiv vmaSize (PageSize target);
        Ret (mkState (st_files s) (st_resources s) (st_strings s) (st_ma s) (va_noteAlloc (st_va s) page size))
      else
        match res with
        | Some o =>
            size ← ArgSize typeRefs o;
            ma ← ma_noteAlloc (st_ma s) address size;
            Ret (mkState (st_files s) (st_resources s) (st_strings s) ma (st_va s))
        | None => Ret s
        end
  | _ => Ret s
  end.

(** Of a run of zeros at the end, one stays (the bytes are reversed). *)
Fixpoint one_zero (l : list Z) : list Z :=
  match l with
  | b :: l' => if decide (b = 0 ∧ head l' = Some 0) then one_zero l' else l
  | [] => []
  end.
Definition trim_padding (val : list Z) : list Z := reverse (one_zero (reverse val)).
Definition strip_zero (val : list Z) : list Z :=
  if decide (last val = Some 0) then take (length val - 1) val else val.
Definition add_file (s : state) (val : list Z) : state :=
  mkState ({[val]} ∪ st_files s) (st_resources s) (st_strings s) (st_ma s) (st_va s).
Definition add_string (s : state) (val : list Z) : state :=
  mkState (st_files s) (st_resources s) ({[val]} ∪ st_strings s) (st_ma s) (st_va s).
Definition add_resource (s : state) (name : string) (x : argid) : state :=
  mkState (st_files s) (<[name := default [] (st_resources s !! name) ++ [x]]> (st_resources s)) (st_strings s) (st_ma s) (st_va s).

Definition note_buffer (s : state) (kind : BufferKind) (data : list Z) : state :=
  let val := trim_padding data in
  match kind with
  | BufferString => add_string s val
  | BufferFilename =>
      if decide (len val < 3) then s
      else if escapingFilename val then s
      else add_file s (strip_zero val)
  | _ => s
  end.
(** The callback of analyzeImpl. *)
Definition analyze_arg (resources : bool) (s : state) (a : Arg) : outcome state :=
  s ← note_memory s a;
  t ← TypeOf typeRefs a;
  match t with
  | ResourceType _ _ desc =>
      match a with
      | AResult r => Ret (if resources && bool_decide (arg_dir (res_common r) ≠ DirIn) then add_resource s (ResName desc) (arg_id (res_common r)) else s)
      | _ => Panic
      end
  | BufferType _ kind _ _ _ _ _ =>
      match a with
      | DataArg c data _ => Ret (if decide (arg_dir c ≠ DirOut ∧ data ≠ []) then note_buffer s kind data else s)
      | _ => Panic
      end
  | _ => Ret s
  end.
Fixpoint analyze_args (resources : bool) (l : list ArgVisit) (s : state) : outcome state :=
  match l with
  | [] => Ret s
  | v :: l => s ← analyze_arg resources s (v_arg v); analyze_args resources l s
  end.
Definition analyzeImpl (s : state) (c : option Call) (resources : bool) : outcome state :=
  match c with
  | Some c => vs ← ForeachArg typeRefs c; analyze_args resources vs s
  | None => Panic
  end.
(** The method; the function over a program follows. *)
Definition state_analyze (s : state) (c : option Call) : outcome state := analyzeImpl s c true.

(** The calls from index [i] on; [stop] is the index of call [c], if it is
    one of the program. *)
Fixpoint analyze_calls (l : list (option Call)) (i : nat) (stop : option nat) (resources : bool) (s : state) : outcome state :=
  match l with
  | [] => Ret s
  | c :: l =>
      let resources := if decide (stop = Some i) then false else resources in
      s ← analyzeImpl s c resources;
      analyze_calls l (S i) stop resources s
  end.
Definition analyze (p : Prog) (stop : option nat) : outcome state :=
  s ← newState target;
  analyze_calls (Calls p) 0 stop true s.
End analysis.

(** ** File names and strings *)

(** The order of [sort.Strings] on bytes. *)
Fixpoint bytes_less (a b : list Z) : bool :=
  match a, b with
  | _, [] => false
  | [], _ :: _ => true
  | x :: a, y :: b => (x <? y) || ((x =? y) && bytes_less a b)
  end.
Definition randFromMap (m : gset (list Z)) (r : rng) : outcome (list Z * rng) :=
  let files := sort_by bytes_less (elements m) in
  '(i, r) ← Intn (len files) r;
  f ← index files i;
  Ret (f, r).

(** [%v] of an int that is not negative; one round per digit. *)
Fixpoint decimal (fuel : nat) (n : Z) (acc : list Z) : list Z :=
  match fuel with
  | O => acc
  | S fuel =>
      let acc := 48 + n mod 10 :: acc in
      if decide (n < 10) then acc else decimal fuel (n / 10) acc
  end.
Definition show_int (n : Z) : list Z := decimal (S (Z.to_nat n)) n [].

Definition specialFiles : list (list Z) := [[]; dot].
Definition slash_file : list Z := [47; 102; 105; 108; 101].
Definition updir : list Z := [47; 46; 46].

Section names.
(** [target.SpecialFileLenghts] *)
Context (SpecialFileLenghts : list Z).

Definition randFilenameLength (r : rng) : outcome (Z * rng) :=
  let '(off, r) := biasedRand 10 5 r in
  '(neg, r) ← bin r;
  let off := if (neg : bool) then - off else off in
  '(i, r) ← Intn (len SpecialFileLenghts) r;
  l ← index SpecialFileLenghts i;
  Ret (Z.max (l + off) 0, r).

(** A very long name once in a while, padded with [a]. *)
Definition pad_name (f : list Z) (r : rng) : outcome (list Z * rng) :=
  '(long, r) ← oneOf 100 r;
  if (long : bool) then
    '(fileLen, r) ← randFilenameLength r;
    Ret (f ++ replicate (Z.to_nat (fileLen - len f)) 97, r)
  else Ret (f, r).
Fixpoint fresh_name (fuel : nat) (i : Z) (dir : list Z) (files : gset (list Z)) (r : rng) : outcome (option (list Z * rng)) :=
  match fuel with
  | O => Ret None
  | S fuel =>
      '(f, r) ← pad_name (dir ++ slash_file ++ show_int i) r;
      if decide (f ∈ files) then fresh_name fuel (i + 1) dir files r else Ret (Some (f, r))
  end.
(** The directory of a new name. *)
Definition choose_dir (files : gset (list Z)) (r : rng) : outcome (list Z * rng) :=
  '(old, r) ← oneOf 2 r;
  if (old : bool) && bool_decide (files ≠ ∅) then
    '(dir, r) ← randFromMap files r;
    let dir := strip_zero dir in
    '(up, r) ← oneOf 10 r;
    Ret (if (up : bool) && bool_decide (head (Clean dir) ≠ Some 46) then dir ++ updir else dir, r)
  else Ret (dot, r).
Definition filenameImpl (fuel : nat) (s : state) (r : rng) : outcome (option (list Z * rng)) :=
  '(special, r) ← oneOf 100 r;
  if (special : bool) then
    '(i, r) ← Intn (len specialFiles) r;
    f ← index specialFiles i;
    Ret (Some (f, r))
  else
    '(new, r) ← (if decide (st_files s = ∅) then Ret (true, r) else oneOf 10 r);
    if (new : bool) then
      '(dir, r) ← choose_dir (st_files s) r;
      fresh_name fuel 0 dir (st_files s) r
    else
      '(f, r) ← randFromMap (st_files s) r;
      Ret (Some (f, r)).

(** The bytes of the argument: cut or padded to a fixed size, or terminated. *)
Definition fit_name (fn : list Z) (typ : Typ) (noZ : bool) : outcome (list Z) :=
  if negb (Varlen typ) then
    size ← TSize typ;
    Ret (take (Z.to_nat size) (fn ++ replicate (Z.to_nat size - length fn) 0))
  else Ret (if noZ then fn else fn ++ [0]).
Definition filename (fuel : nat) (s : state) (typ : Typ) (r : rng) : outcome (option (list Z * rng)) :=
  match typ with
  | BufferType _ _ _ _ _ _ noZ =>
      o ← filenameImpl fuel s r;
      match o with
      | None => Ret None
      | Some (fn, r) =>
          if decide (last fn = Some 0) then Panic
          else if escapingFilename fn then Panic
          else fn ← fit_name fn typ noZ; Ret (Some (fn, r))
      end
  | _ => Panic
  end.
End names.

Definition punct : list Z := [33; 64; 35; 36; 37; 94; 38; 42; 40; 41; 45; 43; 92; 47; 58; 46; 44; 45; 39; 91; 93; 123; 125].
Fixpoint random_chars (fuel : nat) (buf : list Z) (r : rng) : outcome (option (list Z * rng)) :=
  match fuel with
  | O => Ret None
  | S fuel =>
      '(more, r) ← nOutOf 3 4 r;
      if (more : bool) then
        '(p, r) ← nOutOf 10 11 r;
        if (p : bool) then
          '(i, r) ← Intn (len punct) r;
          b ← index punct i;
          random_chars fuel (buf ++ [b]) r
        else
          '(b, r) ← Intn 256 r;
          random_chars fuel (buf ++ [u8 b]) r
      else Ret (Some (buf, r))
  end.
Definition randString (fuel : nat) (genKFuzzTest : bool) (s : state) (typ : Typ) (r : rng) : outcome (option (list Z * rng)) :=
  match typ with
  | BufferType _ _ _ _ _ values noZ =>
      if decide (len values ≠ 0) then
        '(i, r) ← Intn (len values) r;
        v ← index values i;
        Ret (Some (bytes_of v, r))
      else
        '(old, r) ← (if decide (st_strings s = ∅) then Ret (false, r) else bin r);
        if (old : bool) then '(v, r) ← randFromMap (st_strings s) r; Ret (Some (v, r))
        else
          o ← random_chars fuel [] r;
          match o with
          | None => Ret None
          | Some (buf, r) =>
              '(c, r) ← oneOf 100 r;
              Ret (Some (if bool_decide (c = noZ) || genKFuzzTest then buf ++ [0] else buf, r))
          end
  | _ => Panic
  end.

(** ** Names that stay below the working directory *)

Lemma split_on_nonnil sep l : split_on sep l ≠ [].
Proof. destruct l as [|b l]; cbn [split_on]; [done|]. case_decide; [done|]. by destruct (split_on sep l). Qed.
Lemma split_on_plain_elems sep l : Forall (λ e, sep ∉ e) (split_on sep l).
Proof.
  induction l as [|b l IH]; cbn [split_on]; [by repeat constructor; apply not_elem_of_nil|]. case_decide.
  { constructor; [apply not_elem_of_nil|done]. }
  destruct (split_on sep l) as [|x k]; [constructor; [by rewrite list_elem_of_singleton|done]|].
  apply Forall_cons in IH as [H1 H2]. constructor; [|done]. rewrite not_elem_of_cons. split; [congruence|done].
Qed.
(** Splitting a concatenation at a separator, and at any other place. *)
Lemma split_on_sep sep a b : split_on sep (a ++ sep :: b) = split_on sep a ++ split_on sep b.
Proof.
  induction a as [|x a IH]; cbn [app split_on]; [by rewrite decide_True|]. rewrite IH. case_decide; [done|].
  pose proof (split_on_nonnil sep a). by destruct (split_on sep a).
Qed.
Lemma split_on_snoc sep a e : sep ∉ e → ∃ pre x, split_on sep a = pre ++ [x] ∧ split_on sep (a ++ e) = pre ++ [x ++ e].
Proof.
  intros He. induction a as [|b a IH]; cbn [app split_on]; [by exists [], []; rewrite split_on_plain|].
  destruct IH as (pre & x & -> & ->). case_decide; [by exists ([] :: pre), x|].
  destruct pre as [|y pre]; [by exists [], (b :: x)|by exists ((b :: y) :: pre), x].
Qed.

Lemma clean_elems_app kept a b : clean_elems false kept (a ++ b) = clean_elems false (clean_elems false kept a) b.
Proof.
  revert kept. induction a as [|e a IH]; intros kept; [done|]. cbn [app clean_elems].
  repeat case_decide; [done| |done]. destruct kept; [done|]. by case_decide.
Qed.
(** A kept [..] means that the first kept element is one. *)
Definition dots_first (kept : list (list Z)) : Prop := dotdot ∈ kept → last kept = Some dotdot.
Lemma clean_dots_first kept l : dots_first kept → dots_first (clean_elems false kept l).
Proof.
  revert kept. induction l as [|e l IH]; intros kept Hk; [done|]. cbn [clean_elems]. repeat case_decide; [by apply IH| |].
  - subst e. destruct kept as [|k kept]; [by apply IH; intros _|]. case_decide as Hd; apply IH; intros H1.
    + subst k. specialize (Hk ltac:(left)). done.
    + assert (H2 : dotdot ∈ k :: kept) by by right. specialize (Hk H2). by destruct kept; [apply not_elem_of_nil in H1|].
  - apply IH. intros [Hd|Hd]%elem_of_cons; [congruence|]. specialize (Hk Hd). by destruct kept.
Qed.
(** Kept elements are not empty and come from the list. *)
Lemma clean_elems_kept (P : list Z → Prop) kept l : Forall P kept → Forall P l → Forall P (clean_elems false kept l).
Proof.
  revert kept. induction l as [|e l IH]; intros kept Hk Hl; [done|]. apply Forall_cons in Hl as [He Hl]. cbn [clean_elems].
  repeat case_decide; [by apply IH| |by apply IH; [constructor|]].
  destruct kept as [|k kept]; [by apply IH; [repeat constructor|]|]. apply Forall_cons in Hk as [H1 H2]. case_decide; apply IH; auto.
Qed.
Lemma clean_elems_nonempty kept l : Forall (λ e, e ≠ []) kept → Forall (λ e, e ≠ []) (clean_elems false kept l).
Proof.
  revert kept. induction l as [|e l IH]; intros kept Hk; [done|]. cbn [clean_elems].
  repeat case_decide; [by apply IH| |apply IH; constructor; [naive_solver|done]].
  destruct kept as [|k kept]; [apply IH; repeat constructor; by subst e|]. apply Forall_cons in Hk as [H1 H2]. case_decide; apply IH; [|done]. subst; by repeat constructor.
Qed.

(** The elements of a clean relative name, the last one first. *)
Definition elems (file : list Z) : list (list Z) := clean_elems false [] (split_on 47 file).
Definition starts_up (e : list Z) : bool := match e with a :: b :: _ => bool_decide (a = 46) && bool_decide (b = 46) | _ => false end.
Definition stays_below (kept : list (list Z)) : Prop := ∀ e, last kept = Some e → starts_up e = false.

Lemma elems_dots file : dots_first (elems file).
Proof. apply clean_dots_first. by intros ?%not_elem_of_nil. Qed.
Lemma escaping_elems file : head file ≠ Some 47 → escapingFilename file = false ↔ stays_below (elems file).
Proof.
  intros Hh. unfold escapingFilename, Clean. replace (match file with b :: _ => bool_decide (b = 47) | [] => false end) with false
    by (destruct file; [done|]; symmetry; apply bool_decide_eq_false; cbn in Hh; congruence).
  fold (elems file). rewrite app_nil_l. pose proof (clean_elems_nonempty [] (split_on 47 file) (Forall_nil_2 _)) as Hne.
  pose proof (clean_elems_kept (λ e, 47 ∉ e) [] (split_on 47 file) (Forall_nil_2 _) (split_on_plain_elems 47 file)) as Hns. fold (elems file) in Hne, Hns.
  destruct (last (elems file)) as [e|] eqn:El; cycle 1.
  { apply last_None in El. rewrite El. split; [intros _ e; by rewrite last_nil|done]. }
  assert (He : e ∈ elems file) by (by apply last_Some_elem_of). rewrite Forall_forall in Hne, Hns. specialize (Hne e He). specialize (Hns e He).
  assert (Hb : stays_below (elems file) ↔ starts_up e = false) by (unfold stays_below; rewrite El; naive_solver). rewrite Hb. clear Hb.
  apply last_Some in El as [k El]. rewrite El, reverse_app, reverse_singleton. cbn [app].
  destruct e as [|b e]; [done|]. apply not_elem_of_cons in Hns as [Hb Hns].
  assert (Ej : ∃ tail, join_on 47 ((b :: e) :: reverse k) = b :: e ++ tail ∧ (head tail = None ∨ head tail = Some 47)).
  { destruct (reverse k) as [|x m]; [exists []; rewrite app_nil_r; auto|]. exists (47 :: join_on 47 (x :: m)). auto. }
  destruct Ej as (tail & -> & Ht). rewrite decide_False by done. rewrite (bool_decide_false (b = 47)) by congruence. cbn [orb starts_up].
  destruct e as [|b2 e]; cbn [app starts_up]; [|done].
  split; [done|intros _]. destruct tail as [|t tail]; [apply andb_false_r|]. cbn in Ht. destruct Ht as [|[= ->]]; [done|]. apply andb_false_r.
Qed.

(** A name that may be put into a program. *)
Definition good_name (f : list Z) : Prop := escapingFilename f = false ∧ last f ≠ Some 0.
Lemma not_rooted f : escapingFilename f = false → head f ≠ Some 47.
Proof. intros H. by apply escapingFilename_sound. Qed.
Lemma below_push e kept : stays_below kept → starts_up e = false → stays_below (e :: kept).
Proof. intros Hk He x. destruct kept as [|k kept]; [intros [= <-]; done|]. apply Hk. Qed.
Lemma below_pop k kept : stays_below (k :: kept) → stays_below kept.
Proof. intros Hk e He. apply Hk. by destruct kept. Qed.
Lemma head_app_nonnil (a b : list Z) : a ≠ [] → head (a ++ b) = head a.
Proof. by destruct a. Qed.

(** A file in a directory. *)
Lemma file_below dir tail : dir ≠ [] → 47 ∉ tail → escapingFilename dir = false → escapingFilename (dir ++ slash_file ++ tail) = false.
Proof.
  intros Hd Ht He. pose proof (not_rooted _ He) as Hh. apply escaping_elems in He; [|done].
  apply escaping_elems; [by rewrite head_app_nonnil|]. unfold elems, slash_file. cbn [app]. rewrite split_on_sep, clean_elems_app. fold (elems dir).
  rewrite split_on_plain; [|rewrite !not_elem_of_cons; split_and!; [done..|done]]. cbn [clean_elems].
  rewrite decide_False by (unfold dot; naive_solver). rewrite decide_False by done. by apply below_push.
Qed.
(** The parent of a directory whose clean name does not start with a dot. *)
Lemma updir_below dir : dir ≠ [] → head (Clean dir) ≠ Some 46 → escapingFilename dir = false → escapingFilename (dir ++ updir) = false.
Proof.
  intros Hd Hc He. pose proof (not_rooted _ He) as Hh. apply escaping_elems in He; [|done].
  apply escaping_elems; [by rewrite head_app_nonnil|]. unfold elems, updir. rewrite split_on_sep, clean_elems_app. fold (elems dir).
  change (split_on 47 [46; 46]) with [dotdot]. pose proof (elems_dots dir) as Hdots. cbn [clean_elems].
  rewrite decide_False by (unfold dotdot, dot; naive_solver). rewrite decide_True by done.
  destruct (elems dir) as [|k kept] eqn:Ee.
  - exfalso. apply Hc. unfold Clean. replace (match dir with b :: _ => bool_decide (b = 47) | [] => false end) with false; [by fold (elems dir); rewrite Ee|].
    destruct dir; [done|]. symmetry. apply bool_decide_eq_false. cbn in Hh. congruence.
  - case_decide as Hk; [|by eapply below_pop]. subst k. specialize (Hdots ltac:(left)). by apply He in Hdots.
Qed.
(** Removing the terminating zero of a name changes its last element only. *)
Lemma strip_below name : name ≠ [] → escapingFilename (name ++ [0]) = false → escapingFilename name = false.
Proof.
  intros Hn He. pose proof (not_rooted _ He) as Hh. rewrite head_app_nonnil in Hh by done. apply escaping_elems in He; [|by rewrite head_app_nonnil].
  apply escaping_elems; [done|]. revert He. unfold elems. destruct (split_on_snoc 47 name [0]) as (pre & x & -> & ->); [set_solver|].
  rewrite !clean_elems_app. assert (Hdots : dots_first (clean_elems false [] pre)) by (apply clean_dots_first; by intros ?%not_elem_of_nil).
  set (kept := clean_elems false [] pre) in *. cbn [clean_elems]. rewrite (decide_False (P := x ++ [0] = [] ∨ _)).
  2:{ intros [E|E]; [by destruct x|]. by destruct x as [|? [|? ?]]. }
  rewrite (decide_False (P := x ++ [0] = dotdot)) by (by destruct x as [|? [|? [|? ?]]]). intros He.
  case_decide; [by eapply below_pop|]. case_decide as Hx.
  - subst x. destruct kept as [|k kept]; [by specialize (He _ eq_refl)|]. apply below_pop in He. case_decide as Hk; [|by eapply below_pop].
    subst k. specialize (Hdots ltac:(left)). by apply He in Hdots.
  - destruct kept as [|k kept]; [|exact He]. specialize (He _ eq_refl). intros e [= <-]. by destruct x as [|? [|? ?]].
Qed.

Lemma one_zero_head l : head (one_zero l) = Some 0 → head (tail (one_zero l)) ≠ Some 0.
Proof.
  induction l as [|b l IH]; [done|]. cbn [one_zero]. case_decide as Hd; [done|]. cbn. intros [= ->] H. apply Hd. auto.
Qed.
Lemma last_strip val : last (strip_zero (trim_padding val)) ≠ Some 0 ∨ (length (trim_padding val) ≤ 1)%nat.
Proof.
  unfold trim_padding. set (l := one_zero (reverse val)). pose proof (one_zero_head (reverse val)) as H. fold l in H. unfold strip_zero.
  rewrite length_reverse, last_reverse. destruct l as [|b l]; [by left|]. cbn [head tail] in *. case_decide as Hb; [|left; by rewrite last_reverse].
  specialize (H Hb). left. rewrite reverse_cons, take_app_le by (rewrite length_reverse; cbn; lia). rewrite take_ge by (rewrite length_reverse; cbn; lia).
  by rewrite last_reverse.
Qed.
Lemma strip_snoc val : last val = Some 0 → val = strip_zero val ++ [0].
Proof.
  intros H. unfold strip_zero. rewrite decide_True by done. apply last_Some in H as [l ->]. rewrite length_app, take_app_le by (cbn; lia).
  by rewrite take_ge by (cbn; lia).
Qed.

(** ** The files of the state *)

Definition files_ok (files : gset (list Z)) : Prop := ∀ f, f ∈ files → f ≠ [] ∧ good_name f.
Lemma note_buffer_files s kind data : files_ok (st_files s) → files_ok (st_files (note_buffer s kind data)).
Proof.
  intros Hs. destruct kind; try done. unfold note_buffer. case_decide as Hl; [done|]. destruct (escapingFilename (trim_padding data)) eqn:He; [done|].
  cbn [st_files add_file]. intros f [->%elem_of_singleton|Hf]%elem_of_union; [|by apply Hs].
  destruct (last_strip data) as [Hz|Hz]; [|unfold len in Hl; lia]. set (val := trim_padding data) in *. unfold len in Hl.
  destruct (decide (last val = Some 0)) as [E|E].
  - pose proof (strip_snoc val E) as Ev. assert (Hne : strip_zero val ≠ []) by (intros E0; rewrite E0 in Ev; rewrite Ev in Hl; cbn in Hl; lia).
    split; [done|]. split; [|done]. apply strip_below; [done|]. by rewrite <-Ev.
  - assert (strip_zero val = val) as Ev by (unfold strip_zero; by rewrite decide_False). rewrite Ev in *. split; [by intros ->; cbn in Hl|done].
Qed.

Section analysis_props.
Context (target : Target) (typeRefs : list Typ).

Lemma note_memory_rest s a s' : note_memory target typeRefs s a = Ret s' → st_files s' = st_files s ∧ st_resources s' = st_resources s.
Proof.
  unfold note_memory. destruct a as [| ? ? ? res| | | |]; try (by intros [= <-]). destruct (IsSpecial _ _ _); [by intros [= <-]|]. case_decide as Hz.
  - intros H. inv_ret H. by injection H as <-.
  - destruct res; [|by intros [= <-]]. intros H. inv_ret H. by injection H as <-.
Qed.
Lemma analyze_arg_files resources s a s' : analyze_arg target typeRefs resources s a = Ret s' → files_ok (st_files s) → files_ok (st_files s').
Proof.
  unfold analyze_arg. intros H Hs. inv_ret H. apply note_memory_rest in Hv as [Ef _]. rewrite <-Ef in Hs. clear Ef.
  destruct v0; try (injection H as <-; done); destruct a; try done; injection H as <-.
  - by destruct (resources && _).
  - case_decide; [by apply note_buffer_files|done].
Qed.

(** The resource an argument adds. *)
Definition arg_resource (resources : bool) (a : Arg) : option (string * argid) :=
  match TypeOf typeRefs a with
  | Ret (ResourceType _ _ desc) =>
      match a with
      | AResult r => if resources && bool_decide (arg_dir (res_common r) ≠ DirIn) then Some (ResName desc, arg_id (res_common r)) else None
      | _ => None
      end
  | _ => None
  end.
(** The resources with a name among a list of additions, in order. *)
Definition named (name : string) (l : list (string * argid)) : list argid := (filter (λ x, x.1 = name) l).*2.
Definition resources_of (s : state) (name : string) : list argid := default [] (st_resources s !! name).
Definition adds (s s' : state) (l : list (string * argid)) : Prop := ∀ name, resources_of s' name = resources_of s name ++ named name l.

Lemma named_app name l k : named name (l ++ k) = named name l ++ named name k.
Proof. unfold named. by rewrite filter_app, fmap_app. Qed.
Lemma adds_nothing s s' : st_resources s' = st_resources s → adds s s' [].
Proof. intros E name. unfold resources_of. by rewrite E, app_nil_r. Qed.
Lemma note_buffer_resources s kind data : st_resources (note_buffer s kind data) = st_resources s.
Proof. unfold note_buffer. destruct kind; try done. repeat case_decide; [done|]. by destruct (escapingFilename _). Qed.
Lemma add_resource_adds s s1 name x : st_resources s1 = st_resources s → adds s (add_resource s1 name x) [(name, x)].
Proof.
  intros E n. unfold resources_of. cbn [st_resources add_resource]. rewrite E. unfold named. rewrite filter_cons, filter_nil. cbn [fst].
  destruct (decide (name = n)) as [->|Hne]; [by rewrite lookup_insert_eq|]. rewrite lookup_insert_ne by done. cbn. by rewrite app_nil_r.
Qed.
Lemma analyze_arg_adds resources s a s' : analyze_arg target typeRefs resources s a = Ret s' → adds s s' (option_list (arg_resource resources a)).
Proof.
  unfold analyze_arg, arg_resource. intros H. inv_ret H. apply note_memory_rest in Hv as [_ Er]. rewrite Hv0.
  destruct v0; try (injection H as <-; by apply adds_nothing); destruct a; try done; injection H as <-.
  - destruct (resources && _); [by apply add_resource_adds|by apply adds_nothing].
  - apply adds_nothing. case_decide; [by rewrite note_buffer_resources|done].
Qed.

Definition additions (resources : bool) (vs : list ArgVisit) : list (string * argid) := omap (λ v, arg_resource resources (v_arg v)) vs.
Lemma additions_cons resources v vs : additions resources (v :: vs) = option_list (arg_resource resources (v_arg v)) ++ additions resources vs.
Proof. unfold additions. cbn [omap list_omap]. by destruct (arg_resource resources (v_arg v)). Qed.
Lemma analyze_args_spec resources vs s s' : analyze_args target typeRefs resources vs s = Ret s' → files_ok (st_files s) →
  files_ok (st_files s') ∧ adds s s' (additions resources vs).
Proof.
  revert s. induction vs as [|v vs IH]; intros s H Hf; cbn [analyze_args] in H; [injection H as <-; split; [done|by apply adds_nothing]|].
  inv_ret H. pose proof (analyze_arg_files _ _ _ _ Hv Hf) as Hf1. apply analyze_arg_adds in Hv.
  destruct (IH _ H Hf1) as [H1 H2]. split; [done|]. intros name. rewrite additions_cons, named_app, H2, Hv. by rewrite app_assoc.
Qed.

(** A result of call [c] that later calls can use as a resource [name]. *)
Definition yields (c : Call) (name : string) (x : argid) : Prop :=
  ∃ vs r tc f desc, ForeachArg typeRefs c = Ret vs ∧ AResult r ∈ v_arg <$> vs ∧ TypeOf typeRefs (AResult r) = Ret (ResourceType tc f desc)
    ∧ ResName desc = name ∧ arg_dir (res_common r) ≠ DirIn ∧ arg_id (res_common r) = x.
Lemma additions_false vs : additions false vs = [].
Proof.
  induction vs as [|v vs IH]; [done|]. rewrite additions_cons, IH, app_nil_r. unfold arg_resource. destruct (TypeOf _ _) as [[]|]; try done. by destruct (v_arg v).
Qed.
Lemma additions_yield c vs name x : ForeachArg typeRefs c = Ret vs → x ∈ named name (additions true vs) ↔ yields c name x.
Proof.
  intros Hvs. unfold named, additions. rewrite list_elem_of_fmap. setoid_rewrite list_elem_of_filter. setoid_rewrite list_elem_of_omap. unfold yields, arg_resource. split.
  - intros ([n y] & -> & Hn & v & Hv & E). cbn [fst snd] in *. subst n.
    destruct (TypeOf typeRefs (v_arg v)) as [[tc f desc| | | | | | | | | | | |]|] eqn:Et; try done. destruct (v_arg v) as [| | | | |r] eqn:Er; try done.
    cbn [andb] in E. case_bool_decide as Hd; [|done].
    injection E as E1 E2. exists vs, r, tc, f, desc. split_and!; try done. rewrite <-Er. by apply list_elem_of_fmap_2.
  - intros (vs' & r & tc & f & desc & Hvs' & Hr & Et & <- & Hd & <-). rewrite Hvs in Hvs'. injection Hvs' as <-.
    apply list_elem_of_fmap in Hr as (v & Ev & Hv). exists (ResName desc, arg_id (res_common r)). cbn [fst snd]. split_and!; [done|done|].
    exists v. split; [done|]. rewrite <-Ev, Et. cbn [andb]. by rewrite bool_decide_true.
Qed.

(** The calls that come before the stop index, among those from [i] on. *)
Definition yielded (l : list (option Call)) (i : nat) (stop : option nat) (name : string) (x : argid) : Prop :=
  ∃ j c, l !! j = Some (Some c) ∧ from_option (λ k, i ≤ k → i + j < k)%nat True stop ∧ yields c name x.
Lemma analyze_calls_false l i stop s s' : analyze_calls target typeRefs l i stop false s = Ret s' → files_ok (st_files s) →
  files_ok (st_files s') ∧ ∀ name, resources_of s' name = resources_of s name.
Proof.
  revert i s. induction l as [|c l IH]; intros i s H Hf; cbn [analyze_calls] in H; [by injection H as <-|].
  replace (if decide (stop = Some i) then false else false) with false in H by (by case_decide). inv_ret H. destruct c as [c|]; [|done]. cbn [analyzeImpl] in Hv. inv_ret Hv.
  apply analyze_args_spec in Hv as [Hf1 Ha]; [|done]. rewrite additions_false in Ha. destruct (IH _ _ H Hf1) as [H1 H2]. split; [done|].
  intros name. rewrite H2, Ha. by rewrite app_nil_r.
Qed.
Lemma analyze_calls_spec l i stop s s' : analyze_calls target typeRefs l i stop true s = Ret s' → files_ok (st_files s) →
  files_ok (st_files s') ∧ ∀ name x, x ∈ resources_of s' name ↔ x ∈ resources_of s name ∨ yielded l i stop name x.
Proof.
  revert i s. induction l as [|c l IH]; intros i s H Hf; cbn [analyze_calls] in H.
  { injection H as <-. split; [done|]. intros name x. split; [by left|]. intros [|(j & c & Hj & _)]; [done|]. by rewrite lookup_nil in Hj. }
  destruct (decide (stop = Some i)) as [->|Hne].
  - inv_ret H. destruct c as [c|]; [|done]. cbn [analyzeImpl] in Hv. inv_ret Hv. apply analyze_args_spec in Hv as [Hf1 Ha]; [|done].
    rewrite additions_false in Ha. destruct (analyze_calls_false _ _ _ _ _ H Hf1) as [H1 H2]. split; [done|].
    intros name x. rewrite H2, Ha, app_nil_r. split; [by left|]. intros [|(j & c' & _ & Hj & _)]; [done|]. cbn in Hj. lia.
  - inv_ret H. destruct c as [c|]; [|done]. cbn [analyzeImpl] in Hv. inv_ret Hv. apply analyze_args_spec in Hv as [Hf1 Ha]; [|done].
    destruct (IH _ _ H Hf1) as [H1 H2]. split; [done|]. intros name x. rewrite H2, Ha, elem_of_app, (additions_yield c) by done. split.
    + intros [[Hx|Hx]|(j & c' & Hj & Hs & Hy)]; [by left| |].
      * right. exists 0%nat, c. split_and!; [done| |done]. destruct stop as [k|]; [cbn|done]. assert (k ≠ i) by congruence. lia.
      * right. exists (S j), c'. split_and!; [done| |done]. destruct stop as [k|]; [cbn in *|done]. assert (k ≠ i) by congruence. lia.
    + intros [Hx|(j & c' & Hj & Hs & Hy)]; [by left; left|]. destruct j as [|j]; cbn in Hj; [injection Hj as <-; left; by right|].
      right. exists j, c'. split_and!; [done| |done]. destruct stop as [k|]; [cbn in *|done]. lia.
Qed.
End analysis_props.

Lemma newState_empty target s : newState target = Ret s → st_files s = ∅ ∧ st_resources s = ∅.
Proof. unfold newState. intros H. inv_ret H. by injection H as <-. Qed.
Lemma analyze_files target typeRefs p stop s : analyze target typeRefs p stop = Ret s → files_ok (st_files s).
Proof.
  unfold analyze. intros H. inv_ret H. apply newState_empty in Hv as [Ef _]. apply analyze_calls_spec in H as [H _]; [done|]. rewrite Ef. by intros f ?%not_elem_of_empty.
Qed.

(** C19: The resources that the analysis offers to a new call are exactly the
    results, of a call before the place of insertion and with that resource
    type, that are not plain inputs; nothing a later call produces is offered.
    Every file it remembers is a non-empty name below the working directory
    that does not end in a zero byte. *)
Theorem analyze_spec (target : Target) (typeRefs : list Typ) (p : Prog) (stop : option nat) (s : state)
    (Hs : analyze target typeRefs p stop = Ret s) :
  (∀ name x, x ∈ default [] (st_resources s !! name) ↔
     ∃ i c, Calls p !! i = Some (Some c) ∧ (∀ k, stop = Some k → (i < k)%nat) ∧ yields typeRefs c name x)
  ∧ ∀ f, f ∈ st_files s → f ≠ [] ∧ last f ≠ Some 0 ∧ escapingFilename f = false.
Proof.
  split; [|intros f Hf; by destruct (analyze_files _ _ _ _ _ Hs f Hf) as (? & ? & ?)].
  unfold analyze in Hs. inv_ret Hs. apply newState_empty in Hv as [Ef Er]. apply analyze_calls_spec in Hs as [_ H]; [|rewrite Ef; by intros f ?%not_elem_of_empty].
  intros name x. change (default [] (st_resources s !! name)) with (resources_of s name). rewrite H. unfold resources_of. rewrite Er, lookup_empty. cbn [default]. split.
  - intros [?%not_elem_of_nil|(j & c & Hj & Hk & Hy)]; [done|]. exists j, c. split_and!; [done| |done]. intros k ->. cbn in Hk. lia.
  - intros (i & c & Hi & Hk & Hy). right. exists i, c. split_and!; [done| |done]. destruct stop as [k|]; [cbn|done]. intros _. by apply Hk.
Qed.

(** ** New names *)

Lemma decimal_acc fuel n acc : decimal fuel n acc = decimal fuel n [] ++ acc.
Proof.
  revert n acc. induction fuel as [|fuel IH]; intros n acc; [done|]. cbn [decimal]. case_decide; [done|]. rewrite IH, (IH _ [_]). by rewrite <-app_assoc.
Qed.
Definition is_digit (b : Z) : Prop := 48 ≤ b < 58.
Definition digits_value (l : list Z) : Z := foldl (λ v b, 10 * v + (b - 48)) 0 l.
Lemma decimal_spec fuel n : 0 ≤ n < Z.of_nat fuel → digits_value (decimal fuel n []) = n ∧ Forall is_digit (decimal fuel n []).
Proof.
  revert n. induction fuel as [|fuel IH]; intros n Hn; [lia|]. cbn [decimal]. pose proof (Z.mod_pos_bound n 10 ltac:(lia)) as Hm.
  case_decide as Hd.
  - rewrite Z.mod_small by lia. split; [cbn; lia|]. repeat constructor; lia.
  - rewrite decimal_acc. destruct (IH (n / 10)) as [H1 H2].
    { split; [apply Z.div_pos; lia|]. apply Z.div_lt_upper_bound; lia. }
    split; [|apply Forall_app_2; [done|repeat constructor; lia]]. unfold digits_value in *. rewrite foldl_app, H1. cbn [foldl]. pose proof (Z.div_mod n 10). lia.
Qed.
Lemma show_int_digits n : 0 ≤ n → digits_value (show_int n) = n ∧ Forall is_digit (show_int n).
Proof. intros. apply decimal_spec. lia. Qed.

(** The name with number [i], maybe padded. *)
Definition new_name (dir : list Z) (i : Z) (f : list Z) : Prop := ∃ k, f = dir ++ slash_file ++ show_int i ++ replicate k 97.
Lemma digits_then_pad a b m n : Forall is_digit a → Forall is_digit b → a ++ replicate m 97 = b ++ replicate n 97 → a = b.
Proof.
  intros Ha. revert b. induction Ha as [|x a Hx Ha IH]; intros [|y b] Hb E; [done|..].
  - apply Forall_cons in Hb as [Hy _]. destruct m; [done|]. injection E as <- _. unfold is_digit in Hy. lia.
  - destruct n; [done|]. injection E as -> _. unfold is_digit in Hx. lia.
  - apply Forall_cons in Hb as [_ Hb]. injection E as -> E. f_equal. by apply IH.
Qed.
Lemma new_name_inj dir i j f : 0 ≤ i → 0 ≤ j → new_name dir i f → new_name dir j f → i = j.
Proof.
  intros Hi Hj [m ->] [n E]. apply app_inv_head, app_inv_head in E. destruct (show_int_digits i Hi) as [Vi Di]. destruct (show_int_digits j Hj) as [Vj Dj].
  apply digits_then_pad in E; [|done|done]. congruence.
Qed.
Lemma new_name_good dir i f : 0 ≤ i → dir ≠ [] → escapingFilename dir = false → new_name dir i f → good_name f.
Proof.
  intros Hi Hd He [k ->]. destruct (show_int_digits i Hi) as [_ Hdig]. assert (Ht : Forall (λ b, 48 ≤ b) (show_int i ++ replicate k 97)).
  { apply Forall_app_2; [eapply Forall_impl; [done|]; unfold is_digit; intros; lia|]. apply Forall_replicate. lia. }
  split.
  - apply file_below; [done| |done]. intros H. rewrite Forall_forall in Ht. specialize (Ht _ H). cbn in Ht. lia.
  - rewrite last_app. intros E. assert (H : 0 ∈ slash_file ++ show_int i ++ replicate k 97).
    { apply last_Some_elem_of. destruct (last (slash_file ++ _)) eqn:El; [congruence|]. apply last_None in El. done. }
    apply elem_of_app in H as [H|H]; [by apply bool_decide_unpack in H || (repeat (apply elem_of_cons in H as [H|H]; [done|]); by apply not_elem_of_nil in H)|].
    rewrite Forall_forall in Ht. specialize (Ht _ H). cbn in Ht. lia.
Qed.

Section filenames.
Context (lens : list Z) (Hlens : lens ≠ []).

Lemma lens_pos : 0 < len lens.
Proof. unfold len. destruct lens; [done|cbn; lia]. Qed.
Lemma randFilenameLength_spec r : returns (randFilenameLength lens r) (λ x, 0 ≤ x.1).
Proof.
  unfold randFilenameLength. destruct (biasedRand 10 5 r) as [off r1]. pose proof lens_pos. draw_step. draw_step.
  eapply returns_bind; [apply (returns_index _ _ (λ _, True)); [lia|by apply Forall_true]|]. intros l _. apply returns_Ret. cbn. lia.
Qed.
Lemma pad_name_spec dir i r : returns (pad_name lens (dir ++ slash_file ++ show_int i) r) (λ x, new_name dir i x.1).
Proof.
  unfold pad_name. draw_step. draw_step; cycle 1.
  { apply returns_Ret. exists 0%nat. cbn [fst replicate]. by rewrite app_nil_r. }
  eapply returns_bind; [apply randFilenameLength_spec|]. intros [l r1] _. apply returns_Ret. eexists. cbn [fst]. by rewrite <-!app_assoc.
Qed.
(** The numbers below [i] are taken; one name more than there are files is
    free. *)
Lemma fresh_name_spec fuel i dir files taken r : taken ⊆ files → size taken = Z.to_nat i → 0 ≤ i →
  (∀ f, f ∈ taken → ∃ j, 0 ≤ j < i ∧ new_name dir j f) → (size files < fuel + Z.to_nat i)%nat →
  returns (fresh_name lens fuel i dir files r) (λ o, ∃ f r' j, o = Some (f, r') ∧ 0 ≤ j ∧ new_name dir j f ∧ f ∉ files).
Proof.
  revert i taken r. induction fuel as [|fuel IH]; intros i taken r Hsub Hsize Hi Hnames Hfuel; [apply subseteq_size in Hsub; lia|]. cbn [fresh_name].
  eapply returns_bind; [apply pad_name_spec|]. intros [f r1] Hf. cbn [fst] in Hf. case_decide as Hin; [|apply returns_Ret; by exists f, r1, i].
  assert (Hnew : f ∉ taken). { intros H. destruct (Hnames f H) as (j & Hj & Hn). assert (i = j) by (eapply new_name_inj; [| |done|done]; lia). lia. }
  apply (IH (i + 1) ({[f]} ∪ taken)); [set_solver| |lia| |lia].
  - rewrite size_union, size_singleton by set_solver. lia.
  - intros g [->%elem_of_singleton|Hg]%elem_of_union; [exists i; split; [lia|done]|]. destruct (Hnames g Hg) as (j & Hj & Hn). exists j. split; [lia|done].
Qed.
Lemma randFromMap_spec m r : m ≠ ∅ → returns (randFromMap m r) (λ x, x.1 ∈ m).
Proof.
  intros Hm. unfold randFromMap. set (l := sort_by bytes_less (elements m)). assert (Hl : Forall (λ f, f ∈ m) l).
  { apply Forall_forall. intros f. unfold l. by rewrite elem_of_sort_by, elem_of_elements. }
  assert (0 < len l). { unfold l, len. rewrite length_sort_by. assert (size m ≠ 0%nat) by (by intros ?%size_empty_inv%leibniz_equiv). unfold size, set_size in *. cbn in *. lia. }
  draw_step. eapply returns_bind; [by apply returns_index|]. intros f Hf. by apply returns_Ret.
Qed.
Lemma strip_zero_id f : last f ≠ Some 0 → strip_zero f = f.
Proof. intros. unfold strip_zero. by rewrite decide_False. Qed.
Lemma choose_dir_spec files r : files_ok files → returns (choose_dir files r) (λ x, x.1 ≠ [] ∧ escapingFilename x.1 = false).
Proof.
  intros Hok. unfold choose_dir. draw_step. destruct b; cbn [andb]; [|by apply returns_Ret]. case_bool_decide as Hne; [|by apply returns_Ret].
  eapply returns_bind; [by apply randFromMap_spec|]. intros [dir r1] Hd. cbn [fst] in Hd. destruct (Hok dir Hd) as (H1 & H2 & H3). cbn beta match. rewrite strip_zero_id by done.
  cbn zeta. draw_step. apply returns_Ret. cbn [fst]. destruct b; cbn [andb]; [|done]. case_bool_decide; [|done]. split; [by destruct dir|by apply updir_below].
Qed.
Lemma filenameImpl_spec fuel s r : files_ok (st_files s) → (size (st_files s) < fuel)%nat →
  returns (filenameImpl lens fuel s r) (λ o, ∃ f r', o = Some (f, r') ∧ good_name f).
Proof.
  intros Hok Hfuel. unfold filenameImpl. draw_step. draw_step.
  { change (len specialFiles) with 2. draw_step. eapply returns_bind; [apply (returns_index _ _ good_name); [done|by repeat constructor]|].
    intros f Hf. apply returns_Ret. by exists f, r1. }
  apply (returns_bind _ _ (λ x, x.1 = false → st_files s ≠ ∅)).
  { case_decide; [by apply returns_Ret|]. eapply returns_mono; [apply returns_oneOf; lia|done]. }
  intros [new r1] Hnew. cbn [fst] in Hnew. draw_step.
  - eapply returns_bind; [by apply choose_dir_spec|]. intros [dir r2] [Hd He]. cbn [fst] in *. cbn beta match.
    eapply returns_mono; [apply (fresh_name_spec _ _ _ _ ∅); [set_solver|done|done|set_solver|lia]|].
    intros o (f & r' & j & -> & Hj & Hn & _). exists f, r'. split; [done|]. by eapply new_name_good.
  - eapply returns_bind; [apply randFromMap_spec; by apply Hnew|]. intros [f r2] Hf. apply returns_Ret. exists f, r2. split; [done|]. by apply Hok.
Qed.
End filenames.

(** C18: File names for new calls.  From the state of any analysed program, with
    one round more than there are files in it, a name is found for all random
    numbers and neither check on it fails: it stays below the working directory
    and does not end in a zero byte; the argument's bytes are this name cut or
    padded to the size of the type, or terminated when the type asks for it. *)
Theorem filename_safe (target : Target) (typeRefs : list Typ) (p : Prog) (stop : option nat) (s : state) (lens : list Z) (typ : Typ)
    (c : TypeCommon) (kind : BufferKind) (lo hi : Z) (sub : string) (values : list string) (noZ : bool) (r : rng)
    (Hs : analyze target typeRefs p stop = Ret s) (Hlens : lens ≠ []) (Htyp : typ = BufferType c kind lo hi sub values noZ) :
  ∃ fn name r', filename lens (S (size (st_files s))) s typ r = Ret (Some (fn, r'))
    ∧ escapingFilename name = false ∧ last name ≠ Some 0
    ∧ fn = if Varlen typ then (if noZ then name else name ++ [0])
           else take (Z.to_nat (TypeSize c)) (name ++ replicate (Z.to_nat (TypeSize c)) 0).
Proof.
  destruct (filenameImpl_spec lens Hlens (S (size (st_files s))) s r) as (o & E & name & r' & -> & Hg1 & Hg2); [by eapply analyze_files|lia|].
  unfold filename. rewrite Htyp. rewrite E. cbn [mbind outcome_bind]. rewrite decide_False by done. rewrite Hg1. unfold fit_name, TSize.
  destruct (Varlen _); cbn [negb mbind outcome_bind]; [by eexists _, name, r'|]. cbn [type_common].
  eexists _, name, r'. split_and!; [done|done|done|]. destruct (decide (length name ≤ Z.to_nat (TypeSize c))%nat).
  - rewrite !take_app_ge by lia. f_equal. rewrite !take_replicate. f_equal. lia.
  - rewrite !take_app_le by lia. done.
Qed.

(** ** Concrete runs *)

Definition ax_target : Target := mkTarget 4096 64 0 [] ∅ ∅ [0].
Definition ax_types : list Typ :=
  [BufferType (mkTypeCommon "" 0 0 false true 0) BufferBlobRand 0 0 "" [] false;
   ResourceType (mkTypeCommon "fd" 4 4 false false 1) FormatNative (mkResourceDesc "fd" ["fd"%string] [2 ^ 64 - 1]);
   BufferType (mkTypeCommon "filename" 0 1 false true 2) BufferFilename 0 0 "" [] false;
   PtrType (mkTypeCommon "ptr" 8 8 false false 3) 2 DirIn false].
Definition ax_open : Syscall :=
  mkSyscall 0 0 "open" "open" 0 [mkField "file" 3 false DirIn None] (Some 1)
    (mkSyscallAttrs false 0 0 false false false false false false false false false false "" "").
Definition ax_call (i : argid) (address : Z) (file : string) : option Call :=
  Some (mkCall (Some ax_open)
    [PointerArg (mkArgCommon (i + 1) 3 DirIn) address 0 (Some (DataArg (mkArgCommon (i + 2) 2 DirIn) (bytes_of file ++ [0]) 0))]
    (Some (mkResultArg (mkArgCommon i 1 DirOut) None 0 0 0 ∅)) noProps "").
Definition ax_prog : Prog := mkProg [ax_call 10 0 "./file0"; ax_call 20 64 "./file1"] [] false.
Definition ax_state : state := match analyze ax_target ax_types ax_prog (Some 1%nat) with Ret s => s | Panic => mkState ∅ ∅ ∅ (mkMemAlloc 0 [] ∅) (newVmaAlloc 0) end.
Example ax_analyze : analyze ax_target ax_types ax_prog (Some 1%nat) = Ret ax_state
  ∧ st_resources ax_state = {["fd"%string := [10]]} ∧ st_files ax_state = {[bytes_of "./file0"; bytes_of "./file1"]}.
Proof. split_and!; vm_compute; reflexivity. Qed.

Lemma analyze_spec_witness :
  ((∀ name x, x ∈ default [] (st_resources ax_state !! name) ↔
     ∃ i c, Calls ax_prog !! i = Some (Some c) ∧ (∀ k, Some 1%nat = Some k → (i < k)%nat) ∧ yields ax_types c name x)
  ∧ ∀ f, f ∈ st_files ax_state → f ≠ [] ∧ last f ≠ Some 0 ∧ escapingFilename f = false)
  ∧ st_resources ax_state !! "fd"%string = Some [10].
Proof. split; [|vm_compute; reflexivity]. apply (analyze_spec ax_target ax_types ax_prog (Some 1%nat)). vm_compute. reflexivity. Defined.

Definition ax_filename : Typ := BufferType (mkTypeCommon "filename" 0 1 false true 2) BufferFilename 0 0 "" [] false.
(** A new file in the directory of an old one. *)
Lemma filename_safe_witness :
  (∃ fn name r', filename [4096] (S (size (st_files ax_state))) ax_state ax_filename [1; 0; 0; 0; 0; 1] = Ret (Some (fn, r'))
    ∧ escapingFilename name = false ∧ last name ≠ Some 0
    ∧ fn = if Varlen ax_filename then (if false then name else name ++ [0])
           else take (Z.to_nat 0) (name ++ replicate (Z.to_nat 0) 0))
  ∧ filename [4096] (S (size (st_files ax_state))) ax_state ax_filename [1; 0; 0; 0; 1; 1] = Ret (Some (bytes_of "./file0/file0" ++ [0], [])).
Proof.
  split; [|vm_compute; reflexivity].
  apply (filename_safe ax_target ax_types ax_prog (Some 1%nat) ax_state [4096] ax_filename (mkTypeCommon "filename" 0 1 false true 2) BufferFilename 0 0 "" [] false).
  - vm_compute. reflexivity.
  - discriminate.
  - reflexivity.
Defined.

(** The check precedes the cut to a fixed size: of the name [..a/../b], which
    stays below the directory, a buffer of two bytes keeps [..]. *)
Definition up_prog : Prog := mkProg [ax_call 10 0 "..a/../b"] [] false.
Example filename_cut_escapes :
  ∃ s, analyze ax_target ax_types up_prog None = Ret s
    ∧ filename [4096] 2 s (BufferType (mkTypeCommon "filename2" 2 1 false false 4) BufferFilename 0 0 "" [] false) [1; 1; 0] = Ret (Some (dotdot, []))
    ∧ escapingFilename dotdot = true.
Proof. eexists. split; [vm_compute; reflexivity|]. vm_compute. done. Qed.
