(* ===== verification/Generate.v ===== *)
(** * Generation of arguments without subarguments
    (src/prog/rand.go: generate; src/prog/size.go: mutateSize)

    The generators of integers, memory areas and buffers, the placement of
    pointees, and the mutation of length fields.  A new argument takes the
    identity [n]; a state that changes is returned. *)

From S2P Require Import Prelude Bits GoStrings Prog ForeachArg Alloc Defaults Validation RandGen Analysis.

Section generate.
Context (target : Target) (typeRefs : list Typ) (SpecialFileLenghts : list Z).

(** ** Integers *)

(** The value of a new argument of an integer-like type. *)
Definition generate_value (fuel : nat) (t : Typ) (r : rng) : outcome (option (Z * rng)) :=
  match t with
  | FlagsType _ vals bitMask => flags fuel vals bitMask 0 r
  | ConstType _ val _ => Ret (Some (val, r))
  | IntType _ kind rangeBegin rangeEnd align =>
      bits ← TypeBitSize t;
      '(v, r) ← randInt bits r;
      '(v, r) ← match kind with
                | IntRange => randRangeInt rangeBegin rangeEnd bits align r
                | IntPlain => Ret (v, r)
                end;
      Ret (Some (v, r))
  | ProcType _ _ valuesPerProc => '(v, r) ← rand (i64 valuesPerProc) r; Ret (Some (v, r))
  | LenType _ _ _ _ | CsumType _ _ _ _ => Ret (Some (0, r))
  | _ => Panic
  end.
Definition generate_const (fuel : nat) (t : Typ) (dir : Dir) (n : argid) (r : rng) : outcome (option (Arg * rng)) :=
  o ← generate_value fuel t r;
  Ret (match o with Some (v, r) => Some (MakeConstArg t dir v n, r) | None => None end).

(** ** Memory *)

Definition MakeVmaPointerArg (t : Typ) (dir : Dir) (addr size : Z) (n : argid) : outcome Arg :=
  if decide (addr mod 1024 ≠ 0) then Panic else Ret (PointerArg (make_common t dir n) addr size None).
Definition allocVMA (s : state) (t : Typ) (dir : Dir) (numPages : Z) (n : argid) (r : rng) : outcome (Arg * state * rng) :=
  '(page, va, r) ← va_alloc (st_va s) numPages r;
  a ← MakeVmaPointerArg t dir (page *u PageSize target) (numPages *u PageSize target) n;
  Ret (a, mkState (st_files s) (st_resources s) (st_strings s) (st_ma s) va, r).
Definition generate_vma (s : state) (t : Typ) (rangeBegin rangeEnd : Z) (dir : Dir) (n : argid) (r : rng) : outcome (Arg * state * rng) :=
  '(npages, r) ← randPageCount target r;
  '(npages, r) ← (if decide (rangeBegin ≠ 0 ∨ rangeEnd ≠ 0) then
                    '(i, r) ← Intn (i64 (rangeEnd -u rangeBegin +u 1)) r; Ret (rangeBegin +u i, r)
                  else Ret (npages, r));
  allocVMA s t dir npages n r.
(** A pointer to [data], which the allocator places. *)
Definition allocAddr (s : state) (t : Typ) (size : Z) (data : Arg) (n : argid) : outcome (option (Arg * state)) :=
  dt ← TypeOf typeRefs data;
  o ← ma_alloc 1 (st_ma s) size (TypeAlign (type_common dt));
  Ret (match o with
       | Some (addr, ma) => Some (MakePointerArg t addr data n, mkState (st_files s) (st_resources s) (st_strings s) ma (st_va s))
       | None => None
       end).

(** ** Buffers *)

Fixpoint random_data (k : nat) (r : rng) : outcome (list Z * rng) :=
  match k with
  | O => Ret ([], r)
  | S k => '(b, r) ← Intn 256 r; '(l, r) ← random_data k r; Ret (u8 b :: l, r)
  end.
Definition generate_blob (t : Typ) (range : option (Z * Z)) (dir : Dir) (n : argid) (r : rng) : outcome (Arg * rng) :=
  '(sz, r) ← randBufLen r;
  '(sz, r) ← match range with Some (lo, hi) => randRange lo hi r | None => Ret (sz, r) end;
  if decide (dir = DirOut) then a ← MakeOutDataArg t dir sz n; Ret (a, r)
  else
    '(data, r) ← random_data (Z.to_nat sz) r;
    a ← MakeDataArg t dir data n;
    Ret (a, r).
Definition generate_string (fuel : nat) (kfuzz : bool) (s : state) (t : Typ) (dir : Dir) (n : argid) (r : rng) : outcome (option (Arg * rng)) :=
  o ← randString fuel kfuzz s t r;
  match o with
  | None => Ret None
  | Some (data, r) =>
      a ← (if decide (dir = DirOut) then MakeOutDataArg t dir (len data) n else MakeDataArg t dir data n);
      Ret (Some (a, r))
  end.
Definition generate_filename (fuel : nat) (s : state) (t : Typ) (dir : Dir) (n : argid) (r : rng) : outcome (option (Arg * rng)) :=
  if decide (dir = DirOut) then
    '(sz, r) ← (if negb (Varlen t) then sz ← TSize t; Ret (sz, r)
                else
                  '(c, r) ← nOutOf 1 3 r;
                  if (c : bool) then rand 100 r else randFilenameLength SpecialFileLenghts r);
    a ← MakeOutDataArg t dir sz n;
    Ret (Some (a, r))
  else
    o ← filename SpecialFileLenghts fuel s t r;
    match o with
    | None => Ret None
    | Some (data, r) => a ← MakeDataArg t dir data n; Ret (Some (a, r))
    end.
Definition generate_glob (fuel : nat) (kfuzz : bool) (s : state) (t : Typ) (dir : Dir) (n : argid) (r : rng) : outcome (option (Arg * rng)) :=
  o ← randString fuel kfuzz s t r;
  match o with
  | None => Ret None
  | Some (data, r) => a ← MakeDataArg t dir data n; Ret (Some (a, r))
  end.

(** ** Length fields *)

(** The element size of the field a length refers to; [None]: not mutated. *)
Fixpoint size_target (name : string) (parent : list Arg) (fields : list Field) : outcome (option Z) :=
  match parent with
  | [] => Ret (Some 1)
  | a :: parent =>
      match fields with
      | [] => Panic
      | f :: fields =>
          if decide (name = FieldName f) then
            inner ← InnerArg typeRefs a;
            match inner with
            | None => Ret (Some 1)
            | Some inner =>
                t ← TypeOf typeRefs inner;
                match t with
                | VmaType _ _ _ => Ret None
                | BufferType _ BufferCompressed _ _ _ _ _ => Ret None
                | ArrayType _ elem _ _ _ =>
                    et ← index typeRefs elem;
                    if Varlen et then Ret None else sz ← TSize et; Ret (Some sz)
                | _ => Ret (Some 1)
                end
            end
          else size_target name parent fields
      end
  end.
Definition elem_size (bitSize : Z) (path : list string) (parent : list Arg) (fields : list Field) : outcome (option Z) :=
  if decide (bitSize / 8 = 0) then
    match path with [name] => size_target name parent fields | _ => Ret (Some 1) end
  else Ret (Some (bitSize / 8)).
(** The largest value that is made to overflow. *)
Definition overflow_max (r : rng) : outcome (Z * rng) :=
  '(c, r) ← oneOf 3 r;
  if (c : bool) then
    '(c, r) ← oneOf 2 r;
    if (c : bool) then
      '(c, r) ← oneOf 2 r;
      Ret (if (c : bool) then 2 ^ 8 - 1 else 2 ^ 16 - 1, r)
    else Ret (2 ^ 32 - 1, r)
  else Ret (2 ^ 64 - 1, r).
(** The new value, or [None] when the field is not mutated. *)
Definition mutateSize (t : Typ) (val : Z) (parent : list Arg) (fields : list Field) (r : rng) : outcome (option Z * rng) :=
  match t with
  | LenType _ bitSize _ path =>
      es ← elem_size bitSize path parent fields;
      match es with
      | None => Ret (None, r)
      | Some elemSize =>
          '(c, r) ← oneOf 100 r;
          if (c : bool) then '(v, r) ← rand64 r; Ret (Some v, r) else
          '(c, r) ← bin r;
          if (c : bool) then
            bits ← TypeBitSize t;
            '(down, r) ← (if decide (val ≠ 0) then bin r else Ret (false, r));
            '(v, r) ← (if (down : bool) then randRangeInt 0 (val -u 1) bits 0 r else randRangeInt (val +u 1) (val +u 100) bits 0 r);
            Ret (Some v, r)
          else
            '(max, r) ← overflow_max r;
            n ← udiv max elemSize;
            let '(b, r) := biasedRand 1000 10 r in
            let delta := u64 (1000 - b) in
            '(sub, r) ← (if decide (elemSize = 1) then Ret (true, r) else oneOf 10 r);
            Ret (Some (if (sub : bool) then n -u delta else n +u delta), r)
      end
  | _ => Panic
  end.
End generate.

(** ** What is generated is valid *)

Definition scalar_ok (t : Typ) : Prop :=
  match t with
  | FlagsType _ vals _ => vals ≠ [] ∧ len vals < 2 ^ 62 ∧ Forall in_u64 vals
  | IntType _ kind lo hi align =>
      ∃ bits, TypeBitSize t = Ret bits ∧ 1 ≤ bits ≤ 64 ∧ in_u64 lo ∧ in_u64 hi ∧ 0 ≤ align < 2 ^ 64 ∧ lo ≤ hi
        ∧ hi - lo < 2 ^ 64 - 1 ∧ (0 < align → (whole_range lo hi bits - lo) / align < 2 ^ 64 - 1)
  | ProcType _ _ per => 0 < per < 2 ^ 63
  | ConstType _ _ _ | LenType _ _ _ _ | CsumType _ _ _ _ => True
  | _ => False
  end.
Lemma randRangeInt_returns lo hi bits align r :
  in_u64 lo → in_u64 hi → 0 ≤ align < 2 ^ 64 → 1 ≤ bits ≤ 64 → lo ≤ hi → hi - lo < 2 ^ 64 - 1 →
  (0 < align → (whole_range lo hi bits - lo) / align < 2 ^ 64 - 1) → returns (randRangeInt lo hi bits align r) (λ _, True).
Proof.
  intros Hlo Hhi Ha Hb Hle Hw Hal. destruct (decide (align = 0)) as [->|].
  - unfold randRangeInt. rewrite decide_True by done. eapply returns_mono; [by apply randRangeInt_plain_spec|done].
  - eapply returns_mono; [apply randRangeInt_spec; (done || lia || apply Hal; lia)|done].
Qed.
Lemma generate_value_spec fuel t r : scalar_ok t →
  returns (generate_value fuel t r) (λ o, ∃ v r', o = Some (v, r') ∧ match t with ProcType _ _ per => 0 ≤ v < per | CsumType _ _ _ _ => v = 0 | _ => True end).
Proof.
  destruct t; try done; cbn [scalar_ok generate_value].
  - intros _. apply returns_Ret. eauto.
  - intros (bits & -> & Hb & Hlo & Hhi & Ha & Hle & Hw & Hal). cbn [mbind outcome_bind]. draw_step. cbn beta match.
    apply (returns_bind _ _ (λ _, True)); [destruct Kind; [by apply returns_Ret|by apply randRangeInt_returns]|]. intros [v r'] _. apply returns_Ret. eauto.
  - intros (H1 & H2 & H3). eapply returns_mono; [by apply flags_fresh|]. intros o (v & r' & -> & _). eauto.
  - intros _. apply returns_Ret. eauto.
  - intros Hper. rewrite i64_id by (unfold in_i64; lia). draw_step. apply returns_Ret. eauto.
  - intros _. apply returns_Ret. eauto.
Qed.
(** Integers pass validation; output integers have their default value. *)
Lemma generate_const_valid fuel t dir n r : scalar_ok t → dir ≠ DirOut →
  returns (generate_const fuel t dir n r) (λ o, ∃ c v r', o = Some (ConstArg c v, r') ∧ arg_id c = n ∧ arg_dir c = dir ∧ validate_const c v t = pass ()).
Proof.
  intros Ht Hd. unfold generate_const. eapply returns_bind; [by apply generate_value_spec|]. intros o (v & r' & -> & Hv). apply returns_Ret.
  exists (make_common t dir n), v, r'. split_and!; [done|done|done|]. unfold validate_const. cbn [arg_dir make_common]. rewrite (bool_decide_false (dir = DirOut)) by done. cbn [andb negb].
  destruct t; try done; cbn [scalar_ok] in *.
  - rewrite (bool_decide_false (_ ≤ v)) by lia. done.
  - by rewrite bool_decide_true.
Qed.

Section memory.
Context (target : Target) (typeRefs : list Typ).
Context (Hpage : 1024 ≤ PageSize target) (Hdiv : (1024 | PageSize target)) (Hmem : NumPages target * PageSize target < 2 ^ 63).

Lemma randPageCount_spec r : 12 ≤ NumPages target → returns (randPageCount target r) (λ x, 1 ≤ x.1 ≤ Z.max 20 (3 * NumPages target / 4)).
Proof.
  intros Hn. assert (HN : NumPages target < 2 ^ 53) by nia. unfold randPageCount.
  assert (E : ∀ z, 0 ≤ z < 20 → z +u 1 = z + 1) by (intros; apply u64_id; unfold in_u64; lia).
  repeat draw_step; cbn [fst]; rewrite E by lia; [lia|lia|].
  rewrite u64_id by (unfold in_u64; nia). split; [apply Z.div_le_lower_bound; nia|]. etransitivity; [|apply Z.le_max_r]. apply Z.div_le_mono; nia.
Qed.
(** A generated memory area is valid.  For a target with at least 23 pages
    and a type whose range, if it has one, leaves three pages free, the
    generator returns for all random numbers; the area passes the address check
    of validation, has a length the type allows, and exactly its pages are added
    to those in use. *)
Theorem generate_vma_valid (s : state) (t : Typ) (lo hi : Z) (dir : Dir) (n : argid) (r : rng)
    (Hva : va_inv (st_va s)) (Hpages : va_numPages (st_va s) = NumPages target) (Hused : len (va_used (st_va s)) < 2 ^ 63)
    (Hmin : 23 ≤ NumPages target) (Hrange : lo = 0 ∧ hi = 0 ∨ 1 ≤ lo ≤ hi ∧ hi + 3 ≤ NumPages target) :
  ∃ c page k s' r', generate_vma target s t lo hi dir n r = Ret (PointerArg c (page * PageSize target) (k * PageSize target) None, s', r')
    ∧ validate_address target typeRefs false (page * PageSize target) (k * PageSize target) None = pass ()
    ∧ (hi ≠ 0 → lo ≤ k ≤ hi) ∧ va_inv (st_va s') ∧ ∀ i, i ∈ va_m (st_va s') ↔ i ∈ va_m (st_va s) ∨ page ≤ i < page + k.
Proof.
  unfold generate_vma. assert (HN : NumPages target < 2 ^ 53) by nia.
  destruct (randPageCount_spec r) as ([k0 r0] & -> & Hk0); [lia|]. cbn [mbind outcome_bind fst] in *.
  assert (Hk : ∃ k r1, (if decide (lo ≠ 0 ∨ hi ≠ 0) then '(i, r) ← Intn (i64 (hi -u lo +u 1)) r0; Ret (lo +u i, r) else Ret (k0, r0)) = Ret (k, r1)
    ∧ 1 ≤ k ∧ k + 3 ≤ NumPages target ∧ (hi ≠ 0 → lo ≤ k ≤ hi)).
  { case_decide as Hd.
    - destruct Hrange as [?|[Hr1 Hr2]]; [lia|]. rewrite (u64_id (hi - lo)), (u64_id (_ + 1)), i64_id by (unfold in_u64, in_i64; lia).
      destruct (Intn_Ret (hi - lo + 1) r0) as (i & -> & Hi); [lia|]. cbn [mbind outcome_bind]. rewrite u64_id by (unfold in_u64; lia). exists (lo + i). eexists. split; [done|]. lia.
    - exists k0, r0. split; [done|]. pose proof (Z.mul_div_le (3 * NumPages target) 4). lia. }
  destruct Hk as (k & r1 & -> & Hk1 & Hk2 & Hk3). cbn [mbind outcome_bind]. unfold allocVMA.
  destruct (va_alloc_pages (st_va s) k r1) as (page & va & r2 & -> & Hp1 & Hp2 & ->); [done|done|lia|lia|done|]. rewrite Hpages in Hp2. cbn [mbind outcome_bind].
  destruct (va_noteAlloc_spec (st_va s) page k) as (Hinv & _ & _ & Hm); [done|lia|lia|lia|lia|].
  rewrite !u64_id by (unfold in_u64; nia). unfold MakeVmaPointerArg. rewrite decide_False; cycle 1.
  { intros H. apply H. apply Z.mod_divide; [lia|]. by apply Z.divide_mul_r. }
  cbn [mbind outcome_bind]. eexists _, page, k, _, r2. split; [done|]. cbn [st_va]. split_and!; [|done|done|done].
  unfold validate_address, IsSpecial. rewrite bool_decide_false by nia. cbn [andb check_bind pass].
  rewrite !u64_id by (unfold in_u64; nia). rewrite !bool_decide_false by nia. done.
Qed.
End memory.

(** ** Pointees and lengths *)

(** The allocator's place for a pointee passes the address check. *)
Lemma allocAddr_valid target typeRefs s t data dt size n :
  ma_wf (st_ma s) → 0 < ma_size (st_ma s) → 64 * ma_size (st_ma s) = NumPages target * PageSize target → TypeOf typeRefs data = Ret dt →
  ArgSize typeRefs data = Ret size → 0 ≤ size ≤ 64 * ma_size (st_ma s) → 0 ≤ TypeAlign (type_common dt) < 2 ^ 64 - 64 →
  ∃ addr s', allocAddr typeRefs s t size data n = Ret (Some (MakePointerArg t addr data n, s')) ∧ ma_wf (st_ma s')
    ∧ validate_address target typeRefs false addr 0 (Some data) = pass ().
Proof.
  intros Hwf Hpos Hmem Ht Hsize Hfit Hal. unfold allocAddr. rewrite Ht. cbn [mbind outcome_bind].
  destruct (ma_alloc_run (st_ma s) size (TypeAlign (type_common dt))) as (p & ma & -> & Hwf' & _ & Hp1 & Hp2 & _); [done..|].
  cbn [mbind outcome_bind]. eexists _, _. split_and!; [done|done|]. pose proof (ma_size_range _ Hwf) as Hr.
  unfold validate_address, IsSpecial. rewrite andb_false_r. cbn [andb]. rewrite decide_True by done. rewrite Hsize. cbn [lift check_bind].
  rewrite <-Hmem, !u64_id by (unfold in_u64; lia). rewrite !bool_decide_false by lia. done.
Qed.

Lemma hundred_values v : u64 (v + 100) -u u64 (v + 1) +u 1 = 100.
Proof. unfold u64. rewrite <-Zminus_mod, Z.add_mod_idemp_l by lia. by replace (v + 100 - (v + 1) + 1) with 100 by lia. Qed.
Lemma overflow_max_spec r : returns (overflow_max r) (λ x, in_u64 x.1).
Proof. unfold overflow_max. repeat draw_step; try done. cbn [fst]. by destruct b. Qed.
(** A length field that is mutated gets a 64-bit value, unless it counts
    elements of size zero. *)
Lemma mutateSize_spec typeRefs c bitSize off path val parent fields e bits r :
  elem_size typeRefs bitSize path parent fields = Ret (Some e) → e ≠ 0 → in_u64 val →
  TypeBitSize (LenType c bitSize off path) = Ret bits → 1 ≤ bits ≤ 64 →
  returns (mutateSize typeRefs (LenType c bitSize off path) val parent fields r) (λ x, ∃ v, x.1 = Some v ∧ in_u64 v).
Proof.
  intros He Hne Hval Hbits Hb. unfold mutateSize. rewrite He. cbn [mbind outcome_bind]. draw_step. draw_step.
  { draw_step. apply returns_Ret. cbn. eauto. }
  draw_step. draw_step.
  - rewrite Hbits. cbn [mbind outcome_bind]. apply (returns_bind _ _ (λ x, x.1 = true → val ≠ 0)).
    { case_decide; [|by apply returns_Ret]. eapply returns_mono; [apply returns_bin|done]. }
    intros [down r2] Hdown. cbn [fst] in Hdown. cbn beta match. apply (returns_bind _ _ (λ x, in_u64 x.1)).
    + unfold randRangeInt. rewrite !decide_True by done. pose proof (pow2_le bits ltac:(lia)) as Hp. unfold in_u64 in Hval. destruct down.
      * specialize (Hdown eq_refl). rewrite u64_id by (unfold in_u64; lia). eapply returns_mono; [apply randRangeInt_plain_spec; (done || unfold in_u64; lia)|].
        intros x [?|[??]]; unfold in_u64; lia.
      * unfold randRangeInt_plain. draw_step. draw_step; [eapply returns_mono; [by apply randInt_spec|]; intros x Hx; cbn beta in Hx; unfold in_u64; lia|].
        unfold Uint64, umod. cbn beta match. rewrite hundred_values. apply returns_Ret, u64_range.
    + intros [v r3] Hv. apply returns_Ret. cbn in *. eauto.
  - eapply returns_bind; [apply overflow_max_spec|]. intros [mx r2] Hmx. cbn beta match. unfold udiv. rewrite decide_False by done. cbn [mbind outcome_bind].
    destruct (biasedRand 1000 10 r2) as [b r3]. cbn zeta. apply (returns_bind _ _ (λ _, True)); [case_decide; [by apply returns_Ret|apply returns_oneOf; lia]|].
    intros [sub r4] _. apply returns_Ret. cbn [fst]. eexists. split; [done|]. destruct sub; apply u64_range.
Qed.

(** ** Concrete runs *)

Definition gv_state : state := mkState ∅ ∅ ∅ (mkMemAlloc 0 [] ∅) (newVmaAlloc 64).
Definition gv_type : Typ := VmaType (mkTypeCommon "vma" 8 8 false false 1) 5 7.
Lemma generate_vma_valid_witness :
  ∃ c page k s' r', generate_vma ax_target gv_state gv_type 5 7 DirIn 30 [0; 0; 1; 2; 50] = Ret (PointerArg c (page * 4096) (k * 4096) None, s', r')
    ∧ validate_address ax_target [] false (page * 4096) (k * 4096) None = pass ()
    ∧ (7 ≠ 0 → 5 ≤ k ≤ 7) ∧ va_inv (st_va s') ∧ ∀ i, i ∈ va_m (st_va s') ↔ i ∈ va_m (st_va gv_state) ∨ page ≤ i < page + k.
Proof.
  apply (generate_vma_valid ax_target []).
  all: try (vm_compute; congruence). all: try (vm_compute; reflexivity).
  - exists 4. reflexivity.
  - split; [apply NoDup_nil_2|intros i; split; intros Hi; [by apply not_elem_of_nil in Hi|by apply not_elem_of_empty in Hi]|]. intros i Hi. by apply not_elem_of_empty in Hi.
  - right. vm_compute. split_and!; congruence.
Defined.
