(* ===== verification/Fallback.v ===== *)
(** * Signal without coverage (src/prog/analysis.go: FallbackSignal, RequiredFeatures)

    Without kernel coverage the signal of a call is made from its number, its
    errno, the constructors of the resources it used and the shape of its
    arguments.  The call infos are a slice the function updates in place. *)

From S2P Require Import Prelude Bits Prog ForeachArg ArgGraph RemoveCall Collide MinimizeCalls RandGen.

(** ** Encoding *)

Definition fallbackSignalErrno : Z := 0.
Definition fallbackSignalErrnoBlocked : Z := 1.
Definition fallbackSignalCtor : Z := 2.
Definition fallbackSignalFlags : Z := 3.
Definition fallbackCallMask : Z := 0x1fffff.

Definition checkMaxCallID (id : Z) : outcome () := if decide (Z.land id (Z.lnot fallbackCallMask) ≠ 0) then Panic else Ret ().
Definition encodeFallbackSignal (typ id aux : Z) : outcome Z :=
  _ ← checkMaxCallID id;
  if decide (Z.land typ (Z.lnot 7) ≠ 0) then Panic
  else Ret (Z.lor (Z.lor (u64 typ) (u64 (Z.shiftl (u64 (Z.land id fallbackCallMask)) 3))) (u64 (Z.shiftl (u64 aux) 24))).
Definition decodeFallbackSignal (s : Z) : Z * Z * Z :=
  (i64 (Z.land s 7), i64 (Z.land (Z.shiftr s 3) fallbackCallMask), i64 (Z.shiftr s 24)).
Definition DecodeFallbackSignal (s : Z) : outcome (Z * Z) :=
  let '(typ, id, aux) := decodeFallbackSignal s in
  if decide (typ = fallbackSignalErrno ∨ typ = fallbackSignalErrnoBlocked) then Ret (id, aux)
  else if decide (typ = fallbackSignalCtor ∨ typ = fallbackSignalFlags) then Ret (id, 0)
  else Panic.

(** ** The signal of a program *)

Definition CallExecuted : Z := 1.
Definition CallFinished : Z := 2.
Definition CallBlocked : Z := 4.
Record CallInfo := mkCallInfo { CIFlags : Z; CIErrno : Z; CISignal : list Z }.
Definition add_signal (inf : CallInfo) (s : Z) : CallInfo := mkCallInfo (CIFlags inf) (CIErrno inf) (CISignal inf ++ [s]).

Section fallback.
Context (typeRefs : list Typ).

Definition flag_width : Z := 3.
(** [flags ^= 1 << (uint(i) % width)] for the values that share a bit. *)
Fixpoint mix_bits (i : nat) (vals : list Z) (val flags : Z) : Z :=
  match vals with
  | [] => flags
  | v :: vals => mix_bits (S i) vals val (if decide (Z.land val v ≠ 0) then i64 (Z.lxor flags (Z.shiftl 1 (Z.of_nat i mod flag_width))) else flags)
  end.
(** [flags |= i % (1 << width)] for the first equal value. *)
Fixpoint mix_index (i : nat) (vals : list Z) (val flags : Z) : Z :=
  match vals with
  | [] => flags
  | v :: vals => if decide (val = v) then Z.lor flags (Z.of_nat i mod Z.shiftl 1 flag_width) else mix_index (S i) vals val flags
  end.
(** [resources] gives the number of the call that made a result. *)
Definition extractArgSignal (a : Arg) (callID flags : Z) (inf : CallInfo) (resources : gmap argid Z) : outcome (Z * CallInfo) :=
  match a with
  | AResult r =>
      let flags := i64 (Z.shiftl flags 1) in
      match res_Res r with
      | Some x =>
          match resources !! x with
          | Some ctor => s ← encodeFallbackSignal fallbackSignalCtor callID ctor; Ret (flags, add_signal inf s)
          | None => Ret (flags, inf)
          end
      | None =>
          t ← TypeOf typeRefs a;
          match t with
          | ResourceType _ _ desc => v ← index (ResValues desc) 0; Ret (if decide (res_Val r ≠ v) then Z.lor flags 1 else flags, inf)
          | _ => Panic
          end
      end
  | ConstArg _ val =>
      let flags := i64 (Z.shiftl flags flag_width) in
      t ← TypeOf typeRefs a;
      match t with
      | FlagsType _ vals bitMask => Ret (if bitMask then mix_bits 0 vals val flags else mix_index 0 vals val flags, inf)
      | LenType _ _ _ _ => let flags := i64 (Z.shiftl flags 1) in Ret (if decide (val = 0) then Z.lor flags 1 else flags, inf)
      | _ => Ret (flags, inf)
      end
  | PointerArg _ address vmaSize res =>
      let flags := i64 (Z.shiftl flags 1) in
      Ret (if IsSpecial address vmaSize res then Z.lor flags 1 else flags, inf)
  | _ => Ret (flags, inf)
  end.
Fixpoint extract_args (l : list Arg) (callID flags : Z) (inf : CallInfo) (resources : gmap argid Z) : outcome (Z * CallInfo) :=
  match l with
  | [] => Ret (flags, inf)
  | a :: l => '(flags, inf) ← extractArgSignal a callID flags inf resources; extract_args l callID flags inf resources
  end.
(** The result arguments of a call that succeeded. *)
Definition note_results (vs : list ArgVisit) (id : Z) (resources : gmap argid Z) : gmap argid Z :=
  foldl (λ m v, match v_arg v with AResult r => <[arg_id (res_common r) := id]> m | _ => m end) resources vs.

Fixpoint fallback_calls (calls : list (option Call)) (info : list CallInfo) (resources : gmap argid Z) : outcome (list CallInfo) :=
  match calls with
  | [] => Ret info
  | c :: calls =>
      match info with
      | [] => Panic
      | inf :: info =>
          if decide (Z.land (CIFlags inf) CallExecuted = 0) then cons inf <$> fallback_calls calls info resources
          else
            match c with
            | Some c =>
                match Meta c with
                | Some m =>
                    let id := ID m in
                    let typ := if decide (Z.land (CIFlags inf) CallFinished ≠ 0 ∧ Z.land (CIFlags inf) CallBlocked ≠ 0)
                               then fallbackSignalErrnoBlocked else fallbackSignalErrno in
                    s ← encodeFallbackSignal typ id (CIErrno inf);
                    let inf := add_signal inf s in
                    if BreaksReturns (Attrs m) then Ret (inf :: info)
                    else if decide (CIErrno inf ≠ 0) then cons inf <$> fallback_calls calls info resources
                    else
                      vs ← ForeachArg typeRefs c;
                      let resources := note_results vs id resources in
                      '(flags, inf) ← extract_args (Args c) id 0 inf resources;
                      inf ← (if decide (flags ≠ 0) then s ← encodeFallbackSignal fallbackSignalFlags id flags; Ret (add_signal inf s) else Ret inf);
                      cons inf <$> fallback_calls calls info resources
                | None => Panic
                end
            | None => Panic
            end
      end
  end.
Definition FallbackSignal (p : Prog) (info : list CallInfo) : outcome (list CallInfo) := fallback_calls (Calls p) info ∅.

(** ** Features a program needs *)

Record RequiredFeatures := mkFeatures { Bitmasks : bool; Csums : bool; FaultInjection : bool; FAsync : bool }.
Fixpoint arg_features (vs : list ArgVisit) (f : RequiredFeatures) : outcome RequiredFeatures :=
  match vs with
  | [] => Ret f
  | v :: vs =>
      t ← TypeOf typeRefs (v_arg v);
      let bits := match v_arg v with ConstArg _ _ => bool_decide (BitfieldOffset t ≠ 0 ∨ BitfieldLength t ≠ 0) | _ => false end in
      let csum := match t with CsumType _ _ _ _ => true | _ => false end in
      arg_features vs (mkFeatures (Bitmasks f || bits) (Csums f || csum) (FaultInjection f) (FAsync f))
  end.
Fixpoint call_features (l : list (option Call)) (f : RequiredFeatures) : outcome RequiredFeatures :=
  match l with
  | [] => Ret f
  | Some c :: l =>
      vs ← ForeachArg typeRefs c;
      f ← arg_features vs f;
      call_features l (mkFeatures (Bitmasks f) (Csums f) (FaultInjection f || bool_decide (0 < FailNth (Props c))) (FAsync f || Async (Props c)))
  | None :: _ => Panic
  end.
Definition ProgRequiredFeatures (p : Prog) : outcome RequiredFeatures := call_features (Calls p) (mkFeatures false false false false).
End fallback.

(** ** Decoding what was encoded *)

Definition valid_id (id : Z) : Prop := 0 ≤ id ≤ fallbackCallMask.
Lemma encode_eq typ id aux : 0 ≤ typ < 8 → valid_id id → encodeFallbackSignal typ id aux = Ret (typ + id * 2 ^ 3 + aux mod 2 ^ 40 * 2 ^ 24).
Proof.
  unfold valid_id. intros Ht Hi. change fallbackCallMask with (2 ^ 21 - 1) in Hi. unfold encodeFallbackSignal, checkMaxCallID.
  rewrite <-!Z.ldiff_land. change fallbackCallMask with (mask64 21). change 7 with (mask64 3). rewrite !ldiff_mask, land_mask by lia.
  rewrite !(Z.mod_small id), !(Z.mod_small typ) by lia. rewrite !decide_False by lia. cbn [mbind outcome_bind]. f_equal.
  rewrite (u64_id typ), (u64_id id) by (unfold in_u64; lia). rewrite (u64_id (Z.shiftl id 3)) by (rewrite Z.shiftl_mul_pow2 by lia; unfold in_u64; lia).
  rewrite lor_parts by lia. replace (u64 (Z.shiftl (u64 aux) 24)) with (Z.shiftl (aux mod 2 ^ 40) 24); [by rewrite lor_parts by lia|].
  rewrite !Z.shiftl_mul_pow2 by lia. unfold u64. change (2 ^ 64) with (2 ^ 40 * 2 ^ 24) at 2. rewrite Z.mul_mod_distr_r by lia. f_equal.
  change (2 ^ 64) with (2 ^ 40 * 2 ^ 24). rewrite Z.rem_mul_r by lia. rewrite (Z.mul_comm (2 ^ 40) (_ mod 2 ^ 24)), Z.mod_add by lia. symmetry. by apply Z.mod_mod.
Qed.
Lemma decode_eq typ id aux : 0 ≤ typ < 8 → valid_id id → 0 ≤ aux < 2 ^ 40 →
  decodeFallbackSignal (typ + id * 2 ^ 3 + aux * 2 ^ 24) = (typ, id, aux).
Proof.
  unfold valid_id. intros Ht Hi Ha. change fallbackCallMask with (2 ^ 21 - 1) in Hi. unfold decodeFallbackSignal. change fallbackCallMask with (mask64 21). change 7 with (mask64 3).
  rewrite !land_mask, !Z.shiftr_div_pow2 by lia.
  replace (typ + id * 2 ^ 3 + aux * 2 ^ 24) with (typ + (id + aux * 2 ^ 21) * 2 ^ 3) by lia.
  rewrite Z.mod_add, Z.mod_small by lia. replace ((typ + (id + aux * 2 ^ 21) * 2 ^ 3) / 2 ^ 3) with (id + aux * 2 ^ 21) by (rewrite Z.div_add, Z.div_small by lia; lia).
  rewrite Z.mod_add, (Z.mod_small id) by lia.
  replace ((typ + (id + aux * 2 ^ 21) * 2 ^ 3) / 2 ^ 24) with aux.
  2:{ replace (typ + (id + aux * 2 ^ 21) * 2 ^ 3) with (typ + id * 2 ^ 3 + aux * 2 ^ 24) by lia. rewrite Z.div_add, Z.div_small by lia. lia. }
  by rewrite !i64_id by (unfold in_i64; lia).
Qed.
Lemma encode_decode typ id aux : 0 ≤ typ < 4 → valid_id id →
  ∃ s, encodeFallbackSignal typ id aux = Ret s ∧ DecodeFallbackSignal s = Ret (id, if decide (typ < 2) then aux mod 2 ^ 40 else 0).
Proof.
  intros Ht Hi. eexists. split; [apply encode_eq; [lia|done]|]. unfold DecodeFallbackSignal.
  rewrite decode_eq by (done || lia || apply Z.mod_pos_bound; lia). unfold fallbackSignalErrno, fallbackSignalErrnoBlocked, fallbackSignalCtor, fallbackSignalFlags.
  repeat case_decide; (done || lia).
Qed.

(** ** The signal added to each call *)
Section fallback_props.
Context (typeRefs : list Typ).

(** [inf'] is [inf] with signal of call [id] appended. *)
Definition grown (id : Z) (added : list Z) (inf inf' : CallInfo) : Prop :=
  inf' = mkCallInfo (CIFlags inf) (CIErrno inf) (CISignal inf ++ added) ∧ Forall (λ s, ∃ e, DecodeFallbackSignal s = Ret (id, e)) added.
Lemma grown_nil id inf : grown id [] inf inf.
Proof. split; [|constructor]. destruct inf. cbn. by rewrite app_nil_r. Qed.
Lemma grown_app id a b inf1 inf2 inf3 : grown id a inf1 inf2 → grown id b inf2 inf3 → grown id (a ++ b) inf1 inf3.
Proof. intros [-> Ha] [-> Hb]. split; [cbn; by rewrite app_assoc|by apply Forall_app_2]. Qed.
Lemma grown_encode typ id aux inf : 0 ≤ typ < 4 → valid_id id →
  ∃ s, encodeFallbackSignal typ id aux = Ret s ∧ grown id [s] inf (add_signal inf s) ∧ DecodeFallbackSignal s = Ret (id, if decide (typ < 2) then aux mod 2 ^ 40 else 0).
Proof. intros Ht Hi. destruct (encode_decode typ id aux Ht Hi) as (s & -> & E). exists s. split_and!; [done| |done]. split; [done|]. constructor; [by eexists|constructor]. Qed.

(** Top-level arguments the function can look at. *)
Definition signal_arg (a : Arg) : Prop :=
  match a with
  | AResult r => resource_typed typeRefs r
  | ConstArg _ _ => ∃ t, TypeOf typeRefs a = Ret t
  | _ => True
  end.
Lemma extractArgSignal_spec a id flags inf m : signal_arg a → valid_id id →
  ∃ flags' inf' added, extractArgSignal typeRefs a id flags inf m = Ret (flags', inf') ∧ grown id added inf inf'.
Proof.
  intros Ha Hi. destruct a as [c v|c ad v res|c d s|c l|c o i t|r]; cbn [extractArgSignal signal_arg] in *; try (by eexists _, _, []; split; [done|apply grown_nil]).
  - destruct Ha as [t ->]. cbn [mbind outcome_bind]. destruct t; by eexists _, _, []; split; [done|apply grown_nil].
  - destruct (res_Res r) as [x|].
    + destruct (m !! x) as [ctor|]; [|by eexists _, _, []; split; [done|apply grown_nil]].
      destruct (grown_encode fallbackSignalCtor id ctor inf) as (s & -> & Hg & _); [done|done|]. by eexists _, _, [s].
    + destruct Ha as (tc & fmt & desc & v & -> & _ & Hv). cbn [mbind outcome_bind]. rewrite (index_Some _ _ v) by done. cbn [mbind outcome_bind]. by eexists _, _, []; split; [done|apply grown_nil].
Qed.
Lemma extract_args_spec l id flags inf m : Forall signal_arg l → valid_id id →
  ∃ flags' inf' added, extract_args typeRefs l id flags inf m = Ret (flags', inf') ∧ grown id added inf inf'.
Proof.
  intros Hl Hi. revert flags inf. induction Hl as [|a l Ha Hl IH]; intros flags inf; cbn [extract_args]; [by eexists _, _, []; split; [done|apply grown_nil]|].
  destruct (extractArgSignal_spec a id flags inf m Ha Hi) as (f1 & inf1 & a1 & -> & Hg1). cbn [mbind outcome_bind].
  destruct (IH f1 inf1) as (f2 & inf2 & a2 & -> & Hg2). exists f2, inf2, (a1 ++ a2). split; [done|by eapply grown_app].
Qed.

Definition signal_call (c : Call) : Prop :=
  ∃ m vs, Meta c = Some m ∧ valid_id (ID m) ∧ ForeachArg typeRefs c = Ret vs ∧ Forall signal_arg (Args c).
Definition executed (inf : CallInfo) : bool := bool_decide (Z.land (CIFlags inf) CallExecuted ≠ 0).
(** What is added for the call [c]: nothing when it was not executed or not
    reached, otherwise its errno first. *)
Definition added_ok (c : option Call) (reached : Prop) (inf inf' : CallInfo) : Prop :=
  ∃ added id, grown id added inf inf' ∧ (added ≠ [] → ∃ c' m, c = Some c' ∧ Meta c' = Some m ∧ ID m = id ∧ executed inf = true)
    ∧ (reached → executed inf = true → ∃ s, head added = Some s ∧ DecodeFallbackSignal s = Ret (id, CIErrno inf mod 2 ^ 40)).
(** An earlier call that was executed and breaks the return values. *)
Definition broken (calls : list (option Call)) (info : list CallInfo) (i : nat) : Prop :=
  ∃ j c m inf, (j < i)%nat ∧ calls !! j = Some (Some c) ∧ Meta c = Some m ∧ info !! j = Some inf ∧ executed inf = true ∧ BreaksReturns (Attrs m) = true.
Lemma added_ok_same c reached inf : (reached → executed inf = false) → added_ok c reached inf inf.
Proof. intros H. exists [], 0. split_and!; [apply grown_nil|done|]. intros Hr He. by rewrite H in He. Qed.
Lemma broken_cons c calls inf info i : broken calls info i → broken (c :: calls) (inf :: info) (S i).
Proof. intros (j & c' & m & inf' & Hj & ?). exists (S j), c', m, inf'. split; [lia|done]. Qed.

Lemma fallback_calls_spec calls info m : Forall (λ oc, ∃ c, oc = Some c ∧ signal_call c) calls → (length calls ≤ length info)%nat →
  ∃ info', fallback_calls typeRefs calls info m = Ret info' ∧ length info' = length info ∧
    ∀ i inf, info !! i = Some inf → ∃ inf', info' !! i = Some inf' ∧ added_ok (default None (calls !! i)) ((i < length calls)%nat ∧ ¬ broken calls info i) inf inf'.
Proof.
  intros Hc. revert info m. induction Hc as [|oc calls (c & -> & mt & vs & Em & Hid & Evs & Hargs) Hc IH]; intros info m Hlen; cbn [fallback_calls].
  { exists info. split_and!; [done|done|]. intros i inf Hi. exists inf. split; [done|]. apply added_ok_same. cbn. lia. }
  destruct info as [|inf info]; [cbn in Hlen; lia|]. cbn in Hlen.
  assert (Hrest : ∀ inf' m, added_ok (Some c) True inf inf' → ∃ info', (cons inf' <$> fallback_calls typeRefs calls info m) = Ret info' ∧ length info' = S (length info) ∧
    ∀ i inf0, (inf :: info) !! i = Some inf0 → ∃ inf', info' !! i = Some inf' ∧
      added_ok (default None ((Some c :: calls) !! i)) ((i < S (length calls))%nat ∧ ¬ broken (Some c :: calls) (inf :: info) i) inf0 inf').
  { intros inf' m' Hadd. destruct (IH info m') as (info' & -> & Hl & H); [lia|]. exists (inf' :: info'). split_and!; [done|by cbn; rewrite Hl|].
    intros [|i] inf0 Hi; cbn in Hi |- *.
    - injection Hi as <-. exists inf'. split; [done|]. destruct Hadd as (a & id & H1 & H2 & H3). exists a, id. split_and!; [done|done|]. intros _. by apply H3.
    - destruct (H i inf0 Hi) as (inf1 & E1 & a & id & H1 & H2 & H3). exists inf1. split; [done|]. exists a, id. split_and!; [done|done|].
      intros [Hi1 Hi2]. apply H3. split; [lia|]. intros Hb. by apply Hi2, broken_cons. }
  case_decide as Hex; [apply Hrest, added_ok_same; intros _; apply bool_decide_eq_false; naive_solver|].
  assert (Hexb : executed inf = true) by (by apply bool_decide_eq_true). rewrite Em.
  set (typ := if decide _ then fallbackSignalErrnoBlocked else fallbackSignalErrno).
  assert (Htyp : 0 ≤ typ < 2) by (unfold typ, fallbackSignalErrnoBlocked, fallbackSignalErrno; case_decide; lia).
  destruct (grown_encode typ (ID mt) (CIErrno inf) inf) as (s & -> & Hg & Hd); [lia|done|]. rewrite decide_True in Hd by lia. cbn [mbind outcome_bind].
  assert (Hadd : ∀ added inf', grown (ID mt) added (add_signal inf s) inf' → added_ok (Some c) True inf inf').
  { intros added inf' Hg'. exists ([s] ++ added), (ID mt). split_and!; [by eapply grown_app|intros _; by exists c, mt|]. intros _ _. exists s. by split. }
  cbn zeta. destruct (BreaksReturns (Attrs mt)) eqn:Ebr.
  - exists (add_signal inf s :: info). split_and!; [done|done|]. intros [|i] inf0 Hi; cbn in Hi |- *.
    + injection Hi as <-. eexists. split; [done|]. destruct (Hadd [] _ (grown_nil _ _)) as (a & id & H1 & H2 & H3). exists a, id. split_and!; [done|done|]. intros _. by apply H3.
    + exists inf0. split; [done|]. apply added_ok_same. intros [_ []]. exists 0%nat, c, mt, inf. split_and!; [lia|done..].
  - case_decide; [by eapply Hrest, Hadd, grown_nil|]. rewrite Evs. cbn [mbind outcome_bind].
    destruct (extract_args_spec (Args c) (ID mt) 0 (add_signal inf s) (note_results vs (ID mt) m)) as (flags & inf2 & a2 & -> & Hg2); [done|done|]. cbn [mbind outcome_bind].
    case_decide; [|by eapply Hrest, Hadd]. destruct (grown_encode fallbackSignalFlags (ID mt) flags inf2) as (s3 & -> & Hg3 & _); [done|done|]. cbn [mbind outcome_bind].
    eapply Hrest, Hadd. by eapply grown_app.
Qed.
Lemma sound_signal p : sound typeRefs p → (∀ c m, Some c ∈ Calls p → Meta c = Some m → valid_id (ID m)) → Forall (λ oc, ∃ c, oc = Some c ∧ signal_call c) (Calls p).
Proof.
  intros [_ Hg Hw Hk] Hids. apply Forall_forall. intros oc Hoc. pose proof (go_calls p Hg) as Hs. rewrite Forall_forall in Hs. destruct (Hs oc Hoc) as [c ->].
  exists c. split; [done|]. destruct (wt_calls _ _ Hw c Hoc) as (m & Em & Hl). destruct (ForeachArg_results typeRefs c m) as (vs & E & _); [|done|done|].
  { intros a Ha. apply (wt_sized _ _ Hw), elem_of_calls_roots. eauto. }
  exists m, vs. split_and!; [done|by eapply Hids|done|]. apply Forall_forall. intros a Ha.
  assert (Hr : a ∈ calls_roots (Calls p)) by (apply elem_of_calls_roots; exists c; split; [done|]; apply elem_of_app; by right).
  pose proof (Hk a Hr) as Hka. destruct a; cbn [signal_arg]; try done.
  - cbn [kinds_ok] in Hka. apply andb_true_iff in Hka as [Hka _]. unfold kind_ok in Hka. destruct (TypeOf typeRefs _); [eauto|done].
  - apply (wt_results _ _ Hw). unfold prog_results. apply elem_of_roots_results. eexists. split; [done|]. by left.
Qed.
End fallback_props.


(** ** The features are exactly those in use *)
Section features.
Context (typeRefs : list Typ).

Definition is_csum (v : ArgVisit) : Prop := ∃ c k b pr, TypeOf typeRefs (v_arg v) = Ret (CsumType c k b pr).
Definition is_bitfield (v : ArgVisit) : Prop :=
  ∃ c x t, v_arg v = ConstArg c x ∧ TypeOf typeRefs (v_arg v) = Ret t ∧ (BitfieldOffset t ≠ 0 ∨ BitfieldLength t ≠ 0).
Lemma is_csum_eq v t : TypeOf typeRefs (v_arg v) = Ret t → match t with CsumType _ _ _ _ => true | _ => false end = true ↔ is_csum v.
Proof.
  intros E. unfold is_csum. rewrite E. split; [destruct t; try done; intros _; by eexists _, _, _, _|]. intros (c & k & b & pr & [= ->]). done.
Qed.
Lemma is_bitfield_eq v t : TypeOf typeRefs (v_arg v) = Ret t →
  match v_arg v with ConstArg _ _ => bool_decide (BitfieldOffset t ≠ 0 ∨ BitfieldLength t ≠ 0) | _ => false end = true ↔ is_bitfield v.
Proof.
  intros E. unfold is_bitfield. split.
  - destruct (v_arg v) as [c x| | | | |] eqn:Ev; try done. intros H%bool_decide_eq_true. by exists c, x, t.
  - intros (c & x & t' & Ev & Et & H). rewrite E in Et. injection Et as <-. rewrite Ev. by apply bool_decide_eq_true.
Qed.
Lemma arg_features_spec vs f f' : arg_features typeRefs vs f = Ret f' →
  FaultInjection f' = FaultInjection f ∧ FAsync f' = FAsync f ∧ (Csums f' = true ↔ Csums f = true ∨ Exists is_csum vs)
  ∧ (Bitmasks f' = true ↔ Bitmasks f = true ∨ Exists is_bitfield vs).
Proof.
  revert f. induction vs as [|v vs IH]; intros f H; cbn [arg_features] in H; [injection H as <-; rewrite !Exists_nil; tauto|].
  inv_ret H. apply IH in H as (H1 & H2 & H3 & H4). cbn [FaultInjection FAsync Csums Bitmasks] in *.
  rewrite H3, H4, !Exists_cons, !orb_true_iff, is_csum_eq, is_bitfield_eq by done. tauto.
Qed.
(** Whether a visited argument of some call has the property. *)
Definition some_visit (P : ArgVisit → Prop) (l : list (option Call)) : Prop := ∃ c vs, Some c ∈ l ∧ ForeachArg typeRefs c = Ret vs ∧ Exists P vs.
Definition some_call (P : Call → Prop) (l : list (option Call)) : Prop := ∃ c, Some c ∈ l ∧ P c.
Lemma some_visit_cons P c vs l : ForeachArg typeRefs c = Ret vs → some_visit P (Some c :: l) ↔ Exists P vs ∨ some_visit P l.
Proof.
  intros E. unfold some_visit. setoid_rewrite elem_of_cons. split; [|intros [?|(c' & vs' & ? & ?)]; [exists c, vs|exists c', vs']; auto].
  intros (c' & vs' & [[= ->]|Hc] & E' & Hx); [left; congruence|right; eauto].
Qed.
Lemma some_call_cons P c l : some_call P (Some c :: l) ↔ P c ∨ some_call P l.
Proof. unfold some_call. setoid_rewrite elem_of_cons. split; [intros (c' & [[= ->]|Hc] & Hx); eauto|intros [Hx|(c' & Hc & Hx)]; eauto]. Qed.
Lemma call_features_spec l f f' : call_features typeRefs l f = Ret f' →
  (Csums f' = true ↔ Csums f = true ∨ some_visit is_csum l) ∧ (Bitmasks f' = true ↔ Bitmasks f = true ∨ some_visit is_bitfield l)
  ∧ (FaultInjection f' = true ↔ FaultInjection f = true ∨ some_call (λ c, 0 < FailNth (Props c)) l)
  ∧ (FAsync f' = true ↔ FAsync f = true ∨ some_call (λ c, Async (Props c) = true) l).
Proof.
  revert f. induction l as [|[c|] l IH]; intros f H; cbn [call_features] in H; [|inv_ret H|done].
  { injection H as <-. unfold some_visit, some_call. split_and!; (split; [by left|]; intros [|Hx]; [done|]); [destruct Hx as (c & vs & Hc & _)|destruct Hx as (c & vs & Hc & _)|destruct Hx as (c & Hc & _)|destruct Hx as (c & Hc & _)]; by apply not_elem_of_nil in Hc. }
  apply IH in H as (H1 & H2 & H3 & H4). apply arg_features_spec in Hv0 as (E1 & E2 & E3 & E4). cbn [FaultInjection FAsync Csums Bitmasks] in *.
  rewrite H1, H2, H3, H4, E1, E2, E3, E4, !(some_visit_cons _ c v) by done. rewrite !some_call_cons, !orb_true_iff, bool_decide_eq_true. split_and!; tauto.
Qed.
End features.

(** ** Concrete runs *)

Definition fb_info : list CallInfo := [mkCallInfo 3 0 []; mkCallInfo 3 0 []; mkCallInfo 7 0 [5]; mkCallInfo 3 9 []].
(** The comment says that errnos above 255 are truncated; 40 bits are kept. *)
Example errno_kept : (encodeFallbackSignal 0 5 300 ≫= DecodeFallbackSignal) = Ret (5, 300).
Proof. reflexivity. Qed.
