(* ===== verification/CondDefaults.v ===== *)
(** * Default values for unions whose conditions changed (src/prog/expr.go:
    setDefaultConditions; src/prog/prog.go: replaceArg of a union)

    A union with conditional fields that was left open, or whose field no
    longer satisfies its condition, gets a new field with default contents.
    The new contents may hold open unions again, so the search is repeated
    until it finds none. *)

From S2P Require Import Prelude Prog ForeachArg ArgGraph RemoveCall ExecVisits Sizes Conditions Defaults Validation.

(** ** Replacing unions *)

(** [*a = *arg1] of unions: the object keeps its identity. *)
Definition with_id (i : argid) (a : Arg) : Arg :=
  match a with UnionArg c o idx t => UnionArg (set_id c i) o idx t | _ => a end.
(** A tree after some of its unions were overwritten. *)
Fixpoint patch_arg (m : gmap argid Arg) (a : Arg) : Arg :=
  match a with
  | UnionArg c o idx t =>
      match m !! arg_id c with
      | Some new => with_id (arg_id c) new
      | None => UnionArg c (patch_arg m o) idx t
      end
  | PointerArg c addr vma (Some x) => PointerArg c addr vma (Some (patch_arg m x))
  | GroupArg c l => GroupArg c (patch_arg m <$> l)
  | _ => a
  end.

Section set_defaults.
(** [fuel] bounds the depth of default arguments; the entries of the map
    [replace] come in the order [order] gives them. *)
Context (typeRefs : list Typ) (any : AnyTypes) (fuel : nat).
Context (order : list (stale_union * Arg) → list (stale_union * Arg)).

(** The union that replaces a stale one. *)
Definition default_union (s : stale_union) (n : argid) : outcome (option (Arg * argid)) :=
  match st_type s with
  | UnionType _ fields =>
      first ← index (st_ok s) 0;
      '(defIdx, ok) ← defaultField fields;
      let idx := if (ok : bool) then defIdx else first in
      field ← index fields idx;
      let dir := arg_dir (common (st_arg s)) in
      r ← DefaultArg typeRefs fuel (FieldType field) (FieldDir field dir) n;
      match r with
      | None => Ret None
      | Some (o, n) => finish (Ret (MakeUnionArg (st_type s) dir o idx false n)) n
      end
  | _ => Panic
  end.
Fixpoint default_unions (l : list stale_union) (n : argid) : outcome (option (list (stale_union * Arg) * argid)) :=
  match l with
  | [] => Ret (Some ([], n))
  | s :: l =>
      x ← default_union s n;
      match x with
      | None => Ret None
      | Some (a, n) => r ← default_unions l n; Ret (match r with None => None | Some (l, n) => Some ((s, a) :: l, n) end)
      end
  end.
(** [replaceArg] of one union after the other; [replaced] are those
    overwritten before, which may be below this one. *)
Fixpoint replace_unions (l : list (stale_union * Arg)) (replaced : gmap argid Arg) (h : heap) : outcome heap :=
  match l with
  | [] => Ret h
  | (s, new) :: l =>
      match st_arg s with
      | UnionArg _ o _ _ =>
          h ← removeArg typeRefs h (patch_arg replaced o);
          replace_unions l (<[st_id s := new]> replaced) h
      | _ => Panic
      end
  end.
(** New objects. *)
Definition add_objects (l : list ResultArg) (h : heap) : heap := foldr (λ r h, <[rid r := r]> h) h l.
Definition replacements (l : list (stale_union * Arg)) : gmap argid Arg := list_to_map ((λ x, (st_id x.1, x.2)) <$> l).

(** The unions of a round of setDefaultConditions. *)
Definition stale_round (transientOnly : bool) (args : list Arg) : outcome (list stale_union) :=
  l ← stale_args typeRefs any args;
  Ret (filter (λ s, transientOnly && negb (st_transient s) = false) l).
Record patching := mkPatching { pt_args : list Arg; pt_heap : heap; pt_next : argid }.
Definition default_round (l : list stale_union) (s : patching) : outcome (option patching) :=
  r ← default_unions l (pt_next s);
  match r with
  | None => Ret None
  | Some (news, n) =>
      let h := add_objects (roots_results (snd <$> news)) (pt_heap s) in
      h ← replace_unions (order news) ∅ h;
      Ret (Some (mkPatching (patch_arg (replacements news) <$> pt_args s) h n))
  end.
(** The loop, and whether anything was replaced; [None]: out of rounds. *)
Fixpoint default_loop (rounds : nat) (transientOnly : bool) (s : patching) (anyReplaced : bool) : outcome (option (patching * bool)) :=
  match rounds with
  | O => Ret None
  | S rounds =>
      l ← stale_round transientOnly (pt_args s);
      if decide (l = []) then Ret (Some (s, anyReplaced))
      else
        s ← default_round l s;
        match s with None => Ret None | Some s => default_loop rounds transientOnly s true end
  end.
Definition with_args (c : Call) (args : list Arg) : Call := mkCall (Meta c) args (CRet c) (Props c) (Comment c).
(** The call at [i] of a program. *)
Definition setDefaultConditions (rounds : nat) (transientOnly : bool) (p : Prog) (i : nat) : outcome (option (Prog * bool)) :=
  match Calls p !! i with
  | Some (Some c) =>
      r ← default_loop rounds transientOnly (mkPatching (Args c) (objects p) (fresh_id p)) false;
      Ret (match r with
           | None => None
           | Some (s, b) => Some (set_calls p (refresh_calls (pt_heap s) (<[i := Some (with_args c (pt_args s))]> (Calls p))), b)
           end)
  | _ => Panic
  end.
End set_defaults.

(** ** Arguments below an argument *)

Lemma subargs_inj l x y : NoDup (roots_ids l) → x ∈ roots_subs l → y ∈ roots_subs l → aid x = aid y → x = y.
Proof.
  rewrite <-roots_subs_ids. intros Hn [i Hi]%list_elem_of_lookup [j Hj]%list_elem_of_lookup E.
  assert (i = j) as ->; [|rewrite Hi in Hj; by injection Hj].
  eapply NoDup_lookup; [exact Hn|by rewrite list_lookup_fmap, Hi|by rewrite list_lookup_fmap, Hj, E].
Qed.
(** The types of the open unions. *)
Fixpoint open_unions (a : Arg) : list Ref :=
  match a with
  | UnionArg c o _ t => (if t then [ref c] else []) ++ open_unions o
  | PointerArg _ _ _ (Some x) => open_unions x
  | GroupArg _ l => concat (open_unions <$> l)
  | _ => []
  end.
Definition roots_open (l : list Arg) : list Ref := concat (open_unions <$> l).

(** ** Overwriting unions *)

Section patches.
Context (m : gmap argid Arg).
Context (Hm : ∀ k new, m !! k = Some new → ∃ c o i, new = UnionArg c o i false).

Lemma with_id_ids i k new : m !! k = Some new → arg_ids (with_id i new) = i :: tail (arg_ids new).
Proof. by intros (c & o & j & ->)%Hm. Qed.
Lemma patch_ids_elem a x : x ∈ arg_ids (patch_arg m a) → x ∈ arg_ids a ∨ ∃ k new, k ∈ arg_ids a ∧ m !! k = Some new ∧ x ∈ tail (arg_ids new).
Proof.
  induction a as [c v|c ad v r Hr|c d s|c l Hl|c o i t Ho|r] using Arg_nested_ind; cbn [patch_arg]; try by left.
  - destruct r as [y|]; [|by left]. cbn [arg_ids aid common]. intros [->|Hx]%elem_of_cons; [left; by left|]. destruct (Hr Hx) as [H|(k & new & H1 & H2 & H3)]; [left; by right|].
    right. exists k, new. split_and!; [by right|done|done].
  - cbn [arg_ids aid common]. intros [->|Hx]%elem_of_cons; [left; by left|].
    assert (H : x ∈ roots_ids l ∨ ∃ k new, k ∈ roots_ids l ∧ m !! k = Some new ∧ x ∈ tail (arg_ids new)).
    { clear -Hl Hx. induction Hl as [|y l Hy Hl IH]; [by apply not_elem_of_nil in Hx|]. unfold roots_ids in *. cbn [fmap list_fmap concat] in *. setoid_rewrite elem_of_app.
      apply elem_of_app in Hx as [Hx|Hx]; [destruct (Hy Hx) as [H|(k & new & H1 & H2)]|destruct (IH Hx) as [H|(k & new & H1 & H2)]]; [by left; left|right; exists k, new; tauto|by left; right|right; exists k, new; tauto]. }
    destruct H as [H|(k & new & H1 & H2)]; [left; by right|right; exists k, new; split; [by right|done]].
  - destruct (m !! arg_id c) as [new|] eqn:E.
    + rewrite (with_id_ids _ _ _ E). intros [->|Hx]%elem_of_cons; [left; by left|]. right. exists (arg_id c), new. split_and!; [by left|done|done].
    + cbn [arg_ids aid common]. intros [->|Hx]%elem_of_cons; [left; by left|]. destruct (Ho Hx) as [H|(k & new & H1 & H2)]; [left; by right|]. right. exists k, new. split; [by right|done].
Qed.
Lemma roots_patch_elem l x : x ∈ roots_ids (patch_arg m <$> l) → x ∈ roots_ids l ∨ ∃ k new, k ∈ roots_ids l ∧ m !! k = Some new ∧ x ∈ tail (arg_ids new).
Proof.
  induction l as [|a l IH]; [by left|]. unfold roots_ids in *. cbn [fmap list_fmap concat]. intros Hx. apply elem_of_app in Hx. setoid_rewrite elem_of_app.
  destruct Hx as [Hx|Hx]; [destruct (patch_ids_elem a x Hx) as [H|(k & new & H1 & H2)]|destruct (IH Hx) as [H|(k & new & H1 & H2)]]; [by left; left|right; exists k, new; tauto|by left; right|right; exists k, new; tauto].
Qed.

(** The new contents consist of new arguments. *)
Context (n : argid) (Hnew : ∀ k new, m !! k = Some new → NoDup (tail (arg_ids new)) ∧ ∀ x, x ∈ tail (arg_ids new) → n ≤ x).
Context (Hdis : ∀ k k' new new' x, k ≠ k' → m !! k = Some new → m !! k' = Some new' → x ∈ tail (arg_ids new) → x ∉ tail (arg_ids new')).
Lemma patch_ids_disjoint l1 l2 : NoDup (l1 ++ l2) → (∀ x, x ∈ l1 ++ l2 → x < n) → ∀ x,
  (x ∈ l1 ∨ ∃ k new, k ∈ l1 ∧ m !! k = Some new ∧ x ∈ tail (arg_ids new)) → (x ∈ l2 ∨ ∃ k new, k ∈ l2 ∧ m !! k = Some new ∧ x ∈ tail (arg_ids new)) → False.
Proof.
  intros (_ & Hd & _)%NoDup_app Hlt x H1 H2. setoid_rewrite elem_of_app in Hlt.
  destruct H1 as [H1|(k & new & H1 & E1 & X1)], H2 as [H2|(k' & new' & H2 & E2 & X2)].
  - by apply (Hd x).
  - pose proof (Hlt x (or_introl H1)). pose proof (proj2 (Hnew _ _ E2) x X2). lia.
  - pose proof (Hlt x (or_intror H2)). pose proof (proj2 (Hnew _ _ E1) x X1). lia.
  - apply (Hdis k k' new new' x); [|done..]. intros ->. by apply (Hd k').
Qed.
Lemma roots_patch_NoDup l : Forall (λ a, NoDup (arg_ids a) → (∀ x, x ∈ arg_ids a → x < n) → NoDup (arg_ids (patch_arg m a))) l →
  NoDup (roots_ids l) → (∀ x, x ∈ roots_ids l → x < n) → NoDup (roots_ids (patch_arg m <$> l)).
Proof.
  induction 1 as [|a l Ha Hl IH]; intros Hn Hlt; [apply NoDup_nil_2|]. unfold roots_ids in *. cbn [fmap list_fmap concat] in *. pose proof Hn as (N1 & N2 & N3)%NoDup_app. apply NoDup_app. split_and!.
  - apply Ha; [done|]. intros x Hx. apply Hlt, elem_of_app. by left.
  - intros x H1%patch_ids_elem H2%roots_patch_elem. by eapply (patch_ids_disjoint _ _ Hn Hlt x).
  - apply IH; [done|]. intros x Hx. apply Hlt, elem_of_app. by right.
Qed.
Lemma patch_NoDup a : NoDup (arg_ids a) → (∀ x, x ∈ arg_ids a → x < n) → NoDup (arg_ids (patch_arg m a)).
Proof.
  induction a as [c v|c ad v r Hr|c d s|c l Hl|c o i t Ho|r] using Arg_nested_ind; cbn [patch_arg]; try done; intros Hn Hlt.
  - destruct r as [y|]; [|done]. cbn [arg_ids aid common] in *. pose proof Hn as [N1 N2]%NoDup_cons. apply NoDup_cons. split; [|apply Hr; [done|intros x Hx; apply Hlt; by right]].
    intros Hx%patch_ids_elem. eapply (patch_ids_disjoint [arg_id c] (arg_ids y)); [done|done|left; by left|exact Hx].
  - cbn [arg_ids aid common] in *. pose proof Hn as [N1 N2]%NoDup_cons. apply NoDup_cons. split; [|apply (roots_patch_NoDup l Hl); [done|intros x Hx; apply Hlt; by right]].
    intros Hx%roots_patch_elem. eapply (patch_ids_disjoint [arg_id c] (roots_ids l)); [done|done|left; by left|exact Hx].
  - destruct (m !! arg_id c) as [new|] eqn:E.
    + rewrite (with_id_ids _ _ _ E). destruct (Hnew _ _ E) as [N1 N2]. apply NoDup_cons. split; [|done]. intros Hx%N2. specialize (Hlt (arg_id c) ltac:(by left)). lia.
    + cbn [arg_ids aid common] in *. pose proof Hn as [N1 N2]%NoDup_cons. apply NoDup_cons. split; [|apply Ho; [done|intros x Hx; apply Hlt; by right]].
      intros Hx%patch_ids_elem. eapply (patch_ids_disjoint [arg_id c] (arg_ids o)); [done|done|left; by left|exact Hx].
Qed.
End patches.

(** ** The open unions of default arguments *)

Section open_weight.
Context (typeRefs : list Typ) (any : AnyTypes) (rank : Ref → nat) (fuel : nat).
Fixpoint default_open (k : nat) (r : Ref) : list Ref :=
  match k with
  | O => []
  | S k =>
      match index typeRefs r with
      | Ret (ArrayType _ elem ArrayRangeLen lo hi) => if decide (lo = hi) then concat (replicate (Z.to_nat lo) (default_open k elem)) else []
      | Ret (PtrType c elem _ _) => if IsOptional c then [] else default_open k elem
      | Ret (StructType _ fields _ _) => concat ((λ f, default_open k (FieldType f)) <$> fields)
      | Ret (UnionType _ fields) =>
          match defaultField fields with
          | Ret (idx, _) =>
              match index fields idx, isConditional fields with
              | Ret f, Ret cond => (if cond then [r] else []) ++ default_open k (FieldType f)
              | _, _ => []
              end
          | Panic => []
          end
      | _ => []
      end
  end.
(** More than the open unions of any default argument. *)
Definition width : nat := S (foldr Nat.max 0%nat ((λ i, length (default_open fuel (Z.of_nat i))) <$> seq 0 (length typeRefs))).
Definition weight (r : Ref) : nat := (width ^ rank r)%nat.
Definition open_weight (l : list Ref) : nat := foldr (λ r w, weight r + w)%nat 0%nat l.

Lemma weights_app l k : open_weight (l ++ k) = (open_weight l + open_weight k)%nat.
Proof. unfold open_weight. induction l as [|r l IH]; [done|]. cbn [app foldr]. rewrite IH. lia. Qed.
Lemma weight_pos r : (0 < weight r)%nat.
Proof. unfold weight. assert (H : width ≠ 0%nat) by done. apply (Nat.pow_nonzero width (rank r)) in H. lia. Qed.

Context (Hdef : ∀ r t, r ≠ 0 → index typeRefs r = Ret t → default_type typeRefs rank r t).
Lemma default_elems_open (rec : Ref → Dir → argid → outcome (option (Arg * argid))) e u k : (∀ d n a n', rec e d n = Ret (Some (a, n')) → open_unions a = u) →
  ∀ d n l n', default_elems rec k e d n = Ret (Some (l, n')) → roots_open l = concat (replicate k u).
Proof.
  intros Hrec d. induction k as [|k IH]; intros n l n'; cbn [default_elems]; [by intros [= <- <-]|].
  destruct (rec e d n) as [[[x n1]|]|] eqn:E; [|done|done]. cbn [mbind outcome_bind]. destruct (default_elems rec k e d n1) as [[[l1 n2]|]|] eqn:E1; [|done|done]. cbn. intros [= <- <-].
  unfold roots_open. cbn [fmap list_fmap concat]. f_equal; [by eapply Hrec|by eapply IH].
Qed.
Lemma default_fields_open (rec : Ref → Dir → argid → outcome (option (Arg * argid))) u fields : (∀ f d n a n', f ∈ fields → rec (FieldType f) d n = Ret (Some (a, n')) → open_unions a = u (FieldType f)) →
  ∀ d n l n', default_fields rec fields d n = Ret (Some (l, n')) → roots_open l = concat ((λ f, u (FieldType f)) <$> fields).
Proof.
  intros Hrec d. induction fields as [|f fields IH]; intros n l n'; cbn [default_fields]; [by intros [= <- <-]|].
  destruct (rec _ _ n) as [[[x n1]|]|] eqn:E; [|done|done]. cbn [mbind outcome_bind]. destruct (default_fields rec fields d n1) as [[[l1 n2]|]|] eqn:E1; [|done|done]. cbn. intros [= <- <-].
  unfold roots_open. cbn [fmap list_fmap concat]. f_equal; [eapply Hrec; [by left|done]|]. eapply IH; [|done]. intros g ? ? ? ? Hg. apply Hrec. by right.
Qed.
Lemma buffer_default_open t Values dir n a : buffer_default t Values dir n = Ret a → open_unions a = [].
Proof.
  unfold buffer_default. destruct (decide (dir = DirOut)).
  - match goal with |- (?m ≫= _) = _ → _ => destruct m as [sz|]; [|done] end. cbn. unfold MakeOutDataArg. case_decide; [done|]. by intros [= <-].
  - match goal with |- (?m ≫= _) = _ → _ => destruct m as [sz|]; [|done] end. cbn. unfold MakeDataArg. case_decide; [done|]. by intros [= <-].
Qed.
Lemma default_open_spec k r dir n a n' : r ≠ 0 → DefaultArg typeRefs k r dir n = Ret (Some (a, n')) → open_unions a = default_open k r.
Proof.
  revert r dir n a n'. induction k as [|k IH]; intros r dir n a n' Hr; cbn [DefaultArg default_open]; [done|]. destruct (index typeRefs r) as [t|] eqn:Et; [|done]. cbn [mbind outcome_bind].
  destruct (Hdef r t Hr Et) as [Hself Ht]. unfold finish.
  destruct t as [c f d|c v pad|c kk b e al|c vals bm|c bs off path|c vs per|c kk buf pr|c b e|c kk b e sub vals nz|c elem kk lo hi|c elem ed sq|c fields al ov|c fields]; cbn [const_default]; try by intros [= <- <-].
  - destruct (ResourceDefault d) as [v|]; [|done]. cbn. by intros [= <- <-].
  - destruct (buffer_default _ _ _ _) as [x|] eqn:E; [|done]. cbn. intros [= <- <-]. by eapply buffer_default_open.
  - cbn [fixedInnerSize mbind outcome_bind]. destruct kk; [by intros [= <- <-]|]. destruct (decide (lo = hi)) as [He|He]; [rewrite bool_decide_eq_true_2 by done|rewrite bool_decide_eq_false_2 by done; by intros [= <- <-]].
    destruct (default_elems _ _ _ _ _) as [[[l n1]|]|] eqn:E; [|done|done]. cbn. intros [= <- <-]. cbn [open_unions MakeGroupArg]. eapply (default_elems_open (DefaultArg typeRefs k)); [|exact E]. intros d m x m'. apply IH. apply Ht. cbn. by rewrite bool_decide_eq_true_2.
  - unfold TOptional. cbn [type_common]. destruct (IsOptional c) eqn:Eo; [by intros [= <- <-]|]. destruct (DefaultArg typeRefs k elem ed n) as [[[x n1]|]|] eqn:E; [|done|done]. cbn. intros [= <- <-]. cbn. eapply IH; [by apply Ht|exact E].
  - destruct (default_fields _ _ _ _) as [[[l n1]|]|] eqn:E; [|done|done]. cbn. intros [= <- <-]. cbn [open_unions MakeGroupArg]. eapply (default_fields_open (DefaultArg typeRefs k) (default_open k)); [|exact E]. intros f d m x m' Hf. apply IH. by apply Ht.
  - destruct Ht as (idx & okd & f & Ed & Ef & Hb). rewrite Ed. cbn [mbind outcome_bind]. rewrite Ef. cbn [mbind outcome_bind]. destruct (DefaultArg typeRefs k _ _ n) as [[[x n1]|]|] eqn:E; [|done|done]. cbn [mbind outcome_bind].
    destruct (isConditional fields) as [cond|]; [|done]. cbn. intros [= <- <-]. cbn [open_unions MakeUnionArg make_common ref]. cbn in Hself. cbn [type_common]. rewrite Hself. f_equal. eapply IH; [apply Hb|exact E].
Qed.
Lemma default_open_rank k r r' : r ≠ 0 → r' ∈ default_open k r → (rank r' ≤ rank r)%nat.
Proof.
  revert r r'. induction k as [|k IH]; intros r r' Hr; cbn [default_open]; [by intros ?%not_elem_of_nil|]. destruct (index typeRefs r) as [t|] eqn:Et; [|by intros ?%not_elem_of_nil].
  destruct (Hdef r t Hr Et) as [_ Ht]. assert (Hbelow : ∀ e, below typeRefs rank r e → r' ∈ default_open k e → (rank r' ≤ rank r)%nat).
  { intros e (He & _ & Hlt) Hin. pose proof (IH e r' He Hin). lia. }
  destruct t; try by intros ?%not_elem_of_nil.
  - destruct Kind; [by intros ?%not_elem_of_nil|]. case_decide as He; [|by intros ?%not_elem_of_nil]. intros (l & Hl & Hin)%list_elem_of_In%in_concat. apply list_elem_of_In, elem_of_replicate in Hl as [-> _]. apply list_elem_of_In in Hin.
    apply (Hbelow Elem); [|done]. apply Ht. cbn. by rewrite bool_decide_eq_true_2.
  - destruct (IsOptional c) eqn:Eo; [by intros ?%not_elem_of_nil|]. apply Hbelow. by apply Ht.
  - intros (l & Hl & Hin)%list_elem_of_In%in_concat. apply list_elem_of_In, list_elem_of_fmap in Hl as (f & -> & Hf). apply list_elem_of_In in Hin. by apply (Hbelow (FieldType f)); [apply Ht|].
  - destruct Ht as (idx & okd & f & Ed & Ef & Hb). rewrite Ed, Ef. destruct (isConditional Fields) as [cond|]; [|by intros ?%not_elem_of_nil].
    intros [Hin|Hin]%elem_of_app; [|by eapply Hbelow]. destruct cond; [apply list_elem_of_singleton in Hin as ->; lia|by apply not_elem_of_nil in Hin].
Qed.
Lemma foldr_max_le (l : list nat) x : x ∈ l → (x ≤ foldr Nat.max 0 l)%nat.
Proof. induction l as [|y l IH]; [by intros ?%not_elem_of_nil|]. cbn. intros [->|Hx%IH]%elem_of_cons; lia. Qed.
Lemma default_open_width r t : index typeRefs r = Ret t → (length (default_open fuel r) < width)%nat.
Proof.
  unfold index. case_decide as Hr; [|done]. destruct (typeRefs !! Z.to_nat r) as [x|] eqn:Ex; [|done]. intros _. unfold width. apply Nat.lt_succ_r, foldr_max_le, list_elem_of_fmap.
  exists (Z.to_nat r). split; [by rewrite Z2Nat.id by lia|]. apply elem_of_seq. apply lookup_lt_Some in Ex. lia.
Qed.
Lemma weights_bound l k : (∀ r, r ∈ l → (rank r ≤ k)%nat) → (open_weight l ≤ length l * width ^ k)%nat.
Proof.
  induction l as [|r l IH]; intros Hl; [done|]. cbn [open_weight foldr length]. fold (open_weight l). assert (open_weight l ≤ length l * width ^ k)%nat by (apply IH; intros x Hx; apply Hl; by right).
  assert (weight r ≤ width ^ k)%nat by (apply Nat.pow_le_mono_r; [done|apply Hl; by left]). lia.
Qed.
Lemma default_weight r e : below typeRefs rank r e → (open_weight (default_open fuel e) < weight r)%nat.
Proof.
  intros (He & [t Et] & Hlt). pose proof (default_open_width e t Et) as Hw. pose proof (weights_bound (default_open fuel e) (pred (rank r))) as Hb.
  assert (Hk : rank r = S (pred (rank r))) by lia. assert (Hpos : (0 < width ^ pred (rank r))%nat) by (assert (H : width ≠ 0%nat) by done; apply (Nat.pow_nonzero width (pred (rank r))) in H; lia).
  unfold weight. rewrite Hk, Nat.pow_succ_r'. eapply Nat.le_lt_trans; [apply Hb|apply Nat.mul_lt_mono_pos_r; lia].
  intros x Hx%default_open_rank; [lia|done].
Qed.
End open_weight.

(** ** Rounds end *)

Section rounds.
Context (typeRefs : list Typ) (any : AnyTypes).

(** What the search hands to the callback. *)
Record stale_shape (s : stale_union) (c : ArgCommon) (o : Arg) (i : Z) (tc : TypeCommon) (fields : list Field) : Prop := {
  ss_arg : st_arg s = UnionArg c o i (st_transient s);
  ss_id : st_id s = arg_id c;
  ss_type : st_type s = UnionType tc fields;
  ss_ref : ref c ≠ 0;
  ss_index : index typeRefs (ref c) = Ret (UnionType tc fields);
  ss_cond : isConditional fields = Ret true;
  ss_first : ∃ first f, index (st_ok s) 0 = Ret first ∧ index fields first = Ret f
}.
Lemma matching_from_index n i fields finder l k : matching_from n i fields finder = Ret l → k ∈ l → ∃ f, index fields k = Ret f.
Proof.
  revert i l. induction n as [|n IH]; intros i l; cbn [matching_from]; [intros [= <-] ?%not_elem_of_nil; done|].
  destruct (checkUnionArg i fields finder) as [[ok calc]|] eqn:E; [|done]. cbn [mbind outcome_bind]. destruct (matching_from n (i + 1) fields finder) as [rest|] eqn:Er; [|done]. cbn [mbind outcome_bind].
  assert (Hi : ∃ f, index fields i = Ret f) by (unfold checkUnionArg in E; destruct (index fields i); [eauto|done]).
  intros [= <-] Hk. destruct ok; [apply elem_of_cons in Hk as [->|Hk]|]; [done| |]; by eapply IH.
Qed.
Lemma stale_visit_shape v s : stale_visit typeRefs any v = Ret (Some s) → st_arg s = sv_arg v ∧ ∃ c o i tc fields, stale_shape s c o i tc fields.
Proof.
  unfold stale_visit, TypeOf. case_decide as Hr; [done|]. destruct (index typeRefs (ref (common (sv_arg v)))) as [t|] eqn:Et; [|done]. cbn [mbind outcome_bind]. destruct (isAnyPtr any t); [done|].
  destruct (sv_arg v) as [| | | |c o i tr|] eqn:Ev; try done. destruct t as [| | | | | | | | | | | |tc fields]; try done.
  destruct (isConditional fields) as [cond|] eqn:Ec; [|done]. cbn [mbind outcome_bind]. destruct cond; [|done]. cbn [negb]. destruct (checkUnionArg _ _ _) as [[ok calc]|]; [|done]. cbn [mbind outcome_bind].
  destruct calc; [|done]. cbn [negb]. destruct (negb tr && ok); [done|]. destruct (matchingUnionArgs _ _) as [l|] eqn:El; [|done]. cbn [mbind outcome_bind]. case_decide as Hl; [done|]. intros [= <-]. split; [done|].
  exists c, o, i, tc, fields. destruct l as [|first l]; [done|]. constructor; try done. exists first. destruct (matching_from_index _ _ _ _ _ first El) as [f Hf]; [by left|]. by exists f.
Qed.
Lemma foreachStack_subargs stop a : ∀ ps vs v, foreachStack typeRefs stop a ps = Ret vs → v ∈ vs → sv_arg v ∈ arg_subs a.
Proof.
  assert (Hgen : ∀ a ps rest vs v (sub : list Arg), (∀ w, rest = Ret w → v ∈ w → sv_arg v ∈ sub) →
    (t ← TypeOf typeRefs a; r ← (if stop t then Ret [] else rest); Ret (mkStackVisit a (push_parent t a ps) :: r)) = Ret vs → v ∈ vs → sv_arg v ∈ a :: sub).
  { intros b ps rest vs v sub Hrest. destruct (TypeOf typeRefs b) as [t|]; [|done]. cbn [mbind outcome_bind]. destruct (stop t).
    - cbn. intros [= <-] ->%list_elem_of_singleton. by left.
    - destruct rest as [w|]; [|done]. cbn. intros [= <-] [->|Hv]%elem_of_cons; [by left|right; by eapply Hrest]. }
  induction a as [c v|c ad v r Hr|c d s|c l Hl|c o i t Ho|r] using Arg_nested_ind; intros ps vs w E Hw.
  - eapply (Hgen (ConstArg c v) ps (Ret [])); [|exact E|done]. by intros ? [= <-] ?%not_elem_of_nil.
  - destruct r as [x|].
    + cbn [foreachStack] in E. cbn [arg_subs]. destruct (TypeOf typeRefs (PointerArg c ad v (Some x))) as [t|] eqn:Et; [|done]. cbn [mbind outcome_bind] in E.
      eapply (Hgen (PointerArg c ad v (Some x)) ps (foreachStack typeRefs stop x (push_parent t (PointerArg c ad v (Some x)) ps))); [intros k Hk Hin; by eapply Hr| |done]. rewrite Et. exact E.
    + eapply (Hgen (PointerArg c ad v None) ps (Ret [])); [|exact E|done]. by intros ? [= <-] ?%not_elem_of_nil.
  - eapply (Hgen (DataArg c d s) ps (Ret [])); [|exact E|done]. by intros ? [= <-] ?%not_elem_of_nil.
  - cbn [foreachStack] in E. cbn [arg_subs]. destruct (TypeOf typeRefs (GroupArg c l)) as [t|] eqn:Et; [|done]. cbn [mbind outcome_bind] in E.
    match type of E with context [if stop t then Ret [] else ?m] => eapply (Hgen (GroupArg c l) ps m); [|rewrite Et; exact E|done] end.
    clear E Et Hw vs. generalize (push_parent t (GroupArg c l) ps). intros qs. induction Hl as [|x l Hx Hl IH]; intros k; [by intros [= <-] ?%not_elem_of_nil|]. cbn [fmap list_fmap concat].
    destruct (foreachStack typeRefs stop x qs) as [vs1|] eqn:E1; [|done]. cbn [mbind outcome_bind]. destruct (ArgSize typeRefs x) as [z|]; [|done]. cbn [mbind outcome_bind].
    match goal with |- (?m ≫= _) = _ → _ => destruct m as [vs2|] eqn:E2; [|done] end. cbn. intros [= <-] [H|H]%elem_of_app; apply elem_of_app; [left; by eapply Hx|right; by eapply IH].
  - cbn [foreachStack] in E. cbn [arg_subs]. destruct (TypeOf typeRefs (UnionArg c o i t)) as [ty|] eqn:Et; [|done]. cbn [mbind outcome_bind] in E.
    eapply (Hgen (UnionArg c o i t) ps (foreachStack typeRefs stop o (push_parent ty (UnionArg c o i t) ps))); [intros k Hk Hin; by eapply Ho| |done]. rewrite Et. exact E.
  - eapply (Hgen (AResult r) ps (Ret [])); [|exact E|done]. by intros ? [= <-] ?%not_elem_of_nil.
Qed.
Lemma stale_visits_elem vs l s : stale_visits typeRefs any vs = Ret l → s ∈ l → ∃ v, v ∈ vs ∧ stale_visit typeRefs any v = Ret (Some s).
Proof.
  revert l. induction vs as [|v vs IH]; intros l; cbn [stale_visits]; [by intros [= <-] ?%not_elem_of_nil|]. destruct (stale_visit typeRefs any v) as [x|] eqn:Ex; [|done]. cbn [mbind outcome_bind].
  destruct (stale_visits typeRefs any vs) as [r|]; [|done]. cbn. intros [= <-] [Hs|Hs]%elem_of_app.
  - destruct x as [x|]; [apply list_elem_of_singleton in Hs as ->|by apply not_elem_of_nil in Hs]. exists v. split; [by left|done].
  - destruct (IH r eq_refl Hs) as (w & Hw & E). exists w. split; [by right|done].
Qed.
Lemma stale_args_elem args l s : stale_args typeRefs any args = Ret l → s ∈ l → st_arg s ∈ roots_subs args ∧ ∃ c o i tc fields, stale_shape s c o i tc fields.
Proof.
  revert l. induction args as [|a args IH]; intros l; cbn [stale_args]; [by intros [= <-] ?%not_elem_of_nil|]. destruct (foreachSubArgWithStack typeRefs (isAnyPtr any) a) as [vs|] eqn:Ea; [|done]. cbn [mbind outcome_bind].
  destruct (stale_visits typeRefs any vs) as [l1|] eqn:E1; [|done]. cbn [mbind outcome_bind]. destruct (stale_args typeRefs any args) as [l2|]; [|done]. cbn. intros [= <-] [Hs|Hs]%elem_of_app.
  - destruct (stale_visits_elem _ _ _ E1 Hs) as (v & Hv & Es). destruct (stale_visit_shape v s Es) as [-> Hsh]. split; [|done]. apply elem_of_app. left. by eapply foreachStack_subargs.
  - destruct (IH l2 eq_refl Hs) as [H1 H2]. split; [|done]. apply elem_of_app. by right.
Qed.
End rounds.

(** ** Trees that can be dropped without a trace

    The contents of an open union are default arguments: no result in them is
    used or uses another, so removing them changes no object. *)

Section free_trees.
Context (typeRefs : list Typ).

(** The types of scalars have a size. *)
Definition scalar_type (t : Typ) : bool :=
  match t with BufferType _ _ _ _ _ _ _ | ArrayType _ _ _ _ _ | StructType _ _ _ _ | UnionType _ _ => false | _ => true end.
Definition scalars_sized : Prop := ∀ r t, index typeRefs r = Ret t → scalar_type t = true → Varlen t = false.
(** An argument that fits its type, and no result that is connected. *)
Definition free_node (x : Arg) : Prop :=
  ∃ t, TypeOf typeRefs x = Ret t ∧
  match x with
  | ConstArg _ _ | PointerArg _ _ _ _ => Varlen t = false
  | AResult r => Varlen t = false ∧ res_Res r = None ∧ uses r = ∅
  | GroupArg _ _ => match t with StructType _ _ _ _ | ArrayType _ _ _ _ _ => True | _ => False end
  | DataArg _ _ _ | UnionArg _ _ _ _ => True
  end.
Definition free_tree (a : Arg) : Prop := Forall free_node (arg_subs a).

Lemma free_tree_cons a l : (∀ x, x ∈ l → free_tree x) → free_node a → Forall free_node (a :: concat (arg_subs <$> l)).
Proof.
  intros Hl Ha. constructor; [done|]. apply Forall_forall. intros x (k & Hx & (y & -> & Hy)%list_elem_of_fmap)%elem_of_concat.
  specialize (Hl y Hy). unfold free_tree in Hl. rewrite Forall_forall in Hl. by apply Hl.
Qed.
Lemma free_group c l : free_tree (GroupArg c l) → free_node (GroupArg c l) ∧ ∀ x, x ∈ l → free_tree x.
Proof.
  intros H. unfold free_tree in H. cbn [arg_subs] in H. apply Forall_cons in H as [H1 H2]. split; [done|]. intros x Hx. apply Forall_forall. intros y Hy.
  rewrite Forall_forall in H2. apply H2, elem_of_concat. exists (arg_subs x). split; [done|]. by apply list_elem_of_fmap_2.
Qed.

(** Default arguments are such trees. *)
Lemma all_default_inv l : all_default typeRefs l = Ret true → ∀ x, x ∈ l → isDefaultArg typeRefs x = Ret true.
Proof.
  induction l as [|a l IH]; [by intros _ ? ?%not_elem_of_nil|]. cbn [all_default]. destruct (isDefaultArg typeRefs a) as [[]|] eqn:E; [|done|done]. cbn [mbind outcome_bind].
  intros H x [->|Hx]%elem_of_cons; [done|by apply IH].
Qed.
Context (Hsized : scalars_sized).
Lemma TypeOf_sized a t : TypeOf typeRefs a = Ret t → scalar_type t = true → Varlen t = false.
Proof. unfold TypeOf. case_decide; [done|]. apply Hsized. Qed.
Lemma special_zero_None ad v r : special_zero ad v r = true → r = None.
Proof. unfold special_zero, IsSpecial. destruct r; [|done]. by rewrite andb_false_r. Qed.
Lemma default_free a : isDefaultArg typeRefs a = Ret true → free_tree a.
Proof.
  unfold free_tree. induction a as [c v|c ad v r Hr|c d s|c l Hl|c o i tr Ho|r] using Arg_nested_ind; cbn [isDefaultArg arg_subs]; intros H; apply bind_Ret in H as (t & Ht & H).
  - constructor; [|constructor]. exists t. split; [done|]. apply (TypeOf_sized _ _ Ht). by destruct t.
  - assert (Hs : Varlen t = false) by (apply (TypeOf_sized _ _ Ht); by destruct t). constructor; [by exists t|]. destruct r as [x|]; [|constructor].
    destruct t; try done.
    + apply Ret_inj, special_zero_None in H. done.
    + destruct (TOptional _); [apply Ret_inj, special_zero_None in H; done|]. case_decide; [|done]. by apply Hr.
  - constructor; [|constructor]. by exists t.
  - assert (Hall : all_default typeRefs l = Ret true ∧ match t with StructType _ _ _ _ | ArrayType _ _ _ _ _ => True | _ => False end).
    { destruct t; try done. apply bind_Ret in H as (fixed & _ & H). destruct (negb fixed && _); [done|]. done. }
    destruct Hall as [Hall Hk]. apply free_tree_cons; [|by exists t]. intros x Hx. rewrite Forall_forall in Hl. apply (Hl x Hx). by eapply all_default_inv.
  - constructor; [by exists t|]. destruct t; try done. apply bind_Ret in H as ([d ok] & _ & H). destruct (negb ok || _); [by apply Ho|done].
  - constructor; [|constructor]. exists t. split; [done|]. split; [apply (TypeOf_sized _ _ Ht); by destruct t|]. destruct t; try done. case_decide as Hd; [|done]. tauto.
Qed.

(** They have sizes and can be visited. *)
Lemma free_size a : free_tree a → ∃ s, ArgSize typeRefs a = Ret s.
Proof.
  induction a as [c v|c ad v r Hr|c d s|c l Hl|c o i tr Ho|r] using Arg_nested_ind; intros H.
  1,2: apply Forall_cons in H as [(t & Ht & Hs) _]; cbn [ArgSize]; rewrite Ht; cbn [mbind outcome_bind]; unfold TSize; rewrite Hs; eauto.
  - cbn. eauto.
  - apply free_group in H as [(t & Ht & Hk) Hall]. cbn [ArgSize]. rewrite Ht. cbn [mbind outcome_bind]. unfold TSize. destruct (Varlen t); cbn [negb]; [|eauto].
    assert (Hsz : Forall (λ x, ∃ s, ArgSize typeRefs x = Ret s) l) by (apply Forall_forall; intros x Hx; rewrite Forall_forall in Hl; by apply Hl, Hall). clear Hl Hall Ht.
    destruct t; try done.
    + match goal with |- context [?F l 0] => set (go := F) end. assert (Hgo : ∀ z, ∃ s, go l z = Ret s); [|apply Hgo].
      induction Hsz as [|x l [s Es] _ IH]; intros z; [by eexists|]. cbn. rewrite Es. apply IH.
    + generalize (length l) as n. intros n. match goal with |- context [?F 0%nat l 0 0] => set (go := F) end. assert (Hgo : ∀ i z z', ∃ s, go i l z z' = Ret s); [|apply Hgo].
      induction Hsz as [|x l [s Es] _ IH]; intros i z z'; [by eexists|]. cbn. rewrite Es. apply IH.
  - cbn [ArgSize]. apply Forall_cons in H as [(t & Ht & _) Hs]. rewrite Ht. cbn [mbind outcome_bind]. unfold TSize. destruct (Varlen t); cbn [negb]; [|eauto]. by apply Ho.
  - apply Forall_cons in H as [(t & Ht & Hs & _) _]. cbn [ArgSize]. rewrite Ht. cbn [mbind outcome_bind]. unfold TSize. rewrite Hs. eauto.
Qed.
Lemma free_visits a : free_tree a → ∀ base off, ∃ vs, foreachArgImpl typeRefs a base off = Ret vs.
Proof.
  induction a as [c v|c ad v r Hr|c d s|c l Hl|c o i tr Ho|r] using Arg_nested_ind; intros H base off; cbn [foreachArgImpl]; try (eexists; reflexivity).
  - destruct r as [x|]; [|eexists; reflexivity]. apply Forall_cons in H as [_ H]. destruct (Hr H (Some (PointerArg c ad v (Some x))) 0) as [vs ->]. eexists. reflexivity.
  - apply free_group in H as [(t & Ht & _) Hall]. rewrite Ht. cbn [mbind outcome_bind].
    match goal with |- context [?F 0%nat l off] => set (go := F) end.
    assert (Hgo : ∀ j cur, ∃ rest, go j l cur = Ret rest); [|destruct (Hgo 0%nat off) as [rest ->]; eexists; reflexivity].
    clear Ht. induction Hl as [|x l Hx Hl IH]; intros j cur; [eexists; reflexivity|]. cbn. destruct (Hx (Hall x ltac:(by left)) base (if decide (Z.of_nat j = match t with StructType _ _ _ o => o | _ => 0 end) then off else cur)) as [vs1 ->].
    cbn [mbind outcome_bind]. destruct (free_size x (Hall x ltac:(by left))) as [s ->]. cbn [mbind outcome_bind].
    match goal with |- context [go (S j) l ?z] => destruct (IH ltac:(intros y Hy; apply Hall; by right) (S j) z) as [vs2 ->] end. eexists. reflexivity.
  - apply Forall_cons in H as [_ H]. destruct (Ho H base off) as [vs ->]. eexists. reflexivity.
Qed.

(** Removing them leaves the heap as it is. *)
Lemma remove_results_free l h : (∀ r, r ∈ l → h !! rid r = Some r ∧ res_Res r = None ∧ uses r = ∅) → remove_results typeRefs l h = Ret h.
Proof.
  induction l as [|r l IH]; intros H; [done|]. cbn [remove_results]. destruct (H r) as (Hh & Hr & Hu); [by left|]. unfold remove_result, object. rewrite Hh. cbn [mbind outcome_bind]. rewrite Hr. cbn [mbind outcome_bind].
  rewrite Hh. cbn [mbind outcome_bind]. rewrite Hu, elements_empty. cbn [reset_users mbind outcome_bind]. apply IH. intros x Hx. apply H. by right.
Qed.
Lemma removeArg_free a h : free_tree a → (∀ r, r ∈ arg_results a → h !! rid r = Some r) → removeArg typeRefs h a = Ret h.
Proof.
  intros Hf Hh. unfold removeArg. destruct (free_visits a Hf None 0) as [vs E]. rewrite E. cbn [mbind outcome_bind]. rewrite (visits_results _ _ _ _ _ E). apply remove_results_free.
  intros r Hr. split; [by apply Hh|]. unfold free_tree in Hf. rewrite Forall_forall in Hf. destruct (Hf (AResult r)) as (t & _ & _ & ? & ?); [by apply arg_subs_result|done].
Qed.

(** ** Overwriting unions in them *)

Lemma arg_subs_trans a b x : a ∈ arg_subs b → x ∈ arg_subs a → x ∈ arg_subs b.
Proof.
  induction b as [c v|c ad v y Hy|c d s|c l Hl|c o i t Ho|r0] using Arg_nested_ind; cbn [arg_subs]; rewrite elem_of_cons; intros [->|H] Hx; try done; try (by inv H); rewrite elem_of_cons; right.
  - destruct y; [by apply Hy|by inv H].
  - apply elem_of_concat in H as (k & Hk & (y & -> & Hin)%list_elem_of_fmap). apply elem_of_concat. exists (arg_subs y). split; [|by apply list_elem_of_fmap_2].
    rewrite Forall_forall in Hl. by apply (Hl y Hin).
  - by apply Ho.
Qed.
Lemma free_tree_sub a x : free_tree a → x ∈ arg_subs a → free_tree x.
Proof. unfold free_tree. rewrite !Forall_forall. intros H Hx y Hy. apply H. by eapply arg_subs_trans. Qed.
(** What a patched tree consists of: its own arguments, patched, and the
    arguments of the new contents. *)
Lemma patch_subs m a x : x ∈ arg_subs (patch_arg m a) →
  (∃ y, y ∈ arg_subs a ∧ x = patch_arg m y ∧ match y with UnionArg c _ _ _ => m !! arg_id c = None | _ => True end) ∨
  ∃ k new, m !! k = Some new ∧ x ∈ arg_subs (with_id k new).
Proof.
  induction a as [c v|c ad v r Hr|c d s|c l Hl|c o i t Ho|r] using Arg_nested_ind; cbn [patch_arg].
  1,3,6: cbn [arg_subs]; intros ->%list_elem_of_singleton; left; eexists; split_and!; [by left|done|done].
  - destruct r as [y|].
    + cbn [arg_subs]. intros [->|Hx]%elem_of_cons; [left; exists (PointerArg c ad v (Some y)); split_and!; [by left|done|done]|].
      destruct (Hr Hx) as [(z & Hz & Hzz)|?]; [|by right]. left. exists z. split; [by right|done].
    + cbn [arg_subs]. intros ->%list_elem_of_singleton. left. eexists. split_and!; [by left|done|done].
  - cbn [arg_subs]. intros [->|Hx]%elem_of_cons; [left; exists (GroupArg c l); split_and!; [by left|done|done]|].
    apply elem_of_concat in Hx as (k & Hk & (z & -> & (y & -> & Hy)%list_elem_of_fmap)%list_elem_of_fmap). rewrite Forall_forall in Hl.
    destruct (Hl y Hy Hk) as [(z & Hz & Hzz)|?]; [|by right]. left. exists z. split; [|done]. right. apply elem_of_concat. exists (arg_subs y). split; [done|by apply list_elem_of_fmap_2].
  - destruct (m !! arg_id c) as [new|] eqn:E; [right; eauto|]. cbn [arg_subs]. intros [->|Hx]%elem_of_cons.
    + left. exists (UnionArg c o i t). split_and!; [by left|cbn [patch_arg]; by rewrite E|done].
    + destruct (Ho Hx) as [(z & Hz & Hzz)|?]; [|by right]. left. exists z. split; [by right|done].
Qed.
Lemma free_node_patch m y : match y with UnionArg c _ _ _ => m !! arg_id c = None | _ => True end → free_node y → free_node (patch_arg m y).
Proof.
  intros Hm (t & Ht & H). exists t. destruct y as [c v|c ad v [x|]|c d s|c l|c o i tr|r]; cbn [patch_arg] in *; try done. by rewrite Hm.
Qed.
Lemma free_tree_patch m a : (∀ k new, m !! k = Some new → free_tree (with_id k new)) → free_tree a → free_tree (patch_arg m a).
Proof.
  intros Hm Ha. unfold free_tree in *. rewrite Forall_forall in Ha. apply Forall_forall. intros x [(y & Hy & -> & Hn)|(k & new & Hk & Hx)]%patch_subs.
  - apply free_node_patch; [done|by apply Ha].
  - specialize (Hm k new Hk). rewrite Forall_forall in Hm. by apply Hm.
Qed.
(** Open unions keep contents that can be dropped. *)
Lemma patch_open m args :
  (∀ k new, m !! k = Some new → ∃ c o i, new = UnionArg c o i false) → (∀ c o i, UnionArg c o i true ∈ roots_subs args → free_tree o) →
  (∀ k new, m !! k = Some new → free_tree (with_id k new)) → ∀ c o i, UnionArg c o i true ∈ roots_subs (patch_arg m <$> args) → free_tree o.
Proof.
  intros Hu Ho Hm c o i (k & Hin & (x & -> & (a & -> & Ha)%list_elem_of_fmap)%list_elem_of_fmap)%elem_of_concat. apply patch_subs in Hin as [(y & Hy & E & Hn)|(k & new & Hk & Hx)].
  - destruct y as [c' v|c' ad v [x|]|c' d s|c' l|c' o' i' tr|r']; cbn [patch_arg] in E; try done. rewrite Hn in E. injection E as Ec Eo Ei Et. subst.
    apply free_tree_patch; [done|]. eapply Ho. apply elem_of_concat. exists (arg_subs a). split; [exact Hy|by apply list_elem_of_fmap_2].
  - pose proof (Hm k new Hk) as Hf. destruct (Hu k new Hk) as (c' & o' & i' & ->). pose proof (free_tree_sub _ _ Hf Hx) as [_ H]%Forall_cons. exact H.
Qed.
Lemma patch_results m a r : (∀ k new, m !! k = Some new → ∃ c o i t, new = UnionArg c o i t) → r ∈ arg_results (patch_arg m a) →
  r ∈ arg_results a ∨ ∃ k new, m !! k = Some new ∧ r ∈ arg_results new.
Proof.
  intros Hm Hr%arg_subs_result. apply patch_subs in Hr as [(y & Hy & E & Hn)|(k & new & Hk & Hx)].
  - left. destruct y as [c v|c ad v [x|]|c d s|c l|c o i tr|r']; cbn [patch_arg] in E; try done; [by rewrite Hn in E|]. injection E as ->. by apply arg_subs_result.
  - right. exists k, new. split; [done|]. destruct (Hm k new Hk) as (c & o & i & t & ->). by apply arg_subs_result in Hx.
Qed.
End free_trees.

Section ends.
Context (typeRefs : list Typ) (any : AnyTypes) (rank : Ref → nat) (fuel : nat) (order : list (stale_union * Arg) → list (stale_union * Arg)).
(** Default arguments are finite, also those of every field of a union with
    conditions. *)
Record cond_env : Prop := {
  ce_default : ∀ r t, r ≠ 0 → index typeRefs r = Ret t → default_type typeRefs rank r t;
  ce_fields : ∀ r tc fields f, r ≠ 0 → index typeRefs r = Ret (UnionType tc fields) → isConditional fields = Ret true → f ∈ fields → below typeRefs rank r (FieldType f);
  ce_fuel : ∀ r t, r ≠ 0 → index typeRefs r = Ret t → (rank r < fuel)%nat
}.
Context (Henv : cond_env).
Local Abbreviation W := (open_weight typeRefs rank fuel).
Local Abbreviation weigh := (weight typeRefs rank fuel).

(** The union that takes the place of [s]: closed, with the last field when it
    has no condition and the first field whose condition holds otherwise, and
    with the default argument of that field. *)
Definition closed_default (s : stale_union) (a : Arg) : Prop :=
  ∃ c o idx field tc fields first lastf, a = UnionArg c o idx false ∧
    ref c = ref (common (st_arg s)) ∧ arg_dir c = arg_dir (common (st_arg s)) ∧ st_type s = UnionType tc fields ∧
    index (st_ok s) 0 = Ret first ∧ index fields (len fields - 1) = Ret lastf ∧
    idx = match Condition lastf with None => len fields - 1 | Some _ => first end ∧
    index fields idx = Ret field ∧ ref (common o) = FieldType field ∧ isDefaultArg typeRefs o = Ret true.

Record new_union (s : stale_union) (n : argid) (a : Arg) (n' : argid) : Prop := {
  nu_next : n < n';
  nu_ids : NoDup (arg_ids a) ∧ ∀ x, x ∈ arg_ids a → n ≤ x < n';
  nu_weight : ∃ c o i, a = UnionArg c o i false ∧ ∀ c' o' i' tc fields, stale_shape typeRefs s c' o' i' tc fields → (W (open_unions o) < weigh (ref c'))%nat;
  nu_closed : closed_default s a
}.
Lemma default_union_run s n c o i tc fields : stale_shape typeRefs s c o i tc fields →
  ∃ a n', default_union typeRefs fuel s n = Ret (Some (a, n')) ∧ new_union s n a n'.
Proof.
  intros Hs. pose proof Hs as [Ea _ Et Hr Ei Hc (first & f0 & E1 & E2)]. unfold default_union. rewrite Et, E1, Ea. cbn [mbind outcome_bind].
  destruct (ce_default Henv _ _ Hr Ei) as [Hself (idx & okd & f & Ed & Ef & _)]. rewrite Ed. cbn [mbind outcome_bind].
  assert (Hf : ∃ g, index fields (if okd then idx else first) = Ret g) by (destruct okd; eauto). destruct Hf as [g Hg]. rewrite Hg. cbn [mbind outcome_bind].
  assert (Hin : g ∈ fields) by (unfold index in Hg; case_decide; [|done]; destruct (fields !! _) as [y|] eqn:Ey; [|done]; injection Hg as <-; by eapply list_elem_of_lookup_2).
  pose proof (ce_fields Henv _ _ _ g Hr Ei Hc Hin) as Hb. pose proof Hb as (Hb0 & [tb Htb] & _).
  destruct (DefaultArg_run typeRefs rank (ce_default Henv) fuel (FieldType g) (FieldDir g (arg_dir c)) n Hb0) as (x & n1 & Ex & [Hn Hxr [Hn1 Hn2] Hxd]); [eauto|by eapply (ce_fuel Henv)|].
  cbn [common]. rewrite Ex. cbn [mbind outcome_bind]. eexists _, _. split; [reflexivity|]. constructor; [lia| | |].
  - cbn [arg_ids MakeUnionArg make_common aid common arg_id]. split; [apply NoDup_cons; split; [intros Hx%Hn2; lia|done]|]. intros y [->|Hy%Hn2]%elem_of_cons; lia.
  - eexists _, _, _. split; [reflexivity|]. intros c' o' i' tc' fields' [Ea' _ _ _ _ _ _]. rewrite Ea in Ea'. injection Ea' as -> -> ->.
    rewrite (default_open_spec typeRefs rank (ce_default Henv) _ _ _ _ _ _ Hb0 Ex). by apply default_weight; [apply (ce_default Henv)|].
  - unfold defaultField in Ed. rewrite Hc in Ed. cbn [mbind outcome_bind] in Ed. apply bind_Ret in Ed as (lastf & El & Ed). apply Ret_inj in Ed.
    eexists _, x, _, g, tc, fields, first, lastf. split_and!; [reflexivity|cbn; by rewrite Ea|by rewrite Ea|done|done|done| |done|done|done].
    destruct (Condition lastf); by injection Ed as <- <-.
Qed.
Lemma default_unions_run l n : (∀ s, s ∈ l → ∃ c o i tc fields, stale_shape typeRefs s c o i tc fields) →
  ∃ news n', default_unions typeRefs fuel l n = Ret (Some (news, n')) ∧ n ≤ n' ∧ fst <$> news = l
  ∧ NoDup (roots_ids (snd <$> news)) ∧ (∀ x, x ∈ roots_ids (snd <$> news) → n ≤ x < n') ∧ ∀ s a, (s, a) ∈ news → ∃ k k', new_union s k a k'.
Proof.
  revert n. induction l as [|s l IH]; intros n Hl; cbn [default_unions].
  - exists [], n. split_and!; [done|lia|done|apply NoDup_nil_2|by intros ? ?%not_elem_of_nil|by intros ? ? ?%not_elem_of_nil].
  - destruct (Hl s) as (c & o & i & tc & fields & Hs); [by left|]. destruct (default_union_run s n _ _ _ _ _ Hs) as (a & n1 & -> & Ha). cbn [mbind outcome_bind].
    destruct (IH n1) as (news & n2 & -> & Hle & Hf & Hn & Hb & Hall); [intros x Hx; apply Hl; by right|]. cbn. exists ((s, a) :: news), n2. pose proof Ha as [A1 [A2 A3] _]. split_and!; [done|lia|cbn; by rewrite Hf| | |].
    + unfold roots_ids in *. cbn [fmap list_fmap concat snd]. apply NoDup_app. split_and!; [done| |done]. intros x Hx%A3 Hx2%Hb. lia.
    + unfold roots_ids in *. cbn [fmap list_fmap concat snd]. intros x [Hx%A3|Hx%Hb]%elem_of_app; lia.
    + intros s' a' [[= -> ->]|Hin]%elem_of_cons; [eauto|by apply Hall].
Qed.
Lemma roots_ids_disjoint (l : list Arg) i j a b x : NoDup (roots_ids l) → l !! i = Some a → l !! j = Some b → i ≠ j → x ∈ arg_ids a → x ∉ arg_ids b.
Proof.
  assert (Hin : ∀ (l : list Arg) i a, l !! i = Some a → x ∈ arg_ids a → x ∈ roots_ids l).
  { intros k i' a' Hk Hx. unfold roots_ids. apply list_elem_of_In, in_concat. exists (arg_ids a'). split; [|by apply list_elem_of_In]. apply list_elem_of_In, list_elem_of_fmap. exists a'. split; [done|]. by eapply list_elem_of_lookup_2. }
  revert i j. induction l as [|c l IH]; intros i j Hn Hi Hj Hne Ha Hb; [done|]. unfold roots_ids in Hn. cbn [fmap list_fmap concat] in Hn. apply NoDup_app in Hn as (N1 & N2 & N3).
  destruct i as [|i], j as [|j]; cbn in Hi, Hj; [done| | |].
  - injection Hi as <-. eapply N2; [exact Ha|by eapply (Hin l j b)].
  - injection Hj as <-. eapply N2; [exact Hb|by eapply (Hin l i a)].
  - by eapply (IH i j); [| | |congruence| |].
Qed.
Lemma replacements_elem news k new : replacements news !! k = Some new → ∃ i s, news !! i = Some (s, new) ∧ st_id s = k.
Proof. unfold replacements. intros H%elem_of_list_to_map_2. apply list_elem_of_fmap in H as ([s a] & [= -> ->] & [i Hi]%list_elem_of_lookup). eauto. Qed.
Lemma tail_ids a x : x ∈ tail (arg_ids a) → x ∈ arg_ids a.
Proof. rewrite arg_ids_children. by right. Qed.

(** Overwriting open unions makes the tree lighter. *)
Definition lighter (m : gmap argid Arg) (a : Arg) : Prop :=
  (∀ c o i t new, UnionArg c o i t ∈ arg_subs a → m !! arg_id c = Some new → t = true ∧ ∃ c' o' i', new = UnionArg c' o' i' false ∧ (W (open_unions o') < weigh (ref c))%nat) →
  (W (open_unions (patch_arg m a)) ≤ W (open_unions a))%nat
  ∧ ((∃ c o i t, UnionArg c o i t ∈ arg_subs a ∧ is_Some (m !! arg_id c)) → (W (open_unions (patch_arg m a)) < W (open_unions a))%nat).
Definition all_lighter (m : gmap argid Arg) (l : list Arg) : Prop :=
  (∀ c o i t new, UnionArg c o i t ∈ roots_subs l → m !! arg_id c = Some new → t = true ∧ ∃ c' o' i', new = UnionArg c' o' i' false ∧ (W (open_unions o') < weigh (ref c))%nat) →
  (W (roots_open (patch_arg m <$> l)) ≤ W (roots_open l))%nat
  ∧ ((∃ c o i t, UnionArg c o i t ∈ roots_subs l ∧ is_Some (m !! arg_id c)) → (W (roots_open (patch_arg m <$> l)) < W (roots_open l))%nat).
Lemma lighter_all m l : Forall (lighter m) l → all_lighter m l.
Proof.
  induction 1 as [|a l Ha Hl IH]; intros Hm; [split; [done|]; by intros (? & ? & ? & ? & ?%not_elem_of_nil & _)|].
  unfold roots_open. cbn [fmap list_fmap concat]. rewrite !weights_app. fold (roots_open l) (roots_open (patch_arg m <$> l)).
  destruct Ha as [A1 A2]; [intros c o i t new Hin; apply (Hm c o i t new), elem_of_app; by left|]. destruct IH as [B1 B2]; [intros c o i t new Hin; apply (Hm c o i t new), elem_of_app; by right|].
  split; [lia|]. intros (c & o & i & t & [Hin|Hin]%elem_of_app & Hs); [assert (W (open_unions (patch_arg m a)) < W (open_unions a))%nat by (apply A2; eauto 6)|assert (W (roots_open (patch_arg m <$> l)) < W (roots_open l))%nat by (apply B2; eauto 6)]; lia.
Qed.
Lemma patch_lighter m a : lighter m a.
Proof.
  induction a as [c v|c ad v r Hr|c d s|c l Hl|c o i t Ho|r] using Arg_nested_ind; unfold lighter; cbn [patch_arg open_unions arg_subs]; intros Hm.
  1,3,6: split; [done|]; intros (? & ? & ? & ? & [?|?%not_elem_of_nil]%elem_of_cons & _); done.
  - destruct r as [x|].
    + destruct Hr as [A1 A2]; [intros c' o' i' t' new Hin; apply (Hm c' o' i' t' new); by right|]. split; [done|]. intros (c' & o' & i' & t' & [?|Hin]%elem_of_cons & Hs); [done|]. apply A2. eauto 6.
    + split; [done|]. intros (c' & o' & i' & t' & [?|?%not_elem_of_nil]%elem_of_cons & Hs); done.
  - destruct (lighter_all m l Hl) as [A1 A2]; [intros c' o' i' t' new Hin; apply (Hm c' o' i' t' new); by right|]. split; [done|]. intros (c' & o' & i' & t' & [?|Hin]%elem_of_cons & Hs); [done|]. apply A2. eauto 6.
  - rewrite weights_app. destruct (m !! arg_id c) as [new|] eqn:E.
    + destruct (Hm c o i t new) as (-> & c' & o' & i' & -> & Hlt); [by left|done|]. cbn [with_id open_unions app]. assert (W [ref c] = weigh (ref c)) as -> by (cbn; lia). split; [lia|intros _; lia].
    + cbn [open_unions]. rewrite weights_app. destruct Ho as [A1 A2]; [intros c' o' i' t' new' Hin; apply (Hm c' o' i' t' new'); by right|]. split; [lia|].
      intros (c' & o' & i' & t' & [[= -> -> -> ->]|Hin]%elem_of_cons & Hs); [rewrite E in Hs; by destruct Hs|]. assert (W (open_unions (patch_arg m o)) < W (open_unions o))%nat by (apply A2; eauto 6). lia.
Qed.

(** One round, as what it does to the arguments. *)
Definition default_step (args args' : list Arg) : Prop :=
  ∃ l news, stale_round typeRefs any true args = Ret l ∧ l ≠ [] ∧ fst <$> news = l ∧ (∀ s a, (s, a) ∈ news → closed_default s a) ∧
    args' = patch_arg (replacements news) <$> args.
(** Distinct arguments, whose open unions have contents that can be dropped,
    and a heap that knows them and the objects [kept]. *)
Record patch_state (kept : list ResultArg) (s : patching) : Prop := {
  ps_ids : NoDup (roots_ids (pt_args s));
  ps_next : ∀ x, x ∈ roots_ids (pt_args s) → x < pt_next s;
  ps_open : ∀ c o i, UnionArg c o i true ∈ roots_subs (pt_args s) → free_tree typeRefs o;
  ps_heap : ∀ r, r ∈ roots_results (pt_args s) → pt_heap s !! rid r = Some r;
  ps_kept : ∀ r, r ∈ kept → rid r < pt_next s ∧ pt_heap s !! rid r = Some r
}.

Lemma add_objects_in l h r : NoDup (rid <$> l) → r ∈ l → add_objects l h !! rid r = Some r.
Proof.
  induction l as [|x l IH]; intros Hn Hr; [by apply not_elem_of_nil in Hr|]. cbn [fmap list_fmap] in Hn. apply NoDup_cons in Hn as [Hx Hn]. cbn [add_objects foldr].
  apply elem_of_cons in Hr as [->|Hr]; [apply lookup_insert_eq|]. rewrite lookup_insert_ne; [by apply IH|]. intros E. apply Hx. rewrite E. by apply list_elem_of_fmap_2.
Qed.
Lemma add_objects_out l h i : i ∉ rid <$> l → add_objects l h !! i = h !! i.
Proof.
  induction l as [|x l IH]; intros Hi; [done|]. cbn [fmap list_fmap] in Hi. apply not_elem_of_cons in Hi as [Hx Hi]. cbn [add_objects foldr]. rewrite lookup_insert_ne by done. by apply IH.
Qed.
Lemma closed_default_free s a k : scalars_sized typeRefs → (∃ c o i tc fields, stale_shape typeRefs s c o i tc fields) → closed_default s a → free_tree typeRefs (with_id k a).
Proof.
  intros Hsz (c1 & o1 & i1 & tc1 & fs1 & [Ea _ _ Hr Ei _ _]) (c & o & idx & field & tc & fields & first & lastf & -> & Href & _ & _ & _ & _ & _ & _ & _ & Hd).
  rewrite Ea in Href. cbn [with_id]. apply Forall_cons. split; [|by apply default_free]. eexists. split; [|done]. unfold TypeOf. cbn [common ref set_id]. rewrite Href. cbn [common]. by rewrite decide_False.
Qed.
(** Replacing unions whose contents can be dropped touches no object. *)
Lemma replace_unions_free l m h :
  (∀ s a, (s, a) ∈ l → (∃ c o i, st_arg s = UnionArg c o i (st_transient s) ∧ free_tree typeRefs o ∧ ∀ r, r ∈ arg_results o → h !! rid r = Some r)) →
  (∀ k s a, (s, a) ∈ l → (∃ c o i t, a = UnionArg c o i t) ∧ free_tree typeRefs (with_id k a) ∧ ∀ r, r ∈ arg_results a → h !! rid r = Some r) →
  (∀ k k' a, m !! k = Some a → (∃ c o i t, a = UnionArg c o i t) ∧ free_tree typeRefs (with_id k' a) ∧ ∀ r, r ∈ arg_results a → h !! rid r = Some r) →
  replace_unions typeRefs l m h = Ret h.
Proof.
  revert m. induction l as [|[s new] l IH]; intros m H1 H2 H3; [done|]. cbn [replace_unions]. destruct (H1 s new) as (c & o & i & -> & Hf & Hh); [by left|].
  rewrite removeArg_free; cycle 1.
  - apply free_tree_patch; [|done]. intros k a Hk. by apply (H3 k k a).
  - intros r [Hr|(k & a & Hk & Hr)]%patch_results; [by apply Hh| |intros k a Hk; by apply (H3 k k a)]. by apply (H3 k k a).
  - cbn [mbind outcome_bind]. apply IH; [intros; eapply H1; by right|intros; eapply H2; by right|]. intros k k' a. destruct (decide (st_id s = k)) as [<-|Hne].
    + rewrite lookup_insert_eq. intros [= <-]. apply (H2 k' s new). by left.
    + rewrite lookup_insert_ne by done. apply H3.
Qed.
Context (Horder : ∀ l, order l ≡ₚ l) (Hsized : scalars_sized typeRefs).

(** One round always succeeds, and takes weight off the arguments. *)
Lemma default_round_run kept l s : stale_round typeRefs any true (pt_args s) = Ret l → l ≠ [] → patch_state kept s →
  ∃ s', default_round typeRefs fuel order l s = Ret (Some s') ∧ patch_state kept s' ∧ default_step (pt_args s) (pt_args s')
    ∧ (W (roots_open (pt_args s')) < W (roots_open (pt_args s)))%nat.
Proof.
  intros Hround Hne [Hn Hlt Hopen Hheap Hkept]. pose proof Hround as Hround0. unfold stale_round in Hround. destruct (stale_args typeRefs any (pt_args s)) as [all|] eqn:Eall; [|done]. cbn [mbind outcome_bind] in Hround. injection Hround as Hl.
  assert (Hst : ∀ x, x ∈ l → st_transient x = true ∧ st_arg x ∈ roots_subs (pt_args s) ∧ ∃ c o i tc fields, stale_shape typeRefs x c o i tc fields).
  { intros x Hx. rewrite <-Hl in Hx. apply list_elem_of_filter in Hx as [Ht Hx]. split; [by destruct (st_transient x)|]. by eapply stale_args_elem. }
  destruct (default_unions_run l (pt_next s)) as (news & n' & E & Hle & Hf & Hnd & Hb & Hall); [intros x Hx; by apply Hst|]. unfold default_round. rewrite E. cbn [mbind outcome_bind].
  assert (Hnl : ∀ x a, (x, a) ∈ news → x ∈ l) by (intros x a Hx; rewrite <-Hf; by apply (list_elem_of_fmap_2 fst _ (x, a))).
  assert (Hclosed : ∀ x a, (x, a) ∈ news → closed_default x a) by (intros x a (k & k' & [_ _ _ ?])%Hall; done).
  set (h := add_objects (roots_results (snd <$> news)) (pt_heap s)).
  assert (Hnewh : ∀ x a r, (x, a) ∈ news → r ∈ arg_results a → h !! rid r = Some r).
  { intros x a r Hx Hr. unfold h. apply add_objects_in; [eapply sublist_NoDup; [exact Hnd|apply roots_results_ids]|]. apply elem_of_roots_results. exists a. split; [|done]. by apply (list_elem_of_fmap_2 snd _ (x, a)). }
  assert (Holdh : ∀ i, i < pt_next s → h !! i = pt_heap s !! i).
  { intros i Hi. unfold h. apply add_objects_out. intros Hr. assert (Hbi : i ∈ roots_ids (snd <$> news)) by (eapply elem_of_submseteq; [exact Hr|]; apply sublist_submseteq, roots_results_ids). apply Hb in Hbi. lia. }
  assert (Hresid : ∀ r, r ∈ roots_results (pt_args s) → rid r < pt_next s).
  { intros r Hr. apply Hlt. eapply elem_of_submseteq; [by apply list_elem_of_fmap_2|]. apply sublist_submseteq, roots_results_ids. }
  rewrite (replace_unions_free (order news) ∅ h); [|intros x a Hx; rewrite Horder in Hx|intros k x a Hx; rewrite Horder in Hx|intros k k' a Hk; by rewrite lookup_empty in Hk]; cycle 1.
  { destruct (Hst x (Hnl x a Hx)) as (Htr & Hsub & c & o & i & tc & fields & [Ea _ _ _ _ _ _]). exists c, o, i. split; [done|]. rewrite Ea, Htr in Hsub. split; [by eapply Hopen|].
    intros r Hr. assert (Hrr : r ∈ roots_results (pt_args s)) by (eapply roots_subs_results; [exact Hsub|done]). rewrite Holdh by (by apply Hresid). by apply Hheap. }
  { destruct (Hst x (Hnl x a Hx)) as (_ & _ & Hsh). pose proof (Hclosed x a Hx) as Hcl. split_and!; [|by eapply closed_default_free|by intros r; apply (Hnewh x)].
    destruct Hcl as (c & o & idx & _ & _ & _ & _ & _ & -> & _). eauto. }
  eexists. split; [reflexivity|]. cbn [pt_args pt_next]. set (m := replacements news).
  assert (Hm : ∀ k new, m !! k = Some new → ∃ i x, news !! i = Some (x, new) ∧ st_id x = k ∧ x ∈ l ∧ ∃ a b, new_union x a new b).
  { intros k new (i & x & Hi & Hk)%replacements_elem. exists i, x. split_and!; [done|done| |]; [rewrite <-Hf; apply list_elem_of_fmap; exists (x, new); split; [done|]; by eapply list_elem_of_lookup_2|]. eapply Hall. by eapply list_elem_of_lookup_2. }
  assert (Hunion : ∀ k new, m !! k = Some new → ∃ c o i, new = UnionArg c o i false) by (intros k new (i & x & _ & _ & _ & a & b & [_ _ (c & o & j & -> & _) _])%Hm; eauto).
  assert (Hat : ∀ k new, m !! k = Some new → ∃ i, (snd <$> news) !! i = Some new) by (intros k new (i & x & Hi & _)%Hm; exists i; by rewrite list_lookup_fmap, Hi).
  assert (Hfresh : ∀ k new, m !! k = Some new → NoDup (tail (arg_ids new)) ∧ ∀ x, x ∈ tail (arg_ids new) → pt_next s ≤ x < n').
  { intros k new Hk. split; [destruct (Hm k new Hk) as (_ & _ & _ & _ & _ & a & b & [_ [Hnn _] _ _]); rewrite arg_ids_children in Hnn |- *; by apply NoDup_cons in Hnn as [_ ?]|].
    intros x Hx%tail_ids. apply Hb. destruct (Hat k new Hk) as [i Hi]. unfold roots_ids. apply list_elem_of_In, in_concat. exists (arg_ids new). split; [|by apply list_elem_of_In]. apply list_elem_of_In, list_elem_of_fmap. exists new. split; [done|]. by eapply list_elem_of_lookup_2. }
  assert (Hnew : ∀ k new, m !! k = Some new → NoDup (tail (arg_ids new)) ∧ ∀ x, x ∈ tail (arg_ids new) → pt_next s ≤ x) by (intros k new [F1 F2]%Hfresh; split; [done|]; intros x Hx%F2; lia).
  assert (Hdis : ∀ k k' new new' x, k ≠ k' → m !! k = Some new → m !! k' = Some new' → x ∈ tail (arg_ids new) → x ∉ tail (arg_ids new')).
  { intros k k' new new' x Hkk Hk Hk' Hx%tail_ids Hx'%tail_ids. destruct (Hm k new Hk) as (i & y & Hi & Hy & _), (Hm k' new' Hk') as (j & z & Hj & Hz & _).
    assert (Hij : i ≠ j) by (intros ->; rewrite Hi in Hj; injection Hj as -> ->; congruence).
    apply (roots_ids_disjoint (snd <$> news) i j new new' x); [done| | |done|done|done]; rewrite list_lookup_fmap; [by rewrite Hi|by rewrite Hj]. }
  assert (Hmfree : ∀ k k' new, m !! k = Some new → free_tree typeRefs (with_id k' new)).
  { intros k k' new (i & x & Hi & _ & Hxl & _)%Hm. apply list_elem_of_lookup_2 in Hi. eapply closed_default_free; [done|by apply Hst|by apply Hclosed]. }
  split_and!.
  - constructor; cbn [pt_args pt_next pt_heap].
    + apply (roots_patch_NoDup m Hunion (pt_next s) Hnew Hdis); [|done|done]. apply Forall_forall. intros a _. by apply (patch_NoDup m Hunion (pt_next s)).
    + intros x [Hx%Hlt|(k & new & _ & Hk & Hx)]%(roots_patch_elem m Hunion); [lia|]. by apply (Hfresh k new Hk).
    + apply (patch_open typeRefs m); [done|done|]. intros k new Hk. by apply (Hmfree k k).
    + intros r (x & (a & -> & Ha)%list_elem_of_fmap & Hr)%elem_of_roots_results. apply patch_results in Hr as [Hr|(k & new & Hk & Hr)]; [| |intros k new (c & o & i & ->)%Hunion; eauto].
      * assert (Hrr : r ∈ roots_results (pt_args s)) by (apply elem_of_roots_results; eauto). rewrite Holdh by (by apply Hresid). by apply Hheap.
      * destruct (Hm k new Hk) as (i & x & Hi & _). apply (Hnewh x new); [by eapply list_elem_of_lookup_2|done].
    + intros r Hr. destruct (Hkept r Hr) as [H1 H2]. split; [lia|]. by rewrite Holdh.
  - by exists l, news.
  - destruct (lighter_all m (pt_args s)) as [_ Hs].
    + apply Forall_forall. intros a _. apply patch_lighter.
    + intros c o i t new Hin Hk. destruct (Hm _ _ Hk) as (j & x & Hj & Hid & Hxl & a & b & [_ _ (c' & o' & i' & -> & Hw) _]). destruct (Hst x Hxl) as (Htr & Hxin & c1 & o1 & i1 & tc & fields & Hsh).
      pose proof Hsh as [Ea Eid _ _ _ _ _]. rewrite Ea, Htr in Hxin. assert (Heq : UnionArg c o i t = UnionArg c1 o1 i1 true) by (eapply subargs_inj; [exact Hn|done|done|]; change (arg_id c = arg_id c1); congruence).
      injection Heq as -> -> -> ->. split; [done|]. exists c', o', i'. split; [done|]. by eapply Hw.
    + apply Hs. destruct l as [|x l]; [done|]. destruct (Hst x) as (Htr & Hxin & c1 & o1 & i1 & tc & fields & Hsh); [by left|]. pose proof Hsh as [Ea Eid _ _ _ _ _]. rewrite Ea in Hxin.
      exists c1, o1, i1, (st_transient x). split; [done|]. unfold m, replacements. apply elem_of_dom. rewrite dom_list_to_map_L. apply elem_of_list_to_set, list_elem_of_fmap.
      assert (Hx : x ∈ fst <$> news) by (rewrite Hf; by left). apply list_elem_of_fmap in Hx as ([y a] & -> & Hy). exists (st_id y, a). split; [cbn; by rewrite <-Eid|]. apply list_elem_of_fmap. by exists (y, a).
Qed.

Lemma default_loop_ends kept rounds s b : patch_state kept s → (W (roots_open (pt_args s)) < rounds)%nat →
  (∃ args, rtc default_step (pt_args s) args ∧ stale_round typeRefs any true args = Panic ∧ default_loop typeRefs any fuel order rounds true s b = Panic)
  ∨ ∃ s' b', default_loop typeRefs any fuel order rounds true s b = Ret (Some (s', b')) ∧ patch_state kept s' ∧ stale_round typeRefs any true (pt_args s') = Ret []
    ∧ (b' = b ∧ s' = s ∨ b' = true ∧ tc default_step (pt_args s) (pt_args s')).
Proof.
  revert s b. induction rounds as [|rounds IH]; intros s b Hs Hw; [lia|]. cbn [default_loop]. destruct (stale_round typeRefs any true (pt_args s)) as [l|] eqn:El.
  2:{ left. exists (pt_args s). split_and!; [done|done|done]. }
  cbn [mbind outcome_bind]. case_decide as Hl; [right; exists s, b; split_and!; [done|done|by rewrite El, Hl|by left]|].
  destruct (default_round_run kept l s El Hl Hs) as (s1 & -> & H1 & H2 & H3). cbn [mbind outcome_bind].
  destruct (IH s1 true H1) as [(args & Ha & Hp & ->)|(s' & b' & -> & Hs' & Hr & Hb)]; [lia|left; exists args; split_and!; [by eapply rtc_l|done|done]|].
  right. exists s', b'. split_and!; [done|done|done|]. right. destruct Hb as [[-> ->]|[-> Hb]]; (split; [done|]); [by apply tc_once|by eapply tc_l].
Qed.
End ends.

(** The roots of a program around one of its calls. *)
Lemma calls_roots_split l i c : l !! i = Some (Some c) → calls_roots l = calls_roots (take i l) ++ call_roots c ++ calls_roots (drop (S i) l).
Proof. intros H. rewrite <-(take_drop_middle l i (Some c) H) at 1. rewrite calls_roots_app. done. Qed.
Lemma call_args_sublist p i c : Calls p !! i = Some (Some c) → roots_ids (Args c) `sublist_of` prog_ids p.
Proof.
  intros H. unfold prog_ids. rewrite (calls_roots_split _ _ _ H), !roots_ids_app. apply sublist_inserts_l, sublist_inserts_r. unfold call_roots. rewrite roots_ids_app. apply sublist_inserts_l. done.
Qed.

(** A heap that knows all results of the calls changes nothing. *)
Lemma refresh_known h l : (∀ r, r ∈ roots_results (calls_roots l) → h !! rid r = Some r) → refresh_calls h l = l.
Proof.
  intros H. unfold refresh_calls. rewrite (map_calls_results_ext _ (λ r, r)); [apply map_calls_results_id|]. intros r Hr. unfold current. by rewrite H.
Qed.
Lemma with_args_results l i c args r : l !! i = Some (Some c) → r ∈ roots_results (calls_roots (<[i := Some (with_args c args)]> l)) →
  r ∈ roots_results args ∨ r ∈ roots_results (calls_roots l).
Proof.
  intros Hi. rewrite !elem_of_roots_results. intros (a & (c' & Hc & Ha)%elem_of_calls_roots & Hr). apply list_elem_of_lookup in Hc as [j Hj].
  destruct (decide (i = j)) as [<-|Hne].
  - rewrite list_lookup_insert_eq in Hj by (by eapply lookup_lt_Some). injection Hj as <-. unfold call_roots, with_args in Ha. cbn [CRet Args] in Ha. apply elem_of_app in Ha as [Ha|Ha]; [right|left; eauto].
    exists a. split; [|done]. apply elem_of_calls_roots. exists c. split; [by eapply list_elem_of_lookup_2|]. apply elem_of_app. by left.
  - rewrite list_lookup_insert_ne in Hj by done. right. exists a. split; [|done]. apply elem_of_calls_roots. exists c'. split; [by eapply list_elem_of_lookup_2|done].
Qed.
Lemma patch_start typeRefs p i c : scalars_sized typeRefs → NoDup (prog_ids p) → Calls p !! i = Some (Some c) →
  (∀ k o ix, UnionArg k o ix true ∈ roots_subs (Args c) → isDefaultArg typeRefs o = Ret true) →
  patch_state typeRefs (prog_results p) (mkPatching (Args c) (objects p) (fresh_id p)).
Proof.
  intros Hsz Hids Hc Hopen. assert (Hsub : roots_ids (Args c) `sublist_of` prog_ids p) by by eapply call_args_sublist.
  assert (Hobj : ∀ r, r ∈ prog_results p → objects p !! rid r = Some r).
  { intros r Hr. unfold objects. apply elem_of_list_to_map_1; [|by apply (list_elem_of_fmap_2 (λ r, (rid r, r)))]. rewrite <-list_fmap_compose. eapply sublist_NoDup; [exact Hids|apply roots_results_ids]. }
  constructor; cbn [pt_args pt_heap pt_next].
  - by eapply sublist_NoDup.
  - intros x Hx. apply fresh_id_gt. eapply elem_of_submseteq; [exact Hx|]. by apply sublist_submseteq.
  - intros k o ix Hin. apply default_free; [done|]. by eapply Hopen.
  - intros r Hr. apply Hobj. unfold prog_results. rewrite (calls_roots_split _ _ _ Hc), !roots_results_app, !elem_of_app. right. left. unfold call_roots. rewrite roots_results_app, elem_of_app. by right.
  - intros r Hr. split; [by apply fresh_id_gt, result_id|by apply Hobj].
Qed.

(** C6: Open unions get their fields.  For types whose default arguments are
    finite, also those of the fields of unions with conditions, and whose
    scalars have a size, and a call whose open unions hold default contents,
    setDefaultConditions ends after fewer rounds than the weight of the call,
    whatever the order of the map.  Either the search for stale unions panics in
    a state that rounds lead to (a condition that cannot be evaluated), and
    nothing else can panic; or the program is the old one with new arguments of
    the call, which full rounds lead to: each replaces every stale open union by
    a closed one with the default argument of its last field, if that has no
    condition, and of the first field whose condition holds otherwise.  In the
    end no stale open union is left, the arguments are distinct, and the result
    says whether anything was replaced. *)
Theorem setDefaultConditions_ends (typeRefs : list Typ) (any : AnyTypes) (rank : Ref → nat) (fuel : nat) (order : list (stale_union * Arg) → list (stale_union * Arg))
    (rounds : nat) (p : Prog) (i : nat) (c : Call) (Henv : cond_env typeRefs rank fuel) (Hsized : scalars_sized typeRefs) (Horder : ∀ l, order l ≡ₚ l)
    (Hids : NoDup (prog_ids p)) (Hc : Calls p !! i = Some (Some c))
    (Hopen : ∀ k o ix, UnionArg k o ix true ∈ roots_subs (Args c) → isDefaultArg typeRefs o = Ret true)
    (Hrounds : (open_weight typeRefs rank fuel (roots_open (Args c)) < rounds)%nat) :
  let result := setDefaultConditions typeRefs any fuel order rounds true p i in
  let step := default_step typeRefs any in
  (∃ args, rtc step (Args c) args ∧ stale_round typeRefs any true args = Panic ∧ result = Panic)
  ∨ ∃ args b, result = Ret (Some (set_calls p (<[i := Some (with_args c args)]> (Calls p)), b))
    ∧ (b = false ∧ args = Args c ∨ b = true ∧ tc step (Args c) args)
    ∧ stale_round typeRefs any true args = Ret [] ∧ NoDup (roots_ids args).
Proof.
  cbv zeta. unfold setDefaultConditions. rewrite Hc. pose proof (patch_start typeRefs p i c Hsized Hids Hc Hopen) as Hst.
  destruct (default_loop_ends typeRefs any rank fuel order Henv Horder Hsized (prog_results p) rounds _ false Hst Hrounds) as [(args & H1 & H2 & ->)|(s & b & -> & Hs & H1 & H2)].
  - left. by exists args.
  - right. exists (pt_args s), b. cbn [mbind outcome_bind]. split_and!; [|destruct H2 as [[-> ->]|?]; [by left|by right]|done|apply Hs].
    rewrite refresh_known; [done|]. intros r [Hr|Hr]%with_args_results; [by apply (ps_heap _ _ _ Hs)|by apply (ps_kept _ _ _ Hs)|done].
Qed.

(** ** Example: a union within a union, both with conditions that no longer hold *)

Definition ux_is (v : Z) (op : BinaryOperator) : option Expression := Some (BinaryExpression op (Value 0 ["s"; "flag"]%string) (Value v [])).
Definition ux_field (name : string) (r : Ref) (op : BinaryOperator) : Field := mkField name r false DirIn (ux_is 1 op).
Definition ux_types : list Typ :=
  [ VmaType (sx_common "vma" 8 false 0) 0 0;
    IntType (sx_int "int32" 1) IntPlain 0 0 0;
    ResourceType (sx_common "fd" 4 false 2) FormatNative (mkResourceDesc "fd" ["fd"%string] [2 ^ 64 - 1]);
    UnionType (sx_common "outer" 4 false 3) [ux_field "a" 4 OperatorCompareEq; ux_field "b" 1 OperatorCompareNeq];
    UnionType (sx_common "inner" 4 false 4) [ux_field "x" 2 OperatorCompareEq; ux_field "y" 1 OperatorCompareNeq];
    StructType (sx_common "s" 8 false 5) [sx_field "flag" 1; sx_field "u" 3] 0 0;
    PtrType (sx_common "ptr" 8 false 6) 5 DirIn false ].
Definition ux_fd (id : argid) (d : Dir) (res : option argid) (u : list argid) : ResultArg := mkResultArg (mkArgCommon id 2 d) res 0 0 0 (list_to_set u).
(** [r = open(); f(&{flag, @a=@x=r})]; the conditions ask for [flag = 1]. *)
Definition ux_call (flag : Z) (transient : bool) (x : ResultArg) : Call :=
  mkCall (Some (gx_call 1 "f" [6] None))
    [ PointerArg (sx_arg 20 6) 0 0 (Some (GroupArg (sx_arg 21 5) [ConstArg (sx_arg 22 1) flag;
        UnionArg (sx_arg 23 3) (UnionArg (sx_arg 24 4) (AResult x) 0 transient) 0 transient])) ] None noProps "".
Definition ux_prog (flag : Z) (transient : bool) (x : ResultArg) : Prog :=
  mkProg [ Some (mkCall (Some (gx_call 0 "open" [] (Some 2))) [] (Some (ux_fd 10 DirOut None (match res_Res x with Some _ => [rid x] | None => [] end))) noProps "");
           Some (ux_call flag transient x) ] [] false.
Definition ux_used : ResultArg := ux_fd 25 DirIn (Some 10) [].
Definition ux_set (order : list (stale_union * Arg) → list (stale_union * Arg)) (transientOnly : bool) (p : Prog) : outcome (option (Prog * bool)) :=
  setDefaultConditions ux_types (mkAnyTypes 90 91 92) 4 order 5 transientOnly p 1.
(** Whether the unions are replaced depends on the order of the map: when the
    outer one comes first, the reference in the inner one is removed twice. *)
Lemma nested_stale_panics : graph_okb (ux_prog 0 false ux_used) = true
  ∧ ux_set (λ l, l) false (ux_prog 0 false ux_used) = Panic
  ∧ match ux_set (@reverse _) false (ux_prog 0 false ux_used) with Ret (Some (q, b)) => graph_okb q && b | _ => false end = true.
Proof. split_and!; vm_compute; reflexivity. Qed.
Definition ux_rank (r : Ref) : nat := if decide (r = 6) then 4 else if decide (r = 5) then 3 else if decide (r = 3) then 2 else if decide (r = 4) then 1 else 0.
Lemma ux_index r t : r ≠ 0 → index ux_types r = Ret t → r ∈ [1; 2; 3; 4; 5; 6].
Proof.
  unfold index. intros Hr. case_decide; [|done]. destruct (ux_types !! Z.to_nat r) as [x|] eqn:Ex; [|done]. intros _.
  apply lookup_lt_Some in Ex. cbn in Ex. assert (r = 1 ∨ r = 2 ∨ r = 3 ∨ r = 4 ∨ r = 5 ∨ r = 6) by lia. set_solver.
Qed.
Lemma ux_below i j : j ∈ [1; 2; 3; 4; 5; 6] → (ux_rank j < ux_rank i)%nat → below ux_types ux_rank i j.
Proof. intros Hj Hlt. repeat (apply elem_of_cons in Hj as [->|Hj]; [split_and!; [done|by eexists|done]|]). by apply not_elem_of_nil in Hj. Qed.
Ltac ux_cases H := repeat (apply elem_of_cons in H as [->|H]); [..|by apply not_elem_of_nil in H].
Lemma ux_env : cond_env ux_types ux_rank 5.
Proof.
  constructor.
  - intros r t Hr Et. pose proof (ux_index r t Hr Et) as Hin. ux_cases Hin; injection Et as <-; (split; [done|]); try done.
    + by eexists.
    + eexists 0, false, _. split_and!; [reflexivity|reflexivity|]. apply ux_below; [set_solver|vm_compute; lia].
    + eexists 0, false, _. split_and!; [reflexivity|reflexivity|]. apply ux_below; [set_solver|vm_compute; lia].
    + intros f Hf. ux_cases Hf; apply ux_below; [set_solver|vm_compute; lia|set_solver|vm_compute; lia].
    + intros _. apply ux_below; [set_solver|vm_compute; lia].
  - intros r tc fields f Hr Et _ Hf. pose proof (ux_index r _ Hr Et) as Hin. ux_cases Hin; try discriminate Et; injection Et as <- <-; ux_cases Hf; (apply ux_below; [set_solver|vm_compute; lia]).
  - intros r t Hr Et. pose proof (ux_index r t Hr Et) as Hin. ux_cases Hin; vm_compute; lia.
Qed.
Definition ux_free : ResultArg := mkResultArg (mkArgCommon 25 2 DirIn) None 0 0 (2 ^ 64 - 1) ∅.
Definition ux_open : Prog := ux_prog 0 true ux_free.
Lemma ux_sized : scalars_sized ux_types.
Proof.
  intros r t Et. unfold index in Et. case_decide; [|done]. destruct (ux_types !! Z.to_nat r) as [x|] eqn:Ex; [|done]. injection Et as ->. apply list_elem_of_lookup_2 in Ex.
  ux_cases Ex; by vm_compute.
Qed.
Lemma ux_contents k o ix : UnionArg k o ix true ∈ roots_subs (Args (ux_call 0 true ux_free)) → isDefaultArg ux_types o = Ret true.
Proof.
  intros H. cbn [ux_call Args roots_subs fmap list_fmap concat arg_subs app] in H. rewrite !elem_of_cons in H.
  destruct H as [H|[H|[H|[H|[H|[H|H]]]]]]; try discriminate H; [..|by apply not_elem_of_nil in H]; injection H as -> -> ->; vm_compute; reflexivity.
Qed.
Lemma setDefaultConditions_witness :
  ∃ q args, setDefaultConditions ux_types (mkAnyTypes 90 91 92) 5 (λ l, l) 13 true ux_open 1 = Ret (Some (q, true)) ∧ graph_okb q = true
    ∧ (roots_open <$> (Args <$> omap (λ c, c) (Calls q))) = [[]; []] ∧ tc (default_step ux_types (mkAnyTypes 90 91 92)) (Args (ux_call 0 true ux_free)) args
    ∧ stale_round ux_types (mkAnyTypes 90 91 92) true args = Ret [].
Proof.
  assert (E : match setDefaultConditions ux_types (mkAnyTypes 90 91 92) 5 (λ l, l) 13 true ux_open 1 with
    | Ret (Some (q, b)) => (b, graph_okb q, roots_open <$> (Args <$> omap (λ c, c) (Calls q))) | _ => (false, false, []) end = (true, true, [[]; []])) by (vm_compute; reflexivity).
  destruct (setDefaultConditions_ends ux_types (mkAnyTypes 90 91 92) ux_rank 5 (λ l, l) 13 ux_open 1 (ux_call 0 true ux_free) ux_env ux_sized)
    as [(args & _ & _ & H)|(args & b & H & Hb & Hend & _)].
  - done.
  - apply (go_ids _ (graph_okb_spec ux_open ltac:(vm_compute; reflexivity))).
  - reflexivity.
  - exact ux_contents.
  - vm_compute. lia.
  - rewrite H in E. discriminate E.
  - rewrite H in E. apply pair_equal_spec in E as [[E1 E2]%pair_equal_spec E3]. destruct Hb as [[-> _]|[-> Hb]]; [discriminate E1|]. eexists _, args. split_and!; [exact H|exact E2|exact E3|exact Hb|exact Hend].
Defined.
