(* ===== verification/ValidRename.v ===== *)
(** * Validation does not depend on identities

    A program whose arguments are renamed one to one, as by cloning or by
    printing and parsing, is accepted by validation when the original is. *)

From S2P Require Import Prelude GoStrings Prog ForeachArg ArgGraph RemoveCall Collide MinimizeCalls Sizes Conditions Defaults Validation.

Lemma set_map_empty_inv (f : argid → argid) (X : gset argid) : set_map (D := gset argid) f X = ∅ → X = ∅.
Proof. intros H. apply set_eq. intros x. split; [|by intros ?%not_elem_of_empty]. intros Hx. assert (Hf : f x ∈ set_map (D := gset argid) f X) by by apply elem_of_map_2. by rewrite H in Hf. Qed.

Section renaming.
Context (target : Target) (typeRefs : list Typ) (any : AnyTypes) (unsafe ignoreTransient : bool) (mem mem' : heap).
(** [f] is one to one on the identities [D] of the program, and [mem'] holds its
    renamed objects. *)
Context (f : argid → argid) (D : argid → Prop) (Hinj : ∀ x y, D x → D y → f x = f y → x = y).
Context (Hmem : ∀ x o, D x → mem !! x = Some o → mem' !! f x = Some (rename_result f o)).
Local Abbreviation copy := (copy_arg f (rename_result f)).

Definition links_in (r : ResultArg) : Prop := (∀ u, u ∈ uses r → D u) ∧ ∀ x, res_Res r = Some x → D x.
Definition inside (a : Arg) : Prop := (∀ i, i ∈ arg_ids a → D i) ∧ ∀ r, r ∈ arg_results a → links_in r.
Lemma inside_children a x : inside a → x ∈ children a → inside x.
Proof.
  intros [H1 H2] Hx. split.
  - intros i Hi. apply H1. rewrite arg_ids_children. right. unfold roots_ids. apply elem_of_concat. exists (arg_ids x). split; [done|]. apply list_elem_of_fmap. eauto.
  - intros r Hr. apply H2. rewrite arg_results_children by (by destruct a; [..|by apply not_elem_of_nil in Hx]). unfold roots_results. apply elem_of_concat. exists (arg_results x). split; [done|]. apply list_elem_of_fmap. eauto.
Qed.
Record same_ctx (ctx ctx' : validCtx) : Prop := {
  sc_args : vc_args ctx' = set_map f (vc_args ctx);
  sc_uses : dom (vc_uses ctx') = set_map f (dom (vc_uses ctx));
  sc_in : ∀ x, x ∈ vc_args ctx → D x
}.
Lemma copy_aid a : aid (copy a) = f (aid a).
Proof. by destruct a. Qed.
Lemma copy_TypeOf a : TypeOf typeRefs (copy a) = TypeOf typeRefs a.
Proof. by destruct a. Qed.
Lemma copy_size a : ArgSize typeRefs (copy a) = ArgSize typeRefs a.
Proof. rewrite <-ArgSize_shape, shape_copy by done. apply ArgSize_shape. Qed.
Lemma rid_renamed r : rid (rename_result f r) = f (rid r).
Proof. done. Qed.

Lemma enter_copy noSquash a typ dir ctx ctx' t d ctx1 : D (aid a) → same_ctx ctx ctx' → enter_arg typeRefs any noSquash a typ dir ctx = Ret (inr (t, d, ctx1)) →
  ∃ ctx1', enter_arg typeRefs any noSquash (copy a) typ dir ctx' = Ret (inr (t, d, ctx1')) ∧ same_ctx ctx1 ctx1' ∧ TypeOf typeRefs a = Ret t.
Proof.
  intros Ha [A1 A2 A3] E. unfold enter_arg in *. inv_check E. injection E as <- <- <-. apply lift_inr in E0, E1. apply negb_true_iff, bool_decide_eq_false in Eb.
  eexists. split_and!; [| |done].
  - rewrite copy_aid, A1, bool_decide_eq_false_2 by (intros (y & Hy & Hin)%elem_of_map; apply Eb; assert (aid a = y) as -> by (apply Hinj; [done|by apply A3|done]); done). cbn [negb]. rewrite copy_TypeOf, E0. cbn [lift check_bind]. rewrite E1. cbn [lift check_bind].
    assert (Hd : ADir (copy a) = ADir a) by by destruct a. assert (Hr : ref (common (copy a)) = ref (common a)) by by destruct a. rewrite Hd, Hr, Eb0, Eb1, Eb2. reflexivity.
  - constructor; cbn [vc_args vc_uses]; [by rewrite set_map_union_L, set_map_singleton_L|done|]. intros x [->%elem_of_singleton|Hx]%elem_of_union; [done|by apply A3].
Qed.
Lemma uses_inv i l : ∀ us us1, validate_uses mem i l us = Ret (inr us1) →
  dom us1 = list_to_set l ∪ dom us ∧ ∀ u, u ∈ l → ∃ o, mem !! u = Some o ∧ res_Res o = Some i.
Proof.
  induction l as [|u l IH]; intros us us1 E; cbn [validate_uses] in E; inv_check E.
  - subst. split; [set_solver|by intros ? ?%not_elem_of_nil].
  - apply lift_inr in E0. unfold object in E0. destruct (mem !! u) as [o|] eqn:Eo; [|done]. injection E0 as ->. apply bool_decide_eq_true in Eb.
    destruct (IH (<[u := i]> us) us1 E) as [H1 H2].
    split; [rewrite H1, dom_insert_L; cbn; set_solver|]. intros x [->|Hx]%elem_of_cons; [eauto|by apply H2].
Qed.
Lemma uses_run i l us : (∀ u, u ∈ l → ∃ o, mem' !! u = Some o ∧ res_Res o = Some i) → ∃ us1, validate_uses mem' i l us = Ret (inr us1) ∧ dom us1 = list_to_set l ∪ dom us.
Proof.
  revert us. induction l as [|u l IH]; intros us Hl; cbn [validate_uses]; [exists us; split; [done|set_solver]|].
  destruct (Hl u) as (o & Ho & Er); [by left|]. unfold object. rewrite Ho. cbn [lift check_bind]. rewrite bool_decide_eq_true_2 by done.
  destruct (IH (<[u := i]> us)) as (us1 & E & Hd); [intros x Hx; apply Hl; by right|]. exists us1. split; [done|]. rewrite Hd, dom_insert_L. cbn. set_solver.
Qed.
Lemma result_copy r t ctx ctx1 ctx' : D (rid r) → links_in r → same_ctx ctx ctx' → validate_result typeRefs mem r t ctx = Ret (inr ctx1) →
  ∃ ctx1', validate_result typeRefs mem' (rename_result f r) t ctx' = Ret (inr ctx1') ∧ same_ctx ctx1 ctx1'.
Proof.
  intros Hr [Hu Hx] [A1 A2 A3] E. unfold validate_result in *. destruct t as [tc af d| | | | | | | | | | | |]; try done. inv_check E. subst ctx1.
  assert (Hl : ∀ u, u ∈ elements (uses r) → D u) by (intros u Hin%elem_of_elements; by apply Hu).
  destruct (uses_inv _ _ _ _ E0) as [Hdom Hall].
  destruct (uses_run (rid (rename_result f r)) (elements (uses (rename_result f r))) (vc_uses ctx')) as (us & Eus & Hus).
  { intros u Hin%elem_of_elements. cbn [rename_result uses] in Hin. apply elem_of_map in Hin as (y & -> & Hy). destruct (Hall y) as (o & Ho & Eo); [by apply elem_of_elements|].
    exists (rename_result f o). split; [apply Hmem; [by apply Hu|done]|]. cbn [rename_result res_Res]. by rewrite Eo. }
  rewrite Eus. cbn [check_bind]. change (res_Val (rename_result f r)) with (res_Val r). change (arg_dir (res_common (rename_result f r))) with (arg_dir (res_common r)).
  rewrite E1. cbn [check_bind]. rewrite Eb. rewrite rid_renamed.
  assert (Hlink : match res_Res (rename_result f r) with
    | Some x => guard! bool_decide (x ∈ vc_args ctx') else OutOfTreeResult; o ⇠ lift (object mem' x); guard! bool_decide (f (rid r) ∈ uses o) else BrokenLink; pass ()
    | None => pass () end = pass ()).
  { cbn [rename_result res_Res]. destruct (res_Res r) as [x|] eqn:Ex; [|done]. cbn [fmap option_fmap option_map]. inv_check E2. apply bool_decide_eq_true in Eb2, Eb3. apply lift_inr in E. unfold object in E |- *.
    destruct (mem !! x) as [o|] eqn:Eo; [|done]. injection E as ->. rewrite bool_decide_eq_true_2 by (rewrite A1; by apply elem_of_map_2). rewrite (Hmem x a3) by (by try apply Hx). cbn [lift check_bind rename_result uses].
    rewrite bool_decide_eq_true_2 by (by apply elem_of_map_2). done. }
  rewrite Hlink. cbn [pass check_bind].
  assert (Hemp : uses (rename_result f r) ≠ ∅ ↔ uses r ≠ ∅) by (cbn [rename_result uses]; split; intros H H'; apply H; [by rewrite H', set_map_empty|by eapply set_map_empty_inv]).
  rewrite (bool_decide_ext _ _ Hemp), Eb0. destruct (decide (uses r ≠ ∅)) as [Hne|Hne].
  - rewrite decide_True by (by apply Hemp). change (ArgSize typeRefs (AResult (rename_result f r))) with (ArgSize typeRefs (AResult r)). rewrite E3. cbn [check_bind]. rewrite Eb1. eexists. split; [reflexivity|].
    constructor; cbn [vc_args vc_uses]; [done| |done]. rewrite Hus, Hdom, A2, set_map_union_L. f_equal. cbn [rename_result uses]. rewrite !list_to_set_elements_L. done.
  - rewrite decide_False by (by rewrite Hemp). rewrite E3. cbn [check_bind]. rewrite Eb1. eexists. split; [reflexivity|].
    constructor; cbn [vc_args vc_uses]; [done| |done]. rewrite Hus, Hdom, A2, set_map_union_L. f_equal. cbn [rename_result uses]. rewrite !list_to_set_elements_L. done.
Qed.
Local Abbreviation vArg := (validateArg target typeRefs any unsafe ignoreTransient).
Definition copy_valid (noSquash : bool) (a : Arg) : Prop := inside a → ∀ typ dir ctx ctx1 ctx', same_ctx ctx ctx' → vArg mem noSquash a typ dir ctx = Ret (inr ctx1) →
  ∃ ctx1', vArg mem' noSquash (copy a) typ dir ctx' = Ret (inr ctx1') ∧ same_ctx ctx1 ctx1'.
Lemma fields_copy noSquash dir l : Forall (copy_valid noSquash) l → (∀ x, x ∈ l → inside x) → ∀ fields ctx ctx1 ctx', same_ctx ctx ctx' →
  (fix go (l : list Arg) (fields : list Field) (ctx : validCtx) : check validCtx :=
     match l, fields with x :: l, f :: fields => ctx ⇠ vArg mem noSquash x (FieldType f) (FieldDir f dir) ctx; go l fields ctx | _, _ => pass ctx end) l fields ctx = Ret (inr ctx1) →
  ∃ ctx1', (fix go (l : list Arg) (fields : list Field) (ctx : validCtx) : check validCtx :=
     match l, fields with x :: l, f :: fields => ctx ⇠ vArg mem' noSquash x (FieldType f) (FieldDir f dir) ctx; go l fields ctx | _, _ => pass ctx end) (copy <$> l) fields ctx' = Ret (inr ctx1') ∧ same_ctx ctx1 ctx1'.
Proof.
  induction 1 as [|x l Hx Hl IH]; intros Hin fields ctx ctx1 ctx' Hc E; [apply pass_inr in E as <-; by exists ctx'|]. destruct fields as [|g fields]; [apply pass_inr in E as <-; by exists ctx'|].
  apply check_bind_inr in E as (c1 & E1 & E2). destruct (Hx (Hin x ltac:(by left)) _ _ _ _ _ Hc E1) as (c1' & E1' & Hc1). cbn [fmap list_fmap]. cbv fix match beta. rewrite E1'. cbn [check_bind].
  eapply (IH (λ y Hy, Hin y (proj2 (elem_of_cons _ _ _) (or_intror Hy)))); [exact Hc1|exact E2].
Qed.
Lemma elems_copy noSquash dir e l : Forall (copy_valid noSquash) l → (∀ x, x ∈ l → inside x) → ∀ ctx ctx1 ctx', same_ctx ctx ctx' →
  (fix go (l : list Arg) (ctx : validCtx) : check validCtx := match l with x :: l => ctx ⇠ vArg mem noSquash x e dir ctx; go l ctx | [] => pass ctx end) l ctx = Ret (inr ctx1) →
  ∃ ctx1', (fix go (l : list Arg) (ctx : validCtx) : check validCtx := match l with x :: l => ctx ⇠ vArg mem' noSquash x e dir ctx; go l ctx | [] => pass ctx end) (copy <$> l) ctx' = Ret (inr ctx1') ∧ same_ctx ctx1 ctx1'.
Proof.
  induction 1 as [|x l Hx Hl IH]; intros Hin ctx ctx1 ctx' Hc E; [apply pass_inr in E as <-; by exists ctx'|].
  apply check_bind_inr in E as (c1 & E1 & E2). destruct (Hx (Hin x ltac:(by left)) _ _ _ _ _ Hc E1) as (c1' & E1' & Hc1). cbn [fmap list_fmap]. cbv fix match beta. rewrite E1'. cbn [check_bind].
  eapply (IH (λ y Hy, Hin y (proj2 (elem_of_cons _ _ _) (or_intror Hy)))); [exact Hc1|exact E2].
Qed.
Lemma address_copy addr vma res : validate_address target typeRefs unsafe addr vma (copy <$> res) = validate_address target typeRefs unsafe addr vma res.
Proof.
  unfold validate_address. assert (H : IsSpecial addr vma (copy <$> res) = IsSpecial addr vma res) by by destruct res. rewrite H. destruct res as [r|]; [|done]. cbn [fmap option_fmap option_map]. by rewrite copy_size.
Qed.
Lemma validateArg_copy noSquash a : copy_valid noSquash a.
Proof.
  induction a as [c v|c ad v r Hr|c d s|c l Hl|c o i t Ho|r] using Arg_nested_ind; intros Hin typ dir ctx ctx1 ctx' Hc E; cbn [validateArg] in E; apply check_bind_inr in E as ([[ty d1] c1] & En & E);
    (match type of En with enter_arg _ _ _ ?a _ _ _ = _ => destruct (enter_copy noSquash a typ dir ctx ctx' ty d1 c1) as (c1' & En' & Hc1 & Et); [apply Hin; rewrite arg_ids_children; by left|done|done|] end);
    cbn [copy_arg validateArg]; cbn [copy_arg] in En'; rewrite En'; cbn [check_bind].
  - apply check_bind_inr in E as (u & E1 & E2). apply pass_inr in E2 as <-. change (validate_const (rename_common f c) v ty) with (validate_const c v ty). rewrite E1. eexists. split; [reflexivity|done].
  - apply check_bind_inr in E as (c2 & E1 & E2). apply check_bind_inr in E2 as (u & E2 & E3). apply pass_inr in E3 as <-.
    assert (H : ∃ c2', match ty with
        | VmaType _ _ _ => match copy <$> r with Some _ => fail VmaWithData | None => pass c1' end
        | PtrType _ elem elemDir _ => ctx ⇠ match copy <$> r with Some r => vArg mem' noSquash r elem elemDir c1' | None => pass c1' end;
            guard! bool_decide (v = 0) else PointerWithSize; guard! bool_decide (ADir (PointerArg (rename_common f c) ad v (copy <$> r)) ≠ DirOut) else OutPointer; pass ctx
        | _ => fail PointerBadType end = Ret (inr c2') ∧ same_ctx c2 c2').
    { destruct ty as [| | | | | | | | | |pc e ed sq| |]; try done.
      - destruct r as [x|]; [done|]. apply pass_inr in E1 as <-. by exists c1'.
      - apply check_bind_inr in E1 as (c3 & E1 & E4). inv_check E4. subst c3. change (ADir (PointerArg (rename_common f c) ad v (copy <$> r))) with (ADir (PointerArg c ad v r)).
        destruct r as [x|]; cbn [fmap option_fmap option_map].
        + cbn in Hr. destruct (Hr ltac:(eapply inside_children; [exact Hin|by left]) e ed c1 c2 c1' Hc1 E1) as (c3' & E3' & Hc3). exists c3'. rewrite E3'. cbn [check_bind]. by rewrite Eb, Eb0.
        + apply pass_inr in E1 as <-. exists c1'. cbn [pass check_bind]. by rewrite Eb, Eb0. }
    destruct H as (c2' & E1' & Hc2). exists c2'. assert (Hres : match r with Some x => Some (copy x) | None => None end = copy <$> r) by by destruct r. rewrite !Hres. rewrite E1'. cbn [check_bind]. rewrite address_copy, E2. cbn. done.
  - apply check_bind_inr in E as (u & E1 & E2). apply pass_inr in E2 as <-. change (validate_data typeRefs unsafe (DataArg (rename_common f c) d s) (rename_common f c) d ty) with (validate_data typeRefs unsafe (DataArg c d s) c d ty). rewrite E1. eexists. split; [reflexivity|done].
  - assert (Hch : ∀ x, x ∈ l → inside x) by (intros x Hx; by eapply inside_children). destruct ty as [| | | | | | | | |ac e k lo hi| |sc fields al ov|]; try done.
    + apply guard_inr in E as [Eg E]. unfold len in *. rewrite length_fmap, Eg. by eapply elems_copy.
    + apply guard_inr in E as [Eg E]. rewrite length_fmap, Eg. by eapply fields_copy.
  - destruct ty as [| | | | | | | | | | | |uc fields]; try done. inv_check E. apply lift_inr in E0. rewrite Eb, Eb0, E0. cbn [lift check_bind].
    eapply Ho; [eapply inside_children; [exact Hin|by left]|exact Hc1|exact E].
  - eapply result_copy; [|apply Hin; by left|exact Hc1|exact E]. apply Hin. by left.
Qed.
Lemma validate_args_copy noSquash l : (∀ x, x ∈ l → inside x) → ∀ fields ctx ctx1 ctx', same_ctx ctx ctx' →
  validate_args target typeRefs any unsafe ignoreTransient mem noSquash l fields ctx = Ret (inr ctx1) →
  ∃ ctx1', validate_args target typeRefs any unsafe ignoreTransient mem' noSquash (copy <$> l) fields ctx' = Ret (inr ctx1') ∧ same_ctx ctx1 ctx1'.
Proof.
  induction l as [|x l IH]; intros Hin fields ctx ctx1 ctx' Hc E; [apply pass_inr in E as <-; by exists ctx'|]. destruct fields as [|g fields]; [apply pass_inr in E as <-; by exists ctx'|]. cbn [validate_args] in E.
  apply check_bind_inr in E as (c1 & E1 & E2). destruct (validateArg_copy noSquash x (Hin x ltac:(by left)) _ _ _ _ _ Hc E1) as (c1' & E1' & Hc1). cbn [fmap list_fmap validate_args]. rewrite E1'. cbn [check_bind].
  eapply IH; [intros y Hy; apply Hin; by right|exact Hc1|exact E2].
Qed.
Lemma copy_shape : keeps_shape copy.
Proof. constructor; [intros [| ? ? ? []| | | |]; cbn; eauto|by intros []]. Qed.
Definition call_inside (c : Call) : Prop := ∀ a, a ∈ call_roots c → inside a.
Lemma validateCall_copy m c ctx ctx1 ctx' : call_inside c → same_ctx ctx ctx' → validateCall target typeRefs any unsafe ignoreTransient mem m c ctx = Ret (inr ctx1) →
  ∃ ctx1', validateCall target typeRefs any unsafe ignoreTransient mem' m (copy_call f (rename_result f) c) ctx' = Ret (inr ctx1') ∧ same_ctx ctx1 ctx1'.
Proof.
  intros Hin Hc E. unfold validateCall in *. inv_check E. cbn [copy_call Props Args CRet]. rewrite Eb, Eb0, length_fmap, Eb1.
  destruct (validate_args_copy (NoSquash (Attrs m)) (Args c) (λ x Hx, Hin x (proj2 (elem_of_app _ _ _) (or_intror Hx))) _ _ _ _ Hc E0) as (c1' & -> & Hc1). cbn [check_bind].
  apply lift_inr in E1. destruct a0 as [u|]; [done|]. rewrite (like_checkConditions typeRefs any copy copy_shape (λ c0 v, ex_intro _ (rename_common f c0) eq_refl) c) by done. cbn [lift check_bind].
  unfold validateRet in *. cbn [copy_call CRet]. destruct (SysRet m) as [typ|], (CRet c) as [r|] eqn:Er; cbn [fmap option_fmap option_map]; try done; [|apply pass_inr in E as <-; by exists c1'].
  apply guard_inr in E as [Eg E]. cbn [rename_result res_Res res_Val OpDiv OpAdd]. assert (Hn : bool_decide (f <$> res_Res r = None) = bool_decide (res_Res r = None)) by (apply bool_decide_ext; by destruct (res_Res r)).
  rewrite Hn, Eg. eapply (validateArg_copy (NoSquash (Attrs m)) (AResult r)); [|exact Hc1|exact E]. apply Hin. unfold call_roots. rewrite Er. by left.
Qed.
Lemma validate_calls_copy l : ∀ ctx ctx1 ctx', (∀ c, Some c ∈ l → call_inside c) → same_ctx ctx ctx' → validate_calls target typeRefs any unsafe ignoreTransient mem l ctx = Ret (inr ctx1) →
  ∃ ctx1', validate_calls target typeRefs any unsafe ignoreTransient mem' (copy_calls f (rename_result f) l) ctx' = Ret (inr ctx1') ∧ same_ctx ctx1 ctx1'.
Proof.
  induction l as [|[c|] l IH]; intros ctx ctx1 ctx' Hin Hc E; cbn [validate_calls] in E; [apply pass_inr in E as <-; by exists ctx'| |done].
  destruct (Meta c) as [m|] eqn:Em; [|done]. apply check_bind_inr in E as (c1 & E1 & E2). destruct (validateCall_copy m c ctx c1 ctx') as (c1' & E1' & Hc1); [apply Hin; by left|done|done|].
  change (copy_calls f (rename_result f) (Some c :: l)) with (Some (copy_call f (rename_result f) c) :: copy_calls f (rename_result f) l). cbn [validate_calls]. change (Meta (copy_call f (rename_result f) c)) with (Meta c). rewrite Em, E1'. cbn [check_bind].
  eapply IH; [intros d Hd; apply Hin; by right|exact Hc1|exact E2].
Qed.
End renaming.

(** A program with a well-formed graph that is accepted stays accepted under
    other identities. *)
Lemma validate_copy target typeRefs any ignoreTransient p q (f : argid → argid) : graph_ok p → (∀ x y, x ∈ prog_ids p → y ∈ prog_ids p → f x = f y → x = y) →
  Calls q = copy_calls f (rename_result f) (Calls p) → isUnsafe q = isUnsafe p →
  validateWithOpts target typeRefs any ∅ ignoreTransient p = Ret None → validateWithOpts target typeRefs any ∅ ignoreTransient q = Ret None.
Proof.
  intros Hg Hinj Hq Hun. unfold validateWithOpts. rewrite !map_union_empty, Hq, Hun. set (D := λ x, x ∈ prog_ids p).
  assert (Hids : prog_ids q = f <$> prog_ids p) by (unfold prog_ids; rewrite Hq; apply ids_copy; done). assert (Hres : prog_results q = rename_result f <$> prog_results p) by (unfold prog_results; rewrite Hq; apply results_copy).
  assert (Hrid : ∀ r, r ∈ prog_results p → rid r ∈ prog_ids p) by (intros r Hr; eapply sublist_elem_of; [apply roots_results_ids|apply list_elem_of_fmap; eauto]).
  assert (Hmem : ∀ x o, D x → objects p !! x = Some o → objects q !! f x = Some (rename_result f o)).
  { intros x o _ [Ho <-]%objects_elem. unfold objects. rewrite Hres, <-list_fmap_compose. apply elem_of_list_to_map_1.
    - rewrite <-list_fmap_compose. apply NoDup_fmap_2_strong; [|eapply NoDup_fmap_1, (graph_ok_NoDup p Hg)]. intros r1 r2 H1 H2 Hf. cbn in Hf. eapply rid_inj; [apply (graph_ok_NoDup p Hg)|done|done|]. by apply Hinj; [apply Hrid..|].
    - apply list_elem_of_fmap. by exists o. }
  assert (Hin : ∀ c, Some c ∈ Calls p → call_inside D c).
  { intros c Hc a Ha. assert (Hroot : a ∈ calls_roots (Calls p)) by (unfold calls_roots; apply elem_of_concat; exists (call_roots c); split; [done|]; apply list_elem_of_fmap; by exists (Some c)).
    assert (Hsub : ∀ r, r ∈ arg_results a → r ∈ prog_results p) by (intros r Hr; unfold prog_results, roots_results; apply elem_of_concat; exists (arg_results a); split; [done|]; apply list_elem_of_fmap; eauto).
    split; [intros i Hi; unfold D, prog_ids, roots_ids; apply elem_of_concat; exists (arg_ids a); split; [done|]; apply list_elem_of_fmap; eauto|]. intros r Hr. split.
    - intros u Hu. rewrite (go_uses p Hg r) in Hu by by apply Hsub. apply elem_of_users in Hu as (r' & Hr' & <- & _). by apply Hrid.
    - intros x Hx. pose proof (Hsub r Hr) as [k Hk]%list_elem_of_lookup. apply take_drop_middle in Hk. pose proof (go_order p Hg _ _ _ x (eq_sym Hk) Hx) as (r' & -> & Hr')%list_elem_of_fmap. apply Hrid. rewrite <-Hk. apply elem_of_app. by left. }
  match goal with |- (?k ≫= _) = _ → _ => destruct k as [[e|[]]|] eqn:Ek; [done| |done] end. intros _. apply check_bind_inr in Ek as (c1 & E1 & E2). apply guard_inr in E2 as [Eb _].
  destruct (validate_calls_copy target typeRefs any (isUnsafe p) ignoreTransient (objects p) (objects q) f D Hinj Hmem (Calls p) (mkValidCtx ∅ ∅) c1 (mkValidCtx ∅ ∅)) as (c1' & -> & [A1 A2 A3]); [done| |done|].
  { constructor; cbn; [by rewrite set_map_empty|by rewrite !dom_empty_L, set_map_empty|by intros x ?%not_elem_of_empty]. }
  cbn [check_bind]. assert (Hall : forallb (λ u : argid * argid, bool_decide (u.1 ∈ vc_args c1')) (map_to_list (vc_uses c1')) = true); [|by rewrite Hall].
  apply forallb_forall. intros [u v] Hu%list_elem_of_In%elem_of_map_to_list. apply bool_decide_eq_true. cbn. assert (Hd : u ∈ dom (vc_uses c1')) by (apply elem_of_dom; eauto). rewrite A2 in Hd. apply elem_of_map in Hd as (y & -> & [v' Hy]%elem_of_dom).
  rewrite forallb_forall in Eb. specialize (Eb (y, v')). rewrite <-list_elem_of_In, elem_of_map_to_list in Eb. specialize (Eb Hy). apply bool_decide_eq_true in Eb. rewrite A1. by apply elem_of_map_2.
Qed.
