(* ===== verification/TextLex.v ===== *)
(** * The text format of programs: lexing and literals (src/prog/encoding.go)

    The parser keeps its position, a sticky error, the named results seen so
    far and the arguments marked AUTO in one object.  Its methods are
    computations over that object that return, return an error, panic, or run
    out of fuel.  This file has the lexical layer: the primitives that look at
    the current line, numbers as package strconv prints and parses them, and
    data literals.  Text is a list of bytes. *)

From S2P Require Import Prelude Bits GoStrings Prog.
From Stdlib Require Import Ascii Strings.Byte.

(** Byte literals: an ASCII character is its code. *)
Definition lit_of_bytes (l : list byte) : option Z := match l with [b] => Some (Z.of_N (Byte.to_N b)) | _ => None end.
Definition bytes_of_lit (z : Z) : option (list byte) := (λ b, [b]) <$> Byte.of_N (Z.to_N z).
Declare Scope ch_scope.
Delimit Scope ch_scope with ch.
String Notation Z lit_of_bytes bytes_of_lit : ch_scope.
Definition dquote : Z := 34.

(** The string with the given bytes. *)
Fixpoint to_string (l : list Z) : string :=
  match l with [] => EmptyString | b :: l => String (ascii_of_N (Z.to_N b)) (to_string l) end.

(** ** Computations of the parser *)

Inductive result (A : Type) : Type := Ok (a : A) | Bad | Panicked | NoFuel.
Arguments Ok {A} _.
Arguments Bad {A}.
Arguments Panicked {A}.
Arguments NoFuel {A}.
Definition parsing (S A : Type) : Type := S → result (A * S).
#[export] Instance parsing_ret S : MRet (parsing S) := λ A a s, Ok (a, s).
#[export] Instance parsing_bind S : MBind (parsing S) := λ A B f m s,
  match m s with Ok (a, s) => f a s | Bad => Bad | Panicked => Panicked | NoFuel => NoFuel end.
Definition get_state {S} : parsing S S := λ s, Ok (s, s).
Definition update_state {S} (f : S → S) : parsing S unit := λ s, Ok (tt, f s).
(** Returning an error, and code of other components. *)
Definition errorf {S A} : parsing S A := λ _, Bad.
Definition of_outcome {S A} (m : outcome A) : parsing S A := λ s, match m with Ret a => Ok (a, s) | Panic => Panicked end.
Definition of_fueled {S A} (m : outcome (option A)) : parsing S A :=
  λ s, match m with Ret (Some a) => Ok (a, s) | Ret None => NoFuel | Panic => Panicked end.
Definition of_error {S A} (m : option A) : parsing S A := λ s, match m with Some a => Ok (a, s) | None => Bad end.
Lemma bind_Ok {S A B} (m : parsing S A) (f : A → parsing S B) s a s' : m s = Ok (a, s') → (m ≫= f) s = f a s'.
Proof. intros E. unfold mbind, parsing_bind. by rewrite E. Qed.

(** ** The parser object *)

(** [ps_s] is [p.s[p.i:]]; [ps_err] is [p.e != nil].  The lines still to be
    read, [p.data], are passed to [Scan], their only user.  New arguments get the
    identity [ps_next]; [ps_uses] lists the pairs (used, user) entered into
    the [uses] maps so far. *)
Record parser := mkParser {
  ps_s : list Z;
  ps_err : bool;
  ps_vars : gmap (list Z) argid;
  ps_autos : option (gset argid);
  ps_comment : string;
  ps_next : argid;
  ps_uses : list (argid * argid)
}.
Definition newParser (n : argid) : parser := mkParser [] false ∅ None "" n [].
Definition set_s (s : list Z) (p : parser) : parser :=
  mkParser s (ps_err p) (ps_vars p) (ps_autos p) (ps_comment p) (ps_next p) (ps_uses p).
Definition failf (p : parser) : parser :=
  mkParser (ps_s p) true (ps_vars p) (ps_autos p) (ps_comment p) (ps_next p) (ps_uses p).

Definition is_blank (c : Z) : bool := bool_decide (c = " "%ch) || bool_decide (c = 9).
Fixpoint drop_while (f : Z → bool) (l : list Z) : list Z :=
  match l with b :: l' => if f b then drop_while f l' else l | [] => [] end.
Fixpoint take_while (f : Z → bool) (l : list Z) : list Z :=
  match l with b :: l' => if f b then b :: take_while f l' else [] | [] => [] end.
Definition drop_while_end (f : Z → bool) (l : list Z) : list Z := reverse (drop_while f (reverse l)).
(** The line up to the first newline, and what follows it. *)
Fixpoint cut_line (l : list Z) : list Z * list Z :=
  match l with
  | [] => ([], [])
  | b :: l => if decide (b = 10) then ([], l) else let '(x, r) := cut_line l in (b :: x, r)
  end.

(** The lines that remain after the next one; [None] when there is none. *)
Definition Scan (data : list Z) : parsing parser (option (list Z)) := λ p,
  if decide (ps_err p = true ∨ data = []) then Ok (None, p)
  else
    let '(line, data) := cut_line data in
    let line := drop_while is_blank line in
    let line := drop_while_end (λ c, is_blank c || bool_decide (c = 13)) line in
    Ok (Some data, set_s line p).
Definition EOF : parsing parser bool := λ p, Ok (bool_decide (ps_s p = []), p).
Definition Char : parsing parser Z := λ p,
  if ps_err p then Ok (0, p) else match ps_s p with [] => Ok (0, failf p) | c :: _ => Ok (c, p) end.
Definition SkipWs (p : parser) : parser := set_s (drop_while is_blank (ps_s p)) p.
Definition Parse (ch : Z) : parsing parser unit := λ p,
  if ps_err p then Ok (tt, p)
  else match ps_s p with
       | [] => Ok (tt, failf p)
       | c :: s => if decide (c = ch) then Ok (tt, SkipWs (set_s s p)) else Ok (tt, failf p)
       end.
Definition consume : parsing parser Z := λ p,
  if ps_err p then Ok (0, p) else match ps_s p with [] => Ok (0, failf p) | c :: s => Ok (c, set_s s p) end.
Definition HasNext (str : list Z) : parsing parser bool := λ p,
  Ok (negb (ps_err p) && bool_decide (str `prefix_of` ps_s p), p).
Definition is_ident (c : Z) : bool :=
  bool_decide ("a"%ch ≤ c ≤ "z"%ch) || bool_decide ("A"%ch ≤ c ≤ "Z"%ch) || bool_decide ("0"%ch ≤ c ≤ "9"%ch)
  || bool_decide (c = "_"%ch) || bool_decide (c = "$"%ch).
(** The only primitive that moves after an error. *)
Definition Ident : parsing parser (list Z) := λ p,
  match take_while is_ident (ps_s p) with
  | [] => Ok ([], failf p)
  | id => Ok (id, SkipWs (set_s (drop_while is_ident (ps_s p)) p))
  end.

(** ** Numbers *)

(** [toHexChar] on values below 16, and [lower] of package strconv. *)
Definition toHexChar (v : Z) : outcome Z :=
  if decide (16 ≤ v) then Panic else Ret (if decide (v < 10) then "0"%ch + v else "a"%ch + v - 10).
Definition fromHexChar (v : Z) : Z * bool :=
  if decide ("0"%ch ≤ v ≤ "9"%ch) then (v - "0"%ch, true)
  else if decide ("a"%ch ≤ v ≤ "f"%ch) then (v - "a"%ch + 10, true)
  else (0, false).
Definition digit_char (d : Z) : Z := if decide (d < 10) then "0"%ch + d else "a"%ch + d - 10.
(** The digits of [v], most significant first, in front of [acc]; [n] digits
    are enough for values below [base ^ n]. *)
Fixpoint print_digits (n : nat) (base v : Z) (acc : list Z) : list Z :=
  match n with
  | O => acc
  | S n => if decide (v < base) then digit_char v :: acc else print_digits n base (v / base) (digit_char (v mod base) :: acc)
  end.
(** [%v] and [0x%x] of a uint64. *)
Definition print_dec (v : Z) : list Z := print_digits 20 10 v [].
Definition print_hex (v : Z) : list Z := "0"%ch :: "x"%ch :: print_digits 16 16 v [].

Definition lower_byte (c : Z) : Z := Z.lor c 32.
Definition digit_value (c : Z) : option Z :=
  if decide ("0"%ch ≤ c ≤ "9"%ch) then Some (c - "0"%ch)
  else if decide ("a"%ch ≤ lower_byte c ≤ "z"%ch) then Some (lower_byte c - "a"%ch + 10)
  else None.
(** Digits of [base] with underscores anywhere; [None] for a wrong digit or a
    value that does not fit into 64 bits. *)
Fixpoint parse_digits (base n : Z) (l : list Z) : option Z :=
  match l with
  | [] => Some n
  | c :: l =>
      if decide (c = "_"%ch) then parse_digits base n l
      else
        d ← digit_value c;
        if decide (base ≤ d) then None
        else if decide (2 ^ 64 ≤ n * base + d) then None
        else parse_digits base (n * base + d) l
  end.
(** What precedes the current byte: nothing, a digit, an underscore, or another byte. *)
Inductive prev_byte := PStart | PDigit | PUnderscore | POther.
Fixpoint underscores_ok (hex : bool) (prev : prev_byte) (l : list Z) : bool :=
  match l with
  | [] => match prev with PUnderscore => false | _ => true end
  | c :: l =>
      if bool_decide ("0"%ch ≤ c ≤ "9"%ch) || hex && bool_decide ("a"%ch ≤ lower_byte c ≤ "f"%ch) then underscores_ok hex PDigit l
      else if decide (c = "_"%ch) then match prev with PDigit => underscores_ok hex PUnderscore l | _ => false end
      else match prev with PUnderscore => false | _ => underscores_ok hex POther l end
  end.
Definition is_prefix_char (c : Z) : bool :=
  bool_decide (lower_byte c = "b"%ch) || bool_decide (lower_byte c = "o"%ch) || bool_decide (lower_byte c = "x"%ch).
Definition underscoreOK (l : list Z) : bool :=
  let l := match l with c :: r => if decide (c = "-"%ch ∨ c = "+"%ch) then r else l | [] => l end in
  match l with
  | z :: c :: r =>
      if bool_decide (z = "0"%ch) && is_prefix_char c then underscores_ok (bool_decide (lower_byte c = "x"%ch)) PDigit r
      else underscores_ok false PStart l
  | _ => underscores_ok false PStart l
  end.
Definition prefix_base (c : Z) : Z :=
  if decide (lower_byte c = "b"%ch) then 2 else if decide (lower_byte c = "o"%ch) then 8 else 16.
(** [strconv.ParseUint(s, 0, 64)] *)
Definition ParseUint (s : list Z) : option Z :=
  match s with
  | [] => None
  | c :: r =>
      let '(base, digits) :=
        if decide (c = "0"%ch) then
          match r with
          | x :: ((_ :: _) as r') => if is_prefix_char x then (prefix_base x, r') else (8, r)
          | _ => (8, r)
          end
        else (10, s) in
      n ← parse_digits base 0 digits;
      if bool_decide ("_"%ch ∈ digits) && negb (underscoreOK s) then None else Some n
  end.
(** [strconv.ParseInt(s, 0, 64)] *)
Definition ParseInt (s : list Z) : option Z :=
  match s with
  | [] => None
  | c :: r =>
      let neg := bool_decide (c = "-"%ch) in
      un ← ParseUint (if decide (c = "+"%ch ∨ c = "-"%ch) then r else s);
      if negb neg && bool_decide (2 ^ 63 ≤ un) then None
      else if neg && bool_decide (2 ^ 63 < un) then None
      else Some (if neg then - un else un)
  end.

(** ** Data literals *)

Definition isPrintable (v : Z) : bool := bool_decide (0x20 ≤ v < 0x7f).
(** The low and the high digit. *)
Definition byteToHex (v : Z) : outcome (Z * Z) :=
  lo ← toHexChar (Z.land v 0xf); hi ← toHexChar (Z.shiftr v 4); Ret (lo, hi).
Definition hexToByte (lo hi : Z) : Z * bool :=
  let '(h, ok1) := fromHexChar hi in
  let '(l, ok2) := fromHexChar lo in
  (u8 (u8 (Z.shiftl h 4) + l), ok1 && ok2).
(** The letter of the one-byte escapes, for bytes that have one. *)
Definition escape_letter (v : Z) : option Z :=
  match v with
  | 7 => Some "a"%ch | 8 => Some "b"%ch | 12 => Some "f"%ch | 10 => Some "n"%ch
  | 13 => Some "r"%ch | 9 => Some "t"%ch | 11 => Some "v"%ch
  | 39 => Some 39 | 34 => Some 34 | 92 => Some 92
  | _ => None
  end.
Definition encode_byte (readable cstr : bool) (v : Z) : outcome (list Z) :=
  let hex := '(lo, hi) ← byteToHex v; Ret ["\"%ch; "x"%ch; hi; lo] in
  if negb readable then hex
  else
    match escape_letter v with
    | Some c => Ret ["\"%ch; c]
    | None =>
        if isPrintable v then Ret [v]
        else if cstr then
          Ret ["\"%ch; u8 (Z.land (Z.shiftr v 6) 7 + "0"%ch); u8 (Z.land (Z.shiftr v 3) 7 + "0"%ch); u8 (Z.land v 7 + "0"%ch)]
        else hex
    end.
Fixpoint encodeData (data : list Z) (readable cstr : bool) : outcome (list Z) :=
  match data with
  | [] => Ret []
  | v :: data => t ← encode_byte readable cstr v; r ← encodeData data readable cstr; Ret (t ++ r)
  end.
Definition isReadableData (data : list Z) : bool :=
  bool_decide (data ≠ []) && forallb (λ v, isPrintable v || bool_decide (v = 0 ∨ 7 ≤ v ≤ 13)) data.
Definition EncodeData (data : list Z) (readable : bool) : outcome (list Z) :=
  encodeData data (readable || isReadableData data) true.

(** [hex.EncodeToString] and [hex.DecodeString]; the latter also reads capital digits. *)
Definition hex_encode (data : list Z) : list Z := concat ((λ v, [digit_char (v / 16); digit_char (v mod 16)]) <$> data).
Definition hex_digit (c : Z) : option Z :=
  if decide ("0"%ch ≤ c ≤ "9"%ch) then Some (c - "0"%ch)
  else if decide ("a"%ch ≤ c ≤ "f"%ch) then Some (c - "a"%ch + 10)
  else if decide ("A"%ch ≤ c ≤ "F"%ch) then Some (c - "A"%ch + 10)
  else None.
Fixpoint hex_decode (s : list Z) : option (list Z) :=
  match s with
  | [] => Some []
  | hi :: lo :: s => h ← hex_digit hi; l ← hex_digit lo; r ← hex_decode s; Some (h * 16 + l :: r)
  | _ => None
  end.
Definition serializeData (data : list Z) (readable : bool) : outcome (list Z) :=
  if negb readable && negb (isReadableData data) then Ret ([dquote] ++ hex_encode data ++ [dquote])
  else t ← encodeData data true false; Ret ([39] ++ t ++ [39]).

Section image.
(** Package pkg/image: base 64 text of a compressed image. *)
Context (EncodeB64 : list Z → list Z) (DecodeB64 : list Z → option (list Z)).

Definition serializeCompressedData (data : list Z) : list Z := [dquote; "$"%ch] ++ EncodeB64 data ++ [dquote].

(** The loop that appends to [rawData] up to the closing quote. *)
Fixpoint raw_data (fuel : nat) (acc : list Z) : parsing parser (list Z) :=
  match fuel with
  | O => λ _, NoFuel
  | S fuel =>
      eof ← EOF;
      if (eof : bool) then mret acc
      else c ← Char; if decide (c = dquote) then mret acc else v ← consume; raw_data fuel (acc ++ [v])
  end.
Definition unescape (v : Z) : option Z :=
  match v with
  | "a"%ch => Some 7 | "b"%ch => Some 8 | "f"%ch => Some 12 | "n"%ch => Some 10
  | "r"%ch => Some 13 | "t"%ch => Some 9 | "v"%ch => Some 11
  | 39 => Some 39 | 34 => Some 34 | 92 => Some 92
  | _ => None
  end.
(** The loop over the bytes of a quoted literal, to the quote or to the end. *)
Fixpoint quoted_data (fuel : nat) (acc : list Z) : parsing parser (list Z) :=
  match fuel with
  | O => λ _, NoFuel
  | S fuel =>
      c ← Char;
      if decide (c = 39 ∨ c = 0) then mret acc
      else
        v ← consume;
        if decide (v ≠ "\"%ch) then quoted_data fuel (acc ++ [v])
        else
          v ← consume;
          if decide (v = "x"%ch) then
            hi ← consume; lo ← consume;
            let '(b, ok) := hexToByte lo hi in
            if negb ok then errorf else quoted_data fuel (acc ++ [b])
          else
            match unescape v with
            | Some b => quoted_data fuel (acc ++ [b])
            | None => errorf
            end
  end.
(** The data and whether it was in base 64; every turn of the loops takes a
    byte of the line. *)
Definition deserializeData : parsing parser (list Z * bool) :=
  c ← Char;
  if decide (c = dquote) then
    Parse dquote;;
    c ← Char;
    if decide (c = "$"%ch) then
      consume;;
      p ← get_state;
      raw ← raw_data (S (S (length (ps_s p)))) [];
      Parse dquote;;
      decoded ← of_error (DecodeB64 raw);
      mret (decoded, true)
    else
      val ← (c ← Char; if decide (c ≠ dquote) then Ident else mret []);
      Parse dquote;;
      data ← of_error (hex_decode val);
      mret (data, false)
  else
    q ← consume;
    if decide (q ≠ 39) then errorf
    else
      p ← get_state;
      data ← quoted_data (S (S (length (ps_s p)))) [];
      Parse 39;;
      mret (data, false).
End image.

(** ** The primitives on a known text *)

Lemma set_s_eta p : set_s (ps_s p) p = p.
Proof. by destruct p. Qed.
Lemma set_s_set_s s s' p : set_s s (set_s s' p) = set_s s p.
Proof. done. Qed.
Lemma Char_at c s p : ps_err p = false → Char (set_s (c :: s) p) = Ok (c, set_s (c :: s) p).
Proof. intros E. unfold Char. cbn. by rewrite E. Qed.
Lemma consume_at c s p : ps_err p = false → consume (set_s (c :: s) p) = Ok (c, set_s s p).
Proof. intros E. unfold consume. cbn. by rewrite E. Qed.
Lemma Parse_at c s p : ps_err p = false → Parse c (set_s (c :: s) p) = Ok (tt, set_s (drop_while is_blank s) p).
Proof. intros E. unfold Parse. cbn. by rewrite E, decide_True. Qed.
Lemma EOF_at c s p : EOF (set_s (c :: s) p) = Ok (false, set_s (c :: s) p).
Proof. done. Qed.
(** Text that does not begin with a blank, and text that ends an identifier. *)
Definition tight (s : list Z) : Prop := match s with c :: _ => is_blank c = false | [] => True end.
Definition stops (s : list Z) : Prop := match s with c :: _ => is_ident c = false ∧ is_blank c = false | [] => True end.
Lemma tight_drop s : tight s → drop_while is_blank s = s.
Proof. destruct s as [|c s]; [done|]. cbn. by intros ->. Qed.
Lemma stops_tight s : stops s → tight s.
Proof. destruct s; [done|]. by intros [_ ?]. Qed.
Lemma Parse_tight c s p : ps_err p = false → tight s → Parse c (set_s (c :: s) p) = Ok (tt, set_s s p).
Proof. intros E Hs. rewrite Parse_at by done. by rewrite tight_drop. Qed.
Lemma while_app f l s : forallb f l = true → (match s with c :: _ => f c = false | [] => True end) →
  take_while f (l ++ s) = l ∧ drop_while f (l ++ s) = s.
Proof.
  intros Hl Hs. induction l as [|c l IH]; cbn in *.
  - destruct s as [|c s]; [done|]. cbn. by rewrite Hs.
  - apply andb_true_iff in Hl as [-> Hl]. destruct (IH Hl) as [-> ->]. done.
Qed.
Lemma Ident_at id s p : id ≠ [] → forallb is_ident id = true → stops s → Ident (set_s (id ++ s) p) = Ok (id, set_s s p).
Proof.
  intros Hne Hid Hs. unfold Ident. cbn [ps_s set_s].
  destruct (while_app is_ident id s Hid) as [-> ->]; [destruct s as [|c s]; [done|apply Hs]|].
  destruct id as [|c id]; [done|]. unfold SkipWs. rewrite set_s_set_s. cbn [ps_s set_s]. by rewrite tight_drop by by apply stops_tight.
Qed.
Lemma HasNext_at str s p : ps_err p = false → HasNext str (set_s s p) = Ok (bool_decide (str `prefix_of` s), set_s s p).
Proof. intros E. unfold HasNext. cbn. by rewrite E. Qed.

(** ** Printed numbers are read back *)

Lemma below_dec (P : Z → Prop) `{∀ d, Decision (P d)} n : forallb (λ d, bool_decide (P d)) (seqZ 0 n) = true → ∀ d, 0 ≤ d < n → P d.
Proof.
  intros Hall d Hd. rewrite forallb_forall in Hall. apply (bool_decide_eq_true_1 (P d)), Hall, list_elem_of_In, elem_of_seqZ. lia.
Qed.
Lemma digit_char_spec d : 0 ≤ d < 16 → digit_value (digit_char d) = Some d ∧ hex_digit (digit_char d) = Some d ∧ is_ident (digit_char d) = true
  ∧ digit_char d ≠ "_"%ch ∧ fromHexChar (digit_char d) = (d, true).
Proof. revert d. apply (below_dec _ 16). vm_compute. done. Qed.
Lemma toHexChar_digit d : 0 ≤ d < 16 → toHexChar d = Ret (digit_char d).
Proof. intros Hd. unfold toHexChar. by rewrite decide_False by lia. Qed.
Lemma digit_char_pos d : 0 < d < 16 → digit_char d ≠ "0"%ch.
Proof. unfold digit_char. case_decide; lia. Qed.

Section numbers.
Context (base : Z) (Hbase : 2 ≤ base ≤ 16).
Lemma parse_digit d n acc : 0 ≤ d < base → n * base + d < 2 ^ 64 → parse_digits base n (digit_char d :: acc) = parse_digits base (n * base + d) acc.
Proof.
  intros Hd Hn. destruct (digit_char_spec d) as (E & _ & _ & Hu & _); [lia|]. cbn [parse_digits]. rewrite decide_False, E by done. cbn [mbind option_bind].
  by rewrite !decide_False by lia.
Qed.
Lemma div_step n v : ¬ v < base → v < base ^ Z.of_nat (S n) → 0 < v / base < v ∧ v / base < base ^ Z.of_nat n ∧ 0 ≤ v mod base < base ∧ v / base * base + v mod base = v.
Proof.
  intros Hb Hv. pose proof (Z.div_mod v base). pose proof (Z.mod_pos_bound v base). rewrite Nat2Z.inj_succ, Z.pow_succ_r in Hv by lia.
  pose proof (Z.div_lt_upper_bound v base (base ^ Z.of_nat n)). pose proof (Z.div_str_pos v base). pose proof (Z.div_lt v base). lia.
Qed.
Lemma parse_print_digits n v acc : (0 < n)%nat → 0 ≤ v < base ^ Z.of_nat n → v < 2 ^ 64 →
  parse_digits base 0 (print_digits n base v acc) = parse_digits base v acc.
Proof.
  revert v acc. induction n as [|n IH]; intros v acc Hn Hv Hv64; [lia|]. cbn [print_digits]. case_decide as Hb; [by rewrite parse_digit by lia|].
  destruct (div_step n v Hb) as (H1 & H2 & H3 & H4); [lia|]. destruct n as [|n]; [change (base ^ Z.of_nat 0) with 1 in H2; lia|].
  rewrite IH by lia. rewrite parse_digit by lia. by rewrite H4.
Qed.
Lemma print_digits_all (P : Z → Prop) n v acc : (∀ d, 0 ≤ d < base → P (digit_char d)) → 0 ≤ v → Forall P acc → Forall P (print_digits n base v acc).
Proof.
  intros HP. revert v acc. induction n as [|n IH]; intros v acc Hv Hacc; cbn [print_digits]; [done|]. case_decide as Hb; [constructor; [apply HP; lia|done]|].
  pose proof (Z.mod_pos_bound v base). pose proof (Z.div_pos v base). apply IH; [lia|]. constructor; [apply HP; lia|done].
Qed.
Lemma print_digits_head n v acc : (0 < n)%nat → 0 ≤ v < base ^ Z.of_nat n →
  ∃ d r, print_digits n base v acc = digit_char d :: r ∧ 0 ≤ d < base ∧ (0 < v → 0 < d) ∧ (v = 0 → r = acc).
Proof.
  revert v acc. induction n as [|n IH]; intros v acc Hn Hv; [lia|]. cbn [print_digits]. case_decide as Hb; [exists v, acc; split_and!; [done|lia|done..]|].
  destruct (div_step n v Hb) as (H1 & H2 & H3 & H4); [lia|]. destruct n as [|n]; [change (base ^ Z.of_nat 0) with 1 in H2; lia|].
  destruct (IH (v / base) (digit_char (v mod base) :: acc)) as (d & r & -> & Hd & Hp & _); [lia..|]. exists d, r. split_and!; [done|lia|lia|intros _; apply Hp; lia|lia].
Qed.
End numbers.

Lemma no_underscore l : Forall (λ c, c ≠ "_"%ch) l → bool_decide ("_"%ch ∈ l) = false.
Proof. intros Hl. apply bool_decide_eq_false. intros Hin. rewrite Forall_forall in Hl. by apply (Hl _ Hin). Qed.
Lemma print_hex_digits v : in_u64 v → ∃ c r, print_digits 16 16 v [] = c :: r ∧ Forall (λ c, c ≠ "_"%ch) (c :: r) ∧ Forall (λ c, is_ident c = true) (c :: r).
Proof.
  unfold in_u64. intros Hv. destruct (print_digits_head 16 ltac:(lia) 16 v []) as (d & r & E & _); [lia|exact Hv|]. eexists _, _. split; [exact E|].
  rewrite <-E. split; apply print_digits_all; try done; try lia; intros x Hx; by apply digit_char_spec.
Qed.
Lemma ParseUint_hex v : in_u64 v → ParseUint (print_hex v) = Some v.
Proof.
  intros Hv. destruct (print_hex_digits v Hv) as (c & r & E & Hu & _). unfold ParseUint, print_hex. rewrite decide_True by done. rewrite E.
  change (is_prefix_char "x"%ch) with true. change (prefix_base "x"%ch) with 16. cbn iota beta. rewrite <-E. unfold in_u64 in Hv.
  rewrite parse_print_digits by lia. cbn [parse_digits mbind option_bind]. rewrite E, no_underscore by done. done.
Qed.
Lemma ParseUint_dec v : in_u64 v → ParseUint (print_dec v) = Some v.
Proof.
  unfold in_u64. intros Hv. unfold print_dec. destruct (print_digits_head 10 ltac:(lia) 20 v []) as (d & r & E & Hd & Hp & Hz); [lia..|]. rewrite E. unfold ParseUint.
  destruct (decide (v = 0)) as [->|Hv0]; [|].
  - rewrite (Hz eq_refl) in E |- *. change (print_digits 20 10 0 []) with [48] in E. injection E as E. by rewrite <-E.
  - rewrite decide_False by (apply digit_char_pos; lia). rewrite <-E, parse_print_digits by lia. cbn [parse_digits mbind option_bind].
    rewrite no_underscore; [done|]. apply print_digits_all; [lia|..|lia|done]. intros x Hx. apply digit_char_spec. lia.
Qed.
Lemma ParseInt_dec v : 0 ≤ v < 2 ^ 63 → ParseInt (print_dec v) = Some v.
Proof.
  intros Hv. pose proof (ParseUint_dec v) as HP. unfold in_u64 in HP. specialize (HP ltac:(lia)).
  destruct (print_digits_head 10 ltac:(lia) 20 v []) as (d & r & E & Hd & _); [lia..|]. unfold print_dec in *. rewrite E in HP |- *. unfold ParseInt.
  assert (Hs : digit_char d ≠ "+"%ch ∧ digit_char d ≠ "-"%ch) by (unfold digit_char; case_decide; lia).
  rewrite decide_False by tauto. rewrite HP. cbn [mbind option_bind]. rewrite !bool_decide_eq_false_2 by (tauto || lia). done.
Qed.
Lemma parse_digits_range base n l v : 0 < base → in_u64 n → parse_digits base n l = Some v → in_u64 v.
Proof.
  unfold in_u64. intros Hb. revert n. induction l as [|c l IH]; intros n Hn; cbn [parse_digits]; [by intros [= <-]|]. case_decide; [by apply IH|].
  assert (Hd : ∀ d, digit_value c = Some d → 0 ≤ d) by (intros d; unfold digit_value; repeat case_decide; intros [= <-]; lia).
  destruct (digit_value c) as [d|]; [|done]. cbn [mbind option_bind]. specialize (Hd d eq_refl). repeat case_decide; try done. apply IH. nia.
Qed.
Lemma ParseUint_range s v : ParseUint s = Some v → in_u64 v.
Proof.
  unfold ParseUint. destruct s as [|c r]; [done|]. match goal with |- context [let '(_, _) := ?x in _] => destruct x as [base ds] eqn:Ex end.
  assert (Hb : 0 < base).
  { revert Ex. unfold prefix_base. case_decide; [|by intros [= <- _]]. destruct r as [|x [|y r]]; [by intros [= <- _]..|]. destruct (is_prefix_char x); intros [= <- _]; repeat case_decide; done. }
  destruct (parse_digits base 0 ds) as [n|] eqn:Ep; [|done]. cbn [mbind option_bind]. destruct (_ && _); [done|]. intros [= <-]. eapply parse_digits_range; [exact Hb| |exact Ep]. unfold in_u64. lia.
Qed.
Lemma forallb_Forall {A} (f : A → bool) l : Forall (λ c, f c = true) l → forallb f l = true.
Proof. intros H. apply forallb_forall. intros x Hx. rewrite Forall_forall in H. apply H. by apply list_elem_of_In. Qed.
Lemma print_hex_ident v : in_u64 v → forallb is_ident (print_hex v) = true.
Proof. intros Hv. destruct (print_hex_digits v Hv) as (c & r & E & _ & Hi). unfold print_hex. rewrite E. apply forallb_Forall. constructor; [done|]. constructor; [done|exact Hi]. Qed.
Lemma print_dec_ident v : 0 ≤ v → forallb is_ident (print_dec v) = true.
Proof. intros Hv. apply forallb_Forall, print_digits_all; [lia|..|done|done]. intros d Hd. apply digit_char_spec. lia. Qed.
Lemma print_dec_cons v : in_u64 v → ∃ d r, print_dec v = digit_char d :: r ∧ 0 ≤ d < 10.
Proof. unfold in_u64. intros Hv. destruct (print_digits_head 10 ltac:(lia) 20 v []) as (d & r & E & Hd & _); [lia..|]. eauto. Qed.

(** ** Data literals are read back *)

(** One step of a computation whose result is known. *)
Ltac run_step := first
  [ erewrite bind_Ok; [|first [by apply Char_at|by apply consume_at|by apply EOF_at|reflexivity]]; cbv beta iota
  | rewrite decide_True by (first [done|lia|tauto])
  | rewrite decide_False by (first [done|lia|tauto]) ].

Lemma byteToHex_spec v : is_byte v → byteToHex v = Ret (digit_char (v mod 16), digit_char (v / 16)) ∧ hexToByte (digit_char (v mod 16)) (digit_char (v / 16)) = (v, true).
Proof.
  unfold is_byte. intros Hv. pose proof (Z.mod_pos_bound v 16). assert (0 ≤ v / 16 < 16) by (split; [apply Z.div_pos; lia|apply Z.div_lt_upper_bound; lia]). split.
  - unfold byteToHex. change 0xf with (Z.ones 4). rewrite Z.land_ones, Z.shiftr_div_pow2 by lia. change (2 ^ 4) with 16. by rewrite !toHexChar_digit by lia.
  - revert v Hv H H0. assert (Hall : ∀ v, 0 ≤ v < 256 → hexToByte (digit_char (v mod 16)) (digit_char (v / 16)) = (v, true)); [|naive_solver].
    apply (below_dec _ 256). vm_compute. done.
Qed.
Lemma escape_spec v : is_byte v → match escape_letter v with
  | Some c => c ≠ "x"%ch ∧ unescape c = Some v
  | None => v ≠ 39 ∧ v ≠ "\"%ch
  end.
Proof.
  assert (Hall : ∀ v, 0 ≤ v < 256 → match escape_letter v with Some c => negb (bool_decide (c = "x"%ch)) && bool_decide (unescape c = Some v)
    | None => negb (bool_decide (v = 39)) && negb (bool_decide (v = "\"%ch)) end = true).
  { apply (below_dec _ 256). vm_compute. done. }
  intros Hv. specialize (Hall v Hv). destruct (escape_letter v) as [c|]; apply andb_true_iff in Hall as [H1 H2].
  - apply bool_decide_eq_true in H2. apply negb_true_iff, bool_decide_eq_false in H1. done.
  - apply negb_true_iff, bool_decide_eq_false in H1, H2. done.
Qed.
Lemma quoted_byte v : is_byte v → ∃ t, encode_byte true false v = Ret t ∧ (0 < length t)%nat ∧
  ∀ fuel acc rest p, ps_err p = false → quoted_data (S fuel) acc (set_s (t ++ rest) p) = quoted_data fuel (acc ++ [v]) (set_s rest p).
Proof.
  intros Hv. unfold encode_byte. cbn [negb]. pose proof (escape_spec v Hv) as He. destruct (escape_letter v) as [c|].
  - destruct He as [Hc Hu]. eexists. split; [done|]. split; [cbn; lia|]. intros fuel acc rest p Hp. cbn [app quoted_data]. do 3 run_step. rewrite decide_False by (intros Hn; by apply Hn).
    do 2 run_step. by rewrite Hu.
  - destruct He as [H1 H2]. unfold isPrintable. case_bool_decide as Hpr.
    + eexists. split; [done|]. split; [cbn; lia|]. intros fuel acc rest p Hp. cbn [app quoted_data]. do 4 run_step. done.
    + destruct (byteToHex_spec v Hv) as [-> Hh]. cbn [mbind outcome_bind]. eexists. split; [done|]. split; [cbn; lia|]. intros fuel acc rest p Hp. cbn [app quoted_data].
      do 3 run_step. rewrite decide_False by (intros Hn; by apply Hn). do 4 run_step. by rewrite Hh.
Qed.
Lemma quoted_data_spec d : Forall is_byte d → ∃ t, encodeData d true false = Ret t ∧ (length d ≤ length t)%nat ∧
  ∀ fuel acc rest p, ps_err p = false → (length d < fuel)%nat → quoted_data fuel acc (set_s (t ++ 39 :: rest) p) = Ok (acc ++ d, set_s (39 :: rest) p).
Proof.
  induction 1 as [|v d Hv Hd (t & Et & Hl & IH)]; cbn [encodeData].
  - exists []. split; [done|]. split; [done|]. intros fuel acc rest p Hp Hf. destruct fuel; [lia|]. cbn [app quoted_data]. do 2 run_step. by rewrite app_nil_r.
  - destruct (quoted_byte v Hv) as (t0 & -> & Hl0 & Hs). rewrite Et. cbn [mbind outcome_bind]. eexists. split; [done|]. rewrite length_app. cbn [length]. split; [lia|].
    intros fuel acc rest p Hp Hf. destruct fuel as [|fuel]; [lia|]. rewrite <-app_assoc, Hs by done. rewrite IH by (done || lia). by rewrite <-app_assoc.
Qed.
Lemma hex_pair v : is_byte v → hex_digit (digit_char (v / 16)) = Some (v / 16) ∧ hex_digit (digit_char (v mod 16)) = Some (v mod 16) ∧ v / 16 * 16 + v mod 16 = v
  ∧ is_ident (digit_char (v / 16)) = true ∧ is_ident (digit_char (v mod 16)) = true.
Proof.
  unfold is_byte. intros Hv. pose proof (Z.mod_pos_bound v 16). assert (0 ≤ v / 16 < 16) by (split; [apply Z.div_pos; lia|apply Z.div_lt_upper_bound; lia]).
  pose proof (Z.div_mod v 16). destruct (digit_char_spec (v / 16)) as (_ & ? & ? & _); [lia|]. destruct (digit_char_spec (v mod 16)) as (_ & ? & ? & _); [lia|]. split_and!; [done|done|lia|done|done].
Qed.
Lemma hex_roundtrip d : Forall is_byte d → hex_decode (hex_encode d) = Some d ∧ forallb is_ident (hex_encode d) = true.
Proof.
  induction 1 as [|v d Hv Hd [IH1 IH2]]; [done|]. destruct (hex_pair v Hv) as (H1 & H2 & H3 & H4 & H5). unfold hex_encode in *. cbn [fmap list_fmap concat app hex_decode forallb].
  rewrite H1, H2, IH1, H4, H5, IH2. cbn. by rewrite H3.
Qed.

Section image_data.
Context (EncodeB64 : list Z → list Z) (DecodeB64 : list Z → option (list Z)).
Lemma deserializeData_quoted d rest p : ps_err p = false → Forall is_byte d → ∃ t, encodeData d true false = Ret t
  ∧ deserializeData DecodeB64 (set_s (39 :: t ++ 39 :: rest) p) = Ok ((d, false), set_s (drop_while is_blank rest) p).
Proof.
  intros Hp Hd. destruct (quoted_data_spec d Hd) as (t & Et & Hl & Hq). exists t. split; [done|]. unfold deserializeData. do 3 run_step.
  rewrite decide_False by (intros Hn; by apply Hn). run_step. erewrite bind_Ok; [|apply Hq; [done|cbn [ps_s set_s]; rewrite length_app; cbn; lia]].
  erewrite bind_Ok; [|by apply Parse_at]. done.
Qed.
Lemma hex_head d : Forall is_byte d → ∀ rest, ∃ c r, hex_encode d ++ dquote :: rest = c :: r ∧ is_blank c = false ∧ c ≠ "$"%ch ∧ (d ≠ [] → c ≠ dquote).
Proof.
  intros Hd rest. destruct Hd as [|v d Hv Hd]; [by eexists _, _|]. unfold hex_encode. cbn. eexists _, _. split; [done|]. unfold is_byte in Hv.
  assert (H16 : 0 ≤ v / 16 < 16) by (split; [apply Z.div_pos; lia|apply Z.div_lt_upper_bound; lia]). unfold is_blank, digit_char, dquote. case_decide; rewrite !bool_decide_eq_false_2 by lia; split_and!; try done; lia.
Qed.
Lemma deserializeData_hex d rest p : ps_err p = false → Forall is_byte d →
  deserializeData DecodeB64 (set_s (dquote :: hex_encode d ++ dquote :: rest) p) = Ok ((d, false), set_s (drop_while is_blank rest) p).
Proof.
  intros Hp Hd. unfold deserializeData. do 2 run_step. destruct (hex_head d Hd rest) as (c & r & E & Hb & Hdol & Hq). destruct (hex_roundtrip d Hd) as [Hdec Hid].
  erewrite bind_Ok; [|apply Parse_tight; [done|rewrite E; exact Hb]]. rewrite E. do 2 run_step.
  assert (Hval : (c ← Char; if decide (c ≠ dquote) then Ident else mret []) (set_s (c :: r) p) = Ok (hex_encode d, set_s (dquote :: rest) p)).
  { run_step. destruct (decide (d = [])) as [->|Hne].
    - injection E as <- <-. by rewrite decide_False by (intros Hn; by apply Hn).
    - rewrite decide_True by by apply Hq. rewrite <-E. apply Ident_at; [|done|done]. destruct d; [done|]. unfold hex_encode. cbn. done. }
  erewrite bind_Ok; [|exact Hval]. erewrite bind_Ok; [|by apply Parse_at]. rewrite Hdec. done.
Qed.
(** Data literals of either form are read back. *)
Lemma deserializeData_spec d readable rest p : ps_err p = false → Forall is_byte d → ∃ t, serializeData d readable = Ret t
  ∧ deserializeData DecodeB64 (set_s (t ++ rest) p) = Ok ((d, false), set_s (drop_while is_blank rest) p).
Proof.
  intros Hp Hd. unfold serializeData. destruct (_ && _).
  - eexists. split; [done|]. cbn [app]. rewrite <-app_assoc. by apply deserializeData_hex.
  - destruct (deserializeData_quoted d rest p Hp Hd) as (t & -> & E). cbn [mbind outcome_bind]. eexists. split; [done|]. cbn [app]. rewrite <-app_assoc. exact E.
Qed.

(** Base 64 text is read back when the package's functions agree. *)
Lemma raw_data_spec t fuel acc rest p : ps_err p = false → dquote ∉ t → (length t < fuel)%nat →
  raw_data fuel acc (set_s (t ++ dquote :: rest) p) = Ok (acc ++ t, set_s (dquote :: rest) p).
Proof.
  intros Hp. revert fuel acc. induction t as [|c t IH]; intros fuel acc Ht Hf; destruct fuel as [|fuel]; try (cbn in Hf; lia); cbn [app raw_data].
  - do 2 run_step. rewrite decide_True by done. by rewrite app_nil_r.
  - apply not_elem_of_cons in Ht as [Hc Ht]. do 2 run_step. rewrite decide_False by congruence. run_step. rewrite IH by (done || cbn in Hf; lia). by rewrite <-app_assoc.
Qed.
Lemma deserializeData_b64 d rest p : ps_err p = false → DecodeB64 (EncodeB64 d) = Some d → dquote ∉ EncodeB64 d →
  deserializeData DecodeB64 (set_s (serializeCompressedData EncodeB64 d ++ rest) p) = Ok ((d, true), set_s (drop_while is_blank rest) p).
Proof.
  intros Hp Hdec Hq. unfold deserializeData, serializeCompressedData. cbn [app]. rewrite <-app_assoc. do 2 run_step. erewrite bind_Ok; [|by apply Parse_tight]. do 4 run_step.
  erewrite bind_Ok; [|apply raw_data_spec; [done|done|cbn [ps_s set_s]; rewrite length_app; cbn; lia]]. cbn [app]. erewrite bind_Ok; [|by apply Parse_at]. rewrite Hdec. done.
Qed.
End image_data.

(** ** Every text is accepted or rejected *)

(** The computation neither panics nor runs out of fuel, and [Q] holds of what it returns. *)
Definition total {S A} (m : parsing S A) (Q : A → S → Prop) (s : S) : Prop :=
  match m s with Ok (a, s') => Q a s' | Bad => True | _ => False end.
Lemma total_bind {S A B} (m : parsing S A) (f : A → parsing S B) Q s : total m (λ a, total (f a) Q) s → total (m ≫= f) Q s.
Proof. unfold total, mbind, parsing_bind. by destruct (m s) as [[a s']|  | |]. Qed.
Lemma total_mono {S A} (m : parsing S A) (P Q : A → S → Prop) s : total m P s → (∀ a s', P a s' → Q a s') → total m Q s.
Proof. unfold total. destruct (m s) as [[a s']|  | |]; auto. Qed.
Lemma total_ret {S A} (a : A) (Q : A → S → Prop) s : Q a s → total (mret a) Q s.
Proof. done. Qed.
Lemma total_errorf {S A} (Q : A → S → Prop) s : total errorf Q s.
Proof. done. Qed.
Lemma total_get {S} (Q : S → S → Prop) s : Q s s → total get_state Q s.
Proof. done. Qed.
Lemma total_update {S} f (Q : unit → S → Prop) s : Q tt (f s) → total (update_state f) Q s.
Proof. done. Qed.
Lemma total_of_error {S A} (m : option A) (Q : A → S → Prop) s : (∀ a, m = Some a → Q a s) → total (of_error m) Q s.
Proof. unfold total, of_error. destruct m; auto. Qed.
Lemma total_of_outcome {S A} (m : outcome A) (Q : A → S → Prop) s a : m = Ret a → Q a s → total (of_outcome m) Q s.
Proof. intros ->. done. Qed.
Lemma total_of_fueled {S A} (m : outcome (option A)) (Q : A → S → Prop) s a : m = Ret (Some a) → Q a s → total (of_fueled m) Q s.
Proof. intros ->. done. Qed.

(** How far the parser can still go: nothing after an error. *)
Definition ahead (p : parser) : nat := if ps_err p then 0 else S (length (ps_s p)).
Definition stays_ahead (n : nat) {A} (_ : A) (p : parser) : Prop := (ahead p ≤ n)%nat.
Lemma drop_while_length f l : (length (drop_while f l) ≤ length l)%nat.
Proof. induction l as [|c l IH]; cbn; [lia|]. destruct (f c); cbn; lia. Qed.
Lemma ahead_failf p : ahead (failf p) = 0%nat.
Proof. done. Qed.
Lemma ahead_set_s s p : ahead (set_s s p) = if ps_err p then 0%nat else S (length s).
Proof. done. Qed.

(** A byte is seen only when there is no error. *)
Lemma total_Char p : total Char (λ c p', (ahead p' ≤ ahead p)%nat ∧ (c ≠ 0 → p' = p ∧ (2 ≤ ahead p)%nat ∧ ∃ s, ps_s p = c :: s)) p.
Proof.
  unfold total, Char. destruct (ps_err p) eqn:E; [done|]. destruct (ps_s p) as [|c s] eqn:Es; [rewrite ahead_failf; split; [lia|done]|].
  split; [lia|]. intros _. unfold ahead. rewrite E, Es. cbn. split_and!; [done|lia|eauto].
Qed.
Lemma total_EOF p : total EOF (λ b p', p' = p ∧ b = bool_decide (ps_s p = [])) p.
Proof. done. Qed.
Lemma total_Parse ch p : total (Parse ch) (λ _ p', (ahead p' ≤ pred (ahead p))%nat) p.
Proof.
  unfold total, Parse. destruct (ps_err p) eqn:E; [unfold ahead; by rewrite E|]. destruct (ps_s p) as [|c s] eqn:Es; [rewrite ahead_failf; lia|].
  case_decide; [|rewrite ahead_failf; lia]. unfold SkipWs. rewrite set_s_set_s, ahead_set_s, E. cbn [ps_s set_s]. unfold ahead. rewrite E, Es. pose proof (drop_while_length is_blank s). cbn. lia.
Qed.
Lemma total_consume p : total consume (λ _ p', (ahead p' ≤ pred (ahead p))%nat ∧ (ps_s p ≠ [] → ps_err p' = ps_err p)) p.
Proof.
  unfold total, consume. destruct (ps_err p) eqn:E; [unfold ahead; by rewrite E|]. destruct (ps_s p) as [|c s] eqn:Es; [rewrite ahead_failf; split; [lia|done]|].
  rewrite ahead_set_s, E. unfold ahead. rewrite E, Es. cbn. split; [lia|done].
Qed.
Lemma total_Ident p : total Ident (λ id p', (ahead p' ≤ pred (ahead p))%nat) p.
Proof.
  unfold total, Ident. assert (Hl : (length (take_while is_ident (ps_s p)) + length (drop_while is_ident (ps_s p)) = length (ps_s p))%nat).
  { generalize (ps_s p). intros l. induction l as [|c l IH]; [done|]. cbn. destruct (is_ident c); cbn; lia. }
  destruct (take_while is_ident (ps_s p)) as [|c id] eqn:Et; [rewrite ahead_failf; lia|]. unfold SkipWs. rewrite set_s_set_s, ahead_set_s. cbn [ps_s set_s].
  unfold ahead. destruct (ps_err p); [lia|]. pose proof (drop_while_length is_blank (drop_while is_ident (ps_s p))). cbn in Hl. lia.
Qed.
Lemma total_HasNext str p : total (HasNext str) (λ _ p', p' = p) p.
Proof. done. Qed.

(** Runs the next primitive; leaves what it guarantees as a premise. *)
Ltac total_prim := first
  [ apply total_Char | apply total_EOF | apply total_Parse | apply total_consume | apply total_Ident | apply total_HasNext
  | apply total_get; reflexivity ].
Ltac total_step := apply total_bind; eapply total_mono; [total_prim|cbv beta].

Lemma total_quoted fuel acc p : (ahead p < fuel)%nat → total (quoted_data fuel acc) (λ _ p', (ahead p' ≤ ahead p)%nat) p.
Proof.
  revert acc p. induction fuel as [|fuel IH]; intros acc p Hf; [lia|]. cbn [quoted_data]. total_step. intros c p1 [H1 Hc].
  case_decide as Hc0; [by apply total_ret|]. destruct Hc as (-> & Hp & _); [tauto|].
  assert (Hrec : ∀ acc p', (ahead p' < ahead p)%nat → total (quoted_data fuel acc) (λ _ p'', (ahead p'' ≤ ahead p)%nat) p').
  { intros acc' p' Hp'. eapply total_mono; [apply IH; lia|]. cbv beta. lia. }
  total_step. intros v p2 [H2 _]. case_decide; [apply Hrec; lia|]. total_step. intros v' p3 [H3 _]. case_decide.
  - total_step. intros hi p4 [H4 _]. total_step. intros lo p5 [H5 _]. destruct (hexToByte lo hi) as [b []]; [apply Hrec; lia|done].
  - destruct (unescape v'); [apply Hrec; lia|done].
Qed.
Lemma total_Char_more p : ps_err p = false → ps_s p ≠ [] → total Char (λ c p', p' = p ∧ (2 ≤ ahead p)%nat ∧ ∃ s, ps_s p = c :: s) p.
Proof. intros E Hs. unfold total, Char. rewrite E. destruct (ps_s p) as [|c s] eqn:Es; [done|]. split; [done|]. unfold ahead. rewrite E, Es. cbn. split; [lia|eauto]. Qed.
Lemma total_Parse_next ch s p : ps_err p = false → ps_s p = ch :: s → total (Parse ch) (λ _ p', ps_err p' = false ∧ (ahead p' < ahead p)%nat) p.
Proof.
  intros He Es. rewrite <-(set_s_eta p), Es. unfold total. rewrite Parse_at by done. split; [done|]. rewrite !ahead_set_s, He. pose proof (drop_while_length is_blank s). cbn [length]. lia.
Qed.
Lemma total_raw fuel acc p : ps_err p = false → (ahead p < fuel)%nat → total (raw_data fuel acc) (λ _ p', (ahead p' ≤ ahead p)%nat) p.
Proof.
  revert acc p. induction fuel as [|fuel IH]; intros acc p He Hf; [lia|]. cbn [raw_data]. total_step. intros eof p1 [-> ->]. case_bool_decide as Hs; [by apply total_ret|].
  apply total_bind. eapply total_mono; [by apply total_Char_more|]. intros c p2 (-> & Hp2 & _). case_decide; [by apply total_ret|].
  total_step. intros v p3 [H3 He3]. eapply total_mono; [apply IH; [by rewrite He3|lia]|]. cbv beta. lia.
Qed.
Lemma total_deserializeData DecodeB64 p : total (deserializeData DecodeB64) (λ _ p', (ahead p' ≤ pred (ahead p))%nat) p.
Proof.
  unfold deserializeData. total_step. intros c p1 [H1 _]. case_decide.
  - total_step. intros [] p2 H2. total_step. intros c2 p3 [H3 Hc]. case_decide as Hd.
    + destruct Hc as (-> & Ha & s & Es); [by rewrite Hd|]. total_step. intros v p4 [H4 He]. apply total_bind, total_get. apply total_bind.
      assert (He2 : ps_err p2 = false) by (unfold ahead in Ha; destruct (ps_err p2); [lia|done]).
      eapply total_mono; [apply total_raw; [rewrite He; [exact He2|by rewrite Es]|unfold ahead; destruct (ps_err p4); lia]|]. cbv beta. intros raw p5 H5.
      total_step. intros [] p6 H6. apply total_bind, total_of_error. intros d _. apply total_ret. lia.
    + apply total_bind. assert (Hval : total (c ← Char; if decide (c ≠ dquote) then Ident else mret []) (λ _ p', (ahead p' ≤ ahead p3)%nat) p3).
      { total_step. intros c3 p4 [H4 _]. case_decide; [eapply total_mono; [apply total_Ident|cbv beta; lia]|by apply total_ret]. }
      eapply total_mono; [exact Hval|]. cbv beta. intros val p4 H4. total_step. intros [] p5 H5. apply total_bind, total_of_error. intros d _. apply total_ret. lia.
  - total_step. intros q p2 [H2 _]. case_decide; [done|]. apply total_bind, total_get, total_bind. eapply total_mono; [apply total_quoted; unfold ahead; destruct (ps_err p2); lia|].
    cbv beta. intros d p3 H3. total_step. intros [] p4 H4. apply total_ret. lia.
Qed.
Lemma cut_line_length l : l ≠ [] → (length (cut_line l).2 < length l)%nat.
Proof.
  induction l as [|c l IH]; [done|]. intros _. cbn [cut_line]. case_decide; [cbn; lia|]. destruct l as [|d l]; [cbn; lia|].
  specialize (IH ltac:(done)). destruct (cut_line (d :: l)) as [x r]. cbn in *. lia.
Qed.
Lemma total_Scan data p : total (Scan data) (λ o p', match o with Some d => (length d < length data)%nat | None => True end) p.
Proof.
  unfold total, Scan. case_decide as Hd; [done|]. pose proof (cut_line_length data ltac:(tauto)). by destruct (cut_line data).
Qed.
