(* ===== verification/TextSerialize.v ===== *)
(** * The text format of programs: printing (src/prog/encoding.go)

    The serializer numbers the results that are used in the order in which it
    prints them.  Its buffer is the text an operation returns. *)

From S2P Require Import Prelude Bits GoStrings Prog ForeachArg ArgGraph RemoveCall Sizes Conditions Defaults TextLex.

(** [sz_vars] and [sz_varSeq] are the variables of the serializer that change. *)
Record serializer := mkSerializer { sz_vars : gmap argid Z; sz_varSeq : Z }.
Definition allocVarID (id : argid) (ctx : serializer) : Z * serializer :=
  (sz_varSeq ctx, mkSerializer (<[id := sz_varSeq ctx]> (sz_vars ctx)) (sz_varSeq ctx + 1)).

Definition text (s : string) : list Z := bytes_of s.
Definition var_name (id : Z) : list Z := "r"%ch :: print_dec id.
Definition encodingAddrBase : Z := 0x7f0000000000.
Definition serializeAddr (address vmaSize : Z) : list Z :=
  let ssize := if decide (vmaSize ≠ 0) then "/"%ch :: print_hex vmaSize else [] in
  ["("%ch] ++ print_hex (encodingAddrBase +u address) ++ ssize ++ [")"%ch].

(** [ForeachProp] with the keys of the fields: an integer or a flag. *)
Inductive prop_value := PInt (v : Z) | PBool (b : bool).
Definition props_list (ps : CallProps) : list (list Z * prop_value) :=
  [(text "fail_nth", PInt (FailNth ps)); (text "async", PBool (Async ps)); (text "rerun", PInt (Rerun ps))].
Definition prop_is_zero (v : prop_value) : bool :=
  match v with PInt v => bool_decide (v = 0) | PBool b => negb b end.
(** [%d] of an int. *)
Definition print_int (v : Z) : list Z := if decide (v < 0) then "-"%ch :: print_dec (- v) else print_dec v.
Fixpoint serialize_props (anyChangedProps : bool) (l : list (list Z * prop_value)) : list Z :=
  match l with
  | [] => if anyChangedProps then text ")" else []
  | (key, v) :: l =>
      if prop_is_zero v then serialize_props anyChangedProps l
      else
        (if anyChangedProps then text ", " else text " (") ++ key
        ++ match v with PInt v => text ": " ++ print_int v | PBool _ => [] end
        ++ serialize_props true l
  end.

(** Without trailing zeros but one: what a buffer of static size needs. *)
Fixpoint strip_zeros (rev : list Z) : list Z :=
  match rev with
  | a :: ((b :: _) as r) => if decide (a = 0 ∧ b = 0) then strip_zeros r else rev
  | _ => rev
  end.

Section serialize.
Context (typeRefs : list Typ) (any : AnyTypes) (EncodeB64 : list Z → list Z) (verbose skipImages : bool).
Local Abbreviation isDefault := (isDefaultArg typeRefs).

Definition serialize_data (t : Typ) (dir : Dir) (data : list Z) (size : Z) : outcome (list Z) :=
  match t with
  | BufferType _ kind _ _ _ _ _ =>
      if decide (dir = DirOut) then
        Ret ([dquote; dquote; "/"%ch] ++ print_dec (if decide (data = []) then size else len data))
      else if match kind with BufferCompressed => true | _ => false end then
        Ret (if skipImages then [dquote] ++ text "<<IMAGE>>" ++ [dquote] else serializeCompressedData EncodeB64 data)
      else
        let sz := len data in
        let stripped := reverse (strip_zeros (reverse data)) in
        let shown := if Varlen t && bool_decide (sz ≤ len stripped + 8) then data else stripped in
        t1 ← serializeData shown (isReadableDataType kind);
        Ret (t1 ++ if Varlen t && bool_decide (sz ≠ len shown) then "/"%ch :: print_dec sz else [])
  | _ => Panic
  end.

(** How many elements remain when default ones are left out from the end. *)
Fixpoint nondefault_prefix (rev : list Arg) : outcome nat :=
  match rev with
  | [] => Ret 0%nat
  | a :: r => d ← isDefault a; if (d : bool) then nondefault_prefix r else Ret (S (length r))
  end.
Definition shown_elements (t : Typ) (inner : list Arg) : outcome nat :=
  if verbose then Ret (length inner)
  else fixed ← fixedInnerSize t; if (fixed : bool) then nondefault_prefix (reverse inner) else Ret (length inner).
Definition group_delims (t : Typ) : outcome (Z * Z) :=
  match t with
  | StructType _ _ _ _ => Ret ("{"%ch, "}"%ch)
  | ArrayType _ _ _ _ _ => Ret ("["%ch, "]"%ch)
  | _ => Panic
  end.
Definition is_pad (a : Arg) : outcome bool := t ← TypeOf typeRefs a; Ret (TIsPad t).

(** Elements up to [shown]; paddings are skipped but count. *)
Section elements.
Context (ser : Arg → serializer → outcome (list Z * serializer)).
Fixpoint serialize_elements (shown i : nat) (l : list Arg) (ctx : serializer) {struct l} : outcome (list Z * serializer) :=
  match l, shown with
  | a :: l, S shown =>
      pad ← is_pad a;
      if (pad : bool) then serialize_elements shown (S i) l ctx
      else
        '(t1, ctx) ← ser a ctx;
        '(t2, ctx) ← serialize_elements shown (S i) l ctx;
        Ret ((if decide (i = 0%nat) then [] else text ", ") ++ t1 ++ t2, ctx)
  | _, _ => Ret ([], ctx)
  end.
End elements.

Definition serialize_result (r : ResultArg) (ctx : serializer) : outcome (list Z * serializer) :=
  let '(t1, ctx) :=
    if decide (uses r ≠ ∅) then
      let '(id, ctx) := allocVarID (rid r) ctx in ("<"%ch :: var_name id ++ text "=>", ctx)
    else ([], ctx) in
  match res_Res r with
  | None => Ret (t1 ++ print_hex (res_Val r), ctx)
  | Some x =>
      match sz_vars ctx !! x with
      | None => Panic
      | Some id =>
          Ret (t1 ++ var_name id
               ++ (if decide (OpDiv r ≠ 0) then "/"%ch :: print_dec (OpDiv r) else [])
               ++ (if decide (OpAdd r ≠ 0) then "+"%ch :: print_dec (OpAdd r) else []), ctx)
      end
  end.
(** [ctx.arg]: dispatches to the [serialize] methods; a nil argument prints [nil]. *)
Fixpoint serialize (a : Arg) (ctx : serializer) : outcome (list Z * serializer) :=
  match a with
  | ConstArg _ v => Ret (print_hex v, ctx)
  | PointerArg _ address vmaSize res =>
      if IsSpecial address vmaSize res then Ret (print_hex address, ctx)
      else
        let addr := "&"%ch :: serializeAddr address vmaSize in
        t ← TypeOf typeRefs a;
        short ← match res with
                | Some x => if verbose then Ret false else d ← isDefault x; Ret (d && negb (isAnyPtr any t))
                | None => Ret false
                end;
        if (short : bool) then Ret (addr, ctx)
        else
          '(t1, ctx) ← match res with Some x => serialize x ctx | None => Ret (text "nil", ctx) end;
          Ret (addr ++ ["="%ch] ++ (if isAnyPtr any t then text "ANY=" else []) ++ t1, ctx)
  | DataArg c data size =>
      t ← TypeOf typeRefs a;
      t1 ← serialize_data t (arg_dir c) data size;
      Ret (t1, ctx)
  | GroupArg _ inner =>
      t ← TypeOf typeRefs a;
      '(op, cl) ← group_delims t;
      shown ← shown_elements t inner;
      '(t1, ctx) ← serialize_elements serialize shown 0 inner ctx;
      Ret (op :: t1 ++ [cl], ctx)
  | UnionArg _ opt idx _ =>
      t ← TypeOf typeRefs a;
      match t with
      | UnionType _ fields =>
          f ← index fields idx;
          let name := "@"%ch :: text (FieldName f) in
          d ← (if verbose then Ret false else isDefault opt);
          if (d : bool) then Ret (name, ctx)
          else '(t1, ctx) ← serialize opt ctx; Ret (name ++ ["="%ch] ++ t1, ctx)
      | _ => Panic
      end
  | AResult r => serialize_result r ctx
  end.

Definition serialize_call (c : Call) (ctx : serializer) : outcome (list Z * serializer) :=
  let '(t1, ctx) :=
    match CRet c with
    | Some r =>
        if decide (uses r ≠ ∅) then let '(id, ctx) := allocVarID (rid r) ctx in (var_name id ++ text " = ", ctx) else ([], ctx)
    | None => ([], ctx)
    end in
  match Meta c with
  | None => Panic
  | Some m =>
      '(t2, ctx) ← serialize_elements serialize (length (Args c)) 0 (Args c) ctx;
      Ret (t1 ++ text (Name m) ++ ["("%ch] ++ t2 ++ [")"%ch] ++ serialize_props false (props_list (Props c)) ++ [10], ctx)
  end.
Fixpoint print_calls (l : list (option Call)) (ctx : serializer) : outcome (list Z * serializer) :=
  match l with
  | [] => Ret ([], ctx)
  | None :: _ => Panic
  | Some c :: l => '(t1, ctx) ← serialize_call c ctx; '(t2, ctx) ← print_calls l ctx; Ret (t1 ++ t2, ctx)
  end.
(** [Prog.Serialize] *)
Definition Serialize (p : Prog) : outcome (list Z) :=
  '(t, _) ← print_calls (Calls p) (mkSerializer ∅ 0); Ret t.
End serialize.

(** [Prog.String] *)
Fixpoint prog_String_from (first : bool) (l : list (option Call)) : outcome (list Z) :=
  match l with
  | [] => Ret []
  | c :: l =>
      match c ≫= Meta with
      | None => Panic
      | Some m => r ← prog_String_from false l; Ret ((if first then [] else text "-") ++ text (Name m) ++ r)
      end
  end.
Definition prog_String (p : Prog) : outcome (list Z) := prog_String_from true (Calls p).
