(* ===== verification/TextParse.v ===== *)
(** * The text format of programs: parsing (src/prog/encoding.go)

    The parser builds arguments bottom up and repairs what does not fit the
    descriptions: in strict mode a repair is an error, otherwise default
    arguments take the place of what is missing or wrong.  A method that
    parses nested arguments is given the method for those; [parseArg] ties the
    knot with fuel. *)

From S2P Require Import Prelude Bits GoStrings Prog ForeachArg ArgGraph RemoveCall Sizes Conditions Defaults Generate TextLex TextSerialize.

(** ** Changes of the parser object *)

Definition set_next (n : argid) (p : parser) : parser :=
  mkParser (ps_s p) (ps_err p) (ps_vars p) (ps_autos p) (ps_comment p) n (ps_uses p).
Definition set_comment (c : string) (p : parser) : parser :=
  mkParser (ps_s p) (ps_err p) (ps_vars p) (ps_autos p) c (ps_next p) (ps_uses p).
(** [p.vars[name] = id] *)
Definition set_var (name : list Z) (id : argid) (p : parser) : parser :=
  mkParser (ps_s p) (ps_err p) (<[name := id]> (ps_vars p)) (ps_autos p) (ps_comment p) (ps_next p) (ps_uses p).
(** [r.uses[arg] = true] *)
Definition add_use (r user : argid) (p : parser) : parser :=
  mkParser (ps_s p) (ps_err p) (ps_vars p) (ps_autos p) (ps_comment p) (ps_next p) (ps_uses p ++ [(r, user)]).
Definition add_auto (id : argid) (p : parser) : parser :=
  mkParser (ps_s p) (ps_err p) (ps_vars p) (Some ({[id]} ∪ default ∅ (ps_autos p))) (ps_comment p) (ps_next p) (ps_uses p).
(** The identity of the next argument. *)
Definition fresh_arg : parsing parser argid := λ p, Ok (ps_next p, set_next (ps_next p + 1) p).
(** [p.auto(arg)] *)
Definition auto_arg (a : Arg) : parsing parser Arg := update_state (add_auto (aid a));; mret a.

Section eat.
Context (strict : bool).
Definition strictFailf : parsing parser unit := update_state (λ p, if strict then failf p else p).

(** Skips the bytes of a quoted text. *)
Fixpoint eat_quoted (fuel : nat) (ch : Z) : parsing parser unit :=
  match fuel with
  | O => λ _, NoFuel
  | S fuel =>
      eof ← EOF;
      if (eof : bool) then mret tt
      else c ← Char; if decide (c = ch) then mret tt else c ← Char; Parse c;; eat_quoted fuel ch
  end.
(** The loop of [eatExcessive] with its three counters. *)
Fixpoint eat_loop (fuel : nat) (stopAtComma : bool) (paren brack brace : Z) : parsing parser unit :=
  match fuel with
  | O => λ _, NoFuel
  | S fuel =>
      eof ← EOF;
      p ← get_state;
      if eof || ps_err p then mret tt
      else
        ch ← Char;
        if decide (ch = "("%ch) then Parse ch;; eat_loop fuel stopAtComma (paren + 1) brack brace
        else if decide (ch = ")"%ch) then
          if decide (paren = 0) then mret tt else Parse ch;; eat_loop fuel stopAtComma (paren - 1) brack brace
        else if decide (ch = "["%ch) then Parse ch;; eat_loop fuel stopAtComma paren (brack + 1) brace
        else if decide (ch = "]"%ch) then
          if decide (brack = 0) then mret tt else Parse ch;; eat_loop fuel stopAtComma paren (brack - 1) brace
        else if decide (ch = "{"%ch) then Parse ch;; eat_loop fuel stopAtComma paren brack (brace + 1)
        else if decide (ch = "}"%ch) then
          if decide (brace = 0) then mret tt else Parse ch;; eat_loop fuel stopAtComma paren brack (brace - 1)
        else if decide (ch = ","%ch ∧ stopAtComma = true ∧ paren = 0 ∧ brack = 0 ∧ brace = 0) then mret tt
        else if decide (ch = 39 ∨ ch = dquote) then
          Parse ch;;
          p ← get_state;
          eat_quoted (S (S (length (ps_s p)))) ch;;
          eof ← EOF;
          if (eof : bool) then mret tt else Parse ch;; eat_loop fuel stopAtComma paren brack brace
        else Parse ch;; eat_loop fuel stopAtComma paren brack brace
  end.
Definition eatExcessive (stopAtComma : bool) : parsing parser unit :=
  strictFailf;; p ← get_state; eat_loop (S (S (length (ps_s p)))) stopAtComma 0 0 0.
End eat.

Section parse.
Context (target : Target) (PtrSize : Z) (typeRefs : list Typ) (any : AnyTypes).
Context (DecodeB64 : list Z → option (list Z)) (DecompressCheck : list Z → bool) (Compress : list Z → list Z).
(** [fuel] bounds the nesting of the types of default arguments. *)
Context (fuel : nat) (strict unsafe : bool).
Local Abbreviation strictFailf := (strictFailf strict).
Local Abbreviation eatExcessive := (eatExcessive strict).

(** [typ.DefaultArg(dir)] *)
Definition default_arg (r : Ref) (dir : Dir) : parsing parser Arg :=
  p ← get_state;
  '(a, n) ← of_fueled (DefaultArg typeRefs fuel r dir (ps_next p));
  update_state (set_next n);; mret a.
Definition make_arg (f : argid → Arg) : parsing parser Arg := n ← fresh_arg; mret (f n).
Definition try_arg (f : argid → outcome Arg) : parsing parser Arg := n ← fresh_arg; of_outcome (f n).
Definition type_at (r : Ref) : parsing parser Typ := of_outcome (index typeRefs r).
(** [target.getAnyPtrType] *)
Definition getAnyPtrType (size : Z) : outcome Ref :=
  if decide (size = PtrSize) then Ret (any_ptrPtr any) else if decide (size = 8) then Ret (any_ptr64 any) else Panic.

Definition parseArgInt (r : Ref) (t : Typ) (dir : Dir) : parsing parser Arg :=
  val ← Ident;
  v ← of_error (ParseUint val);
  match t with
  | ConstType _ _ _ | IntType _ _ _ _ _ | FlagsType _ _ _ | ProcType _ _ _ | CsumType _ _ _ _ =>
      arg ← make_arg (MakeConstArg t dir v);
      isDef ← (if decide (dir = DirOut) then of_outcome (isDefaultArg typeRefs arg) else mret true);
      if (isDef : bool) then mret arg else strictFailf;; default_arg r dir
  | LenType _ _ _ _ => make_arg (MakeConstArg t dir v)
  | ResourceType _ _ _ => make_arg (MakeResultArg t dir v)
  | PtrType _ _ _ _ | VmaType _ _ _ =>
      let n := len (SpecialPointers target) in
      if decide (n = 0) then of_outcome Panic
      else try_arg (MakeSpecialPointerArg t dir (u64 (- v) mod n))
  | _ => eatExcessive true;; default_arg r dir
  end.

(** The fields of a structure marked AUTO inherit the direction of it. *)
Fixpoint parseAuto (n : nat) (r : Ref) (dir : Dir) : parsing parser Arg :=
  match n with
  | O => λ _, NoFuel
  | S n =>
      t ← type_at r;
      match t with
      | ConstType _ _ _ | LenType _ _ _ _ | CsumType _ _ _ _ => a ← make_arg (MakeConstArg t dir 0); auto_arg a
      | StructType _ fields _ _ =>
          inner ← (fix go (l : list Field) : parsing parser (list Arg) :=
                     match l with
                     | [] => mret []
                     | f :: l => a ← parseAuto n (FieldType f) dir; r ← go l; mret (a :: r)
                     end) fields;
          make_arg (MakeGroupArg t dir inner)
      | _ => errorf
      end
  end.

(** The operand after [ch], 0 when there is none. *)
Definition parse_op (ch : Z) : parsing parser Z :=
  c ← Char;
  if decide (c = ch) then Parse ch;; op ← Ident; of_error (ParseUint op) else mret 0.
Definition parseArgRes (r : Ref) (t : Typ) (dir : Dir) : parsing parser Arg :=
  id ← Ident;
  div ← parse_op "/"%ch;
  add ← parse_op "+"%ch;
  p ← get_state;
  match ps_vars p !! id with
  | None => strictFailf;; default_arg r dir
  | Some v =>
      n ← fresh_arg;
      update_state (add_use v n);;
      mret (AResult (mkResultArg (make_common t dir n) (Some v) div add 0 ∅))
  end.

(** The address and the size of the area, 0 when there is none. *)
Definition parseAddr : parsing parser (Z * Z) :=
  Parse "("%ch;;
  pstr ← Ident;
  addr ← of_error (ParseUint pstr);
  let addr := addr -u encodingAddrBase in
  c ← Char;
  '(addr, vmaSize) ←
    (if decide (c = "/"%ch) then
       Parse "/"%ch;;
       pstr ← Ident;
       size ← of_error (ParseUint pstr);
       let addr := Z.land addr (not64 (PageSize target -u 1)) in
       let vmaSize := Z.land (size +u PageSize target -u 1) (not64 (PageSize target -u 1)) in
       let vmaSize := if decide (vmaSize = 0) then PageSize target else vmaSize in
       mret (if unsafe then (addr, vmaSize)
             else
               let maxMem := NumPages target *u PageSize target in
               let vmaSize := Z.min vmaSize maxMem in
               (Z.min addr (maxMem -u vmaSize), vmaSize))
     else mret (addr, 0));
  Parse ")"%ch;;
  mret (addr, vmaSize).

(** A value of a string type that is not among those it may have. *)
Definition AUTOGENERATED : list Z := text "AUTOGENERATED".
Definition check_string (kind : BufferKind) (Values : list string) (data : list Z) : parsing parser (list Z) :=
  match kind, Values with
  | (BufferString | BufferGlob), v0 :: _ =>
      if decide (AUTOGENERATED `prefix_of` bytes_of v0) then mret data
      else if decide (data ∈ (bytes_of <$> Values)) then mret data
      else strictFailf;; mret (bytes_of v0)
  | _, _ => mret data
  end.
Definition noSize : Z := 2 ^ 64 - 1.
(** [data[:size]] after padding with zeros. *)
Definition fit_data (data : list Z) (size : Z) : outcome (list Z) :=
  let data := data ++ replicate (Z.to_nat (i64 size - len data)) 0 in
  if decide (size ≤ len data) then Ret (take (Z.to_nat size) data) else Panic.
Definition parseArgString (r : Ref) (t : Typ) (dir : Dir) : parsing parser Arg :=
  match t with
  | BufferType _ kind _ _ _ Values _ =>
      '(data, b64) ← deserializeData DecodeB64;
      data ← (if match kind with BufferCompressed => negb (DecompressCheck data) | _ => false end
              then strictFailf;; mret (Compress []) else mret data);
      c ← Char;
      size ←
        (if bool_decide (c = "/"%ch) && negb b64 then
           Parse "/"%ch;;
           sizeStr ← Ident;
           size ← of_error (ParseUint sizeStr);
           let maxMem := NumPages target *u PageSize target in
           if decide (maxMem < size) then strictFailf;; mret maxMem else mret size
         else mret noSize);
      size ← (if negb (Varlen t) then of_outcome (TSize t) else mret (if decide (size = noSize) then len data else size));
      if decide (dir = DirOut) then try_arg (MakeOutDataArg t dir size)
      else
        data ← of_outcome (fit_data data size);
        data ← check_string kind Values data;
        try_arg (MakeDataArg t dir data)
  | _ => eatExcessive true;; default_arg r dir
  end.

Section nested.
(** [p.parseArg], for the arguments inside the one being parsed. *)
Context (rec : option Ref → Dir → parsing parser (option Arg)).
(** An argument of a type that is not nil is not nil. *)
Definition rec_arg (r : Ref) (dir : Dir) : parsing parser Arg :=
  a ← rec (Some r) dir; of_outcome (match a with Some a => Ret a | None => Panic end).

(** What follows the [&]: AUTO, or an address and the size of an area. *)
Definition parse_pointee_addr (isVma : bool) : parsing parser (bool * Z * Z) :=
  c ← Char;
  if decide (c = "A"%ch) then
    Parse "A"%ch;; Parse "U"%ch;; Parse "T"%ch;; Parse "O"%ch;;
    if isVma then errorf else mret (true, 0, 0)
  else '(addr, vmaSize) ← parseAddr; mret (false, addr, vmaSize).
(** [ANY=] makes the pointer one to squashed data. *)
Definition parse_any (t : Typ) (elem : option (Ref * Dir)) (squashable : bool) : parsing parser (Typ * option (Ref * Dir)) :=
  isAny ← HasNext (text "ANY");
  if (isAny : bool) then
    Parse "A"%ch;; Parse "N"%ch;; Parse "Y"%ch;; Parse "="%ch;;
    if squashable then
      sz ← of_outcome (TSize t);
      r ← of_outcome (getAnyPtrType sz);
      t ← type_at r;
      match t with PtrType _ e d _ => mret (t, Some (e, d)) | _ => of_outcome Panic end
    else mret (t, elem)
  else mret (t, elem).
(** A pointer ([elem] is its element) or an area. *)
Definition parse_pointer (t : Typ) (dir : Dir) (elem : option (Ref * Dir)) (squashable : bool) : parsing parser Arg :=
  Parse "&"%ch;;
  '(auto, addr, vmaSize) ← parse_pointee_addr (match elem with None => true | Some _ => false end);
  c ← Char;
  '(t, elem, inner) ←
    (if decide (c = "="%ch) then
       Parse "="%ch;;
       '(t, elem) ← parse_any t elem squashable;
       inner ← rec (fst <$> elem) (match elem with Some (_, d) => d | None => DirInOut end);
       mret (t, elem, inner)
     else mret (t, elem, None));
  match elem with
  | None =>
      addr ← (if decide (addr mod PageSize target ≠ 0)
              then strictFailf;; mret (Z.land addr (not64 (PageSize target -u 1))) else mret addr);
      try_arg (MakeVmaPointerArg t dir addr vmaSize)
  | Some (e, elemDir) =>
      inner ← match inner with Some a => mret a | None => default_arg e elemDir end;
      arg ← make_arg (MakePointerArg t addr inner);
      if (auto : bool) then auto_arg arg else mret arg
  end.
Definition parseArgAddr (r : Ref) (t : Typ) (dir : Dir) : parsing parser Arg :=
  match t with
  | PtrType _ e d squashable => parse_pointer t dir (Some (e, d)) squashable
  | VmaType _ _ _ => parse_pointer t dir None false
  | _ => eatExcessive true;; default_arg r dir
  end.

(** The loop over the fields up to the closing brace. *)
Fixpoint struct_fields (fields : list Field) (dir : Dir) (inner : list Arg) : parsing parser (list Arg) :=
  c ← Char;
  if decide (c = "}"%ch) then mret inner
  else
    match fields with
    | [] => eatExcessive false;; mret inner
    | f :: fields =>
        t ← type_at (FieldType f);
        if TIsPad t then
          a ← make_arg (MakeConstArg t (FieldDir f dir) 0);
          struct_fields fields dir (inner ++ [a])
        else
          a ← rec_arg (FieldType f) (FieldDir f dir);
          c ← Char;
          (if decide (c ≠ "}"%ch) then Parse ","%ch else mret tt);;
          struct_fields fields dir (inner ++ [a])
    end.
Fixpoint missing_fields (fields : list Field) (dir : Dir) : parsing parser (list Arg) :=
  match fields with
  | [] => mret []
  | f :: fields =>
      t ← type_at (FieldType f);
      (if TIsPad t then mret tt else strictFailf);;
      a ← default_arg (FieldType f) (FieldDir f dir);
      l ← missing_fields fields dir;
      mret (a :: l)
  end.
Definition parseArgStruct (r : Ref) (t : Typ) (dir : Dir) : parsing parser Arg :=
  Parse "{"%ch;;
  match t with
  | StructType _ fields _ _ =>
      inner ← struct_fields fields dir [];
      Parse "}"%ch;;
      rest ← missing_fields (drop (length inner) fields) dir;
      make_arg (MakeGroupArg t dir (inner ++ rest))
  | _ => eatExcessive false;; Parse "}"%ch;; default_arg r dir
  end.

(** Every turn takes a byte or leaves an error, after which the next one fails. *)
Fixpoint array_elems (n : nat) (elem : Ref) (dir : Dir) (inner : list Arg) : parsing parser (list Arg) :=
  match n with
  | O => λ _, NoFuel
  | S n =>
      c ← Char;
      if decide (c = "]"%ch) then mret inner
      else
        a ← rec_arg elem dir;
        c ← Char;
        (if decide (c ≠ "]"%ch) then Parse ","%ch else mret tt);;
        array_elems n elem dir (inner ++ [a])
  end.
Fixpoint missing_elems (k : nat) (elem : Ref) (dir : Dir) : parsing parser (list Arg) :=
  match k with
  | O => mret []
  | S k => strictFailf;; a ← default_arg elem dir; l ← missing_elems k elem dir; mret (a :: l)
  end.
Definition parseArgArray (r : Ref) (t : Typ) (dir : Dir) : parsing parser Arg :=
  Parse "["%ch;;
  match t with
  | ArrayType _ elem kind lo hi =>
      p ← get_state;
      inner ← array_elems (S (S (length (ps_s p)))) elem dir [];
      Parse "]"%ch;;
      inner ←
        (if match kind with ArrayRangeLen => bool_decide (lo = hi) | ArrayRandLen => false end then
           rest ← missing_elems (Z.to_nat (lo - len inner)) elem dir;
           mret (take (Z.to_nat lo) (inner ++ rest))
         else mret inner);
      make_arg (MakeGroupArg t dir inner)
  | _ => eatExcessive false;; Parse "]"%ch;; default_arg r dir
  end.

(** The first field with the name. *)
Fixpoint find_option (name : list Z) (i : Z) (fields : list Field) : option (Z * Field) :=
  match fields with
  | [] => None
  | f :: fields => if decide (name = bytes_of (FieldName f)) then Some (i, f) else find_option name (i + 1) fields
  end.
Definition parseArgUnion (r : Ref) (t : Typ) (dir : Dir) : parsing parser Arg :=
  match t with
  | UnionType _ fields =>
      Parse "@"%ch;;
      name ← Ident;
      match find_option name 0 fields with
      | None => eatExcessive true;; default_arg r dir
      | Some (idx, f) =>
          c ← Char;
          opt ← (if decide (c = "="%ch) then Parse "="%ch;; rec_arg (FieldType f) (FieldDir f dir)
                 else default_arg (FieldType f) (FieldDir f dir));
          make_arg (MakeUnionArg t dir opt idx false)
      end
  | _ => eatExcessive true;; default_arg r dir
  end.

Definition parseArgImpl (r : option Ref) (dir : Dir) : parsing parser (option Arg) :=
  nilType ← match r with None => c ← Char; mret (bool_decide (c ≠ "n"%ch)) | Some _ => mret false end;
  if (nilType : bool) then eatExcessive true;; mret None
  else
    c ← Char;
    let typed (f : Ref → Typ → Dir → parsing parser Arg) : parsing parser (option Arg) :=
      match r with
      | None => of_outcome Panic
      | Some r => t ← type_at r; a ← f r t dir; mret (Some a)
      end in
    if decide ("0"%ch ≤ c ≤ "9"%ch) then typed parseArgInt
    else if decide (c = "r"%ch) then typed parseArgRes
    else if decide (c = "&"%ch) then typed parseArgAddr
    else if decide (c = dquote ∨ c = 39) then typed parseArgString
    else if decide (c = "{"%ch) then typed parseArgStruct
    else if decide (c = "["%ch) then typed parseArgArray
    else if decide (c = "@"%ch) then typed parseArgUnion
    else if decide (c = "n"%ch) then Parse "n"%ch;; Parse "i"%ch;; Parse "l"%ch;; mret None
    else if decide (c = "A"%ch) then
      Parse "A"%ch;; Parse "U"%ch;; Parse "T"%ch;; Parse "O"%ch;; typed (λ r _ dir, parseAuto fuel r dir)
    else errorf.
Definition parse_arg_body (r : option Ref) (dir : Dir) : parsing parser (option Arg) :=
  c ← Char;
  name ← (if decide (c = "<"%ch) then
            Parse "<"%ch;; name ← Ident; Parse "="%ch;; Parse ">"%ch;; mret name
          else mret []);
  arg ← parseArgImpl r dir;
  arg ← match arg, r with
        | Some a, _ => mret (Some a)
        | None, Some r => a ← default_arg r dir; mret (Some a)
        | None, None => if decide (name ≠ []) then errorf else mret None
        end;
  (if decide (name ≠ []) then
     match arg with
     | Some (AResult x) => update_state (set_var name (rid x))
     | _ => strictFailf
     end
   else mret tt);;
  mret arg.
End nested.

Fixpoint parseArg (n : nat) (r : option Ref) (dir : Dir) : parsing parser (option Arg) :=
  match n with
  | O => λ _, NoFuel
  | S n => parse_arg_body (parseArg n) r dir
  end.

(** ** Calls *)

(** [value.SetInt] and [value.SetBool] on the property with the key. *)
Definition prop_key_kind (key : list Z) : option bool := match list_find (λ kv, kv.1 = key) (props_list noProps) with
  | Some (_, (_, PInt _)) => Some true | Some (_, (_, PBool _)) => Some false | None => None end.
Definition set_int_prop (key : list Z) (v : Z) (ps : CallProps) : CallProps :=
  if decide (key = text "fail_nth") then mkCallProps v (Async ps) (Rerun ps) else mkCallProps (FailNth ps) (Async ps) v.
Definition set_bool_prop (ps : CallProps) : CallProps := mkCallProps (FailNth ps) true (Rerun ps).
Fixpoint parse_props (n : nat) (ps : CallProps) : parsing parser CallProps :=
  match n with
  | O => λ _, NoFuel
  | S n =>
      p ← get_state;
      if ps_err p then mret ps
      else
        c ← Char;
        if decide (c = ")"%ch) then mret ps
        else
          propName ← Ident;
          let next ps := c ← Char; (if decide (c ≠ ")"%ch) then Parse ","%ch else mret tt);; parse_props n ps in
          match prop_key_kind propName with
          | None => eatExcessive true;; c ← Char; (if decide (c = ","%ch) then Parse ","%ch else mret tt);; parse_props n ps
          | Some true =>
              Parse ":"%ch;;
              strVal ← Ident;
              match ParseInt strVal with
              | None => strictFailf;; next ps
              | Some v => next (set_int_prop propName v ps)
              end
          | Some false => next (set_bool_prop ps)
          end
  end.
Definition parseCallProps : parsing parser CallProps := p ← get_state; parse_props (S (S (length (ps_s p)))) noProps.

(** The loop over the arguments up to the closing parenthesis. *)
Fixpoint call_args (fields : list Field) (args : list Arg) : parsing parser (list Arg) :=
  c ← Char;
  if decide (c = ")"%ch) then mret args
  else
    match fields with
    | [] => eatExcessive false;; mret args
    | f :: fields =>
        t ← type_at (FieldType f);
        if TIsPad t then errorf
        else
          p ← get_state;
          a ← rec_arg (parseArg (S (S (S (length (ps_s p)))))) (FieldType f) DirIn;
          c ← Char;
          (if decide (c ≠ ")"%ch) then Parse ","%ch else mret tt);;
          call_args fields (args ++ [a])
    end.
Fixpoint missing_args (fields : list Field) : parsing parser (list Arg) :=
  match fields with
  | [] => mret []
  | f :: fields => strictFailf;; a ← default_arg (FieldType f) DirIn; l ← missing_args fields; mret (a :: l)
  end.
(** [MakeReturnArg] *)
Definition make_return (r : option Ref) : parsing parser (option ResultArg) :=
  match r with
  | None => mret None
  | Some r => t ← type_at r; n ← fresh_arg; mret (Some (mkResultArg (make_common t DirOut n) None 0 0 0 ∅))
  end.
(** [strings.TrimSpace(p.s[p.i+1:])] *)
Definition rest_comment (p : parser) : string := TrimSpace (to_string (tail (ps_s p))).
Definition add_comment (c : string) (l : list string) : list string := if decide (c = ""%string) then l else l ++ [c].

(** A line with a call; the comments of the program are passed along. *)
Definition parse_call (comments : list string) : parsing parser (Call * list string) :=
  name ← Ident;
  c ← Char;
  '(r, name) ← (if decide (c = "="%ch) then Parse "="%ch;; name' ← Ident; mret (name, name') else mret ([], name));
  meta ← of_error (SyscallMap target !! to_string name);
  ret ← make_return (SysRet meta);
  p ← get_state;
  let comment := ps_comment p in
  Parse "("%ch;;
  args ← call_args (SysArgs meta) [];
  Parse ")"%ch;;
  eof ← EOF;
  props ← (if (eof : bool) then mret noProps
           else c ← Char; if decide (c = "("%ch) then Parse "("%ch;; ps ← parseCallProps; Parse ")"%ch;; mret ps else mret noProps);
  eof ← EOF;
  '(comment, comments) ←
    (if (eof : bool) then mret (comment, comments)
     else
       c ← Char;
       if decide (c ≠ "#"%ch) then errorf
       else p ← get_state; mret (rest_comment p, add_comment comment comments));
  missing ← missing_args (drop (length args) (SysArgs meta));
  let args := args ++ missing in
  if decide (length args ≠ length (SysArgs meta)) then errorf
  else
    match ret with
    | Some x => if decide (r ≠ []) then update_state (set_var r (rid x)) else mret tt
    | None => mret tt
    end;;
    update_state (set_comment "");;
    mret (mkCall (Some meta) args ret props comment, comments).

(** The loop over the lines; every turn takes a byte of the data. *)
Fixpoint parse_lines (n : nat) (data : list Z) (calls : list (option Call)) (comments : list string) : parsing parser (list (option Call) * list string) :=
  match n with
  | O => λ _, NoFuel
  | S n =>
      more ← Scan data;
      match more with
      | None => p ← get_state; mret (calls, add_comment (ps_comment p) comments)
      | Some data =>
          eof ← EOF;
          p ← get_state;
          if (eof : bool) then update_state (set_comment "");; parse_lines n data calls (add_comment (ps_comment p) comments)
          else
            c ← Char;
            if decide (c = "#"%ch) then
              update_state (set_comment (rest_comment p));;
              parse_lines n data calls (add_comment (ps_comment p) comments)
            else
              '(call, comments) ← parse_call comments;
              parse_lines n data (calls ++ [Some call]) comments
      end
  end.

(** The [uses] maps as they are in the end. *)
Definition used_by (links : list (argid * argid)) (x : argid) : gset argid := list_to_set (snd <$> filter (λ l, l.1 = x) links).
Definition link_calls (links : list (argid * argid)) : list (option Call) → list (option Call) :=
  map_calls_results (λ r, set_uses r (used_by links (rid r))).
Definition parseProg (data : list Z) : parsing parser Prog :=
  '(calls, comments) ← parse_lines (S (length data)) data [] [];
  p ← get_state;
  mret (mkProg (link_calls (ps_uses p) calls) comments unsafe).
(** Parsing as [Deserialize] starts it: an error of the parser counts. *)
Definition parse_text (data : list Z) (n : argid) : result (Prog * parser) :=
  match parseProg data (newParser n) with
  | Ok (prog, p) => if ps_err p then Bad else Ok (prog, p)
  | r => r
  end.
End parse.

(** ** Parsing is total *)

Section total_eat.
Context (strict : bool).
Lemma total_strictFailf p : total (strictFailf strict) (λ _ p', (ahead p' ≤ ahead p)%nat) p.
Proof. apply total_update. destruct strict; [rewrite ahead_failf|]; lia. Qed.
Lemma total_eat_quoted n ch p : ps_err p = false → (ahead p < n)%nat → total (eat_quoted n ch) (λ _ p', (ahead p' ≤ ahead p)%nat) p.
Proof.
  revert p. induction n as [|n IH]; intros p He Hn; [lia|]. cbn [eat_quoted]. total_step. intros eof p1 [-> ->]. case_bool_decide as Hs; [by apply total_ret|].
  apply total_bind. eapply total_mono; [by apply total_Char_more|]. intros c p2 (-> & Hp & s & Es). case_decide; [by apply total_ret|].
  apply total_bind. eapply total_mono; [by apply total_Char_more|]. intros c' p2 (-> & _ & s' & Es'). apply total_bind. eapply total_mono; [by eapply total_Parse_next|].
  intros [] p3 [He3 H3]. eapply total_mono; [apply IH; [done|lia]|]. cbv beta. lia.
Qed.
Lemma total_eat_loop n stop paren brack brace p : (ahead p < n)%nat → total (eat_loop n stop paren brack brace) (λ _ p', (ahead p' ≤ ahead p)%nat) p.
Proof.
  revert paren brack brace p. induction n as [|n IH]; intros paren brack brace p Hn; [lia|]. cbn [eat_loop]. total_step. intros eof p1 [-> ->]. apply total_bind, total_get.
  destruct (_ || _) eqn:Eb; [by apply total_ret|]. apply orb_false_iff in Eb as [Hs He]. apply bool_decide_eq_false in Hs.
  apply total_bind. eapply total_mono; [by apply total_Char_more|]. intros ch p2 (-> & Hp & s & Es).
  assert (Hgo : ∀ a b c p', (ahead p' ≤ ahead p)%nat → total (Parse ch;; eat_loop n stop a b c) (λ _ p'', (ahead p'' ≤ ahead p)%nat) p').
  { intros a b c p' Hp'. total_step. intros [] p3 H3. eapply total_mono; [apply IH; lia|]. cbv beta. lia. }
  repeat case_decide; first [by apply total_ret|by apply Hgo|idtac]. apply total_bind. eapply total_mono; [by eapply total_Parse_next|]. intros [] p3 [He3 Hlt].
  apply total_bind, total_get, total_bind. eapply total_mono; [apply total_eat_quoted; [done|unfold ahead; rewrite He3; lia]|]. cbv beta. intros [] p4 Hle.
  total_step. intros eof p5 [-> ->]. case_bool_decide; [apply total_ret; lia|]. apply Hgo. lia.
Qed.
Lemma total_eatExcessive stop p : total (eatExcessive strict stop) (λ _ p', (ahead p' ≤ ahead p)%nat) p.
Proof.
  unfold eatExcessive. apply total_bind. eapply total_mono; [apply total_strictFailf|]. cbv beta. intros [] p1 H1. apply total_bind, total_get.
  eapply total_mono; [apply total_eat_loop; unfold ahead; destruct (ps_err p1); lia|]. cbv beta. lia.
Qed.
End total_eat.

(** What parsing relies on: types know themselves and refer to types of the
    table, pointers have one of two sizes, and buffers of fixed size fit into
    memory. *)
Section total_parse.
Context (target : Target) (PtrSize : Z) (typeRefs : list Typ) (any : AnyTypes) (rank : Ref → nat).
Context (DecodeB64 : list Z → option (list Z)) (DecompressCheck : list Z → bool) (Compress : list Z → list Z).
Context (fuel : nat) (strict unsafe : bool).
Definition valid_ref (r : Ref) : Prop := r ≠ 0 ∧ ∃ t, index typeRefs r = Ret t.
Definition is_any_ptr (r : Ref) : Prop := r ≠ 0 ∧ ∃ c e d sq, index typeRefs r = Ret (PtrType c e d sq) ∧ valid_ref e.
Definition parse_type (t : Typ) : Prop :=
  match t with
  | BufferType c _ _ _ _ _ _ => IsVarlen c = true ∨ 0 ≤ TypeSize c < 2 ^ 63
  | ArrayType _ e _ _ _ => valid_ref e
  | PtrType c e _ sq => valid_ref e ∧ (sq = true → IsVarlen c = false ∧ (TypeSize c = PtrSize ∨ TypeSize c = 8) ∧ is_any_ptr (any_ptrPtr any) ∧ is_any_ptr (any_ptr64 any))
  | StructType _ fields _ _ | UnionType _ fields => ∀ f, f ∈ fields → valid_ref (FieldType f)
  | _ => True
  end.
Record parse_env : Prop := {
  pe_default : ∀ r t, r ≠ 0 → index typeRefs r = Ret t → default_type typeRefs rank r t;
  pe_type : ∀ r t, r ≠ 0 → index typeRefs r = Ret t → parse_type t;
  pe_fuel : ∀ r, valid_ref r → (rank r < fuel)%nat;
  pe_special : 0 < len (SpecialPointers target) ≤ maxSpecialPointers;
  pe_page : ∃ k, 10 ≤ k < 63 ∧ PageSize target = 2 ^ k;
  pe_memory : 0 ≤ NumPages target * PageSize target < 2 ^ 63;
  pe_calls : ∀ name m, SyscallMap target !! name = Some m → (∀ f, f ∈ SysArgs m → valid_ref (FieldType f)) ∧ ∀ r, SysRet m = Some r → valid_ref r
}.
Context (E : parse_env).
Local Abbreviation keeps n := (λ _ p', (ahead p' ≤ n)%nat).

Lemma total_default r dir p : valid_ref r → total (default_arg typeRefs fuel r dir) (keeps (ahead p)) p.
Proof.
  intros [Hr Ht]. unfold default_arg. apply total_bind, total_get, total_bind.
  destruct (DefaultArg_run typeRefs rank (pe_default E) fuel r dir (ps_next p) Hr Ht (pe_fuel E r (conj Hr Ht))) as (a & n & Ea & _).
  eapply total_of_fueled; [exact Ea|]. apply total_bind, total_update, total_ret. done.
Qed.
Lemma total_make f p : total (make_arg f) (λ a p', (ahead p' ≤ ahead p)%nat ∧ a = f (ps_next p)) p.
Proof. done. Qed.
Lemma total_try f p : (∃ a, f (ps_next p) = Ret a) → total (try_arg f) (keeps (ahead p)) p.
Proof. intros [a Ea]. unfold try_arg. apply total_bind. change (total fresh_arg (λ n, total (of_outcome (f n)) (keeps (ahead p))) p) with (total (of_outcome (f (ps_next p))) (keeps (ahead p)) (set_next (ps_next p + 1) p)). by eapply total_of_outcome. Qed.
Lemma total_type r p (Q : Typ → parser → Prop) : valid_ref r → (∀ t, index typeRefs r = Ret t → Q t p) → total (type_at typeRefs r) Q p.
Proof. intros [_ [t Et]] HQ. eapply total_of_outcome; [exact Et|by apply HQ]. Qed.
Lemma total_strict_default r dir p : valid_ref r → total (strictFailf strict;; default_arg typeRefs fuel r dir) (keeps (ahead p)) p.
Proof.
  intros Hr. apply total_bind. eapply total_mono; [apply total_strictFailf|]. cbv beta. intros [] p1 H1. eapply total_mono; [by apply total_default|]. cbv beta. lia.
Qed.
Lemma total_eat_default b r dir p : valid_ref r → total (eatExcessive strict b;; default_arg typeRefs fuel r dir) (keeps (ahead p)) p.
Proof.
  intros Hr. apply total_bind. eapply total_mono; [apply total_eatExcessive|]. cbv beta. intros [] p1 H1. eapply total_mono; [by apply total_default|]. cbv beta. lia.
Qed.
Lemma total_uint (s : list Z) p : total (of_error (ParseUint s)) (keeps (ahead p)) p.
Proof. by apply total_of_error. Qed.

Lemma total_Int r t dir p : valid_ref r → index typeRefs r = Ret t → total (parseArgInt target typeRefs fuel strict r t dir) (keeps (ahead p)) p.
Proof.
  intros Hr Et. unfold parseArgInt. total_step. intros val p1 H1. apply total_bind. apply total_of_error. intros v _.
  assert (Hmake : ∀ f, total (make_arg f) (keeps (ahead p)) p1) by (intros f; eapply total_mono; [apply total_make|cbv beta; lia]).
  assert (Heat : total (eatExcessive strict true;; default_arg typeRefs fuel r dir) (keeps (ahead p)) p1) by (eapply total_mono; [by apply total_eat_default|cbv beta; lia]).
  assert (Hconst : const_default t ≠ None → total (arg ← make_arg (MakeConstArg t dir v);
      isDef ← (if decide (dir = DirOut) then of_outcome (isDefaultArg typeRefs arg) else mret true);
      if (isDef : bool) then mret arg else strictFailf strict;; default_arg typeRefs fuel r dir) (keeps (ahead p)) p1).
  { intros Hc. apply total_bind. eapply total_mono; [apply total_make|]. intros a p2 [H2 ->]. apply total_bind.
    assert (Hd : ∃ b, isDefaultArg typeRefs (MakeConstArg t dir v (ps_next p1)) = Ret b).
    { cbn [isDefaultArg MakeConstArg]. destruct (pe_default E r t (proj1 Hr) Et) as [Hself _]. rewrite (TypeOf_made _ _ r t) by (done || apply Hr). cbn [mbind outcome_bind]. destruct t; try done; eauto. }
    destruct Hd as [b Hb]. assert (Hcont : ∀ b : bool, total (if b then mret (MakeConstArg t dir v (ps_next p1)) else strictFailf strict;; default_arg typeRefs fuel r dir) (keeps (ahead p)) p2).
    { intros []; [apply total_ret; lia|]. eapply total_mono; [by apply total_strict_default|cbv beta; lia]. }
    case_decide; [eapply total_of_outcome; [exact Hb|apply Hcont]|apply total_ret; exact (Hcont true)]. }
  assert (Hptr : total (if decide (len (SpecialPointers target) = 0) then of_outcome Panic
      else try_arg (MakeSpecialPointerArg t dir (u64 (- v) mod len (SpecialPointers target)))) (keeps (ahead p)) p1).
  { pose proof (pe_special E). rewrite decide_False by lia. eapply total_mono; [apply total_try|cbv beta; lia].
    pose proof (Z.mod_pos_bound (u64 (- v)) (len (SpecialPointers target))). unfold MakeSpecialPointerArg. rewrite decide_False by lia. eauto. }
  destruct t; first [by apply Hconst|apply Hmake|exact Hptr|exact Heat].
Qed.

Lemma total_Auto n r dir p : valid_ref r → (rank r < n)%nat → total (parseAuto typeRefs n r dir) (keeps (ahead p)) p.
Proof.
  revert r dir p. induction n as [|n IH]; intros r dir p Hr Hn; [lia|]. cbn [parseAuto]. apply total_bind, total_type; [done|]. intros t Et.
  assert (Hauto : total (a ← make_arg (MakeConstArg t dir 0); auto_arg a) (keeps (ahead p)) p).
  { apply total_bind. eapply total_mono; [apply total_make|]. intros a p1 [H1 _]. unfold auto_arg. apply total_bind, total_update, total_ret. exact H1. }
  destruct t; try done. destruct (pe_default E r _ (proj1 Hr) Et) as [_ Hf]. cbn in Hf. apply total_bind.
  match goal with |- total (?g Fields) ?Q _ => assert (Hl : ∀ l q, (∀ f, f ∈ l → below typeRefs rank r (FieldType f)) → (ahead q ≤ ahead p)%nat → total (g l) (keeps (ahead p)) q) end.
  { induction l as [|f l IHl]; intros q Hl Hq; [by apply total_ret|]. apply total_bind. destruct (Hl f) as (H0 & Hex & Hrk); [by left|].
    eapply total_mono; [apply IH; [done|lia]|]. cbv beta. intros a q1 Hq1. apply total_bind. eapply total_mono; [apply IHl; [intros g Hg; apply Hl; by right|lia]|].
    cbv beta. intros rest q2 Hq2. by apply total_ret. }
  eapply total_mono; [apply Hl; [done|lia]|]. cbv beta. intros inner q Hq. eapply total_mono; [apply total_make|cbv beta; lia].
Qed.
Lemma total_op ch p : total (parse_op ch) (keeps (ahead p)) p.
Proof.
  unfold parse_op. total_step. intros c p1 [H1 _]. case_decide; [|by apply total_ret]. total_step. intros [] p2 H2. total_step. intros op p3 H3.
  apply total_of_error. intros v _. lia.
Qed.
Lemma total_Res r t dir p : valid_ref r → total (parseArgRes typeRefs fuel strict r t dir) (keeps (ahead p)) p.
Proof.
  intros Hr. unfold parseArgRes. total_step. intros id p1 H1. do 2 (apply total_bind; eapply total_mono; [apply total_op|]; cbv beta; intros ? ? ?).
  apply total_bind, total_get. destruct (ps_vars _ !! id); [|eapply total_mono; [by apply total_strict_default|cbv beta; lia]].
  apply total_bind. change fresh_arg with (λ p, @Ok (argid * parser) (ps_next p, set_next (ps_next p + 1) p)). unfold total at 1. cbv beta iota. apply total_bind, total_update, total_ret.
  change (ahead s'0 ≤ ahead p)%nat. lia.
Qed.
Lemma total_Addr p : total (parseAddr target unsafe) (keeps (ahead p)) p.
Proof.
  unfold parseAddr. total_step. intros [] p1 H1. total_step. intros pstr p2 H2. apply total_bind, total_of_error. intros addr _. cbv zeta. total_step. intros c p3 [H3 _]. apply total_bind.
  match goal with |- total ?m ?Q p3 => assert (Hm : total m (keeps (ahead p3)) p3) end.
  { case_decide; [|by apply total_ret]. total_step. intros [] p4 H4. total_step. intros s p5 H5. apply total_bind, total_of_error. intros size _. apply total_ret. lia. }
  eapply total_mono; [exact Hm|]. cbv beta. intros [ad sz] p4 H4. total_step. intros [] p5 H5. apply total_ret. lia.
Qed.
Lemma fit_data_Ret data size : 0 ≤ size < 2 ^ 63 → ∃ d, fit_data data size = Ret d.
Proof.
  intros Hs. unfold fit_data. rewrite decide_True; [eauto|]. rewrite i64_id by (unfold in_i64; lia). unfold len. rewrite length_app, length_replicate. lia.
Qed.
Lemma total_check kind Values data p : total (check_string strict kind Values data) (keeps (ahead p)) p.
Proof.
  assert (Hs : ∀ d : list Z, total (strictFailf strict;; mret d) (keeps (ahead p)) p).
  { intros d. apply total_bind. eapply total_mono; [apply total_strictFailf|]. cbv beta. intros [] p1 H1. by apply total_ret. }
  unfold check_string. destruct kind, Values; try (by apply total_ret); repeat case_decide; first [by apply total_ret|apply Hs].
Qed.
Lemma total_String r t dir p : valid_ref r → index typeRefs r = Ret t →
  total (parseArgString target typeRefs DecodeB64 DecompressCheck Compress fuel strict r t dir) (keeps (ahead p)) p.
Proof.
  intros Hr Et. pose proof (pe_type E r t (proj1 Hr) Et) as Ht. unfold parseArgString. destruct t; try by apply total_eat_default. apply total_bind.
  eapply total_mono; [apply total_deserializeData|]. cbv beta. intros [data b64] p1 H1. apply total_bind.
  assert (Hfail : ∀ (A : Type) (x : A) q, (ahead q ≤ ahead p)%nat → total (strictFailf strict;; mret x) (keeps (ahead p)) q).
  { intros A x q Hq. apply total_bind. eapply total_mono; [apply total_strictFailf|]. cbv beta. intros [] q1 H. apply total_ret. lia. }
  match goal with |- total (if ?b then _ else _) _ _ => assert (Hd : total (if b then strictFailf strict;; mret (Compress []) else mret data) (keeps (ahead p)) p1) by (destruct b; [apply Hfail|apply total_ret]; lia) end.
  eapply total_mono; [exact Hd|]. cbv beta. clear data Hd. intros data p2 H2. total_step. intros ch p3 [H3 _]. apply total_bind.
  match goal with |- total ?m ?Q p3 => assert (Hm : total m (λ s p', (ahead p' ≤ ahead p)%nat ∧ (s = noSize ∨ 0 ≤ s < 2 ^ 63)) p3) end.
  { pose proof (pe_memory E). destruct (_ && _); [|by apply total_ret; split; [lia|left]]. total_step. intros [] p4 H4. total_step. intros str p5 H5.
    apply total_bind, total_of_error. intros size Hsize%ParseUint_range. cbv zeta. rewrite u64_id by (unfold in_u64; lia). unfold in_u64 in Hsize. case_decide.
    - apply total_bind. eapply total_mono; [apply total_strictFailf|]. cbv beta. intros [] p6 H6. apply total_ret. split; [lia|by right].
    - apply total_ret. split; [lia|right; lia]. }
  eapply total_mono; [exact Hm|]. cbv beta. clear Hm. intros size p4 [H4 Hsz]. apply total_bind.
  match goal with |- total ?m ?Q p4 => assert (Hm : total m (λ s p', (ahead p' ≤ ahead p)%nat ∧ (0 ≤ s < 2 ^ 63 ∨ s = len data)) p4) end.
  { unfold Varlen, TSize. cbn [type_common]. destruct (IsVarlen c) eqn:Ev; cbn [negb].
    - apply total_ret. split; [done|]. case_decide; [by right|]. left. by destruct Hsz.
    - unfold Varlen. cbn [type_common]. rewrite Ev. apply total_ret. split; [done|]. left. destruct Ht as [Ht|Ht]; [congruence|exact Ht]. }
  eapply total_mono; [exact Hm|]. cbv beta. clear Hm Hsz. intros sz p5 [H5 Hsz]. case_decide as Hdir.
  - eapply total_mono; [apply total_try|cbv beta; lia]. unfold MakeOutDataArg. rewrite decide_False by auto. eauto.
  - apply total_bind. assert (Hfit : ∃ d, fit_data data sz = Ret d).
    { destruct Hsz as [Hsz| ->]; [by apply fit_data_Ret|]. unfold fit_data. rewrite decide_True; [eauto|]. unfold len. rewrite length_app. lia. }
    destruct Hfit as [d Hd]. eapply total_of_outcome; [exact Hd|]. apply total_bind. eapply total_mono; [apply total_check|]. cbv beta. intros d' p6 H6.
    eapply total_mono; [apply total_try|cbv beta; lia]. unfold MakeDataArg. rewrite decide_False by done. eauto.
Qed.

Lemma total_comma (P : Prop) `{Decision P} p : total (if decide P then Parse ","%ch else mret tt) (keeps (ahead p)) p.
Proof. case_decide; [eapply total_mono; [apply total_Parse|cbv beta; lia]|by apply total_ret]. Qed.

Section total_nested.
Context (rec : option Ref → Dir → parsing parser (option Arg)) (B : nat).
Context (Hrec : ∀ r dir p, (∀ x, r = Some x → valid_ref x) → (ahead p < B)%nat →
  total (rec r dir) (λ a p', (ahead p' ≤ ahead p)%nat ∧ (is_Some r → is_Some a ∧ (0 < ahead p)%nat)) p).
Lemma total_rec r dir p : valid_ref r → (ahead p < B)%nat → total (rec_arg rec r dir) (λ _ p', (ahead p' ≤ ahead p)%nat ∧ (0 < ahead p)%nat) p.
Proof.
  intros Hr Hp. unfold rec_arg. apply total_bind. eapply total_mono; [apply Hrec; [|done]; by intros x [= <-]|]. intros a p1 [H1 Ha].
  destruct Ha as [[x ->] H0]; [eauto|]. by eapply total_of_outcome.
Qed.
Lemma total_pointee b p : total (parse_pointee_addr target unsafe b) (keeps (ahead p)) p.
Proof.
  unfold parse_pointee_addr. total_step. intros c p1 [H1 _]. case_decide.
  - do 4 (total_step; intros [] ? ?). destruct b; [done|]. apply total_ret. lia.
  - apply total_bind. eapply total_mono; [apply total_Addr|]. cbv beta. intros [ad sz] p2 H2. apply total_ret. lia.
Qed.
Definition elem_ok (elem : option (Ref * Dir)) : Prop := ∀ e d, elem = Some (e, d) → valid_ref e.
Lemma total_any t elem sq p : elem_ok elem → (sq = true → ∃ c e d, t = PtrType c e d true ∧ parse_type t) →
  total (parse_any PtrSize typeRefs any t elem sq) (λ te p', (ahead p' ≤ ahead p)%nat ∧ elem_ok te.2) p.
Proof.
  intros He Hsq. unfold parse_any. total_step. intros isAny p1 ->. destruct isAny; [|by apply total_ret]. do 4 (total_step; intros [] ? ?).
  destruct sq; [|apply total_ret; split_and!; [lia|done]]. destruct Hsq as (c & e & d & -> & Hp); [done|]. destruct Hp as [_ Hp]. destruct (Hp eq_refl) as (Hv & Hsz & Ha1 & Ha2).
  apply total_bind. eapply total_of_outcome; [unfold TSize, Varlen; cbn [type_common]; by rewrite Hv|]. apply total_bind.
  assert (Hg : ∃ r, getAnyPtrType PtrSize any (TypeSize c) = Ret r ∧ is_any_ptr r).
  { unfold getAnyPtrType. case_decide; [eauto|]. rewrite decide_True by (destruct Hsz; [done|done]). eauto. }
  destruct Hg as (r & Hr & _ & c' & e' & d' & sq' & Ei & He'). eapply total_of_outcome; [exact Hr|]. apply total_bind. eapply total_of_outcome; [exact Ei|]. apply total_ret.
  split_and!; [lia|by intros ? ? [= <- <-]].
Qed.
Lemma page_mask x : Z.land x (not64 (PageSize target -u 1)) = u64 x - u64 x mod PageSize target.
Proof.
  destruct (pe_page E) as (k & Hk & ->). assert (E1 : 2 ^ k -u 1 = mask64 k) by (unfold mask64; by rewrite shl1_small by lia). rewrite E1. unfold not64, u64.
  rewrite <-Z.land_ones by lia. rewrite (Z.land_comm (Z.lnot _)), Z.land_assoc, Z.land_ones, <-Z.ldiff_land by lia. by rewrite ldiff_mask by lia.
Qed.
Lemma page_align x : (Z.land x (not64 (PageSize target -u 1))) mod 1024 = 0.
Proof.
  rewrite page_mask. destruct (pe_page E) as (k & Hk & ->). set (y := u64 x). apply Z.mod_divide; [done|]. exists (y / 2 ^ k * 2 ^ (k - 10)).
  assert (E2 : 2 ^ k = 2 ^ (k - 10) * 1024) by (change 1024 with (2 ^ 10); rewrite <-Z.pow_add_r by lia; f_equal; lia).
  pose proof (Z.pow_pos_nonneg 2 k). pose proof (Z.div_mod y (2 ^ k)). lia.
Qed.
Lemma page_multiple x : x mod PageSize target = 0 → x mod 1024 = 0.
Proof.
  destruct (pe_page E) as (k & Hk & ->). intros Hx. apply Z.mod_divide; [done|]. apply Z.mod_divide in Hx; [|pose proof (Z.pow_pos_nonneg 2 k); lia].
  etransitivity; [|exact Hx]. exists (2 ^ (k - 10)). change 1024 with (2 ^ 10). rewrite <-Z.pow_add_r by lia. f_equal. lia.
Qed.
Lemma total_pointer t dir elem sq p : (0 < ahead p ≤ B)%nat → elem_ok elem → (sq = true → ∃ c e d, t = PtrType c e d true ∧ parse_type t) →
  total (parse_pointer target PtrSize typeRefs any fuel strict unsafe rec t dir elem sq) (keeps (ahead p)) p.
Proof.
  intros Hp He Hsq. unfold parse_pointer. total_step. intros [] p1 H1. apply total_bind. eapply total_mono; [apply total_pointee|]. cbv beta. intros [[auto addr] vma] p2 H2. total_step. intros c p3 [H3 _]. apply total_bind.
  match goal with |- total ?m ?Q p3 => assert (Hm : total m (λ x p', (ahead p' ≤ ahead p)%nat ∧ elem_ok x.1.2) p3) end.
  { case_decide; [|apply total_ret; split; [lia|done]]. total_step. intros [] p4 H4. apply total_bind. eapply total_mono; [by apply total_any|]. cbv beta. intros [t' elem'] p5 [H5 He'].
    cbn [snd] in He'. apply total_bind. eapply total_mono; [apply Hrec; [|lia]|].
    - intros x Hx. destruct elem' as [[e d]|]; [|done]. injection Hx as <-. by eapply He'.
    - intros inner p6 [H6 _]. apply total_ret. split; [lia|done]. }
  eapply total_mono; [exact Hm|]. cbv beta. clear Hm. intros [[t' elem'] inner] p4 [H4 He']. cbn [fst snd] in He'. destruct elem' as [[e ed]|].
  - apply total_bind. match goal with |- total ?m ?Q p4 => assert (Hm : total m (keeps (ahead p)) p4) end.
    { destruct inner; [by apply total_ret|]. eapply total_mono; [apply total_default; by eapply He'|cbv beta; lia]. }
    eapply total_mono; [exact Hm|]. cbv beta. intros a p5 H5. apply total_bind. eapply total_mono; [apply total_make|]. intros x p6 [H6 _]. destruct auto; [|apply total_ret; lia].
    unfold auto_arg. apply total_bind, total_update, total_ret. change (ahead p6 ≤ ahead p)%nat. lia.
  - apply total_bind. match goal with |- total ?m ?Q p4 => assert (Hm : total m (λ x p', (ahead p' ≤ ahead p)%nat ∧ x mod 1024 = 0) p4) end.
    { case_decide as Hal; [|apply total_ret; split; [done|]; apply page_multiple; lia]. apply total_bind. eapply total_mono; [apply total_strictFailf|]. cbv beta. intros [] p5 H5. apply total_ret.
      split; [lia|apply page_align]. }
    eapply total_mono; [exact Hm|]. cbv beta. intros x p5 [H5 Hx]. eapply total_mono; [apply total_try|cbv beta; lia]. unfold MakeVmaPointerArg. rewrite decide_False by lia. eauto.
Qed.
Lemma total_ArgAddr r t dir p : valid_ref r → index typeRefs r = Ret t → (0 < ahead p ≤ B)%nat →
  total (parseArgAddr target PtrSize typeRefs any fuel strict unsafe rec r t dir) (keeps (ahead p)) p.
Proof.
  intros Hr Et Hp. pose proof (pe_type E r t (proj1 Hr) Et) as Ht. unfold parseArgAddr. destruct t; try by apply total_eat_default.
  - apply total_pointer; [done|by intros ? ?|done].
  - apply total_pointer; [done|intros ? ? [= <- <-]; apply Ht|]. intros ->. eauto.
Qed.

Lemma total_struct_fields fields dir inner p : (∀ f, f ∈ fields → valid_ref (FieldType f)) → (ahead p < B)%nat →
  total (struct_fields typeRefs strict rec fields dir inner) (keeps (ahead p)) p.
Proof.
  revert inner p. induction fields as [|f fields IH]; intros inner p Hf Hp; cbn [struct_fields]; total_step; intros c p1 [H1 _]; case_decide; try by apply total_ret.
  - apply total_bind. eapply total_mono; [apply total_eatExcessive|]. cbv beta. intros [] p2 H2. apply total_ret. lia.
  - assert (Hfs : ∀ g, g ∈ fields → valid_ref (FieldType g)) by (intros g Hg; apply Hf; by right). assert (Hv : valid_ref (FieldType f)) by (apply Hf; by left).
    apply total_bind, total_type; [done|]. intros t Et. destruct (TIsPad t).
    + apply total_bind. eapply total_mono; [apply total_make|]. intros a p2 [H2 _]. eapply total_mono; [apply IH; [done|lia]|cbv beta; lia].
    + apply total_bind. eapply total_mono; [apply total_rec; [done|lia]|]. cbv beta. intros a p2 [H2 _]. total_step. intros c2 p3 [H3 _]. apply total_bind.
      eapply total_mono; [apply total_comma|]. cbv beta. intros [] p4 H4. eapply total_mono; [apply IH; [done|lia]|cbv beta; lia].
Qed.
Lemma total_missing_fields fields dir p : (∀ f, f ∈ fields → valid_ref (FieldType f)) → total (missing_fields typeRefs fuel strict fields dir) (keeps (ahead p)) p.
Proof.
  revert p. induction fields as [|f fields IH]; intros p Hf; cbn [missing_fields]; [by apply total_ret|]. assert (Hv : valid_ref (FieldType f)) by (apply Hf; by left).
  apply total_bind, total_type; [done|]. intros t Et. apply total_bind.
  assert (Hs : total (if TIsPad t then mret tt else strictFailf strict) (keeps (ahead p)) p) by (destruct (TIsPad t); [by apply total_ret|apply total_strictFailf]).
  eapply total_mono; [exact Hs|]. cbv beta. intros [] p1 H1. apply total_bind. eapply total_mono; [by apply total_default|]. cbv beta. intros a p2 H2.
  apply total_bind. eapply total_mono; [apply IH; intros g Hg; apply Hf; by right|]. cbv beta. intros l p3 H3. apply total_ret. lia.
Qed.
Lemma total_Struct r t dir p : valid_ref r → index typeRefs r = Ret t → (0 < ahead p ≤ B)%nat → total (parseArgStruct typeRefs fuel strict rec r t dir) (keeps (ahead p)) p.
Proof.
  intros Hr Et Hp. pose proof (pe_type E r t (proj1 Hr) Et) as Ht. unfold parseArgStruct. total_step. intros [] p1 H1.
  assert (Helse : total (eatExcessive strict false;; Parse "}"%ch;; default_arg typeRefs fuel r dir) (keeps (ahead p)) p1).
  { apply total_bind. eapply total_mono; [apply total_eatExcessive|]. cbv beta. intros [] p2 H2. total_step. intros [] p3 H3. eapply total_mono; [by apply total_default|cbv beta; lia]. }
  destruct t; try exact Helse. cbn in Ht. apply total_bind. eapply total_mono; [apply total_struct_fields; [done|lia]|]. cbv beta. intros inner p2 H2. total_step. intros [] p3 H3.
  apply total_bind. eapply total_mono; [apply total_missing_fields|]; [intros f Hf; apply Ht; eapply elem_of_submseteq; [exact Hf|apply sublist_submseteq, sublist_drop]|].
  cbv beta. intros rest p4 H4. eapply total_mono; [apply total_make|cbv beta; lia].
Qed.

Lemma total_array_end n elem dir inner p s : ps_err p = false → ps_s p = "]"%ch :: s → total (array_elems rec (S n) elem dir inner) (keeps (ahead p)) p.
Proof. intros He Es. cbn [array_elems]. unfold total. rewrite <-(set_s_eta p), Es. erewrite bind_Ok; [|by apply Char_at]. rewrite decide_True by done. exact (le_n _). Qed.
Lemma total_array_elems n elem dir inner p : valid_ref elem → (ahead p < B)%nat → (ahead p < n)%nat → total (array_elems rec n elem dir inner) (keeps (ahead p)) p.
Proof.
  intros Hv. revert inner p. induction n as [|n IH]; intros inner p Hp Hn; [lia|]. cbn [array_elems]. total_step. intros c p1 [H1 Hc1]. case_decide as Hc; [by apply total_ret|].
  apply total_bind. eapply total_mono; [apply total_rec; [done|lia]|]. cbv beta. intros a p2 [H2 H0]. total_step. intros c2 p3 [H3 Hc2]. apply total_bind. case_decide as Hcl.
  - eapply total_mono; [apply total_Parse|]. cbv beta. intros [] p4 H4. eapply total_mono; [apply IH; lia|cbv beta; lia].
  - apply total_ret. assert (Hc2' : c2 = "]"%ch) by (destruct (decide (c2 = "]"%ch)); [done|tauto]). subst c2. destruct Hc2 as (-> & Ha & s & Es); [done|].
    destruct n as [|n]; [lia|]. eapply total_mono; [eapply total_array_end; [|exact Es]|cbv beta; lia]. unfold ahead in Ha. by destruct (ps_err p2); [lia|].
Qed.
Lemma total_missing_elems k elem dir p : valid_ref elem → total (missing_elems typeRefs fuel strict k elem dir) (keeps (ahead p)) p.
Proof.
  intros Hv. revert p. induction k as [|k IH]; intros p; cbn [missing_elems]; [by apply total_ret|]. apply total_bind. eapply total_mono; [apply total_strictFailf|]. cbv beta. intros [] p1 H1.
  apply total_bind. eapply total_mono; [by apply total_default|]. cbv beta. intros a p2 H2. apply total_bind. eapply total_mono; [apply IH|]. cbv beta. intros l p3 H3. apply total_ret. lia.
Qed.
Lemma total_Array r t dir p : valid_ref r → index typeRefs r = Ret t → (0 < ahead p ≤ B)%nat → total (parseArgArray typeRefs fuel strict rec r t dir) (keeps (ahead p)) p.
Proof.
  intros Hr Et Hp. pose proof (pe_type E r t (proj1 Hr) Et) as Ht. unfold parseArgArray. total_step. intros [] p1 H1.
  assert (Helse : total (eatExcessive strict false;; Parse "]"%ch;; default_arg typeRefs fuel r dir) (keeps (ahead p)) p1).
  { apply total_bind. eapply total_mono; [apply total_eatExcessive|]. cbv beta. intros [] p2 H2. total_step. intros [] p3 H3. eapply total_mono; [by apply total_default|cbv beta; lia]. }
  destruct t; try exact Helse. cbn in Ht. apply total_bind, total_get, total_bind. eapply total_mono; [apply total_array_elems; [done|lia|unfold ahead; destruct (ps_err p1); lia]|].
  cbv beta. intros inner p2 H2. total_step. intros [] p3 H3. apply total_bind. match goal with |- total ?m _ p3 => assert (Hm : total m (keeps (ahead p3)) p3) end.
  { match goal with |- total (if ?b then _ else _) _ _ => destruct b end; [|by apply total_ret]. apply total_bind. eapply total_mono; [by apply total_missing_elems|]. cbv beta. intros l p4 H4. by apply total_ret. }
  eapply total_mono; [exact Hm|]. cbv beta. intros l p4 H4. eapply total_mono; [apply total_make|cbv beta; lia].
Qed.
Lemma find_option_elem name i fields j f : find_option name i fields = Some (j, f) → f ∈ fields.
Proof.
  revert i. induction fields as [|g fields IH]; intros i; cbn [find_option]; [done|]. case_decide; [intros [= <- <-]; by left|]. intros Hf. right. by eapply IH.
Qed.
Lemma total_Union r t dir p : valid_ref r → index typeRefs r = Ret t → (0 < ahead p ≤ B)%nat → total (parseArgUnion typeRefs fuel strict rec r t dir) (keeps (ahead p)) p.
Proof.
  intros Hr Et Hp. pose proof (pe_type E r t (proj1 Hr) Et) as Ht. unfold parseArgUnion. destruct t; try by apply total_eat_default. cbn in Ht. total_step. intros [] p1 H1. total_step. intros name p2 H2.
  destruct (find_option name 0 Fields) as [[idx f]|] eqn:Ef; [|eapply total_mono; [by apply total_eat_default|cbv beta; lia]].
  assert (Hv : valid_ref (FieldType f)) by by eapply Ht, find_option_elem. total_step. intros ch p3 [H3 _]. apply total_bind.
  match goal with |- total ?m _ p3 => assert (Hm : total m (keeps (ahead p3)) p3) end.
  { case_decide; [|by apply total_default]. total_step. intros [] p4 H4. eapply total_mono; [apply total_rec; [done|lia]|cbv beta; lia]. }
  eapply total_mono; [exact Hm|]. cbv beta. intros opt p4 H4. eapply total_mono; [apply total_make|cbv beta; lia].
Qed.
Local Abbreviation argImpl := (parseArgImpl target PtrSize typeRefs any DecodeB64 DecompressCheck Compress fuel strict unsafe rec).
Local Abbreviation argBody := (parse_arg_body target PtrSize typeRefs any DecodeB64 DecompressCheck Compress fuel strict unsafe rec).
Lemma total_nil_impl dir p : total (argImpl None dir) (λ _ p', (ahead p' ≤ ahead p)%nat) p.
Proof.
  unfold parseArgImpl. apply total_bind. total_step. intros c p1 [H1 Hc]. apply total_ret. case_bool_decide as Hn.
  - apply total_bind. eapply total_mono; [apply total_eatExcessive|]. cbv beta. intros [] p2 H2. apply total_ret. lia.
  - assert (c = "n"%ch) as -> by (destruct (decide (c = "n"%ch)); [done|tauto]). destruct Hc as (-> & Ha & s & Es); [done|].
    assert (He : ps_err p = false) by (unfold ahead in Ha; destruct (ps_err p); [lia|done]).
    unfold total. rewrite <-(set_s_eta p), Es. erewrite bind_Ok; [|by apply Char_at]. rewrite <-Es, set_s_eta.
    repeat first [rewrite decide_True by done|rewrite decide_False by (unfold dquote; lia)].
    change (total (Parse "n"%ch;; Parse "i"%ch;; Parse "l"%ch;; mret (@None Arg)) (λ _ p', (ahead p' ≤ ahead p)%nat) p). do 3 (total_step; intros [] ? ?). apply total_ret. lia.
Qed.
Lemma total_impl r dir p : valid_ref r → (ahead p ≤ B)%nat → total (argImpl (Some r) dir) (λ _ p', (ahead p' ≤ ahead p)%nat ∧ (0 < ahead p)%nat) p.
Proof.
  intros Hr Hp. unfold parseArgImpl. apply total_bind, total_ret. total_step. intros c p1 [H1 Hc]. destruct (decide (c = 0)) as [->|Hc0]; [done|]. destruct (Hc Hc0) as (-> & Ha & _). clear Hc.
  assert (Htyped : ∀ f : Ref → Typ → Dir → parsing parser Arg, (∀ t, index typeRefs r = Ret t → total (f r t dir) (keeps (ahead p)) p) →
    total (t ← type_at typeRefs r; a ← f r t dir; mret (Some a)) (λ _ p', (ahead p' ≤ ahead p)%nat ∧ (0 < ahead p)%nat) p).
  { intros f Hf. apply total_bind, total_type; [done|]. intros t Et. apply total_bind. eapply total_mono; [by apply Hf|]. cbv beta. intros a p2 H2. apply total_ret. lia. }
  case_decide; [apply Htyped; intros t Et; by apply total_Int|]. case_decide; [apply Htyped; intros t Et; by apply total_Res|].
  case_decide; [apply Htyped; intros t Et; apply total_ArgAddr; done || lia|]. case_decide; [apply Htyped; intros t Et; by apply total_String|].
  case_decide; [apply Htyped; intros t Et; apply total_Struct; done || lia|]. case_decide; [apply Htyped; intros t Et; apply total_Array; done || lia|].
  case_decide; [apply Htyped; intros t Et; apply total_Union; done || lia|].
  case_decide; [do 3 (total_step; intros [] ? ?); apply total_ret; lia|]. case_decide; [|done]. do 4 (total_step; intros [] ? ?).
  apply total_bind, total_type; [done|]. intros t Et. apply total_bind. eapply total_mono; [apply total_Auto; [done|by apply (pe_fuel E)]|]. cbv beta. intros a q Hq. apply total_ret. lia.
Qed.
Lemma total_body r dir p : (∀ x, r = Some x → valid_ref x) → (ahead p ≤ B)%nat →
  total (argBody r dir) (λ a p', (ahead p' ≤ ahead p)%nat ∧ (is_Some r → is_Some a ∧ (0 < ahead p)%nat)) p.
Proof.
  intros Hr Hp. unfold parse_arg_body. total_step. intros c p1 [H1 _]. apply total_bind.
  match goal with |- total ?m _ p1 => assert (Hm : total m (keeps (ahead p1)) p1) end.
  { case_decide; [|by apply total_ret]. total_step. intros [] p2 H2. total_step. intros name p3 H3. do 2 (total_step; intros [] ? ?). apply total_ret. lia. }
  eapply total_mono; [exact Hm|]. cbv beta. clear Hm. intros name p2 H2. apply total_bind.
  assert (Himpl : total (argImpl r dir) (λ _ p', (ahead p' ≤ ahead p)%nat ∧ (is_Some r → (0 < ahead p)%nat)) p2).
  { destruct r as [x|]; [eapply total_mono; [apply total_impl; [by apply Hr|lia]|]; cbv beta; intros ? ? [? ?]; split; lia|].
    eapply total_mono; [apply total_nil_impl|]. cbv beta. intros _ p3 H3. split; [lia|]. by intros [? ?]. }
  eapply total_mono; [exact Himpl|]. cbv beta. intros arg p3 [H3 H0]. apply total_bind.
  match goal with |- total ?m _ p3 => assert (Hm : total m (λ a p', (ahead p' ≤ ahead p)%nat ∧ (is_Some r → is_Some a)) p3) end.
  { destruct arg as [a|]; [by apply total_ret|]. destruct r as [x|].
    - apply total_bind. eapply total_mono; [apply total_default; by apply Hr|]. cbv beta. intros a p4 H4. apply total_ret. split; [lia|done].
    - case_decide; [done|]. by apply total_ret. }
  eapply total_mono; [exact Hm|]. cbv beta. intros a p4 [H4 Ha]. apply total_bind.
  match goal with |- total ?m _ p4 => assert (Hn : total m (keeps (ahead p4)) p4) end.
  { case_decide; [|by apply total_ret]. destruct a as [[]|]; first [apply total_strictFailf|by apply total_update]. }
  eapply total_mono; [exact Hn|]. cbv beta. intros [] p5 H5. apply total_ret. split; [lia|]. auto.
Qed.
End total_nested.

Local Abbreviation parseArg := (parseArg target PtrSize typeRefs any DecodeB64 DecompressCheck Compress fuel strict unsafe).
Lemma total_parseArg n r dir p : (∀ x, r = Some x → valid_ref x) → (ahead p < n)%nat →
  total (parseArg n r dir) (λ a p', (ahead p' ≤ ahead p)%nat ∧ (is_Some r → is_Some a ∧ (0 < ahead p)%nat)) p.
Proof.
  revert r dir p. induction n as [|n IH]; intros r dir p Hr Hp; [lia|]. cbn [TextParse.parseArg]. apply (total_body _ n); [|done|lia]. intros r' dir' p' Hr' Hp'. by apply IH.
Qed.

Lemma total_props n ps p : (ahead p < n)%nat → total (parse_props strict n ps) (λ _ _, True) p.
Proof.
  revert ps p. induction n as [|n IH]; intros ps p Hn; [lia|]. cbn [parse_props]. apply total_bind, total_get. destruct (ps_err p) eqn:He; [done|].
  assert (Hpos : (0 < ahead p)%nat) by (unfold ahead; rewrite He; lia). total_step. intros c p1 [H1 _]. case_decide; [done|]. total_step. intros name p2 H2.
  assert (Hnext : ∀ ps p', (ahead p' < ahead p)%nat → total (c ← Char; (if decide (c ≠ ")"%ch) then Parse ","%ch else mret tt);; parse_props strict n ps) (λ _ _, True) p').
  { intros ps' p' Hp'. total_step. intros c' p3 [H3 _]. apply total_bind.
    eapply total_mono; [apply total_comma|]. cbv beta. intros [] p4 H4. apply IH. lia. }
  destruct (prop_key_kind name) as [[]|].
  - total_step. intros [] p3 H3. total_step. intros str p4 H4. destruct (ParseInt str); [apply Hnext; lia|]. apply total_bind. eapply total_mono; [apply total_strictFailf|].
    cbv beta. intros [] p5 H5. apply Hnext. lia.
  - apply Hnext. lia.
  - apply total_bind. eapply total_mono; [apply total_eatExcessive|]. cbv beta. intros [] p3 H3. total_step. intros c' p4 [H4 _]. apply total_bind.
    eapply total_mono; [apply total_comma|]. cbv beta. intros [] p5 H5. apply IH. lia.
Qed.
Lemma total_call_args fields args p : (∀ f, f ∈ fields → valid_ref (FieldType f)) →
  total (call_args target PtrSize typeRefs any DecodeB64 DecompressCheck Compress fuel strict unsafe fields args) (λ _ _, True) p.
Proof.
  revert args p. induction fields as [|f fields IH]; intros args p Hf; cbn [call_args]; total_step; intros c p1 [H1 _]; case_decide; try done.
  - apply total_bind. eapply total_mono; [apply total_eatExcessive|]. done.
  - assert (Hv : valid_ref (FieldType f)) by (apply Hf; by left). apply total_bind, total_type; [done|]. intros t Et. destruct (TIsPad t); [done|]. apply total_bind, total_get, total_bind.
    eapply total_mono; [eapply (total_rec _ (S (S (S (length (ps_s p1))))))|]; [intros; by apply total_parseArg|done|unfold ahead; destruct (ps_err p1); lia|].
    cbv beta. intros a p2 _. total_step. intros c2 p3 _. apply total_bind.
    eapply total_mono; [apply total_comma|]. intros [] p4 _. apply IH. intros g Hg. apply Hf. by right.
Qed.
Lemma total_missing_args fields p : (∀ f, f ∈ fields → valid_ref (FieldType f)) → total (missing_args typeRefs fuel strict fields) (λ _ _, True) p.
Proof.
  revert p. induction fields as [|f fields IH]; intros p Hf; cbn [missing_args]; [done|]. apply total_bind. eapply total_mono; [apply total_strictFailf|]. intros [] p1 _.
  apply total_bind. eapply total_mono; [apply total_default, Hf; by left|]. intros a p2 _. apply total_bind. eapply total_mono; [apply IH; intros g Hg; apply Hf; by right|]. done.
Qed.
Lemma total_return r p : (∀ x, r = Some x → valid_ref x) → total (make_return typeRefs r) (λ _ _, True) p.
Proof. intros Hr. destruct r as [x|]; [|done]. cbn. apply total_bind, total_type; [by apply Hr|]. done. Qed.
Lemma total_call comments p : total (parse_call target PtrSize typeRefs any DecodeB64 DecompressCheck Compress fuel strict unsafe comments) (λ _ _, True) p.
Proof.
  unfold parse_call. total_step. intros name p1 _. total_step. intros c p2 _. apply total_bind.
  match goal with |- total ?m _ p2 => assert (Hm : total m (λ _ _, True) p2) end.
  { case_decide; [|done]. total_step. intros [] p3 _. total_step. done. }
  eapply total_mono; [exact Hm|]. clear Hm. intros [r name'] p3 _. apply total_bind, total_of_error. intros meta Hmeta. destruct (pe_calls E _ _ Hmeta) as [Hargs Hret].
  apply total_bind. eapply total_mono; [by apply total_return|]. intros ret p4 _. apply total_bind, total_get. cbv zeta. total_step. intros [] p5 _.
  apply total_bind. eapply total_mono; [by apply total_call_args|]. intros args p6 _. total_step. intros [] p7 _. total_step. intros eof p8 _. apply total_bind.
  match goal with |- total ?m _ p8 => assert (Hm : total m (λ _ _, True) p8) end.
  { destruct eof; [done|]. total_step. intros c1 p9 _. case_decide; [|done]. total_step. intros [] q1 _. apply total_bind. unfold parseCallProps. apply total_bind, total_get.
    eapply total_mono; [apply total_props; unfold ahead; destruct (ps_err q1); lia|]. intros ps q2 _. total_step. done. }
  eapply total_mono; [exact Hm|]. clear Hm. intros props p9 _. total_step. intros eof2 q1 _. apply total_bind.
  match goal with |- total ?m _ q1 => assert (Hm : total m (λ _ _, True) q1) end.
  { destruct eof2; [done|]. total_step. intros c1 q2 _. by case_decide. }
  eapply total_mono; [exact Hm|]. clear Hm. intros [comment comments'] q2 _. apply total_bind.
  eapply total_mono; [apply total_missing_args; intros f Hf; apply Hargs; eapply elem_of_submseteq; [exact Hf|apply sublist_submseteq, sublist_drop]|].
  intros missing q3 _. case_decide; [done|]. apply total_bind. destruct ret; [case_decide|]; done.
Qed.
Lemma total_lines n data calls comments p : (length data < n)%nat →
  total (parse_lines target PtrSize typeRefs any DecodeB64 DecompressCheck Compress fuel strict unsafe n data calls comments) (λ _ _, True) p.
Proof.
  revert data calls comments p. induction n as [|n IH]; intros data calls comments p Hn; [lia|]. cbn [parse_lines]. apply total_bind. eapply total_mono; [apply total_Scan|]. cbv beta.
  intros [d|] p1 Hd; [|done]. total_step. intros eof p2 _. apply total_bind, total_get. destruct eof; [apply total_bind, total_update, IH; lia|].
  total_step. intros c p3 _. case_decide; [apply total_bind, total_update, IH; lia|]. apply total_bind. eapply total_mono; [apply total_call|]. intros [call comments'] p4 _. apply IH. lia.
Qed.
Lemma parse_text_total data n : ∃ r, parse_text target PtrSize typeRefs any DecodeB64 DecompressCheck Compress fuel strict unsafe data n = r ∧ (r = Bad ∨ ∃ prog p, r = Ok (prog, p)).
Proof.
  eexists. split; [reflexivity|]. unfold parse_text.
  assert (Ht : total (parseProg target PtrSize typeRefs any DecodeB64 DecompressCheck Compress fuel strict unsafe data) (λ _ _, True) (newParser n)).
  { unfold parseProg. apply total_bind. eapply total_mono; [apply total_lines; lia|]. intros [calls comments] p _. by apply total_bind, total_get. }
  unfold total in Ht. destruct (parseProg _ _ _ _ _ _ _ _ _ _ _ _) as [[prog p]|  | |]; [|by left|done|done]. destruct (ps_err p); [by left|right; eauto].
Qed.
End total_parse.

(** C5: Every text is parsed to the end.  With descriptions whose references
    resolve and whose default arguments are finite, [parseProg] ends for every
    text, in every mode, on its own measure, without a panic and without
    running out of the steps the model gives to its loops: the answer is an
    error or a program. *)
Theorem parse_total (target : Target) (PtrSize : Z) (typeRefs : list Typ) (any : AnyTypes) (rank : Ref → nat)
    (DecodeB64 : list Z → option (list Z)) (DecompressCheck : list Z → bool) (Compress : list Z → list Z)
    (fuel : nat) (strict unsafe : bool) (data : list Z) (n : argid) (Henv : parse_env target PtrSize typeRefs any rank fuel) :
  parse_text target PtrSize typeRefs any DecodeB64 DecompressCheck Compress fuel strict unsafe data n = Bad
  ∨ ∃ prog s, parse_text target PtrSize typeRefs any DecodeB64 DecompressCheck Compress fuel strict unsafe data n = Ok (prog, s).
Proof.
  destruct (parse_text_total target PtrSize typeRefs any rank DecodeB64 DecompressCheck Compress fuel strict unsafe Henv data n) as (r & -> & Hr). exact Hr.
Qed.

(** ** Witnesses: [r = open(path, flags); write(r, struct)], read and printed *)

Definition tx_types : list Typ :=
  [ VmaType (sx_common "vma" 8 false 0) 0 0;
    ResourceType (sx_common "fd" 4 false 1) FormatNative (mkResourceDesc "fd" ["fd"%string] [2 ^ 64 - 1]);
    IntType (sx_int "int32" 2) IntPlain 0 0 0;
    BufferType (sx_common "blob" 0 true 3) BufferBlobRand 0 0 "" [] false;
    PtrType (sx_common "ptr" 8 false 4) 3 DirIn false;
    StructType (sx_common "s" 20 false 5) [sx_field "a" 2; sx_field "b" 4; sx_field "c" 2; sx_field "d" 2] 0 0;
    PtrType (sx_common "ptr" 8 false 6) 5 DirIn false ].
Definition tx_rank (r : Ref) : nat := if decide (r = 6) then 3 else if decide (r = 5) then 2 else if decide (r = 4) then 1 else 0.
Definition tx_open : Syscall := gx_call 0 "open" [4; 2] (Some 1).
Definition tx_write : Syscall := gx_call 1 "write$s" [1; 6] None.
Definition tx_target : Target := mkTarget 4096 4096 536870912 [tx_open; tx_write] {["open"%string := tx_open; "write$s"%string := tx_write]} ∅ [0; 2 ^ 64 - 1].
Definition tx_any : AnyTypes := mkAnyTypes 90 91 92.

Lemma tx_index r t : r ≠ 0 → index tx_types r = Ret t → r ∈ [1; 2; 3; 4; 5; 6].
Proof.
  unfold index. intros Hr. case_decide; [|done]. destruct (tx_types !! Z.to_nat r) as [x|] eqn:Ex; [|done]. intros _.
  apply lookup_lt_Some in Ex. cbn in Ex. assert (r = 1 ∨ r = 2 ∨ r = 3 ∨ r = 4 ∨ r = 5 ∨ r = 6) by lia. set_solver.
Qed.
Lemma tx_below i j : j ∈ [1; 2; 3; 4; 5; 6] → (tx_rank j < tx_rank i)%nat → below tx_types tx_rank i j.
Proof. intros Hj Hlt. repeat (apply elem_of_cons in Hj as [->|Hj]; [split_and!; [done|by eexists|done]|]). by apply not_elem_of_nil in Hj. Qed.
Lemma tx_env : parse_env tx_target 8 tx_types tx_any tx_rank 4.
Proof.
  assert (Hv : ∀ r, r ∈ [1; 2; 3; 4; 5; 6] → valid_ref tx_types r).
  { intros r Hr. repeat (apply elem_of_cons in Hr as [->|Hr]; [split; [done|by eexists]|]). by apply not_elem_of_nil in Hr. }
  assert (Hf : ∀ f, f ∈ [sx_field "a" 2; sx_field "b" 4; sx_field "c" 2; sx_field "d" 2] → FieldType f = 2 ∨ FieldType f = 4).
  { intros f Hf. repeat (apply elem_of_cons in Hf as [->|Hf]; [cbn; lia|]). by apply not_elem_of_nil in Hf. }
  constructor.
  - intros r t Hr Et. pose proof (tx_index r t Hr Et) as Hin. repeat (apply elem_of_cons in Hin as [->|Hin]; [injection Et as <-|]); [..|by apply not_elem_of_nil in Hin]; (split; [done|]); try done.
    + by eexists.
    + intros _. by apply tx_below; [set_solver|vm_compute; lia].
    + intros f [->| ->]%Hf; apply tx_below; [set_solver|vm_compute; lia|set_solver|vm_compute; lia].
    + intros _. by apply tx_below; [set_solver|vm_compute; lia].
  - intros r t Hr Et. pose proof (tx_index r t Hr Et) as Hin. repeat (apply elem_of_cons in Hin as [->|Hin]; [injection Et as <-|]); [..|by apply not_elem_of_nil in Hin]; cbn; try done.
    + by left.
    + split; [apply Hv; set_solver|done].
    + intros f [->| ->]%Hf; apply Hv; set_solver.
    + split; [apply Hv; set_solver|done].
  - intros r [Hr [t Et]]. pose proof (tx_index r t Hr Et) as Hin. repeat (apply elem_of_cons in Hin as [->|Hin]; [vm_compute; lia|]). by apply not_elem_of_nil in Hin.
  - vm_compute. split; done.
  - by exists 12.
  - vm_compute. split; done.
  - intros name m Hm. cbn [SyscallMap tx_target] in Hm. apply lookup_insert_Some in Hm as [[_ <-]|[_ Hm]]; [|apply lookup_singleton_Some in Hm as [_ <-]]; cbn.
    + split; [|intros r [= <-]; apply Hv; set_solver]. intros f [->|[->|[]%not_elem_of_nil]%elem_of_cons]%elem_of_cons; apply Hv; set_solver.
    + split; [|done]. intros f [->|[->|[]%not_elem_of_nil]%elem_of_cons]%elem_of_cons; apply Hv; set_solver.
Qed.
Definition tx_parse (strict : bool) : list Z → result (Prog * parser) := λ data,
  parse_text tx_target 8 tx_types tx_any Some (λ _, true) (λ d, d) 4 strict false data 100.
Definition tx_text : list Z :=
  bytes_of "r0 = open(&(0x7f0000000040)='./file0\x00', 0x42)" ++ [10] ++ bytes_of "write$s(r0, &AUTO={0x1, &AUTO='\xff', 0x3}) (fail_nth: 2)" ++ [10].
Lemma parse_total_witness :
  (∃ prog s, tx_parse false tx_text = Ok (prog, s) ∧ (res_Res <$> prog_results prog) = [None; Some 100] ∧ (rid <$> prog_results prog) = [100; 104])
  ∧ (tx_parse true tx_text = Bad ∨ ∃ prog s, tx_parse true tx_text = Ok (prog, s)).
Proof.
  split; [|exact (parse_total tx_target 8 tx_types tx_any tx_rank Some (λ _, true) (λ d, d) 4 true false tx_text 100 tx_env)].
  assert (E : match tx_parse false tx_text with Ok (p, _) => (res_Res <$> prog_results p, rid <$> prog_results p) | _ => ([], []) end = ([None; Some 100], [100; 104])) by (vm_compute; reflexivity).
  destruct (parse_total tx_target 8 tx_types tx_any tx_rank Some (λ _, true) (λ d, d) 4 false false tx_text 100 tx_env) as [H|(prog & s & H)].
  - change (tx_parse false tx_text = Bad) in H. rewrite H in E. discriminate E.
  - exists prog, s. change (tx_parse false tx_text = Ok (prog, s)) in H. rewrite H in E. injection E as E1 E2. split_and!; [exact H|exact E1|exact E2].
Defined.
