(* ===== verification/TextRoundtrip.v ===== *)
(** * The text format of programs: printed programs are read back

    A program that text_fits its descriptions is printed, and the text is parsed
    into a copy of it with other identities.  Arguments left out because they
    are default are rebuilt_args as such; references go through the variable names
    of the text. *)

From S2P Require Import Prelude Bits GoStrings Prog ForeachArg ArgGraph RemoveCall Sizes Conditions Defaults Generate TextLex TextSerialize TextParse.

(** ** Identities in the order of parsing *)

(** Inner arguments are made before the outer ones. *)
Fixpoint post_ids (a : Arg) : list argid :=
  match a with
  | PointerArg _ _ _ (Some x) => post_ids x
  | GroupArg _ l => concat (post_ids <$> l)
  | UnionArg _ o _ _ => post_ids o
  | _ => []
  end ++ [aid a].
Definition posts (l : list Arg) : list argid := concat (post_ids <$> l).
Lemma posts_cons a l : posts (a :: l) = post_ids a ++ posts l.
Proof. done. Qed.

Section numbering.
Context (f : argid → argid).
(** [f] numbers the identities from [n] on. *)
Definition post_numbered (n : argid) (l : list argid) : Prop := ∀ k x, l !! k = Some x → f x = n + Z.of_nat k.
Lemma post_numbered_app n l1 l2 : post_numbered n (l1 ++ l2) ↔ post_numbered n l1 ∧ post_numbered (n + len l1) l2.
Proof.
  unfold post_numbered, len. split.
  - intros H. split; intros k x Hk.
    + apply H. by rewrite lookup_app_l by by eapply lookup_lt_Some.
    + rewrite (H (length l1 + k)%nat x); [lia|]. rewrite lookup_app_r by lia. by replace (length l1 + k - length l1)%nat with k by lia.
  - intros [H1 H2] k x Hk. apply lookup_app_Some in Hk as [Hk|[Hl Hk]]; [by apply H1|]. rewrite (H2 _ _ Hk). lia.
Qed.
Lemma numbered_single n x : post_numbered n [x] → f x = n.
Proof. intros H. rewrite (H 0%nat x) by done. lia. Qed.
Lemma len_app {A} (l k : list A) : len (l ++ k) = len l + len k.
Proof. unfold len. rewrite length_app. lia. Qed.

(** A result argument as the parser makes it: the [uses] are entered in the end. *)
Definition parsed_result (r : ResultArg) : ResultArg := set_uses (rename_result f r) ∅.
Definition parsed_arg (a : Arg) : Arg := copy_arg f parsed_result a.
Lemma parsed_common t dir n c : f (arg_id c) = n → ref c = self (type_common t) → arg_dir c = dir → rename_common f c = make_common t dir n.
Proof. intros <- Hr <-. unfold rename_common, set_id, make_common. by rewrite Hr. Qed.
End numbering.

(** ** Programs that fit their descriptions *)

Definition is_nat_u64 (v : Z) : bool := bool_decide (in_u64 v).
Definition same_head (r : Ref) (dir : Dir) (c : ArgCommon) : bool := bool_decide (ref c = r) && bool_decide (arg_dir c = dir).
Definition bytesb (l : list Z) : bool := forallb (λ b, bool_decide (0 ≤ b < 256)) l.
Definition identb (l : list Z) : bool := bool_decide (l ≠ []) && forallb is_ident l.

Section text_fits.
Context (target : Target) (PtrSize : Z) (typeRefs : list Typ) (any : AnyTypes) (DecompressCheck : list Z → bool) (unsafe verbose : bool).
Definition maxMem : Z := NumPages target * PageSize target.
Definition fits_const (r : Ref) (t : Typ) (dir : Dir) (c : ArgCommon) (v : Z) : bool :=
  same_head r dir c && is_nat_u64 v
  && match t with
     | LenType _ _ _ _ => true
     | _ => match const_default t with Some d => negb (bool_decide (dir = DirOut)) || bool_decide (v = d) | None => false end
     end.
Definition fits_result (r : Ref) (t : Typ) (dir : Dir) (x : ResultArg) : bool :=
  same_head r dir (res_common x)
  && match t with ResourceType _ _ _ => true | _ => false end
  && match res_Res x with
     | None => bool_decide (OpDiv x = 0) && bool_decide (OpAdd x = 0) && is_nat_u64 (res_Val x)
     | Some _ => bool_decide (res_Val x = 0) && is_nat_u64 (OpDiv x) && is_nat_u64 (OpAdd x)
     end.
(** Special pointers, and areas of pages. *)
Definition fits_area (r : Ref) (t : Typ) (dir : Dir) (c : ArgCommon) (addr vma : Z) : bool :=
  is_nat_u64 addr && is_nat_u64 vma &&
  if IsSpecial addr vma None then
    bool_decide (u64 (- addr) < len (SpecialPointers target))
    && match t with PtrType _ _ _ _ => same_head r DirIn c | VmaType _ _ _ => same_head r dir c | _ => false end
  else
    match t with VmaType _ _ _ => same_head r dir c | _ => false end
    && bool_decide (addr mod PageSize target = 0)
    && (bool_decide (vma = 0)
        || bool_decide (vma mod PageSize target = 0) && bool_decide (vma + PageSize target ≤ 2 ^ 64) && (unsafe || bool_decide (addr + vma ≤ maxMem))).
(** The type of what a pointer with type [ref c] in place of [r] points to. *)
Definition pointee (r : Ref) (t : Typ) (c : ArgCommon) : option (Ref * Dir) :=
  match t, index typeRefs (ref c) with
  | PtrType tc _ _ squashable, Ret (PtrType _ e d _ as t') =>
      if isAnyPtr any t' && squashable then
        match getAnyPtrType PtrSize any (TypeSize tc) with
        | Ret r' => if decide (r' = ref c) then Some (e, d) else None
        | Panic => None
        end
      else if decide (ref c = r) then Some (e, d) else None
  | _, _ => None
  end.
Definition string_ok (kind : BufferKind) (Values : list string) (data : list Z) : bool :=
  match kind, Values with
  | (BufferString | BufferGlob), v0 :: _ => bool_decide (AUTOGENERATED `prefix_of` bytes_of v0) || bool_decide (data ∈ (bytes_of <$> Values))
  | _, _ => true
  end.
Definition is_compressed (kind : BufferKind) : bool := match kind with BufferCompressed => true | _ => false end.
Definition fits_data (r : Ref) (t : Typ) (dir : Dir) (c : ArgCommon) (data : list Z) (size : Z) : bool :=
  same_head r dir c &&
  match t with
  | BufferType tc kind _ _ _ Values _ =>
      (negb (is_compressed kind) || DecompressCheck data)
      && (if decide (dir = DirOut) then
            bool_decide (data = []) && bool_decide (0 ≤ size ≤ maxMem) && (IsVarlen tc || bool_decide (size = TypeSize tc))
          else
            bool_decide (size = 0) && bytesb data && string_ok kind Values data
            && (if IsVarlen tc then bool_decide (len data ≤ maxMem) else bool_decide (len data = TypeSize tc)))
  | _ => false
  end.
Definition pad_ok (t : Typ) (a : Arg) : bool :=
  negb (TIsPad t) || match a with ConstArg _ v => bool_decide (v = 0) && bool_decide (const_default t = Some 0) | _ => false end.
Definition ref_pad (r : Ref) : bool := match index typeRefs r with Ret t => TIsPad t | Panic => false end.
Definition not_default (a : Arg) : bool := match isDefaultArg typeRefs a with Ret d => negb d | Panic => false end.
Definition array_len_ok (kind : ArrayKind) (lo hi : Z) (inner : list Arg) : bool :=
  match kind with ArrayRangeLen => negb (bool_decide (lo = hi)) || bool_decide (len inner = lo) | ArrayRandLen => true end.
Section fields.
Context (fit : Ref → Dir → Arg → bool).
Fixpoint fits_fields (dir : Dir) (l : list Arg) (fs : list Field) {struct l} : bool :=
  match l, fs with
  | [], [] => true
  | x :: l, f :: fs =>
      fit (FieldType f) (FieldDir f dir) x
      && match index typeRefs (FieldType f) with Ret t => pad_ok t x | Panic => false end
      && fits_fields dir l fs
  | _, _ => false
  end.
End fields.
(** An argument in place of a field with type [r] and direction [dir].  In the
    short form default contents are not printed: a squashed pointer with default
    contents would be read back as the pointer it was made from, and a default
    union with conditional fields as one whose field is still to be chosen, so
    these two fit only the verbose form.  Squashed pointers and closed unions
    with conditional fields whose contents are not default fit both. *)
Fixpoint text_fits (r : Ref) (dir : Dir) (a : Arg) : bool :=
  match index typeRefs r with
  | Panic => false
  | Ret t =>
      match a with
      | ConstArg c v => fits_const r t dir c v
      | AResult x => fits_result r t dir x
      | DataArg c data size => fits_data r t dir c data size
      | PointerArg c addr vma None => fits_area r t dir c addr vma
      | PointerArg c addr vma (Some x) =>
          is_nat_u64 addr && bool_decide (vma = 0) && bool_decide (arg_dir c = DirIn) && (bool_decide (ref c = r) || verbose || not_default a)
          && match pointee r t c with Some (e, d) => text_fits e d x | None => false end
      | GroupArg c inner =>
          same_head r dir c &&
          match t with
          | StructType _ fields _ _ =>
              match fields with f :: _ => negb (ref_pad (FieldType f)) | [] => true end
              && fits_fields text_fits dir inner fields
          | ArrayType _ elem kind lo hi => array_len_ok kind lo hi inner && negb (ref_pad elem) && forallb (text_fits elem dir) inner
          | _ => false
          end
      | UnionArg c o idx transient =>
          same_head r dir c && negb transient &&
          match t with
          | UnionType _ fields =>
              match index fields idx, isConditional fields with
              | Ret f, Ret cond =>
                  (negb cond || verbose || not_default a) && identb (bytes_of (FieldName f))
                  && match find_option (bytes_of (FieldName f)) 0 fields with Some (i, _) => bool_decide (i = idx) | None => false end
                  && negb (ref_pad (FieldType f)) && text_fits (FieldType f) (FieldDir f dir) o
              | _, _ => false
              end
          | _ => false
          end
      end
  end.
Definition prop_int (v : Z) : bool := bool_decide (0 ≤ v < 2 ^ 63).
(** The arguments of a call are input, and none is a padding. *)
Definition fits_call (c : Call) (m : Syscall) : bool :=
  fits_fields text_fits DirIn (Args c) (SysArgs m) && forallb (λ f, negb (ref_pad (FieldType f)) && bool_decide (FieldDir f DirIn = DirIn)) (SysArgs m)
  && identb (bytes_of (Name m)) && prop_int (FailNth (Props c)) && prop_int (Rerun (Props c))
  && match CRet c, SysRet m with
     | None, None => true
     | Some x, Some r => same_head r DirOut (res_common x) && bool_decide (res_Res x = None ∧ OpDiv x = 0 ∧ OpAdd x = 0 ∧ res_Val x = 0)
     | _, _ => false
     end.
End text_fits.

(** Breaks a conjunction of tests into facts. *)
Ltac bools := repeat match goal with
  | H : _ && _ = true |- _ => apply andb_true_iff in H as [? ?]
  | H : bool_decide _ = true |- _ => apply bool_decide_eq_true in H
  | H : bool_decide _ = false |- _ => apply bool_decide_eq_false in H
  | H : negb _ = true |- _ => apply negb_true_iff in H
  | H : same_head _ _ _ = true |- _ => unfold same_head in H
  | H : is_nat_u64 _ = true |- _ => unfold is_nat_u64 in H
  end.

(** References go to results that were seen and have a variable. *)
Fixpoint scoped (done : list ResultArg) (rs : list ResultArg) : Prop :=
  match rs with
  | [] => True
  | r :: rs =>
      (∀ x, res_Res r = Some x → ∃ r0, r0 ∈ done ∧ rid r0 = x ∧ uses r0 ≠ ∅) ∧ (rid r ∉ rid <$> done) ∧ scoped (done ++ [r]) rs
  end.
Lemma scoped_app done l k : scoped done (l ++ k) ↔ scoped done l ∧ scoped (done ++ l) k.
Proof.
  revert done. induction l as [|r l IH]; intros done; cbn [app scoped]; [rewrite app_nil_r; tauto|]. rewrite IH, <-app_assoc. cbn [app]. tauto.
Qed.

Section roundtrip.
Context (target : Target) (PtrSize : Z) (typeRefs : list Typ) (any : AnyTypes) (rank : Ref → nat).
Context (EncodeB64 : list Z → list Z) (DecodeB64 : list Z → option (list Z)) (DecompressCheck : list Z → bool) (Compress : list Z → list Z).
Context (fuel : nat) (strict unsafe verbose : bool).
Context (E : parse_env target PtrSize typeRefs any rank fuel).
Context (f : argid → argid).
Local Abbreviation text_fits := (text_fits target PtrSize typeRefs any DecompressCheck unsafe verbose).
Local Abbreviation parsed_arg := (parsed_arg f).
Local Abbreviation isDefault := (isDefaultArg typeRefs).
Local Abbreviation valid_ref := (valid_ref typeRefs).

Lemma self_ref r t : valid_ref r → index typeRefs r = Ret t → self (type_common t) = r.
Proof. intros [Hr _] Et. by destruct (pe_default _ _ _ _ _ _ E r t Hr Et). Qed.
Lemma TypeOf_at r t a : valid_ref r → ref (common a) = r → index typeRefs r = Ret t → TypeOf typeRefs a = Ret t.
Proof. intros [Hr _] Ha Et. by apply (TypeOf_made typeRefs a r t). Qed.

(** ** Default arguments are rebuilt *)

Lemma all_default_cons x l : all_default typeRefs (x :: l) = Ret true → isDefault x = Ret true ∧ all_default typeRefs l = Ret true.
Proof. cbn. destruct (isDefault x) as [[]|]; done. Qed.
(** Only paddings are rebuilt in the verbose form. *)
Definition may_omit (a : Arg) : Prop := verbose = false ∨ ∃ c v, a = ConstArg c v.
Definition rebuilt_args (a : Arg) : Prop := ∀ n r dir fl, may_omit a → valid_ref r → text_fits r dir a = true → isDefault a = Ret true → post_numbered f n (post_ids a) → (rank r < fl)%nat →
  DefaultArg typeRefs fl r dir n = Ret (Some (parsed_arg a, n + len (post_ids a))).
Lemma fields_rebuilt inner : verbose = false → Forall rebuilt_args inner → ∀ fields dir n fl, (∀ g, g ∈ fields → valid_ref (FieldType g) ∧ (rank (FieldType g) < fl)%nat) →
  fits_fields typeRefs text_fits dir inner fields = true → all_default typeRefs inner = Ret true → post_numbered f n (posts inner) →
  default_fields (DefaultArg typeRefs fl) fields dir n = Ret (Some (parsed_arg <$> inner, n + len (posts inner))).
Proof.
  intros Hvb. induction 1 as [|x inner Hx Hin IH]; intros fields dir n fl Hf Hfit Hd Hn; destruct fields as [|g fields]; try done.
  - cbn. by rewrite Z.add_0_r.
  - cbn [fits_fields] in Hfit. bools. apply all_default_cons in Hd as [Hd1 Hd2]. rewrite posts_cons in Hn. apply post_numbered_app in Hn as [Hn1 Hn2].
    cbn [default_fields]. destruct (Hf g) as [Hv Hrk]; [by left|]. rewrite (Hx n (FieldType g) (FieldDir g dir) fl) by (done || by left). cbn [mbind outcome_bind].
    rewrite (IH fields dir) by (done || intros h Hh; apply Hf; by right). cbn [cons_made fmap list_fmap]. rewrite posts_cons, len_app, Z.add_assoc. done.
Qed.
Lemma elems_rebuilt inner : verbose = false → Forall rebuilt_args inner → ∀ elem dir n fl, valid_ref elem → (rank elem < fl)%nat →
  forallb (text_fits elem dir) inner = true → all_default typeRefs inner = Ret true → post_numbered f n (posts inner) →
  default_elems (DefaultArg typeRefs fl) (length inner) elem dir n = Ret (Some (parsed_arg <$> inner, n + len (posts inner))).
Proof.
  intros Hvb. induction 1 as [|x inner Hx Hin IH]; intros elem dir n fl Hv Hrk Hfit Hd Hn; [cbn; by rewrite Z.add_0_r|].
  cbn [forallb] in Hfit. bools. apply all_default_cons in Hd as [Hd1 Hd2]. rewrite posts_cons in Hn. apply post_numbered_app in Hn as [Hn1 Hn2].
  cbn [default_elems length]. rewrite (Hx n elem dir fl) by (done || by left). cbn [mbind outcome_bind].
  rewrite (IH elem dir) by done. cbn [cons_made fmap list_fmap]. rewrite posts_cons, len_app, Z.add_assoc. done.
Qed.
Lemma const_rebuilt c v : rebuilt_args (ConstArg c v).
Proof.
  intros n r dir fl Hom Hr Hfit Hd Hn Hfl. destruct fl as [|fl]; [lia|]. apply numbered_single in Hn. cbn [TextRoundtrip.text_fits] in Hfit. destruct (index typeRefs r) as [t|] eqn:Et; [|done].
  unfold fits_const in Hfit. bools. cbn [isDefaultArg] in Hd. rewrite (TypeOf_at r t) in Hd by done. cbn [mbind outcome_bind] in Hd.
  cbn [DefaultArg]. rewrite Et. cbn [mbind outcome_bind]. cbn [TextRoundtrip.parsed_arg copy_arg].
  assert (Hc : rename_common f c = make_common t dir n) by (apply parsed_common; [done|rewrite (self_ref r t) by done; done|done]).
  destruct t; try done; injection Hd as Hd%bool_decide_eq_true; cbn [const_default] in Hd |- *; injection Hd as <-; unfold finish, MakeConstArg; cbn [mbind outcome_bind]; by rewrite Hc.
Qed.
Lemma result_rebuilt x : rebuilt_args (AResult x).
Proof.
  intros n r dir fl Hom Hr Hfit Hd Hn Hfl. destruct fl as [|fl]; [lia|]. apply numbered_single in Hn. cbn [TextRoundtrip.text_fits] in Hfit. destruct (index typeRefs r) as [t|] eqn:Et; [|done].
  unfold fits_result in Hfit. bools. cbn [isDefaultArg] in Hd. rewrite (TypeOf_at r t) in Hd by done. cbn [mbind outcome_bind] in Hd. destruct t; try done.
  destruct (decide _) as [(Hres & Hdiv & Hadd & Hu)|] in Hd; [|done]. destruct (ResourceDefault Desc) as [v|] eqn:Ev; [|done]. cbn in Hd. injection Hd as Hd%bool_decide_eq_true.
  cbn [DefaultArg]. rewrite Et. cbn [mbind outcome_bind]. rewrite Ev. cbn [mbind outcome_bind finish]. unfold finish, MakeResultArg. cbn [mbind outcome_bind]. cbn [TextRoundtrip.parsed_arg copy_arg].
  unfold parsed_result, rename_result, set_uses. cbn [res_common res_Res OpDiv OpAdd res_Val]. rewrite Hres, Hdiv, Hadd, Hd.
  rewrite (parsed_common f (ResourceType c ArgFormat Desc) dir n); [done|done|rewrite (self_ref r _ Hr Et); done|done].
Qed.
Lemma data_rebuilt c data size : rebuilt_args (DataArg c data size).
Proof.
  intros n r dir fl Hom Hr Hfit Hd Hn Hfl. destruct fl as [|fl]; [lia|]. apply numbered_single in Hn. cbn [TextRoundtrip.text_fits] in Hfit. destruct (index typeRefs r) as [t|] eqn:Et; [|done].
  unfold fits_data in Hfit. bools. cbn [isDefaultArg] in Hd. rewrite (TypeOf_at r t) in Hd by done. cbn [mbind outcome_bind] in Hd. destruct t as [| | | | | | | |tc kind lo hi sub Values nz| | | |]; try done. bools.
  assert (Hc : rename_common f c = make_common (BufferType tc kind lo hi sub Values nz) dir n) by (apply parsed_common; [done|rewrite (self_ref r _ Hr Et); done|done]).
  cbn [DefaultArg]. rewrite Et. cbn [mbind outcome_bind]. unfold finish, buffer_default. unfold buffer_is_default in Hd. cbn [TextRoundtrip.parsed_arg copy_arg]. rewrite Hc.
  unfold TSize, Varlen in *. cbn [type_common] in *.
  assert (Esz : (if IsVarlen tc then Ret 0 else if IsVarlen tc then Panic else Ret (TypeSize tc)) = Ret (if IsVarlen tc then 0 else TypeSize tc)) by by destruct (IsVarlen tc).
  rewrite Esz in Hd |- *. cbn [mbind outcome_bind ArgSize] in Hd |- *. destruct (decide (_ ≠ _)) as [?|Hs] in Hd; [done|].
  assert (Hsize : (if decide (data = []) then size else len data) = if IsVarlen tc then 0 else TypeSize tc) by (destruct (decide (data = [])); lia). clear Hs.
  match goal with H : arg_dir c = dir |- _ => rewrite H in Hd end. destruct (decide (dir = DirOut)) as [Hout|Hout]; bools.
  - subst data. rewrite decide_True in Hsize by done. unfold MakeOutDataArg. rewrite decide_False by auto. cbn [mbind outcome_bind]. by rewrite Hsize.
  - subst size. injection Hd as Hd. unfold MakeDataArg.
    assert (Hz : forallb (λ b, bool_decide (b = 0)) data = true → (if IsVarlen tc then Ret [] else s ← (if IsVarlen tc then Panic else Ret (TypeSize tc)); Ret (replicate (Z.to_nat s) 0)) = Ret data).
    { intros Hz. assert (Hl : len data = if IsVarlen tc then 0 else TypeSize tc) by (rewrite <-Hsize; by destruct (decide (data = [])) as [->|]). assert (Hr0 : data = replicate (length data) 0).
      { clear -Hz. induction data as [|b data IH]; [done|]. cbn in *. bools. subst b. f_equal. by apply IH. }
      unfold len in Hl. destruct (IsVarlen tc); [destruct data; [done|cbn in Hl; lia]|]. cbn. rewrite <-Hl, Nat2Z.id. by rewrite <-Hr0. }
    destruct Values as [|v [|v2 vs]]; [rewrite Hz by done| |rewrite Hz by done]; cbn [mbind outcome_bind]; rewrite decide_False by done; [done| |done]. bools. by subst data.
Qed.
Lemma special_zero_inv addr vma res : special_zero addr vma res = true → addr = 0 ∧ vma = 0 ∧ res = None.
Proof. unfold special_zero, IsSpecial. intros H. bools. destruct res; [done|]. done. Qed.
Lemma area_rebuilt c addr vma : rebuilt_args (PointerArg c addr vma None).
Proof.
  intros n r dir fl Hom Hr Hfit Hd Hn Hfl. destruct fl as [|fl]; [lia|]. apply numbered_single in Hn. cbn [TextRoundtrip.text_fits] in Hfit. destruct (index typeRefs r) as [t|] eqn:Et; [|done].
  unfold fits_area in Hfit. bools.
  assert (Hz : special_zero addr vma None = true ∧ (∃ tc lo hi, t = VmaType tc lo hi) ∨ special_zero addr vma None = true ∧ ∃ tc e ed sq, t = PtrType tc e ed sq ∧ IsOptional tc = true).
  { assert (Hh : ref c = r) by (destruct (IsSpecial addr vma None); bools; destruct t; bools; done). cbn [isDefaultArg] in Hd. rewrite (TypeOf_at r t) in Hd by done. cbn [mbind outcome_bind] in Hd.
    destruct t; try done; try (injection Hd as Hd; left; eauto). unfold TOptional in Hd. cbn [type_common] in Hd. destruct (IsOptional c0) eqn:Eo; [injection Hd as Hd; right; split; [done|]; eauto 10|].
    by destruct (decide _) in Hd. }
  assert (Hz0 : special_zero addr vma None = true) by (destruct Hz as [[? _]|[? _]]; done). pose proof (special_zero_inv _ _ _ Hz0) as (-> & -> & _).
  match goal with H : (if IsSpecial _ _ _ then _ else _) = true |- _ => change (IsSpecial 0 0 None) with true in H end. cbn iota in *. bools.
  cbn [DefaultArg]. rewrite Et. cbn [mbind outcome_bind]. unfold finish, MakeSpecialPointerArg. cbn [TextRoundtrip.parsed_arg copy_arg].
  destruct Hz as [[_ (tc & lo & hi & ->)]|[_ (tc & e & ed & sq & -> & Ho)]]; bools.
  - cbn. rewrite (parsed_common f (VmaType tc lo hi) dir n); [done|done|rewrite (self_ref r _ Hr Et); done|done].
  - unfold TOptional. cbn [type_common]. rewrite Ho. cbn. rewrite (parsed_common f (PtrType tc e ed sq) DirIn n); [done|done|rewrite (self_ref r _ Hr Et); done|done].
Qed.
Lemma pointee_same r t c e d : valid_ref r → index typeRefs r = Ret t → ref c = r → pointee PtrSize typeRefs any r t c = Some (e, d) → ∃ tc sq, t = PtrType tc e d sq.
Proof.
  intros Hr Et Hc. unfold pointee. destruct t; try done. rewrite Hc, Et. intros Hp. assert (Hed : Some (Elem, ElemDir) = Some (e, d)); [|injection Hed as -> ->; eauto].
  destruct (_ && _); [destruct (getAnyPtrType _ _ _); [|done]|]; by destruct (decide _).
Qed.
Lemma pointer_rebuilt c addr vma x : rebuilt_args x → rebuilt_args (PointerArg c addr vma (Some x)).
Proof.
  intros IH n r dir fl [Hvb|(c0 & v0 & [=])] Hr Hfit Hd Hn Hfl. destruct fl as [|fl]; [lia|]. cbn [post_ids] in Hn |- *. apply post_numbered_app in Hn as [Hn Hn2]. apply numbered_single in Hn2. cbn [TextRoundtrip.text_fits] in Hfit.
  destruct (index typeRefs r) as [t|] eqn:Et; [|done]. bools. destruct (pointee _ _ _ _ _ _) as [[e d]|] eqn:Ep; [|done].
  assert (Hc : ref c = r). { match goal with H : _ || _ = true |- _ => rename H into Hor end. unfold not_default in Hor. rewrite Hvb, Hd, !orb_false_r in Hor. by bools. }
  destruct (pointee_same r t c e d Hr Et Hc Ep) as (tc & sq & ->). cbn [isDefaultArg] in Hd. rewrite (TypeOf_at r _ (PointerArg c addr vma (Some x)) Hr Hc Et) in Hd. cbn [mbind outcome_bind] in Hd. unfold TOptional in Hd. cbn [type_common] in Hd.
  destruct (IsOptional tc) eqn:Eo; [injection Hd as Hd; by apply special_zero_inv in Hd as (_ & _ & ?)|]. destruct (decide (addr = 0)) as [->|]; [|done].
  destruct (pe_default _ _ _ _ _ _ E r _ (proj1 Hr) Et) as [_ Hb]. destruct (Hb Eo) as (He0 & Het & Hrk).
  cbn [DefaultArg]. rewrite Et. cbn [mbind outcome_bind]. unfold TOptional. cbn [type_common]. rewrite Eo. rewrite (IH n e d fl) by (done || lia || by left). cbn [mbind outcome_bind]. unfold finish, MakePointerArg. cbn [mbind outcome_bind].
  cbn [TextRoundtrip.parsed_arg copy_arg]. rewrite (parsed_common f (PtrType tc e d sq) DirIn (n + len (post_ids x))); [|done|rewrite (self_ref r _ Hr Et); done|done]. subst vma. rewrite len_app, Z.add_assoc. done.
Qed.
Lemma group_rebuilt c inner : Forall rebuilt_args inner → rebuilt_args (GroupArg c inner).
Proof.
  intros IH n r dir fl [Hvb|(c0 & v0 & [=])] Hr Hfit Hd Hn Hfl. destruct fl as [|fl]; [lia|]. cbn [post_ids] in Hn |- *. apply post_numbered_app in Hn as [Hn Hn2]. apply numbered_single in Hn2. cbn [TextRoundtrip.text_fits] in Hfit.
  destruct (index typeRefs r) as [t|] eqn:Et; [|done]. bools. cbn [isDefaultArg] in Hd. rewrite (TypeOf_at r t) in Hd by done. cbn [mbind outcome_bind] in Hd.
  destruct (pe_default _ _ _ _ _ _ E r _ (proj1 Hr) Et) as [Hself Hb]. fold (posts inner) in *.
  assert (Hc : rename_common f c = make_common t dir (n + len (posts inner))) by (apply parsed_common; [done|congruence|done]).
  cbn [DefaultArg]. rewrite Et. cbn [mbind outcome_bind]. unfold finish, MakeGroupArg. cbn [TextRoundtrip.parsed_arg copy_arg]. rewrite len_app, Z.add_assoc.
  destruct t as [| | | | | | | | |tc elem k lo hi| |tc fields al ov|]; try done; bools.
  - cbn [fixedInnerSize mbind outcome_bind] in Hd |- *. set (fixed := match k with ArrayRandLen => false | ArrayRangeLen => bool_decide (lo = hi) end) in *.
    destruct fixed eqn:Efx; cbn [negb andb] in Hd.
    + assert (Hlo : Z.to_nat lo = length inner).
      { unfold array_len_ok, fixed in *. destruct k; [done|]. rewrite Efx in *. cbn in *. bools. unfold len in *. lia. }
      destruct Hb as (He0 & Het & Hrk); [cbn; by rewrite <-Efx|]. rewrite Hlo, (elems_rebuilt inner Hvb IH elem dir n fl) by (done || lia). cbn [mbind outcome_bind]. by rewrite Hc.
    + destruct (bool_decide (inner ≠ [])) eqn:Ei; [done|]. bools. assert (inner = []) as -> by (destruct inner; [done|]; exfalso; by apply Ei). cbn [mbind outcome_bind] in *. cbn in Hc |- *. rewrite Hc. rewrite !Z.add_0_r. done.
  - rewrite (fields_rebuilt inner Hvb IH fields dir n fl); [cbn [mbind outcome_bind]; by rewrite Hc| |done|done|done].
    intros g Hg. destruct (Hb g Hg) as (? & ? & ?). split; [done|lia].
Qed.
Lemma find_option_index name i fields j g : find_option name i fields = Some (j, g) → i ≤ j ∧ fields !! Z.to_nat (j - i) = Some g ∧ name = bytes_of (FieldName g).
Proof.
  revert i. induction fields as [|h fields IH]; intros i; cbn [find_option]; [done|]. case_decide.
  - intros [= <- <-]. rewrite Z.sub_diag. done.
  - intros (H1 & H2 & H3)%IH. split; [lia|]. split; [|done]. replace (Z.to_nat (j - i)) with (S (Z.to_nat (j - (i + 1)))) by lia. done.
Qed.
Lemma find_option_at name fields j g h : find_option name 0 fields = Some (j, g) → index fields j = Ret h → g = h.
Proof.
  intros (H1 & H2 & _)%find_option_index. rewrite Z.sub_0_r in H2. unfold index. rewrite decide_True by done. rewrite H2. by intros [= ->].
Qed.
Lemma union_rebuilt c o idx tr : rebuilt_args o → rebuilt_args (UnionArg c o idx tr).
Proof.
  intros IH n r dir fl [Hvb|(c0 & v0 & [=])] Hr Hfit Hd Hn Hfl. destruct fl as [|fl]; [lia|]. cbn [post_ids] in Hn |- *. apply post_numbered_app in Hn as [Hn Hn2]. apply numbered_single in Hn2. cbn [TextRoundtrip.text_fits] in Hfit.
  destruct (index typeRefs r) as [t|] eqn:Et; [|done]. bools. pose proof Hd as Hd0. cbn [isDefaultArg] in Hd. rewrite (TypeOf_at r t) in Hd by done. cbn [mbind outcome_bind] in Hd.
  destruct (pe_default _ _ _ _ _ _ E r _ (proj1 Hr) Et) as [Hself Hb].
  assert (Hc : rename_common f c = make_common t dir (n + len (post_ids o))) by (apply parsed_common; [done|congruence|done]).
  destruct t as [| | | | | | | | | | | |tc fields]; try done. destruct (index fields idx) as [g|] eqn:Eg; [|done]. destruct (isConditional fields) as [cond|] eqn:Econd; [|done]. bools.
  match goal with H : _ || _ = true |- _ => rename H into Hor end. unfold not_default in Hor. rewrite Hvb, Hd0, !orb_false_r in Hor. bools. subst cond.
  cbn [DefaultArg]. rewrite Et. cbn [mbind outcome_bind]. destruct Hb as (di & dk & df & Edf & Eix & Hbelow). rewrite Edf in Hd |- *. cbn [mbind outcome_bind] in Hd |- *.
  assert (Hdi : di = 0 ∧ dk = true) by (unfold defaultField in Edf; rewrite Econd in Edf; cbn in Edf; by injection Edf as <- <-). destruct Hdi as [-> ->]. cbn [negb orb] in Hd.
  destruct (bool_decide (idx = 0)) eqn:Eidx; [|done]. bools. subst idx. rewrite Eix in Eg. injection Eg as ->. rewrite Eix. cbn [mbind outcome_bind]. destruct Hbelow as (? & ? & ?).
  rewrite (IH n (FieldType g) (FieldDir g dir) fl) by (done || lia || by left). cbn [mbind outcome_bind finish]. rewrite Econd. unfold finish, MakeUnionArg. cbn [mbind outcome_bind].
  cbn [TextRoundtrip.parsed_arg copy_arg]. rewrite Hc, len_app, Z.add_assoc. subst tr. done.
Qed.
(** A default argument that fits its type is the default argument of its type. *)
Lemma default_rebuilt a : rebuilt_args a.
Proof.
  induction a as [c v|c ad v x Hx|c d s|c l Hl|c o i t Ho|r] using Arg_nested_ind; [apply const_rebuilt| |apply data_rebuilt|by apply group_rebuilt|by apply union_rebuilt|apply result_rebuilt].
  destruct x as [x|]; [by apply pointer_rebuilt|apply area_rebuilt].
Qed.

(** ** Whether an argument is default can be told *)

Record pointee_info (r : Ref) (t : Typ) (c : ArgCommon) (e : Ref) (d : Dir) : Prop := {
  pi_ref : valid_ref (ref c);
  pi_elem : valid_ref e;
  pi_type : ∃ tc e0 d0 sq t' tc' sq', t = PtrType tc e0 d0 sq ∧ t' = PtrType tc' e d sq' ∧ index typeRefs (ref c) = Ret t'
    ∧ (isAnyPtr any t' && sq = true ∧ getAnyPtrType PtrSize any (TypeSize tc) = Ret (ref c) ∧ IsVarlen tc = false ∨ isAnyPtr any t' && sq = false ∧ ref c = r)
}.
Lemma pointee_spec r t c e d : valid_ref r → index typeRefs r = Ret t → pointee PtrSize typeRefs any r t c = Some (e, d) → pointee_info r t c e d.
Proof.
  intros Hr Et. unfold pointee. destruct t as [| | | | | | | | | |tc e0 d0 sq| |]; try done. destruct (index typeRefs (ref c)) as [t'|] eqn:Et'; [|done].
  destruct t' as [| | | | | | | | | |tc' e' d' sq'| |]; try done. pose proof (pe_type _ _ _ _ _ _ E r _ (proj1 Hr) Et) as [_ Hsq].
  destruct (isAnyPtr any (PtrType tc' e' d' sq') && sq) eqn:Ea.
  - destruct (getAnyPtrType PtrSize any (TypeSize tc)) as [r'|] eqn:Eg; [|done]. case_decide as Hr'; [|done]. intros [= -> ->]. bools. subst r'. destruct (Hsq ltac:(done)) as (Hv & _ & Ha1 & Ha2).
    assert (Hany : is_any_ptr typeRefs (ref c)) by (unfold getAnyPtrType in Eg; repeat case_decide; try done; by injection Eg as <-). destruct Hany as (Hc0 & c1 & e1 & d1 & s1 & Ec & He1).
    rewrite Et' in Ec. injection Ec as <- <- <- <-. constructor; [split; [done|eauto]|done|]. exists tc, e0, d0, sq, (PtrType tc' e d sq'), tc', sq'. split_and!; try done. left. split_and!; [by apply andb_true_iff|done|done].
  - case_decide as Hc; [|done]. intros [= -> ->]. rewrite Hc, Et in Et'. injection Et' as -> -> -> ->. pose proof (pe_type _ _ _ _ _ _ E r _ (proj1 Hr) Et) as [He _].
    constructor; [by rewrite Hc|done|]. exists tc', e, d, sq', (PtrType tc' e d sq'), tc', sq'. split_and!; try done; [by rewrite Hc|]. right. done.
Qed.
Definition default_known (a : Arg) : Prop := ∀ r dir, valid_ref r → text_fits r dir a = true → ∃ b, isDefault a = Ret b.
Lemma all_known l : Forall (λ a, ∃ b, isDefault a = Ret b) l → ∃ b, all_default typeRefs l = Ret b.
Proof. induction 1 as [|a l [b Ha] Hl [b' IH]]; [by exists true|]. cbn. rewrite Ha. cbn. destruct b; eauto. Qed.
Lemma fields_each inner fields dir : fits_fields typeRefs text_fits dir inner fields = true → ∀ a, a ∈ inner → ∃ g, g ∈ fields ∧ text_fits (FieldType g) (FieldDir g dir) a = true.
Proof.
  revert fields. induction inner as [|x inner IH]; intros fields Hf a Ha; [by apply not_elem_of_nil in Ha|]. destruct fields as [|g fields]; [done|]. cbn [fits_fields] in Hf. bools.
  apply elem_of_cons in Ha as [->|Ha]; [exists g; split; [by left|done]|]. destruct (IH fields) with (a := a) as (g' & Hg' & Hfit); [done|done|]. exists g'. split; [by right|done].
Qed.
Lemma default_total a : default_known a.
Proof.
  induction a as [c v|c ad v x Hx|c d s|c l Hl|c o i t Ho|x] using Arg_nested_ind; intros r dir Hr Hfit; cbn [TextRoundtrip.text_fits] in Hfit; destruct (index typeRefs r) as [t0|] eqn:Et; try (by destruct x); try done.
  - unfold fits_const in Hfit. bools. cbn [isDefaultArg]. rewrite (TypeOf_at r t0) by done. cbn [mbind outcome_bind]. destruct t0; try done; eauto.
  - destruct x as [x|].
    + bools. destruct (pointee _ _ _ _ _ _) as [[e d]|] eqn:Ep; [|done]. destruct (pointee_spec r t0 c e d Hr Et Ep) as [Hc He (tc & e0 & d0 & sq & t' & tc' & sq' & -> & -> & Et' & _)].
      cbn [isDefaultArg]. rewrite (TypeOf_at (ref c) _ (PointerArg c ad v (Some x)) Hc eq_refl Et'). cbn [mbind outcome_bind]. destruct (TOptional _); [eauto|]. destruct (decide (ad = 0)); [by apply (Hx e d)|eauto].
    + unfold fits_area in Hfit. bools. assert (Hh : ref c = r ∧ ((∃ tc lo hi, t0 = VmaType tc lo hi) ∨ ∃ tc e d sq, t0 = PtrType tc e d sq)) by (destruct (IsSpecial _ _ _); bools; destruct t0; bools; try done; eauto 10).
      destruct Hh as [Hh Ht]. cbn [isDefaultArg]. rewrite (TypeOf_at r t0) by done. cbn [mbind outcome_bind]. destruct Ht as [(tc & lo & hi & ->)|(tc & e & d & sq & ->)]; [eauto|]. destruct (TOptional _); [eauto|]. destruct (decide (ad = 0)); eauto.
  - unfold fits_data in Hfit. bools. cbn [isDefaultArg]. rewrite (TypeOf_at r t0) by done. cbn [mbind outcome_bind]. destruct t0; try done. unfold buffer_is_default, TSize. cbn [ArgSize].
    destruct (Varlen _); cbn [mbind outcome_bind]; repeat case_decide; eauto.
  - bools. cbn [isDefaultArg]. rewrite (TypeOf_at r t0) by done. cbn [mbind outcome_bind]. pose proof (pe_type _ _ _ _ _ _ E r _ (proj1 Hr) Et) as Ht. rewrite Forall_forall in Hl.
    assert (Hall : ∀ P, (∀ a, a ∈ l → ∃ r dir, valid_ref r ∧ text_fits r dir a = true) → P → ∃ b, all_default typeRefs l = Ret b).
    { intros _ Hex _. apply all_known, Forall_forall. intros a Ha. destruct (Hex a Ha) as (ra & da & ? & ?). by eapply (Hl a Ha ra da). }
    destruct t0 as [| | | | | | | | |tc elem k lo hi| |tc fields al ov|]; try done; bools.
    + cbn [fixedInnerSize mbind outcome_bind]. destruct (_ && _); [eauto|]. apply (Hall True); [|done]. intros a Ha. exists elem, dir. split; [done|].
      match goal with H : forallb _ _ = true |- _ => rewrite forallb_forall in H; apply H; by apply list_elem_of_In end.
    + apply (Hall True); [|done]. intros a Ha. destruct (fields_each l fields dir) with (a := a) as (g & Hg & Hga); [done|done|]. exists (FieldType g), (FieldDir g dir). split; [by apply Ht|done].
  - bools. cbn [isDefaultArg]. rewrite (TypeOf_at r t0) by done. cbn [mbind outcome_bind]. pose proof (pe_type _ _ _ _ _ _ E r _ (proj1 Hr) Et) as Ht. destruct t0 as [| | | | | | | | | | | |tc fields]; try done.
    destruct (index fields i) as [g|] eqn:Eg; [|done]. destruct (isConditional fields) as [cond|] eqn:Ec; [|done]. bools. destruct (pe_default _ _ _ _ _ _ E r _ (proj1 Hr) Et) as [_ (di & dk & df & Edf & _)]. rewrite Edf. cbn [mbind outcome_bind].
    destruct (negb dk || bool_decide _); [|eauto]. eapply (Ho (FieldType g) (FieldDir g dir)); [|done]. apply Ht. unfold index in Eg. destruct (decide (0 ≤ i)); [|done]. destruct (fields !! Z.to_nat i) eqn:El; [|done]. injection Eg as ->. by eapply list_elem_of_lookup_2.
  - unfold fits_result in Hfit. bools. cbn [isDefaultArg]. rewrite (TypeOf_at r t0) by done. cbn [mbind outcome_bind]. destruct t0; try done. destruct (pe_default _ _ _ _ _ _ E r _ (proj1 Hr) Et) as [_ (v & Hv)].
    assert (Ev : ResourceDefault Desc = Ret v) by (by apply index_Some). rewrite Ev. cbn [mbind outcome_bind]. destruct (decide (res_Res x = None ∧ _)); eauto.
Qed.

(** ** Variables of the text and of the parser *)

Local Abbreviation serialize := (serialize typeRefs any EncodeB64 verbose false).
Local Abbreviation argImpl := (parseArgImpl target PtrSize typeRefs any DecodeB64 DecompressCheck Compress fuel strict unsafe).
Local Abbreviation argBody := (parse_arg_body target PtrSize typeRefs any DecodeB64 DecompressCheck Compress fuel strict unsafe).
Local Abbreviation parseArg := (parseArg target PtrSize typeRefs any DecodeB64 DecompressCheck Compress fuel strict unsafe).
Local Abbreviation vars := (gmap (list Z) argid).

(** The entries of the [uses] maps made for the result arguments. *)
Definition links (rs : list ResultArg) : list (argid * argid) := omap (λ r, x ← res_Res r; Some (f x, f (rid r))) rs.
Lemma links_app l k : links (l ++ k) = links l ++ links k.
Proof. apply omap_app. Qed.
(** The parser after arguments with [k] identities. *)
Definition moved (rest : list Z) (v : vars) (k : Z) (ls : list (argid * argid)) (p : parser) : parser :=
  mkParser rest false v (ps_autos p) (ps_comment p) (ps_next p + k) (ps_uses p ++ ls).
Lemma moved_moved rest v k ls rest' v' k' ls' p : moved rest v k ls (moved rest' v' k' ls' p) = moved rest v (k' + k) (ls' ++ ls) p.
Proof. unfold moved. cbn. by rewrite Z.add_assoc, app_assoc. Qed.
Lemma moved_start rest p : ps_err p = false → set_s rest p = moved rest (ps_vars p) 0 [] p.
Proof. intros He. unfold moved, set_s. by rewrite He, Z.add_0_r, app_nil_r. Qed.
Lemma set_s_moved s rest v k ls p : set_s s (moved rest v k ls p) = moved s v k ls p.
Proof. done. Qed.

Definition ctx_ok (done : list ResultArg) (ctx : serializer) : Prop :=
  0 ≤ sz_varSeq ctx ∧ ∀ r, r ∈ done → uses r ≠ ∅ → ∃ k, sz_vars ctx !! rid r = Some k ∧ 0 ≤ k < sz_varSeq ctx.
Definition vars_ok (done : list ResultArg) (ctx : serializer) (v : vars) : Prop :=
  ∀ r k, r ∈ done → uses r ≠ ∅ → sz_vars ctx !! rid r = Some k → v !! var_name k = Some (f (rid r)).
Record ctx_step (done rs : list ResultArg) (ctx ctx' : serializer) : Prop := {
  cs_ok : ctx_ok (done ++ rs) ctx';
  cs_seq : sz_varSeq ctx ≤ sz_varSeq ctx' ≤ sz_varSeq ctx + len rs;
  cs_old : ∀ x, x ∉ rid <$> rs → sz_vars ctx' !! x = sz_vars ctx !! x;
  cs_range : ∀ x k, sz_vars ctx' !! x = Some k → sz_vars ctx !! x = Some k ∨ sz_varSeq ctx ≤ k < sz_varSeq ctx'
}.
Lemma ctx_step_nil done ctx : ctx_ok done ctx → ctx_step done [] ctx ctx.
Proof. intros H. constructor; [by rewrite app_nil_r|unfold len; cbn; lia|done|by left]. Qed.
Lemma ctx_step_app done l k ctx ctx1 ctx2 : ctx_step done l ctx ctx1 → ctx_step (done ++ l) k ctx1 ctx2 → ctx_step done (l ++ k) ctx ctx2.
Proof.
  intros [A1 A2 A3 A4] [B1 B2 B3 B4]. constructor; [by rewrite app_assoc|rewrite len_app; lia| |].
  - intros x Hx. rewrite fmap_app, not_elem_of_app in Hx. rewrite B3, A3; tauto.
  - intros x j [Hj|Hj]%B4; [|right; lia]. apply A4 in Hj as [Hj|Hj]; [by left|right; lia].
Qed.
Lemma var_name_inj k k' : in_u64 k → in_u64 k' → var_name k = var_name k' → k = k'.
Proof. intros Hk Hk' [= Ek]. apply (f_equal ParseUint) in Ek. rewrite !ParseUint_dec in Ek by done. by injection Ek. Qed.
Lemma vars_ok_insert done ctx v r : ctx_ok done ctx → vars_ok done ctx v → rid r ∉ rid <$> done → sz_varSeq ctx < 2 ^ 64 →
  vars_ok (done ++ [r]) (mkSerializer (<[rid r := sz_varSeq ctx]> (sz_vars ctx)) (sz_varSeq ctx + 1)) (<[var_name (sz_varSeq ctx) := f (rid r)]> v).
Proof.
  intros [H0 Hc] Hv Hr Hs r0 k [Hin|Hin]%elem_of_app Hu Hk; cbn [sz_vars] in Hk.
  - assert (Hne : rid r0 ≠ rid r) by (intros Hne; apply Hr; rewrite <-Hne; apply list_elem_of_fmap; eauto). rewrite lookup_insert_ne in Hk by done.
    destruct (Hc r0 Hin Hu) as (k' & Hk' & Hlt). rewrite Hk in Hk'. injection Hk' as <-. rewrite lookup_insert_ne; [by eapply Hv|]. intros Heq%var_name_inj; unfold in_u64; lia.
  - apply list_elem_of_singleton in Hin as ->. rewrite lookup_insert_eq in Hk. injection Hk as <-. by rewrite lookup_insert_eq.
Qed.

(** ** Text of arguments *)

Definition start_char (c : Z) : Prop := c ∈ ["0"%ch; "r"%ch; "&"%ch; dquote; 39; "{"%ch; "["%ch; "@"%ch; "<"%ch].
Definition good (t : list Z) : Prop := (∃ c s, t = c :: s ∧ start_char c) ∧ 10 ∉ t.
Definition ends (rest : list Z) : Prop := ∃ c s, rest = c :: s ∧ c ∈ [","%ch; ")"%ch; "]"%ch; "}"%ch].
Lemma ends_stops rest : ends rest → stops rest ∧ drop_while is_blank rest = rest.
Proof. intros (c & s & -> & Hc). cbn. rewrite !elem_of_cons in Hc. destruct Hc as [->|[->|[->|[->|Hc]]]]; try done. by apply not_elem_of_nil in Hc. Qed.
(** The next byte ends the argument: it starts no operand, size or value. *)
Lemma ends_char rest p : ps_err p = false → ends rest → ∃ c, Char (set_s rest p) = Ok (c, set_s rest p) ∧ c ≠ "/"%ch ∧ c ≠ "+"%ch ∧ c ≠ "="%ch.
Proof.
  intros He (c & s & -> & Hc). exists c. split; [by apply Char_at|]. rewrite !elem_of_cons in Hc. destruct Hc as [->|[->|[->|[->|Hc]]]]; try done. by apply not_elem_of_nil in Hc.
Qed.
Definition reads (a : Arg) (r : Ref) (dir : Dir) (done : list ResultArg) (ctx ctx' : serializer) (t : list Z) : Prop := ∀ p rest n,
  ps_err p = false → vars_ok done ctx (ps_vars p) → post_numbered f (ps_next p) (post_ids a) → ends rest → (length (t ++ rest) < n)%nat →
  ∃ v, parseArg n (Some r) dir (set_s (t ++ rest) p) = Ok (Some (parsed_arg a), moved rest v (len (post_ids a)) (links (arg_results a)) p)
  ∧ vars_ok (done ++ arg_results a) ctx' v.
Definition printed (a : Arg) : Prop := ∀ r dir done ctx, valid_ref r → text_fits r dir a = true → ctx_ok done ctx → scoped done (arg_results a) →
  sz_varSeq ctx + len (arg_results a) < 2 ^ 64 →
  ∃ t ctx', serialize a ctx = Ret (t, ctx') ∧ ctx_step done (arg_results a) ctx ctx' ∧ good t ∧ reads a r dir done ctx ctx' t.

Lemma body_plain rec r dir c s p a p' : ps_err p = false → c ≠ "<"%ch → argImpl rec (Some r) dir (set_s (c :: s) p) = Ok (Some a, p') →
  argBody rec (Some r) dir (set_s (c :: s) p) = Ok (Some a, p').
Proof.
  intros He Hc Hi. unfold parse_arg_body. erewrite bind_Ok; [|by apply Char_at]. rewrite decide_False by done. erewrite bind_Ok; [|reflexivity]. erewrite bind_Ok; [|exact Hi].
  erewrite bind_Ok; [|reflexivity]. rewrite decide_False by (intros Hn; by apply Hn). reflexivity.
Qed.
(** Which method the first byte of an argument selects. *)
Ltac dispatch He Ht Hm := unfold parseArgImpl; erewrite bind_Ok; [|reflexivity]; cbv beta iota; erewrite bind_Ok; [|by apply Char_at];
  repeat first [rewrite decide_True by (done || lia || (left; done) || (right; done)) | rewrite decide_False by (unfold dquote; lia)];
  erewrite bind_Ok; [|unfold type_at, of_outcome; rewrite Ht; reflexivity]; erewrite bind_Ok; [|exact Hm]; reflexivity.
Section dispatch.
Context (rec : option Ref → Dir → parsing parser (option Arg)) (r : Ref) (t : Typ) (dir : Dir) (s : list Z) (p p' : parser) (a : Arg).
Context (He : ps_err p = false) (Ht : index typeRefs r = Ret t).
Lemma impl_int : parseArgInt target typeRefs fuel strict r t dir (set_s ("0"%ch :: s) p) = Ok (a, p') → argImpl rec (Some r) dir (set_s ("0"%ch :: s) p) = Ok (Some a, p').
Proof. intros Hm. dispatch He Ht Hm. Qed.
Lemma impl_res : parseArgRes typeRefs fuel strict r t dir (set_s ("r"%ch :: s) p) = Ok (a, p') → argImpl rec (Some r) dir (set_s ("r"%ch :: s) p) = Ok (Some a, p').
Proof. intros Hm. dispatch He Ht Hm. Qed.
Lemma impl_addr : parseArgAddr target PtrSize typeRefs any fuel strict unsafe rec r t dir (set_s ("&"%ch :: s) p) = Ok (a, p') → argImpl rec (Some r) dir (set_s ("&"%ch :: s) p) = Ok (Some a, p').
Proof. intros Hm. dispatch He Ht Hm. Qed.
Lemma impl_string c : c = dquote ∨ c = 39 → parseArgString target typeRefs DecodeB64 DecompressCheck Compress fuel strict r t dir (set_s (c :: s) p) = Ok (a, p') → argImpl rec (Some r) dir (set_s (c :: s) p) = Ok (Some a, p').
Proof. intros [-> | ->] Hm; dispatch He Ht Hm. Qed.
Lemma impl_struct : parseArgStruct typeRefs fuel strict rec r t dir (set_s ("{"%ch :: s) p) = Ok (a, p') → argImpl rec (Some r) dir (set_s ("{"%ch :: s) p) = Ok (Some a, p').
Proof. intros Hm. dispatch He Ht Hm. Qed.
Lemma impl_array : parseArgArray typeRefs fuel strict rec r t dir (set_s ("["%ch :: s) p) = Ok (a, p') → argImpl rec (Some r) dir (set_s ("["%ch :: s) p) = Ok (Some a, p').
Proof. intros Hm. dispatch He Ht Hm. Qed.
Lemma impl_union : parseArgUnion typeRefs fuel strict rec r t dir (set_s ("@"%ch :: s) p) = Ok (a, p') → argImpl rec (Some r) dir (set_s ("@"%ch :: s) p) = Ok (Some a, p').
Proof. intros Hm. dispatch He Ht Hm. Qed.
End dispatch.

Lemma ident_no_newline l : forallb is_ident l = true → 10 ∉ l.
Proof. intros Hl Hin. rewrite forallb_forall in Hl. apply list_elem_of_In in Hin. by specialize (Hl 10 Hin). Qed.
Lemma good_hex v : in_u64 v → good (print_hex v).
Proof. intros Hv. split; [exists "0"%ch; eexists; split; [done|by left]|by apply ident_no_newline, print_hex_ident]. Qed.
Lemma Ident_hex v rest p : in_u64 v → stops rest → Ident (set_s (print_hex v ++ rest) p) = Ok (print_hex v, set_s rest p).
Proof. intros Hv Hr. apply Ident_at; [done|by apply print_hex_ident|done]. Qed.
Lemma Ident_dec v rest p : in_u64 v → stops rest → Ident (set_s (print_dec v ++ rest) p) = Ok (print_dec v, set_s rest p).
Proof.
  intros Hv Hr. apply Ident_at; [|apply print_dec_ident; apply Hv|done]. destruct (print_dec_cons v Hv) as (d & s & -> & _). done.
Qed.
(** An argument of one piece: it is printed without the context and read by one method. *)
Lemma leaf_printed a r dir done ctx t : arg_results a = [] → post_ids a = [aid a] → ctx_ok done ctx → serialize a ctx = Ret (t, ctx) → good t → head t ≠ Some "<"%ch →
  (∀ rec p rest, ps_err p = false → f (aid a) = ps_next p → ends rest →
     argImpl rec (Some r) dir (set_s (t ++ rest) p) = Ok (Some (parsed_arg a), moved rest (ps_vars p) 1 [] p)) →
  ∃ t ctx', serialize a ctx = Ret (t, ctx') ∧ ctx_step done (arg_results a) ctx ctx' ∧ good t ∧ reads a r dir done ctx ctx' t.
Proof.
  intros Er Ep Hc Es Hg Hh Hi. exists t, ctx. rewrite Er. split_and!; [done|by apply ctx_step_nil|done|]. intros p rest n He Hv Hn Hends Hl. rewrite Ep in Hn |- *. apply numbered_single in Hn.
  exists (ps_vars p). rewrite Er, app_nil_r. split; [|done]. specialize (Hi (parseArg (pred n)) p rest He Hn Hends). destruct Hg as [(c & s & -> & _) _]. destruct n as [|n]; [cbn in Hl; lia|].
  cbn [TextParse.parseArg app]. apply body_plain; [done|cbn in Hh; congruence|exact Hi].
Qed.
Lemma make_moved g rest p : ps_err p = false → make_arg g (set_s rest p) = Ok (g (ps_next p), moved rest (ps_vars p) 1 [] p).
Proof. intros He. unfold make_arg, fresh_arg, mbind, parsing_bind, mret, parsing_ret, moved, set_next. cbn. by rewrite He, app_nil_r. Qed.
Lemma try_moved g rest p a : ps_err p = false → g (ps_next p) = Ret a → try_arg g (set_s rest p) = Ok (a, moved rest (ps_vars p) 1 [] p).
Proof. intros He Hg. unfold try_arg, fresh_arg, mbind, parsing_bind, of_outcome, moved, set_next. cbn. by rewrite Hg, He, app_nil_r. Qed.
Lemma const_printed c v : printed (ConstArg c v).
Proof.
  intros r dir done ctx Hr Hfit Hctx _ _. cbn [TextRoundtrip.text_fits] in Hfit. destruct (index typeRefs r) as [t|] eqn:Et; [|done]. unfold fits_const in Hfit. bools.
  apply (leaf_printed _ _ _ _ _ (print_hex v)); [done|done|done|done|by apply good_hex|done|]. intros rec p rest He Hn Hends. destruct (ends_stops rest Hends) as [Hs _].
  apply (impl_int rec r t); [done|done|]. change ("0"%ch :: _ ++ rest) with (print_hex v ++ rest). unfold parseArgInt. erewrite bind_Ok; [|by apply Ident_hex]. rewrite ParseUint_hex by done. erewrite bind_Ok; [|reflexivity].
  assert (Hc : MakeConstArg t dir v (ps_next p) = parsed_arg (ConstArg c v)).
  { unfold MakeConstArg. cbn. f_equal. symmetry. apply parsed_common; [done|by rewrite (self_ref r t)|done]. }
  assert (Hlen : make_arg (MakeConstArg t dir v) (set_s rest p) = Ok (parsed_arg (ConstArg c v), moved rest (ps_vars p) 1 [] p)) by (rewrite make_moved, Hc by done; done).
  assert (Hgen : match const_default t with Some d => negb (bool_decide (dir = DirOut)) || bool_decide (v = d) | None => false end = true →
    match t with ResourceType _ _ _ | VmaType _ _ _ | BufferType _ _ _ _ _ _ _ | ArrayType _ _ _ _ _ | PtrType _ _ _ _ | StructType _ _ _ _ | UnionType _ _ => False | _ => True end →
    (arg ← make_arg (MakeConstArg t dir v); isDef ← (if decide (dir = DirOut) then of_outcome (isDefaultArg typeRefs arg) else mret true);
      if (isDef : bool) then mret arg else strictFailf strict;; default_arg typeRefs fuel r dir) (set_s rest p) = Ok (parsed_arg (ConstArg c v), moved rest (ps_vars p) 1 [] p)).
  { intros Hd Hk. erewrite bind_Ok; [|exact Hlen]. case_decide as Hdir; [|reflexivity]. rewrite Hdir, bool_decide_eq_true_2 in Hd by done. cbn [negb orb] in Hd. destruct (const_default t) as [d|] eqn:Ed; [|done]. bools. subst d.
    rewrite <-Hc. assert (Ei : isDefaultArg typeRefs (MakeConstArg t dir v (ps_next p)) = Ret true).
    { cbn [isDefaultArg MakeConstArg]. rewrite (TypeOf_made _ _ r t) by (done || apply Hr || apply self_ref; done). cbn [mbind outcome_bind]. destruct t; try done; cbn [const_default] in *; rewrite Ed; by rewrite bool_decide_eq_true_2. }
    rewrite Ei. reflexivity. }
  destruct t; try done; first [exact Hlen|by apply Hgen].
Qed.

(** ** References *)

Definition op_text (ch v : Z) : list Z := if decide (v ≠ 0) then ch :: print_dec v else [].
Lemma dec_tight v rest : in_u64 v → tight (print_dec v ++ rest).
Proof. intros Hv. destruct (print_dec_cons v Hv) as (d & s & -> & Hd). cbn. unfold digit_char, is_blank. case_decide; rewrite !bool_decide_eq_false_2 by lia; done. Qed.
Lemma op_stops ch v rest : is_ident ch = false → is_blank ch = false → stops rest → stops (op_text ch v ++ rest).
Proof. intros H1 H2 H3. unfold op_text. case_decide; done. Qed.
Lemma parse_op_at ch v rest p : ps_err p = false → in_u64 v → stops rest → (∃ c s, rest = c :: s ∧ c ≠ ch) →
  parse_op ch (set_s (op_text ch v ++ rest) p) = Ok (v, set_s rest p).
Proof.
  intros He Hv Hs (c & s & Er & Hc). unfold parse_op, op_text. destruct (decide (v ≠ 0)) as [Hn|Hn]; cbn [app].
  - erewrite bind_Ok; [|by apply Char_at]. rewrite decide_True by done. erewrite bind_Ok; [|apply Parse_tight; [done|by apply dec_tight]]. erewrite bind_Ok; [|by apply Ident_dec].
    by rewrite ParseUint_dec.
  - rewrite Er. erewrite bind_Ok; [|by apply Char_at]. rewrite decide_False by done. unfold mret, parsing_ret. by replace v with 0 by lia.
Qed.
Lemma var_name_ident k : in_u64 k → forallb is_ident (var_name k) = true.
Proof. intros [Hk _]. cbn [var_name forallb]. by rewrite print_dec_ident. Qed.
Lemma Ident_var k rest p : in_u64 k → stops rest → Ident (set_s (var_name k ++ rest) p) = Ok (var_name k, set_s rest p).
Proof. intros Hk Hr. apply Ident_at; [done|by apply var_name_ident|done]. Qed.
(** The text of a result argument after its own variable. *)
Lemma value_printed x r dir done ctx : valid_ref r → text_fits r dir (AResult x) = true → ctx_ok done ctx → sz_varSeq ctx < 2 ^ 64 →
  (∀ y, res_Res x = Some y → ∃ r0, r0 ∈ done ∧ rid r0 = y ∧ uses r0 ≠ ∅) →
  ∃ u, (∀ ctx1, (∀ y, res_Res x = Some y → sz_vars ctx1 !! y = sz_vars ctx !! y) →
          match res_Res x with
          | None => Ret (print_hex (res_Val x), ctx1)
          | Some y => match sz_vars ctx1 !! y with
                      | None => Panic
                      | Some id => Ret (var_name id ++ op_text "/"%ch (OpDiv x) ++ op_text "+"%ch (OpAdd x), ctx1)
                      end
          end = Ret (u, ctx1))
  ∧ (∃ c s, u = c :: s ∧ (c = "0"%ch ∨ c = "r"%ch)) ∧ (10 ∉ u)
  ∧ ∀ rec p rest, ps_err p = false → vars_ok done ctx (ps_vars p) → f (rid x) = ps_next p → ends rest →
      argImpl rec (Some r) dir (set_s (u ++ rest) p) = Ok (Some (parsed_arg (AResult x)), moved rest (ps_vars p) 1 (links [x]) p).
Proof.
  intros Hr Hfit [H0 Hc] Hseq Href. cbn [TextRoundtrip.text_fits] in Hfit. destruct (index typeRefs r) as [t|] eqn:Et; [|done]. unfold fits_result in Hfit. bools. destruct t; try done.
  set (t := ResourceType c ArgFormat Desc) in *.
  assert (Hcom : ∀ n, f (rid x) = n → rename_common f (res_common x) = make_common t dir n) by (intros n <-; apply parsed_common; [done|by rewrite (self_ref r t)|done]).
  destruct (res_Res x) as [y|] eqn:Ey; bools.
  - destruct (Href y eq_refl) as (r0 & Hr0 & <- & Hu). destruct (Hc r0 Hr0 Hu) as (k & Hk & Hlt). assert (Hk64 : in_u64 k) by (unfold in_u64; lia).
    exists (var_name k ++ op_text "/"%ch (OpDiv x) ++ op_text "+"%ch (OpAdd x)). split_and!.
    + intros ctx1 Hsame. by rewrite (Hsame _ eq_refl), Hk.
    + eexists _, _. split; [done|by right].
    + rewrite !not_elem_of_app. assert (Hop : ∀ ch v, ch ≠ 10 → in_u64 v → 10 ∉ op_text ch v).
      { intros ch v Hch Hv. unfold op_text. case_decide; [|apply not_elem_of_nil]. apply not_elem_of_cons. split; [done|]. apply ident_no_newline, print_dec_ident, Hv. }
      split_and!; [by apply ident_no_newline, var_name_ident|by apply Hop..].
    + intros rec p rest He Hv Hn Hends. destruct (ends_stops rest Hends) as [Hs _]. destruct Hends as (ch & s & Erest & Hch).
      assert (Hne : ch ≠ "/"%ch ∧ ch ≠ "+"%ch) by (rewrite !elem_of_cons in Hch; destruct Hch as [->|[->|[->|[->|Hch]]]]; try done; by apply not_elem_of_nil in Hch).
      rewrite <-!app_assoc. apply (impl_res rec r t); [done|done|]. change ("r"%ch :: print_dec k ++ ?z) with (var_name k ++ z). unfold parseArgRes.
      erewrite bind_Ok; [|apply Ident_var; [done|]; by apply op_stops, op_stops].
      erewrite bind_Ok; [|apply parse_op_at; [done|done|by apply op_stops|]]; cycle 1.
      { unfold op_text. case_decide; [by eexists _, _|]. rewrite Erest. eexists _, _. split; [done|by apply Hne]. }
      erewrite bind_Ok; [|apply parse_op_at; [done|done|done|]]; [|rewrite Erest; eexists _, _; split; [done|by apply Hne]].
      erewrite bind_Ok; [|reflexivity]. cbn [ps_vars set_s]. rewrite (Hv r0 k Hr0 Hu Hk).
      unfold fresh_arg, mbind, parsing_bind, update_state, mret, parsing_ret. cbn. unfold parsed_result, rename_result, set_uses. cbn [res_common res_Res OpDiv OpAdd res_Val]. rewrite (Hcom _ Hn), Ey.
      unfold moved, links, add_use, set_next. cbn. rewrite He, Hn. match goal with H : res_Val x = 0 |- _ => rewrite H end. done.
  - exists (print_hex (res_Val x)). split_and!; [done|by eexists _, _; split; [done|left]|by apply ident_no_newline, print_hex_ident|].
    intros rec p rest He Hv Hn Hends. destruct (ends_stops rest Hends) as [Hs _]. apply (impl_int rec r t); [done|done|]. change ("0"%ch :: _ ++ rest) with (print_hex (res_Val x) ++ rest).
    unfold parseArgInt. erewrite bind_Ok; [|by apply Ident_hex]. rewrite ParseUint_hex by done. erewrite bind_Ok; [|reflexivity]. unfold t at 1. rewrite make_moved by done. unfold MakeResultArg. cbn.
    unfold parsed_result, rename_result, set_uses, links. cbn. rewrite (Hcom _ Hn), Ey. cbn. repeat match goal with H : OpDiv x = 0 |- _ => rewrite H; clear H | H : OpAdd x = 0 |- _ => rewrite H; clear H end. done.
Qed.
Lemma result_printed x : printed (AResult x).
Proof.
  intros r dir done ctx Hr Hfit Hctx [Href [Hfresh _]] Hseq. cbn [arg_results] in *. change (len [x]) with 1 in Hseq.
  destruct (value_printed x r dir done ctx Hr Hfit Hctx ltac:(lia) Href) as (u & Hu & (c & s & Eu & Hc) & Hnl & Hread).
  destruct (decide (uses x ≠ ∅)) as [Hne|Hemp].
  - set (k := sz_varSeq ctx) in *. set (ctx1 := mkSerializer (<[rid x := k]> (sz_vars ctx)) (k + 1)). destruct Hctx as [H0 Hold]. assert (Hk : in_u64 k) by (unfold in_u64, k; lia).
    assert (Hsame : ∀ y, res_Res x = Some y → sz_vars ctx1 !! y = sz_vars ctx !! y).
    { intros y Hy. cbn. rewrite lookup_insert_ne; [done|]. intros <-. apply Hfresh. destruct (Href _ Hy) as (r0 & Hr0 & <- & _). apply list_elem_of_fmap. eauto. }
    exists ("<"%ch :: var_name k ++ text "=>" ++ u), ctx1. split_and!.
    + cbn [TextSerialize.serialize]. unfold serialize_result. rewrite decide_True by done. cbn [allocVarID]. fold k ctx1. specialize (Hu ctx1 Hsame). unfold op_text in Hu.
      destruct (res_Res x) as [y|]; [destruct (sz_vars ctx1 !! y); [|done]|]; injection Hu as <-; cbn [app]; by rewrite <-!app_assoc.
    + constructor; cbn [sz_varSeq sz_vars ctx1]; [|change (len [x]) with 1; lia| |].
      * split; [cbn; lia|]. intros r0 [Hr0|Hr0]%elem_of_app Hu0.
        -- destruct (Hold r0 Hr0 Hu0) as (j & Hj & Hlt). exists j. cbn. rewrite lookup_insert_ne; [split; [done|lia]|]. intros Heq. apply Hfresh. rewrite Heq. apply list_elem_of_fmap. eauto.
        -- apply list_elem_of_singleton in Hr0 as ->. exists k. cbn. rewrite lookup_insert_eq. split; [done|lia].
      * intros y Hy. cbn in Hy. rewrite lookup_insert_ne; [done|]. intros <-. apply Hy. by left.
      * intros y j. rewrite lookup_insert_Some. intros [[<- <-]|[_ Hj]]; [right; unfold k; lia|by left].
    + split; [exists "<"%ch; eexists; split; [done|by do 8 right; left]|]. apply not_elem_of_cons. split; [done|]. rewrite !not_elem_of_app. split_and!; [by apply ident_no_newline, var_name_ident| |done].
      change (text "=>") with ["="%ch; ">"%ch]. rewrite !not_elem_of_cons. split_and!; [done|done|apply not_elem_of_nil].
    + change (text "=>") with ["="%ch; ">"%ch]. intros p rest n He Hv Hn Hends Hl. cbn [post_ids] in Hn. apply numbered_single in Hn. destruct n as [|n]; [cbn in Hl; lia|]. exists (<[var_name k := f (rid x)]> (ps_vars p)). split; [|apply (vars_ok_insert done ctx); [by split|done|done|unfold k in *; lia]].
      cbn [TextParse.parseArg app]. unfold parse_arg_body. erewrite bind_Ok; [|by apply Char_at]. rewrite decide_True by done.
      erewrite bind_Ok; cycle 1.
      { erewrite bind_Ok; [|by apply Parse_tight]. rewrite <-app_assoc. erewrite bind_Ok; [|by apply Ident_var]. cbn [app]. erewrite bind_Ok; [|by apply Parse_tight].
        erewrite bind_Ok; [|apply Parse_tight; [done|]; rewrite Eu; by destruct Hc as [-> | ->]]. reflexivity. }
      erewrite bind_Ok; [|by apply Hread]. erewrite bind_Ok; [|reflexivity]. rewrite decide_True by done. reflexivity.
  - exists u, ctx. split_and!.
    + cbn [TextSerialize.serialize]. unfold serialize_result. rewrite decide_False by done. specialize (Hu ctx ltac:(done)). unfold op_text in Hu.
      destruct (res_Res x) as [y|]; [destruct (sz_vars ctx !! y); [|done]|]; injection Hu as <-; done.
    + destruct Hctx as [H0 Hold]. constructor; [split; [done|]|change (len [x]) with 1; lia|done|by left]. intros r0 [Hr0|Hr0]%elem_of_app Hu0; [by apply Hold|]. by apply list_elem_of_singleton in Hr0 as ->.
    + split; [|done]. exists c, s. split; [done|]. destruct Hc as [-> | ->]; [by left|by right; left].
    + intros p rest n He Hv Hn Hends Hl. cbn [post_ids] in Hn. apply numbered_single in Hn. destruct n as [|n]; [cbn in Hl; lia|]. exists (ps_vars p). split.
      * specialize (Hread (parseArg n) p rest He Hv Hn Hends). rewrite Eu in Hread |- *. cbn [TextParse.parseArg app] in *. apply body_plain; [done|by destruct Hc as [-> | ->]|exact Hread].
      * intros r0 j [Hr0|Hr0]%elem_of_app Hu0 Hj; [by eapply Hv|]. by apply list_elem_of_singleton in Hr0 as ->.
Qed.

(** ** Addresses *)

Lemma page_keep x : in_u64 x → x mod PageSize target = 0 → Z.land x (not64 (PageSize target -u 1)) = x.
Proof. intros Hx Hm. rewrite (page_mask _ _ _ _ _ _ E), u64_id by done. lia. Qed.
Lemma page_pos : 1024 ≤ PageSize target < 2 ^ 63.
Proof. destruct (pe_page _ _ _ _ _ _ E) as (k & Hk & ->). pose proof (Z.pow_le_mono_r 2 10 k). pose proof (Z.pow_lt_mono_r 2 k 63). lia. Qed.
Definition area_fits (addr vma : Z) : Prop := vma ≠ 0 → addr mod PageSize target = 0 ∧ vma mod PageSize target = 0 ∧ vma + PageSize target ≤ 2 ^ 64 ∧ (unsafe = true ∨ addr + vma ≤ maxMem target).
Lemma round_up vma : 0 < vma → vma mod PageSize target = 0 → vma + PageSize target ≤ 2 ^ 64 → Z.land (vma +u PageSize target -u 1) (not64 (PageSize target -u 1)) = vma.
Proof.
  intros H1 H2 H3. pose proof page_pos. rewrite (page_mask _ _ _ _ _ _ E). set (q := PageSize target) in *.
  replace (vma +u q -u 1) with (vma + q - 1) by (unfold u64; rewrite Zminus_mod_idemp_l, Z.mod_small; lia). rewrite u64_id by (unfold in_u64; lia).
  replace ((vma + q - 1) mod q) with (q - 1); [lia|]. apply Z.mod_unique with (vma / q); [lia|]. pose proof (Z.div_mod vma q). lia.
Qed.
Lemma parseAddr_at addr vma rest p : ps_err p = false → in_u64 addr → in_u64 vma → area_fits addr vma → tight rest →
  parseAddr target unsafe (set_s (serializeAddr addr vma ++ rest) p) = Ok ((addr, vma), set_s rest p).
Proof.
  intros He Ha Hvma Hfit Hr. unfold serializeAddr, parseAddr. rewrite <-!app_assoc. cbn [app]. erewrite bind_Ok; [|by apply Parse_tight].
  assert (Hb : in_u64 (encodingAddrBase +u addr)) by apply u64_range. set (tail := (if decide (vma ≠ 0) then _ else _) ++ _).
  assert (Ht : stops tail) by (unfold tail; case_decide; done). erewrite bind_Ok; [|by apply Ident_hex]. rewrite ParseUint_hex by done. erewrite bind_Ok; [|reflexivity].
  assert (Ea : encodingAddrBase +u addr -u encodingAddrBase = addr).
  { unfold u64. rewrite Zminus_mod_idemp_l. replace (encodingAddrBase + addr - encodingAddrBase) with addr by lia. by apply u64_id. }
  rewrite Ea. unfold tail. clear tail Ht. unfold in_u64 in Ha, Hvma. destruct (decide (vma ≠ 0)) as [Hv|Hv]; cbn [app].
  - destruct (Hfit Hv) as (F1 & F2 & F3 & F4). erewrite bind_Ok; [|by apply Char_at]. rewrite decide_True by done.
    erewrite bind_Ok; cycle 1.
    { erewrite bind_Ok; [|by apply Parse_tight]. erewrite bind_Ok; [|by apply Ident_hex]. rewrite ParseUint_hex by done. erewrite bind_Ok; [|reflexivity].
      cbv zeta. rewrite page_keep, round_up by (done || lia). rewrite (decide_False (P := vma = 0)) by done. reflexivity. }
    assert (Hpair : (if unsafe then (addr, vma) else (Z.min addr (NumPages target *u PageSize target -u Z.min vma (NumPages target *u PageSize target)), Z.min vma (NumPages target *u PageSize target))) = (addr, vma)).
    { destruct unsafe eqn:Eu; [done|]. destruct F4 as [F4|F4]; [done|]. unfold maxMem in F4. pose proof (pe_memory _ _ _ _ _ _ E). rewrite (u64_id (NumPages target * PageSize target)) by (unfold in_u64; lia).
      rewrite (Z.min_l vma) by lia. rewrite u64_id by (unfold in_u64; lia). by rewrite Z.min_l by lia. }
    rewrite Hpair. erewrite bind_Ok; [|by apply Parse_tight]. reflexivity.
  - assert (vma = 0) as -> by lia. erewrite bind_Ok; [|by apply Char_at]. rewrite decide_False by done. erewrite bind_Ok; [|reflexivity]. cbv iota beta. erewrite bind_Ok; [|by apply Parse_tight]. reflexivity.
Qed.
Lemma addr_no_newline addr vma : in_u64 vma → 10 ∉ serializeAddr addr vma.
Proof.
  intros Hv. unfold serializeAddr. cbn [app]. apply not_elem_of_cons. split; [done|]. rewrite !not_elem_of_app. split_and!; [apply ident_no_newline, print_hex_ident, u64_range| |].
  - case_decide; [|apply not_elem_of_nil]. apply not_elem_of_cons. split; [done|]. by apply ident_no_newline, print_hex_ident.
  - apply not_elem_of_cons. split; [done|apply not_elem_of_nil].
Qed.
Lemma nil_reads n dir rest p : ps_err p = false → ends rest → parseArg (S n) None dir (set_s (text "nil" ++ rest) p) = Ok (None, set_s rest p).
Proof.
  intros He Hends. destruct (ends_stops rest Hends) as [_ Hd]. change (text "nil") with ["n"%ch; "i"%ch; "l"%ch]. cbn [app TextParse.parseArg]. unfold parse_arg_body.
  erewrite bind_Ok; [|by apply Char_at]. rewrite decide_False by done. erewrite bind_Ok; [|reflexivity]. erewrite bind_Ok; cycle 1.
  { unfold parseArgImpl. erewrite bind_Ok; [|erewrite bind_Ok; [|by apply Char_at]; reflexivity]. cbv beta iota. rewrite bool_decide_eq_false_2 by (intros Hn; by apply Hn).
    erewrite bind_Ok; [|by apply Char_at]. repeat first [rewrite decide_True by done|rewrite decide_False by (unfold dquote; lia)].
    erewrite bind_Ok; [|by apply Parse_tight]. erewrite bind_Ok; [|by apply Parse_tight]. erewrite bind_Ok; [|by apply Parse_at]. rewrite Hd. reflexivity. }
  reflexivity.
Qed.
Lemma neg_neg v : in_u64 v → u64 (- u64 (- v)) = v.
Proof.
  unfold in_u64, u64. intros Hv. destruct (decide (v = 0)) as [->|]; [done|]. assert (E1 : (- v) mod 2 ^ 64 = 2 ^ 64 - v) by (symmetry; apply Z.mod_unique with (-1); lia). rewrite E1.
  symmetry. apply Z.mod_unique with (-1); lia.
Qed.
Lemma area_printed c addr vma : printed (PointerArg c addr vma None).
Proof.
  intros r dir done ctx Hr Hfit Hctx _ _. cbn [TextRoundtrip.text_fits] in Hfit. destruct (index typeRefs r) as [t|] eqn:Et; [|done]. unfold fits_area in Hfit. bools.
  destruct (IsSpecial addr vma None) eqn:Esp; bools.
  - apply (leaf_printed _ _ _ _ _ (print_hex addr)); [done|done|done|cbn [TextSerialize.serialize]; by rewrite Esp|by apply good_hex|done|]. intros rec p rest He Hn Hends. destruct (ends_stops rest Hends) as [Hs _].
    apply (impl_int rec r t); [done|done|]. change ("0"%ch :: _ ++ rest) with (print_hex addr ++ rest). unfold parseArgInt. erewrite bind_Ok; [|by apply Ident_hex]. rewrite ParseUint_hex by done. erewrite bind_Ok; [|reflexivity].
    pose proof (pe_special _ _ _ _ _ _ E) as Hsp. pose proof (u64_range (- addr)) as Hu. unfold in_u64 in Hu. unfold IsSpecial in Esp. bools. subst vma. rewrite Z.mod_small by lia.
    assert (Hgo : ∀ d, match t with PtrType _ _ _ _ => d = DirIn | VmaType _ _ _ => d = dir | _ => False end → ref c = r → arg_dir c = d →
      (if decide (len (SpecialPointers target) = 0) then of_outcome Panic else try_arg (MakeSpecialPointerArg t dir (u64 (- addr)))) (set_s rest p) = Ok (parsed_arg (PointerArg c addr 0 None), moved rest (ps_vars p) 1 [] p)).
    { intros d Hd Hc Hdir. rewrite decide_False by lia. apply try_moved; [done|]. unfold MakeSpecialPointerArg. rewrite decide_False by lia. rewrite neg_neg by done. cbn. do 2 f_equal. symmetry.
      apply parsed_common; [done|by rewrite (self_ref r t)|]. destruct t; try done; congruence. }
    destruct t; try done; bools; eapply Hgo; done.
  - destruct t as [| | | | | | |tc lo hi| | | | |]; try done. bools. set (t := VmaType tc lo hi) in *. set (txt := "&"%ch :: serializeAddr addr vma ++ ["="%ch] ++ text "nil").
    assert (Hpage : vma = 0 ∨ vma ≠ 0 ∧ vma mod PageSize target = 0 ∧ vma + PageSize target ≤ 2 ^ 64 ∧ (unsafe = true ∨ addr + vma ≤ maxMem target)).
    { destruct (decide (vma = 0)); [by left|right]. match goal with H : _ || _ = true |- _ => apply orb_true_iff in H as [H|H] end; bools; [done|]. split_and!; try done. match goal with H : _ || _ = true |- _ => apply orb_true_iff in H as [H|H] end; bools; [by left|by right]. }
    assert (Harea : area_fits addr vma) by (intros Hv0; destruct Hpage as [|(_ & ? & ? & ?)]; done).
    exists txt, ctx. split_and!; [|by apply ctx_step_nil| |].
    + cbn [TextSerialize.serialize]. rewrite Esp, (TypeOf_at r t) by done. cbn [mbind outcome_bind]. unfold t. cbn [isAnyPtr]. done.
    + split; [exists "&"%ch; eexists; split; [done|by right; right; left]|]. unfold txt. change (text "nil") with ["n"%ch; "i"%ch; "l"%ch]. apply not_elem_of_cons. split; [done|]. rewrite !not_elem_of_app.
      split; [by apply addr_no_newline|]. cbn [app]. rewrite !not_elem_of_cons. split_and!; try done; apply not_elem_of_nil.
    + intros p rest n He Hv Hn Hends Hl. cbn [post_ids app] in Hn. apply numbered_single in Hn. exists (ps_vars p). split; [|by rewrite app_nil_r]. destruct n as [|n]; [cbn in Hl; lia|].
      unfold txt in *. cbn [TextParse.parseArg app] in *. apply body_plain; [done|done|]. apply (impl_addr _ r t); [done|done|]. unfold parseArgAddr, t, parse_pointer. rewrite <-app_assoc.
      erewrite bind_Ok; [|by apply Parse_tight]. erewrite bind_Ok; cycle 1.
      { unfold parse_pointee_addr. erewrite bind_Ok; [|by apply Char_at]. rewrite decide_False by done. erewrite bind_Ok; [|by apply parseAddr_at]. reflexivity. }
      cbn [app]. cbv iota beta. erewrite bind_Ok; [|by apply Char_at]. rewrite (decide_True (P := "="%ch = "="%ch)) by done. erewrite bind_Ok; cycle 1.
      { erewrite bind_Ok; [|by apply Parse_tight]. erewrite bind_Ok; [|unfold parse_any; erewrite bind_Ok; [|by apply HasNext_at]; rewrite bool_decide_eq_false_2 by (by intros [? ?]); reflexivity]. cbv iota beta.
        destruct n as [|n]; [cbn in Hl; lia|]. erewrite bind_Ok; [|by apply nil_reads]. reflexivity. }
      cbv iota beta. erewrite bind_Ok; [|rewrite decide_False by lia; reflexivity]. erewrite try_moved; [done|done|]. unfold MakeVmaPointerArg. rewrite decide_False by (intros Hne; apply Hne; by apply (page_multiple _ _ _ _ _ _ E)).
      cbn. do 2 f_equal. symmetry. apply parsed_common; [done|change (ref c = self (type_common t)); by rewrite (self_ref r t)|done].
Qed.

(** ** Arguments that are left out *)

Definition unused (rs : list ResultArg) : Prop := ∀ r, r ∈ rs → uses r = ∅ ∧ res_Res r = None.
Lemma all_default_each l : all_default typeRefs l = Ret true → Forall (λ a, isDefault a = Ret true) l.
Proof. induction l as [|x l IH]; [constructor|]. intros [H1 H2]%all_default_cons. constructor; auto. Qed.
Lemma unused_roots l : Forall (λ a, unused (arg_results a)) l → unused (concat (arg_results <$> l)).
Proof. intros Hl r Hr. apply (elem_of_roots_results l r) in Hr as (a & Ha & Hr). rewrite Forall_forall in Hl. by apply (Hl a Ha). Qed.
Lemma default_unused a : isDefault a = Ret true → unused (arg_results a).
Proof.
  induction a as [c v|c ad v x Hx|c d s|c l Hl|c o i t Ho|x] using Arg_nested_ind; cbn [isDefaultArg arg_results]; try (intros _ r Hr; by apply not_elem_of_nil in Hr).
  - destruct x as [x|]; [|by intros _ r Hr%not_elem_of_nil]. destruct (TypeOf _ _) as [t|]; [|done]. cbn [mbind outcome_bind]. destruct t; try done.
    + intros [= (_ & _ & ?)%special_zero_inv]. done.
    + destruct (TOptional _); [intros [= (_ & _ & ?)%special_zero_inv]; done|]. case_decide; [by apply Hx|done].
  - assert (Hall : all_default typeRefs l = Ret true → unused (concat (arg_results <$> l))).
    { intros Hd%all_default_each. apply unused_roots. rewrite Forall_forall in *. intros a Ha. apply Hl; [done|by apply Hd]. }
    destruct (TypeOf _ _) as [t|]; [|done]. cbn [mbind outcome_bind]. destruct t; try done. cbn [fixedInnerSize mbind outcome_bind]. by destruct (_ && _).
  - destruct (TypeOf _ _) as [t0|]; [|done]. cbn [mbind outcome_bind]. destruct t0; try done. destruct (defaultField Fields) as [[di dk]|]; [|done]. cbn [mbind outcome_bind]. by destruct (_ || _).
  - destruct (TypeOf _ _) as [t|]; [|done]. cbn [mbind outcome_bind]. destruct t; try done. case_decide as Hd; [|done]. intros _ r ->%list_elem_of_singleton. tauto.
Qed.
Lemma unused_links rs : unused rs → links rs = [].
Proof.
  induction rs as [|r rs IH]; intros Hu; [done|]. unfold links. cbn [omap list_omap]. destruct (Hu r) as [_ ->]; [by left|]. cbn. apply IH. intros x Hx. apply Hu. by right.
Qed.
Lemma unused_ctx done rs ctx : unused rs → ctx_ok done ctx → ctx_step done rs ctx ctx.
Proof.
  intros Hu [H0 Hc]. constructor; [split; [done|]|unfold len; lia|done|by left]. intros r [Hr|Hr]%elem_of_app Hne; [by apply Hc|]. by destruct (Hu r Hr).
Qed.
Lemma unused_vars done rs ctx v : unused rs → vars_ok done ctx v → vars_ok (done ++ rs) ctx v.
Proof. intros Hu Hv r k [Hr|Hr]%elem_of_app Hne Hk; [by eapply Hv|]. by destruct (Hu r Hr). Qed.
Lemma default_moved a r dir rest p : may_omit a → valid_ref r → text_fits r dir a = true → isDefault a = Ret true → ps_err p = false → post_numbered f (ps_next p) (post_ids a) →
  default_arg typeRefs fuel r dir (set_s rest p) = Ok (parsed_arg a, moved rest (ps_vars p) (len (post_ids a)) [] p).
Proof.
  intros Hom Hr Hfit Hd He Hn. unfold default_arg. erewrite bind_Ok; [|reflexivity]. cbn [ps_next set_s].
  rewrite (default_rebuilt a (ps_next p) r dir fuel) by (done || by apply (pe_fuel _ _ _ _ _ _ E)). erewrite bind_Ok; [|reflexivity]. cbv iota beta. erewrite bind_Ok; [|reflexivity].
  unfold mret, parsing_ret, moved, set_next. cbn. by rewrite He, app_nil_r.
Qed.

(** ** Pointers *)

Lemma good_any t : good t → ∀ rest, ¬ text "ANY" `prefix_of` t ++ rest.
Proof.
  intros [(c & s & -> & Hc) _] rest [k Hk]. injection Hk as Hk _. change (c = 65) in Hk. subst c. unfold start_char in Hc. pose proof (bool_decide_eq_true_2 _ Hc) as Hb. vm_compute in Hb. done.
Qed.
Lemma good_tight t rest : good t → tight (t ++ rest).
Proof.
  intros [(c & s & -> & Hc) _]. cbn. revert c Hc. apply Forall_forall. repeat constructor.
Qed.
Lemma any_at r t c e d tx rest p : pointee_info r t c e d → index typeRefs r = Ret t → ps_err p = false → good tx → ∃ t' tc e0 d0 sq, index typeRefs (ref c) = Ret t' ∧ t = PtrType tc e0 d0 sq ∧
  parse_any PtrSize typeRefs any t (Some (e0, d0)) sq (set_s ((if isAnyPtr any t' then text "ANY=" else []) ++ tx ++ rest) p) = Ok ((t', Some (e, d)), set_s (tx ++ rest) p).
Proof.
  intros [Hc He (tc & e0 & d0 & sq & t' & tc' & sq' & Et & Et1 & Et' & Hcase)] Eti Hp Hg. exists t', tc, e0, d0, sq. split_and!; [done|done|]. unfold parse_any.
  destruct (isAnyPtr any t') eqn:Ea.
  - change (text "ANY=") with ["A"%ch; "N"%ch; "Y"%ch; "="%ch]. cbn [app]. erewrite bind_Ok; [|by apply HasNext_at]. rewrite bool_decide_eq_true_2 by (by eexists). cbv iota.
    do 3 (erewrite bind_Ok; [|by apply Parse_tight]). erewrite bind_Ok; [|apply Parse_tight; [done|by apply good_tight]]. cbn [andb] in Hcase. destruct Hcase as [(-> & Hg' & Hvl)|[-> Hr]].
    + erewrite bind_Ok; [|unfold TSize, Varlen; rewrite Et; cbn [type_common]; rewrite Hvl; reflexivity]. rewrite Hg'. erewrite bind_Ok; [|reflexivity]. unfold type_at. rewrite Et'. erewrite bind_Ok; [|reflexivity]. by rewrite Et1.
    + rewrite Hr, Eti in Et'. injection Et' as <-. rewrite Et in Et1. injection Et1 as <- <- <- <-. reflexivity.
  - cbn [app]. erewrite bind_Ok; [|by apply HasNext_at]. rewrite bool_decide_eq_false_2 by by apply good_any. cbv iota. destruct Hcase as [(? & _)|[_ Hr]]; [done|].
    rewrite Hr, Eti in Et'. injection Et' as <-. rewrite Et in Et1. injection Et1 as -> -> -> ->. reflexivity.
Qed.
Lemma pointer_printed c addr vma x : printed x → printed (PointerArg c addr vma (Some x)).
Proof.
  intros IH r dir done ctx Hr Hfit Hctx Hsc Hseq. cbn [TextRoundtrip.text_fits] in Hfit. destruct (index typeRefs r) as [t|] eqn:Et; [|done]. bools. cbn [arg_results] in *.
  destruct (pointee _ _ _ _ _ _) as [[e d]|] eqn:Ep; [|done]. pose proof (pointee_spec r t c e d Hr Et Ep) as Hinfo. subst vma.
  assert (Esp : IsSpecial addr 0 (Some x) = false) by (unfold IsSpecial; by rewrite andb_false_r). set (hd := "&"%ch :: serializeAddr addr 0).
  assert (Haddr : ∀ p rest, ps_err p = false → tight rest → parse_pointee_addr target unsafe false (set_s (serializeAddr addr 0 ++ rest) p) = Ok ((false, addr, 0), set_s rest p)).
  { intros p rest He Ht. unfold parse_pointee_addr. erewrite bind_Ok; [|by apply Char_at]. rewrite decide_False by done. erewrite bind_Ok; [|by apply parseAddr_at]. reflexivity. }
  assert (Hhd : 10 ∉ hd) by (apply not_elem_of_cons; split; [done|by apply addr_no_newline]).
  assert (Hmake : ∀ t', index typeRefs (ref c) = Ret t' → ∀ n, f (arg_id c) = n → MakePointerArg t' addr (parsed_arg x) n = parsed_arg (PointerArg c addr 0 (Some x))).
  { intros t' Et' n Hn. unfold MakePointerArg. cbn. f_equal. symmetry. apply parsed_common; [done|by rewrite (self_ref (ref c) t' (pi_ref _ _ _ _ _ Hinfo) Et')|done]. }
  destruct Hinfo as [Hc He (tc & e0 & d0 & sq & t' & tc' & sq' & Ett & Et1 & Et' & Hcase)]. 
  assert (Hser : serialize (PointerArg c addr 0 (Some x)) ctx =
    (short ← (if verbose then Ret false else d ← isDefault x; Ret (d && negb (isAnyPtr any t')));
     if (short : bool) then Ret (hd, ctx) else '(t1, ctx) ← serialize x ctx; Ret (hd ++ ["="%ch] ++ (if isAnyPtr any t' then text "ANY=" else []) ++ t1, ctx))).
  { cbn [TextSerialize.serialize]. rewrite Esp, (TypeOf_at (ref c) t') by done. done. }
  destruct (default_total x e d He) as [b Hb]; [done|]. 
  destruct (if verbose then false else b && negb (isAnyPtr any t')) eqn:Eshort.
  - assert (Ev : verbose = false) by (by destruct verbose). rewrite Ev in Eshort. bools. subst b. destruct Hcase as [(Hany & _)|[_ Hcr]]; [bools; congruence|]. rewrite Hcr, Et in Et'. injection Et' as <-. rewrite Ett in Et1. injection Et1 as -> -> -> ->.
    pose proof (default_unused x Hb) as Hun. exists hd, ctx. split_and!.
    + rewrite Hser, Ev, Hb. cbn [mbind outcome_bind]. cbn [andb]. match goal with H : isAnyPtr any t = false |- _ => rewrite H end. done.
    + by apply unused_ctx.
    + split; [|done]. exists "&"%ch. eexists. split; [done|by right; right; left].
    + intros p rest n Hp Hv Hn Hends Hl. cbn [post_ids] in Hn |- *. apply post_numbered_app in Hn as [Hn Hn2]. apply numbered_single in Hn2. exists (ps_vars p). split; [|by apply unused_vars]. destruct n as [|n]; [cbn in Hl; lia|].
      cbn [TextParse.parseArg]. cbn [app hd]. apply body_plain; [done|done|]. apply (impl_addr _ r t); [done|done|]. unfold parseArgAddr. rewrite Ett. unfold parse_pointer.
      erewrite bind_Ok; [|by apply Parse_tight]. erewrite bind_Ok; [|apply Haddr; [done|by apply stops_tight, ends_stops]]. cbv iota beta. destruct (ends_char rest p Hp Hends) as (ch & Hch & _ & _ & Hne).
      erewrite bind_Ok; [|exact Hch]. rewrite (decide_False (P := ch = _)) by done. erewrite bind_Ok; [|reflexivity]. cbv iota beta. erewrite bind_Ok; [|apply default_moved; [by left|done..]].
      erewrite bind_Ok; [|rewrite <-(set_s_eta (moved _ _ _ _ _)); by apply make_moved]. cbn [ps_s ps_vars ps_next moved]. rewrite moved_moved. cbn [app]. rewrite <-Ett, (Hmake t) by (congruence || done). rewrite unused_links, len_app by done. done.
  - destruct (IH e d done ctx He) as (tx & ctx' & Hsx & Hstep & Hg & Hreads); [done..|]. exists (hd ++ ["="%ch] ++ (if isAnyPtr any t' then text "ANY=" else []) ++ tx), ctx'. split_and!.
    + rewrite Hser. destruct verbose; [|rewrite Hb]; cbn [mbind outcome_bind]; [|rewrite Eshort]; by rewrite Hsx.
    + done.
    + split; [exists "&"%ch; eexists; split; [done|by right; right; left]|]. rewrite !not_elem_of_app. split_and!; [done| | |apply Hg]; [by apply not_elem_of_cons; split; [|apply not_elem_of_nil]|].
      destruct (isAnyPtr any t'); [|apply not_elem_of_nil]. change (text "ANY=") with ["A"%ch; "N"%ch; "Y"%ch; "="%ch]. rewrite !not_elem_of_cons. split_and!; try done. apply not_elem_of_nil.
    + intros p rest n Hp Hv Hn Hends Hl. cbn [post_ids] in Hn |- *. apply post_numbered_app in Hn as [Hn Hn2]. apply numbered_single in Hn2. destruct n as [|n]; [cbn in Hl; lia|].
      destruct (Hreads p rest n Hp Hv Hn Hends) as (v & Hread & Hv'); [unfold hd in Hl; rewrite !length_app in *; cbn [length] in Hl; lia|]. exists v. split; [|done].
      cbn [TextParse.parseArg]. cbn [app hd]. apply body_plain; [done|done|]. apply (impl_addr _ r t); [done|done|]. unfold parseArgAddr. rewrite Ett. unfold parse_pointer. rewrite <-!app_assoc.
      erewrite bind_Ok; [|by apply Parse_tight]. erewrite bind_Ok; [|by apply Haddr]. cbv iota beta. cbn [app]. erewrite bind_Ok; [|by apply Char_at]. rewrite (decide_True (P := "="%ch = "="%ch)) by done.
      destruct (any_at r t c e d tx rest p) as (t1 & tc1 & e1 & d1 & sq1 & Ei & Ett1 & Hany); [constructor; [done|done|]; by exists tc, e0, d0, sq, t', tc', sq'|done|done|done|].
      rewrite Et' in Ei. injection Ei as <-. rewrite Ett in Ett1. injection Ett1 as <- <- <- <-.
      erewrite bind_Ok; cycle 1.
      { erewrite bind_Ok; [|apply Parse_tight; [done|]]; cycle 1.
        { destruct (isAnyPtr any t'); [done|]. cbn [app]. by apply good_tight. }
        rewrite <-?app_assoc. rewrite <-Ett. erewrite bind_Ok; [|exact Hany]. cbv iota beta. cbn [fmap option_fmap option_map fst]. erewrite bind_Ok; [|exact Hread]. reflexivity. }
      cbv iota beta. erewrite bind_Ok; [|reflexivity]. erewrite bind_Ok; [|rewrite <-(set_s_eta (moved _ _ _ _ _)); by apply make_moved]. cbn [ps_s ps_vars ps_next moved]. rewrite moved_moved.
      rewrite (Hmake t') by (congruence || done). rewrite app_nil_r, len_app. done.
Qed.

(** ** Data *)

(** Package encoding/base64: encoded data is text of its alphabet and can be decoded. *)
Record image_ok : Prop := {
  io_decode : ∀ d, DecodeB64 (EncodeB64 d) = Some d;
  io_text : ∀ d c, c ∈ EncodeB64 d → c ≠ dquote ∧ c ≠ 10
}.
Context (Himage : image_ok).
Lemma strip_zeros_spec l : ∃ n, l = replicate n 0 ++ strip_zeros l.
Proof.
  induction l as [|a l IH]; [by exists 0%nat|]. destruct l as [|b l]; [by exists 0%nat|]. cbn [strip_zeros]. case_decide as Hz; [|by exists 0%nat]. destruct Hz as [-> ->], IH as [n IH]. exists (S n). cbn [replicate app]. by f_equal.
Qed.
Lemma stripped_spec data : ∃ n, data = reverse (strip_zeros (reverse data)) ++ replicate n 0.
Proof. destruct (strip_zeros_spec (reverse data)) as [n Hn]. exists n. rewrite <-(reverse_involutive data) at 1. rewrite Hn at 1. by rewrite reverse_app, reverse_replicate. Qed.
Lemma fit_padded shown n : len (shown ++ replicate n 0) < 2 ^ 63 → fit_data shown (len (shown ++ replicate n 0)) = Ret (shown ++ replicate n 0).
Proof.
  intros Hl. unfold fit_data. rewrite i64_id by (unfold in_i64, len in *; lia). replace (Z.to_nat (len (shown ++ replicate n 0) - len shown)) with n by (unfold len; rewrite length_app, length_replicate; lia).
  rewrite decide_True by lia. unfold len. rewrite Nat2Z.id, firstn_all. done.
Qed.
Lemma bytesb_spec l : bytesb l = true → Forall is_byte l.
Proof. intros H. unfold bytesb in H. rewrite forallb_forall in H. apply Forall_forall. intros b Hb%list_elem_of_In%H. by apply bool_decide_eq_true in Hb. Qed.
Lemma encode_no_newline d t : Forall is_byte d → encodeData d true false = Ret t → 10 ∉ t.
Proof.
  assert (Hb : ∀ v, 0 ≤ v < 256 → match encode_byte true false v with Ret t => bool_decide (10 ∉ t) | Panic => false end = true) by (apply (below_dec _ 256); vm_compute; done).
  intros Hd. revert t. induction Hd as [|v d Hv Hd IH]; cbn [encodeData]; intros t; [intros [= <-]; apply not_elem_of_nil|]. specialize (Hb v Hv). destruct (encode_byte true false v) as [t1|]; [|done]. apply bool_decide_eq_true in Hb.
  cbn [mbind outcome_bind]. destruct (encodeData d true false) as [t2|]; [|done]. cbn [mbind outcome_bind]. intros [= <-]. apply not_elem_of_app. split; [done|by apply IH].
Qed.
Lemma serializeData_good d readable t : Forall is_byte d → serializeData d readable = Ret t → (∃ c s, t = c :: s ∧ (c = dquote ∨ c = 39)) ∧ (10 ∉ t).
Proof.
  intros Hd. unfold serializeData. destruct (_ && _).
  - intros [= <-]. split; [eexists _, _; split; [done|by left]|]. cbn [app]. rewrite !not_elem_of_cons, not_elem_of_app. split_and!; [done|by apply ident_no_newline, hex_roundtrip|]. apply not_elem_of_cons. split; [done|apply not_elem_of_nil].
  - destruct (encodeData d true false) as [u|] eqn:Eu; [|done]. cbn [mbind outcome_bind]. intros [= <-]. split; [eexists _, _; split; [done|by right]|]. cbn [app]. rewrite not_elem_of_cons, not_elem_of_app.
    split_and!; [done|by eapply encode_no_newline|]. apply not_elem_of_cons. split; [done|apply not_elem_of_nil].
Qed.
Lemma check_string_at kind Values data p : string_ok kind Values data = true → check_string strict kind Values data p = Ok (data, p).
Proof.
  unfold string_ok, check_string. destruct kind, Values; try done; intros H; apply orb_true_iff in H as [H|H]; bools.
  all: first [by rewrite decide_True by done|case_decide; [done|]; by rewrite decide_True by done].
Qed.
(** What [parseArgString] does once the literal has been read. *)
Definition string_tail (t : Typ) (kind : BufferKind) (Values : list string) (dir : Dir) (data : list Z) (b64 : bool) : parsing parser Arg :=
  c ← Char;
  size ←
    (if bool_decide (c = "/"%ch) && negb b64 then
       Parse "/"%ch;;
       sizeStr ← Ident;
       size ← of_error (ParseUint sizeStr);
       let maxMem := NumPages target *u PageSize target in
       if decide (maxMem < size) then strictFailf strict;; mret maxMem else mret size
     else mret noSize);
  size ← (if negb (Varlen t) then of_outcome (TSize t) else mret (if decide (size = noSize) then len data else size));
  if decide (dir = DirOut) then try_arg (MakeOutDataArg t dir size)
  else
    data ← of_outcome (fit_data data size);
    data ← check_string strict kind Values data;
    try_arg (MakeDataArg t dir data).
Lemma string_at r c kind lo hi sub Values nz dir s p data b64 p' : let t := BufferType c kind lo hi sub Values nz in
  deserializeData DecodeB64 (set_s s p) = Ok ((data, b64), p') → negb (is_compressed kind) || DecompressCheck data = true →
  parseArgString target typeRefs DecodeB64 DecompressCheck Compress fuel strict r t dir (set_s s p) = string_tail t kind Values dir data b64 p'.
Proof.
  intros t Hd Hk. unfold parseArgString, t. erewrite bind_Ok; [|exact Hd]. cbv iota beta. erewrite bind_Ok; [reflexivity|]. destruct kind; try done. cbn in Hk |- *. by rewrite Hk.
Qed.
Lemma max_mem : NumPages target *u PageSize target = maxMem target ∧ 0 ≤ maxMem target < 2 ^ 63.
Proof. pose proof (pe_memory _ _ _ _ _ _ E). unfold maxMem. split; [|done]. apply u64_id. unfold in_u64. lia. Qed.
(** The size after the literal, where there is one. *)
Lemma string_size t kind Values dir data sz rest p : ps_err p = false → 0 ≤ sz ≤ maxMem target → ends rest →
  string_tail t kind Values dir data false (set_s ("/"%ch :: print_dec sz ++ rest) p) =
  (size ← (if negb (Varlen t) then of_outcome (TSize t) else mret sz);
   if decide (dir = DirOut) then try_arg (MakeOutDataArg t dir size)
   else data ← of_outcome (fit_data data size); data ← check_string strict kind Values data; try_arg (MakeDataArg t dir data)) (set_s rest p).
Proof.
  intros He Hsz Hends. destruct (ends_stops rest Hends) as [Hs _]. destruct max_mem as [Hm Hm2]. assert (H64 : in_u64 sz) by (unfold in_u64; lia). unfold string_tail. erewrite bind_Ok; [|by apply Char_at].
  rewrite bool_decide_eq_true_2 by done. cbn [negb andb]. erewrite bind_Ok; cycle 1.
  { erewrite bind_Ok; [|apply Parse_tight; [done|by apply dec_tight]]. erewrite bind_Ok; [|by apply Ident_dec]. rewrite ParseUint_dec by done. erewrite bind_Ok; [|reflexivity]. cbv zeta. rewrite Hm. rewrite decide_False by lia. reflexivity. }
  by rewrite (decide_False (P := sz = noSize)) by (unfold noSize; lia).
Qed.
Lemma string_nosize t kind Values dir data b64 rest p : ps_err p = false → ends rest →
  string_tail t kind Values dir data b64 (set_s rest p) =
  (size ← (if negb (Varlen t) then of_outcome (TSize t) else mret (len data));
   if decide (dir = DirOut) then try_arg (MakeOutDataArg t dir size)
   else data ← of_outcome (fit_data data size); data ← check_string strict kind Values data; try_arg (MakeDataArg t dir data)) (set_s rest p).
Proof.
  intros He Hends. destruct (ends_char rest p He Hends) as (c & Hc & Hne & _). unfold string_tail. erewrite bind_Ok; [|exact Hc]. rewrite bool_decide_eq_false_2 by done. cbn [andb]. erewrite bind_Ok; [|reflexivity].
  by rewrite (decide_True (P := noSize = noSize)) by done.
Qed.
Lemma data_finish c t dir data rest p : ps_err p = false → f (arg_id c) = ps_next p → ref c = self (type_common t) → arg_dir c = dir → dir ≠ DirOut →
  try_arg (MakeDataArg t dir data) (set_s rest p) = Ok (parsed_arg (DataArg c data 0), moved rest (ps_vars p) 1 [] p).
Proof.
  intros He Hn Hr Hd Hdir. apply try_moved; [done|]. unfold MakeDataArg. rewrite decide_False by done. cbn. do 2 f_equal. symmetry. by apply parsed_common.
Qed.
(** The literal of input data, with the size after it where the reader needs it. *)
Lemma literal_reads r tc kind lo hi sub Values nz dir c data : let t := BufferType tc kind lo hi sub Values nz in
  valid_ref r → index typeRefs r = Ret t → fits_data target DecompressCheck r t dir c data 0 = true → dir ≠ DirOut →
  ∃ txt, serialize_data EncodeB64 false t dir data 0 = Ret txt ∧ (∃ ch s, txt = ch :: s ∧ (ch = dquote ∨ ch = 39)) ∧ (10 ∉ txt) ∧
  ∀ p rest, ps_err p = false → f (arg_id c) = ps_next p → ends rest →
    parseArgString target typeRefs DecodeB64 DecompressCheck Compress fuel strict r t dir (set_s (txt ++ rest) p) = Ok (parsed_arg (DataArg c data 0), moved rest (ps_vars p) 1 [] p).
Proof.
  intros t Hr Et Hfit Hdir. unfold fits_data, t in Hfit. bools. rewrite decide_False in * by done. bools. pose proof (self_ref r t Hr Et) as Hself. pose proof (bytesb_spec data ltac:(done)) as Hbytes.
  assert (Hlen : len data < 2 ^ 63).
  { pose proof (pe_type _ _ _ _ _ _ E r _ (proj1 Hr) Et) as Ht. destruct max_mem as [_ Hm]. cbn in Ht. destruct (IsVarlen tc) eqn:Ev; bools; [lia|]. destruct Ht as [Ht|Ht]; [congruence|lia]. }
  assert (Hfin : ∀ shown n sz rest p, data = shown ++ replicate n 0 → (sz = len data) → ps_err p = false → f (arg_id c) = ps_next p →
    (size ← (if negb (Varlen t) then of_outcome (TSize t) else mret sz);
     if decide (dir = DirOut) then try_arg (MakeOutDataArg t dir size)
     else data ← of_outcome (fit_data shown size); data ← check_string strict kind Values data; try_arg (MakeDataArg t dir data)) (set_s rest p) = Ok (parsed_arg (DataArg c data 0), moved rest (ps_vars p) 1 [] p)).
  { intros shown n sz rest p Hs -> He Hn. erewrite bind_Ok; cycle 1.
    { instantiate (2 := len data). unfold TSize, Varlen, t. cbn [type_common]. destruct (IsVarlen tc) eqn:Ev; cbn [negb]; [reflexivity|]. bools. unfold of_outcome. match goal with H : len data = TypeSize tc |- _ => rewrite H end. reflexivity. }
    rewrite decide_False by done. rewrite Hs at 1. rewrite fit_padded by (rewrite <-Hs; done). rewrite <-Hs. erewrite bind_Ok; [|reflexivity]. erewrite bind_Ok; [|by apply check_string_at].
    apply data_finish; [done|done|by rewrite Hself|done|done]. }
  unfold serialize_data, t. rewrite decide_False by done. destruct (is_compressed kind) eqn:Ek.
  - assert (kind = BufferCompressed) as -> by by destruct kind. eexists. split; [done|]. unfold serializeCompressedData. split; [by eexists _, _; split; [|left]|]. split.
    { cbn [app]. rewrite !not_elem_of_cons, not_elem_of_app. split_and!; [done|done|intros [_ Hx]%(io_text Himage); by apply Hx|]. apply not_elem_of_cons. split; [done|apply not_elem_of_nil]. }
    intros p rest He Hn Hends. destruct (ends_stops rest Hends) as [_ Hd]. erewrite string_at; [|apply deserializeData_b64; [done|apply (io_decode Himage)|intros [Hx _]%(io_text Himage); by apply Hx]|done]. rewrite Hd.
    rewrite string_nosize by done. apply (Hfin data 0%nat); [by rewrite app_nil_r|done|done|done].
  - assert (Ek' : match kind with BufferCompressed => true | _ => false end = false) by by destruct kind. rewrite Ek'. cbv zeta. destruct (stripped_spec data) as [n Hn0]. set (st := reverse (strip_zeros (reverse data))) in *.
    assert (Hshown : ∃ shown m sfx, (if Varlen t && bool_decide (len data ≤ len st + 8) then data else st) = shown ∧ data = shown ++ replicate m 0 ∧
      (if Varlen t && bool_decide (len data ≠ len shown) then "/"%ch :: print_dec (len data) else []) = sfx ∧
      (sfx = [] ∧ (Varlen t = true → len shown = len data) ∨ sfx = "/"%ch :: print_dec (len data) ∧ len data ≤ maxMem target)).
    { destruct (Varlen t) eqn:Ev; cbn [andb].
      - destruct (bool_decide (len data ≤ len st + 8)) eqn:Hc; [apply bool_decide_eq_true in Hc|apply bool_decide_eq_false in Hc]; [exists data, 0%nat, []; split_and!; [done|by rewrite app_nil_r| |by left]; rewrite bool_decide_eq_false_2; [done|tauto]|].
        exists st, n. eexists. split_and!; [done|done|reflexivity|]. rewrite bool_decide_eq_true_2 by lia. right. split; [done|]. unfold Varlen, t in Ev. cbn [type_common] in Ev. rewrite Ev in *. by bools.
      - exists st, n, []. split_and!; [done|done|done|]. by left. }
    destruct Hshown as (shown & m & sfx & E1 & E2 & E3 & Hcase). fold t. rewrite E1. assert (Hb : Forall is_byte shown) by (rewrite E2 in Hbytes; by apply Forall_app in Hbytes as [? _]).
    assert (Hser : ∃ u, serializeData shown (isReadableDataType kind) = Ret u) by (destruct (deserializeData_spec DecodeB64 shown (isReadableDataType kind) [] (newParser 0) eq_refl Hb) as (u & Hu & _); eauto).
    destruct Hser as [u Hu]. rewrite Hu. cbn [mbind outcome_bind]. rewrite E3. destruct (serializeData_good shown _ u Hb Hu) as [(ch & s & -> & Hch) Hnl]. eexists. split; [done|]. split; [by eexists _, _|]. split.
    { apply not_elem_of_app. split; [done|]. destruct Hcase as [[-> _]|[-> _]]; [apply not_elem_of_nil|]. apply not_elem_of_cons. split; [done|]. apply ident_no_newline, print_dec_ident. unfold len. lia. }
    intros p rest He Hn Hends. destruct (ends_stops rest Hends) as [_ Hd]. rewrite <-app_assoc.
    destruct (deserializeData_spec DecodeB64 shown (isReadableDataType kind) (sfx ++ rest) p He Hb) as (u' & Hu' & Hds). rewrite Hu in Hu'. injection Hu' as <-. unfold t at 1. erewrite string_at; [|exact Hds|by rewrite Ek]. fold t.
    destruct Hcase as [[-> Hvl]|[-> Hmax]]; cbn [app].
    + rewrite Hd, string_nosize by done. destruct (Varlen t) eqn:Ev.
      * rewrite (Hvl eq_refl). specialize (Hfin shown m (len data) rest p E2 eq_refl He Hn). rewrite ?Ev in Hfin. exact Hfin.
      * specialize (Hfin shown m (len data) rest p E2 eq_refl He Hn). rewrite ?Ev in Hfin. exact Hfin.
    + change (drop_while is_blank ("/"%ch :: print_dec (len data) ++ rest)) with ("/"%ch :: print_dec (len data) ++ rest). rewrite string_size; [by apply (Hfin shown m)|done|split; [unfold len; lia|done]|done].
Qed.
Lemma data_printed c data size : printed (DataArg c data size).
Proof.
  intros r dir done ctx Hr Hfit Hctx _ _. cbn [TextRoundtrip.text_fits] in Hfit. destruct (index typeRefs r) as [t|] eqn:Et; [|done]. pose proof Hfit as Hfit0. unfold fits_data in Hfit. bools.
  destruct t as [| | | | | | | |tc kind lo hi sub Values nz| | | |]; try done. bools. set (t := BufferType tc kind lo hi sub Values nz) in *.
  assert (Hser : ∀ txt, serialize_data EncodeB64 false t dir data size = Ret txt → serialize (DataArg c data size) ctx = Ret (txt, ctx)).
  { intros txt Htxt. cbn [TextSerialize.serialize]. rewrite (TypeOf_at r t) by done. cbn [mbind outcome_bind]. match goal with H : arg_dir c = dir |- _ => rewrite H end. rewrite Htxt. done. }
  assert (Hstart : ∀ ch, ch = dquote ∨ ch = 39 → start_char ch ∧ ch ≠ "<"%ch) by (intros ch [-> | ->]; split; [by right; right; right; left|done|by right; right; right; right; left|done]).
  destruct (decide (dir = DirOut)) as [Hout|Hin]; bools.
  - subst data. destruct max_mem as [Hm Hm2]. assert (Hs64 : in_u64 size) by (unfold in_u64; lia). apply (leaf_printed _ _ _ _ _ ([dquote; dquote; "/"%ch] ++ print_dec size)); [done|done|done| | |done|].
    + apply Hser. unfold serialize_data, t. rewrite decide_True by done. by rewrite (decide_True (P := @nil Z = [])).
    + split; [exists dquote; eexists; split; [done|by apply Hstart; left]|]. cbn [app]. rewrite !not_elem_of_cons. split_and!; try done. apply ident_no_newline, print_dec_ident, Hs64.
    + intros rec p rest He Hn Hends. apply (impl_string rec r t); [done|done|by left|]. cbn [app]. unfold t. erewrite string_at; [|by apply (deserializeData_hex DecodeB64 [] ("/"%ch :: print_dec size ++ rest))|done]. fold t.
      change (drop_while is_blank ("/"%ch :: print_dec size ++ rest)) with ("/"%ch :: print_dec size ++ rest). rewrite string_size by (done || lia). erewrite bind_Ok; cycle 1.
      { instantiate (2 := size). unfold TSize, Varlen, t. cbn [type_common]. destruct (IsVarlen tc); cbn [negb]; [reflexivity|]. cbn [orb] in *. bools. subst size. reflexivity. }
      rewrite decide_True by done. apply try_moved; [done|]. unfold MakeOutDataArg. rewrite decide_False by auto. cbn. do 2 f_equal. symmetry. apply parsed_common; [done|by rewrite (self_ref r t)|done].
  - subst size. destruct (literal_reads r tc kind lo hi sub Values nz dir c data Hr Et Hfit0 Hin) as (txt & Htxt & (ch & s & -> & Hch) & Hnl & Hread). destruct (Hstart ch Hch) as [Hst Hlt].
    apply (leaf_printed _ _ _ _ _ (ch :: s)); [done|done|done|by apply Hser|split; [by exists ch, s|done]|cbn; congruence|].
    intros rec p rest He Hn Hends. apply (impl_string rec r t); [done|done|done|]. by apply Hread.
Qed.

(** ** Unions *)

Context (Hmode : verbose = true ∨ strict = false).
Lemma ident_tight name rest : name ≠ [] → forallb is_ident name = true → tight (name ++ rest).
Proof.
  destruct name as [|ch name]; [done|]. intros _ Hid. cbn in *. bools. unfold is_ident, is_blank in *. destruct (decide (ch = " "%ch)) as [->|]; [done|]. destruct (decide (ch = 9)) as [->|]; [done|].
  by rewrite !bool_decide_eq_false_2.
Qed.
Lemma union_printed c o idx tr : printed o → printed (UnionArg c o idx tr).
Proof.
  intros IH r dir done ctx Hr Hfit Hctx Hsc Hseq. cbn [TextRoundtrip.text_fits] in Hfit. destruct (index typeRefs r) as [t|] eqn:Et; [|done]. bools. cbn [arg_results] in *.
  destruct t as [| | | | | | | | | | | |tc fields]; try done. set (t := UnionType tc fields) in *. destruct (index fields idx) as [g|] eqn:Eg; [|done]. destruct (isConditional fields) as [cond|] eqn:Econd; [|done]. bools. subst tr.
  destruct (find_option _ 0 fields) as [[i g']|] eqn:Efind; [|done]. bools. subst i. pose proof (find_option_at _ _ _ _ _ Efind Eg) as ->.
  assert (Hv : valid_ref (FieldType g)) by (pose proof (pe_type _ _ _ _ _ _ E r _ (proj1 Hr) Et) as Ht; eapply Ht, find_option_elem, Efind).
  set (name := bytes_of (FieldName g)) in *. unfold identb in *. bools. set (hd := "@"%ch :: name).
  assert (Hser : serialize (UnionArg c o idx false) ctx =
    (d ← (if verbose then Ret false else isDefault o); if (d : bool) then Ret (hd, ctx) else '(t1, ctx) ← serialize o ctx; Ret (hd ++ ["="%ch] ++ t1, ctx))).
  { cbn [TextSerialize.serialize]. rewrite (TypeOf_at r t) by done. cbn [mbind outcome_bind]. unfold t. rewrite Eg. done. }
  assert (Hmake : ∀ n, f (arg_id c) = n → MakeUnionArg t dir (parsed_arg o) idx false n = parsed_arg (UnionArg c o idx false)).
  { intros n Hn. unfold MakeUnionArg. cbn. f_equal. symmetry. apply parsed_common; [done|by rewrite (self_ref r t)|done]. }
  assert (Hhd : 10 ∉ hd) by (apply not_elem_of_cons; split; [done|by apply ident_no_newline]).
  destruct (default_total o (FieldType g) (FieldDir g dir) Hv) as [b Hb]; [done|]. destruct (if verbose then false else b) eqn:Eshort.
  - assert (Ev : verbose = false) by (by destruct verbose). rewrite Ev in Eshort. subst b. pose proof (default_unused o Hb) as Hun. exists hd, ctx. split_and!.
    + rewrite Hser, Ev, Hb. done.
    + by apply unused_ctx.
    + split; [|done]. exists "@"%ch. eexists. split; [done|by do 7 right; left].
    + intros p rest n Hp Hv' Hn Hends Hl. cbn [post_ids] in Hn |- *. apply post_numbered_app in Hn as [Hn Hn2]. apply numbered_single in Hn2. exists (ps_vars p). split; [|by apply unused_vars]. destruct n as [|n]; [cbn in Hl; lia|].
      cbn [TextParse.parseArg]. cbn [app hd]. apply body_plain; [done|done|]. apply (impl_union _ r t); [done|done|]. unfold parseArgUnion, t. destruct (ends_stops rest Hends) as [Hs Hd].
      assert (Htight : tight (name ++ rest)) by by apply ident_tight.
      erewrite bind_Ok; [|by apply Parse_tight]. erewrite bind_Ok; [|by apply Ident_at]. rewrite Efind. destruct (ends_char rest p Hp Hends) as (ch & Hch & _ & _ & Hne).
      erewrite bind_Ok; [|exact Hch]. rewrite (decide_False (P := ch = _)) by done. erewrite bind_Ok; [|apply default_moved; [by left|done..]].
      rewrite <-(set_s_eta (moved _ _ _ _ _)), make_moved by done. cbn [ps_s ps_vars ps_next moved]. rewrite moved_moved. fold t. rewrite Hmake by done. cbn [app]. rewrite unused_links, len_app by done. done.
  - destruct (IH (FieldType g) (FieldDir g dir) done ctx Hv) as (tx & ctx' & Hsx & Hstep & Hg & Hreads); [done..|]. exists (hd ++ ["="%ch] ++ tx), ctx'. split_and!.
    + rewrite Hser. destruct verbose; [|rewrite Hb]; cbn [mbind outcome_bind]; [|rewrite Eshort]; by rewrite Hsx.
    + done.
    + split; [exists "@"%ch; eexists; split; [done|by do 7 right; left]|]. rewrite !not_elem_of_app. split_and!; [done| |apply Hg]. by apply not_elem_of_cons; split; [|apply not_elem_of_nil].
    + intros p rest n Hp Hv' Hn Hends Hl. cbn [post_ids] in Hn |- *. apply post_numbered_app in Hn as [Hn Hn2]. apply numbered_single in Hn2. destruct n as [|n]; [cbn in Hl; lia|].
      destruct (Hreads p rest n Hp Hv' Hn Hends) as (v & Hread & Hvv); [unfold hd in Hl; rewrite !length_app in *; cbn [length] in Hl; lia|]. exists v. split; [|done].
      cbn [TextParse.parseArg]. cbn [app hd]. apply body_plain; [done|done|]. apply (impl_union _ r t); [done|done|]. unfold parseArgUnion, t. rewrite <-!app_assoc. cbn [app].
      assert (Htight : tight (name ++ "="%ch :: tx ++ rest)) by by apply ident_tight.
      erewrite bind_Ok; [|by apply Parse_tight]. erewrite bind_Ok; [|by apply Ident_at]. rewrite Efind. erewrite bind_Ok; [|by apply Char_at]. rewrite (decide_True (P := "="%ch = "="%ch)) by done.
      erewrite bind_Ok; cycle 1.
      { erewrite bind_Ok; [|apply Parse_tight; [done|by apply good_tight]]. unfold rec_arg. erewrite bind_Ok; [|exact Hread]. reflexivity. }
      rewrite <-(set_s_eta (moved _ _ _ _ _)), make_moved by done. cbn [ps_s ps_vars ps_next moved]. rewrite moved_moved. fold t. rewrite Hmake by done. rewrite app_nil_r, len_app. done.
Qed.

(** ** Structures and arrays *)

(** What may be missing from the text: defaults, and only paddings in verbose mode. *)
Definition omitted (l : list Arg) : Prop := Forall (λ a, isDefault a = Ret true ∧ (verbose = true → is_pad typeRefs a = Ret true)) l.
Definition sep (u : list Z) : list Z := match u with [] => [] | _ => text ", " ++ u end.
Lemma omitted_unused l : omitted l → unused (roots_results l).
Proof. intros Hl. apply unused_roots. eapply Forall_impl; [exact Hl|]. intros a [Ha _]. by apply default_unused. Qed.
Lemma fits_TypeOf r dir a t : valid_ref r → index typeRefs r = Ret t → text_fits r dir a = true → ∃ t', TypeOf typeRefs a = Ret t' ∧ TIsPad t' = TIsPad t.
Proof.
  intros Hr Et Hfit. assert (Hs : ref (common a) = r → ∃ t', TypeOf typeRefs a = Ret t' ∧ TIsPad t' = TIsPad t) by (intros Hc; exists t; split; [by apply (TypeOf_at r)|done]).
  destruct a as [c v|c ad v x|c d s|c l|c o i tr|x]; cbn [TextRoundtrip.text_fits] in Hfit; rewrite Et in Hfit.
  - unfold fits_const in Hfit. bools. by apply Hs.
  - destruct x as [x|].
    + bools. destruct (pointee _ _ _ _ _ _) as [[e d]|] eqn:Ep; [|done]. destruct (pointee_spec r t c e d Hr Et Ep) as [Hc He (tc & e0 & d0 & sq & t' & tc' & sq' & -> & -> & Et' & _)].
      eexists. split; [by apply (TypeOf_at (ref c))|done].
    + unfold fits_area in Hfit. bools. apply Hs. destruct (IsSpecial _ _ _); bools; destruct t; bools; done.
  - unfold fits_data in Hfit. bools. by apply Hs.
  - bools. by apply Hs.
  - bools. by apply Hs.
  - unfold fits_result in Hfit. bools. by apply Hs.
Qed.
Lemma pad_default r dir a t : valid_ref r → index typeRefs r = Ret t → text_fits r dir a = true → pad_ok t a = true → TIsPad t = true →
  isDefault a = Ret true ∧ ∃ c, a = ConstArg c 0 ∧ ref c = r ∧ arg_dir c = dir.
Proof.
  intros Hr Et Hfit Hpad Hp. unfold pad_ok in Hpad. rewrite Hp in Hpad. cbn [negb orb] in Hpad. destruct a as [c v| | | | |]; try done. bools. subst v. cbn [TextRoundtrip.text_fits] in Hfit. rewrite Et in Hfit. unfold fits_const in Hfit. bools.
  split; [|by exists c]. cbn [isDefaultArg]. rewrite (TypeOf_at r t) by done. cbn [mbind outcome_bind]. destruct t; try done. cbn in *. by rewrite bool_decide_eq_true_2.
Qed.
Lemma ends_sep u cl rest : cl ∈ ["]"%ch; "}"%ch; ")"%ch] → ends (sep u ++ cl :: rest).
Proof.
  intros Hcl. unfold sep. destruct u; [exists cl, rest; split; [done|]|exists ","%ch; eexists; split; [done|by left]].
  rewrite !elem_of_cons in Hcl. destruct Hcl as [->|[->|[->|Hcl]]]; [by right; right; left|by right; right; right; left|by right; left|by apply not_elem_of_nil in Hcl].
Qed.
(** After an element: the separator is taken when another one follows. *)
Lemma sep_at {A} (k : parsing parser A) u cl rest p : ps_err p = false → cl ∈ ["]"%ch; "}"%ch; ")"%ch] → (u ≠ [] → good u) →
  (c ← Char; (if decide (c ≠ cl) then Parse ","%ch else mret tt);; k) (set_s (sep u ++ cl :: rest) p) = k (set_s (u ++ cl :: rest) p).
Proof.
  intros He Hcl Hu. destruct u as [|ch u]; cbn [sep app].
  - erewrite bind_Ok; [|by apply Char_at]. rewrite decide_False by (intros Hn; by apply Hn). done.
  - change (text ", ") with [","%ch; " "%ch]. cbn [app]. erewrite bind_Ok; [|by apply Char_at].
    rewrite decide_True by (intros <-; rewrite !elem_of_cons in Hcl; destruct Hcl as [?|[?|[?|Hcl]]]; try done; by apply not_elem_of_nil in Hcl).
    erewrite bind_Ok; [|by apply Parse_at]. change (drop_while is_blank (" "%ch :: ch :: u ++ cl :: rest)) with (drop_while is_blank ((ch :: u) ++ cl :: rest)). rewrite tight_drop; [done|]. by apply good_tight, Hu.
Qed.
Lemma good_sep tx u : good tx → (u ≠ [] → good u) → good (tx ++ sep u).
Proof.
  intros [(c & s & -> & Hc) Hnl] Hu. split; [by exists c; eexists; cbn|]. apply not_elem_of_app. split; [done|]. destruct u as [|ch u]; [apply not_elem_of_nil|]. destruct (Hu ltac:(done)) as [_ Hu2].
  cbn [sep]. change (text ", ") with [","%ch; " "%ch]. cbn [app]. rewrite !not_elem_of_cons in *. destruct Hu2 as [? ?]. by split_and!.
Qed.
Lemma good_next tx rest cl : good tx → cl ∈ ["]"%ch; "}"%ch; ")"%ch] → ∃ c s, tx ++ rest = c :: s ∧ c ≠ cl.
Proof.
  intros [(c & s & -> & Hc) _] Hcl. exists c. eexists. split; [done|]. intros ->. unfold start_char in Hc.
  rewrite !elem_of_cons in Hcl. destruct Hcl as [->|[->|[->|Hcl]]]; [| | |by apply not_elem_of_nil in Hcl]; pose proof (bool_decide_eq_true_2 _ Hc) as Hb; vm_compute in Hb; done.
Qed.
Lemma roots_cons x l : roots_results (x :: l) = arg_results x ++ roots_results l.
Proof. done. Qed.

Lemma struct_end fs dir acc rest rec p : ps_err p = false → struct_fields typeRefs strict rec fs dir acc (set_s ("}"%ch :: rest) p) = Ok (acc, set_s ("}"%ch :: rest) p).
Proof. intros He. destruct fs; cbn [struct_fields]; (erewrite bind_Ok; [|by apply Char_at]); by rewrite decide_True. Qed.
Definition struct_text (l : list Arg) (fs : list Field) (dir : Dir) (done : list ResultArg) (ctx ctx' : serializer) (u : list Z) (m : nat) : Prop := ∀ n p rest acc,
  ps_err p = false → vars_ok done ctx (ps_vars p) → post_numbered f (ps_next p) (posts (take m l)) → (length (u ++ "}"%ch :: rest) < n)%nat →
  ∃ v, struct_fields typeRefs strict (parseArg n) fs dir acc (set_s (u ++ "}"%ch :: rest) p)
       = Ok (acc ++ (parsed_arg <$> take m l), moved ("}"%ch :: rest) v (len (posts (take m l))) (links (roots_results l)) p) ∧ vars_ok (done ++ roots_results l) ctx' v.
Lemma struct_omitted l fs dir done ctx : omitted l → ctx_ok done ctx → struct_text l fs dir done ctx ctx [] 0.
Proof.
  intros Hl Hctx n p rest acc He Hv Hn Hlen. exists (ps_vars p). cbn [app]. rewrite struct_end by done. pose proof (omitted_unused l Hl) as Hu. split; [|by apply unused_vars].
  rewrite unused_links by done. cbn. rewrite app_nil_r. by rewrite moved_start.
Qed.
Lemma struct_pad x l g fs dir done ctx ctx' u m c t : valid_ref (FieldType g) → index typeRefs (FieldType g) = Ret t → TIsPad t = true → x = ConstArg c 0 → ref c = FieldType g → arg_dir c = FieldDir g dir →
  u ≠ [] → good u → struct_text l fs dir done ctx ctx' u m → struct_text (x :: l) (g :: fs) dir done ctx ctx' u (S m).
Proof.
  intros Hv Et Hp -> Hc Hd Hu Hg IH n p rest acc He Hvars Hn Hlen. cbn [take] in *. rewrite posts_cons in Hn. apply post_numbered_app in Hn as [Hn1 Hn2]. apply numbered_single in Hn1. cbn [aid common] in Hn1.
  destruct (good_next u ("}"%ch :: rest) "}"%ch Hg) as (ch & s & Eu & Hne); [by right; left|].
  destruct (IH n (moved (u ++ "}"%ch :: rest) (ps_vars p) 1 [] p) rest (acc ++ [parsed_arg (ConstArg c 0)])) as (v & Hr & Hv'); [done|done|exact Hn2|done|].
  exists v. split; [|done]. cbn [struct_fields]. rewrite Eu. erewrite bind_Ok; [|by apply Char_at]. rewrite decide_False by done. erewrite bind_Ok; [|unfold type_at; rewrite Et; reflexivity]. rewrite Hp.
  erewrite bind_Ok; [|by apply make_moved]. rewrite <-Eu. rewrite set_s_moved in Hr.
  assert (Hm : MakeConstArg t (FieldDir g dir) 0 (ps_next p) = parsed_arg (ConstArg c 0)) by (unfold MakeConstArg; cbn; f_equal; symmetry; apply parsed_common; [done|by rewrite (self_ref _ _ Hv Et)|done]).
  rewrite Hm, Hr. rewrite moved_moved, <-app_assoc, posts_cons, len_app. done.
Qed.
Lemma struct_item x l g fs dir done ctx ctx1 ctx2 tx u m t : valid_ref (FieldType g) → index typeRefs (FieldType g) = Ret t → TIsPad t = false →
  good tx → (u ≠ [] → good u) → reads x (FieldType g) (FieldDir g dir) done ctx ctx1 tx → struct_text l fs dir (done ++ arg_results x) ctx1 ctx2 u m →
  struct_text (x :: l) (g :: fs) dir done ctx ctx2 (tx ++ sep u) (S m).
Proof.
  intros Hv Et Hp Hg Hu Hx IH n p rest acc He Hvars Hn Hlen. cbn [take] in *. rewrite posts_cons in Hn. apply post_numbered_app in Hn as [Hn1 Hn2]. rewrite <-app_assoc in *.
  destruct (Hx p (sep u ++ "}"%ch :: rest) n He Hvars Hn1) as (v1 & Hr1 & Hv1); [apply ends_sep; by right; left|done|].
  destruct (IH n (moved (sep u ++ "}"%ch :: rest) v1 (len (post_ids x)) (links (arg_results x)) p) rest (acc ++ [parsed_arg x])) as (v2 & Hr2 & Hv2); [done|done|exact Hn2| |].
  { rewrite !length_app in *. unfold sep in Hlen. destruct u; cbn [length] in *; [lia|]. rewrite length_app in Hlen. cbn [length] in *. lia. }
  exists v2. rewrite roots_cons. split; [|by rewrite app_assoc]. destruct (good_next tx (sep u ++ "}"%ch :: rest) "}"%ch Hg) as (ch & s & Eu & Hne); [by right; left|].
  cbn [struct_fields]. rewrite Eu. erewrite bind_Ok; [|by apply Char_at]. rewrite decide_False by done. erewrite bind_Ok; [|unfold type_at; rewrite Et; reflexivity]. rewrite Hp, <-Eu.
  erewrite bind_Ok; [|unfold rec_arg; erewrite bind_Ok; [|exact Hr1]; reflexivity].
  rewrite <-(set_s_eta (moved _ _ _ _ _)). cbn [ps_s moved]. rewrite sep_at by (done || by right; left). rewrite Hr2, moved_moved, <-app_assoc, posts_cons, len_app, links_app. done.
Qed.
Local Abbreviation elements := (serialize_elements typeRefs serialize).
(** The text of the elements, as it is after another element and as it is in front. *)
Definition elements_text (l : list Arg) (k : nat) (first : bool) (done : list ResultArg) (ctx ctx' : serializer) (u : list Z) : Prop :=
  (∀ i, elements k (S i) l ctx = Ret (sep u, ctx')) ∧ (first = true → elements k 0 l ctx = Ret (u, ctx'))
  ∧ ctx_step done (roots_results l) ctx ctx' ∧ (u ≠ [] → good u).
Lemma elements_omitted l k first done ctx : omitted l → k = 0%nat ∨ l = [] → ctx_ok done ctx → elements_text l k first done ctx ctx [].
Proof.
  intros Hl Hk Hctx. assert (Hs : ∀ i, elements k i l ctx = Ret ([], ctx)) by (intros i; destruct Hk as [-> | ->]; [by destruct l|done]). split_and!; [done|intros _; apply Hs|apply unused_ctx; [by apply omitted_unused|done]|done].
Qed.
Lemma elements_item x l k first done ctx ctx1 ctx2 tx u b : is_pad typeRefs x = Ret false → serialize x ctx = Ret (tx, ctx1) → good tx → ctx_step done (arg_results x) ctx ctx1 →
  elements_text l k b (done ++ arg_results x) ctx1 ctx2 u → elements_text (x :: l) (S k) first done ctx ctx2 (tx ++ sep u).
Proof.
  intros Hp Hs Hg Hst (H1 & _ & H3 & H4). assert (Hne : tx ++ sep u ≠ []) by (destruct Hg as [(c & s & -> & _) _]; done). split_and!.
  - intros i. cbn [serialize_elements]. rewrite Hp. cbn [mbind outcome_bind]. rewrite Hs. cbn [mbind outcome_bind]. rewrite H1. cbn [mbind outcome_bind]. rewrite decide_False by lia. unfold sep at 2. by destruct (tx ++ sep u).
  - intros _. cbn [serialize_elements]. rewrite Hp. cbn [mbind outcome_bind]. rewrite Hs. cbn [mbind outcome_bind]. rewrite H1. done.
  - rewrite roots_cons. by eapply ctx_step_app.
  - intros _. by apply good_sep.
Qed.
Lemma elements_pad x l k done ctx ctx' u b : is_pad typeRefs x = Ret true → arg_results x = [] → elements_text l k b done ctx ctx' u → elements_text (x :: l) (S k) false done ctx ctx' u.
Proof.
  intros Hp Hx (H1 & _ & H3 & H4). split_and!; [|done|by rewrite roots_cons, Hx|done]. intros i. cbn [serialize_elements]. rewrite Hp. cbn [mbind outcome_bind]. apply H1.
Qed.
Lemma struct_reads l : Forall printed l → ∀ fs dir k done ctx, (∀ g, g ∈ fs → valid_ref (FieldType g)) → fits_fields typeRefs text_fits dir l fs = true → omitted (drop k l) → ctx_ok done ctx →
  scoped done (roots_results l) → sz_varSeq ctx + len (roots_results l) < 2 ^ 64 →
  ∃ u ctx' m, elements_text l k (match fs with g :: _ => negb (ref_pad typeRefs (FieldType g)) | [] => true end) done ctx ctx' u ∧ omitted (drop m l) ∧ (u = [] → m = 0%nat) ∧ (m ≤ length l)%nat ∧ struct_text l fs dir done ctx ctx' u m.
Proof.
  induction 1 as [|x l Hx Hl IH]; intros fs dir k done ctx Hfs Hfit Hom Hctx Hsc Hseq.
  - exists [], ctx, 0%nat. assert (Ho : omitted []) by constructor. split_and!; [apply elements_omitted; [done|by right|done]|done|done|done|by apply struct_omitted].
  - destruct fs as [|g fs]; [done|]. cbn [fits_fields] in Hfit. bools. assert (Hv : valid_ref (FieldType g)) by (apply Hfs; by left). destruct k as [|k].
    { exists [], ctx, 0%nat. cbn [drop] in Hom. split_and!; [apply elements_omitted; [done|by left|done]|done|done|cbn; lia|by apply struct_omitted]. }
    cbn [drop] in Hom. rewrite roots_cons in Hsc, Hseq. apply scoped_app in Hsc as [Hsc1 Hsc2]. rewrite len_app in Hseq. assert (Hpos : 0 ≤ len (roots_results l) ∧ 0 ≤ len (arg_results x)) by (unfold len; lia).
    destruct (index typeRefs (FieldType g)) as [t|] eqn:Et; [|done]. destruct (fits_TypeOf (FieldType g) (FieldDir g dir) x t Hv Et) as (t' & Ht' & Hp'); [done|]. assert (Hfs' : ∀ h, h ∈ fs → valid_ref (FieldType h)) by (intros h Hh; apply Hfs; by right).
    unfold ref_pad at 1. rewrite Et. destruct (TIsPad t) eqn:Ep; cbn [negb].
    + destruct (pad_default (FieldType g) (FieldDir g dir) x t) as (Hd & c & Exc & Hc & Hdir); [done..|]. assert (Hr0 : arg_results x = []) by by rewrite Exc. rewrite Hr0, app_nil_r in Hsc2.
      destruct (IH fs dir k done ctx Hfs') as (u & ctx' & m & Htxt & Hom' & Hm0 & Hml & Hstr); [done|done|done|done|lia|]. assert (Hpad : is_pad typeRefs x = Ret true) by (unfold is_pad; rewrite Ht'; cbn; by rewrite Hp').
      pose proof (elements_pad x l k done ctx ctx' u _ Hpad Hr0 Htxt) as Htxt'. destruct (decide (u = [])) as [->|Hne].
      * exists [], ctx', 0%nat. rewrite (Hm0 eq_refl) in *. assert (Ho : omitted (x :: l)) by (constructor; done). split_and!; [done|done|done|lia|].
        intros n p rest acc He Hvars Hn Hlen. destruct (Hstr n p rest acc He Hvars Hn Hlen) as (v & Hrd & Hv'). exists v. rewrite roots_cons, Hr0. split; [|done]. cbn [app] in *. rewrite struct_end in Hrd |- * by done. exact Hrd.
      * exists u, ctx', (S m). split_and!; [done|done|done|cbn; lia|]. destruct Htxt as (_ & _ & _ & Hg). eapply struct_pad; try done. by apply Hg.
    + destruct (Hx (FieldType g) (FieldDir g dir) done ctx Hv) as (tx & ctx1 & Hs & Hst & Hg & Hrd); [done|done|done|lia|]. pose proof (cs_seq _ _ _ _ Hst) as Hsq.
      destruct (IH fs dir k (done ++ arg_results x) ctx1 Hfs') as (u & ctx2 & m & Htxt & Hom' & Hm0 & Hml & Hstr); [done|done|apply Hst|done|lia|].
      exists (tx ++ sep u), ctx2, (S m). split_and!; [|done| |cbn; lia|].
      * eapply elements_item; [unfold is_pad; rewrite Ht'; cbn; by rewrite Hp'|done|done|done|exact Htxt].
      * destruct Hg as [(ch & s & -> & _) _]. done.
      * destruct Htxt as (_ & _ & _ & Hgu). by eapply struct_item.
Qed.
Lemma missing_reads l : ∀ fs dir rest p, (∀ g, g ∈ fs → valid_ref (FieldType g)) → fits_fields typeRefs text_fits dir l fs = true → omitted l → ps_err p = false → post_numbered f (ps_next p) (posts l) →
  missing_fields typeRefs fuel strict fs dir (set_s rest p) = Ok (parsed_arg <$> l, moved rest (ps_vars p) (len (posts l)) [] p).
Proof.
  induction l as [|x l IH]; intros fs dir rest p Hfs Hfit Hom He Hn; destruct fs as [|g fs]; try done; [cbn; by rewrite moved_start|].
  cbn [fits_fields] in Hfit. bools. apply Forall_cons in Hom as [[Hd Hvb] Hom]. rewrite posts_cons in Hn |- *. apply post_numbered_app in Hn as [Hn1 Hn2]. assert (Hv : valid_ref (FieldType g)) by (apply Hfs; by left).
  destruct (index typeRefs (FieldType g)) as [t|] eqn:Et; [|done]. destruct (fits_TypeOf (FieldType g) (FieldDir g dir) x t Hv Et) as (t' & Ht' & Hp'); [done|].
  cbn [missing_fields]. erewrite bind_Ok; [|unfold type_at; rewrite Et; reflexivity].
  assert (Hs : (if TIsPad t then mret tt else strictFailf strict) (set_s rest p) = Ok (tt, set_s rest p)).
  { destruct (TIsPad t) eqn:Ep; [done|]. destruct Hmode as [Hver|Hst]; [|by unfold strictFailf, update_state; rewrite Hst]. specialize (Hvb Hver). unfold is_pad in Hvb. rewrite Ht' in Hvb. cbn in Hvb. congruence. }
  assert (Hmay : may_omit x).
  { destruct (decide (verbose = false)) as [?|Hver%not_false_is_true]; [by left|right]. specialize (Hvb Hver). unfold is_pad in Hvb. rewrite Ht' in Hvb. cbn in Hvb. injection Hvb as Hvb.
    destruct (pad_default (FieldType g) (FieldDir g dir) x t) as (_ & c & -> & _); [done|done|done|done|congruence|eauto]. }
  erewrite bind_Ok; [|exact Hs]. erewrite bind_Ok; [|by apply default_moved].
  erewrite bind_Ok; [|rewrite <-(set_s_eta (moved _ _ _ _ _)); apply IH; [intros h Hh; apply Hfs; by right|done|done|done|exact Hn2]]. rewrite moved_moved, len_app. done.
Qed.
Lemma fits_fields_drop l fs dir m : fits_fields typeRefs text_fits dir l fs = true → fits_fields typeRefs text_fits dir (drop m l) (drop m fs) = true ∧ length l = length fs.
Proof.
  revert fs m. induction l as [|x l IH]; intros fs m Hf; destruct fs as [|g fs]; try done; [by destruct m|]. pose proof Hf as Hf0. cbn [fits_fields] in Hf. bools. destruct (IH fs (pred m)) as [H1' H2']; [done|].
  split; [|cbn; congruence]. destruct m; [done|]. exact H1'.
Qed.
Lemma nondefault_spec rl : Forall (λ a, ∃ b, isDefault a = Ret b) rl → ∃ k, nondefault_prefix typeRefs rl = Ret k ∧ (k ≤ length rl)%nat ∧ Forall (λ a, isDefault a = Ret true) (take (length rl - k) rl).
Proof.
  induction 1 as [|a rl [b Ha] Hrl (k & Hk & Hle & Hall)]; [by exists 0%nat|]. cbn [nondefault_prefix]. rewrite Ha. cbn [mbind outcome_bind]. destruct b.
  - exists k. split_and!; [done|cbn; lia|]. cbn [length]. replace (S (length rl) - k)%nat with (S (length rl - k)) by lia. cbn [take]. by constructor.
  - exists (S (length rl)). split_and!; [done|cbn; lia|]. cbn [length]. rewrite Nat.sub_diag. constructor.
Qed.
Lemma shown_spec t inner : Forall (λ a, ∃ b, isDefault a = Ret b) inner → (∃ b, fixedInnerSize t = Ret b) →
  ∃ k, shown_elements typeRefs verbose t inner = Ret k ∧ omitted (drop k inner) ∧ (k ≤ length inner)%nat ∧ (fixedInnerSize t = Ret false → k = length inner).
Proof.
  intros Hk [b Hb]. unfold shown_elements. assert (Hfull : omitted (drop (length inner) inner)) by (rewrite drop_all; constructor).
  destruct verbose eqn:Ev; [exists (length inner); split_and!; done || lia|]. rewrite Hb. cbn [mbind outcome_bind]. destruct b; [|exists (length inner); split_and!; done || lia].
  destruct (nondefault_spec (reverse inner)) as (k & Hn & Hle & Hall); [by apply Forall_reverse|]. rewrite length_reverse in *. exists k. split_and!; [done| |done|done].
  unfold omitted. assert (Hdrop : Forall (λ a, isDefault a = Ret true) (drop k inner)).
  { rewrite take_reverse in Hall. rewrite Forall_reverse in Hall. replace (length inner - (length inner - k))%nat with k in Hall by lia. exact Hall. }
  eapply Forall_impl; [exact Hdrop|]. intros a Ha. split; [done|congruence].
Qed.
Lemma posts_app l k : posts (l ++ k) = posts l ++ posts k.
Proof. unfold posts. by rewrite fmap_app, concat_app. Qed.
Lemma fields_known l fs dir : (∀ g, g ∈ fs → valid_ref (FieldType g)) → fits_fields typeRefs text_fits dir l fs = true → Forall (λ a, ∃ b, isDefault a = Ret b) l.
Proof.
  intros Hfs Hfit. apply Forall_forall. intros a Ha. destruct (fields_each l fs dir Hfit a Ha) as (g & Hg & Hga). apply (default_total a (FieldType g) (FieldDir g dir)); [by apply Hfs|done].
Qed.
Lemma struct_printed c inner r dir tc fields al ov : Forall printed inner → valid_ref r → index typeRefs r = Ret (StructType tc fields al ov) → text_fits r dir (GroupArg c inner) = true →
  ∀ done ctx, ctx_ok done ctx → scoped done (roots_results inner) → sz_varSeq ctx + len (roots_results inner) < 2 ^ 64 →
  ∃ t ctx', serialize (GroupArg c inner) ctx = Ret (t, ctx') ∧ ctx_step done (roots_results inner) ctx ctx' ∧ good t ∧ reads (GroupArg c inner) r dir done ctx ctx' t.
Proof.
  intros Hin Hr Et Hfit done ctx Hctx Hsc Hseq. set (t := StructType tc fields al ov) in *. cbn [TextRoundtrip.text_fits] in Hfit. rewrite Et in Hfit. unfold t in Hfit. bools.
  pose proof (pe_type _ _ _ _ _ _ E r _ (proj1 Hr) Et) as Hval. cbn in Hval.
  destruct (shown_spec t inner) as (k & Hk & Hom & Hkl & _); [by eapply fields_known|by eexists|].
  destruct (struct_reads inner Hin fields dir k done ctx Hval) as (u & ctx' & m & (Hs1 & Hs2 & Hst & Hgu) & Hom' & Hm0 & Hml & Hstr); [done..|].
  exists ("{"%ch :: u ++ ["}"%ch]), ctx'. split_and!.
  - cbn [TextSerialize.serialize]. rewrite (TypeOf_at r t) by done. cbn [mbind outcome_bind]. unfold t in Hk |- *. cbn [group_delims mbind outcome_bind]. rewrite Hk. cbn [mbind outcome_bind]. rewrite Hs2 by by destruct fields. done.
  - done.
  - split; [exists "{"%ch; eexists; split; [done|by do 5 right; left]|]. apply not_elem_of_cons. split; [done|]. apply not_elem_of_app. split; [|by apply not_elem_of_cons; split; [|apply not_elem_of_nil]].
    destruct (decide (u = [])) as [->|Hne]; [apply not_elem_of_nil|]. by apply Hgu.
  - intros p rest n He Hv Hn Hends Hl. cbn [post_ids] in Hn |- *. fold (posts inner) in *. apply post_numbered_app in Hn as [Hn Hn2]. apply numbered_single in Hn2. destruct n as [|n]; [cbn in Hl; lia|].
    rewrite <-(take_drop m inner), posts_app in Hn. apply post_numbered_app in Hn as [Hnt Hnd]. destruct (ends_stops rest Hends) as [Hs Hd].
    destruct (Hstr n p rest [] He Hv Hnt) as (v & Hr1 & Hv1); [cbn [app length] in Hl; rewrite <-app_assoc in Hl; cbn [app] in Hl; lia|]. exists v. split; [|done].
    cbn [TextParse.parseArg app]. apply body_plain; [done|done|]. apply (impl_struct _ r t); [done|done|]. unfold parseArgStruct. rewrite <-app_assoc. cbn [app].
    erewrite bind_Ok; [|apply Parse_tight; [done|]]; cycle 1.
    { destruct (decide (u = [])) as [->|Hne]; [done|by apply good_tight, Hgu]. }
    unfold t at 1. cbn [app] in Hr1. erewrite bind_Ok; [|exact Hr1]. erewrite bind_Ok; [|rewrite <-(set_s_eta (moved _ _ _ _ _)); cbn [ps_s moved]; by apply Parse_at]. rewrite Hd.
    assert (Hlm : length (parsed_arg <$> take m inner) = m) by (rewrite length_fmap, length_take; lia). rewrite Hlm. destruct (fits_fields_drop inner fields dir m) as [Hfd Hll]; [done|].
    erewrite bind_Ok; [|apply (missing_reads (drop m inner)); [|done|done|done|exact Hnd]]; [|intros g Hg; apply Hval; eapply elem_of_submseteq; [exact Hg|apply sublist_submseteq, sublist_drop]].
    rewrite <-(set_s_eta (moved _ _ _ _ _)), make_moved by done. cbn [ps_s ps_vars ps_next moved]. rewrite !moved_moved, <-fmap_app, take_drop, app_nil_r.
    rewrite <-Z.add_assoc, <-len_app, <-posts_app, take_drop in *. do 2 f_equal.
    + do 2 f_equal. unfold MakeGroupArg. cbn. f_equal. symmetry. apply parsed_common; [done|by rewrite (self_ref r t)|done].
    + assert (Hsplit : len (posts (take m inner)) + len (posts (drop m inner)) = len (posts inner)) by (by rewrite <-len_app, <-posts_app, take_drop).
      rewrite len_app, Z.add_assoc, Hsplit. done.
Qed.
Definition array_text (l : list Arg) (elem : Ref) (dir : Dir) (k : nat) (done : list ResultArg) (ctx ctx' : serializer) (u : list Z) : Prop := ∀ j n p rest acc,
  ps_err p = false → vars_ok done ctx (ps_vars p) → post_numbered f (ps_next p) (posts (take k l)) → (length (u ++ "]"%ch :: rest) < n)%nat → (length (u ++ "]"%ch :: rest) < j)%nat →
  ∃ v, array_elems (parseArg n) j elem dir acc (set_s (u ++ "]"%ch :: rest) p)
       = Ok (acc ++ (parsed_arg <$> take k l), moved ("]"%ch :: rest) v (len (posts (take k l))) (links (roots_results l)) p) ∧ vars_ok (done ++ roots_results l) ctx' v.
Lemma array_stop l elem dir k done ctx : omitted l → k = 0%nat ∨ l = [] → ctx_ok done ctx → array_text l elem dir k done ctx ctx [].
Proof.
  intros Hl Hk Hctx j n p rest acc He Hv Hn Hlen Hj. exists (ps_vars p). destruct j as [|j]; [lia|]. cbn [app array_elems]. erewrite bind_Ok; [|by apply Char_at]. rewrite decide_True by done.
  pose proof (omitted_unused l Hl) as Hu. split; [|by apply unused_vars]. assert (take k l = []) as -> by (destruct Hk as [-> | ->]; [done|by destruct k]). rewrite unused_links by done. cbn. rewrite app_nil_r. by rewrite moved_start.
Qed.
Lemma array_item x l elem dir k done ctx ctx1 ctx2 tx u : good tx → (u ≠ [] → good u) → reads x elem dir done ctx ctx1 tx → array_text l elem dir k (done ++ arg_results x) ctx1 ctx2 u →
  array_text (x :: l) elem dir (S k) done ctx ctx2 (tx ++ sep u).
Proof.
  intros Hg Hu Hx IH j n p rest acc He Hvars Hn Hlen Hj. destruct j as [|j]; [lia|]. cbn [take] in *. rewrite posts_cons in Hn. apply post_numbered_app in Hn as [Hn1 Hn2]. rewrite <-app_assoc in *.
  destruct (Hx p (sep u ++ "]"%ch :: rest) n He Hvars Hn1) as (v1 & Hr1 & Hv1); [apply ends_sep; by left|done|].
  assert (Hshort : (length (u ++ "]"%ch :: rest) < length (tx ++ sep u ++ "]"%ch :: rest))%nat).
  { destruct Hg as [(ch & s & -> & _) _]. rewrite !length_app. cbn [length]. unfold sep. destruct u; cbn [length]; [lia|]. rewrite length_app. cbn [length]. lia. }
  destruct (IH j n (moved (sep u ++ "]"%ch :: rest) v1 (len (post_ids x)) (links (arg_results x)) p) rest (acc ++ [parsed_arg x])) as (v2 & Hr2 & Hv2); [done|done|exact Hn2|lia|lia|].
  exists v2. rewrite roots_cons. split; [|by rewrite app_assoc]. destruct (good_next tx (sep u ++ "]"%ch :: rest) "]"%ch Hg) as (ch & s & Eu & Hne); [by left|].
  cbn [array_elems]. rewrite Eu. erewrite bind_Ok; [|by apply Char_at]. rewrite decide_False by done. rewrite <-Eu.
  erewrite bind_Ok; [|unfold rec_arg; erewrite bind_Ok; [|exact Hr1]; reflexivity].
  rewrite <-(set_s_eta (moved _ _ _ _ _)). cbn [ps_s moved]. rewrite sep_at by (done || by left). rewrite Hr2, moved_moved, <-app_assoc, posts_cons, len_app, links_app. done.
Qed.
Lemma array_reads l : Forall printed l → ∀ elem dir k done ctx, valid_ref elem → ref_pad typeRefs elem = false → forallb (text_fits elem dir) l = true → omitted (drop k l) → ctx_ok done ctx →
  scoped done (roots_results l) → sz_varSeq ctx + len (roots_results l) < 2 ^ 64 → ∃ u ctx', elements_text l k true done ctx ctx' u ∧ array_text l elem dir k done ctx ctx' u.
Proof.
  induction 1 as [|x l Hx Hl IH]; intros elem dir k done ctx Hv Hpad Hfit Hom Hctx Hsc Hseq.
  - exists [], ctx. assert (Ho : omitted []) by constructor. split; [apply elements_omitted|apply array_stop]; auto.
  - cbn [forallb] in Hfit. bools. destruct k as [|k]; [exists [], ctx; cbn [drop] in Hom; split; [apply elements_omitted|apply array_stop]; auto|].
    cbn [drop] in Hom. rewrite roots_cons in Hsc, Hseq. apply scoped_app in Hsc as [Hsc1 Hsc2]. rewrite len_app in Hseq. assert (Hpos : 0 ≤ len (roots_results l) ∧ 0 ≤ len (arg_results x)) by (unfold len; lia).
    destruct (Hx elem dir done ctx Hv) as (tx & ctx1 & Hs & Hst & Hg & Hrd); [done|done|done|lia|]. pose proof (cs_seq _ _ _ _ Hst) as Hsq.
    destruct (IH elem dir k (done ++ arg_results x) ctx1 Hv) as (u & ctx2 & Htxt & Harr); [done|done|done|apply Hst|done|lia|]. exists (tx ++ sep u), ctx2. split.
    + assert (Hp : is_pad typeRefs x = Ret false).
      { destruct Hv as [Hv0 [t Et]]. destruct (fits_TypeOf elem dir x t) as (t' & Ht' & Hp'); [split; eauto|done|done|]. unfold is_pad, ref_pad in *. rewrite Ht', Et in *. cbn. congruence. }
      eapply elements_item; try done.
    + destruct Htxt as (_ & _ & _ & Hgu). by eapply array_item.
Qed.
Lemma missing_elems_reads l : ∀ elem dir rest p, valid_ref elem → forallb (text_fits elem dir) l = true → Forall (λ a, isDefault a = Ret true) l → (l ≠ [] → strict = false ∧ verbose = false) → ps_err p = false → post_numbered f (ps_next p) (posts l) →
  missing_elems typeRefs fuel strict (length l) elem dir (set_s rest p) = Ok (parsed_arg <$> l, moved rest (ps_vars p) (len (posts l)) [] p).
Proof.
  induction l as [|x l IH]; intros elem dir rest p Hv Hfit Hom Hst He Hn; [cbn; by rewrite moved_start|]. cbn [forallb] in Hfit. bools. apply Forall_cons in Hom as [Hd Hom]. rewrite posts_cons in Hn |- *. apply post_numbered_app in Hn as [Hn1 Hn2].
  cbn [missing_elems length]. erewrite bind_Ok; [|unfold strictFailf, update_state; rewrite (proj1 (Hst ltac:(done))); reflexivity]. erewrite bind_Ok; [|apply default_moved; [left; by apply Hst|done..]].
  erewrite bind_Ok; [|rewrite <-(set_s_eta (moved _ _ _ _ _)); apply IH; [done|done|done|intros _; by apply Hst|done|exact Hn2]]. rewrite moved_moved, len_app. done.
Qed.
Lemma omitted_elems l elem dir : valid_ref elem → ref_pad typeRefs elem = false → forallb (text_fits elem dir) l = true → omitted l → l ≠ [] → strict = false ∧ verbose = false.
Proof.
  intros Hv Hpad Hfit Hom Hne. destruct (decide (verbose = false)) as [?|Hver%not_false_is_true]; [by destruct Hmode as [?|?]; [congruence|]|]. exfalso. destruct l as [|x l]; [done|]. apply Forall_cons in Hom as [[_ Hp] _]. specialize (Hp Hver). cbn [forallb] in Hfit. bools.
  destruct Hv as [Hv0 [t Et]]. destruct (fits_TypeOf elem dir x t) as (t' & Ht' & Hp'); [split; eauto|done|done|]. unfold is_pad, ref_pad in *. rewrite Ht', Et in *. cbn in Hp. injection Hp as Hp. congruence.
Qed.
Lemma array_printed c inner r dir tc elem kind lo hi : Forall printed inner → valid_ref r → index typeRefs r = Ret (ArrayType tc elem kind lo hi) → text_fits r dir (GroupArg c inner) = true →
  ∀ done ctx, ctx_ok done ctx → scoped done (roots_results inner) → sz_varSeq ctx + len (roots_results inner) < 2 ^ 64 →
  ∃ t ctx', serialize (GroupArg c inner) ctx = Ret (t, ctx') ∧ ctx_step done (roots_results inner) ctx ctx' ∧ good t ∧ reads (GroupArg c inner) r dir done ctx ctx' t.
Proof.
  intros Hin Hr Et Hfit done ctx Hctx Hsc Hseq. set (t := ArrayType tc elem kind lo hi) in *. cbn [TextRoundtrip.text_fits] in Hfit. rewrite Et in Hfit. unfold t in Hfit. bools.
  pose proof (pe_type _ _ _ _ _ _ E r _ (proj1 Hr) Et) as Hval. cbn in Hval. set (fixed := match kind with ArrayRandLen => false | ArrayRangeLen => bool_decide (lo = hi) end).
  assert (Hfx : fixedInnerSize t = Ret fixed) by done. assert (Hlo : fixed = true → lo = len inner) by (unfold fixed, array_len_ok in *; intros Hf; destruct kind; [done|]; rewrite Hf in *; cbn in *; by bools).
  assert (Hknown : Forall (λ a, ∃ b, isDefault a = Ret b) inner).
  { apply Forall_forall. intros a Ha. apply (default_total a elem dir); [done|]. match goal with Hf : forallb _ _ = true |- _ => rewrite forallb_forall in Hf; apply Hf; by apply list_elem_of_In end. }
  destruct (shown_spec t inner Hknown) as (k & Hk & Hom & Hkl & Hkf); [by eexists|].
  destruct (array_reads inner Hin elem dir k done ctx Hval) as (u & ctx' & (Hs1 & Hs2 & Hst & Hgu) & Harr); [done..|].
  exists ("["%ch :: u ++ ["]"%ch]), ctx'. split_and!.
  - cbn [TextSerialize.serialize]. rewrite (TypeOf_at r t) by done. cbn [mbind outcome_bind]. unfold t in Hk |- *. cbn [group_delims mbind outcome_bind]. rewrite Hk. cbn [mbind outcome_bind]. by rewrite Hs2.
  - done.
  - split; [exists "["%ch; eexists; split; [done|by do 6 right; left]|]. apply not_elem_of_cons. split; [done|]. apply not_elem_of_app. split; [|by apply not_elem_of_cons; split; [|apply not_elem_of_nil]].
    destruct (decide (u = [])) as [->|Hne]; [apply not_elem_of_nil|]. by apply Hgu.
  - intros p rest n He Hv Hn Hends Hl. cbn [post_ids] in Hn |- *. fold (posts inner) in *. apply post_numbered_app in Hn as [Hn Hn2]. apply numbered_single in Hn2. destruct n as [|n]; [cbn in Hl; lia|].
    rewrite <-(take_drop k inner), posts_app in Hn. apply post_numbered_app in Hn as [Hnt Hnd]. destruct (ends_stops rest Hends) as [Hs Hd].
    assert (Hsplit : len (posts (take k inner)) + len (posts (drop k inner)) = len (posts inner)) by (by rewrite <-len_app, <-posts_app, take_drop).
    destruct (Harr (S (S (length (u ++ "]"%ch :: rest)))) n p rest [] He Hv Hnt) as (v & Hr1 & Hv1); [cbn [app length] in Hl; rewrite <-app_assoc in Hl; cbn [app] in Hl; lia|lia|]. exists v. split; [|done].
    cbn [TextParse.parseArg app]. apply body_plain; [done|done|]. apply (impl_array _ r t); [done|done|]. unfold parseArgArray. rewrite <-app_assoc. cbn [app].
    erewrite bind_Ok; [|apply Parse_tight; [done|]]; cycle 1.
    { destruct (decide (u = [])) as [->|Hne]; [done|by apply good_tight, Hgu]. }
    unfold t at 1. erewrite bind_Ok; [|reflexivity]. cbn [app ps_s set_s] in Hr1 |- *. erewrite bind_Ok; [|exact Hr1]. erewrite bind_Ok; [|rewrite <-(set_s_eta (moved _ _ _ _ _)); cbn [ps_s moved]; by apply Parse_at]. rewrite Hd.
    assert (Hfill : (if fixed then rest0 ← missing_elems typeRefs fuel strict (Z.to_nat (lo - len (parsed_arg <$> take k inner))) elem dir; mret (take (Z.to_nat lo) ((parsed_arg <$> take k inner) ++ rest0))
      else mret (parsed_arg <$> take k inner)) (set_s rest (moved ("]"%ch :: rest) v (len (posts (take k inner))) (links (roots_results inner)) p)) = Ok (parsed_arg <$> inner, moved rest v (len (posts inner)) (links (roots_results inner)) p)).
    { destruct fixed eqn:Efx.
      - specialize (Hlo eq_refl). assert (Hcnt : Z.to_nat (lo - len (parsed_arg <$> take k inner)) = length (drop k inner)) by (rewrite Hlo; unfold len; rewrite length_fmap, length_take, length_drop; lia). rewrite Hcnt.
        assert (Hfd : forallb (text_fits elem dir) (drop k inner) = true).
        { match goal with Hf : forallb _ inner = true |- _ => rewrite forallb_forall in Hf |- *; intros x Hx%list_elem_of_In; apply Hf, list_elem_of_In; eapply elem_of_submseteq; [exact Hx|apply sublist_submseteq, sublist_drop] end. }
        erewrite bind_Ok; [|apply missing_elems_reads; [done|done|eapply Forall_impl; [exact Hom|]; by intros a [? _]|intros Hne; by eapply (omitted_elems (drop k inner))|done|exact Hnd]].
        unfold mret, parsing_ret. rewrite moved_moved, app_nil_r, Hsplit, <-fmap_app, take_drop. cbn [ps_vars moved]. rewrite firstn_all2; [done|]. rewrite length_fmap, Hlo. unfold len. lia.
      - rewrite Hkf in * by done. rewrite firstn_all in *. done. }
    fold fixed. erewrite bind_Ok; [|exact Hfill]. rewrite <-(set_s_eta (moved _ _ _ _ _)), make_moved by done. cbn [ps_s ps_vars ps_next moved]. rewrite moved_moved, app_nil_r, len_app. do 2 f_equal.
    unfold MakeGroupArg. cbn. f_equal. symmetry. apply parsed_common; [done|by rewrite (self_ref r t)|done].
Qed.
Lemma group_printed c inner : Forall printed inner → printed (GroupArg c inner).
Proof.
  intros Hin r dir done ctx Hr Hfit Hctx Hsc Hseq. pose proof Hfit as Hf. cbn [TextRoundtrip.text_fits] in Hf. destruct (index typeRefs r) as [t|] eqn:Et; [|done]. bools. destruct t; try done.
  - by eapply array_printed.
  - by eapply struct_printed.
Qed.
(** Every argument that fits is printed and read back. *)
Lemma arg_printed a : printed a.
Proof.
  induction a as [c v|c ad v x Hx|c d s|c l Hl|c o i t Ho|r] using Arg_nested_ind; [apply const_printed| |apply data_printed|by apply group_printed|by apply union_printed|apply result_printed].
  destruct x as [x|]; [by apply pointer_printed|apply area_printed].
Qed.

(** ** Arguments and properties of calls *)

Local Abbreviation callArgs := (call_args target PtrSize typeRefs any DecodeB64 DecompressCheck Compress fuel strict unsafe).
Definition args_text (l : list Arg) (fs : list Field) (done : list ResultArg) (ctx ctx' : serializer) (u : list Z) : Prop := ∀ p rest acc,
  ps_err p = false → vars_ok done ctx (ps_vars p) → post_numbered f (ps_next p) (posts l) →
  ∃ v, callArgs fs acc (set_s (u ++ ")"%ch :: rest) p) = Ok (acc ++ (parsed_arg <$> l), moved (")"%ch :: rest) v (len (posts l)) (links (roots_results l)) p)
  ∧ vars_ok (done ++ roots_results l) ctx' v.
Lemma args_reads l : ∀ fs done ctx, (∀ g, g ∈ fs → valid_ref (FieldType g)) → fits_fields typeRefs text_fits DirIn l fs = true →
  forallb (λ g, negb (ref_pad typeRefs (FieldType g)) && bool_decide (FieldDir g DirIn = DirIn)) fs = true → ctx_ok done ctx →
  scoped done (roots_results l) → sz_varSeq ctx + len (roots_results l) < 2 ^ 64 → ∃ u ctx', elements_text l (length l) true done ctx ctx' u ∧ args_text l fs done ctx ctx' u.
Proof.
  induction l as [|x l IH]; intros fs done ctx Hfs Hfit Hin Hctx Hsc Hseq; destruct fs as [|g fs]; try discriminate Hfit.
  - exists [], ctx. split; [apply elements_omitted; [constructor|by left|done]|]. intros p rest acc He Hv Hn. exists (ps_vars p). cbn [app call_args]. erewrite bind_Ok; [|by apply Char_at]. rewrite decide_True by done.
    cbn. rewrite !app_nil_r. split; [by rewrite moved_start|done].
  - cbn [fits_fields] in Hfit. cbn [forallb] in Hin. bools. assert (Hv : valid_ref (FieldType g)) by (apply Hfs; by left). rewrite roots_cons in Hsc, Hseq. apply scoped_app in Hsc as [Hsc1 Hsc2]. rewrite len_app in Hseq.
    assert (Hpos : 0 ≤ len (roots_results l) ∧ 0 ≤ len (arg_results x)) by (unfold len; lia). destruct (index typeRefs (FieldType g)) as [t|] eqn:Et; [|done].
    destruct (fits_TypeOf (FieldType g) (FieldDir g DirIn) x t Hv Et) as (t' & Ht' & Hp'); [done|]. assert (Hpad : TIsPad t = false) by (unfold ref_pad in *; by rewrite Et in *).
    match goal with Hd : FieldDir g DirIn = DirIn |- _ => rewrite Hd in * end.
    destruct (arg_printed x (FieldType g) DirIn done ctx Hv) as (tx & ctx1 & Hs & Hst & Hg & Hrd); [done|done|done|lia|]. pose proof (cs_seq _ _ _ _ Hst) as Hsq.
    destruct (IH fs (done ++ arg_results x) ctx1) as (u & ctx2 & Htxt & Hargs); [intros h Hh; apply Hfs; by right|done|done|apply Hst|done|lia|]. exists (tx ++ sep u), ctx2. split.
    + eapply elements_item; [unfold is_pad; rewrite Ht'; cbn; by rewrite Hp', Hpad|done|done|done|exact Htxt].
    + destruct Htxt as (_ & _ & _ & Hgu). intros p rest acc He Hvars Hn. rewrite posts_cons in Hn. apply post_numbered_app in Hn as [Hn1 Hn2]. rewrite <-app_assoc.
      destruct (Hrd p (sep u ++ ")"%ch :: rest) (S (S (S (length (tx ++ sep u ++ ")"%ch :: rest))))) He Hvars Hn1) as (v1 & Hr1 & Hv1); [apply ends_sep; by right; right; left|lia|].
      destruct (Hargs (moved (sep u ++ ")"%ch :: rest) v1 (len (post_ids x)) (links (arg_results x)) p) rest (acc ++ [parsed_arg x])) as (v2 & Hr2 & Hv2); [done|done|exact Hn2|].
      exists v2. rewrite roots_cons. split; [|by rewrite app_assoc]. destruct (good_next tx (sep u ++ ")"%ch :: rest) ")"%ch Hg) as (ch & s & Eu & Hne); [by right; right; left|].
      cbn [call_args]. rewrite Eu. erewrite bind_Ok; [|by apply Char_at]. rewrite decide_False by done. erewrite bind_Ok; [|unfold type_at; rewrite Et; reflexivity]. rewrite Hpad, <-Eu. erewrite bind_Ok; [|reflexivity].
      erewrite bind_Ok; [|unfold rec_arg; erewrite bind_Ok; [|exact Hr1]; reflexivity].
      rewrite <-(set_s_eta (moved _ _ _ _ _)). cbn [ps_s moved]. rewrite sep_at by (done || by right; right; left). rewrite Hr2, moved_moved, <-app_assoc, posts_cons, len_app, links_app. done.
Qed.

(** A property that is printed, and what reading it does. *)
Definition prop_text (kv : list Z * prop_value) : list Z := kv.1 ++ match kv.2 with PInt v => text ": " ++ print_int v | PBool _ => [] end.
Definition set_prop (ps : CallProps) (kv : list Z * prop_value) : CallProps := match kv.2 with PInt v => set_int_prop kv.1 v ps | PBool _ => set_bool_prop ps end.
Definition prop_fits (kv : list Z * prop_value) : Prop := match kv.2 with
  | PInt v => prop_key_kind kv.1 = Some true ∧ 0 ≤ v < 2 ^ 63
  | PBool _ => prop_key_kind kv.1 = Some false
  end ∧ kv.1 ≠ [] ∧ forallb is_ident kv.1 = true.
Definition changed (l : list (list Z * prop_value)) : list (list Z * prop_value) := filter (λ kv, prop_is_zero kv.2 = false) l.
Definition more_props (l : list (list Z * prop_value)) : list Z := concat ((λ kv, text ", " ++ prop_text kv) <$> l).
Lemma more_props_cons kv l : more_props (kv :: l) = [","%ch; " "%ch] ++ prop_text kv ++ more_props l.
Proof. unfold more_props. cbn [fmap list_fmap concat]. by rewrite <-app_assoc. Qed.
Lemma serialize_props_true l : serialize_props true l = more_props (changed l) ++ [")"%ch].
Proof.
  induction l as [|[key v] l IH]; [done|]. cbn [serialize_props]. unfold changed in *. rewrite filter_cons. cbn [snd]. destruct (prop_is_zero v) eqn:Ez.
  - rewrite decide_False by done. exact IH.
  - rewrite decide_True, more_props_cons, IH by done. unfold prop_text. cbn [fst snd]. by rewrite <-!app_assoc.
Qed.
Lemma serialize_props_false l : serialize_props false l = match changed l with [] => [] | kv :: r => text " (" ++ prop_text kv ++ more_props r ++ [")"%ch] end.
Proof.
  induction l as [|[key v] l IH]; [done|]. cbn [serialize_props]. unfold changed in *. rewrite filter_cons. cbn [snd]. destruct (prop_is_zero v) eqn:Ez.
  - rewrite decide_False by done. exact IH.
  - rewrite decide_True by done. rewrite serialize_props_true. unfold changed, prop_text. cbn [fst snd]. by rewrite <-!app_assoc.
Qed.
(** One property, up to the test for another one. *)
Lemma prop_step ps key v tail n p : ps_err p = false → prop_fits (key, v) → tight tail → (∃ c s, tail = c :: s ∧ (c = ","%ch ∨ c = ")"%ch)) →
  parse_props strict (S n) ps (set_s (prop_text (key, v) ++ tail) p) =
  (c ← Char; (if decide (c ≠ ")"%ch) then Parse ","%ch else mret tt);; parse_props strict n (set_prop ps (key, v))) (set_s tail p).
Proof.
  intros He (Hk & Hne & Hid) Ht (c & s & -> & Hc). cbn [fst snd] in *. assert (Hst : stops (c :: s)) by (destruct Hc as [-> | ->]; done).
  destruct key as [|ch key0] eqn:Ekey; [done|]. rewrite <-Ekey in *. assert (Hch : ch ≠ ")"%ch) by (rewrite Ekey in Hid; cbn in Hid; bools; intros ->; done).
  cbn [parse_props]. erewrite bind_Ok; [|reflexivity]. cbn [ps_err set_s]. rewrite He. unfold prop_text. cbn [fst snd]. rewrite <-app_assoc.
  rewrite Ekey at 1. cbn [app]. erewrite bind_Ok; [|by apply Char_at]. rewrite (decide_False (P := ch = _)) by done. rewrite app_comm_cons, <-Ekey. unfold set_prop. cbn [fst snd]. destruct v as [v|b].
  - destruct Hk as [Hk Hv]. change (text ": ") with [":"%ch; " "%ch]. rewrite <-app_assoc. cbn [app]. erewrite bind_Ok; [|by apply Ident_at]. rewrite Hk. unfold print_int. rewrite decide_False by lia. assert (Hv64 : in_u64 v) by (unfold in_u64; lia).
    erewrite bind_Ok; [|by apply Parse_at]. change (drop_while is_blank (" "%ch :: ?z)) with (drop_while is_blank z). rewrite tight_drop by by apply dec_tight. erewrite bind_Ok; [|by apply Ident_dec]. by rewrite ParseInt_dec.
  - cbn [app]. erewrite bind_Ok; [|by apply Ident_at]. by rewrite Hk.
Qed.
Lemma props_reads l : ∀ kv ps rest n p, ps_err p = false → prop_fits kv → Forall prop_fits l → (length (more_props l) + 1 < n)%nat →
  parse_props strict n ps (set_s (prop_text kv ++ more_props l ++ ")"%ch :: rest) p) = Ok (foldl set_prop (set_prop ps kv) l, set_s (")"%ch :: rest) p).
Proof.
  induction l as [|kv' l IH]; intros [key v] ps rest n p He (Hk & Hne & Hid) Hl Hn; cbn [fst snd] in *.
  - destruct n as [|n]; [lia|]. change (more_props []) with (@nil Z) in *. cbn [app]. rewrite (prop_step ps key v (")"%ch :: rest) n p) by (done || by eexists _, _; split; [|right]). destruct n as [|n]; [cbn in Hn; lia|]. 
    erewrite bind_Ok; [|by apply Char_at]. rewrite decide_False by (intros Hx; by apply Hx). erewrite bind_Ok; [|reflexivity]. cbn [parse_props]. erewrite bind_Ok; [|reflexivity]. cbn [ps_err set_s]. rewrite He.
    erewrite bind_Ok; [|by apply Char_at]. rewrite decide_True by done. done.
  - apply Forall_cons in Hl as [Hkv' Hl]. destruct n as [|n]; [lia|]. rewrite more_props_cons in *. rewrite <-!app_assoc. cbn [app].
    rewrite (prop_step ps key v) by (done || by eexists _, _; split; [|left]). erewrite bind_Ok; [|by apply Char_at]. rewrite decide_True by done. erewrite bind_Ok; [|by apply Parse_at].
    assert (Ht : tight (prop_text kv' ++ more_props l ++ ")"%ch :: rest)) by (unfold prop_text; rewrite <-app_assoc; by apply ident_tight; apply Hkv').
    change (drop_while is_blank (" "%ch :: ?z)) with (drop_while is_blank z). rewrite tight_drop by done. rewrite (IH kv'); [done|done|done|done|]. rewrite !length_app in Hn. cbn [length] in Hn. lia.
Qed.
Lemma props_restored ps : foldl set_prop noProps (changed (props_list ps)) = ps.
Proof.
  destruct ps as [fn as_ re]. unfold changed, props_list. cbn [FailNth Async Rerun]. rewrite !filter_cons, filter_nil. cbn [snd prop_is_zero].
  destruct (decide (fn = 0)) as [->|Hf], (decide (re = 0)) as [->|Hre], as_; rewrite ?bool_decide_eq_true_2, ?bool_decide_eq_false_2 by done; cbn [negb]; repeat case_decide; done.
Qed.
Lemma props_fit ps : prop_int (FailNth ps) = true → prop_int (Rerun ps) = true → Forall prop_fits (changed (props_list ps)).
Proof.
  unfold prop_int. intros. bools. assert (Hall : Forall prop_fits (props_list ps)) by (repeat constructor; cbn [fst snd]; done || lia). rewrite Forall_forall in Hall |- *.
  intros kv [_ Hkv]%list_elem_of_filter. by apply Hall.
Qed.
Lemma props_tail ps p : ps_err p = false → prop_int (FailNth ps) = true → prop_int (Rerun ps) = true → let q := drop_while is_blank (serialize_props false (props_list ps)) in
  (if bool_decide (q = []) then mret noProps
   else c ← Char; if decide (c = "("%ch) then Parse "("%ch;; x ← parseCallProps strict; Parse ")"%ch;; mret x else mret noProps) (set_s q p) = Ok (ps, set_s [] p).
Proof.
  intros He H1 H2. pose proof (props_fit ps H1 H2) as Hf. pose proof (props_restored ps) as Hr. rewrite serialize_props_false. destruct (changed (props_list ps)) as [|kv l]; [cbn in *; by rewrite Hr|].
  apply Forall_cons in Hf as [Hkv Hl]. change (text " (") with [" "%ch; "("%ch]. cbn [app]. change (drop_while is_blank (" "%ch :: "("%ch :: ?z)) with ("("%ch :: z). cbv zeta. rewrite bool_decide_eq_false_2 by done. cbv iota.
  erewrite bind_Ok; [|by apply Char_at]. rewrite decide_True by done.
  assert (Ht : tight (prop_text kv ++ more_props l ++ [")"%ch])) by (unfold prop_text; rewrite <-app_assoc; by apply ident_tight; apply Hkv). erewrite bind_Ok; [|by apply Parse_tight].
  unfold parseCallProps. erewrite bind_Ok; [|erewrite bind_Ok; [|reflexivity]; apply (props_reads l kv noProps []); [done|done|done|]]; cycle 1.
  { cbn [ps_s set_s]. rewrite !length_app. cbn [length]. lia. }
  erewrite bind_Ok; [|by apply Parse_tight]. unfold mret, parsing_ret. do 2 f_equal. exact Hr.
Qed.
Lemma prop_no_newline kv : prop_fits kv → 10 ∉ prop_text kv.
Proof.
  intros (Hv & _ & Hid). unfold prop_text. apply not_elem_of_app. split; [by apply ident_no_newline|]. destruct (kv.2) as [v|b]; [|apply not_elem_of_nil]. destruct Hv as [_ Hv]. change (text ": ") with [":"%ch; " "%ch]. unfold print_int. rewrite decide_False by lia.
  cbn [app]. rewrite !not_elem_of_cons. split_and!; [done|done|]. apply ident_no_newline, print_dec_ident, Hv.
Qed.
Lemma props_no_newline ps : prop_int (FailNth ps) = true → prop_int (Rerun ps) = true → (10 ∉ serialize_props false (props_list ps)) ∧ (last (")"%ch :: serialize_props false (props_list ps)) = Some ")"%ch).
Proof.
  intros H1 H2. pose proof (props_fit ps H1 H2) as Hf. rewrite serialize_props_false. destruct (changed (props_list ps)) as [|kv l]; [split; [apply not_elem_of_nil|done]|]. apply Forall_cons in Hf as [Hkv Hl]. split.
  - change (text " (") with [" "%ch; "("%ch]. cbn [app]. rewrite !not_elem_of_cons, !not_elem_of_app. split_and!; [done|done|by apply prop_no_newline| |by apply not_elem_of_cons; split; [|apply not_elem_of_nil]].
    clear Hkv. induction Hl as [|kv' l Hkv' Hl IH]; [apply not_elem_of_nil|]. rewrite more_props_cons. cbn [app]. rewrite !not_elem_of_cons, not_elem_of_app. split_and!; [done|done|by apply prop_no_newline|done].
  - rewrite !app_assoc, app_comm_cons. by rewrite last_snoc.
Qed.

(** ** Calls *)

Lemma to_string_bytes s : to_string (bytes_of s) = s.
Proof. induction s as [|c s IH]; [done|]. cbn [bytes_of to_string]. rewrite IH. f_equal. unfold code. rewrite N2Z.id. apply Ascii.ascii_N_embedding. Qed.
Lemma Ident_ws id s p : id ≠ [] → forallb is_ident id = true → match s with c :: _ => is_ident c = false | [] => True end → Ident (set_s (id ++ s) p) = Ok (id, set_s (drop_while is_blank s) p).
Proof.
  intros Hne Hid Hs. unfold Ident. cbn [ps_s set_s]. destruct (while_app is_ident id s Hid Hs) as [-> ->]. destruct id as [|c id]; [done|]. done.
Qed.
Definition ret_text (k : option Z) : list Z := match k with Some k => var_name k ++ text " = " | None => [] end.
Definition ret_name (k : option Z) : list Z := match k with Some k => var_name k | None => [] end.
(** The variable and the name of a call. *)
Lemma name_at {A} (K : list Z → list Z → parsing parser A) k name s p : ps_err p = false → (∀ j, k = Some j → in_u64 j) → identb name = true →
  (name ← Ident; c ← Char; '(r, name) ← (if decide (c = "="%ch) then Parse "="%ch;; name' ← Ident; mret (name, name') else mret ([], name)); K r name) (set_s (ret_text k ++ name ++ "("%ch :: s) p)
  = K (ret_name k) name (set_s ("("%ch :: s) p).
Proof.
  intros He Hk Hname. unfold identb in Hname. bools. destruct k as [k|]; cbn [ret_text ret_name app].
  - change (text " = ") with [" "%ch; "="%ch; " "%ch]. rewrite <-app_assoc. cbn [app]. erewrite bind_Ok; [|apply Ident_ws; [done|by apply var_name_ident, Hk|done]]. change (drop_while is_blank (" "%ch :: "="%ch :: ?z)) with ("="%ch :: z).
    erewrite bind_Ok; [|by apply Char_at]. rewrite decide_True by done.
    erewrite bind_Ok; cycle 1.
    { erewrite bind_Ok; [|by apply Parse_at]. change (drop_while is_blank (" "%ch :: ?z)) with (drop_while is_blank z). rewrite tight_drop by by apply ident_tight. erewrite bind_Ok; [|by apply Ident_at]. reflexivity. }
    done.
  - erewrite bind_Ok; [|by apply Ident_at]. erewrite bind_Ok; [|by apply Char_at]. rewrite decide_False by done. erewrite bind_Ok; [|reflexivity]. done.
Qed.
(** The results of a call in the order in which their variables become known. *)
Definition line_results (c : Call) : list ResultArg := roots_results (Args c) ++ option_list (CRet c).
Definition call_posts (c : Call) : list argid := option_list (rid <$> CRet c) ++ posts (Args c).
Definition ctx_bound (ctx : serializer) : Prop := ∀ x k, sz_vars ctx !! x = Some k → 0 ≤ k < sz_varSeq ctx.
Definition ret_var (ret : option ResultArg) (ctx : serializer) : option Z :=
  match ret with Some x => if decide (uses x ≠ ∅) then Some (sz_varSeq ctx) else None | None => None end.
Definition ret_ctx (ret : option ResultArg) (ctx : serializer) : serializer :=
  match ret with Some x => if decide (uses x ≠ ∅) then (allocVarID (rid x) ctx).2 else ctx | None => ctx end.
Lemma ret_ctx_ok ret done ctx : ctx_ok done ctx → ctx_bound ctx → (∀ x, ret = Some x → rid x ∉ rid <$> done) →
  ctx_ok done (ret_ctx ret ctx) ∧ ctx_bound (ret_ctx ret ctx) ∧ sz_varSeq ctx ≤ sz_varSeq (ret_ctx ret ctx) ≤ sz_varSeq ctx + len (option_list ret)
  ∧ ∀ v, vars_ok done ctx v → vars_ok done (ret_ctx ret ctx) v.
Proof.
  intros Hctx Hb Hfresh. pose proof Hctx as [H0 Hc]. destruct ret as [x|]; [|split; [exact Hctx|]; split; [exact Hb|]; split; [unfold len; cbn; lia|done]]. cbn [ret_ctx]. change (len (option_list (Some x))) with 1.
  destruct (decide (uses x ≠ ∅)) as [Hu|Hu]; [|split; [exact Hctx|]; split; [exact Hb|]; split; [lia|done]]. cbn [allocVarID snd]. specialize (Hfresh x eq_refl).
  assert (Hne : ∀ r0, r0 ∈ done → rid r0 ≠ rid x) by (intros r0 Hr0 Heq; apply Hfresh; rewrite <-Heq; apply list_elem_of_fmap; eauto). split_and!; cbn [sz_varSeq]; try lia.
  - split; [cbn; lia|]. intros r0 Hr0 Hu0. destruct (Hc r0 Hr0 Hu0) as (k & Hk & Hlt). exists k. cbn. rewrite lookup_insert_ne by (by apply not_eq_sym, Hne). split; [done|lia].
  - intros y k. cbn. rewrite lookup_insert_Some. intros [[_ <-]|[_ Hk]]; [lia|]. apply Hb in Hk. lia.
  - intros v Hv r0 k Hr0 Hu0 Hk. cbn in Hk. rewrite lookup_insert_ne in Hk by (by apply not_eq_sym, Hne). by eapply Hv.
Qed.
Lemma return_moved m ret s p : (∀ r, SysRet m = Some r → valid_ref r) → ps_err p = false → post_numbered f (ps_next p) (option_list (rid <$> ret)) →
  match ret, SysRet m with
  | None, None => true
  | Some x, Some r => same_head r DirOut (res_common x) && bool_decide (res_Res x = None ∧ OpDiv x = 0 ∧ OpAdd x = 0 ∧ res_Val x = 0)
  | _, _ => false
  end = true → make_return typeRefs (SysRet m) (set_s s p) = Ok (parsed_result f <$> ret, moved s (ps_vars p) (len (option_list (rid <$> ret))) [] p).
Proof.
  intros Hval He Hn Hret. destruct ret as [x|], (SysRet m) as [r|]; try done; [|cbn; by rewrite moved_start]. bools. match goal with Hc : _ ∧ _ ∧ _ ∧ _ |- _ => destruct Hc as (H1' & H2' & H3' & H4') end.
  cbn [fmap option_fmap option_map option_list] in *. apply numbered_single in Hn. destruct (Hval r eq_refl) as [Hr0 [t Et]]. unfold make_return. erewrite bind_Ok; [|unfold type_at; rewrite Et; reflexivity].
  unfold fresh_arg, mbind, parsing_bind, mret, parsing_ret. cbn. unfold parsed_result, set_uses, rename_result. cbn [res_common res_Res OpDiv OpAdd res_Val]. rewrite H1', H2', H3', H4'. cbn [fmap option_fmap option_map].
  rewrite (parsed_common f t DirOut (ps_next p)); [|done|by rewrite (self_ref r t); [|by split; [|exists t]|]|done]. unfold moved, set_next. cbn. by rewrite He, app_nil_r.
Qed.
(** The variable of the result is entered after the arguments. *)
Section ret_vars.
Context (ret : option ResultArg) (done args : list ResultArg) (ctx ctx2 : serializer) (Hb : ctx_bound ctx) (H0 : 0 ≤ sz_varSeq ctx) (Hstep : ctx_step done args (ret_ctx ret ctx) ctx2).
Context (Hfresh : ∀ x, ret = Some x → rid x ∉ rid <$> done ++ args).
Lemma ret_lookup x : ret = Some x → uses x ≠ ∅ → sz_vars ctx2 !! rid x = Some (sz_varSeq ctx) ∧ sz_varSeq ctx < sz_varSeq ctx2.
Proof.
  intros -> Hu. destruct Hstep as [_ Hsq Hold _]. specialize (Hfresh x eq_refl). rewrite fmap_app, not_elem_of_app in Hfresh. cbn [ret_ctx] in Hsq, Hold. rewrite decide_True in Hsq, Hold by done. cbn in Hsq, Hold.
  split; [|lia]. rewrite Hold by tauto. apply lookup_insert_eq.
Qed.
Lemma ret_ok : ctx_ok (done ++ args ++ option_list ret) ctx2.
Proof.
  pose proof ret_lookup as Hlook. destruct Hstep as [[H2 Hc] _ _ _]. split; [done|]. rewrite app_assoc. intros r0 [Hr0|Hr0]%elem_of_app Hu0; [by apply Hc|]. destruct ret as [x|]; [|by apply not_elem_of_nil in Hr0].
  apply list_elem_of_singleton in Hr0 as ->. destruct (Hlook x) as [Hx Hlt]; [done|done|]. exists (sz_varSeq ctx). split; [done|lia].
Qed.
Lemma ret_vars v : sz_varSeq ctx2 < 2 ^ 64 → vars_ok (done ++ args) ctx2 v →
  vars_ok (done ++ args ++ option_list ret) ctx2 (match ret with Some x => if decide (uses x ≠ ∅) then <[var_name (sz_varSeq ctx) := f (rid x)]> v else v | None => v end).
Proof.
  pose proof ret_lookup as Hlook. intros H64 Hv. rewrite app_assoc. destruct ret as [x|]; [|by rewrite app_nil_r]. destruct Hstep as [[H2 Hc] _ _ Hrange]. specialize (Hfresh x eq_refl). intros r0 k [Hr0|Hr0]%elem_of_app Hu0 Hk.
  - case_decide as Hu; [|by eapply Hv]. rewrite lookup_insert_ne; [by eapply Hv|]. assert (Hne : rid x ≠ rid r0) by (intros Heq; apply Hfresh; rewrite Heq; apply list_elem_of_fmap; eauto).
    destruct (Hc r0 Hr0 Hu0) as (k' & Hk' & Hlt). rewrite Hk in Hk'. injection Hk' as <-. destruct (Hlook x) as [_ Hlt']; [done|done|].
    intros Heq%var_name_inj; unfold in_u64; [|lia..]. cbn [ret_ctx] in Hrange. rewrite decide_True in Hrange by done. apply Hrange in Hk as [Hk|Hk]; [|cbn in Hk; lia].
    cbn in Hk. rewrite lookup_insert_ne in Hk by done. apply Hb in Hk. lia.
  - apply list_elem_of_singleton in Hr0 as ->. rewrite decide_True by done. destruct (Hlook x) as [Hx _]; [done|done|]. rewrite Hx in Hk. injection Hk as <-. apply lookup_insert_eq.
Qed.
End ret_vars.

Local Abbreviation parsedCall := (copy_call f (parsed_result f)).
Local Abbreviation parseCall := (parse_call target PtrSize typeRefs any DecodeB64 DecompressCheck Compress fuel strict unsafe).
Record call_step (c : Call) (done : list ResultArg) (ctx ctx' : serializer) : Prop := {
  cl_ok : ctx_ok (done ++ line_results c) ctx';
  cl_bound : ctx_bound ctx';
  cl_seq : sz_varSeq ctx' ≤ sz_varSeq ctx + len (line_results c)
}.
Definition call_line (line : list Z) : Prop := (10 ∉ line) ∧ (∃ ch s, line = ch :: s ∧ is_ident ch = true) ∧ last line = Some ")"%ch.
Lemma call_printed c m done ctx : Meta c = Some m → SyscallMap target !! Name m = Some m → fits_call target PtrSize typeRefs any DecompressCheck unsafe verbose c m = true →
  ctx_ok done ctx → ctx_bound ctx → scoped done (line_results c) → sz_varSeq ctx + len (line_results c) < 2 ^ 64 →
  ∃ line ctx', serialize_call typeRefs any EncodeB64 verbose false c ctx = Ret (line ++ [10], ctx') ∧ call_line line ∧ call_step c done ctx ctx' ∧
  ∀ p comments, ps_err p = false → ps_comment p = ""%string → vars_ok done ctx (ps_vars p) → post_numbered f (ps_next p) (call_posts c) →
  ∃ v, parseCall comments (set_s line p) = Ok ((parsedCall c, comments), moved [] v (len (call_posts c)) (links (line_results c)) p) ∧ vars_ok (done ++ line_results c) ctx' v.
Proof.
  intros Hm Hmap Hfit Hctx Hb Hsc Hseq. unfold fits_call in Hfit. bools. destruct (pe_calls _ _ _ _ _ _ E _ _ Hmap) as [Hvalid Hrvalid].
  unfold line_results in Hsc, Hseq. apply scoped_app in Hsc as [Hsc Hscr]. rewrite len_app in Hseq. assert (Hpos : 0 ≤ len (roots_results (Args c)) ∧ 0 ≤ len (option_list (CRet c))) by (unfold len; lia).
  assert (Hfresh : ∀ x, CRet c = Some x → rid x ∉ rid <$> done ++ roots_results (Args c)) by (intros x Hx; rewrite Hx in Hscr; apply Hscr).
  destruct (ret_ctx_ok (CRet c) done ctx Hctx Hb) as (Hctx1 & Hb1 & Hsq1 & Hv1); [intros x Hx; specialize (Hfresh x Hx); rewrite fmap_app, not_elem_of_app in Hfresh; tauto|]. set (ctx1 := ret_ctx (CRet c) ctx) in *.
  destruct (args_reads (Args c) (SysArgs m) done ctx1) as (u & ctx2 & (_ & Hs2 & Hst & Hgu) & Hargs); [done|done|done|done|done|lia|]. pose proof (cs_seq _ _ _ _ Hst) as Hsq2.
  set (name := bytes_of (Name m)) in *. set (k := ret_var (CRet c) ctx). set (q := serialize_props false (props_list (Props c))).
  assert (Hk : ∀ j, k = Some j → in_u64 j ∧ j = sz_varSeq ctx) by (intros j; unfold k, ret_var; destruct (CRet c) as [x|]; [destruct (decide (uses x ≠ ∅)); [|done]|done]; intros [= <-]; destruct Hctx; unfold in_u64; lia).
  exists (ret_text k ++ name ++ "("%ch :: u ++ ")"%ch :: q), ctx2. destruct (props_no_newline (Props c)) as [Hq1 Hq2]; [done|done|]. fold q in Hq1, Hq2.
  assert (Hname : name ≠ [] ∧ forallb is_ident name = true) by (match goal with Hi : identb name = true |- _ => unfold identb in Hi; bools; done end). split_and!.
  - unfold serialize_call. assert (Hpre : match CRet c with Some r => if decide (uses r ≠ ∅) then let '(id, ctx0) := allocVarID (rid r) ctx in (var_name id ++ text " = ", ctx0) else ([], ctx) | None => ([], ctx) end = (ret_text k, ctx1)).
    { unfold k, ctx1, ret_var, ret_ctx, ret_text. destruct (CRet c) as [x|]; [|done]. by destruct (decide (uses x ≠ ∅)). }
    rewrite Hpre, Hm. cbv iota beta. rewrite Hs2 by done. cbn [mbind outcome_bind]. unfold text at 1. fold name. fold q. do 2 f_equal. rewrite <-!app_assoc. cbn [app]. by rewrite <-!app_assoc.
  - split_and!.
    + rewrite !not_elem_of_app, !not_elem_of_cons, !not_elem_of_app, !not_elem_of_cons. split_and!; try done; [|apply ident_no_newline; tauto|destruct (decide (u = [])) as [->|]; [apply not_elem_of_nil|by apply Hgu]].
      unfold ret_text. destruct k as [j|]; [|apply not_elem_of_nil]. destruct (Hk j eq_refl) as [Hj _]. apply not_elem_of_app. split; [by apply ident_no_newline, var_name_ident|]. change (text " = ") with [" "%ch; "="%ch; " "%ch]. rewrite !not_elem_of_cons. split_and!; try done. apply not_elem_of_nil.
    + unfold ret_text. destruct k as [j|]; [by eexists _, _|]. cbn [app]. destruct Hname as [Hne Hid]. destruct name as [|ch s]; [done|]. cbn in Hid. bools. by eexists _, _.
    + replace (ret_text k ++ name ++ "("%ch :: u ++ ")"%ch :: q) with ((ret_text k ++ name ++ "("%ch :: u) ++ ")"%ch :: q) by (rewrite <-!app_assoc; cbn [app]; by rewrite <-?app_assoc). rewrite last_app_cons. exact Hq2.
  - constructor; unfold line_results; [eapply ret_ok; [apply Hctx|exact Hst|done]| |rewrite len_app; lia].
    intros x j Hj. apply (cs_range _ _ _ _ Hst) in Hj as [Hj|Hj]; [apply Hb1 in Hj; lia|destruct Hctx1; lia].
  - intros p comments He Hcom Hv Hn. unfold call_posts in Hn. apply post_numbered_app in Hn as [Hnr Hna]. unfold parse_call. rewrite name_at by (done || intros j Hj; by apply Hk). unfold name at 1. rewrite to_string_bytes, Hmap. erewrite bind_Ok; [|reflexivity].
    erewrite bind_Ok; [|by apply (return_moved m (CRet c))]. erewrite bind_Ok; [|reflexivity]. cbv zeta. rewrite <-(set_s_eta (moved _ _ _ _ _)). cbn [ps_s moved].
    assert (Htu : tight (u ++ ")"%ch :: q)) by (destruct (decide (u = [])) as [->|]; [done|by apply good_tight, Hgu]). erewrite bind_Ok; [|by apply Parse_tight].
    destruct (Hargs (moved (u ++ ")"%ch :: q) (ps_vars p) (len (option_list (rid <$> CRet c))) [] p) q []) as (v & Hr & Hva); [done|by apply Hv1|exact Hna|]. cbn [app] in Hr. rewrite set_s_moved in Hr |- *.
    erewrite bind_Ok; [|exact Hr]. rewrite moved_moved. cbn [app]. erewrite bind_Ok; [|rewrite <-(set_s_eta (moved _ _ _ _ _)); cbn [ps_s moved]; by apply Parse_at]. erewrite bind_Ok; [|reflexivity]. cbn [ps_s set_s].
    erewrite bind_Ok; [|by apply props_tail]. erewrite bind_Ok; [|reflexivity]. cbn [ps_s set_s]. rewrite bool_decide_eq_true_2 by done. cbv iota. erewrite bind_Ok; [|reflexivity]. cbv iota beta.
    assert (Hlen : length (parsed_arg <$> Args c) = length (SysArgs m)) by (rewrite length_fmap; by eapply (fits_fields_drop _ _ DirIn 0)). rewrite Hlen, drop_all. cbn [missing_args]. erewrite bind_Ok; [|reflexivity]. rewrite app_nil_r, Hlen.
    rewrite decide_False by (intros Hx; by apply Hx).
    exists (match CRet c with Some x => if decide (uses x ≠ ∅) then <[var_name (sz_varSeq ctx) := f (rid x)]> v else v | None => v end). split; [|eapply ret_vars; [done|apply Hctx|exact Hst|done|lia|done]].
    assert (Hlinks : links (line_results c) = links (roots_results (Args c))).
    { unfold line_results. rewrite links_app. destruct (CRet c) as [x|]; [|by rewrite app_nil_r]. destruct (SysRet m); [|done]. bools. unfold links at 2. cbn. match goal with Hx : _ ∧ _ ∧ _ ∧ _ |- _ => destruct Hx as (-> & _) end. by rewrite app_nil_r. }
    assert (Hset : (match parsed_result f <$> CRet c with Some x => if decide (ret_name k ≠ []) then update_state (set_var (ret_name k) (rid x)) else mret tt | None => mret tt end)
      (set_s [] (moved (")"%ch :: q) v (len (option_list (rid <$> CRet c)) + len (posts (Args c))) (links (roots_results (Args c))) p))
      = Ok (tt, moved [] (match CRet c with Some x => if decide (uses x ≠ ∅) then <[var_name (sz_varSeq ctx) := f (rid x)]> v else v | None => v end) (len (call_posts c)) (links (line_results c)) p)).
    { rewrite Hlinks. unfold call_posts. rewrite len_app. unfold k, ret_var. destruct (CRet c) as [x|]; [|done]. cbn [fmap option_fmap option_map]. by destruct (decide (uses x ≠ ∅)). }
    erewrite bind_Ok; [|exact Hset]. erewrite bind_Ok; [|reflexivity]. unfold mret, parsing_ret, copy_call. rewrite Hm. cbn [ps_comment moved]. unfold set_comment, moved. cbn. rewrite Hcom. done.
Qed.

(** ** Programs *)

Lemma cut_line_at line more : 10 ∉ line → cut_line (line ++ 10 :: more) = (line, more).
Proof. induction line as [|c line IH]; intros Hl; [done|]. apply not_elem_of_cons in Hl as [Hc Hl]. cbn [app cut_line]. rewrite decide_False by done. by rewrite IH. Qed.
Lemma Scan_at line more p : ps_err p = false → call_line line → Scan (line ++ 10 :: more) p = Ok (Some more, set_s line p).
Proof.
  intros He (Hnl & (ch & s & El & Hid) & Hlast). unfold Scan. rewrite decide_False, cut_line_at by (done || (intros [Hx|Hx]; [congruence|by destruct line])).
  assert (Ht : drop_while is_blank line = line) by (apply tight_drop; rewrite El; apply (ident_tight [ch] s); [done|]; cbn; by rewrite Hid).
  rewrite Ht. unfold drop_while_end. assert (Hrev : ∃ r, reverse line = ")"%ch :: r) by (destruct (reverse line) as [|c0 r] eqn:Er; [by rewrite <-head_reverse, Er in Hlast|rewrite <-head_reverse, Er in Hlast; injection Hlast as ->; eauto]).
  destruct Hrev as [r Er]. rewrite Er. change (drop_while _ (")"%ch :: r)) with (")"%ch :: r). by rewrite <-Er, reverse_involutive.
Qed.
Fixpoint scoped_calls (done : list ResultArg) (l : list Call) : Prop :=
  match l with [] => True | c :: l => scoped done (line_results c) ∧ scoped_calls (done ++ line_results c) l end.
Definition calls_results (l : list Call) : list ResultArg := concat (line_results <$> l).
Definition calls_posts (l : list Call) : list argid := concat (call_posts <$> l).
Definition call_fits (c : Call) : Prop := ∃ m, Meta c = Some m ∧ SyscallMap target !! Name m = Some m ∧ fits_call target PtrSize typeRefs any DecompressCheck unsafe verbose c m = true.
Local Abbreviation parseLines := (parse_lines target PtrSize typeRefs any DecodeB64 DecompressCheck Compress fuel strict unsafe).
(** A line of the text starts with the variable, if there is one, and the name. *)
Definition unlines (lines : list (list Z)) : list Z := concat ((λ ln, ln ++ [10]) <$> lines).
Definition named_line (c : Call) (ln : list Z) : Prop :=
  (10 ∉ ln) ∧ ∃ m pre rest, Meta c = Some m ∧ ln = pre ++ text (Name m) ++ "("%ch :: rest ∧ identb (text (Name m)) = true ∧ (pre = [] ∨ ∃ k, 0 ≤ k ∧ pre = var_name k ++ text " = ").
Lemma call_named c m ctx ctx' line : Meta c = Some m → fits_call target PtrSize typeRefs any DecompressCheck unsafe verbose c m = true → 0 ≤ sz_varSeq ctx → 10 ∉ line →
  serialize_call typeRefs any EncodeB64 verbose false c ctx = Ret (line ++ [10], ctx') → named_line c line.
Proof.
  intros Hm Hfit Hk Hnl. unfold fits_call in Hfit. bools. unfold serialize_call. rewrite Hm.
  assert (Ht : ∃ t1 ctx1, (match CRet c with
    | Some r => if decide (uses r ≠ ∅) then let '(id, ctx) := allocVarID (rid r) ctx in (var_name id ++ text " = ", ctx) else ([], ctx)
    | None => ([], ctx) end) = (t1, ctx1) ∧ (t1 = [] ∨ ∃ k, 0 ≤ k ∧ t1 = var_name k ++ text " = ")).
  { destruct (CRet c) as [r|]; [destruct (decide (uses r ≠ ∅))|]; [unfold allocVarID|..]; eexists _, _; (split; [reflexivity|]); [right; exists (sz_varSeq ctx); done|by left|by left]. }
  destruct Ht as (t1 & ctx1 & -> & Ht1). cbv iota beta. destruct (serialize_elements _ _ _ _ _ _) as [[t2 ctx2]|]; [|done]. cbn [mbind outcome_bind]. generalize (serialize_props false (props_list (Props c))). intros q Heq.
  apply (f_equal (λ o : outcome (list Z * serializer), match o with Ret x => x.1 | Panic => [] end)) in Heq. cbn [fst] in Heq.
  assert (Hl : (t1 ++ text (Name m) ++ "("%ch :: t2 ++ ")"%ch :: q) ++ [10] = line ++ [10]) by (rewrite <-Heq, <-!app_assoc; cbn [app]; by rewrite <-app_assoc).
  apply app_inj_tail in Hl as [<- _]. split; [done|]. exists m, t1. eexists. done.
Qed.
Lemma calls_printed l : ∀ done ctx, Forall call_fits l → ctx_ok done ctx → ctx_bound ctx → scoped_calls done l → sz_varSeq ctx + len (calls_results l) < 2 ^ 64 →
  ∃ txt ctx', print_calls typeRefs any EncodeB64 verbose false (Some <$> l) ctx = Ret (txt, ctx') ∧
  (∃ lines, txt = unlines lines ∧ Forall2 named_line l lines) ∧
  ∀ n p calls, ps_err p = false → ps_comment p = ""%string → vars_ok done ctx (ps_vars p) → post_numbered f (ps_next p) (calls_posts l) → (length txt < n)%nat →
  ∃ p', parseLines n txt calls [] p = Ok ((calls ++ (Some <$> (parsedCall <$> l)), []), p') ∧ ps_err p' = false ∧ ps_uses p' = ps_uses p ++ links (calls_results l)
    ∧ ps_autos p' = ps_autos p.
Proof.
  induction l as [|c l IH]; intros done ctx Hfit Hctx Hb Hsc Hseq.
  - exists [], ctx. split_and!; [done|by exists []|]. intros n p calls He Hcom Hv Hn Hlen. destruct n as [|n]; [lia|]. exists p. cbn [parse_lines]. split_and!; [|done|by rewrite app_nil_r|done]. erewrite bind_Ok; [|unfold Scan; rewrite decide_True by (by right); reflexivity]. cbv iota beta. erewrite bind_Ok; [|reflexivity].
    cbn. unfold add_comment. rewrite Hcom, decide_True by done. by rewrite app_nil_r.
  - apply Forall_cons in Hfit as [(m & Hm & Hmap & Hcf) Hfit]. destruct Hsc as [Hsc1 Hsc2]. change (calls_results (c :: l)) with (line_results c ++ calls_results l) in *. rewrite len_app in Hseq.
    assert (Hpos : 0 ≤ len (calls_results l) ∧ 0 ≤ len (line_results c)) by (unfold len; lia).
    destruct (call_printed c m done ctx) as (line & ctx1 & Hs1 & Hline & [Hok1 Hb1 Hsq1] & Hread1); [done..|lia|].
    destruct (IH (done ++ line_results c) ctx1) as (txt & ctx2 & Hs2 & (lines & Htxt & Hlines) & Hread2); [done..|lia|]. exists ((line ++ [10]) ++ txt), ctx2. split_and!.
    + cbn [fmap list_fmap print_calls]. rewrite Hs1. cbn [mbind outcome_bind]. rewrite Hs2. done.
    + exists (line :: lines). split; [by rewrite Htxt|]. constructor; [|done]. eapply call_named; [done|done|apply Hctx|apply Hline|done].
    + intros n p calls He Hcom Hv Hn Hlen. destruct n as [|n]; [lia|]. rewrite <-app_assoc in *. cbn [app] in *. change (calls_posts (c :: l)) with (call_posts c ++ calls_posts l) in Hn. apply post_numbered_app in Hn as [Hn1 Hn2].
      destruct (Hread1 p [] He Hcom Hv Hn1) as (v & Hr1 & Hv1). destruct Hline as (Hnl & (ch & s & El & Hid) & Hlast).
      destruct (Hread2 n (moved [] v (len (call_posts c)) (links (line_results c)) p) (calls ++ [Some (parsedCall c)])) as (p' & Hr2 & He2 & Hu2 & Ha2); [done|done|done|exact Hn2|rewrite length_app in Hlen; cbn [length] in Hlen; lia|].
      exists p'. split_and!; [|done|by rewrite Hu2, links_app, app_assoc|done]. cbn [parse_lines]. erewrite bind_Ok; [|apply Scan_at; [done|]; split_and!; [done|by exists ch, s|done]]. cbv iota beta. erewrite bind_Ok; [|reflexivity]. cbn [ps_s set_s].
      rewrite El. rewrite bool_decide_eq_false_2 by done. erewrite bind_Ok; [|reflexivity]. cbv iota. erewrite bind_Ok; [|by apply Char_at]. rewrite decide_False by (intros ->; done). rewrite <-El. erewrite bind_Ok; [|exact Hr1]. cbv iota beta.
      rewrite Hr2. rewrite <-app_assoc. done.
Qed.

(** ** The [uses] maps *)

Lemma elem_of_links rs y u : (y, u) ∈ links rs ↔ ∃ r x, r ∈ rs ∧ res_Res r = Some x ∧ y = f x ∧ u = f (rid r).
Proof.
  unfold links. rewrite list_elem_of_omap. split.
  - intros (r & Hr & Hy). destruct (res_Res r) as [x|] eqn:Ex; [|done]. injection Hy as <- <-. exists r, x. done.
  - intros (r & x & Hr & Hx & -> & ->). exists r. rewrite Hx. done.
Qed.
Lemma linked_result rs r : (∀ r1 x, r1 ∈ rs → res_Res r1 = Some x → f x = f (rid r) → x = rid r) → uses r = users rs (rid r) →
  set_uses (parsed_result f r) (used_by (links rs) (rid (parsed_result f r))) = rename_result f r.
Proof.
  intros Hinj Hu. change (rid (parsed_result f r)) with (f (rid r)). unfold set_uses, parsed_result, rename_result. cbn [res_common res_Res OpDiv OpAdd res_Val]. f_equal. rewrite Hu. apply set_eq. intros u. unfold used_by. rewrite elem_of_list_to_set, elem_of_map, list_elem_of_fmap. split.
  - intros ([y u'] & -> & [Hy Hin]%list_elem_of_filter). cbn in *. subst y. apply elem_of_links in Hin as (r1 & x & Hr1 & Hx & Hfx & ->). exists (rid r1). split; [done|]. apply elem_of_users. exists r1. split_and!; [done|done|]. rewrite Hx. f_equal. by eapply Hinj.
  - intros (y & -> & (r1 & Hr1 & <- & Hx)%elem_of_users). exists (f (rid r), f (rid r1)). split; [done|]. apply list_elem_of_filter. split; [done|]. apply elem_of_links. by exists r1, (rid r).
Qed.
End roundtrip.

(** ** Where a program stands in the order of parsing *)

Fixpoint place_of (l : list argid) (x : argid) : Z := match l with [] => 0 | y :: l => if decide (x = y) then 0 else 1 + place_of l x end.
Definition post_number (n : argid) (l : list Call) (x : argid) : argid := n + place_of (calls_posts l) x.
Lemma position_numbered n l : NoDup l → post_numbered (λ x, n + place_of l x) n l.
Proof.
  intros Hl k x Hk. f_equal. revert k Hk. induction Hl as [|y l Hy Hl IH]; intros k Hk; [done|]. destruct k as [|k]; cbn in Hk |- *; [injection Hk as ->; by rewrite decide_True|].
  rewrite decide_False; [rewrite (IH k) by done; lia|]. intros ->. apply Hy. by eapply list_elem_of_lookup_2.
Qed.
Lemma numbered_inj f n l x y : post_numbered f n l → x ∈ l → y ∈ l → f x = f y → x = y.
Proof. intros Hn [i Hi]%list_elem_of_lookup [j Hj]%list_elem_of_lookup Hf. rewrite (Hn i x), (Hn j y) in Hf by done. assert (i = j) as -> by lia. congruence. Qed.
Lemma post_ids_perm a : post_ids a ≡ₚ arg_ids a.
Proof.
  induction a as [c v|c ad v x Hx|c d s|c l Hl|c o i t Ho|r] using Arg_nested_ind; cbn [post_ids arg_ids]; try done.
  - destruct x as [x|]; [|done]. cbn in Hx. rewrite Hx. by rewrite Permutation_app_comm.
  - rewrite Permutation_app_comm. cbn. constructor. induction Hl as [|x l Hx Hl IH]; [done|]. cbn. by rewrite Hx, IH.
  - rewrite Ho. by rewrite Permutation_app_comm.
Qed.
Lemma posts_perm l : posts l ≡ₚ roots_ids l.
Proof. induction l as [|a l IH]; [done|]. cbn. by rewrite post_ids_perm, IH. Qed.
Lemma call_posts_perm c : call_posts c ≡ₚ roots_ids (call_roots c).
Proof. unfold call_posts, call_roots. rewrite roots_ids_app, posts_perm. by destruct (CRet c). Qed.
Lemma calls_posts_perm l : calls_posts l ≡ₚ roots_ids (calls_roots (Some <$> l)).
Proof. induction l as [|c l IH]; [done|]. change (calls_roots (Some <$> (c :: l))) with (call_roots c ++ calls_roots (Some <$> l)). rewrite roots_ids_app. cbn. by rewrite call_posts_perm, IH. Qed.
Lemma call_results_perm c : line_results c ≡ₚ roots_results (call_roots c).
Proof. unfold line_results, call_roots. rewrite roots_results_app, Permutation_app_comm. by destruct (CRet c). Qed.
Lemma calls_results_perm l : calls_results l ≡ₚ roots_results (calls_roots (Some <$> l)).
Proof. induction l as [|c l IH]; [done|]. change (calls_roots (Some <$> (c :: l))) with (call_roots c ++ calls_roots (Some <$> l)). rewrite roots_results_app. cbn. by rewrite call_results_perm, IH. Qed.

(** ** References are to results that were read before *)

Lemma scoped_intro seen rs : (∀ l1 r l2, rs = l1 ++ r :: l2 → (∀ x, res_Res r = Some x → ∃ r0, r0 ∈ seen ++ l1 ∧ rid r0 = x ∧ uses r0 ≠ ∅) ∧ (rid r ∉ rid <$> seen ++ l1)) → scoped seen rs.
Proof.
  revert seen. induction rs as [|r rs IH]; intros seen H; [done|]. cbn [scoped]. destruct (H [] r rs eq_refl) as [H1 H2]. rewrite app_nil_r in H1, H2. split_and!; [done|done|]. apply IH. intros l1 r' l2 ->. rewrite <-app_assoc. by apply (H (r :: l1) r' l2).
Qed.
(** A call does not use its own result. *)
Definition no_self (c : Call) : bool :=
  match CRet c with Some x => forallb (λ r, negb (bool_decide (res_Res r = Some (rid x)))) (roots_results (Args c)) | None => true end.
Lemma no_self_spec c x r : no_self c = true → CRet c = Some x → r ∈ roots_results (Args c) → res_Res r ≠ Some (rid x).
Proof. unfold no_self. intros H Hx Hr. rewrite Hx, forallb_forall in H. specialize (H r ltac:(by apply list_elem_of_In)). by bools. Qed.
Lemma call_results_app prev c l : roots_results (calls_roots (Some <$> prev ++ c :: l)) =
  roots_results (calls_roots (Some <$> prev)) ++ (option_list (CRet c) ++ roots_results (Args c)) ++ roots_results (calls_roots (Some <$> l)).
Proof.
  rewrite fmap_app, calls_roots_app, roots_results_app. f_equal. change (calls_roots (Some <$> (c :: l))) with (call_roots c ++ calls_roots (Some <$> l)). rewrite roots_results_app. f_equal. unfold call_roots. rewrite roots_results_app. by destruct (CRet c).
Qed.
Lemma fresh_among (seen P l1 l2 : list ResultArg) r : NoDup (rid <$> P ++ l1 ++ r :: l2) → (∀ r0, r0 ∈ seen → r0 ∈ P) → rid r ∉ rid <$> seen ++ l1.
Proof.
  intros Hnd Hseen (r0 & Heq & Hin)%list_elem_of_fmap. rewrite app_assoc, fmap_app in Hnd. apply NoDup_app in Hnd as (_ & Hd & _). apply (Hd (rid r)); [|cbn; by left].
  rewrite Heq. apply list_elem_of_fmap. exists r0. split; [done|]. apply elem_of_app. apply elem_of_app in Hin as [Hin|Hin]; [left; by apply Hseen|by right].
Qed.
Lemma calls_scoped p prev l seen : graph_ok p → Calls p = Some <$> prev ++ l → (∀ r, r ∈ seen ↔ r ∈ roots_results (calls_roots (Some <$> prev))) →
  Forall (λ c, no_self c = true ∧ ∀ x, CRet c = Some x → res_Res x = None) l → scoped_calls seen l.
Proof.
  intros Hg. revert prev seen. induction l as [|c l IH]; intros prev seen Hcalls Hseen Hl; [done|]. apply Forall_cons in Hl as [[Hself Hret] Hl]. cbn [scoped_calls]. split.
  - assert (Hres : prog_results p = roots_results (calls_roots (Some <$> prev)) ++ (option_list (CRet c) ++ roots_results (Args c)) ++ roots_results (calls_roots (Some <$> l))) by (unfold prog_results; rewrite Hcalls; apply call_results_app).
    pose proof (graph_ok_NoDup p Hg) as Hnd. rewrite Hres in Hnd. set (P := roots_results (calls_roots (Some <$> prev))) in *. set (Q := roots_results (calls_roots (Some <$> l))) in *.
    unfold line_results. apply (proj2 (scoped_app _ _ _)). split; apply scoped_intro; intros l1 r l2 Hsplit.
    + rewrite Hsplit in Hres, Hnd. split.
      * intros x Hx. assert (Hord : prog_results p = (P ++ option_list (CRet c) ++ l1) ++ r :: (l2 ++ Q)) by (rewrite Hres, <-!app_assoc; done).
        pose proof (go_order p Hg _ _ _ x Hord Hx) as (r0 & -> & Hr0)%list_elem_of_fmap. exists r0. split_and!; [|done|].
        -- apply elem_of_app in Hr0 as [Hr0|[Hr0|Hr0]%elem_of_app]; [apply elem_of_app; left; by apply Hseen| |apply elem_of_app; by right]. exfalso. destruct (CRet c) as [y|] eqn:Ey; [|by apply not_elem_of_nil in Hr0].
           apply list_elem_of_singleton in Hr0 as ->. eapply (no_self_spec c); [done|done| |exact Hx]. rewrite Hsplit. apply elem_of_app. right. by left.
        -- rewrite (go_uses p Hg r0) by (rewrite Hord; apply elem_of_app; by left). intros Hemp. assert (Hin : rid r ∈ users (prog_results p) (rid r0)); [|rewrite Hemp in Hin; by apply not_elem_of_empty in Hin].
           apply elem_of_users. exists r. split_and!; [rewrite Hord; apply elem_of_app; right; by left|done|done].
      * apply (fresh_among seen (P ++ option_list (CRet c)) l1 (l2 ++ Q)); [rewrite <-!app_assoc in *; done|]. intros r0 Hr0%Hseen. apply elem_of_app. by left.
    + destruct (CRet c) as [y|] eqn:Ey; [|by destruct l1]. destruct l1 as [|? l1]; [|by destruct l1]. injection Hsplit as <- <-. split; [intros x Hx; by rewrite (Hret y eq_refl) in Hx|]. rewrite app_nil_r.
      assert (Hnd2 : NoDup (rid <$> (P ++ roots_results (Args c)) ++ [] ++ y :: Q)).
      { eapply NoDup_Permutation_proper; [|exact Hnd]. apply fmap_Permutation. cbn [app option_list]. rewrite <-!app_assoc. apply Permutation_app_head. rewrite (Permutation_middle (roots_results (Args c)) Q y). done. }
      pose proof (fresh_among (seen ++ roots_results (Args c)) (P ++ roots_results (Args c)) [] Q y Hnd2) as Hf. rewrite app_nil_r in Hf. apply Hf. intros r0 [Hr0|Hr0]%elem_of_app; apply elem_of_app; [left; by apply Hseen|by right].
  - apply (IH (prev ++ [c])); [by rewrite <-app_assoc| |done]. intros r. rewrite call_results_app. unfold line_results. rewrite !elem_of_app, Hseen. cbn. rewrite elem_of_nil. tauto.
Qed.

Lemma parsed_calls f l : Some <$> (copy_call f (parsed_result f) <$> l) = copy_calls f (parsed_result f) (Some <$> l).
Proof. unfold copy_calls. rewrite <-!list_fmap_compose. done. Qed.
Lemma call_fits_ret target PtrSize typeRefs any check unsafe verbose c : call_fits target PtrSize typeRefs any check unsafe verbose c → ∀ x, CRet c = Some x → res_Res x = None.
Proof.
  intros (m & _ & _ & Hf) x Hx. unfold fits_call in Hf. bools. rewrite Hx in *. destruct (SysRet m); [|done]. bools. tauto.
Qed.

(** Parsing what was printed.  The verbose form is read back in every mode, the
    short form, in which default values are left out, when the parser is not
    strict. *)
Lemma Serialize_parse (target : Target) (PtrSize : Z) (typeRefs : list Typ) (any : AnyTypes) (rank : Ref → nat)
    (EncodeB64 : list Z → list Z) (DecodeB64 : list Z → option (list Z)) (DecompressCheck : list Z → bool) (Compress : list Z → list Z)
    (fuel : nat) (strict unsafe verbose : bool) (p : Prog) (l : list Call) (n : argid)
    (Henv : parse_env target PtrSize typeRefs any rank fuel) (Himage : image_ok EncodeB64 DecodeB64) (Hmode : verbose = true ∨ strict = false)
    (Hgraph : graph_ok p) (Hcalls : Calls p = Some <$> l) (Hfit : Forall (call_fits target PtrSize typeRefs any DecompressCheck unsafe verbose) l)
    (Hself : forallb no_self l = true) (Hlen : len (prog_results p) < 2 ^ 64) :
  let f := post_number n l in
  ∃ txt s, Serialize typeRefs any EncodeB64 verbose false p = Ret txt
  ∧ parse_text target PtrSize typeRefs any DecodeB64 DecompressCheck Compress fuel strict unsafe txt n = Ok (mkProg (copy_calls f (rename_result f) (Calls p)) [] unsafe, s)
  ∧ ps_autos s = None ∧ ps_uses s = links f (calls_results l)
  ∧ (∃ lines, txt = unlines lines ∧ Forall2 named_line l lines)
  ∧ ∀ x y, x ∈ prog_ids p → y ∈ prog_ids p → f x = f y → x = y.
Proof.
  intros f. assert (Hperm : calls_posts l ≡ₚ prog_ids p) by (unfold prog_ids; rewrite Hcalls; apply calls_posts_perm).
  assert (Hnum : post_numbered f n (calls_posts l)) by (apply position_numbered; rewrite Hperm; apply Hgraph).
  assert (Hinj : ∀ x y, x ∈ prog_ids p → y ∈ prog_ids p → f x = f y → x = y) by (intros x y Hx Hy; rewrite <-Hperm in Hx, Hy; by eapply numbered_inj).
  assert (Hrs : calls_results l ≡ₚ prog_results p) by (unfold prog_results; rewrite Hcalls; apply calls_results_perm).
  assert (Hsc : scoped_calls [] l).
  { apply (calls_scoped p []); [done|done|done|]. apply Forall_forall. intros c Hc. rewrite forallb_forall in Hself. rewrite Forall_forall in Hfit. split; [by apply Hself, list_elem_of_In|]. eapply call_fits_ret. by apply Hfit. }
  destruct (calls_printed target PtrSize typeRefs any rank EncodeB64 DecodeB64 DecompressCheck Compress fuel strict unsafe verbose Henv f Himage Hmode l [] (mkSerializer ∅ 0)) as (txt & ctx & Hs & Hlines & Hr); [done|split; [done|]; intros r Hr; by apply not_elem_of_nil in Hr| |done| |].
  { intros x k Hk. cbn in Hk. by rewrite lookup_empty in Hk. }
  { cbn [sz_varSeq]. unfold len in *. rewrite Hrs. lia. }
  destruct (Hr (S (length txt)) (newParser n) []) as (s & Hparse & Herr & Huses & Hautos); [done|done|intros r k Hin; by apply not_elem_of_nil in Hin|exact Hnum|lia|].
  exists txt, s. split_and!; [unfold Serialize; rewrite Hcalls, Hs; done| |done|done|done|done].
  unfold parse_text, parseProg. erewrite bind_Ok; [|exact Hparse]. cbv iota beta. erewrite bind_Ok; [|reflexivity]. unfold mret, parsing_ret. rewrite Herr. do 4 f_equal. cbn [newParser ps_uses app] in Huses. rewrite Huses. cbn [app].
  rewrite parsed_calls. unfold link_calls. rewrite map_calls_copy, Hcalls. apply copy_calls_ext. intros r Hin. cbn [compose].
  assert (Hin' : r ∈ prog_results p) by (unfold prog_results; by rewrite Hcalls).
  apply linked_result.
  - intros r1 x Hr1 Hx Hf. apply Hinj; [|by apply result_id|done]. rewrite Hrs in Hr1. apply list_elem_of_lookup in Hr1 as [i Hi]. apply take_drop_middle in Hi.
    pose proof (go_order p Hgraph _ _ _ x (eq_sym Hi) Hx) as (r2 & -> & Hr2)%list_elem_of_fmap. apply result_id. rewrite <-Hi. apply elem_of_app. by left.
  - rewrite (go_uses p Hgraph r Hin'). apply set_eq. intros u. rewrite !elem_of_users. by setoid_rewrite Hrs.
Qed.

(** ** Witness *)

(** [r0 = open(&./file0, 0x42)] and [write] of the result with a structure whose
    last fields are default. *)
Definition tx_fd (id : argid) (d : Dir) (res : option argid) (u : list argid) : ResultArg := mkResultArg (mkArgCommon id 1 d) res 0 0 0 (list_to_set u).
Definition tx_calls : list Call :=
  [ mkCall (Some tx_open) [ PointerArg (sx_arg 11 4) 64 0 (Some (DataArg (sx_arg 12 3) (bytes_of "./file0" ++ [0; 34; 10]) 0)); ConstArg (sx_arg 13 2) 66 ] (Some (tx_fd 10 DirOut None [20])) noProps "";
    mkCall (Some tx_write) [ AResult (tx_fd 20 DirIn (Some 10) []);
      PointerArg (sx_arg 21 6) 128 0 (Some (GroupArg (sx_arg 22 5) [ConstArg (sx_arg 23 2) 1; PointerArg (sx_arg 24 4) 0 0 (Some (DataArg (sx_arg 25 3) [255; 0] 0)); ConstArg (sx_arg 26 2) 0; ConstArg (sx_arg 27 2) 0])) ]
      None (mkCallProps 2 true 0) "" ].
Definition tx_prog : Prog := mkProg (Some <$> tx_calls) [] false.
(** An encoding that needs no quoting. *)
Definition tx_encode (d : list Z) : list Z := (λ z, 4 * z) <$> d.
Definition tx_decode (d : list Z) : option (list Z) := Some ((λ z, z / 4) <$> d).
Lemma tx_image : image_ok tx_encode tx_decode.
Proof.
  constructor.
  - intros d. unfold tx_decode, tx_encode. f_equal. rewrite <-list_fmap_compose. etrans; [|apply list_fmap_id]. apply list_fmap_ext. intros i x _. cbn. rewrite Z.mul_comm. by apply Z.div_mul.
  - intros d c (z & -> & _)%list_elem_of_fmap. unfold dquote. lia.
Qed.
