(* ===== verification/TextDeserialize.v ===== *)
(** * The text format of programs: from a text to a checked program
    (src/prog/encoding.go: Deserialize, fixupConditionals, fixupAutos, CallSet;
    src/prog/prog.go: sanitize)

    What the parser of [TextParse] returns is validated, open unions get a
    field, arguments marked AUTO a value, and the target's hook may neutralise
    or refuse calls. *)

From S2P Require Import Prelude Bits GoStrings Prog ForeachArg ArgGraph RemoveCall Sizes Conditions Defaults Validation RandGen Alloc Analysis.
From S2P Require Import Generate ExecVisits CondDefaults ValidRename TextLex TextSerialize TextParse TextRoundtrip.

(** ** Values for arguments marked AUTO *)

(** [ma] of the analysed program, the marks that are left, and what was written
    to constants and pointers. *)
Record auto_state := mkAutoState { au_autos : gset argid; au_ma : memAlloc; au_vals : gmap argid Z; au_addrs : gmap argid Z }.
Definition unmark (i : argid) (s : auto_state) : auto_state := mkAutoState (au_autos s ∖ {[i]}) (au_ma s) (au_vals s) (au_addrs s).
Definition write_val (i : argid) (v : Z) (s : auto_state) : auto_state := mkAutoState (au_autos s) (au_ma s) (<[i := v]> (au_vals s)) (au_addrs s).
Definition write_addr (i : argid) (v : Z) (ma : memAlloc) (s : auto_state) : auto_state := mkAutoState (au_autos s) ma (au_vals s) (<[i := v]> (au_addrs s)).
(** The addresses written. *)
Fixpoint set_addrs (w : gmap argid Z) (a : Arg) : Arg :=
  match a with
  | PointerArg c addr vma r => PointerArg c (default addr (w !! arg_id c)) vma (match r with Some x => Some (set_addrs w x) | None => None end)
  | GroupArg c l => GroupArg c (set_addrs w <$> l)
  | UnionArg c o i t => UnionArg c (set_addrs w o) i t
  | _ => a
  end.

Section deserialize.
Context (target : Target) (PtrSize : Z) (typeRefs : list Typ) (any : AnyTypes).
Context (DecodeB64 : list Z → option (list Z)) (DecompressCheck : list Z → bool) (Compress : list Z → list Z).
(** The target's hook for a call of a program: [None] is an error.  [fuel]
    bounds default arguments, [rounds] the replacement of open unions, whose map is
    iterated in [order]. *)
Context (Neutralize : Prog → nat → bool → outcome (option Prog)).
Context (fuel rounds : nat) (order : list (stale_union * Arg) → list (stale_union * Arg)).

(** The callback of fixupAutos. *)
Definition fixup_auto (a : Arg) : parsing auto_state unit :=
  s ← get_state;
  if decide (aid a ∉ au_autos s) then mret tt
  else
    update_state (unmark (aid a));;
    t ← of_outcome (TypeOf typeRefs a);
    match t, a with
    | ConstType _ v _, ConstArg c _ => update_state (write_val (arg_id c) v)
    | PtrType _ _ _ _, PointerArg c _ _ (Some r) =>
        size ← of_outcome (ArgSize typeRefs r);
        rt ← of_outcome (TypeOf typeRefs r);
        '(addr, ma) ← of_fueled (ma_alloc 1 (au_ma s) size (TypeAlign (type_common rt)));
        update_state (write_addr (arg_id c) addr ma)
    | CsumType _ _ _ _, _ => mret tt
    | _, _ => of_outcome Panic
    end.
Fixpoint fixup_args (l : list ArgVisit) : parsing auto_state unit :=
  match l with
  | [] => mret tt
  | v :: l => fixup_auto (v_arg v);; fixup_args l
  end.
Definition set_autos (autos : gset argid) (s : auto_state) : auto_state := mkAutoState autos (au_ma s) ∅ ∅.
Definition fixup_call (c : Call) : parsing auto_state Call :=
  match Meta c with
  | None => of_outcome Panic
  | Some m =>
      s ← get_state;
      '(args, autos) ← of_outcome (assignSizesArray typeRefs any (Args c) (SysArgs m) (Some (au_autos s)));
      update_state (set_autos (default ∅ autos));;
      vs ← of_outcome (ForeachArg typeRefs (with_args c args));
      fixup_args vs;;
      s ← get_state;
      mret (with_args c (set_addrs (au_addrs s) <$> (set_vals (au_vals s) <$> args)))
  end.
Fixpoint fixup_calls (l : list (option Call)) : parsing auto_state (list (option Call)) :=
  match l with
  | [] => mret []
  | None :: _ => of_outcome Panic
  | Some c :: l => c ← fixup_call c; l ← fixup_calls l; mret (Some c :: l)
  end.
(** A mark that is left is a panic. *)
Definition fixupAutos (autos : gset argid) (p : Prog) : result Prog :=
  match analyze target typeRefs p None with
  | Panic => Panicked
  | Ret st =>
      match fixup_calls (Calls p) (mkAutoState autos (st_ma st) ∅ ∅) with
      | Ok (l, s) => if decide (au_autos s = ∅) then Ok (set_calls p l) else Panicked
      | Bad => Bad
      | Panicked => Panicked
      | NoFuel => NoFuel
      end
  end.

(** ** Open unions *)

Fixpoint fixup_conditions (n i : nat) (p : Prog) : outcome (option Prog) :=
  match n with
  | O => Ret (Some p)
  | S n =>
      r ← setDefaultConditions typeRefs any fuel order rounds true p i;
      match r with None => Ret None | Some (p, _) => fixup_conditions n (S i) p end
  end.
Definition fixupConditionals (p : Prog) : outcome (option Prog) := fixup_conditions (length (Calls p)) 0 p.

(** ** The hook of the target *)

Fixpoint sanitize_from (n i : nat) (fix_ : bool) (p : Prog) : outcome (option Prog) :=
  match n with
  | O => Ret (Some p)
  | S n =>
      r ← Neutralize p i fix_;
      match r with None => Ret None | Some p => sanitize_from n (S i) fix_ p end
  end.
Definition sanitize (fix_ : bool) (p : Prog) : outcome (option Prog) := sanitize_from (length (Calls p)) 0 fix_ p.

(** ** Deserialize *)

Inductive DeserializeMode := Strict | NonStrict | StrictUnsafe | NonStrictUnsafe.
Definition mode_strict (m : DeserializeMode) : bool := match m with Strict | StrictUnsafe => true | _ => false end.
Definition mode_unsafe (m : DeserializeMode) : bool := match m with StrictUnsafe | NonStrictUnsafe => true | _ => false end.
(** Users of results that were parsed but are not part of the program. *)
Definition dropped_users (links : list (argid * argid)) (p : Prog) : heap :=
  list_to_map ((λ l : argid * argid, (l.2, mkResultArg (mkArgCommon l.2 0 DirIn) (Some l.1) 0 0 0 ∅)) <$> filter (λ l, l.2 ∉ prog_ids p) links).
Definition finish_text (mode : DeserializeMode) (p : Prog) : result Prog :=
  if mode_unsafe mode then Ok p
  else
    match sanitize (negb (mode_strict mode)) p with
    | Ret (Some p) => Ok p
    | Ret None => Bad
    | Panic => Panicked
    end.
Definition Deserialize (mode : DeserializeMode) (data : list Z) (n : argid) : result Prog :=
  match parse_text target PtrSize typeRefs any DecodeB64 DecompressCheck Compress fuel (mode_strict mode) (mode_unsafe mode) data n with
  | Ok (prog, s) =>
      match validateWithOpts target typeRefs any (dropped_users (ps_uses s) prog) true prog with
      | Panic => Panicked
      | Ret (Some _) => Bad
      | Ret None =>
          match fixupConditionals prog with
          | Panic => Panicked
          | Ret None => NoFuel
          | Ret (Some prog) =>
              match ps_autos s with
              | None => finish_text mode prog
              | Some autos =>
                  match fixupAutos autos prog with
                  | Ok prog => finish_text mode prog
                  | r => r
                  end
              end
          end
      end
  | Bad => Bad
  | Panicked => Panicked
  | NoFuel => NoFuel
  end.
End deserialize.

(** ** Examples: a text whose array is longer than its type *)

Definition dz_types : list Typ :=
  [ VmaType (sx_common "vma" 8 false 0) 0 0;
    ConstType (sx_int "const" 1) 7 false;
    ArrayType (sx_common "array" 8 false 2) 1 ArrayRangeLen 2 2;
    PtrType (sx_common "ptr" 8 false 3) 2 DirIn false ].
Definition dz_f : Syscall := gx_call 0 "f" [3] None.
Definition dz_target : Target := mkTarget 4096 4096 536870912 [dz_f] {["f"%string := dz_f]} ∅ [0; 2 ^ 64 - 1].
Definition dz_read (mode : DeserializeMode) (s : string) : result Prog :=
  Deserialize dz_target 8 dz_types (mkAnyTypes 90 91 92) Some (λ _, true) (λ d, d) (λ p _ _, Ret (Some p)) 3 1 (λ l, l) mode (bytes_of s) 1.
(** The elements marked AUTO get the value of their type. *)
Example autos_filled :
  dz_read Strict "f(&AUTO=[AUTO, AUTO])" =
  Ok (mkProg [Some (mkCall (Some dz_f) [PointerArg (sx_arg 4 3) 64 0 (Some (GroupArg (sx_arg 3 2) [ConstArg (sx_arg 1 1) 7; ConstArg (sx_arg 2 1) 7]))] None noProps "")] [] false).
Proof. vm_compute. reflexivity. Qed.
(** An element too many is dropped without an error, also in strict mode; if it
    is marked AUTO, the mark is left and the function panics. *)
Definition dz_consts (r : result Prog) : option (list Z) :=
  match r with Ok p => Some (omap (λ a, match a with ConstArg _ v => Some v | _ => None end) (roots_subs (calls_roots (Calls p)))) | _ => None end.
Lemma excess_elements :
  dz_consts (dz_read Strict "f(&AUTO=[AUTO, AUTO, 0x8])") = Some [7; 7]
  ∧ dz_read Strict "f(&AUTO=[AUTO, AUTO, AUTO])" = Panicked.
Proof. split; vm_compute; reflexivity. Qed.

(** ** Nothing to fix *)

Lemma refresh_same p : NoDup (rid <$> prog_results p) → refresh_calls (objects p) (Calls p) = Calls p.
Proof.
  intros Hn. unfold refresh_calls. rewrite (map_calls_results_ext _ (λ r, r)); [apply map_calls_results_id|]. intros r Hr.
  unfold current, objects. rewrite (elem_of_list_to_map_1 _ (rid r) r); [done|by rewrite <-list_fmap_compose|]. apply list_elem_of_fmap. eauto.
Qed.

Section unchanged.
Context (target : Target) (typeRefs : list Typ) (any : AnyTypes) (fuel rounds : nat) (order : list (stale_union * Arg) → list (stale_union * Arg)).
Lemma setDefaultConditions_same p i c : NoDup (rid <$> prog_results p) → Calls p !! i = Some (Some c) → stale_round typeRefs any true (Args c) = Ret [] →
  setDefaultConditions typeRefs any fuel order (S rounds) true p i = Ret (Some (p, false)).
Proof.
  intros Hn Hc Hs. unfold setDefaultConditions. rewrite Hc. cbn [default_loop pt_args]. rewrite Hs. cbn [mbind outcome_bind]. rewrite decide_True by done. cbn [mbind outcome_bind pt_args pt_heap]. do 3 f_equal.
  assert (Hw : with_args c (Args c) = c) by by destruct c. rewrite Hw, list_insert_id, refresh_same by done. by destruct p.
Qed.
Lemma fixupConditionals_same p : NoDup (rid <$> prog_results p) → Forall (λ c, ∃ k, c = Some k ∧ stale_round typeRefs any true (Args k) = Ret []) (Calls p) →
  fixupConditionals typeRefs any fuel (S rounds) order p = Ret (Some p).
Proof.
  intros Hn Hall. unfold fixupConditionals. assert (H : ∀ n i, (n + i = length (Calls p))%nat → fixup_conditions typeRefs any fuel (S rounds) order n i p = Ret (Some p)); [|apply H; lia].
  induction n as [|n IH]; intros i Hi; [done|]. cbn [fixup_conditions]. destruct (lookup_lt_is_Some_2 (Calls p) i) as [x Hx]; [lia|]. destruct (Forall_lookup_1 _ _ _ _ Hall Hx) as (k & -> & Hs).
  rewrite (setDefaultConditions_same p i k) by done. cbn [mbind outcome_bind]. apply IH. lia.
Qed.
Lemma open_subargs a c o i : UnionArg c o i true ∈ arg_subs a → ref c ∈ open_unions a.
Proof.
  induction a as [c' v|c' ad v r Hr|c' d s|c' l Hl|c' o' i' t Ho|r] using Arg_nested_ind; cbn [arg_subs open_unions]; intros H.
  - apply list_elem_of_singleton in H. done.
  - destruct r as [x|]; apply elem_of_cons in H as [H|H]; [done|by apply Hr|done|by apply not_elem_of_nil in H].
  - apply list_elem_of_singleton in H. done.
  - apply elem_of_cons in H as [H|H]; [done|]. induction Hl as [|x l Hx Hl IH]; [by apply not_elem_of_nil in H|]. cbn [fmap list_fmap concat] in *. apply elem_of_app. apply elem_of_app in H as [H|H]; [left; by apply Hx|right; by apply IH].
  - apply elem_of_app. apply elem_of_cons in H as [[= -> -> -> <-]|H]; [left; by left|right; by apply Ho].
  - apply list_elem_of_singleton in H. done.
Qed.
Lemma closed_round args l : roots_open args = [] → stale_args typeRefs any args = Ret l → stale_round typeRefs any true args = Ret [].
Proof.
  intros Ho El. unfold stale_round. rewrite El. cbn [mbind outcome_bind]. f_equal. match goal with |- ?k = [] => destruct k as [|s r] eqn:Ef; [done|exfalso] end.
  assert (Hf : s ∈ s :: r) by by left. rewrite <-Ef in Hf. apply list_elem_of_filter in Hf as [Ht Hs]. destruct (stale_args_elem _ _ _ _ _ El Hs) as (Hin & c & o & i & tc & fields & [Ea _ _ _ _ _ _]).
  rewrite Ea in Hin. destruct (st_transient s); [|done]. unfold roots_subs in Hin. apply elem_of_concat in Hin as (subs & Hin & (a & -> & Ha)%list_elem_of_fmap). apply open_subargs in Hin.
  assert (Hbad : ref c ∈ roots_open args) by (unfold roots_open; apply elem_of_concat; exists (open_unions a); split; [done|]; apply list_elem_of_fmap; eauto). rewrite Ho in Hbad. by apply not_elem_of_nil in Hbad.
Qed.
Lemma valid_stale unsafe ig mem l : ∀ ctx ctx1, validate_calls target typeRefs any unsafe ig mem l ctx = Ret (inr ctx1) → Forall (λ c, ∃ k s, c = Some k ∧ stale_args typeRefs any (Args k) = Ret s) l.
Proof.
  induction l as [|[c|] l IH]; intros ctx ctx1 E; cbn [validate_calls] in E; [constructor| |done]. destruct (Meta c) as [m|]; [|done]. apply check_bind_inr in E as (c1 & E1 & E2). constructor; [|by eapply IH].
  unfold validateCall in E1. inv_check E1. apply lift_inr in E0. unfold checkConditions, forEachStaleUnion in E0. exists c. destruct (stale_args typeRefs any (Args c)) as [s|]; [eauto|done].
Qed.
End unchanged.

(** ** The calls of a text *)

(** CallSet; [None] is an error.  Every turn takes a byte. *)
Definition line_call (ln : list Z) : option (list Z) :=
  match list_find (λ c, c = "("%ch) ln with
  | None => None
  | Some (bracket, _) =>
      let call := take bracket ln in
      let call := match list_find (λ c, c = "="%ch) call with
                  | None => call
                  | Some (eq, _) => drop_while (λ c, bool_decide (c = " "%ch)) (drop (S eq) call)
                  end in
      if decide (call = []) then None else Some call
  end.
Fixpoint call_set_lines (n : nat) (data : list Z) (calls : gset (list Z)) (ncalls : Z) : option (gset (list Z) * Z) :=
  match n, data with
  | _, [] => Some (calls, ncalls)
  | O, _ => None
  | S n, _ =>
      let '(ln, data) := cut_line data in
      match ln with
      | [] => call_set_lines n data calls ncalls
      | c :: _ =>
          if decide (c = "#"%ch) then call_set_lines n data calls ncalls
          else match line_call ln with None => None | Some call => call_set_lines n data ({[call]} ∪ calls) (ncalls + 1) end
      end
  end.
Definition CallSet (data : list Z) : option (gset (list Z) * Z) :=
  match call_set_lines (length data) data ∅ 0 with
  | Some (calls, ncalls) => if decide (calls = ∅) then None else Some (calls, ncalls)
  | None => None
  end.

Lemma list_find_stop (ch : Z) l rest : ch ∉ l → list_find (λ c, c = ch) (l ++ ch :: rest) = Some (length l, ch).
Proof.
  induction l as [|c l IH]; intros H; cbn [app list_find]; [by rewrite decide_True|]. apply not_elem_of_cons in H as [H1 H2]. rewrite decide_False by done. by rewrite IH.
Qed.
Lemma list_find_absent (ch : Z) l : ch ∉ l → list_find (λ c, c = ch) l = None.
Proof. intros H. apply list_find_None, Forall_forall. intros x Hx ->. done. Qed.
Lemma ident_not (l : list Z) ch : forallb is_ident l = true → is_ident ch = false → ch ∉ l.
Proof. intros Hl Hc Hin. rewrite forallb_forall in Hl. apply list_elem_of_In, Hl in Hin. congruence. Qed.
Lemma line_call_named c ln : named_line c ln → ∃ m x r, Meta c = Some m ∧ line_call ln = Some (text (Name m)) ∧ ln = x :: r ∧ x ≠ "#"%ch.
Proof.
  intros (_ & m & pre & rest & Hm & -> & Hid & Hpre). unfold identb in Hid. apply andb_true_iff in Hid as [Hne%bool_decide_eq_true Hid]. exists m. unfold line_call.
  assert (Hp : ("("%ch ∉ pre) ∧ ∃ x r, pre ++ text (Name m) ++ "("%ch :: rest = x :: r ∧ x ≠ "#"%ch).
  { destruct Hpre as [->|(k & Hk & ->)].
    - split; [by apply not_elem_of_nil|]. destruct (text (Name m)) as [|x name] eqn:En; [done|]. exists x. eexists. split; [reflexivity|]. intros ->. done.
    - split; [|eexists _, _; split; [reflexivity|done]]. apply not_elem_of_app. split; [|intros H; repeat (apply elem_of_cons in H as [H|H]; [done|]); by apply not_elem_of_nil in H].
      apply ident_not; [|done]. cbn [var_name forallb]. by rewrite print_dec_ident. }
  destruct Hp as (Hp & x & r & Ex & Hx). exists x, r. split_and!; [done| |done|done].
  rewrite app_assoc, list_find_stop; [|apply not_elem_of_app; split; [done|by apply ident_not]]. cbv zeta. rewrite take_app_length.
  assert (Hcall : match list_find (λ c, c = "="%ch) (pre ++ text (Name m)) with None => pre ++ text (Name m) | Some (eq, _) => drop_while (λ c, bool_decide (c = " "%ch)) (drop (S eq) (pre ++ text (Name m))) end = text (Name m)).
  { destruct Hpre as [->|(k & Hk & ->)]; [cbn [app]; by rewrite list_find_absent by by apply ident_not|].
    change (text " = ") with ([" "%ch] ++ ["="%ch; " "%ch]). rewrite app_assoc. rewrite <-(app_assoc (var_name k ++ [" "%ch])). cbn [app]. rewrite list_find_stop.
    - rewrite drop_app_ge by lia. replace (S (length (var_name k ++ [" "%ch])) - length (var_name k ++ [" "%ch]))%nat with 1%nat by lia. cbn [drop drop_while]. rewrite bool_decide_eq_true_2 by done.
      destruct (text (Name m)) as [|y name]; [done|]. cbn [drop_while]. rewrite bool_decide_eq_false_2; [done|]. intros ->. done.
    - apply not_elem_of_app. split; [apply ident_not; [cbn [var_name forallb]; by rewrite print_dec_ident|done]|]. by intros ?%list_elem_of_singleton. }
  rewrite Hcall. by rewrite decide_False.
Qed.
Lemma call_set_named l lines : Forall2 named_line l lines → ∀ n calls ncalls, (length (unlines lines) ≤ n)%nat →
  call_set_lines n (unlines lines) calls ncalls = Some (list_to_set (omap (λ c, (λ m, text (Name m)) <$> Meta c) l) ∪ calls, ncalls + len l).
Proof.
  induction 1 as [|c ln l lines Hln _ IH]; intros n calls ncalls Hn.
  - assert (E : ncalls + len (@nil Call) = ncalls) by (unfold len; cbn; lia). rewrite E. destruct n; cbn; by rewrite union_empty_l_L.
  - destruct (line_call_named c ln Hln) as (m & x & r & Hm & Hcall & -> & Hx). pose proof (proj1 Hln) as Hnl. change (unlines ((x :: r) :: lines)) with (((x :: r) ++ [10]) ++ unlines lines) in *. rewrite <-app_assoc in *. cbn [app] in *. destruct n as [|n]; [cbn in Hn; lia|]. cbn [call_set_lines].
    pose proof (cut_line_at (x :: r) (unlines lines) Hnl) as Hcut. cbn [app] in Hcut. rewrite Hcut. rewrite decide_False by done. rewrite Hcall. rewrite IH by (cbn [length] in Hn; rewrite length_app in Hn; cbn [length] in Hn; lia).
    cbn [omap list_omap]. rewrite Hm. cbn [fmap option_fmap option_map list_to_set]. f_equal. apply pair_equal_spec. split; [set_solver|unfold len; cbn [length]; lia].
Qed.
Lemma CallSet_named l lines : l ≠ [] → Forall2 named_line l lines → CallSet (unlines lines) = Some (list_to_set (omap (λ c, (λ m, text (Name m)) <$> Meta c) l), len l).
Proof.
  intros Hl H. unfold CallSet. rewrite (call_set_named l lines H) by lia. rewrite union_empty_r_L. rewrite decide_False; [by rewrite Z.add_0_l|].
  destruct H as [|c ln l lines Hln _]; [done|]. destruct Hln as (_ & m & _ & _ & Hm & _). cbn [omap list_omap]. rewrite Hm. cbn. intros He%(f_equal (λ X : gset (list Z), bool_decide (text (Name m) ∈ X))). rewrite bool_decide_eq_true_2 in He by set_solver. rewrite bool_decide_eq_false_2 in He by set_solver. done.
Qed.

(** ** Printed programs *)

Lemma copy_open f out a : open_unions (copy_arg f out a) = open_unions a.
Proof.
  induction a as [c v|c ad v r Hr|c d s|c l Hl|c o i t Ho|r] using Arg_nested_ind; cbn [copy_arg open_unions]; try done.
  - by destruct r.
  - rewrite <-list_fmap_compose. f_equal. apply list_fmap_ext. intros i x Hx%list_elem_of_lookup_2. rewrite Forall_forall in Hl. by apply Hl.
  - by rewrite Ho.
Qed.
Lemma roots_open_nil l : (∀ a, a ∈ l → open_unions a = []) → roots_open l = [].
Proof. induction l as [|a l IH]; intros H; [done|]. unfold roots_open in *. cbn [fmap list_fmap concat]. rewrite H by by left. apply IH. intros x Hx. apply H. by right. Qed.
Section fitting.
Context (target : Target) (PtrSize : Z) (typeRefs : list Typ) (any : AnyTypes) (DecompressCheck : list Z → bool) (unsafe verbose : bool).
Local Abbreviation fit := (text_fits target PtrSize typeRefs any DecompressCheck unsafe verbose).
Lemma fits_fields_open dir l fs : Forall (λ a, ∀ r d, fit r d a = true → open_unions a = []) l → fits_fields typeRefs fit dir l fs = true → roots_open l = [].
Proof.
  intros Hl. revert fs. induction Hl as [|x l Hx Hl IH]; intros fs H; [done|]. destruct fs as [|g fs]; [done|]. cbn [fits_fields] in H. bools. unfold roots_open in *. cbn [fmap list_fmap concat]. rewrite (Hx _ _ H), (IH fs) by done. done.
Qed.
Lemma text_fits_open a : ∀ r dir, fit r dir a = true → open_unions a = [].
Proof.
  induction a as [c v|c ad v x Hx|c d s|c l Hl|c o i t Ho|x] using Arg_nested_ind; intros r dir; cbn [text_fits open_unions]; try done; destruct (index typeRefs r) as [ty|]; try done; intros H.
  - destruct x as [x|]; [|done]. bools. destruct (pointee _ _ _ _ _ _) as [[e d]|]; [|done]. by eapply Hx.
  - bools. destruct ty; try done; bools.
    + match goal with H : forallb _ _ = true |- _ => rename H into Hall end. rewrite forallb_forall in Hall. apply roots_open_nil. intros y Hy. rewrite Forall_forall in Hl. eapply Hl; [done|]. by apply Hall, list_elem_of_In.
    + by eapply fits_fields_open.
  - bools. destruct t; [done|]. cbn [app]. destruct ty; try done. destruct (index Fields i) as [fld|]; [|done]. destruct (isConditional Fields) as [cond|]; [|done]. bools. by eapply Ho.
Qed.
Lemma call_fits_open c : call_fits target PtrSize typeRefs any DecompressCheck unsafe verbose c → roots_open (Args c) = [].
Proof. intros (m & _ & _ & H). unfold fits_call in H. bools. eapply fits_fields_open; [|eassumption]. apply Forall_forall. intros a _. apply text_fits_open. Qed.
End fitting.

Definition tx_deserialize (mode : DeserializeMode) (txt : list Z) : result Prog :=
  Deserialize tx_target 8 tx_types tx_any tx_decode (λ _, true) (λ d, d) (λ p _ _, Ret (Some p)) 4 1 (λ l, l) mode txt 100.
